(* ===== verification/_CoqProject ===== *)
-Q . S2P
Prelude.v
GoText.v
GoFloat.v
GoJson.v
Sha256.v
GoDecode.v
GoTime.v
ContModel.v
ContState.v
ContWorkflow.v
Codec.v
CodecSpec.v
ContStore.v
Registry.v
Runtime.v
RuntimeSpec.v
Admin.v
WorkflowRuntime.v
WorkflowSpec.v
Access.v
Service.v
Idempotency.v
Outbox.v
Projection.v
ProjStore.v
ProjStream.v
ProjOwner.v
ProjOwnerSpec.v
ProjBackoff.v
ProjRuntime.v
ProjRuntimeSpec.v
ProjShard.v
ProjScheduler.v
ProjQuota.v
ProjReplica.v
Topology.v
TopologyManager.v
Coordination.v
Saga.v
SagaSpec.v
Breaker.v
Bulkhead.v
Pools.v
Cache.v
CacheSpec.v
CacheLocks.v
Retry.v
Hedging.v
RateLimit.v
Inbox.v
Discovery.v
Selector.v
SelectorSpec.v
Outlier.v
LoadShed.v
Admission.v
Config.v
Policy.v
StreamLimit.v
