(* ===== verification/Prelude.v ===== *)
(** * Keelith verification library

    This library models the core of Keelith (a Go service framework) and proves it correct:
    durable continuations (a call that survives its process) with their store, executor,
    workflows, service and on-disk format; projections (an owner streams its rows to replicas);
    the topology of epochs; sagas, leases, the outbox, the inbox and idempotent requests; a cache
    with invalidation; service discovery and the choice of nodes; layered configuration and the
    policies made from it; and the gates of service governance that these policies control.

    ** The program's parts and where they are modelled

    Shared, and Go itself:
    - [Prelude] (this file): results and errors, [uint64]/[uint32] arithmetic with its
      wrap-around, contexts ([context.Context] reduced to nil, live or ended with a cause),
      times as nanoseconds with 0 for [time.Time{}], sorted key lists of Go maps, and the
      generic lemmas, tactics and hints the other files share.
    - [GoText]: Go strings as byte sequences; [strings.TrimSpace], [utf8.ValidString] and
      [unicode.IsControl], from which every identity check of the code is built.
    - [GoFloat]: [float64] as IEEE-754 binary64 with its rounding, and bounds on its results.
    - [GoJson], [GoDecode], [GoTime]: [encoding/json] printing and parsing, base64, hexadecimal,
      decimal numbers, and [time.RFC3339Nano] with its calendar.
    - [Sha256]: SHA-256, executable, checked on standard vectors; command digests, workflow
      fingerprints, child identities, idempotency keys and shard scores are computed, not assumed.

    Package [programmable/continuation]:
    - [ContModel] has the data ([model.go], [decision.go], [input.go], [timer.go] and the
      durable workflow state of [workflow.go]); [ContState] the state machine ([state.go],
      [retention.go]); [ContWorkflow] workflow definitions, planning and outcome ([workflow.go]).
    - [ContStore]: the memory store ([memory/]) with the requests of [lease.go], [store.go] and
      [admin.go].  One Definition per method; every method holds the store mutex from its first
      access to its last, so a method is one atomic step and a concurrent run is a sequence of
      steps.
    - [Codec], [CodecSpec]: the snapshot format ([codec.go]), every version, and its proof.
    - [Registry]: machines and workflow definitions ([registry.go]).
    - [Runtime], [RuntimeSpec]: the executor ([runtime.go], [inline.go], [attach.go],
      [history.go] and their neighbours), generic in a store given by a type class; the law
      class is discharged by [ContStore].
    - [Admin]: the administration facade.  [WorkflowRuntime], [WorkflowSpec]: reconciliation of
      durable workflows ([workflow_runtime.go]), over the executor.
    - [Access], [Service]: packages [operation], [security] and [security/authz], the access list
      of a call, and the service that guards the runtime with them.

    Package [programmable/projection]:
    - [Projection]: schemas, cursors, mutations and frames.  [ProjStore]: the replica's memory
      store.  [ProjStream]: the contract of a subscription, on frames alone.  [ProjOwner],
      [ProjOwnerSpec]: the memory owner and the proof that its sessions keep the contract.
    - [ProjBackoff]: reconnect delays.  [ProjRuntime], [ProjRuntimeSpec]: the replica runtime as
      a step machine over a type class of collaborators, and its composition with store and owner.
    - [ProjShard]: shard resolvers and schema migrations.  [ProjScheduler], [ProjQuota]: the fair
      scheduler and the tenants' quotas.  [ProjReplica]: typed reads, waiting, sharded replicas
      and the router.

    The rest:
    - [Topology], [TopologyManager]: package [programmable/topology], plans, bindings, traffic
      weights and the manager of epochs.
    - [Coordination]: packages [coordination] and [coordination/memory].  Leases are pointers
      in the code and compared by identity; the model keeps them in a heap.
    - [Saga], [SagaSpec]: packages [saga] and [saga/memory].  The engine is generic in a world
      and calls it through the type classes [World], [Repository] and [Coord]; [SagaSpec] has
      the abstract protocol, the law [SoleOwner] the engine needs from its repository, and the
      proof that the memory repository has it.
    - [Outbox]: package [outbox], the dispatcher over a type class of repository and publisher.
    - [Inbox]: packages [inbox] and [worker] (dispositions), over every executor that keeps its
      documented contract.  [Idempotency]: package [governance/idempotency], over every store that
      refines a reference store, with requests that interleave.
    - [Cache], [CacheSpec], [CacheLocks]: packages [cache] and [cache/memory], every call a thread
      that is split at each shared access, over type classes of backends and flight groups; freshness,
      and absence of deadlock.
    - [Discovery]: packages [registry] and [registry/memory].  [Selector], [SelectorSpec]: package
      [selector], each [Select] split at its two critical sections.  [Outlier]: package
      [governance/outlier], an observer of the selectors.
    - [Config]: package [config], value trees and their merging, the manager and typed components.
      [Policy]: packages [governance/policy] and [operation] (matchers), from typed configuration to
      the policy of one call; it names the policy records of the gates below and proves that they
      accept what it resolves.
    - [Breaker]: packages [governance/failure] and [governance/breaker]; the failure ratio is
      a binary64 computation.
    - [Bulkhead]: package [governance/bulkhead]; waiters are pointers, kept in a heap.
      [Pools]: the maps of breakers and bulkheads by key.
    - [Retry], [Hedging], [RateLimit], [LoadShed], [Admission]: the packages of these names under
      [governance]: budgets, jitter, token buckets, the adaptive limit and the CPU sampler in binary64,
      permits in heaps, random sources as the list of their answers.  [StreamLimit]: package
      [governance/streamlimit], the quotas of streams above the shared limiters of [RateLimit].

    A Go method [(result, error)] with a pointer receiver becomes a function from the state to
    a [result] and the new state; nil receivers are left out unless the file says otherwise, nil
    contexts are kept.  Fields keep their names behind a short prefix.  String enumerations get
    one constructor per constant and one for every other string, so that the [valid] methods
    mean something.  A method that waits in a [select] is split there, and other steps may come
    between its parts.

    ** What the theorems show

    - State machine ([ContState]): acceptance of a move, preservation of validity without
      counter wrap-around, append-only logs, finality of terminal states, sticky cancellation,
      idempotent commands over whole histories, pruning.
    - Workflows ([ContWorkflow], [WorkflowSpec]): ordering of definitions and cycle detection,
      canonical fingerprints, stability of joins, progress of the planner; reconciliation
      terminates, keeps the history of its parent and starts every child once.
    - Store ([ContStore]): an invariant over all runs, refinement of independent call
      histories, mutual exclusion and fencing of executors, absence of lost updates,
      availability (claim, commit), exactness of listing, paging and collection.
    - Executor, service and format ([RuntimeSpec], [Service], [CodecSpec]): the runtime is a
      well-behaved client of the store, failures of a machine are recorded, attached readers
      get every event once and in order; nobody reaches a call the access list does not grant;
      a snapshot is read back as it was written.
    - Projections: a replica holds a state its owner had, at the cursor it reports
      ([replica_follows_owner]), over any cuts, gaps and failures; reads see one generation,
      waiters are woken; at most one permit and exact queue counts in the scheduler, exact quotas,
      positive and bounded delays in real binary64 arithmetic, stable shards.
    - Topology: exact traffic shares, complete bindings, exact counting of borrowed epochs and a
      route at every time of a rollout.
    - Coordination, sagas, outbox, inbox, idempotency: ownership generations, the saga guarantee
      over any number of interrupted runs, termination of a run; no accepted message is lost and every
      settlement follows its publication; the effects of a message are committed once; at most one
      owner of a request identity and replays only of what was completed for it.
    - Cache: nothing loaded before an invalidation survives it, with and without versions, for any
      number of replicas; the lock order excludes deadlock.
    - Discovery and selection: watchers converge to the registered instances; exact shares of weighted
      round robin; exact inflight counts; affinity of rendezvous hashing; ejection exactly by the
      run of failures.
    - Configuration and policies: merging keeps the priorities path by path; the manager publishes only
      what every validator accepts, and components without a failure serve exactly it; every field of a
      resolved policy comes from the most specific layer; every resolved policy is valid and accepted
      by the gates it enables; the store follows the configuration.
    - Governance: probe and slot accounting over all interleavings, FIFO, limits, recovery; retries
      within their budget by an exact bound on the binary64 product; the protocols of retrying and
      hedging; tokens, permits and the adaptive limit; exact shares of drop categories;
      quotas of streams over all interleavings of their messages.
    - Where the code falls short of its documentation or intent, a theorem shows the case (for example
      [stale_join], [interval_credited_twice], [filter_bypassed], [bootstrap_revision_ignored]).

    ** Bounds and fuel

    Machine integers keep their width: [uint64] operations are written with their wrap-around
    and theorems that need a counter not to wrap say so.  Go [int] values are unbounded
    integers where the code only counts in-memory objects with them.  Loops that are not
    structural take fuel, and a theorem shows it is enough: Kahn's loop gets one iteration per
    node ([workflow_definition_topological] has no [None] case), the saga loop 2n+2 iterations
    ([saga_run_returns]), the bulkhead's grant loop one per queued waiter, the JSON parser twice
    the length of the text, a client that pages through the store one page per call plus one, the
    scheduler's dispatch loop [dispatch_bound] turns, a read of a replica one turn per write that
    comes between plus one.  The loops of the outbox dispatcher and of the replica runtime run
    until they are stopped; their models take the number of turns, and the theorems hold for every
    number.

    ** What is not modelled

    Text of error messages; panics of user code other than where a file says so; functional options and
    accessors that copy fields.  Reflection (decoding configuration into structs), [regexp],
    [net/url], [math.Log], databases and random sources are parameters: type classes or arguments, with an
    executable instance wherever a theorem assumes something of them.  Left out are the programmable
    component factories and epoch runtimes (life cycle of goroutines around user code), the
    fallbacks, timeouts and the composition of the governance middlewares (wrappers around the
    gates that are modelled), capacity-aware selection, the runtime and the file and environment
    sources of the configuration, and the transports, code generation, command line and application
    wiring, which are I/O and text around the parts above. *)
From stdpp Require Export base gmap strings list sorting fin_maps relations.
From Stdlib Require Export ZArith Lia.

(** ** Results

    A Go function returning [(T, error)] is a function into [result E T]: [Ok v] is
    [(v, nil)], [Err e] is [(zero value, e)]. *)
Inductive result (E A : Type) : Type :=
| Ok (a : A)
| Err (e : E).
Arguments Ok {E A} a.
Arguments Err {E A} e.

#[export] Instance result_ret {E} : MRet (result E) := fun A a => Ok a.
#[export] Instance result_bind {E} : MBind (result E) :=
  fun A B f m => match m with Ok a => f a | Err e => Err e end.
#[export] Instance result_eq_dec {E A} `{EqDecision E, EqDecision A} :
  EqDecision (result E A).
Proof. solve_decision. Defined.

Definition is_ok {E A} (r : result E A) : bool :=
  match r with Ok _ => true | Err _ => false end.

Definition ok_or {E A} (r : result E A) (d : A) : A :=
  match r with Ok a => a | Err _ => d end.

(** [nil]-or-error results: [None] is Go's [nil] error. *)
Definition from_nil {E A} (e : option E) (a : A) : result E A :=
  match e with None => Ok a | Some e => Err e end.

Lemma bind_Ok {E A B} (m : result E A) (f : A → result E B) b :
  (m ≫= f) = Ok b ↔ ∃ a, m = Ok a ∧ f a = Ok b.
Proof.
  split.
  - destruct m as [a|e]; cbn; [eauto|done].
  - intros (a & -> & H). exact H.
Qed.

(** Run [f] on the elements in order and stop at the first error. *)
Fixpoint first_error {E A} (f : A → option E) (l : list A) : option E :=
  match l with
  | [] => None
  | a :: l => match f a with Some e => Some e | None => first_error f l end
  end.

Lemma first_error_None {E A} (f : A → option E) l :
  first_error f l = None ↔ ∀ a, a ∈ l → f a = None.
Proof.
  induction l as [|a l IH]; cbn; [set_solver|].
  destruct (f a) eqn:Ha.
  - split; [done|]. intros H. rewrite (H a) in Ha; [done|set_solver].
  - rewrite IH. set_solver.
Qed.

(** ** Contexts

    [context.Context]: nil, or a context whose [context.Cause] is read once at entry. *)
Inductive context (E : Type) : Type :=
| NilContext
| Context (cause : option E).
Arguments NilContext {E}.
Arguments Context {E} cause.

(** ** Machine integers and time *)
Definition max_u64 : Z := 18446744073709551615.
Definition max_u32 : Z := 4294967295.
Definition u64_add (x y : Z) : Z := (x + y) mod (max_u64 + 1).
Definition u64_sub (x y : Z) : Z := (x - y) mod (max_u64 + 1).
Definition u32_add (x y : Z) : Z := (x + y) mod (max_u32 + 1).
Definition is_u64 (x : Z) : Prop := (0 ≤ x ≤ max_u64)%Z.
Definition is_u32 (x : Z) : Prop := (0 ≤ x ≤ max_u32)%Z.

Lemma u64_add_small x y : (0 ≤ x + y ≤ max_u64)%Z → u64_add x y = (x + y)%Z.
Proof. unfold u64_add, max_u64. intros H. apply Z.mod_small. lia. Qed.

Lemma u64_sub_small x y : (0 ≤ x - y ≤ max_u64)%Z → u64_sub x y = (x - y)%Z.
Proof. unfold u64_sub, max_u64. intros H. apply Z.mod_small. lia. Qed.

Lemma u32_add_small x y : (0 ≤ x + y ≤ max_u32)%Z → u32_add x y = (x + y)%Z.
Proof. unfold u32_add, max_u32. intros H. apply Z.mod_small. lia. Qed.

(** Two's complement at 64 bits, for [int] and [time.Duration]. *)
Definition max_i64 : Z := 9223372036854775807.
Definition i64 (x : Z) : Z := ((x + (max_i64 + 1)) mod (max_u64 + 1) - (max_i64 + 1))%Z.

Lemma i64_small x : (- (max_i64 + 1) ≤ x ≤ max_i64)%Z → i64 x = x.
Proof. unfold i64, max_i64, max_u64. intros H. rewrite Z.mod_small by lia. lia. Qed.

Lemma u64_add_range x y : is_u64 (u64_add x y).
Proof.
  unfold is_u64, u64_add. pose proof (Z.mod_pos_bound (x + y) (max_u64 + 1)) as H.
  unfold max_u64 in *. lia.
Qed.

(** [time.Time] as nanoseconds after Go's zero time (year 1, UTC), so [IsZero] is [=? 0];
    the location and the monotonic reading are not represented. *)
Definition time : Type := Z.
Definition duration : Type := Z.
Definition IsZero (t : time) : bool := (t =? 0)%Z.
Definition After (t u : time) : bool := (u <? t)%Z.
Definition Before (t u : time) : bool := (t <? u)%Z.
Definition microsecond : duration := 1000%Z.
Definition millisecond : duration := 1000000%Z.
Definition second : duration := 1000000000%Z.
Definition minute : duration := 60000000000%Z.
Definition hour : duration := 3600000000000%Z.

(** A configuration field that is zero takes its default. *)
Definition or_default (value fallback : Z) : Z := if (value =? 0)%Z then fallback else value.

(** Go's [len] on strings and slices. *)
Definition zlen {A} (l : list A) : Z := Z.of_nat (length l).
Definition slen (s : string) : Z := Z.of_nat (String.length s).

Lemma zlen_app {A} (l k : list A) : zlen (l ++ k) = (zlen l + zlen k)%Z.
Proof. unfold zlen. rewrite length_app. lia. Qed.
Lemma zlen_nonneg {A} (l : list A) : (0 ≤ zlen l)%Z.
Proof. unfold zlen. lia. Qed.
Lemma zlen_cons {A} (a : A) l : zlen (a :: l) = (1 + zlen l)%Z.
Proof. unfold zlen. cbn [length]. lia. Qed.

(** ** Notation: Go's [==] and [!=] on types with decidable equality *)
Declare Scope keelith_scope.
Delimit Scope keelith_scope with keelith.
Notation "x == y" := (bool_decide (x = y)) (at level 70, no associativity) : keelith_scope.
Notation "x != y" := (negb (bool_decide (x = y))) (at level 70, no associativity) : keelith_scope.
Open Scope keelith_scope.

(** ** A test on every entry of a map ([for key, value := range m]) *)
Definition map_forallb {A} (f : string → A → bool) (m : gmap string A) : bool :=
  forallb (λ p, f p.1 p.2) (map_to_list m).

Lemma map_forallb_spec {A} (f : string → A → bool) (m : gmap string A) :
  map_forallb f m = true ↔ ∀ k a, m !! k = Some a → f k a = true.
Proof.
  unfold map_forallb. rewrite forallb_forall. split.
  - intros H k a Hk. apply (H (k, a)). by apply list_elem_of_In, elem_of_map_to_list.
  - intros H [k a] Hin. apply H. by apply elem_of_map_to_list, list_elem_of_In.
Qed.

(** ** Automation *)

(** Boolean tests as propositions, in the hypotheses. *)
Create HintDb keelith.

Ltac bool_hyps :=
  repeat match goal with
  | H : _ && _ = true |- _ => apply andb_true_iff in H; destruct H
  | H : _ || _ = false |- _ => apply orb_false_iff in H; destruct H
  | H : negb _ = true |- _ => apply negb_true_iff in H
  | H : negb _ = false |- _ => apply negb_false_iff in H
  | H : bool_decide _ = true |- _ => apply bool_decide_eq_true in H
  | H : bool_decide _ = false |- _ => apply bool_decide_eq_false in H
  | H : (_ =? _)%Z = true |- _ => apply Z.eqb_eq in H
  | H : (_ =? _)%Z = false |- _ => apply Z.eqb_neq in H
  | H : (_ <? _)%Z = true |- _ => apply Z.ltb_lt in H
  | H : (_ <? _)%Z = false |- _ => apply Z.ltb_ge in H
  | H : (_ <=? _)%Z = true |- _ => apply Z.leb_le in H
  | H : (_ <=? _)%Z = false |- _ => apply Z.leb_gt in H
  end.

(** Range and equality facts on concrete values. *)
Ltac concrete :=
  repeat match goal with |- _ ∧ _ => split end;
  first [ reflexivity | vm_compute; reflexivity | vm_compute; discriminate
        | vm_compute; split; discriminate | done ].

(** Follow the guards of a Go function: case on the tests of a hypothesis until it is an
    equation between constructors. *)
Ltac guards :=
  repeat (case_match; simplify_eq/=; try done); try done.

(** ** Filters *)
Lemma list_filter_ext {A} (P Q : A → Prop) `{!∀ x, Decision (P x), !∀ x, Decision (Q x)} (l : list A) :
  (∀ x, x ∈ l → P x ↔ Q x) → filter P l = filter Q l.
Proof.
  induction l as [|x l IH]; intros Hx; [done|]. rewrite !filter_cons, IH by set_solver.
  pose proof (Hx x ltac:(set_solver)). repeat case_decide; tauto.
Qed.

Lemma list_filter_all {A} (P : A → Prop) `{!∀ x, Decision (P x)} (l : list A) :
  (∀ x, x ∈ l → P x) → filter P l = l.
Proof.
  induction l as [|x l IH]; intros Hx; [done|].
  rewrite filter_cons_True by set_solver. f_equal. apply IH. set_solver.
Qed.

Lemma list_filter_none {A} (P : A → Prop) `{!∀ x, Decision (P x)} (l : list A) :
  (∀ x, x ∈ l → ¬ P x) → filter P l = [].
Proof.
  induction l as [|x l IH]; intros Hx; [done|].
  rewrite filter_cons_False by set_solver. apply IH. set_solver.
Qed.

Lemma NoDup_fmap_filter {A B} (f : A → B) (P : A → Prop) `{!∀ x, Decision (P x)} (l : list A) :
  NoDup (f <$> l) → NoDup (f <$> filter P l).
Proof.
  induction l as [|a l IH]; [done|]. rewrite fmap_cons, NoDup_cons. intros [Ha Hl].
  rewrite filter_cons. case_decide; [|auto]. rewrite fmap_cons. constructor; [|auto].
  intros (b & Heq & [_ Hin]%list_elem_of_filter)%list_elem_of_fmap. apply Ha.
  rewrite Heq. by apply list_elem_of_fmap_2.
Qed.

Lemma existsb_exists_false {A} (f : A → bool) (l : list A) x :
  existsb f l = false → In x l → f x = true → False.
Proof.
  intros Hf Hin Hx. enough (existsb f l = true) by congruence. apply existsb_exists. eauto.
Qed.

(** ** Counting *)
Lemma count_insert {A} (f : A → bool) (l : list A) i x y :
  l !! i = Some x →
  (zlen (List.filter f (<[i := y]> l)) + Z.b2z (f x) = zlen (List.filter f l) + Z.b2z (f y))%Z.
Proof.
  revert i. induction l as [|a l IH]; intros i Hi; [done|]. destruct i as [|i].
  - cbn in Hi. injection Hi as ->. change (<[0%nat := y]> (x :: l)) with (y :: l). cbn [List.filter].
    destruct (f x), (f y); rewrite ?zlen_cons; cbn [Z.b2z]; lia.
  - specialize (IH i Hi). change (<[S i := y]> (a :: l)) with (a :: <[i := y]> l). cbn [List.filter].
    destruct (f a); rewrite ?zlen_cons; lia.
Qed.

Lemma count_none {A} (f : A → bool) (l : list A) :
  (∀ x, x ∈ l → f x = false) → zlen (List.filter f l) = 0%Z.
Proof.
  induction l as [|a l IH]; intros Hl; [done|]. cbn. rewrite (Hl a) by set_solver. apply IH. set_solver.
Qed.

Lemma count_pos {A} (f : A → bool) (l : list A) :
  (∃ x, x ∈ l ∧ f x = true) → (0 < zlen (List.filter f l))%Z.
Proof.
  intros (x & Hx & Hf). induction l as [|a l IH]; [set_solver|]. cbn. apply elem_of_cons in Hx as [->|Hx].
  - rewrite Hf, zlen_cons. pose proof (zlen_nonneg (List.filter f l)). lia.
  - specialize (IH Hx). destruct (f a); [rewrite zlen_cons|]; lia.
Qed.

(** ** Sorted keys ([sort.Strings] on the keys of a map) *)
Definition sort_strings (l : list string) : list string := merge_sort String.le l.

Lemma sort_strings_perm l : sort_strings l ≡ₚ l.
Proof. apply merge_sort_Permutation. Qed.

Lemma sort_strings_sorted l : StronglySorted String.le (sort_strings l).
Proof. apply StronglySorted_merge_sort; apply _. Qed.

Lemma elem_of_sort_strings x l : x ∈ sort_strings l ↔ x ∈ l.
Proof. by rewrite sort_strings_perm. Qed.

Lemma NoDup_sort_strings l : NoDup (sort_strings l) ↔ NoDup l.
Proof. by rewrite sort_strings_perm. Qed.

Lemma length_sort_strings l : length (sort_strings l) = length l.
Proof. by rewrite sort_strings_perm. Qed.

(** Go's bytewise [<] on strings. *)
Definition string_lt (s t : string) : bool := String.ltb s t.

Lemma string_lt_le s t : string_lt s t = true ↔ String.le s t ∧ s ≠ t.
Proof.
  unfold string_lt, String.le, String.ltb, String.leb.
  pose proof (String.compare_eq_iff s t) as Hs.
  assert (Hr : s = t → String.compare s t = Eq).
  { intros ->. pose proof (String.compare_antisym t t) as Ha. by destruct (String.compare t t). }
  destruct (String.compare s t); split; try done; try naive_solver.
Qed.

(** In a duplicate-free sorted list, filtering by [> x] keeps what follows [x]. *)
Lemma filter_after (A B : list string) x :
  StronglySorted String.le (A ++ x :: B) → NoDup (A ++ x :: B) →
  filter (λ k, string_lt x k = true) (A ++ x :: B) = B.
Proof.
  intros Hs Hnd. apply StronglySorted_app in Hs as (Hcross & _ & HB).
  apply StronglySorted_cons in HB as [HxB _]. rewrite filter_app.
  apply NoDup_app in Hnd as (_ & Hdis & HndB). apply NoDup_cons in HndB as [HxnB _].
  rewrite (list_filter_none _ A), filter_cons_False, (list_filter_all _ B); [done|..].
  - intros k Hk. apply string_lt_le. split; [by eapply Forall_forall in HxB|]. by intros ->.
  - by intros [_ ?]%string_lt_le.
  - intros k Hk [Hle Hne]%string_lt_le. apply Hne. apply (anti_symm String.le); [done|].
    apply Hcross; set_solver.
Qed.

Lemma filter_from_least (l : list string) :
  (∀ k, k ∈ l → k ≠ "") → filter (λ k, string_lt "" k = true) l = l.
Proof. intros H. apply list_filter_all. intros k Hk%H. by destruct k. Qed.

(** The keys of a map whose entries satisfy a test, in [sort.Strings] order. *)
Section sorted_keys.
  Context {A : Type}.
  Implicit Types (m : gmap string A) (f : string → A → bool).

Definition sorted_keys f m : list string :=
  sort_strings (fst <$> filter (λ p, f p.1 p.2) (map_to_list m)).

Lemma elem_of_sorted_keys f m k :
  k ∈ sorted_keys f m ↔ ∃ a, m !! k = Some a ∧ f k a = true.
Proof.
  unfold sorted_keys. rewrite elem_of_sort_strings, list_elem_of_fmap. split.
  - intros ([k' a] & -> & [Hf Hin]%list_elem_of_filter).
    exists a. split; [by apply elem_of_map_to_list|]. by apply Is_true_true.
  - intros (a & Hm & Hf). exists (k, a). split; [done|].
    apply list_elem_of_filter. split; [by apply Is_true_true|].
    by apply elem_of_map_to_list.
Qed.

Lemma NoDup_sorted_keys f m : NoDup (sorted_keys f m).
Proof.
  unfold sorted_keys. apply NoDup_sort_strings, NoDup_fmap_filter, NoDup_fst_map_to_list.
Qed.

Lemma sorted_keys_sorted f m : StronglySorted String.le (sorted_keys f m).
Proof. apply sort_strings_sorted. Qed.

(** Strengthening the test filters the sorted list. *)
Lemma sorted_keys_filter f (p : string → Prop) `{!∀ k, Decision (p k)} m :
  sorted_keys (λ k a, f k a && bool_decide (p k)) m = filter p (sorted_keys f m).
Proof.
  assert (Hs : ∀ l, StronglySorted String.le l → StronglySorted String.le (filter p l)).
  { induction 1 as [|x l Hl IH Hx]; [constructor|]. rewrite filter_cons. case_decide; [|done].
    constructor; [done|]. rewrite Forall_forall in *. intros y [_ Hy]%list_elem_of_filter. auto. }
  apply (StronglySorted_unique String.le); [apply sorted_keys_sorted|apply Hs, sorted_keys_sorted|].
  apply NoDup_Permutation; [apply NoDup_sorted_keys|apply NoDup_filter, NoDup_sorted_keys|].
  intros k. rewrite list_elem_of_filter, !elem_of_sorted_keys. setoid_rewrite andb_true_iff.
  setoid_rewrite bool_decide_eq_true. naive_solver.
Qed.
End sorted_keys.

(** Go's [if len(keys) > limit { keys = keys[:limit] }]. *)
Lemma truncate_take {A} (limit : Z) (l : list A) :
  (if (limit <? zlen l)%Z then take (Z.to_nat limit) l else l) = take (Z.to_nat limit) l.
Proof.
  destruct (Z.ltb_spec limit (zlen l)) as [|H]; [done|]. symmetry. apply take_ge. unfold zlen in H. lia.
Qed.
