(* ===== verification/GoText.v ===== *)
(** * Go text: byte strings, UTF-8, [strings.TrimSpace] and the identity checks

    A Go [string] (and a [[]byte] payload) is a Rocq [string], a sequence of bytes.  This
    file models the parts of [unicode/utf8], [unicode], [strings] and [encoding/hex] the
    modelled packages call, and the identity predicate [valid_text] they share: the
    repository repeats it as [validIdentity] (continuation, saga), [validLeaseOwner]
    (continuation) and [validKey] (coordination/memory), each with its own length bound. *)
From S2P Require Import Prelude.
From Stdlib Require Import Ascii.
Open Scope Z_scope.

(** ** Bytes *)
Definition byte_val (a : Ascii.ascii) : Z := Z.of_N (Ascii.N_of_ascii a).
Definition bytes_of (s : string) : list Z := byte_val <$> String.list_ascii_of_string s.
Definition string_of_bytes (l : list Z) : string :=
  String.string_of_list_ascii ((λ b, Ascii.ascii_of_N (Z.to_N b)) <$> l).

Lemma length_bytes_of s : length (bytes_of s) = String.length s.
Proof. unfold bytes_of. rewrite length_fmap. induction s; cbn; congruence. Qed.

Lemma string_of_bytes_of s : string_of_bytes (bytes_of s) = s.
Proof.
  unfold string_of_bytes, bytes_of. induction s as [|a s IH]; cbn; [done|].
  unfold byte_val at 1. rewrite N2Z.id, Ascii.ascii_N_embedding. by f_equal.
Qed.

(** ** [unicode/utf8] *)
Definition in_range (lo hi b : Z) : bool := (lo <=? b) && (b <=? hi).
Definition cont (b : Z) : bool := in_range 128 191 b.

(** [utf8.DecodeRune]: the first rune with the remaining bytes, [None] when the encoding is
    invalid (or there is no byte).  The accepted second-byte ranges are those of the package's
    [acceptRanges] table. *)
Definition decode_rune (l : list Z) : option (Z * list Z) :=
  match l with
  | [] => None
  | b0 :: l1 =>
      if b0 <? 128 then Some (b0, l1)
      else match l1 with
      | [] => None
      | b1 :: l2 =>
          if in_range 194 223 b0 then
            if cont b1 then Some ((b0 - 192) * 64 + (b1 - 128), l2) else None
          else match l2 with
          | [] => None
          | b2 :: l3 =>
              if in_range 224 239 b0 then
                let lo := if b0 =? 224 then 160 else 128 in
                let hi := if b0 =? 237 then 159 else 191 in
                if in_range lo hi b1 && cont b2 then
                  Some ((b0 - 224) * 4096 + (b1 - 128) * 64 + (b2 - 128), l3)
                else None
              else match l3 with
              | [] => None
              | b3 :: l4 =>
                  if in_range 240 244 b0 then
                    let lo := if b0 =? 240 then 144 else 128 in
                    let hi := if b0 =? 244 then 143 else 191 in
                    if in_range lo hi b1 && cont b2 && cont b3 then
                      Some ((b0 - 240) * 262144 + (b1 - 128) * 4096
                              + (b2 - 128) * 64 + (b3 - 128), l4)
                    else None
                  else None
              end
          end
      end
  end.

(** The runes of a valid string ([for _, r := range value]); [None] for invalid UTF-8.  Each
    rune takes at least one byte, so the byte count is enough fuel. *)
Fixpoint runes_fuel (fuel : nat) (l : list Z) : option (list Z) :=
  match l, fuel with
  | [], _ => Some []
  | _, O => None
  | _, S fuel =>
      match decode_rune l with
      | None => None
      | Some (r, rest) => cons r <$> runes_fuel fuel rest
      end
  end.
Definition runes (s : string) : option (list Z) :=
  runes_fuel (String.length s) (bytes_of s).

(** [utf8.ValidString]. *)
Definition ValidString (s : string) : bool :=
  match runes s with Some _ => true | None => false end.

(** ** [unicode] *)
Definition IsControl (r : Z) : bool := in_range 0 31 r || in_range 127 159 r.

(** The UTF-8 encodings of the runes [unicode.IsSpace] accepts. *)
Definition space_encodings : list (list Z) :=
  [[9]; [10]; [11]; [12]; [13]; [32]; [194; 133]; [194; 160]; [225; 154; 128];
   [226; 128; 128]; [226; 128; 129]; [226; 128; 130]; [226; 128; 131]; [226; 128; 132];
   [226; 128; 133]; [226; 128; 134]; [226; 128; 135]; [226; 128; 136]; [226; 128; 137];
   [226; 128; 138]; [226; 128; 168]; [226; 128; 169]; [226; 128; 175]; [226; 129; 159];
   [227; 128; 128]].

(** ** [strings.TrimSpace]

    Trimming on the left drops encodings of spaces from the front; trimming on the right
    drops them from the back, that is, drops reversed encodings from the front of the
    reversed bytes ([utf8.DecodeLastRune] yields a space exactly when the string ends with
    the encoding of one). *)
Fixpoint strip_prefix (p l : list Z) : option (list Z) :=
  match p, l with
  | [], _ => Some l
  | a :: p, b :: l => if a =? b then strip_prefix p l else None
  | _ :: _, [] => None
  end.
Fixpoint strip_any (ps : list (list Z)) (l : list Z) : option (list Z) :=
  match ps with
  | [] => None
  | p :: ps => match strip_prefix p l with Some r => Some r | None => strip_any ps l end
  end.
Fixpoint trim_with (ps : list (list Z)) (fuel : nat) (l : list Z) : list Z :=
  match fuel with
  | O => l
  | S fuel => match strip_any ps l with Some r => trim_with ps fuel r | None => l end
  end.
Definition trim_left (l : list Z) : list Z := trim_with space_encodings (length l) l.
Definition trim_right (l : list Z) : list Z :=
  reverse (trim_with (reverse <$> space_encodings) (length l) (reverse l)).
Definition TrimSpace (s : string) : string :=
  string_of_bytes (trim_right (trim_left (bytes_of s))).

(** ** The shared identity check *)
Definition valid_text (maximum : Z) (value : string) : bool :=
  negb (bool_decide (value = "")) &&
  (slen value <=? maximum) &&
  bool_decide (TrimSpace value = value) &&
  match runes value with
  | None => false
  | Some rs => forallb (λ r, negb (IsControl r)) rs
  end.

Lemma valid_text_nonempty m v : valid_text m v = true → v ≠ "".
Proof. unfold valid_text. intros H. bool_hyps. done. Qed.

Lemma valid_text_length m v : valid_text m v = true → 0 < slen v ≤ m.
Proof.
  intros H. pose proof (valid_text_nonempty _ _ H) as Hne.
  unfold valid_text in H. bool_hyps. split; [|done].
  destruct v; [done|]. unfold slen. cbn [String.length]. lia.
Qed.

Lemma valid_text_mono m m' v : m ≤ m' → valid_text m v = true → valid_text m' v = true.
Proof.
  unfold valid_text. intros Hm H. bool_hyps. repeat (apply andb_true_iff; split); try done.
  - apply negb_true_iff. by apply bool_decide_eq_false.
  - apply Z.leb_le. lia.
  - by apply bool_decide_eq_true.
Qed.

(** ** Prefixes, splitting, hex *)
Definition HasPrefix (s p : string) : bool := String.prefix p s.

(** [strings.Split(s, "/")] *)
Fixpoint split_slash (cur : string) (s : string) : list string :=
  match s with
  | EmptyString => [String.rev cur]
  | String a s' =>
      if Ascii.eqb a "/"%char then String.rev cur :: split_slash "" s'
      else split_slash (String a cur) s'
  end.
Definition SplitSlash (s : string) : list string := split_slash "" s.

Definition hex_digit (n : Z) : Z := if n <? 10 then 48 + n else 87 + n.
Definition hex_encode_bytes (l : list Z) : list Z :=
  flat_map (λ b, [hex_digit (b / 16); hex_digit (b mod 16)]) l.
Definition hex_encode (s : string) : string := string_of_bytes (hex_encode_bytes (bytes_of s)).

(** [hex.DecodeString] succeeds. *)
Definition is_hex_char (b : Z) : bool :=
  in_range 48 57 b || in_range 97 102 b || in_range 65 70 b.
Definition hex_decodable (s : string) : bool :=
  Z.even (slen s) && forallb is_hex_char (bytes_of s).

(** Big-endian fixed-width integers ([encoding/binary]). *)
Fixpoint be_bytes (n : nat) (x : Z) : list Z :=
  match n with
  | O => []
  | S n => (x / 256 ^ Z.of_nat n) mod 256 :: be_bytes n x
  end.

(** ** Plain ASCII identities are valid

    A non-empty string of graphic ASCII bytes passes every clause of the check. *)
Definition graphic (b : Z) : bool := in_range 33 126 b.

Lemma strip_prefix_length p l r : strip_prefix p l = Some r → length l = (length p + length r)%nat.
Proof.
  revert l. induction p as [|a p IH]; intros [|b l]; cbn; try (intros; simplify_eq; done).
  destruct (a =? b); [|done]. intros H%IH. lia.
Qed.

Lemma strip_any_None_head ps l :
  Forall (λ p, ∃ a q, p = a :: q ∧ ∀ b l', l = b :: l' → a ≠ b) ps →
  strip_any ps l = None.
Proof.
  induction 1 as [|p ps (a & q & -> & Ha) _ IH]; cbn; [done|].
  destruct l as [|b l']; [done|].
  destruct (Z.eqb_spec a b) as [->|_]; [|done]. by destruct (Ha b l').
Qed.

Lemma graphic_not_space b l :
  graphic b = true → strip_any space_encodings (b :: l) = None.
Proof.
  unfold graphic, in_range. intros H. bool_hyps. apply strip_any_None_head.
  unfold space_encodings. repeat constructor; eexists _, _; split; try done; intros; simplify_eq; lia.
Qed.

Lemma graphic_not_space_rev b l :
  graphic b = true → strip_any (reverse <$> space_encodings) (b :: l) = None.
Proof.
  unfold graphic, in_range. intros H. bool_hyps. apply strip_any_None_head.
  unfold space_encodings. cbn. repeat constructor; eexists _, _; split; try done; intros; simplify_eq; lia.
Qed.

Lemma trim_left_graphic b l : graphic b = true → trim_left (b :: l) = b :: l.
Proof. intros H. unfold trim_left. cbn [length trim_with]. by rewrite graphic_not_space. Qed.

Lemma trim_right_graphic l b : graphic b = true → trim_right (l ++ [b]) = l ++ [b].
Proof.
  intros H. unfold trim_right. rewrite length_app, Nat.add_comm. cbn [length plus trim_with].
  rewrite reverse_app, reverse_singleton. cbn [app]. rewrite graphic_not_space_rev by done.
  by rewrite reverse_cons, reverse_involutive.
Qed.

Lemma runes_graphic fuel l :
  Forall (λ b, graphic b = true) l → (length l ≤ fuel)%nat → runes_fuel fuel l = Some l.
Proof.
  intros H. revert fuel. induction H as [|b l Hb _ IH]; intros fuel Hf; [by destruct fuel|].
  destruct fuel as [|fuel]; [cbn in Hf; lia|]. cbn -[decode_rune].
  unfold decode_rune. unfold graphic, in_range in Hb. bool_hyps.
  rewrite (proj2 (Z.ltb_lt b 128)) by lia. rewrite IH by (cbn in Hf; lia). done.
Qed.

Lemma valid_text_graphic m v :
  v ≠ "" → slen v ≤ m → Forall (λ b, graphic b = true) (bytes_of v) → valid_text m v = true.
Proof.
  intros Hne Hlen Hg. unfold valid_text. repeat (apply andb_true_iff; split).
  - by apply negb_true_iff, bool_decide_eq_false.
  - by apply Z.leb_le.
  - apply bool_decide_eq_true. unfold TrimSpace.
    destruct (bytes_of v) as [|b l] eqn:Hb.
    { destruct v; [done|]. unfold bytes_of in Hb. done. }
    rewrite trim_left_graphic by (by inversion Hg).
    destruct (exists_last (l := b :: l)) as (l' & b' & Hl); [done|].
    rewrite Hl, trim_right_graphic.
    + rewrite <- Hl, <- Hb. apply string_of_bytes_of.
    + rewrite Hl in Hg. apply Forall_app in Hg as [_ Hg]. by inversion Hg.
  - unfold runes. rewrite runes_graphic; [|done|by rewrite length_bytes_of].
    apply forallb_forall. intros r Hr. rewrite Forall_forall in Hg.
    apply list_elem_of_In, Hg in Hr. unfold graphic, IsControl, in_range in *. bool_hyps.
    apply negb_true_iff, orb_false_iff. split; apply andb_false_iff;
      [right|left]; apply Z.leb_gt; lia.
Qed.

Lemma bytes_of_app s t : bytes_of (s +:+ t) = bytes_of s ++ bytes_of t.
Proof. unfold bytes_of. induction s as [|a s IH]; cbn; [done|]. by rewrite <- IH. Qed.

Lemma slen_app s t : slen (s +:+ t) = slen s + slen t.
Proof. unfold slen. rewrite <- !length_bytes_of, bytes_of_app, length_app. lia. Qed.
