(* ===== verification/GoFloat.v ===== *)
(** * Go's float64

    IEEE-754 binary64 as the Standard Library specifies it ([SpecFloat]), with the conversions
    and operations the modelled packages use. *)
From S2P Require Import Prelude.
From Stdlib Require Export Floats.SpecFloat.
Open Scope Z_scope.

(** [float64(z)] for an integer [z], rounded to nearest even. *)
Definition float64 (z : Z) : spec_float := binary_normalize 53 1024 z 0 false.
Definition div64 (x y : spec_float) : spec_float := SFdiv 53 1024 x y.
Definition add64 (x y : spec_float) : spec_float := SFadd 53 1024 x y.
Definition sub64 (x y : spec_float) : spec_float := SFsub 53 1024 x y.
Definition mul64 (x y : spec_float) : spec_float := SFmul 53 1024 x y.

(** [math.Min]: minus infinity, then NaN, then the smaller zero, decide first. *)
Definition min64 (x y : spec_float) : spec_float :=
  match x, y with
  | S754_infinity true, _ | _, S754_infinity true => S754_infinity true
  | S754_nan, _ | _, S754_nan => S754_nan
  | S754_zero sx, S754_zero sy => if sx then x else y
  | _, _ => if SFltb x y then x else y
  end.

(** The integer part of a finite number, rounded towards zero, and the least integer not below it;
    a conversion of anything else to an integer is not defined by the language, and [None]. *)
Definition trunc64 (x : spec_float) : option Z :=
  match x with
  | S754_zero _ => Some 0
  | S754_finite s m e => let a := if 0 <=? e then Zpos m * 2 ^ e else Zpos m / 2 ^ (- e) in Some (if s then - a else a)
  | _ => None
  end.
Definition ceil64 (x : spec_float) : option Z :=
  match x with
  | S754_zero _ => Some 0
  | S754_finite s m e =>
      let v := if s then Zneg m else Zpos m in
      Some (if 0 <=? e then v * 2 ^ e else - (- v / 2 ^ (- e)))
  | _ => None
  end.

(** [Duration.Seconds] *)
Definition duration_seconds (d : duration) : spec_float :=
  add64 (float64 (Z.quot d second)) (div64 (float64 (Z.rem d second)) (float64 1000000000)).

(** ** Rounding

    What a rounded result looks like: never NaN, at most 53 digits, exactly 53 unless it is
    subnormal, and an exponent close to that of the exact value. *)
Abbreviation fexp64 := (fexp 53 1024) (only parsing).
Abbreviation round64 := (binary_round_aux 53 1024) (only parsing).

Lemma digits2_spec p : 2 ^ (Zpos (digits2_pos p) - 1) ≤ Zpos p < 2 ^ Zpos (digits2_pos p).
Proof.
  induction p as [p IH|p IH|]; cbn [digits2_pos]; [..|done]; rewrite Pos2Z.inj_succ; replace (Z.succ (Zpos (digits2_pos p)) - 1) with (Zpos (digits2_pos p)) by lia;
    rewrite Z.pow_succ_r by lia; replace (2 ^ Zpos (digits2_pos p)) with (2 * 2 ^ (Zpos (digits2_pos p) - 1)) in * by (rewrite <- Z.pow_succ_r by lia; f_equal; lia); lia.
Qed.
Lemma Zdigits2_pos m : 0 < m → 2 ^ (Zdigits2 m - 1) ≤ m < 2 ^ Zdigits2 m ∧ 1 ≤ Zdigits2 m.
Proof. destruct m as [|p|p]; [done| |done]. intros _. pose proof (digits2_spec p). cbn [Zdigits2]. lia. Qed.
Lemma Zdigits2_bound m k : 0 ≤ m < 2 ^ k → 0 ≤ k → Zdigits2 m ≤ k.
Proof.
  intros Hm Hk. destruct (decide (m = 0)) as [->|]; [done|]. destruct (Zdigits2_pos m) as [[Hl _] Hd]; [lia|].
  assert (2 ^ (Zdigits2 m - 1) < 2 ^ k) as Hlt by lia. apply Z.pow_lt_mono_r_iff in Hlt; lia.
Qed.
Lemma Zdigits2_lower m k : 2 ^ k ≤ m → 0 ≤ k → k + 1 ≤ Zdigits2 m.
Proof.
  intros Hm Hk. assert (0 < 2 ^ k) by (apply Z.pow_pos_nonneg; lia). destruct (Zdigits2_pos m) as [[_ Hu] Hd]; [lia|].
  assert (2 ^ k < 2 ^ Zdigits2 m) as Hlt by lia. apply Z.pow_lt_mono_r_iff in Hlt; lia.
Qed.

Lemma shr_1_m x : 0 ≤ shr_m x → shr_m (shr_1 x) = shr_m x / 2.
Proof.
  destruct x as [m r s]. cbn. intros Hm. rewrite <- Z.div2_div. destruct m as [|[p|p|]|]; done || lia.
Qed.
Lemma iter_shr_m p x : 0 ≤ shr_m x → shr_m (iter_pos shr_1 p x) = shr_m x / 2 ^ Zpos p.
Proof.
  revert x. induction p as [p IH|p IH|]; intros x Hx; cbn [iter_pos].
  - pose proof (shr_1_m x Hx) as E1. assert (N1 : 0 ≤ shr_m (shr_1 x)) by (rewrite E1; apply Z.div_pos; lia).
    pose proof (IH _ N1) as E2. assert (N2 : 0 ≤ shr_m (iter_pos shr_1 p (shr_1 x))) by (rewrite E2; apply Z.div_pos; lia).
    rewrite (IH _ N2), E2, E1, !Z.div_div by lia. f_equal. replace (Zpos p~1) with (Zpos p + Zpos p + 1) by lia. rewrite !Z.pow_add_r by lia. ring.
  - pose proof (IH _ Hx) as E1. assert (N1 : 0 ≤ shr_m (iter_pos shr_1 p x)) by (rewrite E1; apply Z.div_pos; lia).
    rewrite (IH _ N1), E1, Z.div_div by lia. f_equal. replace (Zpos p~0) with (Zpos p + Zpos p) by lia. rewrite Z.pow_add_r by lia. ring.
  - by apply shr_1_m.
Qed.
Lemma shr_m_of_loc m l : shr_m (shr_record_of_loc m l) = m.
Proof. by destruct l as [|[]]. Qed.

(** One call of [shr_fexp] on a nonnegative mantissa. *)
Lemma shr_fexp_spec m e l : 0 ≤ m →
  let k := Z.max 0 (fexp64 (Zdigits2 m + e) - e) in
  shr_m (shr_fexp 53 1024 m e l).1 = m / 2 ^ k ∧ (shr_fexp 53 1024 m e l).2 = e + k.
Proof.
  intros Hm k. unfold shr_fexp, shr. subst k. destruct (fexp 53 1024 (Zdigits2 m + e) - e) as [|p|p]; cbn [fst snd].
  - rewrite shr_m_of_loc, Z.max_id, Z.pow_0_r, Z.div_1_r. split; [done|lia].
  - rewrite iter_shr_m by (by rewrite shr_m_of_loc). by rewrite shr_m_of_loc.
  - rewrite shr_m_of_loc, Z.max_l, Z.pow_0_r, Z.div_1_r by lia. split; [done|lia].
Qed.
Lemma round_nearest_even_bound m l : m ≤ round_nearest_even m l ≤ m + 1.
Proof. destruct l as [|[]]; cbn; try lia. destruct (Z.even m); lia. Qed.

(** The exponent before the carry of rounding. *)
Definition exponent_of (m e : Z) : Z := Z.max e (Z.max (Zdigits2 m + e - 53) (-1074)).

Lemma round64_cases s m e l : 0 ≤ m →
  (∃ s', round64 s m e l = S754_zero s' ∧ (e ≤ fexp64 (Zdigits2 m + e) → exponent_of m e = -1074)) ∨
  (round64 s m e l = S754_infinity s ∧ 971 < exponent_of m e + 1) ∨
  ∃ m' e', round64 s m e l = S754_finite s m' e' ∧ Zpos m' < 2 ^ 53 ∧ exponent_of m e ≤ e' ≤ exponent_of m e + 1 ∧ e' ≤ 971 ∧
    Zpos m' * 2 ^ (e' - exponent_of m e) ≤ m / 2 ^ (exponent_of m e - e) + 1 ∧
    (e ≤ fexp64 (Zdigits2 m + e) → e' = -1074 ∨ 2 ^ 52 ≤ Zpos m').
Proof.
  intros Hm. unfold binary_round_aux. destruct (shr_fexp_spec m e l Hm) as [H1 H1']. cbn zeta in *.
  destruct (shr_fexp 53 1024 m e l) as [mrs1 e1]. cbn [fst snd] in *.
  set (k := Z.max 0 (fexp64 (Zdigits2 m + e) - e)) in *.
  assert (Ek : e1 = exponent_of m e) by (subst e1 k; unfold exponent_of, fexp, emin; lia).
  set (m1 := shr_m mrs1) in *. assert (N1 : 0 ≤ m1) by (rewrite H1; apply Z.div_pos; [done|apply Z.pow_pos_nonneg; lia]).
  assert (U1 : m1 < 2 ^ 53).
  { rewrite H1. apply Z.div_lt_upper_bound; [apply Z.pow_pos_nonneg; lia|]. rewrite <- Z.pow_add_r by lia.
    destruct (decide (m = 0)) as [->|]; [apply Z.pow_pos_nonneg; lia|]. destruct (Zdigits2_pos m) as [[_ Hu] _]; [lia|].
    eapply Z.lt_le_trans; [exact Hu|]. apply Z.pow_le_mono_r; [lia|]. subst k. unfold fexp, emin. lia. }
  pose proof (round_nearest_even_bound m1 (loc_of_shr_record mrs1)) as R. set (m2 := round_nearest_even m1 (loc_of_shr_record mrs1)) in *.
  assert (N2 : 0 ≤ m2) by lia. destruct (shr_fexp_spec m2 e1 loc_Exact N2) as [H2 H2']. cbn zeta in *.
  destruct (shr_fexp 53 1024 m2 e1 loc_Exact) as [mrs2 e2]. cbn [fst snd] in *.
  assert (He1 : -1074 ≤ e1) by (rewrite Ek; unfold exponent_of; lia).
  assert (Hcarry : (m2 < 2 ^ 53 ∧ shr_m mrs2 = m2 ∧ e2 = e1) ∨ (m2 = 2 ^ 53 ∧ shr_m mrs2 = 2 ^ 52 ∧ e2 = e1 + 1)).
  { destruct (decide (m2 < 2 ^ 53)) as [Hlt|Hge].
    - left. pose proof (Zdigits2_bound m2 53 ltac:(lia) ltac:(lia)). rewrite Z.max_l in H2, H2' by (unfold fexp, emin; lia).
      rewrite Z.pow_0_r, Z.div_1_r in H2. split; [done|]. split; [done|lia].
    - right. assert (m2 = 2 ^ 53) as E by lia. rewrite E in H2, H2'. change (Zdigits2 (2 ^ 53)) with 54 in *.
      replace (Z.max 0 (fexp 53 1024 (54 + e1) - e1)) with 1 in * by (unfold fexp, emin; lia). done. }
  assert (Hfull : e ≤ fexp64 (Zdigits2 m + e) → e1 = -1074 ∨ 2 ^ 52 ≤ m1).
  { intros Hfe. destruct (decide (e1 = -1074)) as [|Hn]; [by left|right].
    assert (Hd : k = Zdigits2 m - 53 ∧ 0 ≤ k). { subst k. unfold exponent_of, fexp, emin in *. lia. }
    rewrite H1. apply Z.div_le_lower_bound; [apply Z.pow_pos_nonneg; lia|].
    rewrite <- Z.pow_add_r by lia. destruct (decide (m = 0)) as [->|]; [cbn in Hd; lia|]. destruct (Zdigits2_pos m) as [[Hl _] _]; [lia|].
    replace (k + 52) with (Zdigits2 m - 1) by lia. done. }
  destruct (shr_m mrs2) as [|p|p] eqn:Ep.
  - left. eexists. split; [done|]. intros [Hs|Hs]%Hfull; [lia|]. destruct Hcarry as [(_ & ? & _)|(_ & ? & _)]; lia.
  - right. destruct (Z.leb_spec e2 (1024 - 53)) as [Hle|Hgt].
    + right. exists p, e2. split; [done|]. split; [destruct Hcarry as [(? & ? & _)|(_ & ? & _)]; lia|]. split; [lia|]. split; [lia|]. split.
      { rewrite <- Ek. replace (e1 - e) with k by lia. rewrite <- H1. destruct Hcarry as [(_ & Hp & ->)|(Hm2 & Hp & ->)].
        - rewrite Z.sub_diag, Z.pow_0_r. lia.
        - replace (e1 + 1 - e1) with 1 by lia. rewrite Hp. lia. }
      intros Hs%Hfull. destruct Hcarry as [(_ & <- & ->)|(_ & -> & _)]; [|by right]. destruct Hs; [by left|right; lia].
    + left. split; [done|]. lia.
  - exfalso. destruct Hcarry as [(_ & ? & _)|(_ & ? & _)]; lia.
Qed.

(** ** Tame numbers: finite, at most 53 digits, an exponent of at most [E]. *)
Definition tame (E : Z) (x : spec_float) : Prop :=
  match x with
  | S754_zero _ => True
  | S754_finite _ m e => Zpos m < 2 ^ 53 ∧ e ≤ E
  | _ => False
  end.
Lemma tame_weaken E F x : tame E x → E ≤ F → tame F x.
Proof. destruct x; cbn; intros; try done. lia. Qed.
Lemma round64_tame s m e l E : 0 ≤ m → exponent_of m e ≤ E → E < 971 → tame (E + 1) (round64 s m e l).
Proof.
  intros Hm He HE. destruct (round64_cases s m e l Hm) as [(s' & -> & _)|[[_ Hinf]|(m' & e' & -> & Hm' & He' & _)]]; [done|lia|cbn; lia].
Qed.

Lemma tame_mul E F x y : tame E x → tame F y → Z.max (E + F + 53) (-1074) < 971 → tame (Z.max (E + F + 53) (-1074) + 1) (mul64 x y).
Proof.
  destruct x as [s| | |s m e], y as [s'| | |s' m' e']; try done. intros [Hm He] [Hm' He'] Hb. unfold mul64, SFmul.
  apply round64_tame; [lia| |done]. unfold exponent_of. pose proof (Zdigits2_bound (Zpos (m * m')) 106) as Hd. rewrite Pos2Z.inj_mul in *.
  change (2 ^ 106) with (2 ^ 53 * 2 ^ 53) in Hd. nia.
Qed.

Lemma shl_align_spec m e e' : e' ≤ e → Zpos (shl_align m e e').1 = Zpos m * 2 ^ (e - e') ∧ (shl_align m e e').2 = e'.
Proof.
  intros Hle. unfold shl_align. destruct (e' - e) as [|p|p] eqn:He; [|lia|]; cbn [fst snd].
  - replace (e - e') with 0 by lia. split; lia.
  - replace (e - e') with (Zpos p) by lia. split; [|done]. clear. induction p as [|p IH] using Pos.peano_ind; [cbn; lia|].
    rewrite Pos.iter_succ, Pos2Z.inj_xO, IH, Pos2Z.inj_succ, Z.pow_succ_r by lia. ring.
Qed.

(** A normalized integer multiple of [2 ^ e]. *)
Lemma normalize_tame z e b E : Z.max (Zdigits2 z + e - 53) (-1074) ≤ E → E < 971 → tame (E + 1) (binary_normalize 53 1024 z e b).
Proof.
  intros Hz HE. assert (Hr : ∀ s p, Zdigits2 z = Zdigits2 (Zpos p) → tame (E + 1) (binary_round 53 1024 s p e)); [|destruct z; cbn [binary_normalize]; [done|by apply Hr..]].
  intros s p Hd. rewrite Hd in Hz. cbn [Zdigits2] in Hz. unfold binary_round. set (f := fexp64 (Zpos (digits2_pos p) + e)).
  assert (Hf : f = Z.max (Zpos (digits2_pos p) + e - 53) (-1074)) by (subst f; unfold fexp, emin; lia).
  destruct (Z.le_gt_cases f e) as [Hle|Hgt].
  - destruct (shl_align_spec p e f Hle) as [Hm He]. destruct (shl_align p e f) as [mz ez]. cbn [fst snd] in *. subst ez.
    apply round64_tame; [lia| |done]. unfold exponent_of. rewrite Hm.
    pose proof (digits2_spec p) as [_ Hu]. pose proof (Z.pow_pos_nonneg 2 (e - f) ltac:(lia) ltac:(lia)) as Hp.
    assert (Hd' : Zdigits2 (Zpos p * 2 ^ (e - f)) ≤ Zpos (digits2_pos p) + (e - f)); [|lia].
    apply Zdigits2_bound; [|lia]. rewrite Z.pow_add_r by lia. nia.
  - unfold shl_align. destruct (f - e) as [|q|q] eqn:Hfe; try lia.
    apply round64_tame; [lia| |done]. unfold exponent_of. cbn [Zdigits2]. lia.
Qed.
Lemma Zdigits2_abs z k : Z.abs z < 2 ^ k → 0 ≤ k → Zdigits2 z ≤ k.
Proof. intros Hz Hk. replace (Zdigits2 z) with (Zdigits2 (Z.abs z)) by (by destruct z). apply Zdigits2_bound; lia. Qed.

(** The exact sum or difference of two tame numbers, before rounding. *)
Lemma aligned_tame E m e m' e' s s' b (op : Z → Z → Z) : (∀ x y, Z.abs (op x y) ≤ Z.abs x + Z.abs y) →
  Zpos m < 2 ^ 53 → Zpos m' < 2 ^ 53 → e ≤ E → e' ≤ E → -1074 ≤ E < 969 →
  tame (E + 2) (binary_normalize 53 1024 (op (cond_Zopp s (Zpos (shl_align m e (Z.min e e')).1)) (cond_Zopp s' (Zpos (shl_align m' e' (Z.min e e')).1))) (Z.min e e') b).
Proof.
  intros Hop Hm Hm' He He' HE. replace (E + 2) with (E + 1 + 1) by lia.
  destruct (shl_align_spec m e (Z.min e e')) as [-> _]; [lia|]. destruct (shl_align_spec m' e' (Z.min e e')) as [-> _]; [lia|].
  apply normalize_tame; [|lia]. set (z := op _ _). assert (Hz : Z.abs z < 2 ^ (54 + (E - Z.min e e'))).
  { eapply Z.le_lt_trans; [apply Hop|]. rewrite Z.pow_add_r by lia.
    assert (Hb : ∀ n x s, Zpos n < 2 ^ 53 → x ≤ E → Z.min e e' ≤ x → Z.abs (cond_Zopp s (Zpos n * 2 ^ (x - Z.min e e'))) < 2 ^ 53 * 2 ^ (E - Z.min e e')).
    { intros n x t Hn Hx Hmin. assert (Hp : 2 ^ (x - Z.min e e') ≤ 2 ^ (E - Z.min e e')) by (apply Z.pow_le_mono_r; lia).
      assert (0 < 2 ^ (x - Z.min e e')) by (apply Z.pow_pos_nonneg; lia).
      assert (Z.abs (cond_Zopp t (Zpos n * 2 ^ (x - Z.min e e'))) = Zpos n * 2 ^ (x - Z.min e e')) as -> by (destruct t; cbn [cond_Zopp]; lia). nia. }
    pose proof (Hb m e s Hm He ltac:(lia)). pose proof (Hb m' e' s' Hm' He' ltac:(lia)). change (2 ^ 54) with (2 * 2 ^ 53). lia. }
  apply Zdigits2_abs in Hz; lia.
Qed.
Lemma tame_add E x y : tame E x → tame E y → -1074 ≤ E < 969 → tame (E + 2) (add64 x y).
Proof.
  intros Hx Hy HE. destruct x as [[]| | |s m e], y as [[]| | |s' m' e']; try done; cbn in *; try lia.
  apply (aligned_tame E m e m' e' s s' false Z.add); lia.
Qed.
Lemma tame_sub E x y : tame E x → tame E y → -1074 ≤ E < 969 → tame (E + 2) (sub64 x y).
Proof.
  intros Hx Hy HE. destruct x as [[]| | |s m e], y as [[]| | |s' m' e']; try done; cbn in *; try lia.
  apply (aligned_tame E m e m' e' s s' false Z.sub); lia.
Qed.

Lemma tame_div E x s' m' e' : tame E x → Z.max (E - e') (-1074) < 971 → tame (Z.max (E - e') (-1074) + 1) (div64 x (S754_finite s' m' e')).
Proof.
  destruct x as [s| | |s m e]; try done. intros [Hm He] Hb. unfold div64, SFdiv. destruct (SFdiv_core_binary _ _ _ _ _ _) as [[mz ez] lz] eqn:Hc.
  unfold SFdiv_core_binary in Hc. set (e0 := Z.min _ _) in Hc. set (sh := e - e' - e0) in Hc.
  assert (Hsh : 0 ≤ sh) by lia. replace (match sh with Z0 => Zpos m | Zpos _ => Z.shiftl (Zpos m) sh | Zneg _ => 0 end) with (Zpos m * 2 ^ sh) in Hc.
  2:{ destruct sh; [lia|by rewrite Z.shiftl_mul_pow2|lia]. }
  destruct (Z.div_eucl (Zpos m * 2 ^ sh) (Zpos m')) as [q r] eqn:Hq. injection Hc as <- <- <-.
  assert (Hq' : q = Zpos m * 2 ^ sh / Zpos m') by (unfold Z.div; by rewrite Hq).
  assert (Hp : 0 < 2 ^ sh) by (apply Z.pow_pos_nonneg; lia).
  assert (0 ≤ q < 2 ^ (53 + sh)) as Hqb. { rewrite Hq'. split; [apply Z.div_pos; lia|]. apply Z.div_lt_upper_bound; [lia|]. rewrite Z.pow_add_r by lia. nia. }
  apply round64_tame; [lia| |done]. unfold exponent_of. pose proof (Zdigits2_bound q (53 + sh) ltac:(lia) ltac:(lia)). lia.
Qed.

(** ** Integers as numbers *)
Lemma round64_exact s m e : 2 ^ 52 ≤ Zpos m < 2 ^ 53 → -1074 ≤ e ≤ 971 → round64 s (Zpos m) e loc_Exact = S754_finite s m e.
Proof.
  intros Hm He. assert (Hd : Zdigits2 (Zpos m) = 53).
  { pose proof (Zdigits2_bound (Zpos m) 53). pose proof (Zdigits2_lower (Zpos m) 52). lia. }
  unfold binary_round_aux, shr_fexp. rewrite Hd. replace (fexp 53 1024 (53 + e) - e) with 0 by (unfold fexp, emin; lia). cbn [shr shr_record_of_loc shr_m loc_of_shr_record round_nearest_even].
  rewrite Hd. replace (fexp 53 1024 (53 + e) - e) with 0 by (unfold fexp, emin; lia). cbn [shr shr_m]. destruct (Z.leb_spec e (1024 - 53)); [done|lia].
Qed.

(** [float64(z)] is exact below [2 ^ 53]: 53 digits and a scale. *)
Lemma float64_exact z : 0 < z < 2 ^ 53 → ∃ m k, float64 z = S754_finite false m (- k) ∧ 0 ≤ k ≤ 52 ∧ 2 ^ 52 ≤ Zpos m < 2 ^ 53 ∧ Zpos m = z * 2 ^ k.
Proof.
  intros Hz. destruct z as [|p|p]; [lia| |lia]. unfold float64. cbn [binary_normalize]. unfold binary_round. rewrite Z.add_0_r.
  pose proof (digits2_spec p) as Hp. pose proof (Zdigits2_bound (Zpos p) 53 ltac:(lia) ltac:(lia)) as Hd. cbn [Zdigits2] in Hd.
  replace (fexp 53 1024 (Zpos (digits2_pos p))) with (Zpos (digits2_pos p) - 53) by (unfold fexp, emin; lia).
  destruct (shl_align_spec p 0 (Zpos (digits2_pos p) - 53)) as [Hm He]; [lia|]. destruct (shl_align p 0 _) as [mz ez]. cbn [fst snd] in *. subst ez.
  assert (Hk : 2 ^ 52 ≤ Zpos mz < 2 ^ 53).
  { rewrite Hm. set (d := Zpos (digits2_pos p)) in *. pose proof (Z.pow_pos_nonneg 2 (0 - (d - 53)) ltac:(lia) ltac:(lia)).
    assert (2 ^ 52 = 2 ^ (d - 1) * 2 ^ (0 - (d - 53))) as -> by (rewrite <- Z.pow_add_r by lia; f_equal; lia).
    assert (2 ^ 53 = 2 ^ d * 2 ^ (0 - (d - 53))) as -> by (rewrite <- Z.pow_add_r by lia; f_equal; lia). nia. }
  exists mz, (53 - Zpos (digits2_pos p)). rewrite round64_exact by lia. replace (0 - (Zpos (digits2_pos p) - 53)) with (53 - Zpos (digits2_pos p)) in Hm by lia.
  split; [f_equal; lia|]. split; [lia|]. done.
Qed.
(** A number of 53 bits over [2 ^ 53] is a positive number of binary64. *)
Lemma div64_unit n : 0 < n ≤ 2 ^ 53 → ∃ m e, div64 (float64 n) (float64 (2 ^ 53)) = S754_finite false m e ∧ Zpos m < 2 ^ 53 ∧ -1074 ≤ e ≤ 971.
Proof.
  intros Hn. destruct (decide (n = 2 ^ 53)) as [->|]; [eexists _, _; split; [vm_compute; reflexivity|lia]|].
  destruct (float64_exact n) as (m & k & -> & Hk & Hm & _); [lia|]. change (float64 (2 ^ 53)) with (S754_finite false 4503599627370496 1).
  assert (Hd : Zdigits2 (Zpos m) = 53) by (pose proof (Zdigits2_bound (Zpos m) 53); pose proof (Zdigits2_lower (Zpos m) 52); lia).
  unfold div64, SFdiv, SFdiv_core_binary. rewrite Hd. change (Zdigits2 (Zpos 4503599627370496)) with 53.
  replace (Z.min (fexp 53 1024 (53 + - k - (53 + 1))) (- k - 1)) with (- k - 54) by (unfold fexp, emin; lia).
  replace (- k - 1 - (- k - 54)) with 53 by lia. cbn [xorb]. rewrite Z.shiftl_mul_pow2 by lia.
  destruct (Z.div_eucl (Zpos m * 2 ^ 53) (Zpos 4503599627370496)) as [q r] eqn:Hq.
  assert (Hq' : q = 2 * Zpos m).
  { assert (Hdiv : Zpos m * 2 ^ 53 / Zpos 4503599627370496 = q) by (unfold Z.div; by rewrite Hq). rewrite <- Hdiv.
    replace (Zpos m * 2 ^ 53) with (2 * Zpos m * 4503599627370496) by lia. by rewrite Z.div_mul. }
  assert (Hdq : Zdigits2 q = 54) by (pose proof (Zdigits2_bound q 54); pose proof (Zdigits2_lower q 53); lia).
  match goal with |- context [binary_round_aux 53 1024 false q (- k - 54) ?l] => destruct (round64_cases false q (- k - 54) l ltac:(lia)) as [(s' & _ & Hz)|[[_ Hi]|(m' & e' & -> & Hm' & He' & He'' & _)]] end;
    unfold exponent_of in *; rewrite ?Hdq in *.
  - exfalso. assert (- k - 54 ≤ fexp 53 1024 (54 + (- k - 54))) as Hf by (unfold fexp, emin; lia). specialize (Hz Hf). lia.
  - exfalso. lia.
  - exists m', e'. split; [done|]. split; [done|]. lia.
Qed.
Lemma float64_tame z : 0 ≤ z < 2 ^ 53 → tame 0 (float64 z).
Proof. intros Hz. destruct (decide (z = 0)) as [->|]; [done|]. destruct (float64_exact z) as (m & k & -> & Hk & Hm & _); [lia|]. cbn. lia. Qed.
Lemma trunc_float64 z : 0 < z < 2 ^ 53 → trunc64 (float64 z) = Some z.
Proof.
  intros Hz. destruct (float64_exact z Hz) as (m & k & -> & Hk & Hm & E). cbn [trunc64]. rewrite E, Z.opp_involutive.
  pose proof (Z.pow_pos_nonneg 2 k ltac:(lia) ltac:(lia)). destruct (Z.leb_spec 0 (- k)) as [H0|H0]; f_equal.
  - replace k with 0 by lia. rewrite Z.opp_0, !Z.pow_0_r. lia.
  - apply Z.div_mul. lia.
Qed.

(** Comparison of positive numbers is lexicographic, exponent first. *)
Lemma compare_pos m e m' e' : SFcompare (S754_finite false m e) (S754_finite false m' e') =
  Some (if e <? e' then Lt else if e' <? e then Gt else Zpos m ?= Zpos m').
Proof.
  cbn. destruct (Z.compare_spec e e') as [->|Hlt|Hgt]; [rewrite Z.ltb_irrefl; done|by destruct (Z.ltb_spec e e'); [|lia]|].
  destruct (Z.ltb_spec e e'); [lia|]. by destruct (Z.ltb_spec e' e); [|lia].
Qed.

(** Full precision, or below every integer. *)
Definition full (x : spec_float) : Prop := match x with S754_finite _ m e => e = -1074 ∨ 2 ^ 52 ≤ Zpos m | _ => True end.

(** A number clamped between 1 and an integer below [2 ^ 53] becomes an integer in this range. *)
Lemma clamp_range M x E : 1 ≤ M < 2 ^ 53 → tame E x → full x →
  let y := if SFltb (float64 M) x then float64 M else x in
  let z := if SFltb y (float64 1) then float64 1 else y in
  ∃ t, trunc64 z = Some t ∧ 1 ≤ t ≤ M.
Proof.
  intros HM Ht Hf y z. destruct (float64_exact M) as (mM & kM & EM & HkM & HmM & EqM); [lia|]. destruct (float64_exact 1) as (m1 & k1 & E1 & Hk1 & Hm1 & Eq1); [lia|].
  assert (Hone : trunc64 (float64 1) = Some 1) by (apply trunc_float64; lia).
  destruct (SFltb (float64 M) x) eqn:Hbig.
  - assert (trunc64 y = Some M) as Hy by (subst y; apply trunc_float64; lia). subst z. destruct (SFltb y (float64 1)); [exists 1|exists M]; split; done || lia.
  - subst y z. destruct (SFltb x (float64 1)) eqn:Hsmall; [exists 1; split; done || lia|].
    destruct x as [s| | |s m e]; [by rewrite E1 in Hsmall|done..|]. destruct s; [by rewrite E1 in Hsmall|]. destruct Ht as [Hm He]. cbn [full] in Hf.
    unfold SFltb in *. rewrite EM, compare_pos in Hbig. rewrite E1, compare_pos in Hsmall.
    assert (k1 = 52 ∧ Zpos m1 = 2 ^ 52) as [-> Em1].
    { rewrite Z.mul_1_l in Eq1. assert (2 ^ 52 ≤ 2 ^ k1) as Hle by lia. apply Z.pow_le_mono_r_iff in Hle; [|lia..]. replace k1 with 52 in * by lia. lia. }
    (* 1 <= x *)
    assert (-52 ≤ e ∧ 2 ^ 52 ≤ Zpos m) as [He1 Hm2].
    { destruct (Z.ltb_spec e (- (52))); [done|]. split; [lia|]. destruct Hf; lia. }
    (* x <= M *)
    assert (e ≤ - kM ∧ (e = - kM → Zpos m ≤ Zpos mM)) as [HeM HmMx].
    { destruct (Z.ltb_spec (- kM) e); [done|]. split; [lia|]. intros ->. rewrite Z.ltb_irrefl in Hbig. destruct (Z.compare_spec (Zpos mM) (Zpos m)); lia || done. }
    assert (Hval : Zpos m * 2 ^ kM ≤ M * 2 ^ kM * 2 ^ (- e)).
    { rewrite <- EqM. destruct (decide (e = - kM)) as [->|]; [rewrite Z.opp_involutive; apply Z.mul_le_mono_nonneg_r; [apply Z.pow_nonneg; lia|by apply HmMx]|].
      replace (- e) with (kM + 1 + (- e - kM - 1)) by lia. rewrite !Z.pow_add_r by lia.
      pose proof (Z.pow_pos_nonneg 2 kM ltac:(lia) ltac:(lia)). pose proof (Z.pow_pos_nonneg 2 (- e - kM - 1) ltac:(lia) ltac:(lia)). change (2 ^ 1) with 2.
      transitivity (2 * Zpos mM * 2 ^ kM); [apply Z.mul_le_mono_pos_r; lia|]. nia. }
    assert (Hval' : Zpos m ≤ M * 2 ^ (- e)). { pose proof (Z.pow_pos_nonneg 2 kM ltac:(lia) ltac:(lia)). nia. }
    assert (Hlow : 2 ^ (- e) ≤ Zpos m). { eapply Z.le_trans; [|exact Hm2]. apply Z.pow_le_mono_r; lia. }
    pose proof (Z.pow_pos_nonneg 2 (- e) ltac:(lia) ltac:(lia)) as Hp. cbn [trunc64]. destruct (Z.leb_spec 0 e) as [H0|H0].
    + assert (e = 0) as -> by lia. exists (Zpos m * 2 ^ 0). split; [done|]. rewrite Z.opp_0, Z.pow_0_r in *. lia.
    + exists (Zpos m / 2 ^ (- e)). split; [done|]. split; [apply Z.div_le_lower_bound; lia|apply Z.div_le_upper_bound; lia].
Qed.

(** A positive number of at most one. *)
Definition unit_ratio (y : spec_float) : Prop := ∃ m e, y = S754_finite false m e ∧ Zpos m < 2 ^ 53 ∧ -1074 ≤ e ∧ SFleb y (float64 1) = true.
Lemma unit_ratio_bound y : unit_ratio y → ∃ m e, y = S754_finite false m e ∧ e ≤ 0 ∧ Zpos m ≤ 2 ^ (- e) ∧ -1074 ≤ e.
Proof.
  intros (m & e & -> & Hm & He & Hle). exists m, e. split; [done|]. destruct (float64_exact 1) as (m1 & k1 & E1 & Hk1 & Hm1 & Eq1); [lia|].
  assert (k1 = 52 ∧ Zpos m1 = 2 ^ 52) as [-> Em1].
  { rewrite Z.mul_1_l in Eq1. assert (2 ^ 52 ≤ 2 ^ k1) as Hx by lia. apply Z.pow_le_mono_r_iff in Hx; [|lia..]. replace k1 with 52 in * by lia. lia. }
  unfold SFleb in Hle. rewrite E1, compare_pos in Hle. destruct (Z.ltb_spec e (- (52))) as [Hlt|Hge].
  - split; [lia|]. split; [|done]. transitivity (2 ^ 53); [lia|]. apply Z.pow_le_mono_r; lia.
  - destruct (Z.ltb_spec (- (52)) e) as [|Hge']; [done|]. assert (e = -52) as -> by lia. split; [lia|]. split; [|done].
    destruct (Z.compare_spec (Zpos m) (Zpos m1)) as [Hx|Hx|Hx]; [change (2 ^ (- -52)) with (2 ^ 52); lia..|done].
Qed.
(** A positive number in units of the smallest one, [2 ^ -1074]. *)
Definition scaled (y : spec_float) : Z := match y with S754_finite false m e => Zpos m * 2 ^ (e + 1074) | _ => 0 end.
Lemma unit_ratio_scaled y : unit_ratio y → 0 < scaled y ≤ 2 ^ 1074.
Proof.
  intros (m & e & -> & He & Hm & Hmin)%unit_ratio_bound. cbn [scaled]. pose proof (Z.pow_pos_nonneg 2 (e + 1074) ltac:(lia) ltac:(lia)).
  replace (2 ^ 1074) with (2 ^ (- e) * 2 ^ (e + 1074)) by (rewrite <- Z.pow_add_r by lia; f_equal; lia). generalize dependent (2 ^ (- e)). intros. nia.
Qed.
(** The integer part of an integer times such a number exceeds the exact product by at most a half. *)
Lemma trunc_mul_scaled p y : 0 ≤ p < 2 ^ 52 → unit_ratio y →
  ∃ z, trunc64 (mul64 (float64 p) y) = Some z ∧ 0 ≤ z ∧ z * 2 ^ 1074 ≤ p * scaled y + 2 ^ 1073.
Proof.
  intros Hp (my & ey & -> & Hey & Hmy & Hmin)%unit_ratio_bound.
  destruct (decide (p = 0)) as [->|Hp0]; [exists 0; split; [done|]; split; [done|]; rewrite !Z.mul_0_l; apply Z.pow_nonneg; lia|].
  destruct (float64_exact p) as (m & k & -> & Hk & Hm & Heq); [lia|].
  assert (Hk1 : 1 ≤ k). { destruct (decide (k = 0)) as [->|]; [|lia]. rewrite Z.pow_0_r in Heq. lia. }
  unfold mul64, SFmul. cbn [xorb scaled]. set (M := Zpos (m * my)). set (E := - k + ey). set (S := Zpos my * 2 ^ (ey + 1074)).
  assert (HS : 0 ≤ S) by (apply Z.mul_nonneg_nonneg; [lia|apply Z.pow_nonneg; lia]).
  pose proof (Z.pow_pos_nonneg 2 (- ey) ltac:(lia) ltac:(lia)) as Hpow.
  assert (HM : 0 < M ≤ Zpos m * 2 ^ (- ey)) by (subst M; rewrite Pos2Z.inj_mul; nia).
  assert (Hd : Zdigits2 M ≤ 53 - ey). { apply Zdigits2_bound; [|lia]. split; [lia|]. replace (53 - ey) with (53 + - ey) by lia. rewrite Z.pow_add_r by lia. nia. }
  set (X := exponent_of M E). assert (HX : E ≤ X ≤ - k ∧ -1074 ≤ X) by (subst X E; unfold exponent_of; lia).
  pose proof (Z.pow_nonneg 2 1073 ltac:(lia)) as Hhalf.
  destruct (round64_cases false M E loc_Exact ltac:(lia)) as [(s' & -> & _)|[[_ Hinf]|(m' & e' & -> & Hm' & He' & _ & Hv & _)]];
    [exists 0; split; [done|]; split; [done|]; rewrite Z.mul_0_l; apply Z.add_nonneg_nonneg; [apply Z.mul_nonneg_nonneg; lia|done]|fold X in Hinf; lia|].
  fold X in He', Hv.
  assert (Hval : Zpos m' * 2 ^ (e' + 1074) ≤ p * S + 2 ^ 1073).
  { pose proof (Z.pow_pos_nonneg 2 k ltac:(lia) ltac:(lia)) as Hpk. apply (Z.mul_le_mono_pos_r _ _ (2 ^ k)); [done|].
    transitivity ((M / 2 ^ (X - E) + 1) * 2 ^ (X + 1074 + k)).
    - apply (Z.mul_le_mono_nonneg_r _ _ (2 ^ (X + 1074 + k))) in Hv; [|apply Z.pow_nonneg; lia]. etransitivity; [|exact Hv].
      rewrite <- !Z.mul_assoc, <- !Z.pow_add_r by lia. apply Z.eq_le_incl. do 2 f_equal. lia.
    - rewrite !Z.mul_add_distr_r, Z.mul_1_l, <- Z.pow_add_r by lia. apply Z.add_le_mono; [|apply Z.pow_le_mono_r; lia].
      replace (X + 1074 + k) with ((X - E) + (ey + 1074)) by (subst E; lia). rewrite Z.pow_add_r, Z.mul_assoc by lia.
      transitivity (M * 2 ^ (ey + 1074)).
      + apply Z.mul_le_mono_nonneg_r; [apply Z.pow_nonneg; lia|]. rewrite Z.mul_comm. apply Z.mul_div_le, Z.pow_pos_nonneg; lia.
      + apply Z.eq_le_incl. subst M S. rewrite Pos2Z.inj_mul, Heq. ring. }
  cbn [trunc64]. destruct (Z.leb_spec 0 e') as [H0|H0].
  - exists (Zpos m' * 2 ^ e'). split; [done|]. split; [apply Z.mul_nonneg_nonneg; [lia|apply Z.pow_nonneg; lia]|]. rewrite <- Z.mul_assoc, <- Z.pow_add_r by lia. exact Hval.
  - pose proof (Z.pow_pos_nonneg 2 (- e') ltac:(lia) ltac:(lia)). exists (Zpos m' / 2 ^ (- e')). split; [done|]. split; [apply Z.div_pos; lia|].
    etransitivity; [|exact Hval]. replace 1074 with (- e' + (e' + 1074)) at 1 by lia. rewrite Z.pow_add_r, Z.mul_assoc by lia.
    apply Z.mul_le_mono_nonneg_r; [apply Z.pow_nonneg; lia|]. rewrite Z.mul_comm. apply Z.mul_div_le. lia.
Qed.
