(* ===== verification/GoJson.v ===== *)
(** * encoding/json: printing

    The part of [json.Marshal] the modelled packages rely on when they hash or store a
    canonical document: strings, integers, objects with fixed fields and arrays. *)
From S2P Require Import Prelude GoText.
From stdpp Require Import pretty.
Open Scope Z_scope.

(** [encoding/json] on strings of valid UTF-8 (every string below was checked by
    [validIdentity]): quotes, backslashes, control bytes, the HTML characters and U+2028/2029
    are escaped. *)
Definition json_hex (b : Z) : list Z := bytes_of "\u00" ++ [hex_digit (b / 16); hex_digit (b mod 16)].
Definition json_byte (b : Z) : list Z :=
  if (b =? 34) || (b =? 92) then [92; b]
  else if b =? 8 then bytes_of "\b" else if b =? 12 then bytes_of "\f"
  else if b =? 10 then bytes_of "\n" else if b =? 13 then bytes_of "\r"
  else if b =? 9 then bytes_of "\t"
  else if (b <? 32) || (b =? 60) || (b =? 62) || (b =? 38) then json_hex b
  else [b].
(** U+2028 and U+2029 are the bytes 226, 128 and 168 or 169. *)
Definition line_separator (b b1 b2 : Z) : bool := (b =? 226) && (b1 =? 128) && in_range 168 169 b2.
Fixpoint json_escape (l : list Z) : list Z :=
  match l with
  | [] => []
  | b :: r =>
      match r with
      | b1 :: b2 :: r' =>
          if line_separator b b1 b2 then bytes_of "\u202" ++ [b2 - 112] ++ json_escape r'
          else json_byte b ++ json_escape r
      | _ => json_byte b ++ json_escape r
      end
  end.
Definition json_string (s : string) : list Z := 34 :: json_escape (bytes_of s) ++ [34].
Definition json_field (name : string) (value : list Z) : list Z := json_string name ++ 58 :: value.
Fixpoint json_join (l : list (list Z)) : list Z :=
  match l with
  | [] => []
  | [x] => x
  | x :: l => x ++ 44 :: json_join l
  end.
Definition json_object (fields : list (list Z)) : list Z := 123 :: json_join fields ++ [125].
Definition json_array (items : list (list Z)) : list Z := 91 :: json_join items ++ [93].
Definition json_int (n : Z) : list Z := bytes_of (pretty n).

(** ** Sizes *)
Lemma length_string_of_bytes l : String.length (string_of_bytes l) = length l.
Proof. unfold string_of_bytes. induction l; cbn; auto. Qed.

(** One escaped byte takes at most six. *)
Lemma json_escape_length l : (length (json_escape l) ≤ 6 * length l)%nat.
Proof.
  remember (length l) as n eqn:Hn. assert (Hle : (length l ≤ n)%nat) by lia. clear Hn.
  induction n as [|n IH] in l, Hle |- *; [by destruct l; cbn in *; try lia|].
  destruct l as [|b l]; [cbn; lia|]. cbn [length] in Hle.
  assert (Hd : ∀ x : list Z, (length x ≤ 6)%nat → (length (x ++ json_escape l) ≤ 6 * S n)%nat).
  { intros x Hx. rewrite length_app. specialize (IH l). lia. }
  assert (Hb : (length (json_byte b) ≤ 6)%nat) by (unfold json_byte, json_hex; repeat case_match; cbn; lia).
  cbn [json_escape]. destruct l as [|b1 [|b2 l]]; try (by apply Hd). destruct (line_separator b b1 b2); [|by apply Hd].
  rewrite !length_app, length_bytes_of. specialize (IH l). cbn in Hle |- *. lia.
Qed.

Lemma json_string_length s : zlen (json_string s) ≤ 6 * slen s + 2.
Proof.
  unfold json_string, zlen, slen. pose proof (json_escape_length (bytes_of s)) as H.
  rewrite length_bytes_of in H. cbn [length]. rewrite length_app. cbn [length]. lia.
Qed.

Lemma json_field_length name value : zlen (json_field name value) ≤ 6 * slen name + 3 + zlen value.
Proof.
  unfold json_field. pose proof (json_string_length name) as H.
  unfold zlen in *. rewrite length_app. cbn [length]. lia.
Qed.
