(* ===== verification/Sha256.v ===== *)
(** * [crypto/sha256] (FIPS 180-4) on byte lists

    The continuation package identifies commands, child calls and workflow definitions by
    SHA-256 digests.  The hash is written out so that every definition that uses it runs; the
    theorems only use that it is a function whose result has 32 bytes. *)
From S2P Require Import Prelude GoText.
Open Scope Z_scope.

Definition w32 (x : Z) : Z := x mod 4294967296.
Definition rotr (n x : Z) : Z := Z.lor (Z.shiftr x n) (w32 (Z.shiftl x (32 - n))).

Definition round_constants : list Z :=
  [1116352408; 1899447441; 3049323471; 3921009573; 961987163; 1508970993; 2453635748;
   2870763221; 3624381080; 310598401; 607225278; 1426881987; 1925078388; 2162078206;
   2614888103; 3248222580; 3835390401; 4022224774; 264347078; 604807628; 770255983;
   1249150122; 1555081692; 1996064986; 2554220882; 2821834349; 2952996808; 3210313671;
   3336571891; 3584528711; 113926993; 338241895; 666307205; 773529912; 1294757372;
   1396182291; 1695183700; 1986661051; 2177026350; 2456956037; 2730485921; 2820302411;
   3259730800; 3345764771; 3516065817; 3600352804; 4094571909; 275423344; 430227734;
   506948616; 659060556; 883997877; 958139571; 1322822218; 1537002063; 1747873779;
   1955562222; 2024104815; 2227730452; 2361852424; 2428436474; 2756734187; 3204031479;
   3329325298].
Definition initial_state : list Z :=
  [1779033703; 3144134277; 1013904242; 2773480762; 1359893119; 2600822924; 528734635;
   1541459225].

Definition small_sigma0 (x : Z) : Z := Z.lxor (Z.lxor (rotr 7 x) (rotr 18 x)) (Z.shiftr x 3).
Definition small_sigma1 (x : Z) : Z := Z.lxor (Z.lxor (rotr 17 x) (rotr 19 x)) (Z.shiftr x 10).
Definition big_sigma0 (x : Z) : Z := Z.lxor (Z.lxor (rotr 2 x) (rotr 13 x)) (rotr 22 x).
Definition big_sigma1 (x : Z) : Z := Z.lxor (Z.lxor (rotr 6 x) (rotr 11 x)) (rotr 25 x).
Definition choose (x y z : Z) : Z :=
  Z.lxor (Z.land x y) (Z.land (4294967295 - x) z).
Definition majority (x y z : Z) : Z :=
  Z.lxor (Z.lxor (Z.land x y) (Z.land x z)) (Z.land y z).

(** The message schedule, newest word first. *)
Fixpoint extend_schedule (n : nat) (w : list Z) : list Z :=
  match n with
  | O => w
  | S n =>
      extend_schedule n
        (w32 (small_sigma1 (nth 1 w 0) + nth 6 w 0 + small_sigma0 (nth 14 w 0) + nth 15 w 0) :: w)
  end.

Definition word_of (b0 b1 b2 b3 : Z) : Z := ((b0 * 256 + b1) * 256 + b2) * 256 + b3.
Fixpoint words_of (l : list Z) : list Z :=
  match l with
  | b0 :: b1 :: b2 :: b3 :: l => word_of b0 b1 b2 b3 :: words_of l
  | _ => []
  end.

Definition sha_round (st : list Z) (kw : Z * Z) : list Z :=
  match st with
  | [a; b; c; d; e; f; g; h] =>
      let t1 := w32 (h + big_sigma1 e + choose e f g + fst kw + snd kw) in
      let t2 := w32 (big_sigma0 a + majority a b c) in
      [w32 (t1 + t2); a; b; c; w32 (d + t1); e; f; g]
  | _ => st
  end.

Definition compress (st : list Z) (block : list Z) : list Z :=
  let schedule := rev (extend_schedule 48 (rev (words_of block))) in
  zip_with (λ x y, w32 (x + y)) st (fold_left sha_round (combine round_constants schedule) st).

Fixpoint sha_blocks (n : nat) (st : list Z) (l : list Z) : list Z :=
  match n with
  | O => st
  | S n => sha_blocks n (compress st (take 64 l)) (drop 64 l)
  end.

(** Padding: a one bit, zeros, and the bit length on eight bytes. *)
Definition sha_pad (l : list Z) : list Z :=
  let zeros := Z.to_nat ((55 - zlen l) mod 64) in
  l ++ 128 :: replicate zeros 0 ++ be_bytes 8 (8 * zlen l).

Definition sha256_bytes (l : list Z) : list Z :=
  let padded := sha_pad l in
  flat_map (be_bytes 4)
    (sha_blocks (Nat.div (length padded) 64) initial_state padded).

(** The digest as a 32-byte string. *)
Definition sha256 (l : list Z) : string := string_of_bytes (sha256_bytes l).

(** The digest is only ever evaluated by [vm_compute]. *)
Arguments sha256_bytes : simpl never.
Arguments sha256 : simpl never.

Lemma sha_round_length st kw : length (sha_round st kw) = length st.
Proof. unfold sha_round. repeat (case_match; cbn; try done). Qed.

Lemma compress_length st block : length st = 8%nat → length (compress st block) = 8%nat.
Proof.
  intros H. unfold compress.
  assert (Hf : ∀ kws s, length (fold_left sha_round kws s) = length s).
  { induction kws as [|kw kws IH]; intros s; cbn; [done|]. by rewrite IH, sha_round_length. }
  rewrite length_zip_with, Hf, H. done.
Qed.

Lemma sha_blocks_length n st l : length st = 8%nat → length (sha_blocks n st l) = 8%nat.
Proof.
  revert st l. induction n as [|n IH]; intros st l H; cbn [sha_blocks]; [done|].
  by apply IH, compress_length.
Qed.

Lemma be_bytes_length n x : length (be_bytes n x) = n.
Proof. induction n; cbn; congruence. Qed.

Lemma sha256_bytes_length l : length (sha256_bytes l) = 32%nat.
Proof.
  unfold sha256_bytes.
  pose proof (sha_blocks_length (Nat.div (length (sha_pad l)) 64) initial_state (sha_pad l)
                eq_refl) as H.
  remember (sha_blocks _ _ _) as st. clear Heqst.
  do 9 (destruct st as [|? st]; try done).
Qed.

Lemma be_bytes_range n x : Forall (λ b, 0 ≤ b < 256) (be_bytes n x).
Proof. induction n; cbn; constructor; [apply Z.mod_pos_bound; lia|done]. Qed.

Lemma sha256_bytes_range l : Forall (λ b, 0 ≤ b < 256) (sha256_bytes l).
Proof.
  unfold sha256_bytes. generalize (sha_blocks (Nat.div (length (sha_pad l)) 64) initial_state (sha_pad l)).
  intros k. induction k; cbn [flat_map]; [constructor|]. apply Forall_app. split; [apply be_bytes_range|done].
Qed.

(** The FIPS 180-4 one-block test vector. *)
Example sha256_abc :
  hex_encode (sha256 (bytes_of "abc")) =
  "ba7816bf8f01cfea414140de5dae2223b00361a396177a9cb410ff61f20015ad".
Proof. vm_compute. reflexivity. Qed.

(** The two-block vector. *)
Example sha256_two_blocks :
  hex_encode (sha256 (bytes_of "abcdbcdecdefdefgefghfghighijhijkijkljklmklmnlmnomnopnopq")) =
  "248d6a61d20638b8e5c026930c3e6039a33ce45964ff2167f6ecedd419db06c1".
Proof. vm_compute. reflexivity. Qed.

(** ** Hex digests are graphic identities *)
Lemma byte_val_of_N n : 0 ≤ n < 256 → byte_val (Ascii.ascii_of_N (Z.to_N n)) = n.
Proof.
  intros H. unfold byte_val. rewrite Ascii.N_ascii_embedding; [lia|].
  change 256%N with (Z.to_N 256). lia.
Qed.

Lemma bytes_of_string_of_bytes l : Forall (λ b, 0 ≤ b < 256) l → bytes_of (string_of_bytes l) = l.
Proof.
  intros H. unfold bytes_of, string_of_bytes. induction H as [|b l Hb _ IH]; [done|].
  cbn. rewrite byte_val_of_N by done. f_equal. exact IH.
Qed.

Lemma hex_digit_graphic n : 0 ≤ n < 16 → graphic (hex_digit n) = true ∧ 0 ≤ hex_digit n < 256.
Proof.
  intros H. unfold hex_digit, graphic, in_range. destruct (Z.ltb_spec n 10); split; try lia;
    apply andb_true_iff; split; apply Z.leb_le; lia.
Qed.

Lemma hex_encode_bytes_graphic l :
  Forall (λ b, 0 ≤ b < 256) l →
  Forall (λ b, graphic b = true ∧ 0 ≤ b < 256) (hex_encode_bytes l) ∧
  length (hex_encode_bytes l) = (2 * length l)%nat.
Proof.
  induction 1 as [|b l Hb _ [IH1 IH2]]; [split; [constructor|done]|].
  unfold hex_encode_bytes in *. cbn. split; [|lia].
  pose proof (Z.div_lt_upper_bound b 16 16). pose proof (Z.div_pos b 16).
  pose proof (Z.mod_pos_bound b 16).
  repeat constructor; try apply hex_digit_graphic; try lia. done.
Qed.

Lemma hex_sha256_graphic l :
  Forall (λ b, graphic b = true) (bytes_of (hex_encode (sha256 l))) ∧
  slen (hex_encode (sha256 l)) = 64.
Proof.
  unfold sha256, hex_encode. rewrite (bytes_of_string_of_bytes (sha256_bytes l)) by apply sha256_bytes_range.
  destruct (hex_encode_bytes_graphic _ (sha256_bytes_range l)) as [Hg Hl].
  assert (Hr : bytes_of (string_of_bytes (hex_encode_bytes (sha256_bytes l)))
               = hex_encode_bytes (sha256_bytes l)).
  { apply bytes_of_string_of_bytes. eapply Forall_impl; [exact Hg|]. by intros ? []. }
  split.
  - rewrite Hr. eapply Forall_impl; [exact Hg|]. by intros ? [].
  - unfold slen. rewrite <- length_bytes_of, Hr, Hl, sha256_bytes_length. done.
Qed.

Lemma hex_digit_hex n : 0 ≤ n < 16 → is_hex_char (hex_digit n) = true.
Proof.
  intros H. unfold hex_digit, is_hex_char, in_range. destruct (Z.ltb_spec n 10);
    rewrite !orb_true_iff, !andb_true_iff, !Z.leb_le; lia.
Qed.

Lemma hex_encode_bytes_hex l :
  Forall (λ b, 0 ≤ b < 256) l → forallb is_hex_char (hex_encode_bytes l) = true.
Proof.
  unfold hex_encode_bytes. induction 1 as [|b l Hb _ IH]; [done|]. cbn [flat_map app forallb].
  pose proof (Z.mod_pos_bound b 16). rewrite !hex_digit_hex, IH; [done|lia|].
  split; [apply Z.div_pos|apply Z.div_lt_upper_bound]; lia.
Qed.

Lemma hex_sha256_decodable l : hex_decodable (hex_encode (sha256 l)) = true.
Proof.
  destruct (hex_sha256_graphic l) as [_ Hl]. unfold hex_decodable. rewrite Hl.
  unfold sha256, hex_encode. rewrite (bytes_of_string_of_bytes (sha256_bytes l)) by apply sha256_bytes_range.
  rewrite bytes_of_string_of_bytes.
  - cbn [Z.even andb]. by apply hex_encode_bytes_hex, sha256_bytes_range.
  - destruct (hex_encode_bytes_graphic _ (sha256_bytes_range l)) as [Hg _].
    eapply Forall_impl; [exact Hg|]. by intros b [_ ?].
Qed.
