(* ===== verification/GoDecode.v ===== *)
(** * encoding/json, encoding/base64, encoding/hex and strconv: decoding

    [GoJson] prints; this file reads.  A JSON text is parsed to a [jvalue]: object members keep
    their order and duplicates, a number keeps its literal, strings are unquoted the way
    [encoding/json] does it (invalid UTF-8 and lone surrogates become U+FFFD).  [json_print] is
    the inverse for values whose strings are valid UTF-8.  Base64 is [base64.StdEncoding], which
    skips line breaks and ignores the unused bits of the last digit. *)
From S2P Require Import Prelude GoText GoJson Sha256.
From stdpp Require Import pretty.
From Stdlib Require Import Ascii.
Open Scope Z_scope.

Inductive jvalue :=
| JNull
| JBool (b : bool)
| JNum (literal : list Z)
| JStr (s : string)
| JArr (items : list jvalue)
| JObj (members : list (string * jvalue)).

(** ** Printing *)
Fixpoint json_print (v : jvalue) : list Z :=
  match v with
  | JNull => bytes_of "null"
  | JBool true => bytes_of "true"
  | JBool false => bytes_of "false"
  | JNum literal => literal
  | JStr s => json_string s
  | JArr items => json_array (List.map json_print items)
  | JObj members => json_object (List.map (λ m, json_field m.1 (json_print m.2)) members)
  end.

(** ** Lexical parts *)
Definition is_space (b : Z) : bool := (b =? 32) || (b =? 9) || (b =? 10) || (b =? 13).
Fixpoint skip_space (l : list Z) : list Z :=
  match l with
  | b :: r => if is_space b then skip_space r else l
  | [] => []
  end.

Definition is_digit (b : Z) : bool := in_range 48 57 b.
Fixpoint take_digits (l : list Z) : list Z * list Z :=
  match l with
  | b :: r => if is_digit b then let '(ds, rest) := take_digits r in (b :: ds, rest) else ([], l)
  | [] => ([], [])
  end.

(** One or more digits. *)
Definition some_digits (l : list Z) : option (list Z * list Z) :=
  match take_digits l with ([], _) => None | r => Some r end.

Definition integer_part (l : list Z) : option (list Z * list Z) :=
  match l with
  | b :: r =>
      if b =? 48 then Some ([b], r)
      else if is_digit b then let '(ds, rest) := take_digits r in Some (b :: ds, rest)
      else None
  | [] => None
  end.

Definition fraction_part (l : list Z) : option (list Z * list Z) :=
  match l with
  | b :: r => if b =? 46 then '(ds, rest) ← some_digits r; Some (b :: ds, rest) else Some ([], l)
  | [] => Some ([], l)
  end.

Definition exponent_part (l : list Z) : option (list Z * list Z) :=
  match l with
  | b :: r =>
      if (b =? 101) || (b =? 69) then
        match r with
        | sign :: r' =>
            if (sign =? 43) || (sign =? 45) then '(ds, rest) ← some_digits r'; Some (b :: sign :: ds, rest)
            else '(ds, rest) ← some_digits r; Some (b :: ds, rest)
        | [] => None
        end
      else Some ([], l)
  | [] => Some ([], l)
  end.

Definition parse_number (l : list Z) : option (list Z * list Z) :=
  let '(sign, l) := match l with b :: r => if b =? 45 then ([b], r) else ([], l) | [] => ([], l) end in
  '(whole, l) ← integer_part l;
  '(fraction, l) ← fraction_part l;
  '(exponent, l) ← exponent_part l;
  Some (sign ++ whole ++ fraction ++ exponent, l).

(** ** Strings *)
Definition hex_value (b : Z) : option Z :=
  if in_range 48 57 b then Some (b - 48)
  else if in_range 97 102 b then Some (b - 87)
  else if in_range 65 70 b then Some (b - 55)
  else None.

(** Four hexadecimal digits. *)
Definition hex4 (l : list Z) : option (Z * list Z) :=
  match l with
  | a :: b :: c :: d :: rest =>
      a ← hex_value a; b ← hex_value b; c ← hex_value c; d ← hex_value d;
      Some (((a * 16 + b) * 16 + c) * 16 + d, rest)
  | _ => None
  end.

(** [utf8.EncodeRune] for a code point that is not a surrogate. *)
Definition encode_rune (r : Z) : list Z :=
  if r <? 128 then [r]
  else if r <? 2048 then [192 + r / 64; 128 + r mod 64]
  else if r <? 65536 then [224 + r / 4096; 128 + r / 64 mod 64; 128 + r mod 64]
  else [240 + r / 262144; 128 + r / 4096 mod 64; 128 + r / 64 mod 64; 128 + r mod 64].

Definition replacement : Z := 65533.
Definition high_surrogate (r : Z) : bool := in_range 55296 56319 r.
Definition low_surrogate (r : Z) : bool := in_range 56320 57343 r.

(** The code point of an escape [\uXXXX], after the [u]; a surrogate pair takes two escapes. *)
Definition unicode_escape (l : list Z) : option (Z * list Z) :=
  '(r, rest) ← hex4 l;
  if high_surrogate r || low_surrogate r then
    match rest with
    | 92 :: 117 :: rest' =>
        match hex4 rest' with
        | Some (r2, rest2) =>
            if high_surrogate r && low_surrogate r2
            then Some ((r - 55296) * 1024 + (r2 - 56320) + 65536, rest2)
            else Some (replacement, rest)
        | None => Some (replacement, rest)
        end
    | _ => Some (replacement, rest)
    end
  else Some (r, rest).

Definition simple_escape (b : Z) : option Z :=
  if (b =? 34) || (b =? 92) || (b =? 47) then Some b
  else if b =? 98 then Some 8 else if b =? 102 then Some 12 else if b =? 110 then Some 10
  else if b =? 114 then Some 13 else if b =? 116 then Some 9 else None.

(** The bytes up to the closing quote; each round consumes a byte. *)
Fixpoint parse_chars (fuel : nat) (l : list Z) : option (list Z * list Z) :=
  match fuel, l with
  | O, _ | _, [] => None
  | S fuel, b :: r =>
      if b =? 34 then Some ([], r)
      else if b =? 92 then
        match r with
        | [] => None
        | e :: r =>
            if e =? 117 then
              '(code, rest) ← unicode_escape r;
              '(cs, rest) ← parse_chars fuel rest; Some (encode_rune code ++ cs, rest)
            else
              c ← simple_escape e;
              '(cs, rest) ← parse_chars fuel r; Some (c :: cs, rest)
        end
      else if b <? 32 then None
      else match decode_rune l with
      | Some (_, r') =>
          '(cs, rest) ← parse_chars fuel r'; Some (take (length l - length r') l ++ cs, rest)
      | None => '(cs, rest) ← parse_chars fuel r; Some (encode_rune replacement ++ cs, rest)
      end
  end.

Definition parse_string (l : list Z) : option (string * list Z) :=
  '(cs, rest) ← parse_chars (length l) l; Some (string_of_bytes cs, rest).

(** ** Values

    Every call on the same input as its caller is followed by one that has consumed a byte, so
    twice the length is enough fuel. *)
Definition literal_of (l : list Z) : option (jvalue * list Z) :=
  match GoText.strip_prefix (bytes_of "null") l, GoText.strip_prefix (bytes_of "true") l,
    GoText.strip_prefix (bytes_of "false") l with
  | Some rest, _, _ => Some (JNull, rest)
  | _, Some rest, _ => Some (JBool true, rest)
  | _, _, Some rest => Some (JBool false, rest)
  | None, None, None => '(n, rest) ← parse_number l; Some (JNum n, rest)
  end.

(** [b] after white space. *)
Definition expect (b : Z) (l : list Z) : option (list Z) :=
  match skip_space l with
  | c :: rest => if c =? b then Some rest else None
  | [] => None
  end.

Fixpoint parse_value (fuel : nat) (l : list Z) : option (jvalue * list Z) :=
  match fuel with
  | O => None
  | S fuel =>
      let l := skip_space l in
      match expect 34 l, expect 91 l, expect 123 l with
      | Some r, _, _ => '(s, rest) ← parse_string r; Some (JStr s, rest)
      | _, Some r, _ =>
          match expect 93 r with
          | Some rest => Some (JArr [], rest)
          | None => '(items, rest) ← parse_items fuel r; Some (JArr items, rest)
          end
      | _, _, Some r =>
          match expect 125 r with
          | Some rest => Some (JObj [], rest)
          | None => '(members, rest) ← parse_members fuel r; Some (JObj members, rest)
          end
      | None, None, None => literal_of l
      end
  end
with parse_items (fuel : nat) (l : list Z) : option (list jvalue * list Z) :=
  match fuel with
  | O => None
  | S fuel =>
      '(v, rest) ← parse_value fuel l;
      match expect 93 rest with
      | Some rest => Some ([v], rest)
      | None =>
          rest ← expect 44 rest;
          '(vs, rest) ← parse_items fuel rest; Some (v :: vs, rest)
      end
  end
with parse_members (fuel : nat) (l : list Z) : option (list (string * jvalue) * list Z) :=
  match fuel with
  | O => None
  | S fuel =>
      rest ← expect 34 l;
      '(k, rest) ← parse_string rest;
      rest ← expect 58 rest;
      '(v, rest) ← parse_value fuel rest;
      match expect 125 rest with
      | Some rest => Some ([(k, v)], rest)
      | None =>
          rest ← expect 44 rest;
          '(ms, rest) ← parse_members fuel rest; Some ((k, v) :: ms, rest)
      end
  end.

(** One value and nothing but white space after it. *)
Definition parse_json (l : list Z) : option jvalue :=
  match parse_value (2 * length l) l with
  | Some (v, rest) => match skip_space rest with [] => Some v | _ => None end
  | None => None
  end.

(** ** [strconv.ParseUint] in base 10 *)
Definition digits_value (ds : list Z) : Z := fold_left (λ n d, 10 * n + (d - 48)) ds 0.
Definition ParseUint (maximum : Z) (literal : list Z) : option Z :=
  match literal with
  | [] => None
  | _ =>
      if forallb is_digit literal && (digits_value literal <=? maximum) then Some (digits_value literal)
      else None
  end.

(** ** [encoding/hex] *)
Fixpoint hex_decode_bytes (l : list Z) : option (list Z) :=
  match l with
  | [] => Some []
  | a :: b :: l => a ← hex_value a; b ← hex_value b; r ← hex_decode_bytes l; Some (16 * a + b :: r)
  | [_] => None
  end.
Definition hex_decode (s : string) : option string := string_of_bytes <$> hex_decode_bytes (bytes_of s).

(** ** [encoding/base64] *)
Definition base64_char (n : Z) : Z :=
  if n <? 26 then 65 + n else if n <? 52 then 71 + n else if n <? 62 then n - 4
  else if n =? 62 then 43 else 47.

Fixpoint base64_bytes (l : list Z) : list Z :=
  match l with
  | [] => []
  | [a] => [base64_char (a / 4); base64_char (a mod 4 * 16); 61; 61]
  | [a; b] => [base64_char (a / 4); base64_char (a mod 4 * 16 + b / 16); base64_char (b mod 16 * 4); 61]
  | a :: b :: c :: l =>
      base64_char (a / 4) :: base64_char (a mod 4 * 16 + b / 16) ::
      base64_char (b mod 16 * 4 + c / 64) :: base64_char (c mod 64) :: base64_bytes l
  end.
Definition base64_encode (s : string) : string := string_of_bytes (base64_bytes (bytes_of s)).

Definition base64_value (b : Z) : option Z :=
  if in_range 65 90 b then Some (b - 65)
  else if in_range 97 122 b then Some (b - 71)
  else if in_range 48 57 b then Some (b + 4)
  else if b =? 43 then Some 62 else if b =? 47 then Some 63 else None.

(** Groups of four digits; padding only ends the last one. *)
Fixpoint base64_groups (l : list Z) : option (list Z) :=
  match l with
  | [] => Some []
  | a :: b :: c :: d :: l =>
      a ← base64_value a;
      b ← base64_value b;
      if c =? 61 then
        if (d =? 61) && (zlen l =? 0) then Some [a * 4 + b / 16] else None
      else
        c ← base64_value c;
        if d =? 61 then
          if zlen l =? 0 then Some [a * 4 + b / 16; b mod 16 * 16 + c / 4] else None
        else
          d ← base64_value d;
          r ← base64_groups l;
          Some (a * 4 + b / 16 :: b mod 16 * 16 + c / 4 :: c mod 4 * 64 + d :: r)
  | _ => None
  end.
Definition base64_decode (s : string) : option string :=
  string_of_bytes <$> base64_groups (List.filter (λ b, negb ((b =? 10) || (b =? 13))) (bytes_of s)).

(** * Decoding inverts printing *)

(** ** Numbers *)
Lemma digits_value_app ds d : digits_value (ds ++ [d]) = 10 * digits_value ds + (d - 48).
Proof. unfold digits_value. by rewrite fold_left_app. Qed.

Lemma pretty_char_digit x : (x < 10)%N → byte_val (pretty_N_char x) = 48 + Z.of_N x.
Proof.
  intros H. assert (x = 0 ∨ x = 1 ∨ x = 2 ∨ x = 3 ∨ x = 4 ∨ x = 5 ∨ x = 6 ∨ x = 7 ∨ x = 8 ∨ x = 9)%N
    as Hx by lia. by destruct_or! Hx; subst.
Qed.

(** A decimal numeral: digits without a leading zero. *)
Definition numeral (l : list Z) : Prop :=
  ∃ d ds, l = d :: ds ∧ Forall (λ b, is_digit b = true) l ∧ (d = 48 → ds = []).

Lemma pretty_go_digits x s : (0 < x)%N → ∃ d ds,
  bytes_of (pretty_N_go x s) = (d :: ds) ++ bytes_of s ∧ Forall (λ b, is_digit b = true) (d :: ds) ∧
  d ≠ 48 ∧ digits_value (d :: ds) = Z.of_N x.
Proof.
  revert s. induction (N.lt_wf_0 x) as [x _ IH]; intros s Hx. rewrite pretty_N_go_step by done.
  assert (Hm : (x `mod` 10 < 10)%N) by (apply N.mod_lt; lia).
  assert (Hlt : (x `div` 10 < x)%N) by (apply N.div_lt; lia).
  assert (Hdm : x = (10 * (x / 10) + x mod 10)%N) by (apply N.div_mod; lia).
  revert Hm Hlt Hdm. generalize (x `mod` 10)%N (x `div` 10)%N. intros m q Hm Hlt Hdm.
  assert (Hb : ∀ t, bytes_of (String (pretty_N_char m) t) = (48 + Z.of_N m) :: bytes_of t).
  { intros t. unfold bytes_of. cbn [String.list_ascii_of_string fmap list_fmap]. by rewrite pretty_char_digit. }
  assert (Hd : is_digit (48 + Z.of_N m) = true).
  { unfold is_digit, in_range. apply andb_true_iff. split; apply Z.leb_le; lia. }
  destruct (decide (q = 0)%N) as [->|E].
  - rewrite pretty_N_go_0, Hb. exists (48 + Z.of_N m), []. split_and!; [done|by constructor|lia|].
    unfold digits_value. cbn [fold_left]. lia.
  - destruct (IH q Hlt (String (pretty_N_char m) s)) as (d & ds & Hg & Hf & Hne & Hv); [lia|].
    exists d, (ds ++ [48 + Z.of_N m]). rewrite Hg, Hb. split_and!; [|..|done|].
    + cbn [app]. by rewrite <- app_assoc.
    + rewrite app_comm_cons. apply Forall_app. split; [done|]. by constructor.
    + rewrite app_comm_cons, digits_value_app, Hv. lia.
Qed.

Lemma json_int_numeral n : 0 ≤ n → numeral (json_int n) ∧ digits_value (json_int n) = n.
Proof.
  intros Hn. unfold json_int. destruct n as [|p|p]; [|..|lia].
  - split; [|done]. exists 48, []. split_and!; [done|by constructor|done].
  - change (pretty (Z.pos p)) with (pretty (N.pos p)). unfold pretty, pretty_N. rewrite decide_False by done.
    destruct (pretty_go_digits (N.pos p) "" ltac:(lia)) as (d & ds & -> & Hf & Hne & Hv).
    change (bytes_of "") with (@nil Z). rewrite app_nil_r. split; [|done]. by exists d, ds.
Qed.

Lemma ParseUint_json_int maximum n : 0 ≤ n ≤ maximum → ParseUint maximum (json_int n) = Some n.
Proof.
  intros [H0 Hm]. destruct (json_int_numeral n H0) as [(d & ds & Hl & Hf & _) Hv].
  unfold ParseUint. rewrite Hl in *. rewrite Hv, (proj2 (Z.leb_le _ _) Hm), andb_true_r.
  by rewrite (proj2 (forallb_forall _ _)) by (intros x Hx; rewrite Forall_forall in Hf; by apply Hf, list_elem_of_In).
Qed.

(** What may follow a number. *)
Definition ends (l : list Z) : Prop :=
  match l with [] => True | b :: _ => is_digit b = false ∧ b ≠ 46 ∧ b ≠ 101 ∧ b ≠ 69 end.

Lemma take_digits_app ds rest :
  Forall (λ b, is_digit b = true) ds → ends rest → take_digits (ds ++ rest) = (ds, rest).
Proof.
  induction 1 as [|d ds Hd _ IH]; intros He; cbn [app take_digits].
  - destruct rest as [|b rest]; [done|]. destruct He as [Hb _]. cbn [take_digits]. by rewrite Hb.
  - by rewrite Hd, IH.
Qed.

Lemma integer_part_numeral l rest : numeral l → ends rest → integer_part (l ++ rest) = Some (l, rest).
Proof.
  intros (d & ds & -> & Hf & Hz) He. apply Forall_cons in Hf as [Hd Hds]. cbn [app integer_part].
  destruct (Z.eqb_spec d 48) as [E|E]; [by rewrite (Hz E)|]. by rewrite Hd, take_digits_app.
Qed.

Lemma parse_number_numeral l rest : numeral l → ends rest → parse_number (l ++ rest) = Some (l, rest).
Proof.
  intros Hl He. pose proof (integer_part_numeral _ _ Hl He) as Hi.
  destruct Hl as (d & ds & -> & Hf & Hz). unfold parse_number. cbn [app].
  assert (Hd : is_digit d = true) by (by apply Forall_cons in Hf as [? _]).
  unfold is_digit, in_range in Hd. bool_hyps. rewrite (proj2 (Z.eqb_neq d 45)) by lia.
  cbn [app] in Hi. rewrite Hi. cbn.
  assert (Hfr : fraction_part rest = Some ([], rest)).
  { destruct rest as [|b rest]; [done|]. destruct He as (_ & H46 & _). cbn. by rewrite (proj2 (Z.eqb_neq _ _) H46). }
  assert (Hex : exponent_part rest = Some ([], rest)).
  { destruct rest as [|b rest]; [done|]. destruct He as (_ & _ & H1 & H2). cbn.
    by rewrite (proj2 (Z.eqb_neq _ _) H1), (proj2 (Z.eqb_neq _ _) H2). }
  rewrite Hfr. cbn. rewrite Hex. cbn. by rewrite app_nil_r.
Qed.

(** ** Strings *)

(** The bytes of a rune: one ASCII byte, or a lead byte and continuation bytes; what follows
    does not matter. *)
Lemma decode_rune_app l r l' : decode_rune l = Some (r, l') → Forall (λ b, 0 ≤ b) l →
  ∃ c, l = c ++ l' ∧ (∀ x, decode_rune (c ++ x) = Some (r, x)) ∧
    ((∃ b, c = [b] ∧ 0 ≤ b < 128) ∨
     ∃ b b1 cs, c = b :: b1 :: cs ∧ 194 ≤ b ∧ Forall (λ x, 128 ≤ x ≤ 191) (b1 :: cs) ∧
       ((length cs < 2)%nat ∨ 240 ≤ b) ∧ (cs = [] → b ≤ 223)).
Proof.
  intros Hd Hpos. destruct l as [|b0 l1]; [done|]. apply Forall_cons in Hpos as [Hb0 _]. revert Hd. unfold decode_rune.
  destruct (Z.ltb_spec b0 128) as [H0|H0].
  { intros [= <- <-]. exists [b0]. split_and!; [done| |left; by exists b0].
    intros x. cbn [app]. by rewrite (proj2 (Z.ltb_lt b0 128) H0). }
  destruct l1 as [|b1 l2]; [done|]. destruct (in_range 194 223 b0) eqn:E2.
  { destruct (cont b1) eqn:C1; [|done]. intros [= <- <-]. exists [b0; b1]. split_and!; [done| |].
    - intros x. cbn [app]. by rewrite (proj2 (Z.ltb_ge b0 128) H0), E2, C1.
    - right. exists b0, b1, []. unfold cont, in_range in *. bool_hyps. split_and!; try done; [|left; cbn; lia].
      repeat constructor; lia. }
  destruct l2 as [|b2 l3]; [done|]. destruct (in_range 224 239 b0) eqn:E3.
  { destruct (in_range _ _ b1 && cont b2) eqn:C; [|done]. intros [= <- <-]. exists [b0; b1; b2]. split_and!; [done| |].
    - intros x. cbn [app]. by rewrite (proj2 (Z.ltb_ge b0 128) H0), E2, E3, C.
    - right. exists b0, b1, [b2]. unfold cont, in_range in *. bool_hyps. split_and!; try done; [lia| |left; cbn; lia].
      repeat constructor; repeat case_match; lia. }
  destruct l3 as [|b3 l4]; [done|]. destruct (in_range 240 244 b0) eqn:E4; [|done].
  destruct (in_range _ _ b1 && cont b2 && cont b3) eqn:C; [|done]. intros [= <- <-].
  exists [b0; b1; b2; b3]. split_and!; [done| |].
  - intros x. cbn [app]. by rewrite (proj2 (Z.ltb_ge b0 128) H0), E2, E3, E4, C.
  - right. exists b0, b1, [b2; b3]. unfold cont, in_range in *. bool_hyps. split_and!; try done; [lia| |right; lia].
    repeat constructor; repeat case_match; lia.
Qed.

Lemma hex_value_digit n : 0 ≤ n < 16 → hex_value (hex_digit n) = Some n.
Proof.
  intros H. unfold hex_value, hex_digit, in_range. destruct (Z.ltb_spec n 10).
  - rewrite (proj2 (Z.leb_le 48 _)), (proj2 (Z.leb_le _ 57)) by lia. cbn. f_equal. lia.
  - rewrite (proj2 (Z.leb_gt _ 57)), andb_false_r by lia.
    rewrite (proj2 (Z.leb_le 97 _)), (proj2 (Z.leb_le _ 102)) by lia. cbn. f_equal. lia.
Qed.

(** Reading an escaped ASCII byte gives it back. *)
Lemma parse_chars_ascii fuel b l :
  0 ≤ b < 128 →
  parse_chars (S fuel) (json_byte b ++ l) = ('(cs, rest) ← parse_chars fuel l; Some (b :: cs, rest)).
Proof.
  intros Hb. unfold json_byte.
  destruct (Z.eqb_spec b 34) as [->|]; [done|]. destruct (Z.eqb_spec b 92) as [->|]; [done|]. cbn [orb].
  destruct (Z.eqb_spec b 8) as [->|]; [done|]. destruct (Z.eqb_spec b 12) as [->|]; [done|].
  destruct (Z.eqb_spec b 10) as [->|]; [done|]. destruct (Z.eqb_spec b 13) as [->|]; [done|].
  destruct (Z.eqb_spec b 9) as [->|]; [done|]. destruct (_ || _) eqn:E.
  - unfold json_hex. change (bytes_of "\u00") with [92; 117; 48; 48]. cbn [app parse_chars Z.eqb Pos.eqb].
    unfold unicode_escape, hex4. change (hex_value 48) with (Some 0). cbn [mbind option_bind].
    assert (Hq : 0 ≤ b / 16 < 16) by (split; [apply Z.div_pos|apply Z.div_lt_upper_bound]; lia).
    rewrite !hex_value_digit by (done || apply Z.mod_pos_bound; lia).
    cbn [mbind option_bind]. replace (((0 * 16 + 0) * 16 + b / 16) * 16 + b mod 16) with b
      by (pose proof (Z.div_mod b 16); lia).
    unfold high_surrogate, low_surrogate, in_range. rewrite (proj2 (Z.leb_gt 55296 b)), (proj2 (Z.leb_gt 56320 b)) by lia.
    cbn [andb orb mbind option_bind]. unfold encode_rune. by rewrite (proj2 (Z.ltb_lt b 128)) by lia.
  - bool_hyps. cbn [app parse_chars]. rewrite (proj2 (Z.eqb_neq b 34)), (proj2 (Z.eqb_neq b 92)) by done.
    rewrite (proj2 (Z.ltb_ge b 32)) by lia. unfold decode_rune. rewrite (proj2 (Z.ltb_lt b 128)) by lia.
    replace (length (b :: l) - length l)%nat with 1%nat by (cbn; lia). done.
Qed.

Lemma json_escape_ascii b l : 0 ≤ b < 128 → json_escape (b :: l) = json_byte b ++ json_escape l.
Proof.
  intros Hb. cbn [json_escape]. destruct l as [|b1 [|b2 l]]; try done.
  unfold line_separator. by rewrite (proj2 (Z.eqb_neq b 226)) by lia.
Qed.

Lemma json_byte_high b : 128 ≤ b → json_byte b = [b].
Proof.
  intros Hb. unfold json_byte. repeat rewrite (proj2 (Z.eqb_neq b _)) by lia. by rewrite (proj2 (Z.ltb_ge b 32)) by lia.
Qed.

(** Continuation bytes are printed as they are. *)
Lemma json_escape_cont cs l :
  Forall (λ x, 128 ≤ x ≤ 191) cs → json_escape (cs ++ l) = cs ++ json_escape l.
Proof.
  induction 1 as [|b cs Hb _ IH]; [done|]. cbn [app]. rewrite <- IH. cbn [json_escape].
  destruct (cs ++ l) as [|b1 [|b2 r]]; try (by rewrite json_byte_high by lia).
  unfold line_separator. rewrite (proj2 (Z.eqb_neq b 226)) by lia. cbn [andb]. by rewrite json_byte_high by lia.
Qed.

Lemma json_escape_rune b b1 cs l :
  194 ≤ b → Forall (λ x, 128 ≤ x ≤ 191) (b1 :: cs) → ((length cs < 2)%nat ∨ 240 ≤ b) → (cs = [] → b ≤ 223) →
  json_escape (b :: b1 :: cs ++ l) = b :: b1 :: cs ++ json_escape l ∨
  ∃ b2, b = 226 ∧ b1 = 128 ∧ cs = [b2] ∧ 168 ≤ b2 ≤ 169 ∧
    json_escape (b :: b1 :: cs ++ l) = bytes_of "\u202" ++ [b2 - 112] ++ json_escape l.
Proof.
  intros Hb Hc Hlen Hshort. pose proof (json_escape_cont (b1 :: cs) l Hc) as Hcont. cbn [app] in Hcont.
  assert (Hplain : json_byte b ++ json_escape (b1 :: cs ++ l) = b :: b1 :: cs ++ json_escape l).
  { by rewrite json_byte_high, Hcont by lia. }
  assert (Hsep : ∀ b2 r, json_escape (b :: b1 :: b2 :: r) =
    if line_separator b b1 b2 then bytes_of "\u202" ++ [b2 - 112] ++ json_escape r
    else json_byte b ++ json_escape (b1 :: b2 :: r)) by done.
  destruct cs as [|b2 cs]; cbn [app] in *.
  - left. rewrite <- Hplain. destruct l as [|x l]; [done|]. rewrite Hsep. unfold line_separator.
    rewrite (proj2 (Z.eqb_neq b 226)) by (specialize (Hshort eq_refl); lia). done.
  - rewrite Hsep. destruct (line_separator b b1 b2) eqn:E; [|by left].
    unfold line_separator, in_range in E. bool_hyps. right. exists b2. destruct Hlen as [Hlen|]; [|lia].
    destruct cs; [|cbn in Hlen; lia]. subst. split_and!; try done.
Qed.

Lemma parse_chars_escape n l rs fuel rest :
  runes_fuel n l = Some rs → Forall (λ b, 0 ≤ b < 256) l → (length (json_escape l) < fuel)%nat →
  parse_chars fuel (json_escape l ++ 34 :: rest) = Some (l, rest).
Proof.
  induction n as [|n IH] in l, rs, fuel |- *; intros Hr Hb Hf.
  { destruct l; [|done]. by destruct fuel; [cbn in Hf; lia|]. }
  destruct l as [|b0 l0]; [by destruct fuel; [cbn in Hf; lia|]|]. cbn -[decode_rune json_escape] in Hr.
  destruct (decode_rune (b0 :: l0)) as [[r l']|] eqn:Hd; [|done]. destruct (runes_fuel n l') as [rs'|] eqn:Hr'; [|done].
  destruct (decode_rune_app _ _ _ Hd) as (c & Hl & Hc & Hcase).
  { eapply Forall_impl; [exact Hb|]. cbn. lia. }
  rewrite Hl in *. clear Hl Hd b0 l0.
  apply Forall_app in Hb as [_ Hb]. destruct fuel as [|fuel]; [lia|].
  destruct Hcase as [(b & -> & Hasc)|(b & b1 & cs & -> & H194 & Hcs & Hlen & Hshort)].
  - cbn [app] in *. rewrite json_escape_ascii in * by done. rewrite length_app in Hf. rewrite <- app_assoc, parse_chars_ascii by done.
    rewrite (IH l' rs' fuel); [done..|].
    assert (0 < length (json_byte b))%nat by (unfold json_byte, json_hex; repeat case_match; cbn; lia). lia.
  - cbn [app] in *.
    destruct (json_escape_rune b b1 cs l' H194 Hcs Hlen Hshort) as [E|(b2 & -> & -> & -> & Hb2 & E)]; rewrite E in *.
    + cbn [app parse_chars]. rewrite (proj2 (Z.eqb_neq b 34)), (proj2 (Z.eqb_neq b 92)), (proj2 (Z.ltb_ge b 32)) by lia.
      rewrite <- app_assoc, Hc.
      rewrite (IH l' rs' fuel); [|done..|cbn in Hf; rewrite length_app in Hf; lia]. cbn [mbind option_bind].
      do 2 f_equal. change (b :: b1 :: cs ++ ?x) with ((b :: b1 :: cs) ++ x). f_equal. rewrite (length_app (b :: b1 :: cs)).
      replace (length (b :: b1 :: cs) + _ - _)%nat with (length (b :: b1 :: cs)) by lia. by rewrite take_app_length.
    + change (bytes_of "\u202") with [92; 117; 50; 48; 50] in *. cbn [app] in *. cbn [parse_chars Z.eqb Pos.eqb].
      assert (b2 = 168 ∨ b2 = 169) as [-> | ->] by lia.
      * change (unicode_escape (50 :: 48 :: 50 :: (168 - 112) :: ?x)) with (Some (8232, x)).
        cbn [mbind option_bind]. rewrite (IH l' rs' fuel); [done..|cbn in Hf; lia].
      * change (unicode_escape (50 :: 48 :: 50 :: (169 - 112) :: ?x)) with (Some (8233, x)).
        cbn [mbind option_bind]. rewrite (IH l' rs' fuel); [done..|cbn in Hf; lia].
Qed.

Lemma bytes_of_range s : Forall (λ b, 0 ≤ b < 256) (bytes_of s).
Proof.
  unfold bytes_of. apply Forall_fmap, Forall_forall. intros a _. unfold byte_val. cbn.
  pose proof (Ascii.N_ascii_bounded a). lia.
Qed.

(** A printed string of valid UTF-8 reads back. *)
Lemma parse_string_print s rest :
  ValidString s = true → parse_string (json_escape (bytes_of s) ++ 34 :: rest) = Some (s, rest).
Proof.
  unfold ValidString, runes, parse_string. destruct (runes_fuel _ _) as [rs|] eqn:Hr; [|done]. intros _.
  rewrite (parse_chars_escape _ _ _ _ _ Hr); [|apply bytes_of_range|rewrite length_app; cbn; lia].
  cbn [mbind option_bind]. by rewrite string_of_bytes_of.
Qed.

(** ** Values *)

(** Strings are valid UTF-8 and numbers are numerals. *)
Fixpoint jvalid (v : jvalue) : Prop :=
  match v with
  | JNull | JBool _ => True
  | JNum literal => numeral literal
  | JStr s => ValidString s = true
  | JArr items => fold_right and True (List.map jvalid items)
  | JObj members => fold_right and True (List.map (λ m, ValidString m.1 = true ∧ jvalid m.2) members)
  end.

Section jvalue_induction.
  Context (P : jvalue → Prop) (Hnull : P JNull) (Hbool : ∀ b, P (JBool b)) (Hnum : ∀ l, P (JNum l))
    (Hstr : ∀ s, P (JStr s)) (Harr : ∀ items, Forall P items → P (JArr items))
    (Hobj : ∀ members, Forall (λ m, P m.2) members → P (JObj members)).

Fixpoint jvalue_nested_ind (v : jvalue) : P v :=
  match v with
  | JNull => Hnull
  | JBool b => Hbool b
  | JNum l => Hnum l
  | JStr s => Hstr s
  | JArr items =>
      Harr items ((fix go l : Forall P l :=
        match l with [] => Forall_nil_2 _ | x :: l => Forall_cons_2 _ _ _ (jvalue_nested_ind x) (go l) end) items)
  | JObj members =>
      Hobj members ((fix go l : Forall (λ m, P m.2) l :=
        match l with [] => Forall_nil_2 _ | x :: l => Forall_cons_2 _ _ _ (jvalue_nested_ind x.2) (go l) end) members)
  end.
End jvalue_induction.

Lemma expect_head b c l : is_space c = false → expect b (c :: l) = if c =? b then Some l else None.
Proof. intros H. unfold expect. cbn [skip_space]. by rewrite H. Qed.

Lemma is_digit_plain b : is_digit b = true →
  is_space b = false ∧ b ≠ 93 ∧ b ≠ 125 ∧ b ≠ 34 ∧ b ≠ 91 ∧ b ≠ 123 ∧ b ≠ 110 ∧ b ≠ 116 ∧ b ≠ 102.
Proof.
  unfold is_digit, in_range, is_space. intros H. bool_hyps. split_and!; try lia.
Qed.

(** A printed value starts with a byte that is neither white space nor a closing bracket. *)
Lemma json_print_head v : jvalid v → ∃ b l, json_print v = b :: l ∧ is_space b = false ∧ b ≠ 93.
Proof.
  destruct v as [|[]|literal|s|items|members]; intros Hv; try (by eexists _, _).
  destruct Hv as (d & ds & -> & Hf & _). apply Forall_cons in Hf as [Hd _].
  destruct (is_digit_plain d Hd) as (Hs & H93 & _). by exists d, ds.
Qed.

Lemma parse_value_string fuel s rest :
  ValidString s = true → parse_value (S fuel) (json_string s ++ rest) = Some (JStr s, rest).
Proof.
  intros Hs. unfold json_string. cbn [parse_value]. cbn [app]. change (skip_space (34 :: ?x)) with (34 :: x).
  rewrite expect_head by done. cbn [Z.eqb Pos.eqb]. rewrite <- app_assoc. cbn [app]. by rewrite parse_string_print.
Qed.

Lemma parse_value_number fuel l rest :
  numeral l → ends rest → parse_value (S fuel) (l ++ rest) = Some (JNum l, rest).
Proof.
  intros Hl He. pose proof (parse_number_numeral _ _ Hl He) as Hp. destruct Hl as (d & ds & -> & Hf & _).
  apply Forall_cons in Hf as [Hd _]. destruct (is_digit_plain d Hd) as (Hs & _ & _ & H34 & H91 & H123 & Hn & Ht & Hfa).
  cbn [app] in *. cbn [parse_value skip_space]. rewrite Hs, !expect_head by done.
  rewrite (proj2 (Z.eqb_neq _ _) H34), (proj2 (Z.eqb_neq _ _) H91), (proj2 (Z.eqb_neq _ _) H123).
  unfold literal_of. change (bytes_of "null") with (110 :: bytes_of "ull"). change (bytes_of "true") with (116 :: bytes_of "rue").
  change (bytes_of "false") with (102 :: bytes_of "alse"). cbn [GoText.strip_prefix].
  rewrite (proj2 (Z.eqb_neq 110 d)), (proj2 (Z.eqb_neq 116 d)), (proj2 (Z.eqb_neq 102 d)) by done. by rewrite Hp.
Qed.

Definition reads (v : jvalue) : Prop := ∀ fuel rest,
  jvalid v → ends rest → (2 * length (json_print v) ≤ fuel)%nat →
  parse_value fuel (json_print v ++ rest) = Some (v, rest).

Lemma json_join_cons x y l : json_join (x :: y :: l) = x ++ 44 :: json_join (y :: l).
Proof. done. Qed.

Lemma parse_items_print x items fuel rest :
  reads x → Forall reads items → jvalid x → fold_right and True (List.map jvalid items) →
  (2 * length (json_join (List.map json_print (x :: items))) < fuel)%nat →
  parse_items fuel (json_join (List.map json_print (x :: items)) ++ 93 :: rest) = Some (x :: items, rest).
Proof.
  intros Hx Hitems. induction Hitems as [|y items Hy _ IH] in x, fuel, Hx |- *; intros Hvx Hv Hf;
    (destruct fuel as [|fuel]; [lia|]); cbn [parse_items List.map] in *.
  - cbn [json_join] in *. rewrite (Hx fuel (93 :: rest)) by (done || lia). cbn [mbind option_bind].
    by rewrite expect_head.
  - destruct Hv as [Hvy Hv]. rewrite json_join_cons in *. rewrite length_app in Hf. cbn [length] in Hf.
    rewrite <- app_assoc. cbn [app]. rewrite (Hx fuel) by (done || lia). cbn [mbind option_bind].
    rewrite !expect_head by done. cbn [Z.eqb Pos.eqb mbind option_bind]. by rewrite (IH y fuel) by (done || lia).
Qed.

Lemma parse_members_print k x members fuel rest :
  reads x → Forall (λ m, reads m.2) members → ValidString k = true → jvalid x →
  fold_right and True (List.map (λ m, ValidString m.1 = true ∧ jvalid m.2) members) →
  (2 * length (json_join (List.map (λ m, json_field m.1 (json_print m.2)) ((k, x) :: members))) < fuel)%nat →
  parse_members fuel (json_join (List.map (λ m, json_field m.1 (json_print m.2)) ((k, x) :: members)) ++ 125 :: rest) =
    Some ((k, x) :: members, rest).
Proof.
  intros Hx Hms. induction Hms as [|[k' y] members Hy _ IH] in k, x, fuel, Hx |- *; intros Hk Hvx Hv Hf;
    (destruct fuel as [|fuel]; [lia|]); cbn [parse_members List.map fst snd] in *.
  - cbn [json_join] in *. unfold json_field, json_string in *. cbn [app]. rewrite expect_head by done.
    cbn [Z.eqb Pos.eqb mbind option_bind]. cbn [app length] in Hf. rewrite !length_app in Hf. cbn [length] in Hf.
    rewrite <- !app_assoc. cbn [app]. rewrite parse_string_print by done. cbn [mbind option_bind].
    rewrite expect_head by done. cbn [Z.eqb Pos.eqb mbind option_bind].
    rewrite (Hx fuel (125 :: rest)) by (done || lia). cbn [mbind option_bind]. by rewrite expect_head.
  - destruct Hv as [[Hk' Hvy] Hv]. rewrite json_join_cons in *. rewrite length_app in Hf. cbn [length] in Hf.
    unfold json_field at 1 in Hf. unfold json_field at 1. unfold json_string at 1 in Hf. unfold json_string at 1.
    cbn [app length] in Hf. rewrite !length_app in Hf. cbn [length] in Hf.
    cbn [app]. rewrite expect_head by done. cbn [Z.eqb Pos.eqb mbind option_bind].
    rewrite <- !app_assoc. cbn [app]. rewrite parse_string_print by done. cbn [mbind option_bind].
    rewrite expect_head by done. cbn [Z.eqb Pos.eqb mbind option_bind].
    rewrite (Hx fuel) by (done || lia). cbn [mbind option_bind].
    rewrite !expect_head by done. cbn [Z.eqb Pos.eqb mbind option_bind]. by rewrite (IH k' y fuel) by (done || lia).
Qed.

Lemma parse_value_print v : reads v.
Proof.
  induction v as [|[]|literal|s|items Hitems|members Hms] using jvalue_nested_ind; intros fuel rest Hv He Hf;
    (destruct fuel as [|fuel]; [try (cbn in Hf; lia)|]); try done.
  - destruct Hv as (d & ds & -> & _). cbn in Hf. lia.
  - by apply parse_value_number.
  - by apply parse_value_string.
  - cbn [json_print] in *. unfold json_array in *. cbn [app length] in *. rewrite length_app in Hf. cbn [length] in Hf.
    cbn [parse_value]. change (skip_space (91 :: ?x)) with (91 :: x). rewrite !expect_head by done. cbn [Z.eqb Pos.eqb].
    rewrite <- app_assoc. cbn [app]. destruct items as [|x items]; [done|]. destruct Hv as [Hvx Hv].
    apply Forall_cons in Hitems as [Hx Hitems].
    rewrite (parse_items_print x items fuel rest) by (done || lia).
    destruct (json_print_head x Hvx) as (b & l & Hh & Hsp & H93).
    assert (expect 93 (json_join (List.map json_print (x :: items)) ++ 93 :: rest) = None) as ->; [|done].
    cbn [List.map]. destruct items; cbn [List.map json_join]; rewrite Hh; cbn [app]; rewrite expect_head by done;
      by rewrite (proj2 (Z.eqb_neq _ _) H93).
  - cbn [json_print] in *. unfold json_object in *. cbn [app length] in *. rewrite length_app in Hf. cbn [length] in Hf.
    cbn [parse_value]. change (skip_space (123 :: ?x)) with (123 :: x). rewrite !expect_head by done. cbn [Z.eqb Pos.eqb].
    rewrite <- app_assoc. cbn [app]. destruct members as [|[k x] members]; [done|]. destruct Hv as [[Hk Hvx] Hv].
    apply Forall_cons in Hms as [Hx Hms].
    rewrite (parse_members_print k x members fuel rest) by (done || lia).
    assert (expect 125 (json_join (List.map (λ m, json_field m.1 (json_print m.2)) ((k, x) :: members)) ++ 125 :: rest) = None)
      as ->; [|done]. by destruct members.
Qed.

(** A printed document reads back. *)
Lemma parse_json_print v : jvalid v → parse_json (json_print v) = Some v.
Proof.
  intros Hv. unfold parse_json. pose proof (parse_value_print v (2 * length (json_print v))%nat [] Hv I ltac:(lia)) as Hp.
  rewrite app_nil_r in Hp. by rewrite Hp.
Qed.

(** ** Hexadecimal and base64 *)
Lemma hex_decode_encode l : Forall (λ b, 0 ≤ b < 256) l → hex_decode_bytes (hex_encode_bytes l) = Some l.
Proof.
  unfold hex_encode_bytes. induction 1 as [|b l Hb _ IH]; [done|]. cbn [flat_map app hex_decode_bytes].
  rewrite !hex_value_digit by (apply Z.mod_pos_bound; lia) || (split; [apply Z.div_pos|apply Z.div_lt_upper_bound]; lia).
  cbn [mbind option_bind]. rewrite IH. cbn. do 2 f_equal. pose proof (Z.div_mod b 16). lia.
Qed.

Lemma base64_value_char n : 0 ≤ n < 64 →
  base64_value (base64_char n) = Some n ∧ base64_char n ≠ 61 ∧ base64_char n ≠ 10 ∧ base64_char n ≠ 13 ∧
  0 ≤ base64_char n < 256.
Proof.
  intros H. unfold base64_char, base64_value, in_range.
  destruct (Z.ltb_spec n 26); [|destruct (Z.ltb_spec n 52); [|destruct (Z.ltb_spec n 62); [|destruct (Z.eqb_spec n 62)]]].
  all: repeat match goal with |- context [?a <=? ?b] => destruct (Z.leb_spec a b); try lia end.
  all: cbn; split_and!; try lia; try (f_equal; lia).
  all: repeat match goal with |- context [?a =? ?b] => destruct (Z.eqb_spec a b); try lia end; f_equal; lia.
Qed.

(** The bytes in groups of three. *)
Lemma list_ind3 {A} (P : list A → Prop) :
  P [] → (∀ a, P [a]) → (∀ a b, P [a; b]) → (∀ a b c l, P l → P (a :: b :: c :: l)) → ∀ l, P l.
Proof.
  intros H0 H1 H2 H3. fix go 1. intros [|a [|b [|c l]]]; [done|apply H1|apply H2|]. apply H3, go.
Qed.

Lemma base64_digits a b c : 0 ≤ a < 256 → 0 ≤ b < 256 → 0 ≤ c < 256 →
  0 ≤ a / 4 < 64 ∧ 0 ≤ a mod 4 * 16 < 64 ∧ 0 ≤ a mod 4 * 16 + b / 16 < 64 ∧ 0 ≤ b mod 16 * 4 < 64 ∧
  0 ≤ b mod 16 * 4 + c / 64 < 64 ∧ 0 ≤ c mod 64 < 64.
Proof. intros. Z.to_euclidean_division_equations. lia. Qed.

Lemma base64_groups_bytes l : Forall (λ b, 0 ≤ b < 256) l →
  base64_groups (base64_bytes l) = Some l ∧
  Forall (λ b, b ≠ 10 ∧ b ≠ 13 ∧ 0 ≤ b < 256) (base64_bytes l).
Proof.
  assert (Hchar : ∀ n, 0 ≤ n < 64 → base64_char n ≠ 10 ∧ base64_char n ≠ 13 ∧ 0 ≤ base64_char n < 256).
  { intros n Hn. by destruct (base64_value_char n Hn) as (_ & _ & ?). }
  assert (Hval : ∀ n, 0 ≤ n < 64 → base64_value (base64_char n) = Some n) by (intros; by apply base64_value_char).
  assert (Hpad : ∀ n, 0 ≤ n < 64 → (base64_char n =? 61) = false).
  { intros n Hn. apply Z.eqb_neq. by destruct (base64_value_char n Hn) as (_ & ? & _). }
  induction l as [|a|a b|a b c l IH] using list_ind3; intros Hl; [done|..];
    repeat (apply Forall_cons in Hl as [? Hl]); cbn [base64_bytes base64_groups].
  - destruct (base64_digits a 0 0) as (D1 & D2 & _); [lia..|]. rewrite !Hval by done. cbn. split.
    + do 2 f_equal. Z.to_euclidean_division_equations. lia.
    + repeat constructor; by apply Hchar || lia.
  - destruct (base64_digits a b 0) as (D1 & _ & D3 & D4 & _); [lia..|]. rewrite !Hval, Hpad by done. cbn. split.
    + do 2 f_equal; [|f_equal]; Z.to_euclidean_division_equations; lia.
    + repeat constructor; by apply Hchar || lia.
  - destruct (base64_digits a b c) as (D1 & _ & D3 & _ & D5 & D6); [lia..|]. destruct (IH Hl) as [IH1 IH2].
    rewrite !Hval, !Hpad by done. cbn [mbind option_bind]. rewrite IH1. cbn.
    split.
    + do 2 f_equal; [|f_equal; [|f_equal]]; Z.to_euclidean_division_equations; lia.
    + do 4 (apply Forall_cons; split; [by apply Hchar|]). done.
Qed.

Lemma base64_decode_encode s : base64_decode (base64_encode s) = Some s.
Proof.
  destruct (base64_groups_bytes _ (bytes_of_range s)) as [Hd Hf]. unfold base64_decode, base64_encode.
  rewrite bytes_of_string_of_bytes by (eapply Forall_impl; [exact Hf|]; cbn; lia).
  assert (List.filter (λ b, negb ((b =? 10) || (b =? 13))) (base64_bytes (bytes_of s)) = base64_bytes (bytes_of s)) as ->.
  { clear Hd. induction Hf as [|b l (H1 & H2 & _) _ IH]; [done|]. cbn [List.filter].
    rewrite (proj2 (Z.eqb_neq _ _) H1), (proj2 (Z.eqb_neq _ _) H2). cbn [orb negb]. by rewrite IH. }
  rewrite Hd. cbn. by rewrite string_of_bytes_of.
Qed.

(** What the encoders print is ASCII. *)
Lemma runes_ascii n l : Forall (λ b, 0 ≤ b < 128) l → (length l ≤ n)%nat → is_Some (runes_fuel n l).
Proof.
  intros H. induction H as [|b l Hb _ IH] in n |- *; intros Hn; [by destruct n; eexists|].
  destruct n as [|n]; [cbn in Hn; lia|]. cbn -[decode_rune]. unfold decode_rune. rewrite (proj2 (Z.ltb_lt b 128)) by lia.
  destruct (IH n) as [rs ->]; [cbn in Hn; lia|]. by eexists.
Qed.

Lemma ascii_valid s : Forall (λ b, 0 ≤ b < 128) (bytes_of s) → ValidString s = true.
Proof.
  intros H. unfold ValidString, runes. destruct (runes_ascii (String.length s) _ H) as [rs ->]; [|done].
  by rewrite length_bytes_of.
Qed.
