(* ===== verification/GoTime.v ===== *)
(** * time: the calendar and [time.RFC3339Nano]

    Instants are nanoseconds since the zero time, 0001-01-01T00:00:00Z ([Prelude]).  [Format]
    prints one in UTC with the layout [time.RFC3339Nano]: a year of at least four digits, and a
    fraction without trailing zeros that is left out when it is 0.  [ParseUTC] is the part of
    [time.Parse] for that layout that reads texts ending in [Z]; the code only keeps a parsed
    time whose UTC text is the text that was read, and no other zone prints as it was read. *)
From S2P Require Import Prelude GoText GoJson GoDecode.
Open Scope Z_scope.

Definition nanos_per_second : Z := 1000000000.
Definition seconds_per_day : Z := 86400.

(** ** Dates

    The cycles of 400, 100, 4 and 1 years; the last 100-year and 1-year parts of a cycle take
    the leap day. *)
Definition year_of_days (days : Z) : Z * Z :=
  let n400 := days / 146097 in
  let d := days mod 146097 in
  let n100 := d / 36524 - d / 36524 / 4 in
  let d := d - 36524 * n100 in
  let n4 := d / 1461 in
  let d := d - 1461 * n4 in
  let n1 := d / 365 - d / 365 / 4 in
  (400 * n400 + 100 * n100 + 4 * n4 + n1 + 1, d - 365 * n1).

Definition is_leap (year : Z) : bool :=
  (year mod 4 =? 0) && (negb (year mod 100 =? 0) || (year mod 400 =? 0)).
Definition month_lengths (leap : bool) : list Z :=
  [31; if leap then 29 else 28; 31; 30; 31; 30; 31; 31; 30; 31; 30; 31].

(** The month and the day of the month of a day of the year, both counted from 1. *)
Fixpoint month_of (month : Z) (lengths : list Z) (day : Z) : Z * Z :=
  match lengths with
  | [] => (month, day + 1)
  | n :: lengths => if day <? n then (month, day + 1) else month_of (month + 1) lengths (day - n)
  end.

Definition date_of_days (days : Z) : Z * Z * Z :=
  let '(year, day) := year_of_days days in
  let '(month, day) := month_of 1 (month_lengths (is_leap year)) day in
  (year, month, day).

Definition days_before_year (year : Z) : Z :=
  let y := year - 1 in 365 * y + y / 4 - y / 100 + y / 400.
Definition days_before_month (leap : bool) (month : Z) : Z :=
  foldr Z.add 0 (take (Z.to_nat (month - 1)) (month_lengths leap)).
Definition days_of_date (year month day : Z) : Z :=
  days_before_year year + days_before_month (is_leap year) month + (day - 1).
Definition days_in (year month : Z) : Z :=
  nth (Z.to_nat (month - 1)) (month_lengths (is_leap year)) 0.

(** ** Printing *)
Fixpoint fixed (n : nat) (x : Z) : list Z :=
  match n with
  | O => []
  | S n => fixed n (x / 10) ++ [48 + x mod 10]
  end.

(** [appendInt]: at least [n] digits. *)
Definition append_int (n : nat) (x : Z) : list Z :=
  let digits x := if x <? 10 ^ Z.of_nat n then fixed n x else json_int x in
  if x <? 0 then 45 :: digits (- x) else digits x.

Fixpoint trim_zeros (l : list Z) : list Z :=
  match l with
  | [] => []
  | d :: l => match trim_zeros l with [] => if d =? 48 then [] else [d] | r => d :: r end
  end.
Definition print_fraction (nanos : Z) : list Z :=
  if nanos =? 0 then [] else 46 :: trim_zeros (fixed 9 nanos).

Definition format_bytes (t : time) : list Z :=
  let seconds := t / nanos_per_second in
  let '(year, month, day) := date_of_days (seconds / seconds_per_day) in
  let second := seconds mod seconds_per_day in
  append_int 4 year ++ 45 :: append_int 2 month ++ 45 :: append_int 2 day ++
  84 :: append_int 2 (second / 3600) ++ 58 :: append_int 2 (second / 60 mod 60) ++
  58 :: append_int 2 (second mod 60) ++ print_fraction (t mod nanos_per_second) ++ [90].
Definition Format (t : time) : string := string_of_bytes (format_bytes t).

(** ** Reading *)
Fixpoint take_fixed (n : nat) (l : list Z) : option (list Z * list Z) :=
  match n, l with
  | O, _ => Some ([], l)
  | S n, b :: l =>
      if is_digit b then '(ds, rest) ← take_fixed n l; Some (b :: ds, rest) else None
  | S _, [] => None
  end.
Definition read_fixed (n : nat) (l : list Z) : option (Z * list Z) :=
  '(ds, rest) ← take_fixed n l; Some (digits_value ds, rest).
Definition read_byte (b : Z) (l : list Z) : option (list Z) :=
  match l with c :: rest => if c =? b then Some rest else None | [] => None end.

(** The fraction: nine digits count, missing ones are 0. *)
Definition read_fraction (l : list Z) : option (Z * list Z) :=
  match l with
  | b :: rest =>
      if b =? 46 then
        '(ds, rest) ← some_digits rest;
        Some (digits_value (take 9 (ds ++ replicate 9 48)), rest)
      else Some (0, l)
  | [] => Some (0, l)
  end.

Definition parse_bytes (l : list Z) : option time :=
  '(year, l) ← read_fixed 4 l; l ← read_byte 45 l;
  '(month, l) ← read_fixed 2 l; l ← read_byte 45 l;
  '(day, l) ← read_fixed 2 l; l ← read_byte 84 l;
  '(hour, l) ← read_fixed 2 l; l ← read_byte 58 l;
  '(minute, l) ← read_fixed 2 l; l ← read_byte 58 l;
  '(second, l) ← read_fixed 2 l;
  '(nanos, l) ← read_fraction l; l ← read_byte 90 l;
  if (zlen l =? 0) && in_range 1 12 month && in_range 1 (days_in year month) day &&
     (hour <? 24) && (minute <? 60) && (second <? 60)
  then Some (((days_of_date year month day * seconds_per_day) + hour * 3600 + minute * 60 + second) *
             nanos_per_second + nanos)
  else None.
Definition ParseUTC (s : string) : option time := parse_bytes (bytes_of s).

(** [time.Parse] and the comparison that follows it: the text must be the one [Format] prints. *)
Definition parse_canonical (s : string) : option time :=
  t ← ParseUTC s; if s == Format t then Some t else None.

(** * Reading inverts printing *)

(** The four cycle counts, bounded one after the other. *)
Lemma year_of_days_spec days year day :
  year_of_days days = (year, day) →
  days = days_before_year year + day ∧ 0 ≤ day < (if is_leap year then 366 else 365).
Proof.
  unfold year_of_days, days_before_year. intros [= <- <-].
  pose proof (Z.div_mod days 146097 ltac:(lia)) as H400. pose proof (Z.mod_pos_bound days 146097 ltac:(lia)) as B400.
  set (n400 := days / 146097) in *. set (d400 := days mod 146097) in *. clearbody n400 d400.
  assert (H100 : let n100 := d400 / 36524 - d400 / 36524 / 4 in
    0 ≤ n100 ≤ 3 ∧ 0 ≤ d400 - 36524 * n100 ∧ (d400 - 36524 * n100 < 36524 ∨ n100 = 3 ∧ d400 - 36524 * n100 = 36524)).
  { cbv zeta. Z.to_euclidean_division_equations. lia. }
  cbv zeta in H100. set (n100 := d400 / 36524 - d400 / 36524 / 4) in *. clearbody n100.
  set (d100 := d400 - 36524 * n100) in *. assert (E100 : d400 = d100 + 36524 * n100) by (unfold d100; lia). clearbody d100.
  assert (H4 : 0 ≤ d100 / 1461 ≤ 24 ∧ 0 ≤ d100 - 1461 * (d100 / 1461) < 1461) by (Z.to_euclidean_division_equations; lia).
  set (n4 := d100 / 1461) in *. clearbody n4.
  set (d4 := d100 - 1461 * n4) in *. assert (E4 : d100 = d4 + 1461 * n4) by (unfold d4; lia). clearbody d4.
  assert (H1 : let n1 := d4 / 365 - d4 / 365 / 4 in
    0 ≤ n1 ≤ 3 ∧ 0 ≤ d4 - 365 * n1 ∧ (d4 - 365 * n1 < 365 ∨ n1 = 3 ∧ d4 - 365 * n1 = 365)).
  { cbv zeta. Z.to_euclidean_division_equations. lia. }
  cbv zeta in H1. set (n1 := d4 / 365 - d4 / 365 / 4) in *. clearbody n1.
  set (y := 400 * n400 + 100 * n100 + 4 * n4 + n1).
  assert (Q4 : y / 4 = 100 * n400 + 25 * n100 + n4) by (unfold y; Z.to_euclidean_division_equations; lia).
  assert (Q100 : y / 100 = 4 * n400 + n100) by (unfold y; Z.to_euclidean_division_equations; lia).
  assert (Q400 : y / 400 = n400) by (unfold y; Z.to_euclidean_division_equations; lia).
  replace (y + 1 - 1) with y by lia. rewrite Q4, Q100, Q400. split; [unfold y; lia|].
  assert (Hleap : n1 = 3 → (n4 < 24 ∨ n100 = 3) → is_leap (y + 1) = true).
  { intros E1 E2. unfold is_leap, y. apply andb_true_iff. split.
    - apply Z.eqb_eq. Z.to_euclidean_division_equations. lia.
    - destruct E2 as [E2|E2].
      + apply orb_true_iff. destruct (decide (n4 = 24)); [lia|]. left. apply negb_true_iff, Z.eqb_neq.
        Z.to_euclidean_division_equations. lia.
      + apply orb_true_iff. destruct (decide (n4 = 24)) as [->|].
        * right. apply Z.eqb_eq. Z.to_euclidean_division_equations. lia.
        * left. apply negb_true_iff, Z.eqb_neq. Z.to_euclidean_division_equations. lia. }
  destruct (is_leap (y + 1)) eqn:E; [lia|]. split; [lia|]. destruct H1 as (_ & _ & [H1|[H1 H1']]); [lia|].
  exfalso. by assert (false = true) by (apply Hleap; [done|lia]).
Qed.

Lemma month_of_spec month lengths day m d :
  0 ≤ day < foldr Z.add 0 lengths → month_of month lengths day = (m, d) →
  month ≤ m < month + zlen lengths ∧ 1 ≤ d ≤ nth (Z.to_nat (m - month)) lengths 0 ∧
  day = foldr Z.add 0 (take (Z.to_nat (m - month)) lengths) + (d - 1).
Proof.
  induction lengths as [|n lengths IH] in month, day |- *; intros Hday; cbn [month_of foldr] in *; [lia|].
  rewrite zlen_cons. pose proof (zlen_nonneg lengths). destruct (Z.ltb_spec day n).
  - intros [= <- <-]. rewrite Z.sub_diag. change (Z.to_nat 0) with 0%nat. cbn [nth take foldr]. lia.
  - intros Hm. destruct (IH (month + 1) (day - n) ltac:(lia) Hm) as (H1 & H2 & H3).
    replace (Z.to_nat (m - month)) with (S (Z.to_nat (m - (month + 1)))) by lia. cbn [nth take foldr]. lia.
Qed.

Lemma date_of_days_spec days y m d :
  date_of_days days = (y, m, d) →
  days_of_date y m d = days ∧ 1 ≤ m ≤ 12 ∧ 1 ≤ d ≤ days_in y m ∧ days_in y m ≤ 31.
Proof.
  unfold date_of_days. destruct (year_of_days days) as [year day] eqn:Hy.
  destruct (month_of 1 _ day) as [month dom] eqn:Hm. intros [= <- <- <-].
  destruct (year_of_days_spec _ _ _ Hy) as [Hd Hday]. apply month_of_spec in Hm as (H1 & H2 & H3).
  - unfold days_of_date, days_before_month, days_in. split_and!; try done; try lia.
    + change (zlen (month_lengths (is_leap year))) with 12 in H1. lia.
    + assert (Hall : Forall (λ n, n ≤ 31) (month_lengths (is_leap year)))
        by (unfold month_lengths; destruct (is_leap year); repeat constructor; lia).
      assert (Hlen : (Z.to_nat (month - 1) < length (month_lengths (is_leap year)))%nat).
      { change (length (month_lengths (is_leap year))) with 12%nat.
        change (zlen (month_lengths (is_leap year))) with 12 in H1. lia. }
      rewrite Forall_forall in Hall. apply Hall, list_elem_of_In, nth_In, Hlen.
  - destruct (is_leap year); cbn; lia.
Qed.

Lemma days_next_year year :
  days_before_year (year + 1) = days_before_year year + (if is_leap year then 366 else 365).
Proof.
  unfold days_before_year, is_leap. replace (year + 1 - 1) with year by lia.
  destruct (Z.eqb_spec (year mod 4) 0), (Z.eqb_spec (year mod 100) 0), (Z.eqb_spec (year mod 400) 0);
    cbn [andb orb negb]; Z.to_euclidean_division_equations; lia.
Qed.

Lemma days_before_year_mono y1 y2 : y1 ≤ y2 → days_before_year y1 ≤ days_before_year y2.
Proof. intros H. unfold days_before_year. Z.to_euclidean_division_equations. lia. Qed.

(** The years that print with four digits. *)
Definition first_day : Z := days_before_year 0.
Definition last_day : Z := days_before_year 10000.
Lemma date_year_range days y m d :
  date_of_days days = (y, m, d) → (first_day ≤ days < last_day ↔ 0 ≤ y ≤ 9999).
Proof.
  unfold date_of_days. destruct (year_of_days days) as [year day] eqn:Hy.
  destruct (month_of 1 _ day) as [month dom]. intros [= <- _ _].
  destruct (year_of_days_spec _ _ _ Hy) as [Hd Hday]. pose proof (days_next_year year) as Hn. unfold first_day, last_day.
  pose proof (days_before_year_mono 0 year). pose proof (days_before_year_mono (year + 1) 0).
  pose proof (days_before_year_mono (year + 1) 10000). pose proof (days_before_year_mono 10000 year). lia.
Qed.

Lemma fixed_spec n x :
  Forall (λ b, is_digit b = true) (fixed n x) ∧ length (fixed n x) = n ∧
  (0 ≤ x < 10 ^ Z.of_nat n → digits_value (fixed n x) = x).
Proof.
  induction n as [|n IH] in x |- *; [split_and!; [constructor|done|cbn; lia]|].
  destruct (IH (x / 10)) as (H1 & H2 & H3). cbn [fixed]. pose proof (Z.mod_pos_bound x 10 ltac:(lia)). split_and!.
  - apply Forall_app. split; [done|]. constructor; [|done]. unfold is_digit, in_range. lia.
  - rewrite length_app, H2. cbn. lia.
  - intros Hx. rewrite digits_value_app, H3.
    + pose proof (Z.div_mod x 10). lia.
    + rewrite Nat2Z.inj_succ, Z.pow_succ_r in Hx by lia.
      split; [apply Z.div_pos; lia|apply Z.div_lt_upper_bound; lia].
Qed.

Lemma take_fixed_app ds rest :
  Forall (λ b, is_digit b = true) ds → take_fixed (length ds) (ds ++ rest) = Some (ds, rest).
Proof. induction 1 as [|d ds Hd _ IH]; [done|]. cbn [length app take_fixed]. by rewrite Hd, IH. Qed.

Lemma read_append_int n x rest :
  0 ≤ x < 10 ^ Z.of_nat n → read_fixed n (append_int n x ++ rest) = Some (x, rest).
Proof.
  intros Hx. unfold append_int. rewrite (proj2 (Z.ltb_ge x 0)), (proj2 (Z.ltb_lt x _)) by lia.
  destruct (fixed_spec n x) as (Hf & Hl & Hv). unfold read_fixed. rewrite <- Hl at 1. rewrite take_fixed_app by done.
  cbn. by rewrite Hv.
Qed.

Lemma trim_zeros_spec l : ∃ k, l = trim_zeros l ++ replicate k 48.
Proof.
  induction l as [|d l [k IH]]; [by exists 0%nat|]. cbn [trim_zeros]. destruct (trim_zeros l) as [|e r].
  - destruct (Z.eqb_spec d 48) as [->|]; [exists (S k); cbn; by rewrite IH at 1|exists k; cbn; by rewrite IH at 1].
  - exists k. cbn in *. by rewrite IH at 1.
Qed.

Lemma digits_value_zeros k : digits_value (replicate k 48) = 0.
Proof. induction k as [|k IH]; [done|]. rewrite replicate_S_end, digits_value_app, IH. lia. Qed.

Lemma read_print_fraction nanos rest :
  0 ≤ nanos < nanos_per_second → (∃ b r, rest = b :: r ∧ is_digit b = false ∧ b ≠ 46 ∧ b ≠ 101 ∧ b ≠ 69) →
  read_fraction (print_fraction nanos ++ rest) = Some (nanos, rest).
Proof.
  intros Hn (b & r & -> & Hb & H46 & H101 & H69). unfold print_fraction. destruct (Z.eqb_spec nanos 0) as [->|Hnz].
  { cbn. by rewrite (proj2 (Z.eqb_neq b 46)) by done. }
  cbn [app read_fraction Z.eqb Pos.eqb]. destruct (fixed_spec 9 nanos) as (Hf & Hl & Hv).
  destruct (trim_zeros_spec (fixed 9 nanos)) as [k Hk]. specialize (Hv Hn).
  assert (Ht : Forall (λ b, is_digit b = true) (trim_zeros (fixed 9 nanos))).
  { rewrite Hk in Hf. by apply Forall_app in Hf as [? _]. }
  unfold some_digits. rewrite take_digits_app by done. destruct (trim_zeros (fixed 9 nanos)) as [|d ds] eqn:E.
  { rewrite Hk, app_nil_l, digits_value_zeros in Hv. lia. }
  cbn [mbind option_bind]. do 2 f_equal. rewrite <- Hv, Hk at 1. f_equal.
  assert (Hlen : (length (d :: ds) + k = 9)%nat) by (rewrite <- Hl, Hk at 1; by rewrite length_app, length_replicate).
  rewrite take_app. f_equal; [rewrite take_ge; [done|lia]|].
  rewrite take_replicate. f_equal. lia.
Qed.

Lemma read_byte_eq b l : read_byte b (b :: l) = Some l.
Proof. unfold read_byte. by rewrite Z.eqb_refl. Qed.

(** An instant within the four-digit years. *)
Definition four_digit_year (t : time) : Prop :=
  first_day ≤ t / nanos_per_second / seconds_per_day < last_day.

Lemma parse_format_bytes t : four_digit_year t → parse_bytes (format_bytes t) = Some t.
Proof.
  intros Hy. unfold parse_bytes, format_bytes. set (seconds := t / nanos_per_second) in *.
  destruct (date_of_days (seconds / seconds_per_day)) as [[year month] day] eqn:Hd.
  pose proof (proj1 (date_year_range _ _ _ _ Hd) Hy) as Hyear.
  destruct (date_of_days_spec _ _ _ _ Hd) as (Hdays & Hmonth & Hday & H31).
  pose proof (Z.mod_pos_bound seconds seconds_per_day ltac:(done)) as Hsec.
  pose proof (Z.mod_pos_bound t nanos_per_second ltac:(done)) as Hnan.
  set (second := seconds mod seconds_per_day) in *. unfold seconds_per_day in Hsec.
  assert (Hh : 0 ≤ second / 3600 < 24) by (split; [apply Z.div_pos|apply Z.div_lt_upper_bound]; lia).
  pose proof (Z.mod_pos_bound (second / 60) 60 ltac:(lia)) as Hm. pose proof (Z.mod_pos_bound second 60 ltac:(lia)) as Hs.
  rewrite <- ?app_assoc. rewrite read_append_int by (cbn; lia). cbn [mbind option_bind app]. rewrite read_byte_eq.
  cbn [mbind option_bind]. do 2 (rewrite read_append_int by (cbn; lia); cbn [mbind option_bind app]; rewrite read_byte_eq;
    cbn [mbind option_bind]).
  do 2 (rewrite read_append_int by (cbn; lia); cbn [mbind option_bind app]; rewrite read_byte_eq; cbn [mbind option_bind]).
  rewrite read_append_int by (cbn; lia). cbn [mbind option_bind].
  rewrite read_print_fraction by (done || by eexists _, _). cbn [mbind option_bind]. rewrite read_byte_eq. cbn [mbind option_bind].
  change (zlen [] =? 0) with true. unfold in_range.
  rewrite (proj2 (Z.leb_le 1 month)), (proj2 (Z.leb_le month 12)), (proj2 (Z.leb_le 1 day)), (proj2 (Z.leb_le day _)),
    (proj2 (Z.ltb_lt _ 24)), !(proj2 (Z.ltb_lt _ 60)) by lia. cbn [andb]. f_equal. rewrite Hdays.
  assert (E1 : second / 3600 * 3600 + second / 60 mod 60 * 60 + second mod 60 = second)
    by (clear; Z.to_euclidean_division_equations; lia).
  pose proof (Z.div_mod seconds seconds_per_day ltac:(done)) as E2. fold second in E2.
  pose proof (Z.div_mod t nanos_per_second ltac:(done)) as E3. fold seconds in E3.
  unfold seconds_per_day, nanos_per_second in *. lia.
Qed.

Lemma append_int_range n x : 0 ≤ x → Forall (λ b, 0 ≤ b < 128) (append_int n x).
Proof.
  intros Hx. unfold append_int. rewrite (proj2 (Z.ltb_ge x 0)) by lia.
  assert (Hd : ∀ l, Forall (λ b, is_digit b = true) l → Forall (λ b, 0 ≤ b < 128) l).
  { intros l Hl. eapply Forall_impl; [exact Hl|]. unfold is_digit, in_range. cbn. intros b Hb. bool_hyps. lia. }
  destruct (x <? _); apply Hd; [apply fixed_spec|]. by destruct (json_int_numeral x Hx) as [(d & ds & -> & Hf & _) _].
Qed.

Lemma format_bytes_range t : Forall (λ b, 0 ≤ b < 128) (format_bytes t).
Proof.
  unfold format_bytes. destruct (date_of_days _) as [[year month] day] eqn:Hd.
  destruct (date_of_days_spec _ _ _ _ Hd) as (_ & Hmonth & Hday & _).
  pose proof (Z.mod_pos_bound (t / nanos_per_second) seconds_per_day ltac:(done)) as Hsec.
  set (second := (t / nanos_per_second) mod seconds_per_day) in *.
  assert (Hh : 0 ≤ second / 3600) by (apply Z.div_pos; lia).
  pose proof (Z.mod_pos_bound (second / 60) 60 ltac:(lia)). pose proof (Z.mod_pos_bound second 60 ltac:(lia)).
  assert (Hyear : Forall (λ b, 0 ≤ b < 128) (append_int 4 year)).
  { destruct (decide (0 ≤ year)); [by apply append_int_range|].
    pose proof (append_int_range 4 (- year) ltac:(lia)) as Hneg. unfold append_int in *.
    rewrite (proj2 (Z.ltb_ge (- year) 0)) in Hneg by lia. rewrite (proj2 (Z.ltb_lt year 0)) by lia.
    by constructor. }
  assert (Hfrac : Forall (λ b, 0 ≤ b < 128) (print_fraction (t mod nanos_per_second))).
  { unfold print_fraction. destruct (_ =? 0); [constructor|]. constructor; [done|].
    destruct (fixed_spec 9 (t mod nanos_per_second)) as (Hf & _). destruct (trim_zeros_spec (fixed 9 (t mod nanos_per_second))) as [k Hk].
    rewrite Hk in Hf. apply Forall_app in Hf as [Hf _]. eapply Forall_impl; [exact Hf|].
    unfold is_digit, in_range. cbn. intros b Hb. bool_hyps. lia. }
  repeat (apply Forall_app; split); try (apply append_int_range; lia); try done;
    repeat (apply Forall_cons; split; [lia|]); repeat (apply Forall_app; split); try (apply append_int_range; lia); try done.
  all: repeat (first [apply Forall_cons; split; [lia|] | apply Forall_app; split | apply append_int_range; lia | done]).
Qed.

Lemma bytes_of_Format t : bytes_of (Format t) = format_bytes t.
Proof.
  unfold Format. apply Sha256.bytes_of_string_of_bytes. eapply Forall_impl; [apply format_bytes_range|]. cbn. lia.
Qed.

Lemma Format_valid t : ValidString (Format t) = true.
Proof. apply ascii_valid. rewrite bytes_of_Format. apply format_bytes_range. Qed.

Lemma Format_nonempty t : Format t ≠ "".
Proof.
  intros E. apply (f_equal bytes_of) in E. rewrite bytes_of_Format in E. unfold format_bytes in E.
  destruct (date_of_days _) as [[year month] day]. by destruct (append_int 4 year).
Qed.

(** Every instant within the four-digit years reads back from its text. *)
Lemma parse_canonical_Format t : four_digit_year t → parse_canonical (Format t) = Some t.
Proof.
  intros Ht. unfold parse_canonical, ParseUTC. rewrite bytes_of_Format, parse_format_bytes by done. cbn.
  by rewrite bool_decide_true.
Qed.

(** Only such an instant is ever read. *)
Lemma digits_value_bound ds : Forall (λ b, is_digit b = true) ds → 0 ≤ digits_value ds < 10 ^ zlen ds.
Proof.
  induction ds as [|d ds IH] using rev_ind; intros Hf; [done|]. apply Forall_app in Hf as [Hf Hd].
  apply Forall_cons in Hd as [Hd _]. unfold is_digit, in_range in Hd. bool_hyps.
  specialize (IH Hf). rewrite digits_value_app, zlen_app. change (zlen [d]) with 1.
  rewrite Z.pow_add_r by (apply zlen_nonneg || lia). lia.
Qed.

Lemma take_fixed_digits n l ds rest : take_fixed n l = Some (ds, rest) → l = ds ++ rest.
Proof.
  induction n as [|n IH] in l, ds |- *; cbn [take_fixed]; [by intros [= <- <-]|]. destruct l as [|b l]; [done|].
  destruct (is_digit b); [|done]. destruct (take_fixed n l) as [[ds' rest']|] eqn:E; [|done]. cbn. intros [= <- <-].
  by rewrite (IH _ _ E).
Qed.

(** No other instant reads back. *)
Lemma parse_canonical_far t : ¬ four_digit_year t → parse_canonical (Format t) = None.
Proof.
  intros Hfar. unfold parse_canonical, ParseUTC. rewrite bytes_of_Format.
  enough (parse_bytes (format_bytes t) = None) as -> by done. unfold four_digit_year in Hfar. unfold parse_bytes, format_bytes.
  destruct (date_of_days _) as [[year month] day] eqn:Hd. rewrite (date_year_range _ _ _ _ Hd) in Hfar.
  match goal with |- context [append_int 4 year ++ 45 :: ?x] => generalize x end. intros rest.
  unfold read_fixed. destruct (decide (0 ≤ year)).
  2:{ unfold append_int. by rewrite (proj2 (Z.ltb_lt year 0)) by lia. }
  unfold append_int. rewrite (proj2 (Z.ltb_ge year 0)), (proj2 (Z.ltb_ge year _)) by (cbn; lia).
  destruct (json_int_numeral year) as [(d & ds & Hj & Hf & _) Hv]; [done|]. pose proof (digits_value_bound _ Hf) as Hb.
  rewrite Hj, Hv in *. destruct ds as [|d2 [|d3 [|d4 [|d5 ds]]]]; try (unfold zlen in Hb; cbn in Hb; lia).
  repeat (apply Forall_cons in Hf as [? Hf]). cbn [app take_fixed].
  repeat match goal with H : is_digit ?b = true |- context [is_digit ?b] => rewrite H end. cbn [mbind option_bind read_byte].
  rewrite (proj2 (Z.eqb_neq d5 45)); [done|]. match goal with H : is_digit d5 = true |- _ => revert H end.
  unfold is_digit, in_range. intros ?. bool_hyps. lia.
Qed.

(** Reading is exactly the inverse of printing, within the four-digit years. *)
Lemma parse_canonical_iff s t : parse_canonical s = Some t ↔ s = Format t ∧ four_digit_year t.
Proof.
  split.
  - intros H. assert (Hs : s = Format t).
    { revert H. unfold parse_canonical. destruct (ParseUTC s) as [u|]; [|done]. cbn. destruct (s == Format u) eqn:E; [|done].
      bool_hyps. by intros [= <-]. }
    split; [done|]. subst. destruct (decide (first_day ≤ t / nanos_per_second / seconds_per_day < last_day)); [done|].
    by rewrite parse_canonical_far in H.
  - intros [-> Ht]. by apply parse_canonical_Format.
Qed.
