(* ===== verification/ContModel.v ===== *)
(** * programmable/continuation: the durable data model

    Models [model.go], [timer.go], [decision.go], [input.go] and the durable workflow state
    of [workflow.go] ([workflowSnapshotState] with its validation).  A Go string type with
    named constants is an inductive type with one constructor per constant and a last one for
    every other string, so the [valid] methods keep their content.  The clone functions of
    the package are identities here: the model's values are immutable. *)
From S2P Require Import Prelude GoText.
From Stdlib Require Import Ascii.
Open Scope Z_scope.

Definition maxIdentityBytes : Z := 512.
Definition maxPayloadBytes : Z := 1048576.
Definition maxWorkflowNodes : Z := 10000.
Definition maxWorkflowFailureSize : Z := 128.
Definition maxWorkflowAttempt : Z := 1000000.

(** ** Identities *)
Definition validIdentity (value : string) : bool := valid_text maxIdentityBytes value.

Definition validOperation (value : string) : bool :=
  match value with
  | String c rest =>
      validIdentity value && (c == "/"%char) &&
      match SplitSlash rest with
      | [service; method] => validIdentity service && validIdentity method
      | _ => false
      end
  | EmptyString => false
  end.

(** ** Statuses *)
Inductive Status :=
| StatusAccepted | StatusRunning | StatusWaiting | StatusSuspended | StatusCancelRequested
| StatusCompleted | StatusFailed | StatusCanceled | StatusExpired
| StatusOther (raw : string).

#[export] Instance Status_eq_dec : EqDecision Status.
Proof. solve_decision. Defined.

Definition Status_string (st : Status) : string :=
  match st with
  | StatusAccepted => "accepted" | StatusRunning => "running" | StatusWaiting => "waiting"
  | StatusSuspended => "suspended" | StatusCancelRequested => "cancel_requested"
  | StatusCompleted => "completed" | StatusFailed => "failed" | StatusCanceled => "canceled"
  | StatusExpired => "expired" | StatusOther raw => raw
  end.

Definition Status_Terminal (st : Status) : bool :=
  match st with
  | StatusCompleted | StatusFailed | StatusCanceled | StatusExpired => true
  | _ => false
  end.

Definition Status_valid (st : Status) : bool :=
  match st with StatusOther _ => false | _ => true end.

(** ** Frames *)
Inductive FrameKind :=
| FrameAccepted | FrameEvent | FrameWaiting | FrameSignal | FrameSuspended
| FrameCancelRequested | FrameCompleted | FrameFailed | FrameCanceled | FrameExpired
| FrameWorkflowChild
| FrameOther (raw : string).

#[export] Instance FrameKind_eq_dec : EqDecision FrameKind.
Proof. solve_decision. Defined.

Definition FrameKind_string (k : FrameKind) : string :=
  match k with
  | FrameAccepted => "accepted" | FrameEvent => "event" | FrameWaiting => "waiting"
  | FrameSignal => "signal" | FrameSuspended => "suspended"
  | FrameCancelRequested => "cancel_requested" | FrameCompleted => "completed"
  | FrameFailed => "failed" | FrameCanceled => "canceled" | FrameExpired => "expired"
  | FrameWorkflowChild => "workflow_child" | FrameOther raw => raw
  end.

Definition FrameKind_valid (k : FrameKind) : bool :=
  match k with FrameOther _ => false | _ => true end.

Record Frame := mkFrame { f_sequence : Z; f_kind : FrameKind; f_payload : string }.

#[export] Instance Frame_eq_dec : EqDecision Frame.
Proof. solve_decision. Defined.

(** ** Errors: the stable categories of the package, one constructor per [errors.New] or
    error type.  [ErrCanceled] is [context.Canceled], [ErrCause] any other cause of a context. *)
Inductive cerror :=
| ErrInvalidIdentity | ErrInvalidFrame | ErrTransition | ErrTerminal | ErrRevision | ErrFence
| ErrSequence | ErrCommandConflict | ErrInvalidTimer
| ErrInvalidWorkflow | ErrWorkflowCycle | ErrWorkflowDefinitionMismatch
| ErrWorkflowHandlerNotFound
| ErrInvalidStore | ErrNotFound | ErrAlreadyExists | ErrConflict | ErrStaleFence | ErrNotReady
| ErrLeaseHeld | ErrLeaseLost | ErrInvalidRetention | ErrInvalidAttach
| ErrInvalidHistory | ErrHistoryBudget
| ErrInvalidMachine | ErrAlreadyRegistered | ErrRegistryFrozen | ErrRegistryEmpty
| ErrMachineNotFound | ErrInvalidRuntime | ErrTransitionBudget | ErrLeaseUnsupported
| ErrInvalidInlineBudget | ErrInlineBudget | ErrTimerNotReady | ErrCursorAhead | ErrGap
| ErrCanceled
| ErrInvalidService | ErrAuthenticationRequired | ErrAccessDenied | ErrAuthorizationFailed
| ErrOwnershipConflict | ErrOwnershipNotFound
| StateError (kind : cerror) (from to : Status)
| TimerNotReadyError (readyAt : time)
| CursorError (after current : Z)
| GapError (after floor : Z)
| ErrCause (name : string).

#[export] Instance cerror_eq_dec : EqDecision cerror.
Proof. solve_decision. Defined.

(** The [Unwrap] methods of the package's error types; the sentinels stand for themselves. *)
Definition error_kind (e : cerror) : cerror :=
  match e with
  | StateError kind _ _ => kind
  | TimerNotReadyError _ => ErrTimerNotReady
  | CursorError _ _ => ErrCursorAhead
  | GapError _ _ => ErrGap
  | e => e
  end.

Definition stateError (kind : cerror) (from to : Status) : cerror := StateError kind from to.

Definition NewCallID (value : string) : result cerror string :=
  if validIdentity value then Ok value else Err ErrInvalidIdentity.

Definition NewOperation (value : string) : result cerror string :=
  if validOperation value then Ok value else Err ErrInvalidIdentity.

Definition NewFrame (kind : FrameKind) (payload : string) : result cerror Frame :=
  if negb (FrameKind_valid kind) || (maxPayloadBytes <? slen payload)
  then Err ErrInvalidFrame
  else Ok (mkFrame 0 kind payload).

(** ** Timers *)

(** Round up to a microsecond; the zero time is kept. *)
Definition normalizeReadyAt (value : time) : time :=
  if IsZero value then 0
  else
    let truncated := value / microsecond * microsecond in
    if truncated =? value then value else truncated + microsecond.

(** ** Durable workflow state *)
Inductive WorkflowNodeKind :=
| WorkflowNodeMachine | WorkflowNodeTimer | WorkflowNodeChild | WorkflowNodeJoin
| WorkflowNodeKindOther (raw : string).

#[export] Instance WorkflowNodeKind_eq_dec : EqDecision WorkflowNodeKind.
Proof. solve_decision. Defined.

Definition WorkflowNodeKind_valid (k : WorkflowNodeKind) : bool :=
  match k with WorkflowNodeKindOther _ => false | _ => true end.

Inductive WorkflowNodeStatus :=
| WorkflowNodePending | WorkflowNodeRunning | WorkflowNodeWaiting
| WorkflowNodeSucceeded | WorkflowNodeFailed | WorkflowNodeSkipped
| WorkflowNodeStatusOther (raw : string).

#[export] Instance WorkflowNodeStatus_eq_dec : EqDecision WorkflowNodeStatus.
Proof. solve_decision. Defined.

Definition WorkflowNodeStatus_valid (st : WorkflowNodeStatus) : bool :=
  match st with WorkflowNodeStatusOther _ => false | _ => true end.

Definition WorkflowNodeStatus_Terminal (st : WorkflowNodeStatus) : bool :=
  (st == WorkflowNodeSucceeded) || (st == WorkflowNodeFailed) || (st == WorkflowNodeSkipped).

Record workflowNodeState := mkNodeState {
  n_ID : string;
  n_Kind : WorkflowNodeKind;
  n_Status : WorkflowNodeStatus;
  n_Attempt : Z;
  n_ChildCallID : string;
  n_ReadyAt : time;
  n_FailureClass : string
}.

#[export] Instance workflowNodeState_eq_dec : EqDecision workflowNodeState.
Proof. solve_decision. Defined.

Record workflowSnapshotState := mkWorkflowState {
  w_Version : string;
  w_Fingerprint : string;
  w_StartedAt : time;
  w_Nodes : gmap string workflowNodeState
}.

#[export] Instance workflowSnapshotState_eq_dec : EqDecision workflowSnapshotState.
Proof. solve_decision. Defined.

Definition invalid_node (id : string) (node : workflowNodeState) : bool :=
  (id != n_ID node) || negb (validIdentity id) || negb (WorkflowNodeKind_valid (n_Kind node)) ||
  negb (WorkflowNodeStatus_valid (n_Status node)) || (maxWorkflowAttempt <? n_Attempt node) ||
  (maxWorkflowFailureSize <? slen (n_FailureClass node)) ||
  ((n_FailureClass node != "") && negb (validIdentity (n_FailureClass node))) ||
  (negb (IsZero (n_ReadyAt node)) && negb (n_ReadyAt node =? normalizeReadyAt (n_ReadyAt node))) ||
  ((n_ChildCallID node != "") && negb (validIdentity (n_ChildCallID node))) ||
  ((n_Kind node != WorkflowNodeTimer) && negb (IsZero (n_ReadyAt node))) ||
  ((n_Kind node != WorkflowNodeChild) && (n_ChildCallID node != "")) ||
  ((n_Status node == WorkflowNodeWaiting) && (n_Kind node == WorkflowNodeTimer) &&
     IsZero (n_ReadyAt node)) ||
  ((n_Status node == WorkflowNodeWaiting) && (n_Kind node == WorkflowNodeChild) &&
     (n_ChildCallID node == "")) ||
  ((n_Status node != WorkflowNodeFailed) && (n_FailureClass node != "")).

Definition map_len {A} (m : gmap string A) : Z := Z.of_nat (size m).

Definition validateWorkflowState (state : option workflowSnapshotState) : option cerror :=
  match state with
  | None => None
  | Some state =>
      if negb (validIdentity (w_Version state)) || negb (slen (w_Fingerprint state) =? 64) ||
         IsZero (w_StartedAt state) ||
         negb (w_StartedAt state =? normalizeReadyAt (w_StartedAt state)) ||
         (map_len (w_Nodes state) =? 0) || (maxWorkflowNodes <? map_len (w_Nodes state))
      then Some ErrInvalidWorkflow
      else if negb (hex_decodable (w_Fingerprint state)) then Some ErrInvalidWorkflow
      else if map_forallb (λ id node, negb (invalid_node id node)) (w_Nodes state)
      then None else Some ErrInvalidWorkflow
  end.

Definition allowedWorkflowNodeTransition (from to : WorkflowNodeStatus) : bool :=
  if WorkflowNodeStatus_Terminal from then from == to
  else match from with
  | WorkflowNodePending =>
      (to == WorkflowNodePending) || (to == WorkflowNodeRunning) ||
      (to == WorkflowNodeWaiting) || (to == WorkflowNodeSucceeded) ||
      (to == WorkflowNodeFailed) || (to == WorkflowNodeSkipped)
  | WorkflowNodeRunning =>
      (to == WorkflowNodeRunning) || (to == WorkflowNodeWaiting) ||
      (to == WorkflowNodeSucceeded) || (to == WorkflowNodeFailed) ||
      (to == WorkflowNodeSkipped)
  | WorkflowNodeWaiting =>
      (to == WorkflowNodeWaiting) || (to == WorkflowNodeSucceeded) ||
      (to == WorkflowNodeFailed) || (to == WorkflowNodeSkipped)
  | _ => false
  end.

Definition invalid_successor_node
    (next : gmap string workflowNodeState) (id : string) (previous : workflowNodeState) : bool :=
  match next !! id with
  | None => true
  | Some candidate =>
      (n_ID candidate != n_ID previous) || (n_Kind candidate != n_Kind previous) ||
      (n_Attempt candidate <? n_Attempt previous) ||
      (u32_add (n_Attempt previous) 1 <? n_Attempt candidate) ||
      ((n_ChildCallID previous != "") && (n_ChildCallID candidate != n_ChildCallID previous)) ||
      (negb (IsZero (n_ReadyAt previous)) && negb (n_ReadyAt candidate =? n_ReadyAt previous)) ||
      negb (allowedWorkflowNodeTransition (n_Status previous) (n_Status candidate))
  end.

Definition validateWorkflowSuccessor
    (current : option workflowSnapshotState) (next : workflowSnapshotState) : option cerror :=
  match current with
  | None => Some ErrInvalidWorkflow
  | Some cur =>
      if (validateWorkflowState (Some cur) != None) ||
         (validateWorkflowState (Some next) != None) ||
         (w_Version cur != w_Version next) || (w_Fingerprint cur != w_Fingerprint next) ||
         negb (w_StartedAt cur =? w_StartedAt next) ||
         negb (map_len (w_Nodes cur) =? map_len (w_Nodes next))
      then Some ErrInvalidWorkflow
      else if map_forallb (λ id previous, negb (invalid_successor_node (w_Nodes next) id previous))
                          (w_Nodes cur)
      then None else Some ErrInvalidWorkflow
  end.

(** ** Commands, snapshots, transitions *)
Inductive commandKind :=
| commandNone | commandSignal | commandCancel | commandOther (raw : string).

#[export] Instance commandKind_eq_dec : EqDecision commandKind.
Proof. solve_decision. Defined.

Record commandRecord := mkCommandRecord { cr_kind : commandKind; cr_digest : string }.

#[export] Instance commandRecord_eq_dec : EqDecision commandRecord.
Proof. solve_decision. Defined.

Record Snapshot := mkSnapshot {
  s_callID : string;
  s_operation : string;
  s_status : Status;
  s_readyAt : time;
  s_revision : Z;
  s_fence : Z;
  s_sequence : Z;
  s_frameFloor : Z;
  s_frames : list Frame;
  s_commands : gmap string commandRecord;
  s_workflow : option workflowSnapshotState
}.

#[export] Instance Snapshot_eq_dec : EqDecision Snapshot.
Proof. solve_decision. Defined.

Definition NewSnapshot (callID operation : string) : result cerror Snapshot :=
  if negb (validIdentity callID) || negb (validOperation operation) then Err ErrInvalidIdentity
  else Ok (mkSnapshot callID operation StatusAccepted 0 1 0 0 1 [] ∅ None).

Definition NewSnapshotWithInput (callID operation input : string) : result cerror Snapshot :=
  snapshot ← NewSnapshot callID operation;
  frame ← NewFrame FrameAccepted input;
  Ok (mkSnapshot (s_callID snapshot) (s_operation snapshot) (s_status snapshot)
        (s_readyAt snapshot) (s_revision snapshot) (s_fence snapshot) 1
        (s_frameFloor snapshot) [mkFrame 1 (f_kind frame) (f_payload frame)]
        (s_commands snapshot) (s_workflow snapshot)).

(** The persisted input, [None] for Go's nil. *)
Definition Input (snapshot : Snapshot) : option string :=
  match s_frames snapshot with
  | f :: _ =>
      if negb (f_sequence f =? 1) || (f_kind f != FrameAccepted) then None
      else Some (f_payload f)
  | [] => None
  end.

(** [now.UTC()] is [now] here. *)
Definition TimerDue (snapshot : Snapshot) (now : time) : bool :=
  IsZero (s_readyAt snapshot) || negb (Before now (s_readyAt snapshot)).

Definition TimerNotReady (snapshot : Snapshot) (now : time) : option cerror :=
  if TimerDue snapshot now then None else Some (TimerNotReadyError (s_readyAt snapshot)).

Record Transition := mkTransition {
  t_status : Status;
  t_fence : Z;
  t_frames : list Frame;
  t_readyAt : time;
  t_timer : bool;
  t_workflow : option workflowSnapshotState;
  t_commandID : string;
  t_command : commandKind
}.

Definition Move (status : Status) (fence : Z) (frames : list Frame) : Transition :=
  mkTransition status fence frames 0 false None "" commandNone.

Definition Continue (frames : list Frame) : Transition := Move StatusRunning 0 frames.

Definition Signal (commandID : string) (frames : list Frame) : Transition :=
  mkTransition StatusAccepted 0 frames 0 false None commandID commandSignal.

Definition Cancel (commandID : string) (frames : list Frame) : Transition :=
  mkTransition StatusCancelRequested 0 frames 0 false None commandID commandCancel.

Definition SleepUntil (readyAt : time) (frames : list Frame) : Transition :=
  mkTransition StatusSuspended 0 frames (normalizeReadyAt readyAt) true None "" commandNone.

(** [moveWorkflow] of workflow.go. *)
Definition moveWorkflow (status : Status) (fence : Z) (state : workflowSnapshotState)
    (readyAt : time) (frames : list Frame) : Transition :=
  let timed := (status == StatusSuspended) && negb (IsZero readyAt) in
  mkTransition status fence frames (if timed then normalizeReadyAt readyAt else 0) timed
    (Some state) "" commandNone.

(** ** Lemmas on timers and workflow states *)
Lemma normalizeReadyAt_idem v : normalizeReadyAt (normalizeReadyAt v) = normalizeReadyAt v.
Proof.
  unfold normalizeReadyAt, IsZero, microsecond.
  destruct (Z.eqb_spec v 0) as [->|Hv]; [done|].
  destruct (Z.eqb_spec (v / 1000 * 1000) v) as [E|E].
  - rewrite (proj2 (Z.eqb_neq v 0) Hv). by rewrite (proj2 (Z.eqb_eq _ _) E).
  - replace (v / 1000 * 1000 + 1000) with ((v / 1000 + 1) * 1000) by lia.
    rewrite Z.div_mul by lia. rewrite Z.eqb_refl. by case_match; bool_hyps.
Qed.

Lemma validateWorkflowState_cases st :
  validateWorkflowState st = None ∨ validateWorkflowState st = Some ErrInvalidWorkflow.
Proof. unfold validateWorkflowState. repeat case_match; auto. Qed.

Lemma validateWorkflowSuccessor_None cur next :
  validateWorkflowSuccessor cur next = None →
  ∃ c, cur = Some c ∧ validateWorkflowState (Some c) = None ∧
    validateWorkflowState (Some next) = None ∧ w_Version c = w_Version next ∧
    w_Fingerprint c = w_Fingerprint next ∧ w_StartedAt c = w_StartedAt next ∧
    size (w_Nodes c) = size (w_Nodes next) ∧
    ∀ id p, w_Nodes c !! id = Some p → invalid_successor_node (w_Nodes next) id p = false.
Proof.
  unfold validateWorkflowSuccessor. destruct cur as [c|]; [|done].
  destruct (_ || _) eqn:Hc; [done|]. case_match eqn:Hm; [|done]. intros _.
  bool_hyps. exists c. repeat (split; try done).
  - unfold map_len in *. lia.
  - intros id p Hp. rewrite map_forallb_spec in Hm. apply Hm in Hp. by bool_hyps.
Qed.
