(* ===== verification/ContState.v ===== *)
(** * programmable/continuation: the state machine

    Models [state.go] ([Apply], [allowedTransition], [validateSnapshot], [commandDigest]) and
    [retention.go] ([PruneSnapshot]).  The theorems: [Apply] keeps every snapshot valid,
    appends to the frame log and never rewrites it, moves the revision by one and the fence
    up, never leaves a terminal state, and makes commands idempotent over whole histories. *)
From S2P Require Import Prelude GoText Sha256 ContModel.
Open Scope Z_scope.

(** ** Command digests *)
Definition digest_part (value : list Z) : list Z := be_bytes 8 (zlen value) ++ value.

Definition commandDigest (transition : Transition) : string :=
  sha256 (digest_part (bytes_of "continuation-command-v1") ++
    flat_map (λ frame, digest_part (bytes_of (FrameKind_string (f_kind frame))) ++
                       digest_part (bytes_of (f_payload frame)))
             (t_frames transition)).

Definition transition_record (transition : Transition) : commandRecord :=
  mkCommandRecord (t_command transition) (commandDigest transition).

(** ** The transition table *)
Definition allowedTransition (from to : Status) (command : commandKind) : bool :=
  match command with
  | commandSignal => (from == StatusWaiting) && (to == StatusAccepted)
  | commandCancel =>
      match from with
      | StatusAccepted | StatusRunning | StatusWaiting | StatusSuspended =>
          to == StatusCancelRequested
      | _ => false
      end
  | commandOther _ => false
  | commandNone =>
      match from with
      | StatusAccepted =>
          (to == StatusRunning) || (to == StatusFailed) || (to == StatusExpired)
      | StatusRunning =>
          (to == StatusRunning) || (to == StatusWaiting) || (to == StatusSuspended) ||
          (to == StatusCompleted) || (to == StatusFailed) || (to == StatusExpired)
      | StatusWaiting => (to == StatusFailed) || (to == StatusExpired)
      | StatusSuspended =>
          (to == StatusAccepted) || (to == StatusRunning) || (to == StatusFailed) ||
          (to == StatusExpired)
      | StatusCancelRequested =>
          (to == StatusCancelRequested) || (to == StatusCanceled) || (to == StatusFailed) ||
          (to == StatusExpired)
      | _ => false
      end
  end.

(** ** Snapshot validation *)
Fixpoint frames_ok (floor : Z) (index : Z) (frames : list Frame) : bool :=
  match frames with
  | [] => true
  | frame :: frames =>
      negb (negb (f_sequence frame =? u64_add floor index) ||
            negb (FrameKind_valid (f_kind frame)) ||
            ((f_kind frame == FrameAccepted) && negb (f_sequence frame =? 1)) ||
            (maxPayloadBytes <? slen (f_payload frame))) &&
      frames_ok floor (index + 1) frames
  end.

Definition command_ok (id : string) (record : commandRecord) : bool :=
  negb (negb (validIdentity id) ||
        ((cr_kind record != commandSignal) && (cr_kind record != commandCancel))).

Definition initial_shape (s : Snapshot) : bool :=
  let initialWithoutInput := (s_sequence s =? 0) && (zlen (s_frames s) =? 0) in
  let initialWithInput :=
    (s_sequence s =? 1) &&
    match s_frames s with
    | [f] => (f_sequence f =? 1) && (f_kind f == FrameAccepted)
    | _ => false
    end in
  negb ((s_status s != StatusAccepted) || negb (s_fence s =? 0) ||
        negb (s_frameFloor s =? 1) || negb (map_len (s_commands s) =? 0) ||
        (negb initialWithoutInput && negb initialWithInput)).

Definition validateSnapshot (s : Snapshot) : option cerror :=
  let bad kind := Some (stateError kind (s_status s) (s_status s)) in
  if negb (validIdentity (s_callID s)) || negb (validOperation (s_operation s)) ||
     negb (Status_valid (s_status s))
  then bad ErrInvalidIdentity
  else if validateWorkflowState (s_workflow s) != None then bad ErrInvalidWorkflow
  else if negb (IsZero (s_readyAt s)) &&
          ((s_status s != StatusSuspended) ||
           negb (s_readyAt s =? normalizeReadyAt (s_readyAt s)))
  then bad ErrInvalidTimer
  else if (s_revision s =? 0) || (s_frameFloor s =? 0) ||
          ((s_sequence s <? s_frameFloor s) &&
             negb (s_frameFloor s =? u64_add (s_sequence s) 1)) ||
          negb (u64_add (u64_sub (s_sequence s) (s_frameFloor s)) 1 =? zlen (s_frames s))
  then bad ErrRevision
  else if (s_revision s =? 1) && negb (initial_shape s) then bad ErrRevision
  else if negb (frames_ok (s_frameFloor s) 0 (s_frames s)) then bad ErrSequence
  else if negb (map_forallb command_ok (s_commands s)) then bad ErrInvalidIdentity
  else None.

(** ** Apply *)

(** The loop that sequences and appends the transition's frames. *)
Fixpoint append_frames (fail : cerror → cerror) (sequence : Z) (log : list Frame)
    (frames : list Frame) : result cerror (Z * list Frame) :=
  match frames with
  | [] => Ok (sequence, log)
  | frame :: frames =>
      if negb (f_sequence frame =? 0) then Err (fail ErrSequence)
      else if negb (FrameKind_valid (f_kind frame)) || (f_kind frame == FrameAccepted) ||
              (maxPayloadBytes <? slen (f_payload frame))
      then Err (fail ErrInvalidFrame)
      else if sequence =? max_u64 then Err (fail ErrSequence)
      else
        let sequence := u64_add sequence 1 in
        append_frames fail sequence
          (log ++ [mkFrame sequence (f_kind frame) (f_payload frame)]) frames
  end.

(** The part of [Apply] after the command check. *)
Definition apply_fresh (current : Snapshot) (t : Transition) : result cerror Snapshot :=
  let fail kind := stateError kind (s_status current) (t_status t) in
  if Status_Terminal (s_status current) then Err (fail ErrTerminal)
  else if negb (allowedTransition (s_status current) (t_status t) (t_command t))
  then Err (fail ErrTransition)
  else if s_revision current =? max_u64 then Err (fail ErrRevision)
  else
    let fence := if t_fence t =? 0 then s_fence current else t_fence t in
    if (fence <? s_fence current) || ((t_status t == StatusRunning) && (fence =? 0))
    then Err (fail ErrFence)
    else
      log ← append_frames fail (s_sequence current) (s_frames current) (t_frames t);
      Ok (mkSnapshot (s_callID current) (s_operation current) (t_status t)
            (if t_status t == StatusSuspended then normalizeReadyAt (t_readyAt t) else 0)
            (u64_add (s_revision current) 1) fence (fst log) (s_frameFloor current) (snd log)
            (match t_command t with
             | commandNone => s_commands current
             | _ => <[t_commandID t := transition_record t]> (s_commands current)
             end)
            (match t_workflow t with
             | Some w => Some w
             | None => s_workflow current
             end)).

Definition Apply (current : Snapshot) (t : Transition) : result cerror Snapshot :=
  let fail kind := stateError kind (s_status current) (t_status t) in
  match validateSnapshot current with
  | Some e => Err e
  | None =>
      if negb (Status_valid (t_status t)) then Err (fail ErrTransition)
      else if (t_timer t && IsZero (t_readyAt t)) ||
              (negb (IsZero (t_readyAt t)) && (t_status t != StatusSuspended))
      then Err (fail ErrInvalidTimer)
      else if match t_workflow t with
              | Some w => validateWorkflowSuccessor (s_workflow current) w != None
              | None => false
              end
      then Err (fail ErrInvalidWorkflow)
      else match t_command t with
      | commandNone => apply_fresh current t
      | _ =>
          if negb (validIdentity (t_commandID t)) then Err (fail ErrInvalidIdentity)
          else match s_commands current !! t_commandID t with
          | Some previous =>
              if previous != transition_record t then Err (fail ErrCommandConflict)
              else Ok current
          | None => apply_fresh current t
          end
      end
  end.

(** ** Retention *)
Definition PruneSnapshot (s : Snapshot) (floor : Z) : result cerror Snapshot :=
  if validateSnapshot s != None then Err ErrInvalidRetention
  else if (floor =? 0) ||
          ((s_sequence s =? max_u64) && (s_sequence s <? floor)) ||
          ((s_sequence s <? max_u64) && (u64_add (s_sequence s) 1 <? floor))
  then Err ErrInvalidRetention
  else if floor <=? s_frameFloor s then Ok s
  else
    let offset := u64_sub floor (s_frameFloor s) in
    if zlen (s_frames s) <? offset then Err ErrInvalidRetention
    else
      let pruned :=
        mkSnapshot (s_callID s) (s_operation s) (s_status s) (s_readyAt s) (s_revision s)
          (s_fence s) (s_sequence s) floor (drop (Z.to_nat offset) (s_frames s))
          (s_commands s) (s_workflow s) in
      if validateSnapshot pruned != None then Err ErrInvalidRetention else Ok pruned.

(** ** The validity invariant as a proposition *)

(** Go's types: the counters are [uint64]. *)
Definition snapshot_u64 (s : Snapshot) : Prop :=
  is_u64 (s_revision s) ∧ is_u64 (s_fence s) ∧ is_u64 (s_sequence s) ∧ is_u64 (s_frameFloor s).

Definition frame_ok (sequence : Z) (f : Frame) : Prop :=
  f_sequence f = sequence ∧ FrameKind_valid (f_kind f) = true ∧
  (f_kind f = FrameAccepted → sequence = 1) ∧ slen (f_payload f) ≤ maxPayloadBytes.

Definition timer_ok (s : Snapshot) : Prop :=
  s_readyAt s = 0 ∨ (s_status s = StatusSuspended ∧ normalizeReadyAt (s_readyAt s) = s_readyAt s).

Record snapshot_ok (s : Snapshot) : Prop := mk_snapshot_ok {
  ok_callID : validIdentity (s_callID s) = true;
  ok_operation : validOperation (s_operation s) = true;
  ok_status : Status_valid (s_status s) = true;
  ok_workflow : validateWorkflowState (s_workflow s) = None;
  ok_timer : timer_ok s;
  ok_revision : 1 ≤ s_revision s;
  ok_floor : 1 ≤ s_frameFloor s ≤ s_sequence s + 1;
  ok_count : zlen (s_frames s) = s_sequence s - s_frameFloor s + 1;
  ok_initial : s_revision s = 1 → initial_shape s = true;
  ok_frames : ∀ i f, s_frames s !! i = Some f → frame_ok (s_frameFloor s + Z.of_nat i) f;
  ok_commands : ∀ id r, s_commands s !! id = Some r → command_ok id r = true
}.

Lemma frames_ok_spec floor index frames :
  0 ≤ floor → 0 ≤ index → floor + index + zlen frames ≤ max_u64 + 1 →
  frames_ok floor index frames = true ↔
  ∀ i f, frames !! i = Some f → frame_ok (floor + index + Z.of_nat i) f.
Proof.
  intros Hf. revert index. induction frames as [|fr frames IH]; intros index Hi Hmax.
  { split; [|done]. intros _ i f H. done. }
  rewrite zlen_cons in Hmax. pose proof (zlen_nonneg frames).
  cbn [frames_ok]. rewrite andb_true_iff, IH by lia.
  rewrite u64_add_small by (unfold max_u64 in *; lia).
  assert (Hhd : negb (negb (f_sequence fr =? floor + index) ||
            negb (FrameKind_valid (f_kind fr)) ||
            ((f_kind fr == FrameAccepted) && negb (f_sequence fr =? 1)) ||
            (maxPayloadBytes <? slen (f_payload fr))) = true ↔ frame_ok (floor + index) fr).
  { unfold frame_ok. rewrite negb_true_iff, !orb_false_iff, !negb_false_iff, andb_false_iff,
      negb_false_iff, bool_decide_eq_false, !Z.eqb_eq, Z.ltb_ge.
    destruct (decide (f_kind fr = FrameAccepted)); intuition congruence. }
  rewrite Hhd. split.
  - intros [H0 H1] [|i] f; cbn; intros Hl; simplify_eq.
    + replace (floor + index + Z.of_nat 0) with (floor + index) by lia. done.
    + replace (floor + index + Z.of_nat (S i)) with (floor + (index + 1) + Z.of_nat i) by lia. eauto.
  - intros H1. split.
    + specialize (H1 0%nat fr eq_refl). by replace (floor + index + Z.of_nat 0) with (floor + index) in H1 by lia.
    + intros i f Hl. specialize (H1 (S i) f Hl).
      by replace (floor + index + Z.of_nat (S i)) with (floor + (index + 1) + Z.of_nat i) in H1 by lia.
Qed.

(** The unsigned tests on sequence, floor and frame count are the intended window equation. *)
Lemma window_spec s :
  snapshot_u64 s →
  (s_revision s =? 0) || (s_frameFloor s =? 0) ||
  ((s_sequence s <? s_frameFloor s) && negb (s_frameFloor s =? u64_add (s_sequence s) 1)) ||
  negb (u64_add (u64_sub (s_sequence s) (s_frameFloor s)) 1 =? zlen (s_frames s)) = false ↔
  1 ≤ s_revision s ∧ 1 ≤ s_frameFloor s ≤ s_sequence s + 1 ∧
  zlen (s_frames s) = s_sequence s - s_frameFloor s + 1.
Proof.
  intros (Hr & Hf & Hs & Hl). unfold is_u64 in *.
  rewrite !orb_false_iff, andb_false_iff, !negb_false_iff, !Z.eqb_neq, !Z.eqb_eq, Z.ltb_ge.
  destruct (decide (s_frameFloor s ≤ s_sequence s)) as [Hle|Hgt].
  - rewrite u64_sub_small by lia.
    destruct (decide (s_frameFloor s = 0)) as [->|Hne]; [naive_solver lia|].
    rewrite (u64_add_small (s_sequence s - s_frameFloor s)) by lia. naive_solver lia.
  - destruct (decide (s_sequence s = max_u64)) as [Heq|Hne]; [exfalso; lia|].
    rewrite (u64_add_small (s_sequence s)) by lia.
    destruct (decide (s_frameFloor s = s_sequence s + 1)) as [->|]; [|naive_solver lia].
    replace (u64_add (u64_sub (s_sequence s) (s_sequence s + 1)) 1) with 0.
    + naive_solver lia.
    + unfold u64_sub. by replace (s_sequence s - (s_sequence s + 1)) with (-1) by lia.
Qed.

Lemma timer_spec s :
  negb (IsZero (s_readyAt s)) &&
    ((s_status s != StatusSuspended) || negb (s_readyAt s =? normalizeReadyAt (s_readyAt s)))
  = false ↔ timer_ok s.
Proof.
  unfold timer_ok, IsZero. rewrite andb_false_iff, orb_false_iff, !negb_false_iff, !Z.eqb_eq,
    bool_decide_eq_true. intuition congruence.
Qed.

(** [validateSnapshot] accepts exactly the snapshots satisfying the invariant. *)
Lemma validateSnapshot_spec s : snapshot_u64 s → validateSnapshot s = None ↔ snapshot_ok s.
Proof.
  intros Hu. unfold validateSnapshot.
  destruct (_ || negb (Status_valid (s_status s))) eqn:E1.
  { split; [done|]. intros [H1 H2 H3 _ _ _ _ _ _ _ _]. by rewrite H1, H2, H3 in E1. }
  destruct (validateWorkflowState _ != None) eqn:E2.
  { split; [done|]. intros H. bool_hyps. by destruct E2; apply ok_workflow. }
  destruct (negb (IsZero _) && _) eqn:E3.
  { split; [done|]. intros H. rewrite (proj2 (timer_spec s)) in E3; [done|by apply ok_timer]. }
  apply timer_spec in E3.
  match goal with |- context [if ?b then _ else _] => destruct b eqn:E4 end.
  { split; [done|]. intros H. rewrite (proj2 (window_spec s Hu)) in E4; [done|].
    destruct H; auto. }
  apply (window_spec s Hu) in E4 as (Hrev & Hfl & Hcnt).
  destruct Hu as (_ & _ & Hs & _). unfold is_u64 in Hs.
  destruct ((s_revision s =? 1) && _) eqn:E5.
  { split; [done|]. intros H. bool_hyps. by rewrite (ok_initial _ H) in *. }
  pose proof (frames_ok_spec (s_frameFloor s) 0 (s_frames s)) as Hfs.
  rewrite Z.add_0_r in Hfs. rewrite negb_if.
  destruct (frames_ok _ _ _) eqn:E6; cbn.
  2:{ split; [done|]. intros H. exfalso.
      enough (false = true) by done. apply Hfs; [lia..|]. apply (ok_frames _ H). }
  destruct (map_forallb _ _) eqn:E7; cbn.
  2:{ split; [done|]. intros H. exfalso. enough (false = true) by done.
      rewrite <- E7. apply map_forallb_spec. apply (ok_commands _ H). }
  split; [intros _|done]. bool_hyps. constructor; try done.
  - intros Hone. rewrite Hone in E5. cbn in E5. by bool_hyps.
  - apply Hfs; lia || done.
  - by apply map_forallb_spec.
Qed.

(** ** What a successful [Apply] does *)

(** The frames a transition appends, numbered after [sequence]. *)
Fixpoint number_frames (sequence : Z) (frames : list Frame) : list Frame :=
  match frames with
  | [] => []
  | f :: frames =>
      mkFrame (sequence + 1) (f_kind f) (f_payload f) :: number_frames (sequence + 1) frames
  end.

Definition frame_accepted (f : Frame) : bool :=
  (f_sequence f =? 0) && FrameKind_valid (f_kind f) && (f_kind f != FrameAccepted) &&
  (slen (f_payload f) <=? maxPayloadBytes).

Lemma number_frames_length sequence frames :
  length (number_frames sequence frames) = length frames.
Proof. revert sequence. induction frames; intros; cbn; auto. Qed.

Lemma number_frames_ok sequence frames i f :
  0 ≤ sequence → forallb frame_accepted frames = true →
  number_frames sequence frames !! i = Some f → frame_ok (sequence + 1 + Z.of_nat i) f.
Proof.
  revert sequence i. induction frames as [|g frames IH]; intros sequence i Hs Hall; [done|].
  cbn in Hall. apply andb_true_iff in Hall as [Hg Hall].
  destruct i as [|i]; cbn; intros Hl.
  - simplify_eq. unfold frame_accepted in Hg. bool_hyps. unfold frame_ok; cbn.
    repeat split; done || lia.
  - apply IH in Hl; [|lia|done]. by replace (sequence + 1 + Z.of_nat (S i))
      with (sequence + 1 + 1 + Z.of_nat i) by lia.
Qed.

(** The loop succeeds exactly on acceptable frames with room in the sequence. *)
Lemma append_frames_spec fail sequence log frames sq log' :
  is_u64 sequence →
  append_frames fail sequence log frames = Ok (sq, log') ↔
  forallb frame_accepted frames = true ∧ sequence + zlen frames ≤ max_u64 ∧
  sq = sequence + zlen frames ∧ log' = log ++ number_frames sequence frames.
Proof.
  revert sequence log. induction frames as [|f frames IH]; intros sequence log Hs; cbn.
  { rewrite app_nil_r. unfold zlen; cbn. unfold is_u64 in Hs. split.
    - intros; simplify_eq. repeat split; lia.
    - intros (_ & _ & -> & ->). do 2 f_equal. lia. }
  pose proof (zlen_nonneg frames). rewrite zlen_cons. unfold is_u64 in *. unfold frame_accepted at 1.
  destruct (Z.eqb_spec (f_sequence f) 0); cbn; [|naive_solver].
  destruct (FrameKind_valid (f_kind f)); cbn; [|naive_solver].
  destruct (f_kind f == FrameAccepted) eqn:?; cbn; [naive_solver|].
  destruct (Z.leb_spec (slen (f_payload f)) maxPayloadBytes) as [Hp|Hp]; cbn.
  2:{ rewrite (proj2 (Z.ltb_lt _ _) Hp). naive_solver. }
  rewrite (proj2 (Z.ltb_ge _ _) Hp).
  destruct (Z.eqb_spec sequence max_u64) as [->|Hne]; cbn; [naive_solver lia|].
  rewrite u64_add_small by lia. rewrite IH by lia. rewrite <- app_assoc. cbn.
  replace (sequence + 1 + zlen frames) with (sequence + (1 + zlen frames)) by lia. done.
Qed.

(** The state change of a successful, non-duplicate transition. *)
Record fresh_step (c : Snapshot) (t : Transition) (n : Snapshot) : Prop := mk_fresh_step {
  fs_live : Status_Terminal (s_status c) = false;
  fs_allowed : allowedTransition (s_status c) (t_status t) (t_command t) = true;
  fs_room : s_revision c ≠ max_u64;
  fs_fence_up : s_fence c ≤ s_fence n;
  fs_owned : t_status t = StatusRunning → s_fence n ≠ 0;
  fs_frames_ok : forallb frame_accepted (t_frames t) = true;
  fs_seq_room : s_sequence c + zlen (t_frames t) ≤ max_u64;
  fs_result : n =
    mkSnapshot (s_callID c) (s_operation c) (t_status t)
      (if t_status t == StatusSuspended then normalizeReadyAt (t_readyAt t) else 0)
      (s_revision c + 1) (if t_fence t =? 0 then s_fence c else t_fence t)
      (s_sequence c + zlen (t_frames t)) (s_frameFloor c)
      (s_frames c ++ number_frames (s_sequence c) (t_frames t))
      (match t_command t with
       | commandNone => s_commands c
       | _ => <[t_commandID t := transition_record t]> (s_commands c)
       end)
      (match t_workflow t with Some w => Some w | None => s_workflow c end)
}.

Lemma apply_fresh_spec c t n :
  snapshot_u64 c → apply_fresh c t = Ok n ↔ fresh_step c t n.
Proof.
  intros (Hr & _ & Hs & _). unfold is_u64 in *. unfold apply_fresh.
  destruct (Status_Terminal _) eqn:E1. { split; [done|]. intros []; congruence. }
  destruct (allowedTransition _ _ _) eqn:E2; cbn. 2:{ split; [done|]. intros []; congruence. }
  destruct (Z.eqb_spec (s_revision c) max_u64) as [E3|E3]. { split; [done|]. intros []; congruence. }
  set (fence := if t_fence t =? 0 then s_fence c else t_fence t).
  destruct ((fence <? s_fence c) || _) eqn:E4.
  { split; [done|]. intros [_ _ _ Hup Hown _ _ ->]. cbn in Hup, Hown.
    exfalso. apply orb_true_iff in E4 as [E4|E4]; bool_hyps; [lia|]. by apply Hown. }
  bool_hyps. rewrite bind_Ok. rewrite u64_add_small by lia. split.
  - intros ([sq log] & (Hok & Hroom & -> & ->)%append_frames_spec & Hn); [|done].
    cbn in Hn. simplify_eq. constructor; try done; cbn.
    intros Hrun Hz. match goal with
    | H : (t_status t == _) && _ = false |- _ => rewrite bool_decide_true in H by done
    end. cbn in *. by bool_hyps.
  - intros [_ _ _ _ _ Hok Hroom ->].
    eexists (_, _). split; [by apply append_frames_spec|done].
Qed.

Lemma Apply_validates c t n : Apply c t = Ok n → validateSnapshot c = None.
Proof. unfold Apply. by destruct (validateSnapshot c). Qed.

(** Every successful [Apply] is a fresh step or the replay of a recorded command. *)
Lemma Apply_cases c t n :
  snapshot_u64 c → Apply c t = Ok n →
  (fresh_step c t n ∧ Status_valid (t_status t) = true ∧
   (t_command t ≠ commandNone → validIdentity (t_commandID t) = true ∧
      s_commands c !! t_commandID t = None) ∧
   (∀ w, t_workflow t = Some w → validateWorkflowSuccessor (s_workflow c) w = None)) ∨
  (n = c ∧ t_command t ≠ commandNone ∧
   s_commands c !! t_commandID t = Some (transition_record t)).
Proof.
  intros Hu. unfold Apply. destruct (validateSnapshot c); [done|].
  destruct (Status_valid (t_status t)) eqn:E1; cbn; [|done].
  destruct (t_timer t && _ || _); [done|].
  destruct (match t_workflow t with Some w => _ | None => false end) eqn:E3; [done|].
  assert (Hw : ∀ w, t_workflow t = Some w → validateWorkflowSuccessor (s_workflow c) w = None).
  { intros w Hw. rewrite Hw in E3. by bool_hyps. }
  clear E3. destruct (t_command t) eqn:Hc.
  { intros Hf%apply_fresh_spec; [|done]. left. done. }
  all: destruct (validIdentity (t_commandID t)) eqn:Hid; cbn; [|done].
  all: destruct (s_commands c !! t_commandID t) as [r|] eqn:Hr;
    [case_match; [done|]; bool_hyps; intros; simplify_eq; right; naive_solver|].
  all: intros Hf%apply_fresh_spec; [|done]; left; done.
Qed.

(** ** Validity is an invariant of [Apply] *)
Lemma fresh_step_u64 c t n :
  snapshot_u64 c → is_u64 (t_fence t) → 0 ≤ s_sequence c → fresh_step c t n → snapshot_u64 n.
Proof.
  intros (Hr & Hf & Hs & Hl) Ht H0 Hstep. pose proof Hstep as [_ _ Hroom _ _ _ Hseq Hn].
  pose proof (zlen_nonneg (t_frames t)). subst n. clear Hstep. unfold snapshot_u64, is_u64 in *; cbn.
  repeat split; try lia; case_match; lia.
Qed.

Lemma fresh_step_commands c t n :
  fresh_step c t n → snapshot_ok c →
  (t_command t ≠ commandNone → validIdentity (t_commandID t) = true) →
  ∀ id r, s_commands n !! id = Some r → command_ok id r = true.
Proof.
  intros [_ Hal _ _ _ _ _ ->] Hok Hid id r. cbn.
  destruct (t_command t) eqn:Hc; [apply (ok_commands _ Hok)| | |by cbn in Hal].
  all: rewrite lookup_insert; case_decide as Heq; [|apply (ok_commands _ Hok)].
  all: subst id; intros [= <-]; unfold command_ok, transition_record; cbn; rewrite Hc, Hid by done; done.
Qed.

Lemma fresh_step_ok c t n :
  snapshot_u64 c → snapshot_ok c → Status_valid (t_status t) = true →
  (t_command t ≠ commandNone → validIdentity (t_commandID t) = true) →
  (∀ w, t_workflow t = Some w → validateWorkflowSuccessor (s_workflow c) w = None) →
  fresh_step c t n → snapshot_ok n.
Proof.
  intros Hu Hok Hst Hid Hw Hstep. pose proof (fresh_step_commands _ _ _ Hstep Hok Hid) as Hcmd.
  pose proof Hstep as [_ _ _ _ _ Hfr _ Hn]. rewrite Hn in Hcmd |- *. clear Hn.
  pose proof Hok as [? ? ? Hwf _ Hrev Hfl Hcnt _ Hfs _].
  pose proof (zlen_nonneg (t_frames t)). pose proof (zlen_nonneg (s_frames c)).
  destruct Hu as (_ & _ & Hs & _). unfold is_u64 in Hs.
  constructor; cbn in *; try done; try lia.
  - destruct (t_workflow t) as [w|]; [|done].
    by destruct (validateWorkflowSuccessor_None _ _ (Hw w eq_refl)) as (? & _ & _ & ? & _).
  - unfold timer_ok; cbn. destruct (t_status t == StatusSuspended) eqn:Hsus; bool_hyps; [|by left].
    right. split; [done|]. apply normalizeReadyAt_idem.
  - rewrite zlen_app. unfold zlen at 2. rewrite number_frames_length. fold (zlen (t_frames t)). lia.
  - intros i f [Hl|[Hge Hl]]%lookup_app_Some; [by apply Hfs|].
    apply number_frames_ok in Hl; [|lia|done].
    replace (s_frameFloor c + Z.of_nat i)
      with (s_sequence c + 1 + Z.of_nat (i - length (s_frames c))); [done|].
    unfold zlen in Hcnt. lia.
Qed.

(** One accepted transition keeps the counters in range and the snapshot valid. *)
Lemma Apply_valid c t n :
  snapshot_u64 c → is_u64 (t_fence t) → Apply c t = Ok n → snapshot_u64 n ∧ snapshot_ok n.
Proof.
  intros Hu Ht HA. pose proof (proj1 (validateSnapshot_spec c Hu) (Apply_validates _ _ _ HA)) as Hok.
  apply Apply_cases in HA as [(Hstep & Hst & Hid & Hw)|[-> _]]; [| |done]; [|done].
  split.
  - eapply fresh_step_u64; eauto. destruct Hu as (_ & _ & Hs & _). unfold is_u64 in Hs. lia.
  - eapply fresh_step_ok; eauto. intros Hc. by destruct (Hid Hc).
Qed.

(** ** Histories

    A history is a sequence of accepted transitions; [apply_step] leaves the transition
    free, up to its Go type. *)
Definition apply_step (s s' : Snapshot) : Prop :=
  ∃ t, is_u64 (t_fence t) ∧ Apply s t = Ok s'.

Lemma apply_step_valid s s' :
  snapshot_u64 s → apply_step s s' → snapshot_u64 s' ∧ snapshot_ok s'.
Proof. intros Hu (t & Ht & HA). by eapply Apply_valid. Qed.

Lemma history_u64 s s' : snapshot_u64 s → rtc apply_step s s' → snapshot_u64 s'.
Proof.
  intros Hu H. induction H as [|s s1 s2 Hs _ IH]; [done|].
  apply IH. by eapply apply_step_valid.
Qed.

Lemma history_valid s s' :
  snapshot_u64 s → snapshot_ok s → rtc apply_step s s' → snapshot_ok s'.
Proof.
  intros Hu Hok H. induction H as [|s s1 s2 Hs _ IH]; [done|].
  destruct (apply_step_valid _ _ Hu Hs). by apply IH.
Qed.

(** A property of snapshots kept by every fresh step is kept by every history. *)
Lemma history_invariant (P : Snapshot → Prop) s s' :
  (∀ c t n, snapshot_u64 c → snapshot_ok c → P c → fresh_step c t n → P n) →
  snapshot_u64 s → P s → rtc apply_step s s' → P s'.
Proof.
  intros Hstep Hu HP H. induction H as [|s s1 s2 (t & Ht & HA) _ IH]; [done|].
  destruct (Apply_valid _ _ _ Hu Ht HA) as [Hu1 _].
  apply IH; [done|]. pose proof (Apply_validates _ _ _ HA) as Hv.
  apply validateSnapshot_spec in Hv; [|done].
  apply Apply_cases in HA as [(Hf & _)|[-> _]]; [eauto|done|done].
Qed.

(** The log and the counters of a fresh step. *)
Lemma fresh_step_log c t n :
  fresh_step c t n →
  s_callID n = s_callID c ∧ s_operation n = s_operation c ∧ s_frameFloor n = s_frameFloor c ∧
  s_revision n = s_revision c + 1 ∧ s_fence c ≤ s_fence n ∧
  s_frames n = s_frames c ++ number_frames (s_sequence c) (t_frames t) ∧
  s_sequence n = s_sequence c + zlen (t_frames t).
Proof. intros H. pose proof (fs_fence_up _ _ _ H). destruct H as [_ _ _ _ _ _ _ ->]. done. Qed.

(** ** Command bookkeeping *)
Definition external_command (t : Transition) : Prop :=
  ∃ id frames, t = Signal id frames ∨ t = Cancel id frames.

Lemma external_command_some t : external_command t → t_command t ≠ commandNone.
Proof. by intros (? & ? & [-> | ->]). Qed.

Lemma fresh_step_commands_grow c t n id r :
  (t_command t ≠ commandNone → s_commands c !! t_commandID t = None) →
  fresh_step c t n → s_commands c !! id = Some r → s_commands n !! id = Some r.
Proof.
  intros Hnew [_ _ _ _ _ _ _ ->] Hid. cbn.
  destruct (t_command t); [done|..]; rewrite lookup_insert_ne; try done;
    intros <-; by rewrite Hnew in Hid.
Qed.

Lemma history_commands_grow s s' id r :
  snapshot_u64 s → rtc apply_step s s' → s_commands s !! id = Some r → s_commands s' !! id = Some r.
Proof.
  intros Hu H. induction H as [|s s1 s2 (t & Ht & HA) _ IH]; [done|]. intros Hid.
  destruct (Apply_valid _ _ _ Hu Ht HA) as [Hu1 _]. apply IH; [done|].
  apply Apply_cases in HA as [(Hf & _ & Hc & _)|[-> _]]; [|done..].
  eapply fresh_step_commands_grow; eauto. naive_solver.
Qed.

(** A recorded command is answered with the unchanged snapshot. *)
Lemma Apply_replay s t :
  snapshot_u64 s → snapshot_ok s → external_command t → validIdentity (t_commandID t) = true →
  s_commands s !! t_commandID t = Some (transition_record t) → Apply s t = Ok s.
Proof.
  intros Hu Hok Hext Hid Hrec. apply validateSnapshot_spec in Hok; [|done]. unfold Apply. rewrite Hok.
  destruct Hext as (id & frames & [-> | ->]); cbn in *; rewrite Hid, Hrec; cbn;
    rewrite bool_decide_true by done; done.
Qed.

Lemma Apply_records s t n :
  snapshot_u64 s → Apply s t = Ok n → t_command t ≠ commandNone →
  validIdentity (t_commandID t) = true ∧ s_commands n !! t_commandID t = Some (transition_record t).
Proof.
  intros Hu HA Hc. pose proof (Apply_validates _ _ _ HA) as Hv.
  apply validateSnapshot_spec in Hv; [|done].
  apply Apply_cases in HA as [(Hf & _ & Hid & _)|(-> & _ & Hr)]; [| |done].
  - split; [naive_solver|]. destruct Hf as [_ _ _ _ _ _ _ ->]. cbn.
    destruct (t_command t); [done|..]; apply lookup_insert_eq.
  - split; [|done]. pose proof (ok_commands _ Hv _ _ Hr) as Hok.
    unfold command_ok in Hok. by bool_hyps.
Qed.

(** * Properties of the state machine *)

(** C32: every transition [Apply] accepts leads from a snapshot that [validateSnapshot] accepts
    to a snapshot that [validateSnapshot] accepts, with all [uint64] counters in range: frame
    numbering, the retained window, command records, timers and workflow state stay
    consistent, and no counter wraps. *)
Theorem apply_preserves_validity c t n :
  snapshot_u64 c → is_u64 (t_fence t) → Apply c t = Ok n →
  validateSnapshot c = None ∧ validateSnapshot n = None ∧ snapshot_u64 n.
Proof.
  intros Hu Ht HA. destruct (Apply_valid _ _ _ Hu Ht HA) as [Hun Hok].
  split; [by eapply Apply_validates|]. split; [by apply validateSnapshot_spec|done].
Qed.

(** along any history the frame log is append-only with consecutive sequence numbers,
    identities and the retained floor never change, and revision and fence never go down. *)
Theorem history_append_only s s' :
  snapshot_u64 s → rtc apply_step s s' →
  s_callID s' = s_callID s ∧ s_operation s' = s_operation s ∧
  s_frameFloor s' = s_frameFloor s ∧
  s_revision s ≤ s_revision s' ∧ s_fence s ≤ s_fence s' ∧
  ∃ new, s_frames s' = s_frames s ++ new ∧ s_sequence s' = s_sequence s + zlen new.
Proof.
  intros Hu H. apply (history_invariant (λ x,
    s_callID x = s_callID s ∧ s_operation x = s_operation s ∧ s_frameFloor x = s_frameFloor s ∧
    s_revision s ≤ s_revision x ∧ s_fence s ≤ s_fence x ∧
    ∃ new, s_frames x = s_frames s ++ new ∧ s_sequence x = s_sequence s + zlen new) s); [|done| |done].
  - intros c t n _ _ (E1 & E2 & E3 & Hr & Hf & new & E4 & E5) Hstep.
    destruct (fresh_step_log _ _ _ Hstep) as (-> & -> & -> & -> & Hup & -> & ->).
    repeat (split; [done || lia|]).
    exists (new ++ number_frames (s_sequence c) (t_frames t)). rewrite E4, app_assoc.
    split; [done|]. rewrite zlen_app. unfold zlen at 3. rewrite number_frames_length.
    fold (zlen (t_frames t)). lia.
  - repeat (split; [done|]). exists []. rewrite app_nil_r. unfold zlen; cbn. split; [done|lia].
Qed.

(** a terminal snapshot is final: no history leaves it, and replaying a recorded command
    returns it unchanged. *)
Theorem terminal_is_final s s' :
  snapshot_u64 s → Status_Terminal (s_status s) = true → rtc apply_step s s' → s' = s.
Proof.
  intros Hu Ht H. induction H as [|s s1 s2 (t & Hf & HA) _ IH]; [done|].
  apply Apply_cases in HA as [(Hstep & _)|[-> _]]; [|auto|done].
  by rewrite (fs_live _ _ _ Hstep) in Ht.
Qed.

(** external commands are idempotent for ever: once a Signal or Cancel was accepted,
    applying the same command again at any later point of the history succeeds and changes
    nothing, whatever the revision or status has become. *)
Theorem command_idempotent s t s1 s2 :
  snapshot_u64 s → external_command t → Apply s t = Ok s1 → rtc apply_step s1 s2 →
  Apply s2 t = Ok s2.
Proof.
  intros Hu Hext HA H.
  assert (Ht : is_u64 (t_fence t)) by (destruct Hext as (? & ? & [-> | ->]); done).
  destruct (Apply_valid _ _ _ Hu Ht HA) as [Hu1 Hok1].
  destruct (Apply_records _ _ _ Hu HA (external_command_some _ Hext)) as [Hid Hrec].
  apply Apply_replay; [by eapply history_u64|by eapply history_valid|done|done|].
  by eapply history_commands_grow.
Qed.

(** a command identity is never reused: if the identity is recorded for another kind or
    another payload digest, the command is rejected as a conflict. *)
Theorem command_conflict s t r :
  snapshot_u64 s → snapshot_ok s → external_command t →
  validIdentity (t_commandID t) = true →
  s_commands s !! t_commandID t = Some r → r ≠ transition_record t →
  Apply s t = Err (StateError ErrCommandConflict (s_status s) (t_status t)).
Proof.
  intros Hu Hok Hext Hid Hr Hne. apply validateSnapshot_spec in Hok; [|done]. unfold Apply.
  rewrite Hok. destruct Hext as (id & frames & [-> | ->]); cbn in *; rewrite Hid, Hr; cbn;
    rewrite bool_decide_false by done; done.
Qed.

Definition cancel_recorded (s : Snapshot) : Prop :=
  ∃ id r, s_commands s !! id = Some r ∧ cr_kind r = commandCancel.

Definition cancel_invariant (s : Snapshot) : Prop :=
  (cancel_recorded s → s_status s ∈ [StatusCancelRequested; StatusCanceled; StatusFailed; StatusExpired]) ∧
  (s_status s ∈ [StatusCancelRequested; StatusCanceled] → cancel_recorded s).

(** The target of a transition allowed from a given status, by cases on the table. *)
Lemma allowed_cancel from to cmd :
  allowedTransition from to cmd = true →
  (cmd = commandCancel ∧ to = StatusCancelRequested) ∨
  (cmd = commandNone ∧ from = StatusCancelRequested ∧
     to ∈ [StatusCancelRequested; StatusCanceled; StatusFailed; StatusExpired]) ∨
  (cmd ≠ commandCancel ∧ from ≠ StatusCancelRequested ∧
     to ≠ StatusCancelRequested ∧ to ≠ StatusCanceled).
Proof. destruct cmd, from, to; cbn; intros; try done; set_solver. Qed.

Lemma cancel_invariant_step c t n :
  snapshot_u64 c → snapshot_ok c → cancel_invariant c → fresh_step c t n → cancel_invariant n.
Proof.
  intros _ _ [Hin Hout] Hf. pose proof (fs_live _ _ _ Hf) as Hlive.
  pose proof (allowed_cancel _ _ _ (fs_allowed _ _ _ Hf)) as Hal.
  destruct Hf as [_ Hraw _ _ _ _ _ ->]. unfold cancel_invariant, cancel_recorded in *. cbn.
  destruct Hal as [[Hc ->]|[(Hc & Hfrom & Hto)|(Hc & Hfrom & Hto1 & Hto2)]].
  - rewrite Hc. split; [set_solver|]. intros _.
    exists (t_commandID t), (transition_record t). split; [apply lookup_insert_eq|done].
  - rewrite Hc. split; [done|]. intros _. apply Hout. rewrite Hfrom. set_solver.
  - split; [|set_solver]. intros (id & r & Hr & Hk). exfalso.
    assert (Hrec : s_commands c !! id = Some r).
    { destruct (t_command t) eqn:Hcmd; try done;
        rewrite lookup_insert in Hr; case_decide; simplify_eq; try done; cbn in Hk; congruence. }
    assert (Hs : s_status c ∈ [StatusCancelRequested; StatusCanceled; StatusFailed; StatusExpired])
      by eauto.
    destruct (s_status c); cbn in Hlive; set_solver.
Qed.

(** cancellation is sticky and explicit.  In every snapshot reachable from a new call, a
    status of cancel_requested or canceled means a Cancel command was recorded, and once a
    Cancel is recorded the call can only be cancel_requested, canceled, failed or expired: it
    never completes, waits, suspends or runs again. *)
Theorem cancel_is_sticky callID operation s s' :
  NewSnapshot callID operation = Ok s → rtc apply_step s s' → cancel_invariant s'.
Proof.
  unfold NewSnapshot. case_match; [done|]. intros [= <-] Hh.
  eapply history_invariant; [apply cancel_invariant_step| | |exact Hh].
  - unfold snapshot_u64, is_u64, max_u64; cbn. lia.
  - split; [|set_solver]. intros (id & r & Hr & _). cbn in Hr. by rewrite lookup_empty in Hr.
Qed.

(** The acceptance condition of an executor-driven transition. *)
Definition move_accepted (c : Snapshot) (status : Status) (fence : Z) (frames : list Frame) : Prop :=
  Status_Terminal (s_status c) = false ∧
  allowedTransition (s_status c) status commandNone = true ∧
  s_revision c < max_u64 ∧
  (fence = 0 ∨ s_fence c ≤ fence) ∧
  (status = StatusRunning → 0 < Z.max fence (s_fence c)) ∧
  forallb frame_accepted frames = true ∧ s_sequence c + zlen frames ≤ max_u64.

Lemma Apply_move_spec c status fence frames :
  snapshot_u64 c → snapshot_ok c → is_u64 fence →
  (∃ n, Apply c (Move status fence frames) = Ok n) ↔ move_accepted c status fence frames.
Proof.
  intros Hu Hok Hfu. pose proof Hu as (Hr & Hf & _ & _). unfold is_u64 in *.
  pose proof (proj2 (validateSnapshot_spec c Hu) Hok) as Hv.
  assert (Happ : move_accepted c status fence frames → Status_valid status = true).
  { intros (_ & Hal & _). destruct (s_status c), status; cbn in Hal; done. }
  unfold Apply. rewrite Hv. cbn. destruct (Status_valid status) eqn:Hst; cbn.
  2:{ split; [by intros [? ?]|]. intros H. by apply Happ in H. }
  setoid_rewrite apply_fresh_spec; [|done]. split.
  - intros [n Hstep]. pose proof (fs_fence_up _ _ _ Hstep) as Hup. pose proof (fs_owned _ _ _ Hstep) as Hown.
    destruct Hstep as [H1 H2 H3 _ _ H6 H7 ->]. cbn in *.
    unfold move_accepted. split_and!; try done.
    + lia.
    + destruct (Z.eqb_spec fence 0); auto.
    + intros Hrun. specialize (Hown Hrun). destruct (Z.eqb_spec fence 0); lia.
  - intros (H1 & H2 & H3 & H4 & H5 & H6 & H7). eexists.
    refine (mk_fresh_step c (Move status fence frames) _ H1 H2 _ _ _ H6 H7 eq_refl); cbn; [lia|..].
    + destruct (Z.eqb_spec fence 0); lia.
    + intros Hrun. specialize (H5 Hrun). destruct (Z.eqb_spec fence 0); lia.
Qed.

(** [Apply] accepts a [Move] exactly when the call is live, the table allows the status,
    the offered fence is zero or not older than the current one (and non-zero for Running),
    the frames are unsequenced valid frames, and neither revision nor sequence is exhausted. *)
Theorem apply_move_iff c status fence frames :
  snapshot_u64 c → snapshot_ok c → is_u64 fence →
  (∃ n, Apply c (Move status fence frames) = Ok n) ↔ move_accepted c status fence frames.
Proof. apply Apply_move_spec. Qed.

(** ** Retention *)

(** On consecutively numbered frames, dropping a prefix is filtering by sequence. *)
Lemma filter_above (frames : list Frame) base floor :
  (∀ i f, frames !! i = Some f → f_sequence f = base + Z.of_nat i) → floor ≤ base →
  filter (λ f, floor ≤ f_sequence f) frames = frames.
Proof.
  revert base. induction frames as [|f frames IH]; intros base Hw Hle; [done|].
  rewrite filter_cons, decide_True.
  - f_equal. apply (IH (base + 1)); [|lia]. intros i g Hg. rewrite (Hw (S i) g Hg). lia.
  - rewrite (Hw 0%nat f eq_refl). lia.
Qed.

Lemma drop_window (frames : list Frame) base k :
  (∀ i f, frames !! i = Some f → f_sequence f = base + Z.of_nat i) →
  drop k frames = filter (λ f, base + Z.of_nat k ≤ f_sequence f) frames.
Proof.
  revert base frames. induction k as [|k IH]; intros base frames Hw.
  { rewrite drop_0. symmetry. apply (filter_above _ base); [done|lia]. }
  destruct frames as [|f frames]; [done|]. cbn [drop]. rewrite filter_cons, decide_False.
  - rewrite (IH (base + 1)).
    + by replace (base + 1 + Z.of_nat k) with (base + Z.of_nat (S k)) by lia.
    + intros i g Hg. rewrite (Hw (S i) g Hg). lia.
  - rewrite (Hw 0%nat f eq_refl). lia.
Qed.

Lemma snapshot_window s :
  snapshot_ok s → ∀ i f, s_frames s !! i = Some f → f_sequence f = s_frameFloor s + Z.of_nat i.
Proof. intros Hok i f Hf. by apply (ok_frames _ Hok) in Hf as [-> _]. Qed.

Definition with_floor (s : Snapshot) (floor : Z) (frames : list Frame) : Snapshot :=
  mkSnapshot (s_callID s) (s_operation s) (s_status s) (s_readyAt s) (s_revision s) (s_fence s)
    (s_sequence s) floor frames (s_commands s) (s_workflow s).

Lemma with_floor_ok s floor k :
  snapshot_ok s → s_revision s ≠ 1 → floor = s_frameFloor s + Z.of_nat k →
  floor ≤ s_sequence s + 1 → snapshot_ok (with_floor s floor (drop k (s_frames s))).
Proof.
  intros [H1 H2 H3 H4 H5 H6 H7 H8 H9 H10 H11] Hrev -> Hle.
  constructor; cbn; try done; try lia.
  - unfold zlen in *. rewrite length_drop. lia.
  - intros i f. rewrite lookup_drop. intros Hf. apply H10 in Hf.
    by replace (s_frameFloor s + Z.of_nat k + Z.of_nat i)
      with (s_frameFloor s + Z.of_nat (k + i)) by lia.
Qed.

(** pruning a valid call below an in-range floor succeeds, keeps exactly the frames at or
    above the floor, never lowers the floor, changes nothing else (in particular revision,
    fence and the global sequence), and leaves a valid snapshot. *)
Theorem prune_keeps_suffix s floor :
  snapshot_u64 s → snapshot_ok s → s_revision s ≠ 1 → is_u64 floor →
  1 ≤ floor ≤ s_sequence s + 1 →
  PruneSnapshot s floor =
    Ok (with_floor s (Z.max floor (s_frameFloor s))
          (filter (λ f, floor ≤ f_sequence f) (s_frames s))) ∧
  snapshot_ok (with_floor s (Z.max floor (s_frameFloor s))
          (filter (λ f, floor ≤ f_sequence f) (s_frames s))).
Proof.
  intros Hu Hok Hrev Hfu Hfl. pose proof Hu as (Hur & Huf & Hs & Hl). unfold is_u64 in *.
  pose proof (ok_floor _ Hok) as Hwin. pose proof (ok_count _ Hok) as Hcnt.
  pose proof (snapshot_window _ Hok) as Hw. unfold PruneSnapshot.
  rewrite bool_decide_true by (by apply validateSnapshot_spec). cbn.
  rewrite (proj2 (Z.eqb_neq floor 0)) by lia. cbn.
  assert (Hg : (s_sequence s =? max_u64) && (s_sequence s <? floor) ||
               (s_sequence s <? max_u64) && (u64_add (s_sequence s) 1 <? floor) = false).
  { destruct (Z.eqb_spec (s_sequence s) max_u64) as [E|E]; cbn.
    - rewrite (proj2 (Z.ltb_ge (s_sequence s) floor)) by lia.
      by rewrite (proj2 (Z.ltb_ge (s_sequence s) max_u64)) by lia.
    - rewrite u64_add_small by lia. rewrite (proj2 (Z.ltb_ge (s_sequence s + 1) floor)) by lia.
      apply andb_false_r. }
  rewrite Hg. destruct (Z.leb_spec floor (s_frameFloor s)) as [Hle|Hgt].
  { rewrite Z.max_r by done. rewrite (filter_above _ (s_frameFloor s)) by done.
    by destruct s. }
  rewrite Z.max_l by lia. rewrite u64_sub_small by lia.
  set (k := Z.to_nat (floor - s_frameFloor s)).
  assert (Hk : floor = s_frameFloor s + Z.of_nat k) by lia.
  rewrite (proj2 (Z.ltb_ge _ _)) by lia.
  assert (Hdrop : drop k (s_frames s) = filter (λ f, floor ≤ f_sequence f) (s_frames s)).
  { rewrite Hk. by apply drop_window. }
  pose proof (with_floor_ok s floor k Hok Hrev Hk ltac:(lia)) as Hok'. rewrite Hdrop in *.
  change (mkSnapshot _ _ _ _ _ _ _ _ _ _ _)
    with (with_floor s floor (filter (λ f, floor ≤ f_sequence f) (s_frames s))).
  rewrite bool_decide_true; [done|]. by apply validateSnapshot_spec.
Qed.

(** * Concrete runs *)
Definition ex_new : Snapshot :=
  mkSnapshot "call-1" "/orders/Place" StatusAccepted 0 1 0 0 1 [] ∅ None.
Definition ex_event : Frame := mkFrame 0 FrameEvent "step".
Definition ex_cancel : Transition := Cancel "cmd-1" [mkFrame 0 FrameCancelRequested ""].
Definition ex_running : Snapshot := ok_or (Apply ex_new (Move StatusRunning 1 [ex_event])) ex_new.
Definition ex_requested : Snapshot := ok_or (Apply ex_running ex_cancel) ex_new.
Definition ex_canceled : Snapshot :=
  ok_or (Apply ex_requested (Move StatusCanceled 1 [mkFrame 0 FrameCanceled ""])) ex_new.

Lemma ex_new_u64 : snapshot_u64 ex_new.
Proof. unfold snapshot_u64, is_u64. concrete. Qed.
Lemma ex_running_u64 : snapshot_u64 ex_running.
Proof. unfold snapshot_u64, is_u64. concrete. Qed.
Lemma ex_canceled_u64 : snapshot_u64 ex_canceled.
Proof. unfold snapshot_u64, is_u64. concrete. Qed.

Lemma ex_history_canceled : rtc apply_step ex_requested ex_canceled.
Proof.
  apply rtc_once. exists (Move StatusCanceled 1 [mkFrame 0 FrameCanceled ""]).
  split; [unfold is_u64; concrete|vm_compute; reflexivity].
Qed.

Lemma ex_history : rtc apply_step ex_new ex_canceled.
Proof.
  eapply rtc_l; [exists (Move StatusRunning 1 [ex_event]); split|].
  { unfold is_u64; concrete. } { vm_compute; reflexivity. }
  eapply rtc_l; [exists ex_cancel; split|].
  { unfold is_u64; concrete. } { vm_compute; reflexivity. }
  apply ex_history_canceled.
Qed.

Lemma apply_preserves_validity_witness :
  validateSnapshot ex_new = None ∧ validateSnapshot ex_running = None ∧ snapshot_u64 ex_running.
Proof.
  apply (apply_preserves_validity ex_new (Move StatusRunning 1 [ex_event]) ex_running).
  - apply ex_new_u64.
  - unfold is_u64; concrete.
  - vm_compute; reflexivity.
Defined.

Lemma history_append_only_witness :
  s_callID ex_canceled = s_callID ex_new ∧ s_operation ex_canceled = s_operation ex_new ∧
  s_frameFloor ex_canceled = s_frameFloor ex_new ∧
  s_revision ex_new ≤ s_revision ex_canceled ∧ s_fence ex_new ≤ s_fence ex_canceled ∧
  ∃ new, s_frames ex_canceled = s_frames ex_new ++ new ∧
         s_sequence ex_canceled = s_sequence ex_new + zlen new.
Proof. apply (history_append_only ex_new ex_canceled); [apply ex_new_u64|apply ex_history]. Defined.

Lemma terminal_is_final_witness : ex_canceled = ex_canceled.
Proof.
  apply (terminal_is_final ex_canceled ex_canceled);
    [apply ex_canceled_u64|vm_compute; reflexivity|].
  apply rtc_once. exists ex_cancel. split; [unfold is_u64; concrete|vm_compute; reflexivity].
Defined.

Lemma command_idempotent_witness : Apply ex_canceled ex_cancel = Ok ex_canceled.
Proof.
  apply (command_idempotent ex_running ex_cancel ex_requested ex_canceled).
  - apply ex_running_u64.
  - eexists _, _. right. reflexivity.
  - vm_compute; reflexivity.
  - apply ex_history_canceled.
Defined.

Lemma command_conflict_witness :
  Apply ex_canceled (Signal "cmd-1" []) =
  Err (StateError ErrCommandConflict StatusCanceled StatusAccepted).
Proof.
  apply (command_conflict ex_canceled (Signal "cmd-1" []) (transition_record ex_cancel)).
  - apply ex_canceled_u64.
  - apply validateSnapshot_spec; [apply ex_canceled_u64|vm_compute; reflexivity].
  - eexists _, _. left. reflexivity.
  - vm_compute; reflexivity.
  - vm_compute; reflexivity.
  - vm_compute; discriminate.
Defined.

Lemma cancel_is_sticky_witness : cancel_invariant ex_canceled.
Proof.
  apply (cancel_is_sticky "call-1" "/orders/Place" ex_new); [vm_compute; reflexivity|].
  apply ex_history.
Defined.

Lemma apply_move_iff_witness :
  (∃ n, Apply ex_running (Move StatusCompleted 1 [ex_event]) = Ok n) ↔
  move_accepted ex_running StatusCompleted 1 [ex_event].
Proof.
  apply (apply_move_iff ex_running StatusCompleted 1 [ex_event]).
  - apply ex_running_u64.
  - apply validateSnapshot_spec; [apply ex_running_u64|vm_compute; reflexivity].
  - unfold is_u64; concrete.
Defined.

Lemma prune_keeps_suffix_witness :
  PruneSnapshot ex_canceled 2 =
    Ok (with_floor ex_canceled (Z.max 2 (s_frameFloor ex_canceled))
          (filter (λ f, 2 ≤ f_sequence f) (s_frames ex_canceled))) ∧
  snapshot_ok (with_floor ex_canceled (Z.max 2 (s_frameFloor ex_canceled))
          (filter (λ f, 2 ≤ f_sequence f) (s_frames ex_canceled))).
Proof.
  apply (prune_keeps_suffix ex_canceled 2).
  - apply ex_canceled_u64.
  - apply validateSnapshot_spec; [apply ex_canceled_u64|vm_compute; reflexivity].
  - vm_compute; discriminate.
  - unfold is_u64; concrete.
  - concrete.
Defined.
