(* ===== verification/ContWorkflow.v ===== *)
(** * programmable/continuation: workflow definitions and planning

    Models [workflow.go]: definition validation ([NewWorkflowDefinition]), the canonical
    topological order (Kahn's algorithm on a sorted ready list), the definition fingerprint,
    join evaluation, the planner and the derived child identities.  JSON wire shapes
    ([workflowToWire], [workflowFromWire], [validateWorkflowJSONShape]) and the read-only view
    types are left out. *)
From S2P Require Import Prelude GoText GoJson Sha256 ContModel ContState.
From Stdlib Require Import Ascii.
Open Scope Z_scope.

Definition maxWorkflowEdges : Z := 100000.
Definition maxWorkflowTimerDelay : duration := 365 * 24 * hour.

Inductive WorkflowJoinPolicy :=
| WorkflowJoinAll | WorkflowJoinAny | WorkflowJoinOther (raw : string).
Inductive WorkflowFailurePolicy :=
| WorkflowFailFast | WorkflowContinue | WorkflowFailureOther (raw : string).

#[export] Instance WorkflowJoinPolicy_eq_dec : EqDecision WorkflowJoinPolicy.
Proof. solve_decision. Defined.
#[export] Instance WorkflowFailurePolicy_eq_dec : EqDecision WorkflowFailurePolicy.
Proof. solve_decision. Defined.

Definition WorkflowJoinPolicy_valid (p : WorkflowJoinPolicy) : bool :=
  (p == WorkflowJoinAll) || (p == WorkflowJoinAny).
Definition WorkflowFailurePolicy_valid (p : WorkflowFailurePolicy) : bool :=
  (p == WorkflowFailFast) || (p == WorkflowContinue).
Definition WorkflowFailurePolicy_normalized (p : WorkflowFailurePolicy) : WorkflowFailurePolicy :=
  if p == WorkflowFailureOther "" then WorkflowFailFast else p.

Record WorkflowNodeSpec := mkSpec {
  ws_ID : string;
  ws_Kind : WorkflowNodeKind;
  ws_Operation : string;
  ws_DependsOn : list string;
  ws_Join : WorkflowJoinPolicy;
  ws_FailurePolicy : WorkflowFailurePolicy;
  ws_Delay : duration
}.

Record WorkflowDefinitionSpec := mkDefinitionSpec {
  wd_Operation : string;
  wd_Version : string;
  wd_Nodes : list WorkflowNodeSpec
}.

Record WorkflowDefinition := mkDefinition {
  wf_operation : string;
  wf_version : string;
  wf_fingerprint : string;
  wf_nodes : list WorkflowNodeSpec;
  wf_byID : gmap string nat
}.

#[export] Instance WorkflowNodeSpec_eq_dec : EqDecision WorkflowNodeSpec.
Proof. solve_decision. Defined.

(** ** Definition validation *)
Definition validWorkflowNodeShape (node : WorkflowNodeSpec) : bool :=
  match ws_Kind node with
  | WorkflowNodeMachine | WorkflowNodeChild =>
      validOperation (ws_Operation node) && (ws_Delay node =? 0) &&
      (ws_Join node == WorkflowJoinOther "")
  | WorkflowNodeTimer =>
      (ws_Operation node == "") && (0 <? ws_Delay node) &&
      (ws_Delay node <=? maxWorkflowTimerDelay) && (ws_Join node == WorkflowJoinOther "")
  | WorkflowNodeJoin =>
      (ws_Operation node == "") && (ws_Delay node =? 0) && (0 <? zlen (ws_DependsOn node)) &&
      WorkflowJoinPolicy_valid (ws_Join node)
  | WorkflowNodeKindOther _ => false
  end.

Definition normalize_policy (node : WorkflowNodeSpec) : WorkflowNodeSpec :=
  mkSpec (ws_ID node) (ws_Kind node) (ws_Operation node) (ws_DependsOn node) (ws_Join node)
    (WorkflowFailurePolicy_normalized (ws_FailurePolicy node)) (ws_Delay node).

(** The loop over one node's dependencies; [seen] is its duplicate set. *)
Fixpoint dependencies_ok (id : string) (seen : gset string) (deps : list string) : bool :=
  match deps with
  | [] => true
  | d :: deps =>
      validIdentity d && (d != id) && bool_decide (d ∉ seen) &&
      dependencies_ok id ({[d]} ∪ seen) deps
  end.

(** The first loop of [NewWorkflowDefinition]: normalise, check and index every node. *)
Fixpoint index_nodes (index : nat) (byID : gmap string nat) (edges : Z)
    (nodes : list WorkflowNodeSpec) : result cerror (list WorkflowNodeSpec * gmap string nat) :=
  match nodes with
  | [] => Ok ([], byID)
  | node :: nodes =>
      let node := normalize_policy node in
      if negb (validIdentity (ws_ID node)) || negb (WorkflowNodeKind_valid (ws_Kind node)) ||
         negb (WorkflowFailurePolicy_valid (ws_FailurePolicy node))
      then Err ErrInvalidWorkflow
      else match byID !! ws_ID node with
      | Some _ => Err ErrInvalidWorkflow
      | None =>
          let edges := edges + zlen (ws_DependsOn node) in
          if (maxWorkflowEdges <? edges) || negb (validWorkflowNodeShape node)
          then Err ErrInvalidWorkflow
          else if negb (dependencies_ok (ws_ID node) ∅ (ws_DependsOn node))
          then Err ErrInvalidWorkflow
          else
            rest ← index_nodes (S index) (<[ws_ID node := index]> byID) edges nodes;
            Ok (node :: fst rest, snd rest)
      end
  end.

Definition dependencies_exist (byID : gmap string nat) (nodes : list WorkflowNodeSpec) : bool :=
  forallb (λ node, forallb (λ d, bool_decide (is_Some (byID !! d))) (ws_DependsOn node)) nodes.

(** ** Topological order *)
Definition initial_indegree (nodes : list WorkflowNodeSpec) : gmap string Z :=
  fold_left (λ m node, <[ws_ID node := zlen (ws_DependsOn node)]> m) nodes ∅.

(** [dependents[dependency] = append(dependents[dependency], node.ID)] *)
Definition add_dependents (m : gmap string (list string)) (node : WorkflowNodeSpec) :
    gmap string (list string) :=
  fold_left (λ m d, <[d := default [] (m !! d) ++ [ws_ID node]]> m) (ws_DependsOn node) m.
Definition dependents_of (nodes : list WorkflowNodeSpec) : gmap string (list string) :=
  fold_left add_dependents nodes ∅.

(** One pass over the dependents of a finished node. *)
Fixpoint release (dependents : list string) (indegree : gmap string Z) (ready : list string) :
    gmap string Z * list string :=
  match dependents with
  | [] => (indegree, ready)
  | d :: dependents =>
      let degree := default 0 (indegree !! d) - 1 in
      release dependents (<[d := degree]> indegree)
        (if degree =? 0 then sort_strings (ready ++ [d]) else ready)
  end.

(** The main loop; every iteration moves one ready node to the result. *)
Fixpoint kahn (fuel : nat) (nodes : list WorkflowNodeSpec) (byID : gmap string nat)
    (dependents : gmap string (list string)) (indegree : gmap string Z)
    (ready : list string) (result : list WorkflowNodeSpec) : option (list WorkflowNodeSpec) :=
  match ready, fuel with
  | [], _ => Some result
  | _, O => None
  | id :: ready, S fuel =>
      let result := result ++ option_list (nodes !! default 0%nat (byID !! id)) in
      let '(indegree, ready) := release (default [] (dependents !! id)) indegree ready in
      kahn fuel nodes byID dependents indegree ready result
  end.

(** [None] is a loop that did not end within one iteration per node; see
    [topological_correct]: it never happens. *)
Definition topologicalWorkflowNodes (nodes : list WorkflowNodeSpec) (byID : gmap string nat) :
    option (result cerror (list WorkflowNodeSpec)) :=
  let indegree := initial_indegree nodes in
  let ready := sorted_keys (λ _ degree, degree =? 0) indegree in
  match kahn (length nodes) nodes byID (dependents_of nodes) indegree ready [] with
  | None => None
  | Some result =>
      Some (if negb (zlen result =? zlen nodes) then Err ErrWorkflowCycle else Ok result)
  end.

(** ** Fingerprint *)


Definition WorkflowNodeKind_string (k : WorkflowNodeKind) : string :=
  match k with
  | WorkflowNodeMachine => "machine" | WorkflowNodeTimer => "timer"
  | WorkflowNodeChild => "child" | WorkflowNodeJoin => "join"
  | WorkflowNodeKindOther raw => raw
  end.
Definition WorkflowJoinPolicy_string (p : WorkflowJoinPolicy) : string :=
  match p with WorkflowJoinAll => "all" | WorkflowJoinAny => "any" | WorkflowJoinOther raw => raw end.
Definition WorkflowFailurePolicy_string (p : WorkflowFailurePolicy) : string :=
  match p with
  | WorkflowFailFast => "fail_fast" | WorkflowContinue => "continue"
  | WorkflowFailureOther raw => raw
  end.

(** A nil slice marshals as [null]: [append([]string(nil), deps...)] is nil when [deps] is
    empty. *)
Definition fingerprint_node (node : WorkflowNodeSpec) : list Z :=
  json_object
    [json_field "id" (json_string (ws_ID node));
     json_field "kind" (json_string (WorkflowNodeKind_string (ws_Kind node)));
     json_field "operation" (json_string (ws_Operation node));
     json_field "depends_on"
       (match ws_DependsOn node with
        | [] => bytes_of "null"
        | deps => json_array (json_string <$> deps)
        end);
     json_field "join" (json_string (WorkflowJoinPolicy_string (ws_Join node)));
     json_field "failure_policy"
       (json_string (WorkflowFailurePolicy_string (ws_FailurePolicy node)));
     json_field "delay_nanos" (json_int (ws_Delay node))].

Definition node_le (a b : WorkflowNodeSpec) : Prop := String.le (ws_ID a) (ws_ID b).
#[export] Instance node_le_dec : RelDecision node_le.
Proof. intros a b. unfold node_le. apply _. Defined.

Definition sort_dependencies (node : WorkflowNodeSpec) : WorkflowNodeSpec :=
  mkSpec (ws_ID node) (ws_Kind node) (ws_Operation node) (sort_strings (ws_DependsOn node))
    (ws_Join node) (ws_FailurePolicy node) (ws_Delay node).

Definition canonical_nodes (nodes : list WorkflowNodeSpec) : list WorkflowNodeSpec :=
  sort_dependencies <$> merge_sort node_le nodes.

Definition workflowFingerprint (operation version : string) (nodes : list WorkflowNodeSpec) : string :=
  hex_encode (sha256 (json_object
    [json_field "operation" (json_string operation);
     json_field "version" (json_string version);
     json_field "nodes" (json_array (fingerprint_node <$> canonical_nodes nodes))])).

Fixpoint index_by_id (index : nat) (nodes : list WorkflowNodeSpec) (m : gmap string nat) : gmap string nat :=
  match nodes with
  | [] => m
  | node :: nodes => index_by_id (S index) nodes (<[ws_ID node := index]> m)
  end.

Definition NewWorkflowDefinition (spec : WorkflowDefinitionSpec) :
    option (result cerror WorkflowDefinition) :=
  if negb (validOperation (wd_Operation spec)) || negb (validIdentity (wd_Version spec)) ||
     (zlen (wd_Nodes spec) =? 0) || (maxWorkflowNodes <? zlen (wd_Nodes spec))
  then Some (Err ErrInvalidWorkflow)
  else match index_nodes 0 ∅ 0 (wd_Nodes spec) with
  | Err e => Some (Err e)
  | Ok (nodes, byID) =>
      if negb (dependencies_exist byID nodes) then Some (Err ErrInvalidWorkflow)
      else match topologicalWorkflowNodes nodes byID with
      | None => None
      | Some (Err e) => Some (Err e)
      | Some (Ok topological) =>
          Some (Ok (mkDefinition (wd_Operation spec) (wd_Version spec)
            (workflowFingerprint (wd_Operation spec) (wd_Version spec) nodes)
            topological (index_by_id 0 topological ∅)))
      end
  end.

(** ** Joins, planning, outcome *)
Definition count_status (f : WorkflowNodeStatus → bool) (states : list WorkflowNodeStatus) : Z :=
  zlen (List.filter f states).

Definition EvaluateWorkflowJoin (policy : WorkflowJoinPolicy) (states : list WorkflowNodeStatus) :
    WorkflowNodeStatus * bool :=
  if negb (WorkflowJoinPolicy_valid policy) || (zlen states =? 0) then (WorkflowNodeFailed, true)
  else
    let succeeded := count_status (λ st, st == WorkflowNodeSucceeded) states in
    let failed :=
      count_status (λ st, (st == WorkflowNodeFailed) || (st == WorkflowNodeSkipped)) states in
    let terminal := count_status WorkflowNodeStatus_Terminal states in
    match policy with
    | WorkflowJoinAll =>
        if 0 <? failed then (WorkflowNodeFailed, true)
        else if succeeded =? zlen states then (WorkflowNodeSucceeded, true)
        else (WorkflowNodePending, false)
    | WorkflowJoinAny =>
        if 0 <? succeeded then (WorkflowNodeSucceeded, true)
        else if terminal =? zlen states then (WorkflowNodeFailed, true)
        else (WorkflowNodePending, false)
    | WorkflowJoinOther _ => (WorkflowNodePending, false)
    end.

(** [completeStatus] is [None] for Go's empty string. *)
Record workflowCommand := mkCommand {
  c_nodeID : string;
  c_kind : WorkflowNodeKind;
  c_operation : string;
  c_attempt : Z;
  c_childCallID : string;
  c_readyAt : time;
  c_completeStatus : option WorkflowNodeStatus
}.

Definition DeriveChildCallID (parent nodeID : string) (attempt : Z) : result cerror string :=
  if negb (validIdentity parent) || negb (validIdentity nodeID) || (attempt =? 0)
  then Err ErrInvalidWorkflow
  else NewCallID ("wf-child-" +:+ hex_encode (sha256
    (digest_part (bytes_of "keelith-workflow-child-v1") ++ digest_part (bytes_of parent) ++
     digest_part (bytes_of nodeID) ++ digest_part (be_bytes 4 attempt)))).

(** [state.Nodes[id].Status]; a missing entry is Go's zero value. *)
Definition node_status (state : workflowSnapshotState) (id : string) : WorkflowNodeStatus :=
  match w_Nodes state !! id with
  | Some node => n_Status node
  | None => WorkflowNodeStatusOther ""
  end.

(** One iteration of the planner's loop. *)
Definition plan_node (state : workflowSnapshotState) (parent : string) (spec : WorkflowNodeSpec) :
    result cerror (list workflowCommand) :=
  match w_Nodes state !! ws_ID spec with
  | None => Err ErrWorkflowDefinitionMismatch
  | Some node =>
      if n_Kind node != ws_Kind spec then Err ErrWorkflowDefinitionMismatch
      else if n_Status node != WorkflowNodePending then Ok []
      else
        let dependencies := node_status state <$> ws_DependsOn spec in
        let allSucceeded := forallb (λ st, st == WorkflowNodeSucceeded) dependencies in
        let allTerminal := forallb WorkflowNodeStatus_Terminal dependencies in
        let failedDependency := existsb (λ st, st == WorkflowNodeFailed) dependencies in
        let complete st := mkCommand (ws_ID spec) (ws_Kind spec) "" 0 "" 0 (Some st) in
        if ws_Kind spec == WorkflowNodeJoin then
          let '(status, terminal) := EvaluateWorkflowJoin (ws_Join spec) dependencies in
          Ok (if terminal then [complete status] else [])
        else if failedDependency && (ws_FailurePolicy spec == WorkflowFailFast) then
          Ok [complete WorkflowNodeFailed]
        else if (0 <? zlen (ws_DependsOn spec)) && negb allSucceeded &&
                ((ws_FailurePolicy spec != WorkflowContinue) || negb allTerminal)
        then Ok []
        else
          let attempt := u32_add (n_Attempt node) 1 in
          let command child readyAt :=
            mkCommand (ws_ID spec) (ws_Kind spec) (ws_Operation spec) attempt child readyAt None in
          match ws_Kind spec with
          | WorkflowNodeTimer =>
              Ok [command "" (normalizeReadyAt (w_StartedAt state + ws_Delay spec))]
          | WorkflowNodeChild =>
              child ← DeriveChildCallID parent (ws_ID spec) attempt; Ok [command child 0]
          | _ => Ok [command "" 0]
          end
  end.

Fixpoint plan_nodes (state : workflowSnapshotState) (parent : string)
    (specs : list WorkflowNodeSpec) : result cerror (list workflowCommand) :=
  match specs with
  | [] => Ok []
  | spec :: specs =>
      first ← plan_node state parent spec;
      rest ← plan_nodes state parent specs;
      Ok (first ++ rest)
  end.

Definition planWorkflowForParent (definition : WorkflowDefinition) (state : workflowSnapshotState)
    (parent : string) : result cerror (list workflowCommand) :=
  if (validateWorkflowState (Some state) != None) ||
     (w_Version state != wf_version definition) ||
     (w_Fingerprint state != wf_fingerprint definition) ||
     negb (map_len (w_Nodes state) =? zlen (wf_nodes definition))
  then Err ErrWorkflowDefinitionMismatch
  else plan_nodes state parent (wf_nodes definition).

Fixpoint outcome_loop (dependent : gset string) (state : workflowSnapshotState)
    (specs : list WorkflowNodeSpec) (sinks : Z) (failed : bool) : bool * bool :=
  match specs with
  | [] => (0 <? sinks, failed)
  | spec :: specs =>
      if bool_decide (ws_ID spec ∈ dependent) then outcome_loop dependent state specs sinks failed
      else
        let status := node_status state (ws_ID spec) in
        if negb (WorkflowNodeStatus_Terminal status) then (false, false)
        else outcome_loop dependent state specs (sinks + 1)
               (failed || (status == WorkflowNodeFailed))
  end.

(** (terminal, failed) over the nodes nothing depends on. *)
Definition workflowDefinitionOutcome (definition : WorkflowDefinition)
    (state : workflowSnapshotState) : bool * bool :=
  let dependent : gset string := list_to_set (wf_nodes definition ≫= ws_DependsOn) in
  outcome_loop dependent state (wf_nodes definition) 0 false.

Definition skip_node (node : workflowNodeState) : workflowNodeState :=
  if WorkflowNodeStatus_Terminal (n_Status node) then node
  else mkNodeState (n_ID node) (n_Kind node) WorkflowNodeSkipped (n_Attempt node)
         (n_ChildCallID node) (n_ReadyAt node) (n_FailureClass node).
Definition skipNonTerminalWorkflowNodes (state : workflowSnapshotState) : workflowSnapshotState :=
  mkWorkflowState (w_Version state) (w_Fingerprint state) (w_StartedAt state)
    (skip_node <$> w_Nodes state).

Definition pending_node (spec : WorkflowNodeSpec) : workflowNodeState :=
  mkNodeState (ws_ID spec) (ws_Kind spec) WorkflowNodePending 0 "" 0 "".
Definition newWorkflowSnapshotState (definition : WorkflowDefinition) (startedAt : time) :
    workflowSnapshotState :=
  mkWorkflowState (wf_version definition) (wf_fingerprint definition) (normalizeReadyAt startedAt)
    (fold_left (λ m spec, <[ws_ID spec := pending_node spec]> m) (wf_nodes definition) ∅).

Definition newWorkflowSnapshot (callID : string) (definition : WorkflowDefinition)
    (input : string) (startedAt : time) : result cerror Snapshot :=
  if IsZero startedAt then Err ErrInvalidWorkflow
  else
    snapshot ← NewSnapshotWithInput callID (wf_operation definition) input;
    let snapshot :=
      mkSnapshot (s_callID snapshot) (s_operation snapshot) (s_status snapshot)
        (s_readyAt snapshot) (s_revision snapshot) (s_fence snapshot) (s_sequence snapshot)
        (s_frameFloor snapshot) (s_frames snapshot) (s_commands snapshot)
        (Some (newWorkflowSnapshotState definition startedAt)) in
    from_nil (validateSnapshot snapshot) snapshot.

(** ** Correctness of the topological order *)

(** Every node comes after its dependencies. *)
Definition dependency_ordered (l : list WorkflowNodeSpec) : Prop :=
  ∀ i n, l !! i = Some n → ∀ d, d ∈ ws_DependsOn n → d ∈ ws_ID <$> take i l.

(** How many dependencies of a node are not among the finished identities. *)
Definition missing (finished : list string) (n : WorkflowNodeSpec) : Z :=
  zlen (filter (.∉ finished) (ws_DependsOn n)).

Lemma missing_zero finished n : missing finished n = 0 ↔ ∀ d, d ∈ ws_DependsOn n → d ∈ finished.
Proof.
  unfold missing, zlen. split.
  - intros H d Hd. destruct (decide (d ∈ finished)); [done|]. exfalso.
    assert (Hin : d ∈ filter (.∉ finished) (ws_DependsOn n)) by (by apply list_elem_of_filter).
    destruct (filter _ _); [set_solver|cbn in H; lia].
  - intros H. destruct (filter _ _) as [|d l] eqn:E; [done|].
    assert (Hin : d ∈ filter (.∉ finished) (ws_DependsOn n)) by (rewrite E; set_solver).
    apply list_elem_of_filter in Hin as [Hd Hin]. by apply H in Hin.
Qed.

Lemma missing_add finished id n :
  NoDup (ws_DependsOn n) → id ∉ finished →
  missing (finished ++ [id]) n = missing finished n - (if decide (id ∈ ws_DependsOn n) then 1 else 0).
Proof.
  unfold missing. intros Hnd Hid. induction (ws_DependsOn n) as [|d l IH]; [done|].
  apply NoDup_cons in Hnd as [Hd Hnd]. specialize (IH Hnd).
  rewrite !filter_cons.
  destruct (decide (d = id)) as [->|Hne].
  - rewrite decide_False by set_solver. rewrite (decide_True (P := id ∉ finished)) by done.
    rewrite (decide_True (P := id ∈ id :: l)) by set_solver. rewrite zlen_cons.
    rewrite IH, decide_False by done. lia.
  - destruct (decide (d ∈ finished)).
    + rewrite decide_False by set_solver. rewrite decide_False by set_solver. rewrite IH.
      repeat case_decide; set_solver.
    + rewrite decide_True by set_solver. rewrite decide_True by done. rewrite !zlen_cons, IH.
      repeat case_decide; first [lia|set_solver].
Qed.

Lemma release_spec L indegree ready indegree' ready' :
  NoDup L → release L indegree ready = (indegree', ready') →
  (∀ x, indegree' !! x = if decide (x ∈ L) then Some (default 0 (indegree !! x) - 1) else indegree !! x) ∧
  ready' ≡ₚ ready ++ filter (λ x, default 0 (indegree !! x) = 1) L.
Proof.
  revert indegree ready. induction L as [|d L IH]; intros indegree ready Hnd; cbn [release].
  { intros [= <- <-]. split; [done|]. by rewrite app_nil_r. }
  apply NoDup_cons in Hnd as [Hd Hnd]. intros H%IH; [|done]. destruct H as [H1 H2]. split.
  - intros x. rewrite H1. destruct (decide (x = d)) as [->|Hne].
    + rewrite decide_False by done. rewrite decide_True by set_solver. apply lookup_insert_eq.
    + rewrite lookup_insert_ne by done. repeat case_decide; set_solver.
  - rewrite H2. rewrite filter_cons.
    assert (Hf : filter (λ x, default 0 (<[d:=default 0 (indegree !! d) - 1]> indegree !! x) = 1) L
                 = filter (λ x, default 0 (indegree !! x) = 1) L).
    { apply list_filter_ext. intros x Hx. by rewrite lookup_insert_ne by set_solver. }
    rewrite Hf. destruct (Z.eqb_spec (default 0 (indegree !! d) - 1) 0).
    + rewrite decide_True by lia. rewrite sort_strings_perm, <- app_assoc. done.
    + by rewrite decide_False by lia.
Qed.

Lemma initial_indegree_spec nodes :
  NoDup (ws_ID <$> nodes) →
  (∀ n, n ∈ nodes → initial_indegree nodes !! ws_ID n = Some (zlen (ws_DependsOn n))) ∧
  (∀ id, id ∉ ws_ID <$> nodes → initial_indegree nodes !! id = None).
Proof.
  intros Hnd. unfold initial_indegree.
  assert (H : ∀ m : gmap string Z,
    (∀ n, n ∈ nodes → fold_left (λ m node, <[ws_ID node := zlen (ws_DependsOn node)]> m) nodes m !! ws_ID n
       = Some (zlen (ws_DependsOn n))) ∧
    (∀ id, id ∉ ws_ID <$> nodes →
       fold_left (λ m node, <[ws_ID node := zlen (ws_DependsOn node)]> m) nodes m !! id = m !! id)).
  { induction nodes as [|n nodes IH]; intros m; [set_solver|].
    rewrite fmap_cons in Hnd. apply NoDup_cons in Hnd as [Hn Hnd]. specialize (IH Hnd).
    destruct (IH (<[ws_ID n := zlen (ws_DependsOn n)]> m)) as [IH1 IH2]. cbn [fold_left]. split.
    - intros n' [->|Hin]%elem_of_cons; [|by apply IH1]. rewrite IH2 by done. apply lookup_insert_eq.
    - intros id Hid. rewrite fmap_cons in Hid. apply not_elem_of_cons in Hid as [Hne Hid].
      rewrite IH2 by done. by apply lookup_insert_ne. }
  destruct (H ∅) as [H1 H2]. split; [done|]. intros id Hid. by rewrite H2, lookup_empty.
Qed.

Lemma add_dependents_spec m node id :
  NoDup (ws_DependsOn node) →
  default [] (add_dependents m node !! id) =
  default [] (m !! id) ++ (if decide (id ∈ ws_DependsOn node) then [ws_ID node] else []).
Proof.
  unfold add_dependents. revert m. induction (ws_DependsOn node) as [|d l IH]; intros m Hnd; cbn.
  { by rewrite app_nil_r. }
  apply NoDup_cons in Hnd as [Hd Hnd]. rewrite IH by done.
  destruct (decide (id = d)) as [->|Hne].
  - rewrite lookup_insert_eq. cbn. rewrite decide_False by done. rewrite decide_True by set_solver.
    by rewrite app_nil_r.
  - rewrite lookup_insert_ne by done. f_equal. repeat case_decide; set_solver.
Qed.

Lemma dependents_of_spec nodes id :
  (∀ n, n ∈ nodes → NoDup (ws_DependsOn n)) →
  default [] (dependents_of nodes !! id) = ws_ID <$> filter (λ n, id ∈ ws_DependsOn n) nodes.
Proof.
  intros Hnd. unfold dependents_of.
  assert (H : ∀ m, default [] (fold_left add_dependents nodes m !! id) =
    default [] (m !! id) ++ (ws_ID <$> filter (λ n, id ∈ ws_DependsOn n) nodes)).
  { induction nodes as [|n nodes IH]; intros m; cbn [fold_left].
    { by rewrite app_nil_r. }
    rewrite IH by set_solver. rewrite add_dependents_spec by set_solver.
    rewrite filter_cons, <- app_assoc. f_equal. by case_decide. }
  by rewrite H, lookup_empty.
Qed.

Section kahn_correct.
  Context (nodes : list WorkflowNodeSpec) (byID : gmap string nat).
  Context (Hids : NoDup (ws_ID <$> nodes)).
  Context (Hdeps : ∀ n, n ∈ nodes → NoDup (ws_DependsOn n)).
  Context (Hby : ∀ i n, nodes !! i = Some n → byID !! ws_ID n = Some i).

Record kahn_inv (result : list WorkflowNodeSpec) (ready : list string)
      (indegree : gmap string Z) : Prop := mk_kahn_inv {
    ki_nodes : ∀ n, n ∈ result → n ∈ nodes;
    ki_sub : ∀ x, x ∈ ready → x ∈ ws_ID <$> nodes;
    ki_nodup : NoDup ((ws_ID <$> result) ++ ready);
    ki_degree : ∀ n, n ∈ nodes → indegree !! ws_ID n = Some (missing (ws_ID <$> result) n);
    ki_ready : ∀ n, n ∈ nodes →
      ws_ID n ∈ (ws_ID <$> result) ++ ready ↔ missing (ws_ID <$> result) n = 0;
    ki_order : dependency_ordered result
  }.

Lemma node_by_id n n' : n ∈ nodes → n' ∈ nodes → ws_ID n = ws_ID n' → n = n'.
Proof.
  intros [i Hi]%list_elem_of_lookup [j Hj]%list_elem_of_lookup Heq.
  assert (i = j); [|congruence].
  eapply NoDup_lookup; [apply Hids| |]; rewrite list_lookup_fmap; [by rewrite Hi|].
  rewrite Hj. cbn. congruence.
Qed.

Lemma kahn_lookup n : n ∈ nodes → nodes !! default 0%nat (byID !! ws_ID n) = Some n.
Proof. intros [i Hi]%list_elem_of_lookup. by rewrite (Hby _ _ Hi). Qed.

Lemma kahn_step result n0 ready indegree indegree' ready' :
  kahn_inv result (ws_ID n0 :: ready) indegree → n0 ∈ nodes →
  release (default [] (dependents_of nodes !! ws_ID n0)) indegree ready = (indegree', ready') →
  kahn_inv (result ++ [n0]) ready' indegree'.
Proof.
  intros [Hn Hsub Hnd Hdeg Hrdy Hord] Hn0. rewrite dependents_of_spec by done.
  set (L := ws_ID <$> filter (λ n, ws_ID n0 ∈ ws_DependsOn n) nodes). intros Hrel.
  assert (HL : ∀ n, n ∈ nodes → ws_ID n ∈ L ↔ ws_ID n0 ∈ ws_DependsOn n).
  { intros n Hin. unfold L. rewrite list_elem_of_fmap. split.
    - intros (n' & Heq & [Hd Hin']%list_elem_of_filter). by rewrite (node_by_id n n').
    - intros Hd. exists n. split; [done|]. by apply list_elem_of_filter. }
  assert (HLnd : NoDup L).
  { by apply NoDup_fmap_filter. }
  destruct (release_spec _ _ _ _ _ HLnd Hrel) as [Hdeg' Hready'].
  apply NoDup_app in Hnd as (Hnd1 & Hdis & Hnd2). apply NoDup_cons in Hnd2 as [Hid Hnd2].
  assert (Hfresh : ws_ID n0 ∉ ws_ID <$> result) by set_solver.
  assert (Hmiss : ∀ n, n ∈ nodes → missing (ws_ID <$> result ++ [n0]) n =
    missing (ws_ID <$> result) n - (if decide (ws_ID n0 ∈ ws_DependsOn n) then 1 else 0)).
  { intros n Hin. rewrite fmap_app. cbn. apply missing_add; auto. }
  assert (Hpos : ∀ n, ws_ID n0 ∈ ws_DependsOn n → missing (ws_ID <$> result) n ≠ 0).
  { intros n Hd Hz. by apply missing_zero with (d := ws_ID n0) in Hz. }
  assert (Hnew : ∀ x, x ∈ filter (λ x, default 0 (indegree !! x) = 1) L →
    ∃ n, n ∈ nodes ∧ x = ws_ID n ∧ ws_ID n0 ∈ ws_DependsOn n ∧ missing (ws_ID <$> result) n = 1).
  { intros x [H1 (n & -> & [Hd Hin]%list_elem_of_filter)%list_elem_of_fmap]%list_elem_of_filter.
    exists n. rewrite Hdeg in H1 by done. done. }
  constructor.
  - set_solver.
  - intros x. rewrite Hready', elem_of_app. intros [Hx|(n & Hin & -> & _)%Hnew]; [set_solver|].
    by apply list_elem_of_fmap_2.
  - rewrite Hready', fmap_app, <- app_assoc. cbn.
    apply NoDup_app. split_and!; [done| |].
    + intros x Hx. rewrite elem_of_cons, elem_of_app. intros [->|[Hx'|(n & Hin & -> & Hd & H1)%Hnew]].
      * done. * set_solver.
      * assert (ws_ID n ∈ (ws_ID <$> result) ++ ws_ID n0 :: ready) as Hr by set_solver.
        apply Hrdy in Hr; [lia|done].
    + constructor.
      * rewrite elem_of_app. intros [Hx|(n & Hin & Heq & Hd & H1)%Hnew]; [done|].
        assert (ws_ID n ∈ (ws_ID <$> result) ++ ws_ID n0 :: ready) as Hr by (rewrite <- Heq; set_solver).
        apply Hrdy in Hr; [lia|done].
      * apply NoDup_app. split_and!; [done| |by apply NoDup_filter].
        intros x Hx (n & Hin & -> & Hd & H1)%Hnew.
        assert (ws_ID n ∈ (ws_ID <$> result) ++ ws_ID n0 :: ready) as Hr by set_solver.
        apply Hrdy in Hr; [lia|done].
  - intros n Hin. rewrite Hdeg', Hmiss by done. rewrite Hdeg by done. cbn.
    specialize (HL n Hin). repeat case_decide; try tauto; f_equal; lia.
  - intros n Hin. rewrite Hmiss by done. rewrite Hready', fmap_app, <- app_assoc. cbn.
    specialize (Hrdy n Hin). rewrite elem_of_app, elem_of_cons, elem_of_app in *.
    destruct (decide (ws_ID n0 ∈ ws_DependsOn n)) as [Hd|Hd].
    + assert (Hone : ws_ID n ∈ filter (λ x, default 0 (indegree !! x) = 1) L ↔
                     missing (ws_ID <$> result) n = 1).
      { rewrite list_elem_of_filter, Hdeg, HL by done. cbn. tauto. }
      rewrite Hone. specialize (Hpos n Hd). intuition lia.
    + assert (Hone : ws_ID n ∉ filter (λ x, default 0 (indegree !! x) = 1) L).
      { rewrite list_elem_of_filter, HL by done. tauto. }
      rewrite Z.sub_0_r. tauto.
  - intros i n Hi d Hd. apply lookup_app_Some in Hi as [Hi|[Hge Hi]].
    + rewrite take_app_le by (apply lookup_lt_Some in Hi; lia). by eapply Hord.
    + apply list_lookup_singleton_Some in Hi as [Hi ->].
      assert (Hz : missing (ws_ID <$> result) n = 0) by (apply Hrdy; [done|set_solver]).
      rewrite missing_zero in Hz. apply Hz in Hd.
      replace i with (length result) by lia. by rewrite take_app_length.
Qed.

Lemma kahn_inv_length result ready indegree :
  kahn_inv result ready indegree → (length result + length ready ≤ length nodes)%nat.
Proof.
  intros [Hn Hsub Hnd _ _ _]. rewrite <- (length_fmap ws_ID result), <- length_app.
  rewrite <- (length_fmap ws_ID nodes). apply submseteq_length, NoDup_submseteq; [done|].
  intros x [(n & -> & Hin)%list_elem_of_fmap|Hx]%elem_of_app; [|auto].
  by apply list_elem_of_fmap_2, Hn.
Qed.

(** One iteration per unfinished node is enough fuel. *)
Lemma kahn_total fuel result ready indegree :
  kahn_inv result ready indegree → (length nodes ≤ fuel + length result)%nat →
  ∃ result' indegree', kahn fuel nodes byID (dependents_of nodes) indegree ready result = Some result' ∧
    kahn_inv result' [] indegree'.
Proof.
  revert result ready indegree. induction fuel as [|fuel IH]; intros result ready indegree Hinv Hf.
  - pose proof (kahn_inv_length _ _ _ Hinv). destruct ready; [by eauto|cbn in *; lia].
  - destruct ready as [|id ready]; [by eauto|].
    assert (∃ n0, n0 ∈ nodes ∧ id = ws_ID n0) as (n0 & Hn0 & ->).
    { pose proof (ki_sub _ _ _ Hinv id ltac:(set_solver)) as (n0 & -> & Hin)%list_elem_of_fmap. eauto. }
    cbn [kahn]. rewrite kahn_lookup by done. cbn [option_list].
    destruct (release _ _ _) as [indegree' ready'] eqn:Hrel.
    apply IH; [by eapply kahn_step|]. rewrite length_app. cbn. lia.
Qed.

Lemma kahn_inv_initial :
  kahn_inv [] (sorted_keys (λ _ degree, degree =? 0) (initial_indegree nodes)) (initial_indegree nodes).
Proof.
  destruct (initial_indegree_spec nodes Hids) as [H1 H2].
  assert (Hk : ∀ n, n ∈ nodes →
    ws_ID n ∈ sorted_keys (λ _ degree, degree =? 0) (initial_indegree nodes) ↔ missing [] n = 0).
  { intros n Hin. rewrite elem_of_sorted_keys, (H1 n Hin).
    assert (missing [] n = zlen (ws_DependsOn n)) as ->.
    { unfold missing. f_equal. apply list_filter_all. set_solver. }
    split; [intros (a & Ha & ?); bool_hyps; congruence|].
    intros Hz. eexists. split; [done|]. by apply Z.eqb_eq. }
  constructor; cbn.
  - set_solver.
  - intros x (a & Ha & _)%elem_of_sorted_keys. destruct (decide (x ∈ ws_ID <$> nodes)); [done|].
    by rewrite H2 in Ha.
  - apply NoDup_sorted_keys.
  - intros n Hin. rewrite (H1 n Hin). f_equal. unfold missing. f_equal. symmetry.
    apply list_filter_all. set_solver.
  - done.
  - intros i n Hi. by rewrite lookup_nil in Hi.
Qed.

(** A finished loop has everything exactly when some dependency order of the nodes exists. *)
Lemma kahn_complete result indegree l :
  kahn_inv result [] indegree → l ≡ₚ nodes → dependency_ordered l → result ≡ₚ nodes.
Proof.
  intros Hinv Hl Hord. pose proof Hinv as [Hn _ Hnd _ Hrdy _]. rewrite app_nil_r in Hnd.
  assert (Hall : ∀ i n, l !! i = Some n → ws_ID n ∈ ws_ID <$> result).
  { intros i. induction (lt_wf i) as [i _ IH]. intros n Hi.
    assert (Hin : n ∈ nodes) by (rewrite <- Hl; by eapply list_elem_of_lookup_2).
    specialize (Hrdy n Hin). rewrite app_nil_r in Hrdy. apply Hrdy, missing_zero.
    intros d Hd. apply (Hord i n Hi) in Hd. apply list_elem_of_fmap in Hd as (m & -> & Hm).
    apply list_elem_of_lookup in Hm as [j Hj]. apply lookup_take_Some in Hj as [Hj Hlt].
    by eapply IH. }
  apply NoDup_fmap_1 in Hnd. pose proof (NoDup_fmap_1 _ _ Hids).
  apply NoDup_Permutation; [done..|]. intros n. split; [auto|]. intros Hin.
  assert (Hnl : n ∈ l) by (by rewrite Hl).
  apply list_elem_of_lookup in Hnl as [i Hi]. apply Hall in Hi.
  apply list_elem_of_fmap in Hi as (m & Heq & Hm). rewrite (node_by_id n m); auto.
Qed.

Lemma topological_spec :
  (∃ l, topologicalWorkflowNodes nodes byID = Some (Ok l) ∧ l ≡ₚ nodes ∧ dependency_ordered l) ∨
  (topologicalWorkflowNodes nodes byID = Some (Err ErrWorkflowCycle) ∧
     ¬ ∃ l, l ≡ₚ nodes ∧ dependency_ordered l).
Proof.
  destruct (kahn_total (length nodes) _ _ _ kahn_inv_initial ltac:(lia))
    as (result & indegree & Hk & Hinv).
  unfold topologicalWorkflowNodes. rewrite Hk.
  destruct (Z.eqb_spec (zlen result) (zlen nodes)) as [E|E]; cbn.
  - left. exists result. split; [done|]. split; [|apply Hinv].
    pose proof Hinv as [Hn _ Hnd _ _ _]. rewrite app_nil_r in Hnd. apply NoDup_fmap_1 in Hnd.
    apply submseteq_length_Permutation; [|unfold zlen in E; lia].
    by apply NoDup_submseteq.
  - right. split; [done|]. intros (l & Hl & Hord). apply E.
    unfold zlen. by rewrite (kahn_complete _ _ _ Hinv Hl Hord).
Qed.
End kahn_correct.

(** ** What definition validation establishes *)
Record node_checked (n : WorkflowNodeSpec) : Prop := mk_node_checked {
  nc_id : validIdentity (ws_ID n) = true;
  nc_kind : WorkflowNodeKind_valid (ws_Kind n) = true;
  nc_policy : WorkflowFailurePolicy_valid (ws_FailurePolicy n) = true;
  nc_shape : validWorkflowNodeShape n = true;
  nc_deps : NoDup (ws_DependsOn n);
  nc_deps_valid : ∀ d, d ∈ ws_DependsOn n → validIdentity d = true ∧ d ≠ ws_ID n
}.

Lemma dependencies_ok_spec id seen deps :
  dependencies_ok id seen deps = true →
  NoDup deps ∧ (∀ d, d ∈ deps → d ∉ seen) ∧ ∀ d, d ∈ deps → validIdentity d = true ∧ d ≠ id.
Proof.
  revert seen. induction deps as [|d deps IH]; intros seen; cbn.
  { intros _. split_and!; [constructor|set_solver..]. }
  intros H. bool_hyps. destruct (IH _ ltac:(eassumption)) as (Hnd & Hs & Hv).
  split_and!.
  - constructor; [|done]. intros Hd%Hs. set_solver.
  - set_solver.
  - intros d' [->|Hd']%elem_of_cons; auto.
Qed.

Lemma index_nodes_spec index byID edges nodes nodes' byID' :
  index_nodes index byID edges nodes = Ok (nodes', byID') →
  nodes' = normalize_policy <$> nodes ∧
  (∀ i n, nodes' !! i = Some n → byID' !! ws_ID n = Some (index + i)%nat) ∧
  (∀ id, id ∉ ws_ID <$> nodes' → byID' !! id = byID !! id) ∧
  NoDup (ws_ID <$> nodes') ∧
  ∀ n, n ∈ nodes' → byID !! ws_ID n = None ∧ node_checked n.
Proof.
  revert index byID edges nodes' byID'.
  induction nodes as [|n nodes IH]; intros index byID edges nodes' byID'; cbn [index_nodes].
  { intros [= <- <-]. split_and!; try done; [constructor|set_solver]. }
  destruct (_ || _) eqn:E1; [done|]. destruct (byID !! _) eqn:E2; [done|].
  destruct ((maxWorkflowEdges <? _) || _) eqn:E3; [done|].
  destruct (dependencies_ok _ _ _) eqn:E4; [|done].
  intros ([rest m] & Hrec & [= <- <-])%bind_Ok.
  apply IH in Hrec as (-> & Hby & Hother & Hnd & Hck). bool_hyps.
  destruct (dependencies_ok_spec _ _ _ E4) as (Hd1 & _ & Hd2).
  assert (Hnin : ws_ID (normalize_policy n) ∉ ws_ID <$> (normalize_policy <$> nodes)).
  { intros (n' & Heq & Hin)%list_elem_of_fmap. destruct (Hck n' Hin) as [Hn' _].
    by rewrite <- Heq, lookup_insert_eq in Hn'. }
  cbn [fst snd]. split_and!.
  - done.
  - intros [|i] n'; cbn [lookup list_lookup]; intros Hi.
    + simplify_eq. rewrite Hother by done. rewrite lookup_insert_eq. f_equal. lia.
    + rewrite (Hby i n' Hi). f_equal. lia.
  - intros id. rewrite fmap_cons, not_elem_of_cons. intros [Hne Hid].
    rewrite Hother by done. by apply lookup_insert_ne.
  - rewrite fmap_cons. by constructor.
  - intros n' [->|Hin]%elem_of_cons; [split; [done|]; by constructor|].
    destruct (Hck n' Hin) as [Hn' Hchk]. split; [|done].
    rewrite lookup_insert_ne in Hn'; [done|]. intros Heq. apply Hnin. rewrite Heq.
    by apply list_elem_of_fmap_2.
Qed.

Lemma index_by_id_spec index nodes m :
  NoDup (ws_ID <$> nodes) →
  (∀ i n, nodes !! i = Some n → index_by_id index nodes m !! ws_ID n = Some (index + i)%nat) ∧
  (∀ id, id ∉ ws_ID <$> nodes → index_by_id index nodes m !! id = m !! id).
Proof.
  revert index m. induction nodes as [|n nodes IH]; intros index m Hnd; cbn [index_by_id].
  { split; [|done]. intros i n' Hi. by rewrite lookup_nil in Hi. }
  rewrite fmap_cons in Hnd. apply NoDup_cons in Hnd as [Hn Hnd].
  destruct (IH (S index) (<[ws_ID n := index]> m) Hnd) as [IH1 IH2]. split.
  - intros [|i] n'; cbn [lookup list_lookup]; intros Hi.
    + simplify_eq. rewrite IH2 by done. rewrite lookup_insert_eq. f_equal. lia.
    + rewrite (IH1 i n' Hi). f_equal. lia.
  - intros id. rewrite fmap_cons, not_elem_of_cons. intros [Hne Hid].
    rewrite IH2 by done. by apply lookup_insert_ne.
Qed.

(** The definitions the constructor returns. *)
Record definition_ok (spec : WorkflowDefinitionSpec) (d : WorkflowDefinition) : Prop := mk_definition_ok {
  do_operation : wf_operation d = wd_Operation spec ∧ validOperation (wf_operation d) = true;
  do_version : wf_version d = wd_Version spec ∧ validIdentity (wf_version d) = true;
  do_nodes : wf_nodes d ≡ₚ normalize_policy <$> wd_Nodes spec;
  do_count : 0 < zlen (wf_nodes d) ≤ maxWorkflowNodes;
  do_checked : ∀ n, n ∈ wf_nodes d → node_checked n;
  do_ids : NoDup (ws_ID <$> wf_nodes d);
  do_order : dependency_ordered (wf_nodes d);
  do_index : ∀ i n, wf_nodes d !! i = Some n → wf_byID d !! ws_ID n = Some i;
  do_fingerprint : wf_fingerprint d =
    workflowFingerprint (wd_Operation spec) (wd_Version spec) (normalize_policy <$> wd_Nodes spec)
}.

Lemma NewWorkflowDefinition_cases spec :
  (∃ d, NewWorkflowDefinition spec = Some (Ok d) ∧ definition_ok spec d) ∨
  NewWorkflowDefinition spec = Some (Err ErrInvalidWorkflow) ∨
  (NewWorkflowDefinition spec = Some (Err ErrWorkflowCycle) ∧
     ¬ ∃ l, l ≡ₚ normalize_policy <$> wd_Nodes spec ∧ dependency_ordered l).
Proof.
  unfold NewWorkflowDefinition. destruct (_ || _) eqn:E1; [by eauto|].
  assert (Hie : ∀ nodes index byID edges e,
    index_nodes index byID edges nodes = Err e → e = ErrInvalidWorkflow).
  { induction nodes as [|n nodes IH]; intros index byID edges e; cbn [index_nodes]; [done|].
    repeat case_match; try congruence.
    destruct (index_nodes _ _ _ nodes) eqn:Hr; cbn; [done|]. intros [= <-]. by eapply IH. }
  destruct (index_nodes 0 ∅ 0 (wd_Nodes spec)) as [[nodes byID]|e] eqn:E2.
  2:{ apply Hie in E2 as ->. by eauto. }
  apply index_nodes_spec in E2 as (Hnodes & Hby & _ & Hnd & Hck).
  destruct (dependencies_exist byID nodes); cbn [negb]; [|by auto].
  destruct (topological_spec nodes byID Hnd (λ n Hn, nc_deps _ (proj2 (Hck n Hn))) Hby)
    as [(l & -> & Hl & Hord)|[-> Hno]].
  2:{ right; right. split; [done|]. by rewrite <- Hnodes. }
  left. eexists. split; [done|]. bool_hyps.
  assert (HlNd : NoDup (ws_ID <$> l)) by (by rewrite Hl).
  assert (Hlen : length l = length (wd_Nodes spec)) by (by rewrite Hl, Hnodes, length_fmap).
  constructor; cbn; auto.
  - by rewrite Hl, Hnodes.
  - unfold zlen in *. rewrite Hlen. lia.
  - intros n. rewrite Hl. intros Hn. by apply Hck.
  - apply (index_by_id_spec 0 l ∅ HlNd).
  - by rewrite Hnodes.
Qed.

Lemma NewWorkflowDefinition_ok spec d :
  NewWorkflowDefinition spec = Some (Ok d) → definition_ok spec d.
Proof.
  intros Hnew. destruct (NewWorkflowDefinition_cases spec) as [(d' & H & Hd)|[H|[H _]]];
    rewrite H in Hnew; by simplify_eq.
Qed.

(** building a workflow definition always terminates, and it either rejects a malformed
    definition, or reports a cycle exactly when no order of the nodes puts every node after
    its dependencies, or returns the nodes in such an order: a permutation of the (policy
    normalised) input with distinct valid identities, every dependency earlier in the list,
    and an index that finds every node. *)
Theorem workflow_definition_topological spec :
  match NewWorkflowDefinition spec with
  | None => False
  | Some (Ok d) => definition_ok spec d
  | Some (Err e) =>
      e = ErrInvalidWorkflow ∨
      (e = ErrWorkflowCycle ∧
       ¬ ∃ l, l ≡ₚ normalize_policy <$> wd_Nodes spec ∧ dependency_ordered l)
  end.
Proof. by destruct (NewWorkflowDefinition_cases spec) as [(d & -> & Hd)|[-> |[-> Hno]]]; auto. Qed.

(** ** Joins *)
Lemma count_status_le f states : 0 ≤ count_status f states ≤ zlen states.
Proof.
  unfold count_status, zlen. pose proof (List.filter_length_le f states). lia.
Qed.

Lemma count_status_all f states : count_status f states = zlen states ↔ forallb f states = true.
Proof.
  unfold count_status, zlen. rewrite forallb_forall. split.
  - intros H x Hx. induction states as [|y l IH]; [done|]. cbn in *.
    pose proof (List.filter_length_le f l).
    destruct (f y) eqn:Hy; cbn in H; [|lia]. destruct Hx as [->|Hx]; [done|]. apply IH; [lia|done].
  - intros H. f_equal. f_equal. induction states as [|y l IH]; [done|]. cbn.
    rewrite (H y) by (by left). f_equal. apply IH. intros x Hx. apply H. by right.
Qed.

Lemma count_status_pos f states : 0 < count_status f states ↔ existsb f states = true.
Proof.
  unfold count_status, zlen. induction states as [|y l IH]; cbn; [split; [lia|done]|].
  destruct (f y); cbn; [split; [done|lia]|]. done.
Qed.

Definition join_lost (st : WorkflowNodeStatus) : bool :=
  (st == WorkflowNodeFailed) || (st == WorkflowNodeSkipped).

(** The counters of [EvaluateWorkflowJoin] as quantifiers over the dependencies. *)
Lemma EvaluateWorkflowJoin_spec policy states :
  WorkflowJoinPolicy_valid policy = true → states ≠ [] →
  EvaluateWorkflowJoin policy states =
  match policy with
  | WorkflowJoinAll =>
      if existsb join_lost states then (WorkflowNodeFailed, true)
      else if forallb (λ st, st == WorkflowNodeSucceeded) states
      then (WorkflowNodeSucceeded, true) else (WorkflowNodePending, false)
  | _ =>
      if existsb (λ st, st == WorkflowNodeSucceeded) states then (WorkflowNodeSucceeded, true)
      else if forallb WorkflowNodeStatus_Terminal states
      then (WorkflowNodeFailed, true) else (WorkflowNodePending, false)
  end.
Proof.
  intros Hp Hne. unfold EvaluateWorkflowJoin. rewrite Hp. cbn [negb orb].
  rewrite (proj2 (Z.eqb_neq (zlen states) 0)) by (destruct states; [done|unfold zlen; cbn; lia]).
  assert (Hpos : ∀ f, (0 <? count_status f states) = existsb f states).
  { intros f. apply Bool.eq_iff_eq_true. rewrite Z.ltb_lt. apply count_status_pos. }
  assert (Hall : ∀ f, (count_status f states =? zlen states) = forallb f states).
  { intros f. apply Bool.eq_iff_eq_true. rewrite Z.eqb_eq. apply count_status_all. }
  destruct policy; rewrite ?Hpos, ?Hall; done.
Qed.

(** Dependencies evolve: terminal statuses stay, the others may become anything. *)
Definition evolves (st st' : WorkflowNodeStatus) : Prop :=
  WorkflowNodeStatus_Terminal st = true → st' = st.

Lemma existsb_evolves f states states' :
  (∀ st, f st = true → WorkflowNodeStatus_Terminal st = true) →
  Forall2 evolves states states' → existsb f states = true → existsb f states' = true.
Proof.
  intros Hf. induction 1 as [|a b l l' Hab _ IH]; [done|]. cbn.
  destruct (f a) eqn:Ha; cbn.
  - rewrite (Hab (Hf _ Ha)), Ha. done.
  - intros H%IH. rewrite H. apply orb_true_r.
Qed.

Lemma forallb_evolves f states states' :
  (∀ st, f st = true → WorkflowNodeStatus_Terminal st = true) →
  Forall2 evolves states states' → forallb f states = true → states' = states.
Proof.
  intros Hf. induction 1 as [|a b l l' Hab _ IH]; [done|]. cbn. intros H. bool_hyps.
  f_equal; auto.
Qed.

Lemma succeeded_terminal st :
  (st == WorkflowNodeSucceeded) = true → WorkflowNodeStatus_Terminal st = true.
Proof. intros ?. by bool_hyps; subst. Qed.

Lemma join_lost_terminal st : join_lost st = true → WorkflowNodeStatus_Terminal st = true.
Proof. by destruct st. Qed.

(** join decisions are final: once the dependencies decide a Join node (ALL or ANY), no
    later progress of the still-running dependencies changes the decision. *)
Theorem join_decision_stable policy states states' status :
  EvaluateWorkflowJoin policy states = (status, true) → Forall2 evolves states states' →
  EvaluateWorkflowJoin policy states' = (status, true).
Proof.
  intros HE Hev. destruct (WorkflowJoinPolicy_valid policy) eqn:Hp.
  2:{ unfold EvaluateWorkflowJoin in *. by rewrite Hp in *. }
  destruct (decide (states = [])) as [->|Hne].
  { apply Forall2_nil_inv_l in Hev as ->. done. }
  assert (Hne' : states' ≠ []) by (intros ->; by apply Forall2_nil_inv_r in Hev).
  rewrite EvaluateWorkflowJoin_spec in * by done.
  destruct policy; cbn in Hp |- *.
  - destruct (existsb join_lost states) eqn:E1.
    + rewrite (existsb_evolves join_lost states states' join_lost_terminal Hev E1). done.
    + destruct (forallb _ states) eqn:E2; [|done].
      rewrite (forallb_evolves _ states states' succeeded_terminal Hev E2), E1, E2. done.
  - destruct (existsb _ states) eqn:E1.
    + rewrite (existsb_evolves _ states states' succeeded_terminal Hev E1). done.
    + destruct (forallb _ states) eqn:E2; [|done].
      rewrite (forallb_evolves WorkflowNodeStatus_Terminal states states' (λ _ H, H) Hev E2), E1, E2. done.
  - done.
Qed.

(** ** Canonical fingerprints *)
Record spec_equiv (a b : WorkflowNodeSpec) : Prop := mk_spec_equiv {
  se_fields : ws_ID a = ws_ID b ∧ ws_Kind a = ws_Kind b ∧ ws_Operation a = ws_Operation b ∧
    ws_Join a = ws_Join b ∧ ws_FailurePolicy a = ws_FailurePolicy b ∧ ws_Delay a = ws_Delay b;
  se_deps : ws_DependsOn a ≡ₚ ws_DependsOn b
}.

Lemma sort_strings_canonical l l' : l ≡ₚ l' → sort_strings l = sort_strings l'.
Proof.
  intros H. apply (StronglySorted_unique String.le); [apply sort_strings_sorted..|].
  by rewrite !sort_strings_perm.
Qed.

Lemma spec_equiv_sort a b : spec_equiv a b → sort_dependencies a = sort_dependencies b.
Proof.
  intros [(H1 & H2 & H3 & H4 & H5 & H6) Hd]. unfold sort_dependencies.
  by rewrite H1, H2, H3, H4, H5, H6, (sort_strings_canonical _ _ Hd).
Qed.

#[export] Instance node_le_trans : Transitive node_le.
Proof. intros a b c. unfold node_le. by etrans. Qed.
#[export] Instance node_le_total : Total node_le.
Proof. intros a b. apply (total String.le). Qed.

Lemma canonical_nodes_sorted nodes : StronglySorted node_le (canonical_nodes nodes).
Proof.
  unfold canonical_nodes. eapply (StronglySorted_fmap sort_dependencies node_le node_le); [done|].
  apply StronglySorted_merge_sort; apply _.
Qed.

Lemma canonical_nodes_perm nodes : canonical_nodes nodes ≡ₚ sort_dependencies <$> nodes.
Proof. unfold canonical_nodes. by rewrite (merge_sort_Permutation node_le nodes). Qed.

Lemma canonical_nodes_unique nodes nodes' :
  NoDup (ws_ID <$> nodes) → sort_dependencies <$> nodes ≡ₚ sort_dependencies <$> nodes' →
  canonical_nodes nodes = canonical_nodes nodes'.
Proof.
  intros Hnd Hp. assert (Hp' : canonical_nodes nodes ≡ₚ canonical_nodes nodes')
    by (by rewrite !canonical_nodes_perm).
  apply (StronglySorted_unique_strong node_le); [|apply canonical_nodes_sorted..|done].
  intros a b Ha Hb Hab Hba. rewrite <- Hp' in Hb.
  assert (Hids : NoDup (ws_ID <$> canonical_nodes nodes)).
  { rewrite canonical_nodes_perm, <- list_fmap_compose. done. }
  apply list_elem_of_lookup in Ha as [i Hi]. apply list_elem_of_lookup in Hb as [j Hj].
  assert (Heq : ws_ID a = ws_ID b) by (by apply (anti_symm String.le)).
  assert (i = j); [|congruence].
  eapply NoDup_lookup; [exact Hids| |]; rewrite list_lookup_fmap; [by rewrite Hi|].
  rewrite Hj. cbn. congruence.
Qed.

(** C40: the definition fingerprint does not depend on the order in which nodes are listed or
    on the order of any node's dependency list, so two spellings of one DAG are the same
    frozen version. *)
Theorem fingerprint_canonical operation version nodes mid nodes' :
  NoDup (ws_ID <$> nodes) → nodes ≡ₚ mid → Forall2 spec_equiv mid nodes' →
  workflowFingerprint operation version nodes = workflowFingerprint operation version nodes'.
Proof.
  intros Hnd Hp Heq. unfold workflowFingerprint.
  rewrite (canonical_nodes_unique nodes nodes'); [done|done|].
  rewrite Hp. enough (sort_dependencies <$> mid = sort_dependencies <$> nodes') as -> by done.
  clear Hp. induction Heq as [|a b l l' Hab _ IH]; cbn; [done|].
  f_equal; [by apply spec_equiv_sort|apply IH].
Qed.

(** ** Derived child identities *)
Lemma wf_child_valid l : validIdentity ("wf-child-" +:+ hex_encode (sha256 l)) = true.
Proof.
  destruct (hex_sha256_graphic l) as [Hg Hl]. apply valid_text_graphic.
  - by destruct (hex_encode (sha256 l)).
  - rewrite slen_app, Hl. done.
  - rewrite bytes_of_app. apply Forall_app. split; [|done]. by repeat constructor.
Qed.

Lemma DeriveChildCallID_Ok parent nodeID attempt :
  validIdentity parent = true → validIdentity nodeID = true → attempt ≠ 0 →
  ∃ id, DeriveChildCallID parent nodeID attempt = Ok id ∧ validIdentity id = true.
Proof.
  intros Hp Hn Ha. unfold DeriveChildCallID. rewrite Hp, Hn, (proj2 (Z.eqb_neq _ _) Ha).
  cbn [negb orb]. unfold NewCallID. rewrite wf_child_valid. eauto using wf_child_valid.
Qed.

(** ** The planner never leaves a live workflow without work *)

(** The durable state belongs to the definition, and every node is pending or finished by
    itself (nothing is running, waiting or skipped). *)
Record settled (d : WorkflowDefinition) (state : workflowSnapshotState) : Prop := mk_settled {
  st_valid : validateWorkflowState (Some state) = None;
  st_version : w_Version state = wf_version d;
  st_fingerprint : w_Fingerprint state = wf_fingerprint d;
  st_size : map_len (w_Nodes state) = zlen (wf_nodes d);
  st_nodes : ∀ n, n ∈ wf_nodes d → ∃ node, w_Nodes state !! ws_ID n = Some node ∧
    n_Kind node = ws_Kind n ∧ 0 ≤ n_Attempt node ≤ maxWorkflowAttempt ∧
    n_Status node ∈ [WorkflowNodePending; WorkflowNodeSucceeded; WorkflowNodeFailed]
}.

Lemma plan_nodes_Ok state parent specs cmds :
  plan_nodes state parent specs = Ok cmds →
  ∀ n, n ∈ specs → ∃ c, plan_node state parent n = Ok c ∧ ∀ x, x ∈ c → x ∈ cmds.
Proof.
  revert cmds. induction specs as [|s specs IH]; intros cmds; cbn [plan_nodes]; [set_solver|].
  intros (c & Hc & (cs & Hcs & [= <-])%bind_Ok)%bind_Ok n [->|Hin]%elem_of_cons.
  - exists c. split; [done|]. set_solver.
  - destruct (IH cs Hcs n Hin) as (c' & Hc' & Hsub). exists c'. split; [done|]. set_solver.
Qed.

Lemma plan_nodes_total state parent specs :
  (∀ n, n ∈ specs → ∃ c, plan_node state parent n = Ok c) →
  ∃ cmds, plan_nodes state parent specs = Ok cmds.
Proof.
  induction specs as [|s specs IH]; intros H; cbn [plan_nodes]; [eauto|].
  destruct (H s ltac:(set_solver)) as [c Hc]. destruct IH as [cs Hcs]; [set_solver|].
  exists (c ++ cs). by rewrite Hc; cbn; rewrite Hcs.
Qed.

Lemma plan_node_total state parent n node :
  w_Nodes state !! ws_ID n = Some node → n_Kind node = ws_Kind n →
  0 ≤ n_Attempt node ≤ maxWorkflowAttempt → node_checked n → validIdentity parent = true →
  ∃ c, plan_node state parent n = Ok c.
Proof.
  intros Hl Hk Ha Hck Hp. unfold plan_node. rewrite Hl, bool_decide_true by done. cbn [negb].
  destruct (n_Status node != WorkflowNodePending); [eauto|]. cbv zeta.
  destruct (ws_Kind n == WorkflowNodeJoin).
  { destruct (EvaluateWorkflowJoin _ _). eauto. }
  repeat (match goal with |- context [if ?b then _ else _] => destruct b; [eauto|] end).
  destruct (ws_Kind n); eauto.
  rewrite u32_add_small by (unfold maxWorkflowAttempt, max_u32 in *; lia).
  destruct (DeriveChildCallID_Ok parent (ws_ID n) (n_Attempt node + 1)) as (id & -> & _);
    [done|apply Hck|lia|]. cbn. eauto.
Qed.

(** A pending node whose dependencies are all decided gets a command. *)
Lemma plan_node_ready state parent n node :
  w_Nodes state !! ws_ID n = Some node → n_Status node = WorkflowNodePending →
  n_Kind node = ws_Kind n → node_checked n →
  (∀ d, d ∈ ws_DependsOn n → node_status state d ∈ [WorkflowNodeSucceeded; WorkflowNodeFailed]) →
  plan_node state parent n ≠ Ok [].
Proof.
  intros Hl Hst Hk Hck Hdeps. unfold plan_node.
  rewrite Hl, (bool_decide_true (n_Kind node = _)) by done.
  rewrite (bool_decide_true (n_Status node = _)) by done. cbn [negb]. cbv zeta.
  set (deps := node_status state <$> ws_DependsOn n).
  assert (Hd : ∀ st, st ∈ deps → st = WorkflowNodeSucceeded ∨ st = WorkflowNodeFailed).
  { intros st (d & -> & Hd%Hdeps)%list_elem_of_fmap. set_solver. }
  assert (Hterm : forallb WorkflowNodeStatus_Terminal deps = true).
  { apply forallb_forall. intros st Hin%list_elem_of_In. by destruct (Hd st Hin) as [-> | ->]. }
  destruct (ws_Kind n == WorkflowNodeJoin) eqn:Hj; bool_hyps.
  - pose proof (nc_shape _ Hck) as Hsh. unfold validWorkflowNodeShape in Hsh. rewrite Hj in Hsh.
    bool_hyps. rewrite EvaluateWorkflowJoin_spec; [|done|].
    2:{ unfold deps. destruct (ws_DependsOn n); done. }
    assert (Hbad : existsb join_lost deps = false → forallb (λ st, st == WorkflowNodeSucceeded) deps = true).
    { intros Hb. apply forallb_forall. intros st Hin.
      destruct (Hd st ltac:(by apply list_elem_of_In)) as [-> | ->]; [done|].
      exfalso. eapply existsb_exists_false; eauto. }
    destruct (ws_Join n).
    + destruct (existsb join_lost deps); [done|]. by rewrite Hbad.
    + rewrite Hterm. by match goal with |- context [if ?b then _ else _] => destruct b end.
    + rewrite Hterm. by match goal with |- context [if ?b then _ else _] => destruct b end.
  - destruct (existsb _ deps && _) eqn:Hf; [done|].
    assert (Hgo : forallb (λ st, st == WorkflowNodeSucceeded) deps = true ∨
                  ws_FailurePolicy n = WorkflowContinue).
    { pose proof (nc_policy _ Hck) as Hpol. apply orb_true_iff in Hpol as [Hpol|Hpol]; bool_hyps.
      - left. rewrite Hpol, bool_decide_true, andb_true_r in Hf by done.
        apply forallb_forall. intros st Hin.
        destruct (Hd st ltac:(by apply list_elem_of_In)) as [-> | ->]; [done|].
        exfalso. eapply existsb_exists_false; eauto.
      - by right. }
    assert (Hskip : (0 <? zlen (ws_DependsOn n)) &&
      negb (forallb (λ st, st == WorkflowNodeSucceeded) deps) &&
      ((ws_FailurePolicy n != WorkflowContinue) || negb (forallb WorkflowNodeStatus_Terminal deps)) = false).
    { rewrite Hterm. destruct Hgo as [-> | ->]; cbn.
      - by rewrite andb_false_r. - by rewrite andb_false_r. }
    rewrite Hskip. destruct (ws_Kind n); try done. by destruct (DeriveChildCallID _ _ _).
Qed.

(** A node with no dependents exists in every dependency-ordered list. *)
Lemma last_is_sink l n :
  NoDup (ws_ID <$> l) → dependency_ordered l → last l = Some n →
  ws_ID n ∉ (l ≫= ws_DependsOn).
Proof.
  intros Hnd Hord Hlast Hin. rewrite last_lookup in Hlast.
  apply list_elem_of_bind in Hin as (m & Hd & Hm). apply list_elem_of_lookup in Hm as [j Hj].
  apply (Hord j m Hj) in Hd. apply list_elem_of_lookup in Hd as [i Hi].
  rewrite list_lookup_fmap, fmap_Some in Hi. destruct Hi as (n' & Hi & Heq).
  apply lookup_take_Some in Hi as [Hi Hlt]. pose proof (lookup_lt_Some _ _ _ Hj).
  assert (i = pred (length l)); [|lia].
  apply (NoDup_lookup _ _ _ (ws_ID n) Hnd); rewrite list_lookup_fmap.
  - by rewrite Hi, Heq.
  - by rewrite Hlast.
Qed.

Lemma outcome_loop_terminal dependent state specs sinks failed :
  (∀ n, n ∈ specs → WorkflowNodeStatus_Terminal (node_status state (ws_ID n)) = true) →
  0 < sinks ∨ (∃ n, n ∈ specs ∧ ws_ID n ∉ dependent) → 0 ≤ sinks →
  fst (outcome_loop dependent state specs sinks failed) = true.
Proof.
  revert sinks failed. induction specs as [|n specs IH]; intros sinks failed Hall Hs H0; cbn.
  { apply Z.ltb_lt. destruct Hs as [Hs|(n & Hn & _)]; [done|set_solver]. }
  case_bool_decide as Hd.
  - apply IH; [set_solver| |done]. destruct Hs as [Hs|(m & [->|Hm]%elem_of_cons & Hnd)]; [by left|done|].
    right. eauto.
  - rewrite (Hall n) by set_solver. cbn. apply IH; [set_solver| |lia]. left. lia.
Qed.

Lemma outcome_terminal d state :
  NoDup (ws_ID <$> wf_nodes d) → dependency_ordered (wf_nodes d) → wf_nodes d ≠ [] →
  (∀ n, n ∈ wf_nodes d → WorkflowNodeStatus_Terminal (node_status state (ws_ID n)) = true) →
  fst (workflowDefinitionOutcome d state) = true.
Proof.
  intros Hnd Hord Hne Hall. unfold workflowDefinitionOutcome.
  apply outcome_loop_terminal; [done| |done]. right.
  destruct (last (wf_nodes d)) as [n|] eqn:Hlast; [|by apply last_None in Hlast].
  exists n. split; [by eapply last_Some_elem_of|].
  rewrite elem_of_list_to_set. by apply last_is_sink.
Qed.

Lemma planner_never_stuck spec d state parent :
  definition_ok spec d → settled d state → validIdentity parent = true →
  ∃ commands, planWorkflowForParent d state parent = Ok commands ∧
    (commands = [] → fst (workflowDefinitionOutcome d state) = true).
Proof.
  intros Hok Hs Hp.
  destruct (plan_nodes_total state parent (wf_nodes d)) as [cmds Hcmds].
  { intros n Hn. destruct (st_nodes _ _ Hs n Hn) as (node & Hl & Hk & Ha & _).
    eapply plan_node_total; eauto. by apply (do_checked _ _ Hok). }
  exists cmds. split.
  { unfold planWorkflowForParent. destruct Hs as [H1 H2 H3 H4 _].
    rewrite (bool_decide_true _ H1), (bool_decide_true _ H2), (bool_decide_true _ H3).
    by rewrite (proj2 (Z.eqb_eq _ _) H4). }
  intros ->. pose proof (do_count _ _ Hok) as Hcount.
  apply outcome_terminal; [apply Hok..| |].
  { intros Hnil. rewrite Hnil in Hcount. unfold zlen in Hcount. cbn in Hcount. lia. }
  enough (Hall : ∀ i n, wf_nodes d !! i = Some n →
    node_status state (ws_ID n) ∈ [WorkflowNodeSucceeded; WorkflowNodeFailed]).
  { intros n [i Hi]%list_elem_of_lookup. apply Hall in Hi.
    destruct (node_status state (ws_ID n)); set_solver. }
  intros i. induction (lt_wf i) as [i _ IH]. intros n Hi.
  assert (Hn : n ∈ wf_nodes d) by (by eapply list_elem_of_lookup_2).
  destruct (st_nodes _ _ Hs n Hn) as (node & Hl & Hk & _ & Hst).
  assert (Hns : node_status state (ws_ID n) = n_Status node) by (unfold node_status; by rewrite Hl).
  rewrite Hns. destruct (decide (n_Status node = WorkflowNodePending)) as [Hpend|]; [|set_solver].
  exfalso. destruct (plan_nodes_Ok _ _ _ _ Hcmds n Hn) as (c & Hc & Hsub).
  assert (c = []) as ->. { destruct c as [|x c]; [done|]. specialize (Hsub x). set_solver. }
  revert Hc. eapply plan_node_ready; eauto; [by apply (do_checked _ _ Hok)|].
  intros dep Hdep. apply (do_order _ _ Hok i n Hi) in Hdep.
  apply list_elem_of_fmap in Hdep as (m & -> & [j Hj]%list_elem_of_lookup).
  apply lookup_take_Some in Hj as [Hj Hlt]. by eapply IH.
Qed.

(** C34: a workflow cannot get stuck.  For a definition the constructor accepted and a durable
    state that belongs to it, in which no node is running, waiting or skipped, the planner
    never fails, and if it plans nothing then the definition's outcome is decided: some node
    is always runnable, joinable or propagates a failure until every node is terminal. *)
Theorem workflow_never_stuck spec d state parent :
  NewWorkflowDefinition spec = Some (Ok d) → settled d state → validIdentity parent = true →
  ∃ commands, planWorkflowForParent d state parent = Ok commands ∧
    (commands = [] → fst (workflowDefinitionOutcome d state) = true).
Proof. intros Hok%NewWorkflowDefinition_ok. by eapply planner_never_stuck. Qed.

(** ** New workflow calls *)
Lemma pending_nodes_lookup (specs : list WorkflowNodeSpec) (m : gmap string workflowNodeState) :
  NoDup (ws_ID <$> specs) →
  let m' := fold_left (λ m spec, <[ws_ID spec := pending_node spec]> m) specs m in
  (∀ n, n ∈ specs → m' !! ws_ID n = Some (pending_node n)) ∧
  (∀ id, id ∉ ws_ID <$> specs → m' !! id = m !! id).
Proof.
  revert m. induction specs as [|s specs IH]; intros m Hnd; [split; [set_solver|done]|].
  rewrite fmap_cons, NoDup_cons in Hnd. destruct Hnd as [Hs Hnd].
  destruct (IH (<[ws_ID s := pending_node s]> m) Hnd) as [H1 H2]. cbn [fold_left]. split.
  - intros n [->|Hn]%elem_of_cons; [|by apply H1]. rewrite H2 by done. apply lookup_insert_eq.
  - intros id Hid. rewrite fmap_cons, not_elem_of_cons in Hid. destruct Hid as [Hne Hid].
    rewrite H2 by done. by apply lookup_insert_ne.
Qed.

Lemma pending_nodes_size (specs : list WorkflowNodeSpec) (m : gmap string workflowNodeState) :
  NoDup (ws_ID <$> specs) → (∀ n, n ∈ specs → m !! ws_ID n = None) →
  size (fold_left (λ m spec, <[ws_ID spec := pending_node spec]> m) specs m) =
  (size m + length specs)%nat.
Proof.
  revert m. induction specs as [|s specs IH]; intros m Hnd Hm; cbn [fold_left length]; [lia|].
  rewrite fmap_cons, NoDup_cons in Hnd. destruct Hnd as [Hs Hnd]. rewrite IH; [|done|].
  - rewrite map_size_insert_None by (apply Hm; set_solver). lia.
  - intros n Hn. rewrite lookup_insert_ne; [apply Hm; set_solver|].
    intros Heq. apply Hs. rewrite Heq. by apply list_elem_of_fmap_2.
Qed.

Lemma new_state_settled spec d startedAt :
  definition_ok spec d → 0 < startedAt → settled d (newWorkflowSnapshotState d startedAt).
Proof.
  intros Hok Ht. destruct (pending_nodes_lookup (wf_nodes d) ∅ (do_ids _ _ Hok)) as [Hin Hout].
  assert (Hsize : map_len (w_Nodes (newWorkflowSnapshotState d startedAt)) = zlen (wf_nodes d)).
  { unfold map_len, zlen. cbn [newWorkflowSnapshotState w_Nodes].
    rewrite pending_nodes_size; [by rewrite map_size_empty|apply Hok|].
    intros. apply lookup_empty. }
  constructor; [|done..|exact Hsize|].
  - pose proof (do_count _ _ Hok) as Hcount. unfold validateWorkflowState. rewrite Hsize.
    cbn [newWorkflowSnapshotState w_Version w_Fingerprint w_StartedAt w_Nodes].
    rewrite (proj2 (do_version _ _ Hok)), (do_fingerprint _ _ Hok). unfold workflowFingerprint.
    rewrite (proj2 (hex_sha256_graphic _)), hex_sha256_decodable.
    rewrite normalizeReadyAt_idem, (Z.eqb_refl (normalizeReadyAt startedAt)).
    assert (IsZero (normalizeReadyAt startedAt) = false) as ->.
    { unfold IsZero, normalizeReadyAt, IsZero, microsecond. rewrite (proj2 (Z.eqb_neq startedAt 0)) by lia.
      pose proof (Z.div_pos startedAt 1000). case_match; apply Z.eqb_neq; bool_hyps; lia. }
    rewrite (proj2 (Z.eqb_neq (zlen _) 0)), (proj2 (Z.ltb_ge maxWorkflowNodes _)) by lia. cbn [negb orb Z.eqb Pos.eqb].
    rewrite (proj2 (map_forallb_spec _ _)); [done|]. intros id node Hl.
    destruct (decide (id ∈ ws_ID <$> wf_nodes d)) as [(n & -> & Hn)%list_elem_of_fmap|Hid].
    + rewrite (Hin n Hn) in Hl. injection Hl as <-. apply (do_checked _ _ Hok) in Hn.
      unfold invalid_node, pending_node. cbn [n_ID n_Kind n_Status n_Attempt n_FailureClass n_ReadyAt n_ChildCallID].
      rewrite (nc_id _ Hn), (nc_kind _ Hn), (bool_decide_true (ws_ID n = ws_ID n)) by done.
      by destruct (ws_Kind n).
    + by rewrite (Hout id Hid), lookup_empty in Hl.
  - intros n Hn. exists (pending_node n). split; [by apply Hin|]. cbn. split; [done|].
    unfold maxWorkflowAttempt. split; [lia|set_solver].
Qed.

(** a workflow call can always be started.  For an accepted definition, a valid call
    identity, an input within the payload limit and a start time after the zero time, the
    constructor returns a valid snapshot at revision 1 that carries the input as its first
    frame and a durable workflow state bound to the definition with every node pending. *)
Theorem new_workflow_starts spec d callID input startedAt :
  NewWorkflowDefinition spec = Some (Ok d) → validIdentity callID = true →
  slen input ≤ maxPayloadBytes → 0 < startedAt →
  ∃ s w, newWorkflowSnapshot callID d input startedAt = Ok s ∧ validateSnapshot s = None ∧
    s_revision s = 1 ∧ Input s = Some input ∧ s_workflow s = Some w ∧ settled d w ∧
    (∀ n, n ∈ wf_nodes d → node_status w (ws_ID n) = WorkflowNodePending).
Proof.
  intros Hnew Hid Hin Ht. pose proof (NewWorkflowDefinition_ok _ _ Hnew) as Hok.
  pose proof (new_state_settled _ _ _ Hok Ht) as Hset.
  unfold newWorkflowSnapshot, NewSnapshotWithInput, NewSnapshot, NewFrame.
  unfold IsZero at 1. rewrite (proj2 (Z.eqb_neq startedAt 0)) by lia.
  rewrite Hid, (proj2 (do_operation _ _ Hok)), (proj2 (Z.ltb_ge maxPayloadBytes _)) by lia.
  cbn -[newWorkflowSnapshotState validateSnapshot].
  match goal with |- context [from_nil (validateSnapshot ?s) _] => set (snap := s) end.
  assert (Hv : validateSnapshot snap = None).
  { apply validateSnapshot_spec; [unfold snapshot_u64, is_u64, max_u64; cbn; lia|].
    constructor; cbn -[newWorkflowSnapshotState validateWorkflowState]; try done.
    - apply (do_operation _ _ Hok).
    - apply (st_valid _ _ Hset).
    - by left.
    - intros i f. destruct i; [|done]. intros [= <-]. unfold frame_ok; cbn. auto with lia. }
  exists snap, (newWorkflowSnapshotState d startedAt). rewrite Hv. split_and!; try done.
  intros n Hn. destruct (pending_nodes_lookup (wf_nodes d) ∅ (do_ids _ _ Hok)) as [Hl _].
  unfold node_status. cbn [newWorkflowSnapshotState w_Nodes]. by rewrite (Hl n Hn).
Qed.

(** * Concrete workflow *)
Definition ex_spec : WorkflowDefinitionSpec :=
  mkDefinitionSpec "/orders/Flow" "v1"
    [mkSpec "join" WorkflowNodeJoin "" ["charge"; "wait"] WorkflowJoinAll (WorkflowFailureOther "") 0;
     mkSpec "charge" WorkflowNodeChild "/pay/Charge" [] (WorkflowJoinOther "") WorkflowContinue 0;
     mkSpec "wait" WorkflowNodeTimer "" ["charge"] (WorkflowJoinOther "") WorkflowFailFast second].
Definition ex_definition : WorkflowDefinition :=
  match NewWorkflowDefinition ex_spec with
  | Some (Ok d) => d
  | _ => mkDefinition "" "" "" [] ∅
  end.
Definition ex_state : workflowSnapshotState := newWorkflowSnapshotState ex_definition second.

Example ex_order : ws_ID <$> wf_nodes ex_definition = ["charge"; "wait"; "join"].
Proof. vm_compute. reflexivity. Qed.

Lemma ex_accepted : NewWorkflowDefinition ex_spec = Some (Ok ex_definition).
Proof. vm_compute. reflexivity. Qed.

Lemma join_decision_stable_witness :
  EvaluateWorkflowJoin WorkflowJoinAny [WorkflowNodeSucceeded; WorkflowNodeFailed] =
  (WorkflowNodeSucceeded, true).
Proof.
  apply (join_decision_stable WorkflowJoinAny [WorkflowNodeSucceeded; WorkflowNodeRunning]).
  - vm_compute. reflexivity.
  - repeat constructor; done.
Defined.

Lemma fingerprint_canonical_witness :
  workflowFingerprint "/orders/Flow" "v1" (wd_Nodes ex_spec) =
  workflowFingerprint "/orders/Flow" "v1" (reverse (wd_Nodes ex_spec)).
Proof.
  apply (fingerprint_canonical _ _ _ (reverse (wd_Nodes ex_spec))).
  - apply (bool_decide_eq_true_1 _). vm_compute. reflexivity.
  - symmetry. apply reverse_Permutation.
  - repeat constructor.
Defined.

Lemma workflow_never_stuck_witness :
  ∃ commands, planWorkflowForParent ex_definition ex_state "call-1" = Ok commands ∧
    (commands = [] → fst (workflowDefinitionOutcome ex_definition ex_state) = true).
Proof.
  apply (workflow_never_stuck ex_spec).
  - apply ex_accepted.
  - eapply new_state_settled; [apply (NewWorkflowDefinition_ok _ _ ex_accepted)|done].
  - vm_compute. reflexivity.
Defined.

Lemma new_workflow_starts_witness :
  ∃ s w, newWorkflowSnapshot "call-1" ex_definition "in" second = Ok s ∧
    validateSnapshot s = None ∧ s_revision s = 1 ∧ Input s = Some "in" ∧ s_workflow s = Some w ∧
    settled ex_definition w ∧
    (∀ n, n ∈ wf_nodes ex_definition → node_status w (ws_ID n) = WorkflowNodePending).
Proof.
  apply (new_workflow_starts ex_spec); [apply ex_accepted|vm_compute; reflexivity|done|done].
Defined.
