(* ===== verification/Codec.v ===== *)
(** * programmable/continuation: the durable snapshot format

    Models [codec.go] and the wire form of workflow state in [workflow.go].  A snapshot is
    written as a JSON document with a version and a SHA-256 checksum over version and content,
    and read back through a shape check, a strict decoder, the checksum and the snapshot
    validation.  Encoded documents are byte lists.  The decoder runs on the parsed [jvalue]: a
    missing field and a JSON null both leave the zero value, which is what [encoding/json] does,
    and the shape check has already refused unknown, missing and repeated names. *)
From S2P Require Import Prelude GoText GoJson Sha256 GoDecode GoTime ContModel ContState ContWorkflow.
Open Scope Z_scope.

Definition legacySnapshotCodecVersion : string := "v1".
Definition retainedSnapshotCodecVersion : string := "v2".
Definition timerSnapshotCodecVersion : string := "v3".
Definition snapshotCodecVersion : string := "v4".
Definition maxEncodedSnapshotSize : Z := 4 * 1024 * 1024.

Inductive codec_error :=
| ErrInvalidSnapshotEncoding | ErrUnsupportedSnapshotVersion | ErrSnapshotChecksum | ErrSnapshotTooLarge.

(** ** Enumerations as text *)
Definition Status_of (s : string) : Status :=
  if s == "accepted" then StatusAccepted else if s == "running" then StatusRunning
  else if s == "waiting" then StatusWaiting else if s == "suspended" then StatusSuspended
  else if s == "cancel_requested" then StatusCancelRequested else if s == "completed" then StatusCompleted
  else if s == "failed" then StatusFailed else if s == "canceled" then StatusCanceled
  else if s == "expired" then StatusExpired else StatusOther s.

Definition FrameKind_of (s : string) : FrameKind :=
  if s == "accepted" then FrameAccepted else if s == "event" then FrameEvent
  else if s == "waiting" then FrameWaiting else if s == "signal" then FrameSignal
  else if s == "suspended" then FrameSuspended else if s == "cancel_requested" then FrameCancelRequested
  else if s == "completed" then FrameCompleted else if s == "failed" then FrameFailed
  else if s == "canceled" then FrameCanceled else if s == "expired" then FrameExpired
  else if s == "workflow_child" then FrameWorkflowChild else FrameOther s.

Definition commandKind_string (k : commandKind) : string :=
  match k with
  | commandNone => "" | commandSignal => "signal" | commandCancel => "cancel" | commandOther raw => raw
  end.
Definition commandKind_of (s : string) : commandKind :=
  if s == "" then commandNone else if s == "signal" then commandSignal
  else if s == "cancel" then commandCancel else commandOther s.

Definition WorkflowNodeKind_of (s : string) : WorkflowNodeKind :=
  if s == "machine" then WorkflowNodeMachine else if s == "timer" then WorkflowNodeTimer
  else if s == "child" then WorkflowNodeChild else if s == "join" then WorkflowNodeJoin
  else WorkflowNodeKindOther s.

Definition WorkflowNodeStatus_string (st : WorkflowNodeStatus) : string :=
  match st with
  | WorkflowNodePending => "pending" | WorkflowNodeRunning => "running" | WorkflowNodeWaiting => "waiting"
  | WorkflowNodeSucceeded => "succeeded" | WorkflowNodeFailed => "failed" | WorkflowNodeSkipped => "skipped"
  | WorkflowNodeStatusOther raw => raw
  end.
Definition WorkflowNodeStatus_of (s : string) : WorkflowNodeStatus :=
  if s == "pending" then WorkflowNodePending else if s == "running" then WorkflowNodeRunning
  else if s == "waiting" then WorkflowNodeWaiting else if s == "succeeded" then WorkflowNodeSucceeded
  else if s == "failed" then WorkflowNodeFailed else if s == "skipped" then WorkflowNodeSkipped
  else WorkflowNodeStatusOther s.

(** ** Wire records *)

(** [fw_Payload] is [None] for a nil slice, which prints as [null]. *)
Record frameWire := mkFrameWire { fw_Sequence : Z; fw_Kind : FrameKind; fw_Payload : option string }.
Record commandWire := mkCommandWire { cw_ID : string; cw_Kind : commandKind; cw_Digest : string }.
Record workflowNodeWire := mkNodeWire {
  nw_ID : string;
  nw_Kind : WorkflowNodeKind;
  nw_Status : WorkflowNodeStatus;
  nw_Attempt : Z;
  nw_ChildCallID : string;
  nw_ReadyAt : string;
  nw_FailureClass : string
}.
Record workflowWire := mkWorkflowWire {
  ww_Version : string;
  ww_Fingerprint : string;
  ww_StartedAt : string;
  ww_Nodes : list workflowNodeWire
}.
Record snapshotWire := mkSnapshotWire {
  sw_CallID : string;
  sw_Operation : string;
  sw_Status : Status;
  sw_Revision : Z;
  sw_Fence : Z;
  sw_Sequence : Z;
  sw_FrameFloor : Z;
  sw_ReadyAt : string;
  sw_Workflow : option workflowWire;
  sw_Frames : list frameWire;
  sw_Commands : list commandWire
}.
Record snapshotDocument := mkDocument {
  sd_Version : string;
  sd_Snapshot : option snapshotWire;
  sd_Checksum : string
}.

(** ** To the wire *)

(** The keys of a Go map, collected and sorted. *)
Definition map_ids {A} (m : gmap string A) : list string := sort_strings (elements (dom m)).

Definition formatReadyAt (readyAt : time) : string := if IsZero readyAt then "" else Format readyAt.

Definition workflow_node_to_wire (node : workflowNodeState) : workflowNodeWire :=
  mkNodeWire (n_ID node) (n_Kind node) (n_Status node) (n_Attempt node) (n_ChildCallID node)
    (formatReadyAt (n_ReadyAt node)) (n_FailureClass node).

Definition workflowToWire (state : option workflowSnapshotState) : option workflowWire :=
  state ← state;
  Some (mkWorkflowWire (w_Version state) (w_Fingerprint state) (formatReadyAt (w_StartedAt state))
          (omap (λ id, workflow_node_to_wire <$> w_Nodes state !! id) (map_ids (w_Nodes state)))).

(** [Payload] copies onto a nil slice, so an empty payload is nil. *)
Definition frame_to_wire (frame : Frame) : frameWire :=
  mkFrameWire (f_sequence frame) (f_kind frame) (if f_payload frame == "" then None else Some (f_payload frame)).

Definition command_to_wire (commands : gmap string commandRecord) (id : string) : option commandWire :=
  (λ record, mkCommandWire id (cr_kind record) (hex_encode (cr_digest record))) <$> commands !! id.

Definition snapshotToWire (s : Snapshot) : snapshotWire :=
  mkSnapshotWire (s_callID s) (s_operation s) (s_status s) (s_revision s) (s_fence s) (s_sequence s)
    (s_frameFloor s) (formatReadyAt (s_readyAt s)) (workflowToWire (s_workflow s))
    (frame_to_wire <$> s_frames s) (omap (command_to_wire (s_commands s)) (map_ids (s_commands s))).

(** ** [json.Marshal] of the wire records; [omitempty] fields are left out when empty. *)
Definition json_uint (n : Z) : jvalue := JNum (json_int n).

Definition frame_members (f : frameWire) : list (string * jvalue) :=
  [("sequence", json_uint (fw_Sequence f)); ("kind", JStr (FrameKind_string (fw_Kind f)));
   ("payload", match fw_Payload f with None => JNull | Some p => JStr (base64_encode p) end)].
Definition frame_json (f : frameWire) : jvalue := JObj (frame_members f).

Definition command_members (c : commandWire) : list (string * jvalue) :=
  [("id", JStr (cw_ID c)); ("kind", JStr (commandKind_string (cw_Kind c))); ("digest", JStr (cw_Digest c))].
Definition command_json (c : commandWire) : jvalue := JObj (command_members c).

Definition node_members (n : workflowNodeWire) : list (string * jvalue) :=
  [("id", JStr (nw_ID n)); ("kind", JStr (WorkflowNodeKind_string (nw_Kind n)));
   ("status", JStr (WorkflowNodeStatus_string (nw_Status n))); ("attempt", json_uint (nw_Attempt n));
   ("child_call_id", JStr (nw_ChildCallID n)); ("ready_at", JStr (nw_ReadyAt n));
   ("failure_class", JStr (nw_FailureClass n))].
Definition node_json (n : workflowNodeWire) : jvalue := JObj (node_members n).

Definition workflow_members (w : workflowWire) : list (string * jvalue) :=
  [("version", JStr (ww_Version w)); ("fingerprint", JStr (ww_Fingerprint w));
   ("started_at", JStr (ww_StartedAt w)); ("nodes", JArr (node_json <$> ww_Nodes w))].
Definition workflow_json (w : workflowWire) : jvalue := JObj (workflow_members w).

Definition snapshot_members (s : snapshotWire) : list (string * jvalue) :=
  [("call_id", JStr (sw_CallID s)); ("operation", JStr (sw_Operation s));
   ("status", JStr (Status_string (sw_Status s))); ("revision", json_uint (sw_Revision s));
   ("fence", json_uint (sw_Fence s)); ("sequence", json_uint (sw_Sequence s))] ++
  (if sw_FrameFloor s =? 0 then [] else [("frame_floor", json_uint (sw_FrameFloor s))]) ++
  (if sw_ReadyAt s == "" then [] else [("ready_at", JStr (sw_ReadyAt s))]) ++
  (match sw_Workflow s with None => [] | Some w => [("workflow", workflow_json w)] end) ++
  [("frames", JArr (frame_json <$> sw_Frames s)); ("commands", JArr (command_json <$> sw_Commands s))].
Definition snapshot_json (s : snapshotWire) : jvalue := JObj (snapshot_members s).

Definition document_json (d : snapshotDocument) : jvalue :=
  JObj [("version", JStr (sd_Version d));
        ("snapshot", match sd_Snapshot d with None => JNull | Some s => snapshot_json s end);
        ("checksum", JStr (sd_Checksum d))].

Definition snapshotChecksum (version : string) (canonical : list Z) : string :=
  sha256 (digest_part (bytes_of "continuation-snapshot") ++ digest_part (bytes_of version) ++ digest_part canonical).

Definition MarshalSnapshot (s : Snapshot) : result codec_error (list Z) :=
  if validateSnapshot s != None then Err ErrInvalidSnapshotEncoding
  else
    let wire := snapshotToWire s in
    let canonical := json_print (snapshot_json wire) in
    let checksum := snapshotChecksum snapshotCodecVersion canonical in
    let encoded := json_print (document_json (mkDocument snapshotCodecVersion (Some wire) (hex_encode checksum))) in
    if maxEncodedSnapshotSize <? zlen encoded then Err ErrSnapshotTooLarge else Ok encoded.

(** ** The shape check

    Names are looked up in the member list; [json.RawMessage] values are the parsed values. *)
Definition member (name : string) (members : list (string * jvalue)) : option jvalue :=
  snd <$> List.find (λ m, m.1 == name) members.

Definition hasExactFields (members : list (string * jvalue)) (required : list string) : bool :=
  (zlen members =? zlen required) &&
  forallb (λ field, match member field members with Some _ => true | None => false end) required.

Definition is_null (v : option jvalue) : bool := match v with Some JNull => true | _ => false end.
Definition anyJSONNull (members : list (string * jvalue)) (names : list string) : bool :=
  existsb (λ name, is_null (member name members)) names.

(** [scanJSONValue]: no object repeats a name. *)
Fixpoint scanJSONValue (v : jvalue) : bool :=
  match v with
  | JObj members => bool_decide (NoDup (List.map fst members)) && forallb (λ m, scanJSONValue m.2) members
  | JArr items => forallb scanJSONValue items
  | _ => true
  end.

(** [json.Unmarshal] into a map; null is the nil map. *)
Definition as_object (v : option jvalue) : option (list (string * jvalue)) :=
  match v with Some (JObj members) => Some members | Some JNull => Some [] | _ => None end.
(** [json.Unmarshal] into a slice of maps. *)
Definition as_objects (v : option jvalue) : option (list (list (string * jvalue))) :=
  match v with Some (JArr items) => mapM (λ item, as_object (Some item)) items | Some JNull => Some [] | _ => None end.

Definition node_fields : list string :=
  ["id"; "kind"; "status"; "attempt"; "child_call_id"; "ready_at"; "failure_class"].
Definition workflow_fields : list string := ["version"; "fingerprint"; "started_at"; "nodes"].

Definition exact_objects (v : option jvalue) (fields nonnull : list string) : bool :=
  match as_objects v with
  | Some objects => forallb (λ members, hasExactFields members fields && negb (anyJSONNull members nonnull)) objects
  | None => false
  end.

Definition validateWorkflowJSONShape (v : jvalue) : bool :=
  match as_object (Some v) with
  | Some members =>
      hasExactFields members workflow_fields && negb (anyJSONNull members workflow_fields) &&
      exact_objects (member "nodes" members) node_fields node_fields
  | None => false
  end.

Definition legacyFields : list string :=
  ["call_id"; "operation"; "status"; "revision"; "fence"; "sequence"; "frames"; "commands"].
Definition currentFields : list string := legacyFields ++ ["frame_floor"].
Definition timerFields : list string := currentFields ++ ["ready_at"].
Definition workflowFields : list string := currentFields ++ ["workflow"].
Definition timerWorkflowFields : list string := timerFields ++ ["workflow"].

Definition version_shapes (version : string) : list (list string) :=
  if version == legacySnapshotCodecVersion then [legacyFields]
  else if version == timerSnapshotCodecVersion then [currentFields; timerFields]
  else if version == retainedSnapshotCodecVersion then [currentFields]
  else if version == snapshotCodecVersion then [currentFields; timerFields; workflowFields; timerWorkflowFields]
  else [legacyFields; currentFields; timerFields; workflowFields; timerWorkflowFields].

(** [json.Unmarshal] into a string. *)
Definition as_string (v : option jvalue) : option string :=
  match v with Some (JStr s) => Some s | Some JNull | None => Some "" | _ => None end.

Definition validateSnapshotJSONShape (v : jvalue) : bool :=
  scanJSONValue v &&
  match as_object (Some v) with
  | None => false
  | Some document =>
      hasExactFields document ["version"; "snapshot"; "checksum"] &&
      match as_object (member "snapshot" document), as_string (member "version" document) with
      | Some snapshot, Some version =>
          existsb (hasExactFields snapshot) (version_shapes version) &&
          negb (anyJSONNull document ["version"; "snapshot"; "checksum"]) &&
          negb (anyJSONNull snapshot timerWorkflowFields) &&
          match member "workflow" snapshot with Some raw => validateWorkflowJSONShape raw | None => true end &&
          exact_objects (member "frames" snapshot) ["sequence"; "kind"; "payload"] ["sequence"; "kind"] &&
          exact_objects (member "commands" snapshot) ["id"; "kind"; "digest"] ["id"; "kind"; "digest"]
      | _, _ => false
      end
  end.

(** ** The typed decoder *)
Definition as_uint (maximum : Z) (v : option jvalue) : option Z :=
  match v with Some (JNum literal) => ParseUint maximum literal | Some JNull | None => Some 0 | _ => None end.

(** A [[]byte] is read from a base64 string, from null or from an array of numbers. *)
Definition as_payload (v : option jvalue) : option (option string) :=
  match v with
  | Some (JStr s) => Some <$> base64_decode s
  | Some (JArr items) => (λ l, Some (string_of_bytes l)) <$> mapM (λ item, as_uint 255 (Some item)) items
  | Some JNull | None => Some None
  | _ => None
  end.

Definition as_list {A} (decode : list (string * jvalue) → option A) (v : option jvalue) : option (list A) :=
  objects ← as_objects v; mapM decode objects.

Definition decode_frame (m : list (string * jvalue)) : option frameWire :=
  sequence ← as_uint max_u64 (member "sequence" m);
  kind ← as_string (member "kind" m);
  payload ← as_payload (member "payload" m);
  Some (mkFrameWire sequence (FrameKind_of kind) payload).

Definition decode_command (m : list (string * jvalue)) : option commandWire :=
  id ← as_string (member "id" m);
  kind ← as_string (member "kind" m);
  digest ← as_string (member "digest" m);
  Some (mkCommandWire id (commandKind_of kind) digest).

Definition decode_node (m : list (string * jvalue)) : option workflowNodeWire :=
  id ← as_string (member "id" m);
  kind ← as_string (member "kind" m);
  status ← as_string (member "status" m);
  attempt ← as_uint max_u32 (member "attempt" m);
  child ← as_string (member "child_call_id" m);
  readyAt ← as_string (member "ready_at" m);
  failure ← as_string (member "failure_class" m);
  Some (mkNodeWire id (WorkflowNodeKind_of kind) (WorkflowNodeStatus_of status) attempt child readyAt failure).

Definition decode_workflow (v : option jvalue) : option (option workflowWire) :=
  match v with
  | None | Some JNull => Some None
  | Some (JObj m) =>
      version ← as_string (member "version" m);
      fingerprint ← as_string (member "fingerprint" m);
      startedAt ← as_string (member "started_at" m);
      nodes ← as_list decode_node (member "nodes" m);
      Some (Some (mkWorkflowWire version fingerprint startedAt nodes))
  | _ => None
  end.

Definition decode_snapshot (v : option jvalue) : option (option snapshotWire) :=
  match v with
  | None | Some JNull => Some None
  | Some (JObj m) =>
      callID ← as_string (member "call_id" m);
      operation ← as_string (member "operation" m);
      status ← as_string (member "status" m);
      revision ← as_uint max_u64 (member "revision" m);
      fence ← as_uint max_u64 (member "fence" m);
      sequence ← as_uint max_u64 (member "sequence" m);
      frameFloor ← as_uint max_u64 (member "frame_floor" m);
      readyAt ← as_string (member "ready_at" m);
      workflow ← decode_workflow (member "workflow" m);
      frames ← as_list decode_frame (member "frames" m);
      commands ← as_list decode_command (member "commands" m);
      Some (Some (mkSnapshotWire callID operation (Status_of status) revision fence sequence frameFloor readyAt
                    workflow frames commands))
  | _ => None
  end.

Definition decode_document (v : jvalue) : option snapshotDocument :=
  m ← as_object (Some v);
  version ← as_string (member "version" m);
  snapshot ← decode_snapshot (member "snapshot" m);
  checksum ← as_string (member "checksum" m);
  Some (mkDocument version snapshot checksum).

(** ** From the wire *)

(** An optional time: empty or canonical. *)
Definition parse_ready_at (s : string) : option time := if s == "" then Some 0 else parse_canonical s.

Definition node_from_wire (n : workflowNodeWire) : option workflowNodeState :=
  child ← (if nw_ChildCallID n == "" then Some ""
           else match NewCallID (nw_ChildCallID n) with Ok id => Some id | Err _ => None end);
  readyAt ← parse_ready_at (nw_ReadyAt n);
  Some (mkNodeState (nw_ID n) (nw_Kind n) (nw_Status n) (nw_Attempt n) child readyAt (nw_FailureClass n)).

(** The loops that fill a map and refuse a repeated key. *)
Fixpoint fill {A B} (key : A → string) (convert : A → option B) (l : list A) (m : gmap string B) : option (gmap string B) :=
  match l with
  | [] => Some m
  | x :: l =>
      match m !! key x with
      | Some _ => None
      | None => y ← convert x; fill key convert l (<[key x := y]> m)
      end
  end.

Definition workflowFromWire (wire : option workflowWire) : option (option workflowSnapshotState) :=
  match wire with
  | None => Some None
  | Some wire =>
      startedAt ← parse_canonical (ww_StartedAt wire);
      nodes ← fill nw_ID node_from_wire (ww_Nodes wire) ∅;
      let state := Some (mkWorkflowState (ww_Version wire) (ww_Fingerprint wire) startedAt nodes) in
      if validateWorkflowState state != None then None else Some state
  end.

Definition frame_from_wire (f : frameWire) : option Frame :=
  let payload := default "" (fw_Payload f) in
  if negb (FrameKind_valid (fw_Kind f)) || (maxPayloadBytes <? slen payload) then None
  else Some (mkFrame (fw_Sequence f) (fw_Kind f) payload).

Definition command_from_wire (c : commandWire) : option commandRecord :=
  digest ← hex_decode (cw_Digest c);
  if negb (slen digest =? 32) then None else Some (mkCommandRecord (cw_Kind c) digest).

Definition snapshotFromWire (wire : snapshotWire) (version : string) : option Snapshot :=
  callID ← (match NewCallID (sw_CallID wire) with Ok id => Some id | Err _ => None end);
  operation ← (match NewOperation (sw_Operation wire) with Ok op => Some op | Err _ => None end);
  frames ← mapM frame_from_wire (sw_Frames wire);
  commands ← fill cw_ID command_from_wire (sw_Commands wire) ∅;
  let frameFloor := if version == legacySnapshotCodecVersion then 1 else sw_FrameFloor wire in
  readyAt ← (if (version == timerSnapshotCodecVersion) || (version == snapshotCodecVersion)
             then parse_ready_at (sw_ReadyAt wire) else Some 0);
  workflow ← (if version == snapshotCodecVersion then workflowFromWire (sw_Workflow wire) else Some None);
  Some (mkSnapshot callID operation (sw_Status wire) readyAt (sw_Revision wire) (sw_Fence wire)
          (sw_Sequence wire) frameFloor frames commands workflow).

Definition supported (version : string) : bool :=
  (version == legacySnapshotCodecVersion) || (version == retainedSnapshotCodecVersion) ||
  (version == timerSnapshotCodecVersion) || (version == snapshotCodecVersion).

(** The checksum is right: [hex.DecodeString], the length and the constant-time comparison. *)
Definition checksum_matches (d : snapshotDocument) (wire : snapshotWire) : bool :=
  match hex_decode (sd_Checksum d) with
  | None => false
  | Some actual =>
      (slen actual =? 32) &&
      (actual == snapshotChecksum (sd_Version d) (json_print (snapshot_json wire)))
  end.

Definition ParseSnapshot (encoded : list Z) : result codec_error Snapshot :=
  if zlen encoded =? 0 then Err ErrInvalidSnapshotEncoding
  else if maxEncodedSnapshotSize <? zlen encoded then Err ErrSnapshotTooLarge
  else match parse_json encoded with
  | None => Err ErrInvalidSnapshotEncoding
  | Some v =>
      if negb (validateSnapshotJSONShape v) then Err ErrInvalidSnapshotEncoding
      else match decode_document v with
      | None => Err ErrInvalidSnapshotEncoding
      | Some document =>
          let version := sd_Version document in
          if negb (supported version) then Err ErrUnsupportedSnapshotVersion
          else match sd_Snapshot document with
          | None => Err ErrInvalidSnapshotEncoding
          | Some wire =>
              if negb (checksum_matches document wire) then Err ErrSnapshotChecksum
              else if ((version == legacySnapshotCodecVersion) && negb (sw_FrameFloor wire =? 0)) ||
                      (((version == retainedSnapshotCodecVersion) || (version == timerSnapshotCodecVersion) ||
                        (version == snapshotCodecVersion)) && (sw_FrameFloor wire =? 0))
              then Err ErrInvalidSnapshotEncoding
              else match snapshotFromWire wire version with
              | None => Err ErrInvalidSnapshotEncoding
              | Some s => if validateSnapshot s != None then Err ErrInvalidSnapshotEncoding else Ok s
              end
          end
      end
  end.
