(* ===== verification/CodecSpec.v ===== *)
(** * The durable snapshot format reads back what it wrote

    First the JSON layer: a document of well-formed wire records parses, passes the shape check
    and decodes to the same records.  Then the wire layer: a valid snapshot comes back from its
    wire record.  Instants must lie in years with four digits; others are written and not read. *)
From S2P Require Import Prelude GoText GoJson Sha256 GoDecode GoTime ContModel ContState ContWorkflow Codec.
Open Scope Z_scope.

(** ** Enumerations *)
Definition kind_text {A} (string_of : A → string) (of_string : string → A) (k : A) : Prop :=
  of_string (string_of k) = k ∧ ValidString (string_of k) = true.

Lemma Status_text st : Status_valid st = true → kind_text Status_string Status_of st.
Proof. destruct st; try done; by split; vm_compute. Qed.
Lemma FrameKind_text k : FrameKind_valid k = true → kind_text FrameKind_string FrameKind_of k.
Proof. destruct k; try done; by split; vm_compute. Qed.
Lemma NodeKind_text k : WorkflowNodeKind_valid k = true → kind_text WorkflowNodeKind_string WorkflowNodeKind_of k.
Proof. destruct k; try done; by split; vm_compute. Qed.
Lemma NodeStatus_text st :
  WorkflowNodeStatus_valid st = true → kind_text WorkflowNodeStatus_string WorkflowNodeStatus_of st.
Proof. destruct st; try done; by split; vm_compute. Qed.
Lemma commandKind_text k : k = commandSignal ∨ k = commandCancel → kind_text commandKind_string commandKind_of k.
Proof. intros [-> | ->]; by split; vm_compute. Qed.

(** ** Well-formed wire records *)
Definition frameWire_ok (f : frameWire) : Prop :=
  is_u64 (fw_Sequence f) ∧ kind_text FrameKind_string FrameKind_of (fw_Kind f).
Definition commandWire_ok (c : commandWire) : Prop :=
  ValidString (cw_ID c) = true ∧ kind_text commandKind_string commandKind_of (cw_Kind c) ∧
  ValidString (cw_Digest c) = true.
Definition nodeWire_ok (n : workflowNodeWire) : Prop :=
  ValidString (nw_ID n) = true ∧ kind_text WorkflowNodeKind_string WorkflowNodeKind_of (nw_Kind n) ∧
  kind_text WorkflowNodeStatus_string WorkflowNodeStatus_of (nw_Status n) ∧ 0 ≤ nw_Attempt n ≤ max_u32 ∧
  ValidString (nw_ChildCallID n) = true ∧ ValidString (nw_ReadyAt n) = true ∧ ValidString (nw_FailureClass n) = true.
Definition workflowWire_ok (w : workflowWire) : Prop :=
  ValidString (ww_Version w) = true ∧ ValidString (ww_Fingerprint w) = true ∧ ValidString (ww_StartedAt w) = true ∧
  Forall nodeWire_ok (ww_Nodes w).
Record snapshotWire_ok (s : snapshotWire) : Prop := mk_wire_ok {
  wo_text : ValidString (sw_CallID s) = true ∧ ValidString (sw_Operation s) = true ∧ ValidString (sw_ReadyAt s) = true;
  wo_status : kind_text Status_string Status_of (sw_Status s);
  wo_numbers : is_u64 (sw_Revision s) ∧ is_u64 (sw_Fence s) ∧ is_u64 (sw_Sequence s) ∧ is_u64 (sw_FrameFloor s);
  wo_workflow : ∀ w, sw_Workflow s = Some w → workflowWire_ok w;
  wo_frames : Forall frameWire_ok (sw_Frames s);
  wo_commands : Forall commandWire_ok (sw_Commands s)
}.

(** ** Printing and parsing *)
Lemma json_uint_valid n : 0 ≤ n → jvalid (json_uint n).
Proof. intros H. by apply json_int_numeral. Qed.

Lemma base64_valid s : ValidString (base64_encode s) = true.
Proof.
  apply ascii_valid. unfold base64_encode. destruct (base64_groups_bytes _ (bytes_of_range s)) as [_ Hf].
  rewrite bytes_of_string_of_bytes by (eapply Forall_impl; [exact Hf|]; cbn; lia). clear Hf.
  assert (Hchar : ∀ n, 0 ≤ n < 64 → 0 ≤ base64_char n < 128).
  { intros n Hn. unfold base64_char. repeat case_match; bool_hyps; lia. }
  pose proof (bytes_of_range s) as Hr. revert Hr. generalize (bytes_of s). intros l.
  induction l as [|a|a b|a b c l IH] using list_ind3; intros Hl; [constructor|..];
    repeat (apply Forall_cons in Hl as [? Hl]); cbn [base64_bytes].
  - destruct (base64_digits a 0 0) as (? & ? & _); [lia..|]. repeat constructor; by apply Hchar || lia.
  - destruct (base64_digits a b 0) as (? & _ & ? & ? & _); [lia..|]. repeat constructor; by apply Hchar || lia.
  - destruct (base64_digits a b c) as (? & _ & ? & _ & ? & ?); [lia..|].
    do 4 (apply Forall_cons; split; [by apply Hchar|]). auto.
Qed.

Lemma jvalid_array {A} (f : A → jvalue) l :
  Forall (λ x, jvalid (f x)) l → jvalid (JArr (f <$> l)).
Proof. cbn. induction 1; cbn; auto. Qed.

Ltac json_valid := cbn; split_and!; try done; try (apply json_uint_valid; unfold is_u64, max_u32 in *; lia).

Lemma frame_json_valid f : frameWire_ok f → jvalid (frame_json f).
Proof.
  intros ([? ?] & [_ Hk]). json_valid. destruct (fw_Payload f); cbn; [apply base64_valid|done].
Qed.
Lemma command_json_valid c : commandWire_ok c → jvalid (command_json c).
Proof. intros (H1 & [_ H2] & H3). json_valid. Qed.
Lemma node_json_valid n : nodeWire_ok n → jvalid (node_json n).
Proof. intros (H1 & [_ H2] & [_ H3] & H4 & H5 & H6 & H7). json_valid. Qed.
Lemma workflow_json_valid w : workflowWire_ok w → jvalid (workflow_json w).
Proof.
  intros (H1 & H2 & H3 & H4). json_valid. apply (jvalid_array node_json). eapply Forall_impl; [exact H4|apply node_json_valid].
Qed.
Lemma snapshot_json_valid s : snapshotWire_ok s → jvalid (snapshot_json s).
Proof.
  intros [(T1 & T2 & T3) [_ Hst] (N1 & N2 & N3 & N4) Hw Hf Hc]. unfold snapshot_json, snapshot_members.
  assert (Hfr : jvalid (JArr (frame_json <$> sw_Frames s)))
    by (apply jvalid_array; eapply Forall_impl; [exact Hf|apply frame_json_valid]).
  assert (Hco : jvalid (JArr (command_json <$> sw_Commands s)))
    by (apply jvalid_array; eapply Forall_impl; [exact Hc|apply command_json_valid]).
  assert (Hwf : ∀ w, sw_Workflow s = Some w → jvalid (workflow_json w)) by (intros; apply workflow_json_valid; auto).
  revert Hfr Hco Hwf. generalize (JArr (frame_json <$> sw_Frames s)) (JArr (command_json <$> sw_Commands s)). intros x y Hx Hy Hwf.
  destruct (sw_FrameFloor s =? 0), (sw_ReadyAt s == ""), (sw_Workflow s) as [w|]; cbn [app jvalid fold_right List.map fst snd];
    split_and!; try done; try (apply json_uint_valid; unfold is_u64 in *; lia); by apply Hwf.
Qed.

(** ** Decoding *)
Lemma as_uint_print maximum n : 0 ≤ n ≤ maximum → as_uint maximum (Some (json_uint n)) = Some n.
Proof. apply ParseUint_json_int. Qed.

Lemma as_objects_print {A} (members : A → list (string * jvalue)) l :
  as_objects (Some (JArr ((λ x, JObj (members x)) <$> l))) = Some (members <$> l).
Proof. cbn [as_objects]. induction l as [|x l IH]; [done|]. cbn in *. by rewrite IH. Qed.

Lemma as_list_print {A} decode (members : A → list (string * jvalue)) l :
  Forall (λ x, decode (members x) = Some x) l →
  as_list decode (Some (JArr ((λ x, JObj (members x)) <$> l))) = Some l.
Proof.
  intros H. unfold as_list. rewrite as_objects_print. cbn. induction H as [|x l Hx _ IH]; [done|]. cbn in *. by rewrite Hx, IH.
Qed.

Lemma decode_frame_print f : frameWire_ok f → decode_frame (frame_members f) = Some f.
Proof.
  intros [Hs [Hk _]]. unfold decode_frame. change (member "sequence" (frame_members f)) with (Some (json_uint (fw_Sequence f))).
  change (member "kind" (frame_members f)) with (Some (JStr (FrameKind_string (fw_Kind f)))).
  rewrite as_uint_print by apply Hs. cbn [mbind option_bind as_string]. rewrite Hk.
  destruct f as [sequence kind [p|]]; [|done].
  change (member "payload" _) with (Some (JStr (base64_encode p))). cbn [as_payload]. by rewrite base64_decode_encode.
Qed.

Lemma decode_command_print c : commandWire_ok c → decode_command (command_members c) = Some c.
Proof.
  intros (_ & [Hk _] & _). unfold decode_command.
  change (member "kind" (command_members c)) with (Some (JStr (commandKind_string (cw_Kind c)))).
  cbn [mbind option_bind as_string]. rewrite Hk. by destruct c.
Qed.

Lemma decode_node_print n : nodeWire_ok n → decode_node (node_members n) = Some n.
Proof.
  intros (_ & [Hk _] & [Hs _] & Ha & _). unfold decode_node.
  change (member "attempt" (node_members n)) with (Some (json_uint (nw_Attempt n))).
  change (member "kind" (node_members n)) with (Some (JStr (WorkflowNodeKind_string (nw_Kind n)))).
  change (member "status" (node_members n)) with (Some (JStr (WorkflowNodeStatus_string (nw_Status n)))).
  rewrite as_uint_print by done. cbn [mbind option_bind as_string]. rewrite Hk, Hs. by destruct n.
Qed.

Lemma decode_workflow_print w : workflowWire_ok w → decode_workflow (Some (workflow_json w)) = Some (Some w).
Proof.
  intros (_ & _ & _ & Hn). unfold workflow_json. cbn [decode_workflow].
  change (member "nodes" (workflow_members w)) with (Some (JArr ((λ n, JObj (node_members n)) <$> ww_Nodes w))).
  rewrite (as_list_print decode_node node_members) by (eapply Forall_impl; [exact Hn|apply decode_node_print]).
  by destruct w.
Qed.

(** The optional members. *)
Lemma snapshot_member_floor s : is_u64 (sw_FrameFloor s) →
  as_uint max_u64 (member "frame_floor" (snapshot_members s)) = Some (sw_FrameFloor s).
Proof.
  intros H. unfold snapshot_members. destruct (Z.eqb_spec (sw_FrameFloor s) 0) as [->|].
  - by destruct (sw_ReadyAt s == ""), (sw_Workflow s).
  - change (member "frame_floor" _) with (Some (json_uint (sw_FrameFloor s))). by rewrite as_uint_print.
Qed.

Lemma snapshot_member_ready s : as_string (member "ready_at" (snapshot_members s)) = Some (sw_ReadyAt s).
Proof.
  unfold snapshot_members. destruct (sw_FrameFloor s =? 0), (sw_ReadyAt s == "") eqn:E, (sw_Workflow s); bool_hyps; try done;
    by rewrite E.
Qed.

Lemma snapshot_member_workflow s : (∀ w, sw_Workflow s = Some w → workflowWire_ok w) →
  decode_workflow (member "workflow" (snapshot_members s)) = Some (sw_Workflow s).
Proof.
  intros Hw. unfold snapshot_members. destruct (sw_Workflow s) as [w|]; [|by destruct (sw_FrameFloor s =? 0), (sw_ReadyAt s == "")].
  rewrite <- (decode_workflow_print w) by auto. by destruct (sw_FrameFloor s =? 0), (sw_ReadyAt s == "").
Qed.

Lemma snapshot_member_frames s : member "frames" (snapshot_members s) = Some (JArr (frame_json <$> sw_Frames s)).
Proof. unfold snapshot_members. by destruct (sw_FrameFloor s =? 0), (sw_ReadyAt s == ""), (sw_Workflow s). Qed.
Lemma snapshot_member_commands s : member "commands" (snapshot_members s) = Some (JArr (command_json <$> sw_Commands s)).
Proof. unfold snapshot_members. by destruct (sw_FrameFloor s =? 0), (sw_ReadyAt s == ""), (sw_Workflow s). Qed.

Lemma decode_snapshot_print s : snapshotWire_ok s → decode_snapshot (Some (snapshot_json s)) = Some (Some s).
Proof.
  intros [_ [Hst _] (N1 & N2 & N3 & N4) Hw Hf Hc]. unfold snapshot_json. cbn [decode_snapshot].
  rewrite snapshot_member_floor, snapshot_member_ready, snapshot_member_workflow, snapshot_member_frames,
    snapshot_member_commands by done.
  rewrite (as_list_print decode_frame frame_members) by (eapply Forall_impl; [exact Hf|apply decode_frame_print]).
  rewrite (as_list_print decode_command command_members) by (eapply Forall_impl; [exact Hc|apply decode_command_print]).
  change (member "call_id" (snapshot_members s)) with (Some (JStr (sw_CallID s))).
  change (member "operation" (snapshot_members s)) with (Some (JStr (sw_Operation s))).
  change (member "status" (snapshot_members s)) with (Some (JStr (Status_string (sw_Status s)))).
  change (member "revision" (snapshot_members s)) with (Some (json_uint (sw_Revision s))).
  change (member "fence" (snapshot_members s)) with (Some (json_uint (sw_Fence s))).
  change (member "sequence" (snapshot_members s)) with (Some (json_uint (sw_Sequence s))).
  rewrite !as_uint_print by done. cbn [mbind option_bind as_string]. rewrite Hst. by destruct s.
Qed.

(** ** The shape check *)
Lemma exact_objects_print {A} (members : A → list (string * jvalue)) fields nonnull l :
  (∀ x, hasExactFields (members x) fields && negb (anyJSONNull (members x) nonnull) = true) →
  exact_objects (Some (JArr ((λ x, JObj (members x)) <$> l))) fields nonnull = true.
Proof.
  intros H. unfold exact_objects. rewrite as_objects_print. apply forallb_forall. intros m Hm%list_elem_of_In.
  apply list_elem_of_fmap in Hm as (x & -> & _). apply H.
Qed.

Lemma scan_array {A} (f : A → jvalue) l : (∀ x, scanJSONValue (f x) = true) → scanJSONValue (JArr (f <$> l)) = true.
Proof. intros H. cbn. induction l as [|x l IH]; [done|]. cbn. by rewrite H, IH. Qed.

Lemma scan_object members names :
  List.map fst members = names → bool_decide (NoDup names) = true → Forall (λ m, scanJSONValue m.2 = true) members →
  scanJSONValue (JObj members) = true.
Proof.
  intros <- Hnd Hall. cbn [scanJSONValue]. rewrite Hnd. apply forallb_forall. intros m Hm%list_elem_of_In.
  rewrite Forall_forall in Hall. by apply Hall.
Qed.

Lemma scan_frame f : scanJSONValue (frame_json f) = true.
Proof. eapply scan_object; [done|by vm_compute|]. repeat constructor. by destruct (fw_Payload f). Qed.
Lemma scan_command c : scanJSONValue (command_json c) = true.
Proof. eapply scan_object; [done|by vm_compute|]. by repeat constructor. Qed.
Lemma scan_node n : scanJSONValue (node_json n) = true.
Proof. eapply scan_object; [done|by vm_compute|]. by repeat constructor. Qed.
Lemma scan_workflow w : scanJSONValue (workflow_json w) = true.
Proof.
  eapply scan_object; [done|by vm_compute|]. repeat (apply Forall_cons; split); try done.
  apply (scan_array node_json), scan_node.
Qed.

Lemma scan_snapshot s : scanJSONValue (snapshot_json s) = true.
Proof.
  assert (Hf : scanJSONValue (JArr (frame_json <$> sw_Frames s)) = true) by apply scan_array, scan_frame.
  assert (Hc : scanJSONValue (JArr (command_json <$> sw_Commands s)) = true) by apply scan_array, scan_command.
  unfold snapshot_json, snapshot_members. revert Hf Hc.
  generalize (JArr (frame_json <$> sw_Frames s)) (JArr (command_json <$> sw_Commands s)). intros x y Hx Hy.
  destruct (sw_FrameFloor s =? 0), (sw_ReadyAt s == ""), (sw_Workflow s) as [w|]; cbn [app];
    (eapply scan_object; [done|by vm_compute|]);
    repeat (apply Forall_cons; split; [first [done|apply scan_workflow]|]); apply Forall_nil_2.
Qed.

Lemma workflow_shape w : validateWorkflowJSONShape (workflow_json w) = true.
Proof.
  unfold workflow_json, validateWorkflowJSONShape. cbn [as_object].
  change (member "nodes" (workflow_members w)) with (Some (JArr ((λ n, JObj (node_members n)) <$> ww_Nodes w))).
  rewrite exact_objects_print by done. done.
Qed.

Lemma snapshot_shape s : sw_FrameFloor s ≠ 0 →
  existsb (hasExactFields (snapshot_members s)) (version_shapes snapshotCodecVersion) = true ∧
  anyJSONNull (snapshot_members s) timerWorkflowFields = false.
Proof.
  intros Hf. unfold snapshot_members. rewrite (proj2 (Z.eqb_neq _ _) Hf).
  generalize (frame_json <$> sw_Frames s) (command_json <$> sw_Commands s). intros x y.
  destruct (sw_ReadyAt s == ""), (sw_Workflow s) as [w|]; by split; vm_compute.
Qed.

Lemma document_shape d s :
  sd_Snapshot d = Some s → sd_Version d = snapshotCodecVersion → sw_FrameFloor s ≠ 0 →
  validateSnapshotJSONShape (document_json d) = true.
Proof.
  intros Hs Hv Hf. destruct (snapshot_shape s Hf) as [Hexact Hnull]. unfold validateSnapshotJSONShape, document_json.
  rewrite Hs, Hv. rewrite (scan_object _ ["version"; "snapshot"; "checksum"]); [|done|by vm_compute|].
  2:{ repeat (apply Forall_cons; split; [first [done|apply scan_snapshot]|]). apply Forall_nil_2. }
  cbn [as_object andb].
  match goal with |- context [hasExactFields ?m ["version"; "snapshot"; "checksum"]] => set (document := m) end.
  change (hasExactFields document _) with true.
  change (member "snapshot" document) with (Some (JObj (snapshot_members s))).
  change (member "version" document) with (Some (JStr snapshotCodecVersion)).
  change (anyJSONNull document _) with false. cbn [as_object as_string andb negb].
  rewrite Hexact, Hnull, snapshot_member_frames, snapshot_member_commands. cbn [andb negb].
  rewrite (exact_objects_print frame_members), (exact_objects_print command_members) by done.
  assert (Hw : match member "workflow" (snapshot_members s) with Some raw => validateWorkflowJSONShape raw | None => true end = true).
  { unfold snapshot_members. destruct (sw_FrameFloor s =? 0), (sw_ReadyAt s == ""), (sw_Workflow s) as [w|]; try done;
      apply workflow_shape. }
  by rewrite Hw.
Qed.

(** A document of well-formed records reads back. *)
Lemma document_reads d s :
  sd_Snapshot d = Some s → sd_Version d = snapshotCodecVersion → sw_FrameFloor s ≠ 0 →
  snapshotWire_ok s → ValidString (sd_Checksum d) = true →
  parse_json (json_print (document_json d)) = Some (document_json d) ∧
  validateSnapshotJSONShape (document_json d) = true ∧ decode_document (document_json d) = Some d.
Proof.
  intros Hs Hv Hf Hok Hc. split_and!; [|by eapply document_shape|].
  - apply parse_json_print. unfold document_json. rewrite Hs, Hv. cbn -[snapshot_json]. split_and!; try done.
    by apply snapshot_json_valid.
  - unfold decode_document, document_json. rewrite Hs. cbn [as_object mbind option_bind].
    match goal with |- context [member "snapshot" ?m] => change (member "snapshot" m) with (Some (snapshot_json s)) end.
    rewrite decode_snapshot_print by done. destruct d. cbn in *. by subst.
Qed.

(** ** To the wire and back *)

(** Go's types: counters are [uint64], attempts [uint32], digests arrays of 32 bytes. *)
Record snapshot_typed (s : Snapshot) : Prop := mk_snapshot_typed {
  st_counters : snapshot_u64 s;
  st_digests : ∀ id r, s_commands s !! id = Some r → slen (cr_digest r) = 32;
  st_attempts : ∀ w id n, s_workflow s = Some w → w_Nodes w !! id = Some n → 0 ≤ n_Attempt n ≤ max_u32
}.

(** Every instant that is set lies in a year of four digits. *)
Definition readable_time (t : time) : Prop := t = 0 ∨ four_digit_year t.
Record readable (s : Snapshot) : Prop := mk_readable {
  re_ready : readable_time (s_readyAt s);
  re_started : ∀ w, s_workflow s = Some w → readable_time (w_StartedAt w);
  re_nodes : ∀ w id n, s_workflow s = Some w → w_Nodes w !! id = Some n → readable_time (n_ReadyAt n)
}.

Lemma valid_text_utf8 m v : valid_text m v = true → ValidString v = true.
Proof. unfold valid_text, ValidString. intros H. bool_hyps. by destruct (runes v). Qed.

Lemma validOperation_utf8 v : validOperation v = true → ValidString v = true.
Proof. unfold validOperation. destruct v; [done|]. intros H. bool_hyps. by eapply valid_text_utf8. Qed.

Lemma optional_identity_utf8 v : (v != "") && negb (validIdentity v) = false → ValidString v = true.
Proof.
  intros H. apply andb_false_iff in H as [H|H]; bool_hyps; [by subst|]. by eapply valid_text_utf8.
Qed.

Lemma formatReadyAt_valid t : ValidString (formatReadyAt t) = true.
Proof. unfold formatReadyAt. destruct (IsZero t); [done|apply Format_valid]. Qed.

Lemma parse_ready_at_format t : readable_time t → parse_ready_at (formatReadyAt t) = Some t.
Proof.
  unfold parse_ready_at, formatReadyAt, IsZero. intros [->|Ht]; [done|]. destruct (Z.eqb_spec t 0) as [->|]; [done|].
  rewrite bool_decide_false by apply Format_nonempty. by apply parse_canonical_Format.
Qed.

Lemma map_ids_spec {A} (m : gmap string A) : NoDup (map_ids m) ∧ ∀ id, id ∈ map_ids m ↔ is_Some (m !! id).
Proof.
  unfold map_ids. split; [apply NoDup_sort_strings, NoDup_elements|]. intros id.
  by rewrite elem_of_sort_strings, elem_of_elements, elem_of_dom.
Qed.

Lemma fill_spec {A B} (key : A → string) (convert : A → option B) l (m0 m : gmap string B) :
  NoDup (key <$> l) → (∀ a, a ∈ l → m0 !! key a = None) →
  (∀ a, a ∈ l → ∃ b, convert a = Some b ∧ m !! key a = Some b) →
  ∃ m', fill key convert l m0 = Some m' ∧
    (∀ k, k ∈ key <$> l → m' !! k = m !! k) ∧ (∀ k, k ∉ key <$> l → m' !! k = m0 !! k).
Proof.
  induction l as [|a l IH] in m0 |- *; intros Hnd Hnew Hconv; [exists m0; set_solver|].
  rewrite fmap_cons in Hnd. apply NoDup_cons in Hnd as [Ha Hnd]. cbn [fill]. rewrite Hnew by set_solver.
  destruct (Hconv a) as (b & Hb & Hm); [set_solver|]. rewrite Hb. cbn [mbind option_bind].
  destruct (IH (<[key a := b]> m0)) as (m' & Hm' & Hin & Hout); [done| |set_solver|].
  - intros x Hx. rewrite lookup_insert_ne; [apply Hnew; set_solver|]. intros E. apply Ha. rewrite E. set_solver.
  - exists m'. split_and!; [done| |].
    + intros k Hk. rewrite fmap_cons in Hk. apply elem_of_cons in Hk as [->|Hk]; [|by apply Hin].
      rewrite (Hout _ Ha), lookup_insert_eq. done.
    + intros k Hk. rewrite fmap_cons, not_elem_of_cons in Hk. destruct Hk as [Hne Hk]. rewrite (Hout _ Hk).
      by apply lookup_insert_ne.
Qed.

(** Filling a map from the sorted entries of a map gives the map back. *)
Lemma fill_entries {A B} (key : A → string) (convert : A → option B) (entry : string → option A) (m : gmap string B) :
  (∀ id b, m !! id = Some b → ∃ a, entry id = Some a ∧ key a = id ∧ convert a = Some b) →
  fill key convert (omap entry (map_ids m)) ∅ = Some m.
Proof.
  intros He. destruct (map_ids_spec m) as [Hnd Hids].
  assert (Hkeys : key <$> omap entry (map_ids m) = map_ids m).
  { assert (Hall : ∀ id, id ∈ map_ids m → ∃ a, entry id = Some a ∧ key a = id).
    { intros id [b Hb]%Hids. destruct (He _ _ Hb) as (a & ? & ? & _). eauto. }
    clear -Hall. induction (map_ids m) as [|id l IH]; [done|]. destruct (Hall id) as (a & Ha & Hk); [set_solver|].
    cbn [omap list_omap]. rewrite Ha. cbn. rewrite Hk. f_equal. apply IH. set_solver. }
  destruct (fill_spec key convert (omap entry (map_ids m)) ∅ m) as (m' & -> & Hin & Hout).
  - by rewrite Hkeys.
  - intros. apply lookup_empty.
  - intros a (id & Hid & Ha)%list_elem_of_omap. apply Hids in Hid as [b Hb].
    destruct (He _ _ Hb) as (a' & Ha' & Hk & Hc). simplify_eq. eauto.
  - f_equal. apply map_eq. intros k. destruct (decide (k ∈ map_ids m)) as [Hk|Hk].
    + apply Hin. by rewrite Hkeys.
    + rewrite Hout by (by rewrite Hkeys). rewrite lookup_empty. destruct (m !! k) eqn:E; [|done].
      destruct Hk. apply Hids. eauto.
Qed.

Lemma hex_text s : ValidString (hex_encode s) = true ∧ hex_decode (hex_encode s) = Some s.
Proof.
  destruct (hex_encode_bytes_graphic _ (bytes_of_range s)) as [Hg _].
  assert (Hb : bytes_of (hex_encode s) = hex_encode_bytes (bytes_of s)).
  { apply bytes_of_string_of_bytes. eapply Forall_impl; [exact Hg|]. by intros ? []. }
  split.
  - apply ascii_valid. rewrite Hb. eapply Forall_impl; [exact Hg|]. unfold graphic, in_range. intros b [H _]. bool_hyps. lia.
  - unfold hex_decode. rewrite Hb, hex_decode_encode by apply bytes_of_range. cbn. by rewrite string_of_bytes_of.
Qed.

Lemma frames_from_wire frames :
  (∀ i f, frames !! i = Some f → FrameKind_valid (f_kind f) = true ∧ slen (f_payload f) ≤ maxPayloadBytes) →
  mapM frame_from_wire (frame_to_wire <$> frames) = Some frames.
Proof.
  induction frames as [|f frames IH]; intros H; [done|]. cbn.
  destruct (H 0%nat f eq_refl) as [Hk Hp]. assert (Hf : frame_from_wire (frame_to_wire f) = Some f).
  { unfold frame_from_wire, frame_to_wire. cbn.
    assert (default "" (if f_payload f == "" then None else Some (f_payload f)) = f_payload f) as ->.
    { destruct (f_payload f == "") eqn:E; bool_hyps; by rewrite ?E. }
    rewrite Hk, (proj2 (Z.ltb_ge _ _) Hp). by destruct f. }
  rewrite Hf. cbn. rewrite IH; [done|]. intros i x Hi. apply (H (S i) x Hi).
Qed.

Lemma commands_from_wire commands :
  (∀ id r, commands !! id = Some r → slen (cr_digest r) = 32) →
  fill cw_ID command_from_wire (omap (command_to_wire commands) (map_ids commands)) ∅ = Some commands.
Proof.
  intros H. apply fill_entries. intros id r Hr. unfold command_to_wire. rewrite Hr. cbn. eexists. split_and!; [done|done|].
  unfold command_from_wire. cbn [cw_Digest cw_Kind]. rewrite (proj2 (hex_text _)). cbn [mbind option_bind].
  rewrite (H _ _ Hr). by destruct r.
Qed.

(** What the validation of a node says about its texts. *)
Lemma invalid_node_false id n : invalid_node id n = false →
  id = n_ID n ∧ validIdentity id = true ∧ WorkflowNodeKind_valid (n_Kind n) = true ∧
  WorkflowNodeStatus_valid (n_Status n) = true ∧ n_Attempt n ≤ maxWorkflowAttempt ∧
  ((n_ChildCallID n != "") && negb (validIdentity (n_ChildCallID n)) = false) ∧
  ((n_FailureClass n != "") && negb (validIdentity (n_FailureClass n)) = false).
Proof. unfold invalid_node. intros H. rewrite !orb_false_iff in H. destruct_and! H. bool_hyps. by split_and!. Qed.

Lemma validateWorkflowState_facts w : validateWorkflowState (Some w) = None →
  validIdentity (w_Version w) = true ∧ w_StartedAt w ≠ 0 ∧ hex_decodable (w_Fingerprint w) = true ∧
  ∀ id n, w_Nodes w !! id = Some n → invalid_node id n = false.
Proof.
  unfold validateWorkflowState. destruct (_ || _) eqn:E; [done|]. destruct (hex_decodable _) eqn:Eh; [|done]. cbn [negb].
  destruct (map_forallb _ _) eqn:Em; [|done]. intros _. rewrite !orb_false_iff in E. destruct_and! E. unfold IsZero in *. bool_hyps.
  split_and!; try done. intros id n Hn. rewrite map_forallb_spec in Em. specialize (Em _ _ Hn). by apply negb_true_iff in Em.
Qed.

Lemma node_from_to_wire id n :
  invalid_node id n = false → readable_time (n_ReadyAt n) → node_from_wire (workflow_node_to_wire n) = Some n.
Proof.
  intros Hn Ht. destruct (invalid_node_false _ _ Hn) as (_ & _ & _ & _ & _ & Hc & _).
  unfold node_from_wire, workflow_node_to_wire. cbn.
  rewrite parse_ready_at_format by done.
  assert (Hchild : (if n_ChildCallID n == "" then Some ""
    else match NewCallID (n_ChildCallID n) with Ok id => Some id | Err _ => None end) = Some (n_ChildCallID n)).
  { destruct (n_ChildCallID n == "") eqn:E; bool_hyps; [by rewrite E|]. unfold NewCallID.
    destruct (validIdentity (n_ChildCallID n)) eqn:V; [done|]. exfalso. cbn in Hc. congruence. }
  rewrite Hchild. cbn. by destruct n.
Qed.

Lemma workflow_from_to_wire w :
  validateWorkflowState (Some w) = None → readable_time (w_StartedAt w) →
  (∀ id n, w_Nodes w !! id = Some n → readable_time (n_ReadyAt n)) →
  workflowFromWire (workflowToWire (Some w)) = Some (Some w).
Proof.
  intros Hv Hs Hn. destruct (validateWorkflowState_facts w Hv) as (_ & H0 & _ & Hnodes).
  unfold workflowToWire, workflowFromWire. cbn [mbind option_bind ww_StartedAt ww_Nodes ww_Version ww_Fingerprint].
  unfold formatReadyAt at 1, IsZero. rewrite (proj2 (Z.eqb_neq _ _) H0).
  destruct Hs as [|Hs]; [done|]. rewrite parse_canonical_Format by done. cbn [mbind option_bind].
  rewrite fill_entries.
  - cbn [mbind option_bind]. replace (mkWorkflowState _ _ _ _) with w by (by destruct w). by rewrite Hv.
  - intros id n Hid. rewrite Hid. cbn. eexists. specialize (Hnodes _ _ Hid).
    split_and!; [done|symmetry; apply (invalid_node_false _ _ Hnodes)|]. eapply node_from_to_wire; eauto.
Qed.

Lemma snapshot_from_to_wire s :
  snapshot_typed s → snapshot_ok s → readable s → snapshotFromWire (snapshotToWire s) snapshotCodecVersion = Some s.
Proof.
  intros [Hu Hd _] Hok [Hr Hst Hno]. unfold snapshotFromWire, snapshotToWire.
  cbn [sw_CallID sw_Operation sw_Status sw_Revision sw_Fence sw_Sequence sw_FrameFloor sw_ReadyAt sw_Workflow sw_Frames sw_Commands].
  unfold NewCallID, NewOperation. rewrite (ok_callID _ Hok), (ok_operation _ Hok). cbn [mbind option_bind negb].
  rewrite frames_from_wire, commands_from_wire by (done || intros i f Hi; destruct (ok_frames _ Hok i f Hi) as (_ & ? & _ & ?); done).
  change ((snapshotCodecVersion == timerSnapshotCodecVersion) || (snapshotCodecVersion == snapshotCodecVersion)) with true.
  change (snapshotCodecVersion == snapshotCodecVersion) with true. change (snapshotCodecVersion == legacySnapshotCodecVersion) with false.
  cbn [mbind option_bind]. rewrite parse_ready_at_format by done. cbn [mbind option_bind].
  assert (workflowFromWire (workflowToWire (s_workflow s)) = Some (s_workflow s)) as ->.
  { pose proof (ok_workflow _ Hok) as Hw. destruct (s_workflow s) as [w|]; [|done].
    apply workflow_from_to_wire; eauto. }
  by destruct s.
Qed.

(** The wire record of a valid snapshot is well formed. *)
Lemma snapshot_wire_ok s : snapshot_typed s → snapshot_ok s → snapshotWire_ok (snapshotToWire s).
Proof.
  intros [Hu Hd Ha] Hok. constructor; cbn.
  - split_and!; [by eapply valid_text_utf8, Hok|by apply validOperation_utf8, Hok|apply formatReadyAt_valid].
  - apply Status_text, Hok.
  - apply Hu.
  - intros ww Hww. destruct (s_workflow s) as [w|] eqn:Hw; [|done]. cbn in Hww. injection Hww as <-.
    pose proof (ok_workflow _ Hok) as Hv. rewrite Hw in Hv. destruct (validateWorkflowState_facts w Hv) as (H1 & _ & H2 & H3).
    split_and!; cbn; [by eapply valid_text_utf8| |apply formatReadyAt_valid|].
    + apply ascii_valid. unfold hex_decodable in H2. bool_hyps. apply Forall_forall. intros b Hb.
      rewrite forallb_forall in *. match goal with H : ∀ x, In x _ → is_hex_char x = true |- _ =>
        specialize (H b (proj1 (list_elem_of_In _ _) Hb)) as Hx end.
      unfold is_hex_char, in_range in Hx. lia.
    + apply Forall_forall. intros nw (id & Hid & Hnw)%list_elem_of_omap.
      destruct (w_Nodes w !! id) as [n|] eqn:Hn; [|done]. cbn in Hnw. injection Hnw as <-.
      destruct (invalid_node_false _ _ (H3 _ _ Hn)) as (Eid & Vid & Vk & Vs & Va & Vc & Vf). specialize (Ha _ _ _ eq_refl Hn).
      unfold nodeWire_ok, workflow_node_to_wire. cbn. rewrite <- Eid. split_and!; try lia.
      * by eapply valid_text_utf8. * by apply NodeKind_text. * by apply NodeStatus_text.
      * by apply optional_identity_utf8. * apply formatReadyAt_valid. * by apply optional_identity_utf8.
  - apply Forall_fmap, Forall_forall. intros f [i Hi]%list_elem_of_lookup.
    destruct (ok_frames _ Hok i f Hi) as (Hseq & Hk & _). split; cbn; [|by apply FrameKind_text].
    rewrite Hseq. pose proof (lookup_lt_Some _ _ _ Hi). pose proof (ok_count _ Hok). pose proof (ok_floor _ Hok).
    destruct Hu as (_ & _ & Hs & _). unfold is_u64, zlen in *. lia.
  - apply Forall_forall. intros c (id & Hid & Hc)%list_elem_of_omap. unfold command_to_wire in Hc.
    destruct (s_commands s !! id) as [r|] eqn:Hr; [|done]. cbn in Hc. injection Hc as <-.
    pose proof (ok_commands _ Hok _ _ Hr) as Hco. unfold command_ok in Hco. apply negb_true_iff, orb_false_iff in Hco as [Hv Hk].
    bool_hyps. split_and!; cbn; [by eapply valid_text_utf8| |apply hex_text].
    apply commandKind_text. apply andb_false_iff in Hk as [Hk|Hk]; bool_hyps; auto.
Qed.

Lemma sha256_slen l : slen (sha256 l) = 32.
Proof. unfold sha256, slen. rewrite length_string_of_bytes, sha256_bytes_length. done. Qed.

Lemma checksum_of_content d w :
  sd_Checksum d = hex_encode (snapshotChecksum (sd_Version d) (json_print (snapshot_json w))) → checksum_matches d w = true.
Proof.
  intros Hc. unfold checksum_matches. rewrite Hc, (proj2 (hex_text _)). unfold snapshotChecksum. rewrite sha256_slen.
  by rewrite bool_decide_true.
Qed.

(** What reading a written snapshot comes down to. *)
Lemma parse_marshalled s b :
  snapshot_typed s → validateSnapshot s = None → MarshalSnapshot s = Ok b →
  ParseSnapshot b = match snapshotFromWire (snapshotToWire s) snapshotCodecVersion with
                    | None => Err ErrInvalidSnapshotEncoding
                    | Some s' => if validateSnapshot s' != None then Err ErrInvalidSnapshotEncoding else Ok s'
                    end.
Proof.
  intros Ht Hv. pose proof (proj1 (validateSnapshot_spec s (st_counters _ Ht)) Hv) as Hok.
  unfold MarshalSnapshot. rewrite Hv. cbn [bool_decide negb]. rewrite bool_decide_true by done. cbn [negb].
  set (w := snapshotToWire s). set (d := mkDocument snapshotCodecVersion (Some w) _).
  assert (Hfloor : sw_FrameFloor w ≠ 0) by (pose proof (ok_floor _ Hok); cbn; lia).
  destruct (document_reads d w) as (Hp & Hs & Hd); try done.
  { by apply snapshot_wire_ok. } { apply hex_text. }
  destruct (Z.ltb_spec maxEncodedSnapshotSize (zlen (json_print (document_json d)))) as [|Hsize]; [done|].
  intros Hb. assert (b = json_print (document_json d)) as -> by congruence. clear Hb.
  unfold ParseSnapshot. rewrite (proj2 (Z.eqb_neq (zlen (json_print (document_json d))) 0)) by (unfold zlen; cbn; lia).
  rewrite (proj2 (Z.ltb_ge _ _) Hsize), Hp, Hs, Hd. cbn [negb].
  change (sd_Version d) with snapshotCodecVersion. change (sd_Snapshot d) with (Some w). change (supported snapshotCodecVersion) with true.
  cbn [negb]. rewrite checksum_of_content by done. cbn [negb].
  rewrite (proj2 (Z.eqb_neq _ _) Hfloor), andb_false_r. cbn [negb andb].
  change (snapshotCodecVersion == legacySnapshotCodecVersion) with false. done.
Qed.

Lemma marshal_reads s :
  snapshot_typed s → validateSnapshot s = None → readable s →
  match MarshalSnapshot s with Ok b => ParseSnapshot b = Ok s | Err e => e = ErrSnapshotTooLarge end.
Proof.
  intros Ht Hv Hr. pose proof (proj1 (validateSnapshot_spec s (st_counters _ Ht)) Hv) as Hok.
  destruct (MarshalSnapshot s) as [b|e] eqn:Hm.
  - by rewrite (parse_marshalled s b), snapshot_from_to_wire, Hv by done.
  - revert Hm. unfold MarshalSnapshot. rewrite Hv. rewrite bool_decide_true by done. cbn [negb]. destruct (_ <? _); congruence.
Qed.

(** C9: the durable format reads back what it wrote.  For every valid snapshot whose instants lie in
    years of four digits, [MarshalSnapshot] either reports that the document is too large or
    returns a document that [ParseSnapshot] accepts and turns into the very same snapshot. *)
Theorem codec_roundtrip s :
  snapshot_typed s → validateSnapshot s = None → readable s →
  match MarshalSnapshot s with Ok b => ParseSnapshot b = Ok s | Err e => e = ErrSnapshotTooLarge end.
Proof. apply marshal_reads. Qed.

(** a timer beyond the year 9999 cannot be read back.  The snapshot is valid and is written
    without an error, and [ParseSnapshot] refuses the document: the printed year has five digits,
    which [time.Parse] does not read. *)
Theorem far_timer_unreadable s b :
  snapshot_typed s → validateSnapshot s = None → s_readyAt s ≠ 0 → last_day ≤ s_readyAt s / nanos_per_second / seconds_per_day →
  MarshalSnapshot s = Ok b → ParseSnapshot b = Err ErrInvalidSnapshotEncoding.
Proof.
  intros Ht Hv H0 Hfar Hm. rewrite (parse_marshalled s b) by done.
  assert (snapshotFromWire (snapshotToWire s) snapshotCodecVersion = None) as ->; [|done].
  unfold snapshotFromWire. do 4 (match goal with |- ?x ≫= _ = None => destruct x; [|done] end; cbn [mbind option_bind]).
  assert (Hn : parse_ready_at (sw_ReadyAt (snapshotToWire s)) = None).
  { cbn. unfold parse_ready_at, formatReadyAt, IsZero. rewrite (proj2 (Z.eqb_neq _ _) H0).
    rewrite bool_decide_false by apply Format_nonempty. apply parse_canonical_far. unfold four_digit_year. lia. }
  change ((snapshotCodecVersion == timerSnapshotCodecVersion) || (snapshotCodecVersion == snapshotCodecVersion)) with true.
  by rewrite Hn.
Qed.

(** ** What reading establishes *)
Lemma ParseUint_range maximum l n : ParseUint maximum l = Some n → 0 ≤ n ≤ maximum.
Proof.
  unfold ParseUint. destruct l as [|d l]; [done|]. destruct (_ && _) eqn:E; [|done]. intros [= <-].
  apply andb_true_iff in E as [Hd Hm]. apply Z.leb_le in Hm. split; [|done]. apply digits_value_bound.
  apply Forall_forall. intros b Hb%list_elem_of_In. rewrite forallb_forall in Hd. auto.
Qed.

Lemma as_uint_range maximum v n : 0 ≤ maximum → as_uint maximum v = Some n → 0 ≤ n ≤ maximum.
Proof. destruct v as [[]|]; cbn; try done; intros ?; by intros ?%ParseUint_range || intros [= <-]. Qed.

Lemma fill_Some {A B} (key : A → string) (convert : A → option B) l (m0 m : gmap string B) k b :
  fill key convert l m0 = Some m → m !! k = Some b → m0 !! k = Some b ∨ ∃ a, a ∈ l ∧ convert a = Some b.
Proof.
  induction l as [|a l IH] in m0 |- *; cbn [fill]; [intros [= <-]; auto|].
  destruct (m0 !! key a); [done|]. destruct (convert a) as [y|] eqn:Hy; [|done]. cbn. intros Hf Hk.
  destruct (IH _ Hf Hk) as [Hm|(x & Hx & Hc)]; [|right; exists x; set_solver].
  destruct (decide (key a = k)) as [<-|Hne].
  - rewrite lookup_insert_eq in Hm. right. exists a. simplify_eq. set_solver.
  - rewrite lookup_insert_ne in Hm by done. auto.
Qed.

(** Step over the first bind of the computation. *)
Ltac bind_step := match goal with |- ?x ≫= _ = _ → _ => destruct x; [|done]; cbn [mbind option_bind] end.

Lemma decode_node_attempt m n : decode_node m = Some n → 0 ≤ nw_Attempt n ≤ max_u32.
Proof.
  unfold decode_node. do 3 bind_step.
  destruct (as_uint max_u32 _) as [a|] eqn:Ha; [|done]. cbn [mbind option_bind].
  do 3 bind_step. intros [= <-]. cbn. by eapply as_uint_range.
Qed.

Definition wire_typed (w : snapshotWire) : Prop :=
  is_u64 (sw_Revision w) ∧ is_u64 (sw_Fence w) ∧ is_u64 (sw_Sequence w) ∧ is_u64 (sw_FrameFloor w) ∧
  ∀ ww n, sw_Workflow w = Some ww → n ∈ ww_Nodes ww → 0 ≤ nw_Attempt n ≤ max_u32.

Lemma decode_snapshot_typed v w : decode_snapshot v = Some (Some w) → wire_typed w.
Proof.
  destruct v as [[| | | | |m]|]; cbn [decode_snapshot]; try done.
  do 3 bind_step.
  destruct (as_uint _ (member "revision" m)) as [n1|] eqn:N1; [|done]. cbn [mbind option_bind].
  destruct (as_uint _ (member "fence" m)) as [n2|] eqn:N2; [|done]. cbn [mbind option_bind].
  destruct (as_uint _ (member "sequence" m)) as [n3|] eqn:N3; [|done]. cbn [mbind option_bind].
  destruct (as_uint _ (member "frame_floor" m)) as [n4|] eqn:N4; [|done]. cbn [mbind option_bind].
  bind_step.
  destruct (decode_workflow _) as [ww|] eqn:Hw; [|done]. cbn [mbind option_bind].
  destruct (as_list decode_frame _); [|done]. cbn [mbind option_bind]. destruct (as_list decode_command _); [|done].
  cbn [mbind option_bind]. intros [= <-].
  assert (Hu : ∀ x n, as_uint max_u64 x = Some n → is_u64 n) by (intros x n; by apply as_uint_range).
  split_and!; cbn; eauto. intros w' n -> Hin. revert Hw. destruct (member "workflow" m) as [[| | | | |mw]|]; cbn [decode_workflow]; try done.
  do 3 bind_step. unfold as_list.
  destruct (as_objects _) as [objects|]; [|done]. cbn [mbind option_bind].
  destruct (mapM decode_node objects) as [nodes|] eqn:Hm; [|done]. cbn [mbind option_bind]. intros [= <-]. cbn in Hin.
  apply mapM_Some in Hm. apply list_elem_of_lookup in Hin as [i Hi].
  destruct (Forall2_lookup_r _ _ _ _ _ Hm Hi) as (x & _ & Hx). by eapply decode_node_attempt.
Qed.

Lemma parse_ready_at_readable s t : parse_ready_at s = Some t → readable_time t.
Proof.
  unfold parse_ready_at. destruct (s == ""); [intros [= <-]; by left|]. intros [_ Ht]%parse_canonical_iff. by right.
Qed.

Lemma workflow_from_wire_facts ww state :
  workflowFromWire ww = Some (Some state) →
  readable_time (w_StartedAt state) ∧
  ∀ id n, w_Nodes state !! id = Some n → readable_time (n_ReadyAt n) ∧
    ∃ w nw, ww = Some w ∧ nw ∈ ww_Nodes w ∧ n_Attempt n = nw_Attempt nw.
Proof.
  destruct ww as [w|]; [|done]. cbn [workflowFromWire].
  destruct (parse_canonical _) as [startedAt|] eqn:Hs; [|done]. cbn [mbind option_bind].
  destruct (fill _ _ _ _) as [nodes|] eqn:Hf; [|done]. cbn [mbind option_bind]. destruct (_ != None); [done|]. intros [= <-]. cbn.
  split; [apply parse_canonical_iff in Hs as [_ Hs]; by right|]. intros id n Hn.
  destruct (fill_Some _ _ _ _ _ _ _ Hf Hn) as [He|(nw & Hin & Hc)]; [by rewrite lookup_empty in He|].
  revert Hc. unfold node_from_wire. destruct (if nw_ChildCallID nw == "" then _ else _); [|done]. cbn [mbind option_bind].
  destruct (parse_ready_at _) as [t|] eqn:Ht; [|done]. cbn. intros [= <-]. cbn.
  split; [by eapply parse_ready_at_readable|]. eauto.
Qed.

Lemma snapshot_from_wire_facts w version s :
  wire_typed w → snapshotFromWire w version = Some s → snapshot_typed s ∧ readable s.
Proof.
  intros (T1 & T2 & T3 & T4 & T5). unfold snapshotFromWire.
  destruct (NewCallID _); [|done]. cbn [mbind option_bind]. destruct (NewOperation _); [|done]. cbn [mbind option_bind].
  destruct (mapM frame_from_wire _) as [frames|]; [|done]. cbn [mbind option_bind].
  destruct (fill cw_ID _ _ _) as [commands|] eqn:Hc; [|done]. cbn [mbind option_bind].
  destruct (if (version == _) || _ then _ else _) as [readyAt|] eqn:Hr; [|done]. cbn [mbind option_bind].
  destruct (if version == snapshotCodecVersion then _ else _) as [workflow|] eqn:Hw; [|done]. cbn [mbind option_bind].
  intros [= <-].
  assert (Hwf : ∀ state, workflow = Some state → workflowFromWire (sw_Workflow w) = Some (Some state)).
  { intros state ->. by destruct (version == snapshotCodecVersion). }
  split; constructor; cbn.
  - unfold snapshot_u64. cbn. split_and!; try done. destruct (version == legacySnapshotCodecVersion); [split; vm_compute; discriminate|done].
  - intros id r Hid. destruct (fill_Some _ _ _ _ _ _ _ Hc Hid) as [He|(c & _ & Hcr)]; [by rewrite lookup_empty in He|].
    revert Hcr. unfold command_from_wire. destruct (hex_decode _) as [digest|]; [|done]. cbn [mbind option_bind].
    destruct (Z.eqb_spec (slen digest) 32); [|done]. by intros [= <-].
  - intros state id n Hst Hn. destruct (workflow_from_wire_facts _ _ (Hwf _ Hst)) as [_ H].
    destruct (H _ _ Hn) as (_ & ww & nw & Hww & Hin & ->). eauto.
  - destruct (_ || _); [by eapply parse_ready_at_readable|]. injection Hr as <-. by left.
  - intros state Hst. apply (workflow_from_wire_facts _ _ (Hwf _ Hst)).
  - intros state id n Hst Hn. destruct (workflow_from_wire_facts _ _ (Hwf _ Hst)) as [_ H]. by destruct (H _ _ Hn).
Qed.

(** every document that is accepted can be kept in the current format.  Whatever supported
    version a document has, and however it is laid out, what [ParseSnapshot] returns is a valid
    snapshot that [MarshalSnapshot] writes (unless it is too large) as a document that reads
    back as the same snapshot. *)
Theorem codec_upgrades b s :
  ParseSnapshot b = Ok s →
  snapshot_typed s ∧ validateSnapshot s = None ∧ readable s ∧
  match MarshalSnapshot s with Ok b' => ParseSnapshot b' = Ok s | Err e => e = ErrSnapshotTooLarge end.
Proof.
  intros Hp. enough (H : snapshot_typed s ∧ validateSnapshot s = None ∧ readable s).
  { destruct H as (H1 & H2 & H3). split_and!; try done. by apply marshal_reads. }
  revert Hp. unfold ParseSnapshot. destruct (zlen b =? 0); [done|]. destruct (_ <? _); [done|].
  destruct (parse_json b) as [v|]; [|done]. destruct (validateSnapshotJSONShape v); [|done]. cbn [negb].
  destruct (decode_document v) as [d|] eqn:Hd; [|done]. destruct (supported _); [|done]. cbn [negb].
  destruct (sd_Snapshot d) as [w|] eqn:Hw; [|done]. destruct (checksum_matches d w); [|done]. cbn [negb].
  destruct (_ || _); [done|]. destruct (snapshotFromWire w (sd_Version d)) as [s'|] eqn:Hs; [|done].
  destruct (validateSnapshot s' != None) eqn:Hv; [done|]. intros [= <-]. bool_hyps.
  destruct (snapshot_from_wire_facts w (sd_Version d) s') as [H1 H2]; [|done|done].
  revert Hd. unfold decode_document. destruct (as_object _) as [m|]; [|done]. cbn [mbind option_bind].
  bind_step. destruct (decode_snapshot _) as [sw|] eqn:Hsw; [|done].
  cbn [mbind option_bind]. bind_step. intros [= <-]. cbn in Hw. subst. by eapply decode_snapshot_typed.
Qed.

(** * Witnesses *)
Definition ex_timer (readyAt : time) : Snapshot :=
  mkSnapshot "call-1" "/orders/Place" StatusSuspended readyAt 3 1 1 1 [mkFrame 1 FrameAccepted "hello"]
    {["cmd-1" := mkCommandRecord commandSignal (sha256 (bytes_of "go"))]} None.

Lemma ex_timer_typed readyAt : snapshot_typed (ex_timer readyAt).
Proof.
  constructor; cbn; [|intros id r Hr|by intros].
  - unfold snapshot_u64. cbn. split_and!; split; vm_compute; discriminate.
  - apply lookup_singleton_Some in Hr as [_ <-]. apply sha256_slen.
Qed.

(** 2025-09-02T02:48:16.123456Z *)
Definition ex_readyAt : time := 63892378096123456000.

Lemma codec_roundtrip_witness : ∃ b,
  MarshalSnapshot (ex_timer ex_readyAt) = Ok b ∧ ParseSnapshot b = Ok (ex_timer ex_readyAt).
Proof.
  destruct (MarshalSnapshot (ex_timer ex_readyAt)) as [b|] eqn:Hm.
  - exists b. split; [reflexivity|].
    pose proof (codec_roundtrip (ex_timer ex_readyAt) (ex_timer_typed _)) as H. rewrite Hm in H. apply H.
    + vm_compute. reflexivity.
    + constructor; [right; split; vm_compute; congruence|discriminate|discriminate].
  - exfalso. vm_compute in Hm. discriminate Hm.
Defined.

(** 10000-01-01T00:00:00Z *)
Definition ex_far : time := last_day * seconds_per_day * nanos_per_second.

Lemma far_timer_unreadable_witness : ∃ b,
  MarshalSnapshot (ex_timer ex_far) = Ok b ∧ ParseSnapshot b = Err ErrInvalidSnapshotEncoding.
Proof.
  destruct (MarshalSnapshot (ex_timer ex_far)) as [b|] eqn:Hm.
  - exists b. split; [reflexivity|]. apply (far_timer_unreadable (ex_timer ex_far) b (ex_timer_typed _)).
    + vm_compute. reflexivity.
    + vm_compute. discriminate.
    + vm_compute. discriminate.
    + exact Hm.
  - exfalso. vm_compute in Hm. discriminate Hm.
Defined.

(** A document of the first version: no frame floor. *)
Definition ex_legacy_wire : snapshotWire :=
  mkSnapshotWire "call-1" "/orders/Place" StatusRunning 2 1 1 0 "" None [mkFrameWire 1 FrameAccepted (Some "hello")] [].
Definition ex_legacy : list Z :=
  json_print (document_json (mkDocument legacySnapshotCodecVersion (Some ex_legacy_wire)
    (hex_encode (snapshotChecksum legacySnapshotCodecVersion (json_print (snapshot_json ex_legacy_wire)))))).
Definition ex_upgraded : Snapshot :=
  mkSnapshot "call-1" "/orders/Place" StatusRunning 0 2 1 1 1 [mkFrame 1 FrameAccepted "hello"] ∅ None.

Lemma codec_upgrades_witness :
  ParseSnapshot ex_legacy = Ok ex_upgraded ∧
  match MarshalSnapshot ex_upgraded with Ok b' => ParseSnapshot b' = Ok ex_upgraded | Err e => e = ErrSnapshotTooLarge end.
Proof.
  assert (Hp : ParseSnapshot ex_legacy = Ok ex_upgraded) by (vm_compute; reflexivity).
  split; [exact Hp|]. apply (codec_upgrades ex_legacy ex_upgraded Hp).
Defined.
