(* ===== verification/ContStore.v ===== *)
(** * programmable/continuation/memory: the continuation store

    Models [memory/store.go], [memory/admin.go], [memory/restore.go], the request types and
    checks of [lease.go] and [store.go], and [NewCallSummary] of [admin.go].  The store is a
    record of three maps; every method is a function of the context, the clock reading and the
    store, and returns its result with the new store, so a lease dropped on an error path is
    visible.  The mutex makes each method one atomic step; nil receivers are not represented,
    and [ensureState] is the identity on a constructed store. *)
From S2P Require Import Prelude GoText Sha256 ContModel ContState.
Open Scope Z_scope.

(** ** Requests *)
Definition maxLeaseOwnerBytes : Z := 256.
Definition maxLeaseDuration : duration := 24 * hour.

Definition validLeaseOwner (owner : string) : bool := valid_text maxLeaseOwnerBytes owner.

Record ClaimRequest := mkClaimRequest {
  cq_CallID : string;
  cq_ExpectedRevision : Z;
  cq_OwnerID : string;
  cq_LeaseDuration : duration
}.

Definition ClaimRequest_Validate (r : ClaimRequest) : option cerror :=
  if negb (validIdentity (cq_CallID r)) || (cq_ExpectedRevision r =? 0) ||
     negb (validLeaseOwner (cq_OwnerID r)) || (cq_LeaseDuration r <=? 0) ||
     (maxLeaseDuration <? cq_LeaseDuration r)
  then Some ErrInvalidStore else None.

Record Lease := mkLease {
  l_Snapshot : Snapshot;
  l_OwnerID : string;
  l_Deadline : time
}.

Record LeaseRequest := mkLeaseRequest {
  lq_CallID : string;
  lq_Revision : Z;
  lq_Fence : Z;
  lq_OwnerID : string;
  lq_LeaseDuration : duration
}.

Definition LeaseRequest_Validate (r : LeaseRequest) (renew : bool) : option cerror :=
  if negb (validIdentity (lq_CallID r)) || (lq_Revision r =? 0) || (lq_Fence r =? 0) ||
     negb (validLeaseOwner (lq_OwnerID r))
  then Some ErrInvalidStore
  else if renew && ((lq_LeaseDuration r <=? 0) || (maxLeaseDuration <? lq_LeaseDuration r))
  then Some ErrInvalidStore else None.

Record CommitRequest := mkCommitRequest {
  cm_ExpectedRevision : Z;
  cm_Fence : Z;
  cm_LeaseOwner : string;
  cm_ExpiresAt : time;
  cm_Snapshot : Snapshot
}.

Record CommandRequest := mkCommandRequest {
  cd_CallID : string;
  cd_ExpectedRevision : Z;
  cd_CommandID : string;
  cd_Payload : string
}.

Record ListRequest := mkListRequest { lr_After : string; lr_Limit : Z }.

Record ExpireRequest := mkExpireRequest {
  er_CallID : string;
  er_ExpectedRevision : Z;
  er_ExpiresAt : time
}.

Record CallSummary := mkCallSummary {
  cs_CallID : string;
  cs_Operation : string;
  cs_Status : Status;
  cs_Revision : Z;
  cs_Fence : Z;
  cs_Sequence : Z;
  cs_FrameFloor : Z;
  cs_ExpiresAt : time;
  cs_WorkflowVersion : string;
  cs_WorkflowFingerprint : string;
  cs_WorkflowNodes : Z;
  cs_WorkflowFailed : Z
}.

Definition NewCallSummary (snapshot : Snapshot) (expiresAt : time) : result cerror CallSummary :=
  if validateSnapshot snapshot != None then Err ErrInvalidRetention
  else
    let summary := mkCallSummary (s_callID snapshot) (s_operation snapshot) (s_status snapshot)
      (s_revision snapshot) (s_fence snapshot) (s_sequence snapshot) (s_frameFloor snapshot)
      expiresAt in
    Ok match s_workflow snapshot with
       | None => summary "" "" 0 0
       | Some w => summary (w_Version w) (w_Fingerprint w) (map_len (w_Nodes w))
           (zlen (filter (λ p, n_Status p.2 = WorkflowNodeFailed) (map_to_list (w_Nodes w))))
       end.

(** ** The store *)
Record leaseRecord := mkLeaseRecord {
  lease_owner : string;
  lease_deadline : time;
  lease_revision : Z;
  lease_fence : Z;
  lease_previousRevision : Z
}.

#[export] Instance leaseRecord_eq_dec : EqDecision leaseRecord.
Proof. solve_decision. Defined.

Record Store := mkStore {
  st_records : gmap string Snapshot;
  st_leases : gmap string leaseRecord;
  st_expires : gmap string time
}.

Definition NewStore : Store := mkStore ∅ ∅ ∅.

Definition set_records (f : gmap string Snapshot → gmap string Snapshot) (st : Store) : Store :=
  mkStore (f (st_records st)) (st_leases st) (st_expires st).
Definition set_leases (f : gmap string leaseRecord → gmap string leaseRecord) (st : Store) : Store :=
  mkStore (st_records st) (f (st_leases st)) (st_expires st).
Definition set_expires (f : gmap string time → gmap string time) (st : Store) : Store :=
  mkStore (st_records st) (st_leases st) (f (st_expires st)).

(** The common entry of the methods: a nil context or an invalid request, then the context's
    cause, then the body under the lock. *)
Definition entry {A S} (ctx : context cerror) (invalid : bool) (e : cerror) (st : S)
    (body : result cerror A * S) : result cerror A * S :=
  match ctx with
  | NilContext => (Err e, st)
  | Context cause =>
      if invalid then (Err e, st)
      else match cause with Some cause => (Err cause, st) | None => body end
  end.

Definition initialSnapshot (s : Snapshot) : bool :=
  if (s_callID s == "") || (s_operation s == "") || (s_status s != StatusAccepted) ||
     negb (s_revision s =? 1) || negb (s_fence s =? 0)
  then false
  else if s_sequence s =? 0 then zlen (s_frames s) =? 0
  else if s_sequence s =? 1 then
    match s_frames s with
    | [f] => (f_sequence f =? 1) && (f_kind f == FrameAccepted)
    | _ => false
    end
  else false.

Definition ready (status : Status) : bool :=
  match status with
  | StatusAccepted | StatusRunning | StatusSuspended | StatusCancelRequested => true
  | _ => false
  end.

Definition equalFrame (first second : Frame) : bool :=
  (f_sequence first =? f_sequence second) && (f_kind first == f_kind second) &&
  (f_payload first == f_payload second).

(** The two frame loops of [validSuccessor]: the old frames are a prefix, the new ones are
    numbered by their position. *)
Fixpoint successor_frames (index : Z) (current next : list Frame) : bool :=
  match current, next with
  | [], [] => true
  | [], frame :: next => (f_sequence frame =? index + 1) && successor_frames (index + 1) [] next
  | _ :: _, [] => false
  | frame :: current, frame' :: next =>
      equalFrame frame frame' && successor_frames (index + 1) current next
  end.

Definition validSuccessor (current next : Snapshot) (fence : Z) : bool :=
  if (s_callID next != s_callID current) || (s_operation next != s_operation current) ||
     negb (s_revision next =? u64_add (s_revision current) 1) || negb (s_fence next =? fence) ||
     (s_sequence next <? s_sequence current)
  then false
  else successor_frames 0 (s_frames current) (s_frames next).

Definition leaseActive (st : Store) (key : string) (now : time) : bool :=
  match st_leases st !! key with
  | Some lease => After (lease_deadline lease) now
  | None => false
  end.

Definition Create (ctx : context cerror) (st : Store) (snapshot : Snapshot) :
    result cerror Snapshot * Store :=
  entry ctx (negb (initialSnapshot snapshot)) ErrInvalidStore st
    match st_records st !! s_callID snapshot with
    | Some _ => (Err ErrAlreadyExists, st)
    | None => (Ok snapshot, set_records <[s_callID snapshot := snapshot]> st)
    end.

Definition Load (ctx : context cerror) (st : Store) (callID : string) :
    result cerror Snapshot * Store :=
  entry ctx (callID == "") ErrInvalidStore st
    match st_records st !! callID with
    | None => (Err ErrNotFound, st)
    | Some snapshot => (Ok snapshot, st)
    end.

(** The checks and the transition shared by [Acquire] and [Claim]: a ready call whose timer
    is due moves under the next fence. *)
Definition next_owner (current : Snapshot) (now : time) : result cerror Snapshot :=
  if negb (ready (s_status current)) then Err ErrNotReady
  else match TimerNotReady current now with
  | Some err => Err err
  | None =>
      if s_fence current =? max_u64 then Err ErrStaleFence
      else
        let target :=
          if s_status current == StatusCancelRequested then StatusCancelRequested
          else StatusRunning in
        Apply current (Move target (u64_add (s_fence current) 1) [])
  end.

Definition Acquire (ctx : context cerror) (now : time) (st : Store) (callID : string)
    (expectedRevision : Z) : result cerror Snapshot * Store :=
  entry ctx ((callID == "") || (expectedRevision =? 0)) ErrInvalidStore st
    match st_records st !! callID with
    | None => (Err ErrNotFound, st)
    | Some current =>
        if negb (s_revision current =? expectedRevision) then (Err ErrConflict, st)
        else if leaseActive st callID now then (Err ErrLeaseHeld, st)
        else
          let st := set_leases (delete callID) st in
          match next_owner current now with
          | Err err => (Err err, st)
          | Ok next => (Ok next, set_records <[callID := next]> st)
          end
    end.

Definition zero_lease : leaseRecord := mkLeaseRecord "" 0 0 0 0.

Definition owned_lease (st : Store) (key owner : string) (revision fence : Z) : bool :=
  match st_leases st !! key with
  | Some lease =>
      (lease_owner lease == owner) && (lease_revision lease =? revision) &&
      (lease_fence lease =? fence)
  | None => false
  end.

Definition Transition (ctx : context cerror) (now : time) (st : Store) (request : CommitRequest) :
    result cerror Snapshot * Store :=
  let next := cm_Snapshot request in
  let key := s_callID next in
  entry ctx ((cm_ExpectedRevision request =? 0) || (cm_Fence request =? 0) || (key == "") ||
             (negb (IsZero (cm_ExpiresAt request)) && negb (Status_Terminal (s_status next))))
    ErrInvalidStore st
    match st_records st !! key with
    | None => (Err ErrNotFound, st)
    | Some current =>
        if (if cm_LeaseOwner request != "" then
              negb (owned_lease st key (cm_LeaseOwner request) (cm_ExpectedRevision request)
                      (cm_Fence request)) || negb (leaseActive st key now)
            else leaseActive st key now)
        then (Err ErrLeaseLost, st)
        else if negb (cm_Fence request =? s_fence current) then (Err ErrStaleFence, st)
        else if negb (cm_ExpectedRevision request =? s_revision current) then (Err ErrConflict, st)
        else if negb (validSuccessor current next (cm_Fence request)) then (Err ErrInvalidStore, st)
        else
          let st := set_records <[key := next]> st in
          let st := set_expires
            (if Status_Terminal (s_status next) && negb (IsZero (cm_ExpiresAt request))
             then <[key := cm_ExpiresAt request]> else delete key) st in
          let lease := default zero_lease (st_leases st !! key) in
          let st := set_leases
            (if s_status next == StatusRunning
             then <[key := mkLeaseRecord (lease_owner lease) (lease_deadline lease)
                             (s_revision next) (s_fence next) (lease_previousRevision lease)]>
             else delete key) st in
          (Ok next, st)
    end.

(** [records[key]] for keys collected from the map. *)
Definition records_of (st : Store) (keys : list string) : list Snapshot :=
  omap (λ key, st_records st !! key) keys.

Definition ListReady (ctx : context cerror) (now : time) (st : Store) (limit : Z) :
    result cerror (list Snapshot) * Store :=
  entry ctx ((limit <=? 0) || (10000 <? limit)) ErrInvalidStore st
    (let keys := sorted_keys (λ key snapshot, ready (s_status snapshot) &&
                   TimerDue snapshot now && negb (leaseActive st key now)) (st_records st) in
     let keys := if limit <? zlen keys then take (Z.to_nat limit) keys else keys in
     (Ok (records_of st keys), st)).

Definition command (ctx : context cerror) (st : Store) (request : CommandRequest)
    (transition : ContModel.Transition) : result cerror Snapshot * Store :=
  entry ctx ((cd_CallID request == "") || (cd_ExpectedRevision request =? 0)) ErrInvalidStore st
    match st_records st !! cd_CallID request with
    | None => (Err ErrNotFound, st)
    | Some current =>
        match Apply current transition with
        | Err err => (Err err, st)
        | Ok next =>
            if s_revision next =? s_revision current then (Ok current, st)
            else if negb (cd_ExpectedRevision request =? s_revision current)
            then (Err ErrConflict, st)
            else (Ok next, set_leases (delete (cd_CallID request))
                             (set_records <[cd_CallID request := next]> st))
        end
    end.

Definition SubmitSignal (ctx : context cerror) (st : Store) (request : CommandRequest) :
    result cerror Snapshot * Store :=
  match NewFrame FrameSignal (cd_Payload request) with
  | Err err => (Err err, st)
  | Ok frame => command ctx st request (Signal (cd_CommandID request) [frame])
  end.

Definition RequestCancel (ctx : context cerror) (st : Store) (request : CommandRequest) :
    result cerror Snapshot * Store :=
  match NewFrame FrameCancelRequested (cd_Payload request) with
  | Err err => (Err err, st)
  | Ok frame => command ctx st request (Cancel (cd_CommandID request) [frame])
  end.

(** The answer of [Claim] while a lease is active: a replay by its owner, or held. *)
Definition held_lease (st : Store) (now : time) (request : ClaimRequest) (current : Snapshot) :
    option (result cerror Lease) :=
  match st_leases st !! cq_CallID request with
  | Some lease =>
      if After (lease_deadline lease) now then
        Some (if (lease_owner lease == cq_OwnerID request) &&
                 (lease_previousRevision lease =? cq_ExpectedRevision request)
              then Ok (mkLease current (lease_owner lease) (lease_deadline lease))
              else Err ErrLeaseHeld)
      else None
  | None => None
  end.

Definition Claim (ctx : context cerror) (now : time) (st : Store) (request : ClaimRequest) :
    result cerror Lease * Store :=
  let key := cq_CallID request in
  entry ctx (ClaimRequest_Validate request != None) ErrInvalidStore st
    match st_records st !! key with
    | None => (Err ErrNotFound, st)
    | Some current =>
        match held_lease st now request current with
        | Some answer => (answer, st)
        | None =>
            if negb (s_revision current =? cq_ExpectedRevision request) then (Err ErrConflict, st)
            else match next_owner current now with
            | Err err => (Err err, st)
            | Ok next =>
                let deadline := now + cq_LeaseDuration request in
                (Ok (mkLease next (cq_OwnerID request) deadline),
                 set_leases <[key := mkLeaseRecord (cq_OwnerID request) deadline (s_revision next)
                                       (s_fence next) (s_revision current)]>
                   (set_records <[key := next]> st))
            end
        end
    end.

Definition Renew (ctx : context cerror) (now : time) (st : Store) (request : LeaseRequest) :
    result cerror Lease * Store :=
  let key := lq_CallID request in
  entry ctx (LeaseRequest_Validate request true != None) ErrInvalidStore st
    match st_records st !! key with
    | None => (Err ErrNotFound, st)
    | Some current =>
        match st_leases st !! key with
        | None => (Err ErrLeaseLost, st)
        | Some lease =>
            if negb (owned_lease st key (lq_OwnerID request) (lq_Revision request) (lq_Fence request)) ||
               negb (After (lease_deadline lease) now)
            then (Err ErrLeaseLost, st)
            else
              let deadline := now + lq_LeaseDuration request in
              (Ok (mkLease current (lease_owner lease) deadline),
               set_leases <[key := mkLeaseRecord (lease_owner lease) deadline (lease_revision lease)
                                     (lease_fence lease) (lease_previousRevision lease)]> st)
        end
    end.

Definition Release (ctx : context cerror) (st : Store) (request : LeaseRequest) :
    result cerror () * Store :=
  let key := lq_CallID request in
  entry ctx (LeaseRequest_Validate request false != None) ErrInvalidStore st
    match st_records st !! key with
    | None => (Err ErrNotFound, st)
    | Some _ =>
        if negb (owned_lease st key (lq_OwnerID request) (lq_Revision request) (lq_Fence request))
        then (Err ErrLeaseLost, st)
        else (Ok (), set_leases (delete key) st)
    end.

(** ** Administration *)

(** Go's zero time for a call without an expiry. *)
Definition expiry (st : Store) (key : string) : time := default 0 (st_expires st !! key).

Fixpoint summaries (st : Store) (keys : list string) : result cerror (list CallSummary) :=
  match keys with
  | [] => Ok []
  | key :: keys =>
      match st_records st !! key with
      | None => summaries st keys
      | Some snapshot =>
          summary ← NewCallSummary snapshot (expiry st key);
          rest ← summaries st keys;
          Ok (summary :: rest)
      end
  end.

Definition ListCalls (ctx : context cerror) (st : Store) (request : ListRequest) :
    result cerror (list CallSummary) * Store :=
  entry ctx ((lr_Limit request <? 1) || (1000 <? lr_Limit request)) ErrInvalidRetention st
    (let keys := sorted_keys (λ key _, string_lt (lr_After request) key) (st_records st) in
     let keys := if lr_Limit request <? zlen keys then take (Z.to_nat (lr_Limit request)) keys else keys in
     (summaries st keys, st)).

Definition GetCall (ctx : context cerror) (st : Store) (callID : string) :
    result cerror CallSummary * Store :=
  entry ctx (callID == "") ErrInvalidRetention st
    match st_records st !! callID with
    | None => (Err ErrNotFound, st)
    | Some snapshot => (NewCallSummary snapshot (expiry st callID), st)
    end.

Definition PruneFrames (ctx : context cerror) (st : Store) (callID : string) (floor : Z) :
    result cerror Snapshot * Store :=
  entry ctx (callID == "") ErrInvalidRetention st
    match st_records st !! callID with
    | None => (Err ErrNotFound, st)
    | Some current =>
        if negb (Status_Terminal (s_status current)) then (Err ErrNotReady, st)
        else match PruneSnapshot current floor with
        | Err err => (Err err, st)
        | Ok pruned => (Ok pruned, set_records <[callID := pruned]> st)
        end
    end.

Definition Expire (ctx : context cerror) (st : Store) (request : ExpireRequest) :
    result cerror Snapshot * Store :=
  let key := er_CallID request in
  entry ctx ((key == "") || (er_ExpectedRevision request =? 0) || IsZero (er_ExpiresAt request))
    ErrInvalidRetention st
    match st_records st !! key with
    | None => (Err ErrNotFound, st)
    | Some current =>
        if s_status current == StatusExpired then (Ok current, st)
        else if Status_Terminal (s_status current) then (Err ErrTerminal, st)
        else if negb (s_revision current =? er_ExpectedRevision request) then (Err ErrConflict, st)
        else
          match (frame ← NewFrame FrameExpired "";
                 Apply current (Move StatusExpired (s_fence current) [frame])) with
          | Err err => (Err err, st)
          | Ok expired =>
              (Ok expired, set_leases (delete key)
                 (set_expires <[key := er_ExpiresAt request]> (set_records <[key := expired]> st)))
          end
    end.

(** The keys [DeleteExpired] collects before it truncates the batch. *)
Definition elapsed_keys (st : Store) (before : time) : list string :=
  sorted_keys (λ key expiresAt,
    match st_records st !! key with
    | Some snapshot => Status_Terminal (s_status snapshot) && negb (After expiresAt before)
    | None => false
    end) (st_expires st).

Definition delete_call (st : Store) (key : string) : Store :=
  mkStore (delete key (st_records st)) (delete key (st_leases st)) (delete key (st_expires st)).

Definition DeleteExpired (ctx : context cerror) (st : Store) (before : time) (limit : Z) :
    result cerror Z * Store :=
  entry ctx (IsZero before || (limit <? 1) || (1000 <? limit)) ErrInvalidRetention st
    (let keys := elapsed_keys st before in
     let keys := if limit <? zlen keys then take (Z.to_nat limit) keys else keys in
     (Ok (zlen keys), fold_left delete_call keys st)).

(** ** Restoring from durable snapshots *)
Fixpoint restore (snapshots : list Snapshot) (st : Store) : result cerror Store :=
  match snapshots with
  | [] => Ok st
  | snapshot :: snapshots =>
      if validateSnapshot snapshot != None then Err ErrInvalidStore
      else match st_records st !! s_callID snapshot with
      | Some _ => Err ErrAlreadyExists
      | None => restore snapshots (set_records <[s_callID snapshot := snapshot]> st)
      end
  end.

Definition NewFromSnapshots (snapshots : list Snapshot) : result cerror Store :=
  restore snapshots NewStore.

(** ** Operations as steps *)
Inductive op :=
| OpCreate (snapshot : Snapshot)
| OpLoad (callID : string)
| OpAcquire (callID : string) (expectedRevision : Z)
| OpTransition (request : CommitRequest)
| OpListReady (limit : Z)
| OpSubmitSignal (request : CommandRequest)
| OpRequestCancel (request : CommandRequest)
| OpClaim (request : ClaimRequest)
| OpRenew (request : LeaseRequest)
| OpRelease (request : LeaseRequest)
| OpListCalls (request : ListRequest)
| OpGetCall (callID : string)
| OpPruneFrames (callID : string) (floor : Z)
| OpExpire (request : ExpireRequest)
| OpDeleteExpired (before : time) (limit : Z).

(** The store after one operation. *)
Definition exec (ctx : context cerror) (now : time) (st : Store) (o : op) : Store :=
  match o with
  | OpCreate s => snd (Create ctx st s)
  | OpLoad id => snd (Load ctx st id)
  | OpAcquire id rev => snd (Acquire ctx now st id rev)
  | OpTransition r => snd (Transition ctx now st r)
  | OpListReady limit => snd (ListReady ctx now st limit)
  | OpSubmitSignal r => snd (SubmitSignal ctx st r)
  | OpRequestCancel r => snd (RequestCancel ctx st r)
  | OpClaim r => snd (Claim ctx now st r)
  | OpRenew r => snd (Renew ctx now st r)
  | OpRelease r => snd (Release ctx st r)
  | OpListCalls r => snd (ListCalls ctx st r)
  | OpGetCall id => snd (GetCall ctx st id)
  | OpPruneFrames id floor => snd (PruneFrames ctx st id floor)
  | OpExpire r => snd (Expire ctx st r)
  | OpDeleteExpired before limit => snd (DeleteExpired ctx st before limit)
  end.

(** What the callers owe.  A [Snapshot] has no exported fields, so a caller holds only
    snapshots the continuation package validated; and [CommitRequest.Snapshot] "must be the
    direct immutable result of Apply on the currently loaded revision". *)
Definition op_contract (st : Store) (o : op) : Prop :=
  match o with
  | OpCreate s => snapshot_u64 s ∧ snapshot_ok s
  | OpTransition r => ∀ current,
      st_records st !! s_callID (cm_Snapshot r) = Some current →
      s_revision current = cm_ExpectedRevision r → apply_step current (cm_Snapshot r)
  | _ => True
  end.

Lemma entry_cases {A S} ctx invalid e (st : S) (body : result cerror A * S) :
  (∃ e', entry ctx invalid e st body = (Err e', st)) ∨
  (ctx = Context None ∧ invalid = false ∧ entry ctx invalid e st body = body).
Proof. unfold entry. destruct ctx as [|[c|]]; [by eauto| |]; destruct invalid; eauto. Qed.

Lemma entry_open {A S} e (st : S) (body : result cerror A * S) :
  entry (Context None) false e st body = body.
Proof. done. Qed.

(** A successful operation passed its guards. *)
Lemma entry_Ok {A S} ctx invalid e (st st' : S) (body : result cerror A * S) a :
  entry ctx invalid e st body = (Ok a, st') →
  ctx = Context None ∧ invalid = false ∧ body = (Ok a, st').
Proof. destruct (entry_cases ctx invalid e st body) as [[e' ->]|(-> & -> & ->)]; [done|auto]. Qed.

Ltac enter :=
  match goal with
  | |- context [entry ?ctx ?b ?e ?st ?body] =>
      let E := fresh "Hentry" in
      destruct (entry_cases ctx b e st body) as [[? E]|(? & ? & E)]; rewrite E; clear E; cbn [snd fst]
  end.

(** The ways the store changes. *)
Inductive change (st : Store) : Store → Prop :=
| change_none : change st st
| change_drop key : change st (set_leases (delete key) st)
| change_renew key lease deadline :
    st_leases st !! key = Some lease →
    change st (set_leases <[key := mkLeaseRecord (lease_owner lease) deadline
      (lease_revision lease) (lease_fence lease) (lease_previousRevision lease)]> st)
| change_create s :
    st_records st !! s_callID s = None → initialSnapshot s = true → snapshot_u64 s → snapshot_ok s →
    change st (set_records <[s_callID s := s]> st)
| change_apply key current t next lease expires :
    st_records st !! key = Some current → is_u64 (t_fence t) → fresh_step current t next →
    Apply current t = Ok next →
    (∀ l, lease = Some l → s_status next ∈ [StatusRunning; StatusCancelRequested] ∧
       lease_revision l = s_revision next ∧ lease_fence l = s_fence next) →
    (∀ e, expires = Some e →
       Status_Terminal (s_status next) = true ∨ st_expires st !! key = Some e) →
    change st (mkStore (<[key := next]> (st_records st))
      (partial_alter (λ _, lease) key (st_leases st))
      (partial_alter (λ _, expires) key (st_expires st)))
| change_prune key current floor pruned :
    st_records st !! key = Some current → Status_Terminal (s_status current) = true →
    PruneSnapshot current floor = Ok pruned →
    change st (set_records <[key := pruned]> st)
| change_delete keys before :
    (∀ key, key ∈ keys → key ∈ elapsed_keys st before) →
    change st (fold_left delete_call keys st).

(** ** The store invariant *)
Record store_ok (st : Store) : Prop := mk_store_ok {
  so_records : ∀ key s, st_records st !! key = Some s →
    s_callID s = key ∧ snapshot_u64 s ∧ snapshot_ok s;
  so_floor : ∀ key s, st_records st !! key = Some s →
    Status_Terminal (s_status s) = false → s_frameFloor s = 1;
  so_leases : ∀ key l, st_leases st !! key = Some l → ∃ s,
    st_records st !! key = Some s ∧ s_status s ∈ [StatusRunning; StatusCancelRequested] ∧
    lease_revision l = s_revision s ∧ lease_fence l = s_fence s;
  so_expires : ∀ key e, st_expires st !! key = Some e → ∃ s,
    st_records st !! key = Some s ∧ Status_Terminal (s_status s) = true
}.

Lemma Apply_none_fresh current t next :
  snapshot_u64 current → t_command t = commandNone → Apply current t = Ok next →
  fresh_step current t next.
Proof. intros Hu Ht [[H _]|(_ & H & _)]%Apply_cases; [done|done|done]. Qed.

Lemma next_owner_Ok current now next :
  snapshot_u64 current → next_owner current now = Ok next →
  ready (s_status current) = true ∧ TimerDue current now = true ∧ s_fence current < max_u64 ∧
  ∃ t, t = Move (if s_status current == StatusCancelRequested then StatusCancelRequested
                 else StatusRunning) (s_fence current + 1) [] ∧
    is_u64 (t_fence t) ∧ Apply current t = Ok next ∧ fresh_step current t next.
Proof.
  intros Hu. pose proof Hu as (_ & Hf & _ & _). unfold is_u64 in Hf.
  unfold next_owner, TimerNotReady. destruct (ready _); [|done]. cbn [negb].
  destruct (TimerDue current now); [|done].
  destruct (Z.eqb_spec (s_fence current) max_u64) as [|Hne]; [done|].
  rewrite u64_add_small by lia. intros HA. split_and!; [done..|lia|]. eexists. split; [done|].
  assert (is_u64 (s_fence current + 1)) by (unfold is_u64; lia).
  split_and!; [done|done|]. by eapply Apply_none_fresh.
Qed.

Lemma next_owner_status current now next :
  snapshot_u64 current → next_owner current now = Ok next →
  s_status next ∈ [StatusRunning; StatusCancelRequested] ∧ s_fence next = s_fence current + 1 ∧
  s_revision next = s_revision current + 1 ∧ Status_Terminal (s_status current) = false.
Proof.
  intros Hu (_ & _ & Hm & t & -> & _ & _ & Hfs)%next_owner_Ok; [|done].
  pose proof (fs_live _ _ _ Hfs). destruct Hu as (_ & Hf & _ & _). unfold is_u64 in Hf.
  destruct Hfs as [_ _ _ _ _ _ _ ->]. cbn.
  rewrite (proj2 (Z.eqb_neq _ _)) by lia. split_and!; try done. case_match; set_solver.
Qed.

(** An applied transition that leaves the expiry table alone. *)
Lemma change_apply_keep st key current t next lease :
  st_records st !! key = Some current → is_u64 (t_fence t) → fresh_step current t next →
  Apply current t = Ok next →
  (∀ l, lease = Some l → s_status next ∈ [StatusRunning; StatusCancelRequested] ∧
     lease_revision l = s_revision next ∧ lease_fence l = s_fence next) →
  change st (mkStore (<[key := next]> (st_records st))
    (partial_alter (λ _, lease) key (st_leases st)) (st_expires st)).
Proof.
  intros Hr Ht Hf HA Hl.
  pose proof (change_apply st key current t next lease (st_expires st !! key) Hr Ht Hf HA Hl) as H.
  rewrite partial_alter_self in H. apply H. auto.
Qed.

Section exec_change.
  Context (ctx : context cerror) (now : time) (st : Store) (Hst : store_ok st).

Lemma acquire_change id rev : change st (snd (Acquire ctx now st id rev)).
Proof using Hst.
  unfold Acquire. enter; [constructor|]. destruct (st_records st !! id) as [c|] eqn:Hc; [|constructor].
  case_match; [constructor|]. case_match; [constructor|]. destruct (so_records _ Hst _ _ Hc) as (_ & Hu & _).
  destruct (next_owner c now) as [n|] eqn:Hn; cbn [snd]; [|constructor].
  apply next_owner_Ok in Hn as (_ & _ & _ & t & -> & Ht & HA & Hf); [|done].
  by eapply (change_apply_keep st id c _ n None).
Qed.

Lemma claim_change r : change st (snd (Claim ctx now st r)).
Proof using Hst.
  unfold Claim. enter; [constructor|]. destruct (st_records st !! _) as [c|] eqn:Hc; [|constructor].
  destruct (held_lease _ _ _ _); [constructor|]. case_match; [constructor|].
  destruct (so_records _ Hst _ _ Hc) as (_ & Hu & _).
  destruct (next_owner c now) as [n|] eqn:Hn; cbn [snd]; [|constructor].
  pose proof (next_owner_status _ _ _ Hu Hn) as (Hs & _).
  apply next_owner_Ok in Hn as (_ & _ & _ & t & -> & Ht & HA & Hf); [|done].
  eapply (change_apply_keep st _ c _ n (Some _)); eauto. intros l [= <-]. done.
Qed.

Lemma command_change r t : external_command t → change st (snd (command ctx st r t)).
Proof using Hst.
  intros Hext. unfold command. enter; [constructor|].
  destruct (st_records st !! _) as [c|] eqn:Hc; [|constructor].
  destruct (so_records _ Hst _ _ Hc) as (_ & Hu & _).
  destruct (Apply c t) as [n|] eqn:HA; [|constructor].
  destruct (Z.eqb_spec (s_revision n) (s_revision c)) as [|Hne]; [constructor|].
  case_match; [constructor|].
  pose proof HA as [[Hf _]|[-> _]]%Apply_cases; [|done..].
  apply (change_apply_keep st _ c t n None); auto; try done.
  by destruct Hext as (? & ? & [-> | ->]).
Qed.

Lemma transition_change r :
  op_contract st (OpTransition r) → change st (snd (Transition ctx now st r)).
Proof using Hst.
  intros Hcon. unfold Transition. enter; [constructor|].
  destruct (st_records st !! _) as [c|] eqn:Hc; [|constructor].
  destruct (if cm_LeaseOwner r != "" then _ else _); [constructor|].
  case_match; [constructor|]. case_match; [constructor|].
  destruct (validSuccessor _ _ _) eqn:Hvs; [|constructor]. cbn [negb snd]. bool_hyps.
  destruct (Hcon c Hc ltac:(done)) as (t & Ht & HA).
  destruct (so_records _ Hst _ _ Hc) as (_ & Hu & _).
  assert (Hf : fresh_step c t (cm_Snapshot r)).
  { apply Apply_cases in HA as [[Hf _]|(Heq & _)]; [done| |done].
    unfold validSuccessor in Hvs. rewrite Heq in Hvs. case_match; [done|]. bool_hyps.
    destruct Hu as (Hrev & _). unfold u64_add, is_u64, max_u64 in *.
    destruct (decide (s_revision c = 18446744073709551615)) as [E|E].
    - rewrite E in *. done.
    - rewrite Z.mod_small in *; lia. }
  unfold set_records, set_expires, set_leases. cbn [st_records st_expires st_leases].
  pose proof (change_apply st _ c t (cm_Snapshot r)
    (if s_status (cm_Snapshot r) == StatusRunning then
       let lease := default zero_lease (st_leases st !! s_callID (cm_Snapshot r)) in
       Some (mkLeaseRecord (lease_owner lease) (lease_deadline lease) (s_revision (cm_Snapshot r))
               (s_fence (cm_Snapshot r)) (lease_previousRevision lease)) else None)
    (if Status_Terminal (s_status (cm_Snapshot r)) && negb (IsZero (cm_ExpiresAt r))
     then Some (cm_ExpiresAt r) else None) Hc Ht Hf HA) as Hch.
  do 2 case_match; apply Hch; try done; intros x Hx; try done; simplify_eq/=; bool_hyps; auto.
  all: split_and!; [set_solver|done..].
Qed.

Lemma exec_change o : op_contract st o → change st (exec ctx now st o).
Proof using Hst.
  intros Hcon. destruct o; cbn [exec].
  - unfold Create. enter; [constructor|]. case_match; [constructor|]. bool_hyps.
    destruct Hcon. by constructor.
  - unfold Load. enter; [constructor|]. case_match; constructor.
  - apply acquire_change.
  - by apply transition_change.
  - unfold ListReady. enter; constructor.
  - unfold SubmitSignal. destruct (NewFrame _ _); [|constructor].
    apply command_change. eexists _, _. by left.
  - unfold RequestCancel. destruct (NewFrame _ _); [|constructor].
    apply command_change. eexists _, _. by right.
  - apply claim_change.
  - unfold Renew. enter; [constructor|]. case_match; [|constructor].
    destruct (st_leases st !! _) eqn:Hl; [|constructor]. case_match; [constructor|]. by constructor.
  - unfold Release. enter; [constructor|]. case_match; [|constructor]. case_match; constructor.
  - unfold ListCalls. enter; constructor.
  - unfold GetCall. enter; [constructor|]. case_match; constructor.
  - unfold PruneFrames. enter; [constructor|]. destruct (st_records st !! _) eqn:Hc; [|constructor].
    case_match; [constructor|]. destruct (PruneSnapshot _ _) eqn:Hp; [|constructor].
    bool_hyps. by eapply change_prune.
  - unfold Expire. enter; [constructor|]. destruct (st_records st !! _) as [c|] eqn:Hc; [|constructor].
    do 3 (case_match; [constructor|]). destruct (so_records _ Hst _ _ Hc) as (_ & Hu & _).
    destruct (_ ≫= _) as [n|] eqn:HA; [|constructor]. apply bind_Ok in HA as (f & _ & HA).
    pose proof (Apply_none_fresh c (Move StatusExpired (s_fence c) [f]) n Hu eq_refl HA) as Hf.
    pose proof Hu as (_ & Hfu & _).
    assert (s_status n = StatusExpired) as Hst' by (by destruct Hf as [_ _ _ _ _ _ _ ->]).
    unfold set_leases, set_expires, set_records; cbn [snd st_records st_leases st_expires].
    eapply (change_apply st _ c _ n None (Some _)); eauto; try done.
    intros e _. rewrite Hst'. by left.
  - unfold DeleteExpired. enter; [constructor|]. apply (change_delete _ _ before).
    intros k. case_match; [|done]. intros Hk%elem_of_take. naive_solver eauto using list_elem_of_lookup_2.
Qed.
End exec_change.

(** ** Preservation *)
Lemma PruneSnapshot_Ok s floor p :
  snapshot_u64 s → PruneSnapshot s floor = Ok p →
  snapshot_u64 p ∧ snapshot_ok p ∧ ∃ floor' frames', p = with_floor s floor' frames' ∧
    s_frameFloor s ≤ floor'.
Proof.
  intros Hu. unfold PruneSnapshot. case_match; [done|]. case_match eqn:Hg; [done|]. bool_hyps.
  assert (Hok : snapshot_ok s) by (by apply validateSnapshot_spec).
  destruct (Z.leb_spec floor (s_frameFloor s)) as [|Hgt].
  { intros [= <-]. split_and!; [done..|]. exists (s_frameFloor s), (s_frames s). by destruct s. }
  case_match; [done|]. case_match; [done|]. intros [= <-]. bool_hyps.
  assert (Hpu : snapshot_u64 (with_floor s floor (drop (Z.to_nat (u64_sub floor (s_frameFloor s))) (s_frames s)))).
  { destruct Hu as (? & ? & Hs & Hl). split_and!; [done..|]. cbn [s_frameFloor with_floor].
    unfold is_u64 in *. pose proof (u64_add_range (s_sequence s) 1) as Hr. unfold is_u64 in Hr.
    destruct (Z.eqb_spec (s_sequence s) max_u64), (Z.ltb_spec (s_sequence s) max_u64); cbn in *; bool_hyps; lia. }
  split_and!; [exact Hpu| |eexists _, _; split; [done|lia]].
  by apply validateSnapshot_spec.
Qed.

Lemma fold_delete_lookup keys st k :
  let st' := fold_left delete_call keys st in
  st_records st' !! k = (if decide (k ∈ keys) then None else st_records st !! k) ∧
  st_leases st' !! k = (if decide (k ∈ keys) then None else st_leases st !! k) ∧
  st_expires st' !! k = (if decide (k ∈ keys) then None else st_expires st !! k).
Proof.
  revert st. induction keys as [|key keys IH]; intros st; cbv zeta; cbn [fold_left].
  { rewrite !decide_False by set_solver. done. }
  destruct (IH (delete_call st key)) as (-> & -> & ->).
  unfold delete_call; cbn [st_records st_leases st_expires].
  destruct (decide (k ∈ keys)); [rewrite !decide_True by set_solver; done|].
  destruct (decide (k = key)) as [->|Hne].
  - rewrite !decide_True by set_solver. by rewrite !lookup_delete_eq.
  - rewrite !decide_False by set_solver. by rewrite !lookup_delete_ne by done.
Qed.

Lemma initialSnapshot_shape s :
  initialSnapshot s = true →
  s_status s = StatusAccepted ∧ s_revision s = 1 ∧ s_fence s = 0 ∧ s_sequence s ∈ [0; 1].
Proof.
  unfold initialSnapshot. case_match; [done|]. bool_hyps. intros Hs. split_and!; [done..|].
  destruct (Z.eqb_spec (s_sequence s) 0); [set_solver|].
  destruct (Z.eqb_spec (s_sequence s) 1); [set_solver|done].
Qed.

Lemma initial_floor s : snapshot_ok s → s_revision s = 1 → s_frameFloor s = 1.
Proof.
  intros Hok Hr. pose proof (ok_initial _ Hok Hr) as Hi. unfold initial_shape in Hi. by bool_hyps.
Qed.

Lemma partial_alter_cases {A} (m : gmap string A) key x k y :
  partial_alter (λ _, x) key m !! k = Some y ↔ (k = key ∧ x = Some y) ∨ (k ≠ key ∧ m !! k = Some y).
Proof.
  destruct (decide (k = key)) as [->|Hne].
  - rewrite lookup_partial_alter_eq. naive_solver.
  - rewrite lookup_partial_alter_ne by done. naive_solver.
Qed.

Section preservation.
  Context (st : Store) (Hst : store_ok st).

Lemma create_ok s :
  st_records st !! s_callID s = None → initialSnapshot s = true → snapshot_u64 s → snapshot_ok s →
  store_ok (set_records <[s_callID s := s]> st).
Proof using Hst.
  intros Hnone Hi Hu Hok. destruct Hst as [H1 H2 H3 H4]. constructor; cbn.
  - intros k s'. rewrite lookup_insert_Some. intros [[<- <-]|[_ Hk]]; auto.
  - intros k s'. rewrite lookup_insert_Some. intros [[<- <-]|[_ Hk]] Ht; [|by eapply H2].
    apply initial_floor; [done|]. apply (initialSnapshot_shape _ Hi).
  - intros k l (s' & Hs' & Hl)%H3. exists s'. rewrite lookup_insert_ne; [done|congruence].
  - intros k e (s' & Hs' & Hl)%H4. exists s'. rewrite lookup_insert_ne; [done|congruence].
Qed.

Lemma applied_ok key current t next lease expires :
  st_records st !! key = Some current → is_u64 (t_fence t) → fresh_step current t next →
  Apply current t = Ok next →
  (∀ l, lease = Some l → s_status next ∈ [StatusRunning; StatusCancelRequested] ∧
     lease_revision l = s_revision next ∧ lease_fence l = s_fence next) →
  (∀ e, expires = Some e → Status_Terminal (s_status next) = true ∨ st_expires st !! key = Some e) →
  store_ok (mkStore (<[key := next]> (st_records st))
    (partial_alter (λ _, lease) key (st_leases st))
    (partial_alter (λ _, expires) key (st_expires st))).
Proof using Hst.
  intros Hc Ht Hf HA Hlease Hexp. destruct Hst as [H1 H2 H3 H4].
  destruct (H1 _ _ Hc) as (Hid & Hu & _). destruct (Apply_valid _ _ _ Hu Ht HA) as [Hnu Hnok].
  destruct (fresh_step_log _ _ _ Hf) as (Hid' & _ & Hfl & _). pose proof (fs_live _ _ _ Hf) as Hlive.
  constructor; cbn.
  - intros k s. rewrite lookup_insert_Some. intros [[<- <-]|[_ Hk]]; [|by apply H1].
    split; [congruence|done].
  - intros k s. rewrite lookup_insert_Some. intros [[<- <-]|[_ Hk]] Hnt; [|by eapply H2].
    rewrite Hfl. by eapply H2.
  - intros k l [[-> Hl]|[Hne Hl]]%partial_alter_cases.
    + exists next. rewrite lookup_insert_eq. split; [done|by apply Hlease].
    + destruct (H3 _ _ Hl) as (s & ? & ?). exists s. by rewrite lookup_insert_ne.
  - intros k e [[-> He]|[Hne He]]%partial_alter_cases.
    + exists next. rewrite lookup_insert_eq. split; [done|].
      destruct (Hexp _ He) as [|(s & Hs & Hterm)%H4]; [done|]. congruence.
    + destruct (H4 _ _ He) as (s & ? & ?). exists s. by rewrite lookup_insert_ne.
Qed.

Lemma pruned_ok key current floor pruned :
  st_records st !! key = Some current → Status_Terminal (s_status current) = true →
  PruneSnapshot current floor = Ok pruned → store_ok (set_records <[key := pruned]> st).
Proof using Hst.
  intros Hc Hterm Hp. destruct Hst as [H1 H2 H3 H4]. destruct (H1 _ _ Hc) as (Hid & Hu & _).
  destruct (PruneSnapshot_Ok _ _ _ Hu Hp) as (Hpu & Hpok & floor' & frames' & Heq & _).
  constructor; cbn.
  - intros k s. rewrite lookup_insert_Some. intros [[<- <-]|[_ Hk]]; [|by apply H1].
    split_and!; [by rewrite Heq|done|done].
  - intros k s. rewrite lookup_insert_Some. intros [[<- <-]|[_ Hk]] Hnt; [|by eapply H2].
    rewrite Heq in Hnt. cbn in Hnt. congruence.
  - intros k l (s & Hs & Hstat & Hl)%H3. exists s. rewrite lookup_insert_ne; [done|].
    intros ->. rewrite Hc in Hs. simplify_eq. destruct (s_status s); set_solver.
  - intros k e (s & Hs & Hl)%H4. destruct (decide (k = key)) as [->|].
    + exists pruned. rewrite lookup_insert_eq. split; [done|]. by rewrite Heq.
    + exists s. by rewrite lookup_insert_ne.
Qed.

Lemma deleted_ok keys : store_ok (fold_left delete_call keys st).
Proof using Hst.
  destruct Hst as [H1 H2 H3 H4].
  pose proof (λ k, fold_delete_lookup keys st k) as Hl.
  constructor; intros k x; destruct (Hl k) as (Hr & Hle & Hex); rewrite ?Hr, ?Hle, ?Hex;
    destruct (decide (k ∈ keys)); try done; eauto.
Qed.

Lemma change_ok st' : change st st' → store_ok st'.
Proof using Hst.
  intros H. destruct H; [done| | |by apply create_ok|by eapply applied_ok|by eapply pruned_ok|apply deleted_ok].
  - destruct Hst as [H1 H2 H3 H4]. constructor; cbn; eauto.
    intros k l (_ & Hl)%lookup_delete_Some. eauto.
  - destruct Hst as [H1 H2 H3 H4]. constructor; cbn; eauto.
    intros k l [[<- <-]|[_ Hl]]%lookup_insert_Some; cbn; eauto.
Qed.
End preservation.

(** ** Runs *)
Definition store_step (st st' : Store) : Prop :=
  ∃ ctx now o, op_contract st o ∧ st' = exec ctx now st o.

Lemma store_step_ok st st' : store_ok st → store_step st st' → store_ok st'.
Proof. intros Hok (ctx & now & o & Hc & ->). by eapply change_ok, exec_change. Qed.

Lemma NewStore_ok : store_ok NewStore.
Proof. constructor; cbn; intros k x H; by rewrite lookup_empty in H. Qed.

Lemma run_ok st st' : store_ok st → rtc store_step st st' → store_ok st'.
Proof. intros Hok H. induction H; eauto using store_step_ok. Qed.

(** C1: the store invariant holds after every sequence of operations by callers that honour
    the commit contract, failing operations included: records sit under their own identity
    and are valid, live calls keep their whole frame log, every lease belongs to an existing
    running or cancel-requested record at exactly its revision and fence, and every scheduled
    expiry belongs to a terminal record. *)
Theorem store_invariant st : rtc store_step NewStore st → store_ok st.
Proof. apply run_ok, NewStore_ok. Qed.

(** ** Records follow transition histories *)

(** One change of one call: an accepted transition, or pruning once terminal. *)
Definition record_step (c n : Snapshot) : Prop :=
  apply_step c n ∨
  (Status_Terminal (s_status c) = true ∧ ∃ floor, PruneSnapshot c floor = Ok n).

(** What one store operation may do to the record under one key. *)
Inductive record_effect (st : Store) : option Snapshot → option Snapshot → Prop :=
| effect_same r : record_effect st r r
| effect_create s : initialSnapshot s = true → record_effect st None (Some s)
| effect_step c n : record_step c n → record_effect st (Some c) (Some n)
| effect_delete c e :
    Status_Terminal (s_status c) = true → st_expires st !! s_callID c = Some e →
    record_effect st (Some c) None.

Lemma elapsed_keys_spec st before key :
  key ∈ elapsed_keys st before ↔ ∃ e s, st_expires st !! key = Some e ∧
    st_records st !! key = Some s ∧ Status_Terminal (s_status s) = true ∧ e ≤ before.
Proof.
  unfold elapsed_keys. rewrite elem_of_sorted_keys. unfold After. split.
  - intros (e & He & Hf). case_match; [|done]. bool_hyps. eauto 10.
  - intros (e & s & He & Hs & Ht & Hle). exists e. rewrite Hs, Ht. split; [done|]. cbn.
    apply negb_true_iff, Z.ltb_ge. done.
Qed.

Lemma change_effect st st' key :
  store_ok st → change st st' → record_effect st (st_records st !! key) (st_records st' !! key).
Proof.
  intros Hok H. destruct H as [| | |s Hn Hi|k c t n lease exp Hc Ht Hf HA|k c fl p Hc Hterm Hp|keys before Hk];
    cbn [set_leases set_records st_records]; try constructor.
  - destruct (decide (key = s_callID s)) as [->|]; [|rewrite lookup_insert_ne by done; constructor].
    rewrite lookup_insert_eq, Hn. by constructor.
  - destruct (decide (key = k)) as [->|]; [|rewrite lookup_insert_ne by done; constructor].
    rewrite lookup_insert_eq, Hc. constructor. left. exists t. done.
  - destruct (decide (key = k)) as [->|]; [|rewrite lookup_insert_ne by done; constructor].
    rewrite lookup_insert_eq, Hc. constructor. right. eauto.
  - destruct (fold_delete_lookup keys st key) as (-> & _).
    destruct (decide (key ∈ keys)) as [(e & s & He & Hs & Ht & _)%Hk%elapsed_keys_spec|]; [|constructor].
    rewrite Hs. destruct (so_records _ Hok _ _ Hs) as (<- & _). by econstructor.
Qed.

(** Runs without garbage collection: every record stays and follows its history. *)
Definition keeping (o : op) : Prop :=
  match o with OpDeleteExpired _ _ => False | _ => True end.
#[global] Instance keeping_dec o : Decision (keeping o).
Proof. destruct o; apply _. Defined.
Definition live_step (st st' : Store) : Prop :=
  ∃ ctx now o, keeping o ∧ op_contract st o ∧ st' = exec ctx now st o.

Lemma exec_keeping ctx now st o key c :
  store_ok st → op_contract st o → keeping o → st_records st !! key = Some c →
  ∃ n, st_records (exec ctx now st o) !! key = Some n ∧ rtc record_step c n.
Proof.
  intros Hok Hc Hk Hr. pose proof (exec_change ctx now st Hok o Hc) as Hch.
  pose proof (change_effect _ _ key Hok Hch) as He. rewrite Hr in He.
  destruct (st_records (exec ctx now st o) !! key) as [n|] eqn:Hn.
  { exists n. split; [done|]. inversion He; subst; [done|]. by apply rtc_once. }
  exfalso. destruct o; try done; revert Hn; cbn [exec].
  all: try (unfold Create, Load, Acquire, Transition, ListReady, SubmitSignal, RequestCancel,
    command, Claim, Renew, Release, ListCalls, GetCall, PruneFrames, Expire;
    repeat (first [enter | case_match]); cbn [snd set_records set_leases set_expires st_records];
    rewrite ?lookup_insert_None; intros; naive_solver).
Qed.

(** Only [DeleteExpired] removes a record, once its expiry has come; only [Create] adds one. *)
Lemma exec_delete ctx now st o key c :
  store_ok st → op_contract st o → st_records st !! key = Some c →
  st_records (exec ctx now st o) !! key = None →
  ∃ before limit e, o = OpDeleteExpired before limit ∧ Status_Terminal (s_status c) = true ∧
    st_expires st !! key = Some e ∧ e ≤ before.
Proof.
  intros Hok Hc Hr Hn. destruct (decide (keeping o)) as [Hk|Hk].
  { destruct (exec_keeping ctx now st o key c) as (n & Hn' & _); [done..|]. congruence. }
  destruct o; try (exfalso; by apply Hk). exists before, limit. revert Hn. cbn [exec].
  unfold DeleteExpired. enter; [cbn; congruence|]. cbn [snd].
  match goal with |- context [fold_left delete_call ?keys st] => destruct (fold_delete_lookup keys st key) as (-> & _); set (ks := keys) end.
  destruct (decide (key ∈ ks)) as [Hin|]; [|congruence]. intros _.
  assert (Hel : key ∈ elapsed_keys st before) by (unfold ks in Hin; case_match; [by apply elem_of_take in Hin as (i & Hi%list_elem_of_lookup_2 & _)|done]).
  apply elapsed_keys_spec in Hel as (e & s & He & Hs & Ht & Hle). rewrite Hr in Hs. injection Hs as <-. by exists e.
Qed.

Lemma exec_create ctx now st o key s :
  st_records st !! key = None → st_records (exec ctx now st o) !! key = Some s →
  o = OpCreate s ∧ s_callID s = key.
Proof.
  intros Hr. destruct o; cbn [exec].
  all: try (unfold Create, Load, Acquire, Transition, ListReady, SubmitSignal, RequestCancel,
    command, Claim, Renew, Release, ListCalls, GetCall, PruneFrames, Expire;
    repeat (first [enter | case_match]); cbn [snd set_records set_leases set_expires st_records];
    rewrite ?lookup_insert_Some; intros; naive_solver).
  unfold DeleteExpired. enter; [cbn; congruence|]. cbn [snd].
  match goal with |- context [fold_left delete_call ?keys st] => destruct (fold_delete_lookup keys st key) as (-> & _) end.
  case_match; [done|congruence].
Qed.

(** What one operation does to the record under one key, by the operation. *)
Inductive op_effect (st : Store) (o : op) (key : string) : option Snapshot → option Snapshot → Prop :=
| op_same r : op_effect st o key r r
| op_create s : o = OpCreate s → s_callID s = key → initialSnapshot s = true → op_effect st o key None (Some s)
| op_step c n : record_step c n → op_effect st o key (Some c) (Some n)
| op_delete c before limit e :
    o = OpDeleteExpired before limit → Status_Terminal (s_status c) = true →
    st_expires st !! key = Some e → e ≤ before → op_effect st o key (Some c) None.

(** C3: the store refines independent call histories.  Whatever operation runs, the record
    under any key is unchanged, or created by [Create] from an initial snapshot, or moved by one
    transition that the state machine accepts, or pruned after it became terminal, or deleted by
    [DeleteExpired], which happens only to a terminal record whose scheduled expiry is not after
    the time given. *)
Theorem store_refines_histories ctx now st o key :
  store_ok st → op_contract st o →
  op_effect st o key (st_records st !! key) (st_records (exec ctx now st o) !! key).
Proof.
  intros Hok Hc. pose proof (change_effect _ _ key Hok (exec_change ctx now st Hok o Hc)) as He.
  destruct (st_records st !! key) as [c|] eqn:Hr, (st_records (exec ctx now st o) !! key) as [n|] eqn:Hn.
  - inversion He; subst; [constructor|by apply op_step].
  - destruct (exec_delete ctx now st o key c) as (before & limit & e & -> & Ht & Hx & Hle); [done..|]. by eapply op_delete.
  - destruct (exec_create ctx now st o key n) as [-> Hk]; [done..|]. inversion He; subst. by apply op_create.
  - constructor.
Qed.

Lemma live_run_record st st' key c :
  store_ok st → rtc live_step st st' → st_records st !! key = Some c →
  store_ok st' ∧ ∃ n, st_records st' !! key = Some n ∧ rtc record_step c n.
Proof.
  intros Hok H. revert c Hok. induction H as [st|st st1 st2 (ctx & now & o & Hk & Hc & ->) _ IH];
    intros c Hok Hr; [eauto using rtc_refl|].
  destruct (exec_keeping ctx now st o key c) as (n & Hn & Hcn); [done..|].
  destruct (IH n) as (Hok2 & m & Hm & Hnm); [|done|].
  { by eapply change_ok, exec_change. }
  split; [done|]. exists m. split; [done|]. by etrans.
Qed.

(** Runs that keep the record of one call: operations of any kind, deletions of others included. *)
Definition retaining_step (key : string) (st st' : Store) : Prop :=
  ∃ ctx now o, op_contract st o ∧ st' = exec ctx now st o ∧ is_Some (st_records st' !! key).

Lemma retaining_run_record st st' key c :
  store_ok st → rtc (retaining_step key) st st' → st_records st !! key = Some c →
  store_ok st' ∧ ∃ n, st_records st' !! key = Some n ∧ rtc record_step c n.
Proof.
  intros Hok H. revert c Hok. induction H as [st|st st1 st2 (ctx & now & o & Hc & -> & n & Hn) _ IH];
    intros c Hok Hr; [eauto using rtc_refl|].
  pose proof (exec_change ctx now st Hok o Hc) as Hch. pose proof (change_effect _ _ key Hok Hch) as He. rewrite Hr, Hn in He.
  destruct (IH n) as (Hok2 & m & Hm & Hnm); [by eapply change_ok|done|].
  split; [done|]. exists m. split; [done|]. etrans; [|done]. inversion He; subst; [done|by apply rtc_once].
Qed.

Lemma record_step_valid c n : snapshot_u64 c → record_step c n → snapshot_u64 n ∧ snapshot_ok n.
Proof.
  intros Hu [Ha|(_ & floor & Hp)]; [by eapply apply_step_valid|].
  by destruct (PruneSnapshot_Ok _ _ _ Hu Hp) as (? & ? & _).
Qed.

Lemma record_step_commands c n id r :
  snapshot_u64 c → record_step c n → s_commands c !! id = Some r → s_commands n !! id = Some r.
Proof.
  intros Hu [Ha|(_ & floor & Hp)] Hr.
  - eapply history_commands_grow; [done|by apply rtc_once|done].
  - by destruct (PruneSnapshot_Ok _ _ _ Hu Hp) as (_ & _ & fl & fs & -> & _).
Qed.

(** A record changes only by raising its revision, unless it is terminal. *)
Definition record_le (c n : Snapshot) : Prop :=
  s_callID n = s_callID c ∧ s_fence c ≤ s_fence n ∧
  (s_revision c < s_revision n ∨
   (s_revision n = s_revision c ∧ s_fence n = s_fence c ∧ s_status n = s_status c ∧
    (n = c ∨ Status_Terminal (s_status c) = true))).

Lemma record_le_refl c : record_le c c.
Proof. unfold record_le. split; [done|]. split; [lia|]. right. auto. Qed.

Lemma record_step_le c n : snapshot_u64 c → record_step c n → record_le c n.
Proof.
  intros Hu [(t & _ & HA)|(Ht & floor & Hp)].
  - apply Apply_cases in HA as [(Hf & _)|(-> & _)]; [|apply record_le_refl|done].
    destruct (fresh_step_log _ _ _ Hf) as (Hid & _ & _ & Hrev & Hup & _).
    unfold record_le. split; [done|]. split; [done|]. left. lia.
  - destruct (PruneSnapshot_Ok _ _ _ Hu Hp) as (_ & _ & fl & fs & -> & _).
    unfold record_le; cbn. split; [done|]. split; [lia|]. right. auto.
Qed.

Lemma record_le_trans a b c : record_le a b → record_le b c → record_le a c.
Proof.
  intros (E1 & F1 & H1) (E2 & F2 & H2). unfold record_le.
  split; [congruence|]. split; [lia|].
  destruct H1 as [H1|(R1 & G1 & S1 & H1)], H2 as [H2|(R2 & G2 & S2 & H2)]; [left; lia..|].
  right. split_and!; [lia|lia|congruence|]. destruct H1 as [->|H1]; [done|auto].
Qed.

Lemma history_record_le c n :
  snapshot_u64 c → rtc record_step c n → record_le c n ∧ snapshot_u64 n.
Proof.
  intros Hu H. induction H as [c|c m n Hs _ IH].
  { split; [apply record_le_refl|done]. }
  destruct (record_step_valid _ _ Hu Hs) as [Hu' _]. destruct (IH Hu') as [Hle Hn]. split; [|done].
  eapply record_le_trans; [by apply record_step_le|done].
Qed.

Lemma record_history_commands c n id r :
  snapshot_u64 c → rtc record_step c n → s_commands c !! id = Some r → s_commands n !! id = Some r.
Proof.
  intros Hu H. induction H as [|c m n Hs _ IH]; [done|]. intros Hr.
  destruct (record_step_valid _ _ Hu Hs) as [Hu' _]. apply IH; [done|].
  by apply (record_step_commands c).
Qed.

(** ** Answers *)

(** The snapshots an operation hands to its caller, or its error. *)
Definition answer (ctx : context cerror) (now : time) (st : Store) (o : op) :
    result cerror (list Snapshot) :=
  match o with
  | OpCreate s => s' ← fst (Create ctx st s); Ok [s']
  | OpLoad id => s ← fst (Load ctx st id); Ok [s]
  | OpAcquire id rev => s ← fst (Acquire ctx now st id rev); Ok [s]
  | OpTransition r => s ← fst (Transition ctx now st r); Ok [s]
  | OpListReady limit => fst (ListReady ctx now st limit)
  | OpSubmitSignal r => s ← fst (SubmitSignal ctx st r); Ok [s]
  | OpRequestCancel r => s ← fst (RequestCancel ctx st r); Ok [s]
  | OpClaim r => l ← fst (Claim ctx now st r); Ok [l_Snapshot l]
  | OpRenew r => l ← fst (Renew ctx now st r); Ok [l_Snapshot l]
  | OpRelease r => _ ← fst (Release ctx st r); Ok []
  | OpListCalls r => _ ← fst (ListCalls ctx st r); Ok []
  | OpGetCall id => _ ← fst (GetCall ctx st id); Ok []
  | OpPruneFrames id floor => s ← fst (PruneFrames ctx st id floor); Ok [s]
  | OpExpire r => s ← fst (Expire ctx st r); Ok [s]
  | OpDeleteExpired before limit => _ ← fst (DeleteExpired ctx st before limit); Ok []
  end.

(** ** Leases exclude other executors *)

(** An executor operation on [key] by anyone but [owner]. *)
Definition foreign (key owner : string) (o : op) : Prop :=
  match o with
  | OpAcquire id _ => id = key
  | OpClaim r => cq_CallID r = key ∧ cq_OwnerID r ≠ owner
  | OpTransition r => s_callID (cm_Snapshot r) = key ∧ cm_LeaseOwner r ≠ owner
  | OpRenew r | OpRelease r => lq_CallID r = key ∧ lq_OwnerID r ≠ owner
  | _ => False
  end.

Lemma owned_lease_owner st key owner rev fence l :
  st_leases st !! key = Some l → lease_owner l ≠ owner → owned_lease st key owner rev fence = false.
Proof. intros Hl Hne. unfold owned_lease. rewrite Hl, bool_decide_false by done. done. Qed.

(** an unexpired lease excludes every other executor: while it lasts, any Acquire, and any
    Claim, Transition, Renew or Release under another owner name, fails and leaves the store
    exactly as it was. *)
Theorem lease_excludes_others ctx now st key l o :
  st_leases st !! key = Some l → now < lease_deadline l → foreign key (lease_owner l) o →
  exec ctx now st o = st ∧ ∃ e, answer ctx now st o = Err e.
Proof.
  intros Hl Hact Hfor.
  assert (Hla : leaseActive st key now = true) by (unfold leaseActive; rewrite Hl; by apply Z.ltb_lt).
  assert (Haf : After (lease_deadline l) now = true) by (by apply Z.ltb_lt).
  pose proof (owned_lease_owner st key) as Hown.
  destruct o; try done; cbn [foreign] in Hfor; cbn [exec answer].
  2-5: destruct Hfor as [Hkey Hne].
  - subst. unfold Acquire. enter; [eauto|]. case_match; [|eauto]. case_match; [eauto|].
    rewrite Hla. eauto.
  - unfold Transition. enter; [eauto|]. case_match; [|eauto]. rewrite Hkey, Hla.
    rewrite (Hown _ _ _ l Hl (not_eq_sym Hne)). destruct (cm_LeaseOwner _ != ""); cbn; eauto.
  - unfold Claim, held_lease. enter; [eauto|]. case_match; [|eauto]. rewrite Hkey, Hl, Haf.
    rewrite (bool_decide_false (lease_owner l = _)) by congruence. cbn. eauto.
  - unfold Renew. enter; [eauto|]. case_match; [|eauto]. rewrite Hkey, Hl.
    rewrite (Hown _ _ _ l Hl (not_eq_sym Hne)). cbn. eauto.
  - unfold Release. enter; [eauto|]. case_match; [|eauto]. rewrite Hkey.
    rewrite (Hown _ _ _ l Hl (not_eq_sym Hne)). cbn. eauto.
Qed.

(** ** Fencing *)
Definition owner_op (key : string) (o : op) : Prop :=
  (∃ rev, o = OpAcquire key rev) ∨ (∃ r, o = OpClaim r ∧ cq_CallID r = key).

Lemma transition_fence ctx now st r c :
  st_records st !! s_callID (cm_Snapshot r) = Some c → cm_Fence r ≠ s_fence c →
  snd (Transition ctx now st r) = st ∧ ∃ e, fst (Transition ctx now st r) = Err e.
Proof.
  intros Hc Hne. unfold Transition. enter; [eauto|]. rewrite Hc.
  destruct (if cm_LeaseOwner r != "" then _ else _); [cbn; eauto|].
  rewrite (proj2 (Z.eqb_neq _ _)) by done. cbn. eauto.
Qed.

(** A granted ownership either moved the record under the next fence, or (Claim replay) is
    the lease already held. *)
Lemma owner_op_grants ctx now st o key c :
  store_ok st → owner_op key o → st_records st !! key = Some c → leaseActive st key now = false →
  (∃ l, answer ctx now st o = Ok l) →
  ∃ n, st_records (exec ctx now st o) !! key = Some n ∧ s_fence n = s_fence c + 1.
Proof.
  intros Hok Ho Hc Hna [l Hans]. destruct (so_records _ Hok _ _ Hc) as (_ & Hu & _).
  assert (Hheld : ∀ r, cq_CallID r = key → held_lease st now r c = None).
  { intros r <-. unfold held_lease, leaseActive in *. case_match; [|done]. by rewrite Hna. }
  destruct Ho as [(rev & ->)|(r & -> & Hr)]; revert Hans; cbn [answer exec].
  - unfold Acquire. enter; [done|]. rewrite Hc. case_match; [done|]. rewrite Hna.
    destruct (next_owner c now) as [n|] eqn:Hn; [|done]. intros _.
    exists n. cbn. rewrite lookup_insert_eq. split; [done|]. by eapply next_owner_status.
  - unfold Claim. rewrite Hr. enter; [done|]. rewrite Hc, Hheld by done. case_match; [done|].
    destruct (next_owner c now) as [n|] eqn:Hn; [|done]. intros _.
    exists n. cbn. rewrite lookup_insert_eq. split; [done|]. by eapply next_owner_status.
Qed.

(** C18: a fenced-off executor stays fenced off.  Once ownership of a call was granted again
    (its lease was not active and an Acquire or Claim succeeded), a Transition carrying the
    fence of the previous owner, or any older one, fails without effect at every later point
    until the record of the call itself is deleted, whatever else is deleted meanwhile. *)
Theorem stale_executor_fenced ctx now st o key c st2 ctx' now' r :
  store_ok st → owner_op key o → st_records st !! key = Some c → leaseActive st key now = false →
  (∃ l, answer ctx now st o = Ok l) → rtc (retaining_step key) (exec ctx now st o) st2 →
  s_callID (cm_Snapshot r) = key → cm_Fence r ≤ s_fence c →
  exec ctx' now' st2 (OpTransition r) = st2 ∧ ∃ e, answer ctx' now' st2 (OpTransition r) = Err e.
Proof.
  intros Hok Ho Hc Hna Hans Hrun Hkey Hf.
  destruct (owner_op_grants ctx now st o key c) as (n & Hn & Hfn); [done..|].
  assert (Hok1 : store_ok (exec ctx now st o)).
  { eapply change_ok, exec_change; [done..|]. by destruct Ho as [(? & ->)|(? & -> & _)]. }
  destruct (retaining_run_record _ _ _ _ Hok1 Hrun Hn) as (Hok2 & m & Hm & Hnm).
  destruct (so_records _ Hok1 _ _ Hn) as (_ & Hu & _).
  destruct (history_record_le _ _ Hu Hnm) as [(_ & Hle & _) _].
  destruct (transition_fence ctx' now' st2 r m) as [H1 [e H2]]; [by rewrite Hkey|lia|].
  cbn [exec answer]. rewrite H1, H2. split; [done|]. by exists e.
Qed.

(** ** Commands are idempotent in the store *)
Definition command_op (cancel : bool) (r : CommandRequest) : op :=
  if cancel then OpRequestCancel r else OpSubmitSignal r.
Definition command_transition (cancel : bool) (r : CommandRequest) : ContModel.Transition :=
  if cancel then Cancel (cd_CommandID r) [mkFrame 0 FrameCancelRequested (cd_Payload r)]
  else Signal (cd_CommandID r) [mkFrame 0 FrameSignal (cd_Payload r)].

Lemma command_transition_external b r : external_command (command_transition b r).
Proof. destruct b; eexists _, _; [by right|by left]. Qed.

Lemma command_op_spec b ctx now st r l :
  answer ctx now st (command_op b r) = Ok l →
  slen (cd_Payload r) ≤ maxPayloadBytes ∧
  ∃ s, l = [s] ∧ command ctx st r (command_transition b r) = (Ok s, exec ctx now st (command_op b r)).
Proof.
  destruct b; cbn [command_op answer exec command_transition]; unfold SubmitSignal, RequestCancel, NewFrame;
    cbn [FrameKind_valid negb orb]; destruct (Z.ltb_spec maxPayloadBytes (slen (cd_Payload r))); cbn [fst snd];
    try done; destruct (command _ _ _ _) as [[s|e] st'] eqn:HC; cbn; try done;
    intros [= <-]; (split; [lia|]); exists s; done.
Qed.

Lemma command_Ok ctx st r t s st' :
  store_ok st → command ctx st r t = (Ok s, st') →
  cd_CallID r ≠ "" ∧ cd_ExpectedRevision r ≠ 0 ∧ ctx = Context None ∧
  ∃ c, st_records st !! cd_CallID r = Some c ∧ Apply c t = Ok s ∧
    st_records st' !! cd_CallID r = Some s.
Proof.
  unfold command. intros Hok (-> & Hg & Hb)%entry_Ok. bool_hyps. split_and!; [done..|].
  destruct (st_records st !! _) as [c|] eqn:Hc; [|done]. exists c.
  destruct (so_records _ Hok _ _ Hc) as (_ & Hu & _).
  destruct (Apply c t) as [n|] eqn:HA; [|done].
  destruct (Z.eqb_spec (s_revision n) (s_revision c)) as [Heq|]; simplify_eq.
  - apply Apply_cases in HA as [(Hf & _)|(-> & _)]; [|done..].
    apply fresh_step_log in Hf as (_ & _ & _ & Hr & _). lia.
  - case_match; simplify_eq. cbn. by rewrite lookup_insert_eq.
Qed.

Lemma command_replay ctx st r t s :
  cd_CallID r ≠ "" → cd_ExpectedRevision r ≠ 0 →
  st_records st !! cd_CallID r = Some s → Apply s t = Ok s →
  command (Context ctx) st r t =
  match ctx with None => (Ok s, st) | Some cause => (Err cause, st) end.
Proof.
  intros H1 H2 Hs HA. unfold command, entry. rewrite bool_decide_false by done.
  rewrite (proj2 (Z.eqb_neq _ _)) by done. cbn. destruct ctx; [done|].
  by rewrite Hs, HA, Z.eqb_refl.
Qed.

(** a Signal or Cancel whose response was lost can be retried for ever with the original
    request: after any further run that does not garbage-collect the call, the same request
    (same command identity, payload and now outdated expected revision) succeeds, returns the
    current record and leaves the store untouched. *)
Theorem command_retry_idempotent cancel now st r l st2 now' :
  store_ok st → answer (Context None) now st (command_op cancel r) = Ok l →
  rtc live_step (exec (Context None) now st (command_op cancel r)) st2 →
  ∃ s, st_records st2 !! cd_CallID r = Some s ∧
    answer (Context None) now' st2 (command_op cancel r) = Ok [s] ∧
    exec (Context None) now' st2 (command_op cancel r) = st2.
Proof.
  intros Hok (Hpay & s & -> & Hcmd)%command_op_spec Hrun.
  destruct (command_Ok _ _ _ _ _ _ Hok Hcmd) as (Hid & Hrev & _ & c & Hc & HA & Hs).
  assert (Hok1 : store_ok (exec (Context None) now st (command_op cancel r))).
  { eapply change_ok, exec_change; [done..|]. by destruct cancel. }
  destruct (live_run_record _ _ _ _ Hok1 Hrun Hs) as (Hok2 & n & Hn & Hsn).
  destruct (so_records _ Hok _ _ Hc) as (_ & Hu & _).
  destruct (so_records _ Hok1 _ _ Hs) as (_ & Hus & _).
  destruct (so_records _ Hok2 _ _ Hn) as (_ & Hun & Hokn).
  pose proof (command_transition_external cancel r) as Hext.
  destruct (Apply_records _ _ _ Hu HA (external_command_some _ Hext)) as [Hcid Hrec].
  assert (Hrep : Apply n (command_transition cancel r) = Ok n).
  { apply Apply_replay; [done..|]. by apply (record_history_commands s n). }
  pose proof (command_replay None st2 r _ n Hid Hrev Hn Hrep) as Hr.
  exists n. split; [done|].
  destruct cancel; cbn [command_op command_transition answer exec] in *;
    unfold SubmitSignal, RequestCancel, NewFrame; cbn [FrameKind_valid negb orb];
    rewrite (proj2 (Z.ltb_ge _ _)) by done; by rewrite Hr.
Qed.

(** ** Optimistic clients *)
Lemma records_of_elem st keys s :
  store_ok st → s ∈ records_of st keys → st_records st !! s_callID s = Some s.
Proof.
  intros Hok (k & _ & Hk)%list_elem_of_omap. by destruct (so_records _ Hok _ _ Hk) as (-> & _).
Qed.

(** Every snapshot an operation returns is the current record of its call. *)
Lemma answer_current ctx now st o l s :
  store_ok st → op_contract st o → answer ctx now st o = Ok l → s ∈ l →
  st_records (exec ctx now st o) !! s_callID s = Some s.
Proof.
  intros Hok Hcon Hans Hin.
  assert (Hok' : store_ok (exec ctx now st o)) by (by eapply change_ok, exec_change).
  enough (∃ k, st_records (exec ctx now st o) !! k = Some s) as [k Hk]
    by (by destruct (so_records _ Hok' _ _ Hk) as (-> & _)).
  clear Hcon Hok'. destruct o; cbn [answer exec] in *.
  - unfold Create in *. revert Hans. enter; [done|]. case_match; [done|]. cbn.
    intros [= <-]. apply list_elem_of_singleton in Hin as ->. eexists. apply lookup_insert_eq.
  - unfold Load in *. revert Hans. enter; [done|]. case_match; [|done]. cbn.
    intros [= <-]. apply list_elem_of_singleton in Hin as ->. eauto.
  - unfold Acquire in *. revert Hans. enter; [done|]. do 4 (case_match; try done). cbn.
    intros [= <-]. apply list_elem_of_singleton in Hin as ->. eexists. apply lookup_insert_eq.
  - unfold Transition in *. revert Hans. enter; [done|]. case_match; [|done].
    destruct (if cm_LeaseOwner _ != "" then _ else _); [done|]. do 3 (case_match; [done|]). cbn.
    intros [= <-]. apply list_elem_of_singleton in Hin as ->. eexists. apply lookup_insert_eq.
  - unfold ListReady in *. revert Hans. enter; [done|]. intros [= <-]. eauto using records_of_elem.
  - change (OpSubmitSignal request) with (command_op false request) in *.
    destruct (command_op_spec false ctx now st request l Hans) as (_ & s' & -> & Hc).
    apply list_elem_of_singleton in Hin as ->. apply (command_Ok _ _ _ _ _ _ Hok) in Hc.
    destruct Hc as (_ & _ & _ & _ & _ & _ & Hr). eauto.
  - destruct (command_op_spec true ctx now st request l Hans) as (_ & s' & -> & Hc).
    apply list_elem_of_singleton in Hin as ->. apply (command_Ok _ _ _ _ _ _ Hok) in Hc.
    destruct Hc as (_ & _ & _ & _ & _ & _ & Hr). eauto.
  - unfold Claim in *. revert Hans. enter; [done|].
    destruct (st_records st !! _) as [c|] eqn:Hc; [|done].
    destruct (held_lease st now request c) as [a|] eqn:Hh.
    + unfold held_lease in Hh. do 2 (case_match; [|done]). simplify_eq. case_match; [|done]. cbn.
      intros [= <-]. apply list_elem_of_singleton in Hin as ->. eauto.
    + case_match; [done|]. destruct (next_owner c now) as [n|]; [|done]. cbn.
      intros [= <-]. apply list_elem_of_singleton in Hin as ->. eexists. apply lookup_insert_eq.
  - unfold Renew in *. revert Hans. enter; [done|]. repeat (case_match; try done); cbn.
    intros [= <-]. apply list_elem_of_singleton in Hin as ->. eauto.
  - unfold Release in *. revert Hans. enter; [done|]. repeat (case_match; try done); cbn.
    intros [= <-]. set_solver.
  - apply bind_Ok in Hans as (_ & _ & [= <-]). set_solver.
  - apply bind_Ok in Hans as (_ & _ & [= <-]). set_solver.
  - unfold PruneFrames in *. revert Hans. enter; [done|]. do 3 (case_match; try done). cbn.
    intros [= <-]. apply list_elem_of_singleton in Hin as ->. eexists. apply lookup_insert_eq.
  - unfold Expire in *. revert Hans. enter; [done|]. case_match; [|done].
    case_match; [cbn; intros [= <-]; apply list_elem_of_singleton in Hin as ->; eauto|].
    do 2 (case_match; [done|]). destruct (NewFrame FrameExpired "" ≫= _); [|done]. cbn.
    intros [= <-]. apply list_elem_of_singleton in Hin as ->. eexists. apply lookup_insert_eq.
  - apply bind_Ok in Hans as (_ & _ & [= <-]). set_solver.
Qed.

(** Clients that work optimistically: they create valid calls, remember the snapshots the
    store handed out, and commit the result of a transition applied to a live one of them
    under its revision.  Nothing requires the remembered snapshot to be current. *)
Definition client_op (seen : list Snapshot) (o : op) : Prop :=
  match o with
  | OpCreate s => snapshot_u64 s ∧ snapshot_ok s
  | OpTransition r => ∃ base t, base ∈ seen ∧ Status_Terminal (s_status base) = false ∧
      is_u64 (t_fence t) ∧ Apply base t = Ok (cm_Snapshot r) ∧ cm_ExpectedRevision r = s_revision base
  | o => keeping o
  end.

Inductive client_step : Store * list Snapshot → Store * list Snapshot → Prop :=
| client_does ctx now st seen o :
    client_op seen o →
    client_step (st, seen)
      (exec ctx now st o,
       match answer ctx now st o with Ok l => l ++ seen | Err _ => seen end).

(** Every remembered snapshot is current, outdated, or terminal. *)
Definition seen_ok (st : Store) (seen : list Snapshot) : Prop :=
  ∀ b, b ∈ seen → snapshot_u64 b ∧ ∃ r, st_records st !! s_callID b = Some r ∧ record_le b r.

(** A live snapshot seen earlier is still the record when its revision is. *)
Lemma seen_current st seen b c :
  seen_ok st seen → b ∈ seen → Status_Terminal (s_status b) = false →
  st_records st !! s_callID b = Some c → s_revision c = s_revision b → c = b.
Proof.
  intros Hseen Hb Hlive Hc Hrev. destruct (Hseen b Hb) as (Hu & r & Hr & _ & _ & Hle).
  rewrite Hr in Hc. injection Hc as ->.
  destruct Hle as [|(_ & _ & _ & [->|Hterm])]; [lia|done|congruence].
Qed.

Lemma Apply_callID b t n : snapshot_u64 b → Apply b t = Ok n → s_callID n = s_callID b.
Proof.
  intros Hu [[Hf _]|[-> _]]%Apply_cases; [|done|done]. by apply fresh_step_log in Hf as [-> _].
Qed.

Lemma client_contract st seen o :
  store_ok st → seen_ok st seen → client_op seen o → op_contract st o ∧ keeping o.
Proof.
  intros Hok Hseen Hcl. destruct o; try done; cbn in Hcl |- *.
  destruct Hcl as (b & t & Hb & Hlive & Ht & HA & Hexp). split; [|done]. intros c Hc Hrev.
  rewrite (Apply_callID b t) in Hc by (try done; by apply Hseen).
  rewrite (seen_current st seen b c) by (done || lia). by exists t.
Qed.

Lemma client_step_ok st seen st' seen' :
  store_ok st → seen_ok st seen → client_step (st, seen) (st', seen') →
  store_ok st' ∧ seen_ok st' seen'.
Proof.
  intros Hok Hseen H. inversion H as [ctx now st0 seen0 o Hcl]; subst. clear H.
  destruct (client_contract _ _ _ Hok Hseen Hcl) as [Hcon Hkeep].
  assert (Hok' : store_ok (exec ctx now st o)) by (by eapply change_ok, exec_change).
  assert (Hold : seen_ok (exec ctx now st o) seen).
  { intros b Hb. destruct (Hseen b Hb) as (Hu & r & Hr & Hle). split; [done|].
    destruct (exec_keeping ctx now st o _ r Hok Hcon Hkeep Hr) as (n & Hn & Hrn).
    exists n. split; [done|]. destruct (so_records _ Hok _ _ Hr) as (_ & Hru & _).
    eapply record_le_trans; [done|]. by eapply history_record_le. }
  split; [done|]. destruct (answer _ _ _ _) as [l|] eqn:Hans; [|done].
  intros b [Hb|Hb]%elem_of_app; [|by apply Hold].
  pose proof (answer_current _ _ _ _ _ _ Hok Hcon Hans Hb) as Hr.
  destruct (so_records _ Hok' _ _ Hr) as (_ & Hu & _). eauto using record_le_refl.
Qed.

Lemma client_run_ok st seen :
  rtc client_step (NewStore, []) (st, seen) → store_ok st ∧ seen_ok st seen.
Proof.
  intros H. refine (rtc_ind_r (λ p, store_ok p.1 ∧ seen_ok p.1 p.2) (NewStore, []) _ _ (st, seen) H).
  - split; [apply NewStore_ok|]. intros b Hb. set_solver.
  - intros [s1 l1] [s2 l2] _ Hs [Hok Hseen]. by apply (client_step_ok s1 l1).
Qed.

(** no lost updates.  In every run of optimistic clients (any number, interleaved in any
    way, each committing transitions computed from some snapshot it once received), a
    Transition that succeeds was computed from the record that is current at that moment; so
    the commit contract of the store is met by every such client. *)
Theorem no_lost_update st seen ctx now r base t n :
  rtc client_step (NewStore, []) (st, seen) → base ∈ seen →
  Status_Terminal (s_status base) = false →
  Apply base t = Ok (cm_Snapshot r) → cm_ExpectedRevision r = s_revision base →
  fst (Transition ctx now st r) = Ok n → st_records st !! s_callID base = Some base.
Proof.
  intros Hrun Hb Hlive HA Hexp Hans. destruct (client_run_ok _ _ Hrun) as [Hok Hseen].
  revert Hans. unfold Transition. enter; [done|].
  rewrite (Apply_callID base t) by (try done; by apply Hseen).
  destruct (st_records st !! s_callID base) as [cur|] eqn:Hr; [|done].
  destruct (if cm_LeaseOwner r != "" then _ else _); [done|]. case_match; [done|].
  destruct (Z.eqb_spec (cm_ExpectedRevision r) (s_revision cur)) as [Heq|]; [|done]. intros _.
  by rewrite (seen_current st seen base cur) by (done || lia).
Qed.

(** ** What succeeds *)
Lemma successor_frames_app index (frames new : list Frame) :
  successor_frames index frames (frames ++ number_frames (index + zlen frames) new) = true.
Proof.
  revert index. induction frames as [|f frames IH]; intros index.
  - rewrite Z.add_0_r. cbn [app]. revert index. induction new as [|g new IH]; intros index; [done|].
    cbn. rewrite Z.eqb_refl. apply IH.
  - cbn [app successor_frames]. rewrite zlen_cons. unfold equalFrame.
    rewrite Z.eqb_refl, !bool_decide_true by done. cbn.
    replace (index + (1 + zlen frames)) with (index + 1 + zlen frames) by lia. apply IH.
Qed.

Lemma validSuccessor_applied c t n :
  snapshot_u64 c → snapshot_ok c → s_frameFloor c = 1 → fresh_step c t n →
  validSuccessor c n (s_fence n) = true.
Proof.
  intros Hu Hok Hfl Hf. pose proof (fs_room _ _ _ Hf). pose proof (ok_count _ Hok) as Hcnt.
  destruct (fresh_step_log _ _ _ Hf) as (Hid & Hop & _ & Hrev & _ & Hfr & Hseq).
  pose proof (zlen_nonneg (t_frames t)). destruct Hu as (Hr & _). unfold is_u64 in Hr.
  unfold validSuccessor. rewrite Hid, Hop, Hrev, Hseq, u64_add_small by lia.
  rewrite !bool_decide_true, !Z.eqb_refl by done. cbn [negb orb].
  rewrite (proj2 (Z.ltb_ge _ _)) by lia. rewrite Hfr.
  replace (s_sequence c) with (0 + zlen (s_frames c)) by lia. apply successor_frames_app.
Qed.

Record commit_of (st : Store) (now : time) (c : Snapshot) (r : CommitRequest) : Prop := mk_commit_of {
  co_record : st_records st !! s_callID c = Some c;
  co_revision : cm_ExpectedRevision r = s_revision c;
  co_fence : cm_Fence r = s_fence c ∧ s_fence c ≠ 0 ∧ s_fence (cm_Snapshot r) = s_fence c;
  co_lease : ∃ l, st_leases st !! s_callID c = Some l ∧ now < lease_deadline l ∧
    lease_owner l = cm_LeaseOwner r ∧ cm_LeaseOwner r ≠ "";
  co_expiry : cm_ExpiresAt r = 0 ∨ Status_Terminal (s_status (cm_Snapshot r)) = true
}.

Lemma Transition_accepted st now c t r :
  store_ok st → t_command t = commandNone → Apply c t = Ok (cm_Snapshot r) → commit_of st now c r →
  ∃ st', Transition (Context None) now st r = (Ok (cm_Snapshot r), st') ∧
    st_records st' = <[s_callID c := cm_Snapshot r]> (st_records st) ∧
    (is_Some (st_leases st' !! s_callID c) ↔ s_status (cm_Snapshot r) = StatusRunning).
Proof.
  intros Hok Hnone HA [Hrec Hrev (Hf1 & Hf2 & Hf3) (l & Hl & Hact & Hown & Hne) Hexp].
  destruct (so_records _ Hok _ _ Hrec) as (_ & Hu & Hcok).
  pose proof (Apply_none_fresh _ _ _ Hu Hnone HA) as Hf. pose proof (fs_live _ _ _ Hf) as Hlive.
  destruct (fresh_step_log _ _ _ Hf) as (Hid & _). pose proof (ok_revision _ Hcok).
  destruct (so_leases _ Hok _ _ Hl) as (c' & Hc' & _ & Hlr & Hlf). rewrite Hrec in Hc'. injection Hc' as <-.
  assert (Hvs : validSuccessor c (cm_Snapshot r) (cm_Fence r) = true).
  { rewrite Hf1, <- Hf3. eapply validSuccessor_applied; eauto. by eapply so_floor. }
  unfold Transition. rewrite Hid.
  assert (Hguard : (cm_ExpectedRevision r =? 0) || (cm_Fence r =? 0) || (s_callID c == "") ||
    (negb (IsZero (cm_ExpiresAt r)) && negb (Status_Terminal (s_status (cm_Snapshot r)))) = false).
  { rewrite Hrev, Hf1, !(proj2 (Z.eqb_neq _ _)) by lia.
    rewrite bool_decide_false by (by eapply valid_text_nonempty, (ok_callID _ Hcok)).
    destruct Hexp as [-> | ->]; [done|]. by rewrite andb_false_r. }
  rewrite Hguard, entry_open, Hrec. unfold owned_lease, leaseActive, After. rewrite Hl, Hown, Hlr, Hlf, Hrev, Hf1.
  rewrite (bool_decide_false (cm_LeaseOwner r = "")), bool_decide_true, !Z.eqb_refl, (proj2 (Z.ltb_lt _ _)) by done.
  rewrite Hf1 in Hvs. cbn [negb andb orb]. rewrite Hvs. cbn [negb].
  eexists. split; [done|]. split; [done|]. cbn [set_leases set_expires set_records st_leases].
  destruct (s_status (cm_Snapshot r) == StatusRunning) eqn:Hrun; bool_hyps.
  - rewrite lookup_insert_eq. done.
  - rewrite lookup_delete_eq. split; [by intros [? ?]|done].
Qed.

Lemma Transition_expired st now c r n :
  store_ok st → st_records st !! s_callID c = Some c → cm_Snapshot r = n → s_callID n = s_callID c →
  cm_ExpectedRevision r ≠ 0 → cm_Fence r ≠ 0 → cm_LeaseOwner r ≠ "" →
  (cm_ExpiresAt r = 0 ∨ Status_Terminal (s_status n) = true) →
  leaseActive st (s_callID c) now = false →
  Transition (Context None) now st r = (Err ErrLeaseLost, st).
Proof.
  intros Hok Hrec Hn Hid Hrev Hf Hne Hexp Hact. destruct (so_records _ Hok _ _ Hrec) as (_ & _ & Hcok).
  unfold Transition. rewrite Hn, Hid, !(proj2 (Z.eqb_neq _ _)) by done.
  rewrite bool_decide_false by (by eapply valid_text_nonempty, (ok_callID _ Hcok)).
  assert (Hexp' : negb (IsZero (cm_ExpiresAt r)) && negb (Status_Terminal (s_status n)) = false).
  { destruct Hexp as [-> | ->]; [done|]. by rewrite andb_false_r. }
  rewrite Hexp'. cbn [orb]. rewrite entry_open, Hrec, (bool_decide_false (cm_LeaseOwner r = "")) by done.
  by rewrite Hact, orb_true_r.
Qed.

(** a lease holder's commit is accepted.  The owner of an unexpired lease that commits the
    result of a transition applied to the current record, under that record's revision and
    fence, always succeeds; the record becomes that result, and the lease survives (moved to
    the new revision) exactly when the call keeps running. *)
Theorem commit_accepted st now c t r :
  store_ok st → t_command t = commandNone → Apply c t = Ok (cm_Snapshot r) → commit_of st now c r →
  ∃ st', Transition (Context None) now st r = (Ok (cm_Snapshot r), st') ∧
    st_records st' = <[s_callID c := cm_Snapshot r]> (st_records st) ∧
    (is_Some (st_leases st' !! s_callID c) ↔ s_status (cm_Snapshot r) = StatusRunning).
Proof. apply Transition_accepted. Qed.

Lemma allowed_ready st :
  ready st = true →
  allowedTransition st (if st == StatusCancelRequested then StatusCancelRequested else StatusRunning)
    commandNone = true.
Proof. by destruct st. Qed.

Lemma next_owner_total c now :
  snapshot_u64 c → snapshot_ok c → ready (s_status c) = true → TimerDue c now = true →
  s_fence c < max_u64 → s_revision c < max_u64 → s_sequence c ≤ max_u64 →
  ∃ n, next_owner c now = Ok n.
Proof.
  intros Hu Hok Hr Ht Hf Hrev Hseq. pose proof Hu as (_ & Hfu & _). unfold is_u64 in Hfu.
  unfold next_owner, TimerNotReady. rewrite Hr, Ht, (proj2 (Z.eqb_neq _ _)) by lia. cbn [negb].
  rewrite u64_add_small by lia. apply Apply_move_spec; [done..|unfold is_u64; lia|].
  unfold move_accepted. split_and!; try done; try lia.
  - by destruct (s_status c).
  - by apply allowed_ready.
  - unfold zlen; cbn. lia.
Qed.

(** a ready call is always claimable.  A valid Claim on the current revision of a ready
    call whose timer is due and whose lease, if any, has run out succeeds; the new owner gets
    the next fence and revision, and its lease is active until the requested deadline. *)
Theorem claim_available st now r c :
  store_ok st → ClaimRequest_Validate r = None → st_records st !! cq_CallID r = Some c →
  s_revision c = cq_ExpectedRevision r → ready (s_status c) = true → TimerDue c now = true →
  leaseActive st (cq_CallID r) now = false → s_fence c < max_u64 → s_revision c < max_u64 →
  ∃ n st', Claim (Context None) now st r =
      (Ok (mkLease n (cq_OwnerID r) (now + cq_LeaseDuration r)), st') ∧
    st_records st' !! cq_CallID r = Some n ∧
    s_fence n = s_fence c + 1 ∧ s_revision n = s_revision c + 1 ∧ s_frames n = s_frames c ∧
    (∀ now', leaseActive st' (cq_CallID r) now' = (now' <? now + cq_LeaseDuration r)).
Proof.
  intros Hok Hv Hc Hrev Hr Ht Hna Hf Hrm. destruct (so_records _ Hok _ _ Hc) as (_ & Hu & Hcok).
  pose proof Hu as (_ & _ & Hsq & _). unfold is_u64 in Hsq.
  destruct (next_owner_total c now) as [n Hn]; [done..|lia|].
  pose proof (next_owner_status _ _ _ Hu Hn) as (_ & Hfence & Hrevn & _).
  unfold Claim. rewrite Hv, bool_decide_true by done. cbn [negb]. rewrite entry_open, Hc.
  assert (held_lease st now r c = None) as ->.
  { unfold held_lease, leaseActive in *. case_match; [|done]. by rewrite Hna. }
  rewrite Hrev, Z.eqb_refl, Hn. cbn [negb]. eexists n, _. split; [done|].
  cbn [set_leases set_records st_records]. rewrite lookup_insert_eq. split_and!; try done; try lia.
  - apply next_owner_Ok in Hn as (_ & _ & _ & t & -> & _ & _ & Hfs); [|done].
    destruct (fresh_step_log _ _ _ Hfs) as (_ & _ & _ & _ & _ & -> & _). cbn. by rewrite app_nil_r.
  - intros now'. unfold leaseActive. cbn. by rewrite lookup_insert_eq.
Qed.

(** a Claim whose response was lost can be retried.  Repeating a granted Claim with the
    same request before its deadline returns the same lease and changes nothing. *)
Theorem claim_replay st now r l st' now' :
  Claim (Context None) now st r = (Ok l, st') → now' < l_Deadline l →
  Claim (Context None) now' st' r = (Ok l, st').
Proof.
  unfold Claim. intros (_ & Hg & Hb)%entry_Ok Hnow. rewrite Hg, entry_open.
  destruct (st_records st !! _) as [c|] eqn:Hc; [|done].
  destruct (held_lease st now r c) as [a|] eqn:Hh.
  - simplify_eq. rewrite Hc. unfold held_lease in *. do 2 (case_match; [|done]).
    case_match eqn:Hcond; simplify_eq/=. unfold After. by rewrite (proj2 (Z.ltb_lt _ _)).
  - destruct (Z.eqb_spec (s_revision c) (cq_ExpectedRevision r)) as [Hrev|]; [|done]. cbn [negb] in Hb.
    destruct (next_owner c now) as [n|]; [|done]. simplify_eq. cbn [set_leases set_records st_records].
    rewrite lookup_insert_eq. unfold held_lease. cbn [set_leases set_records st_leases].
    rewrite lookup_insert_eq. unfold After. cbn [lease_deadline lease_owner lease_previousRevision].
    cbn in Hnow. rewrite (proj2 (Z.ltb_lt _ _)) by done.
    by rewrite bool_decide_true, Hrev, Z.eqb_refl.
Qed.

(** ** Queries *)
Lemma records_of_ids st keys :
  store_ok st → (∀ k, k ∈ keys → is_Some (st_records st !! k)) → s_callID <$> records_of st keys = keys.
Proof.
  intros Hok. unfold records_of. induction keys as [|k keys IH]; intros Hk; [done|].
  destruct (Hk k ltac:(set_solver)) as [s Hs]. cbn. rewrite Hs. cbn.
  destruct (so_records _ Hok _ _ Hs) as (-> & _). f_equal. apply IH. set_solver.
Qed.

(** What [Claim] would grant now. *)
Definition executable (st : Store) (now : time) (k : string) : Prop :=
  ∃ s, st_records st !! k = Some s ∧ ready (s_status s) = true ∧ TimerDue s now = true ∧
    leaseActive st k now = false.

(** ListReady lists exactly the executable calls.  Its result is the first [limit] calls,
    in identity order, of the list of all ready, due and unleased calls: none is missing or
    repeated, and an owned call never appears. *)
Theorem list_ready_exact st now limit :
  store_ok st → 0 < limit ≤ 10000 →
  ∃ keys l, ListReady (Context None) now st limit = (Ok l, st) ∧
    StronglySorted String.le keys ∧ NoDup keys ∧ (∀ k, k ∈ keys ↔ executable st now k) ∧
    s_callID <$> l = take (Z.to_nat limit) keys ∧
    (∀ s, s ∈ l → st_records st !! s_callID s = Some s).
Proof.
  intros Hok Hlim. unfold ListReady.
  rewrite (proj2 (Z.leb_gt _ _)), (proj2 (Z.ltb_ge _ _)), entry_open by lia.
  set (test := λ key snapshot, ready (s_status snapshot) && TimerDue snapshot now &&
                               negb (leaseActive st key now)).
  exists (sorted_keys test (st_records st)). rewrite truncate_take. eexists. split; [done|].
  split; [apply sorted_keys_sorted|]. split; [apply NoDup_sorted_keys|].
  assert (Hin : ∀ k, k ∈ sorted_keys test (st_records st) ↔ executable st now k).
  { intros k. rewrite elem_of_sorted_keys. unfold executable, test.
    setoid_rewrite andb_true_iff. setoid_rewrite andb_true_iff. setoid_rewrite negb_true_iff. naive_solver. }
  split; [done|]. split; [|intros s; by apply records_of_elem].
  apply records_of_ids; [done|]. intros k Hk%list_elem_of_lookup. destruct Hk as [i Hi].
  apply lookup_take_Some in Hi as [Hi _]. apply list_elem_of_lookup_2, Hin in Hi as (s & Hs & _). eauto.
Qed.

(** garbage collection deletes a bounded batch of calls that are both terminal and past
    their expiry, in identity order, reports how many, and touches no other call. *)
Theorem delete_expired_exact st before limit :
  before ≠ 0 → 1 ≤ limit ≤ 1000 →
  ∃ keys st', DeleteExpired (Context None) st before limit = (Ok (zlen keys), st') ∧
    keys = take (Z.to_nat limit) (elapsed_keys st before) ∧ NoDup keys ∧ zlen keys ≤ limit ∧
    (∀ k, k ∈ keys → ∃ e s, st_expires st !! k = Some e ∧ st_records st !! k = Some s ∧
       Status_Terminal (s_status s) = true ∧ e ≤ before) ∧
    (∀ k, st_records st' !! k = if decide (k ∈ keys) then None else st_records st !! k).
Proof.
  intros Hb Hlim. unfold DeleteExpired, IsZero.
  rewrite (proj2 (Z.eqb_neq before 0)), (proj2 (Z.ltb_ge limit 1)), (proj2 (Z.ltb_ge 1000 limit)) by lia.
  cbn [orb]. rewrite entry_open, truncate_take. eexists _, _. split; [done|]. split; [done|].
  split_and!.
  - apply (sublist_NoDup _ (elapsed_keys st before)); [apply NoDup_sorted_keys|apply sublist_take].
  - unfold zlen. rewrite length_take. lia.
  - intros k Hk. apply elapsed_keys_spec. apply list_elem_of_lookup in Hk as [i Hi].
    apply lookup_take_Some in Hi as [Hi _]. by eapply list_elem_of_lookup_2.
  - intros k. apply fold_delete_lookup.
Qed.

(** *** Paging *)

(** A client that walks the administration listing page by page. *)
Fixpoint walk (fuel : nat) (st : Store) (after : string) (limit : Z) : option (list CallSummary) :=
  match fuel with
  | O => None
  | S fuel =>
      match fst (ListCalls (Context None) st (mkListRequest after limit)) with
      | Err _ => None
      | Ok page =>
          if zlen page <? limit then Some page
          else match last page with
          | None => Some page
          | Some summary =>
              rest ← walk fuel st (cs_CallID summary) limit; Some (page ++ rest)
          end
      end
  end.

Definition all_keys (st : Store) : list string := sorted_keys (λ _ _, true) (st_records st).

Lemma summaries_total st keys :
  store_ok st → (∀ k, k ∈ keys → is_Some (st_records st !! k)) →
  ∃ l, summaries st keys = Ok l ∧ cs_CallID <$> l = keys.
Proof.
  intros Hok. induction keys as [|k keys IH]; intros Hk; cbn; [by exists []|].
  destruct (Hk k ltac:(set_solver)) as [s Hs]. rewrite Hs.
  destruct (so_records _ Hok _ _ Hs) as (Hid & Hu & Hsok).
  destruct IH as (l & -> & Hl); [set_solver|]. unfold NewCallSummary.
  rewrite (proj2 (validateSnapshot_spec s Hu) Hsok), bool_decide_true by done. cbn.
  eexists. split; [done|]. cbn. rewrite Hl. f_equal. rewrite <- Hid. by destruct (s_workflow s).
Qed.

Lemma ListCalls_page st after limit :
  store_ok st → 1 ≤ limit ≤ 1000 →
  ∃ page, ListCalls (Context None) st (mkListRequest after limit) = (Ok page, st) ∧
    cs_CallID <$> page = take (Z.to_nat limit) (filter (λ k, string_lt after k = true) (all_keys st)).
Proof.
  intros Hok Hlim. unfold ListCalls. cbn [lr_Limit lr_After].
  rewrite (proj2 (Z.ltb_ge limit 1)), (proj2 (Z.ltb_ge 1000 limit)) by lia. cbn [orb]. rewrite entry_open.
  rewrite truncate_take.
  assert (Hkeys : sorted_keys (λ key _, string_lt after key) (st_records st) =
    filter (λ k, string_lt after k = true) (all_keys st)).
  { unfold all_keys. rewrite <- sorted_keys_filter. unfold sorted_keys. do 2 f_equal.
    apply list_filter_ext. intros [k s] _. cbn. by destruct (string_lt after k). }
  rewrite Hkeys. set (K := filter _ _).
  destruct (summaries_total st (take (Z.to_nat limit) K) Hok) as (l & -> & Hl); [|by eauto].
  intros k Hk. assert (HkK : k ∈ K) by (by eapply elem_of_take in Hk as (i & Hi & _); eapply list_elem_of_lookup_2).
  apply list_elem_of_filter in HkK as [_ Hk']. apply elem_of_sorted_keys in Hk' as (s & Hs & _). eauto.
Qed.

Lemma walk_spec st limit :
  store_ok st → 1 ≤ limit ≤ 1000 → ∀ fuel after A B,
  all_keys st = A ++ B → filter (λ k, string_lt after k = true) (all_keys st) = B →
  (length B < fuel)%nat → ∃ l, walk fuel st after limit = Some l ∧ cs_CallID <$> l = B.
Proof.
  intros Hok Hlim. induction fuel as [|fuel IH]; intros after A B Hall Hfil Hlen; [lia|].
  cbn [walk]. destruct (ListCalls_page st after limit Hok Hlim) as (page & -> & Hpage).
  rewrite Hfil in Hpage. cbn [fst].
  assert (Hpl : length page = length (take (Z.to_nat limit) B)) by (by rewrite <- Hpage, length_fmap).
  rewrite length_take in Hpl. destruct (Z.ltb_spec (zlen page) limit) as [Hlt|Hge].
  { exists page. split; [done|]. rewrite Hpage. apply take_ge. unfold zlen in Hlt. lia. }
  destruct page as [|summary page _] using rev_ind.
  { unfold zlen in Hge. cbn in Hge. lia. }
  rewrite last_snoc. rewrite fmap_app in Hpage. cbn in Hpage.
  rewrite <- (take_drop (Z.to_nat limit) B), <- Hpage, <- app_assoc in Hall.
  cbn [app] in Hall. rewrite app_assoc in Hall.
  destruct (IH (cs_CallID summary) ((A ++ (cs_CallID <$> page)) ++ [cs_CallID summary]) (drop (Z.to_nat limit) B))
    as (rest & Hrest & Hids).
  - rewrite Hall. by rewrite <- !app_assoc.
  - rewrite Hall. apply filter_after; rewrite <- Hall; [apply sorted_keys_sorted|apply NoDup_sorted_keys].
  - rewrite length_drop. rewrite length_app in Hpl. cbn in Hpl. lia.
  - rewrite Hrest. cbn. eexists. split; [done|].
    rewrite !fmap_app, Hids. cbn. rewrite Hpage. apply take_drop.
Qed.

(** paging through ListCalls visits every call exactly once.  Following the last identity
    of each page, with any page size, ends after at most one page per call (plus one) and
    yields the summaries of all records, in identity order. *)
Theorem paging_complete st limit :
  store_ok st → 1 ≤ limit ≤ 1000 →
  ∃ l, walk (S (length (all_keys st))) st "" limit = Some l ∧ cs_CallID <$> l = all_keys st ∧
    NoDup (all_keys st) ∧ ∀ k, k ∈ all_keys st ↔ is_Some (st_records st !! k).
Proof.
  intros Hok Hlim.
  assert (Hin : ∀ k, k ∈ all_keys st ↔ is_Some (st_records st !! k)).
  { intros k. unfold all_keys. rewrite elem_of_sorted_keys. unfold is_Some. naive_solver. }
  destruct (walk_spec st limit Hok Hlim (S (length (all_keys st))) "" [] (all_keys st)) as (l & Hw & Hl).
  - done.
  - apply filter_from_least. intros k [s Hs]%Hin. destruct (so_records _ Hok _ _ Hs) as (<- & _ & Hsok).
    by eapply valid_text_nonempty, (ok_callID _ Hsok).
  - lia.
  - exists l. split_and!; try done. apply NoDup_sorted_keys.
Qed.

(** * Concrete store *)
Definition ex_claim (owner : string) : ClaimRequest := mkClaimRequest "call-1" 1 owner second.
Definition ex_store0 : Store := set_records <[("call-1") := ex_new]> NewStore.
Definition ex_store1 : Store := snd (Claim (Context None) 10 ex_store0 (ex_claim "node-a")).
Definition ex_claimed : Snapshot := ok_or (l ← fst (Claim (Context None) 10 ex_store0 (ex_claim "node-a")); Ok (l_Snapshot l)) ex_new.
Definition ex_finish : ContModel.Transition := Move StatusCompleted 1 [mkFrame 0 FrameCompleted "done"].
Definition ex_commit : CommitRequest :=
  mkCommitRequest 2 1 "node-a" 100 (ok_or (Apply ex_claimed ex_finish) ex_new).
Definition ex_store2 : Store := snd (Transition (Context None) 20 ex_store1 ex_commit).

Lemma ex_new_ok : snapshot_ok ex_new.
Proof. apply validateSnapshot_spec; [apply ex_new_u64|vm_compute; reflexivity]. Qed.

Lemma ex_store0_ok : store_ok ex_store0.
Proof.
  apply (create_ok NewStore NewStore_ok ex_new);
    [done|vm_compute; reflexivity|apply ex_new_u64|apply ex_new_ok].
Qed.

Lemma ex_store1_ok : store_ok ex_store1.
Proof. apply (change_ok ex_store0 ex_store0_ok), (claim_change _ _ _ ex_store0_ok). Qed.

Lemma ex_commit_contract : op_contract ex_store1 (OpTransition ex_commit).
Proof.
  intros c Hc _. exists ex_finish. split; [unfold is_u64; concrete|].
  assert (c = ex_claimed) as -> by (vm_compute in Hc; by injection Hc as <-).
  vm_compute. reflexivity.
Qed.

Lemma ex_store2_ok : store_ok ex_store2.
Proof. apply (change_ok ex_store1 ex_store1_ok), (transition_change _ _ _ ex_store1_ok), ex_commit_contract. Qed.

Lemma store_invariant_witness : store_ok ex_store0.
Proof.
  apply (store_invariant ex_store0). apply rtc_once. exists (Context None), 0, (OpCreate ex_new).
  split; [split; [apply ex_new_u64|apply ex_new_ok]|vm_compute; reflexivity].
Defined.

Lemma store_refines_histories_witness :
  op_effect ex_store1 (OpTransition ex_commit) "call-1" (st_records ex_store1 !! "call-1")
    (st_records (exec (Context None) 20 ex_store1 (OpTransition ex_commit)) !! "call-1").
Proof. apply store_refines_histories; [apply ex_store1_ok|apply ex_commit_contract]. Defined.

Lemma lease_excludes_others_witness :
  exec (Context None) 20 ex_store1 (OpClaim (ex_claim "node-b")) = ex_store1 ∧
  ∃ e, answer (Context None) 20 ex_store1 (OpClaim (ex_claim "node-b")) = Err e.
Proof.
  apply (lease_excludes_others (Context None) 20 ex_store1 "call-1"
    (mkLeaseRecord "node-a" (10 + second) 2 1 1)).
  - vm_compute. reflexivity.
  - vm_compute. reflexivity.
  - split; [reflexivity|discriminate].
Defined.

Lemma stale_executor_fenced_witness :
  let o := OpClaim (mkClaimRequest "call-1" 2 "node-b" second) in
  let st := exec (Context None) (2 * second) ex_store1 o in
  exec (Context None) (2 * second) st (OpTransition ex_commit) = st ∧
  ∃ e, answer (Context None) (2 * second) st (OpTransition ex_commit) = Err e.
Proof.
  apply (stale_executor_fenced (Context None) (2 * second) ex_store1
    (OpClaim (mkClaimRequest "call-1" 2 "node-b" second)) "call-1" ex_claimed).
  - apply ex_store1_ok.
  - right. eexists. split; reflexivity.
  - vm_compute. reflexivity.
  - vm_compute. reflexivity.
  - eexists. vm_compute. reflexivity.
  - apply rtc_refl.
  - vm_compute. reflexivity.
  - vm_compute. discriminate.
Defined.

Definition ex_cancel_request : CommandRequest := mkCommandRequest "call-1" 2 "cmd-1" "".

Lemma command_retry_idempotent_witness :
  let st2 := exec (Context None) 30 (exec (Context None) 20 ex_store1 (OpRequestCancel ex_cancel_request))
               (OpAcquire "call-1" 3) in
  ∃ s, st_records st2 !! "call-1" = Some s ∧
    answer (Context None) 40 st2 (OpRequestCancel ex_cancel_request) = Ok [s] ∧
    exec (Context None) 40 st2 (OpRequestCancel ex_cancel_request) = st2.
Proof.
  eapply (command_retry_idempotent true 20 ex_store1 ex_cancel_request).
  - apply ex_store1_ok.
  - vm_compute. reflexivity.
  - apply rtc_once. exists (Context None), 30, (OpAcquire "call-1" 3). split_and!; done.
Defined.

Lemma ex_client_run :
  rtc client_step (NewStore, []) (ex_store1, [ex_claimed; ex_new]).
Proof.
  eapply rtc_l; [apply (client_does (Context None) 0 NewStore [] (OpCreate ex_new))|].
  { split; [apply ex_new_u64|apply ex_new_ok]. }
  eapply rtc_l; [apply (client_does (Context None) 10 _ _ (OpClaim (ex_claim "node-a"))); done|].
  vm_compute. apply rtc_refl.
Qed.

Lemma no_lost_update_witness : st_records ex_store1 !! "call-1" = Some ex_claimed.
Proof.
  eapply (no_lost_update ex_store1 [ex_claimed; ex_new] (Context None) 20 ex_commit ex_claimed ex_finish).
  - apply ex_client_run.
  - set_solver.
  - reflexivity.
  - vm_compute. reflexivity.
  - vm_compute. reflexivity.
  - vm_compute. reflexivity.
Defined.

Lemma ex_commit_of : commit_of ex_store1 20 ex_claimed ex_commit.
Proof.
  constructor; [vm_compute; done|vm_compute; done|..].
  - split_and!; vm_compute; done.
  - exists (mkLeaseRecord "node-a" (10 + second) 2 1 1). split_and!; vm_compute; done.
  - right. vm_compute. done.
Qed.

Lemma commit_accepted_witness :
  ∃ st', Transition (Context None) 20 ex_store1 ex_commit = (Ok (cm_Snapshot ex_commit), st') ∧
    st_records st' = <[s_callID ex_claimed := cm_Snapshot ex_commit]> (st_records ex_store1) ∧
    (is_Some (st_leases st' !! s_callID ex_claimed) ↔ s_status (cm_Snapshot ex_commit) = StatusRunning).
Proof.
  apply (commit_accepted ex_store1 20 ex_claimed ex_finish ex_commit).
  - apply ex_store1_ok.
  - reflexivity.
  - vm_compute. reflexivity.
  - apply ex_commit_of.
Defined.

Lemma claim_available_witness :
  ∃ n st', Claim (Context None) 10 ex_store0 (ex_claim "node-a") =
      (Ok (mkLease n "node-a" (10 + second)), st') ∧
    st_records st' !! "call-1" = Some n ∧ s_fence n = s_fence ex_new + 1 ∧
    s_revision n = s_revision ex_new + 1 ∧ s_frames n = s_frames ex_new ∧
    (∀ now', leaseActive st' "call-1" now' = (now' <? 10 + second)).
Proof.
  apply (claim_available ex_store0 10 (ex_claim "node-a") ex_new).
  - apply ex_store0_ok.
  - vm_compute. reflexivity.
  - vm_compute. reflexivity.
  - reflexivity.
  - reflexivity.
  - reflexivity.
  - vm_compute. reflexivity.
  - vm_compute. reflexivity.
  - vm_compute. reflexivity.
Defined.

Lemma claim_replay_witness :
  Claim (Context None) 500 ex_store1 (ex_claim "node-a") =
  (Ok (mkLease ex_claimed "node-a" (10 + second)), ex_store1).
Proof.
  apply (claim_replay ex_store0 10 (ex_claim "node-a")); [vm_compute; reflexivity|vm_compute; reflexivity].
Defined.

Lemma list_ready_exact_witness :
  ∃ keys l, ListReady (Context None) 20 ex_store0 5 = (Ok l, ex_store0) ∧
    StronglySorted String.le keys ∧ NoDup keys ∧ (∀ k, k ∈ keys ↔ executable ex_store0 20 k) ∧
    s_callID <$> l = take (Z.to_nat 5) keys ∧
    (∀ s, s ∈ l → st_records ex_store0 !! s_callID s = Some s).
Proof. apply (list_ready_exact ex_store0 20 5); [apply ex_store0_ok|lia]. Defined.

Lemma delete_expired_exact_witness :
  ∃ keys st', DeleteExpired (Context None) ex_store2 200 5 = (Ok (zlen keys), st') ∧
    keys = take (Z.to_nat 5) (elapsed_keys ex_store2 200) ∧ NoDup keys ∧ zlen keys ≤ 5 ∧
    (∀ k, k ∈ keys → ∃ e s, st_expires ex_store2 !! k = Some e ∧ st_records ex_store2 !! k = Some s ∧
       Status_Terminal (s_status s) = true ∧ e ≤ 200) ∧
    (∀ k, st_records st' !! k = if decide (k ∈ keys) then None else st_records ex_store2 !! k).
Proof. apply (delete_expired_exact ex_store2 200 5); lia. Defined.

Example ex_deletes : fst (DeleteExpired (Context None) ex_store2 200 5) = Ok 1.
Proof. vm_compute. reflexivity. Qed.

Lemma paging_complete_witness :
  ∃ l, walk (S (length (all_keys ex_store2))) ex_store2 "" 1 = Some l ∧
    cs_CallID <$> l = all_keys ex_store2 ∧
    NoDup (all_keys ex_store2) ∧ ∀ k, k ∈ all_keys ex_store2 ↔ is_Some (st_records ex_store2 !! k).
Proof. apply (paging_complete ex_store2 1); [apply ex_store2_ok|lia]. Defined.
