(* ===== verification/Registry.v ===== *)
(** * programmable/continuation: the registry

    Models [registry.go]: which Machine owns an Operation and which workflow definition is
    one exact Operation and version.  The registry is mutable until [Freeze]; its lock makes
    every method one step.  A Machine is opaque here (a type parameter); a nil Machine is
    [None]. *)
From S2P Require Import Prelude GoText Sha256 ContModel ContState ContWorkflow.
Open Scope Z_scope.

Section registry.
  Context {M : Type}.

Record Registry := mkRegistry {
  rg_machines : gmap string M;
  rg_workflows : gmap string (gmap string WorkflowDefinition);
  rg_frozen : bool
}.

Definition NewRegistry : Registry := mkRegistry ∅ ∅ false.

(** [None] is a nil error. *)
Definition RegisterWorkflow (definition : option WorkflowDefinition) (g : Registry) :
    option cerror * Registry :=
  match definition with
  | None => (Some ErrInvalidWorkflow, g)
  | Some d =>
      if negb (validOperation (wf_operation d)) || (wf_version d == "") || (wf_fingerprint d == "")
      then (Some ErrInvalidWorkflow, g)
      else if rg_frozen g then (Some ErrRegistryFrozen, g)
      else
        let versions := default ∅ (rg_workflows g !! wf_operation d) in
        let workflows := <[wf_operation d := versions]> (rg_workflows g) in
        match versions !! wf_version d with
        | Some _ => (Some ErrAlreadyRegistered, mkRegistry (rg_machines g) workflows (rg_frozen g))
        | None =>
            (None, mkRegistry (rg_machines g)
               (<[wf_operation d := <[wf_version d := d]> versions]> workflows) (rg_frozen g))
        end
  end.

Definition Register (operation : string) (machine : option M) (g : Registry) :
    option cerror * Registry :=
  match machine with
  | None => (Some ErrInvalidMachine, g)
  | Some machine =>
      if negb (validOperation operation) then (Some ErrInvalidMachine, g)
      else if rg_frozen g then (Some ErrRegistryFrozen, g)
      else match rg_machines g !! operation with
      | Some _ => (Some ErrAlreadyRegistered, g)
      | None =>
          (None, mkRegistry (<[operation := machine]> (rg_machines g)) (rg_workflows g) (rg_frozen g))
      end
  end.

Definition Freeze (g : Registry) : option cerror * Registry :=
  if rg_frozen g then (None, g)
  else if (map_len (rg_machines g) =? 0) && (map_len (rg_workflows g) =? 0)
  then (Some ErrRegistryEmpty, g)
  else (None, mkRegistry (rg_machines g) (rg_workflows g) true).

Definition ResolveWorkflow (operation version : string) (g : Registry) : option WorkflowDefinition :=
  if negb (validOperation operation) || negb (validIdentity version) then None
  else default ∅ (rg_workflows g !! operation) !! version.

Definition Frozen (g : Registry) : bool := rg_frozen g.

Definition Resolve (operation : string) (g : Registry) : option M :=
  if negb (validOperation operation) then None else rg_machines g !! operation.

(** ** Histories of a registry *)
Inductive registration :=
| DoRegisterWorkflow (definition : option WorkflowDefinition)
| DoRegister (operation : string) (machine : option M)
| DoFreeze.

Definition perform (r : registration) (g : Registry) : option cerror * Registry :=
  match r with
  | DoRegisterWorkflow d => RegisterWorkflow d g
  | DoRegister operation machine => Register operation machine g
  | DoFreeze => Freeze g
  end.

Definition performs (l : list registration) (g : Registry) : Registry :=
  fold_left (λ g r, snd (perform r g)) l g.

(** Both tables only grow, and a frozen registry is constant. *)
Definition extends (g g' : Registry) : Prop :=
  (∀ o m, Resolve o g = Some m → Resolve o g' = Some m) ∧
  (∀ o v d, ResolveWorkflow o v g = Some d → ResolveWorkflow o v g' = Some d) ∧
  (rg_frozen g = true → g' = g).

Lemma extends_refl g : extends g g.
Proof. done. Qed.

Lemma extends_trans g g1 g2 : extends g g1 → extends g1 g2 → extends g g2.
Proof.
  intros (H1 & H2 & H3) (K1 & K2 & K3). split_and!; [by eauto..|].
  intros Hf. pose proof (H3 Hf) as ->. by apply K3.
Qed.

Lemma versions_lookup (m : gmap string (gmap string WorkflowDefinition)) o versions p :
  default ∅ (<[o := versions]> m !! p) =
  if decide (p = o) then versions else default ∅ (m !! p).
Proof.
  case_decide as Hp; [subst; by rewrite lookup_insert_eq|by rewrite lookup_insert_ne].
Qed.

Lemma ResolveWorkflow_mono o v d g g' :
  (∀ vs, default ∅ (rg_workflows g !! o) = vs → vs !! v = Some d →
    default ∅ (rg_workflows g' !! o) !! v = Some d) →
  ResolveWorkflow o v g = Some d → ResolveWorkflow o v g' = Some d.
Proof. unfold ResolveWorkflow. intros H. case_match; [discriminate|]. by apply H. Qed.

Lemma register_workflow_extends d g : extends g (snd (RegisterWorkflow d g)).
Proof.
  unfold RegisterWorkflow. destruct d as [d|]; [|apply extends_refl].
  destruct (_ || _); [apply extends_refl|]. destruct (rg_frozen g) eqn:Hf; [apply extends_refl|].
  set (vs := default ∅ (rg_workflows g !! wf_operation d)).
  destruct (vs !! wf_version d) eqn:Hv; (split_and!; [done| |congruence]); intros o v d';
    apply ResolveWorkflow_mono; intros ? <-; cbn; rewrite ?insert_insert_eq, versions_lookup;
    case_decide as Ho; [subst o|by auto|subst o|by auto]; fold vs; [done|].
  intros Hd. rewrite lookup_insert_ne; [done|]. intros <-. congruence.
Qed.

Lemma perform_extends r g : extends g (snd (perform r g)).
Proof.
  destruct r as [d|o m|]; cbn [perform]; [apply register_workflow_extends| |].
  - unfold Register. destruct m as [m|]; [|apply extends_refl].
    destruct (validOperation o) eqn:Hvo; cbn [negb]; [|apply extends_refl].
    destruct (rg_frozen g) eqn:Hf; [apply extends_refl|].
    destruct (rg_machines g !! o) eqn:Ho; [apply extends_refl|]. split_and!; [|done|congruence].
    intros p m' Hp. unfold Resolve in *. destruct (validOperation p); cbn [negb] in *; [|discriminate].
    cbn. rewrite lookup_insert_ne; [done|]. intros <-. congruence.
  - unfold Freeze. destruct (rg_frozen g) eqn:Hf; [apply extends_refl|].
    destruct (_ && _); [apply extends_refl|]. split_and!; [done|done|congruence].
Qed.

Lemma performs_extends l g : extends g (performs l g).
Proof.
  revert g. induction l as [|r l IH]; intros g; [apply extends_refl|].
  eapply extends_trans; [apply perform_extends|]. apply IH.
Qed.

(** the registry is write-once.  Whatever registrations and freezes follow, a Machine or an
    exact workflow version that resolves keeps resolving to the same object; after [Freeze]
    nothing changes any more; and a successful registration is what resolves from then on. *)
Theorem registry_write_once l l' :
  let g := performs l NewRegistry in
  let g' := performs l' g in
  (∀ o m, Resolve o g = Some m → Resolve o g' = Some m) ∧
  (∀ o v d, ResolveWorkflow o v g = Some d → ResolveWorkflow o v g' = Some d) ∧
  (Frozen g = true → g' = g) ∧
  (∀ o m, fst (Register o (Some m) g) = None →
     Frozen g = false ∧ Resolve o (performs l' (snd (Register o (Some m) g))) = Some m) ∧
  (∀ d, fst (RegisterWorkflow (Some d) g) = None → validIdentity (wf_version d) = true →
     Frozen g = false ∧
     ResolveWorkflow (wf_operation d) (wf_version d)
       (performs l' (snd (RegisterWorkflow (Some d) g))) = Some d).
Proof.
  intros g g'. destruct (performs_extends l' g) as (H1 & H2 & H3). split_and!; [done..| |].
  - intros o m Hr. pose proof (performs_extends l' (snd (Register o (Some m) g))) as (K & _).
    revert Hr K. unfold Register. destruct (validOperation o) eqn:Hvo; cbn [negb]; [|discriminate].
    unfold Frozen. destruct (rg_frozen g); [discriminate|].
    destruct (rg_machines g !! o); [discriminate|]. intros _ K. split; [done|]. apply K.
    unfold Resolve. rewrite Hvo. cbn. apply lookup_insert_eq.
  - intros d Hr Hvv. pose proof (performs_extends l' (snd (RegisterWorkflow (Some d) g))) as (_ & K & _).
    revert Hr K. unfold RegisterWorkflow.
    destruct (validOperation (wf_operation d)) eqn:Hvo; cbn [negb orb]; [|discriminate].
    destruct (_ || _); [discriminate|]. unfold Frozen. destruct (rg_frozen g); [discriminate|].
    destruct (_ !! wf_version d); [discriminate|]. intros _ K. split; [done|]. apply K.
    unfold ResolveWorkflow. rewrite Hvo, Hvv. cbn [negb orb rg_workflows snd].
    rewrite versions_lookup, decide_True by done. apply lookup_insert_eq.
Qed.
End registry.
Arguments Registry : clear implicits.
