(* ===== verification/Runtime.v ===== *)
(** * programmable/continuation: the executor

    Models [runtime.go], [runtime_retention.go], [machine_error.go], [inline.go], [observer.go],
    [attach.go] and [history.go].  The runtime drives application Machines over a store it
    only knows through the interfaces of [store.go] and [lease.go]: here the type classes
    [LeaseStore] and [Environment] over a world [W] that holds the store, the clock, the
    contexts and everything application code touches.  The heartbeat goroutine of [advance]
    renews the lease while the Machine runs; how often it ticks is the world's choice. *)
From S2P Require Import Prelude GoText Sha256 ContModel ContState ContWorkflow ContStore Registry.
Open Scope Z_scope.

Definition defaultPollInterval : duration := 100 * millisecond.
Definition defaultBatchSize : Z := 100.
Definition defaultMaxTransitions : Z := 64.
Definition defaultLeaseDuration : duration := 30 * second.
Definition defaultTerminalRetention : duration := 24 * hour.
Definition maxTerminalRetention : duration := 365 * 24 * hour.
Definition maxAttachFrames : Z := 1000.
Definition maxHistoryPayloadBytes : Z := 4 * 1024 * 1024.
Definition maxInlineDuration : duration := 5 * second.

(** ** Errors: those of the package, of application code, wrapping, and the two markers a
    Machine uses ([&RetryableError{}] and [&TerminalError{}], whose cause may be nil). *)
Inductive rerror :=
| Plain (e : cerror)
| Application (name : string)
| Wrap (text : string) (cause : rerror)
| RetryableError (cause : option rerror)
| TerminalError (cause : option rerror).

(** [errors.Is] against a sentinel of the package. *)
Fixpoint error_is (err : rerror) (target : cerror) : bool :=
  match err with
  | Plain e => (e == target) || (error_kind e == target)
  | Application _ => false
  | Wrap _ cause => error_is cause target
  | RetryableError (Some cause) | TerminalError (Some cause) => error_is cause target
  | RetryableError None | TerminalError None => false
  end.

(** [errors.As] against the two marker types. *)
Fixpoint as_retryable (err : rerror) : bool :=
  match err with
  | RetryableError _ => true
  | Wrap _ cause | TerminalError (Some cause) => as_retryable cause
  | _ => false
  end.
Fixpoint as_terminal (err : rerror) : bool :=
  match err with
  | TerminalError _ => true
  | Wrap _ cause | RetryableError (Some cause) => as_terminal cause
  | _ => false
  end.

Definition Retryable (err : option rerror) : option rerror :=
  match err with None => None | Some err => Some (RetryableError (Some err)) end.
Definition Terminal (err : option rerror) : option rerror :=
  match err with None => None | Some err => Some (TerminalError (Some err)) end.

Inductive ErrorClass := ErrorClassNone | ErrorClassRetryable | ErrorClassTerminal | ErrorClassInternal.
Inductive EventKind :=
| EventClaim | EventRenew | EventTransition | EventGap | EventAttachLag | EventMachineError | EventGC.
Record Event := mkEvent {
  ev_Kind : EventKind; ev_Status : option Status; ev_ErrorClass : ErrorClass; ev_Count : Z
}.

Definition machineErrorClass (err : rerror) : ErrorClass * bool :=
  if as_retryable err then (ErrorClassRetryable, true)
  else if as_terminal err then (ErrorClassTerminal, true)
  else (ErrorClassInternal, false).

(** ** What the runtime calls

    The context of a call: the caller's, the bounded one of an inline execution, or a fresh
    one with a timeout used for cleanup. *)
Inductive scope := Caller | Inline | Cleanup.

Class Environment (W : Type) := {
  w_cause : scope → W → option rerror * W;  (* context.Cause(ctx), now *)
  w_now : W → time * W;
  w_observe : Event → W → W;                (* the observer; a panic in it is recovered *)
  w_beats : W → (nat * bool) * W;           (* ticks before the Machine returned, or before
                                               the context ended (true) *)
  w_wait : W → bool * W                     (* the poll timer fired (true), or ctx ended *)
}.

Class LeaseStore (W : Type) := {
  ls_Create : scope → Snapshot → W → result rerror Snapshot * W;
  ls_Load : scope → string → W → result rerror Snapshot * W;
  ls_Transition : scope → CommitRequest → W → result rerror Snapshot * W;
  ls_ListReady : scope → Z → W → result rerror (list Snapshot) * W;
  ls_SubmitSignal : scope → CommandRequest → W → result rerror Snapshot * W;
  ls_RequestCancel : scope → CommandRequest → W → result rerror Snapshot * W;
  ls_Claim : scope → ClaimRequest → W → result rerror Lease * W;
  ls_Renew : scope → LeaseRequest → W → result rerror Lease * W;
  ls_Release : scope → LeaseRequest → W → option rerror * W
}.

(** [Machine.Advance]: the transition, or an error. *)
Definition Machine (W : Type) : Type := Snapshot → W → result rerror ContModel.Transition * W.

(** ** Construction *)
Record RuntimeConfig (W : Type) := mkRuntimeConfig {
  rc_Registry : option (Registry (Machine W));
  rc_PollInterval : duration;
  rc_BatchSize : Z;
  rc_MaxTransitions : Z;
  rc_ExecutorID : string;
  rc_LeaseDuration : duration;
  rc_HeartbeatInterval : duration;
  rc_TerminalRetention : duration
}.
Arguments mkRuntimeConfig {W}. Arguments rc_Registry {W}. Arguments rc_PollInterval {W}.
Arguments rc_BatchSize {W}. Arguments rc_MaxTransitions {W}. Arguments rc_ExecutorID {W}.
Arguments rc_LeaseDuration {W}. Arguments rc_HeartbeatInterval {W}. Arguments rc_TerminalRetention {W}.

Record Runtime (W : Type) := mkRuntime {
  rt_registry : Registry (Machine W);
  rt_pollInterval : duration;
  rt_batchSize : Z;
  rt_maxTransitions : Z;
  rt_executorID : string;
  rt_leaseDuration : duration;
  rt_heartbeat : duration;
  rt_terminalRetention : duration
}.
Arguments mkRuntime {W}. Arguments rt_registry {W}. Arguments rt_pollInterval {W}.
Arguments rt_batchSize {W}. Arguments rt_maxTransitions {W}. Arguments rt_executorID {W}.
Arguments rt_leaseDuration {W}. Arguments rt_heartbeat {W}. Arguments rt_terminalRetention {W}.

(** [random] is what [crypto/rand] delivers (16 bytes, or an error). *)
Definition randomExecutorID (random : option (list Z)) : option string :=
  match random with
  | Some bytes => Some ("executor-" +:+ string_of_bytes (hex_encode_bytes bytes))
  | None => None
  end.

(** [store] and [leases]: a store is given, and it also implements [LeaseStore]. *)
Definition NewRuntime {W} (store leases : bool) (random : option (list Z)) (config : RuntimeConfig W) :
    result cerror (Runtime W) :=
  match rc_Registry config with
  | Some registry =>
      if negb store || negb (Frozen registry) then Err ErrInvalidRuntime
      else if negb leases then Err ErrLeaseUnsupported
      else
        let poll := or_default (rc_PollInterval config) defaultPollInterval in
        let batch := or_default (rc_BatchSize config) defaultBatchSize in
        let transitions := or_default (rc_MaxTransitions config) defaultMaxTransitions in
        match (if rc_ExecutorID config == "" then randomExecutorID random
               else Some (rc_ExecutorID config)) with
        | None => Err ErrInvalidRuntime
        | Some executor =>
            let lease := or_default (rc_LeaseDuration config) defaultLeaseDuration in
            let heartbeat := or_default (rc_HeartbeatInterval config) (lease ÷ 3) in
            let retention := or_default (rc_TerminalRetention config) defaultTerminalRetention in
            if (poll <=? 0) || (minute <? poll) || (batch <=? 0) || (10000 <? batch) ||
               (transitions <=? 0) || (10000 <? transitions) || negb (validLeaseOwner executor) ||
               (lease <=? 0) || (maxLeaseDuration <? lease) || (heartbeat <=? 0) ||
               (lease <=? heartbeat) || (retention <=? 0) || (maxTerminalRetention <? retention)
            then Err ErrInvalidRuntime
            else Ok (mkRuntime registry poll batch transitions executor lease heartbeat retention)
        end
  | None => Err ErrInvalidRuntime
  end.

Section runtime.
  Context {W : Type} `{Environment W, LeaseStore W}.
  Context (r : Runtime W).

Definition observe (event : Event) (w : W) : W := w_observe event w.

(** ** Commands *)
Definition Create (callID operation : string) (w : W) : result rerror Snapshot * W :=
  match NewSnapshot callID operation with
  | Err err => (Err (Plain err), w)
  | Ok snapshot =>
      match Resolve operation (rt_registry r) with
      | None => (Err (Plain ErrMachineNotFound), w)
      | Some _ => ls_Create Caller snapshot w
      end
  end.

Definition StartCall (callID operation input : string) (w : W) : result rerror Snapshot * W :=
  match Resolve operation (rt_registry r) with
  | None => (Err (Plain ErrMachineNotFound), w)
  | Some _ =>
      match NewSnapshotWithInput callID operation input with
      | Err err => (Err (Plain err), w)
      | Ok snapshot => ls_Create Caller snapshot w
      end
  end.

Definition SubmitSignal (callID commandID payload : string) (w : W) : result rerror Snapshot * W :=
  match ls_Load Caller callID w with
  | (Err err, w) => (Err err, w)
  | (Ok current, w) =>
      ls_SubmitSignal Caller (mkCommandRequest callID (s_revision current) commandID payload) w
  end.

Definition RequestCancel (callID commandID : string) (w : W) : result rerror Snapshot * W :=
  match ls_Load Caller callID w with
  | (Err err, w) => (Err err, w)
  | (Ok current, w) =>
      ls_RequestCancel Caller (mkCommandRequest callID (s_revision current) commandID "") w
  end.

(** ** Execution *)
Definition lease_request (snapshot : Snapshot) (duration : duration) : LeaseRequest :=
  mkLeaseRequest (s_callID snapshot) (s_revision snapshot) (s_fence snapshot) (rt_executorID r) duration.

Definition release (sc : scope) (snapshot : Snapshot) (w : W) : W :=
  snd (ls_Release sc (lease_request snapshot 0) w).

(** The heartbeat goroutine of [advance]: [None] is a nil result. *)
Fixpoint heartbeat (sc : scope) (ticks : nat) (ended : bool) (current : Snapshot) (w : W) :
    option rerror * W :=
  match ticks with
  | O => if ended then w_cause sc w else (None, w)
  | S ticks =>
      match ls_Renew sc (lease_request current (rt_leaseDuration r)) w with
      | (Err err, w) =>
          (Some err, observe (mkEvent EventRenew (Some (s_status current)) ErrorClassInternal 0) w)
      | (Ok _, w) =>
          heartbeat sc ticks ended current
            (observe (mkEvent EventRenew (Some (s_status current)) ErrorClassNone 0) w)
      end
  end.

Definition advance (sc : scope) (machine : Machine W) (current : Snapshot) (w : W) :
    result rerror ContModel.Transition * W :=
  let '(outcome, w) := machine current w in
  let '((ticks, ended), w) := w_beats w in
  match heartbeat sc ticks ended current w with
  | (Some err, w) => ((if error_is err ErrCanceled then outcome else Err err), w)
  | (None, w) => (outcome, w)
  end.

Definition commitRequest (current next : Snapshot) (w : W) : CommitRequest * W :=
  let request expiresAt :=
    mkCommitRequest (s_revision current) (s_fence current) (rt_executorID r) expiresAt next in
  if Status_Terminal (s_status next) then
    let '(now, w) := w_now w in (request (now + rt_terminalRetention r), w)
  else (request 0, w).

(** Apply, commit and report one transition of [current]. *)
Definition commit (sc : scope) (current : Snapshot) (transition : ContModel.Transition) (w : W) :
    result rerror Snapshot * W :=
  match Apply current transition with
  | Err err => (Err (Plain err), w)
  | Ok next =>
      let '(request, w) := commitRequest current next w in
      match ls_Transition sc request w with
      | (Err err, w) => (Err err, w)
      | (Ok committed, w) =>
          (Ok committed, observe (mkEvent EventTransition (Some (s_status committed)) ErrorClassNone 0) w)
      end
  end.

(** The transition that records a classified Machine error. *)
Definition error_transition (current : Snapshot) (class : ErrorClass) : result cerror ContModel.Transition :=
  let '(status, kind) :=
    match class with
    | ErrorClassTerminal => (StatusFailed, FrameFailed)
    | _ => ((if s_status current == StatusCancelRequested then StatusCancelRequested
             else StatusSuspended), FrameSuspended)
    end in
  frame ← NewFrame kind "";
  Ok (Move status (s_fence current) [frame]).

(** [None]: the error is not classified; [Some answer]: it was handled. *)
Definition commitMachineError (sc : scope) (current : Snapshot) (err : rerror) (w : W) :
    option (result rerror Snapshot) * W :=
  let '(class, classified) := machineErrorClass err in
  let w := observe (mkEvent EventMachineError (Some (s_status current)) class 0) w in
  if negb classified then (None, w)
  else match error_transition current class with
  | Err err => (Some (Err (Plain err)), w)
  | Ok transition => let '(answer, w) := commit sc current transition w in (Some answer, w)
  end.

(** The transitions of one claimed call: [None] when the batch goes on, or the error that ends
    [RunOnce].  [budget_left] transitions remain in the budget. *)
Fixpoint drive (budget_left : nat) (machine : Machine W) (current : Snapshot) (w : W) : option rerror * W :=
  match budget_left with
  | O => (None, w)
  | S budget_left =>
      match advance Caller machine current w with
      | (Err err, w) =>
          match w_cause Caller w with
          | (Some cause, w) => (Some cause, release Caller current w)
          | (None, w) =>
              match commitMachineError Caller current err w with
              | (Some (Ok _), w) => (None, w)
              | (Some (Err err), w) => (Some err, release Caller current w)
              | (None, w) =>
                  (Some (Wrap "continuation: advance machine" err), release Caller current w)
              end
          end
      | (Ok transition, w) =>
          match commit Caller current transition w with
          | (Err err, w) => (Some err, release Caller current w)
          | (Ok next, w) =>
              if s_status next != StatusRunning then (None, w)
              else match budget_left with
              | O => (Some (Plain ErrTransitionBudget), release Caller next w)
              | S _ => drive budget_left machine next w
              end
          end
      end
  end.

Definition claim_request (candidate : Snapshot) : ClaimRequest :=
  mkClaimRequest (s_callID candidate) (s_revision candidate) (rt_executorID r) (rt_leaseDuration r).

(** Claim failures that only mean another executor was faster. *)
Definition passed_over (err : rerror) : bool :=
  error_is err ErrConflict || error_is err ErrNotReady || error_is err ErrLeaseHeld.

Fixpoint run_batch (ready : list Snapshot) (processed : Z) (w : W) : (Z * option rerror) * W :=
  match ready with
  | [] => ((processed, None), w)
  | candidate :: ready =>
      match s_workflow candidate with
      | Some _ => run_batch ready processed w
      | None =>
          match w_cause Caller w with
          | (Some cause, w) => ((processed, Some cause), w)
          | (None, w) =>
              match ls_Claim Caller (claim_request candidate) w with
              | (Err err, w) =>
                  if passed_over err then run_batch ready processed w
                  else ((processed, Some err), w)
              | (Ok claim, w) =>
                  let current := l_Snapshot claim in
                  let processed := processed + 1 in
                  let w := observe (mkEvent EventClaim (Some (s_status current)) ErrorClassNone 0) w in
                  match Resolve (s_operation current) (rt_registry r) with
                  | None => ((processed, Some (Plain ErrMachineNotFound)), release Caller current w)
                  | Some machine =>
                      match drive (Z.to_nat (rt_maxTransitions r)) machine current w with
                      | (Some err, w) => ((processed, Some err), w)
                      | (None, w) => run_batch ready processed w
                      end
                  end
              end
          end
      end
  end.

Definition RunOnce (w : W) : (Z * option rerror) * W :=
  match w_cause Caller w with
  | (Some cause, w) => ((0, Some cause), w)
  | (None, w) =>
      match ls_ListReady Caller (rt_batchSize r) w with
      | (Err err, w) => ((0, Some err), w)
      | (Ok ready, w) => run_batch ready 0 w
      end
  end.

(** [Run] for at most [fuel] polls; [None] while it is still polling. *)
Fixpoint Run (fuel : nat) (w : W) : option (option rerror) * W :=
  match fuel with
  | O => (None, w)
  | S fuel =>
      match w_cause Caller w with
      | (Some cause, w) => (Some (Some cause), w)
      | (None, w) =>
          match RunOnce w with
          | ((_, Some err), w) => (Some (Some err), w)
          | ((_, None), w) =>
              match w_wait w with
              | (true, w) => Run fuel w
              | (false, w) => let '(cause, w) := w_cause Caller w in (Some cause, w)
              end
          end
      end
  end.

(** ** Inline execution *)
Record InlineBudget := mkInlineBudget { ib_Duration : duration; ib_MaxTransitions : Z }.

Definition inlineBudgetExhausted (w : W) : bool * W :=
  match w_cause Inline w with
  | (Some cause, w) => (error_is cause ErrInlineBudget, w)
  | (None, w) => (false, w)
  end.

Definition loadInlineSnapshot (fallback : Snapshot) (w : W) : Snapshot * W :=
  match ls_Load Cleanup (s_callID fallback) w with
  | (Ok current, w) => (current, w)
  | (Err _, w) => (fallback, w)
  end.

Definition releaseInline (snapshot : Snapshot) (w : W) : W := release Cleanup snapshot w.

(** The answer of an inline execution, the snapshot the deferred release gets, and whether the
    lease is still held then. *)
Record inline_exit := mkInlineExit {
  ie_answer : result rerror Snapshot; ie_current : Snapshot; ie_leased : bool
}.

(** The budget is exhausted: answer with the latest durable snapshot. *)
Definition inline_fallback (current : Snapshot) (w : W) : inline_exit * W :=
  let '(current, w) := loadInlineSnapshot current w in (mkInlineExit (Ok current) current true, w).

(** A failure of the step itself: fall back when the budget ended, or return [err]. *)
Definition inline_failed (current : Snapshot) (err : rerror) (w : W) : inline_exit * W :=
  match inlineBudgetExhausted w with
  | (true, w) => inline_fallback current w
  | (false, w) => (mkInlineExit (Err err) current true, w)
  end.

Definition inline_machine_error (current : Snapshot) (err : rerror) (w : W) : inline_exit * W :=
  match inlineBudgetExhausted w with
  | (true, w) => inline_fallback current w
  | (false, w) =>
      match w_cause Inline w with
      | (Some cause, w) => (mkInlineExit (Err cause) current true, w)
      | (None, w) =>
          match commitMachineError Inline current err w with
          | (Some (Err err), w) => (mkInlineExit (Err err) current true, w)
          | (Some (Ok committed), w) =>
              (mkInlineExit (Ok committed) committed (s_status committed == StatusRunning), w)
          | (None, w) =>
              (mkInlineExit (Err (Wrap "continuation: advance machine inline" err)) current true, w)
          end
      end
  end.

Fixpoint drive_inline (budget_left : nat) (machine : Machine W) (current : Snapshot) (w : W) :
    inline_exit * W :=
  match budget_left with
  | O => (mkInlineExit (Ok current) current true, w)
  | S budget_left =>
      match inlineBudgetExhausted w with
      | (true, w) => inline_fallback current w
      | (false, w) =>
          match advance Inline machine current w with
          | (Err err, w) => inline_machine_error current err w
          | (Ok transition, w) =>
              match Apply current transition with
              | Err err => (mkInlineExit (Err (Plain err)) current true, w)
              | Ok next =>
                  let '(request, w) := commitRequest current next w in
                  match ls_Transition Inline request w with
                  | (Err err, w) => inline_failed current err w
                  | (Ok committed, w) =>
                      let w := observe (mkEvent EventTransition (Some (s_status committed))
                                          ErrorClassNone 0) w in
                      if s_status committed != StatusRunning
                      then (mkInlineExit (Ok committed) committed false, w)
                      else drive_inline budget_left machine committed w
                  end
              end
          end
      end
  end.

Definition StartCallInline (callID operation input : string) (budget : InlineBudget) (w : W) :
    result rerror Snapshot * W :=
  if (ib_Duration budget <=? 0) || (maxInlineDuration <? ib_Duration budget) ||
     (ib_MaxTransitions budget <=? 0) || (10000 <? ib_MaxTransitions budget)
  then (Err (Plain ErrInvalidInlineBudget), w)
  else match StartCall callID operation input w with
  | (Err err, w) => (Err err, w)
  | (Ok created, w) =>
      match ls_Claim Inline (claim_request created) w with
      | (Err err, w) =>
          match inlineBudgetExhausted w with
          | (true, w) => (Ok created, w)
          | (false, w) => (Err err, w)
          end
      | (Ok claim, w) =>
          let current := l_Snapshot claim in
          let w := observe (mkEvent EventClaim (Some (s_status current)) ErrorClassNone 0) w in
          match Resolve (s_operation current) (rt_registry r) with
          | None => (Err (Plain ErrMachineNotFound), releaseInline current w)
          | Some machine =>
              let '(exit, w) := drive_inline (Z.to_nat (ib_MaxTransitions budget)) machine current w in
              (ie_answer exit, if ie_leased exit then releaseInline (ie_current exit) w else w)
          end
      end
  end.

(** ** Reading *)
Record Attachment := mkAttachment {
  at_Snapshot : Snapshot;
  at_Frames : list Frame;
  at_Terminal : bool;
  at_NextSequence : Z;
  at_FrameFloor : Z
}.

(** Go's [frames[start:end]] for [0 <= start <= end <= len(frames)]. *)
Definition slice {A} (start stop : Z) (l : list A) : list A :=
  take (Z.to_nat (stop - start)) (drop (Z.to_nat start) l).

Definition attach_page (current : Snapshot) (after limit : Z) : Attachment :=
  let frames := s_frames current in
  let start := u64_sub after (u64_sub (s_frameFloor current) 1) in
  let stop := if limit <? zlen frames - start then start + limit else zlen frames in
  let page := slice start stop frames in
  let next :=
    match last page with
    | Some frame => u64_add (f_sequence frame) 1
    | None => u64_add after 1
    end in
  mkAttachment current page (Status_Terminal (s_status current)) next (s_frameFloor current).

Definition Attach (callID : string) (after limit : Z) (w : W) : result rerror Attachment * W :=
  if negb (validIdentity callID) || (limit <? 1) || (maxAttachFrames <? limit)
  then (Err (Plain ErrInvalidAttach), w)
  else match ls_Load Caller callID w with
  | (Err err, w) => (Err err, w)
  | (Ok current, w) =>
      if validateSnapshot current != None then (Err (Plain ErrInvalidAttach), w)
      else
        let w :=
          if after <? s_sequence current
          then observe (mkEvent EventAttachLag (Some (s_status current)) ErrorClassNone
                          (u64_sub (s_sequence current) after)) w
          else w in
        if s_sequence current <? after
        then (Err (Plain (CursorError after (s_sequence current))), w)
        else if after <? u64_sub (s_frameFloor current) 1
        then (Err (Plain (GapError after (s_frameFloor current))),
              observe (mkEvent EventGap None ErrorClassNone
                         (u64_sub (u64_sub (s_frameFloor current) after) 1)) w)
        else (Ok (attach_page current after limit), w)
  end.
End runtime.
Arguments Attachment : clear implicits.
Arguments InlineBudget : clear implicits.

(** ** History views *)
Definition clear_payload (f : Frame) : Frame := mkFrame (f_sequence f) (f_kind f) "".

Definition with_frames (s : Snapshot) (frames : list Frame) : Snapshot :=
  mkSnapshot (s_callID s) (s_operation s) (s_status s) (s_readyAt s) (s_revision s) (s_fence s)
    (s_sequence s) (s_frameFloor s) frames (s_commands s) (s_workflow s).

Definition payloadFreeHistory (a : Attachment) : Attachment :=
  mkAttachment (with_frames (at_Snapshot a) (clear_payload <$> s_frames (at_Snapshot a)))
    (clear_payload <$> at_Frames a) (at_Terminal a) (at_NextSequence a) (at_FrameFloor a).

Fixpoint within_budget (maxPayloadBytes consumed : Z) (frames : list Frame) : bool :=
  match frames with
  | [] => true
  | frame :: frames =>
      negb (maxPayloadBytes - consumed <? slen (f_payload frame)) &&
      within_budget maxPayloadBytes (consumed + slen (f_payload frame)) frames
  end.

Definition boundedDetailHistory (a : Attachment) (maxPayloadBytes : Z) : result cerror Attachment :=
  if (maxPayloadBytes <=? 0) || (maxHistoryPayloadBytes <? maxPayloadBytes) then Err ErrInvalidHistory
  else if negb (within_budget maxPayloadBytes 0 (at_Frames a)) then Err ErrHistoryBudget
  else Ok (mkAttachment (with_frames (at_Snapshot a) (clear_payload <$> s_frames (at_Snapshot a)))
             (at_Frames a) (at_Terminal a) (at_NextSequence a) (at_FrameFloor a)).
