(* ===== verification/RuntimeSpec.v ===== *)
(** * programmable/continuation: what the executor promises

    The runtime of file [Runtime] over a store that follows file [ContStore].  The law class
    [StoreWorld] says how a world serves the store interface: every call runs one operation
    of the memory store, after interference by others described by a relation.  Against it:
    the runtime is a well-behaved client of the store whatever others do meanwhile; it gives
    its leases back; classified Machine errors are always recorded; frame paging is exact. *)
From S2P Require Import Prelude GoText Sha256 ContModel ContState ContWorkflow ContStore Registry Runtime.
Open Scope Z_scope.

Definition lift {A} (x : result cerror A) : result rerror A :=
  match x with Ok a => Ok a | Err e => Err (Plain e) end.
Definition lift_nil (x : result cerror ()) : option rerror :=
  match x with Ok _ => None | Err e => Some (Plain e) end.

Section laws.
  Context {W : Type} `{Environment W, LeaseStore W}.
  Context (view : W → Store) (interfere : Store → Store → Prop) (alive : scope → Prop).

(** One call of the interface: others interfere, then the operation runs under a context that
    has not ended when its scope is alive. *)
Definition served {A} (sc : scope) (w : W) (o : op) (f : context cerror → time → Store → A)
    (answer : A * W) : Prop :=
  ∃ ctx now st, interfere (view w) st ∧ (alive sc → ctx = Context None) ∧
    fst answer = f ctx now st ∧ view (snd answer) = exec ctx now st o.

Class StoreWorld : Prop := {
  sw_Create sc s w :
    served sc w (OpCreate s) (λ ctx now st, lift (fst (ContStore.Create ctx st s))) (ls_Create sc s w);
  sw_Load sc id w :
    served sc w (OpLoad id) (λ ctx now st, lift (fst (ContStore.Load ctx st id))) (ls_Load sc id w);
  sw_Transition sc q w :
    served sc w (OpTransition q) (λ ctx now st, lift (fst (ContStore.Transition ctx now st q)))
      (ls_Transition sc q w);
  sw_ListReady sc n w :
    served sc w (OpListReady n) (λ ctx now st, lift (fst (ContStore.ListReady ctx now st n)))
      (ls_ListReady sc n w);
  sw_SubmitSignal sc q w :
    served sc w (OpSubmitSignal q) (λ ctx now st, lift (fst (ContStore.SubmitSignal ctx st q)))
      (ls_SubmitSignal sc q w);
  sw_RequestCancel sc q w :
    served sc w (OpRequestCancel q) (λ ctx now st, lift (fst (ContStore.RequestCancel ctx st q)))
      (ls_RequestCancel sc q w);
  sw_Claim sc q w :
    served sc w (OpClaim q) (λ ctx now st, lift (fst (ContStore.Claim ctx now st q))) (ls_Claim sc q w);
  sw_Renew sc q w :
    served sc w (OpRenew q) (λ ctx now st, lift (fst (ContStore.Renew ctx now st q))) (ls_Renew sc q w);
  sw_Release sc q w :
    served sc w (OpRelease q) (λ ctx now st, lift_nil (fst (ContStore.Release ctx st q)))
      (ls_Release sc q w);
  sw_cause sc w : interfere (view w) (view (snd (w_cause sc w))) ∧ (alive sc → fst (w_cause sc w) = None);
  sw_now w : interfere (view w) (view (snd (w_now w)));
  sw_observe ev w : interfere (view w) (view (w_observe ev w));
  sw_beats w : interfere (view w) (view (snd (w_beats w)));
  sw_wait w : interfere (view w) (view (snd (w_wait w)))
}.

(** Machines: whatever they do to the world is interference, and their transitions carry
    [uint64] fences. *)
Definition machine_ok (m : Machine W) : Prop := ∀ s w,
  interfere (view w) (view (snd (m s w))) ∧
  ∀ t, fst (m s w) = Ok t → is_u64 (t_fence t).

Definition machines_ok (g : Registry (Machine W)) : Prop :=
  ∀ operation m, Resolve operation g = Some m → machine_ok m.
End laws.

(** ** New calls are valid *)
Lemma NewSnapshotWithInput_ok callID operation input s :
  NewSnapshotWithInput callID operation input = Ok s → snapshot_u64 s ∧ snapshot_ok s.
Proof.
  unfold NewSnapshotWithInput, NewSnapshot, NewFrame.
  destruct (validIdentity callID) eqn:Hid; [|done]. destruct (validOperation operation) eqn:Hop; [|done].
  cbn -[maxPayloadBytes]. destruct (Z.ltb_spec maxPayloadBytes (slen input)) as [|Hlen]; [done|].
  cbn. intros [= <-]. split; [unfold snapshot_u64, is_u64, max_u64; cbn; lia|].
  constructor; cbn; try done; [by left|].
  intros i f. destruct i; [|done]. intros [= <-]. unfold frame_ok; cbn. auto with lia.
Qed.

(** ** The runtime as a client of the store *)

(** What other clients may do meanwhile: any run of optimistic clients. *)
Definition others (st st' : Store) : Prop := ∀ seen, store_ok st → seen_ok st seen →
  ∃ seen', seen ⊆ seen' ∧ rtc client_step (st, seen) (st', seen').

Lemma client_rtc_ok st seen st' seen' :
  store_ok st → seen_ok st seen → rtc client_step (st, seen) (st', seen') →
  store_ok st' ∧ seen_ok st' seen'.
Proof.
  intros Hok Hseen Hr.
  apply (rtc_ind_r (λ p, store_ok p.1 ∧ seen_ok p.1 p.2) (st, seen)) in Hr; [done|done|].
  intros [s1 l1] [s2 l2] _ Hs [Hok1 Hseen1]. by apply (client_step_ok s1 l1).
Qed.

Lemma client_op_mono seen seen' o : seen ⊆ seen' → client_op seen o → client_op seen' o.
Proof. intros Hs. destruct o; try done. cbn. intros (b & t & Hb & Hrest). exists b, t. auto. Qed.

Lemma claim_live ctx now st q l :
  store_ok st → fst (Claim ctx now st q) = Ok l →
  s_status (l_Snapshot l) ∈ [StatusRunning; StatusCancelRequested].
Proof.
  intros Hok. unfold Claim. enter; [done|]. destruct (st_records st !! _) as [c|] eqn:Hc; [|done].
  destruct (so_records _ Hok _ _ Hc) as (_ & Hu & _).
  destruct (held_lease st now q c) as [a|] eqn:Hh.
  - unfold held_lease in Hh. destruct (st_leases st !! _) as [ls|] eqn:Hl; [|done].
    case_match; [|done]. injection Hh as <-. case_match; [|done]. cbn. intros [= <-].
    destruct (so_leases _ Hok _ _ Hl) as (s & Hs & Hst & _). cbn. congruence.
  - case_match; [done|]. destruct (next_owner c now) as [n|] eqn:Hn; [|done]. intros [= <-]. cbn.
    by apply next_owner_status in Hn as [? _].
Qed.

Lemma owned_status s :
  s ∈ [StatusRunning; StatusCancelRequested] → Status_Terminal s = false.
Proof. intros Hs. by repeat (apply elem_of_cons in Hs as [->|Hs]; [done|]); set_solver. Qed.

Section client.
  Context {W : Type} `{HE : Environment W, HL : LeaseStore W}.
  Context (view : W → Store) {Hsw : StoreWorld view others (λ _, False)}.
  Context (r : Runtime W) (Hms : machines_ok view others (rt_registry r)).

(** A stretch of the run: the clients so far, then the runtime's operations among those of
    the others. *)
Definition stretch (p q : W * list Snapshot) : Prop :=
  snd p ⊆ snd q ∧ rtc client_step (view (fst p), snd p) (view (fst q), snd q).
Definition sound (p : W * list Snapshot) : Prop :=
  store_ok (view (fst p)) ∧ seen_ok (view (fst p)) (snd p).
Definition runs (p : W * list Snapshot) (w : W) : Prop := ∃ seen, stretch p (w, seen).

Lemma stretch_sound p q : sound p → stretch p q → sound q.
Proof. intros [Hok Hseen] [_ Hr]. by apply (client_rtc_ok (view p.1) p.2). Qed.

#[local] Instance stretch_preorder : PreOrder stretch.
Proof.
  split.
  - intros p. split; [done|apply rtc_refl].
  - intros p q s [Hs Hr] [Hs' Hr']. split; [by etrans|by etrans].
Qed.

Lemma runs_refl p : runs p (fst p).
Proof. exists (snd p). by destruct p. Qed.

Lemma runs_trans p q w : stretch p q → runs q w → runs p w.
Proof. intros Hs (seen & Hs'). exists seen. by etrans. Qed.

Lemma interfered p w : sound p → others (view (fst p)) (view w) → ∃ seen, stretch p (w, seen).
Proof. intros [Hok Hseen] Ho. destruct (Ho _ Hok Hseen) as (seen & ? & ?). by exists seen. Qed.

(** One store call. *)
Lemma called {A} p sc o (f : context cerror → time → Store → A) ans (a : A) w :
  sound p → served view others (λ _, False) sc (fst p) o f ans → ans = (a, w) → client_op (snd p) o →
  ∃ ctx now st seen, stretch p (w, seen) ∧ store_ok st ∧ a = f ctx now st ∧
    ∀ l, answer ctx now st o = Ok l → l ⊆ seen.
Proof.
  intros [Hok Hseen] (ctx & now & st & Ho & _ & Ha & Hv) -> Hcl. cbn in Ha, Hv.
  destruct (Ho _ Hok Hseen) as (seen1 & Hs1 & Hr1).
  destruct (client_rtc_ok _ _ _ _ Hok Hseen Hr1) as [Hok1 Hseen1]. cbn in *.
  pose proof (client_does ctx now st seen1 o (client_op_mono _ _ _ Hs1 Hcl)) as Hstep.
  rewrite <- Hv in Hstep. eexists ctx, now, st, _. split_and!; [|done|done|].
  - split; [|by eapply rtc_r]. cbn. destruct (answer _ _ _ _); set_solver.
  - intros l ->. set_solver.
Qed.

Lemma observed p ev : sound p → ∃ seen, stretch p (observe ev (fst p), seen).
Proof. intros Hp. apply interfered; [done|]. apply (sw_observe view others _). Qed.

Lemma caused p sc c w : sound p → w_cause sc (fst p) = (c, w) → ∃ seen, stretch p (w, seen).
Proof.
  intros Hp Hc. apply interfered; [done|]. pose proof (sw_cause view others _ sc (fst p)) as [Hv _].
  by rewrite Hc in Hv.
Qed.

Lemma released p sc s : sound p → ∃ seen, stretch p (release r sc s (fst p), seen).
Proof.
  intros Hp. unfold release. destruct (ls_Release sc _ (fst p)) as [a w] eqn:Ha.
  destruct (called _ _ _ _ _ _ _ Hp (sw_Release view others _ _ _ _) Ha I) as (_ & _ & _ & seen & Hs & _).
  by exists seen.
Qed.

Lemma heartbeat_runs sc ticks ended s p a w :
  sound p → heartbeat r sc ticks ended s (fst p) = (a, w) → ∃ seen, stretch p (w, seen).
Proof.
  revert p. induction ticks as [|ticks IH]; intros p Hp; cbn [heartbeat].
  - destruct ended; [by apply caused|]. intros [= <- <-]. by apply runs_refl.
  - destruct (ls_Renew sc _ (fst p)) as [b w1] eqn:Hb.
    destruct (called _ _ _ _ _ _ _ Hp (sw_Renew view others _ _ _ _) Hb I) as (_ & _ & _ & seen & Hs & _).
    pose proof (stretch_sound _ _ Hp Hs) as Hp1. destruct b as [l|e].
    + destruct (observed (w1, seen) (mkEvent EventRenew (Some (s_status s)) ErrorClassNone 0) Hp1)
        as (seen2 & Hs2). intros Hh. eapply runs_trans; [done|]. eapply runs_trans; [done|].
      eapply (IH (_, seen2)); [by eapply stretch_sound|done].
    + destruct (observed (w1, seen) (mkEvent EventRenew (Some (s_status s)) ErrorClassInternal 0) Hp1)
        as (seen2 & Hs2). intros [= <- <-]. eapply runs_trans; [done|]. by exists seen2.
Qed.

Lemma advance_runs sc m s p a w :
  sound p → machine_ok view others m → advance r sc m s (fst p) = (a, w) →
  (∃ seen, stretch p (w, seen)) ∧ ∀ t, a = Ok t → is_u64 (t_fence t).
Proof.
  intros Hp Hm. unfold advance. destruct (m s (fst p)) as [o w1] eqn:Ho.
  destruct (Hm s (fst p)) as [Hi Ht]. rewrite Ho in Hi, Ht. cbn in Hi, Ht.
  destruct (interfered p w1 Hp Hi) as (seen1 & Hs1). pose proof (stretch_sound _ _ Hp Hs1) as Hp1.
  destruct (w_beats w1) as [[n e] w2] eqn:Hb. pose proof (sw_beats view others _ w1) as Hi2.
  rewrite Hb in Hi2. destruct (interfered (w1, seen1) w2 Hp1 Hi2) as (seen2 & Hs2).
  pose proof (stretch_sound _ _ Hp1 Hs2) as Hp2.
  destruct (heartbeat r sc n e s w2) as [h w3] eqn:Hh.
  destruct (heartbeat_runs sc n e s (w2, seen2) h w3 Hp2 Hh) as (seen3 & Hs3).
  intros Hr. assert (w = w3) as -> by (by destruct h; injection Hr).
  split; [exists seen3; by do 2 (etrans; [done|])|].
  intros t ->. destruct h as [err|]; [|injection Hr as ->; auto].
  destruct (error_is err ErrCanceled); injection Hr as ?; [auto|done].
Qed.
Lemma request_runs cur next p q w :
  sound p → commitRequest r cur next (fst p) = (q, w) →
  (∃ seen, stretch p (w, seen)) ∧ cm_Snapshot q = next ∧ cm_ExpectedRevision q = s_revision cur.
Proof.
  intros Hp. unfold commitRequest. destruct (Status_Terminal _).
  - destruct (w_now (fst p)) as [now w1] eqn:Hn. intros [= <- <-]. split; [|done].
    apply interfered; [done|]. pose proof (sw_now view others _ (fst p)) as Hi. by rewrite Hn in Hi.
  - intros [= <- <-]. split; [by apply runs_refl|done].
Qed.

(** A commit of a live snapshot somebody saw keeps the contract of the store. *)
Lemma transition_runs sc cur t next p q a w :
  sound p → cur ∈ snd p → Status_Terminal (s_status cur) = false → is_u64 (t_fence t) →
  Apply cur t = Ok next → cm_Snapshot q = next → cm_ExpectedRevision q = s_revision cur →
  ls_Transition sc q (fst p) = (a, w) →
  ∃ seen, stretch p (w, seen) ∧ ∀ n, a = Ok n → n ∈ seen.
Proof.
  intros Hp Hin Hlive Ht HA Hq Hrev Ha.
  assert (Hcl : client_op (snd p) (OpTransition q)).
  { exists cur, t. rewrite Hq. auto. }
  destruct (called _ _ _ _ _ _ _ Hp (sw_Transition view others _ _ _ _) Ha Hcl)
    as (ctx & now & st & seen & Hs & _ & -> & Hl).
  exists seen. split; [done|]. intros n Hn. specialize (Hl [n]). cbn in Hl.
  destruct (fst (ContStore.Transition ctx now st q)) as [x|]; [|done]. injection Hn as ->.
  assert (H1 : [n] ⊆ seen) by (by apply Hl). set_solver.
Qed.

Lemma commit_runs sc cur t p a w :
  sound p → cur ∈ snd p → Status_Terminal (s_status cur) = false → is_u64 (t_fence t) →
  commit r sc cur t (fst p) = (a, w) →
  ∃ seen, stretch p (w, seen) ∧ ∀ n, a = Ok n → n ∈ seen.
Proof.
  intros Hp Hin Hlive Ht. unfold commit. destruct (Apply cur t) as [next|e] eqn:HA.
  2:{ intros [= <- <-]. destruct (runs_refl p) as [seen Hs]. by exists seen. }
  destruct (commitRequest r cur next (fst p)) as [q w1] eqn:Hq.
  destruct (request_runs _ _ _ _ _ Hp Hq) as ([seen1 Hs1] & Hq1 & Hq2).
  pose proof (stretch_sound _ _ Hp Hs1) as Hp1.
  destruct (ls_Transition sc q w1) as [b w2] eqn:Hb.
  destruct (transition_runs sc cur t next (w1, seen1) q b w2) as (seen2 & Hs2 & Hn2); try done.
  { by apply Hs1. }
  pose proof (stretch_sound _ _ Hp1 Hs2) as Hp2. destruct b as [n|e]; intros [= <- <-].
  - destruct (observed (w2, seen2) (mkEvent EventTransition (Some (s_status n)) ErrorClassNone 0) Hp2)
      as (seen3 & Hs3).
    exists seen3. split; [by do 2 (etrans; [done|])|]. intros ? [= <-]. apply Hs3. by apply Hn2.
  - exists seen2. split; [by etrans|done].
Qed.
Lemma machine_error_runs sc cur err p a w :
  sound p → cur ∈ snd p → Status_Terminal (s_status cur) = false → is_u64 (s_fence cur) →
  commitMachineError r sc cur err (fst p) = (a, w) →
  ∃ seen, stretch p (w, seen) ∧ ∀ n, a = Some (Ok n) → n ∈ seen.
Proof.
  intros Hp Hin Hlive Hf. unfold commitMachineError.
  destruct (machineErrorClass err) as [class classified].
  destruct (observed p (mkEvent EventMachineError (Some (s_status cur)) class 0) Hp) as (seen1 & Hs1).
  pose proof (stretch_sound _ _ Hp Hs1) as Hp1. destruct classified; cbn [negb].
  2:{ intros [= <- <-]. by exists seen1. }
  destruct (error_transition cur class) as [t|e] eqn:Ht.
  2:{ intros [= <- <-]. by exists seen1. }
  destruct (commit r sc cur t _) as [b w2] eqn:Hb.
  destruct (commit_runs sc cur t (_, seen1) b w2 Hp1) as (seen2 & Hs2 & Hn); [by apply Hs1|done| |done|].
  { unfold error_transition in Ht. destruct class; cbn in Ht; by injection Ht as <-. }
  intros [= <- <-]. exists seen2. split; [by etrans|]. intros n [= ->]. by apply Hn.
Qed.

Lemma seen_fence p s : sound p → s ∈ snd p → is_u64 (s_fence s).
Proof. intros [_ Hseen] Hs. destruct (Hseen s Hs) as [(_ & Hf & _) _]. done. Qed.

Lemma drive_runs n m cur p a w :
  sound p → machine_ok view others m → cur ∈ snd p → Status_Terminal (s_status cur) = false →
  drive r n m cur (fst p) = (a, w) → runs p w.
Proof.
  intros Hp Hm. revert cur p Hp. induction n as [|n IH]; intros cur p Hp Hin Hlive; cbn [drive].
  { intros [= <- <-]. apply runs_refl. }
  destruct (advance r Caller m cur (fst p)) as [o w1] eqn:Hadv.
  destruct (advance_runs _ _ _ _ _ _ Hp Hm Hadv) as [[seen1 Hs1] Ht].
  pose proof (stretch_sound _ _ Hp Hs1) as Hp1. assert (Hin1 : cur ∈ seen1) by (by apply Hs1).
  destruct o as [t|err].
  - destruct (commit r Caller cur t w1) as [b w2] eqn:Hb.
    destruct (commit_runs Caller cur t (w1, seen1) b w2 Hp1) as (seen2 & Hs2 & Hn); auto.
    pose proof (stretch_sound _ _ Hp1 Hs2) as Hp2. intros Hr.
    eapply runs_trans; [done|]. eapply runs_trans; [done|]. revert Hr.
    destruct b as [next|e].
    2:{ intros [= <- <-]. by apply (released (w2, seen2)). }
    destruct (s_status next == StatusRunning) eqn:Hst; cbn [negb].
    2:{ intros [= <- <-]. apply (runs_refl (w2, seen2)). }
    destruct n as [|n]; [intros [= <- <-]; by apply (released (w2, seen2))|].
    bool_hyps. apply (IH next (w2, seen2)); [done|by apply Hn|by rewrite Hst].
  - destruct (w_cause Caller w1) as [c w2] eqn:Hc.
    destruct (caused (w1, seen1) Caller c w2 Hp1 Hc) as (seen2 & Hs2).
    pose proof (stretch_sound _ _ Hp1 Hs2) as Hp2. assert (Hin2 : cur ∈ seen2) by (by apply Hs2).
    intros Hr. eapply runs_trans; [done|]. eapply runs_trans; [done|]. revert Hr.
    destruct c as [cause|]; [intros [= <- <-]; by apply (released (w2, seen2))|].
    destruct (commitMachineError r Caller cur err w2) as [h w3] eqn:Hh.
    destruct (machine_error_runs Caller cur err (w2, seen2) h w3) as (seen3 & Hs3 & _); auto.
    { by eapply (seen_fence (w2, seen2)). }
    pose proof (stretch_sound _ _ Hp2 Hs3) as Hp3. intros Hr. eapply runs_trans; [done|]. revert Hr.
    destruct h as [[x|x]|]; intros [= <- <-];
      [apply (runs_refl (w3, seen3))|by apply (released (w3, seen3))..].
Qed.
(** A granted claim hands out a live snapshot. *)
Lemma claim_runs sc q p a w :
  sound p → ls_Claim sc q (fst p) = (a, w) →
  ∃ seen, stretch p (w, seen) ∧
    ∀ l, a = Ok l → l_Snapshot l ∈ seen ∧ Status_Terminal (s_status (l_Snapshot l)) = false.
Proof.
  intros Hp Ha. destruct (called _ _ _ _ _ _ _ Hp (sw_Claim view others _ _ _ _) Ha I)
    as (ctx & now & st & seen & Hs & Hok & -> & Hl).
  exists seen. split; [done|]. intros l Hln. specialize (Hl [l_Snapshot l]). cbn in Hl.
  destruct (fst (ContStore.Claim ctx now st q)) as [x|] eqn:Hx; [|done]. injection Hln as ->.
  split; [|by eapply owned_status, claim_live].
  assert (H1 : [l_Snapshot l] ⊆ seen) by (by apply Hl). set_solver.
Qed.

Lemma run_batch_runs ready n p a w :
  sound p → run_batch r ready n (fst p) = (a, w) → runs p w.
Proof.
  revert n p. induction ready as [|c ready IH]; intros n p Hp; cbn [run_batch].
  { intros [= <- <-]. apply runs_refl. }
  destruct (s_workflow c); [by apply IH|].
  destruct (w_cause Caller (fst p)) as [cause w1] eqn:Hc.
  destruct (caused p Caller cause w1 Hp Hc) as (seen1 & Hs1).
  pose proof (stretch_sound _ _ Hp Hs1) as Hp1. intros Hr. eapply runs_trans; [done|]. revert Hr.
  destruct cause as [cause|]; [intros [= <- <-]; apply (runs_refl (w1, seen1))|].
  destruct (ls_Claim Caller (claim_request r c) w1) as [b w2] eqn:Hb.
  destruct (claim_runs Caller (claim_request r c) (w1, seen1) b w2 Hp1 Hb) as (seen2 & Hs2 & Hl).
  pose proof (stretch_sound _ _ Hp1 Hs2) as Hp2. intros Hr. eapply runs_trans; [done|]. revert Hr.
  destruct b as [claim|err].
  2:{ case_match; [by apply (IH _ (w2, seen2))|intros [= <- <-]; apply (runs_refl (w2, seen2))]. }
  destruct (Hl claim) as [Hin Hlive]; [done|]. set (cur := l_Snapshot claim) in *.
  destruct (observed (w2, seen2) (mkEvent EventClaim (Some (s_status cur)) ErrorClassNone 0) Hp2)
    as (seen3 & Hs3). set (w3 := observe _ _) in *. pose proof (stretch_sound _ _ Hp2 Hs3) as Hp3.
  intros Hr. eapply runs_trans; [done|]. revert Hr.
  destruct (Resolve (s_operation cur) (rt_registry r)) as [m|] eqn:Hm.
  2:{ intros [= <- <-]. by apply (released (w3, seen3)). }
  destruct (drive r (Z.to_nat (rt_maxTransitions r)) m cur w3) as [d w4] eqn:Hd.
  destruct (drive_runs _ _ _ (w3, seen3) _ _ Hp3 (Hms _ _ Hm) (proj1 Hs3 _ Hin) Hlive Hd)
    as (seen4 & Hs4).
  pose proof (stretch_sound _ _ Hp3 Hs4) as Hp4. intros Hr. eapply runs_trans; [done|]. revert Hr.
  destruct d as [err|]; [intros [= <- <-]; apply (runs_refl (w4, seen4))|by apply (IH _ (w4, seen4))].
Qed.

Lemma RunOnce_runs p a w : sound p → RunOnce r (fst p) = (a, w) → runs p w.
Proof.
  intros Hp. unfold RunOnce. destruct (w_cause Caller (fst p)) as [cause w1] eqn:Hc.
  destruct (caused p Caller cause w1 Hp Hc) as (seen1 & Hs1).
  pose proof (stretch_sound _ _ Hp Hs1) as Hp1. intros Hr. eapply runs_trans; [done|]. revert Hr.
  destruct cause; [intros [= <- <-]; apply (runs_refl (w1, seen1))|].
  destruct (ls_ListReady Caller (rt_batchSize r) w1) as [b w2] eqn:Hb.
  destruct (called (w1, seen1) _ _ _ _ _ _ Hp1 (sw_ListReady view others _ _ _ _) Hb I)
    as (_ & _ & _ & seen2 & Hs2 & _).
  pose proof (stretch_sound _ _ Hp1 Hs2) as Hp2. intros Hr. eapply runs_trans; [done|]. revert Hr.
  destruct b as [ready|]; [by apply (run_batch_runs _ _ (w2, seen2))|].
  intros [= <- <-]. apply (runs_refl (w2, seen2)).
Qed.
(** *** Inline execution *)
Lemma exhausted_runs p b w : sound p → inlineBudgetExhausted (fst p) = (b, w) → runs p w.
Proof.
  intros Hp. unfold inlineBudgetExhausted. destruct (w_cause Inline (fst p)) as [c w1] eqn:Hc.
  destruct (caused p Inline c w1 Hp Hc) as (seen1 & Hs1). destruct c; intros [= <- <-]; by exists seen1.
Qed.

Lemma fallback_runs p cur a w : sound p → inline_fallback cur (fst p) = (a, w) → runs p w.
Proof.
  intros Hp. unfold inline_fallback, loadInlineSnapshot.
  destruct (ls_Load Cleanup (s_callID cur) (fst p)) as [b w1] eqn:Hb.
  destruct (called _ _ _ _ _ _ _ Hp (sw_Load view others _ _ _ _) Hb I) as (_ & _ & _ & seen & Hs & _).
  destruct b; intros [= <- <-]; by exists seen.
Qed.

Lemma inline_failed_runs p cur err a w : sound p → inline_failed cur err (fst p) = (a, w) → runs p w.
Proof.
  intros Hp. unfold inline_failed. destruct (inlineBudgetExhausted (fst p)) as [b w1] eqn:Hb.
  destruct (exhausted_runs _ _ _ Hp Hb) as (seen1 & Hs1). pose proof (stretch_sound _ _ Hp Hs1) as Hp1.
  intros Hr. eapply runs_trans; [done|]. revert Hr. destruct b; [by apply (fallback_runs (w1, seen1))|].
  intros [= <- <-]. apply (runs_refl (w1, seen1)).
Qed.

Lemma inline_machine_error_runs p cur err a w :
  sound p → cur ∈ snd p → Status_Terminal (s_status cur) = false →
  inline_machine_error r cur err (fst p) = (a, w) → runs p w.
Proof.
  intros Hp Hin Hlive. unfold inline_machine_error.
  destruct (inlineBudgetExhausted (fst p)) as [b w1] eqn:Hb.
  destruct (exhausted_runs _ _ _ Hp Hb) as (seen1 & Hs1). pose proof (stretch_sound _ _ Hp Hs1) as Hp1.
  intros Hr. eapply runs_trans; [done|]. revert Hr. destruct b; [by apply (fallback_runs (w1, seen1))|].
  destruct (w_cause Inline w1) as [c w2] eqn:Hc.
  destruct (caused (w1, seen1) Inline c w2 Hp1 Hc) as (seen2 & Hs2).
  pose proof (stretch_sound _ _ Hp1 Hs2) as Hp2. assert (Hin2 : cur ∈ seen2) by (by apply Hs2, Hs1).
  intros Hr. eapply runs_trans; [done|]. revert Hr.
  destruct c; [intros [= <- <-]; apply (runs_refl (w2, seen2))|].
  destruct (commitMachineError r Inline cur err w2) as [h w3] eqn:Hh.
  destruct (machine_error_runs Inline cur err (w2, seen2) h w3) as (seen3 & Hs3 & _); auto.
  { by eapply (seen_fence (w2, seen2)). }
  destruct h as [[x|x]|]; intros [= <- <-]; by exists seen3.
Qed.

Lemma drive_inline_runs n m cur p a w :
  sound p → machine_ok view others m → cur ∈ snd p → Status_Terminal (s_status cur) = false →
  drive_inline r n m cur (fst p) = (a, w) → runs p w.
Proof.
  intros Hp Hm. revert cur p Hp. induction n as [|n IH]; intros cur p Hp Hin Hlive; cbn [drive_inline].
  { intros [= <- <-]. apply runs_refl. }
  destruct (inlineBudgetExhausted (fst p)) as [b w1] eqn:Hb.
  destruct (exhausted_runs _ _ _ Hp Hb) as (seen1 & Hs1). pose proof (stretch_sound _ _ Hp Hs1) as Hp1.
  intros Hr. eapply runs_trans; [done|]. revert Hr. destruct b; [by apply (fallback_runs (w1, seen1))|].
  destruct (advance r Inline m cur w1) as [o w2] eqn:Hadv.
  destruct (advance_runs _ _ _ (w1, seen1) _ _ Hp1 Hm Hadv) as [[seen2 Hs2] Ht].
  pose proof (stretch_sound _ _ Hp1 Hs2) as Hp2. assert (Hin2 : cur ∈ seen2) by (by apply Hs2, Hs1).
  intros Hr. eapply runs_trans; [done|]. revert Hr.
  destruct o as [t|err]; [|by apply (inline_machine_error_runs (w2, seen2))].
  destruct (Apply cur t) as [next|e] eqn:HA; [|intros [= <- <-]; apply (runs_refl (w2, seen2))].
  destruct (commitRequest r cur next w2) as [q w3] eqn:Hq.
  destruct (request_runs _ _ (w2, seen2) _ _ Hp2 Hq) as ([seen3 Hs3] & Hq1 & Hq2).
  pose proof (stretch_sound _ _ Hp2 Hs3) as Hp3. intros Hr. eapply runs_trans; [done|]. revert Hr.
  destruct (ls_Transition Inline q w3) as [c w4] eqn:Hc.
  destruct (transition_runs Inline cur t next (w3, seen3) q c w4) as (seen4 & Hs4 & Hn4); auto.
  { by apply Hs3. }
  pose proof (stretch_sound _ _ Hp3 Hs4) as Hp4. intros Hr. eapply runs_trans; [done|]. revert Hr.
  destruct c as [committed|err]; [|by apply (inline_failed_runs (w4, seen4))].
  destruct (observed (w4, seen4) (mkEvent EventTransition (Some (s_status committed)) ErrorClassNone 0) Hp4)
    as (seen5 & Hs5). set (w5 := observe _ _) in *. pose proof (stretch_sound _ _ Hp4 Hs5) as Hp5.
  intros Hr. eapply runs_trans; [done|]. revert Hr.
  destruct (s_status committed == StatusRunning) eqn:Hst; cbn [negb];
    [|intros [= <- <-]; apply (runs_refl (w5, seen5))].
  bool_hyps. apply (IH committed (w5, seen5)); [done| |by rewrite Hst]. apply Hs5. by apply Hn4.
Qed.

Lemma StartCallInline_runs callID operation input budget p a w :
  sound p → StartCallInline r callID operation input budget (fst p) = (a, w) → runs p w.
Proof.
  intros Hp. unfold StartCallInline, StartCall. case_match; [intros [= <- <-]; apply runs_refl|].
  destruct (Resolve operation _) as [m0|]; [|intros [= <- <-]; apply runs_refl].
  destruct (NewSnapshotWithInput callID operation input) as [s|] eqn:Hs0;
    [|intros [= <- <-]; apply runs_refl].
  destruct (ls_Create Caller s (fst p)) as [b w1] eqn:Hb.
  destruct (called _ _ _ _ _ _ _ Hp (sw_Create view others _ _ _ _) Hb (NewSnapshotWithInput_ok _ _ _ _ Hs0))
    as (_ & _ & _ & seen1 & Hs1 & _). pose proof (stretch_sound _ _ Hp Hs1) as Hp1.
  intros Hr. eapply runs_trans; [done|]. revert Hr.
  destruct b as [created|]; [|intros [= <- <-]; apply (runs_refl (w1, seen1))].
  destruct (ls_Claim Inline (claim_request r created) w1) as [c w2] eqn:Hc.
  destruct (claim_runs Inline (claim_request r created) (w1, seen1) c w2 Hp1 Hc) as (seen2 & Hs2 & Hl).
  pose proof (stretch_sound _ _ Hp1 Hs2) as Hp2. intros Hr. eapply runs_trans; [done|]. revert Hr.
  destruct c as [claim|err].
  2:{ destruct (inlineBudgetExhausted w2) as [x w3] eqn:Hx.
      destruct (exhausted_runs (w2, seen2) _ _ Hp2 Hx) as (seen3 & Hs3).
      destruct x; intros [= <- <-]; by exists seen3. }
  destruct (Hl claim) as [Hin Hlive]; [done|]. set (cur := l_Snapshot claim) in *.
  destruct (observed (w2, seen2) (mkEvent EventClaim (Some (s_status cur)) ErrorClassNone 0) Hp2)
    as (seen3 & Hs3). set (w3 := observe _ _) in *. pose proof (stretch_sound _ _ Hp2 Hs3) as Hp3.
  intros Hr. eapply runs_trans; [done|]. revert Hr.
  destruct (Resolve (s_operation cur) (rt_registry r)) as [m|] eqn:Hm;
    [|intros [= <- <-]; by apply (released (w3, seen3))].
  destruct (drive_inline r _ m cur w3) as [d w4] eqn:Hd.
  destruct (drive_inline_runs _ _ _ (w3, seen3) _ _ Hp3 (Hms _ _ Hm) (proj1 Hs3 _ Hin) Hlive Hd)
    as (seen4 & Hs4).
  pose proof (stretch_sound _ _ Hp3 Hs4) as Hp4. intros [= <- <-]. eapply runs_trans; [done|].
  destruct (ie_leased d); [by apply (released (w4, seen4))|apply (runs_refl (w4, seen4))].
Qed.
End client.

(** C10: the executor is a well-behaved client of the store.  Run a batch, or one call inline,
    over a store that other clients use at the same time in any way: every operation the
    executor issues keeps the commit contract of the store (it commits only transitions applied
    to live snapshots the store handed out, under their revision), so the whole run is again a
    run of optimistic clients and the store invariant holds at the end. *)
Theorem runtime_is_client (W : Type) `{Environment W, LeaseStore W} (view : W → Store)
    (r : Runtime W) w seen callID operation input budget :
  StoreWorld view others (λ _, False) → machines_ok view others (rt_registry r) →
  rtc client_step (NewStore, []) (view w, seen) →
  ∀ w', w' ∈ [snd (RunOnce r w); snd (StartCallInline r callID operation input budget w)] →
  store_ok (view w') ∧
  ∃ seen', seen ⊆ seen' ∧ rtc client_step (NewStore, []) (view w', seen').
Proof.
  intros Hsw Hms Hrun w' Hw'. destruct (client_run_ok _ _ Hrun) as [Hok Hseen].
  assert (Hr : runs view (w, seen) w').
  { apply elem_of_cons in Hw' as [->|Hw'].
    - destruct (RunOnce r w) as [a w1] eqn:Ha. by eapply (RunOnce_runs view r Hms (w, seen)).
    - apply list_elem_of_singleton in Hw' as ->. destruct (StartCallInline _ _ _ _ _ w) as [a w1] eqn:Ha.
      by eapply (StartCallInline_runs view r Hms _ _ _ _ (w, seen)). }
  destruct Hr as (seen' & Hs & Hr). cbn in *. split.
  - by destruct (client_rtc_ok _ _ _ _ Hok Hseen Hr).
  - exists seen'. split; [done|]. by etrans.
Qed.

(** ** Leases are given back

    Now nobody else touches the store, and [alive] scopes do not end. *)
Section quiet.
  Context {W : Type} `{HE : Environment W, HL : LeaseStore W}.
  Context (view : W → Store) (alive : scope → Prop) {Hsw : StoreWorld view eq alive}.
  Context (r : Runtime W) (Hms : machines_ok view eq (rt_registry r)).
  Context (Howner : validLeaseOwner (rt_executorID r) = true).
  Context (L0 : gmap string leaseRecord).

Definition given_back (st : Store) : Prop :=
  store_ok st ∧ ∀ k l, st_leases st !! k = Some l → L0 !! k = Some l.

(** At most the lease of [cur] is the executor's. *)
Record holds (st : Store) (cur : Snapshot) : Prop := mk_holds {
  ho_ok : store_ok st;
  ho_record : st_records st !! s_callID cur = Some cur;
  ho_others : ∀ k l, k ≠ s_callID cur → st_leases st !! k = Some l → L0 !! k = Some l;
  ho_owner : ∀ l, st_leases st !! s_callID cur = Some l → lease_owner l = rt_executorID r;
  ho_fence : s_fence cur ≠ 0
}.

Lemma exec_ok ctx now st o : store_ok st → op_contract st o → store_ok (exec ctx now st o).
Proof. intros Hok Hc. by eapply change_ok, exec_change. Qed.

Lemma holds_given_back st cur :
  holds st cur → st_leases st !! s_callID cur = None → given_back st.
Proof.
  intros [Hok _ Ho _ _] Hn. split; [done|]. intros k l Hk. apply Ho; [|done]. intros ->. congruence.
Qed.

(** What a release by the holder does. *)
Lemma release_effect now st cur :
  holds st cur → exec (Context None) now st (OpRelease (lease_request r cur 0)) =
  match st_leases st !! s_callID cur with
  | Some _ => set_leases (delete (s_callID cur)) st
  | None => st
  end.
Proof using Howner.
  intros [Hok Hr Ho Hown Hf]. destruct (so_records _ Hok _ _ Hr) as (_ & _ & Hs).
  cbn [exec]. unfold Release, LeaseRequest_Validate.
  cbn [lease_request lq_CallID lq_Revision lq_Fence lq_OwnerID].
  pose proof (ok_revision _ Hs). rewrite (ok_callID _ Hs), Howner, (proj2 (Z.eqb_neq _ _) Hf).
  rewrite (proj2 (Z.eqb_neq (s_revision cur) 0)) by lia. cbn [negb orb andb].
  rewrite bool_decide_true by done. cbn [negb]. rewrite entry_open, Hr.
  unfold owned_lease. destruct (st_leases st !! s_callID cur) as [l|] eqn:Hl; [|done].
  destruct (so_leases _ Hok _ _ Hl) as (s & Hs' & _ & Hrev & Hfen).
  rewrite Hr in Hs'. injection Hs' as <-. rewrite (Hown _ eq_refl), Hrev, Hfen, !Z.eqb_refl.
  by rewrite bool_decide_true by done.
Qed.

Lemma holds_release now st cur :
  holds st cur → given_back (exec (Context None) now st (OpRelease (lease_request r cur 0))).
Proof using Howner.
  intros Hh. split; [apply exec_ok; [apply Hh|done]|]. rewrite (release_effect now st cur Hh).
  intros k l. destruct (st_leases st !! s_callID cur) as [l'|] eqn:Hl; cbn.
  - intros [Hne Hk]%lookup_delete_Some. by apply (ho_others _ _ Hh).
  - by apply (holds_given_back st cur).
Qed.

(** What a commit by the holder does. *)
Lemma holds_transition ctx now st cur t next q :
  holds st cur → is_u64 (t_fence t) → Apply cur t = Ok next →
  cm_Snapshot q = next → cm_ExpectedRevision q = s_revision cur → cm_LeaseOwner q = rt_executorID r →
  match fst (ContStore.Transition ctx now st q) with
  | Err _ => exec ctx now st (OpTransition q) = st
  | Ok n => n = next ∧
      if s_status next == StatusRunning then holds (exec ctx now st (OpTransition q)) next
      else given_back (exec ctx now st (OpTransition q))
  end.
Proof using Howner.
  intros Hh Ht HA Hq Hrev Hown. pose proof Hh as [Hok Hr Ho Howns Hf].
  destruct (so_records _ Hok _ _ Hr) as (_ & Hu & _).
  pose proof (Apply_callID _ _ _ Hu HA) as Hid.
  assert (Hok' : store_ok (exec ctx now st (OpTransition q))).
  { apply exec_ok; [done|]. cbn. rewrite Hq, Hid. intros c Hc _. rewrite Hr in Hc.
    injection Hc as <-. by exists t. }
  revert Hok'. cbn [exec]. unfold ContStore.Transition. rewrite Hq, Hid. enter; [done|].
  rewrite Hr, Hown. rewrite bool_decide_false by (by eapply valid_text_nonempty). cbn [negb].
  destruct (negb (owned_lease _ _ _ _ _) || _) eqn:Hlease; [done|].
  destruct (Z.eqb_spec (cm_Fence q) (s_fence cur)) as [Hfq|]; [|done]. cbn [negb].
  case_match; [done|]. destruct (validSuccessor cur next (cm_Fence q)) eqn:Hvs; [|done].
  cbn [negb fst snd]. intros Hok'. split; [done|].
  apply orb_false_iff in Hlease as [Hlease _]. apply negb_false_iff in Hlease.
  unfold owned_lease in Hlease. destruct (st_leases st !! s_callID cur) as [l|] eqn:Hl; [|done].
  destruct (s_status next == StatusRunning) eqn:Hst.
  - constructor; [done|cbn; by rewrite Hid, lookup_insert_eq| | |].
    + cbn. rewrite Hid. intros k l' Hne. rewrite lookup_insert_ne by done. by apply Ho.
    + cbn. rewrite Hid, lookup_insert_eq, Hl. intros l' [= <-]. cbn. by apply Howns.
    + unfold validSuccessor in Hvs. destruct (_ || (s_sequence next <? _)) eqn:E; [done|]. bool_hyps. lia.
  - split; [done|]. cbn. intros k l' [Hne Hk]%lookup_delete_Some. by apply Ho.
Qed.

Lemma holds_renew ctx now st cur q :
  holds st cur → lq_CallID q = s_callID cur → holds (exec ctx now st (OpRenew q)) cur.
Proof.
  intros Hh Hq. pose proof Hh as [Hok Hr Ho Howns Hf].
  assert (Hok' : store_ok (exec ctx now st (OpRenew q))) by (by apply exec_ok).
  revert Hok'. cbn [exec]. unfold Renew. rewrite Hq. enter; [done|]. rewrite Hr.
  destruct (st_leases st !! s_callID cur) as [l|] eqn:Hl; [|by intros _].
  case_match; [by intros _|]. cbn [snd]. intros Hok'. constructor; [done|done| | |done]; cbn.
  - intros k l' Hne. rewrite lookup_insert_ne by done. by apply Ho.
  - rewrite lookup_insert_eq. intros l' [= <-]. cbn. by apply Howns.
Qed.

Lemma claim_holds ctx now st q :
  given_back st → (∀ k l, st_leases st !! k = Some l → lease_owner l ≠ rt_executorID r) →
  cq_OwnerID q = rt_executorID r →
  match fst (Claim ctx now st q) with
  | Err _ => exec ctx now st (OpClaim q) = st
  | Ok l => holds (exec ctx now st (OpClaim q)) (l_Snapshot l) ∧
      Status_Terminal (s_status (l_Snapshot l)) = false
  end.
Proof.
  intros [Hok Hgb] Hnone Hown.
  assert (Hok' : store_ok (exec ctx now st (OpClaim q))) by (by apply exec_ok).
  revert Hok'. cbn [exec]. unfold Claim. enter; [done|].
  destruct (st_records st !! cq_CallID q) as [c|] eqn:Hc; [|done].
  destruct (so_records _ Hok _ _ Hc) as (Hid & Hu & _).
  destruct (held_lease st now q c) as [a|] eqn:Hh.
  { unfold held_lease in Hh. destruct (st_leases st !! _) as [ls|] eqn:Hl; [|done].
    destruct (After _ _); [|done]. injection Hh as <-. apply Hnone in Hl. rewrite Hown.
    rewrite bool_decide_false by done. done. }
  case_match; [done|]. destruct (next_owner c now) as [n|] eqn:Hn; [|done]. cbn [fst snd l_Snapshot].
  intros Hok'. pose proof (next_owner_status _ _ _ Hu Hn) as (Hst & Hfen & _ & _).
  split; [|by apply owned_status].
  apply next_owner_Ok in Hn as (_ & _ & _ & t & _ & _ & HA & _); [|done].
  pose proof (Apply_callID _ _ _ Hu HA) as Hidn. rewrite Hid in Hidn.
  constructor; [done| | | |]; cbn; rewrite ?Hidn.
  - apply lookup_insert_eq.
  - intros k l Hne. rewrite lookup_insert_ne by done. by apply Hgb.
  - rewrite lookup_insert_eq. by intros l [= <-].
  - destruct Hu as (_ & Hfu & _). unfold is_u64 in Hfu. lia.
Qed.
(** *** The runtime's calls *)
Lemma quiet_observe ev w : view (observe ev w) = view w.
Proof using Hsw. symmetry. apply (sw_observe view eq _). Qed.

Lemma quiet_cause sc w c w' :
  w_cause sc w = (c, w') → view w' = view w ∧ (alive sc → c = None).
Proof using Hsw.
  intros Hc. pose proof (sw_cause view eq alive sc w) as [Hv Ha]. rewrite Hc in Hv, Ha. auto.
Qed.

Lemma quiet_release sc cur w :
  alive sc → holds (view w) cur → given_back (view (release r sc cur w)).
Proof using Hsw Howner.
  intros Hal Hh. unfold release. destruct (sw_Release view eq alive sc (lease_request r cur 0) w)
    as (ctx & now & st & <- & Hctx & _ & ->). rewrite Hctx by done. by apply holds_release.
Qed.

Lemma quiet_heartbeat sc ticks ended cur w a w' :
  holds (view w) cur → heartbeat r sc ticks ended cur w = (a, w') → holds (view w') cur.
Proof using Hsw.
  revert w. induction ticks as [|ticks IH]; intros w Hh; cbn [heartbeat].
  - destruct ended; [|by intros [= <- <-]]. intros [-> _]%quiet_cause. done.
  - destruct (ls_Renew sc _ w) as [b w1] eqn:Hb.
    destruct (sw_Renew view eq alive sc (lease_request r cur (rt_leaseDuration r)) w)
      as (ctx & now & st & <- & _ & _ & Hv). rewrite Hb in Hv. cbn in Hv.
    assert (H1 : holds (view w1) cur) by (rewrite Hv; by apply holds_renew).
    destruct b; [apply IH; by rewrite quiet_observe|]. intros [= <- <-]. by rewrite quiet_observe.
Qed.

Lemma quiet_advance sc m cur w a w' :
  machine_ok view eq m → holds (view w) cur → advance r sc m cur w = (a, w') →
  holds (view w') cur ∧ ∀ t, a = Ok t → is_u64 (t_fence t).
Proof using Hsw.
  intros Hm Hh. unfold advance. destruct (m cur w) as [o w1] eqn:Ho.
  destruct (Hm cur w) as [Hi Ht]. rewrite Ho in Hi, Ht. cbn in Hi, Ht.
  destruct (w_beats w1) as [[n e] w2] eqn:Hb. pose proof (sw_beats view eq _ w1) as Hi2.
  rewrite Hb in Hi2. cbn in Hi2. destruct (heartbeat r sc n e cur w2) as [h w3] eqn:Hhb.
  rewrite Hi, Hi2 in Hh. apply (quiet_heartbeat _ _ _ _ _ _ _ Hh) in Hhb.
  intros Hr. assert (w' = w3) as -> by (by destruct h; injection Hr). split; [done|].
  intros t ->. destruct h as [err|]; [|injection Hr as ->; auto].
  destruct (error_is err ErrCanceled); injection Hr as ?; [auto|done].
Qed.

(** After a commit attempt: still holding on failure, one step further on success. *)
Definition committed_as (cur : Snapshot) (a : result rerror Snapshot) (st : Store) : Prop :=
  match a with
  | Err _ => holds st cur
  | Ok n => if s_status n == StatusRunning then holds st n else given_back st
  end.

Lemma quiet_transition sc cur t next w q w1 a w' :
  holds (view w) cur → is_u64 (t_fence t) → Apply cur t = Ok next →
  commitRequest r cur next w = (q, w1) → ls_Transition sc q w1 = (a, w') →
  committed_as cur a (view w') ∧ ∀ n, a = Ok n → n = next.
Proof using Hsw Howner.
  intros Hh Ht HA Hq Ha.
  assert (Hv1 : view w1 = view w).
  { revert Hq. unfold commitRequest. case_match; [|by intros [= <- <-]].
    pose proof (sw_now view eq _ w) as Hn. destruct (w_now w). by intros [= <- <-]. }
  assert (Hqs : cm_Snapshot q = next ∧ cm_ExpectedRevision q = s_revision cur ∧
    cm_LeaseOwner q = rt_executorID r).
  { revert Hq. unfold commitRequest. case_match; [destruct (w_now w)|]; by intros [= <- <-]. }
  destruct Hqs as (H1 & H2 & H3).
  destruct (sw_Transition view eq alive sc q w1) as (ctx & now & st & <- & _ & Hans & Hv).
  rewrite Ha in Hans, Hv. cbn [fst snd] in Hans, Hv. rewrite Hv1 in *.
  pose proof (holds_transition ctx now _ cur t next q Hh Ht HA H1 H2 H3) as Hpost.
  unfold committed_as. subst a. destruct (fst (ContStore.Transition ctx now (view w) q)) as [n|]; cbn.
  - destruct Hpost as [-> Hpost]. rewrite Hv. split; [done|]. by intros n [= ->].
  - by rewrite Hv, Hpost.
Qed.

Lemma quiet_commit sc cur t w a w' :
  holds (view w) cur → is_u64 (t_fence t) → commit r sc cur t w = (a, w') →
  committed_as cur a (view w') ∧ ∀ n, a = Ok n → Apply cur t = Ok n.
Proof using Hsw Howner.
  intros Hh Ht. unfold commit. destruct (Apply cur t) as [next|] eqn:HA; [|by intros [= <- <-]].
  destruct (commitRequest r cur next w) as [q w1] eqn:Hq.
  destruct (ls_Transition sc q w1) as [b w2] eqn:Hb.
  destruct (quiet_transition _ _ _ _ _ _ _ _ _ Hh Ht HA Hq Hb) as [Hpost Hn].
  destruct b as [n|]; intros [= <- <-]; cbn; [|done]. rewrite quiet_observe. split; [done|].
  intros x [= <-]. f_equal. symmetry. by apply Hn.
Qed.

Lemma Apply_move_status c status fence frames n :
  snapshot_u64 c → Apply c (Move status fence frames) = Ok n → s_status n = status.
Proof. intros Hu HA. apply Apply_none_fresh in HA as [_ _ _ _ _ _ _ ->]; done. Qed.

Lemma quiet_machine_error sc cur err w a w' :
  holds (view w) cur → commitMachineError r sc cur err w = (a, w') →
  match a with
  | Some (Ok n) => s_status n ≠ StatusRunning ∧ given_back (view w')
  | _ => holds (view w') cur
  end.
Proof using Hsw Howner.
  intros Hh. unfold commitMachineError. destruct (machineErrorClass err) as [class b].
  assert (Hh1 : ∀ ev, holds (view (observe ev w)) cur) by (intros; by rewrite quiet_observe).
  destruct b; cbn [negb]; [|intros [= <- <-]; done].
  destruct (error_transition cur class) as [t|] eqn:Ht; [|intros [= <- <-]; apply Hh1].
  destruct (commit r sc cur t _) as [c w2] eqn:Hc. intros [= <- <-].
  destruct (so_records _ (ho_ok _ _ Hh) _ _ (ho_record _ _ Hh)) as (_ & Hu & _).
  pose proof Hu as (_ & Hf & _).
  apply quiet_commit in Hc as [Hpost Hn]; [|apply Hh1|].
  2:{ unfold error_transition in Ht. destruct class; cbn in Ht; by injection Ht as <-. }
  destruct c as [n|]; [|done]. cbn in Hpost.
  assert (Hst : s_status n ≠ StatusRunning).
  { specialize (Hn n eq_refl). unfold error_transition in Ht.
    destruct class; cbn in Ht; injection Ht as <-; (apply Apply_move_status in Hn as ->; [|done]);
      try done; by destruct (s_status cur == StatusCancelRequested). }
  by rewrite bool_decide_false in Hpost by done.
Qed.

Definition nobody_here (st : Store) : Prop :=
  ∀ k l, st_leases st !! k = Some l → lease_owner l ≠ rt_executorID r.

Lemma given_back_nobody st :
  (∀ k l, L0 !! k = Some l → lease_owner l ≠ rt_executorID r) → given_back st → nobody_here st.
Proof. intros HL0 [_ Hgb] k l Hk. by eapply HL0, Hgb. Qed.

Lemma quiet_drive n m cur w a w' :
  alive Caller → machine_ok view eq m → holds (view w) cur → (0 < n)%nat →
  drive r n m cur w = (a, w') → given_back (view w').
Proof using Hsw Howner.
  intros Hal Hm. revert cur w. induction n as [|n IH]; intros cur w Hh Hn; [lia|]. cbn [drive].
  destruct (advance r Caller m cur w) as [o w1] eqn:Hadv.
  destruct (quiet_advance _ _ _ _ _ _ Hm Hh Hadv) as [Hh1 Ht]. destruct o as [t|err].
  - destruct (commit r Caller cur t w1) as [b w2] eqn:Hb.
    destruct (quiet_commit _ _ _ _ _ _ Hh1 (Ht t eq_refl) Hb) as [Hc _].
    destruct b as [next|e]; cbn in Hc; [|intros [= <- <-]; by apply quiet_release].
    destruct (s_status next == StatusRunning); cbn [negb]; [|by intros [= <- <-]].
    destruct n as [|n]; [intros [= <- <-]; by apply quiet_release|]. apply IH; [done|lia].
  - destruct (w_cause Caller w1) as [c w2] eqn:Hc. destruct (quiet_cause _ _ _ _ Hc) as [Hv Hn2].
    rewrite (Hn2 Hal). rewrite <- Hv in Hh1.
    destruct (commitMachineError r Caller cur err w2) as [h w3] eqn:Hme.
    pose proof (quiet_machine_error _ _ _ _ _ _ Hh1 Hme) as Hpost.
    destruct h as [[x|x]|]; intros [= <- <-]; [|by apply quiet_release..]. by destruct Hpost.
Qed.

Lemma quiet_claim sc c w a w' :
  given_back (view w) → nobody_here (view w) → ls_Claim sc (claim_request r c) w = (a, w') →
  match a with
  | Ok l => holds (view w') (l_Snapshot l) ∧ Status_Terminal (s_status (l_Snapshot l)) = false
  | Err _ => view w' = view w
  end.
Proof using Hsw.
  intros Hgb Hnb Ha. destruct (sw_Claim view eq alive sc (claim_request r c) w)
    as (ctx & now & st & <- & _ & Hans & Hv). rewrite Ha in Hans, Hv. cbn [fst snd] in Hans, Hv.
  pose proof (claim_holds ctx now (view w) (claim_request r c) Hgb Hnb eq_refl) as Hpost.
  rewrite <- Hv in Hpost. subst a. by destruct (fst (Claim ctx now (view w) (claim_request r c))).
Qed.

Lemma quiet_batch ready n w a w' :
  alive Caller → 0 < rt_maxTransitions r →
  (∀ k l, L0 !! k = Some l → lease_owner l ≠ rt_executorID r) →
  given_back (view w) → run_batch r ready n w = (a, w') → given_back (view w').
Proof using Hsw Hms Howner.
  intros Hal Hmax HL0. revert n w. induction ready as [|c ready IH]; intros n w Hgb; cbn [run_batch].
  { by intros [= <- <-]. }
  destruct (s_workflow c); [by apply IH|].
  destruct (w_cause Caller w) as [cause w1] eqn:Hc. destruct (quiet_cause _ _ _ _ Hc) as [Hv Hn].
  rewrite (Hn Hal). rewrite <- Hv in Hgb.
  destruct (ls_Claim Caller (claim_request r c) w1) as [b w2] eqn:Hb.
  pose proof (quiet_claim _ _ _ _ _ Hgb (given_back_nobody _ HL0 Hgb) Hb) as Hpost.
  destruct b as [claim|err].
  2:{ rewrite <- Hpost in Hgb. case_match; [by apply IH|by intros [= <- <-]]. }
  destruct Hpost as [Hh _]. set (cur := l_Snapshot claim) in *. set (w3 := observe _ _).
  assert (Hh3 : holds (view w3) cur) by (unfold w3; by rewrite quiet_observe).
  destruct (Resolve (s_operation cur) (rt_registry r)) as [m|] eqn:Hm;
    [|intros [= <- <-]; by apply quiet_release].
  destruct (drive r _ m cur w3) as [d w4] eqn:Hd.
  apply (quiet_drive _ _ _ _ _ _ Hal (Hms _ _ Hm) Hh3) in Hd; [|lia].
  destruct d as [err|]; [by intros [= <- <-]|by apply IH].
Qed.
(** *** Inline execution: cleanup runs under a context of its own *)
Definition exits_with (e : inline_exit) (st : Store) : Prop :=
  if ie_leased e then holds st (ie_current e) else given_back st.

Lemma quiet_exhausted w b w' : inlineBudgetExhausted w = (b, w') → view w' = view w.
Proof using Hsw.
  unfold inlineBudgetExhausted. destruct (w_cause Inline w) as [c w1] eqn:Hc.
  apply quiet_cause in Hc as [Hv _]. destruct c; by intros [= <- <-].
Qed.

Lemma quiet_fallback cur w e w' :
  alive Cleanup → holds (view w) cur → inline_fallback cur w = (e, w') → exits_with e (view w').
Proof using Hsw.
  intros Hal Hh. unfold inline_fallback, loadInlineSnapshot.
  destruct (ls_Load Cleanup (s_callID cur) w) as [b w1] eqn:Hb.
  destruct (sw_Load view eq alive Cleanup (s_callID cur) w) as (ctx & now & st & <- & Hctx & Hans & Hv).
  rewrite Hb in Hans, Hv. cbn [fst snd] in Hans, Hv. rewrite (Hctx Hal) in Hans, Hv.
  destruct (so_records _ (ho_ok _ _ Hh) _ _ (ho_record _ _ Hh)) as (_ & _ & Hs).
  cbn [exec] in Hv. unfold Load in Hans, Hv.
  rewrite bool_decide_false, entry_open, (ho_record _ _ Hh) in Hans, Hv
    by (eapply valid_text_nonempty, (ok_callID _ Hs)).
  subst b. cbn. intros [= <- <-]. unfold exits_with. cbn. by rewrite Hv.
Qed.

Lemma quiet_inline_machine_error cur err w e w' :
  alive Cleanup → holds (view w) cur → inline_machine_error r cur err w = (e, w') →
  exits_with e (view w').
Proof using Hsw Howner.
  intros Hal Hh. unfold inline_machine_error.
  destruct (inlineBudgetExhausted w) as [b w1] eqn:Hb. apply quiet_exhausted in Hb.
  rewrite <- Hb in Hh. destruct b; [by apply quiet_fallback|].
  destruct (w_cause Inline w1) as [c w2] eqn:Hc. apply quiet_cause in Hc as [Hv _].
  rewrite <- Hv in Hh. destruct c; [by intros [= <- <-]|].
  destruct (commitMachineError r Inline cur err w2) as [h w3] eqn:Hme.
  pose proof (quiet_machine_error _ _ _ _ _ _ Hh Hme) as Hpost.
  destruct h as [[x|x]|]; intros [= <- <-]; try done. destruct Hpost as [Hx Hpost].
  unfold exits_with. cbn. by rewrite bool_decide_false.
Qed.

Lemma quiet_drive_inline n m cur w e w' :
  alive Cleanup → machine_ok view eq m → holds (view w) cur →
  drive_inline r n m cur w = (e, w') → exits_with e (view w').
Proof using Hsw Howner.
  intros Hal Hm. revert cur w. induction n as [|n IH]; intros cur w Hh; cbn [drive_inline].
  { by intros [= <- <-]. }
  destruct (inlineBudgetExhausted w) as [b w1] eqn:Hb. apply quiet_exhausted in Hb.
  rewrite <- Hb in Hh. destruct b; [by apply quiet_fallback|].
  destruct (advance r Inline m cur w1) as [o w2] eqn:Hadv.
  destruct (quiet_advance _ _ _ _ _ _ Hm Hh Hadv) as [Hh2 Ht].
  destruct o as [t|err]; [|by apply quiet_inline_machine_error].
  destruct (Apply cur t) as [next|] eqn:HA; [|by intros [= <- <-]].
  destruct (commitRequest r cur next w2) as [q w3] eqn:Hq.
  destruct (ls_Transition Inline q w3) as [c w4] eqn:Hc.
  destruct (quiet_transition _ _ _ _ _ _ _ _ _ Hh2 (Ht t eq_refl) HA Hq Hc) as [Hpost _].
  destruct c as [n1|err]; cbn in Hpost.
  - set (w5 := observe _ w4). assert (Hv5 : view w5 = view w4) by apply quiet_observe.
    rewrite <- Hv5 in Hpost. destruct (s_status n1 == StatusRunning); cbn [negb]; [by apply IH|].
    by intros [= <- <-].
  - unfold inline_failed. destruct (inlineBudgetExhausted w4) as [x w5] eqn:Hx.
    apply quiet_exhausted in Hx. rewrite <- Hx in Hpost.
    destruct x; [by apply quiet_fallback|by intros [= <- <-]].
Qed.
End quiet.

(** the executor gives its leases back.  When nobody else uses the store and the caller's
    context does not end, a batch leaves no lease of the executor behind, whatever the Machines
    return: completed, suspended and failed calls, unclassified errors, rejected transitions,
    exhausted budgets and missing Machines alike.  Every lease in the store at the end was
    there before. *)
Theorem leases_given_back (W : Type) `{Environment W, LeaseStore W} (view : W → Store)
    (alive : scope → Prop) (r : Runtime W) w :
  StoreWorld view eq alive → alive Caller → machines_ok view eq (rt_registry r) →
  validLeaseOwner (rt_executorID r) = true → 0 < rt_maxTransitions r → store_ok (view w) →
  (∀ k l, st_leases (view w) !! k = Some l → lease_owner l ≠ rt_executorID r) →
  ∀ k l, st_leases (view (snd (RunOnce r w))) !! k = Some l → st_leases (view w) !! k = Some l.
Proof.
  intros Hsw Hal Hms Howner Hmax Hok HL0. unfold RunOnce.
  assert (Hgb : given_back (st_leases (view w)) (view w)) by (by split).
  destruct (w_cause Caller w) as [c w1] eqn:Hc.
  destruct (quiet_cause view alive _ _ _ _ Hc) as [Hv1 Hn]. rewrite (Hn Hal).
  destruct (ls_ListReady Caller (rt_batchSize r) w1) as [b w2] eqn:Hb.
  assert (Hv2 : view w2 = view w).
  { destruct (sw_ListReady view eq alive Caller (rt_batchSize r) w1) as (ctx & now & st & <- & _ & _ & Hv).
    rewrite Hb in Hv. cbn [snd exec] in Hv. rewrite Hv, Hv1. unfold ListReady. by enter. }
  destruct b as [ready|]; [|cbn; by rewrite Hv2].
  destruct (run_batch r ready 0 w2) as [a w3] eqn:Ha. cbn [snd].
  eapply (quiet_batch view alive r Hms Howner) in Ha; [by apply Ha|done..|by rewrite Hv2].
Qed.

(** an inline execution never leaves its lease behind, even when the inline budget or the
    caller's context ends in the middle: only the cleanup context has to live.  When nobody
    else uses the store, every lease in it after StartCallInline was there before. *)
Theorem inline_lease_given_back (W : Type) `{Environment W, LeaseStore W} (view : W → Store)
    (alive : scope → Prop) (r : Runtime W) callID operation input budget w :
  StoreWorld view eq alive → alive Cleanup → machines_ok view eq (rt_registry r) →
  validLeaseOwner (rt_executorID r) = true → store_ok (view w) →
  (∀ k l, st_leases (view w) !! k = Some l → lease_owner l ≠ rt_executorID r) →
  ∀ k l, st_leases (view (snd (StartCallInline r callID operation input budget w))) !! k = Some l →
    st_leases (view w) !! k = Some l.
Proof.
  intros Hsw Hal Hms Howner Hok HL0. unfold StartCallInline, StartCall. case_match; [done|].
  destruct (Resolve operation _) as [m0|]; [|done].
  destruct (NewSnapshotWithInput callID operation input) as [s|] eqn:Hs; [|done].
  destruct (ls_Create Caller s w) as [b w1] eqn:Hb.
  assert (Hgb : given_back (st_leases (view w)) (view w1)).
  { destruct (sw_Create view eq alive Caller s w) as (ctx & now & st & <- & _ & _ & Hv).
    rewrite Hb in Hv. cbn [snd] in Hv. rewrite Hv. split.
    - apply exec_ok; [done|]. by eapply NewSnapshotWithInput_ok.
    - cbn [exec]. unfold ContStore.Create. enter; [done|]. by case_match. }
  pose proof (given_back_nobody r _ _ HL0 Hgb) as Hnb.
  destruct b as [created|]; [|by apply Hgb].
  destruct (ls_Claim Inline (claim_request r created) w1) as [c w2] eqn:Hc.
  pose proof (quiet_claim view alive r _ _ _ _ _ _ Hgb Hnb Hc) as Hpost.
  destruct c as [claim|err].
  2:{ rewrite <- Hpost in Hgb. destruct (inlineBudgetExhausted w2) as [x w3] eqn:Hx.
      apply (quiet_exhausted view alive) in Hx. rewrite <- Hx in Hgb. destruct x; by apply Hgb. }
  destruct Hpost as [Hh _]. set (cur := l_Snapshot claim) in *. set (w3 := observe _ w2).
  assert (Hv3 : view w3 = view w2) by apply (quiet_observe view alive). rewrite <- Hv3 in Hh.
  destruct (Resolve (s_operation cur) (rt_registry r)) as [m|] eqn:Hm.
  2:{ cbn [snd]. unfold releaseInline. by eapply (quiet_release view alive r Howner). }
  destruct (drive_inline r _ m cur w3) as [e w4] eqn:Hd.
  eapply (quiet_drive_inline view alive r Howner) in Hd; [|done|by eapply Hms|done].
  unfold exits_with in Hd. cbn [snd]. destruct (ie_leased e); [|by apply Hd].
  unfold releaseInline. by eapply (quiet_release view alive r Howner).
Qed.

(** ** Machine errors are recorded *)





(** ** Reading frames *)
Definition newer (after : Z) (frames : list Frame) : list Frame :=
  filter (λ f, after < f_sequence f) frames.

Lemma newer_drop cur after :
  snapshot_ok cur → s_frameFloor cur - 1 ≤ after →
  newer after (s_frames cur) = drop (Z.to_nat (after - (s_frameFloor cur - 1))) (s_frames cur).
Proof.
  intros Hok Ha. rewrite (drop_window _ (s_frameFloor cur)) by (by apply snapshot_window).
  unfold newer. apply list_filter_ext. intros f _. lia.
Qed.

(** A page is the first [limit] frames after the cursor. *)
Lemma attach_page_spec cur after limit :
  snapshot_u64 cur → snapshot_ok cur → 1 ≤ limit → is_u64 after →
  s_frameFloor cur - 1 ≤ after ≤ s_sequence cur →
  at_Frames (attach_page cur after limit) = take (Z.to_nat limit) (newer after (s_frames cur)) ∧
  at_NextSequence (attach_page cur after limit) =
    u64_add after (1 + zlen (at_Frames (attach_page cur after limit))).
Proof.
  intros Hu Hok Hlim Ha Hrange. pose proof Hu as (_ & _ & Hs & Hfl). unfold is_u64 in *.
  pose proof (ok_floor _ Hok) as Hfloor. pose proof (ok_count _ Hok) as Hcnt.
  set (k := Z.to_nat (after - (s_frameFloor cur - 1))).
  assert (Hnew : newer after (s_frames cur) = drop k (s_frames cur)) by (apply newer_drop; [done|lia]).
  assert (Hpage : at_Frames (attach_page cur after limit) = take (Z.to_nat limit) (drop k (s_frames cur))).
  { unfold attach_page. cbn [at_Frames]. rewrite !u64_sub_small by (rewrite ?u64_sub_small; lia).
    unfold slice. fold k. destruct (Z.ltb_spec limit (zlen (s_frames cur) - (after - (s_frameFloor cur - 1)))).
    - f_equal. lia.
    - unfold zlen in *. rewrite !take_ge; [done|rewrite length_drop; lia..]. }
  split; [by rewrite Hpage, Hnew|]. rewrite Hpage.
  unfold attach_page in Hpage |- *. cbn [at_Frames at_NextSequence] in *. rewrite Hpage.
  set (page := take (Z.to_nat limit) (drop k (s_frames cur))).
  destruct (last page) as [f|] eqn:Hlast.
  - rewrite last_lookup in Hlast. pose proof (lookup_lt_Some _ _ _ Hlast).
    unfold page in Hlast. apply lookup_take_Some in Hlast as [Hlast _].
    rewrite lookup_drop in Hlast. apply (snapshot_window _ Hok) in Hlast. fold page in Hlast.
    unfold u64_add. f_equal. rewrite Hlast. unfold zlen. lia.
  - apply last_None in Hlast. rewrite Hlast. done.
Qed.

(** Attach answers exactly.  For a stored call and a legal limit, a cursor beyond the durable
    sequence is reported as ahead and a cursor below the retained floor as a gap; otherwise the
    answer has the first [limit] frames after the cursor, none missing and none repeated, and the
    next cursor follows the last of them.  The store is not changed. *)
Theorem attach_exact (W : Type) `{Environment W, LeaseStore W} (view : W → Store)
    (alive : scope → Prop) callID after limit w cur :
  StoreWorld view eq alive → alive Caller → store_ok (view w) →
  st_records (view w) !! callID = Some cur → 1 ≤ limit ≤ maxAttachFrames → is_u64 after →
  view (snd (Attach callID after limit w)) = view w ∧
  fst (Attach callID after limit w) =
  if s_sequence cur <? after then Err (Plain (CursorError after (s_sequence cur)))
  else if after <? s_frameFloor cur - 1 then Err (Plain (GapError after (s_frameFloor cur)))
  else
    let page := take (Z.to_nat limit) (newer after (s_frames cur)) in
    Ok (mkAttachment cur page (Status_Terminal (s_status cur)) (u64_add after (1 + zlen page))
          (s_frameFloor cur)).
Proof.
  intros Hsw Hal Hok Hrec Hlim Ha. destruct (so_records _ Hok _ _ Hrec) as (Hid & Hu & Hcok).
  pose proof (ok_callID _ Hcok) as Hvid. rewrite Hid in Hvid. pose proof (ok_floor _ Hcok) as Hfl.
  pose proof Hu as (_ & _ & Hs & Hfu). unfold is_u64 in *.
  unfold Attach. rewrite Hvid, (proj2 (Z.ltb_ge limit 1)), (proj2 (Z.ltb_ge maxAttachFrames limit)) by lia.
  cbn [negb orb]. destruct (sw_Load view eq alive Caller callID w) as (ctx & now & st & <- & Hctx & Hans & Hv).
  destruct (ls_Load Caller callID w) as [a w1]. cbn [fst snd exec] in Hans, Hv.
  rewrite (Hctx Hal) in Hans, Hv. unfold Load in Hans, Hv.
  rewrite bool_decide_false, entry_open, Hrec in Hans, Hv by (by eapply valid_text_nonempty).
  subst a. cbn [lift fst snd] in *. rewrite (proj2 (validateSnapshot_spec cur Hu) Hcok), bool_decide_true by done.
  cbn [negb]. rewrite (u64_sub_small (s_frameFloor cur) 1) by lia.
  set (w2 := if after <? s_sequence cur then _ else _).
  assert (Hv2 : view w2 = view w).
  { unfold w2. case_match; [by rewrite (quiet_observe view alive)|done]. }
  destruct (Z.ltb_spec (s_sequence cur) after) as [|Hle]; [done|].
  destruct (Z.ltb_spec after (s_frameFloor cur - 1)) as [|Hge]; cbn [fst snd].
  { by rewrite (quiet_observe view alive). }
  split; [done|]. f_equal.
  destruct (attach_page_spec cur after limit) as [Hp Hn]; [done|done|lia|done|lia|].
  rewrite <- Hp, <- Hn. done.
Qed.

(** A reader that follows the pages of a call that does not change. *)
Fixpoint follow (fuel : nat) (cur : Snapshot) (after limit : Z) : option (list Frame) :=
  match fuel with
  | O => None
  | S fuel =>
      let page := attach_page cur after limit in
      match at_Frames page with
      | [] => Some []
      | frames => rest ← follow fuel cur (u64_sub (at_NextSequence page) 1) limit; Some (frames ++ rest)
      end
  end.

(** following the pages reads every frame once.  A reader that starts at any readable cursor
    and asks for the next page after NextSequence-1 gets, after at most one page per frame and a
    last empty one, exactly the frames after its cursor, in order. *)
Theorem attach_pages_complete cur after limit :
  snapshot_u64 cur → snapshot_ok cur → 1 ≤ limit → is_u64 after →
  s_frameFloor cur - 1 ≤ after ≤ s_sequence cur → s_sequence cur < max_u64 →
  follow (S (length (newer after (s_frames cur)))) cur after limit = Some (newer after (s_frames cur)).
Proof.
  intros Hu Hok Hlim Ha Hr Hmax.
  assert (Hstep : ∀ n after, is_u64 after → s_frameFloor cur - 1 ≤ after ≤ s_sequence cur →
    (length (newer after (s_frames cur)) ≤ n)%nat →
    follow (S n) cur after limit = Some (newer after (s_frames cur))); [|by apply Hstep].
  clear after Ha Hr. intros n. induction n as [|n IH]; intros after Ha Hr Hn; cbn [follow];
    destruct (attach_page_spec cur after limit Hu Hok Hlim Ha Hr) as [Hp Hq]; rewrite ?Hq, Hp; clear Hp Hq.
  { apply Nat.le_0_r, length_zero_iff_nil in Hn. by rewrite Hn, take_nil. }
  unfold is_u64 in *. pose proof (ok_floor _ Hok). pose proof (ok_count _ Hok) as Hcnt.
  assert (Hlen : length (newer after (s_frames cur)) = Z.to_nat (s_sequence cur - after)).
  { rewrite newer_drop, length_drop by (done || lia). unfold zlen in Hcnt. lia. }
  destruct (newer after (s_frames cur)) as [|f rest] eqn:Hnew; [by rewrite take_nil|].
  set (page := take (Z.to_nat limit) (f :: rest)).
  assert (Hpl : (length page = Z.to_nat limit `min` length (f :: rest))%nat) by (by apply length_take).
  assert (Hpos : 0 < zlen page ≤ s_sequence cur - after) by (unfold zlen; cbn [length] in *; lia).
  assert (Hnext : newer (after + zlen page) (s_frames cur) = drop (Z.to_nat limit) (f :: rest)).
  { rewrite <- Hnew, !newer_drop, drop_drop by (done || lia).
    destruct (decide (Z.to_nat limit ≤ length (f :: rest))%nat).
    - f_equal. unfold zlen. lia.
    - rewrite !drop_ge; [done|unfold zlen in *; lia..]. }
  destruct page as [|g page'] eqn:Hpage; [unfold zlen in Hpos; cbn in Hpos; lia|].
  rewrite <- Hpage in *. clear Hpage g page'.
  rewrite u64_add_small, u64_sub_small by lia.
  replace (after + (1 + zlen page) - 1) with (after + zlen page) by lia.
  assert (Hn' : (length (newer (after + zlen page) (s_frames cur)) ≤ n)%nat).
  { rewrite Hnext, length_drop. unfold zlen in *. cbn [length] in *. lia. }
  specialize (IH (after + zlen page) ltac:(lia) ltac:(lia) Hn'). cbn [follow] in IH.
  rewrite IH, Hnext. cbn. f_equal. apply take_drop.
Qed.

(** ** The executor over the memory store

    A world of its own for the memory store: the store, the clock, and the cause with which the
    caller's context ended, if it did.  With [steady] the caller's context never ends. *)
Record sim := mkSim { sm_store : Store; sm_clock : time; sm_ended : option cerror }.

Definition sim_cause (steady : bool) (sc : scope) (w : sim) : option cerror :=
  match sc with Cleanup => None | _ => if steady then None else sm_ended w end.

(** Run one store operation at the current time. *)
Definition sim_op {A B} (steady : bool) (sc : scope) (f : context cerror → time → Store → A * Store)
    (g : A → B) (w : sim) : B * sim :=
  let '(a, st) := f (Context (sim_cause steady sc w)) (sm_clock w) (sm_store w) in
  (g a, mkSim st (sm_clock w) (sm_ended w)).

Definition sim_env (steady : bool) : Environment sim := {|
  w_cause sc w := (Plain <$> sim_cause steady sc w, w);
  w_now w := (sm_clock w, w);
  w_observe _ w := w;
  w_beats w := ((0%nat, false), w);
  w_wait w := (true, w) |}.

Definition sim_leases (steady : bool) : LeaseStore sim := {|
  ls_Create sc s := sim_op steady sc (λ ctx now st, ContStore.Create ctx st s) lift;
  ls_Load sc id := sim_op steady sc (λ ctx now st, ContStore.Load ctx st id) lift;
  ls_Transition sc q := sim_op steady sc (λ ctx now st, ContStore.Transition ctx now st q) lift;
  ls_ListReady sc n := sim_op steady sc (λ ctx now st, ContStore.ListReady ctx now st n) lift;
  ls_SubmitSignal sc q := sim_op steady sc (λ ctx now st, ContStore.SubmitSignal ctx st q) lift;
  ls_RequestCancel sc q := sim_op steady sc (λ ctx now st, ContStore.RequestCancel ctx st q) lift;
  ls_Claim sc q := sim_op steady sc (λ ctx now st, ContStore.Claim ctx now st q) lift;
  ls_Renew sc q := sim_op steady sc (λ ctx now st, ContStore.Renew ctx now st q) lift;
  ls_Release sc q := sim_op steady sc (λ ctx now st, ContStore.Release ctx st q) lift_nil |}.

(** The contexts that cannot end. *)
Definition sim_alive (steady : bool) (sc : scope) : Prop := sc = Cleanup ∨ steady = true.

Lemma sim_served {A B} steady sc f (g : A → B) o w :
  (∀ ctx now st, exec ctx now st o = snd (f ctx now st)) →
  served sm_store eq (sim_alive steady) sc w o (λ ctx now st, g (fst (f ctx now st)))
    (sim_op steady sc f g w).
Proof.
  intros Hf. exists (Context (sim_cause steady sc w)), (sm_clock w), (sm_store w).
  unfold sim_op. rewrite Hf. split_and!; [done| |by destruct (f _ _ _)..].
  intros [->| ->]; [done|]. by destruct sc.
Qed.

Lemma sim_world steady :
  @StoreWorld sim (sim_env steady) (sim_leases steady) sm_store eq (sim_alive steady).
Proof.
  constructor; intros; try (by apply (sim_served steady)); try done.
  split; [done|]. intros [->| ->]; [done|]. by destruct sc.
Qed.


(** Less interference and fewer dying contexts satisfy weaker laws. *)
Lemma StoreWorld_weaken {W} `{Environment W, LeaseStore W} (view : W → Store) i j (al al' : scope → Prop) :
  (∀ a b, i a b → j a b) → (∀ sc, al' sc → al sc) → StoreWorld view i al → StoreWorld view j al'.
Proof.
  intros Hij Hal [].
  assert (Hs : ∀ A sc w o (f : context cerror → time → Store → A) x,
    served view i al sc w o f x → served view j al' sc w o f x).
  { intros A sc w o f x (ctx & now & st & ? & ? & ? & ?). exists ctx, now, st. auto. }
  constructor; auto. intros sc w. destruct (sw_cause0 sc w). auto.
Qed.

Lemma others_refl st : others st st.
Proof. intros seen _ _. exists seen. split; [done|apply rtc_refl]. Qed.

(** A concrete executor: one Machine that completes, one whose context ends under it. *)
Definition ex_machine : Machine sim := λ s w, (Ok (Move StatusCompleted 0 [mkFrame 0 FrameCompleted "done"]), w).
Definition ex_interrupted : Machine sim := λ s w,
  (Err (Plain ErrCanceled), mkSim (sm_store w) (sm_clock w) (Some ErrCanceled)).
Definition ex_runtime (m : Machine sim) : Runtime sim :=
  mkRuntime (mkRegistry {[ s_operation ex_new := m ]} ∅ true) 1 10 4 "node-a" second (second ÷ 3) hour.
Definition ex_world : sim := mkSim ex_store0 10 None.

Lemma ex_machines_ok (m : Machine sim) (i : Store → Store → Prop) :
  (∀ a, i a a) → m = ex_machine ∨ m = ex_interrupted →
  machines_ok sm_store i (rt_registry (ex_runtime m)).
Proof.
  intros Hi Hm o m' Hr. unfold Resolve in Hr. case_match; [discriminate|]. cbn in Hr.
  apply lookup_singleton_Some in Hr as [_ <-]. intros s w. destruct Hm as [-> | ->]; cbn.
  - split; [done|]. by intros t [= <-].
  - split; [done|]. intros t Ht. discriminate.
Qed.

(** an interrupted batch keeps its lease.  When the caller's context ends while a Machine
    runs, the batch asks the store to release the call under that same ended context; the memory
    store refuses every call on an ended context, so the lease stays and another executor is
    turned away although the first one has stopped. *)
Theorem interrupted_batch_keeps_lease :
  let run := @RunOnce sim (sim_env false) (sim_leases false) (ex_runtime ex_interrupted) ex_world in
  fst run = (1, Some (Plain ErrCanceled)) ∧
  leaseActive (sm_store (snd run)) "call-1" 20 = true ∧
  fst (Claim (Context None) 20 (sm_store (snd run)) (mkClaimRequest "call-1" 2 "node-b" second)) =
    Err ErrLeaseHeld.
Proof. vm_compute. done. Qed.

(** ** Witnesses *)
Lemma ex_machines_others : machines_ok sm_store others (rt_registry (ex_runtime ex_machine)).
Proof. apply ex_machines_ok; [apply others_refl|by left]. Qed.

Lemma runtime_is_client_witness :
  store_ok (sm_store (snd (@RunOnce sim (sim_env true) (sim_leases true) (ex_runtime ex_machine)
    (mkSim NewStore 10 None)))) ∧
  ∃ seen', [] ⊆ seen' ∧ rtc client_step (NewStore, [])
    (sm_store (snd (@RunOnce sim (sim_env true) (sim_leases true) (ex_runtime ex_machine)
       (mkSim NewStore 10 None))), seen').
Proof.
  apply (@runtime_is_client sim (sim_env true) (sim_leases true) sm_store (ex_runtime ex_machine)
    (mkSim NewStore 10 None) [] "call-1" "/orders/Place" "in" (mkInlineBudget second 4)).
  - apply (StoreWorld_weaken sm_store eq others (sim_alive true) (λ _, False)); [|done|apply sim_world].
    intros a b ->. apply others_refl.
  - apply ex_machines_others.
  - apply rtc_refl.
  - set_solver.
Defined.

Lemma leases_given_back_witness : st_leases ex_store0 = ∅ ∧ ∀ k l,
  st_leases (sm_store (snd (@RunOnce sim (sim_env true) (sim_leases true) (ex_runtime ex_machine) ex_world)))
    !! k = Some l → st_leases ex_store0 !! k = Some l.
Proof.
  split; [reflexivity|].
  apply (@leases_given_back sim (sim_env true) (sim_leases true) sm_store (sim_alive true)
    (ex_runtime ex_machine) ex_world).
  - apply sim_world.
  - by right.
  - apply ex_machines_ok; [done|by left].
  - vm_compute. reflexivity.
  - done.
  - apply ex_store0_ok.
  - intros k l. change (st_leases (sm_store ex_world)) with (∅ : gmap string leaseRecord).
    by rewrite lookup_empty.
Defined.

Lemma inline_lease_given_back_witness : st_leases ex_store0 = ∅ ∧ ∀ k l,
  st_leases (sm_store (snd (@StartCallInline sim (sim_env false) (sim_leases false)
    (ex_runtime ex_interrupted) "call-2" (s_operation ex_new) "in" (mkInlineBudget second 4) ex_world)))
    !! k = Some l → st_leases ex_store0 !! k = Some l.
Proof.
  split; [reflexivity|].
  apply (@inline_lease_given_back sim (sim_env false) (sim_leases false) sm_store (sim_alive false)
    (ex_runtime ex_interrupted) "call-2" (s_operation ex_new) "in" (mkInlineBudget second 4) ex_world).
  - apply sim_world.
  - by left.
  - apply ex_machines_ok; [done|by right].
  - vm_compute. reflexivity.
  - apply ex_store0_ok.
  - intros k l. change (st_leases (sm_store ex_world)) with (∅ : gmap string leaseRecord).
    by rewrite lookup_empty.
Defined.

(** The interrupted inline call was created and claimed, so giving the lease back is not idle. *)
Lemma ex_inline_interrupted :
  let run := @StartCallInline sim (sim_env false) (sim_leases false) (ex_runtime ex_interrupted)
    "call-2" (s_operation ex_new) "in" (mkInlineBudget second 4) ex_world in
  fst run = Err (Plain ErrCanceled) ∧
  s_revision <$> st_records (sm_store (snd run)) !! "call-2" = Some 2 ∧
  st_leases (sm_store (snd run)) !! "call-2" = None.
Proof. vm_compute. done. Qed.


Lemma attach_exact_witness :
  sm_store (snd (@Attach sim (sim_env true) (sim_leases true) "call-1" 0 10 (mkSim ex_store2 20 None))) = ex_store2.
Proof.
  apply (@attach_exact sim (sim_env true) (sim_leases true) sm_store (sim_alive true) "call-1" 0 10
    (mkSim ex_store2 20 None) (default ex_new (st_records ex_store2 !! "call-1"))).
  - apply sim_world.
  - by right.
  - apply ex_store2_ok.
  - vm_compute. reflexivity.
  - vm_compute. split; discriminate.
  - vm_compute. split; discriminate.
Defined.

Definition ex_done : Snapshot := default ex_new (st_records ex_store2 !! "call-1").

Lemma attach_pages_complete_witness :
  zlen (newer 0 (s_frames ex_done)) = 1 ∧
  follow (S (length (newer 0 (s_frames ex_done)))) ex_done 0 1 = Some (newer 0 (s_frames ex_done)).
Proof.
  assert (Hrec : st_records ex_store2 !! "call-1" = Some ex_done) by (vm_compute; reflexivity).
  destruct (so_records _ ex_store2_ok _ _ Hrec) as (_ & Hu & Hok).
  split; [vm_compute; reflexivity|]. apply (attach_pages_complete ex_done 0 1 Hu Hok).
  - done.
  - vm_compute. split; discriminate.
  - vm_compute. split; discriminate.
  - vm_compute. reflexivity.
Defined.
