(* ===== verification/Admin.v ===== *)
(** * programmable/continuation: the administration facade

    Models the [Admin] of [admin.go]: its construction and its operations, each a sequence of
    calls of the [AdminStore] interface, here a type class.  The law class [AdminWorld] says that
    the interface is served by the memory store of file [ContStore]; against it the file shows
    what retention promises from the expiry of a call to its collection, and that a cancellation
    is recorded once however often it is asked for. *)
From S2P Require Import Prelude GoText ContModel ContState ContStore Runtime RuntimeSpec.
Open Scope Z_scope.

Definition defaultAdminPageSize : Z := 100.
Definition maxAdminPageSize : Z := 1000.

(** The interface, with the clock of the configuration. *)
Class AdminStore (W : Type) := {
  ad_now : W → time * W;
  ad_Load : string → W → result rerror Snapshot * W;
  ad_RequestCancel : CommandRequest → W → result rerror Snapshot * W;
  ad_ListCalls : ListRequest → W → result rerror (list CallSummary) * W;
  ad_GetCall : string → W → result rerror CallSummary * W;
  ad_PruneFrames : string → Z → W → result rerror Snapshot * W;
  ad_Expire : ExpireRequest → W → result rerror Snapshot * W;
  ad_DeleteExpired : time → Z → W → result rerror Z * W
}.

(** [ac_Store] says whether the store is non-nil. *)
Record AdminConfig := mkAdminConfig { ac_Store : bool; ac_TerminalRetention : duration; ac_MaxPageSize : Z }.
Record Admin := mkAdmin { ad_terminalRetention : duration; ad_maxPageSize : Z }.

Definition NewAdmin (config : AdminConfig) : result cerror Admin :=
  if negb (ac_Store config) then Err ErrInvalidRetention
  else
    let retention := or_default (ac_TerminalRetention config) defaultTerminalRetention in
    let page := or_default (ac_MaxPageSize config) defaultAdminPageSize in
    if (retention <=? 0) || (maxTerminalRetention <? retention) || (page <? 1) || (maxAdminPageSize <? page)
    then Err ErrInvalidRetention
    else Ok (mkAdmin retention page).

Section admin.
  Context {W : Type} `{AdminStore W}.
  Context (admin : Admin).

Definition List (request : ListRequest) (w : W) : result rerror (list CallSummary) * W :=
  if (lr_Limit request <? 1) || (ad_maxPageSize admin <? lr_Limit request) then (Err (Plain ErrInvalidRetention), w)
  else if (lr_After request != "") && negb (validIdentity (lr_After request)) then (Err (Plain ErrInvalidRetention), w)
  else ad_ListCalls request w.

Definition Get (callID : string) (w : W) : result rerror CallSummary * W := ad_GetCall callID w.

Definition Cancel (callID commandID : string) (w : W) : result rerror CallSummary * W :=
  match ad_Load callID w with
  | (Err err, w) => (Err err, w)
  | (Ok current, w) =>
      match ad_RequestCancel (mkCommandRequest callID (s_revision current) commandID "") w with
      | (Err err, w) => (Err err, w)
      | (Ok _, w) => ad_GetCall callID w
      end
  end.

Definition Expire (callID : string) (w : W) : result rerror CallSummary * W :=
  match ad_Load callID w with
  | (Err err, w) => (Err err, w)
  | (Ok current, w) =>
      let '(now, w) := ad_now w in
      let expiresAt := now + ad_terminalRetention admin in
      match ad_Expire (mkExpireRequest callID (s_revision current) expiresAt) w with
      | (Err err, w) => (Err err, w)
      | (Ok _, w) => ad_GetCall callID w
      end
  end.

Definition Prune (callID : string) (floor : Z) (w : W) : result rerror CallSummary * W :=
  match ad_PruneFrames callID floor w with
  | (Err err, w) => (Err err, w)
  | (Ok _, w) => ad_GetCall callID w
  end.

Definition Collect (limit : Z) (w : W) : result rerror Z * W :=
  if (limit <? 1) || (ad_maxPageSize admin <? limit) then (Err (Plain ErrInvalidRetention), w)
  else let '(now, w) := ad_now w in ad_DeleteExpired now limit w.
End admin.

(** ** The interface over the memory store *)
Section laws.
  Context {W : Type} `{AdminStore W} (view : W → Store) (clock : W → time).

(** The operation ran on the store as it was, under a context that had not ended. *)
Definition on_store {A} (w : W) (o : op) (f : Store → result cerror A) (ans : result rerror A * W) : Prop :=
  fst ans = lift (f (view w)) ∧ view (snd ans) = exec (Context None) (clock w) (view w) o ∧ clock (snd ans) = clock w.

Class AdminWorld : Prop := {
  aw_now w : ad_now w = (clock w, w);
  aw_Load id w : on_store w (OpLoad id) (λ st, fst (ContStore.Load (Context None) st id)) (ad_Load id w);
  aw_RequestCancel q w :
    on_store w (OpRequestCancel q) (λ st, fst (ContStore.RequestCancel (Context None) st q)) (ad_RequestCancel q w);
  aw_ListCalls q w : on_store w (OpListCalls q) (λ st, fst (ContStore.ListCalls (Context None) st q)) (ad_ListCalls q w);
  aw_GetCall id w : on_store w (OpGetCall id) (λ st, fst (ContStore.GetCall (Context None) st id)) (ad_GetCall id w);
  aw_PruneFrames id floor w :
    on_store w (OpPruneFrames id floor) (λ st, fst (ContStore.PruneFrames (Context None) st id floor))
      (ad_PruneFrames id floor w);
  aw_Expire q w : on_store w (OpExpire q) (λ st, fst (ContStore.Expire (Context None) st q)) (ad_Expire q w);
  aw_DeleteExpired before limit w :
    on_store w (OpDeleteExpired before limit) (λ st, fst (ContStore.DeleteExpired (Context None) st before limit))
      (ad_DeleteExpired before limit w)
}.
End laws.

(** ** Retention *)

(** A call that ended and is scheduled for deletion at [e]. *)
Definition retained (st : Store) (k : string) (e : time) : Prop :=
  ∃ s, st_records st !! k = Some s ∧ Status_Terminal (s_status s) = true ∧ st_expires st !! k = Some e.

(** A store operation that is not a collection at or after [e]. *)
Definition step_before (e : time) (st st' : Store) : Prop :=
  ∃ ctx now o, op_contract st o ∧ st' = exec ctx now st o ∧
    ∀ before limit, o = OpDeleteExpired before limit → before < e.

Lemma DeleteExpired_keeps ctx st before limit k e :
  retained st k e → before < e → retained (snd (DeleteExpired ctx st before limit)) k e.
Proof.
  intros (s & Hs & Ht & He) Hlt. unfold DeleteExpired. enter; [by exists s|]. rewrite truncate_take.
  destruct (fold_delete_lookup (take (Z.to_nat limit) (elapsed_keys st before)) st k) as (Hr & _ & Hx).
  destruct (decide (k ∈ take (Z.to_nat limit) (elapsed_keys st before))) as [Hin|]; [|exists s; by rewrite Hr, Hx].
  exfalso. eapply elem_of_take in Hin as (i & Hi & _). apply list_elem_of_lookup_2, elapsed_keys_spec in Hi.
  destruct Hi as (e' & _ & He' & _ & _ & Hle). pose proof (eq_trans (eq_sym He) He') as [= <-]. lia.
Qed.

(** A change that does not remove the record keeps the schedule. *)
Lemma change_retained st st' k e :
  store_ok st → change st st' → is_Some (st_records st' !! k) → retained st k e → retained st' k e.
Proof.
  intros Hok Hc [x Hx] (s & Hs & Ht & He). unfold retained.
  destruct Hc as [|key|key l d _|n Hn _ _ _|key c t n lease exp Hkc _ Hf _ _ _|key c fl p Hkc _ Hp|keys before _];
    cbn [set_leases set_records st_records st_expires] in *; try (by exists s).
  - exists s. rewrite lookup_insert_ne by congruence. done.
  - destruct (decide (key = k)) as [->|Hne].
    + simplify_eq. by rewrite (fs_live _ _ _ Hf) in Ht.
    + exists s. by rewrite lookup_insert_ne, lookup_partial_alter_ne.
  - destruct (decide (key = k)) as [->|Hne]; [|exists s; by rewrite lookup_insert_ne].
    assert (c = s) as -> by congruence. destruct (so_records _ Hok _ _ Hs) as (_ & Hu & _).
    destruct (PruneSnapshot_Ok _ _ _ Hu Hp) as (_ & _ & fl' & fs & -> & _).
    eexists. by rewrite lookup_insert_eq.
  - destruct (fold_delete_lookup keys st k) as (Hr & _ & Hxp). rewrite Hr in Hx. rewrite Hr, Hxp.
    destruct (decide (k ∈ keys)); [done|]. by exists s.
Qed.

Lemma step_retained e st st' k : store_ok st → step_before e st st' → retained st k e → store_ok st' ∧ retained st' k e.
Proof.
  intros Hok (ctx & now & o & Hc & -> & Hb) Hr. split; [by eapply change_ok, exec_change|].
  assert (Hk : (∃ before limit, o = OpDeleteExpired before limit) ∨ keeping o) by (destruct o; cbn; eauto).
  destruct Hk as [(before & limit & ->)|Hk].
  - apply DeleteExpired_keeps; [done|]. by eapply Hb.
  - destruct Hr as (s & Hs & Ht & He). eapply change_retained; [done|by apply exec_change| |by exists s].
    destruct (exec_keeping ctx now st o k s) as (n & Hn & _); [done..|by eexists].
Qed.

Lemma run_retained e st st' k :
  rtc (step_before e) st st' → store_ok st → retained st k e → store_ok st' ∧ retained st' k e.
Proof.
  induction 1 as [|st st1 st2 Hs _ IH]; intros Hok Hr; [done|]. destruct (step_retained _ _ _ _ Hok Hs Hr). auto.
Qed.

Lemma collected st k e before limit :
  retained st k e → e ≤ before → before ≠ 0 → 1 ≤ limit ≤ 1000 → zlen (elapsed_keys st before) ≤ limit →
  ∃ n st', DeleteExpired (Context None) st before limit = (Ok n, st') ∧ st_records st' !! k = None.
Proof.
  intros (s & Hs & Ht & He) Hle Hb Hlim Hlen. unfold DeleteExpired, IsZero.
  rewrite (proj2 (Z.eqb_neq before 0)), (proj2 (Z.ltb_ge limit 1)), (proj2 (Z.ltb_ge 1000 limit)) by lia.
  cbn [orb]. rewrite entry_open, truncate_take. eexists _, _. split; [done|].
  rewrite take_ge by (unfold zlen in Hlen; lia).
  destruct (fold_delete_lookup (elapsed_keys st before) st k) as (-> & _).
  rewrite decide_True; [done|]. apply elapsed_keys_spec. by exists e, s.
Qed.

Lemma live_expires s : Status_valid s = true → Status_Terminal s = false → allowedTransition s StatusExpired commandNone = true.
Proof. by destruct s. Qed.

(** Expiry of a live call with room for one more revision and frame. *)
Lemma Expire_live st k c e :
  store_ok st → st_records st !! k = Some c → Status_Terminal (s_status c) = false →
  s_revision c < max_u64 → s_sequence c < max_u64 → e ≠ 0 →
  ∃ n st', ContStore.Expire (Context None) st (mkExpireRequest k (s_revision c) e) = (Ok n, st') ∧
    s_status n = StatusExpired ∧ st_records st' !! k = Some n ∧ st_expires st' !! k = Some e.
Proof.
  intros Hok Hc Hlive Hrev Hseq He. destruct (so_records _ Hok _ _ Hc) as (<- & Hu & Hs).
  destruct (proj2 (Apply_move_spec c StatusExpired (s_fence c) [mkFrame 0 FrameExpired ""] Hu Hs ltac:(apply Hu))) as [n Hn].
  { unfold move_accepted. split_and!; try done; [|lia..|unfold zlen; cbn; lia].
    apply live_expires; [apply Hs|done]. }
  unfold ContStore.Expire. cbn [er_CallID er_ExpectedRevision er_ExpiresAt].
  pose proof (ok_revision _ Hs). unfold IsZero.
  rewrite (bool_decide_false (s_callID c = "")) by (by eapply valid_text_nonempty, (ok_callID _ Hs)).
  rewrite !(proj2 (Z.eqb_neq _ _)) by lia. cbn [orb]. rewrite entry_open, Hc, Hlive, Z.eqb_refl.
  rewrite (bool_decide_false (s_status c = StatusExpired)) by (intros E; by rewrite E in Hlive).
  change (NewFrame FrameExpired "") with (Ok (E := cerror) (mkFrame 0 FrameExpired "")).
  cbn [negb mbind result_bind]. rewrite Hn. eexists _, _. split; [done|]. cbn. rewrite !lookup_insert_eq.
  split; [|done]. apply Apply_none_fresh in Hn; [|done..]. by destruct Hn as [_ _ _ _ _ _ _ ->].
Qed.

Lemma GetCall_known st k s :
  store_ok st → st_records st !! k = Some s →
  ∃ summary, GetCall (Context None) st k = (Ok summary, st) ∧ cs_CallID summary = k ∧
    cs_Status summary = s_status s ∧ cs_Revision summary = s_revision s ∧ cs_ExpiresAt summary = expiry st k.
Proof.
  intros Hok Hs. destruct (so_records _ Hok _ _ Hs) as (<- & Hu & Hv). unfold GetCall.
  rewrite (bool_decide_false (s_callID s = "")) by (by eapply valid_text_nonempty, (ok_callID _ Hv)).
  rewrite entry_open, Hs. unfold NewCallSummary.
  rewrite (proj2 (validateSnapshot_spec s Hu) Hv), bool_decide_true by done. cbn.
  eexists. split; [done|]. by destruct (s_workflow s).
Qed.

Lemma Load_known st k s : store_ok st → st_records st !! k = Some s → Load (Context None) st k = (Ok s, st).
Proof.
  intros Hok Hs. destruct (so_records _ Hok _ _ Hs) as (<- & Hu & Hv). unfold Load.
  rewrite (bool_decide_false (s_callID s = "")) by (by eapply valid_text_nonempty, (ok_callID _ Hv)).
  by rewrite entry_open, Hs.
Qed.

(** ** What administration promises *)
Section promises.
  Context {W : Type} `{AdminStore W} (view : W → Store) (clock : W → time) {Hw : AdminWorld view clock}.
  Context (admin : Admin).

Lemma loaded w k s : store_ok (view w) → st_records (view w) !! k = Some s →
  ∃ w', ad_Load k w = (Ok s, w') ∧ view w' = view w ∧ clock w' = clock w.
Proof using Hw.
  intros Hok Hs. destruct (aw_Load view clock k w) as (Ha & Hv & Hc). destruct (ad_Load k w) as [a w'].
  cbn [fst snd exec] in *. rewrite (Load_known _ _ _ Hok Hs) in Ha, Hv. cbn in Ha, Hv. subst a. eauto.
Qed.

Lemma got w k s : store_ok (view w) → st_records (view w) !! k = Some s →
  ∃ summary w', ad_GetCall k w = (Ok summary, w') ∧ view w' = view w ∧ cs_CallID summary = k ∧
    cs_Status summary = s_status s ∧ cs_Revision summary = s_revision s ∧ cs_ExpiresAt summary = expiry (view w) k.
Proof using Hw.
  intros Hok Hs. destruct (aw_GetCall view clock k w) as (Ha & Hv & _). destruct (ad_GetCall k w) as [a w'].
  destruct (GetCall_known _ _ _ Hok Hs) as (summary & Hg & ?). cbn [fst snd exec] in *.
  rewrite Hg in Ha, Hv. cbn in Ha, Hv. subst a.
  by exists summary, w'.
Qed.

Lemma NewAdmin_bounds config : NewAdmin config = Ok admin →
  0 < ad_terminalRetention admin ≤ maxTerminalRetention ∧ 1 ≤ ad_maxPageSize admin ≤ 1000.
Proof.
  unfold NewAdmin. destruct (negb _); [done|]. case_match eqn:Hg; [done|]. intros [= <-]. cbn.
  unfold maxAdminPageSize in Hg. bool_hyps. lia.
Qed.

Lemma expired w k c :
  store_ok (view w) → st_records (view w) !! k = Some c → Status_Terminal (s_status c) = false →
  s_revision c < max_u64 → s_sequence c < max_u64 → clock w + ad_terminalRetention admin ≠ 0 →
  let deadline := clock w + ad_terminalRetention admin in
  ∃ summary w1, Expire admin k w = (Ok summary, w1) ∧ cs_Status summary = StatusExpired ∧
    cs_ExpiresAt summary = deadline ∧ store_ok (view w1) ∧ retained (view w1) k deadline.
Proof using Hw.
  intros Hok Hc Hlive Hrev Hseq Hne. cbn zeta. destruct (loaded w k c Hok Hc) as (w1 & Hl & Hv1 & Hc1).
  unfold Expire. rewrite Hl, (aw_now view clock w1), Hc1.
  set (q := mkExpireRequest _ _ _). destruct (aw_Expire view clock q w1) as (Ha & Hv2 & _).
  destruct (Expire_live (view w) k c _ Hok Hc Hlive Hrev Hseq Hne) as (n & st' & HE & Hst & Hr & He).
  assert (Hok2 : store_ok (exec (Context None) (clock w1) (view w1) (OpExpire q))).
  { rewrite Hv1. by apply exec_ok. }
  rewrite Hv1 in Ha, Hv2, Hok2. cbn [exec] in Hv2, Hok2. fold q in HE. rewrite HE in Ha, Hv2, Hok2.
  destruct (ad_Expire q w1) as [a w2]. cbn in Ha, Hv2, Hok2. subst a. rewrite <- Hv2 in Hr, He, Hok2.
  destruct (got w2 k n Hok2 Hr) as (summary & w3 & Hg & Hv3 & _ & Hs & _ & Hx).
  exists summary, w3. rewrite Hg, Hv3. unfold expiry in Hx. rewrite He in Hx.
  split_and!; [done|congruence|done|done|]. exists n. by rewrite Hst.
Qed.

Lemma collects w k e limit :
  1 ≤ ad_maxPageSize admin ≤ 1000 → retained (view w) k e → e ≤ clock w → clock w ≠ 0 →
  1 ≤ limit ≤ ad_maxPageSize admin → zlen (elapsed_keys (view w) (clock w)) ≤ limit →
  ∃ n w', Collect admin limit w = (Ok n, w') ∧ st_records (view w') !! k = None.
Proof using Hw.
  intros Hpage Hr Hle Hne Hlim Hlen. unfold Collect.
  rewrite (proj2 (Z.ltb_ge limit 1)), (proj2 (Z.ltb_ge _ limit)) by lia. cbn [orb]. rewrite (aw_now view clock w).
  destruct (aw_DeleteExpired view clock (clock w) limit w) as (Ha & Hv & _).
  destruct (collected (view w) k e (clock w) limit Hr Hle Hne ltac:(lia) Hlen) as (n & st' & HD & Hk).
  cbn [exec] in Hv. rewrite HD in Ha, Hv. destruct (ad_DeleteExpired _ _ w) as [a w']. cbn in *. subst. eauto.
Qed.

(** A cancellation that was recorded is answered from the record. *)
Lemma cancel_replayed w k id s :
  store_ok (view w) → st_records (view w) !! k = Some s → validIdentity id = true →
  s_commands s !! id = Some (transition_record (ContModel.Cancel id [mkFrame 0 FrameCancelRequested ""])) →
  ∃ summary w', Cancel k id w = (Ok summary, w') ∧ view w' = view w ∧
    cs_Status summary = s_status s ∧ cs_Revision summary = s_revision s.
Proof using Hw.
  intros Hok Hs Hid Hrec. destruct (so_records _ Hok _ _ Hs) as (Hk & Hu & Hv).
  destruct (loaded w k s Hok Hs) as (w1 & Hl & Hv1 & _). unfold Cancel. rewrite Hl.
  set (q := mkCommandRequest _ _ _ _). destruct (aw_RequestCancel view clock q w1) as (Ha & Hv2 & _).
  assert (Hrep : ContStore.RequestCancel (Context None) (view w1) q = (Ok s, view w)).
  { rewrite Hv1. pose proof (ok_revision _ Hv).
    change (command (Context None) (view w) q (ContModel.Cancel id [mkFrame 0 FrameCancelRequested ""]) = (Ok s, view w)).
    rewrite (command_replay None _ q _ s); cbn; [done| |lia|done|].
    - rewrite <- Hk. by eapply valid_text_nonempty, (ok_callID _ Hv).
    - apply Apply_replay; [done|done|eexists _, _; by right|done|done]. }
  cbn [exec] in Hv2. rewrite Hrep in Ha, Hv2. destruct (ad_RequestCancel q w1) as [a w2]. cbn in Ha, Hv2. subst a.
  rewrite <- Hv2 in Hok, Hs. destruct (got w2 k s Hok Hs) as (summary & w3 & Hg & Hv3 & _ & ? & ? & _).
  exists summary, w3. rewrite Hg, Hv3, Hv2. done.
Qed.

Definition cancelable (s : Status) : bool :=
  match s with StatusAccepted | StatusRunning | StatusWaiting | StatusSuspended => true | _ => false end.

Lemma cancel_recorded w k id c :
  store_ok (view w) → st_records (view w) !! k = Some c → cancelable (s_status c) = true →
  s_revision c < max_u64 → s_sequence c < max_u64 → validIdentity id = true → s_commands c !! id = None →
  ∃ summary w' n, Cancel k id w = (Ok summary, w') ∧ cs_Status summary = StatusCancelRequested ∧
    store_ok (view w') ∧ st_records (view w') !! k = Some n ∧
    s_commands n !! id = Some (transition_record (ContModel.Cancel id [mkFrame 0 FrameCancelRequested ""])).
Proof using Hw.
  intros Hok Hs Hlive Hrev Hseq Hid Hnew. destruct (so_records _ Hok _ _ Hs) as (Hk & Hu & Hv).
  destruct (loaded w k c Hok Hs) as (w1 & Hl & Hv1 & _). unfold Cancel. rewrite Hl.
  set (q := mkCommandRequest _ _ _ _). set (t := ContModel.Cancel id [mkFrame 0 FrameCancelRequested ""]).
  destruct (aw_RequestCancel view clock q w1) as (Ha & Hv2 & _). rewrite Hv1 in Ha, Hv2.
  assert (HA : ∃ n, Apply c t = Ok n ∧ s_status n = StatusCancelRequested ∧ s_revision n = s_revision c + 1).
  { unfold Apply. rewrite (proj2 (validateSnapshot_spec c Hu) Hv). cbn -[apply_fresh]. rewrite Hid, Hnew. cbn [negb].
    assert (Hf : ∃ n, fresh_step c t n).
    { eexists. refine (mk_fresh_step c t _ _ _ _ _ _ _ _ eq_refl); try done; cbn; try (by destruct (s_status c)); unfold zlen; cbn; lia. }
    destruct Hf as [n Hf]. exists n. split; [by apply apply_fresh_spec|].
    destruct Hf as [_ _ _ _ _ _ _ ->]. done. }
  destruct HA as (n & HA & Hst & Hr1). pose proof (ok_revision _ Hv).
  destruct (Apply_records _ _ _ Hu HA ltac:(done)) as [_ Hrec].
  assert (Hc : ContStore.RequestCancel (Context None) (view w) q =
    (Ok n, set_leases (delete k) (set_records <[k := n]> (view w)))).
  { change (command (Context None) (view w) q t = (Ok n, set_leases (delete k) (set_records <[k := n]> (view w)))).
    unfold command. cbn [q cd_CallID cd_ExpectedRevision cd_CommandID].
    rewrite (bool_decide_false (k = "")) by (rewrite <- Hk; by eapply valid_text_nonempty, (ok_callID _ Hv)).
    rewrite (proj2 (Z.eqb_neq (s_revision c) 0)) by lia. cbn [orb]. rewrite entry_open, Hs.
    rewrite HA, Hr1, Z.eqb_refl, (proj2 (Z.eqb_neq _ _)) by lia. done. }
  assert (Hok2 : store_ok (view (snd (ad_RequestCancel q w1)))) by (rewrite Hv2; by apply exec_ok).
  cbn [exec] in Hv2. rewrite Hc in Ha, Hv2. destruct (ad_RequestCancel q w1) as [a w2]. cbn [fst snd lift] in *. subst a.
  assert (Hn : st_records (view w2) !! k = Some n) by (rewrite Hv2; apply lookup_insert_eq).
  destruct (got w2 k n Hok2 Hn) as (summary & w3 & Hg & Hv3 & _ & Hcs & _ & _).
  exists summary, w3, n. rewrite Hg, Hv3. split_and!; try done. by rewrite Hcs.
Qed.
End promises.

(** retention holds from expiry to collection.  Expiring a live call ends it and schedules its
    deletion at the present time plus the configured retention; whatever the store is used for
    afterwards, the ended call stays readable until some collection is run at or after that
    deadline, and a collection then, with a limit that covers the elapsed calls, removes it. *)
Theorem retention_deadline {W} `{AdminStore W} (view : W → Store) (clock : W → time) config admin w k c :
  AdminWorld view clock → NewAdmin config = Ok admin → store_ok (view w) → 0 < clock w →
  st_records (view w) !! k = Some c → Status_Terminal (s_status c) = false →
  s_revision c < max_u64 → s_sequence c < max_u64 →
  let deadline := clock w + ad_terminalRetention admin in
  ∃ summary w1, Expire admin k w = (Ok summary, w1) ∧
    cs_Status summary = StatusExpired ∧ cs_ExpiresAt summary = deadline ∧
    ∀ w2, rtc (step_before deadline) (view w1) (view w2) →
      retained (view w2) k deadline ∧
      ∀ limit, 1 ≤ limit ≤ ad_maxPageSize admin → deadline ≤ clock w2 →
        zlen (elapsed_keys (view w2) (clock w2)) ≤ limit →
        ∃ n w3, Collect admin limit w2 = (Ok n, w3) ∧ st_records (view w3) !! k = None.
Proof.
  intros Hw Hadmin Hok Hnow Hc Hlive Hrev Hseq. destruct (NewAdmin_bounds _ _ Hadmin) as [Hret Hpage].
  destruct (expired view clock admin w k c Hok Hc Hlive Hrev Hseq ltac:(lia)) as (summary & w1 & HE & H1 & H2 & Hok1 & Hr).
  exists summary, w1. split_and!; [done..|]. intros w2 Hrun. destruct (run_retained _ _ _ k Hrun Hok1 Hr) as [_ Hr2].
  split; [done|]. intros limit Hlim Hle Hlen. eapply (collects view clock); eauto. lia.
Qed.

(** an administrative cancellation is recorded once.  Cancelling a call that can still be
    cancelled reports it as cancel_requested; repeating the request with the same command identity
    at any later point of the store's life without collection is answered with the current state of the call and changes
    nothing. *)
Theorem admin_cancel_once {W} `{AdminStore W} (view : W → Store) (clock : W → time) w k id c :
  AdminWorld view clock → store_ok (view w) → st_records (view w) !! k = Some c →
  cancelable (s_status c) = true → s_revision c < max_u64 → s_sequence c < max_u64 →
  validIdentity id = true → s_commands c !! id = None →
  ∃ summary w1, Cancel k id w = (Ok summary, w1) ∧ cs_Status summary = StatusCancelRequested ∧
    ∀ w2, rtc live_step (view w1) (view w2) →
      ∃ s again w3, st_records (view w2) !! k = Some s ∧ Cancel k id w2 = (Ok again, w3) ∧ view w3 = view w2 ∧
        cs_Status again = s_status s ∧ cs_Revision again = s_revision s.
Proof.
  intros Hw Hok Hc Hcan Hrev Hseq Hid Hnew.
  destruct (cancel_recorded view clock w k id c Hok Hc Hcan Hrev Hseq Hid Hnew)
    as (summary & w1 & n & HC & Hst & Hok1 & Hn & Hrec).
  exists summary, w1. split_and!; [done..|]. intros w2 Hrun.
  destruct (live_run_record _ _ _ _ Hok1 Hrun Hn) as (Hok2 & s & Hs & Hns).
  destruct (so_records _ Hok1 _ _ Hn) as (_ & Hun & _).
  destruct (cancel_replayed view clock w2 k id s Hok2 Hs Hid) as (again & w3 & ? & ? & ? & ?).
  { by apply (record_history_commands n s). }
  by exists s, again, w3.
Qed.

(** ** Witnesses: the memory store behind the facade *)
#[local] Instance sim_admin : AdminStore sim := {
  ad_now w := (sm_clock w, w);
  ad_Load id := sim_op true Caller (λ ctx now st, ContStore.Load ctx st id) lift;
  ad_RequestCancel q := sim_op true Caller (λ ctx now st, ContStore.RequestCancel ctx st q) lift;
  ad_ListCalls q := sim_op true Caller (λ ctx now st, ContStore.ListCalls ctx st q) lift;
  ad_GetCall id := sim_op true Caller (λ ctx now st, ContStore.GetCall ctx st id) lift;
  ad_PruneFrames id floor := sim_op true Caller (λ ctx now st, ContStore.PruneFrames ctx st id floor) lift;
  ad_Expire q := sim_op true Caller (λ ctx now st, ContStore.Expire ctx st q) lift;
  ad_DeleteExpired before limit := sim_op true Caller (λ ctx now st, ContStore.DeleteExpired ctx st before limit) lift
}.

Lemma sim_on_store {A} w o (f : context cerror → time → Store → result cerror A * Store) :
  (∀ ctx now st, exec ctx now st o = snd (f ctx now st)) →
  on_store sm_store sm_clock w o (λ st, fst (f (Context None) (sm_clock w) st)) (sim_op true Caller f lift w).
Proof.
  intros Hf. unfold on_store, sim_op. rewrite Hf. cbn. by destruct (f _ _ _).
Qed.

Lemma sim_admin_world : AdminWorld sm_store sm_clock.
Proof.
  constructor; [done|..].
  - intros id w. by apply (sim_on_store w (OpLoad id) (λ ctx now st, ContStore.Load ctx st id)).
  - intros q w. by apply (sim_on_store w (OpRequestCancel q) (λ ctx now st, ContStore.RequestCancel ctx st q)).
  - intros q w. by apply (sim_on_store w (OpListCalls q) (λ ctx now st, ContStore.ListCalls ctx st q)).
  - intros id w. by apply (sim_on_store w (OpGetCall id) (λ ctx now st, ContStore.GetCall ctx st id)).
  - intros id floor w. by apply (sim_on_store w (OpPruneFrames id floor) (λ ctx now st, ContStore.PruneFrames ctx st id floor)).
  - intros q w. by apply (sim_on_store w (OpExpire q) (λ ctx now st, ContStore.Expire ctx st q)).
  - intros before limit w.
    by apply (sim_on_store w (OpDeleteExpired before limit) (λ ctx now st, ContStore.DeleteExpired ctx st before limit)).
Qed.

Definition ex_admin : Admin := mkAdmin hour 50.

(** The store in which the lease on the new call has been taken. *)
Definition ex_live : sim := mkSim ex_store1 20 None.

Lemma retention_deadline_witness :
  let deadline := 20 + hour in
  ∃ summary w1, Expire ex_admin "call-1" ex_live = (Ok summary, w1) ∧
    cs_Status summary = StatusExpired ∧ cs_ExpiresAt summary = deadline ∧
    ∀ w2, rtc (step_before deadline) (sm_store w1) (sm_store w2) →
      retained (sm_store w2) "call-1" deadline ∧
      ∀ limit, 1 ≤ limit ≤ 50 → deadline ≤ sm_clock w2 →
        zlen (elapsed_keys (sm_store w2) (sm_clock w2)) ≤ limit →
        ∃ n w3, Collect ex_admin limit w2 = (Ok n, w3) ∧ st_records (sm_store w3) !! "call-1" = None.
Proof.
  apply (retention_deadline sm_store sm_clock (mkAdminConfig true hour 50) ex_admin ex_live "call-1" ex_claimed);
    [apply sim_admin_world|vm_compute; reflexivity|apply ex_store1_ok|vm_compute; reflexivity
    |vm_compute; reflexivity|vm_compute; reflexivity|vm_compute; reflexivity|vm_compute; reflexivity].
Defined.

Lemma admin_cancel_once_witness :
  ∃ summary w1, Cancel "call-1" "cmd-7" ex_live = (Ok summary, w1) ∧ cs_Status summary = StatusCancelRequested ∧
    ∀ w2, rtc live_step (sm_store w1) (sm_store w2) →
      ∃ s again w3, st_records (sm_store w2) !! "call-1" = Some s ∧ Cancel "call-1" "cmd-7" w2 = (Ok again, w3) ∧
        sm_store w3 = sm_store w2 ∧ cs_Status again = s_status s ∧ cs_Revision again = s_revision s.
Proof.
  apply (admin_cancel_once sm_store sm_clock ex_live "call-1" "cmd-7" ex_claimed);
    [apply sim_admin_world|apply ex_store1_ok|vm_compute; reflexivity|vm_compute; reflexivity
    |vm_compute; reflexivity|vm_compute; reflexivity|vm_compute; reflexivity|vm_compute; reflexivity].
Defined.
