(* ===== verification/WorkflowRuntime.v ===== *)
(** * programmable/continuation: durable workflow reconciliation

    Models [workflow_runtime.go].  One reconciliation loads nothing: it works on the snapshot a
    claim handed out, runs the planner until nothing is left to do, calls application handlers
    and the child runtime on the way, and ends in one transition of the parent call.  The Go
    code mutates a cloned state and a frame slice through pointers; here both are threaded.
    Ranging over a Go map visits the keys in an order the world chooses. *)
From S2P Require Import Prelude GoText GoJson Sha256 ContModel ContState ContWorkflow ContStore Registry Runtime.
Open Scope Z_scope.

Definition defaultWorkflowPollInterval : duration := second.
Definition defaultWorkflowBatchSize : Z := 100.
Definition defaultWorkflowNodeBudget : Z := 10000.
Definition maxWorkflowReadyScan : Z := 10000.

Record WorkflowExecution := mkExecution {
  x_ParentCallID : string;
  x_NodeID : string;
  x_Attempt : Z;
  x_Operation : string;
  x_ExecutionID : string
}.

Record WorkflowNodeResult := mkNodeResult { nr_Status : WorkflowNodeStatus; nr_FailureClass : string }.

Definition WorkflowNodeHandler (W : Type) : Type :=
  WorkflowExecution → W → result rerror WorkflowNodeResult * W.

(** [StartCall] and [Attach] of the child runtime; of the attachment only the snapshot is read. *)
Record WorkflowChildRuntime (W : Type) := mkChildren {
  ch_StartCall : string → string → string → W → result rerror Snapshot * W;
  ch_Attach : string → Z → Z → W → result rerror Snapshot * W
}.
Arguments mkChildren {W}. Arguments ch_StartCall {W}. Arguments ch_Attach {W}.

Class MapOrder (W : Type) := {
  w_range : gmap string workflowNodeState → W → list string * W  (* the keys, in range order *)
}.

Record WorkflowRuntimeConfig (W : Type) := mkWorkflowConfig {
  wc_Registry : option (Registry (Machine W));
  wc_ChildRuntime : option (WorkflowChildRuntime W);
  wc_Handlers : gmap string (option (WorkflowNodeHandler W));
  wc_ExecutorID : string;
  wc_LeaseDuration : duration;
  wc_HeartbeatInterval : duration;
  wc_PollInterval : duration;
  wc_BatchSize : Z;
  wc_MaxNodeActions : Z;
  wc_TerminalRetention : duration
}.
Arguments mkWorkflowConfig {W}. Arguments wc_Registry {W}. Arguments wc_ChildRuntime {W}.
Arguments wc_Handlers {W}. Arguments wc_ExecutorID {W}. Arguments wc_LeaseDuration {W}.
Arguments wc_HeartbeatInterval {W}. Arguments wc_PollInterval {W}. Arguments wc_BatchSize {W}.
Arguments wc_MaxNodeActions {W}. Arguments wc_TerminalRetention {W}.

Record WorkflowRuntime (W : Type) := mkWorkflowRuntime {
  wr_registry : Registry (Machine W);
  wr_children : option (WorkflowChildRuntime W);
  wr_handlers : gmap string (option (WorkflowNodeHandler W));
  wr_executorID : string;
  wr_leaseDuration : duration;
  wr_heartbeat : duration;
  wr_pollInterval : duration;
  wr_batchSize : Z;
  wr_maxNodeActions : Z;
  wr_terminalRetention : duration
}.
Arguments mkWorkflowRuntime {W}. Arguments wr_registry {W}. Arguments wr_children {W}.
Arguments wr_handlers {W}. Arguments wr_executorID {W}. Arguments wr_leaseDuration {W}.
Arguments wr_heartbeat {W}. Arguments wr_pollInterval {W}. Arguments wr_batchSize {W}.
Arguments wr_maxNodeActions {W}. Arguments wr_terminalRetention {W}.

(** [store], [leases] and [random] as for [NewRuntime]. *)
Definition NewWorkflowRuntime {W} (store leases : bool) (random : option (list Z))
    (config : WorkflowRuntimeConfig W) : result cerror (WorkflowRuntime W) :=
  match wc_Registry config with
  | None => Err ErrInvalidRuntime
  | Some registry =>
      if negb store || negb (Frozen registry) then Err ErrInvalidRuntime
      else if negb leases then Err ErrLeaseUnsupported
      else match (if wc_ExecutorID config == "" then randomExecutorID random
                  else Some (wc_ExecutorID config)) with
      | None => Err ErrInvalidRuntime
      | Some executor =>
          let lease := or_default (wc_LeaseDuration config) defaultLeaseDuration in
          let poll := or_default (wc_PollInterval config) defaultWorkflowPollInterval in
          let heartbeat := or_default (wc_HeartbeatInterval config) (lease ÷ 3) in
          let batch := or_default (wc_BatchSize config) defaultWorkflowBatchSize in
          let actions := or_default (wc_MaxNodeActions config) defaultWorkflowNodeBudget in
          let retention := or_default (wc_TerminalRetention config) defaultTerminalRetention in
          if negb (validLeaseOwner executor) || (lease <=? 0) || (maxLeaseDuration <? lease) ||
             (poll <=? 0) || (heartbeat <=? 0) || (lease <=? heartbeat) || (minute <? poll) ||
             (batch <=? 0) || (10000 <? batch) || (actions <=? 0) || (maxWorkflowNodes <? actions) ||
             (retention <=? 0) || (maxTerminalRetention <? retention)
          then Err ErrInvalidRuntime
          else if map_forallb (λ operation handler,
                    validOperation operation && bool_decide (is_Some handler)) (wc_Handlers config)
          then Ok (mkWorkflowRuntime registry (wc_ChildRuntime config) (wc_Handlers config) executor
                     lease heartbeat poll batch actions retention)
          else Err ErrInvalidRuntime
      end
  end.

Definition validateWorkflowNodeResult (result : WorkflowNodeResult) : option cerror :=
  if ((nr_Status result != WorkflowNodeSucceeded) && (nr_Status result != WorkflowNodeFailed)) ||
     (maxWorkflowFailureSize <? slen (nr_FailureClass result)) ||
     ((nr_FailureClass result != "") && negb (validIdentity (nr_FailureClass result))) ||
     ((nr_Status result == WorkflowNodeSucceeded) && (nr_FailureClass result != ""))
  then Some ErrInvalidWorkflow else None.

Definition workflowExecutionID (parent nodeID : string) (attempt : Z) : string :=
  hex_encode (sha256 (digest_part (bytes_of "keelith-workflow-execution-v1") ++
    digest_part (bytes_of parent) ++ digest_part (bytes_of nodeID) ++
    digest_part (be_bytes 4 attempt))).

(** An error of the package seen through the [error] interface. *)
Definition lift_plain {A} (x : result cerror A) : result rerror A :=
  match x with Ok a => Ok a | Err e => Err (Plain e) end.

(** ** Working state of one reconciliation *)
Record work := mkWork { wk_state : workflowSnapshotState; wk_frames : list Frame }.

Definition set_nodes (nodes : gmap string workflowNodeState) (state : workflowSnapshotState) :
    workflowSnapshotState :=
  mkWorkflowState (w_Version state) (w_Fingerprint state) (w_StartedAt state) nodes.
Definition put_node (id : string) (node : workflowNodeState) (k : work) : work :=
  mkWork (set_nodes (<[id := node]> (w_Nodes (wk_state k))) (wk_state k)) (wk_frames k).
Definition add_frame (frame : Frame) (k : work) : work := mkWork (wk_state k) (wk_frames k ++ [frame]).

(** Go's zero value of a missing map entry. *)
Definition zero_node : workflowNodeState :=
  mkNodeState "" (WorkflowNodeKindOther "") (WorkflowNodeStatusOther "") 0 "" 0 "".
Definition get_node (id : string) (k : work) : workflowNodeState :=
  default zero_node (w_Nodes (wk_state k) !! id).

Definition with_node_status (status : WorkflowNodeStatus) (n : workflowNodeState) : workflowNodeState :=
  mkNodeState (n_ID n) (n_Kind n) status (n_Attempt n) (n_ChildCallID n) (n_ReadyAt n) (n_FailureClass n).
Definition with_failure (class : string) (n : workflowNodeState) : workflowNodeState :=
  mkNodeState (n_ID n) (n_Kind n) (n_Status n) (n_Attempt n) (n_ChildCallID n) (n_ReadyAt n) class.
Definition with_node_attempt (attempt : Z) (n : workflowNodeState) : workflowNodeState :=
  mkNodeState (n_ID n) (n_Kind n) (n_Status n) attempt (n_ChildCallID n) (n_ReadyAt n) (n_FailureClass n).
Definition with_ready (at_ : time) (n : workflowNodeState) : workflowNodeState :=
  mkNodeState (n_ID n) (n_Kind n) (n_Status n) (n_Attempt n) (n_ChildCallID n) at_ (n_FailureClass n).
Definition with_child (child : string) (n : workflowNodeState) : workflowNodeState :=
  mkNodeState (n_ID n) (n_Kind n) (n_Status n) (n_Attempt n) child (n_ReadyAt n) (n_FailureClass n).

(** The payload of a child frame, as [json.Marshal] prints it. *)
Definition child_payload (nodeID childID : string) (status : Status) : string :=
  string_of_bytes (json_object [json_field "node_id" (json_string nodeID);
    json_field "child_id" (json_string childID);
    json_field "status" (json_string (Status_string status))]).

(** The node of a child whose call ended. *)
Definition child_node (status : Status) (node : workflowNodeState) : workflowNodeState :=
  if status == StatusCompleted then with_node_status WorkflowNodeSucceeded node
  else with_failure "CHILD_TERMINAL_FAILURE" (with_node_status WorkflowNodeFailed node).

(** The node after its timer fired under the authoritative wake time. *)
Definition fire_timer (wake : time) (node : workflowNodeState) : workflowNodeState :=
  if (n_Kind node == WorkflowNodeTimer) && (n_Status node == WorkflowNodeWaiting) &&
     negb (IsZero wake) && negb (Before wake (n_ReadyAt node))
  then with_node_status WorkflowNodeSucceeded node else node.

Definition fire_timers (wake : time) (k : work) : work :=
  mkWork (set_nodes (fire_timer wake <$> w_Nodes (wk_state k)) (wk_state k)) (wk_frames k).

Definition earlier_wake (wakeAt : time) (node : workflowNodeState) : time :=
  if (n_Kind node == WorkflowNodeTimer) && (n_Status node == WorkflowNodeWaiting) &&
     (IsZero wakeAt || Before (n_ReadyAt node) wakeAt)
  then n_ReadyAt node else wakeAt.

Section workflow_runtime.
  Context {W : Type} `{Environment W, LeaseStore W, MapOrder W}.
  Context (wr : WorkflowRuntime W).

(** [None] is a nil error. *)
Definition refreshChild (nodeID : string) (k : work) (w : W) : option rerror * work * W :=
  match wr_children wr with
  | None => (Some (Plain ErrWorkflowHandlerNotFound), k, w)
  | Some children =>
      let node := get_node nodeID k in
      match ch_Attach children (n_ChildCallID node) 0 1 w with
      | (Err err, w) =>
          if error_is err ErrNotFound then (None, k, w)
          else (Some (Wrap "continuation: attach child" err), k, w)
      | (Ok child, w) =>
          if negb (Status_Terminal (s_status child)) then (None, k, w)
          else
            let node := child_node (s_status child) node in
            let k := put_node nodeID node k in
            match NewFrame FrameWorkflowChild
                    (child_payload nodeID (n_ChildCallID node) (s_status child)) with
            | Err err => (Some (Plain err), k, w)
            | Ok frame => (None, add_frame frame k, w)
            end
      end
  end.

Fixpoint refresh_children (ids : list string) (k : work) (w : W) : option rerror * work * W :=
  match ids with
  | [] => (None, k, w)
  | id :: ids =>
      let node := get_node id k in
      if (n_Kind node == WorkflowNodeChild) && (n_Status node == WorkflowNodeWaiting) then
        match refreshChild id k w with
        | (Some err, k, w) => (Some err, k, w)
        | (None, k, w) => refresh_children ids k w
        end
      else refresh_children ids k w
  end.

Definition refreshWaitingChildren (k : work) (w : W) : option rerror * work * W :=
  let '(ids, w) := w_range (w_Nodes (wk_state k)) w in refresh_children ids k w.

(** The result of a handler, applied to its node. *)
Definition handled_node (outcome : result rerror WorkflowNodeResult) (node : workflowNodeState) :
    result cerror workflowNodeState :=
  match outcome with
  | Err _ => Ok (with_failure "HANDLER_ERROR" (with_node_status WorkflowNodeFailed node))
  | Ok result =>
      if validateWorkflowNodeResult result != None then Err ErrInvalidWorkflow
      else Ok (with_failure (nr_FailureClass result) (with_node_status (nr_Status result) node))
  end.

Definition executeCommand (parent : string) (command : workflowCommand) (k : work) (w : W) :
    option rerror * work * W :=
  let node := get_node (c_nodeID command) k in
  match c_completeStatus command with
  | Some status =>
      let node := with_node_status status node in
      let node := if n_Status node == WorkflowNodeFailed then with_failure "DEPENDENCY_FAILED" node
                  else node in
      (None, put_node (n_ID node) node k, w)
  | None =>
      let node := with_node_attempt (c_attempt command) node in
      match c_kind command with
      | WorkflowNodeTimer =>
          let node := with_ready (c_readyAt command) (with_node_status WorkflowNodeWaiting node) in
          (None, put_node (n_ID node) node k, w)
      | WorkflowNodeChild =>
          match wr_children wr with
          | None => (Some (Plain ErrWorkflowHandlerNotFound), k, w)
          | Some children =>
              let node := with_child (c_childCallID command) (with_node_status WorkflowNodeWaiting node) in
              let k := put_node (n_ID node) node k in
              match ch_StartCall children (c_childCallID command) (c_operation command) "" w with
              | (Err err, w) =>
                  if error_is err ErrAlreadyExists then refreshChild (n_ID node) k w
                  else (Some (Wrap "continuation: start child" err), k, w)
              | (Ok _, w) => refreshChild (n_ID node) k w
              end
          end
      | WorkflowNodeMachine =>
          match wr_handlers wr !! c_operation command with
          | Some (Some handler) =>
              let node := with_node_status WorkflowNodeRunning node in
              let k := put_node (n_ID node) node k in
              let '(outcome, w) :=
                handler (mkExecution parent (n_ID node) (c_attempt command) (c_operation command)
                           (workflowExecutionID parent (n_ID node) (c_attempt command))) w in
              match handled_node outcome node with
              | Err err => (Some (Plain err), k, w)
              | Ok node => (None, put_node (n_ID node) node k, w)
              end
          | _ => (Some (Plain ErrWorkflowHandlerNotFound), k, w)
          end
      | _ => (Some (Plain ErrInvalidWorkflow), k, w)
      end
  end.

(** The inner loop: the commands of one plan, within the action budget. *)
Fixpoint execute_all (parent : string) (commands : list workflowCommand) (actions : Z) (k : work) (w : W) :
    result rerror (Z * work) * W :=
  match commands with
  | [] => (Ok (actions, k), w)
  | command :: commands =>
      if wr_maxNodeActions wr <=? actions then (Ok (actions, k), w)
      else match executeCommand parent command k w with
      | (Some err, _, w) => (Err err, w)
      | (None, k, w) => execute_all parent commands (actions + 1) k w
      end
  end.

(** The outer loop; [None] when the fuel runs out. *)
Fixpoint plan_loop (fuel : nat) (definition : WorkflowDefinition) (parent : string) (actions : Z)
    (k : work) (w : W) : option (result rerror work * W) :=
  if wr_maxNodeActions wr <=? actions then Some (Ok k, w)
  else match fuel with
  | O => None
  | S fuel =>
      match planWorkflowForParent definition (wk_state k) parent with
      | Err err => Some (Err (Plain err), w)
      | Ok [] => Some (Ok k, w)
      | Ok commands =>
          match execute_all parent commands actions k w with
          | (Err err, w) => Some (Err err, w)
          | (Ok (actions, k), w) => plan_loop fuel definition parent actions k w
          end
      end
  end.

Definition nextWakeAt (state : workflowSnapshotState) (w : W) : time * W :=
  let '(now, w) := w_now w in
  let wakeAt := normalizeReadyAt (now + wr_pollInterval wr) in
  let '(ids, w) := w_range (w_Nodes state) w in
  (fold_left (λ wakeAt id, earlier_wake wakeAt (default zero_node (w_Nodes state !! id))) ids wakeAt, w).

(** The transition that ends a reconciliation. *)
Definition conclude (definition : WorkflowDefinition) (current : Snapshot) (k : work) (w : W) :
    result cerror ContModel.Transition * W :=
  let '(terminal, failed) := workflowDefinitionOutcome definition (wk_state k) in
  if terminal then
    let state := skipNonTerminalWorkflowNodes (wk_state k) in
    let status := if failed : bool then StatusFailed else StatusCompleted in
    let kind := if failed : bool then FrameFailed else FrameCompleted in
    (frame ← NewFrame kind "";
     Ok (moveWorkflow status (s_fence current) state 0 (wk_frames k ++ [frame])), w)
  else
    let '(wakeAt, w) := nextWakeAt (wk_state k) w in
    (Ok (moveWorkflow StatusSuspended (s_fence current) (wk_state k) wakeAt (wk_frames k)), w).

(** [current] carries a workflow state, as [RunOnce] checked.  Every round of the planning loop
    spends at least one action, so the action budget is fuel enough; [None] would be a loop that
    is still planning. *)
Definition reconcile (current : Snapshot) (state : workflowSnapshotState)
    (authoritativeWake : time) (w : W) : option (result rerror Snapshot * W) :=
  match ResolveWorkflow (s_operation current) (w_Version state) (wr_registry wr) with
  | None => Some (Err (Plain ErrWorkflowDefinitionMismatch), w)
  | Some definition =>
      if wf_fingerprint definition != w_Fingerprint state
      then Some (Err (Plain ErrWorkflowDefinitionMismatch), w)
      else if s_status current == StatusCancelRequested then
        Some (lift_plain (
          frame ← NewFrame FrameCanceled "";
          Apply current (moveWorkflow StatusCanceled (s_fence current)
                           (skipNonTerminalWorkflowNodes state) 0 [frame])), w)
      else match refreshWaitingChildren (mkWork state []) w with
      | (Some err, _, w) => Some (Err err, w)
      | (None, k, w) =>
          match plan_loop (Z.to_nat (wr_maxNodeActions wr)) definition (s_callID current) 0
                  (fire_timers authoritativeWake k) w with
          | None => None
          | Some (Err err, w) => Some (Err err, w)
          | Some (Ok k, w) =>
              match conclude definition current k w with
              | (Err err, w) => Some (Err (Plain err), w)
              | (Ok transition, w) => Some (lift_plain (Apply current transition), w)
              end
          end
      end
  end.

(** ** The executor *)
Definition Start (callID operation version input : string) (w : W) : result rerror Snapshot * W :=
  match ResolveWorkflow operation version (wr_registry wr) with
  | None => (Err (Plain ErrWorkflowDefinitionMismatch), w)
  | Some definition =>
      let '(now, w) := w_now w in
      match newWorkflowSnapshot callID definition input now with
      | Err err => (Err (Plain err), w)
      | Ok snapshot => ls_Create Caller snapshot w
      end
  end.

Definition release (lease : Lease) (w : W) : W :=
  snd (ls_Release Caller (mkLeaseRequest (s_callID (l_Snapshot lease)) (s_revision (l_Snapshot lease))
         (s_fence (l_Snapshot lease)) (l_OwnerID lease) 0) w).

Fixpoint heartbeat (ticks : nat) (ended : bool) (current : Snapshot) (w : W) : option rerror * W :=
  match ticks with
  | O => if ended then w_cause Caller w else (None, w)
  | S ticks =>
      match ls_Renew Caller (mkLeaseRequest (s_callID current) (s_revision current) (s_fence current)
              (wr_executorID wr) (wr_leaseDuration wr)) w with
      | (Err err, w) => (Some err, w)
      | (Ok _, w) => heartbeat ticks ended current w
      end
  end.

Definition reconcileWithHeartbeat (current : Snapshot) (state : workflowSnapshotState)
    (authoritativeWake : time) (w : W) : option (result rerror Snapshot * W) :=
  match reconcile current state authoritativeWake w with
  | None => None
  | Some (outcome, w) =>
      let '((ticks, ended), w) := w_beats w in
      match heartbeat ticks ended current w with
      | (Some err, w) => Some ((if error_is err ErrCanceled then outcome else Err err), w)
      | (None, w) => Some (outcome, w)
      end
  end.

(** Claim failures that only mean another executor was faster or a timer is not due. *)
Definition passed_over (err : rerror) : bool :=
  error_is err ErrConflict || error_is err ErrNotReady || error_is err ErrTimerNotReady ||
  error_is err ErrLeaseHeld.

Definition commit_request (claim : Lease) (next : Snapshot) (w : W) : CommitRequest * W :=
  let request expiresAt :=
    mkCommitRequest (s_revision (l_Snapshot claim)) (s_fence (l_Snapshot claim)) (l_OwnerID claim)
      expiresAt next in
  if Status_Terminal (s_status next) then
    let '(now, w) := w_now w in (request (now + wr_terminalRetention wr), w)
  else (request 0, w).

(** One claimed parent: [None] when the batch goes on, or the error that ends [RunOnce].  A
    claimed snapshot without workflow state would be a nil dereference in the code. *)
Definition drive (claim : Lease) (readyAt : time) (w : W) : option (option rerror * W) :=
  match s_workflow (l_Snapshot claim) with
  | None => None
  | Some state =>
      match reconcileWithHeartbeat (l_Snapshot claim) state readyAt w with
      | None => None
      | Some (Err err, w) => Some (Some err, release claim w)
      | Some (Ok next, w) =>
          let '(request, w) := commit_request claim next w in
          match ls_Transition Caller request w with
          | (Err err, w) => Some (Some err, release claim w)
          | (Ok _, w) => Some (None, w)
          end
      end
  end.

Fixpoint run_batch (ready : list Snapshot) (processed : Z) (w : W) : option ((Z * option rerror) * W) :=
  match ready with
  | [] => Some ((processed, None), w)
  | candidate :: ready =>
      if wr_batchSize wr <=? processed then Some ((processed, None), w)
      else match s_workflow candidate with
      | None => run_batch ready processed w
      | Some _ =>
          match w_cause Caller w with
          | (Some cause, w) => Some ((processed, Some cause), w)
          | (None, w) =>
              match ls_Claim Caller (mkClaimRequest (s_callID candidate) (s_revision candidate)
                      (wr_executorID wr) (wr_leaseDuration wr)) w with
              | (Err err, w) =>
                  if passed_over err then run_batch ready processed w
                  else Some ((processed, Some err), w)
              | (Ok claim, w) =>
                  match drive claim (s_readyAt candidate) w with
                  | None => None
                  | Some (Some err, w) => Some ((processed + 1, Some err), w)
                  | Some (None, w) => run_batch ready (processed + 1) w
                  end
              end
          end
      end
  end.

Definition RunOnce (w : W) : option ((Z * option rerror) * W) :=
  match w_cause Caller w with
  | (Some cause, w) => Some ((0, Some cause), w)
  | (None, w) =>
      match ls_ListReady Caller maxWorkflowReadyScan w with
      | (Err err, w) => Some ((0, Some err), w)
      | (Ok ready, w) => run_batch ready 0 w
      end
  end.

(** [Run] for at most [fuel] polls; [None] while it is still polling. *)
Fixpoint Run (fuel : nat) (w : W) : option (option rerror * W) :=
  match fuel with
  | O => None
  | S fuel =>
      match w_cause Caller w with
      | (Some cause, w) => Some (Some cause, w)
      | (None, w) =>
          match RunOnce w with
          | None => None
          | Some ((_, Some err), w) => Some (Some err, w)
          | Some ((_, None), w) =>
              match w_wait w with
              | (true, w) => Run fuel w
              | (false, w) => Some (w_cause Caller w)
              end
          end
      end
  end.
End workflow_runtime.
