(* ===== verification/WorkflowSpec.v ===== *)
(** * programmable/continuation: correctness of workflow reconciliation

    A workflow parent is reconciled over and over: claimed, driven as far as it goes, and
    suspended or finished.  The theorems here are about one reconciliation started from any
    state such a history can be in ([live]); it leaves such a state again, so they chain. *)
From S2P Require Import Prelude GoText GoJson Sha256 ContModel ContState ContWorkflow ContStore Registry.
From S2P Require Import Runtime WorkflowRuntime.
Open Scope Z_scope.

(** ** Size of a child frame *)
Lemma child_payload_length nodeID childID status :
  validIdentity nodeID = true → validIdentity childID = true → Status_Terminal status = true →
  slen (child_payload nodeID childID status) ≤ maxPayloadBytes.
Proof.
  intros [_ Hn]%valid_text_length [_ Hc]%valid_text_length Hs. unfold child_payload.
  unfold slen at 1. rewrite length_string_of_bytes.
  pose proof (json_field_length "node_id" (json_string nodeID)) as H1.
  pose proof (json_field_length "child_id" (json_string childID)) as H2.
  pose proof (json_field_length "status" (json_string (Status_string status))) as H3.
  pose proof (json_string_length nodeID). pose proof (json_string_length childID).
  pose proof (json_string_length (Status_string status)).
  assert (slen (Status_string status) ≤ 20) by (by destruct status; vm_compute).
  unfold json_object, json_join. unfold zlen in *. cbn [length].
  repeat (rewrite length_app; cbn [length]).
  change (slen "node_id") with 7 in *. change (slen "child_id") with 8 in *.
  change (slen "status") with 6 in *.
  unfold maxPayloadBytes, maxIdentityBytes in *. lia.
Qed.

Lemma child_frame nodeID childID status :
  validIdentity nodeID = true → validIdentity childID = true → Status_Terminal status = true →
  ∃ f, NewFrame FrameWorkflowChild (child_payload nodeID childID status) = Ok f ∧
    frame_accepted f = true.
Proof.
  intros Hn Hc Hs. pose proof (child_payload_length _ _ _ Hn Hc Hs) as Hl. unfold NewFrame.
  rewrite (proj2 (Z.ltb_ge _ _) Hl). cbn [negb orb FrameKind_valid]. eexists. split; [done|].
  unfold frame_accepted. cbn [f_payload f_kind f_sequence]. by rewrite (proj2 (Z.leb_le _ _) Hl).
Qed.

(** ** Progress of one node *)

(** The durable checks on one node. *)
Record node_ok (id : string) (node : workflowNodeState) : Prop := mk_node_ok {
  no_id : id = n_ID node;
  no_identity : validIdentity id = true;
  no_kind : WorkflowNodeKind_valid (n_Kind node) = true;
  no_status : WorkflowNodeStatus_valid (n_Status node) = true;
  no_attempt : n_Attempt node ≤ maxWorkflowAttempt;
  no_class_size : slen (n_FailureClass node) ≤ maxWorkflowFailureSize;
  no_class : n_FailureClass node = "" ∨ validIdentity (n_FailureClass node) = true;
  no_ready : n_ReadyAt node = 0 ∨ n_ReadyAt node = normalizeReadyAt (n_ReadyAt node);
  no_child : n_ChildCallID node = "" ∨ validIdentity (n_ChildCallID node) = true;
  no_ready_timer : n_Kind node = WorkflowNodeTimer ∨ n_ReadyAt node = 0;
  no_child_child : n_Kind node = WorkflowNodeChild ∨ n_ChildCallID node = "";
  no_wait_timer : n_Status node = WorkflowNodeWaiting → n_Kind node = WorkflowNodeTimer → n_ReadyAt node ≠ 0;
  no_wait_child : n_Status node = WorkflowNodeWaiting → n_Kind node = WorkflowNodeChild → n_ChildCallID node ≠ "";
  no_failed : n_Status node = WorkflowNodeFailed ∨ n_FailureClass node = ""
}.

Lemma invalid_node_spec id node : invalid_node id node = false ↔ node_ok id node.
Proof.
  unfold invalid_node, IsZero. rewrite !orb_false_iff, !andb_false_iff, !negb_false_iff.
  rewrite !bool_decide_eq_true, !bool_decide_eq_false, !Z.eqb_eq, !Z.eqb_neq, !Z.ltb_ge. split.
  - intros H. destruct_and!. constructor; try done; intros; naive_solver.
  - intros []. split_and!; try done.
    + destruct (decide (n_Status node = WorkflowNodeWaiting)), (decide (n_Kind node = WorkflowNodeTimer)); auto.
    + destruct (decide (n_Status node = WorkflowNodeWaiting)), (decide (n_Kind node = WorkflowNodeChild)); auto.
Qed.

(** What a reconciliation leaves of the node of [n]. *)
Record node_live (n : WorkflowNodeSpec) (node : workflowNodeState) : Prop := mk_node_live {
  nl_ok : node_ok (ws_ID n) node;
  nl_kind : n_Kind node = ws_Kind n;
  nl_attempt : 0 ≤ n_Attempt node ≤ 1;
  nl_pending : n_Status node = WorkflowNodePending → node = pending_node n;
  nl_waiting : n_Status node = WorkflowNodeWaiting →
    ws_Kind n = WorkflowNodeTimer ∨ ws_Kind n = WorkflowNodeChild;
  nl_status : n_Status node ∈ [WorkflowNodePending; WorkflowNodeWaiting;
                               WorkflowNodeSucceeded; WorkflowNodeFailed]
}.

(** How a node may differ from an earlier state of itself. *)
Record node_adv (a b : workflowNodeState) : Prop := mk_node_adv {
  na_ID : n_ID b = n_ID a;
  na_Kind : n_Kind b = n_Kind a;
  na_Attempt : n_Attempt a ≤ n_Attempt b;
  na_Child : n_ChildCallID a ≠ "" → n_ChildCallID b = n_ChildCallID a;
  na_Ready : n_ReadyAt a ≠ 0 → n_ReadyAt b = n_ReadyAt a;
  na_Status : allowedWorkflowNodeTransition (n_Status a) (n_Status b) = true
}.

Lemma allowed_refl s : WorkflowNodeStatus_valid s = true → allowedWorkflowNodeTransition s s = true.
Proof. by destruct s. Qed.

Lemma allowed_trans s1 s2 s3 :
  allowedWorkflowNodeTransition s1 s2 = true → allowedWorkflowNodeTransition s2 s3 = true →
  allowedWorkflowNodeTransition s1 s3 = true.
Proof. destruct s1, s2; cbn; try done; by destruct s3. Qed.

Lemma node_live_cases n node : node_live n node →
  n_Status node = WorkflowNodePending ∨ n_Status node = WorkflowNodeWaiting ∨
  n_Status node = WorkflowNodeSucceeded ∨ n_Status node = WorkflowNodeFailed.
Proof. intros [_ _ _ _ _ Hs]. rewrite !elem_of_cons, elem_of_nil in Hs. tauto. Qed.

Lemma node_live_status_valid n node : node_live n node → WorkflowNodeStatus_valid (n_Status node) = true.
Proof. intros H. by destruct (node_live_cases _ _ H) as [->|[->|[->| ->]]]. Qed.

Lemma node_adv_refl n a : node_live n a → node_adv a a.
Proof. intros H. constructor; try done. by apply allowed_refl, (node_live_status_valid n). Qed.

Lemma node_adv_trans a b c : node_adv a b → node_adv b c → node_adv a c.
Proof.
  intros [H1 H2 H3 H4 H5 H6] [K1 K2 K3 K4 K5 K6]. constructor; try congruence; [lia|..].
  - intros Ha. rewrite K4; [by apply H4|]. by rewrite H4.
  - intros Ha. rewrite K5; [by apply H5|]. by rewrite H5.
  - by eapply allowed_trans.
Qed.

Lemma pending_node_live n : node_checked n → node_live n (pending_node n).
Proof.
  intros Hck. constructor; cbn; try done; [|set_solver].
  constructor; cbn; try done; try (by left); try (by right); apply Hck.
Qed.

(** A live node ends: succeeded without, or failed with a well-formed failure class. *)
Definition failure_ok (status : WorkflowNodeStatus) (class : string) : Prop :=
  (status = WorkflowNodeSucceeded ∧ class = "") ∨
  (status = WorkflowNodeFailed ∧ slen class ≤ maxWorkflowFailureSize ∧
   (class = "" ∨ validIdentity class = true)).

Definition finished (attempt : Z) (status : WorkflowNodeStatus) (class : string)
    (a : workflowNodeState) : workflowNodeState :=
  mkNodeState (n_ID a) (n_Kind a) status attempt (n_ChildCallID a) (n_ReadyAt a) class.

Lemma finished_live n a attempt status class :
  node_live n a → WorkflowNodeStatus_Terminal (n_Status a) = false →
  n_Attempt a ≤ attempt ≤ 1 → failure_ok status class →
  node_live n (finished attempt status class a) ∧ node_adv a (finished attempt status class a).
Proof.
  intros Hl Ht Hat Hf. pose proof (nl_attempt _ _ Hl). 
  assert (Hst : status = WorkflowNodeSucceeded ∨ status = WorkflowNodeFailed).
  { destruct Hf as [[-> _]|[-> _]]; auto. }
  assert (Hall : allowedWorkflowNodeTransition (n_Status a) status = true).
  { destruct (node_live_cases _ _ Hl) as [E|[E|[E|E]]]; rewrite E in *; try done;
      by destruct Hst as [-> | ->]. }
  split; [|by constructor; cbn; done || lia].
  constructor; cbn; try done; try (destruct Hst; congruence); [|apply Hl|..].
  - destruct (nl_ok _ _ Hl). constructor; cbn; try done; try (destruct Hst; congruence).
    + by destruct Hst as [-> | ->].
    + unfold maxWorkflowAttempt. lia.
    + destruct Hf as [[_ ->]|(_ & ? & _)]; [done|lia].
    + destruct Hf as [[_ ->]|(_ & _ & ?)]; auto.
    + destruct Hf as [[_ ->]|[-> _]]; auto.
  - lia.
  - destruct Hst as [-> | ->]; set_solver.
Qed.

(** A pending timer or child starts to wait. *)
Lemma waiting_live n child ready :
  node_checked n →
  (ws_Kind n = WorkflowNodeTimer ∧ child = "" ∧ ready ≠ 0 ∧ ready = normalizeReadyAt ready) ∨
  (ws_Kind n = WorkflowNodeChild ∧ validIdentity child = true ∧ ready = 0) →
  let b := mkNodeState (ws_ID n) (ws_Kind n) WorkflowNodeWaiting 1 child ready "" in
  node_live n b ∧ node_adv (pending_node n) b.
Proof.
  intros Hck Hb b. split; [|by constructor].
  constructor; cbn; try done; [|tauto|set_solver].
  constructor; cbn; try done; try (by left); try (by right); try apply Hck.
  - destruct Hb as [(_ & _ & _ & ?)|(_ & _ & ?)]; auto.
  - destruct Hb as [(_ & -> & _)|(_ & ? & _)]; auto.
  - destruct Hb as [(? & _)|(_ & _ & ?)]; auto.
  - destruct Hb as [(_ & -> & _)|(? & _)]; auto.
  - destruct Hb as [(_ & _ & ? & _)|(? & _)]; [done|congruence].
  - destruct Hb as [(? & _)|(_ & Hv%valid_text_nonempty & _)]; [congruence|done].
Qed.

Lemma fire_timer_live n wake a :
  node_live n a → node_live n (fire_timer wake a) ∧ node_adv a (fire_timer wake a).
Proof.
  intros Hl. unfold fire_timer. destruct (_ && _) eqn:E; [|eauto using node_adv_refl].
  bool_hyps. destruct (nl_ok _ _ Hl) as [_ _ _ _ _ _ _ _ _ _ _ _ _ [Hf|Hc]]; [congruence|].
  pose proof (nl_attempt _ _ Hl) as Ha.
  replace (with_node_status _ a) with (finished (n_Attempt a) WorkflowNodeSucceeded "" a)
    by (unfold finished, with_node_status; by rewrite Hc).
  apply finished_live; [done| |lia|by left]. match goal with H : n_Status a = _ |- _ => by rewrite H end.
Qed.

Lemma child_node_live n status a :
  node_live n a → n_Status a = WorkflowNodeWaiting →
  node_live n (child_node status a) ∧ node_adv a (child_node status a).
Proof.
  intros Hl Hw. destruct (nl_ok _ _ Hl) as [_ _ _ _ _ _ _ _ _ _ _ _ _ [Hf|Hc]]; [congruence|].
  pose proof (nl_attempt _ _ Hl) as Ha. unfold child_node. case_match.
  - replace (with_node_status _ a) with (finished (n_Attempt a) WorkflowNodeSucceeded "" a)
      by (unfold finished, with_node_status; by rewrite Hc).
    apply finished_live; [done|by rewrite Hw|lia|by left].
  - apply (finished_live n a (n_Attempt a) WorkflowNodeFailed "CHILD_TERMINAL_FAILURE");
      [done|by rewrite Hw|lia|]. right. by split_and!; [| |right; vm_compute].
Qed.

(** A finished call skips what is left. *)
Lemma skip_node_adv n a b :
  node_live n b → node_adv a b → node_ok (ws_ID n) (skip_node b) ∧ node_adv a (skip_node b) ∧
    WorkflowNodeStatus_Terminal (n_Status (skip_node b)) = true.
Proof.
  intros Hl Hab. pose proof (nl_ok _ _ Hl) as Hok. unfold skip_node.
  destruct (WorkflowNodeStatus_Terminal (n_Status b)) eqn:Ht; [done|]. split_and!; [| |done].
  - destruct Hok. constructor; cbn; try done. right.
    destruct no_failed0 as [E|]; [by rewrite E in Ht|done].
  - eapply node_adv_trans; [done|]. constructor; cbn; try done.
    destruct (node_live_cases _ _ Hl) as [E|[E|[E|E]]]; by rewrite E in *.
Qed.

(** ** Progress of the durable state *)
Record live (d : WorkflowDefinition) (state : workflowSnapshotState) : Prop := mk_live {
  lv_valid : validateWorkflowState (Some state) = None;
  lv_version : w_Version state = wf_version d;
  lv_fingerprint : w_Fingerprint state = wf_fingerprint d;
  lv_started : 0 < w_StartedAt state;
  lv_size : map_len (w_Nodes state) = zlen (wf_nodes d);
  lv_dom : ∀ id node, w_Nodes state !! id = Some node → ∃ n, n ∈ wf_nodes d ∧ id = ws_ID n;
  lv_nodes : ∀ n, n ∈ wf_nodes d → ∃ node, w_Nodes state !! ws_ID n = Some node ∧ node_live n node
}.

Record state_adv (s s' : workflowSnapshotState) : Prop := mk_state_adv {
  sa_version : w_Version s' = w_Version s;
  sa_fingerprint : w_Fingerprint s' = w_Fingerprint s;
  sa_started : w_StartedAt s' = w_StartedAt s;
  sa_size : map_len (w_Nodes s') = map_len (w_Nodes s);
  sa_nodes : ∀ id a, w_Nodes s !! id = Some a → ∃ b, w_Nodes s' !! id = Some b ∧ node_adv a b
}.

Lemma live_node d s n node :
  live d s → n ∈ wf_nodes d → w_Nodes s !! ws_ID n = Some node → node_live n node.
Proof. intros Hl Hn E. destruct (lv_nodes _ _ Hl n Hn) as (x & E' & Hx). by simplify_eq. Qed.

Lemma state_adv_refl d s : live d s → state_adv s s.
Proof.
  intros Hl. constructor; [done..|]. intros id a Ha. exists a. split; [done|].
  destruct (lv_dom _ _ Hl id a Ha) as (n & Hn & ->). by eapply node_adv_refl, live_node.
Qed.

Lemma state_adv_trans s1 s2 s3 : state_adv s1 s2 → state_adv s2 s3 → state_adv s1 s3.
Proof.
  intros [H1 H2 H3 H4 H5] [K1 K2 K3 K4 K5]. constructor; [congruence..|].
  intros id a (b & Hb & Hab)%H5. destruct (K5 id b Hb) as (c & Hc & Hbc).
  exists c. split; [done|]. by eapply node_adv_trans.
Qed.

Lemma validate_set_nodes s nodes :
  validateWorkflowState (Some s) = None → map_len nodes = map_len (w_Nodes s) →
  (∀ id node, nodes !! id = Some node → node_ok id node) →
  validateWorkflowState (Some (set_nodes nodes s)) = None.
Proof.
  unfold validateWorkflowState. cbn [set_nodes w_Version w_Fingerprint w_StartedAt w_Nodes].
  intros Hv Hsize Hok. rewrite Hsize. destruct (_ || _); [done|]. destruct (negb _); [done|].
  destruct (map_forallb _ (w_Nodes s)); [|done]. rewrite (proj2 (map_forallb_spec _ _)); [done|].
  intros id node Hid. apply negb_true_iff, invalid_node_spec. by apply Hok.
Qed.

(** A new set of nodes over the same identities, each of which progressed. *)
Lemma live_set_nodes d s nodes :
  live d s → dom nodes = dom (w_Nodes s) →
  (∀ n a, n ∈ wf_nodes d → w_Nodes s !! ws_ID n = Some a →
     ∃ b, nodes !! ws_ID n = Some b ∧ node_live n b ∧ node_adv a b) →
  live d (set_nodes nodes s) ∧ state_adv s (set_nodes nodes s).
Proof.
  intros Hl Hdom Hstep.
  assert (Hsize : map_len nodes = map_len (w_Nodes s)).
  { unfold map_len. by rewrite <- !size_dom, Hdom. }
  assert (Hback : ∀ id b, nodes !! id = Some b → ∃ a, w_Nodes s !! id = Some a).
  { intros id b Hb. apply elem_of_dom_2 in Hb. rewrite Hdom in Hb. by apply elem_of_dom. }
  split.
  - constructor; cbn [set_nodes w_Version w_Fingerprint w_StartedAt w_Nodes]; try apply Hl.
    + apply validate_set_nodes; [apply Hl|done|]. intros id b Hb. destruct (Hback id b Hb) as [a Ha].
      destruct (lv_dom _ _ Hl id a Ha) as (n & Hn & ->).
      destruct (Hstep n a Hn Ha) as (b' & Hb' & Hlive & _). simplify_eq. apply Hlive.
    + rewrite Hsize. apply Hl.
    + intros id b Hb. destruct (Hback id b Hb) as [a Ha]. by eapply lv_dom.
    + intros n Hn. destruct (lv_nodes _ _ Hl n Hn) as (a & Ha & _).
      destruct (Hstep n a Hn Ha) as (b & Hb & Hlive & _). eauto.
  - constructor; cbn [set_nodes w_Version w_Fingerprint w_StartedAt w_Nodes]; [done..|].
    intros id a Ha. destruct (lv_dom _ _ Hl id a Ha) as (n & Hn & ->).
    destruct (Hstep n a Hn Ha) as (b & Hb & _ & Hab). eauto.
Qed.

Lemma live_put d k n a b :
  NoDup (ws_ID <$> wf_nodes d) → live d (wk_state k) → n ∈ wf_nodes d →
  w_Nodes (wk_state k) !! ws_ID n = Some a → node_live n b → node_adv a b →
  live d (wk_state (put_node (ws_ID n) b k)) ∧
  state_adv (wk_state k) (wk_state (put_node (ws_ID n) b k)).
Proof.
  intros Hnd Hl Hn Ha Hb Hab. apply live_set_nodes; [done| |].
  - rewrite dom_insert_L. apply elem_of_dom_2 in Ha. set_solver.
  - intros m x Hm Hx. destruct (decide (ws_ID m = ws_ID n)) as [E|E].
    + rewrite E in Hx |- *. simplify_eq. exists b. rewrite lookup_insert_eq. split_and!; [done| |done].
      by rewrite (node_by_id (wf_nodes d) Hnd m n Hm Hn E).
    + exists x. rewrite lookup_insert_ne by done. split_and!; [done| |].
      * by eapply live_node. * by eapply node_adv_refl, live_node.
Qed.

Lemma live_fire d wake k :
  live d (wk_state k) →
  live d (wk_state (fire_timers wake k)) ∧ state_adv (wk_state k) (wk_state (fire_timers wake k)).
Proof.
  intros Hl. apply live_set_nodes; [done|by rewrite dom_fmap_L|].
  intros n a Hn Ha. exists (fire_timer wake a). rewrite lookup_fmap, Ha. split; [done|].
  by apply fire_timer_live, (live_node d (wk_state k)).
Qed.

(** Skipping what is left keeps the state durable, as a successor of where the call began. *)
Lemma skip_successor d s s' :
  live d s' → state_adv s s' →
  validateWorkflowState (Some (skipNonTerminalWorkflowNodes s')) = None ∧
  state_adv s (skipNonTerminalWorkflowNodes s').
Proof.
  intros Hl Hs.
  assert (Hskip : ∀ id b, w_Nodes s' !! id = Some b → ∃ n, n ∈ wf_nodes d ∧ id = ws_ID n ∧ node_live n b).
  { intros id b Hb. destruct (lv_dom _ _ Hl id b Hb) as (n & Hn & ->). eauto using live_node. }
  assert (Hsize : map_len (skip_node <$> w_Nodes s') = map_len (w_Nodes s')).
  { unfold map_len. by rewrite map_size_fmap. }
  split.
  - apply (validate_set_nodes s'); [apply Hl|done|]. intros id c.
    rewrite lookup_fmap, fmap_Some. intros (b & Hb & ->). destruct (Hskip id b Hb) as (n & Hn & -> & Hb').
    by destruct (skip_node_adv n b b Hb' (node_adv_refl n b Hb')).
  - destruct Hs as [H1 H2 H3 H4 H5].
    constructor; cbn [skipNonTerminalWorkflowNodes w_Version w_Fingerprint w_StartedAt w_Nodes];
      [done..|congruence|].
    intros id a (b & Hb & Hab)%H5. destruct (Hskip id b Hb) as (n & Hn & -> & Hb').
    exists (skip_node b). rewrite lookup_fmap, Hb. split; [done|]. by apply (skip_node_adv n a b).
Qed.

(** ** The transition that ends a reconciliation is accepted *)
Lemma successor_ok s s' :
  validateWorkflowState (Some s) = None → validateWorkflowState (Some s') = None → state_adv s s' →
  (∀ id a, w_Nodes s !! id = Some a → 0 ≤ n_Attempt a ≤ 1) →
  (∀ id b, w_Nodes s' !! id = Some b → n_Attempt b ≤ 1) →
  validateWorkflowSuccessor (Some s) s' = None.
Proof.
  intros Hv Hv' [H1 H2 H3 H4 H5] Ha Hb. unfold validateWorkflowSuccessor.
  rewrite Hv, Hv', H1, H2, H3, H4, !Z.eqb_refl, !bool_decide_true by done. cbn [negb orb].
  rewrite (proj2 (map_forallb_spec _ _)); [done|]. intros id a Hid. apply negb_true_iff.
  destruct (H5 id a Hid) as (b & Hb' & [K1 K2 K3 K4 K5 K6]). unfold invalid_successor_node, IsZero.
  rewrite Hb'. specialize (Ha id a Hid). specialize (Hb id b Hb').
  rewrite u32_add_small by (unfold max_u32; lia).
  rewrite !orb_false_iff, !andb_false_iff, !negb_false_iff, !bool_decide_eq_true, !Z.ltb_ge, !Z.eqb_eq.
  split_and!; try done; try lia.
  destruct (decide (n_ChildCallID a = "")) as [|E]; [auto|]. right. by apply K4.
Qed.

Definition moved (c : Snapshot) (status : Status) (s' : workflowSnapshotState) (ready : time)
    (frames : list Frame) : Snapshot :=
  mkSnapshot (s_callID c) (s_operation c) status (if status == StatusSuspended then ready else 0)
    (s_revision c + 1) (s_fence c) (s_sequence c + zlen frames) (s_frameFloor c)
    (s_frames c ++ number_frames (s_sequence c) frames) (s_commands c) (Some s').

Lemma Apply_workflow c s s' status ready frames :
  snapshot_u64 c → validateSnapshot c = None → s_workflow c = Some s →
  validateWorkflowSuccessor (Some s) s' = None →
  allowedTransition (s_status c) status commandNone = true → status ≠ StatusRunning →
  s_revision c ≠ max_u64 → s_sequence c + zlen frames ≤ max_u64 →
  forallb frame_accepted frames = true → normalizeReadyAt ready = ready →
  Apply c (moveWorkflow status (s_fence c) s' ready frames) = Ok (moved c status s' ready frames).
Proof.
  intros Hu Hv Hw Hsucc Hal Hrun Hrev Hseq Hfr Hready.
  assert (Hst : Status_valid status = true ∧ Status_Terminal (s_status c) = false).
  { destruct (s_status c), status; done. }
  destruct Hst as [Hsv Hlive]. unfold Apply. rewrite Hv. cbn [moveWorkflow t_status t_timer t_readyAt
    t_workflow t_command]. rewrite Hsv, Hw, Hsucc, Hready. cbn [negb].
  assert (Htimer : ∀ b : bool, (b && negb (IsZero ready) && IsZero (if b && negb (IsZero ready) then ready else 0))
     || (negb (IsZero (if b && negb (IsZero ready) then ready else 0)) && negb b) = false).
  { intros []; unfold IsZero; by destruct (Z.eqb_spec ready 0) as [->|E]; cbn; rewrite ?(proj2 (Z.eqb_neq _ _) E). }
  rewrite Htimer, bool_decide_true by done. cbn [negb]. apply apply_fresh_spec; [done|].
  constructor; cbn; try done. unfold moved. rewrite Hready. f_equal; [|by case_match].
  case_bool_decide; [|done]. cbn. unfold IsZero. by destruct (Z.eqb_spec ready 0) as [->|].
Qed.

(** ** Counting nodes by status *)
Definition tally (f : WorkflowNodeStatus → bool) (d : WorkflowDefinition) (s : workflowSnapshotState) : Z :=
  count_status f ((λ n, node_status s (ws_ID n)) <$> wf_nodes d).

Definition open_status (st : WorkflowNodeStatus) : bool := negb (WorkflowNodeStatus_Terminal st).
Definition pending_status (st : WorkflowNodeStatus) : bool := st == WorkflowNodePending.

Lemma count_status_cons f st states :
  count_status f (st :: states) = (if f st then 1 else 0) + count_status f states.
Proof. unfold count_status. cbn [List.filter]. case_match; rewrite ?zlen_cons; lia. Qed.

Lemma count_status_pointwise {A} f (g h : A → WorkflowNodeStatus) l :
  (∀ x, x ∈ l → f (h x) = true → f (g x) = true) →
  count_status f (h <$> l) ≤ count_status f (g <$> l) ∧
  ((∃ x, x ∈ l ∧ f (g x) = true ∧ f (h x) = false) →
   count_status f (h <$> l) < count_status f (g <$> l)).
Proof.
  induction l as [|x l IH]; intros H; [split; [done|]; intros (? & ?%elem_of_nil & _); done|].
  destruct IH as [IH1 IH2]; [set_solver|]. rewrite !fmap_cons, !count_status_cons.
  pose proof (H x ltac:(set_solver)) as Hx. split.
  - destruct (f (h x)), (f (g x)); lia || naive_solver.
  - intros (y & [->|Hy]%elem_of_cons & Hg & Hh).
    + rewrite Hg, Hh. lia.
    + specialize (IH2 ltac:(eauto)). destruct (f (h x)), (f (g x)); lia || naive_solver.
Qed.

Lemma tally_adv f d s s' :
  (∀ x y, allowedWorkflowNodeTransition x y = true → f y = true → f x = true) →
  live d s → state_adv s s' →
  tally f d s' ≤ tally f d s ∧
  ((∃ n, n ∈ wf_nodes d ∧ f (node_status s (ws_ID n)) = true ∧ f (node_status s' (ws_ID n)) = false) →
   tally f d s' < tally f d s).
Proof.
  intros Hf Hl Hs.
  apply (count_status_pointwise f (λ n, node_status s (ws_ID n)) (λ n, node_status s' (ws_ID n))).
  intros n Hn. destruct (lv_nodes _ _ Hl n Hn) as (a & Ha & _).
  destruct (sa_nodes _ _ Hs _ _ Ha) as (b & Hb & Hab). unfold node_status. rewrite Ha, Hb.
  by apply Hf, Hab.
Qed.

Lemma open_back x y :
  allowedWorkflowNodeTransition x y = true → open_status y = true → open_status x = true.
Proof. by destruct x, y. Qed.

Lemma pending_back x y :
  allowedWorkflowNodeTransition x y = true → pending_status y = true → pending_status x = true.
Proof. by destruct x, y. Qed.

Lemma tally_bounds f d s : 0 ≤ tally f d s ≤ zlen (wf_nodes d).
Proof.
  unfold tally. pose proof (count_status_le f ((λ n, node_status s (ws_ID n)) <$> wf_nodes d)) as H.
  unfold zlen in *. by rewrite length_fmap in H.
Qed.

(** ** Progress of a reconciliation *)
Record work_ok (d : WorkflowDefinition) (k : work) : Prop := mk_work_ok {
  wo_live : live d (wk_state k);
  wo_frames : forallb frame_accepted (wk_frames k) = true;
  wo_room : zlen (wk_frames k) + tally open_status d (wk_state k) ≤ zlen (wf_nodes d)
}.

Definition work_step (d : WorkflowDefinition) (k k' : work) : Prop :=
  work_ok d k' ∧ state_adv (wk_state k) (wk_state k').

Lemma work_step_refl d k : work_ok d k → work_step d k k.
Proof. intros H. split; [done|]. by eapply state_adv_refl, H. Qed.

Lemma work_step_trans d k1 k2 k3 : work_step d k1 k2 → work_step d k2 k3 → work_step d k1 k3.
Proof. intros [_ H] [H2 H3]. split; [done|]. by eapply state_adv_trans. Qed.

(** A change of the durable state alone. *)
Lemma work_step_state d k k' :
  work_ok d k → live d (wk_state k') → state_adv (wk_state k) (wk_state k') →
  wk_frames k' = wk_frames k → work_step d k k'.
Proof.
  intros [Hl Hf Hr] Hl' Hs Hk. split; [|done]. constructor; rewrite ?Hk; [done..|].
  destruct (tally_adv _ _ _ _ open_back Hl Hs). lia.
Qed.

Lemma work_step_fire d wake k : work_ok d k → work_step d k (fire_timers wake k).
Proof. intros Hk. destruct (live_fire d wake k (wo_live _ _ Hk)). by apply work_step_state. Qed.

Section reconciliation.
  Context {W : Type} `{Environment W, LeaseStore W, MapOrder W}.
  Context (wr : WorkflowRuntime W) (spec : WorkflowDefinitionSpec) (d : WorkflowDefinition).
  Context (Hd : definition_ok spec d).

(** Why a reconciliation of [d] may fail: a handler or the child runtime is missing, a handler
    returned a malformed result, or the child runtime failed. *)
Inductive reconcile_error : rerror → Prop :=
| no_handler n :
    n ∈ wf_nodes d → ws_Kind n = WorkflowNodeMachine →
    (∀ h, wr_handlers wr !! ws_Operation n ≠ Some (Some h)) →
    reconcile_error (Plain ErrWorkflowHandlerNotFound)
| no_children n :
    n ∈ wf_nodes d → ws_Kind n = WorkflowNodeChild → wr_children wr = None →
    reconcile_error (Plain ErrWorkflowHandlerNotFound)
| bad_result n h x w r w' :
    n ∈ wf_nodes d → ws_Kind n = WorkflowNodeMachine →
    wr_handlers wr !! ws_Operation n = Some (Some h) → h x w = (Ok r, w') →
    validateWorkflowNodeResult r ≠ None →
    reconcile_error (Plain ErrInvalidWorkflow)
| start_failed n children child w err w' :
    n ∈ wf_nodes d → ws_Kind n = WorkflowNodeChild → wr_children wr = Some children →
    ch_StartCall children child (ws_Operation n) "" w = (Err err, w') →
    error_is err ErrAlreadyExists = false →
    reconcile_error (Wrap "continuation: start child" err)
| attach_failed n children child w err w' :
    n ∈ wf_nodes d → ws_Kind n = WorkflowNodeChild → wr_children wr = Some children →
    ch_Attach children child 0 1 w = (Err err, w') → error_is err ErrNotFound = false →
    reconcile_error (Wrap "continuation: attach child" err).

(** The node of [n] moved on and no other node changed. *)
Definition only_node (n : WorkflowNodeSpec) (k k' : work) : Prop :=
  (∀ id, id ≠ ws_ID n → w_Nodes (wk_state k') !! id = w_Nodes (wk_state k) !! id) ∧
  node_status (wk_state k') (ws_ID n) ≠ WorkflowNodePending.

Lemma get_node_lookup id a k : w_Nodes (wk_state k) !! id = Some a → get_node id k = a.
Proof. unfold get_node. by intros ->. Qed.

Lemma put_node_status id b k : node_status (wk_state (put_node id b k)) id = n_Status b.
Proof. unfold node_status. cbn. by rewrite lookup_insert_eq. Qed.

Lemma put_step n a b k :
  work_ok d k → n ∈ wf_nodes d → w_Nodes (wk_state k) !! ws_ID n = Some a →
  node_live n b ∧ node_adv a b → n_Status b ≠ WorkflowNodePending →
  work_step d k (put_node (ws_ID n) b k) ∧ only_node n k (put_node (ws_ID n) b k).
Proof.
  intros Hk Hn Ha [Hb Hab] Hp.
  destruct (live_put d k n a b (do_ids _ _ Hd) (wo_live _ _ Hk) Hn Ha Hb Hab) as [Hl Hs].
  split; [by apply work_step_state|]. split; [|by rewrite put_node_status].
  intros id Hid. cbn. by apply lookup_insert_ne.
Qed.

Lemma refreshChild_ok n a k w :
  work_ok d k → n ∈ wf_nodes d → w_Nodes (wk_state k) !! ws_ID n = Some a →
  ws_Kind n = WorkflowNodeChild → n_Status a = WorkflowNodeWaiting →
  match refreshChild wr (ws_ID n) k w with
  | (Some err, _, _) => reconcile_error err
  | (None, k', _) => work_step d k k' ∧ only_node n k k'
  end.
Proof.
  intros Hk Hn Ha Hkind Hw. pose proof (live_node _ _ _ _ (wo_live _ _ Hk) Hn Ha) as Hla.
  assert (Hsame : work_step d k k ∧ only_node n k k).
  { split; [by apply work_step_refl|]. split; [done|]. unfold node_status. by rewrite Ha, Hw. }
  unfold refreshChild. destruct (wr_children wr) as [children|] eqn:Hc; [|by eapply no_children].
  rewrite (get_node_lookup _ _ _ Ha).
  destruct (ch_Attach children (n_ChildCallID a) 0 1 w) as [[child|err] w'] eqn:Hat.
  2:{ destruct (error_is err ErrNotFound) eqn:He; [done|by eapply attach_failed]. }
  destruct (Status_Terminal (s_status child)) eqn:Ht; cbn [negb]; [|done].
  destruct (child_node_live n (s_status child) a Hla Hw) as [Hlb Hab].
  set (b := child_node (s_status child) a) in *.
  assert (Hfin : WorkflowNodeStatus_Terminal (n_Status b) = true).
  { unfold b, child_node. by case_match. }
  assert (Hcid : n_ChildCallID b = n_ChildCallID a).
  { unfold b, child_node. by case_match. }
  assert (Hp : n_Status b ≠ WorkflowNodePending) by (intros E; by rewrite E in Hfin).
  destruct (put_step n a b k Hk Hn Ha (conj Hlb Hab) Hp) as [[Hok Hadv] Honly].
  pose proof (nl_ok _ _ Hla) as Hnode.
  destruct (child_frame (ws_ID n) (n_ChildCallID b) (s_status child)) as (f & -> & Hf).
  { apply Hnode. } { rewrite Hcid. destruct (no_child _ _ Hnode) as [E|]; [|done]. exfalso.
    apply (no_wait_child _ _ Hnode Hw); [|done]. by rewrite (nl_kind _ _ Hla). } { done. }
  split; [|done]. split; [|done]. constructor; cbn [add_frame wk_state wk_frames].
  - apply Hok.
  - cbn. rewrite forallb_app, (wo_frames _ _ Hk). cbn. by rewrite Hf.
  - destruct (tally_adv _ _ _ _ open_back (wo_live _ _ Hk) Hadv) as [_ Hlt].
    assert (tally open_status d (wk_state (put_node (ws_ID n) b k)) < tally open_status d (wk_state k)).
    { apply Hlt. exists n. split; [done|]. rewrite put_node_status. unfold node_status. rewrite Ha, Hw.
      unfold open_status. by rewrite Hfin. }
    pose proof (wo_room _ _ Hk). cbn [put_node wk_frames]. unfold zlen in *. rewrite length_app. cbn [length]. cbn in *. lia.
Qed.

Lemma refresh_children_ok ids k w :
  work_ok d k →
  match refresh_children wr ids k w with
  | (Some err, _, _) => reconcile_error err
  | (None, k', _) => work_step d k k'
  end.
Proof.
  induction ids as [|id ids IH] in k, w |- *; intros Hk; cbn [refresh_children]; [by apply work_step_refl|].
  destruct (_ && _) eqn:E; [|by apply IH]. bool_hyps.
  destruct (w_Nodes (wk_state k) !! id) as [a|] eqn:Ha.
  2:{ unfold get_node in *. by rewrite Ha in *. }
  rewrite (get_node_lookup _ _ _ Ha) in *. destruct (lv_dom _ _ (wo_live _ _ Hk) id a Ha) as (n & Hn & ->).
  pose proof (live_node _ _ _ _ (wo_live _ _ Hk) Hn Ha) as Hla.
  pose proof (refreshChild_ok n a k w Hk Hn Ha) as Hr. rewrite (nl_kind _ _ Hla) in *.
  specialize (Hr ltac:(done) ltac:(done)). destruct (refreshChild wr (ws_ID n) k w) as [[[err|] k'] w']; [done|].
  destruct Hr as [Hstep _]. specialize (IH k' w' (proj1 Hstep)).
  destruct (refresh_children wr ids k' w') as [[[err|] k''] w'']; [done|]. by eapply work_step_trans.
Qed.

(** ** Commands the planner issues *)
Definition start_shape (n : WorkflowNodeSpec) (c : workflowCommand) : Prop :=
  match ws_Kind n with
  | WorkflowNodeTimer => c_readyAt c ≠ 0 ∧ c_readyAt c = normalizeReadyAt (c_readyAt c)
  | WorkflowNodeChild => validIdentity (c_childCallID c) = true
  | WorkflowNodeMachine => True
  | _ => False
  end.

Record planned (s : workflowSnapshotState) (n : WorkflowNodeSpec) (c : workflowCommand) : Prop := mk_planned {
  pl_node : n ∈ wf_nodes d;
  pl_id : c_nodeID c = ws_ID n;
  pl_pending : w_Nodes s !! ws_ID n = Some (pending_node n);
  pl_shape :
    match c_completeStatus c with
    | Some st => st = WorkflowNodeSucceeded ∨ st = WorkflowNodeFailed
    | None => c_kind c = ws_Kind n ∧ c_attempt c = 1 ∧ c_operation c = ws_Operation n ∧ start_shape n c
    end
}.

Lemma normalizeReadyAt_pos v : 0 < v → 0 < normalizeReadyAt v.
Proof.
  intros Hv. unfold normalizeReadyAt, IsZero, microsecond. rewrite (proj2 (Z.eqb_neq v 0)) by lia.
  pose proof (Z.div_pos v 1000). case_match; bool_hyps; lia.
Qed.

Lemma plan_node_planned s parent n cs :
  live d s → n ∈ wf_nodes d → validIdentity parent = true → plan_node s parent n = Ok cs →
  cs = [] ∨ ∃ c, cs = [c] ∧ planned s n c.
Proof.
  intros Hl Hn Hp. pose proof (do_checked _ _ Hd n Hn) as Hck.
  destruct (lv_nodes _ _ Hl n Hn) as (a & Ha & Hla). unfold plan_node. rewrite Ha.
  rewrite (bool_decide_true _ (nl_kind _ _ Hla)). cbn [negb].
  destruct (n_Status a == WorkflowNodePending) eqn:Hpend; cbn [negb]; [|by intros [= <-]; auto].
  bool_hyps. pose proof (nl_pending _ _ Hla Hpend) as ->. cbv zeta.
  set (deps := node_status s <$> ws_DependsOn n).
  assert (Hfin : ∀ st, st = WorkflowNodeSucceeded ∨ st = WorkflowNodeFailed →
    planned s n (mkCommand (ws_ID n) (ws_Kind n) "" 0 "" 0 (Some st))) by (by constructor).
  destruct (ws_Kind n == WorkflowNodeJoin) eqn:Hj; bool_hyps.
  { destruct (EvaluateWorkflowJoin (ws_Join n) deps) as [st terminal] eqn:Hev. intros [= <-].
    destruct terminal; [|auto]. right. eexists. split; [done|]. apply Hfin.
    revert Hev. unfold EvaluateWorkflowJoin. repeat case_match; intros; simplify_eq; auto. }
  destruct (_ && _); [intros [= <-]; right; eauto|]. destruct (_ && _ && _); [intros [= <-]; auto|].
  change (u32_add (n_Attempt (pending_node n)) 1) with 1.
  pose proof (nc_shape _ Hck) as Hsh. unfold validWorkflowNodeShape in Hsh.
  destruct (ws_Kind n) eqn:Hk; try done.
  - intros [= <-]. right. eexists. split; [done|]. constructor; cbn; try done.
    unfold start_shape. by rewrite Hk.
  - intros [= <-]. right. eexists. split; [done|]. constructor; cbn; try done.
    unfold start_shape. rewrite Hk. cbn. rewrite normalizeReadyAt_idem. bool_hyps.
    pose proof (lv_started _ _ Hl). pose proof (normalizeReadyAt_pos (w_StartedAt s + ws_Delay n)).
    split_and!; try done. lia.
  - destruct (DeriveChildCallID_Ok parent (ws_ID n) 1) as (id & -> & Hid); [done|apply Hck|done|].
    intros [= <-]. right. eexists. split; [done|]. constructor; cbn; try done.
    unfold start_shape. by rewrite Hk.
Qed.

Lemma plan_nodes_planned s parent specs cmds :
  live d s → (∀ n, n ∈ specs → n ∈ wf_nodes d) → NoDup (ws_ID <$> specs) → validIdentity parent = true →
  plan_nodes s parent specs = Ok cmds →
  (∀ c, c ∈ cmds → ∃ n, n ∈ specs ∧ planned s n c) ∧ NoDup (c_nodeID <$> cmds).
Proof.
  intros Hl Hsub Hnd Hp. induction specs as [|n specs IH] in cmds, Hsub, Hnd |- *; cbn [plan_nodes].
  { intros [= <-]. split; [set_solver|constructor]. }
  intros (cs & Hcs & (rest & Hrest & [= <-])%bind_Ok)%bind_Ok.
  rewrite fmap_cons, NoDup_cons in Hnd. destruct Hnd as [Hfresh Hnd].
  destruct (IH rest ltac:(set_solver) Hnd Hrest) as [IH1 IH2].
  destruct (plan_node_planned s parent n cs Hl ltac:(set_solver) Hp Hcs) as [->|(c & -> & Hc)].
  { split; [|done]. intros c Hc. destruct (IH1 c Hc) as (m & ? & ?). exists m. set_solver. }
  split.
  - intros x [->|Hx]%elem_of_cons; [exists n; set_solver|]. destruct (IH1 x Hx) as (m & ? & ?).
    exists m. set_solver.
  - cbn. rewrite NoDup_cons. split; [|done]. intros (x & Hx1 & Hx2)%list_elem_of_fmap.
    destruct (IH1 x Hx2) as (m & Hm & Hpm). apply Hfresh. rewrite <- (pl_id _ _ _ Hc), Hx1, (pl_id _ _ _ Hpm).
    by apply list_elem_of_fmap_2.
Qed.

Lemma only_node_trans n k1 k2 k3 : only_node n k1 k2 → only_node n k2 k3 → only_node n k1 k3.
Proof. intros [K1 _] [K2 K3]. split; [|done]. intros id Hid. by rewrite K2, K1. Qed.

Lemma handled_finished n outcome :
  node_checked n →
  match handled_node outcome (with_node_status WorkflowNodeRunning (with_node_attempt 1 (pending_node n))) with
  | Ok b => (∃ status class, b = finished 1 status class (pending_node n) ∧ failure_ok status class)
  | Err err => err = ErrInvalidWorkflow ∧ ∃ r, outcome = Ok r ∧ validateWorkflowNodeResult r ≠ None
  end.
Proof.
  intros Hck. destruct outcome as [[status class]|err]; cbn [handled_node].
  - case_bool_decide as Hv; cbn [negb].
    + exists status, class. split; [done|]. revert Hv. unfold validateWorkflowNodeResult. cbn.
      destruct (_ || _) eqn:E; [done|]. intros _. bool_hyps. unfold failure_ok.
      destruct (decide (status = WorkflowNodeSucceeded)) as [->|Hs].
      * left. split; [done|]. match goal with H : _ && _ = false |- _ => revert H end. cbn.
        by case_bool_decide.
      * right. split_and!; [|lia|].
        -- match goal with H : (status != _) && _ = false |- _ => rewrite bool_decide_false in H by done; cbn in H end.
           by bool_hyps.
        -- destruct (decide (class = "")) as [|Hc]; [by left|right].
           match goal with H : (class != "") && _ = false |- _ => rewrite bool_decide_false in H by done; cbn in H end.
           by bool_hyps.
    + split; [done|]. by eexists.
  - exists WorkflowNodeFailed, "HANDLER_ERROR". split; [done|]. right. by split_and!; [| |right; vm_compute].
Qed.

Lemma executeCommand_ok parent n c k w :
  work_ok d k → planned (wk_state k) n c →
  match executeCommand wr parent c k w with
  | (Some err, _, _) => reconcile_error err
  | (None, k', _) => work_step d k k' ∧ only_node n k k'
  end.
Proof.
  intros Hk [Hn Hid Hp Hshape]. pose proof (do_checked _ _ Hd n Hn) as Hck.
  pose proof (pending_node_live n Hck) as Hlp.
  unfold executeCommand. rewrite Hid, (get_node_lookup _ _ _ Hp).
  destruct (c_completeStatus c) as [st|].
  { destruct Hshape as [-> | ->]; cbn -[put_node pending_node];
      (apply (put_step n (pending_node n)); [done..| |done]).
    - apply (finished_live n (pending_node n) 0 WorkflowNodeSucceeded ""); [done..|]. by left.
    - apply (finished_live n (pending_node n) 0 WorkflowNodeFailed "DEPENDENCY_FAILED"); [done..|].
      right. by split_and!; [| |right; vm_compute]. }
  destruct Hshape as (-> & -> & -> & Hstart). unfold start_shape in Hstart.
  destruct (ws_Kind n) eqn:Hkind; try done.
  - destruct (wr_handlers wr !! ws_Operation n) as [[h|]|] eqn:Hh;
      [|apply (no_handler n Hn Hkind); intros h E; discriminate (eq_trans (eq_sym E) Hh)..].
    destruct (h _ w) as [outcome w'] eqn:Hx. pose proof (handled_finished n outcome Hck) as Hout.
    destruct (handled_node outcome _) as [b|err].
    2:{ destruct Hout as (-> & r & -> & Hr). by eapply bad_result. }
    destruct Hout as (status & class & -> & Hf). cbn [finished n_ID pending_node].
    destruct (put_step n (pending_node n) (finished 1 status class (pending_node n)) k) as [Hs Ho]; try done.
    + by apply finished_live.
    + by destruct Hf as [[-> _]|[-> _]].
    + unfold put_node in *. cbn [wk_state wk_frames set_nodes w_Nodes] in *.
      change (n_ID _) with (ws_ID n). by rewrite insert_insert_eq.
  - apply (put_step n (pending_node n)); [done..| |done].
    apply (waiting_live n "" (c_readyAt c) Hck). by left.
  - destruct (wr_children wr) as [children|] eqn:Hc; [|by eapply no_children].
    set (b := with_child _ _).
    destruct (put_step n (pending_node n) b k Hk Hn Hp) as [Hs Ho]; [|done|].
    { apply (waiting_live n (c_childCallID c) 0 Hck). by right. }
    pose proof (λ w, refreshChild_ok n b (put_node (ws_ID n) b k) w (proj1 Hs) Hn) as Hr.
    setoid_rewrite lookup_insert_eq in Hr.
    assert (Hthen : ∀ w, match refreshChild wr (ws_ID n) (put_node (ws_ID n) b k) w with
      | (Some err, _, _) => reconcile_error err
      | (None, k', _) => work_step d k k' ∧ only_node n k k'
      end).
    { intros w'. specialize (Hr w' eq_refl Hkind eq_refl).
      destruct (refreshChild wr _ _ w') as [[[err|] k'] w'']; [done|]. destruct Hr as [Hs' Ho'].
      split; [by eapply work_step_trans|by eapply only_node_trans]. }
    change (n_ID b) with (ws_ID n).
    destruct (ch_StartCall children _ _ _ w) as [[snap|err] w'] eqn:Hst; [apply Hthen|].
    destruct (error_is err ErrAlreadyExists) eqn:He; [apply Hthen|by eapply start_failed].
Qed.

Lemma planned_other s s' n m c :
  planned s m c → (∀ id, id ≠ ws_ID n → w_Nodes s' !! id = w_Nodes s !! id) → ws_ID m ≠ ws_ID n →
  planned s' m c.
Proof. intros [P1 P2 P3 P4] Hs Hne. constructor; try done. by rewrite Hs. Qed.

(** Every action takes one node out of the pending state. *)
Lemma execute_all_ok parent cmds actions k w :
  work_ok d k → (∀ c, c ∈ cmds → ∃ n, planned (wk_state k) n c) → NoDup (c_nodeID <$> cmds) →
  match execute_all wr parent cmds actions k w with
  | (Err err, _) => reconcile_error err
  | (Ok (actions', k'), _) => work_step d k k' ∧ actions ≤ actions' ∧
      actions' + tally pending_status d (wk_state k') ≤ actions + tally pending_status d (wk_state k) ∧
      (cmds ≠ [] → actions < wr_maxNodeActions wr → actions < actions')
  end.
Proof.
  induction cmds as [|c cmds IH] in actions, k, w |- *; intros Hk Hpl Hnd; cbn [execute_all].
  { split_and!; [by apply work_step_refl|lia..|done]. }
  destruct (Z.leb_spec (wr_maxNodeActions wr) actions).
  { split_and!; [by apply work_step_refl|lia..]. }
  destruct (Hpl c ltac:(set_solver)) as [n Hn].
  pose proof (executeCommand_ok parent n c k w Hk Hn) as Hex.
  destruct (executeCommand wr parent c k w) as [[[err|] k1] w1]; [done|]. destruct Hex as [Hs [Ho1 Ho2]].
  rewrite fmap_cons, NoDup_cons in Hnd. destruct Hnd as [Hfresh Hnd].
  destruct (tally_adv _ _ _ _ pending_back (wo_live _ _ Hk) (proj2 Hs)) as [_ Hlt].
  assert (tally pending_status d (wk_state k1) < tally pending_status d (wk_state k)).
  { apply Hlt. exists n. split; [apply Hn|]. split; [|by apply bool_decide_eq_false].
    apply bool_decide_eq_true. unfold node_status. by rewrite (pl_pending _ _ _ Hn). }
  assert (Hrest : ∀ x, x ∈ cmds → ∃ m, planned (wk_state k1) m x).
  { intros x Hx. destruct (Hpl x ltac:(set_solver)) as [m Hm]. exists m. eapply planned_other; [done..|].
    intros E. apply Hfresh. rewrite (pl_id _ _ _ Hn), <- E, <- (pl_id _ _ _ Hm). by apply list_elem_of_fmap_2. }
  specialize (IH (actions + 1) k1 w1 (proj1 Hs) Hrest Hnd).
  destruct (execute_all wr parent cmds (actions + 1) k1 w1) as [[[actions' k']|err] w']; [|done].
  destruct IH as (I1 & I2 & I3 & _). split_and!; [by eapply work_step_trans|lia..].
Qed.

Lemma plan_live s parent :
  live d s → validIdentity parent = true →
  ∃ cmds, planWorkflowForParent d s parent = Ok cmds ∧ plan_nodes s parent (wf_nodes d) = Ok cmds.
Proof.
  intros Hl Hp. destruct (plan_nodes_total s parent (wf_nodes d)) as [cmds Hcmds].
  { intros n Hn. destruct (lv_nodes _ _ Hl n Hn) as (a & Ha & Hla). pose proof (nl_attempt _ _ Hla).
    eapply plan_node_total; [done|apply Hla| |by apply (do_checked _ _ Hd)|done].
    unfold maxWorkflowAttempt. lia. }
  exists cmds. split; [|done]. unfold planWorkflowForParent. destruct Hl as [L1 L2 L3 _ L5 _ _].
  rewrite (bool_decide_true _ L1), (bool_decide_true _ L2), (bool_decide_true _ L3).
  by rewrite (proj2 (Z.eqb_eq _ _) L5).
Qed.

(** The planning loop ends within its fuel, and it only stops when nothing is left to plan or
    the budget is spent on nodes that were pending. *)
Lemma plan_loop_ok fuel parent actions k w :
  work_ok d k → validIdentity parent = true → (Z.to_nat (wr_maxNodeActions wr - actions) ≤ fuel)%nat →
  match plan_loop wr fuel d parent actions k w with
  | None => False
  | Some (Err err, _) => reconcile_error err
  | Some (Ok k', _) => work_step d k k' ∧
      (planWorkflowForParent d (wk_state k') parent = Ok [] ∨
       wr_maxNodeActions wr + tally pending_status d (wk_state k') ≤
         actions + tally pending_status d (wk_state k))
  end.
Proof.
  induction fuel as [|fuel IH] in actions, k, w |- *; intros Hk Hp Hfuel; cbn [plan_loop];
    destruct (Z.leb_spec (wr_maxNodeActions wr) actions);
    try (by split; [apply work_step_refl|right; lia]); [lia|].
  destruct (plan_live (wk_state k) parent (wo_live _ _ Hk) Hp) as (cmds & Hplan & Hnodes). rewrite Hplan.
  destruct (plan_nodes_planned _ _ _ _ (wo_live _ _ Hk) ltac:(done) (do_ids _ _ Hd) Hp Hnodes) as [Hpl Hnd].
  destruct cmds as [|c cmds]; [by split; [apply work_step_refl|left]|].
  assert (Hpl' : ∀ x, x ∈ c :: cmds → ∃ n, planned (wk_state k) n x) by naive_solver.
  pose proof (execute_all_ok parent (c :: cmds) actions k w Hk Hpl' Hnd) as Hex.
  destruct (execute_all wr parent (c :: cmds) actions k w) as [[[actions' k']|err] w']; [|done].
  destruct Hex as (Hs & Hge & Hpend & Hgt). specialize (Hgt ltac:(done) ltac:(lia)).
  specialize (IH actions' k' w' (proj1 Hs) Hp ltac:(lia)).
  destruct (plan_loop wr fuel d parent actions' k' w') as [[[k''|err] w'']|]; [|done..].
  destruct IH as [Hs' Hend]. split; [by eapply work_step_trans|]. destruct Hend; [by left|right; lia].
Qed.

Lemma plan_no_pending s parent :
  live d s → validIdentity parent = true → tally pending_status d s ≤ 0 →
  planWorkflowForParent d s parent = Ok [].
Proof.
  intros Hl Hp Ht. destruct (plan_live s parent Hl Hp) as (cmds & -> & Hnodes).
  destruct (plan_nodes_planned _ _ _ _ Hl ltac:(done) (do_ids _ _ Hd) Hp Hnodes) as [Hpl _].
  destruct cmds as [|c cmds]; [done|]. exfalso. destruct (Hpl c ltac:(set_solver)) as (n & _ & Hn).
  assert (0 < tally pending_status d s); [|lia]. apply count_status_pos, existsb_exists.
  exists (node_status s (ws_ID n)). split.
  - apply list_elem_of_In, (list_elem_of_fmap_2 (λ n, node_status s (ws_ID n))), Hn.
  - apply bool_decide_eq_true. unfold node_status. by rewrite (pl_pending _ _ _ Hn).
Qed.

(** A live workflow with nothing to plan and no outcome waits for a timer or a child. *)
Lemma idle_waits s parent :
  live d s → validIdentity parent = true → planWorkflowForParent d s parent = Ok [] →
  fst (workflowDefinitionOutcome d s) = false →
  ∃ n, n ∈ wf_nodes d ∧ node_status s (ws_ID n) = WorkflowNodeWaiting ∧
    (ws_Kind n = WorkflowNodeTimer ∨ ws_Kind n = WorkflowNodeChild).
Proof.
  intros Hl Hp Hplan Hout.
  destruct (decide (Exists (λ n, node_status s (ws_ID n) = WorkflowNodeWaiting) (wf_nodes d))) as [Hex|Hno].
  { apply Exists_exists in Hex as (n & Hn & Hw). exists n. split_and!; [done..|].
    destruct (lv_nodes _ _ Hl n Hn) as (a & Ha & Hla). apply (nl_waiting _ _ Hla).
    unfold node_status in Hw. by rewrite Ha in Hw. }
  exfalso. destruct (planner_never_stuck spec d s parent Hd) as (cmds & Hc & Hterm); [|done|].
  - destruct Hl as [L1 L2 L3 _ L5 _ L7]. constructor; [done..|]. intros n Hn.
    destruct (L7 n Hn) as (a & Ha & Hla). pose proof (nl_attempt _ _ Hla). exists a.
    split_and!; [done|apply Hla|lia|unfold maxWorkflowAttempt; lia|].
    destruct (node_live_cases _ _ Hla) as [E|[E|[E|E]]]; rewrite E;
      [by left| |by rewrite !elem_of_cons; auto..].
    exfalso. apply Hno, Exists_exists. exists n. split; [done|]. unfold node_status. by rewrite Ha.
  - rewrite Hplan in Hc. injection Hc as <-. by rewrite Hterm in Hout.
Qed.

(** ** The wake time *)
Definition waiting_timer (s : workflowSnapshotState) (id : string) (ready : time) : Prop :=
  ∃ a, w_Nodes s !! id = Some a ∧ n_Kind a = WorkflowNodeTimer ∧ n_Status a = WorkflowNodeWaiting ∧
    n_ReadyAt a = ready.

Lemma earlier_wake_spec s wake id :
  live d s →
  let wake' := earlier_wake wake (default zero_node (w_Nodes s !! id)) in
  (wake ≠ 0 → wake' ≠ 0 ∧ wake' ≤ wake) ∧ (normalizeReadyAt wake = wake → normalizeReadyAt wake' = wake') ∧
  (∀ ready, waiting_timer s id ready → wake' ≠ 0 ∧ wake' ≤ ready).
Proof.
  intros Hl wake'. unfold wake', earlier_wake, waiting_timer.
  destruct (w_Nodes s !! id) as [a|] eqn:Ha; cbn [from_option].
  2:{ destruct (_ && _) eqn:E; [by bool_hyps|]. split_and!; [lia|done|]. by intros ready (? & ? & _). }
  change (Datatypes.id a) with a.
  destruct (lv_dom _ _ Hl id a Ha) as (n & Hn & ->).
  pose proof (nl_ok _ _ (live_node _ _ _ _ Hl Hn Ha)) as Hok.
  unfold Before, IsZero. destruct (_ && _) eqn:E; bool_hyps.
  - assert (Hr0 : n_ReadyAt a ≠ 0) by (by apply Hok).
    split_and!.
    + intros Hw. split; [done|].
      match goal with H : _ || _ = true |- _ => apply orb_true_iff in H as [?|?] end; bool_hyps; lia.
    + intros _. destruct (no_ready _ _ Hok); congruence.
    + intros ready (b & Hb & _ & _ & <-). simplify_eq. split; [done|lia].
  - split_and!; [lia|done|]. intros ready (b & Hb & Hbk & Hbs & <-). simplify_eq.
    rewrite Hbk, Hbs, !bool_decide_true in E by done. cbn in E. bool_hyps. lia.
Qed.

Lemma nextWakeAt_spec s w :
  live d s → (∀ m w, (w_range m w).1 ≡ₚ (map_to_list m).*1) →
  let wake := fst (nextWakeAt wr s w) in
  normalizeReadyAt wake = wake ∧ ∀ id ready, waiting_timer s id ready → wake ≤ ready.
Proof.
  intros Hl Hrange. unfold nextWakeAt. destruct (w_now w) as [now w1].
  destruct (w_range (w_Nodes s) w1) as [ids w2] eqn:Hr. cbn [fst].
  assert (Hfold : ∀ ids wake, let wake' := fold_left
      (λ wakeAt id, earlier_wake wakeAt (default zero_node (w_Nodes s !! id))) ids wake in
    (wake ≠ 0 → wake' ≠ 0 ∧ wake' ≤ wake) ∧ (normalizeReadyAt wake = wake → normalizeReadyAt wake' = wake') ∧
    (∀ id ready, id ∈ ids → waiting_timer s id ready → wake' ≠ 0 ∧ wake' ≤ ready)).
  { clear -Hl Hd. induction ids as [|id ids IH]; intros wake; cbn; [split_and!; [lia|done|set_solver]|].
    destruct (earlier_wake_spec s wake id Hl) as (E1 & E2 & E3).
    set (wake1 := earlier_wake _ _) in *. destruct (IH wake1) as (I1 & I2 & I3).
    split_and!; [intros Hw; destruct (E1 Hw); destruct I1; [done|]; lia|auto|].
    intros id' ready [->|Hin]%elem_of_cons Hwt; [|by apply (I3 id')].
    destruct (E3 ready Hwt). destruct I1; [done|]. lia. }
  destruct (Hfold ids (normalizeReadyAt (now + wr_pollInterval wr))) as (_ & F2 & F3).
  split; [apply F2, normalizeReadyAt_idem|]. intros id ready Hwt. apply (F3 id); [|done].
  pose proof (Hrange (w_Nodes s) w1) as Hp. rewrite Hr in Hp. cbn in Hp. rewrite Hp.
  destruct Hwt as (a & Ha & _). apply list_elem_of_fmap. exists (id, a). split; [done|].
  by apply elem_of_map_to_list.
Qed.

(** ** One reconciliation *)

(** What a claimed parent of [d] looks like, with room left in its counters. *)
Record parent_ready (current : Snapshot) (state : workflowSnapshotState) : Prop := mk_parent_ready {
  pr_u64 : snapshot_u64 current;
  pr_valid : validateSnapshot current = None;
  pr_workflow : s_workflow current = Some state;
  pr_live : live d state;
  pr_status : s_status current = StatusRunning ∨ s_status current = StatusCancelRequested;
  pr_revision : s_revision current < max_u64;
  pr_sequence : s_sequence current + zlen (wf_nodes d) + 1 ≤ max_u64
}.

Definition all_terminal (state : workflowSnapshotState) : Prop :=
  ∀ id a, w_Nodes state !! id = Some a → WorkflowNodeStatus_Terminal (n_Status a) = true.

(** The three ways a reconciliation ends. *)
Inductive reconciled (current : Snapshot) (next : Snapshot) (state' : workflowSnapshotState) : Prop :=
| canceled :
    s_status current = StatusCancelRequested → s_status next = StatusCanceled →
    all_terminal state' → reconciled current next state'
| decided state'' failed :
    s_status current = StatusRunning → live d state'' →
    workflowDefinitionOutcome d state'' = (true, failed) →
    state' = skipNonTerminalWorkflowNodes state'' → all_terminal state' →
    s_status next = (if failed then StatusFailed else StatusCompleted) →
    reconciled current next state'
| suspended :
    s_status current = StatusRunning → s_status next = StatusSuspended →
    live d state' → fst (workflowDefinitionOutcome d state') = false →
    (zlen (wf_nodes d) ≤ wr_maxNodeActions wr →
     planWorkflowForParent d state' (s_callID current) = Ok []) →
    (∀ id ready, waiting_timer state' id ready → s_readyAt next ≤ ready) →
    reconciled current next state'.

Lemma skip_all_terminal s : all_terminal (skipNonTerminalWorkflowNodes s).
Proof.
  intros id a. cbn. rewrite lookup_fmap, fmap_Some. intros (b & _ & ->). unfold skip_node.
  by destruct (WorkflowNodeStatus_Terminal (n_Status b)) eqn:E.
Qed.

Lemma live_attempts s : live d s → ∀ id a, w_Nodes s !! id = Some a → 0 ≤ n_Attempt a ≤ 1.
Proof.
  intros Hl id a Ha. destruct (lv_dom _ _ Hl id a Ha) as (n & Hn & ->).
  by apply (nl_attempt n), (live_node d s).
Qed.

Lemma live_successor s s' : live d s → live d s' → state_adv s s' → validateWorkflowSuccessor (Some s) s' = None.
Proof.
  intros Hl Hl' Hs. apply successor_ok; [apply Hl|apply Hl'|done|by apply live_attempts|].
  intros id b Hb. by apply (live_attempts s' Hl' id).
Qed.

Lemma skip_live_successor s s' :
  live d s → live d s' → state_adv s s' →
  validateWorkflowSuccessor (Some s) (skipNonTerminalWorkflowNodes s') = None.
Proof.
  intros Hl Hl' Hs. destruct (skip_successor d s s' Hl' Hs) as [Hv Hadv].
  apply successor_ok; [apply Hl|done..|by apply live_attempts|].
  intros id b. cbn. rewrite lookup_fmap, fmap_Some. intros (x & Hx & ->).
  pose proof (live_attempts s' Hl' id x Hx). unfold skip_node. by case_match; cbn; lia.
Qed.

Lemma initial_work state : live d state → work_ok d (mkWork state []).
Proof.
  intros Hl. constructor; [done..|]. cbn. pose proof (tally_bounds open_status d state).
  change (zlen []) with 0. lia.
Qed.

Lemma apply_moved current state s' status ready frames :
  parent_ready current state → validateWorkflowSuccessor (Some state) s' = None →
  allowedTransition (s_status current) status commandNone = true → status ≠ StatusRunning →
  zlen frames ≤ zlen (wf_nodes d) + 1 → forallb frame_accepted frames = true →
  normalizeReadyAt ready = ready →
  Apply current (moveWorkflow status (s_fence current) s' ready frames) = Ok (moved current status s' ready frames) ∧
  apply_step current (moved current status s' ready frames).
Proof.
  intros [Hu Hv Hw Hl _ Hrev Hseq] Hs Hal Hst Hlen Hfr Hready.
  assert (HA : Apply current (moveWorkflow status (s_fence current) s' ready frames) =
    Ok (moved current status s' ready frames)) by (apply (Apply_workflow current state); lia || done).
  split; [done|]. eexists. split; [|exact HA]. apply Hu.
Qed.

Definition reconcile_post (current : Snapshot) (state : workflowSnapshotState)
    (answer : result rerror Snapshot) : Prop :=
  match answer with
  | Err err => reconcile_error err
  | Ok next => ∃ state', s_workflow next = Some state' ∧ apply_step current next ∧
      state_adv state state' ∧ reconciled current next state'
  end.

Lemma conclude_ok current state k w :
  (∀ m w, (w_range m w).1 ≡ₚ (map_to_list m).*1) →
  parent_ready current state → s_status current = StatusRunning →
  work_step d (mkWork state []) k →
  (zlen (wf_nodes d) ≤ wr_maxNodeActions wr → planWorkflowForParent d (wk_state k) (s_callID current) = Ok []) →
  ∃ t w', conclude wr d current k w = (Ok t, w') ∧ reconcile_post current state (lift_plain (Apply current t)).
Proof.
  intros Hrange Hpr Hrun [Hk Hadv] Hplan. pose proof (wo_room _ _ Hk) as Hroom.
  pose proof (tally_bounds open_status d (wk_state k)) as Hopen. pose proof (pr_live _ _ Hpr) as Hl.
  unfold conclude. destruct (workflowDefinitionOutcome d (wk_state k)) as [terminal failed] eqn:Hout.
  destruct terminal.
  - set (status := if failed then StatusFailed else StatusCompleted).
    set (kind := if failed then FrameFailed else FrameCompleted).
    assert (Hframe : NewFrame kind "" = Ok (mkFrame 0 kind "")) by (by destruct failed).
    rewrite Hframe. do 2 eexists. split; [done|].
    destruct (apply_moved current state (skipNonTerminalWorkflowNodes (wk_state k)) status 0
      (wk_frames k ++ [mkFrame 0 kind ""]) Hpr) as [-> Hstep]; [..|done|].
    + by apply skip_live_successor; [|apply Hk|].
    + rewrite Hrun. by destruct failed.
    + by destruct failed.
    + rewrite zlen_app. change (zlen [_]) with 1. lia.
    + rewrite forallb_app, (wo_frames _ _ Hk). by destruct failed.
    + eexists. split_and!; [done|done|by apply (skip_successor d); [apply Hk|]|].
      eapply (decided _ _ _ (wk_state k) failed); [done|apply Hk|done|done|apply skip_all_terminal|done].
  - pose proof (nextWakeAt_spec (wk_state k) w (wo_live _ _ Hk) Hrange) as [Hnorm Hwake].
    destruct (nextWakeAt wr (wk_state k) w) as [wakeAt w']. cbn [fst] in Hnorm, Hwake.
    do 2 eexists. split; [done|].
    destruct (apply_moved current state (wk_state k) StatusSuspended wakeAt (wk_frames k) Hpr)
      as [-> Hstep]; [|by rewrite Hrun|done|lia|apply Hk|done|].
    + by apply live_successor; [|apply Hk|].
    + eexists. split_and!; [done..|]. apply suspended; [done|done|apply Hk|by rewrite Hout|done|done].
Qed.

Lemma reconcile_spec current state wake w :
  (∀ m w, (w_range m w).1 ≡ₚ (map_to_list m).*1) →
  ResolveWorkflow (s_operation current) (wf_version d) (wr_registry wr) = Some d →
  parent_ready current state →
  ∃ answer w', reconcile wr current state wake w = Some (answer, w') ∧ reconcile_post current state answer.
Proof.
  intros Hrange Hres Hpr. pose proof (pr_live _ _ Hpr) as Hl. unfold reconcile.
  rewrite (lv_version _ _ Hl), Hres, bool_decide_true by (symmetry; apply Hl). cbn [negb].
  destruct (pr_status _ _ Hpr) as [Hst|Hst]; rewrite Hst; cbn [negb].
  2:{ rewrite bool_decide_true by done. cbn [bool_decide]. change (NewFrame FrameCanceled "") with
        (Ok (E := cerror) (mkFrame 0 FrameCanceled "")).
      destruct (apply_moved current state (skipNonTerminalWorkflowNodes state) StatusCanceled 0
        [mkFrame 0 FrameCanceled ""] Hpr) as [HA Hstep]; [|by rewrite Hst|done| |done|done|].
      - apply skip_live_successor; [done..|]. by eapply state_adv_refl.
      - change (zlen [_]) with 1. pose proof (zlen_nonneg (wf_nodes d)). lia.
      - cbn [mbind result_bind]. rewrite HA. do 2 eexists. split; [done|].
        eexists. split_and!; [done|done| |by apply canceled, skip_all_terminal].
        apply (skip_successor d); [done|]. by eapply state_adv_refl. }
  rewrite bool_decide_false by done.
  unfold refreshWaitingChildren. cbn [wk_state].
  destruct (w_range (w_Nodes state) w) as [ids w1].
  pose proof (refresh_children_ok ids (mkWork state []) w1 (initial_work state Hl)) as Hch.
  destruct (refresh_children wr ids (mkWork state []) w1) as [[[err|] k1] w2]; [by do 2 eexists|].
  pose proof (work_step_fire d wake k1 (proj1 Hch)) as Hfire.
  pose proof (plan_loop_ok (Z.to_nat (wr_maxNodeActions wr)) (s_callID current) 0 _ w2 (proj1 Hfire)) as Hloop.
  assert (Hid : validIdentity (s_callID current) = true).
  { pose proof (pr_valid _ _ Hpr) as Hv. apply validateSnapshot_spec in Hv; [apply Hv|apply Hpr]. }
  specialize (Hloop Hid ltac:(lia)).
  destruct (plan_loop wr _ d (s_callID current) 0 _ w2) as [[[k|err] w3]|]; [|by do 2 eexists|done].
  destruct Hloop as [Hsteps Hend].
  assert (Hall : work_step d (mkWork state []) k) by eauto using work_step_trans.
  destruct (conclude_ok current state k w3 Hrange Hpr Hst Hall) as (t & w4 & -> & Hpost).
  { intros Hbudget. destruct Hend as [|Hend]; [done|].
    apply plan_no_pending; [apply Hsteps|done|].
    pose proof (tally_bounds pending_status d (wk_state (fire_timers wake k1))). lia. }
  by do 2 eexists.
Qed.
End reconciliation.

(** C8: one reconciliation of a workflow parent always returns, and it cannot be refused by the
    state machine.  For an accepted and registered definition and a claimed parent whose durable
    state is live, the planning loop ends within its action budget, and the result is either a
    failure for one of the listed outside reasons (missing handler or child runtime, malformed
    handler result, child runtime error), or the next snapshot: one accepted transition away,
    every node only moved forward, and canceled, decided by the definition's outcome with every
    node terminal, or suspended in a live state again with a wake time no later than any
    waiting timer. *)
Theorem reconcile_sound {W} `{Environment W, MapOrder W} (wr : WorkflowRuntime W) spec d current state wake w :
  NewWorkflowDefinition spec = Some (Ok d) →
  (∀ m w, (w_range m w).1 ≡ₚ (map_to_list m).*1) →
  ResolveWorkflow (s_operation current) (wf_version d) (wr_registry wr) = Some d →
  parent_ready d current state →
  ∃ answer w', reconcile wr current state wake w = Some (answer, w') ∧ reconcile_post wr d current state answer.
Proof. intros Hd%NewWorkflowDefinition_ok. by eapply reconcile_spec. Qed.

(** a suspended workflow is waiting for something.  When the action budget covers the nodes of
    the definition, a reconciliation that suspends the parent left nothing that could be planned,
    and some timer or child node is waiting; so a workflow is never put to sleep with runnable
    work or with nothing to wake it. *)
Theorem suspended_waits {W} `{Environment W, MapOrder W} (wr : WorkflowRuntime W) spec d current state wake w next w' :
  NewWorkflowDefinition spec = Some (Ok d) →
  (∀ m w, (w_range m w).1 ≡ₚ (map_to_list m).*1) →
  ResolveWorkflow (s_operation current) (wf_version d) (wr_registry wr) = Some d →
  parent_ready d current state → zlen (wf_nodes d) ≤ wr_maxNodeActions wr →
  reconcile wr current state wake w = Some (Ok next, w') → s_status next = StatusSuspended →
  ∃ state', s_workflow next = Some state' ∧
    planWorkflowForParent d state' (s_callID current) = Ok [] ∧
    ∃ n, n ∈ wf_nodes d ∧ node_status state' (ws_ID n) = WorkflowNodeWaiting ∧
      (ws_Kind n = WorkflowNodeTimer ∨ ws_Kind n = WorkflowNodeChild).
Proof.
  intros Hd%NewWorkflowDefinition_ok Hrange Hres Hpr Hbudget Hrec Hst.
  destruct (reconcile_spec wr spec d Hd current state wake w Hrange Hres Hpr) as (answer & w1 & Hrec' & Hpost).
  rewrite Hrec in Hrec'. injection Hrec' as <- <-. destruct Hpost as (state' & Hw & _ & _ & Hend).
  exists state'. split; [done|]. destruct Hend as [_ Hc|s'' failed _ _ _ _ _ Hc|_ _ Hl Hout Hplan _].
  - congruence.
  - destruct failed; congruence.
  - specialize (Hplan Hbudget). split; [done|]. eapply idle_waits; [done|done| |done|done].
    pose proof (pr_valid _ _ _ Hpr) as Hv. apply validateSnapshot_spec in Hv; [apply Hv|apply Hpr].
Qed.

(** ** Histories of a workflow call *)
Section history.
  Context {W : Type} `{Environment W, MapOrder W}.
  Context (wr : WorkflowRuntime W) (d : WorkflowDefinition).

(** Everything that happens to a workflow parent: a transition that leaves the workflow state
    alone (claims, commands, expiry), and a reconciliation of a claimed parent. *)
Inductive workflow_step (s s' : Snapshot) : Prop :=
| other_step t : is_u64 (t_fence t) → t_workflow t = None → Apply s t = Ok s' → workflow_step s s'
| reconcile_step state wake w w' :
    s_status s = StatusRunning ∨ s_status s = StatusCancelRequested →
    s_revision s < max_u64 → s_sequence s + zlen (wf_nodes d) + 1 ≤ max_u64 →
    s_workflow s = Some state → reconcile wr s state wake w = Some (Ok s', w') → workflow_step s s'.

Definition carries_live (s : Snapshot) : Prop :=
  snapshot_u64 s ∧ validateSnapshot s = None ∧
  ∃ state, s_workflow s = Some state ∧ (Status_Terminal (s_status s) = true ∨ live d state).

Lemma workflow_step_live spec s s' :
  definition_ok spec d → (∀ m w, (w_range m w).1 ≡ₚ (map_to_list m).*1) →
  s_operation s = wf_operation d →
  ResolveWorkflow (wf_operation d) (wf_version d) (wr_registry wr) = Some d →
  carries_live s → workflow_step s s' → s_operation s' = wf_operation d ∧ carries_live s'.
Proof.
  intros Hd Hrange Hop Hres (Hu & Hv & state & Hw & Hl) Hstep.
  assert (Hrest : ∀ x, apply_step s x → s_operation x = s_operation s ∧ snapshot_u64 x ∧ validateSnapshot x = None).
  { intros x Hx. destruct (apply_step_valid _ _ Hu Hx) as [Hux Hox]. split_and!; [|done|by apply validateSnapshot_spec].
    destruct Hx as (t & _ & [[Hf _]|[-> _]]%Apply_cases); [by rewrite (fs_result _ _ _ Hf)|done..]. }
  destruct Hstep as [t Ht Hnw HA|state1 wake w w' Hst Hrev Hseq Hw1 Hrec].
  - destruct (Hrest s' ltac:(by exists t)) as (Ho & Hu' & Hv'). split; [congruence|]. split_and!; [done..|].
    exists state. apply Apply_cases in HA as [[Hf _]|[-> _]]; [|by auto|done].
    rewrite (fs_result _ _ _ Hf) at 1. cbn. rewrite Hnw. split; [done|]. right.
    destruct Hl as [Ht'|]; [|done]. by rewrite (fs_live _ _ _ Hf) in Ht'.
  - assert (state1 = state) as -> by congruence.
    destruct Hl as [Ht|Hl]; [by destruct Hst as [E|E]; rewrite E in Ht|].
    destruct (reconcile_spec wr spec d Hd s state wake w Hrange) as (answer & w1 & Hrec' & Hpost);
      [by rewrite Hop|by constructor|].
    rewrite Hrec in Hrec'. injection Hrec' as <- <-. destruct Hpost as (state' & Hw' & Hstep & _ & Hend).
    destruct (Hrest s' Hstep) as (Ho & Hu' & Hv'). split; [congruence|]. split_and!; [done..|].
    exists state'. split; [done|]. destruct Hend as [_ E|s'' failed _ _ _ _ _ E|]; [left; by rewrite E| |by right].
    left. rewrite E. by destruct failed.
Qed.
End history.

Lemma new_state_live spec d startedAt :
  definition_ok spec d → 0 < startedAt → live d (newWorkflowSnapshotState d startedAt).
Proof.
  intros Hd Ht. pose proof (new_state_settled _ _ _ Hd Ht) as [S1 S2 S3 S4 _].
  destruct (pending_nodes_lookup (wf_nodes d) ∅ (do_ids _ _ Hd)) as [Hin Hout].
  constructor; [done..| |done| |].
  - cbn. by apply normalizeReadyAt_pos.
  - intros id node Hn. destruct (decide (id ∈ ws_ID <$> wf_nodes d)) as [(n & -> & Hm)%list_elem_of_fmap|Hid].
    + by exists n.
    + cbn in Hn. by rewrite (Hout id Hid), lookup_empty in Hn.
  - intros n Hn. exists (pending_node n). split; [by apply Hin|].
    by apply pending_node_live, (do_checked _ _ Hd).
Qed.

(** C5: a workflow call stays reconcilable for its whole life.  Whatever sequence of claims, commands,
    other transitions and reconciliations happens to a call started from an accepted and
    registered definition, its snapshot is valid and carries a workflow state that is live until
    the call is terminal, so the guarantees of a single reconciliation apply at every point. *)
Theorem workflow_history {W} `{Environment W, MapOrder W} (wr : WorkflowRuntime W) spec d callID input startedAt s s' :
  NewWorkflowDefinition spec = Some (Ok d) →
  (∀ m w, (w_range m w).1 ≡ₚ (map_to_list m).*1) →
  ResolveWorkflow (wf_operation d) (wf_version d) (wr_registry wr) = Some d →
  0 < startedAt → newWorkflowSnapshot callID d input startedAt = Ok s →
  rtc (workflow_step wr d) s s' → carries_live d s'.
Proof.
  intros Hd%NewWorkflowDefinition_ok Hrange Hres Ht Hnew Hsteps.
  assert (Hs : s_operation s = wf_operation d ∧ carries_live d s).
  { revert Hnew. unfold newWorkflowSnapshot, NewSnapshotWithInput, NewSnapshot.
    destruct (IsZero startedAt); [done|]. destruct (_ || _); [done|]. cbn [mbind result_bind].
    destruct (NewFrame FrameAccepted input) as [f|]; [|done]. cbn [mbind result_bind s_callID s_operation].
    unfold from_nil. case_match eqn:Hv; [done|]. intros [= <-]. split; [done|]. split_and!; [|done|].
    - unfold snapshot_u64, is_u64, max_u64. cbn. lia.
    - eexists. split; [done|]. right. by eapply new_state_live. }
  clear Hnew. enough (s_operation s' = wf_operation d ∧ carries_live d s') by naive_solver.
  induction Hsteps as [|s1 s2 s3 Hstep _ IH]; [done|]. apply IH. destruct Hs as [Ho Hc].
  by eapply workflow_step_live.
Qed.

(** ** Children served by the continuation runtime *)
Definition runtime_children {W} `{Environment W, LeaseStore W} (r : Runtime W) : WorkflowChildRuntime W :=
  mkChildren (StartCall r) (λ callID after limit w,
    match Attach callID after limit w with
    | (Ok attachment, w) => (Ok (at_Snapshot attachment), w)
    | (Err err, w) => (Err err, w)
    end).

(** a child whose frames were pruned can no longer be seen by its parent.  The refresh of a
    waiting child attaches at cursor 0 although it only reads the child's status; once the
    child's frame floor is above 1 the attach answers with a gap error, also when the child is
    terminal, and the parent's reconciliation fails with it instead of finishing the node. *)
Theorem pruned_child_blocks_parent {W} `{Environment W, LeaseStore W} (r : Runtime W) (wr : WorkflowRuntime W) nodeID k w child w' :
  wr_children wr = Some (runtime_children r) →
  validIdentity (n_ChildCallID (get_node nodeID k)) = true →
  ls_Load Caller (n_ChildCallID (get_node nodeID k)) w = (Ok child, w') →
  validateSnapshot child = None → snapshot_u64 child → 1 < s_frameFloor child →
  ∃ w'', refreshChild wr nodeID k w =
    (Some (Wrap "continuation: attach child" (Plain (GapError 0 (s_frameFloor child)))), k, w'').
Proof.
  intros Hch Hid Hload Hv Hu Hfloor. unfold refreshChild. rewrite Hch.
  cbn [ch_Attach runtime_children]. unfold Attach. rewrite Hid, Hload, Hv. cbn [negb orb Z.ltb Z.compare].
  assert (Hseq : (s_sequence child <? 0) = false). { apply Z.ltb_ge. apply Hu. }
  rewrite Hseq. rewrite u64_sub_small by (unfold snapshot_u64, is_u64 in Hu; lia).
  rewrite (proj2 (Z.ltb_lt 0 (s_frameFloor child - 1))) by lia. by eexists.
Qed.

(** * A concrete workflow runtime *)
#[local] Instance ex_environment : Environment unit := {
  w_cause _ w := (None, w);
  w_now w := (2 * second, w);
  w_observe _ w := w;
  w_beats w := ((0%nat, false), w);
  w_wait w := (true, w)
}.
#[local] Instance ex_order : MapOrder unit := { w_range m w := ((map_to_list m).*1, w) }.

(** A child runtime that starts every child and never finds it finished. *)
Definition ex_children : WorkflowChildRuntime unit :=
  mkChildren (λ id op _ w, (lift_plain (NewSnapshot id op), w)) (λ _ _ _ w, (Err (Plain ErrNotFound), w)).

Definition ex_workflow_runtime : WorkflowRuntime unit :=
  mkWorkflowRuntime (performs [DoRegisterWorkflow (Some ex_definition); DoFreeze] NewRegistry)
    (Some ex_children) ∅ "executor-1" minute second second 100 10 hour.

Definition ex_started : Snapshot :=
  ok_or (newWorkflowSnapshot "call-1" ex_definition "in" second) ex_new.
Definition ex_claimed : Snapshot := ok_or (Apply ex_started (Move StatusRunning 1 [])) ex_new.

Definition ex_suspended : Snapshot :=
  match reconcile ex_workflow_runtime ex_claimed ex_state 0 tt with
  | Some (Ok next, _) => next
  | _ => ex_new
  end.

Lemma ex_parent_ready : parent_ready ex_definition ex_claimed ex_state.
Proof.
  constructor.
  - repeat split; vm_compute; discriminate.
  - vm_compute. reflexivity.
  - vm_compute. reflexivity.
  - eapply new_state_live; [apply (NewWorkflowDefinition_ok _ _ ex_accepted)|done].
  - left. vm_compute. reflexivity.
  - vm_compute. reflexivity.
  - vm_compute. discriminate.
Qed.

Lemma ex_range : ∀ (m : gmap string workflowNodeState) (w : unit), (w_range m w).1 ≡ₚ (map_to_list m).*1.
Proof. done. Qed.

Lemma ex_resolves :
  ResolveWorkflow (wf_operation ex_definition) (wf_version ex_definition) (wr_registry ex_workflow_runtime) =
  Some ex_definition.
Proof. vm_compute. reflexivity. Qed.

Lemma reconcile_sound_witness : ∃ answer w',
  reconcile ex_workflow_runtime ex_claimed ex_state 0 tt = Some (answer, w') ∧
  reconcile_post ex_workflow_runtime ex_definition ex_claimed ex_state answer.
Proof.
  apply (reconcile_sound ex_workflow_runtime ex_spec ex_definition);
    [apply ex_accepted|apply ex_range|vm_compute; reflexivity|apply ex_parent_ready].
Defined.

Lemma suspended_waits_witness : ∃ state', s_workflow ex_suspended = Some state' ∧
  planWorkflowForParent ex_definition state' "call-1" = Ok [] ∧
  ∃ n, n ∈ wf_nodes ex_definition ∧ node_status state' (ws_ID n) = WorkflowNodeWaiting ∧
    (ws_Kind n = WorkflowNodeTimer ∨ ws_Kind n = WorkflowNodeChild).
Proof.
  apply (suspended_waits ex_workflow_runtime ex_spec ex_definition ex_claimed ex_state 0 tt ex_suspended tt);
    [apply ex_accepted|apply ex_range|vm_compute; reflexivity|apply ex_parent_ready|vm_compute; discriminate| |].
  - vm_compute. reflexivity.
  - vm_compute. reflexivity.
Defined.

Lemma workflow_history_witness : carries_live ex_definition ex_suspended.
Proof.
  apply (workflow_history ex_workflow_runtime ex_spec ex_definition "call-1" "in" second ex_started);
    [apply ex_accepted|apply ex_range|apply ex_resolves|done|vm_compute; reflexivity|].
  apply (rtc_l _ _ ex_claimed).
  - apply (other_step _ _ _ _ (Move StatusRunning 1 [])); [done|done|vm_compute; reflexivity].
  - apply rtc_once, (reconcile_step _ _ _ _ ex_state 0 tt tt);
      [left; vm_compute; reflexivity|vm_compute; reflexivity|vm_compute; discriminate|vm_compute; reflexivity|].
    vm_compute. reflexivity.
Defined.

(** A store whose one call is a canceled child with its first frame pruned. *)
Definition ex_pruned : Snapshot := ok_or (PruneSnapshot ex_canceled 2) ex_new.
#[local] Instance ex_leases : LeaseStore unit := {
  ls_Create _ s w := (Ok s, w);
  ls_Load _ _ w := (Ok ex_pruned, w);
  ls_Transition _ _ w := (Err (Plain ErrConflict), w);
  ls_ListReady _ _ w := (Ok [], w);
  ls_SubmitSignal _ _ w := (Err (Plain ErrConflict), w);
  ls_RequestCancel _ _ w := (Err (Plain ErrConflict), w);
  ls_Claim _ _ w := (Err (Plain ErrConflict), w);
  ls_Renew _ _ w := (Err (Plain ErrConflict), w);
  ls_Release _ _ w := (None, w)
}.
Definition ex_child_runtime : Runtime unit :=
  mkRuntime NewRegistry second 100 64 "executor-1" minute second hour.
Definition ex_parent_runtime : WorkflowRuntime unit :=
  mkWorkflowRuntime NewRegistry (Some (runtime_children ex_child_runtime)) ∅ "executor-1" minute second second
    100 10 hour.
Definition ex_waiting_work : work :=
  put_node "charge" (mkNodeState "charge" WorkflowNodeChild WorkflowNodeWaiting 1 "child-1" 0 "") (mkWork ex_state []).

Lemma pruned_child_blocks_parent_witness :
  Status_Terminal (s_status ex_pruned) = true ∧
  ∃ w'', refreshChild ex_parent_runtime "charge" ex_waiting_work tt =
    (Some (Wrap "continuation: attach child" (Plain (GapError 0 (s_frameFloor ex_pruned)))), ex_waiting_work, w'').
Proof.
  split; [vm_compute; reflexivity|].
  apply (pruned_child_blocks_parent ex_child_runtime ex_parent_runtime "charge" ex_waiting_work tt ex_pruned tt);
    [reflexivity|vm_compute; reflexivity|vm_compute; reflexivity|vm_compute; reflexivity| |vm_compute; reflexivity].
  repeat split; vm_compute; discriminate.
Defined.
