(* ===== verification/Access.v ===== *)
(** * operation, security, security/authz and the continuation access list

    Models [operation.New], [security/principal.go], the role-based policy of
    [security/authz/authz.go] and [CallACL] of [programmable/continuation/authorization.go].
    Modules carry the names of the packages.  Binary searches ([sort.Search],
    [sort.SearchStrings]) are the first index at which their monotone predicate holds. *)
From S2P Require Import Prelude GoText ContModel.
Open Scope Z_scope.

(** [for _, r := range value]: an invalid byte is the rune U+FFFD. *)
Fixpoint range_runes (fuel : nat) (l : list Z) : list Z :=
  match fuel, l with
  | _, [] | O, _ => []
  | S fuel, _ :: r =>
      match decode_rune l with
      | Some (c, rest) => c :: range_runes fuel rest
      | None => 65533 :: range_runes fuel r
      end
  end.
Definition has_control (value : string) : bool :=
  existsb IsControl (range_runes (String.length value) (bytes_of value)).

(** [strings.ContainsAny(value, "\r\n\x00")]. *)
Definition contains_break (value : string) : bool :=
  existsb (λ b, (b =? 13) || (b =? 10) || (b =? 0)) (bytes_of value).

(** The first element at which a monotone predicate holds. *)
Definition search {A} (f : A → bool) (l : list A) : option A := List.find f l.

(** [l[i-1] == l[i]] for some [i]. *)
Fixpoint adjacent {A} `{EqDecision A} (l : list A) : bool :=
  match l with
  | x :: (y :: _) as r => (x == y) || adjacent r
  | _ => false
  end.

Module operation.
Inductive Kind := KindUnary | KindClientStream | KindServerStream | KindBidiStream | KindConsumer | KindJob
| KindOther (raw : string).

Record Operation := mkOperation { o_transport : string; o_service : string; o_method : string; o_kind : Kind }.

(** [unicode.ToLower] as far as the result is ASCII: the capital letters, the Kelvin sign and the
    dotted capital I; every other rune stays outside ASCII and is refused by [validTransport]. *)
Definition lower (r : Z) : Z :=
  if in_range 65 90 r then r + 32 else if r =? 8490 then 107 else if r =? 304 then 105 else r.
Definition validTransport (transport : list Z) : bool :=
  match transport with
  | [] => false
  | b :: r =>
      in_range 97 122 b &&
      forallb (λ c, in_range 97 122 c || in_range 48 57 c || (c =? 43) || (c =? 45) || (c =? 46)) r
  end.
Definition validComponent (component : string) : bool :=
  (component != "") && ValidString component && (TrimSpace component == component) && negb (has_control component).
Definition validKind (kind : Kind) : bool := match kind with KindOther _ => false | _ => true end.

(** [None] is [ErrInvalid]. *)
Definition New (transport service method : string) (kind : Kind) : option Operation :=
  let normalized := lower <$> range_runes (String.length transport) (bytes_of transport) in
  if negb (validTransport normalized) || negb (validComponent service) || negb (validComponent method) ||
     negb (validKind kind) then None
  else Some (mkOperation (string_of_bytes normalized) service method kind).
End operation.

Module security.
(** A [Principal] has the fields of its [PrincipalSpec]. *)
Record Principal := mkPrincipal {
  p_subject : string;
  p_issuer : string;
  p_audiences : list string;
  p_roles : list string;
  p_scopes : list string;
  p_claims : gmap string string;
  p_expiresAt : time
}.

Definition valid (value : string) (required : bool) : bool :=
  if value == "" then negb required
  else (TrimSpace value == value) && negb (has_control value).

Definition normalizedSet (values : list string) : option (list string) :=
  if negb (forallb (λ v, valid v true) values) then None
  else
    let result := sort_strings values in
    if adjacent result then None else Some result.

(** [None] is [ErrInvalidPrincipal]. *)
Definition NewPrincipal (spec : Principal) : option Principal :=
  if negb (valid (p_subject spec) true) || negb (valid (p_issuer spec) false) then None
  else
    audiences ← normalizedSet (p_audiences spec);
    roles ← normalizedSet (p_roles spec);
    scopes ← normalizedSet (p_scopes spec);
    if negb (map_forallb (λ key value, valid key true && valid value false) (p_claims spec)) then None
    else Some (mkPrincipal (p_subject spec) (p_issuer spec) audiences roles scopes (p_claims spec) (p_expiresAt spec)).

Definition Expired (p : Principal) (now : time) : bool := negb (IsZero (p_expiresAt p)) && negb (Before now (p_expiresAt p)).

(** A nil error. *)
Definition Validate (p : Principal) (now : time) : bool :=
  match NewPrincipal p with None => false | Some _ => negb (Expired p now) end.

Definition has (values : list string) (value : string) : bool :=
  match search (λ x, String.leb value x) values with Some x => x == value | None => false end.
Definition HasRole (p : Principal) (role : string) : bool := has (p_roles p) role.
Definition HasScope (p : Principal) (scope : string) : bool := has (p_scopes p) scope.
End security.
Import security.

Module authz.
Definition maxRules : Z := 8 * 1024.
Definition maxRuleValues : Z := 64.
Definition maxRuleValueBytes : Z := 256.

Record Decision := mkDecision { d_Allowed : bool; d_Reason : string }.
Record Rule := mkRule { r_Service : string; r_Method : string; r_AnyRole : list string; r_RequiredScope : list string }.

Definition contains_star (value : string) : bool := existsb (λ b, b =? 42) (bytes_of value).
Definition validMatcher (value : string) : bool :=
  (value == "*") ||
  ((value != "") && (slen value <=? maxRuleValueBytes) && (TrimSpace value == value) && negb (contains_break value) &&
   negb (contains_star value)).
Definition matches (matcher value : string) : bool := (matcher == "*") || (matcher == value).

Definition bad_value (value : string) : bool :=
  (value == "") || (maxRuleValueBytes <? slen value) || (TrimSpace value != value) || contains_break value.
Definition normalized (values : list string) : option (list string) :=
  if (maxRuleValues <? zlen values) || existsb bad_value values || adjacent values then None
  else
    let result := sort_strings values in
    if adjacent result then None else Some result.

Definition new_rule (rule : Rule) : option Rule :=
  if negb (validMatcher (r_Service rule)) || negb (validMatcher (r_Method rule)) then None
  else
    roles ← normalized (r_AnyRole rule);
    scopes ← normalized (r_RequiredScope rule);
    Some (mkRule (r_Service rule) (r_Method rule) roles scopes).

(** [None] is [ErrInvalidAuthorizer]; a policy is its rules. *)
Definition NewRBAC (rules : list Rule) : option (list Rule) :=
  if maxRules <? zlen rules then None else mapM new_rule rules.

Definition hasAnyRole (p : Principal) (roles : list string) : bool := existsb (HasRole p) roles.

Fixpoint evaluate (rules : list Rule) (p : Principal) (target : operation.Operation) (matched : bool) (reason : string) : Decision :=
  match rules with
  | [] => mkDecision false (if negb matched then "no matching rbac rule" else reason)
  | rule :: rules =>
      if negb (matches (r_Service rule) (operation.o_service target)) ||
         negb (matches (r_Method rule) (operation.o_method target))
      then evaluate rules p target matched reason
      else if negb (zlen (r_AnyRole rule) =? 0) && negb (hasAnyRole p (r_AnyRole rule))
      then evaluate rules p target true "required role is missing"
      else if existsb (λ scope, negb (HasScope p scope)) (r_RequiredScope rule)
      then evaluate rules p target true "required scope is missing"
      else mkDecision true "matched rbac rule"
  end.
Definition Authorize (rbac : list Rule) (p : Principal) (target : operation.Operation) : Decision :=
  evaluate rbac p target false "no matching rbac rule".
End authz.
Import authz.

(** ** programmable/continuation/authorization.go *)
Definition maximumCallACLRules : Z := 1024.
Definition maximumCallACLPrincipals : Z := 64.
Definition maximumCallACLValues : Z := 64.
Definition maximumCallACLValueBytes : Z := 256.

Inductive Action :=
| ActionStart | ActionAttach | ActionSignal | ActionCancel | ActionHistory | ActionHistoryDetail
| ActionOther (raw : string).
#[export] Instance Action_eq_dec : EqDecision Action.
Proof. solve_decision. Defined.
Definition Action_string (a : Action) : string :=
  match a with
  | ActionStart => "Start" | ActionAttach => "Attach" | ActionSignal => "Signal" | ActionCancel => "Cancel"
  | ActionHistory => "History" | ActionHistoryDetail => "HistoryDetail" | ActionOther raw => raw
  end.
Definition Action_valid (a : Action) : bool := match a with ActionOther _ => false | _ => true end.
Definition validActions : list Action :=
  [ActionStart; ActionAttach; ActionSignal; ActionCancel; ActionHistory; ActionHistoryDetail].

Record AuthorizationRequest := mkAuthorizationRequest { ar_CallID : string; ar_Operation : string; ar_Action : Action }.

Record PrincipalIdentity := mkIdentity { pi_Issuer : string; pi_Subject : string }.
#[export] Instance PrincipalIdentity_eq_dec : EqDecision PrincipalIdentity.
Proof. solve_decision. Defined.
Definition identity_Matches (identity : PrincipalIdentity) (p : Principal) : bool :=
  (pi_Issuer identity == p_issuer p) && (pi_Subject identity == p_subject p).

Record CallACLRule := mkACLRule {
  ar_callID : string;
  ar_operation : string;
  ar_Actions : list Action;
  ar_Principals : list PrincipalIdentity;
  ar_AnyRole : list string;
  ar_RequiredScope : list string
}.

(** A rule of the list: the set of actions, the principals in order and the claims policy. *)
Record callACLRule := mkCallACLRule {
  cr_callID : string;
  cr_operation : string;
  cr_actions : list Action;
  cr_principals : list PrincipalIdentity;
  cr_policy : list authz.Rule
}.

(** By issuer, then by subject. *)
Definition identity_leb (a b : PrincipalIdentity) : bool :=
  if pi_Issuer a != pi_Issuer b then string_lt (pi_Issuer a) (pi_Issuer b)
  else String.leb (pi_Subject a) (pi_Subject b).
Definition identity_le (a b : PrincipalIdentity) : Prop := identity_leb a b = true.
#[export] Instance identity_le_dec a b : base.Decision (identity_le a b).
Proof. unfold identity_le. apply _. Defined.
Definition sort_identities (l : list PrincipalIdentity) : list PrincipalIdentity := merge_sort identity_le l.

Definition validCallIDMatcher (value : string) : bool := (value == "*") || is_ok (NewCallID value).
Definition validOperationMatcher (value : string) : bool := (value == "*") || is_ok (NewOperation value).
Definition validACLValue (value : string) (required : bool) : bool :=
  if value == "" then negb required
  else (slen value <=? maximumCallACLValueBytes) && (TrimSpace value == value) && negb (contains_break value).

(** The actions must be valid and distinct. *)
Fixpoint actions_ok (seen : list Action) (actions : list Action) : bool :=
  match actions with
  | [] => true
  | action :: actions =>
      Action_valid action && negb (bool_decide (action ∈ seen)) && actions_ok (action :: seen) actions
  end.

Definition new_acl_rule (rule : CallACLRule) : option callACLRule :=
  if negb (validCallIDMatcher (ar_callID rule)) || negb (validOperationMatcher (ar_operation rule)) ||
     (zlen (ar_Actions rule) =? 0) || (zlen validActions <? zlen (ar_Actions rule)) ||
     (maximumCallACLPrincipals <? zlen (ar_Principals rule)) then None
  else if negb (actions_ok [] (ar_Actions rule)) then None
  else if negb (forallb (λ identity, validACLValue (pi_Subject identity) true && validACLValue (pi_Issuer identity) false)
                  (ar_Principals rule)) then None
  else
    let principals := sort_identities (ar_Principals rule) in
    if adjacent principals then None
    else if (maximumCallACLValues <? zlen (ar_AnyRole rule)) || (maximumCallACLValues <? zlen (ar_RequiredScope rule)) then None
    else
      policy ← NewRBAC [mkRule "*" "*" (ar_AnyRole rule) (ar_RequiredScope rule)];
      Some (mkCallACLRule (ar_callID rule) (ar_operation rule) (ar_Actions rule) principals policy).

(** [None] is [ErrInvalidService]. *)
Definition NewCallACL (rules : list CallACLRule) : option (list callACLRule) :=
  if (zlen rules =? 0) || (maximumCallACLRules <? zlen rules) then None else mapM new_acl_rule rules.

Definition matchesACL (matcher value : string) : bool := (matcher == "*") || (matcher == value).

Definition principal_listed (rule : callACLRule) (p : Principal) : bool :=
  (zlen (cr_principals rule) =? 0) ||
  match search (λ candidate, string_lt (p_issuer p) (pi_Issuer candidate) ||
                 ((pi_Issuer candidate == p_issuer p) && String.leb (p_subject p) (pi_Subject candidate)))
          (cr_principals rule) with
  | Some identity => identity_Matches identity p
  | None => false
  end.

Fixpoint acl_rules (rules : list callACLRule) (p : Principal) (target : operation.Operation)
    (access : AuthorizationRequest) : Decision :=
  match rules with
  | [] => mkDecision false ""
  | rule :: rules =>
      if negb (matchesACL (cr_callID rule) (ar_CallID access)) ||
         negb (matchesACL (cr_operation rule) (ar_Operation access)) ||
         negb (bool_decide (ar_Action access ∈ cr_actions rule)) ||
         negb (principal_listed rule p)
      then acl_rules rules p target access
      else
        let decision := authz.Authorize (cr_policy rule) p target in
        if d_Allowed decision then decision else acl_rules rules p target access
  end.

(** [None] is an error ([ErrInvalidService]). *)
Definition acl_Authorize (acl : list callACLRule) (p : Principal) (target : operation.Operation)
    (access : AuthorizationRequest) : option Decision :=
  if negb (Action_valid (ar_Action access)) || (ar_CallID access == "") || (ar_Operation access == "") then None
  else Some (acl_rules acl p target access).

(** * What the policies decide *)

(** ** Searching a sorted list *)
Lemma search_sorted {A} (R : A → A → Prop) (f : A → bool) v l :
  AntiSymm (=) R → Reflexive R → (∀ x, f x = true ↔ R v x) → StronglySorted R l →
  (∃ x, search f l = Some x ∧ x = v) ↔ v ∈ l.
Proof.
  intros Hanti Hrefl Hf Hs. unfold search. split.
  - intros (x & Hx & ->). apply List.find_some in Hx as [Hx _]. by apply list_elem_of_In.
  - intros Hv. induction Hs as [|x l _ IH Hx]; [set_solver|]. cbn. destruct (f x) eqn:E.
    + exists x. split; [done|]. apply elem_of_cons in Hv as [->|Hv]; [done|]. apply Hf in E.
      apply (anti_symm R); [|done]. rewrite Forall_forall in Hx. by apply Hx.
    + apply elem_of_cons in Hv as [->|Hv]; [|by apply IH]. rewrite (proj2 (Hf x)) in E; done.
Qed.

Lemma leb_le s t : String.leb s t = true ↔ String.le s t.
Proof. unfold String.le. by rewrite Is_true_true. Qed.

Lemma has_spec values value : StronglySorted String.le values → has values value = true ↔ value ∈ values.
Proof.
  intros Hs. rewrite <- (search_sorted String.le (λ x, String.leb value x) value values _ _); [|apply leb_le|done].
  unfold has. destruct (search _ values) as [x|].
  - rewrite bool_decide_eq_true. naive_solver.
  - naive_solver.
Qed.

Lemma identity_leb_spec a b :
  identity_leb a b = true ↔
  (String.le (pi_Issuer a) (pi_Issuer b) ∧ pi_Issuer a ≠ pi_Issuer b) ∨
  (pi_Issuer a = pi_Issuer b ∧ String.le (pi_Subject a) (pi_Subject b)).
Proof.
  unfold identity_leb. destruct (pi_Issuer a == pi_Issuer b) eqn:E; bool_hyps; cbn [negb].
  - rewrite leb_le. naive_solver.
  - rewrite string_lt_le. naive_solver.
Qed.

#[export] Instance identity_le_refl : Reflexive identity_le.
Proof. intros a. apply identity_leb_spec. right. done. Qed.
#[export] Instance identity_le_anti : AntiSymm (=) identity_le.
Proof.
  intros [i s] [i' s'] Hab%identity_leb_spec Hba%identity_leb_spec. cbn in *.
  destruct Hab as [[H1 H2]|[-> H1]], Hba as [[H3 H4]|[E H3]]; try congruence.
  - destruct H2. by apply (anti_symm String.le).
  - f_equal. by apply (anti_symm String.le).
Qed.
#[export] Instance identity_le_trans : Transitive identity_le.
Proof.
  intros [i1 s1] [i2 s2] [i3 s3] H1%identity_leb_spec H2%identity_leb_spec. apply identity_leb_spec. cbn in *.
  destruct H1 as [[H1 H1']|[-> H1]], H2 as [[H2 H2']|[-> H2]]; try (by left); [|right; split; [done|by etrans]].
  left. split; [by etrans|]. intros <-. apply H1'. by apply (anti_symm String.le).
Qed.
#[export] Instance identity_le_total : Total identity_le.
Proof.
  intros [i s] [i' s']. unfold identity_le. rewrite !identity_leb_spec. cbn.
  destruct (decide (i = i')) as [->|Hne].
  - destruct (total String.le s s'); auto.
  - destruct (total String.le i i'); auto.
Qed.

Lemma principal_listed_spec rule p :
  StronglySorted identity_le (cr_principals rule) →
  principal_listed rule p = true ↔ cr_principals rule = [] ∨ mkIdentity (p_issuer p) (p_subject p) ∈ cr_principals rule.
Proof.
  intros Hs. unfold principal_listed.
  set (f := λ candidate, string_lt (p_issuer p) (pi_Issuer candidate) || _).
  rewrite <- (search_sorted identity_le f (mkIdentity (p_issuer p) (p_subject p)) (cr_principals rule) _ _); [| |done].
  2:{ intros x. unfold f, identity_le. rewrite identity_leb_spec, orb_true_iff, andb_true_iff, string_lt_le, bool_decide_eq_true, leb_le.
      cbn. naive_solver. }
  rewrite orb_true_iff, Z.eqb_eq. unfold zlen.
  assert (E : Z.of_nat (length (cr_principals rule)) = 0 ↔ cr_principals rule = []) by (destruct (cr_principals rule); cbn; split; intros; done || lia).
  rewrite E. apply or_iff_compat_l. destruct (search f _) as [[i s]|]; [|naive_solver].
  unfold identity_Matches. cbn. rewrite andb_true_iff, !bool_decide_eq_true. naive_solver.
Qed.

(** ** Claims *)
Lemma normalizedSet_sorted values l : normalizedSet values = Some l → StronglySorted String.le l.
Proof.
  unfold normalizedSet. destruct (forallb _ _); [|done]. cbn [negb]. destruct (adjacent _); [done|].
  intros [= <-]. apply sort_strings_sorted.
Qed.

Lemma NewPrincipal_sorted spec p : NewPrincipal spec = Some p →
  StronglySorted String.le (p_roles p) ∧ StronglySorted String.le (p_scopes p).
Proof.
  unfold NewPrincipal. destruct (_ || _); [done|].
  destruct (normalizedSet (p_audiences spec)); [|done]. cbn [mbind option_bind].
  destruct (normalizedSet (p_roles spec)) eqn:Hr; [|done]. cbn [mbind option_bind].
  destruct (normalizedSet (p_scopes spec)) eqn:Hs; [|done]. cbn [mbind option_bind].
  destruct (map_forallb _ _); [|done]. intros [= <-]. cbn. split; by eapply normalizedSet_sorted.
Qed.

Lemma normalized_perm values l : normalized values = Some l → l ≡ₚ values.
Proof.
  unfold normalized. destruct (_ || _); [done|]. destruct (adjacent _); [done|]. intros [= <-]. apply sort_strings_perm.
Qed.

(** One wildcard rule decides by the claims alone. *)
Lemma claims_policy anyRole scopes policy p target :
  NewRBAC [mkRule "*" "*" anyRole scopes] = Some policy →
  StronglySorted String.le (p_roles p) → StronglySorted String.le (p_scopes p) →
  d_Allowed (Authorize policy p target) = true ↔
    (anyRole = [] ∨ ∃ role, role ∈ anyRole ∧ role ∈ p_roles p) ∧ (∀ scope, scope ∈ scopes → scope ∈ p_scopes p).
Proof.
  unfold NewRBAC. change (maxRules <? zlen [_]) with false. cbn [mapM]. intros Hp Hroles Hscopes. revert Hp.
  unfold new_rule. cbn [r_Service r_Method r_AnyRole r_RequiredScope]. change (validMatcher "*") with true. cbn [negb orb].
  destruct (normalized anyRole) as [rs|] eqn:Hr; [|done]. cbn [mbind option_bind].
  destruct (normalized scopes) as [ss|] eqn:Hs; [|done]. cbn. intros [= <-]. apply normalized_perm in Hr, Hs.
  unfold Authorize. cbn [evaluate r_Service r_Method r_AnyRole r_RequiredScope].
  unfold matches. rewrite !bool_decide_true by done. cbn [orb negb].
  assert (Hrin : ∀ x, x ∈ rs ↔ x ∈ anyRole) by (intros; by rewrite Hr).
  assert (Hsin : ∀ x, x ∈ ss ↔ x ∈ scopes) by (intros; by rewrite Hs).
  assert (Hrole : negb (zlen rs =? 0) && negb (hasAnyRole p rs) = false ↔ anyRole = [] ∨ ∃ role, role ∈ anyRole ∧ role ∈ p_roles p).
  { rewrite andb_false_iff, !negb_false_iff, Z.eqb_eq. unfold hasAnyRole, HasRole. rewrite existsb_exists.
    setoid_rewrite (has_spec (p_roles p)); [|done]. setoid_rewrite <- list_elem_of_In. setoid_rewrite Hrin.
    apply or_iff_compat_r. unfold zlen. rewrite Hr. destruct anyRole; cbn; split; intros; done || lia. }
  assert (Hscope : existsb (λ scope, negb (HasScope p scope)) ss = false ↔ ∀ scope, scope ∈ scopes → scope ∈ p_scopes p).
  { rewrite <- not_true_iff_false, existsb_exists. unfold HasScope. setoid_rewrite negb_true_iff.
    setoid_rewrite <- not_true_iff_false. setoid_rewrite (has_spec (p_scopes p)); [|done].
    setoid_rewrite <- list_elem_of_In. setoid_rewrite Hsin. split; [|naive_solver].
    intros H scope Hin. destruct (decide (scope ∈ p_scopes p)); [done|]. destruct H. eauto. }
  rewrite <- Hrole, <- Hscope. destruct (negb _ && _); [cbn; naive_solver|]. destruct (existsb _ ss); cbn; naive_solver.
Qed.

(** ** The access list *)

(** What one declared rule grants, in words of the rule. *)
Record grants (rule : CallACLRule) (p : Principal) (access : AuthorizationRequest) : Prop := mk_grants {
  gr_call : ar_callID rule = "*" ∨ ar_callID rule = ar_CallID access;
  gr_operation : ar_operation rule = "*" ∨ ar_operation rule = ar_Operation access;
  gr_action : ar_Action access ∈ ar_Actions rule;
  gr_principal : ar_Principals rule = [] ∨ mkIdentity (p_issuer p) (p_subject p) ∈ ar_Principals rule;
  gr_role : ar_AnyRole rule = [] ∨ ∃ role, role ∈ ar_AnyRole rule ∧ role ∈ p_roles p;
  gr_scopes : ∀ scope, scope ∈ ar_RequiredScope rule → scope ∈ p_scopes p
}.

Lemma matchesACL_spec matcher value : matchesACL matcher value = true ↔ matcher = "*" ∨ matcher = value.
Proof. unfold matchesACL. by rewrite orb_true_iff, !bool_decide_eq_true. Qed.

(** The compiled form of a rule decides what the rule grants. *)
Definition rule_allows (c : callACLRule) (p : Principal) (target : operation.Operation) (access : AuthorizationRequest) : bool :=
  matchesACL (cr_callID c) (ar_CallID access) && matchesACL (cr_operation c) (ar_Operation access) &&
  bool_decide (ar_Action access ∈ cr_actions c) && principal_listed c p && d_Allowed (Authorize (cr_policy c) p target).

Lemma new_acl_rule_exact rule c p target access :
  new_acl_rule rule = Some c → StronglySorted String.le (p_roles p) → StronglySorted String.le (p_scopes p) →
  rule_allows c p target access = true ↔ grants rule p access.
Proof.
  unfold new_acl_rule. destruct (_ || _); [done|]. destruct (negb (actions_ok _ _)); [done|].
  destruct (negb (forallb _ _)); [done|]. cbv zeta. destruct (adjacent _); [done|]. destruct (_ || _); [done|].
  destruct (NewRBAC _) as [policy|] eqn:Hp; [|done]. cbn [mbind option_bind]. intros [= <-] Hr Hs.
  unfold rule_allows. cbn [cr_callID cr_operation cr_actions cr_policy].
  assert (Hsort : StronglySorted identity_le (sort_identities (ar_Principals rule)))
    by (apply StronglySorted_merge_sort; apply _).
  rewrite !andb_true_iff, !matchesACL_spec, bool_decide_eq_true, (claims_policy _ _ _ _ _ Hp Hr Hs).
  rewrite principal_listed_spec by done. cbn [cr_principals].
  pose proof (merge_sort_Permutation identity_le (ar_Principals rule)) as Hperm. fold (sort_identities (ar_Principals rule)) in Hperm.
  assert (Hnil : sort_identities (ar_Principals rule) = [] ↔ ar_Principals rule = []).
  { split; intros E; [rewrite E in Hperm; by apply Permutation_nil_l in Hperm|by rewrite E]. }
  rewrite Hnil, Hperm. split.
  - intros ((((H1 & H2) & H3) & H4) & H5 & H6). by constructor.
  - intros []. done.
Qed.

Lemma acl_rules_allowed acl p target access :
  d_Allowed (acl_rules acl p target access) = true ↔ ∃ c, c ∈ acl ∧ rule_allows c p target access = true.
Proof.
  induction acl as [|c acl IH]; cbn [acl_rules]; [cbn; set_solver|].
  assert (Hcons : (∃ x, x ∈ c :: acl ∧ rule_allows x p target access = true) ↔
    rule_allows c p target access = true ∨ ∃ x, x ∈ acl ∧ rule_allows x p target access = true) by set_solver.
  rewrite Hcons, <- IH. unfold rule_allows at 1.
  destruct (matchesACL (cr_callID c) _), (matchesACL (cr_operation c) _), (bool_decide _), (principal_listed c p); cbn [andb orb negb];
    try (split; [by right|by intros [|]]).
  destruct (d_Allowed (Authorize (cr_policy c) p target)) eqn:E; (split; [by auto|by intros [|]]).
Qed.

Lemma acl_decides rules acl spec p target access :
  NewCallACL rules = Some acl → NewPrincipal spec = Some p →
  match acl_Authorize acl p target access with
  | Some decision => d_Allowed decision = true ↔ ∃ rule, rule ∈ rules ∧ grants rule p access
  | None => Action_valid (ar_Action access) = false ∨ ar_CallID access = "" ∨ ar_Operation access = ""
  end.
Proof.
  intros Hacl Hp. destruct (NewPrincipal_sorted _ _ Hp) as [Hr Hs]. unfold acl_Authorize.
  destruct (_ || _) eqn:E.
  { apply orb_true_iff in E as [E|E]; [apply orb_true_iff in E as [E|E]|]; bool_hyps; auto. }
  unfold NewCallACL in Hacl. destruct (_ || _); [done|]. apply mapM_Some in Hacl. rewrite acl_rules_allowed. split.
  - intros (c & Hin & Hc). apply list_elem_of_lookup in Hin as [i Hi].
    destruct (Forall2_lookup_r _ _ _ _ _ Hacl Hi) as (rule & Hrule & Hnew). exists rule.
    split; [by eapply list_elem_of_lookup_2|]. by apply (new_acl_rule_exact rule c p target access).
  - intros (rule & Hin & Hg). apply list_elem_of_lookup in Hin as [i Hi].
    destruct (Forall2_lookup_l _ _ _ _ _ Hacl Hi) as (c & Hc & Hnew). exists c.
    split; [by eapply list_elem_of_lookup_2|]. by apply (new_acl_rule_exact rule c p target access).
Qed.

(** the access list allows exactly what its rules grant.  For a list built by [NewCallACL] and
    a principal built by [NewPrincipal], a well-formed request is allowed if and only if some
    declared rule names the call, the operation and the action (or the wildcard), lists the
    issuer and subject or lists nobody, and the principal has one of the roles and all of the
    scopes: sorting, binary searches and rule order make no difference.  Malformed requests are
    errors, never decisions. *)
Theorem acl_exact rules acl spec p target access :
  NewCallACL rules = Some acl → NewPrincipal spec = Some p →
  match acl_Authorize acl p target access with
  | Some decision => d_Allowed decision = true ↔ ∃ rule, rule ∈ rules ∧ grants rule p access
  | None => Action_valid (ar_Action access) = false ∨ ar_CallID access = "" ∨ ar_Operation access = ""
  end.
Proof. apply acl_decides. Qed.

(** * Witnesses *)
Definition ex_rules : list CallACLRule :=
  [mkACLRule "*" "/orders/Place" [ActionStart; ActionAttach] [] ["clerk"; "admin"] ["orders"];
   mkACLRule "*" "*" [ActionHistory] [mkIdentity "idp" "zoe"; mkIdentity "idp" "amy"] [] []].
Definition ex_spec : Principal := mkPrincipal "amy" "idp" [] ["clerk"] ["payments"; "orders"] ∅ 0.
Definition ex_target : operation.Operation := operation.mkOperation "continuation" "svc" "History" operation.KindUnary.

Lemma acl_exact_witness : ∃ acl p,
  NewCallACL ex_rules = Some acl ∧ NewPrincipal ex_spec = Some p ∧
  (∃ decision, acl_Authorize acl p ex_target (mkAuthorizationRequest "call-1" "/x/Y" ActionHistory) = Some decision ∧
    d_Allowed decision = true) ∧
  (∃ decision, acl_Authorize acl p ex_target (mkAuthorizationRequest "call-1" "/x/Y" ActionCancel) = Some decision ∧
    d_Allowed decision = false).
Proof.
  destruct (NewCallACL ex_rules) as [acl|] eqn:Ha; [|vm_compute in Ha; discriminate].
  destruct (NewPrincipal ex_spec) as [p|] eqn:Hp; [|vm_compute in Hp; discriminate].
  exists acl, p. split; [reflexivity|]. split; [reflexivity|]. split.
  - pose proof (acl_exact ex_rules acl ex_spec p ex_target (mkAuthorizationRequest "call-1" "/x/Y" ActionHistory) Ha Hp) as H.
    destruct (acl_Authorize _ _ _ _) as [d|]; [|destruct H as [H|[H|H]]; discriminate H].
    exists d. split; [reflexivity|]. apply H. exists (mkACLRule "*" "*" [ActionHistory] [mkIdentity "idp" "zoe"; mkIdentity "idp" "amy"] [] []).
    split; [apply list_elem_of_In; right; by left|]. vm_compute in Hp. injection Hp as <-.
    constructor; cbn; [by left|by left|by apply list_elem_of_singleton|right; apply list_elem_of_In; right; by left|by left|].
    intros scope Hscope. by apply elem_of_nil in Hscope.
  - pose proof (acl_exact ex_rules acl ex_spec p ex_target (mkAuthorizationRequest "call-1" "/x/Y" ActionCancel) Ha Hp) as H.
    destruct (acl_Authorize _ _ _ _) as [d|]; [|destruct H as [H|[H|H]]; discriminate H].
    exists d. split; [reflexivity|]. destruct (d_Allowed d); [|reflexivity]. exfalso.
    destruct (proj1 H eq_refl) as (rule & Hin & Hg). apply gr_action in Hg. unfold ex_rules in Hin.
    apply list_elem_of_In in Hin, Hg. destruct Hin as [<-|[<-|[]]]; cbn in Hg; destruct_or! Hg; done.
Defined.
