(* ===== verification/Service.v ===== *)
(** * programmable/continuation: the access-controlled service

    Models [service.go] and [memory/ownership.go].  The service stands in front of a runtime it
    knows through [ServiceRuntime] (the interfaces [ServiceRuntime], [WorkflowServiceRuntime] and
    the optional inline path).  The ownership store is the memory implementation, a map under a
    lock.  What the configured [authz.Authorizer] answers during a call is part of the call's
    context, since it is application code; a panic in it is one of its answers. *)
From S2P Require Import Prelude GoText ContModel ContState ContStore Registry Runtime RuntimeSpec WorkflowRuntime Access.
Import security authz.
Open Scope Z_scope.

Inductive serror :=
| ErrInvalidService | ErrAuthenticationRequired | ErrAccessDenied | ErrAuthorizationFailed
| ErrOwnershipConflict | ErrOwnershipNotFound
| ServiceCause (e : rerror).             (* an error of the runtime or the cause of the context *)

(** What an [Authorizer] does when it is called. *)
Inductive authorization := Decided (decision : authz.Decision) | Failed | Panicked.

(** The caller's context: its cause, its principal, the time [service.now] reads, and the
    authorizer's answers. *)
Record CallContext := mkCallContext {
  cc_cause : option rerror;
  cc_principal : option Principal;
  cc_now : time;
  cc_answer : Principal → operation.Operation → AuthorizationRequest → authorization
}.

Class ServiceRuntime (W : Type) := {
  sr_StartCall : string → string → string → W → result rerror Snapshot * W;
  sr_StartCallInline : option (string → string → string → InlineBudget → W → result rerror Snapshot * W);
  sr_StartWorkflow : string → string → string → string → W → result rerror Snapshot * W;
  sr_Attach : string → Z → Z → W → result rerror Attachment * W;
  sr_SubmitSignal : string → string → string → W → result rerror Snapshot * W;
  sr_RequestCancel : string → string → W → result rerror Snapshot * W
}.

(** ** Ownership *)
Record Ownership := mkOwnership { ow_callID : string; ow_operation : string; ow_issuer : string; ow_subject : string }.
#[export] Instance Ownership_eq_dec : EqDecision Ownership.
Proof. solve_decision. Defined.

Definition NewOwnership (callID durableOperation : string) (p : Principal) : result serror Ownership :=
  if (callID == "") || (durableOperation == "") || negb (Validate p 0) then Err ErrInvalidService
  else Ok (mkOwnership callID durableOperation (p_issuer p) (p_subject p)).

Definition Ownership_Matches (o : Ownership) (p : Principal) : bool :=
  (ow_issuer o == p_issuer p) && (ow_subject o == p_subject p).
Definition Ownership_Equal (o o' : Ownership) : bool :=
  (ow_callID o == ow_callID o') && (ow_operation o == ow_operation o') &&
  (ow_issuer o == ow_issuer o') && (ow_subject o == ow_subject o').
Definition Ownership_Valid (o : Ownership) : bool :=
  (ow_callID o != "") && (ow_operation o != "") && (ow_subject o != "").

Definition OwnershipStore : Type := gmap string Ownership.

Definition Bind (ctx : CallContext) (o : Ownership) (s : OwnershipStore) : option serror * OwnershipStore :=
  if negb (Ownership_Valid o) then (Some ErrInvalidService, s)
  else match cc_cause ctx with
  | Some cause => (Some (ServiceCause cause), s)
  | None =>
      match s !! ow_callID o with
      | Some current => ((if Ownership_Equal current o then None else Some ErrOwnershipConflict), s)
      | None => (None, <[ow_callID o := o]> s)
      end
  end.

Definition Load (ctx : CallContext) (callID : string) (s : OwnershipStore) : result serror Ownership :=
  if callID == "" then Err ErrInvalidService
  else match cc_cause ctx with
  | Some cause => Err (ServiceCause cause)
  | None => match s !! callID with None => Err ErrOwnershipNotFound | Some o => Ok o end
  end.

(** ** Construction: which of the interfaces are nil *)
Record ServiceConfig := mkServiceConfig {
  sc_Runtime : bool; sc_Workflow : bool; sc_PublicAccess : bool; sc_Authorizer : bool; sc_Ownerships : bool
}.
Record Service := mkService { sv_workflow : bool; sv_public : bool; sv_authorizer : bool; sv_ownerships : bool }.

Definition NewService (config : ServiceConfig) : result serror Service :=
  if negb (sc_Runtime config) ||
     (sc_PublicAccess config && (sc_Authorizer config || sc_Ownerships config)) ||
     (negb (sc_PublicAccess config) && xorb (sc_Authorizer config) (sc_Ownerships config))
  then Err ErrInvalidService
  else Ok (mkService (sc_Workflow config) (sc_PublicAccess config) (sc_Authorizer config) (sc_Ownerships config)).

(** ** Authorization *)
Definition continuationAuthorizationService : string := "keelith.continuation.v1.ContinuationService".
Definition continuationAuthorizationOperation (action : Action) : option operation.Operation :=
  if negb (Action_valid action) then None
  else
    let kind := if action == ActionAttach then operation.KindServerStream else operation.KindUnary in
    operation.New "continuation" continuationAuthorizationService (Action_string action) kind.

Definition callAuthorizer (ctx : CallContext) (p : Principal) (request : AuthorizationRequest) : option serror :=
  match continuationAuthorizationOperation (ar_Action request) with
  | None => Some ErrAuthorizationFailed
  | Some target =>
      match cc_answer ctx p target request with
      | Panicked | Failed => Some ErrAuthorizationFailed
      | Decided decision => if negb (d_Allowed decision) then Some ErrAccessDenied else None
      end
  end.

Definition principal (ctx : CallContext) : result serror Principal :=
  match cc_principal ctx with
  | Some p => if Validate p (cc_now ctx) then Ok p else Err ErrAuthenticationRequired
  | None => Err ErrAuthenticationRequired
  end.

Definition authorize (sv : Service) (ctx : CallContext) (request : AuthorizationRequest) : result serror Principal :=
  if negb (sv_authorizer sv) || negb (sv_ownerships sv) then Err ErrAccessDenied
  else
    p ← principal ctx;
    match callAuthorizer ctx p request with Some err => Err err | None => Ok p end.

Definition authorizeExisting (sv : Service) (ctx : CallContext) (callID : string) (action : Action) (s : OwnershipStore) :
    option serror :=
  if sv_public sv then None
  else if negb (sv_authorizer sv) || negb (sv_ownerships sv) then Some ErrAccessDenied
  else match principal ctx with
  | Err err => Some err
  | Ok p =>
      match Load ctx callID s with
      | Err ErrOwnershipNotFound => Some ErrAccessDenied
      | Err err => Some err
      | Ok o =>
          if negb (Ownership_Matches o p) then Some ErrAccessDenied
          else callAuthorizer ctx p (mkAuthorizationRequest callID (ow_operation o) action)
      end
  end.

(** ** The operations *)
Section service.
  Context {W : Type} `{ServiceRuntime W}.
  Context (sv : Service).

(** The state a call sees: the ownership store and the runtime's world. *)
Definition state : Type := OwnershipStore * W.

(** Run the runtime and wrap its errors. *)
Definition on_runtime {A} (f : W → result rerror A * W) (st : state) : result serror A * state :=
  let '(r, w) := f st.2 in
  (match r with Ok a => Ok a | Err err => Err (ServiceCause err) end, (st.1, w)).

(** Authorize and bind a new call, then continue. *)
Definition start_bound {A} (ctx : CallContext) (callID durableOperation : string)
    (next : state → result serror A * state) (st : state) : result serror A * state :=
  match authorize sv ctx (mkAuthorizationRequest callID durableOperation ActionStart) with
  | Err err => (Err err, st)
  | Ok p =>
      match NewOwnership callID durableOperation p with
      | Err err => (Err err, st)
      | Ok o =>
          match Bind ctx o st.1 with
          | (Some ErrOwnershipConflict, s) => (Err ErrAccessDenied, (s, st.2))
          | (Some err, s) => (Err err, (s, st.2))
          | (None, s) => next (s, st.2)
          end
      end
  end.

Definition startRuntime (callID durableOperation input : string) (budget : option InlineBudget) :
    state → result serror Snapshot * state :=
  match budget, sr_StartCallInline with
  | Some budget, Some inline => on_runtime (inline callID durableOperation input budget)
  | _, _ => on_runtime (sr_StartCall callID durableOperation input)
  end.

(** A nil context is [None]. *)
Definition startCall (ctx : option CallContext) (callID durableOperation input : string) (budget : option InlineBudget)
    (st : state) : result serror Snapshot * state :=
  match ctx with
  | None => (Err ErrInvalidService, st)
  | Some ctx =>
      if sv_public sv then startRuntime callID durableOperation input budget st
      else start_bound ctx callID durableOperation (startRuntime callID durableOperation input budget) st
  end.

Definition StartCall ctx callID durableOperation input : state → result serror Snapshot * state :=
  startCall ctx callID durableOperation input None.
Definition StartCallInline ctx callID durableOperation input budget : state → result serror Snapshot * state :=
  startCall ctx callID durableOperation input (Some budget).

Definition StartWorkflow (ctx : option CallContext) (callID durableOperation version input : string) (st : state) :
    result serror Snapshot * state :=
  match ctx with
  | None => (Err (ServiceCause (Plain ErrWorkflowDefinitionMismatch)), st)
  | Some ctx =>
      if negb (sv_workflow sv) then (Err (ServiceCause (Plain ErrWorkflowDefinitionMismatch)), st)
      else if sv_public sv then on_runtime (sr_StartWorkflow callID durableOperation version input) st
      else start_bound ctx callID durableOperation (on_runtime (sr_StartWorkflow callID durableOperation version input)) st
  end.

(** Authorize an existing call, then continue. *)
Definition guarded {A} (ctx : option CallContext) (callID : string) (action : Action)
    (next : state → result serror A * state) (st : state) : result serror A * state :=
  match ctx with
  | None => (Err ErrInvalidService, st)
  | Some ctx =>
      match authorizeExisting sv ctx callID action st.1 with
      | Some err => (Err err, st)
      | None => next st
      end
  end.

Definition Attach (ctx : option CallContext) (callID : string) (after limit : Z) : state → result serror Attachment * state :=
  guarded ctx callID ActionAttach (on_runtime (sr_Attach callID after limit)).

Definition History (ctx : option CallContext) (callID : string) (after limit : Z) : state → result serror Attachment * state :=
  guarded ctx callID ActionHistory (λ st,
    match on_runtime (sr_Attach callID after limit) st with
    | (Ok a, st) => (Ok (payloadFreeHistory a), st)
    | (Err err, st) => (Err err, st)
    end).

Definition HistoryDetail (ctx : option CallContext) (callID : string) (after limit maxPayloadBytes : Z) :
    state → result serror Attachment * state :=
  guarded ctx callID ActionHistoryDetail (λ st,
    match on_runtime (sr_Attach callID after limit) st with
    | (Ok a, st) =>
        (match boundedDetailHistory a maxPayloadBytes with Ok a => Ok a | Err err => Err (ServiceCause (Plain err)) end, st)
    | (Err err, st) => (Err err, st)
    end).

Definition SubmitSignal (ctx : option CallContext) (callID commandID payload : string) : state → result serror Snapshot * state :=
  guarded ctx callID ActionSignal (on_runtime (sr_SubmitSignal callID commandID payload)).
Definition RequestCancel (ctx : option CallContext) (callID commandID : string) : state → result serror Snapshot * state :=
  guarded ctx callID ActionCancel (on_runtime (sr_RequestCancel callID commandID)).

(** ** Runs: any sequence of calls *)
Inductive request :=
| DoStart (callID op input : string) (budget : option InlineBudget)
| DoStartWorkflow (callID op version input : string)
| DoAttach (callID : string) (after limit : Z)
| DoHistory (callID : string) (after limit : Z)
| DoHistoryDetail (callID : string) (after limit maxPayloadBytes : Z)
| DoSignal (callID commandID payload : string)
| DoCancel (callID commandID : string).

Definition request_call (q : request) : string :=
  match q with
  | DoStart k _ _ _ | DoStartWorkflow k _ _ _ | DoAttach k _ _ | DoHistory k _ _ | DoHistoryDetail k _ _ _
  | DoSignal k _ _ | DoCancel k _ => k
  end.
Definition request_action (q : request) : Action :=
  match q with
  | DoStart _ _ _ _ | DoStartWorkflow _ _ _ _ => ActionStart
  | DoAttach _ _ _ => ActionAttach | DoHistory _ _ _ => ActionHistory | DoHistoryDetail _ _ _ _ => ActionHistoryDetail
  | DoSignal _ _ _ => ActionSignal | DoCancel _ _ => ActionCancel
  end.

(** What the caller gets: a snapshot, a page of frames, or an error. *)
Inductive reply := Replied (s : Snapshot) | Attached (a : Attachment) | Refused (err : serror).
Definition replied (r : result serror Snapshot) : reply := match r with Ok s => Replied s | Err err => Refused err end.
Definition attached (r : result serror Attachment) : reply := match r with Ok a => Attached a | Err err => Refused err end.

Definition serve (ctx : option CallContext) (q : request) (st : state) : reply * state :=
  let snapshot (x : result serror Snapshot * state) := (replied x.1, x.2) in
  let attachment (x : result serror Attachment * state) := (attached x.1, x.2) in
  match q with
  | DoStart k op input budget => snapshot (startCall ctx k op input budget st)
  | DoStartWorkflow k op version input => snapshot (StartWorkflow ctx k op version input st)
  | DoAttach k after limit => attachment (Attach ctx k after limit st)
  | DoHistory k after limit => attachment (History ctx k after limit st)
  | DoHistoryDetail k after limit m => attachment (HistoryDetail ctx k after limit m st)
  | DoSignal k c payload => snapshot (SubmitSignal ctx k c payload st)
  | DoCancel k c => snapshot (RequestCancel ctx k c st)
  end.

Definition serves (l : list (option CallContext * request)) (st : state) : state :=
  fold_left (λ st q, (serve q.1 q.2 st).2) l st.
End service.

(** The runtimes of this library behind the service: calls go to a [Runtime], which has the inline
    path, and workflow starts to a [WorkflowRuntime]. *)
Definition runtime_service {W} `{Environment W, LeaseStore W} (r : Runtime W) (wr : WorkflowRuntime W) : ServiceRuntime W := {|
  sr_StartCall := Runtime.StartCall r;
  sr_StartCallInline := Some (Runtime.StartCallInline r);
  sr_StartWorkflow := WorkflowRuntime.Start wr;
  sr_Attach := Runtime.Attach;
  sr_SubmitSignal := Runtime.SubmitSignal;
  sr_RequestCancel := Runtime.RequestCancel
|}.

(** The [CallACL] of authorization.go as the authorizer of a context. *)
Definition acl_answer (acl : list callACLRule) (p : Principal) (target : operation.Operation) (q : AuthorizationRequest) :
    authorization :=
  match acl_Authorize acl p target q with Some decision => Decided decision | None => Failed end.

(** * Access control *)
Section guard.
  Context {W : Type} `{ServiceRuntime W}.
  Context (sv : Service) (Hprivate : sv_public sv = false).
  Implicit Types (st : OwnershipStore * W).

(** The authorizer was asked about exactly this resource and action, and allowed it. *)
Definition permitted (ctx : CallContext) (p : Principal) (callID op : string) (action : Action) : Prop :=
  ∃ target decision, continuationAuthorizationOperation action = Some target ∧
    cc_answer ctx p target (mkAuthorizationRequest callID op action) = Decided decision ∧ d_Allowed decision = true.

Lemma callAuthorizer_None ctx p k op action :
  callAuthorizer ctx p (mkAuthorizationRequest k op action) = None → permitted ctx p k op action.
Proof.
  unfold callAuthorizer, permitted. cbn [ar_Action]. destruct (continuationAuthorizationOperation action) as [target|]; [|done].
  destruct (cc_answer _ _ _ _) as [decision| |] eqn:Ha; try done.
  destruct (d_Allowed decision) eqn:Hd; [|done]. intros _. by exists target, decision.
Qed.

Definition owner_of (o : Ownership) (p : Principal) : Prop := ow_issuer o = p_issuer p ∧ ow_subject o = p_subject p.

Lemma Ownership_Matches_spec o p : Ownership_Matches o p = true ↔ owner_of o p.
Proof. unfold Ownership_Matches, owner_of. by rewrite andb_true_iff, !bool_decide_eq_true. Qed.

Lemma authorizeExisting_None ctx k action (s : OwnershipStore) :
  authorizeExisting sv ctx k action s = None →
  ∃ p o, principal ctx = Ok p ∧ s !! k = Some o ∧ owner_of o p ∧ permitted ctx p k (ow_operation o) action.
Proof.
  unfold authorizeExisting. rewrite Hprivate. destruct (_ || _); [done|]. destruct (principal ctx) as [p|]; [|done].
  unfold Load. destruct (k == ""); [done|]. destruct (cc_cause ctx); [done|]. destruct (s !! k) as [o|] eqn:Ho; [|done].
  destruct (Ownership_Matches o p) eqn:Hm; [|done]. cbn [negb]. intros Hc%callAuthorizer_None.
  exists p, o. by rewrite <- Ownership_Matches_spec.
Qed.

Lemma permitted_None ctx p k op action :
  permitted ctx p k op action → callAuthorizer ctx p (mkAuthorizationRequest k op action) = None.
Proof.
  intros (target & decision & Ht & Ha & Hd). unfold callAuthorizer. cbn [ar_Action]. by rewrite Ht, Ha, Hd.
Qed.

Lemma Validate_subject p now : Validate p now = true → p_subject p ≠ "".
Proof.
  unfold Validate, NewPrincipal. intros Hv Hs. rewrite Hs in Hv. done.
Qed.

(** The converses: what a permitted caller achieves. *)
Lemma authorizeExisting_allows ctx p k o action (s : OwnershipStore) :
  sv_authorizer sv = true → sv_ownerships sv = true → cc_cause ctx = None → principal ctx = Ok p → k ≠ "" →
  s !! k = Some o → owner_of o p → permitted ctx p k (ow_operation o) action →
  authorizeExisting sv ctx k action s = None.
Proof.
  intros Ha Ho Hc Hp Hk Hs Hm%Ownership_Matches_spec Hperm%permitted_None. unfold authorizeExisting, Load.
  rewrite Hprivate, Ha, Ho, Hp, (bool_decide_eq_false_2 (k = "") Hk), Hc. cbn [negb orb]. rewrite Hs, Hm. exact Hperm.
Qed.

Lemma start_bound_claims ctx p k op next st :
  sv_authorizer sv = true → sv_ownerships sv = true → cc_cause ctx = None → principal ctx = Ok p →
  Validate p 0 = true → k ≠ "" → op ≠ "" → st.1 !! k = None → permitted ctx p k op ActionStart →
  start_bound (A := Snapshot) sv ctx k op next st =
    next (<[k := mkOwnership k op (p_issuer p) (p_subject p)]> st.1, st.2).
Proof.
  intros Ha Ho Hc Hp Hv Hk Hop Hs Hperm%permitted_None. unfold start_bound, authorize, NewOwnership, Bind, Ownership_Valid.
  rewrite Ha, Ho, Hp. cbn -[callAuthorizer Validate]. rewrite Hperm, Hv.
  rewrite (bool_decide_eq_false_2 (k = "") Hk), (bool_decide_eq_false_2 (op = "") Hop). cbn.
  rewrite (bool_decide_eq_false_2 (k = "") Hk), (bool_decide_eq_false_2 (op = "") Hop),
    (bool_decide_eq_false_2 (p_subject p = "") (Validate_subject _ _ Hv)), Hc. cbn.
  by rewrite Hs.
Qed.

(** The owner of the call was recorded before and all bindings stay, or a start records the first one. *)
Definition bound_by (k : string) (action : Action) (o : Ownership) (before after : OwnershipStore) : Prop :=
  (before !! k = Some o ∧ after = before) ∨ (before !! k = None ∧ action = ActionStart ∧ after = <[k := o]> before).
Lemma bound_by_owner k action o before after x : bound_by k action o before after → before !! k = Some x → x = o.
Proof. intros [[Ho _]|[Hn _]] Hx; congruence. Qed.

(** A successful [Bind] leaves the binding in place, and changes no other. *)
Lemma Bind_spec ctx o (s s' : OwnershipStore) err :
  Bind ctx o s = (err, s') →
  (err = None → s' !! ow_callID o = Some o ∧ bound_by (ow_callID o) ActionStart o s s') ∧
  (∀ k x, s !! k = Some x → s' !! k = Some x) ∧ (err ≠ None → s' = s).
Proof.
  unfold Bind. destruct (negb (Ownership_Valid o)); [intros [= <- <-]; naive_solver|].
  destruct (cc_cause ctx); [intros [= <- <-]; naive_solver|]. destruct (s !! ow_callID o) as [x|] eqn:Hx.
  - intros [= <- <-]. split_and!; [|done|done]. destruct (Ownership_Equal x o) eqn:E; [|done]. intros _.
    assert (x = o) as -> by (unfold Ownership_Equal in E; bool_hyps; destruct x, o; cbn in *; congruence). split; [done|]. by left.
  - intros [= <- <-]. split; [intros _; split; [apply lookup_insert_eq|by right]|]. split; [|done].
    intros k x Hk. destruct (decide (ow_callID o = k)) as [<-|Hne]; [congruence|]. apply lookup_insert_Some. by right.
Qed.

(** What a call may do: be refused with nothing touched, or act for an owner who is permitted. *)
Definition guard_ok (ctx : option CallContext) (k : string) (action : Action) st (out : reply * (OwnershipStore * W)) : Prop :=
  (∃ err, out = (Refused err, st)) ∨
  ∃ c p o, ctx = Some c ∧ principal c = Ok p ∧ out.2.1 !! k = Some o ∧ owner_of o p ∧
    permitted c p k (ow_operation o) action ∧ bound_by k action o st.1 out.2.1.

Definition same_owners {A} (next : OwnershipStore * W → result serror A * (OwnershipStore * W)) : Prop :=
  ∀ st, (next st).2.1 = st.1.

Lemma on_runtime_owners {A} (f : W → result rerror A * W) : same_owners (on_runtime f).
Proof. intros [s w]. unfold on_runtime. by destruct (f _). Qed.

Lemma guarded_ok {A} ctx k action next (f : result serror A → reply) st :
  same_owners next → (∀ err, f (Err err) = Refused err) →
  guard_ok ctx k action st (f (guarded sv ctx k action next st).1, (guarded sv ctx k action next st).2).
Proof.
  intros Hn Hf. unfold guarded. destruct ctx as [c|]; [|left; eexists; cbn; by rewrite Hf].
  destruct (authorizeExisting sv c k action st.1) as [err|] eqn:E; [left; exists err; cbn; by rewrite Hf|].
  destruct (authorizeExisting_None _ _ _ _ E) as (p & o & Hp & Ho & Hm & Hperm). right. exists c, p, o.
  cbn. rewrite Hn. split_and!; try done. by left.
Qed.

Lemma start_bound_ok c k op next st :
  same_owners next →
  guard_ok (Some c) k ActionStart st (replied (start_bound sv c k op next st).1, (start_bound sv c k op next st).2).
Proof.
  intros Hn. unfold start_bound. destruct (authorize sv c _) as [p|err] eqn:Ha; [|left; by exists err].
  unfold authorize in Ha. destruct (_ || _); [done|]. destruct (principal c) as [p'|] eqn:Hp; [|done]. cbn in Ha.
  destruct (callAuthorizer c p' _) eqn:Hc; [done|]. injection Ha as ->. apply callAuthorizer_None in Hc.
  destruct (NewOwnership k op p) as [o|err] eqn:Ho; [|left; by exists err].
  unfold NewOwnership in Ho. destruct (_ || _); [done|]. injection Ho as <-.
  destruct (Bind c _ st.1) as [err s] eqn:Hb. destruct (Bind_spec _ _ _ _ _ Hb) as (Hnew & Hkeep & Hsame).
  destruct err as [err|].
  - left. rewrite (Hsame ltac:(done)). destruct st. destruct err; by eexists.
  - right. exists c, p, (mkOwnership k op (p_issuer p) (p_subject p)). cbn. rewrite Hn. cbn.
    destruct (Hnew eq_refl) as [Hs Hx]. split_and!; done.
Qed.

Lemma startRuntime_owners k op input budget : same_owners (startRuntime k op input budget).
Proof. unfold startRuntime. destruct budget, sr_StartCallInline; apply on_runtime_owners. Qed.

Lemma serve_guarded ctx q st : guard_ok ctx (request_call q) (request_action q) st (serve sv ctx q st).
Proof.
  assert (Hinv : ∀ (r : serror), guard_ok ctx (request_call q) (request_action q) st (Refused r, st)) by (intros; left; eauto).
  destruct q as [k op input budget|k op version input|k after limit|k after limit|k after limit m|k c payload|k c];
    cbn [serve request_call request_action] in *.
  - unfold startCall. rewrite Hprivate. destruct ctx as [c|]; [|apply Hinv]. apply start_bound_ok, startRuntime_owners.
  - unfold StartWorkflow. rewrite Hprivate. destruct ctx as [c|]; [|apply Hinv].
    destruct (negb (sv_workflow sv)); [apply Hinv|]. apply start_bound_ok, on_runtime_owners.
  - apply guarded_ok; [apply on_runtime_owners|done].
  - apply guarded_ok; [|done]. intros x. pose proof (on_runtime_owners (sr_Attach k after limit) x) as Ho.
    by destruct (on_runtime (sr_Attach k after limit) x) as [[] ?].
  - apply guarded_ok; [|done]. intros x. pose proof (on_runtime_owners (sr_Attach k after limit) x) as Ho.
    by destruct (on_runtime (sr_Attach k after limit) x) as [[] ?].
  - apply guarded_ok; [apply on_runtime_owners|done].
  - apply guarded_ok; [apply on_runtime_owners|done].
Qed.

(** Bindings are never changed or removed. *)
Lemma serve_keeps ctx q st k o : st.1 !! k = Some o → (serve sv ctx q st).2.1 !! k = Some o.
Proof.
  intros Ho. assert (Hk : ∀ A next (out : result serror A * (OwnershipStore * W)), same_owners next →
    out = next st → out.2.1 !! k = Some o) by (intros A next out Hn ->; by rewrite Hn).
  assert (Hg : ∀ A action k' (next : OwnershipStore * W → result serror A * (OwnershipStore * W)), same_owners next →
    (guarded sv ctx k' action next st).2.1 !! k = Some o).
  { intros A action k' next Hn. unfold guarded. destruct ctx as [c|]; [|done].
    destruct (authorizeExisting _ _ _ _ _); [done|]. by rewrite Hn. }
  assert (Hs : ∀ A c k' op (next : OwnershipStore * W → result serror A * (OwnershipStore * W)), same_owners next →
    (start_bound sv c k' op next st).2.1 !! k = Some o).
  { intros A c k' op next Hn. unfold start_bound. destruct (authorize _ _ _); [|done]. destruct (NewOwnership _ _ _); [|done].
    destruct (Bind c _ st.1) as [err s] eqn:Hb. destruct (Bind_spec _ _ _ _ _ Hb) as (_ & Hkeep & _).
    apply Hkeep in Ho. destruct err as [[]|]; try done. rewrite Hn. done. }
  destruct q as [k' op input budget|k' op version input|k' after limit|k' after limit|k' after limit m|k' c payload|k' c];
    cbn [serve].
  - unfold startCall. rewrite Hprivate. destruct ctx as [c|]; [|done]. apply Hs, startRuntime_owners.
  - unfold StartWorkflow. rewrite Hprivate. destruct ctx as [c|]; [|done]. destruct (negb _); [done|].
    apply Hs, on_runtime_owners.
  - apply Hg, on_runtime_owners.
  - apply Hg. intros x. pose proof (on_runtime_owners (sr_Attach k' after limit) x) as Hr.
    by destruct (on_runtime (sr_Attach k' after limit) x) as [[] ?].
  - apply Hg. intros x. pose proof (on_runtime_owners (sr_Attach k' after limit) x) as Hr.
    by destruct (on_runtime (sr_Attach k' after limit) x) as [[] ?].
  - apply Hg, on_runtime_owners.
  - apply Hg, on_runtime_owners.
Qed.

Lemma serves_keep l st k o : st.1 !! k = Some o → (serves sv l st).1 !! k = Some o.
Proof.
  unfold serves. revert st. induction l as [|q l IH]; intros st Ho; [done|]. cbn. apply IH. by apply serve_keeps.
Qed.
End guard.

(** C11: nothing behind the service is touched without permission.  For a service without public
    access, every call either is refused with the runtime and the bindings unchanged, or the
    context carries a valid principal whom the authorizer, asked about this call, its recorded
    operation and this action, has allowed, and who was the recorded owner of the call before it,
    with no binding changed; or nobody owned the call, the action is a start, and the only new
    binding is the caller's for this call. *)
Theorem service_guard {W} `{ServiceRuntime W} sv ctx q (st : OwnershipStore * W) :
  sv_public sv = false →
  (∃ err, serve sv ctx q st = (Refused err, st)) ∨
  ∃ c p o, ctx = Some c ∧ principal c = Ok p ∧ (serve sv ctx q st).2.1 !! request_call q = Some o ∧
    owner_of o p ∧ permitted c p (request_call q) (ow_operation o) (request_action q) ∧
    ((st.1 !! request_call q = Some o ∧ (serve sv ctx q st).2.1 = st.1) ∨
     (st.1 !! request_call q = None ∧ request_action q = ActionStart ∧ (serve sv ctx q st).2.1 = <[request_call q := o]> st.1)).
Proof.
  intros Hpriv. destruct (serve_guarded sv Hpriv ctx q st) as [H0|(c & p & o & H1 & H2 & H3 & H4 & H5 & H6)]; [by left|].
  right. by exists c, p, o.
Qed.

(** a call belongs to its first owner for ever.  Once a call is bound, then after any further
    calls by anyone the binding is the same, and every call about it by another issuer or subject,
    or without a principal, is refused and changes nothing. *)
Theorem owners_isolated {W} `{ServiceRuntime W} sv l (st : OwnershipStore * W) k o ctx q :
  sv_public sv = false → st.1 !! k = Some o → request_call q = k →
  (∀ c p, ctx = Some c → cc_principal c = Some p → ¬ owner_of o p) →
  (serves sv l st).1 !! k = Some o ∧ ∃ err, serve sv ctx q (serves sv l st) = (Refused err, serves sv l st).
Proof.
  intros Hpriv Ho Hq Hother. pose proof (serves_keep sv Hpriv l st k o Ho) as Hk. split; [done|].
  destruct (serve_guarded sv Hpriv ctx q (serves sv l st)) as [H0|(c & p & o' & -> & Hp & _ & Hm & _ & Hsame)]; [done|].
  rewrite Hq in Hsame. rewrite <- (bound_by_owner _ _ _ _ _ _ Hsame Hk) in Hm. exfalso.
  unfold principal in Hp. destruct (cc_principal c) as [p'|] eqn:Hcp; [|done]. destruct (Validate p' _); [|done].
  injection Hp as ->. by apply (Hother c p).
Qed.

(** the service with a [CallACL] does what the configured rules say.  Behind a service without
    public access whose authorizer is the access list built from [rules], a call by a principal is
    refused and changes nothing, or that principal is the recorded owner and one of the rules as
    written grants the caller this action on this call and its recorded operation. *)
Theorem acl_guards_service {W} `{ServiceRuntime W} sv rules acl c spec p q (st : OwnershipStore * W) :
  sv_public sv = false → NewCallACL rules = Some acl → cc_answer c = acl_answer acl →
  NewPrincipal spec = Some p → cc_principal c = Some p →
  (∃ err, serve sv (Some c) q st = (Refused err, st)) ∨
  ∃ o rule, (serve sv (Some c) q st).2.1 !! request_call q = Some o ∧ owner_of o p ∧ rule ∈ rules ∧
    grants rule p (mkAuthorizationRequest (request_call q) (ow_operation o) (request_action q)).
Proof.
  intros Hpriv Hacl Hans Hp Hc.
  destruct (serve_guarded sv Hpriv (Some c) q st) as [H0|(c' & p' & o & [= <-] & H2 & H3 & H4 & Hperm & _)]; [by left|].
  right. unfold principal in H2. rewrite Hc in H2. destruct (Validate p _); [|done]. injection H2 as <-.
  destruct Hperm as (target & decision & _ & Ha & Hd). rewrite Hans in Ha. unfold acl_answer in Ha.
  pose proof (acl_decides rules acl spec p target
    (mkAuthorizationRequest (request_call q) (ow_operation o) (request_action q)) Hacl Hp) as Hdec.
  destruct (acl_Authorize _ _ _ _) as [d|]; [|done]. injection Ha as ->. apply Hdec in Hd as (rule & Hin & Hg).
  by exists o, rule.
Qed.

(** a start claims the call before it is created.  In a service without public access a
    permitted start of a call nobody owns records the caller as its owner whatever the runtime
    answers, so a start the runtime refuses because the call already exists (it was created behind
    the service, as the children of workflows are) leaves the caller entitled to every operation
    on that call the authorizer allows. *)
Theorem refused_start_claims {W} `{ServiceRuntime W} sv c p k op input budget (st : OwnershipStore * W) action :
  sv_public sv = false → sv_authorizer sv = true → sv_ownerships sv = true → cc_cause c = None →
  principal c = Ok p → Validate p 0 = true → k ≠ "" → op ≠ "" → st.1 !! k = None →
  permitted c p k op ActionStart → permitted c p k op action →
  let st' := (startCall sv (Some c) k op input budget st).2 in
  st'.1 !! k = Some (mkOwnership k op (p_issuer p) (p_subject p)) ∧
  authorizeExisting sv c k action st'.1 = None.
Proof.
  intros Hpub Ha Ho Hcause Hp Hv Hk Hop Hnone Hstart Haction. cbn zeta.
  assert (Hbound : (startCall sv (Some c) k op input budget st).2.1 !! k = Some (mkOwnership k op (p_issuer p) (p_subject p))).
  { unfold startCall. rewrite Hpub. rewrite (start_bound_claims sv c p k op) by done. rewrite startRuntime_owners. apply lookup_insert_eq. }
  split; [done|]. by apply (authorizeExisting_allows sv Hpub c p k (mkOwnership k op (p_issuer p) (p_subject p))).
Qed.

(** * Witnesses: the memory store, a runtime and a workflow runtime behind one service *)
Definition ex_workflows : WorkflowRuntime sim :=
  mkWorkflowRuntime NewRegistry None ∅ "executor-1" minute second second 100 10 hour.
#[local] Instance ex_service_runtime : ServiceRuntime sim :=
  @runtime_service sim (sim_env true) (sim_leases true) (ex_runtime ex_machine) ex_workflows.
Definition ex_private : Service := mkService true false true true.

Definition ex_amy : Principal := mkPrincipal "amy" "idp" [] ["clerk"] ["orders"; "payments"] ∅ 0.
Definition ex_zoe : Principal := mkPrincipal "zoe" "idp" [] [] [] ∅ 0.
Definition ex_acl : list callACLRule := default [] (NewCallACL ex_rules).
Definition ex_ctx (p : Principal) : CallContext := mkCallContext None (Some p) 10 (acl_answer ex_acl).
Definition ex_empty : OwnershipStore * sim := (∅, mkSim NewStore 10 None).

(** Amy starts a call; Zoe, whom the list allows histories, is not its owner. *)
Definition ex_call : request := DoStart "call-9" "/orders/Place" "in" None.
Definition ex_started : OwnershipStore * sim := (serve ex_private (Some (ex_ctx ex_amy)) ex_call ex_empty).2.
Definition ex_owner : Ownership := mkOwnership "call-9" "/orders/Place" "idp" "amy".

Example ex_amy_starts : ∃ s, (serve ex_private (Some (ex_ctx ex_amy)) ex_call ex_empty).1 = Replied s ∧
  st_records (sm_store ex_started.2) !! "call-9" = Some s.
Proof. eexists. split; vm_compute; reflexivity. Qed.

Lemma ex_bound : ex_started.1 !! "call-9" = Some ex_owner.
Proof. vm_compute. reflexivity. Qed.

Lemma service_guard_witness : ∃ o, ex_started.1 !! "call-9" = Some o ∧ owner_of o ex_amy ∧
  permitted (ex_ctx ex_amy) ex_amy "call-9" (ow_operation o) ActionStart.
Proof.
  destruct (service_guard ex_private (Some (ex_ctx ex_amy)) ex_call ex_empty eq_refl)
    as [[err Herr]|(c & p & o & Hc & Hp & H1 & H2 & H3 & _)].
  - exfalso. vm_compute in Herr. discriminate.
  - injection Hc as <-. assert (principal (ex_ctx ex_amy) = Ok ex_amy) as Hamy by (vm_compute; reflexivity).
    rewrite Hamy in Hp. injection Hp as <-. by exists o.
Defined.

Lemma owners_isolated_witness :
  let st := serves ex_private [(Some (ex_ctx ex_zoe), DoStart "call-9" "/orders/Place" "" None)] ex_started in
  st.1 !! "call-9" = Some ex_owner ∧
  ∃ err, serve ex_private (Some (ex_ctx ex_zoe)) (DoHistory "call-9" 0 10) st = (Refused err, st).
Proof.
  apply (owners_isolated ex_private _ ex_started "call-9" ex_owner); [done|apply ex_bound|done|].
  intros c p [= <-] [= <-] [_ Hs]. discriminate.
Defined.

Lemma acl_guards_service_witness :
  ∃ o rule, ex_started.1 !! "call-9" = Some o ∧ owner_of o ex_amy ∧ rule ∈ ex_rules ∧
    grants rule ex_amy (mkAuthorizationRequest "call-9" (ow_operation o) ActionStart).
Proof.
  destruct (acl_guards_service ex_private ex_rules ex_acl (ex_ctx ex_amy) ex_amy ex_amy ex_call ex_empty) as [[err Herr]|Hok];
    [done|vm_compute; reflexivity|done|vm_compute; reflexivity|done| |exact Hok].
  exfalso. vm_compute in Herr. discriminate.
Defined.

(** The call the store of [ex_store2] already holds was not made through the service. *)
Definition ex_behind : OwnershipStore * sim := (∅, mkSim ex_store2 20 None).

Lemma ex_permitted k action :
  (∃ target decision, continuationAuthorizationOperation action = Some target ∧
    acl_Authorize ex_acl ex_amy target (mkAuthorizationRequest k "/orders/Place" action) = Some decision ∧
    d_Allowed decision = true) →
  permitted (ex_ctx ex_amy) ex_amy k "/orders/Place" action.
Proof.
  intros (target & decision & Ht & Ha & Hd). exists target, decision. split_and!; [done| |done].
  cbn [cc_answer ex_ctx]. unfold acl_answer. by rewrite Ha.
Qed.

Lemma refused_start_claims_witness :
  let out := startCall ex_private (Some (ex_ctx ex_amy)) "call-1" "/orders/Place" "in" None ex_behind in
  (∃ err, out.1 = Err err) ∧
  out.2.1 !! "call-1" = Some (mkOwnership "call-1" "/orders/Place" "idp" "amy") ∧
  authorizeExisting ex_private (ex_ctx ex_amy) "call-1" ActionAttach out.2.1 = None ∧
  ∃ a, (Attach ex_private (Some (ex_ctx ex_amy)) "call-1" 0 10 out.2).1 = Ok a ∧ at_Frames a ≠ [].
Proof.
  cbn zeta. split; [eexists; vm_compute; reflexivity|].
  destruct (refused_start_claims ex_private (ex_ctx ex_amy) ex_amy "call-1" "/orders/Place" "in" None ex_behind ActionAttach)
    as [H1 H2]; [reflexivity|reflexivity|reflexivity|reflexivity|vm_compute; reflexivity|vm_compute; reflexivity
                |discriminate|discriminate|reflexivity|apply ex_permitted; do 2 eexists; split_and!; vm_compute; reflexivity
                |apply ex_permitted; do 2 eexists; split_and!; vm_compute; reflexivity|].
  split_and!; [exact H1|exact H2|]. eexists. split; [vm_compute; reflexivity|]. vm_compute. discriminate.
Defined.
