(* ===== verification/Idempotency.v ===== *)
(** * governance/idempotency: at most one effect per request

    Models [idempotency.go], [runtime.go] and [static.go], and [PolicyKey] of package [operation].
    The store is an interface; what it promises (atomic claims, completion and abandonment fenced
    by the owner) is written as a reference store, and the theorems hold for every store that
    refines it, also when calls report an error after they took effect.  [invoke] is split at its
    store and handler calls, so that the calls of many requests interleave; [invoke]
    composes the parts.  The theorems: handlers of one identity never run while another one owns it
    or its result is kept; what is replayed is what was completed for this very request. *)
From S2P Require Import Prelude GoText Sha256 GoDecode Access.
Open Scope Z_scope.

Definition defaultBackendTimeout : duration := 100 * millisecond.
Definition defaultMaxResultBytes : Z := 1024 * 1024.
Definition maximumBackendTimeout : duration := 5 * second.
Definition maximumKeyBytes : Z := 256.
Definition maximumNamespaceBytes : Z := 128.
Definition maximumOwnerBytes : Z := 64.
Definition minimumProcessingTTL : duration := second.
Definition maximumProcessingTTL : duration := 15 * minute.
Definition minimumResultTTL : duration := minute.
Definition maximumResultTTL : duration := 24 * hour.

Inductive iderror :=
| ErrInvalidConfig | ErrInvalidRequest | ErrConflict | ErrInProgress (retryMilliseconds : Z)
| ErrUnavailable (cause : iderror) | ErrResultInvalid (cause : iderror)
| ErrInvalidDecision | ErrStaleOwner
| ErrTooLarge                                      (* "result has %d bytes" *)
| ErrOther (text : string).
#[export] Instance iderror_eq_dec : EqDecision iderror.
Proof. solve_decision. Defined.

(** ** Data *)
Inductive ClaimState := ClaimAcquired | ClaimInProgress | ClaimReplayed | ClaimConflict | ClaimOther (raw : string).
Record RequestIdentity := mkIdentity { ri_Key : string; ri_Fingerprint : string }.
Record ClaimRequest := mkClaimRequest {
  cl_Operation : string; cl_Namespace : string; cl_Key : string; cl_Fingerprint : string; cl_Owner : string; cl_ProcessingTTL : duration
}.
Record Lease := mkLease { le_Operation : string; le_Namespace : string; le_Key : string; le_Fingerprint : string; le_Owner : string }.
Record Claim := mkClaim { cm_State : ClaimState; cm_Result : string; cm_RetryAfter : duration }.
Record Completion := mkCompletion { co_Lease : Lease; co_Result : string; co_ResultTTL : duration }.

(** ** Validation *)
Definition is_alnum (b : Z) : bool := in_range 97 122 b || in_range 65 90 b || in_range 48 57 b.
Definition validOperation (value : string) : bool := valid_text 1024 value.
(** The accepted runes are one byte each, and no other rune is one. *)
Definition validNamespace (value : string) : bool :=
  (value != "") && (slen value <=? maximumNamespaceBytes) &&
  forallb (λ b, is_alnum b || (b =? 45) || (b =? 95) || (b =? 46) || (b =? 47)) (bytes_of value).
Definition validKey (value : string) : bool := valid_text maximumKeyBytes value.
Definition validFingerprint (value : string) : bool :=
  (slen value =? 64) && forallb (λ b, in_range 48 57 b || in_range 97 102 b) (bytes_of value).
Definition validOwner (value : string) : bool :=
  (value != "") && (slen value <=? maximumOwnerBytes) && forallb (λ b, is_alnum b || (b =? 45) || (b =? 95)) (bytes_of value).
Definition Fingerprint (content : list Z) : string := hex_encode (sha256 content).

Definition ValidateClaimRequest (r : ClaimRequest) : bool :=
  validOperation (cl_Operation r) && validNamespace (cl_Namespace r) && validKey (cl_Key r) && validFingerprint (cl_Fingerprint r) &&
  validOwner (cl_Owner r) && (minimumProcessingTTL <=? cl_ProcessingTTL r) && (cl_ProcessingTTL r <=? maximumProcessingTTL).
Definition ValidateLease (l : Lease) : bool :=
  ValidateClaimRequest (mkClaimRequest (le_Operation l) (le_Namespace l) (le_Key l) (le_Fingerprint l) (le_Owner l) minimumProcessingTTL).
Definition ValidateCompletion (c : Completion) (maximumBytes : Z) : bool :=
  ValidateLease (co_Lease c) && (0 <? maximumBytes) && (maximumBytes <=? defaultMaxResultBytes) && (slen (co_Result c) <=? maximumBytes) &&
  (minimumResultTTL <=? co_ResultTTL c) && (co_ResultTTL c <=? maximumResultTTL).
Definition validateIdentity (id : RequestIdentity) : bool := validKey (ri_Key id) && validFingerprint (ri_Fingerprint id).
Definition validateClaim (claim : Claim) (maximumBytes : Z) : bool :=
  match cm_State claim with
  | ClaimAcquired | ClaimConflict => (cm_Result claim == "") && (cm_RetryAfter claim =? 0)
  | ClaimInProgress => (cm_Result claim == "") && (0 <=? cm_RetryAfter claim) && (cm_RetryAfter claim <=? maximumProcessingTTL)
  | ClaimReplayed => (slen (cm_Result claim) <=? maximumBytes) && (cm_RetryAfter claim =? 0)
  | ClaimOther _ => false
  end.

(** ** Operation keys *)

(** [url.PathEscape]. *)
Definition path_plain (b : Z) : bool :=
  is_alnum b || (b =? 45) || (b =? 95) || (b =? 46) || (b =? 126) || (b =? 36) || (b =? 38) || (b =? 43) || (b =? 61) || (b =? 58) || (b =? 64).
Definition upper_hex (n : Z) : Z := if n <? 10 then 48 + n else 55 + n.
Definition escape_byte (b : Z) : list Z := if path_plain b then [b] else [37; upper_hex (b / 16); upper_hex (b mod 16)].
Definition PathEscape (s : string) : list Z := flat_map escape_byte (bytes_of s).
Definition Kind_string (k : operation.Kind) : string :=
  match k with
  | operation.KindUnary => "unary" | operation.KindClientStream => "client-stream" | operation.KindServerStream => "server-stream"
  | operation.KindBidiStream => "bidi-stream" | operation.KindConsumer => "consumer" | operation.KindJob => "job" | operation.KindOther raw => raw
  end.
Definition joined (parts : list string) : string :=
  string_of_bytes (tail (flat_map (λ p, 47 :: PathEscape p) parts)).
Definition PolicyKey (o : operation.Operation) : string :=
  joined [operation.o_transport o; operation.o_service o; operation.o_method o; Kind_string (operation.o_kind o)].
Definition storageOperation (o : operation.Operation) : string :=
  joined [operation.o_service o; operation.o_method o; Kind_string (operation.o_kind o)].

(** ** Rules *)
Section runtime.
Context {Req Resp : Type}.

Record Codec := mkCodec { cd_Encode : Resp → result iderror string; cd_Decode : string → result iderror Resp }.
Record Rule := mkRule {
  ru_Namespace : string;
  ru_ProcessingTTL : duration;
  ru_ResultTTL : duration;
  ru_Request : option (operation.Operation → Req → result iderror RequestIdentity);   (* [None]: nil *)
  ru_Codec : option Codec
}.
Definition ValidateRule (rule : Rule) : bool :=
  validNamespace (ru_Namespace rule) &&
  (minimumProcessingTTL <=? ru_ProcessingTTL rule) && (ru_ProcessingTTL rule <=? maximumProcessingTTL) &&
  (minimumResultTTL <=? ru_ResultTTL rule) && (ru_ResultTTL rule <=? maximumResultTTL) &&
  bool_decide (is_Some (ru_Request rule)) && bool_decide (is_Some (ru_Codec rule)).

Definition is_unary (o : operation.Operation) : bool := match operation.o_kind o with operation.KindUnary => true | _ => false end.
(** [NewStaticResolver] and its [Resolve]. *)
Fixpoint NewStaticResolver (rules : gmap string Rule) (registrations : list (operation.Operation * Rule)) : option (gmap string Rule) :=
  match registrations with
  | [] => Some rules
  | (target, rule) :: registrations =>
      if (operation.o_transport target == "") || (operation.o_service target == "") || (operation.o_method target == "") ||
         negb (is_unary target) || negb (ValidateRule rule) then None
      else if bool_decide (is_Some (rules !! PolicyKey target)) then None
      else NewStaticResolver (<[PolicyKey target := rule]> rules) registrations
  end.
Definition Resolve (rules : gmap string Rule) (target : operation.Operation) : option Rule := rules !! PolicyKey target.

(** ** The runtime *)
Record Config := mkConfig { ic_BackendTimeout : duration; ic_MaxResultBytes : Z }.
(** [store] and [resolver] say whether these are not nil. *)
Definition New (store resolver : bool) (config : Config) : option Config :=
  if negb store || negb resolver then None
  else
    let backendTimeout := or_default (ic_BackendTimeout config) defaultBackendTimeout in
    if (backendTimeout <=? 0) || (maximumBackendTimeout <? backendTimeout) then None
    else
      let maxResultBytes := or_default (ic_MaxResultBytes config) defaultMaxResultBytes in
      if (maxResultBytes <=? 0) || (defaultMaxResultBytes <? maxResultBytes) then None
      else Some (mkConfig backendTimeout maxResultBytes).

Record Description := mkDescription {
  de_Acquired : Z; de_Replayed : Z; de_InProgress : Z; de_Conflicts : Z; de_HandlerFailures : Z;
  de_BackendErrors : Z; de_CompletionErrors : Z; de_AbandonErrors : Z; de_CodecErrors : Z
}.
Inductive counter := CAcquired | CReplayed | CInProgress | CConflicts | CHandlerFailures | CBackendErrors | CCompletionErrors | CAbandonErrors | CCodecErrors.
Definition bump (c : counter) (d : Description) : Description :=
  let '(mkDescription a r i k h b x y z) := d in
  match c with
  | CAcquired => mkDescription (u64_add a 1) r i k h b x y z
  | CReplayed => mkDescription a (u64_add r 1) i k h b x y z
  | CInProgress => mkDescription a r (u64_add i 1) k h b x y z
  | CConflicts => mkDescription a r i (u64_add k 1) h b x y z
  | CHandlerFailures => mkDescription a r i k (u64_add h 1) b x y z
  | CBackendErrors => mkDescription a r i k h (u64_add b 1) x y z
  | CCompletionErrors => mkDescription a r i k h b (u64_add x 1) y z
  | CAbandonErrors => mkDescription a r i k h b x (u64_add y 1) z
  | CCodecErrors => mkDescription a r i k h b x y (u64_add z 1)
  end.

(** [base64.RawURLEncoding] of sixteen random bytes; an error of the reader is [Err]. *)
Definition raw_url (content : string) : string :=
  string_of_bytes ((λ b, if b =? 43 then 45 else if b =? 47 then 95 else b) <$> List.filter (λ b, negb (b =? 61)) (bytes_of (base64_encode content))).
Definition owner (random : result iderror string) : result iderror string := content ← random; Ok (raw_url content).

(** What [invoke] does up to its claim: pass on, fail, or claim under a rule. *)
Inductive prepared := Bypass | Refused (err : iderror) | Claiming (rule : Rule) (codec : Codec) (request : ClaimRequest).
Definition prepare (nil_ctx : bool) (cause : option iderror) (target : option operation.Operation) (resolve : operation.Operation → option Rule)
    (random : result iderror string) (request : Req) : prepared :=
  if nil_ctx then Refused ErrInvalidConfig
  else match cause with
  | Some err => Refused err
  | None =>
      match target with
      | None => Refused ErrInvalidConfig
      | Some target =>
          match resolve target with
          | None => Bypass
          | Some rule =>
              if negb (is_unary target) then Refused ErrInvalidConfig
              else match ru_Request rule, ru_Codec rule with
              | Some derive, Some codec =>
                  if negb (ValidateRule rule) then Refused ErrInvalidConfig
                  else match derive target request with
                  | Err _ => Refused ErrInvalidRequest
                  | Ok id =>
                      if negb (validateIdentity id) then Refused ErrInvalidRequest
                      else match owner random with
                      | Err err => Refused (ErrUnavailable err)
                      | Ok owner =>
                          Claiming rule codec (mkClaimRequest (storageOperation target) (ru_Namespace rule) (ri_Key id)
                            (ri_Fingerprint id) owner (ru_ProcessingTTL rule))
                      end
                  end
              | _, _ => Refused ErrInvalidConfig
              end
          end
      end
  end.

(** After the claim: execute under a lease, or answer. *)
Definition lease_of (r : ClaimRequest) : Lease := mkLease (cl_Operation r) (cl_Namespace r) (cl_Key r) (cl_Fingerprint r) (cl_Owner r).
Definition claimed (config : Config) (codec : Codec) (request : ClaimRequest) (answer : result iderror Claim) (d : Description) :
    (Lease + result iderror Resp) * Description :=
  match answer with
  | Err err => (inr (Err (ErrUnavailable err)), bump CBackendErrors d)
  | Ok claim =>
      if negb (validateClaim claim (ic_MaxResultBytes config)) then (inr (Err (ErrUnavailable ErrInvalidDecision)), bump CBackendErrors d)
      else match cm_State claim with
      | ClaimAcquired => (inl (lease_of request), bump CAcquired d)
      | ClaimReplayed =>
          match cd_Decode codec (cm_Result claim) with
          | Err err => (inr (Err (ErrResultInvalid err)), bump CCodecErrors d)
          | Ok response => (inr (Ok response), bump CReplayed d)
          end
      | ClaimInProgress => (inr (Err (ErrInProgress (Z.max 1 (cm_RetryAfter claim / millisecond)))), bump CInProgress d)
      | ClaimConflict => (inr (Err ErrConflict), bump CConflicts d)
      | ClaimOther _ => (inr (Err (ErrUnavailable ErrInvalidDecision)), bump CBackendErrors d)
      end
  end.

(** After the handler: complete with the result, or abandon and fail. *)
Definition handled (config : Config) (rule : Rule) (codec : Codec) (lease : Lease) (answer : result iderror Resp) (d : Description) :
    (Completion * Resp + iderror) * Description :=
  match answer with
  | Err err => (inr err, bump CHandlerFailures d)
  | Ok response =>
      match cd_Encode codec response with
      | Err err => (inr (ErrResultInvalid err), bump CCodecErrors d)
      | Ok encoded =>
          if ic_MaxResultBytes config <? slen encoded then (inr (ErrResultInvalid ErrTooLarge), bump CCodecErrors d)
          else (inl (mkCompletion lease encoded (ru_ResultTTL rule), response), d)
      end
  end.
Definition completed (response : Resp) (err : option iderror) (d : Description) : result iderror Resp * Description :=
  match err with
  | Some err => (Err (ErrUnavailable err), bump CCompletionErrors d)
  | None => (Ok response, d)
  end.
Definition abandoned (handlerErr : iderror) (err : option iderror) (d : Description) : result iderror Resp * Description :=
  (Err handlerErr, match err with Some _ => bump CAbandonErrors d | None => d end).
End runtime.
Arguments Codec : clear implicits.
Arguments Rule : clear implicits.
Arguments prepared : clear implicits.

(** ** What a store promises *)
Abbreviation ident := (string * string * string)%type (only parsing).
Record entry := mkEntry { en_fingerprint : string; en_owner : string; en_until : time; en_result : option string }.
Abbreviation table := (gmap (string * string * string) entry) (only parsing).
Definition ident_of (l : Lease) : ident := (le_Operation l, le_Namespace l, le_Key l).

(** The entry that counts at [now]. *)
Definition live (now : time) (m : table) (k : ident) : option entry := e ← m !! k; if now <? en_until e then Some e else None.
Definition ref_claim (now : time) (r : ClaimRequest) (m : table) : Claim * table :=
  let k := ident_of (lease_of r) in
  match live now m k with
  | Some e =>
      if en_fingerprint e != cl_Fingerprint r then (mkClaim ClaimConflict "" 0, m)
      else match en_result e with
      | Some result => (mkClaim ClaimReplayed result 0, m)
      | None => (mkClaim ClaimInProgress "" (en_until e - now), m)
      end
  | None => (mkClaim ClaimAcquired "" 0, <[k := mkEntry (cl_Fingerprint r) (cl_Owner r) (now + cl_ProcessingTTL r) None]> m)
  end.
(** The fence: the identity is being processed by this owner for this fingerprint. *)
Definition fenced (now : time) (l : Lease) (m : table) : bool :=
  match live now m (ident_of l) with
  | Some e => (en_owner e == le_Owner l) && (en_fingerprint e == le_Fingerprint l) && (en_result e == None)
  | None => false
  end.
Definition ref_complete (now : time) (c : Completion) (m : table) : bool * table :=
  let l := co_Lease c in
  if fenced now l m then (true, <[ident_of l := mkEntry (le_Fingerprint l) (le_Owner l) (now + co_ResultTTL c) (Some (co_Result c))]> m)
  else (false, m).
Definition ref_abandon (now : time) (l : Lease) (m : table) : bool * table :=
  if fenced now l m then (true, delete (ident_of l) m) else (false, m).

(** A store refines the reference store; a call that reports an error may have taken effect. *)
Class IdemStore (St : Type) := {
  is_Claim : time → ClaimRequest → St → result iderror Claim * St;
  is_Complete : time → Completion → St → option iderror * St;
  is_Abandon : time → Lease → St → option iderror * St;
  is_table : St → table;
  claim_law : ∀ now r st, match is_Claim now r st with
    | (Ok c, st') => ref_claim now r (is_table st) = (c, is_table st')
    | (Err _, st') => is_table st' = is_table st ∨ is_table st' = (ref_claim now r (is_table st)).2
    end;
  complete_law : ∀ now c st, match is_Complete now c st with
    | (None, st') => ref_complete now c (is_table st) = (true, is_table st')
    | (Some _, st') => is_table st' = is_table st ∨ is_table st' = (ref_complete now c (is_table st)).2
    end;
  abandon_law : ∀ now l st, match is_Abandon now l st with
    | (None, st') => ref_abandon now l (is_table st) = (true, is_table st')
    | (Some _, st') => is_table st' = is_table st ∨ is_table st' = (ref_abandon now l (is_table st)).2
    end
}.

(** The reference store is one. *)
#[export] Instance reference_store : IdemStore table.
Proof.
  refine {|
    is_Claim now r m := let '(c, m') := ref_claim now r m in (Ok c, m');
    is_Complete now c m := let '(ok, m') := ref_complete now c m in (if ok then None else Some ErrStaleOwner, m');
    is_Abandon now l m := let '(ok, m') := ref_abandon now l m in (if ok then None else Some ErrStaleOwner, m');
    is_table m := m
  |}.
  - intros now r m. by destruct (ref_claim now r m).
  - intros now c m. destruct (ref_complete now c m) as [[] m'] eqn:E; [done|by right].
  - intros now l m. destruct (ref_abandon now l m) as [[] m'] eqn:E; [done|by right].
Defined.

Section system.
Context {Req Resp St : Type} `{IdemStore St} (config : Config).

(** One [invoke] on its own: the handler answers between the times of the two store calls. *)
Definition invoke (p : prepared Req Resp) (next : result iderror Resp) (claim_at settle_at : time) (st : St) (d : Description) :
    result iderror Resp * St * Description :=
  match p with
  | Bypass => (next, st, d)
  | Refused err => (Err err, st, d)
  | Claiming rule codec request =>
      let '(answer, st) := is_Claim claim_at request st in
      let '(decision, d) := claimed config codec request answer d in
      match decision with
      | inr answer => (answer, st, d)
      | inl lease =>
          let '(settling, d) := handled config rule codec lease next d in
          match settling with
          | inl (completion, response) =>
              let '(err, st) := is_Complete settle_at completion st in
              let '(answer, d) := completed response err d in (answer, st, d)
          | inr handlerErr =>
              let '(err, st) := is_Abandon settle_at lease st in
              let '(answer, d) := abandoned handlerErr err d in (answer, st, d)
          end
      end
  end.

(** ** Many requests *)
Inductive thread :=
| TExecuting (rule : Rule Req Resp) (codec : Codec Resp) (request : ClaimRequest) (lease : Lease)
| TCompleting (codec : Codec Resp) (request : ClaimRequest) (completion : Completion) (response : Resp)
| TAbandoning (codec : Codec Resp) (request : ClaimRequest) (lease : Lease) (err : iderror)
| TDone (codec : Codec Resp) (request : ClaimRequest) (answer : result iderror Resp).

(** What happened, in order. *)
Inductive event :=
| EvStarted (request : ClaimRequest) (at_ : time)                  (* the handler of the request runs *)
| EvComplete (completion : Completion) (at_ : time) (ok : bool)    (* [Complete] was called *)
| EvAbandon (lease : Lease) (at_ : time)                           (* [Abandon] was called *)
| EvReplayed (request : ClaimRequest) (result : string).

Record idsys := mkIdsys { ids_store : St; ids_now : time; ids_threads : list thread; ids_log : list event; ids_counters : Description }.
Inductive idop :=
| IBegin (rule : Rule Req Resp) (codec : Codec Resp) (request : ClaimRequest)
| IHandler (i : nat) (answer : result iderror Resp)
| ISettle (i : nat)
| ITime (now : time).

Definition replay_event (request : ClaimRequest) (answer : result iderror Claim) : list event :=
  match answer with
  | Ok claim => match cm_State claim with ClaimReplayed => [EvReplayed request (cm_Result claim)] | _ => [] end
  | Err _ => []
  end.
Definition idstep (s : idsys) (o : idop) : idsys :=
  match o with
  | IBegin rule codec request =>
      let '(answer, st) := is_Claim (ids_now s) request (ids_store s) in
      let '(decision, d) := claimed config codec request answer (ids_counters s) in
      match decision with
      | inl lease =>
          mkIdsys st (ids_now s) (ids_threads s ++ [TExecuting rule codec request lease]) (ids_log s ++ [EvStarted request (ids_now s)]) d
      | inr a => mkIdsys st (ids_now s) (ids_threads s ++ [TDone codec request a]) (ids_log s ++ replay_event request answer) d
      end
  | IHandler i answer =>
      match ids_threads s !! i with
      | Some (TExecuting rule codec request lease) =>
          let '(settling, d) := handled config rule codec lease answer (ids_counters s) in
          let t := match settling with inl (completion, response) => TCompleting codec request completion response | inr err => TAbandoning codec request lease err end in
          mkIdsys (ids_store s) (ids_now s) (<[i := t]> (ids_threads s)) (ids_log s) d
      | _ => s
      end
  | ISettle i =>
      match ids_threads s !! i with
      | Some (TCompleting codec request completion response) =>
          let '(err, st) := is_Complete (ids_now s) completion (ids_store s) in
          let '(answer, d) := completed response err (ids_counters s) in
          mkIdsys st (ids_now s) (<[i := TDone codec request answer]> (ids_threads s))
            (ids_log s ++ [EvComplete completion (ids_now s) (bool_decide (err = None))]) d
      | Some (TAbandoning codec request lease handlerErr) =>
          let '(err, st) := is_Abandon (ids_now s) lease (ids_store s) in
          let '(answer, d) := abandoned handlerErr err (ids_counters s) in
          mkIdsys st (ids_now s) (<[i := TDone codec request answer]> (ids_threads s)) (ids_log s ++ [EvAbandon lease (ids_now s)]) d
      | _ => s
      end
  | ITime now => mkIdsys (ids_store s) (Z.max (ids_now s) now) (ids_threads s) (ids_log s) (ids_counters s)
  end.
Definition idsteps (s : idsys) (l : list idop) : idsys := fold_left idstep l s.
End system.
Arguments idsys : clear implicits.
Arguments idop : clear implicits.
Arguments thread : clear implicits.

(** * At most one effect *)
Section exclusion.
Context {Req Resp St : Type} `{IdemStore St} (config : Config).
Implicit Types (s : idsys Req Resp St) (m : table) (r a b : ClaimRequest) (log : list event).

(** The request [r], which started at [t], does not own its identity any more at [now]: its
    processing time is over, or it abandoned, or it completed and its result is no longer kept. *)
Definition given_up r (t : time) log (now : time) : Prop :=
  t + cl_ProcessingTTL r ≤ now ∨ (∃ t', EvAbandon (lease_of r) t' ∈ log) ∨
  ∃ c t' ok, EvComplete c t' ok ∈ log ∧ co_Lease c = lease_of r ∧ t' + co_ResultTTL c ≤ now.
(** It still owns it. *)
Definition owns r (t : time) log m : Prop :=
  ∃ e, m !! ident_of (lease_of r) = Some e ∧ en_owner e = cl_Owner r ∧ en_fingerprint e = cl_Fingerprint r ∧
    ((en_result e = None ∧ en_until e = t + cl_ProcessingTTL r) ∨
     ∃ c t' ok, EvComplete c t' ok ∈ log ∧ co_Lease c = lease_of r ∧ en_until e = t' + co_ResultTTL c).
(** Whenever a request started, everybody who had started before on the same identity had given it up. *)
Definition exclusive log : Prop :=
  ∀ l1 b tb l2, log = l1 ++ EvStarted b tb :: l2 → ∀ a ta, EvStarted a ta ∈ l1 → ident_of (lease_of a) = ident_of (lease_of b) → given_up a ta l1 tb.
(** What is kept or replayed was completed for this identity and fingerprint. *)
Definition completed_as (k : ident) (fingerprint result : string) log : Prop :=
  ∃ c t ok, EvComplete c t ok ∈ log ∧ ident_of (co_Lease c) = k ∧ le_Fingerprint (co_Lease c) = fingerprint ∧ co_Result c = result.

Definition thread_ok (t : thread Req Resp) log : Prop :=
  match t with
  | TExecuting _ _ r lease => lease = lease_of r
  | TCompleting codec r c resp => co_Lease c = lease_of r ∧ cd_Encode codec resp = Ok (co_Result c)
  | TAbandoning _ r lease _ => lease = lease_of r
  | TDone codec r (Ok resp) =>
      (∃ c t, EvComplete c t true ∈ log ∧ co_Lease c = lease_of r ∧ cd_Encode codec resp = Ok (co_Result c)) ∨
      (∃ res, EvReplayed r res ∈ log ∧ cd_Decode codec res = Ok resp)
  | TDone _ _ (Err _) => True
  end.
Record idsys_ok s : Prop := {
  io_owners : ∀ r t, EvStarted r t ∈ ids_log s → given_up r t (ids_log s) (ids_now s) ∨ owns r t (ids_log s) (is_table (ids_store s));
  io_results : ∀ k e res, is_table (ids_store s) !! k = Some e → en_result e = Some res → completed_as k (en_fingerprint e) res (ids_log s);
  io_replays : ∀ r res, EvReplayed r res ∈ ids_log s → completed_as (ident_of (lease_of r)) (cl_Fingerprint r) res (ids_log s);
  io_exclusive : exclusive (ids_log s);
  io_threads : Forall (λ t, thread_ok t (ids_log s)) (ids_threads s)
}.

(** ** Growing the log *)
Lemma given_up_mono r t log log' now now' : given_up r t log now → log ⊆ log' → now ≤ now' → given_up r t log' now'.
Proof. intros [Hx|[[t' Hx]|(c & t' & ok & Hx & Hl & Ht)]] Hsub Hle; [left; lia|right; left; eauto|right; right; exists c, t', ok; split; [eauto|split; [done|lia]]]. Qed.
Lemma owns_mono r t log log' m : owns r t log m → log ⊆ log' → owns r t log' m.
Proof. intros (e & He & Ho & Hf & Hx) Hsub. exists e. do 3 (split; [done|]). destruct Hx as [Hx|(c & t' & ok & Hx & Hl & Ht)]; [by left|right; exists c, t', ok; eauto]. Qed.
Lemma completed_as_mono k f res log log' : completed_as k f res log → log ⊆ log' → completed_as k f res log'.
Proof. intros (c & t & ok & Hx & Hl) Hsub. exists c, t, ok. eauto. Qed.
Lemma thread_ok_mono t log log' : thread_ok t log → log ⊆ log' → thread_ok t log'.
Proof.
  intros Ht Hsub. destruct t as [| | |codec r [resp|]]; try done. destruct Ht as [(c & t & Hx & Hl)|(res & Hx & Hd)]; [left; exists c, t|right; exists res]; eauto.
Qed.
Lemma exclusive_snoc log e : exclusive log →
  (∀ b tb, e = EvStarted b tb → ∀ a ta, EvStarted a ta ∈ log → ident_of (lease_of a) = ident_of (lease_of b) → given_up a ta log tb) →
  exclusive (log ++ [e]).
Proof.
  intros Hx He l1 b tb l2 Heq a ta Ha Hid. destruct l2 as [|y l2 _] using rev_ind.
  - apply app_inj_tail in Heq as [<- ->]. by eapply He.
  - rewrite app_comm_cons, app_assoc in Heq. apply app_inj_tail in Heq as [E _]. by eapply (Hx _ _ _ _ E).
Qed.
Lemma started_snoc log e r t : EvStarted r t ∈ log ++ [e] → EvStarted r t ∈ log ∨ e = EvStarted r t.
Proof. rewrite elem_of_app, list_elem_of_singleton. intuition congruence. Qed.

(** ** Store calls *)
Lemma live_Some now m k e : live now m k = Some e ↔ m !! k = Some e ∧ now < en_until e.
Proof.
  unfold live. destruct (m !! k) as [e'|]; cbn; [|naive_solver]. destruct (Z.ltb_spec now (en_until e')); split; [naive_solver..|done|]. intros [[= ->] ?]. lia.
Qed.
(** A claim leaves the table alone, or takes an identity nobody holds. *)
Lemma ref_claim_cases now r m c m' : ref_claim now r m = (c, m') →
  (m' = m ∧ cm_State c ≠ ClaimAcquired ∧ (cm_State c = ClaimReplayed → ∃ e, m !! ident_of (lease_of r) = Some e ∧ en_fingerprint e = cl_Fingerprint r ∧ en_result e = Some (cm_Result c))) ∨
  (cm_State c = ClaimAcquired ∧ live now m (ident_of (lease_of r)) = None ∧
   m' = <[ident_of (lease_of r) := mkEntry (cl_Fingerprint r) (cl_Owner r) (now + cl_ProcessingTTL r) None]> m).
Proof.
  unfold ref_claim. destruct (live now m (ident_of (lease_of r))) as [e|] eqn:Hl; [|intros [= <- <-]; by right]. apply live_Some in Hl as [Hl _].
  case_bool_decide as Hf; [|intros [= <- <-]; by left]. cbn. destruct (en_result e) eqn:Hr; intros [= <- <-]; left; (split; [done|split; [done|]]); [|done]. eauto.
Qed.
Lemma given_up_free r t log m now : given_up r t log now ∨ owns r t log m → live now m (ident_of (lease_of r)) = None → given_up r t log now.
Proof.
  intros [Hg|(e & He & Ho & Hf & Hx)] Hl; [done|]. assert (Hexp : en_until e ≤ now).
  { unfold live in Hl. rewrite He in Hl. cbn in Hl. destruct (Z.ltb_spec now (en_until e)); [done|lia]. }
  destruct Hx as [[_ Hu]|(c & t' & ok & Hc & Hlease & Hu)]; [left; lia|right; right; exists c, t', ok]. split; [done|]. split; [done|lia].
Qed.

(** ** Steps *)
Lemma keep_sys s st now threads log d e :
  idsys_ok s → ids_now s ≤ now → log = ids_log s ++ e →
  (∀ r t, EvStarted r t ∈ log → given_up r t log now ∨ owns r t log (is_table st)) →
  (∀ k e res, is_table st !! k = Some e → en_result e = Some res → completed_as k (en_fingerprint e) res log) →
  (∀ r res, EvReplayed r res ∈ e → completed_as (ident_of (lease_of r)) (cl_Fingerprint r) res log) →
  exclusive log → Forall (λ t, thread_ok t log) threads → idsys_ok (mkIdsys st now threads log d).
Proof.
  intros Hok Hn -> Hown Hres Hrep Hex Hth. constructor; cbn; try done.
  intros r res [Hin|Hin]%elem_of_app; [|by apply Hrep]. eapply completed_as_mono; [by apply (io_replays _ Hok)|]. intros x Hx. apply elem_of_app. by left.
Qed.
Lemma threads_mono s log : idsys_ok s → ids_log s ⊆ log → Forall (λ t, thread_ok t log) (ids_threads s).
Proof. intros Hok Hsub. eapply Forall_impl; [apply Hok|]. intros t Ht. cbv beta in *. eapply thread_ok_mono; [exact Ht|exact Hsub]. Qed.

(** The owners and results after a claim took its identity at [now]. *)
Lemma claimed_owners s r log m' : idsys_ok s → ids_log s ⊆ log →
  live (ids_now s) (is_table (ids_store s)) (ident_of (lease_of r)) = None →
  m' = <[ident_of (lease_of r) := mkEntry (cl_Fingerprint r) (cl_Owner r) (ids_now s + cl_ProcessingTTL r) None]> (is_table (ids_store s)) →
  (∀ a t, EvStarted a t ∈ ids_log s → given_up a t log (ids_now s) ∨ owns a t log m') ∧
  (∀ k e res, m' !! k = Some e → en_result e = Some res → completed_as k (en_fingerprint e) res log) ∧
  owns r (ids_now s) log m'.
Proof.
  intros Hok Hsub Hfree ->. split; [|split].
  - intros a t Ha. pose proof (io_owners _ Hok a t Ha) as Hx.
    destruct (decide (ident_of (lease_of a) = ident_of (lease_of r))) as [E|Hne].
    + left. rewrite <- E in Hfree. eapply given_up_mono; [by eapply given_up_free|done|lia].
    + destruct Hx as [Hx|Hx]; [left; eapply given_up_mono; [done|done|lia]|right]. destruct (owns_mono _ _ _ log _ Hx Hsub) as (e & He & Hrest).
      exists e. rewrite lookup_insert_ne by done. done.
  - intros k e res Hk Hr. destruct (decide (k = ident_of (lease_of r))) as [->|Hne].
    + rewrite lookup_insert_eq in Hk. by injection Hk as <-.
    + rewrite lookup_insert_ne in Hk by done. eapply completed_as_mono; [by eapply (io_results _ Hok)|done].
  - eexists. rewrite lookup_insert_eq. split; [done|]. cbn. auto.
Qed.
Lemma unchanged_owners s log : idsys_ok s → ids_log s ⊆ log →
  (∀ a t, EvStarted a t ∈ ids_log s → given_up a t log (ids_now s) ∨ owns a t log (is_table (ids_store s))) ∧
  (∀ k e res, is_table (ids_store s) !! k = Some e → en_result e = Some res → completed_as k (en_fingerprint e) res log).
Proof.
  intros Hok Hsub. split.
  - intros a t Ha. destruct (io_owners _ Hok a t Ha) as [Hx|Hx]; [left; eapply given_up_mono; [done|done|lia]|right; by eapply owns_mono].
  - intros k e res Hk Hr. eapply completed_as_mono; [by eapply (io_results _ Hok)|done].
Qed.

Lemma begin_ok s rule codec r : idsys_ok s → idsys_ok (idstep config s (IBegin rule codec r)).
Proof.
  intros Hok. cbn. pose proof (claim_law (ids_now s) r (ids_store s)) as Hlaw. destruct (is_Claim (ids_now s) r (ids_store s)) as [answer st].
  (* what the call did to the table *)
  assert (Htab : (is_table st = is_table (ids_store s) ∨ live (ids_now s) (is_table (ids_store s)) (ident_of (lease_of r)) = None ∧
      is_table st = <[ident_of (lease_of r) := mkEntry (cl_Fingerprint r) (cl_Owner r) (ids_now s + cl_ProcessingTTL r) None]> (is_table (ids_store s)))).
  { destruct (ref_claim (ids_now s) r (is_table (ids_store s))) as [c m'] eqn:Hrc. pose proof (ref_claim_cases _ _ _ _ _ Hrc) as Hcs.
    destruct answer as [c'|]; [injection Hlaw as -> ->|cbn in Hlaw; destruct Hlaw as [->| ->]; [by left|]]; destruct Hcs as [[-> _]|(_ & Hl & ->)]; auto. }
  assert (Hsub : ∀ e, ids_log s ⊆ ids_log s ++ e) by (intros e x Hx; apply elem_of_app; by left).
  assert (Hfin : ∀ ans, (∀ resp, ans = Ok resp → ∃ c, answer = Ok c ∧ cm_State c = ClaimReplayed ∧ cd_Decode codec (cm_Result c) = Ok resp) → ∀ d,
    idsys_ok (mkIdsys st (ids_now s) (ids_threads s ++ [TDone codec r ans]) (ids_log s ++ replay_event r answer) d)).
  { intros ans Ha d. apply (keep_sys s _ _ _ _ _ (replay_event r answer) Hok); [lia|done|..].
    - intros a' t [Ht|Ht]%elem_of_app; [|by destruct answer as [[[] ? ?]|]; apply list_elem_of_singleton in Ht || apply not_elem_of_nil in Ht].
      destruct Htab as [->|[Hl ->]]; [by apply (unchanged_owners s _ Hok (Hsub _))|]. by apply (claimed_owners s r _ _ Hok (Hsub _) Hl eq_refl).
    - destruct Htab as [->|[Hl ->]]; [by apply (unchanged_owners s _ Hok (Hsub _))|]. by apply (claimed_owners s r _ _ Hok (Hsub _) Hl eq_refl).
    - intros r' res Hin. destruct answer as [c|]; [|by apply not_elem_of_nil in Hin]. cbn in Hin. destruct (cm_State c) eqn:Hst; try (by apply not_elem_of_nil in Hin).
      apply list_elem_of_singleton in Hin. injection Hin as -> ->. destruct (ref_claim_cases _ _ _ _ _ Hlaw) as [(_ & _ & Hrep)|(Hacq & _)]; [|congruence].
      destruct (Hrep Hst) as (e & He & Hf & Hr). rewrite <- Hf. eapply completed_as_mono; [by eapply (io_results _ Hok)|apply Hsub].
    - assert (Hns : ∀ b tb, EvStarted b tb ∉ replay_event r answer). { intros b tb Hin. destruct answer as [[[] ? ?]|]; apply list_elem_of_singleton in Hin || apply not_elem_of_nil in Hin; done. }
      revert Hns. destruct (replay_event r answer) as [|e [|e' l]] eqn:Hev; intros Hns; [rewrite app_nil_r; apply Hok| |by destruct answer as [[[] ? ?]|]].
      apply exclusive_snoc; [apply Hok|]. intros b tb ->. by destruct (Hns b tb); left.
    - apply Forall_app. split; [by apply threads_mono|]. apply Forall_singleton. destruct ans as [resp|]; [|done].
      destruct (Ha resp eq_refl) as (c & -> & Hst & Hd). right. exists (cm_Result c). split; [|done]. apply elem_of_app. right. cbn. rewrite Hst. by left. }
  unfold claimed. destruct answer as [c|err]; [|apply Hfin; discriminate]. destruct (negb _); [apply Hfin; discriminate|]. destruct (cm_State c) eqn:Hst; try (apply Hfin; discriminate).
  - destruct (ref_claim_cases _ _ _ _ _ Hlaw) as [(_ & Hna & _)|(_ & Hl & Hm)]; [done|].
    destruct (claimed_owners s r (ids_log s ++ [EvStarted r (ids_now s)]) _ Hok (Hsub _) Hl Hm) as (Ho & Hr & Hmine).
    apply (keep_sys s _ _ _ _ _ [EvStarted r (ids_now s)] Hok); [lia|done| |done|..].
    + intros a t [Ht|[= <- <-]]%started_snoc; [by apply Ho|by right].
    + intros r' res Hin. by apply list_elem_of_singleton in Hin.
    + apply exclusive_snoc; [apply Hok|]. intros b tb [= <- <-] a ta Ha Hid. eapply given_up_free; [by apply (io_owners _ Hok)|by rewrite Hid].
    + apply Forall_app. split; [by apply threads_mono|]. by apply Forall_singleton.
  - destruct (cd_Decode codec (cm_Result c)) as [resp|] eqn:Hd; apply Hfin; [|discriminate]. intros resp' [= <-]. eauto.
Qed.

Lemma log_grows s (l : list event) : ids_log s ⊆ ids_log s ++ l.
Proof. intros x Hx. apply elem_of_app. by left. Qed.
Lemma fenced_owner now l m a t log : fenced now l m = true → owns a t log m → ident_of (lease_of a) = ident_of l → lease_of a = l.
Proof.
  unfold fenced. destruct (live now m (ident_of l)) as [e|] eqn:Hl; [|done]. apply live_Some in Hl as [Hl _].
  intros [[Ho%bool_decide_eq_true_1 Hf%bool_decide_eq_true_1]%andb_prop _]%andb_prop (e' & He' & Ho' & Hf' & _) Hid. rewrite Hid, Hl in He'. injection He' as <-.
  destruct l, a. unfold ident_of in Hid. cbn in *. unfold lease_of. cbn. congruence.
Qed.

(** A settling call that did nothing, or did what the reference store does. *)
Lemma settle_kept s st threads ev d : idsys_ok s →
  (∀ b tb, ev ≠ EvStarted b tb) → (∀ r res, ev ≠ EvReplayed r res) → Forall (λ t, thread_ok t (ids_log s ++ [ev])) threads →
  (is_table st = is_table (ids_store s) ∨
   (∀ a t, EvStarted a t ∈ ids_log s → owns a t (ids_log s) (is_table (ids_store s)) →
      given_up a t (ids_log s ++ [ev]) (ids_now s) ∨ owns a t (ids_log s ++ [ev]) (is_table st)) ∧
   (∀ k e res, is_table st !! k = Some e → en_result e = Some res →
      is_table (ids_store s) !! k = Some e ∨ completed_as k (en_fingerprint e) res (ids_log s ++ [ev]))) →
  idsys_ok (mkIdsys st (ids_now s) threads (ids_log s ++ [ev]) d).
Proof.
  intros Hok Hns Hnr Hth Htab. destruct (unchanged_owners s _ Hok (log_grows s [ev])) as [Ho Hr].
  apply (keep_sys s _ _ _ _ _ [ev] Hok); [lia|done|..|done].
  - intros a t [Ha|Ha]%started_snoc; [|by destruct (Hns a t)]. destruct Htab as [->|[Ht _]]; [by apply Ho|].
    destruct (io_owners _ Hok a t Ha) as [Hx|Hx]; [left; eapply given_up_mono; [done|apply log_grows|lia]|by apply Ht].
  - intros k e res Hk He. destruct Htab as [Heq|[_ Ht]]; [rewrite Heq in Hk; by apply Hr|]. destruct (Ht k e res Hk He) as [Hx|Hx]; [by apply Hr|done].
  - intros r res Hin%list_elem_of_singleton. by destruct (Hnr r res).
  - apply exclusive_snoc; [apply Hok|]. intros b tb Hev. by destruct (Hns b tb).
Qed.

Lemma complete_table s c ok a t (m := is_table (ids_store s)) (log' := ids_log s ++ [EvComplete c (ids_now s) ok]) :
  owns a t (ids_log s) m → owns a t log' (ref_complete (ids_now s) c m).2.
Proof.
  intros Hown. unfold ref_complete. destruct (fenced (ids_now s) (co_Lease c) m) eqn:Hf; cbn; [|eapply owns_mono; [done|apply log_grows]].
  destruct (decide (ident_of (lease_of a) = ident_of (co_Lease c))) as [E|Hne].
  - pose proof (fenced_owner _ _ _ _ _ _ Hf Hown E) as Hl. rewrite <- Hl. eexists. rewrite lookup_insert_eq. split; [done|]. cbn. split; [done|]. split; [done|].
    right. exists c, (ids_now s), ok. split; [apply elem_of_app; right; by left|]. by rewrite Hl.
  - destruct (owns_mono _ _ _ log' _ Hown (log_grows _ _)) as (e & He & Hrest). exists e. by rewrite lookup_insert_ne.
Qed.
Lemma abandon_table s l a t (m := is_table (ids_store s)) (log' := ids_log s ++ [EvAbandon l (ids_now s)]) :
  owns a t (ids_log s) m → given_up a t log' (ids_now s) ∨ owns a t log' (ref_abandon (ids_now s) l m).2.
Proof.
  intros Hown. unfold ref_abandon. destruct (fenced (ids_now s) l m) eqn:Hf; cbn; [|right; eapply owns_mono; [done|apply log_grows]].
  destruct (decide (ident_of (lease_of a) = ident_of l)) as [E|Hne].
  - pose proof (fenced_owner _ _ _ _ _ _ Hf Hown E) as Hl. left. right. left. exists (ids_now s). rewrite Hl. apply elem_of_app. right. by left.
  - right. destruct (owns_mono _ _ _ log' _ Hown (log_grows _ _)) as (e & He & Hrest). exists e. by rewrite lookup_delete_ne.
Qed.
Lemma complete_results now c m k e res log ok : (ref_complete now c m).2 !! k = Some e → en_result e = Some res →
  m !! k = Some e ∨ completed_as k (en_fingerprint e) res (log ++ [EvComplete c now ok]).
Proof.
  unfold ref_complete. destruct (fenced now (co_Lease c) m); [|by left]. cbn. destruct (decide (k = ident_of (co_Lease c))) as [->|Hne]; [|rewrite lookup_insert_ne by done; by left].
  rewrite lookup_insert_eq. intros [= <-] [= <-]. right. exists c, now, ok. split; [apply elem_of_app; right; by left|done].
Qed.

Lemma handler_ok s i answer : idsys_ok s → idsys_ok (idstep config s (IHandler i answer)).
Proof.
  intros Hok. cbn. destruct (ids_threads s !! i) as [[rule codec r lease| | |]|] eqn:Hi; try done.
  pose proof (Forall_lookup_1 _ _ _ _ (io_threads _ Hok) Hi) as Ht. cbn in Ht. subst lease.
  destruct (handled config rule codec (lease_of r) answer (ids_counters s)) as [settling d] eqn:Hh.
  constructor; cbn; [apply Hok..|]. apply Forall_insert; [apply Hok|]. revert Hh. unfold handled.
  destruct answer as [resp|err]; [|by intros [= <- <-]]. destruct (cd_Encode codec resp) eqn:He; [|by intros [= <- <-]].
  destruct (_ <? _); intros [= <- <-]; done.
Qed.
Lemma settle_ok s i : idsys_ok s → idsys_ok (idstep config s (ISettle i)).
Proof.
  intros Hok. cbn. destruct (ids_threads s !! i) as [[|codec r c resp|codec r lease herr|]|] eqn:Hi; try done;
    pose proof (Forall_lookup_1 _ _ _ _ (io_threads _ Hok) Hi) as Ht; cbn in Ht.
  - pose proof (complete_law (ids_now s) c (ids_store s)) as Hlaw. destruct (is_Complete (ids_now s) c (ids_store s)) as [err st].
    assert (Htab : is_table st = is_table (ids_store s) ∨ is_table st = (ref_complete (ids_now s) c (is_table (ids_store s))).2).
    { destruct err; [done|]. right. by rewrite Hlaw. }
    destruct Ht as [Hl Henc]. destruct (completed resp err (ids_counters s)) as [answer d] eqn:Hc. apply settle_kept; try done.
    + apply Forall_insert; [apply threads_mono; [done|apply log_grows]|]. unfold completed in Hc. destruct err; injection Hc as <- <-; [done|].
      left. exists c, (ids_now s). split; [apply elem_of_app; right; by left|done].
    + destruct Htab as [->| ->]; [by left|right]. split; [intros a t _ Ho; right; by apply complete_table|]. intros k e res. apply complete_results.
  - pose proof (abandon_law (ids_now s) lease (ids_store s)) as Hlaw. destruct (is_Abandon (ids_now s) lease (ids_store s)) as [err st].
    assert (Htab : is_table st = is_table (ids_store s) ∨ is_table st = (ref_abandon (ids_now s) lease (is_table (ids_store s))).2).
    { destruct err; [done|]. right. by rewrite Hlaw. }
    apply settle_kept; try done.
    + apply Forall_insert; [apply threads_mono; [done|apply log_grows]|done].
    + destruct Htab as [->| ->]; [by left|right]. split; [intros a t _; apply abandon_table|]. intros k e res Hk _. left. revert Hk.
      unfold ref_abandon. destruct (fenced _ _ _); [|done]. cbn. intros Hk%lookup_delete_Some. tauto.
Qed.
Lemma time_ok s now : idsys_ok s → idsys_ok (idstep config s (ITime now)).
Proof.
  intros Hok. constructor; cbn; try apply Hok. intros r t Hr.
  destruct (io_owners _ Hok r t Hr) as [Hx|Hx]; [left; eapply given_up_mono; [done|done|lia]|by right].
Qed.
Lemma idsteps_ok s ops : idsys_ok s → idsys_ok (idsteps config s ops).
Proof.
  revert s. induction ops as [|o ops IH]; intros s Hok; [done|]. apply IH. destruct o; [by apply begin_ok|by apply handler_ok|by apply settle_ok|by apply time_ok].
Qed.
(** Nothing has happened and nothing is kept. *)
Definition fresh s : Prop := ids_log s = [] ∧ ids_threads s = [] ∧ is_table (ids_store s) = ∅.
Lemma fresh_ok s : fresh s → idsys_ok s.
Proof.
  intros (Hl & Ht & Hm). constructor.
  - rewrite Hl. by intros r t ?%not_elem_of_nil.
  - rewrite Hm. intros k e res Hk. by rewrite lookup_empty in Hk.
  - rewrite Hl. by intros r t ?%not_elem_of_nil.
  - intros l1 b tb l2. rewrite Hl. by destruct l1.
  - by rewrite Ht.
Qed.
End exclusion.

(** * Operation keys do not collide *)
Lemma escape_byte_ok b : 0 ≤ b < 256 → Forall (λ c, 0 ≤ c < 256 ∧ c ≠ 47) (escape_byte b).
Proof.
  intros Hb. unfold escape_byte. destruct (path_plain b) eqn:Hp.
  - apply Forall_singleton. split; [done|]. by intros ->.
  - assert (Hq : 0 ≤ b / 16 < 16) by (split; [apply Z.div_pos; lia|apply Z.div_lt_upper_bound; lia]). pose proof (Z.mod_pos_bound b 16 ltac:(lia)).
    unfold upper_hex. repeat constructor; repeat case_match; lia.
Qed.
Lemma path_escape_ok s : Forall (λ c, 0 ≤ c < 256 ∧ c ≠ 47) (PathEscape s).
Proof.
  unfold PathEscape. generalize (bytes_of_range s). induction (bytes_of s) as [|b l IH]; intros Hall; [done|]. inv Hall. cbn. apply Forall_app. split; [by apply escape_byte_ok|auto].
Qed.
Lemma upper_hex_inj m n : 0 ≤ m < 16 → 0 ≤ n < 16 → upper_hex m = upper_hex n → m = n.
Proof. unfold upper_hex. repeat case_match; lia. Qed.
(** The escapes of bytes are a prefix code. *)
Lemma escape_byte_prefix a b l l' : 0 ≤ a < 256 → 0 ≤ b < 256 → escape_byte a ++ l = escape_byte b ++ l' → a = b ∧ l = l'.
Proof.
  intros Ha Hb. unfold escape_byte. destruct (path_plain a) eqn:Hpa, (path_plain b) eqn:Hpb; cbn; intros Heq.
  - by injection Heq as -> ->.
  - injection Heq as -> _. done.
  - injection Heq as <- _. done.
  - assert (∀ x, 0 ≤ x < 256 → 0 ≤ x / 16 < 16 ∧ 0 ≤ x mod 16 < 16) as Hr
      by (intros x Hx; split; [split; [apply Z.div_pos; lia|apply Z.div_lt_upper_bound; lia]|apply Z.mod_pos_bound; lia]).
    destruct (Hr a Ha), (Hr b Hb). injection Heq as Hh Hl ->. apply upper_hex_inj in Hh; [|done..]. apply upper_hex_inj in Hl; [|done..].
    split; [|done]. rewrite (Z.div_mod a 16), (Z.div_mod b 16) by lia. congruence.
Qed.
Lemma path_escape_inj s t : PathEscape s = PathEscape t → s = t.
Proof.
  intros Heq. rewrite <- (string_of_bytes_of s), <- (string_of_bytes_of t). f_equal. revert Heq. unfold PathEscape. generalize (bytes_of_range s), (bytes_of_range t).
  generalize (bytes_of t). induction (bytes_of s) as [|a l IH]; intros [|b l'] Hl Hl' Heq; [done| | |].
  - exfalso. revert Heq. cbn. unfold escape_byte. by destruct (path_plain b).
  - exfalso. revert Heq. cbn. unfold escape_byte. by destruct (path_plain a).
  - inv Hl. inv Hl'. apply escape_byte_prefix in Heq as [-> Heq]; [|done..]. f_equal. by apply IH.
Qed.
(** Lists that do not hold the separator are split at the first one. *)
Lemma separated_inj (sep : Z) l1 l2 r1 r2 : sep ∉ l1 → sep ∉ l2 → l1 ++ sep :: r1 = l2 ++ sep :: r2 → l1 = l2 ∧ r1 = r2.
Proof.
  revert l2. induction l1 as [|x l1 IH]; intros [|y l2] H1 H2 Heq; cbn in Heq.
  - by injection Heq as ->.
  - injection Heq as -> _. destruct H2. by left.
  - injection Heq as -> _. destruct H1. by left.
  - injection Heq as -> Heq. apply not_elem_of_cons in H1 as [_ H1], H2 as [_ H2]. by destruct (IH l2 H1 H2 Heq) as [-> ->].
Qed.
Lemma escape_no_slash s : 47 ∉ PathEscape s.
Proof. intros Hin. pose proof (proj1 (Forall_forall _ _) (path_escape_ok s) _ Hin). naive_solver. Qed.
Lemma joined_bytes parts : bytes_of (joined parts) = tail (flat_map (λ p, 47 :: PathEscape p) parts).
Proof.
  unfold joined. apply bytes_of_string_of_bytes. destruct parts as [|p parts]; [done|]. cbn. apply Forall_app. split.
  - eapply Forall_impl; [apply path_escape_ok|]. by intros ? [].
  - induction parts as [|q parts IH]; [done|]. cbn. constructor; [lia|]. apply Forall_app. split; [|done]. eapply Forall_impl; [apply path_escape_ok|]. by intros ? [].
Qed.
Lemma joined_inj p ps q qs : length ps = length qs → joined (p :: ps) = joined (q :: qs) → p :: ps = q :: qs.
Proof.
  intros Hlen Heq. apply (f_equal bytes_of) in Heq. rewrite !joined_bytes in Heq. cbn in Heq. revert p q qs Hlen Heq.
  induction ps as [|p' ps IH]; intros p q [|q' qs] Hlen Heq; try done; cbn in *.
  - rewrite !app_nil_r in Heq. by rewrite (path_escape_inj _ _ Heq).
  - apply separated_inj in Heq as [Hp Heq]; [|apply escape_no_slash..]. rewrite (path_escape_inj _ _ Hp). f_equal. apply IH; [lia|done].
Qed.

(** [PolicyKey] is collision-free, as its comment says: two operations have one policy key only
    if transport, service, method and kind agree; and [storageOperation] forgets the transport and
    nothing else, so the adapters of one logical method, and no others, compete for one claim. *)
Theorem operation_keys_collision_free (a b : operation.Operation) :
  (PolicyKey a = PolicyKey b ↔
    operation.o_transport a = operation.o_transport b ∧ operation.o_service a = operation.o_service b ∧
    operation.o_method a = operation.o_method b ∧ Kind_string (operation.o_kind a) = Kind_string (operation.o_kind b)) ∧
  (storageOperation a = storageOperation b ↔
    operation.o_service a = operation.o_service b ∧ operation.o_method a = operation.o_method b ∧
    Kind_string (operation.o_kind a) = Kind_string (operation.o_kind b)).
Proof.
  unfold PolicyKey, storageOperation. split; (split; [intros Heq; apply joined_inj in Heq; [naive_solver|done]|naive_solver congruence]).
Qed.

(** * One effect *)

(** C15: For every store that refines the reference store (also one whose calls fail after they took
    effect), and for every interleaving of the requests' claims, handlers, settling calls and the
    clock from a fresh start: whenever a handler starts, every request of the same identity that had
    started before has given the identity up (its processing time is over, it abandoned, or its
    result is no longer kept); a result that is replayed was completed for the same identity
    and the same fingerprint; and a request is answered with a response only if its own completion
    was recorded with that response's encoding, or the response decodes such a replayed result. *)
Theorem idempotent_once {Req Resp St} `{IdemStore St} (config : Config) (s : idsys Req Resp St) ops
    (s' := idsteps config s ops) :
  fresh s →
  exclusive (ids_log s') ∧
  (∀ r res, EvReplayed r res ∈ ids_log s' → completed_as (ident_of (lease_of r)) (cl_Fingerprint r) res (ids_log s')) ∧
  (∀ i codec r response, ids_threads s' !! i = Some (TDone codec r (Ok response)) →
    (∃ c t, EvComplete c t true ∈ ids_log s' ∧ co_Lease c = lease_of r ∧ cd_Encode codec response = Ok (co_Result c)) ∨
    (∃ res, EvReplayed r res ∈ ids_log s' ∧ completed_as (ident_of (lease_of r)) (cl_Fingerprint r) res (ids_log s') ∧
       cd_Decode codec res = Ok response)).
Proof.
  intros Hf. assert (Hok : idsys_ok s') by (apply idsteps_ok; by apply fresh_ok). split; [apply Hok|]. split; [apply Hok|].
  intros i codec r response Hi. pose proof (Forall_lookup_1 _ _ _ _ (io_threads _ Hok) Hi) as [Hx|(res & Hx & Hd)]; [by left|right].
  exists res. split; [done|]. split; [by apply (io_replays _ Hok)|done].
Qed.

(** [invoke] is its claim, its handler and its settling call, run without a break. *)
Lemma invoke_steps {Req Resp St} `{IdemStore St} (config : Config) (s s' : idsys Req Resp St) rule codec request next t2
    (n := length (ids_threads s)) :
  ids_now s ≤ t2 → idsteps config s [IBegin rule codec request; IHandler n next; ITime t2; ISettle n] = s' →
  ∃ answer, ids_threads s' = ids_threads s ++ [TDone codec request answer] ∧
    invoke config (Claiming rule codec request) next (ids_now s) t2 (ids_store s) (ids_counters s) = (answer, ids_store s', ids_counters s').
Proof.
  intros Hle. subst n. unfold idsteps, fold_left, invoke. unfold idstep at 4.
  destruct (is_Claim (ids_now s) request (ids_store s)) as [claim st]. destruct (claimed config codec request claim (ids_counters s)) as [[lease|answer] d].
  - unfold idstep at 3. cbn [ids_threads ids_store ids_now ids_log ids_counters]. rewrite list_lookup_middle by done.
    destruct (handled config rule codec lease next d) as [[[completion response]|err] d1];
      unfold idstep; cbn [ids_threads ids_store ids_now ids_log ids_counters]; rewrite (Z.max_r _ _ Hle), insert_app_r_alt, Nat.sub_diag by lia;
      cbn [insert list_insert]; rewrite list_lookup_middle by done.
    + destruct (is_Complete t2 completion st) as [err st2]. destruct (completed response err d1) as [answer d2].
      intros <-. exists answer. cbn [ids_threads]. by rewrite insert_app_r_alt, Nat.sub_diag by lia.
    + destruct (is_Abandon t2 lease st) as [err' st2]. destruct (abandoned err err' d1) as [answer d2].
      intros <-. exists answer. cbn [ids_threads]. by rewrite insert_app_r_alt, Nat.sub_diag by lia.
  - unfold idstep. cbn [ids_threads ids_store ids_now ids_log ids_counters]. rewrite list_lookup_middle by done.
    cbn [ids_threads ids_store ids_now ids_log ids_counters]. rewrite list_lookup_middle by done. intros <-. by exists answer.
Qed.

(** ** A concrete run *)
Definition w_fingerprint : string := Fingerprint (bytes_of "body").
Definition w_codec : Codec string := mkCodec Ok Ok.
Definition w_rule : Rule string string :=
  mkRule "orders" minute hour (Some (λ _ _, Ok (mkIdentity "key-1" w_fingerprint))) (Some w_codec).
Definition w_request (owner : string) : ClaimRequest := mkClaimRequest "orders/Create/unary" "orders" "key-1" w_fingerprint owner minute.
Definition w_start : idsys string string (gmap (string * string * string) entry) := mkIdsys ∅ 0 [] [] (mkDescription 0 0 0 0 0 0 0 0 0).
Definition w_ops : list (idop string string) :=
  [IBegin w_rule w_codec (w_request "a"); IBegin w_rule w_codec (w_request "b"); IHandler 0 (Ok "created"); ITime second; ISettle 0;
   IBegin w_rule w_codec (w_request "c")].
Definition w_config : Config := mkConfig defaultBackendTimeout defaultMaxResultBytes.
(** The second request is told to wait, the third is answered with the first one's result. *)
Lemma idempotent_once_witness :
  fresh w_start ∧ exclusive (ids_log (idsteps w_config w_start w_ops)) ∧
  ids_threads (idsteps w_config w_start w_ops) =
    [TDone w_codec (w_request "a") (Ok "created"); TDone w_codec (w_request "b") (Err (ErrInProgress 60000)); TDone w_codec (w_request "c") (Ok "created")] ∧
  invoke w_config (prepare false None (Some (operation.mkOperation "http" "orders" "Create" operation.KindUnary)) (λ _, Some w_rule) (Ok "0123456789abcdef") "body")
    (Ok "created") 0 second ∅ (mkDescription 0 0 0 0 0 0 0 0 0) =
  (Ok "created",
   {[("orders/Create/unary", "orders", "key-1") := mkEntry w_fingerprint "MDEyMzQ1Njc4OWFiY2RlZg" (second + hour) (Some "created")]},
   mkDescription 1 0 0 0 0 0 0 0 0).
Proof.
  assert (Hf : fresh w_start) by done. split; [done|]. split; [apply (idempotent_once w_config w_start w_ops Hf)|].
  split; vm_compute; reflexivity.
Defined.
