(* ===== verification/Outbox.v ===== *)
(** * outbox: the transactional outbox dispatcher

    Models package [outbox] ([outbox.go], [dispatcher.go], [maintenance.go]): messages and their
    validation, the requests, the construction and life cycle of a [Dispatcher] and its polling
    loop.  The loop is generic in a world, a type class with the repository, the publisher, the
    clock and the polling context; each of the application's calls may panic.  Other goroutines
    reach the loop only through the contexts, so whether the polling context has ended is an
    answer of the world. *)
From S2P Require Import Prelude GoText.
Open Scope Z_scope.

Definition maxIDBytes : Z := 256.
Definition maxDestinationBytes : Z := 512.
Definition maxKeyBytes : Z := 1024 * 1024.
Definition maxHeaders : Z := 64.
Definition maxHeaderBytes : Z := 8 * 1024.
Definition maxPayloadBytes : Z := 16 * 1024 * 1024.
Definition maxClaimLimit : Z := 10000.
Definition maxReplayIDs : Z := 100.

Record Message := mkMessage {
  m_ID : string;
  m_Destination : string;
  m_Key : string;
  m_Payload : string;
  m_Headers : gmap string string;
  m_Attempts : Z
}.
#[export] Instance Message_eq_dec : EqDecision Message.
Proof. solve_decision. Defined.

Definition validIdentity (value : string) (maxBytes : Z) : bool := valid_text maxBytes value.

(** The loop over the headers, in the order the map is ranged over. *)
Fixpoint headers_ok (headers : list (string * string)) (headerBytes : Z) : bool :=
  match headers with
  | [] => true
  | (key, value) :: headers =>
      if negb (validIdentity key maxIDBytes) then false
      else
        let headerBytes := headerBytes + (slen key + slen value) in
        if maxHeaderBytes <? headerBytes then false else headers_ok headers headerBytes
  end.

(** A nil error. *)
Definition Validate (m : Message) : bool :=
  if negb (validIdentity (m_ID m) maxIDBytes) || negb (validIdentity (m_Destination m) maxDestinationBytes) ||
     (m_Attempts m <? 0) || (maxKeyBytes <? slen (m_Key m)) || (maxPayloadBytes <? slen (m_Payload m)) ||
     (maxHeaders <? Z.of_nat (size (m_Headers m)))
  then false
  else headers_ok (map_to_list (m_Headers m)) 0.

Record ClaimRequest := mkClaimRequest { cl_Owner : string; cl_Limit : Z; cl_LeaseUntil : time }.
Definition ClaimRequest_Validate (r : ClaimRequest) (now : time) : bool :=
  negb (IsZero now || negb (validIdentity (cl_Owner r) maxIDBytes) || (cl_Limit r <=? 0) || (maxClaimLimit <? cl_Limit r) ||
        negb (After (cl_LeaseUntil r) now)).

(** ** Maintenance requests *)
Record ReplayRequest := mkReplayRequest { rr_IDs : list string; rr_ExpectedReason : string; rr_AvailableAt : time }.
Fixpoint replay_ids_ok (ids seen : list string) : bool :=
  match ids with
  | [] => true
  | id :: ids =>
      if negb (validIdentity id maxIDBytes) then false
      else if bool_decide (id ∈ seen) then false else replay_ids_ok ids (id :: seen)
  end.
Definition ReplayRequest_Validate (r : ReplayRequest) (now : time) : bool :=
  if IsZero now || IsZero (rr_AvailableAt r) || Before (rr_AvailableAt r) now ||
     negb (validIdentity (rr_ExpectedReason r) 64) || (zlen (rr_IDs r) =? 0) || (maxReplayIDs <? zlen (rr_IDs r))
  then false
  else replay_ids_ok (rr_IDs r) [].

Record RetentionRequest := mkRetentionRequest { rt_PublishedBefore : time; rt_TerminalBefore : time; rt_Limit : Z }.
Definition RetentionRequest_Validate (r : RetentionRequest) : bool :=
  negb (IsZero (rt_PublishedBefore r) || IsZero (rt_TerminalBefore r) || (rt_Limit r <=? 0) || (maxClaimLimit <? rt_Limit r)).

(** ** Configuration *)
Definition defaultPollInterval : duration := 250 * millisecond.
Definition defaultErrorDelay : duration := second.
Definition defaultLeaseTTL : duration := 30 * second.
Definition defaultPublishTimeout : duration := 10 * second.
Definition defaultBatchSize : Z := 100.
Definition defaultMaxAttempts : Z := 20.

(** [oc_Repository] and [oc_Publisher] say whether the interfaces are non-nil. *)
Record Config := mkConfig {
  oc_Name : string;
  oc_Owner : string;
  oc_Repository : bool;
  oc_Publisher : bool;
  oc_PollInterval : duration;
  oc_ErrorDelay : duration;
  oc_LeaseTTL : duration;
  oc_PublishTimeout : duration;
  oc_BatchSize : Z;
  oc_MaxAttempts : Z;
  oc_RetryBase : duration;
  oc_RetryMax : duration
}.

Inductive oerror := ErrInvalidOption | ErrNotStarted | ErrBatchTooLarge | ErrDispatcherPanic | OutboxCause (cause : string).

(** [New] validates the configuration with its defaults. *)
Definition New (config : Config) : result oerror Config :=
  if negb (validIdentity (oc_Name config) maxIDBytes) || negb (validIdentity (oc_Owner config) maxIDBytes) ||
     negb (oc_Repository config) || negb (oc_Publisher config)
  then Err ErrInvalidOption
  else
    let poll := or_default (oc_PollInterval config) defaultPollInterval in
    let delay := or_default (oc_ErrorDelay config) defaultErrorDelay in
    let lease := or_default (oc_LeaseTTL config) defaultLeaseTTL in
    let publish := or_default (oc_PublishTimeout config) defaultPublishTimeout in
    let batch := or_default (oc_BatchSize config) defaultBatchSize in
    let attempts := or_default (oc_MaxAttempts config) defaultMaxAttempts in
    let base := or_default (oc_RetryBase config) second in
    let retry := or_default (oc_RetryMax config) minute in
    if (poll <? 0) || (delay <? 0) || (lease <=? 0) || (publish <=? 0) || (lease <=? publish) || (batch <=? 0) ||
       (10000 <? batch) || (attempts <=? 0) || (base <=? 0) || (retry <? base)
    then Err ErrInvalidOption
    else Ok (mkConfig (oc_Name config) (oc_Owner config) true true poll delay lease publish batch attempts base retry).

(** ** Retry delays *)
Fixpoint retry_loop (config : Config) (n : nat) (delay : duration) : duration :=
  match n with
  | O => if oc_RetryMax config <? delay then oc_RetryMax config else delay
  | S n => if oc_RetryMax config ÷ 2 <=? delay then oc_RetryMax config else retry_loop config n (i64 (delay * 2))
  end.
(** The loop runs for [attempt] from 1 to [attempts - 1]. *)
Definition retryDelay (config : Config) (attempts : Z) : duration :=
  retry_loop config (Z.to_nat (attempts - 1)) (oc_RetryBase config).

(** ** The dispatcher *)
Record Dispatcher := mkDispatcher {
  d_started : bool;
  d_stopRequested : bool;
  d_finished : bool;
  d_inflight : Z;
  d_pollCancelled : bool;
  d_deliveryCancelled : option oerror;
  d_runErr : option oerror;
  d_claimed : Z;
  d_published : Z;
  d_rescheduled : Z;
  d_terminal : Z;
  d_repositoryFailures : Z;
  d_publisherFailures : Z;
  d_consecutiveRepositoryFailures : Z;
  d_consecutivePublisherFailures : Z
}.
Definition newDispatcher : Dispatcher := mkDispatcher false false false 0 false None None 0 0 0 0 0 0 0 0.

Definition set_finished (d : Dispatcher) : Dispatcher :=
  mkDispatcher (d_started d) (d_stopRequested d) true 0 (d_pollCancelled d) (d_deliveryCancelled d) (d_runErr d)
    (d_claimed d) (d_published d) (d_rescheduled d) (d_terminal d) (d_repositoryFailures d) (d_publisherFailures d)
    (d_consecutiveRepositoryFailures d) (d_consecutivePublisherFailures d).
Definition setRunError (err : oerror) (d : Dispatcher) : Dispatcher :=
  mkDispatcher (d_started d) (d_stopRequested d) (d_finished d) (d_inflight d) (d_pollCancelled d) (d_deliveryCancelled d)
    (Some err) (d_claimed d) (d_published d) (d_rescheduled d) (d_terminal d) (d_repositoryFailures d)
    (d_publisherFailures d) (d_consecutiveRepositoryFailures d) (d_consecutivePublisherFailures d).
Definition add_inflight (n : Z) (d : Dispatcher) : Dispatcher :=
  mkDispatcher (d_started d) (d_stopRequested d) (d_finished d) (d_inflight d + n) (d_pollCancelled d) (d_deliveryCancelled d)
    (d_runErr d) (d_claimed d) (d_published d) (d_rescheduled d) (d_terminal d) (d_repositoryFailures d)
    (d_publisherFailures d) (d_consecutiveRepositoryFailures d) (d_consecutivePublisherFailures d).
(** The counters: claimed, published, rescheduled and terminal messages. *)
Definition count (claimed published rescheduled terminal : Z) (d : Dispatcher) : Dispatcher :=
  mkDispatcher (d_started d) (d_stopRequested d) (d_finished d) (d_inflight d) (d_pollCancelled d) (d_deliveryCancelled d)
    (d_runErr d) (u64_add (d_claimed d) claimed) (u64_add (d_published d) published) (u64_add (d_rescheduled d) rescheduled)
    (u64_add (d_terminal d) terminal) (d_repositoryFailures d) (d_publisherFailures d)
    (d_consecutiveRepositoryFailures d) (d_consecutivePublisherFailures d).
(** A repository call failed, or succeeded and reset the streak. *)
Definition repository_failed (d : Dispatcher) : Dispatcher :=
  mkDispatcher (d_started d) (d_stopRequested d) (d_finished d) (d_inflight d) (d_pollCancelled d) (d_deliveryCancelled d)
    (d_runErr d) (d_claimed d) (d_published d) (d_rescheduled d) (d_terminal d) (u64_add (d_repositoryFailures d) 1)
    (d_publisherFailures d) (u64_add (d_consecutiveRepositoryFailures d) 1) (d_consecutivePublisherFailures d).
Definition repository_ok (d : Dispatcher) : Dispatcher :=
  mkDispatcher (d_started d) (d_stopRequested d) (d_finished d) (d_inflight d) (d_pollCancelled d) (d_deliveryCancelled d)
    (d_runErr d) (d_claimed d) (d_published d) (d_rescheduled d) (d_terminal d) (d_repositoryFailures d)
    (d_publisherFailures d) 0 (d_consecutivePublisherFailures d).
Definition publisher_failed (d : Dispatcher) : Dispatcher :=
  mkDispatcher (d_started d) (d_stopRequested d) (d_finished d) (d_inflight d) (d_pollCancelled d) (d_deliveryCancelled d)
    (d_runErr d) (d_claimed d) (d_published d) (d_rescheduled d) (d_terminal d) (d_repositoryFailures d)
    (u64_add (d_publisherFailures d) 1) (d_consecutiveRepositoryFailures d) (u64_add (d_consecutivePublisherFailures d) 1).
Definition publisher_ok (d : Dispatcher) : Dispatcher :=
  mkDispatcher (d_started d) (d_stopRequested d) (d_finished d) (d_inflight d) (d_pollCancelled d) (d_deliveryCancelled d)
    (d_runErr d) (d_claimed d) (d_published d) (d_rescheduled d) (d_terminal d) (d_repositoryFailures d)
    (d_publisherFailures d) (d_consecutiveRepositoryFailures d) 0.

(** *** Life cycle, under the mutex *)
Definition Start (ctx : context oerror) (d : Dispatcher) : option oerror * Dispatcher :=
  match ctx with
  | NilContext => (Some ErrInvalidOption, d)
  | Context (Some cause) => (Some cause, d)
  | Context None =>
      if d_started d then (Some ErrInvalidOption, d)
      else (None, mkDispatcher true (d_stopRequested d) (d_finished d) (d_inflight d) (d_pollCancelled d) (d_deliveryCancelled d)
        (d_runErr d) (d_claimed d) (d_published d) (d_rescheduled d) (d_terminal d) (d_repositoryFailures d)
        (d_publisherFailures d) (d_consecutiveRepositoryFailures d) (d_consecutivePublisherFailures d))
  end.

(** [Stop] up to its wait: polling is cancelled. *)
Definition Stop_begin (ctx : context oerror) (d : Dispatcher) : option oerror * Dispatcher :=
  match ctx with
  | NilContext => (Some ErrInvalidOption, d)
  | Context _ =>
      if negb (d_started d) then (None, d)
      else (None, mkDispatcher (d_started d) true (d_finished d) (d_inflight d) true (d_deliveryCancelled d)
        (d_runErr d) (d_claimed d) (d_published d) (d_rescheduled d) (d_terminal d) (d_repositoryFailures d)
        (d_publisherFailures d) (d_consecutiveRepositoryFailures d) (d_consecutivePublisherFailures d))
  end.

(** The end of the wait: the loop has finished, or the caller's context has ended, which cancels
    the deliveries ([context.WithCancelCause] keeps the first cause).  [None] means still waiting. *)
Definition Stop_finish (cause : option oerror) (d : Dispatcher) : option (option oerror * Dispatcher) :=
  if d_finished d then Some (d_runErr d, d)
  else match cause with
  | None => None
  | Some cause =>
      Some (Some cause, mkDispatcher (d_started d) (d_stopRequested d) (d_finished d) (d_inflight d) (d_pollCancelled d)
        (Some (default cause (d_deliveryCancelled d)))
        (d_runErr d) (d_claimed d) (d_published d) (d_rescheduled d) (d_terminal d) (d_repositoryFailures d)
        (d_publisherFailures d) (d_consecutiveRepositoryFailures d) (d_consecutivePublisherFailures d))
  end.

(** [Wait]; [None] means still waiting. *)
Definition Wait (d : Dispatcher) : option (option oerror) :=
  if negb (d_started d) then Some (Some ErrNotStarted)
  else if d_finished d then Some (d_runErr d) else None.

(** *** The world of the loop *)
Inductive call (A : Type) := Returned (a : A) | Panicked.
Arguments Returned {A} a.
Arguments Panicked {A}.

Class OutboxWorld (W : Type) := {
  ob_pollEnded : W → bool * W;                       (* context.Cause(pollCtx) != nil *)
  ob_wait : duration → W → bool * W;                 (* the timer fired before the context ended *)
  ob_now : W → time * W;
  ob_Claim : ClaimRequest → W → call (result oerror (list Message)) * W;
  ob_Complete : string → string → W → call (option oerror) * W;
  ob_Reschedule : string → string → time → bool → string → W → call (option oerror) * W;
  ob_Publish : Message → W → call (option oerror) * W;
  ob_ClassifyFailure : oerror → W → call string * W
}.

Section dispatcher.
  Context {W : Type} `{OutboxWorld W}.
  Context (config : Config).

Definition wait (delay : duration) (w : W) : bool * W :=
  if delay <=? 0 then let '(ended, w) := ob_pollEnded w in (negb ended, w) else ob_wait delay w.

(** A panic of the publisher is an error. *)
Definition publish (message : Message) (w : W) : option oerror * W :=
  match ob_Publish message w with
  | (Returned err, w) => (err, w)
  | (Panicked, w) => (Some (OutboxCause "outbox: publisher panic"), w)
  end.

Definition classifyFailure (err : oerror) (w : W) : string * W :=
  match ob_ClassifyFailure err w with
  | (Returned reason, w) => (reason, w)
  | (Panicked, w) => ("publish_failed", w)
  end.

(** The boolean says that a repository call panicked, which ends the loop. *)
Definition settleFailure (message : Message) (terminal : bool) (reason : string) (d : Dispatcher) (w : W) : bool * Dispatcher * W :=
  let '(now, w) := ob_now w in
  let next := if terminal then now else now + retryDelay config (m_Attempts message) in
  match ob_Reschedule (oc_Owner config) (m_ID message) next terminal reason w with
  | (Panicked, w) => (true, d, w)
  | (Returned (Some _), w) => (false, repository_failed d, w)
  | (Returned None, w) =>
      let d := repository_ok d in
      (false, (if terminal then count 0 0 0 1 d else count 0 0 1 0 d), w)
  end.

Definition complete (message : Message) (d : Dispatcher) (w : W) : bool * Dispatcher * W :=
  match ob_Complete (oc_Owner config) (m_ID message) w with
  | (Panicked, w) => (true, d, w)
  | (Returned (Some _), w) => (false, repository_failed d, w)
  | (Returned None, w) => (false, count 0 1 0 0 (repository_ok d), w)
  end.

Definition process (message : Message) (d : Dispatcher) (w : W) : bool * Dispatcher * W :=
  if negb (Validate message) || (m_Attempts message <=? 0) then settleFailure message true "invalid_message" d w
  else
    let d := add_inflight 1 d in
    let '(err, w) := publish message w in
    let '(panicked, d, w) :=
      match err with
      | None => complete message (publisher_ok d) w
      | Some err =>
          let d := publisher_failed d in
          let terminal := oc_MaxAttempts config <=? m_Attempts message in
          let '(reason, w) := classifyFailure err w in
          let reason := if negb (validIdentity reason 64) then "publish_failed" else reason in
          settleFailure message terminal reason d w
      end in
    (panicked, add_inflight (-1) d, w).

Fixpoint process_all (messages : list Message) (d : Dispatcher) (w : W) : bool * Dispatcher * W :=
  match messages with
  | [] => (false, d, w)
  | message :: messages =>
      let '(panicked, d, w) := process message d w in
      if panicked then (true, d, w) else process_all messages d w
  end.

(** One iteration of the loop; [true] when it goes on. *)
Definition iteration (d : Dispatcher) (w : W) : bool * Dispatcher * W :=
  let '(ended, w) := ob_pollEnded w in
  if ended then (false, d, w)
  else
    let '(now, w) := ob_now w in
    match ob_Claim (mkClaimRequest (oc_Owner config) (oc_BatchSize config) (now + oc_LeaseTTL config)) w with
    | (Panicked, w) => (false, setRunError ErrDispatcherPanic d, w)
    | (Returned (Err _), w) =>
        let '(ended, w) := ob_pollEnded w in
        if ended then (false, d, w)
        else
          let d := repository_failed d in
          let '(go, w) := wait (oc_ErrorDelay config) w in
          (go, d, w)
    | (Returned (Ok messages), w) =>
        let d := repository_ok d in
        if oc_BatchSize config <? zlen messages then (false, setRunError ErrBatchTooLarge (repository_failed d), w)
        else if zlen messages =? 0 then
          let '(go, w) := wait (oc_PollInterval config) w in (go, d, w)
        else
          let '(panicked, d, w) := process_all messages (count (zlen messages) 0 0 0 d) w in
          if panicked then (false, setRunError ErrDispatcherPanic d, w) else (true, d, w)
    end.

(** [run]: at most [n] iterations; the boolean says that the loop has ended, which the deferred
    function then records. *)
Fixpoint run (n : nat) (d : Dispatcher) (w : W) : bool * Dispatcher * W :=
  match n with
  | O => (false, d, w)
  | S n =>
      let '(go, d, w) := iteration d w in
      if go then run n d w else (true, set_finished d, w)
  end.
End dispatcher.

(** * The calls of the loop

    Any world can be run with a recorder that keeps the calls with their answers. *)
Inductive event :=
| EClaim (limit : Z) (answer : call (result oerror (list Message)))
| EPublish (message : Message) (answer : call (option oerror))
| EComplete (owner id : string) (answer : call (option oerror))
| EReschedule (owner id : string) (next : time) (terminal : bool) (reason : string) (answer : call (option oerror)).

Definition log {A W} (call : A → event) (x : A * W) (events : list event) : A * (list event * W) :=
  (x.1, (events ++ [call x.1], x.2)).
Definition quietly {A W} (x : A * W) (events : list event) : A * (list event * W) := (x.1, (events, x.2)).

Definition recorded {W} `{OutboxWorld W} : OutboxWorld (list event * W) := {|
  ob_pollEnded w := quietly (ob_pollEnded w.2) w.1;
  ob_wait delay w := quietly (ob_wait delay w.2) w.1;
  ob_now w := quietly (ob_now w.2) w.1;
  ob_Claim q w := log (EClaim (cl_Limit q)) (ob_Claim q w.2) w.1;
  ob_Complete owner id w := log (EComplete owner id) (ob_Complete owner id w.2) w.1;
  ob_Reschedule owner id next terminal reason w :=
    log (EReschedule owner id next terminal reason) (ob_Reschedule owner id next terminal reason w.2) w.1;
  ob_Publish m w := log (EPublish m) (ob_Publish m w.2) w.1;
  ob_ClassifyFailure err w := quietly (ob_ClassifyFailure err w.2) w.1
|}.

Definition panicked {A} (x : call A) : bool := match x with Panicked => true | Returned _ => false end.

Definition malformed (m : Message) : bool := negb (Validate m) || (m_Attempts m <=? 0).

(** The calls for one message, and whether the last one panicked: a malformed message is only put
    aside; any other is published, then completed if the publisher accepted it, and otherwise put
    aside or back according to its attempts. *)
Inductive settled (config : Config) (m : Message) : list event → bool → Prop :=
| settled_malformed next ans :
    malformed m = true →
    settled config m [EReschedule (oc_Owner config) (m_ID m) next true "invalid_message" ans] (panicked ans)
| settled_published ans :
    malformed m = false →
    settled config m [EPublish m (Returned None); EComplete (oc_Owner config) (m_ID m) ans] (panicked ans)
| settled_failed published next reason ans :
    malformed m = false → published ≠ Returned None → validIdentity reason 64 = true →
    settled config m
      [EPublish m published;
       EReschedule (oc_Owner config) (m_ID m) next (oc_MaxAttempts config <=? m_Attempts m) reason ans]
      (panicked ans).

(** A batch is settled message by message in the order it was claimed, up to a panic. *)
Inductive batch (config : Config) : list Message → list event → bool → Prop :=
| batch_nil : batch config [] [] false
| batch_cons m ms l l' p :
    settled config m l false → batch config ms l' p → batch config (m :: ms) (l ++ l') p
| batch_panic m ms l : settled config m l true → batch config (m :: ms) l true.

(** One iteration, and whether the loop can go on after it. *)
Inductive turn (config : Config) : list event → bool → Prop :=
| turn_ended : turn config [] false
| turn_failed err go : turn config [EClaim (oc_BatchSize config) (Returned (Err err))] go
| turn_panic : turn config [EClaim (oc_BatchSize config) Panicked] false
| turn_oversized ms :
    oc_BatchSize config < zlen ms → turn config [EClaim (oc_BatchSize config) (Returned (Ok ms))] false
| turn_idle go : turn config [EClaim (oc_BatchSize config) (Returned (Ok []))] go
| turn_batch ms l p :
    ms ≠ [] → zlen ms ≤ oc_BatchSize config → batch config ms l p →
    turn config (EClaim (oc_BatchSize config) (Returned (Ok ms)) :: l) (negb p).

Inductive trace (config : Config) : list event → Prop :=
| trace_nil : trace config []
| trace_last l : turn config l false → trace config l
| trace_turn l l' : turn config l true → trace config l' → trace config (l ++ l').

(** How many calls succeeded. *)
Definition is_completed (e : event) : bool := match e with EComplete _ _ (Returned None) => true | _ => false end.
Definition is_put_back (terminal : bool) (e : event) : bool :=
  match e with EReschedule _ _ _ t _ (Returned None) => Bool.eqb t terminal | _ => false end.
Definition number (f : event → bool) (l : list event) : Z := zlen (List.filter f l).

Lemma number_app f l l' : number f (l ++ l') = number f l + number f l'.
Proof. unfold number. by rewrite List.filter_app, zlen_app. Qed.

(** The settlement counters follow the calls. *)
Definition counted (d d' : Dispatcher) (l : list event) : Prop :=
  d_published d' = u64_add (d_published d) (number is_completed l) ∧
  d_rescheduled d' = u64_add (d_rescheduled d) (number (is_put_back false) l) ∧
  d_terminal d' = u64_add (d_terminal d) (number (is_put_back true) l).

Definition counters (d : Dispatcher) : Z * Z * Z := (d_published d, d_rescheduled d, d_terminal d).

Lemma u64_add_assoc x a b : u64_add (u64_add x a) b = u64_add x (a + b).
Proof. unfold u64_add. rewrite Zplus_mod_idemp_l. f_equal. lia. Qed.
Lemma counted_trans d1 d2 d3 l l' : counted d1 d2 l → counted d2 d3 l' → counted d1 d3 (l ++ l').
Proof.
  unfold counted. intros (-> & -> & ->) (-> & -> & ->). by rewrite !number_app, !u64_add_assoc.
Qed.
Lemma counted_from d1 d2 d l : counters d1 = counters d2 → counted d1 d l → counted d2 d l.
Proof. unfold counters, counted. intros [= -> -> ->]. done. Qed.
Lemma counted_to d d1 d2 l : counters d1 = counters d2 → counted d d1 l → counted d d2 l.
Proof. unfold counters, counted. intros [= -> -> ->]. done. Qed.
Definition counters_ok (d : Dispatcher) : Prop := is_u64 (d_published d) ∧ is_u64 (d_rescheduled d) ∧ is_u64 (d_terminal d).
Lemma u64_add_0 x : is_u64 x → u64_add x 0 = x.
Proof. unfold is_u64. intros ?. rewrite u64_add_small; lia. Qed.
Lemma counted_same d d' l :
  counters_ok d → counters d' = counters d →
  number is_completed l = 0 → number (is_put_back false) l = 0 → number (is_put_back true) l = 0 → counted d d' l.
Proof. unfold counted. intros (Hp & Hr & Ht) [= -> -> ->] H1 H2 H3. rewrite H1, H2, H3, !u64_add_0; done. Qed.
Lemma counted_ok d d' l : counted d d' l → counters_ok d'.
Proof. intros (H1 & H2 & H3). unfold counters_ok. rewrite H1, H2, H3. split_and!; apply u64_add_range. Qed.

Section protocol.
  Context {W : Type} `{Hw : OutboxWorld W}.
  Context (config : Config).

Lemma settleFailure_calls m terminal reason d evs w b d' evs' w' :
  counters_ok d → settleFailure (H := recorded) config m terminal reason d (evs, w) = (b, d', (evs', w')) →
  ∃ next ans, evs' = evs ++ [EReschedule (oc_Owner config) (m_ID m) next terminal reason ans] ∧ b = panicked ans ∧
    counted d d' [EReschedule (oc_Owner config) (m_ID m) next terminal reason ans].
Proof.
  intros Hd. unfold settleFailure. cbn. unfold quietly, log. destruct (ob_now w) as [now w1]. cbn.
  destruct (ob_Reschedule _ _ _ _ _ w1) as [ans w2]. cbn. intros Hs. do 2 eexists. split; [|split].
  - by destruct ans as [[]|]; [| |]; injection Hs as <- <- <- <-.
  - by destruct ans as [[]|]; injection Hs as <- <- <- <-.
  - destruct Hd as (?&?&?). destruct ans as [[]|]; [|destruct terminal|]; injection Hs as <- <- <- <-;
      unfold counted, number; cbn; unfold zlen; cbn; rewrite ?u64_add_0; done.
Qed.

Lemma complete_calls m d evs w b d' evs' w' :
  counters_ok d → complete (H := recorded) config m d (evs, w) = (b, d', (evs', w')) →
  ∃ ans, evs' = evs ++ [EComplete (oc_Owner config) (m_ID m) ans] ∧ b = panicked ans ∧
    counted d d' [EComplete (oc_Owner config) (m_ID m) ans].
Proof.
  intros Hd. unfold complete. cbn. unfold log. destruct (ob_Complete _ _ w) as [ans w1]. cbn. intros Hs.
  eexists. split; [|split].
  - by destruct ans as [[]|]; injection Hs as <- <- <- <-.
  - by destruct ans as [[]|]; injection Hs as <- <- <- <-.
  - destruct Hd as (?&?&?). destruct ans as [[]|]; injection Hs as <- <- <- <-;
      unfold counted, number; cbn; unfold zlen; cbn; rewrite ?u64_add_0; done.
Qed.

Lemma process_calls m d evs w b d' evs' w' :
  counters_ok d → process (H := recorded) config m d (evs, w) = (b, d', (evs', w')) →
  ∃ l, evs' = evs ++ l ∧ settled config m l b ∧ counted d d' l.
Proof.
  intros Hd. unfold process. fold (malformed m). destruct (malformed m) eqn:Hm.
  { intros Hs. destruct (settleFailure_calls _ _ _ _ _ _ _ _ _ _ Hd Hs) as (next & ans & -> & -> & Hc).
    eexists. split; [done|]. split; [by constructor|done]. }
  unfold publish. cbn [ob_Publish recorded fst snd]. unfold log. destruct (ob_Publish m w) as [ans w1]. cbn [fst snd].
  assert (Hc : ans = Returned None ∨ ans ≠ Returned None) by (destruct ans as [[]|]; [by right|by left|by right]).
  destruct Hc as [->|Hne].
  - destruct (complete (H := recorded) config m _ _) as [[b1 d1] [evs1 w2]] eqn:Hcm. intros [= <- <- <- <-].
    apply complete_calls in Hcm as (ans & -> & -> & Hc); [|done].
    exists [EPublish m (Returned None); EComplete (oc_Owner config) (m_ID m) ans].
    split; [by rewrite <- app_assoc|]. split; [by constructor|]. exact Hc.
  - assert (Herr : ∃ err, match ans with
      | Returned err => (err, (evs ++ [EPublish m ans], w1))
      | Panicked => (Some (OutboxCause "outbox: publisher panic"), (evs ++ [EPublish m ans], w1))
      end = (Some err, (evs ++ [EPublish m ans], w1))) by (destruct ans as [[]|]; [by eauto|done|by eauto]).
    destruct Herr as [err ->]. unfold classifyFailure. cbn [ob_ClassifyFailure recorded fst snd]. unfold quietly.
    destruct (ob_ClassifyFailure err w1) as [r w2]. cbn [fst snd].
    set (pair := match r with Returned reason => _ | Panicked => _ end).
    assert (Hpair : ∃ reason, pair = (reason, (evs ++ [EPublish m ans], w2))) by (destruct r; eauto).
    destruct Hpair as [reason ->]. set (reason' := if negb (validIdentity reason 64) then _ else _).
    assert (Hr : validIdentity reason' 64 = true).
    { unfold reason'. destruct (validIdentity reason 64) eqn:E; cbn; [done|vm_compute; done]. }
    destruct (settleFailure (H := recorded) config m _ _ _ _) as [[b1 d1] [evs1 w3]] eqn:Hs. intros [= <- <- <- <-].
    apply settleFailure_calls in Hs as (next & out & -> & -> & Hc); [|done]. eexists. split; [by rewrite <- app_assoc|].
    split; [by constructor|]. exact Hc.
Qed.

Lemma process_all_calls ms d evs w b d' evs' w' :
  counters_ok d → process_all (H := recorded) config ms d (evs, w) = (b, d', (evs', w')) →
  ∃ l, evs' = evs ++ l ∧ batch config ms l b ∧ counted d d' l.
Proof.
  revert d evs w. induction ms as [|m ms IH]; intros d evs w Hd; cbn [process_all].
  { intros [= <- <- <- <-]. exists []. rewrite app_nil_r. split; [done|]. split; [constructor|]. by apply counted_same. }
  destruct (process (H := recorded) config m d (evs, w)) as [[b1 d1] [evs1 w1]] eqn:Hp.
  destruct (process_calls _ _ _ _ _ _ _ _ Hd Hp) as (l & -> & Hs & Hc). destruct b1.
  - intros [= <- <- <- <-]. exists l. split; [done|]. split; [by constructor|done].
  - intros (l' & -> & Hb & Hc')%IH; [|by eapply counted_ok]. exists (l ++ l'). rewrite app_assoc.
    split; [done|]. split; [by apply batch_cons|by eapply counted_trans].
Qed.

Lemma wait_calls delay evs w go evs' w' : wait (H := recorded) delay (evs, w) = (go, (evs', w')) → evs' = evs.
Proof.
  unfold wait. destruct (delay <=? 0); cbn; unfold quietly; [destruct (ob_pollEnded w)|destruct (ob_wait delay w)]; cbn;
    by intros [= <- <- <-].
Qed.

Lemma iteration_calls d evs w go d' evs' w' :
  counters_ok d → iteration (H := recorded) config d (evs, w) = (go, d', (evs', w')) →
  ∃ l, evs' = evs ++ l ∧ turn config l go ∧ counted d d' l.
Proof.
  intros Hd. unfold iteration. cbn [ob_pollEnded ob_now ob_Claim recorded fst snd]. unfold quietly, log.
  destruct (ob_pollEnded w) as [ended w1]. cbn [fst snd]. destruct ended.
  { intros [= <- <- <- <-]. exists []. rewrite app_nil_r. split; [done|]. split; [constructor|by apply counted_same]. }
  destruct (ob_now w1) as [now w2]. cbn [fst snd cl_Limit]. destruct (ob_Claim _ w2) as [[[ms|err]|] w3]; cbn [fst snd].
  - destruct (Z.ltb_spec (oc_BatchSize config) (zlen ms)).
    { intros [= <- <- <- <-]. eexists. split; [done|]. split; [by apply turn_oversized|by apply counted_same]. }
    destruct (Z.eqb_spec (zlen ms) 0) as [Hz|Hz].
    + destruct ms; [|unfold zlen in Hz; cbn in Hz; lia]. destruct (wait (H := recorded) _ _) as [go1 [evs1 w4]] eqn:Hwait.
      apply wait_calls in Hwait as ->. intros [= <- <- <- <-]. eexists. split; [done|]. split; [constructor|by apply counted_same].
    + destruct (process_all (H := recorded) config ms _ _) as [[b d1] [evs1 w4]] eqn:Hp.
      apply process_all_calls in Hp as (l & -> & Hb & Hc).
      2:{ destruct Hd as (Hp' & Hr & Ht). unfold counters_ok. cbn. rewrite !u64_add_0; done. }
      assert (Hc' : counted d d1 l).
      { eapply counted_from; [|exact Hc]. destruct Hd as (Hp' & Hr & Ht). unfold counters. cbn. by rewrite !u64_add_0. }
      assert (Hms : ms ≠ []) by (by intros ->). rewrite <- app_assoc. cbn.
      destruct b; intros [= <- <- <- <-]; eexists; (split; [done|]).
      * split; [by apply (turn_batch config ms l true)|]. exact Hc'.
      * split; [by apply (turn_batch config ms l false)|]. exact Hc'.
  - destruct (ob_pollEnded w3) as [ended w4]. cbn [fst snd]. destruct ended.
    { intros [= <- <- <- <-]. eexists. split; [done|]. split; [constructor|by apply counted_same]. }
    destruct (wait (H := recorded) _ _) as [go1 [evs1 w5]] eqn:Hwait. apply wait_calls in Hwait as ->.
    intros [= <- <- <- <-]. eexists. split; [done|]. split; [constructor|by apply counted_same].
  - intros [= <- <- <- <-]. eexists. split; [done|]. split; [constructor|by apply counted_same].
Qed.

Lemma run_calls n d evs w b d' evs' w' :
  counters_ok d → run (H := recorded) config n d (evs, w) = (b, d', (evs', w')) → ∃ l, evs' = evs ++ l ∧ trace config l ∧ counted d d' l.
Proof.
  revert d evs w. induction n as [|n IH]; intros d evs w Hd; cbn [run].
  { intros [= <- <- <- <-]. exists []. rewrite app_nil_r. split; [done|]. split; [constructor|by apply counted_same]. }
  destruct (iteration (H := recorded) config d (evs, w)) as [[go d1] [evs1 w1]] eqn:Hi.
  destruct (iteration_calls _ _ _ _ _ _ _ Hd Hi) as (l & -> & Ht & Hc). destruct go.
  - intros (l' & -> & Ht' & Hc')%IH; [|by eapply counted_ok]. exists (l ++ l'). rewrite app_assoc.
    split; [done|]. split; [by apply trace_turn|by eapply counted_trans].
  - intros [= <- <- <- <-]. exists l. split; [done|]. split; [by apply trace_last|exact Hc].
Qed.
End protocol.

(** Where a completion stands in the calls of a message, a batch, an iteration, a run. *)
Definition completions_follow (l : list event) : Prop := ∀ i owner id ans, l !! i = Some (EComplete owner id ans) →
  ∃ j m, i = S j ∧ l !! j = Some (EPublish m (Returned None)) ∧ m_ID m = id ∧ malformed m = false.

Lemma follow_nil : completions_follow [].
Proof. intros i owner id ans Hi. by rewrite lookup_nil in Hi. Qed.

Lemma follow_app l l' : completions_follow l → completions_follow l' → completions_follow (l ++ l').
Proof.
  intros Hl Hl' i owner id ans [Hi|[Hle Hi]]%lookup_app_Some.
  - destruct (Hl _ _ _ _ Hi) as (j & m & -> & Hj & Hm). exists j, m. split; [done|]. by rewrite (lookup_app_l_Some _ _ _ _ Hj).
  - destruct (Hl' _ _ _ _ Hi) as (j & m & Hij & Hj & Hm). exists (length l + j)%nat, m. split; [lia|].
    rewrite lookup_app_r by lia. by replace (length l + j - length l)%nat with j by lia.
Qed.

Lemma follow_settled config m l p : settled config m l p → completions_follow l.
Proof.
  intros [] i owner id answer Hi; destruct i as [|[|i]]; try done; try (by rewrite lookup_nil in Hi).
  injection Hi as <- <- <-. by exists 0%nat, m.
Qed.

Lemma follow_batch config ms l p : batch config ms l p → completions_follow l.
Proof. induction 1; eauto using follow_nil, follow_app, follow_settled. Qed.

Lemma follow_claim limit ans l : completions_follow l → completions_follow (EClaim limit ans :: l).
Proof. intros Hl. apply (follow_app [_] l); [|done]. intros [|i] owner id answer Hi; done. Qed.

Lemma follow_turn config l go : turn config l go → completions_follow l.
Proof. destruct 1; eauto using follow_nil, follow_claim, follow_batch. Qed.

Lemma follow_trace config l : trace config l → completions_follow l.
Proof. induction 1; eauto using follow_nil, follow_app, follow_turn. Qed.

(** the dispatcher settles what it claims.  However repository and publisher answer, fail or
    panic, the calls of any number of iterations are: claims of at most the batch size, each
    followed by the settlement of exactly the claimed messages, one by one and in order (a
    malformed message is put aside as terminal, any other is published and then completed, or
    rescheduled as terminal exactly when its attempts are used up), cut short only by a repository
    panic; a message is marked complete only directly after the publisher accepted it; and the
    counters are the numbers of successful settlements. *)
Theorem outbox_protocol {W} `{OutboxWorld W} config n (w : W) :
  let '(_, d, (calls, _)) := run (H := recorded) config n newDispatcher ([], w) in
  trace config calls ∧ completions_follow calls ∧ counted newDispatcher d calls.
Proof.
  destruct (run _ n newDispatcher ([], w)) as [[b d] [calls w']] eqn:Hr.
  apply run_calls in Hr as (l & -> & Ht & Hc).
  - eauto using follow_trace.
  - unfold counters_ok, is_u64, max_u64. cbn. lia.
Qed.

(** * Delivery

    The durable side as its contract describes it: rows that are pending, published or terminal,
    the broker's accepted messages, and the attempts, which only grow.  [body id] is the message
    stored under an identity, which does not change. *)
Inductive row_state := Pending | Published | Terminal.
Record Durable := mkDurable {
  du_rows : gmap string row_state;
  du_delivered : gset string;
  du_attempts : string → Z
}.
Definition set_row (id : string) (st : row_state) (d : Durable) : Durable :=
  mkDurable (<[id := st]> (du_rows d)) (du_delivered d) (du_attempts d).
Definition once (m : Message) : Message :=
  mkMessage (m_ID m) (m_Destination m) (m_Key m) (m_Payload m) (m_Headers m) 1.

Section delivery.
  Context (config : Config) (body : string → Message).

(** A row may be published only when the broker has the message, and terminal only when its
    attempts are used up or it can never be sent. *)
Definition justified (d : Durable) (id : string) (st : row_state) : Prop :=
  match st with
  | Pending => True
  | Published => id ∈ du_delivered d
  | Terminal => oc_MaxAttempts config ≤ du_attempts d id ∨ Validate (once (body id)) = false
  end.
Definition safe (d : Durable) : Prop := ∀ id st, du_rows d !! id = Some st → justified d id st.

(** What other dispatchers, producers and maintenance do to the durable side. *)
Definition others (d d' : Durable) : Prop :=
  du_delivered d ⊆ du_delivered d' ∧ (∀ id, du_attempts d id ≤ du_attempts d' id) ∧
  ∀ id st, du_rows d' !! id = Some st → du_rows d !! id = Some st ∨ justified d' id st.

(** A settlement reaches the row only while it is pending; it may fail before or after. *)
Definition settles (d : Durable) (id : string) (st : row_state) (d' : Durable) : Prop :=
  ∃ d1, others d d1 ∧ (d' = d1 ∨ (du_rows d1 !! id = Some Pending ∧ d' = set_row id st d1)).

Class OutboxLaws (W : Type) `{OutboxWorld W} (view : W → Durable) : Prop := {
  ol_pollEnded w : others (view w) (view (snd (ob_pollEnded w)));
  ol_wait delay w : others (view w) (view (snd (ob_wait delay w)));
  ol_now w : others (view w) (view (snd (ob_now w)));
  ol_ClassifyFailure err w : others (view w) (view (snd (ob_ClassifyFailure err w)));
  ol_Claim q w : others (view w) (view (snd (ob_Claim q w))) ∧
    ∀ ms m, fst (ob_Claim q w) = Returned (Ok ms) → m ∈ ms →
      once m = once (body (m_ID m)) ∧ 1 ≤ m_Attempts m ≤ du_attempts (view (snd (ob_Claim q w))) (m_ID m);
  ol_Publish m w : others (view w) (view (snd (ob_Publish m w))) ∧
    (fst (ob_Publish m w) = Returned None → m_ID m ∈ du_delivered (view (snd (ob_Publish m w))));
  ol_Complete owner id w : settles (view w) id Published (view (snd (ob_Complete owner id w)));
  ol_Reschedule owner id next (terminal : bool) reason w :
    settles (view w) id (if terminal then Terminal else Pending) (view (snd (ob_Reschedule owner id next terminal reason w)))
}.

Lemma others_justified d d' id st :
  du_delivered d ⊆ du_delivered d' → (∀ id, du_attempts d id ≤ du_attempts d' id) → justified d id st → justified d' id st.
Proof. intros Hd Ha. destruct st; cbn; [done|set_solver|]. specialize (Ha id). intros [?|?]; [left; lia|by right]. Qed.

Lemma others_safe d d' : others d d' → safe d → safe d'.
Proof. intros (Hd & Ha & Hr) Hs id st [Hst|Hst]%Hr; [|done]. apply (others_justified d d'); auto. Qed.

#[local] Instance others_preorder : PreOrder others.
Proof.
  split.
  - intros d. split; [done|]. split; [done|auto].
  - intros d1 d2 d3 (Hd & Ha & Hr) (Hd' & Ha' & Hr'). split; [by etrans|]. split; [intros id; specialize (Ha id); specialize (Ha' id); lia|].
    intros id st [Hst|Hst]%Hr'; [|by right]. destruct (Hr _ _ Hst) as [?|Hj]; [by left|right].
    by apply (others_justified d2 d3).
Qed.

(** A justified settlement is one of the things others may see. *)
Lemma settles_others d id st d' : settles d id st d' → (∀ d1, others d d1 → justified d1 id st) → others d d'.
Proof.
  intros (d1 & Ho & [->|[_ ->]]) Hj; [done|]. specialize (Hj d1 Ho). destruct Ho as (Hd & Ha & Hr).
  split; [done|]. split; [done|]. intros k s Hs. cbn in Hs. apply lookup_insert_Some in Hs as [[<- <-]|[Hne Hs]].
  - right. by destruct st.
  - destruct (Hr _ _ Hs) as [?|Hjk]; [by left|right]. by destruct s.
Qed.

Context {W : Type} `{Hworld : OutboxWorld W} (view : W → Durable) {Hlaws : OutboxLaws W view}.

(** The message was claimed: its content is the stored one and its attempts are counted. *)
Definition claimed (m : Message) (w : W) : Prop :=
  once m = once (body (m_ID m)) ∧ 1 ≤ m_Attempts m ≤ du_attempts (view w) (m_ID m).

Lemma claimed_others m w w' : others (view w) (view w') → claimed m w → claimed m w'.
Proof. intros (_ & Ha & _) (Hb & H1 & H2). specialize (Ha (m_ID m)). split; [done|lia]. Qed.

Lemma settleFailure_safe m terminal reason d w b d' w' :
  claimed m w → (terminal = true → oc_MaxAttempts config ≤ m_Attempts m ∨ Validate (once m) = false) →
  settleFailure config m terminal reason d w = (b, d', w') → others (view w) (view w').
Proof using Hlaws.
  intros Hm Ht. unfold settleFailure. destruct (ob_now w) as [now w1] eqn:Hn.
  pose proof (ol_now (view := view) w) as Ho. rewrite Hn in Ho. cbn in Ho.
  destruct (ob_Reschedule _ _ _ _ _ w1) as [ans w2] eqn:Hr. intros Hs.
  assert (w' = w2) as -> by (destruct ans as [[]|]; by injection Hs).
  etrans; [done|]. pose proof (ol_Reschedule (view := view) (oc_Owner config) (m_ID m)
    (if terminal then now else now + retryDelay config (m_Attempts m)) terminal reason w1) as Hst.
  rewrite Hr in Hst. cbn in Hst. eapply settles_others; [done|]. intros d1 Ho1.
  destruct terminal; cbn; [|done]. destruct (claimed_others _ _ _ Ho Hm) as (Hb & _ & Hle).
  destruct Ho1 as (_ & Ha & _). specialize (Ha (m_ID m)). destruct (Ht eq_refl); [left; lia|right]. by rewrite <- Hb.
Qed.

(** The attempts matter for validation only by their sign. *)
Lemma Validate_once m : 1 ≤ m_Attempts m → Validate (once m) = Validate m.
Proof. intros Hm. unfold Validate, once. cbn. by rewrite (proj2 (Z.ltb_ge (m_Attempts m) 0)) by lia. Qed.

Lemma process_safe m d w b d' w' :
  claimed m w → process config m d w = (b, d', w') → others (view w) (view w').
Proof using Hlaws.
  intros Hm. unfold process. fold (malformed m). destruct (malformed m) eqn:Hmal.
  { apply settleFailure_safe; [done|]. intros _. right. destruct Hm as (_ & H1 & _).
    rewrite Validate_once by lia. unfold malformed in Hmal. rewrite (proj2 (Z.leb_gt _ _)), orb_false_r in Hmal by lia.
    by apply negb_true_iff. }
  unfold publish. destruct (ob_Publish m w) as [ans w1] eqn:Hp. pose proof (ol_Publish (view := view) m w) as [Ho Hdel].
  rewrite Hp in Ho, Hdel. cbn in Ho, Hdel.
  assert (Hc : (ans = Returned None) ∨ ∃ err, match ans with Returned e => (e, w1) | Panicked => (Some (OutboxCause "outbox: publisher panic"), w1) end = (Some err, w1)).
  { destruct ans as [[]|]; eauto. }
  destruct Hc as [->|[err ->]].
  - unfold complete. destruct (ob_Complete _ _ w1) as [out w2] eqn:Hcm. intros Hs.
    assert (w' = w2) as -> by (destruct out as [[]|]; by injection Hs). etrans; [done|].
    pose proof (ol_Complete (view := view) (oc_Owner config) (m_ID m) w1) as Hst. rewrite Hcm in Hst. cbn in Hst.
    eapply settles_others; [done|]. intros d1 (Hd & _). cbn. by apply Hd, Hdel.
  - unfold classifyFailure. destruct (ob_ClassifyFailure err w1) as [r w2] eqn:Hcl.
    pose proof (ol_ClassifyFailure (view := view) err w1) as Ho2. rewrite Hcl in Ho2. cbn in Ho2.
    set (pair := match r with Returned reason => _ | Panicked => _ end).
    assert (Hpair : ∃ reason, pair = (reason, w2)) by (destruct r; eauto). destruct Hpair as [reason ->].
    destruct (settleFailure config m _ _ _ _) as [[b1 d1] w3] eqn:Hs. intros [= <- <- <-].
    etrans; [done|]. etrans; [done|]. eapply settleFailure_safe; [|..|done].
    + eapply claimed_others; [done|]. by eapply claimed_others.
    + intros Hle. left. by apply Z.leb_le.
Qed.

Lemma process_all_safe ms d w b d' w' :
  Forall (λ m, claimed m w) ms → process_all config ms d w = (b, d', w') → others (view w) (view w').
Proof using Hlaws.
  revert d w. induction ms as [|m ms IH]; intros d w Hms; cbn [process_all].
  { by intros [= <- <- <-]. }
  inversion_clear Hms as [|? ? Hm Hrest]. destruct (process config m d w) as [[b1 d1] w1] eqn:Hp.
  apply process_safe in Hp; [|done]. destruct b1; [by intros [= <- <- <-]|]. intros Ha.
  etrans; [done|]. eapply IH; [|done]. eapply Forall_impl; [done|]. intros x. by apply claimed_others.
Qed.

Lemma wait_safe delay w go w' : wait delay w = (go, w') → others (view w) (view w').
Proof using Hlaws.
  unfold wait. destruct (delay <=? 0).
  - destruct (ob_pollEnded w) as [e w1] eqn:E. pose proof (ol_pollEnded (view := view) w) as Ho. rewrite E in Ho. by intros [= <- <-].
  - intros E. pose proof (ol_wait (view := view) delay w) as Ho. by rewrite E in Ho.
Qed.

Lemma iteration_safe d w go d' w' : iteration config d w = (go, d', w') → others (view w) (view w').
Proof using Hlaws.
  unfold iteration. destruct (ob_pollEnded w) as [e w1] eqn:E1. pose proof (ol_pollEnded (view := view) w) as Ho1. rewrite E1 in Ho1.
  cbn in Ho1. destruct e; [by intros [= <- <- <-]|]. destruct (ob_now w1) as [now w2] eqn:E2.
  pose proof (ol_now (view := view) w1) as Ho2. rewrite E2 in Ho2. cbn in Ho2. set (q := mkClaimRequest _ _ _).
  destruct (ob_Claim q w2) as [ans w3] eqn:E3. destruct (ol_Claim (view := view) q w2) as [Ho3 Hms]. rewrite E3 in Ho3, Hms. cbn in Ho3, Hms.
  assert (Ho : others (view w) (view w3)) by (by do 2 (etrans; [done|])).
  destruct ans as [[ms|err]|]; [| |by intros [= <- <- <-]].
  - destruct (_ <? zlen ms); [by intros [= <- <- <-]|]. destruct (zlen ms =? 0).
    + destruct (wait _ w3) as [go1 w4] eqn:E4. apply wait_safe in E4. intros [= <- <- <-]. by etrans.
    + destruct (process_all config ms _ w3) as [[b d1] w4] eqn:E4. apply process_all_safe in E4.
      * destruct b; intros [= <- <- <-]; by etrans.
      * apply Forall_forall. intros m Hm. exact (Hms ms m eq_refl Hm).
  - destruct (ob_pollEnded w3) as [e w4] eqn:E4. pose proof (ol_pollEnded (view := view) w3) as Ho4. rewrite E4 in Ho4. cbn in Ho4.
    destruct e; [intros [= <- <- <-]; by etrans|]. destruct (wait _ w4) as [go1 w5] eqn:E5. apply wait_safe in E5.
    intros [= <- <- <-]. etrans; [done|]. by etrans.
Qed.

Lemma run_safe n d w b d' w' : run config n d w = (b, d', w') → others (view w) (view w').
Proof using Hlaws.
  revert d w. induction n as [|n IH]; intros d w; cbn [run]; [by intros [= <- <- <-]|].
  destruct (iteration config d w) as [[go d1] w1] eqn:E. apply iteration_safe in E.
  destruct go; [intros Hr; etrans; [done|by eapply IH]|by intros [= <- <- <-]].
Qed.
End delivery.

(** C14: no message is lost.  Over a repository that keeps its contract and is used by other
    dispatchers, producers and maintenance that do so too, any number of iterations leaves every
    row that is published with a message the broker has accepted, and every terminal row with its
    attempts used up or content that can never be sent; in particular the dispatcher is itself
    one of those well-behaved others. *)
Theorem outbox_no_loss {W} `{OutboxWorld W} config body (view : W → Durable) n d (w : W) :
  OutboxLaws config body W view → safe config body (view w) →
  let w' := snd (run config n d w) in
  safe config body (view w') ∧ others config body (view w) (view w').
Proof.
  intros Hlaws Hs. cbn zeta. destruct (run config n d w) as [[b d'] w'] eqn:Hr.
  apply (run_safe config body view) in Hr. split; [by eapply others_safe|done].
Qed.

(** ** Retry delays *)
Lemma retry_loop_bounds config n delay :
  0 < delay ≤ oc_RetryMax config → oc_RetryMax config ≤ max_i64 →
  delay ≤ retry_loop config n delay ≤ oc_RetryMax config ∧ retry_loop config n delay ≤ retry_loop config (S n) delay ∧
  (delay * 2 ^ Z.of_nat n < oc_RetryMax config - 1 → retry_loop config n delay = delay * 2 ^ Z.of_nat n).
Proof.
  assert (Hhalf : oc_RetryMax config - 1 ≤ 2 * (oc_RetryMax config / 2) ≤ oc_RetryMax config).
  { pose proof (Z.div_mod (oc_RetryMax config) 2 ltac:(lia)). pose proof (Z.mod_pos_bound (oc_RetryMax config) 2 ltac:(lia)). lia. }
  revert delay. induction n as [|n IH]; intros delay Hd Hmax.
  - cbn. rewrite (proj2 (Z.ltb_ge _ _)) by lia. rewrite Z.quot_div_nonneg by lia.
    split; [lia|]. split; [|intros; lia]. destruct (Z.leb_spec (oc_RetryMax config / 2) delay); [lia|].
    rewrite i64_small by (unfold max_i64 in *; lia). destruct (Z.ltb_spec (oc_RetryMax config) (delay * 2)); lia.
  - cbn [retry_loop]. rewrite Z.quot_div_nonneg by lia. destruct (Z.leb_spec (oc_RetryMax config / 2) delay) as [Hle|Hlt].
    + split; [lia|]. split; [lia|]. intros Hx. exfalso. rewrite Nat2Z.inj_succ, Z.pow_succ_r in Hx by lia.
      pose proof (Z.pow_pos_nonneg 2 (Z.of_nat n) ltac:(lia) ltac:(lia)).
      assert (delay * 2 ≤ delay * (2 * 2 ^ Z.of_nat n)) by nia. lia.
    + rewrite i64_small by (unfold max_i64 in *; lia). destruct (IH (delay * 2)) as (Hb & Hm & He); [lia|done|].
      split; [lia|]. cbn [retry_loop] in Hm. rewrite Z.quot_div_nonneg in Hm by lia. split; [exact Hm|]. rewrite Nat2Z.inj_succ, Z.pow_succ_r by lia. intros Hx. rewrite He; lia.
Qed.

Lemma New_bounds config config' : New config = Ok config' →
  0 < oc_RetryBase config' ≤ oc_RetryMax config' ∧ 0 < oc_MaxAttempts config' ∧ 0 < oc_PublishTimeout config' < oc_LeaseTTL config' ∧
  0 < oc_BatchSize config' ≤ 10000.
Proof.
  unfold New. case_match; [done|]. case_match eqn:Hg; [done|]. intros [= <-]. cbn in *. bool_hyps. lia.
Qed.

(** Retry delays are bounded and exponential.  For a configuration [New] accepts, the delay
    after any number of attempts lies between the base and the maximum without overflow, never
    goes down with further attempts, and doubles exactly as long as it stays below the maximum. *)
Theorem retry_delay_exponential config0 config attempts :
  New config0 = Ok config → oc_RetryMax config ≤ max_i64 → 1 ≤ attempts →
  oc_RetryBase config ≤ retryDelay config attempts ≤ oc_RetryMax config ∧
  retryDelay config attempts ≤ retryDelay config (attempts + 1) ∧
  (oc_RetryBase config * 2 ^ (attempts - 1) < oc_RetryMax config - 1 →
   retryDelay config attempts = oc_RetryBase config * 2 ^ (attempts - 1)).
Proof.
  intros Hnew Hmax Ha. destruct (New_bounds _ _ Hnew) as (Hb & _). unfold retryDelay.
  replace (Z.to_nat (attempts + 1 - 1)) with (S (Z.to_nat (attempts - 1))) by lia.
  pose proof (retry_loop_bounds config (Z.to_nat (attempts - 1)) (oc_RetryBase config) Hb Hmax) as H.
  by rewrite Z2Nat.id in H by lia.
Qed.

(** * Witnesses: a repository with one row and a publisher that panics at the first attempt *)
Definition ex_message (attempts : Z) : Message := mkMessage "evt-1" "orders" "k" "payload" ∅ attempts.
Definition ex_config : Config :=
  mkConfig "relay" "node-a" true true (250 * millisecond) second (30 * second) (10 * second) 100 3 second minute.

(** The attempts of the row, its state, and whether the broker has the message. *)
Record shelf := mkShelf { sh_attempts : Z; sh_state : row_state; sh_delivered : bool }.
Definition settle_shelf (id : string) (st : row_state) (w : shelf) : shelf :=
  match sh_state w with
  | Pending => if id == "evt-1" then mkShelf (sh_attempts w) st (sh_delivered w) else w
  | _ => w
  end.
#[local] Instance shelf_world : OutboxWorld shelf := {
  ob_pollEnded w := (false, w);
  ob_wait _ w := (true, w);
  ob_now w := (1, w);
  ob_Claim _ w :=
    match sh_state w with
    | Pending =>
        let attempts := Z.max 0 (sh_attempts w) + 1 in
        (Returned (Ok [ex_message attempts]), mkShelf attempts Pending (sh_delivered w))
    | _ => (Returned (Ok []), w)
    end;
  ob_Complete _ id w := (Returned None, settle_shelf id Published w);
  ob_Reschedule _ id _ terminal _ w := (Returned None, settle_shelf id (if terminal then Terminal else Pending) w);
  ob_Publish m w :=
    if sh_attempts w <=? 1 then (Panicked, w)
    else if m_ID m == "evt-1" then (Returned None, mkShelf (sh_attempts w) (sh_state w) true)
    else (Returned (Some (OutboxCause "unknown")), w);
  ob_ClassifyFailure _ w := (Returned "broker_down", w)
}.
Definition shelf_view (w : shelf) : Durable :=
  mkDurable {[ "evt-1" := sh_state w ]} (if sh_delivered w then {[ "evt-1" ]} else ∅) (λ _, Z.max 0 (sh_attempts w)).
Definition ex_body (id : string) : Message := ex_message 1.

Lemma shelf_others w w' :
  sh_state w' = sh_state w → (sh_delivered w = true → sh_delivered w' = true) → sh_attempts w ≤ sh_attempts w' →
  others ex_config ex_body (shelf_view w) (shelf_view w').
Proof.
  intros Hs Hd Ha. split; [|split].
  - cbn. destruct (sh_delivered w), (sh_delivered w'); set_solver.
  - intros id. cbn. lia.
  - intros id st. cbn. rewrite Hs. by left.
Qed.

Lemma shelf_settles w id st : settles ex_config ex_body (shelf_view w) id st (shelf_view (settle_shelf id st w)).
Proof.
  exists (shelf_view w). split; [by apply shelf_others|]. unfold settle_shelf. destruct (sh_state w) eqn:Hs; [|by left..].
  case_bool_decide as Hid; [subst id|by left].
  right. unfold shelf_view, set_row. cbn. rewrite Hs. split; [apply lookup_singleton_eq|]. by rewrite insert_singleton_eq.
Qed.

Lemma shelf_laws : OutboxLaws ex_config ex_body shelf shelf_view.
Proof.
  constructor; try (intros; apply shelf_others; done); try (intros; apply shelf_settles).
  - intros q w. cbn. destruct (sh_state w) eqn:Hs; cbn; (split; [apply shelf_others; cbn; [congruence|done|lia]|]).
    + intros ms m [= <-] ->%list_elem_of_singleton. cbn. split; [done|]. lia.
    + intros ms m [= <-]. by intros ?%not_elem_of_nil.
    + intros ms m [= <-]. by intros ?%not_elem_of_nil.
  - intros m w. cbn. destruct (sh_attempts w <=? 1); [split; [by apply shelf_others|done]|].
    case_bool_decide as Hid; cbn; (split; [apply shelf_others; cbn; try done; lia|]); [|done].
    rewrite Hid. set_solver.
Qed.

(** The first attempt fails, the second one is delivered and completed. *)
Definition ex_shelf : shelf := mkShelf 0 Pending false.
Example ex_relay : snd (run ex_config 2 newDispatcher ex_shelf) = mkShelf 2 Published true.
Proof. vm_compute. reflexivity. Qed.

Lemma outbox_no_loss_witness :
  safe ex_config ex_body (shelf_view (mkShelf 2 Published true)) ∧
  others ex_config ex_body (shelf_view ex_shelf) (shelf_view (mkShelf 2 Published true)).
Proof.
  rewrite <- ex_relay. apply (outbox_no_loss ex_config ex_body shelf_view 2 newDispatcher ex_shelf); [apply shelf_laws|].
  intros id st. cbn. intros [<- <-]%lookup_singleton_Some. done.
Defined.

Lemma retry_delay_exponential_witness :
  second ≤ retryDelay ex_config 4 ≤ minute ∧ retryDelay ex_config 4 ≤ retryDelay ex_config 5 ∧
  (second * 2 ^ 3 < minute - 1 → retryDelay ex_config 4 = second * 2 ^ 3).
Proof. apply (retry_delay_exponential ex_config ex_config 4); [vm_compute; reflexivity|unfold max_i64; cbn; unfold minute; lia|lia]. Defined.
