(* ===== verification/Projection.v ===== *)
(** * programmable/projection: the data model

    Models [model.go] and the frames and requests of [source.go]: schemas and their compatibility
    windows, cursors, mutations, delta batches, checkpoints and the synchronization frames.  Keys,
    values and cursors are byte strings.  Errors keep what they wrap, because callers ask for it
    with [errors.Is]. *)
From S2P Require Import Prelude GoText.
Open Scope Z_scope.

Definition maxProjectionIDBytes : Z := 256.
Definition maxCursorBytes : Z := 512.
Definition maxKeyBytes : Z := 4 * 1024.
Definition maxValueBytes : Z := 16 * 1024 * 1024.
Definition maxDeltaMutations : Z := 10000.
Definition maxDeltaBytes : Z := 32 * 1024 * 1024.
Definition fingerprintBytes : Z := 64.
Definition maxCompatibleSchemas : Z := 16.

(** ** Errors *)
Inductive perror :=
| ErrInvalidProjectionID | ErrInvalidSchema | ErrInvalidCursor | ErrInvalidMutation | ErrInvalidDelta
| ErrCursorMismatch (expected actual : string)
| ErrSchemaMismatch (field expected actual : string)
| ErrProjectionNotFound | ErrSnapshotClosed | ErrSnapshotConflict | ErrReplayConflict
| ErrInvalidSubscription | ErrInvalidFrame | ErrInvalidRuntime | ErrRuntimeNotStarted
| ErrInvalidOption | ErrNotSeeded | ErrAlreadySeeded | ErrSourceClosed | ErrSessionClosed | ErrSlowSubscriber
| ErrInvalidOwnerCursor | ErrInvalidAdmin
| ErrCanceled | ErrDeadlineExceeded
| ErrText (text : string)                    (* any other error *)
| ErrWraps (outer inner : perror).           (* fmt.Errorf with two [%w] *)
#[export] Instance perror_eq_dec : EqDecision perror.
Proof. solve_decision. Defined.

(** The sentinel an error is asked for; the two structured errors unwrap to their sentinels. *)
Inductive sentinel :=
| IsInvalidFrame | IsInvalidSchema | IsSchemaMismatch | IsInvalidMutation | IsInvalidDelta | IsReplayConflict
| IsCursorMismatch | IsProjectionNotFound | IsSnapshotConflict | IsCanceled | IsDeadlineExceeded.
Fixpoint error_is (e : perror) (s : sentinel) : bool :=
  match e, s with
  | ErrWraps outer inner, _ => error_is outer s || error_is inner s
  | ErrInvalidFrame, IsInvalidFrame | ErrInvalidSchema, IsInvalidSchema | ErrSchemaMismatch _ _ _, IsSchemaMismatch
  | ErrInvalidMutation, IsInvalidMutation | ErrInvalidDelta, IsInvalidDelta | ErrReplayConflict, IsReplayConflict
  | ErrCursorMismatch _ _, IsCursorMismatch | ErrProjectionNotFound, IsProjectionNotFound
  | ErrSnapshotConflict, IsSnapshotConflict | ErrCanceled, IsCanceled | ErrDeadlineExceeded, IsDeadlineExceeded => true
  | _, _ => false
  end.

(** ** Identities *)
Definition validIdentity (value : string) (maxBytes : Z) : bool := valid_text maxBytes value.

(** [None] is a nil error. *)
Definition ProjectionID_Validate (id : string) : option perror :=
  if negb (validIdentity id maxProjectionIDBytes) then Some ErrInvalidProjectionID else None.
Definition Cursor_Validate (cursor : string) : option perror :=
  if negb (validIdentity cursor maxCursorBytes) then Some ErrInvalidCursor else None.

(** Lower-case hexadecimal digits are one byte each, and no other rune is one. *)
Definition hex_char (b : Z) : bool := in_range 48 57 b || in_range 97 102 b.
Definition validFingerprint (value : string) : bool :=
  (slen value =? fingerprintBytes) && forallb hex_char (bytes_of value).

(** ** Schemas *)

(** A [FingerprintSet] is the used part of its array. *)
Definition FingerprintSet : Type := list string.

(** The values must be valid, and no value may equal the one before it. *)
Fixpoint fingerprints_ok (previous : option string) (values : list string) : bool :=
  match values with
  | [] => true
  | value :: values =>
      if negb (validFingerprint value) then false
      else if bool_decide (previous = Some value) then false else fingerprints_ok (Some value) values
  end.

Definition NewFingerprintSet (values : list string) : result perror FingerprintSet :=
  if maxCompatibleSchemas <? zlen values then Err ErrInvalidSchema
  else
    let canonical := sort_strings values in
    if negb (fingerprints_ok None canonical) then Err ErrInvalidSchema else Ok canonical.

(** [sort.SearchStrings]: the first value not below [fingerprint]. *)
Definition Contains (set : FingerprintSet) (fingerprint : string) : bool :=
  match List.find (λ x, String.leb fingerprint x) set with Some x => x == fingerprint | None => false end.

Record Schema := mkSchema {
  sc_ID : string;
  sc_Fingerprint : string;
  sc_KeyFingerprint : string;
  sc_CompatibleFingerprints : FingerprintSet
}.
#[export] Instance Schema_eq_dec : EqDecision Schema.
Proof. solve_decision. Defined.

Fixpoint compatible_ok (schema : Schema) (previous : option string) (values : list string) : bool :=
  match values with
  | [] => true
  | value :: values =>
      if negb (validFingerprint value) || (value == sc_Fingerprint schema) ||
         match previous with Some p => String.leb value p | None => false end
      then false
      else compatible_ok schema (Some value) values
  end.

Definition Schema_Validate (schema : Schema) : option perror :=
  match ProjectionID_Validate (sc_ID schema) with
  | Some err => Some (ErrWraps ErrInvalidSchema err)
  | None =>
      if negb (validFingerprint (sc_Fingerprint schema)) then Some ErrInvalidSchema
      else if negb (validFingerprint (sc_KeyFingerprint schema)) then Some ErrInvalidSchema
      else if maxCompatibleSchemas <? zlen (sc_CompatibleFingerprints schema) then Some ErrInvalidSchema
      else if negb (compatible_ok schema None (sc_CompatibleFingerprints schema)) then Some ErrInvalidSchema
      else None
  end.

Definition WithCompatibleFingerprints (schema : Schema) (fingerprints : list string) : result perror Schema :=
  compatible ← NewFingerprintSet fingerprints;
  let schema := mkSchema (sc_ID schema) (sc_Fingerprint schema) (sc_KeyFingerprint schema) compatible in
  match Schema_Validate schema with Some err => Err err | None => Ok schema end.

Definition Accepts (schema owner : Schema) : option perror :=
  if sc_ID schema != sc_ID owner then Some (ErrSchemaMismatch "projection_id" (sc_ID schema) (sc_ID owner))
  else if (sc_Fingerprint schema != sc_Fingerprint owner) &&
          negb (Contains (sc_CompatibleFingerprints schema) (sc_Fingerprint owner))
  then Some (ErrSchemaMismatch "fingerprint" (sc_Fingerprint schema) (sc_Fingerprint owner))
  else if sc_KeyFingerprint schema != sc_KeyFingerprint owner
  then Some (ErrSchemaMismatch "key_fingerprint" (sc_KeyFingerprint schema) (sc_KeyFingerprint owner))
  else None.

(** ** Mutations and batches *)
Inductive MutationKind := MutationUpsert | MutationDelete | MutationOther (n : Z).
#[export] Instance MutationKind_eq_dec : EqDecision MutationKind.
Proof. solve_decision. Defined.
Definition MutationKind_number (k : MutationKind) : Z :=
  match k with MutationUpsert => 1 | MutationDelete => 2 | MutationOther n => n end.

Record Mutation := mkMutation { mu_kind : MutationKind; mu_key : string; mu_value : string }.
#[export] Instance Mutation_eq_dec : EqDecision Mutation.
Proof. solve_decision. Defined.
Definition Upsert (key value : string) : Mutation := mkMutation MutationUpsert key value.
Definition Delete (key : string) : Mutation := mkMutation MutationDelete key "".

Definition Mutation_Validate (m : Mutation) : option perror :=
  if (slen (mu_key m) =? 0) || (maxKeyBytes <? slen (mu_key m)) then Some ErrInvalidMutation
  else match mu_kind m with
  | MutationUpsert => if maxValueBytes <? slen (mu_value m) then Some ErrInvalidMutation else None
  | MutationDelete => if slen (mu_value m) =? 0 then None else Some ErrInvalidMutation
  | MutationOther _ => Some ErrInvalidMutation
  end.

Definition mutation_bytes (m : Mutation) : Z := slen (mu_key m) + slen (mu_value m).
Definition list_sum_Z (l : list Z) : Z := fold_right Z.add 0 l.

Record DeltaBatch := mkDeltaBatch {
  db_Schema : Schema;
  db_Previous : string;
  db_Cursor : string;
  db_SourceTime : time;
  db_Mutations : list Mutation
}.
#[export] Instance DeltaBatch_eq_dec : EqDecision DeltaBatch.
Proof. solve_decision. Defined.

Fixpoint mutations_ok (mutations : list Mutation) (totalBytes : Z) : option perror :=
  match mutations with
  | [] => None
  | m :: mutations =>
      match Mutation_Validate m with
      | Some err => Some (ErrWraps ErrInvalidDelta err)
      | None =>
          let totalBytes := totalBytes + (slen (mu_key m) + slen (mu_value m)) in
          if maxDeltaBytes <? totalBytes then Some ErrInvalidDelta else mutations_ok mutations totalBytes
      end
  end.

Definition DeltaBatch_Validate (b : DeltaBatch) : option perror :=
  match Schema_Validate (db_Schema b) with
  | Some err => Some (ErrWraps ErrInvalidDelta err)
  | None =>
      match Cursor_Validate (db_Previous b) with
      | Some err => Some (ErrWraps ErrInvalidDelta err)
      | None =>
          match Cursor_Validate (db_Cursor b) with
          | Some err => Some (ErrWraps ErrInvalidDelta err)
          | None =>
              if db_Cursor b == db_Previous b then Some ErrInvalidDelta
              else if IsZero (db_SourceTime b) then Some ErrInvalidDelta
              else if (zlen (db_Mutations b) =? 0) || (maxDeltaMutations <? zlen (db_Mutations b)) then Some ErrInvalidDelta
              else mutations_ok (db_Mutations b) 0
          end
      end
  end.

Record Checkpoint := mkCheckpoint {
  cp_Schema : Schema;
  cp_Cursor : string;
  cp_Generation : Z;
  cp_SourceTime : time;
  cp_AppliedAt : time
}.

Definition Freshness (c : Checkpoint) (now : time) : duration :=
  if IsZero (cp_SourceTime c) || IsZero now || Before now (cp_SourceTime c) then 0 else now - cp_SourceTime c.

(** The rows of a table, and one mutation applied to them ([MutationOther] is refused by every
    caller before it gets here). *)
Abbreviation rows := (gmap string string) (only parsing).
Definition apply_mutation (values : rows) (m : Mutation) : rows :=
  match mu_kind m with
  | MutationUpsert => <[mu_key m := mu_value m]> values
  | MutationDelete => delete (mu_key m) values
  | MutationOther _ => values
  end.
Definition apply_mutations (values : rows) (ms : list Mutation) : rows := fold_left apply_mutation ms values.

(** ** Subscriptions and frames *)
Record SubscribeRequest := mkSubscribe { sr_Schema : Schema; sr_After : string; sr_ForceSnapshot : bool }.

Definition SubscribeRequest_Validate (r : SubscribeRequest) : option perror :=
  match Schema_Validate (sr_Schema r) with
  | Some err => Some (ErrWraps ErrInvalidSubscription err)
  | None =>
      if sr_ForceSnapshot r then if sr_After r != "" then Some ErrInvalidSubscription else None
      else match Cursor_Validate (sr_After r) with
      | Some err => Some (ErrWraps ErrInvalidSubscription err)
      | None => None
      end
  end.

Inductive Frame :=
| SnapshotBeginFrame (schema : Schema)
| SnapshotChunkFrame (mutations : list Mutation)
| SnapshotEndFrame (cursor : string) (sourceTime : time)
| DeltaFrame (batch : DeltaBatch)
| HeartbeatFrame (cursor : string) (sourceTime : time)
| GapFrame (requested floor : string).
