(* ===== verification/ProjStore.v ===== *)
(** * programmable/projection/memory: the replica store

    Models [memory/store.go]: every method of [Store] and of its snapshot transactions, each one
    atomic step under its locks.  A transaction is a value its holder passes to the methods and
    gets back.  The theorems: a delta whose response was lost can be sent again, a cursor never
    stands for two contents (up to SHA-256 collisions), and a snapshot is published whole and only
    if nothing was applied since it was begun. *)
From S2P Require Import Prelude GoText Sha256 Projection.
Open Scope Z_scope.

Record state := mkState {
  ps_schema : Schema;
  ps_cursor : string;
  ps_generation : Z;
  ps_sourceTime : time;
  ps_appliedAt : time;
  ps_values : rows;
  ps_lastDelta : option string          (* hasLastDelta and lastDelta *)
}.
#[export] Instance state_eq_dec : EqDecision state.
Proof. solve_decision. Defined.

Abbreviation Store := (gmap string state) (only parsing).
Definition New : Store := ∅.

Record snapshotTxn := mkTxn { tx_schema : Schema; tx_baseGeneration : Z; tx_values : rows; tx_closed : bool }.

Definition validateContext (ctx : context perror) : option perror :=
  match ctx with NilContext => Some (ErrText "projection memory: context is nil") | Context cause => cause end.

Definition compatibleSchema (expected actual : Schema) : option perror :=
  if sc_Fingerprint expected != sc_Fingerprint actual
  then Some (ErrSchemaMismatch "fingerprint" (sc_Fingerprint expected) (sc_Fingerprint actual))
  else if sc_KeyFingerprint expected != sc_KeyFingerprint actual
  then Some (ErrSchemaMismatch "key_fingerprint" (sc_KeyFingerprint expected) (sc_KeyFingerprint actual))
  else None.

(** ** Delta digests *)
Definition unix_epoch : time := 62135596800 * second.
Definition writeDigestUint64 (value : Z) : list Z := be_bytes 8 value.
Definition writeDigestBytes (value : list Z) : list Z := writeDigestUint64 (zlen value) ++ value.
Definition writeDigestString (value : string) : list Z := writeDigestBytes (bytes_of value).

(** [uint64(t.UnixNano())] *)
Definition unix_nano (t : time) : Z := (t - unix_epoch) mod (max_u64 + 1).

Definition digest_mutation (m : Mutation) : list Z :=
  writeDigestUint64 (MutationKind_number (mu_kind m)) ++ writeDigestString (mu_key m) ++ writeDigestString (mu_value m).
Definition digest_input (b : DeltaBatch) : list Z :=
  writeDigestString (sc_ID (db_Schema b)) ++ writeDigestString (sc_Fingerprint (db_Schema b)) ++
  writeDigestString (sc_KeyFingerprint (db_Schema b)) ++ writeDigestString (db_Previous b) ++
  writeDigestString (db_Cursor b) ++ writeDigestUint64 (unix_nano (db_SourceTime b)) ++
  flat_map digest_mutation (db_Mutations b).
Definition deltaDigest (b : DeltaBatch) : string := sha256 (digest_input b).

(** ** The methods *)
Definition BeginSnapshot (ctx : context perror) (st : Store) (schema : Schema) : result perror snapshotTxn :=
  match validateContext ctx with
  | Some err => Err err
  | None =>
      match Schema_Validate schema with
      | Some err => Err err
      | None =>
          match st !! sc_ID schema with
          | Some current =>
              match compatibleSchema (ps_schema current) schema with
              | Some err => Err err
              | None => Ok (mkTxn schema (ps_generation current) ∅ false)
              end
          | None => Ok (mkTxn schema 0 ∅ false)
          end
      end
  end.

(** The loop over the mutations of a validated batch. *)
Fixpoint apply_batch (values : rows) (ms : list Mutation) : result perror rows :=
  match ms with
  | [] => Ok values
  | m :: ms =>
      match mu_kind m with
      | MutationUpsert => apply_batch (<[mu_key m := mu_value m]> values) ms
      | MutationDelete => apply_batch (delete (mu_key m) values) ms
      | MutationOther _ => Err ErrInvalidMutation
      end
  end.

Definition ApplyDelta (ctx : context perror) (now : time) (st : Store) (b : DeltaBatch) : option perror * Store :=
  match validateContext ctx with
  | Some err => (Some err, st)
  | None =>
      match DeltaBatch_Validate b with
      | Some err => (Some err, st)
      | None =>
          let digest := deltaDigest b in
          match st !! sc_ID (db_Schema b) with
          | None => (Some ErrProjectionNotFound, st)
          | Some current =>
              match compatibleSchema (ps_schema current) (db_Schema b) with
              | Some err => (Some err, st)
              | None =>
                  if ps_cursor current == db_Cursor b then
                    (if ps_lastDelta current == Some digest then None else Some ErrReplayConflict, st)
                  else if ps_cursor current != db_Previous b then
                    (Some (ErrCursorMismatch (ps_cursor current) (db_Previous b)), st)
                  else match apply_batch (ps_values current) (db_Mutations b) with
                  | Err err => (Some err, st)
                  | Ok nextValues =>
                      (None, <[sc_ID (db_Schema b) := mkState (db_Schema b) (db_Cursor b)
                        (u64_add (ps_generation current) 1) (db_SourceTime b) now nextValues (Some digest)]> st)
                  end
              end
          end
      end
  end.

(** [Ok None] is an absent projection or key. *)
Definition Get (ctx : context perror) (st : Store) (id key : string) : result perror (option string) :=
  match validateContext ctx with
  | Some err => Err err
  | None =>
      match ProjectionID_Validate id with
      | Some err => Err err
      | None =>
          match Mutation_Validate (Upsert key "") with
          | Some err => Err err
          | None => Ok (current ← st !! id; ps_values current !! key)
          end
      end
  end.

Definition checkpoint_of (current : state) : Checkpoint :=
  mkCheckpoint (ps_schema current) (ps_cursor current) (ps_generation current) (ps_sourceTime current) (ps_appliedAt current).
Definition Checkpoint (ctx : context perror) (st : Store) (id : string) : result perror (option Projection.Checkpoint) :=
  match validateContext ctx with
  | Some err => Err err
  | None =>
      match ProjectionID_Validate id with
      | Some err => Err err
      | None => Ok (checkpoint_of <$> st !! id)
      end
  end.

Definition Stage (t : snapshotTxn) (m : Mutation) : option perror * snapshotTxn :=
  match Mutation_Validate m with
  | Some err => (Some err, t)
  | None =>
      if tx_closed t then (Some ErrSnapshotClosed, t)
      else match mu_kind m with
      | MutationUpsert => (None, mkTxn (tx_schema t) (tx_baseGeneration t) (<[mu_key m := mu_value m]> (tx_values t)) false)
      | MutationDelete => (None, mkTxn (tx_schema t) (tx_baseGeneration t) (delete (mu_key m) (tx_values t)) false)
      | MutationOther _ => (Some ErrInvalidMutation, t)
      end
  end.

Definition close (t : snapshotTxn) (values : rows) : snapshotTxn := mkTxn (tx_schema t) (tx_baseGeneration t) values true.

Definition Commit (ctx : context perror) (now : time) (st : Store) (t : snapshotTxn) (cursor : string) (sourceTime : time) :
    option perror * snapshotTxn * Store :=
  match validateContext ctx with
  | Some err => (Some err, t, st)
  | None =>
      match Cursor_Validate cursor with
      | Some err => (Some err, t, st)
      | None =>
          if IsZero sourceTime then (Some (ErrText "projection memory: source time is zero"), t, st)
          else if tx_closed t then (Some ErrSnapshotClosed, t, st)
          else
            let current := st !! sc_ID (tx_schema t) in
            match (c ← current; compatibleSchema (ps_schema c) (tx_schema t)) with
            | Some err => (Some err, t, st)
            | None =>
                let currentGeneration := match current with Some c => ps_generation c | None => 0 end in
                if negb (currentGeneration =? tx_baseGeneration t) then (Some ErrSnapshotConflict, close t (tx_values t), st)
                else
                  (None, close t ∅,
                   <[sc_ID (tx_schema t) := mkState (tx_schema t) cursor (u64_add currentGeneration 1) sourceTime now
                      (tx_values t) None]> st)
            end
      end
  end.

Definition Abort (t : snapshotTxn) : snapshotTxn := close t ∅.

(** ** Batches *)
Lemma mutation_kind_ok m : Mutation_Validate m = None → ∀ n, mu_kind m ≠ MutationOther n.
Proof. unfold Mutation_Validate. intros Hv n Hk. rewrite Hk in Hv. by case_match. Qed.

Lemma apply_batch_ok values ms : Forall (λ m, Mutation_Validate m = None) ms →
  apply_batch values ms = Ok (apply_mutations values ms).
Proof.
  intros Hms. revert values. induction Hms as [|m ms Hm _ IH]; intros values; [done|]. cbn.
  pose proof (mutation_kind_ok m Hm) as Hk. unfold apply_mutation. destruct (mu_kind m); [apply IH..|by destruct (Hk n)].
Qed.

Lemma mutations_ok_valid ms n : mutations_ok ms n = None → Forall (λ m, Mutation_Validate m = None) ms.
Proof.
  revert n. induction ms as [|m ms IH]; intros n; [done|]. cbn. destruct (Mutation_Validate m) eqn:Hm; [done|].
  case_match; [done|]. intros H'. constructor; [done|]. by eapply IH.
Qed.

(** What a valid batch is. *)
Lemma DeltaBatch_Validate_spec b : DeltaBatch_Validate b = None →
  Schema_Validate (db_Schema b) = None ∧ Cursor_Validate (db_Previous b) = None ∧ Cursor_Validate (db_Cursor b) = None ∧
  db_Cursor b ≠ db_Previous b ∧ db_SourceTime b ≠ 0 ∧ Forall (λ m, Mutation_Validate m = None) (db_Mutations b).
Proof.
  unfold DeltaBatch_Validate. destruct (Schema_Validate _) eqn:H1; [done|]. destruct (Cursor_Validate (db_Previous b)) eqn:H2; [done|].
  destruct (Cursor_Validate (db_Cursor b)) eqn:H3; [done|]. case_bool_decide; [done|].
  unfold IsZero. destruct (Z.eqb_spec (db_SourceTime b) 0); [done|]. case_match; [done|].
  intros Hm%mutations_ok_valid. done.
Qed.

(** The answer of [ApplyDelta] to a valid batch over an existing projection. *)
Lemma ApplyDelta_cases ctx now st b err st' : ApplyDelta ctx now st b = (err, st') →
  (st' = st ∧ (err = None → ∃ c, st !! sc_ID (db_Schema b) = Some c ∧ ps_cursor c = db_Cursor b ∧ ps_lastDelta c = Some (deltaDigest b))) ∨
  ∃ c, err = None ∧ ctx = Context None ∧ DeltaBatch_Validate b = None ∧ st !! sc_ID (db_Schema b) = Some c ∧
    compatibleSchema (ps_schema c) (db_Schema b) = None ∧ ps_cursor c = db_Previous b ∧ ps_cursor c ≠ db_Cursor b ∧
    st' = <[sc_ID (db_Schema b) := mkState (db_Schema b) (db_Cursor b) (u64_add (ps_generation c) 1) (db_SourceTime b) now
      (apply_mutations (ps_values c) (db_Mutations b)) (Some (deltaDigest b))]> st.
Proof.
  unfold ApplyDelta. destruct (validateContext ctx) as [e|] eqn:Hctx; [intros [= <- <-]; by left|].
  assert (ctx = Context None) as -> by (by destruct ctx as [|[]]).
  destruct (DeltaBatch_Validate b) as [e|] eqn:Hv; [intros [= <- <-]; by left|].
  destruct (st !! sc_ID (db_Schema b)) as [c|] eqn:Hc; [|intros [= <- <-]; by left].
  destruct (compatibleSchema _ _) as [e|] eqn:Hs; [intros [= <- <-]; by left|].
  destruct (decide (ps_cursor c = db_Cursor b)) as [Heq|Hne].
  { rewrite bool_decide_true by done. intros [= <- <-]. left. split; [done|].
    case_bool_decide; [|done]. intros _. eauto. }
  rewrite bool_decide_false by done. destruct (decide (ps_cursor c = db_Previous b)) as [Hp|Hp].
  2:{ rewrite bool_decide_false by done. intros [= <- <-]. by left. }
  rewrite bool_decide_true by done. cbn [negb].
  destruct (DeltaBatch_Validate_spec _ Hv) as (_ & _ & _ & _ & _ & Hms). rewrite apply_batch_ok by done.
  intros [= <- <-]. right. by exists c.
Qed.

Lemma compatibleSchema_refl s s' : sc_Fingerprint s = sc_Fingerprint s' → sc_KeyFingerprint s = sc_KeyFingerprint s' →
  compatibleSchema s s' = None.
Proof. intros H1 H2. unfold compatibleSchema. by rewrite H1, H2, !bool_decide_true. Qed.

(** ** The digest determines the content *)
Fixpoint be_value (l : list Z) : Z := match l with [] => 0 | b :: l => b * 256 ^ zlen l + be_value l end.

Lemma be_value_bytes n x : be_value (be_bytes n x) = x mod 256 ^ Z.of_nat n.
Proof.
  induction n as [|n IH]; [by rewrite Z.mod_1_r|]. cbn [be_bytes be_value]. rewrite IH. unfold zlen. rewrite be_bytes_length.
  rewrite Nat2Z.inj_succ, Z.pow_succ_r, (Z.mul_comm 256), Z.rem_mul_r by lia. lia.
Qed.

Lemma be_bytes_inj n x y : 0 ≤ x < 256 ^ Z.of_nat n → 0 ≤ y < 256 ^ Z.of_nat n → be_bytes n x = be_bytes n y → x = y.
Proof.
  intros Hx Hy Heq. apply (f_equal be_value) in Heq. rewrite !be_value_bytes in Heq. by rewrite !Z.mod_small in Heq.
Qed.

(** A number is written with a fixed width and a part with its length in front. *)
Lemma digest_uint64_inj x y l l' : is_u64 x → is_u64 y →
  writeDigestUint64 x ++ l = writeDigestUint64 y ++ l' → x = y ∧ l = l'.
Proof.
  unfold is_u64, max_u64, writeDigestUint64. intros Hx Hy Heq. apply app_inj_1 in Heq as [Heq ->]; [|by rewrite !be_bytes_length].
  split; [|done]. apply (be_bytes_inj 8); [cbn; lia..|done].
Qed.

Definition short (s : string) : Prop := slen s ≤ max_u64.
Lemma digest_string_inj a b l l' : short a → short b →
  writeDigestString a ++ l = writeDigestString b ++ l' → a = b ∧ l = l'.
Proof.
  unfold short, slen, max_u64, writeDigestString, writeDigestBytes. intros Ha Hb. rewrite <- !app_assoc.
  intros [Hlen Heq]%digest_uint64_inj; unfold is_u64, max_u64, zlen in *; rewrite ?length_bytes_of in *; [|lia..].
  apply app_inj_1 in Heq as [Heq ->]; [|rewrite !length_bytes_of; lia]. split; [|done].
  by rewrite <- (string_of_bytes_of a), Heq, string_of_bytes_of.
Qed.

Definition mutation_short (m : Mutation) : Prop := short (mu_key m) ∧ short (mu_value m) ∧ ∀ n, mu_kind m ≠ MutationOther n.
Lemma digest_mutation_inj m m' l l' : mutation_short m → mutation_short m' →
  digest_mutation m ++ l = digest_mutation m' ++ l' → m = m' ∧ l = l'.
Proof.
  intros (Hk & Hv & Ho) (Hk' & Hv' & Ho'). unfold digest_mutation. rewrite <- !app_assoc. intros [Hn Heq]%digest_uint64_inj.
  - apply digest_string_inj in Heq as [Hkey Heq]; [|done..]. apply digest_string_inj in Heq as [Hval ->]; [|done..].
    split; [|done]. destruct m as [k ? ?], m' as [k' ? ?]. cbn in *. subst.
    destruct k, k'; try done; try (by destruct (Ho n)); by destruct (Ho' n).
  - destruct (mu_kind m); [done..|by destruct (Ho n)].
  - destruct (mu_kind m'); [done..|by destruct (Ho' n)].
Qed.

Lemma digest_mutations_inj ms ms' : Forall mutation_short ms → Forall mutation_short ms' →
  flat_map digest_mutation ms = flat_map digest_mutation ms' → ms = ms'.
Proof.
  intros Hms. revert ms'. induction Hms as [|m ms Hm _ IH]; intros [|m' ms']; intros Hms'; cbn [flat_map]; [done|..].
  - by intros Heq%(f_equal length).
  - by intros Heq%(f_equal length).
  - inversion_clear Hms' as [|? ? Hm' Hrest]. intros [-> Heq]%digest_mutation_inj; [|done..]. f_equal. auto.
Qed.

Lemma valid_text_short n s : n ≤ max_u64 → valid_text n s = true → short s.
Proof. intros Hn Hv. pose proof (valid_text_length _ _ Hv). unfold short. lia. Qed.

Lemma validFingerprint_short s : validFingerprint s = true → short s.
Proof. unfold validFingerprint, fingerprintBytes, short, max_u64. intros Hv. bool_hyps. lia. Qed.

Lemma Schema_Validate_spec s : Schema_Validate s = None →
  validIdentity (sc_ID s) maxProjectionIDBytes = true ∧ validFingerprint (sc_Fingerprint s) = true ∧
  validFingerprint (sc_KeyFingerprint s) = true.
Proof.
  unfold Schema_Validate, ProjectionID_Validate. destruct (validIdentity _ _); [|done]. cbn.
  destruct (validFingerprint (sc_Fingerprint s)); [|done]. by destruct (validFingerprint (sc_KeyFingerprint s)).
Qed.

Lemma Cursor_Validate_spec c : Cursor_Validate c = None ↔ validIdentity c maxCursorBytes = true.
Proof. unfold Cursor_Validate. by destruct (validIdentity c _). Qed.

Lemma mutation_valid_short m : Mutation_Validate m = None → mutation_short m.
Proof.
  intros Hm. pose proof (mutation_kind_ok _ Hm) as Ho. unfold Mutation_Validate in Hm.
  unfold mutation_short, short, max_u64, maxKeyBytes, maxValueBytes in *.
  destruct (_ || _) eqn:Hk; [done|]. bool_hyps. destruct (mu_kind m); [| |by destruct (Ho n)].
  - case_match eqn:Hv; [done|]. apply Z.ltb_ge in Hv. split_and!; try done; lia.
  - destruct (Z.eqb_spec (slen (mu_value m)) 0); [|done]. split_and!; try done; lia.
Qed.

(** What a batch says, apart from its compatibility window and whole multiples of 2^64 ns. *)
Definition content (b : DeltaBatch) : string * string * string * string * string * Z * list Mutation :=
  (sc_ID (db_Schema b), sc_Fingerprint (db_Schema b), sc_KeyFingerprint (db_Schema b), db_Previous b, db_Cursor b,
   unix_nano (db_SourceTime b), db_Mutations b).

Lemma digest_input_inj b b' : DeltaBatch_Validate b = None → DeltaBatch_Validate b' = None →
  digest_input b = digest_input b' → content b = content b'.
Proof.
  intros (Hs & Hp & Hc & _ & _ & Hms)%DeltaBatch_Validate_spec (Hs' & Hp' & Hc' & _ & _ & Hms')%DeltaBatch_Validate_spec.
  apply Schema_Validate_spec in Hs as (H1 & H2 & H3), Hs' as (H1' & H2' & H3').
  apply Cursor_Validate_spec in Hp, Hc, Hp', Hc'. unfold digest_input, content.
  assert (Hid : maxProjectionIDBytes ≤ max_u64) by (unfold max_u64, maxProjectionIDBytes; lia).
  assert (Hcu : maxCursorBytes ≤ max_u64) by (unfold max_u64, maxCursorBytes; lia).
  intros [-> Heq]%digest_string_inj; [|by apply (valid_text_short _ _ Hid)..].
  apply digest_string_inj in Heq as [-> Heq]; [|by apply validFingerprint_short..].
  apply digest_string_inj in Heq as [-> Heq]; [|by apply validFingerprint_short..].
  apply digest_string_inj in Heq as [-> Heq]; [|by apply (valid_text_short _ _ Hcu)..].
  apply digest_string_inj in Heq as [-> Heq]; [|by apply (valid_text_short _ _ Hcu)..].
  assert (Hu : ∀ t, is_u64 (unix_nano t)).
  { intros t. unfold is_u64, unix_nano. pose proof (Z.mod_pos_bound (t - unix_epoch) (max_u64 + 1)). unfold max_u64 in *. lia. }
  apply digest_uint64_inj in Heq as [-> Heq]; [|done..]. f_equal.
  apply digest_mutations_inj; [..|done]; eapply Forall_impl; eauto using mutation_valid_short.
Qed.

(** ** Runs of the store *)
Inductive op :=
| OpApplyDelta (ctx : context perror) (now : time) (b : DeltaBatch)
| OpCommit (ctx : context perror) (now : time) (t : snapshotTxn) (cursor : string) (sourceTime : time).
Definition exec (st : Store) (o : op) : Store :=
  match o with
  | OpApplyDelta ctx now b => (ApplyDelta ctx now st b).2
  | OpCommit ctx now t cursor sourceTime => (Commit ctx now st t cursor sourceTime).2
  end.
Definition execs (st : Store) (l : list op) : Store := fold_left exec l st.

Definition generation (st : Store) (id : string) : Z := match st !! id with Some s => ps_generation s | None => 0 end.

Lemma Commit_cases ctx now st t cursor sourceTime err t' st' : Commit ctx now st t cursor sourceTime = (err, t', st') →
  (st' = st ∧ err ≠ None) ∨
  (err = None ∧ Cursor_Validate cursor = None ∧ sourceTime ≠ 0 ∧ tx_closed t = false ∧
   generation st (sc_ID (tx_schema t)) = tx_baseGeneration t ∧ t' = close t ∅ ∧
   st' = <[sc_ID (tx_schema t) := mkState (tx_schema t) cursor (u64_add (tx_baseGeneration t) 1) sourceTime now
      (tx_values t) None]> st).
Proof.
  unfold Commit. destruct (validateContext ctx); [intros [= <- <- <-]; by left|].
  destruct (Cursor_Validate cursor) eqn:Hcu; [intros [= <- <- <-]; by left|].
  unfold IsZero. destruct (Z.eqb_spec sourceTime 0); [intros [= <- <- <-]; by left|].
  destruct (tx_closed t) eqn:Hcl; [intros [= <- <- <-]; by left|]. fold (generation st (sc_ID (tx_schema t))).
  destruct (_ ≫= _); [intros [= <- <- <-]; by left|].
  destruct (Z.eqb_spec (generation st (sc_ID (tx_schema t))) (tx_baseGeneration t)) as [Hg|]; cbn [negb].
  - intros [= <- <- <-]. right. rewrite Hg. done.
  - intros [= <- <- <-]. by left.
Qed.

(** Every change of a projection raises its generation by one. *)
Lemma exec_generation st o id :
  exec st o !! id = st !! id ∨ generation (exec st o) id = u64_add (generation st id) 1.
Proof.
  destruct o as [ctx now b|ctx now t cursor sourceTime]; cbn.
  - destruct (ApplyDelta ctx now st b) as [err st'] eqn:Ha. cbn.
    destruct (ApplyDelta_cases _ _ _ _ _ _ Ha) as [[-> _]|(c & _ & _ & _ & Hc & _ & _ & _ & ->)]; [by left|].
    destruct (decide (sc_ID (db_Schema b) = id)) as [<-|]; [|left; by rewrite lookup_insert_ne].
    right. unfold generation. by rewrite lookup_insert_eq, Hc.
  - destruct (Commit ctx now st t cursor sourceTime) as [[err t'] st'] eqn:Hc. cbn.
    destruct (Commit_cases _ _ _ _ _ _ _ _ _ Hc) as [[-> _]|(_ & _ & _ & _ & Hg & _ & ->)]; [by left|].
    destruct (decide (sc_ID (tx_schema t) = id)) as [<-|]; [|left; by rewrite lookup_insert_ne].
    right. rewrite Hg. unfold generation. by rewrite lookup_insert_eq.
Qed.

Lemma execs_generation st l id :
  0 ≤ generation st id → generation st id + zlen l ≤ max_u64 →
  generation st id ≤ generation (execs st l) id ≤ generation st id + zlen l ∧
  (generation (execs st l) id = generation st id → execs st l !! id = st !! id).
Proof.
  revert st. induction l as [|o l IH]; intros st H0 Hmax; [unfold zlen; cbn; split; [lia|done]|].
  unfold execs in *. cbn [fold_left]. rewrite zlen_cons in *. pose proof (zlen_nonneg l).
  destruct (exec_generation st o id) as [Heq|Hup].
  - assert (Hg : generation (exec st o) id = generation st id) by (unfold generation; by rewrite Heq).
    destruct (IH (exec st o)) as [Hb He]; [lia..|]. rewrite Hg in *. split; [lia|]. intros E. by rewrite He.
  - rewrite u64_add_small in Hup by lia. destruct (IH (exec st o)) as [Hb He]; [lia..|]. split; [lia|]. lia.
Qed.

(** a cursor names one content.  A delta that was applied is accepted again, without effect,
    however often it is resent; another batch that claims the same cursor is refused with
    [ErrReplayConflict] unless it says the same (schema identity and fingerprints, previous
    cursor, time and mutations) or exhibits a SHA-256 collision. *)
Theorem cursor_names_content ctx now st b st1 now' b' err st2 c :
  ApplyDelta ctx now st b = (None, st1) → st1 ≠ st → DeltaBatch_Validate b' = None →
  sc_ID (db_Schema b') = sc_ID (db_Schema b) → db_Cursor b' = db_Cursor b →
  st1 !! sc_ID (db_Schema b) = Some c → compatibleSchema (ps_schema c) (db_Schema b') = None →
  ApplyDelta (Context None) now' st1 b' = (err, st2) →
  st2 = st1 ∧ ApplyDelta (Context None) now' st1 b = (None, st1) ∧
  match err with
  | None => content b' = content b ∨ (digest_input b' ≠ digest_input b ∧ sha256 (digest_input b') = sha256 (digest_input b))
  | Some e => e = ErrReplayConflict ∧ content b' ≠ content b
  end.
Proof.
  intros Ha Hne Hv' Hid Hcur Hc Hsch Hb.
  destruct (ApplyDelta_cases _ _ _ _ _ _ Ha) as [[-> _]|(c0 & _ & _ & Hv & Hc0 & _ & Hprev & Hcne & ->)]; [done|].
  rewrite lookup_insert_eq in Hc. injection Hc as <-. cbn in Hsch.
  assert (Hagain : ∀ b'', DeltaBatch_Validate b'' = None → sc_ID (db_Schema b'') = sc_ID (db_Schema b) →
    db_Cursor b'' = db_Cursor b → compatibleSchema (db_Schema b) (db_Schema b'') = None →
    ApplyDelta (Context None) now' (<[sc_ID (db_Schema b) := mkState (db_Schema b) (db_Cursor b)
      (u64_add (ps_generation c0) 1) (db_SourceTime b) now (apply_mutations (ps_values c0) (db_Mutations b))
      (Some (deltaDigest b))]> st) b'' =
    (if deltaDigest b == deltaDigest b'' then None else Some ErrReplayConflict, <[sc_ID (db_Schema b) := mkState (db_Schema b) (db_Cursor b)
      (u64_add (ps_generation c0) 1) (db_SourceTime b) now (apply_mutations (ps_values c0) (db_Mutations b))
      (Some (deltaDigest b))]> st)).
  { intros b'' Hv'' Hid'' Hcur'' Hs''. unfold ApplyDelta. cbn [validateContext]. rewrite Hv'', Hid'', lookup_insert_eq.
    cbn [ps_schema ps_cursor ps_lastDelta]. rewrite Hs'', bool_decide_true by done.
    destruct (decide (deltaDigest b = deltaDigest b'')) as [Hd|Hd]; [by rewrite !bool_decide_true by congruence|].
    by rewrite !bool_decide_false by congruence. }
  rewrite Hagain in Hb by done. injection Hb as <- <-. split; [done|]. split.
  - rewrite Hagain by (done || by apply compatibleSchema_refl). by rewrite bool_decide_true.
  - case_bool_decide as Hd; cbn.
    + unfold deltaDigest in Hd. destruct (decide (digest_input b' = digest_input b)) as [Hi|Hi]; [left|right; by split].
      by apply digest_input_inj.
    + split; [done|]. intros Hcon. apply Hd. unfold deltaDigest. f_equal.
      unfold content in Hcon. injection Hcon as E1 E2 E3 E4 E5 E6 E7. unfold digest_input. by rewrite E1, E2, E3, E4, E5, E6, E7.
Qed.

(** ** Snapshots *)
Fixpoint stages (t : snapshotTxn) (ms : list Mutation) : option snapshotTxn :=
  match ms with
  | [] => Some t
  | m :: ms => match Stage t m with (None, t) => stages t ms | (Some _, _) => None end
  end.

Lemma Stage_Ok t m t' : Stage t m = (None, t') →
  t' = mkTxn (tx_schema t) (tx_baseGeneration t) (apply_mutation (tx_values t) m) (tx_closed t).
Proof.
  unfold Stage. destruct (Mutation_Validate m); [done|]. destruct (tx_closed t); [done|]. unfold apply_mutation.
  by destruct (mu_kind m); intros [= <-].
Qed.

Lemma stages_values t ms t' : stages t ms = Some t' →
  t' = mkTxn (tx_schema t) (tx_baseGeneration t) (apply_mutations (tx_values t) ms) (tx_closed t).
Proof.
  revert t. induction ms as [|m ms IH]; intros t; cbn; [by intros [= <-]; destruct t|].
  destruct (Stage t m) as [[e|] t1] eqn:Hs; [done|]. apply Stage_Ok in Hs as ->. intros Ht. apply IH in Ht. by rewrite Ht.
Qed.

Lemma BeginSnapshot_Ok ctx st schema t : BeginSnapshot ctx st schema = Ok t →
  Schema_Validate schema = None ∧ t = mkTxn schema (generation st (sc_ID schema)) ∅ false.
Proof.
  unfold BeginSnapshot, generation. destruct (validateContext ctx); [done|]. destruct (Schema_Validate schema); [done|].
  destruct (st !! sc_ID schema) as [c|]; [|by intros [= <-]]. destruct (compatibleSchema _ _); [done|]. by intros [= <-].
Qed.

(** snapshots are atomic and lose nothing.  Whatever other transactions and deltas do to the
    store while a snapshot is staged, its commit publishes exactly the staged rows, and it succeeds
    only if nothing at all was applied to that projection since the snapshot was begun; a refused
    commit changes nothing. *)
Theorem snapshot_isolated ctx0 st schema t0 ms t l ctx now cursor sourceTime err t' st' :
  0 ≤ generation st (sc_ID schema) → generation st (sc_ID schema) + zlen l ≤ max_u64 →
  BeginSnapshot ctx0 st schema = Ok t0 → stages t0 ms = Some t →
  Commit ctx now (execs st l) t cursor sourceTime = (err, t', st') →
  match err with
  | Some _ => st' = execs st l
  | None => execs st l !! sc_ID schema = st !! sc_ID schema ∧
      st' !! sc_ID schema = Some (mkState schema cursor (u64_add (generation st (sc_ID schema)) 1) sourceTime now
        (apply_mutations ∅ ms) None) ∧
      ∀ id, id ≠ sc_ID schema → st' !! id = execs st l !! id
  end.
Proof.
  intros H0 Hmax (_ & ->)%BeginSnapshot_Ok Hst Hc. apply stages_values in Hst as ->. cbn in Hc.
  destruct (execs_generation st l (sc_ID schema) H0 Hmax) as [_ Hsame].
  destruct (Commit_cases _ _ _ _ _ _ _ _ _ Hc) as [[-> Hne]|(-> & _ & _ & _ & Hg & _ & ->)]; [by destruct err|].
  cbn in Hg |- *. split; [by apply Hsame|]. rewrite lookup_insert_eq. split; [done|].
  intros id Hid. by rewrite lookup_insert_ne.
Qed.

(** ** Witnesses *)
Definition ex_fingerprint : string := "00112233445566778899aabbccddeeff00112233445566778899aabbccddeeff".
Definition ex_schema : Schema := mkSchema "orders" ex_fingerprint ex_fingerprint [].
Definition ex_snapshot : snapshotTxn := mkTxn ex_schema 0 {["k" := "v"]} false.
Definition ex_store : Store := (Commit (Context None) 7 New ex_snapshot "c1" 5).2.
Definition ex_delta : DeltaBatch := mkDeltaBatch ex_schema "c1" "c2" 6 [Upsert "k" "w"; Delete "x"].
Definition ex_store2 : Store := (ApplyDelta (Context None) 8 ex_store ex_delta).2.
Definition ex_other : DeltaBatch := mkDeltaBatch ex_schema "c1" "c2" 6 [Upsert "k" "z"].

Lemma cursor_names_content_witness :
  ex_store2 ≠ ex_store ∧ (ApplyDelta (Context None) 9 ex_store2 ex_other).1 = Some ErrReplayConflict ∧
  content ex_other ≠ content ex_delta.
Proof.
  assert (Hne : ex_store2 ≠ ex_store) by (vm_compute; discriminate).
  destruct (ex_store2 !! sc_ID (db_Schema ex_delta)) as [c|] eqn:Hc; [|vm_compute in Hc; discriminate].
  assert (Hsch : compatibleSchema (ps_schema c) (db_Schema ex_other) = None) by (vm_compute in Hc; injection Hc as <-; vm_compute; reflexivity).
  pose proof (cursor_names_content (Context None) 8 ex_store ex_delta ex_store2 9 ex_other
    (Some ErrReplayConflict) ex_store2 c eq_refl Hne eq_refl eq_refl eq_refl Hc Hsch eq_refl) as (_ & _ & _ & Hd).
  split; [exact Hne|]. split; [vm_compute; reflexivity|exact Hd].
Defined.

Lemma snapshot_isolated_witness :
  (Commit (Context None) 9 (execs ex_store2 [OpApplyDelta (Context None) 9 ex_delta]) (mkTxn ex_schema 2 {["n" := "1"]} false) "c9" 8).1.1 = None ∧
  execs ex_store2 [OpApplyDelta (Context None) 9 ex_delta] !! sc_ID ex_schema = ex_store2 !! sc_ID ex_schema.
Proof.
  split; [vm_compute; reflexivity|].
  destruct (Commit (Context None) 9 (execs ex_store2 [OpApplyDelta (Context None) 9 ex_delta]) (mkTxn ex_schema 2 {["n" := "1"]} false) "c9" 8)
    as [[[e|] t'] st'] eqn:Hc; [exfalso; apply (f_equal (λ p, p.1.1)) in Hc; vm_compute in Hc; discriminate|].
  pose proof (snapshot_isolated (Context None) ex_store2 ex_schema (mkTxn ex_schema 2 ∅ false) [Upsert "n" "1"]
    (mkTxn ex_schema 2 {["n" := "1"]} false) [OpApplyDelta (Context None) 9 ex_delta] (Context None) 9 "c9" 8 None
    t' st' ltac:(vm_compute; discriminate) ltac:(vm_compute; discriminate) ltac:(vm_compute; reflexivity)
    ltac:(vm_compute; reflexivity) Hc) as (H & _).
  exact H.
Defined.
