(* ===== verification/ProjStream.v ===== *)
(** * programmable/projection: what a subscription tells

    The contract between an owner of a projection and its replicas, stated on frames alone.  The
    owner's past is a list of versions; a stream of frames is faithful when a reader that follows it
    is, at every cursor it is given, at a version the owner really had.  [tells] is the protocol
    automaton of [source.go] (snapshot, deltas, heartbeats, gap), and [Replica] phases are what a
    reader knows after a prefix of the stream. *)
From S2P Require Import Prelude GoText Projection.
Open Scope Z_scope.

Record version := mkVersion { ve_cursor : string; ve_rows : rows; ve_time : time }.

(** What the reader of a stream knows. *)
Inductive phase :=
| Fresh                          (* nothing yet *)
| Staging (values : rows)        (* part of a snapshot *)
| Following (i : nat)            (* the table of version [i] *)
| Gapped.                        (* that its cursor is no longer retained *)
#[export] Instance phase_eq_dec : EqDecision phase.
Proof. solve_decision. Defined.

Definition is_upsert (m : Mutation) : Prop := mu_kind m = MutationUpsert ∧ Mutation_Validate m = None.

(** The batch leads from version [i] to the next one. *)
Definition delta_at (schema : Schema) (hist : list version) (i : nat) (b : DeltaBatch) : Prop :=
  ∃ v v', hist !! i = Some v ∧ hist !! S i = Some v' ∧ DeltaBatch_Validate b = None ∧ db_Schema b = schema ∧
    db_Previous b = ve_cursor v ∧ db_Cursor b = ve_cursor v' ∧ db_SourceTime b = ve_time v' ∧
    ve_rows v' = apply_mutations (ve_rows v) (db_Mutations b).

(** One faithful frame; [budget] bounds the bytes of a snapshot chunk. *)
Inductive tells (schema : Schema) (budget : Z) (hist : list version) : phase → Frame → phase → Prop :=
| tells_begin : tells schema budget hist Fresh (SnapshotBeginFrame schema) (Staging ∅)
| tells_chunk values ms :
    ms ≠ [] → Forall is_upsert ms → list_sum_Z (mutation_bytes <$> ms) ≤ budget →
    tells schema budget hist (Staging values) (SnapshotChunkFrame ms) (Staging (apply_mutations values ms))
| tells_end values i v :
    hist !! i = Some v → ve_rows v = values → ve_time v ≠ 0 → Cursor_Validate (ve_cursor v) = None →
    tells schema budget hist (Staging values) (SnapshotEndFrame (ve_cursor v) (ve_time v)) (Following i)
| tells_delta i b :
    delta_at schema hist i b → tells schema budget hist (Following i) (DeltaFrame b) (Following (S i))
| tells_heartbeat i v :
    hist !! i = Some v → ve_time v ≠ 0 → Cursor_Validate (ve_cursor v) = None →
    tells schema budget hist (Following i) (HeartbeatFrame (ve_cursor v) (ve_time v)) (Following i)
| tells_gap i j v w :
    hist !! i = Some v → hist !! j = Some w → (i < j)%nat →
    Cursor_Validate (ve_cursor v) = None → Cursor_Validate (ve_cursor w) = None →
    tells schema budget hist (Following i) (GapFrame (ve_cursor v) (ve_cursor w)) Gapped.

Inductive tell_all (schema : Schema) (budget : Z) (hist : list version) : phase → list Frame → phase → Prop :=
| tell_nil p : tell_all schema budget hist p [] p
| tell_cons p f q fs r : tells schema budget hist p f q → tell_all schema budget hist q fs r →
    tell_all schema budget hist p (f :: fs) r.

Section Stream.
Context (schema : Schema) (budget : Z).

Lemma tell_all_app hist p fs q fs' r :
  tell_all schema budget hist p fs q → tell_all schema budget hist q fs' r → tell_all schema budget hist p (fs ++ fs') r.
Proof. induction 1; cbn; eauto using tell_cons. Qed.

Lemma tell_all_snoc hist p fs q f r :
  tell_all schema budget hist p fs q → tells schema budget hist q f r → tell_all schema budget hist p (fs ++ [f]) r.
Proof. intros H Hf. eapply tell_all_app; [done|]. eapply tell_cons; [done|]. constructor. Qed.

Lemma tell_all_app_inv hist p fs fs' r : tell_all schema budget hist p (fs ++ fs') r →
  ∃ q, tell_all schema budget hist p fs q ∧ tell_all schema budget hist q fs' r.
Proof.
  revert p. induction fs as [|f fs IH]; intros p; cbn; [eauto using tell_nil|].
  inversion 1 as [|? ? q1 ? ? Hf Hr]; subst. destruct (IH _ Hr) as (q & ? & ?). eauto using tell_cons.
Qed.

(** The past does not change: a frame faithful to a history is faithful to its extensions. *)
Lemma tells_mono hist hist' p f q : hist `prefix_of` hist' →
  tells schema budget hist p f q → tells schema budget hist' p f q.
Proof.
  intros Hp. pose proof (λ i v, prefix_lookup_Some hist hist' i v) as Hl. destruct 1; try (by econstructor; eauto).
  destruct H as (v & v' & Hv & Hv' & H). constructor. exists v, v'. eauto 6.
Qed.

Lemma tell_all_mono hist hist' p fs q : hist `prefix_of` hist' →
  tell_all schema budget hist p fs q → tell_all schema budget hist' p fs q.
Proof. induction 2; eauto using tell_nil, tell_cons, tells_mono. Qed.

Lemma delta_at_mono hist hist' i b : hist `prefix_of` hist' → delta_at schema hist i b → delta_at schema hist' i b.
Proof.
  intros Hp (v & v' & Hv & Hv' & H). exists v, v'. split; [by eapply prefix_lookup_Some|]. split; [by eapply prefix_lookup_Some|done].
Qed.

Lemma cursor_names_version (hist : list version) i j v w : NoDup (ve_cursor <$> hist) →
  hist !! i = Some v → hist !! j = Some w → ve_cursor v = ve_cursor w → i = j.
Proof.
  intros Hnd Hv Hw Heq. eapply (NoDup_lookup (ve_cursor <$> hist)); [done|..]; rewrite list_lookup_fmap.
  - by rewrite Hv.
  - rewrite Hw. cbn. by rewrite Heq.
Qed.

(** Without cursors used twice, what a stream tells is determined by its frames. *)
Lemma tells_det hist p f q q' : NoDup (ve_cursor <$> hist) →
  tells schema budget hist p f q → tells schema budget hist p f q' → q = q'.
Proof. intros Hnd H H'. destruct H; inversion H'; subst; try done. f_equal. by eapply cursor_names_version. Qed.

Lemma tell_all_det hist p fs q q' : NoDup (ve_cursor <$> hist) →
  tell_all schema budget hist p fs q → tell_all schema budget hist p fs q' → q = q'.
Proof.
  intros Hnd. induction 1 as [|p f q1 fs r Hf _ IH]; inversion 1 as [|? ? q2 ? ? Hf' Hr]; subst; [done|].
  apply IH. by rewrite (tells_det _ _ _ _ _ Hnd Hf Hf').
Qed.

(** The last frame of a stream follows from what the rest tells. *)
Lemma tell_all_last hist p fs f q r : NoDup (ve_cursor <$> hist) →
  tell_all schema budget hist p fs q → tell_all schema budget hist p (fs ++ [f]) r → tells schema budget hist q f r.
Proof.
  intros Hnd Hq (q' & Hq' & Hf)%tell_all_app_inv. rewrite (tell_all_det _ _ _ _ _ Hnd Hq Hq').
  inversion Hf as [|? ? q1 ? ? Hf1 Hnil]; subst. by inversion Hnil; subst.
Qed.

End Stream.
Create HintDb stream.
#[export] Hint Resolve tell_nil tell_all_app tell_all_snoc tells_mono tell_all_mono : stream.
