(* ===== verification/ProjOwner.v ===== *)
(** * programmable/projection/ownermemory: the owner of a projection

    Models [ownermemory/source.go] and [ownermemory/admin.go]: the rows of the owner, its log of
    deltas with bounded retention, subscriptions with their queues, and compaction.  Sessions live
    in a heap, so that [subscribers] and the holder of a session share it; each method is one step
    under the locks.  The theorems: cursors round-trip, and every frame a session yields, whatever
    the owner and other sessions do meanwhile, tells the history of the owner's table. *)
From S2P Require Import Prelude GoText GoJson Sha256 GoDecode GoTime Projection ProjStore ProjStream.
Open Scope Z_scope.

Definition cursorPrefix : string := "memory/".
Definition cursorDigits : nat := 20.
Definition maxChunkBudget : Z := 32 * 1024 * 1024.
Definition maxLiveQueueBudget : Z := 64.

(** ** Cursors *)
Definition encodeCursor (offset : Z) : string := cursorPrefix +:+ string_of_bytes (fixed cursorDigits offset).

Definition decodeCursor (cursor : string) : result perror Z :=
  if negb (slen cursor =? slen cursorPrefix + Z.of_nat cursorDigits) || negb (HasPrefix cursor cursorPrefix)
  then Err ErrInvalidOwnerCursor
  else match ParseUint max_u64 (drop (String.length cursorPrefix) (bytes_of cursor)) with
  | None => Err ErrInvalidOwnerCursor
  | Some offset => if encodeCursor offset != cursor then Err ErrInvalidOwnerCursor else Ok offset
  end.

(** ** State *)
Record session := mkSession {
  se_initial : list Frame;
  se_index : nat;
  se_runErr : option perror;
  se_live : list Frame;
  se_done : bool;
  se_protected : Z
}.

Record logEntry := mkLogEntry { le_offset : Z; le_batch : DeltaBatch }.

Record Source := mkSource {
  so_schema : Schema;
  so_retention : Z;
  so_chunkBudget : Z;
  so_queueBudget : Z;
  so_rows : rows;
  so_offset : Z;
  so_sourceTime : time;
  so_log : list logEntry;
  so_subscribers : gset nat;
  so_closed : bool;
  so_sessions : list session           (* every session made so far *)
}.

Definition New (schema : Schema) (retention chunkBudget : Z) : result perror Source :=
  match Schema_Validate schema with
  | Some err => Err err
  | None =>
      if (retention <=? 0) || (100000 <? retention) || (chunkBudget <=? 0) || (maxChunkBudget <? chunkBudget)
      then Err ErrInvalidOption
      else
        let queueBudget := if maxLiveQueueBudget <? retention then maxLiveQueueBudget else retention in
        Ok (mkSource schema retention chunkBudget queueBudget ∅ 0 0 [] ∅ false [])
  end.

(** ** Sessions *)
Definition terminate (err : perror) (s : session) : session :=
  if se_done s then s else mkSession (se_initial s) (se_index s) (Some err) (se_live s) true (se_protected s).
Definition terminalError (s : session) : perror := default ErrSessionClosed (se_runErr s).
Definition newSession (initial : list Frame) (protected : Z) : session := mkSession initial 0 None [] false protected.

Definition with_sessions (subscribers : gset nat) (sessions : list session) (src : Source) : Source :=
  mkSource (so_schema src) (so_retention src) (so_chunkBudget src) (so_queueBudget src) (so_rows src) (so_offset src)
    (so_sourceTime src) (so_log src) subscribers (so_closed src) sessions.

(** What [Next] finds: a frame, the terminal error, or nothing yet (it waits unless the context
    has ended; when both a frame and the end of the context are there, the [select] takes either,
    [prefer] says which).  A nil session answers like a closed one.  A session that ends between the two
    [select]s of one call may still yield a frame of its queue; nothing is queued after the end, so
    this is the same as a call that was finished before it. *)
Inductive next_answer := Ready (frame : Frame) | Failed (err : perror) | Blocked.

Definition Next (ctx : context perror) (prefer : bool) (id : nat) (src : Source) : next_answer * Source :=
  match so_sessions src !! id, ctx with
  | None, _ => (Failed ErrSessionClosed, src)
  | Some _, NilContext => (Failed ErrInvalidOption, src)
  | Some s, Context cause =>
      let put s := with_sessions (so_subscribers src) (<[id := s]> (so_sessions src)) src in
      if se_done s then (Failed (terminalError s), src)
      else match se_initial s !! se_index s with
      | Some frame =>
          (Ready frame, put (mkSession (se_initial s) (S (se_index s)) (se_runErr s) (se_live s) (se_done s) (se_protected s)))
      | None =>
          match se_live s, cause with
          | frame :: live, None =>
              (Ready frame, put (mkSession (se_initial s) (se_index s) (se_runErr s) live (se_done s) (se_protected s)))
          | frame :: live, Some err =>
              if prefer then (Failed err, src)
              else (Ready frame, put (mkSession (se_initial s) (se_index s) (se_runErr s) live (se_done s) (se_protected s)))
          | [], Some err => (Failed err, src)
          | [], None => (Blocked, src)
          end
      end
  end.

Definition session_Close (id : nat) (src : Source) : Source :=
  with_sessions (so_subscribers src ∖ {[ id ]}) (alter (terminate ErrSessionClosed) id (so_sessions src)) src.

(** ** Committing *)
Definition full (queueBudget : Z) (s : session) : bool := negb (zlen (se_live s) <? queueBudget).
Definition push (frame : Frame) (s : session) : session :=
  mkSession (se_initial s) (se_index s) (se_runErr s) (se_live s ++ [frame]) (se_done s) (se_protected s).

(** The loop over the subscribers: each one gets the frame, or is dropped when its queue is full. *)
Definition deliver (queueBudget : Z) (frame : Frame) (subscribers : gset nat) (sessions : list session) : list session :=
  imap (λ i s, if bool_decide (i ∈ subscribers)
               then if full queueBudget s then terminate ErrSlowSubscriber s else push frame s
               else s) sessions.
Definition kept (queueBudget : Z) (sessions : list session) (subscribers : gset nat) : gset nat :=
  filter (λ i, match sessions !! i with Some s => negb (full queueBudget s) | None => true end = true) subscribers.

Definition commitLocked (mutations : list Mutation) (sourceTime : time) (src : Source) : result perror string * Source :=
  if IsZero sourceTime || (negb (IsZero (so_sourceTime src)) && Before sourceTime (so_sourceTime src))
  then (Err ErrInvalidOption, src)
  else if so_offset src =? max_u64 then (Err ErrInvalidOwnerCursor, src)
  else
    let nextOffset := so_offset src + 1 in
    let batch := mkDeltaBatch (so_schema src) (encodeCursor (so_offset src)) (encodeCursor nextOffset) sourceTime mutations in
    match DeltaBatch_Validate batch with
    | Some err => (Err err, src)
    | None =>
        let log := so_log src ++ [mkLogEntry nextOffset batch] in
        let log := if so_retention src <? zlen log then drop (Z.to_nat (zlen log - so_retention src)) log else log in
        (Ok (db_Cursor batch),
         mkSource (so_schema src) (so_retention src) (so_chunkBudget src) (so_queueBudget src)
           (apply_mutations (so_rows src) mutations) nextOffset sourceTime log
           (kept (so_queueBudget src) (so_sessions src) (so_subscribers src)) (so_closed src)
           (deliver (so_queueBudget src) (DeltaFrame batch) (so_subscribers src) (so_sessions src)))
    end.

Fixpoint check_mutations (chunkBudget : Z) (mutations : list Mutation) : option perror :=
  match mutations with
  | [] => None
  | m :: mutations =>
      match Mutation_Validate m with
      | Some err => Some (ErrWraps ErrInvalidOption err)
      | None =>
          if (mu_kind m == MutationUpsert) && (chunkBudget <? slen (mu_key m) + slen (mu_value m)) then Some ErrInvalidOption
          else check_mutations chunkBudget mutations
      end
  end.
Definition validateMutations (src : Source) (mutations : list Mutation) : option perror :=
  if zlen mutations =? 0 then Some ErrInvalidOption else check_mutations (so_chunkBudget src) mutations.

Definition Seed (mutations : list Mutation) (sourceTime : time) (src : Source) : result perror string * Source :=
  match validateMutations src mutations with
  | Some err => (Err err, src)
  | None =>
      if so_closed src then (Err ErrSourceClosed, src)
      else if negb (so_offset src =? 0) then (Err ErrAlreadySeeded, src)
      else commitLocked mutations sourceTime src
  end.

Definition Commit (mutations : list Mutation) (sourceTime : time) (src : Source) : result perror string * Source :=
  match validateMutations src mutations with
  | Some err => (Err err, src)
  | None =>
      if so_closed src then (Err ErrSourceClosed, src)
      else if so_offset src =? 0 then (Err ErrNotSeeded, src)
      else commitLocked mutations sourceTime src
  end.

(** The mutations that lead from [current] to [desired], in key order. *)
Definition diff_key (current desired : rows) (key : string) : list Mutation :=
  match current !! key, desired !! key with
  | Some _, None => [Delete key]
  | Some before, Some after => if before == after then [] else [Upsert key after]
  | None, Some after => [Upsert key after]
  | None, None => []
  end.
Definition diffRows (current desired : rows) : list Mutation :=
  flat_map (diff_key current desired) (sort_strings (elements (dom current ∪ dom desired))).

Definition Replace (new : list Mutation) (sourceTime : time) (src : Source) : result perror string * Source :=
  match validateMutations src new with
  | Some err => (Err err, src)
  | None =>
      let desired := apply_mutations ∅ new in
      if so_closed src then (Err ErrSourceClosed, src)
      else if so_offset src =? 0 then commitLocked new sourceTime src
      else
        let changes := diffRows (so_rows src) desired in
        if zlen changes =? 0 then (Ok (encodeCursor (so_offset src)), src) else commitLocked changes sourceTime src
  end.

(** ** Subscribing *)
Definition flush (chunk : list Mutation) : list Frame := match chunk with [] => [] | _ => [SnapshotChunkFrame chunk] end.
Fixpoint chunk_frames (chunkBudget : Z) (values : list (string * string)) (chunk : list Mutation) (chunkBytes : Z) : list Frame :=
  match values with
  | [] => flush chunk
  | (key, value) :: values =>
      let size := slen key + slen value in
      if negb (zlen chunk =? 0) && (chunkBudget <? chunkBytes + size)
      then flush chunk ++ chunk_frames chunkBudget values [Upsert key value] size
      else chunk_frames chunkBudget values (chunk ++ [Upsert key value]) (chunkBytes + size)
  end.

(** The rows in key order. *)
Definition sorted_rows (values : rows) : list (string * string) :=
  (λ key, (key, default "" (values !! key))) <$> sort_strings (elements (dom values)).

Definition snapshotFramesLocked (src : Source) : list Frame :=
  SnapshotBeginFrame (so_schema src) :: chunk_frames (so_chunkBudget src) (sorted_rows (so_rows src)) [] 0 ++
  [SnapshotEndFrame (encodeCursor (so_offset src)) (so_sourceTime src)].

Definition retentionFloorLocked (src : Source) : Z :=
  match so_log src with [] => so_offset src | entry :: _ => le_offset entry - 1 end.

Definition replay_frames (log : list logEntry) (after : Z) : list Frame :=
  (λ entry, DeltaFrame (le_batch entry)) <$> filter (λ entry, after < le_offset entry) log.

Definition add_session (s : session) (subscribed : bool) (src : Source) : nat * Source :=
  let id := length (so_sessions src) in
  (id, with_sessions (if subscribed then {[ id ]} ∪ so_subscribers src else so_subscribers src) (so_sessions src ++ [s]) src).

Definition nil_context (ctx : context perror) : bool := match ctx with NilContext => true | Context _ => false end.
Definition validateContext (nil : perror) (ctx : context perror) : option perror :=
  match ctx with NilContext => Some nil | Context cause => cause end.

Definition Open (ctx : context perror) (request : SubscribeRequest) (src : Source) : result perror nat * Source :=
  match validateContext ErrInvalidOption ctx with
  | Some err => (Err err, src)
  | None =>
      match SubscribeRequest_Validate request with
      | Some err => (Err err, src)
      | None =>
          match Accepts (sr_Schema request) (so_schema src) with
          | Some err => (Err err, src)
          | None =>
              if so_closed src then (Err ErrSourceClosed, src)
              else if so_offset src =? 0 then (Err ErrNotSeeded, src)
              else if sr_ForceSnapshot request then
                let '(id, src) := add_session (newSession (snapshotFramesLocked src) (so_offset src)) true src in (Ok id, src)
              else match decodeCursor (sr_After request) with
              | Err _ => (Err ErrInvalidOwnerCursor, src)
              | Ok after =>
                  if so_offset src <? after then (Err ErrInvalidOwnerCursor, src)
                  else
                    let floor := retentionFloorLocked src in
                    if after <? floor then
                      let '(id, src) := add_session (newSession [GapFrame (sr_After request) (encodeCursor floor)] after) false src in
                      (Ok id, src)
                    else
                      let '(id, src) := add_session (newSession (replay_frames (so_log src) after) after) true src in (Ok id, src)
              end
          end
      end
  end.

Definition Cursor (src : Source) : string := encodeCursor (so_offset src).
Definition SubscriberCount (src : Source) : Z := Z.of_nat (size (so_subscribers src)).

Definition Close (src : Source) : Source :=
  if so_closed src then src
  else
    mkSource (so_schema src) (so_retention src) (so_chunkBudget src) (so_queueBudget src) (so_rows src) (so_offset src)
      (so_sourceTime src) (so_log src) ∅ true
      (imap (λ i s, if bool_decide (i ∈ so_subscribers src) then terminate ErrSourceClosed s else s) (so_sessions src)).

(** ** Administration *)
Definition DefaultShard : string := "default".
Definition maxShardIDBytes : Z := 128.
Definition maxCompactEntries : Z := 100000.
Definition ShardID_Validate (id : string) : bool := validIdentity id maxShardIDBytes.

Record CompactRequest := mkCompactRequest { cq_Shard : string; cq_Before : string; cq_MaxEntries : Z }.
Definition CompactRequest_Validate (r : CompactRequest) : bool :=
  negb (negb (ShardID_Validate (cq_Shard r)) || bool_decide (Cursor_Validate (cq_Before r) ≠ None) ||
        (cq_MaxEntries r <=? 0) || (maxCompactEntries <? cq_MaxEntries r)).
Record CompactResult := mkCompactResult {
  cx_Shard : string; cx_PreviousFloor : string; cx_Floor : string; cx_Protected : string; cx_DeletedEntries : Z
}.
Record ForcedSnapshot := mkForcedSnapshot {
  fs_Shard : string; fs_Head : string; fs_Floor : string; fs_Protected : string; fs_Generation : Z
}.
Record ShardStats := mkShardStats {
  ss_Projection : string; ss_Shard : string;
  ss_Rows : Z; ss_RowBytes : Z; ss_LogBytes : Z;
  ss_Head : string; ss_Floor : string; ss_Protected : string;
  ss_HeadOffset : Z; ss_FloorOffset : Z; ss_ProtectedOffset : Z;
  ss_Generation : Z; ss_ActiveSubscribers : Z
}.
Definition ShardStats_Validate (stats : ShardStats) : option perror :=
  if bool_decide (ProjectionID_Validate (ss_Projection stats) ≠ None) || negb (ShardID_Validate (ss_Shard stats)) ||
     bool_decide (Cursor_Validate (ss_Head stats) ≠ None) || bool_decide (Cursor_Validate (ss_Floor stats) ≠ None) ||
     bool_decide (Cursor_Validate (ss_Protected stats) ≠ None) || (ss_Generation stats =? 0) ||
     (ss_Floor stats == "") || (ss_Protected stats == "") ||
     (ss_HeadOffset stats <? ss_FloorOffset stats) || (ss_HeadOffset stats <? ss_ProtectedOffset stats)
  then Some ErrInvalidAdmin else None.

Definition protectedOffsetLocked (src : Source) : Z :=
  fold_left (λ protected i, match so_sessions src !! i with
                            | Some s => Z.min protected (se_protected s)
                            | None => protected
                            end) (elements (so_subscribers src)) (so_offset src).

(** How many leading entries the loop deletes. *)
Fixpoint deletable (log : list logEntry) (maxEntries : nat) (target : Z) : nat :=
  match log, maxEntries with
  | entry :: log, S maxEntries => if le_offset entry <=? target then S (deletable log maxEntries target) else O
  | _, _ => O
  end.

Definition with_log (log : list logEntry) (src : Source) : Source :=
  mkSource (so_schema src) (so_retention src) (so_chunkBudget src) (so_queueBudget src) (so_rows src) (so_offset src)
    (so_sourceTime src) log (so_subscribers src) (so_closed src) (so_sessions src).

Definition ProjectionStats (ctx : context perror) (shard : string) (src : Source) : result perror ShardStats :=
  if nil_context ctx || (shard != DefaultShard) then Err ErrInvalidAdmin
  else match validateContext ErrInvalidAdmin ctx with
  | Some err => Err err
  | None =>
      if so_closed src then Err ErrSourceClosed
      else if so_offset src =? 0 then Err ErrNotSeeded
      else
        let protected := protectedOffsetLocked src in
        Ok (mkShardStats (sc_ID (so_schema src)) shard (Z.of_nat (size (so_rows src)))
              (map_fold (λ key value bytes, u64_add bytes (slen key + slen value)) 0 (so_rows src))
              (fold_left (λ bytes entry, fold_left (λ bytes m, u64_add bytes (mutation_bytes m)) (db_Mutations (le_batch entry)) bytes)
                 (so_log src) 0)
              (encodeCursor (so_offset src)) (encodeCursor (retentionFloorLocked src)) (encodeCursor protected)
              (so_offset src) (retentionFloorLocked src) protected (so_offset src) (Z.of_nat (size (so_subscribers src))))
  end.

Definition CompactProjection (ctx : context perror) (request : CompactRequest) (src : Source) : result perror CompactResult * Source :=
  if nil_context ctx || negb (CompactRequest_Validate request) || (cq_Shard request != DefaultShard)
  then (Err ErrInvalidAdmin, src)
  else match validateContext ErrInvalidAdmin ctx with
  | Some err => (Err err, src)
  | None =>
      match decodeCursor (cq_Before request) with
      | Err _ => (Err ErrInvalidAdmin, src)
      | Ok target =>
          if so_closed src then (Err ErrSourceClosed, src)
          else if so_offset src =? 0 then (Err ErrNotSeeded, src)
          else if so_offset src <? target then (Err ErrInvalidAdmin, src)
          else
            let protected := protectedOffsetLocked src in
            let target := if protected <? target then protected else target in
            let deleted := deletable (so_log src) (Z.to_nat (cq_MaxEntries request)) target in
            let src' := with_log (drop deleted (so_log src)) src in
            (Ok (mkCompactResult (cq_Shard request) (encodeCursor (retentionFloorLocked src))
                   (encodeCursor (retentionFloorLocked src')) (encodeCursor protected) (Z.of_nat deleted)), src')
      end
  end.

(** Statistics, then a compaction up to their head.  The two lock separately; what others do in
    between is a step between the two. *)
Definition ForceProjectionSnapshot (ctx : context perror) (shard : string) (src : Source) : result perror ForcedSnapshot * Source :=
  match ProjectionStats ctx shard src with
  | Err err => (Err err, src)
  | Ok stats =>
      match CompactProjection ctx (mkCompactRequest shard (ss_Head stats) 100000) src with
      | (Err err, src) => (Err err, src)
      | (Ok r, src) => (Ok (mkForcedSnapshot shard (ss_Head stats) (cx_Floor r) (cx_Protected r) (ss_Generation stats)), src)
      end
  end.

(** * Cursors *)
Lemma fixed_graphic n x : Forall (λ b, graphic b = true) (fixed n x).
Proof.
  destruct (fixed_spec n x) as (Hd & _). eapply Forall_impl; [done|]. intros b Hb.
  unfold is_digit, in_range in Hb. unfold graphic, in_range. lia.
Qed.

Lemma fixed_range n x : Forall (λ b, 0 ≤ b < 256) (fixed n x).
Proof.
  destruct (fixed_spec n x) as (Hd & _). eapply Forall_impl; [done|]. intros b Hb.
  unfold is_digit, in_range in Hb. lia.
Qed.

Lemma bytes_of_encodeCursor o : bytes_of (encodeCursor o) = bytes_of cursorPrefix ++ fixed cursorDigits o.
Proof. unfold encodeCursor. by rewrite bytes_of_app, bytes_of_string_of_bytes by apply fixed_range. Qed.

Lemma slen_encodeCursor o : slen (encodeCursor o) = 27.
Proof.
  unfold slen. rewrite <- length_bytes_of, bytes_of_encodeCursor, length_app. by destruct (fixed_spec cursorDigits o) as (_ & -> & _).
Qed.

Lemma encodeCursor_nonempty o : encodeCursor o ≠ "".
Proof. intros H%(f_equal slen). by rewrite slen_encodeCursor in H. Qed.

Lemma Cursor_Validate_encode o : Cursor_Validate (encodeCursor o) = None.
Proof.
  apply Cursor_Validate_spec, valid_text_graphic.
  - apply encodeCursor_nonempty.
  - rewrite slen_encodeCursor. unfold maxCursorBytes. lia.
  - rewrite bytes_of_encodeCursor. apply Forall_app. split; [|apply fixed_graphic]. by repeat constructor.
Qed.

Lemma decodeCursor_Ok c o : decodeCursor c = Ok o → c = encodeCursor o ∧ is_u64 o.
Proof.
  unfold decodeCursor. destruct (_ || _); [done|]. destruct (ParseUint _ _) as [x|] eqn:Hp; [|done].
  case_bool_decide as Hc; cbn; [|done]. intros [= ->]. split; [done|]. unfold ParseUint in Hp.
  destruct (drop _ _) as [|b l] eqn:Hd; [done|]. destruct (forallb is_digit (b :: l)) eqn:Hf; [|done].
  cbn [andb] in Hp. destruct (Z.leb_spec (digits_value (b :: l)) max_u64); [|done]. injection Hp as <-.
  assert (Hds : Forall (λ b, is_digit b = true) (b :: l)).
  { apply Forall_forall. intros x Hx%list_elem_of_In. by apply (proj1 (forallb_forall _ _) Hf). }
  pose proof (digits_value_bound _ Hds). unfold is_u64. lia.
Qed.

Lemma u64_digits o : is_u64 o → 0 ≤ o < 10 ^ Z.of_nat cursorDigits.
Proof. unfold is_u64, max_u64, cursorDigits. cbn. lia. Qed.

Lemma decodeCursor_encode o : is_u64 o → decodeCursor (encodeCursor o) = Ok o.
Proof.
  intros Ho. pose proof (u64_digits _ Ho) as Hd. unfold decodeCursor. rewrite slen_encodeCursor.
  change (27 =? slen cursorPrefix + Z.of_nat cursorDigits) with true.
  assert (Hpre : HasPrefix (encodeCursor o) cursorPrefix = true).
  { done. }
  rewrite Hpre, bytes_of_encodeCursor. cbn [negb orb].
  change (String.length cursorPrefix) with (length (bytes_of cursorPrefix)). rewrite drop_app_length. destruct (fixed_spec cursorDigits o) as (Hf & Hl & Hv).
  unfold ParseUint. destruct (fixed cursorDigits o) as [|b l] eqn:E; [done|].
  assert (Hall : forallb is_digit (b :: l) = true).
  { apply forallb_forall. intros x Hx%list_elem_of_In. by apply (proj1 (Forall_forall _ _) Hf). }
  rewrite Hall, Hv by done. rewrite (proj2 (Z.leb_le _ _)) by apply Ho. cbn [andb]. by rewrite bool_decide_true.
Qed.

Lemma encodeCursor_inj o o' : is_u64 o → is_u64 o' → encodeCursor o = encodeCursor o' → o = o'.
Proof. intros H H' Heq. apply (f_equal decodeCursor) in Heq. rewrite !decodeCursor_encode in Heq by done. by injection Heq. Qed.

(** * The difference of two tables *)
Lemma apply_mutations_app m l l' : apply_mutations m (l ++ l') = apply_mutations (apply_mutations m l) l'.
Proof. unfold apply_mutations. apply fold_left_app. Qed.

Lemma diff_key_lookup c d k m j : m !! k = c !! k →
  apply_mutations m (diff_key c d k) !! j = if decide (j = k) then d !! k else m !! j.
Proof.
  intros Hm. unfold diff_key. destruct (decide (j = k)) as [->|Hne].
  - destruct (c !! k) as [x|] eqn:Hc, (d !! k) as [y|] eqn:Hd; cbn.
    + case_bool_decide; cbn; [congruence|]. apply lookup_insert_eq.
    + apply lookup_delete_eq.
    + apply lookup_insert_eq.
    + done.
  - destruct (c !! k), (d !! k); cbn; try case_bool_decide; cbn; try done;
      rewrite ?lookup_insert_ne, ?lookup_delete_ne by done; done.
Qed.

Lemma diff_keys_lookup c d ks m j : NoDup ks → (∀ k, k ∈ ks → m !! k = c !! k) →
  apply_mutations m (flat_map (diff_key c d) ks) !! j = if decide (j ∈ ks) then d !! j else m !! j.
Proof.
  intros Hnd. revert m. induction Hnd as [|k ks Hk _ IH]; intros m Hm; cbn [flat_map]; [done|].
  rewrite apply_mutations_app, IH.
  - rewrite diff_key_lookup by set_solver. destruct (decide (j ∈ ks)); [by rewrite decide_True by set_solver|].
    destruct (decide (j = k)) as [->|]; [by rewrite decide_True by set_solver|by rewrite decide_False by set_solver].
  - intros k' Hk'. rewrite diff_key_lookup by set_solver. rewrite decide_False by set_solver. set_solver.
Qed.

(** The difference leads from the one to the other. *)
Lemma diffRows_apply c d : apply_mutations c (diffRows c d) = d.
Proof.
  apply map_eq. intros j. unfold diffRows. rewrite diff_keys_lookup; [|by apply NoDup_sort_strings, NoDup_elements|done].
  destruct (decide _) as [|Hn]; [done|]. rewrite elem_of_sort_strings, elem_of_elements, elem_of_union, !elem_of_dom in Hn.
  destruct (c !! j) eqn:Hc, (d !! j) eqn:Hd; try done; exfalso; apply Hn; eauto.
Qed.

(** * Snapshots *)
Definition upserts (values : list (string * string)) : list Mutation := (λ p, Upsert p.1 p.2) <$> values.

Lemma chunk_frames_spec budget values chunk bytes : ∃ chunks,
  chunk_frames budget values chunk bytes = SnapshotChunkFrame <$> chunks ∧ Forall (λ ms, ms ≠ []) chunks ∧
  concat chunks = chunk ++ upserts values.
Proof.
  assert (Hflush : ∀ c, ∃ chunks, flush c = SnapshotChunkFrame <$> chunks ∧ Forall (λ ms, ms ≠ []) chunks ∧ concat chunks = c).
  { intros [|m c]; [by exists []|]. exists [m :: c]. cbn. rewrite app_nil_r. split; [done|]. split; [by repeat constructor|done]. }
  revert chunk bytes. induction values as [|[k v] values IH]; intros chunk bytes; cbn [chunk_frames].
  - destruct (Hflush chunk) as (cs & -> & Hne & Hc). exists cs. rewrite Hc. cbn. by rewrite app_nil_r.
  - destruct (_ && _).
    + destruct (Hflush chunk) as (cs & -> & Hne & Hc). destruct (IH [Upsert k v] (slen k + slen v)) as (cs' & -> & Hne' & Hc').
      exists (cs ++ cs'). rewrite fmap_app, concat_app, Hc, Hc'. split; [done|]. split; [by apply Forall_app|done].
    + destruct (IH (chunk ++ [Upsert k v]) (bytes + (slen k + slen v))) as (cs & -> & Hne & Hc).
      exists cs. split; [done|]. split; [done|]. rewrite Hc. by rewrite <- app_assoc.
Qed.

Lemma upserts_lookup ks (r m : rows) j : (∀ k, k ∈ ks → is_Some (r !! k)) →
  apply_mutations m (upserts ((λ key, (key, default "" (r !! key))) <$> ks)) !! j = if decide (j ∈ ks) then r !! j else m !! j.
Proof.
  revert m. induction ks as [|k ks IH]; intros m Hk; [done|].
  change (apply_mutations (<[k := default "" (r !! k)]> m) (upserts ((λ key, (key, default "" (r !! key))) <$> ks)) !! j =
    if decide (j ∈ k :: ks) then r !! j else m !! j).
  rewrite IH by set_solver. destruct (decide (j ∈ ks)); [by rewrite decide_True by set_solver|].
  destruct (decide (j = k)) as [->|].
  - rewrite lookup_insert_eq, decide_True by set_solver. destruct (Hk k ltac:(set_solver)) as [x ->]. done.
  - rewrite lookup_insert_ne, decide_False by set_solver. done.
Qed.

Lemma sorted_rows_apply r : apply_mutations ∅ (upserts (sorted_rows r)) = r.
Proof.
  apply map_eq. intros j. unfold sorted_rows. rewrite upserts_lookup.
  - destruct (decide _) as [|Hn]; [done|]. rewrite elem_of_sort_strings, elem_of_elements, not_elem_of_dom in Hn.
    by rewrite Hn, lookup_empty.
  - intros k. rewrite elem_of_sort_strings, elem_of_elements. apply elem_of_dom.
Qed.

Lemma sorted_rows_elem r k v : (k, v) ∈ sorted_rows r → r !! k = Some v.
Proof.
  unfold sorted_rows. intros (k' & [= -> ->] & Hk)%list_elem_of_fmap.
  rewrite elem_of_sort_strings, elem_of_elements in Hk. apply elem_of_dom in Hk as [x Hx]. by rewrite Hx.
Qed.
