(* ===== verification/ProjOwnerSpec.v ===== *)
(** * programmable/projection/ownermemory: correctness of the owner

    The owner as a system: any interleaving of its operations with those of its sessions, the
    versions it went through, and the frames each session has yielded.  The theorems: every session
    tells the owner's history in the sense of [ProjStream], a session that has nothing to give has
    told all of it, queues and log stay within their budgets, and compaction keeps what active
    subscribers may resume from. *)
From S2P Require Import Prelude GoText GoTime Projection ProjStore ProjStream ProjOwner.
Open Scope Z_scope.

Definition current (src : Source) : version := mkVersion (Cursor src) (so_rows src) (so_sourceTime src).

(** The owner, the versions it had, and for each session where its reader started and what it got. *)
Record sys := mkSys { sy_src : Source; sy_hist : list version; sy_seen : list (phase * list Frame) }.

Inductive op :=
| OpSeed (ms : list Mutation) (t : time)
| OpReplace (ms : list Mutation) (t : time)
| OpCommit (ms : list Mutation) (t : time)
| OpOpen (ctx : context perror) (request : SubscribeRequest)
| OpNext (ctx : context perror) (prefer : bool) (id : nat)
| OpCloseSession (id : nat)
| OpClose
| OpCompact (ctx : context perror) (request : CompactRequest)
| OpForceSnapshot (ctx : context perror) (shard : string).

Definition start_phase (request : SubscribeRequest) : phase :=
  if sr_ForceSnapshot request then Fresh
  else match decodeCursor (sr_After request) with Ok after => Following (Z.to_nat after) | Err _ => Fresh end.

Definition advance (s : sys) (src : Source) : sys :=
  mkSys src (if so_offset src =? so_offset (sy_src s) then sy_hist s else sy_hist s ++ [current src]) (sy_seen s).
Definition got (f : Frame) (seen : phase * list Frame) : phase * list Frame := (seen.1, seen.2 ++ [f]).

Definition step (s : sys) (o : op) : sys :=
  match o with
  | OpSeed ms t => advance s (Seed ms t (sy_src s)).2
  | OpReplace ms t => advance s (Replace ms t (sy_src s)).2
  | OpCommit ms t => advance s (Commit ms t (sy_src s)).2
  | OpOpen ctx request =>
      match Open ctx request (sy_src s) with
      | (Ok _, src) => mkSys src (sy_hist s) (sy_seen s ++ [(start_phase request, [])])
      | (Err _, src) => advance s src
      end
  | OpNext ctx prefer id =>
      match Next ctx prefer id (sy_src s) with
      | (Ready f, src) => mkSys src (sy_hist s) (alter (got f) id (sy_seen s))
      | (_, src) => advance s src
      end
  | OpCloseSession id => advance s (session_Close id (sy_src s))
  | OpClose => advance s (Close (sy_src s))
  | OpCompact ctx request => advance s (CompactProjection ctx request (sy_src s)).2
  | OpForceSnapshot ctx shard => advance s (ForceProjectionSnapshot ctx shard (sy_src s)).2
  end.
Definition steps (s : sys) (ops : list op) : sys := fold_left step ops s.
Definition start (src : Source) : sys := mkSys src [current src] [].

(** ** The invariant *)
Definition fits (budget : Z) (m : Mutation) : Prop :=
  Mutation_Validate m = None ∧ (mu_kind m = MutationUpsert → mutation_bytes m ≤ budget).
Definition rows_ok (budget : Z) (r : rows) : Prop := map_Forall (λ k v, fits budget (Upsert k v)) r.

Fixpoint log_at (schema : Schema) (hist : list version) (n : nat) (log : list logEntry) : Prop :=
  match log with
  | [] => True
  | e :: log => le_offset e = Z.of_nat (S n) ∧ delta_at schema hist n (le_batch e) ∧ log_at schema hist (S n) log
  end.

(** The frames a session has still to give. *)
Definition pending (s : session) : list Frame := drop (se_index s) (se_initial s) ++ se_live s.

(** The errors a session ends with. *)
Definition session_error (e : option perror) : Prop :=
  e = None ∨ e = Some ErrSessionClosed ∨ e = Some ErrSlowSubscriber ∨ e = Some ErrSourceClosed.

Definition sess_ok (src : Source) (hist : list version) (id : nat) (s : session) (seen : phase * list Frame) : Prop :=
  (zlen (se_live s) ≤ so_queueBudget src ∧ session_error (se_runErr s)) ∧
  ∃ p, tell_all (so_schema src) (so_chunkBudget src) hist seen.1 seen.2 p ∧
    if se_done s then id ∉ so_subscribers src
    else ∃ q, tell_all (so_schema src) (so_chunkBudget src) hist p (pending s) q ∧
         q = if decide (id ∈ so_subscribers src) then Following (pred (length hist)) else Gapped.

Record sys_ok (s : sys) : Prop := {
  ok_schema : Schema_Validate (so_schema (sy_src s)) = None;
  ok_retention : 0 < so_retention (sy_src s);
  ok_queue : 0 < so_queueBudget (sy_src s);
  ok_offset : 0 ≤ so_offset (sy_src s) ≤ max_u64;
  ok_length : length (sy_hist s) = S (Z.to_nat (so_offset (sy_src s)));
  ok_cursors : ∀ i v, sy_hist s !! i = Some v → ve_cursor v = encodeCursor (Z.of_nat i);
  ok_current : sy_hist s !! Z.to_nat (so_offset (sy_src s)) = Some (current (sy_src s));
  ok_time : so_offset (sy_src s) ≠ 0 → so_sourceTime (sy_src s) ≠ 0;
  ok_rows : rows_ok (so_chunkBudget (sy_src s)) (so_rows (sy_src s));
  ok_log : ∃ floor, length (sy_hist s) = S (floor + length (so_log (sy_src s))) ∧
             log_at (so_schema (sy_src s)) (sy_hist s) floor (so_log (sy_src s));
  ok_log_len : zlen (so_log (sy_src s)) ≤ so_retention (sy_src s);
  ok_seen : length (sy_seen s) = length (so_sessions (sy_src s));
  ok_subs : ∀ id, id ∈ so_subscribers (sy_src s) → (id < length (so_sessions (sy_src s)))%nat;
  ok_sessions : ∀ id se sn, so_sessions (sy_src s) !! id = Some se → sy_seen s !! id = Some sn →
                  sess_ok (sy_src s) (sy_hist s) id se sn
}.

(** ** Tables *)
Lemma fits_valid b ms : Forall (fits b) ms → Forall (λ m, Mutation_Validate m = None) ms.
Proof. intros H. eapply Forall_impl; [done|]. by intros m []. Qed.

Lemma rows_ok_mutation b r m : rows_ok b r → fits b m → rows_ok b (apply_mutation r m).
Proof.
  intros Hr Hm. unfold apply_mutation. destruct (mu_kind m) eqn:Hk; [|by apply map_Forall_delete|done].
  apply map_Forall_insert_2; [|done]. destruct m as [k key v]. cbn in *. by subst.
Qed.
Lemma rows_ok_mutations b r ms : rows_ok b r → Forall (fits b) ms → rows_ok b (apply_mutations r ms).
Proof. intros Hr Hms. revert r Hr. induction Hms; intros r Hr; cbn; [done|]. apply IHHms. by apply rows_ok_mutation. Qed.
Lemma rows_ok_empty b : rows_ok b ∅.
Proof. apply map_Forall_empty. Qed.

Lemma check_mutations_fits b ms : check_mutations b ms = None → Forall (fits b) ms.
Proof.
  induction ms as [|m ms IH]; cbn; [done|]. destruct (Mutation_Validate m) eqn:Hv; [done|].
  destruct (_ && _) eqn:Hb; [done|]. intros H. constructor; [|auto]. split; [done|]. intros Hk.
  rewrite bool_decide_true in Hb by done. cbn in Hb. apply Z.ltb_ge in Hb. done.
Qed.

Lemma validateMutations_fits src ms : validateMutations src ms = None → Forall (fits (so_chunkBudget src)) ms.
Proof. unfold validateMutations. destruct (_ =? 0); [done|]. apply check_mutations_fits. Qed.

Lemma diff_key_fits b c d k : rows_ok b c → rows_ok b d → Forall (fits b) (diff_key c d k).
Proof.
  intros Hc Hd. unfold diff_key. destruct (c !! k) as [x|] eqn:Ec, (d !! k) as [y|] eqn:Ed; [..|done].
  - case_bool_decide; [done|]. constructor; [|done]. by apply (Hd k).
  - constructor; [|done]. destruct (Hc k _ Ec) as [Hv _]. split; [|done]. unfold Mutation_Validate in *. cbn in *. by destruct (_ || _).
  - constructor; [|done]. by apply (Hd k).
Qed.
Lemma diffRows_fits b c d : rows_ok b c → rows_ok b d → Forall (fits b) (diffRows c d).
Proof.
  intros Hc Hd. unfold diffRows. induction (sort_strings _) as [|k ks IH]; cbn; [done|]. apply Forall_app.
  split; [by apply diff_key_fits|done].
Qed.

(** ** The log *)
Lemma log_at_mono schema hist hist' n log : hist `prefix_of` hist' → log_at schema hist n log → log_at schema hist' n log.
Proof. intros Hp. revert n. induction log; cbn; [done|]. intros n (? & ? & ?). eauto using delta_at_mono. Qed.

Lemma log_at_app schema hist n log log' :
  log_at schema hist n (log ++ log') ↔ log_at schema hist n log ∧ log_at schema hist (n + length log) log'.
Proof.
  revert n. induction log as [|e log IH]; intros n; cbn; [rewrite Nat.add_0_r; tauto|].
  rewrite IH, Nat.add_succ_r. cbn. tauto.
Qed.

Lemma log_at_drop schema hist n log k : (k ≤ length log)%nat → log_at schema hist n log → log_at schema hist (n + k) (drop k log).
Proof.
  intros Hk H. rewrite <- (take_drop k log) in H. apply log_at_app in H as [_ H]. by rewrite length_take_le in H.
Qed.

Lemma log_at_offsets schema hist n log e : log_at schema hist n log → e ∈ log → Z.of_nat n < le_offset e.
Proof.
  revert n. induction log as [|e' log IH]; intros n; cbn; [by intros _ ?%not_elem_of_nil|].
  intros (He & _ & H) [->|Hin]%elem_of_cons; [lia|]. pose proof (IH _ H Hin). lia.
Qed.

Lemma replay_drop schema hist n log (after : nat) : log_at schema hist n log → (n ≤ after)%nat →
  replay_frames log (Z.of_nat after) = (DeltaFrame ∘ le_batch) <$> drop (after - n) log.
Proof.
  unfold replay_frames. revert n. induction log as [|e log IH]; intros n H Hn; [by rewrite drop_nil|].
  destruct (decide (n = after)) as [->|].
  - rewrite Nat.sub_diag, drop_0. rewrite list_filter_all; [done|]. intros e'. by apply (log_at_offsets schema hist).
  - destruct H as (He & _ & H). rewrite filter_cons_False by lia. rewrite (IH (S n)) by (done || lia).
    by replace (after - n)%nat with (S (after - S n)) by lia.
Qed.

Lemma log_tells schema budget hist n log : log_at schema hist n log →
  tell_all schema budget hist (Following n) ((DeltaFrame ∘ le_batch) <$> log) (Following (n + length log)).
Proof.
  revert n. induction log as [|e log IH]; intros n; cbn; [rewrite Nat.add_0_r; constructor|].
  intros (_ & Hd & H). eapply tell_cons; [by apply tells_delta|]. rewrite Nat.add_succ_r. by apply (IH (S n)).
Qed.

(** ** Snapshots *)
Lemma chunks_budget b values chunk bytes :
  Forall (λ p, fits b (Upsert p.1 p.2)) values → Forall is_upsert chunk →
  bytes = list_sum_Z (mutation_bytes <$> chunk) → (chunk ≠ [] → bytes ≤ b) →
  Forall (λ f, ∃ ms, f = SnapshotChunkFrame ms ∧ ms ≠ [] ∧ Forall is_upsert ms ∧ list_sum_Z (mutation_bytes <$> ms) ≤ b)
    (chunk_frames b values chunk bytes).
Proof.
  assert (Hflush : ∀ c, Forall is_upsert c → (c ≠ [] → list_sum_Z (mutation_bytes <$> c) ≤ b) →
    Forall (λ f, ∃ ms, f = SnapshotChunkFrame ms ∧ ms ≠ [] ∧ Forall is_upsert ms ∧ list_sum_Z (mutation_bytes <$> ms) ≤ b) (flush c)).
  { intros [|m c] Hc Hb; [constructor|]. repeat constructor. eexists. split_and!; try done. by apply Hb. }
  intros Hv. revert chunk bytes. induction Hv as [|[k v] values Hkv _ IH]; intros chunk bytes Hc -> Hb; [by apply Hflush|].
  assert (Hup : is_upsert (Upsert k v)) by (by destruct Hkv).
  assert (Hsz : slen k + slen v ≤ b) by (by apply Hkv).
  cbn [chunk_frames]. destruct (_ && _) eqn:Hfull.
  - apply Forall_app. split; [by apply Hflush|]. apply IH; [by apply Forall_singleton| |done].
    cbn. unfold mutation_bytes. cbn. lia.
  - apply IH; [apply Forall_app; split; [done|by apply Forall_singleton]|..].
    + rewrite fmap_app. unfold list_sum_Z. rewrite foldr_app. cbn. unfold mutation_bytes at 2. cbn.
      clear. induction (mutation_bytes <$> chunk) as [|x l IHl]; cbn; lia.
    + intros _. destruct chunk as [|m c]; [cbn; lia|]. unfold zlen in Hfull. cbn [length] in Hfull.
      destruct (Z.eqb_spec (Z.of_nat (S (length c))) 0); [lia|]. cbn [negb andb] in Hfull. by apply Z.ltb_ge in Hfull.
Qed.

Lemma chunks_tell schema budget hist v fs :
  Forall (λ f, ∃ ms, f = SnapshotChunkFrame ms ∧ ms ≠ [] ∧ Forall is_upsert ms ∧ list_sum_Z (mutation_bytes <$> ms) ≤ budget) fs →
  ∀ chunks, fs = SnapshotChunkFrame <$> chunks →
  tell_all schema budget hist (Staging v) fs (Staging (apply_mutations v (concat chunks))).
Proof.
  intros H. revert v. induction H as [|f fs (ms & -> & Hne & Hu & Hb) _ IH]; intros v [|c cs]; try done; [constructor|].
  intros [= -> ->]. cbn [concat]. eapply tell_cons; [by apply tells_chunk|]. rewrite apply_mutations_app. by apply IH.
Qed.

Lemma snapshot_tells src hist : rows_ok (so_chunkBudget src) (so_rows src) → so_sourceTime src ≠ 0 →
  hist !! Z.to_nat (so_offset src) = Some (current src) →
  tell_all (so_schema src) (so_chunkBudget src) hist Fresh (snapshotFramesLocked src) (Following (Z.to_nat (so_offset src))).
Proof.
  intros Hr Ht Hc. unfold snapshotFramesLocked. eapply tell_cons; [apply tells_begin|].
  destruct (chunk_frames_spec (so_chunkBudget src) (sorted_rows (so_rows src)) [] 0) as (cs & Hcs & _ & Hcat).
  eapply tell_all_snoc.
  - eapply chunks_tell; [|done]. apply chunks_budget; [|done..]. apply Forall_forall. intros [k v] Hkv%sorted_rows_elem.
    by apply Hr.
  - rewrite Hcat. cbn [app]. rewrite sorted_rows_apply. apply (tells_end _ _ _ _ _ (current src)); try done.
    apply Cursor_Validate_encode.
Qed.

(** ** Steps that touch sessions only *)
Lemma sys_ok_sessions s subs sess seen : sys_ok s → length seen = length sess →
  (∀ id, id ∈ subs → (id < length sess)%nat) →
  (∀ id se sn, sess !! id = Some se → seen !! id = Some sn → sess_ok (with_sessions subs sess (sy_src s)) (sy_hist s) id se sn) →
  sys_ok (mkSys (with_sessions subs sess (sy_src s)) (sy_hist s) seen).
Proof. intros [] ???. by constructor. Qed.

Lemma sys_ok_log s log : sys_ok s → (∃ k, log = drop k (so_log (sy_src s)) ∧ (k ≤ length (so_log (sy_src s)))%nat) →
  sys_ok (mkSys (with_log log (sy_src s)) (sy_hist s) (sy_seen s)).
Proof.
  intros [] (k & -> & Hk). constructor; try done; cbn.
  - destruct ok_log0 as (n & Hn & Hl). exists (n + k)%nat. rewrite length_drop. split; [lia|by apply log_at_drop].
  - unfold zlen in *. rewrite length_drop. lia.
Qed.

Lemma advance_same s : advance s (sy_src s) = s.
Proof. unfold advance. rewrite Z.eqb_refl. by destruct s. Qed.

Lemma advance_still s src : so_offset src = so_offset (sy_src s) → advance s src = mkSys src (sy_hist s) (sy_seen s).
Proof. intros H. unfold advance. by rewrite H, Z.eqb_refl. Qed.

(** Any session keeps what it told when the subscribers shrink and it is either terminated or kept. *)
Lemma sess_ok_terminate src hist id se sn subs sess err : sess_ok src hist id se sn → id ∉ subs → session_error (Some err) →
  sess_ok (with_sessions subs sess src) hist id (terminate err se) sn.
Proof.
  intros ([Hlen He] & p & Hp & Hq) Hid Herr. unfold terminate. destruct (se_done se) eqn:Hd.
  - split; [done|]. exists p. split; [done|]. by rewrite Hd.
  - split; [done|]. by exists p.
Qed.

Lemma sess_ok_keep src hist id se sn subs sess : sess_ok src hist id se sn → (id ∈ subs ↔ id ∈ so_subscribers src) →
  sess_ok (with_sessions subs sess src) hist id se sn.
Proof.
  intros (Hlen & p & Hp & Hq) Hid. split; [done|]. exists p. split; [done|]. destruct (se_done se); [cbn; tauto|].
  destruct Hq as (q & Hq & ->). eexists. split; [done|]. cbn. by destruct (decide (id ∈ so_subscribers src)), (decide (id ∈ subs)); tauto.
Qed.

Lemma close_session_ok s id : sys_ok s → sys_ok (advance s (session_Close id (sy_src s))).
Proof.
  intros H. rewrite advance_still by done. unfold session_Close. apply sys_ok_sessions; [done|..].
  - rewrite length_alter. apply H.
  - intros i Hi. rewrite length_alter. apply H. set_solver.
  - intros i se sn Hse Hsn. destruct (decide (i = id)) as [->|Hid].
    + rewrite list_lookup_alter_eq in Hse. destruct (so_sessions (sy_src s) !! id) as [se'|] eqn:E; [|done]. injection Hse as <-.
      apply sess_ok_terminate; [by eapply ok_sessions|set_solver|unfold session_error; tauto].
    + rewrite list_lookup_alter_ne in Hse by done. apply sess_ok_keep; [by eapply ok_sessions|set_solver].
Qed.

Lemma close_ok s : sys_ok s → sys_ok (advance s (Close (sy_src s))).
Proof.
  intros H. unfold Close. destruct (so_closed (sy_src s)) eqn:Hc; [by rewrite advance_same|]. rewrite advance_still by done.
  set (sess := imap _ _).
  assert (Hok : sys_ok (mkSys (with_sessions ∅ sess (sy_src s)) (sy_hist s) (sy_seen s))).
  { apply sys_ok_sessions; [done| |set_solver|].
    - unfold sess. rewrite length_imap. apply H.
    - intros i se sn Hse Hsn. unfold sess in Hse. rewrite list_lookup_imap in Hse.
      destruct (so_sessions (sy_src s) !! i) as [se'|] eqn:E; [|done]. cbn in Hse. case_bool_decide as Hi; injection Hse as <-.
      + apply sess_ok_terminate; [by eapply ok_sessions|set_solver|unfold session_error; tauto].
      + apply sess_ok_keep; [by eapply ok_sessions|set_solver]. }
  destruct Hok. by constructor.
Qed.

(** ** Subscribing and reading *)
Lemma start_session_ok src hist id initial protected subscribed p q sess :
  0 ≤ so_queueBudget src → tell_all (so_schema src) (so_chunkBudget src) hist p initial q →
  q = (if subscribed : bool then Following (pred (length hist)) else Gapped) → id ∉ so_subscribers src →
  sess_ok (with_sessions (if subscribed then {[ id ]} ∪ so_subscribers src else so_subscribers src) sess src) hist id
    (newSession initial protected) (p, []).
Proof.
  intros Hq Ht -> Hid. split; [split; [done|by left]|]. exists p. split; [constructor|]. cbn. eexists. split; [|done].
  unfold pending. cbn. rewrite drop_0, app_nil_r.
  destruct subscribed; [rewrite decide_True by set_solver|rewrite decide_False by set_solver]; done.
Qed.

Lemma add_session_ok s initial protected subscribed p q : sys_ok s →
  tell_all (so_schema (sy_src s)) (so_chunkBudget (sy_src s)) (sy_hist s) p initial q →
  q = (if subscribed : bool then Following (pred (length (sy_hist s))) else Gapped) →
  sys_ok (mkSys (add_session (newSession initial protected) subscribed (sy_src s)).2 (sy_hist s) (sy_seen s ++ [(p, [])])).
Proof.
  intros H Ht Hq. pose proof (ok_queue _ H). cbn. assert (Hfresh : length (so_sessions (sy_src s)) ∉ so_subscribers (sy_src s)).
  { intros Hin%(ok_subs _ H). lia. }
  apply sys_ok_sessions; [done|..].
  - rewrite !length_app, (ok_seen _ H). done.
  - intros id Hid. rewrite length_app. cbn. pose proof (ok_subs _ H id). destruct subscribed; [|specialize (H1 Hid); lia].
    rewrite elem_of_union, elem_of_singleton in Hid. destruct Hid; [lia|]. specialize (H1 ltac:(done)); lia.
  - intros id se sn Hse Hsn. pose proof (ok_seen _ H) as Hl. apply lookup_app_Some in Hse as [Hse|[Hge Hse]].
    + pose proof (lookup_lt_Some _ _ _ Hse). rewrite lookup_app_l in Hsn by lia. apply sess_ok_keep; [by eapply ok_sessions|].
      destruct subscribed; set_solver by lia.
    + apply list_lookup_singleton_Some in Hse as [Hi <-]. assert (id = length (so_sessions (sy_src s))) as -> by lia.
      rewrite <- Hl, lookup_app_r, Nat.sub_diag in Hsn by lia. injection Hsn as <-.
      eapply start_session_ok; [lia|done..].
Qed.

Lemma floor_of_log s n : sys_ok s → length (sy_hist s) = S (n + length (so_log (sy_src s))) →
  log_at (so_schema (sy_src s)) (sy_hist s) n (so_log (sy_src s)) → retentionFloorLocked (sy_src s) = Z.of_nat n.
Proof.
  intros H Hn Hl. unfold retentionFloorLocked. pose proof (ok_length _ H). pose proof (ok_offset _ H).
  destruct (so_log (sy_src s)) as [|e log]; [cbn in Hn; lia|]. destruct Hl as (He & _). lia.
Qed.

Lemma hist_lookup s (o : Z) : sys_ok s → 0 ≤ o ≤ so_offset (sy_src s) →
  ∃ v, sy_hist s !! Z.to_nat o = Some v ∧ ve_cursor v = encodeCursor o.
Proof.
  intros H Ho. destruct (lookup_lt_is_Some_2 (sy_hist s) (Z.to_nat o)) as [v Hv]; [rewrite (ok_length _ H); lia|].
  exists v. split; [done|]. rewrite (ok_cursors _ H _ _ Hv). f_equal. lia.
Qed.

Lemma open_ok s ctx request : sys_ok s → sys_ok (step s (OpOpen ctx request)).
Proof.
  intros H. cbn [step]. unfold Open. destruct (validateContext _ _); [by rewrite advance_same|].
  destruct (SubscribeRequest_Validate request); [by rewrite advance_same|].
  destruct (Accepts _ _); [by rewrite advance_same|]. destruct (so_closed _); [by rewrite advance_same|].
  destruct (Z.eqb_spec (so_offset (sy_src s)) 0) as [|Hseed]; [by rewrite advance_same|]. unfold start_phase.
  pose proof (ok_length _ H) as Hlen. pose proof (ok_offset _ H) as Hoff.
  assert (Hhead : pred (length (sy_hist s)) = Z.to_nat (so_offset (sy_src s))) by lia.
  destruct (sr_ForceSnapshot request).
  - eapply (add_session_ok _ _ _ true); [done|by apply snapshot_tells; try apply H|by rewrite Hhead].
  - destruct (decodeCursor (sr_After request)) as [after|] eqn:Hd; [|by rewrite advance_same].
    apply decodeCursor_Ok in Hd as [-> Hu]. destruct (Z.ltb_spec (so_offset (sy_src s)) after); [by rewrite advance_same|].
    destruct (ok_log _ H) as (n & Hn & Hl). rewrite (floor_of_log _ _ H Hn Hl). unfold is_u64 in Hu.
    destruct (Z.ltb_spec after (Z.of_nat n)) as [Hlt|Hge].
    + destruct (hist_lookup s after H) as (v & Hv & Ev); [lia|]. destruct (hist_lookup s (Z.of_nat n) H) as (w & Hw & Ew); [lia|].
      eapply (add_session_ok _ _ _ false); [done| |done]. eapply tell_cons; [|constructor].
      rewrite <- Ev, <- Ew. eapply tells_gap; try done; [lia|rewrite Ev; apply Cursor_Validate_encode|rewrite Ew; apply Cursor_Validate_encode].
    + eapply (add_session_ok _ _ _ true); [done| |done]. rewrite <- (Z2Nat.id after) at 2 by lia.
      erewrite replay_drop by (done || lia).
      replace (pred (length (sy_hist s))) with (Z.to_nat after + length (drop (Z.to_nat after - n) (so_log (sy_src s))))%nat
        by (rewrite length_drop; lia).
      apply log_tells. replace (Z.to_nat after) with (n + (Z.to_nat after - n))%nat at 1 by lia. apply log_at_drop; [lia|done].
Qed.

(** A session that gives its next frame. *)
Lemma give_ok s id se sn se' f : sys_ok s → so_sessions (sy_src s) !! id = Some se → sy_seen s !! id = Some sn →
  se_done se = false → se_done se' = false → pending se = f :: pending se' → zlen (se_live se') ≤ zlen (se_live se) →
  se_runErr se' = se_runErr se →
  sys_ok (mkSys (with_sessions (so_subscribers (sy_src s)) (<[id := se']> (so_sessions (sy_src s))) (sy_src s)) (sy_hist s)
    (alter (got f) id (sy_seen s))).
Proof.
  intros H Hse Hsn Hd Hd' Hpe Hlen Herr. apply sys_ok_sessions; [done|..].
  - rewrite length_alter, length_insert. apply H.
  - intros i Hi. rewrite length_insert. by apply H.
  - intros i se1 sn1 Hse1 Hsn1. destruct (decide (i = id)) as [->|Hne].
    + rewrite list_lookup_insert_eq in Hse1 by (by eapply lookup_lt_Some). rewrite list_lookup_alter_eq, Hsn in Hsn1.
      injection Hse1 as <-. injection Hsn1 as <-. destruct (ok_sessions _ H _ _ _ Hse Hsn) as ([Hl He] & p & Hp & Hq).
      rewrite Hd in Hq. destruct Hq as (q & Hq & Eq). rewrite Hpe in Hq. inversion Hq as [|? ? r ? ? Hf Hrest]; subst.
      split; [cbn; rewrite Herr; split; [lia|done]|]. exists r. split; [by eapply tell_all_snoc|]. rewrite Hd'. eexists. by split.
    + rewrite list_lookup_insert_ne in Hse1 by done. rewrite list_lookup_alter_ne in Hsn1 by done.
      apply sess_ok_keep; [by eapply ok_sessions|done].
Qed.

Lemma next_ok s ctx prefer id : sys_ok s → sys_ok (step s (OpNext ctx prefer id)).
Proof.
  intros H. cbn [step]. unfold Next. destruct (so_sessions (sy_src s) !! id) as [se|] eqn:Hse; [|by rewrite advance_same].
  destruct ctx as [|cause]; [by rewrite advance_same|]. destruct (se_done se) eqn:Hd; [by rewrite advance_same|].
  destruct (lookup_lt_is_Some_2 (sy_seen s) id) as [sn Hsn]; [rewrite (ok_seen _ H); by eapply lookup_lt_Some|].
  destruct (se_initial se !! se_index se) as [f|] eqn:Hi.
  - eapply give_ok; try done. unfold pending. cbn. by rewrite (drop_S _ _ _ Hi).
  - assert (Hp : pending se = se_live se).
    { unfold pending. rewrite drop_ge; [done|]. by apply lookup_ge_None. }
    assert (Hgive : ∀ f live, se_live se = f :: live → sys_ok (mkSys (with_sessions (so_subscribers (sy_src s))
      (<[id := mkSession (se_initial se) (se_index se) (se_runErr se) live (se_done se) (se_protected se)]> (so_sessions (sy_src s)))
      (sy_src s)) (sy_hist s) (alter (got f) id (sy_seen s)))).
    { intros f live El. eapply give_ok; try done; [|cbn; rewrite El, zlen_cons; lia]. rewrite Hp, El. unfold pending. cbn.
      rewrite drop_ge; [done|]. by apply lookup_ge_None. }
    destruct (se_live se) as [|f live] eqn:El; [by destruct cause; rewrite advance_same|].
    destruct cause; [destruct prefer; [by rewrite advance_same|]|]; rewrite Hd in Hgive; by apply Hgive.
Qed.

(** ** Committing *)
Definition next_batch (src : Source) (ms : list Mutation) (t : time) : DeltaBatch :=
  mkDeltaBatch (so_schema src) (encodeCursor (so_offset src)) (encodeCursor (so_offset src + 1)) t ms.
Definition retained (retention : Z) (log : list logEntry) : list logEntry :=
  if retention <? zlen log then drop (Z.to_nat (zlen log - retention)) log else log.
Definition committed (src : Source) (ms : list Mutation) (t : time) : Source :=
  mkSource (so_schema src) (so_retention src) (so_chunkBudget src) (so_queueBudget src)
    (apply_mutations (so_rows src) ms) (so_offset src + 1) t
    (retained (so_retention src) (so_log src ++ [mkLogEntry (so_offset src + 1) (next_batch src ms t)]))
    (kept (so_queueBudget src) (so_sessions src) (so_subscribers src)) (so_closed src)
    (deliver (so_queueBudget src) (DeltaFrame (next_batch src ms t)) (so_subscribers src) (so_sessions src)).

Lemma commitLocked_cases ms t src :
  (∃ e, commitLocked ms t src = (Err e, src)) ∨
  (commitLocked ms t src = (Ok (encodeCursor (so_offset src + 1)), committed src ms t) ∧
   t ≠ 0 ∧ so_offset src ≠ max_u64 ∧ DeltaBatch_Validate (next_batch src ms t) = None).
Proof.
  unfold commitLocked, IsZero. destruct (Z.eqb_spec t 0); cbn [orb]; [by eauto|].
  destruct (_ && _); [by eauto|]. destruct (Z.eqb_spec (so_offset src) max_u64); [by eauto|].
  destruct (DeltaBatch_Validate _) eqn:Hv; [by eauto|]. right. by split_and!.
Qed.

Lemma deliver_lookup qb f subs sess i : deliver qb f subs sess !! i =
  (λ s, if bool_decide (i ∈ subs) then if full qb s then terminate ErrSlowSubscriber s else push f s else s) <$> sess !! i.
Proof. unfold deliver. by rewrite list_lookup_imap. Qed.

Lemma committed_session s ms t id se sn v : sys_ok s →
  DeltaBatch_Validate (next_batch (sy_src s) ms t) = None → v = current (committed (sy_src s) ms t) →
  so_sessions (committed (sy_src s) ms t) !! id = Some se → sy_seen s !! id = Some sn →
  delta_at (so_schema (sy_src s)) (sy_hist s ++ [v]) (Z.to_nat (so_offset (sy_src s))) (next_batch (sy_src s) ms t) →
  sess_ok (committed (sy_src s) ms t) (sy_hist s ++ [v]) id se sn.
Proof.
  intros H Hv Ev Hse Hsn Hdelta. cbn [committed so_sessions] in Hse. rewrite deliver_lookup in Hse.
  destruct (so_sessions (sy_src s) !! id) as [se0|] eqn:Hse0; [|done]. cbn in Hse. injection Hse as <-.
  destruct (ok_sessions _ H _ _ _ Hse0 Hsn) as ([Hlen He] & p & Hp & Hq). pose proof (ok_length _ H) as Hl.
  assert (Hpre : sy_hist s `prefix_of` sy_hist s ++ [v]) by (by apply prefix_app_r).
  assert (Hk : id ∈ so_subscribers (committed (sy_src s) ms t) ↔
    id ∈ so_subscribers (sy_src s) ∧ full (so_queueBudget (sy_src s)) se0 = false).
  { cbn. unfold kept. rewrite elem_of_filter, Hse0. destruct (full _ _); cbn; naive_solver. }
  unfold sess_ok. case_bool_decide as Hsub; [destruct (full _ se0) eqn:Hfull|].
  - unfold terminate. destruct (se_done se0) eqn:Hd; (split; [split; [done|unfold session_error in *; cbn; tauto]|]; exists p; split; [by eapply tell_all_mono|]).
    + rewrite Hd. naive_solver.
    + cbn. naive_solver.
  - split; [split; [|done]; unfold full in Hfull; cbn; apply negb_false_iff, Z.ltb_lt in Hfull; rewrite zlen_app; unfold zlen in *; cbn; lia|].
    exists p. split; [by eapply tell_all_mono|]. cbn. destruct (se_done se0); [naive_solver|].
    destruct Hq as (q & Hq & ->). rewrite decide_True in Hq by done. eexists. split; [|done].
    rewrite decide_True by (by apply Hk). unfold pending. cbn. rewrite app_assoc. eapply tell_all_snoc; [by eapply tell_all_mono|].
    rewrite length_app, Nat.add_comm. cbn. rewrite Hl. cbn. by apply tells_delta.
  - split; [done|]. exists p. split; [by eapply tell_all_mono|]. destruct (se_done se0); [naive_solver|].
    destruct Hq as (q & Hq & ->). eexists. split; [by eapply tell_all_mono|]. rewrite !decide_False by naive_solver. done.
Qed.

Lemma retained_drop retention log : 0 < retention →
  ∃ k, retained retention log = drop k log ∧ (k ≤ length log)%nat ∧ zlen (drop k log) ≤ retention.
Proof.
  intros Hr. unfold retained. destruct (Z.ltb_spec retention (zlen log)).
  - eexists. split; [done|]. unfold zlen in *. rewrite length_drop. lia.
  - exists 0%nat. rewrite drop_0. split; [done|]. lia.
Qed.

Lemma committed_log s ms t v : sys_ok s → v = current (committed (sy_src s) ms t) →
  delta_at (so_schema (sy_src s)) (sy_hist s ++ [v]) (Z.to_nat (so_offset (sy_src s))) (next_batch (sy_src s) ms t) →
  ∃ n, length (sy_hist s ++ [v]) = S (n + length (so_log (committed (sy_src s) ms t))) ∧
    log_at (so_schema (sy_src s)) (sy_hist s ++ [v]) n (so_log (committed (sy_src s) ms t)).
Proof.
  intros H Ev Hd. destruct (ok_log _ H) as (n & Hn & Hl). pose proof (ok_length _ H) as Hlen. pose proof (ok_offset _ H).
  destruct (retained_drop (so_retention (sy_src s)) (so_log (sy_src s) ++ [mkLogEntry (so_offset (sy_src s) + 1) (next_batch (sy_src s) ms t)]))
    as (k & Ek & Hk & _); [apply H|]. cbn [committed so_log]. rewrite Ek. exists (n + k)%nat.
  rewrite length_drop, !length_app in *. cbn [length] in *. split; [lia|]. apply log_at_drop; [rewrite length_app; cbn; lia|].
  apply log_at_app. split; [by eapply log_at_mono; [apply prefix_app_r|]|]. cbn.
  replace (n + length (so_log (sy_src s)))%nat with (Z.to_nat (so_offset (sy_src s))) by lia. split; [lia|done].
Qed.

Lemma commit_ok s ms t : sys_ok s → Forall (fits (so_chunkBudget (sy_src s))) ms →
  sys_ok (advance s (commitLocked ms t (sy_src s)).2).
Proof.
  intros H Hfit. destruct (commitLocked_cases ms t (sy_src s)) as [[e ->]|(-> & Ht & Hmax & Hv)]; [cbn; by rewrite advance_same|].
  cbn [snd]. unfold advance. destruct (Z.eqb_spec (so_offset (committed (sy_src s) ms t)) (so_offset (sy_src s))) as [E|_]; [cbn in E; lia|].
  remember (current (committed (sy_src s) ms t)) as v eqn:Ev. pose proof (ok_length _ H) as Hlen. pose proof (ok_offset _ H) as Hoff.
  assert (Hnew : (sy_hist s ++ [v]) !! Z.to_nat (so_offset (sy_src s) + 1) = Some v).
  { rewrite lookup_app_r by lia. replace (_ - _)%nat with 0%nat by lia. done. }
  assert (Hdelta : delta_at (so_schema (sy_src s)) (sy_hist s ++ [v]) (Z.to_nat (so_offset (sy_src s))) (next_batch (sy_src s) ms t)).
  { exists (current (sy_src s)), v. rewrite lookup_app_l by lia. replace (S (Z.to_nat (so_offset (sy_src s)))) with
      (Z.to_nat (so_offset (sy_src s) + 1)) by lia. rewrite Hnew. subst v. split_and!; try done. apply H. }
  constructor; cbn [sy_src sy_hist sy_seen].
  - apply H.
  - apply H.
  - apply H.
  - cbn. lia.
  - rewrite length_app. cbn. lia.
  - intros i w [Hw|[Hge Hw]]%lookup_app_Some; [by apply (ok_cursors _ H)|].
    apply list_lookup_singleton_Some in Hw as [Hi <-]. subst v. cbn. unfold Cursor. cbn. f_equal. lia.
  - rewrite <- Ev. exact Hnew.
  - done.
  - cbn. apply rows_ok_mutations; [apply H|done].
  - by apply committed_log.
  - cbn. destruct (retained_drop (so_retention (sy_src s)) (so_log (sy_src s) ++ [mkLogEntry (so_offset (sy_src s) + 1) (next_batch (sy_src s) ms t)]))
      as (k & -> & _ & Hr); [apply H|done].
  - cbn. unfold deliver. rewrite length_imap. apply H.
  - intros id. cbn. unfold kept, deliver. rewrite elem_of_filter, length_imap. intros [_ Hid]. by apply H.
  - intros id se sn Hse Hsn. by eapply committed_session.
Qed.

Lemma seed_ok s ms t : sys_ok s → sys_ok (step s (OpSeed ms t)).
Proof.
  intros H. cbn [step]. unfold Seed. destruct (validateMutations _ _) eqn:Hv; [by rewrite advance_same|].
  destruct (so_closed _); [by rewrite advance_same|]. destruct (negb _); [by rewrite advance_same|].
  apply commit_ok; [done|by apply validateMutations_fits].
Qed.
Lemma commit_op_ok s ms t : sys_ok s → sys_ok (step s (OpCommit ms t)).
Proof.
  intros H. cbn [step]. unfold Commit. destruct (validateMutations _ _) eqn:Hv; [by rewrite advance_same|].
  destruct (so_closed _); [by rewrite advance_same|]. destruct (_ =? 0); [by rewrite advance_same|].
  apply commit_ok; [done|by apply validateMutations_fits].
Qed.
Lemma replace_ok s ms t : sys_ok s → sys_ok (step s (OpReplace ms t)).
Proof.
  intros H. cbn [step]. unfold Replace. destruct (validateMutations _ _) eqn:Hv; [by rewrite advance_same|].
  apply validateMutations_fits in Hv. destruct (so_closed _); [by rewrite advance_same|].
  destruct (_ =? 0); [by apply commit_ok|]. destruct (_ =? 0); [by rewrite advance_same|]. apply commit_ok; [done|].
  apply diffRows_fits; [apply H|]. apply rows_ok_mutations; [apply rows_ok_empty|done].
Qed.

(** ** Compaction *)
Lemma deletable_le log k target : (deletable log k target ≤ length log)%nat ∧ (deletable log k target ≤ k)%nat.
Proof. revert k. induction log as [|e log IH]; intros [|k]; cbn; try lia. destruct (_ <=? _); [|lia]. pose proof (IH k). lia. Qed.

Lemma compact_cases ctx request src :
  (∃ e, CompactProjection ctx request src = (Err e, src)) ∨
  ∃ k target r, CompactProjection ctx request src = (Ok r, with_log (drop k (so_log src)) src) ∧
    cq_Before request = encodeCursor target ∧ target ≤ so_offset src ∧
    k = deletable (so_log src) (Z.to_nat (cq_MaxEntries request)) (Z.min target (protectedOffsetLocked src)) ∧
    cx_DeletedEntries r = Z.of_nat k ∧ cx_Floor r = encodeCursor (retentionFloorLocked (with_log (drop k (so_log src)) src)).
Proof.
  unfold CompactProjection. destruct (_ || _); [by eauto|]. destruct (validateContext _ _); [by eauto|].
  destruct (decodeCursor (cq_Before request)) as [target|] eqn:Hd; [|by eauto]. apply decodeCursor_Ok in Hd as [Hd _].
  destruct (so_closed src); [by eauto|]. destruct (_ =? 0); [by eauto|].
  destruct (Z.ltb_spec (so_offset src) target); [by eauto|]. right.
  assert (Hmin : (if protectedOffsetLocked src <? target then protectedOffsetLocked src else target) =
    Z.min target (protectedOffsetLocked src)) by (destruct (Z.ltb_spec (protectedOffsetLocked src) target); lia).
  rewrite Hmin. do 3 eexists. by split_and!.
Qed.

Lemma compact_ok s ctx request : sys_ok s → sys_ok (advance s (CompactProjection ctx request (sy_src s)).2).
Proof.
  intros H. destruct (compact_cases ctx request (sy_src s)) as [[e ->]|(k & target & r & -> & _ & _ & -> & _)]; [by rewrite advance_same|].
  cbn [snd]. rewrite advance_still by done. apply sys_ok_log; [done|]. eexists. split; [done|apply deletable_le].
Qed.

Lemma force_ok s ctx shard : sys_ok s → sys_ok (step s (OpForceSnapshot ctx shard)).
Proof.
  intros H. cbn [step]. unfold ForceProjectionSnapshot. destruct (ProjectionStats _ _ _) as [stats|]; [|by rewrite advance_same].
  pose proof (compact_ok s ctx (mkCompactRequest shard (ss_Head stats) 100000) H) as Hc.
  by destruct (CompactProjection _ _ _) as [[] src].
Qed.

Lemma step_ok s o : sys_ok s → sys_ok (step s o).
Proof.
  destruct o; eauto using seed_ok, replace_ok, commit_op_ok, open_ok, next_ok, close_session_ok, close_ok, compact_ok, force_ok.
Qed.
Lemma steps_ok s ops : sys_ok s → sys_ok (steps s ops).
Proof. unfold steps. revert s. induction ops; cbn; eauto using step_ok. Qed.

Lemma new_owner_ok schema retention chunkBudget src : New schema retention chunkBudget = Ok src → sys_ok (start src).
Proof.
  unfold New. destruct (Schema_Validate schema) eqn:Hs; [done|]. destruct (_ || _) eqn:Hb; [done|]. intros [= <-]. bool_hyps.
  constructor; cbn; try done; try lia.
  - case_match; unfold maxLiveQueueBudget; lia.
  - intros [|i] v; [by intros [= <-]|]. done.
  - by exists 0%nat.
  - unfold zlen. cbn. lia.
Qed.

(** ** The theorems *)
Lemma cursors_NoDup s : sys_ok s → NoDup (ve_cursor <$> sy_hist s).
Proof.
  intros H. apply NoDup_alt. intros i j c. rewrite !list_lookup_fmap.
  destruct (sy_hist s !! i) as [v|] eqn:Hi, (sy_hist s !! j) as [w|] eqn:Hj; try done. cbn. intros [= <-] [= E].
  rewrite (ok_cursors _ H _ _ Hi), (ok_cursors _ H _ _ Hj) in E. pose proof (ok_length _ H). pose proof (ok_offset _ H).
  apply lookup_lt_Some in Hi, Hj. symmetry in E. apply encodeCursor_inj in E; unfold is_u64; lia.
Qed.

Lemma session_told s id sn : sys_ok s → sy_seen s !! id = Some sn →
  ∃ p, tell_all (so_schema (sy_src s)) (so_chunkBudget (sy_src s)) (sy_hist s) sn.1 sn.2 p ∧
    ∀ prefer, (Next (Context None) prefer id (sy_src s)).1 = Blocked →
      p = Gapped ∨ ∃ i, p = Following i ∧ sy_hist s !! i = Some (current (sy_src s)).
Proof.
  intros H Hsn. destruct (lookup_lt_is_Some_2 (so_sessions (sy_src s)) id) as [se Hse].
  { rewrite <- (ok_seen _ H). by eapply lookup_lt_Some. }
  destruct (ok_sessions _ H _ _ _ Hse Hsn) as (_ & p & Hp & Hq). exists p. split; [done|]. intros prefer. unfold Next.
  rewrite Hse. destruct (se_done se); [done|]. destruct (se_initial se !! se_index se) eqn:Hi; [done|].
  destruct (se_live se) eqn:El; [|done]. intros _. destruct Hq as (q & Hq & Eq). unfold pending in Hq.
  rewrite El, app_nil_r, drop_ge in Hq by (by apply lookup_ge_None). inversion Hq; subst. destruct (decide _); [right|by left].
  eexists. split; [done|]. rewrite (ok_length _ H). apply H.
Qed.

(** The configuration never changes. *)
Definition config (src : Source) : Schema * Z * Z * Z := (so_schema src, so_retention src, so_chunkBudget src, so_queueBudget src).

Lemma commitLocked_config ms t src : config (commitLocked ms t src).2 = config src.
Proof. by destruct (commitLocked_cases ms t src) as [[e ->]|(-> & _)]. Qed.

Lemma compact_config ctx request src : config (CompactProjection ctx request src).2 = config src.
Proof. by destruct (compact_cases ctx request src) as [[e ->]|(k & ? & ? & -> & _)]. Qed.

Lemma step_config s o : config (sy_src (step s o)) = config (sy_src s).
Proof.
  destruct o; cbn [step advance sy_src].
  - unfold Seed. repeat case_match; try done. apply commitLocked_config.
  - unfold Replace. destruct (validateMutations _ _); [done|]. destruct (so_closed _); [done|].
    destruct (_ =? 0); [apply commitLocked_config|]. destruct (_ =? 0); [done|]. apply commitLocked_config.
  - unfold Commit. repeat case_match; try done. apply commitLocked_config.
  - destruct (Open ctx request (sy_src s)) as [r src'] eqn:Ho.
    assert (Hc : config src' = config (sy_src s)); [|by destruct r].
    change src' with (r, src').2. rewrite <- Ho. clear. unfold Open, add_session. by repeat case_match.
  - destruct (Next ctx prefer id (sy_src s)) as [r src'] eqn:Ho.
    assert (Hc : config src' = config (sy_src s)); [|by destruct r].
    change src' with (r, src').2. rewrite <- Ho. clear. unfold Next. by repeat case_match.
  - done.
  - unfold Close. by destruct (so_closed _).
  - apply compact_config.
  - unfold ForceProjectionSnapshot. destruct (ProjectionStats _ _ _); [|done].
    pose proof (compact_config ctx (mkCompactRequest shard (ss_Head a) 100000) (sy_src s)) as Hc.
    by destruct (CompactProjection _ _ _) as [[] src'].
Qed.

Lemma steps_config s ops : config (sy_src (steps s ops)) = config (sy_src s).
Proof. unfold steps. revert s. induction ops as [|o ops IH]; intros s; cbn; [done|]. by rewrite IH, step_config. Qed.

(** *** What a subscription resumes from *)
Lemma log_at_mem schema hist n log j : log_at schema hist n log → j ∈ le_offset <$> log ↔ Z.of_nat n < j ≤ Z.of_nat (n + length log).
Proof.
  revert n. induction log as [|e log IH]; intros n; cbn [fmap list_fmap length]; [intros _; rewrite elem_of_nil; lia|].
  intros (He & _ & Hl). rewrite elem_of_cons, (IH _ Hl). cbn [length]. lia.
Qed.
(** A subscription after version [a] gets the deltas after it if the log has all of them, and otherwise
    one gap, which names the oldest version it could have resumed from. *)
Definition resumes (src : Source) (request : SubscribeRequest) (a : Z) (initial : list Frame) : Prop :=
  ((∀ j, a < j ≤ so_offset src → j ∈ le_offset <$> so_log src) ∧
   initial = (DeltaFrame ∘ le_batch) <$> filter (λ entry, a < le_offset entry) (so_log src)) ∨
  ((∃ j, a < j ≤ so_offset src ∧ j ∉ le_offset <$> so_log src) ∧
   initial = [GapFrame (sr_After request) (encodeCursor (so_offset src - zlen (so_log src)))]).
Lemma open_resumes s ctx request a id src' : sys_ok s → sr_ForceSnapshot request = false → decodeCursor (sr_After request) = Ok a →
  Open ctx request (sy_src s) = (Ok id, src') → ∃ se, so_sessions src' !! id = Some se ∧ se_index se = 0%nat ∧ resumes (sy_src s) request a (se_initial se).
Proof.
  intros H Hforce Hd Ho. unfold Open in Ho. destruct (validateContext _ _); [done|]. destruct (SubscribeRequest_Validate request); [done|]. destruct (Accepts _ _); [done|].
  destruct (so_closed _); [done|]. destruct (so_offset (sy_src s) =? 0); [done|]. rewrite Hforce, Hd in Ho. destruct (Z.ltb_spec (so_offset (sy_src s)) a); [done|].
  apply decodeCursor_Ok in Hd as [_ Hu]. unfold is_u64 in Hu. destruct (ok_log _ H) as (n & Hn & Hl). pose proof (ok_length _ H) as Hlen. pose proof (ok_offset _ H) as Hoff.
  rewrite (floor_of_log _ _ H Hn Hl) in Ho. pose proof (λ j, log_at_mem _ _ _ _ j Hl) as Hmem. unfold resumes, add_session in *.
  destruct (Z.ltb_spec a (Z.of_nat n)) as [Hlt|Hge]; injection Ho as <- <-; cbn; rewrite lookup_app_r, Nat.sub_diag by lia; eexists; (split; [done|]); (split; [done|]); cbn.
  - right. split; [exists (a + 1); split; [lia|]; rewrite Hmem; lia|]. unfold zlen. do 3 f_equal. lia.
  - left. split; [|done]. intros j Hj. rewrite Hmem. lia.
Qed.

(** The log is only cut to the retention, unless it is compacted. *)
Definition compacts (o : op) : bool := match o with OpCompact _ _ | OpForceSnapshot _ _ => true | _ => false end.
Definition log_full (src : Source) : Prop := zlen (so_log src) = Z.min (so_retention src) (so_offset src).
Lemma commit_full ms t src : 0 < so_retention src → 0 ≤ so_offset src → log_full src → log_full (commitLocked ms t src).2.
Proof.
  intros Hr Ho Hf. destruct (commitLocked_cases ms t src) as [[e ->]|(-> & _)]; [done|]. unfold log_full in *. cbn [snd so_log so_retention so_offset committed]. unfold retained.
  unfold zlen in *. rewrite length_app. cbn [length].
  destruct (Z.ltb_spec (so_retention src) (Z.of_nat (length (so_log src) + 1))); [rewrite length_drop, length_app; cbn [length]; lia|rewrite length_app; cbn [length]; lia].
Qed.
Lemma step_full s o : compacts o = false → sys_ok s → log_full (sy_src s) → log_full (sy_src (step s o)).
Proof.
  intros Hc H Hf. pose proof (ok_retention _ H). pose proof (ok_offset _ H). destruct o; cbn [step advance sy_src]; try done.
  - unfold Seed. repeat case_match; try done. apply commit_full; [done|lia|done].
  - unfold Replace. destruct (validateMutations _ _); [done|]. destruct (so_closed _); [done|].
    destruct (_ =? 0); [apply commit_full; [done|lia|done]|]. destruct (_ =? 0); [done|]. apply commit_full; [done|lia|done].
  - unfold Commit. repeat case_match; try done. apply commit_full; [done|lia|done].
  - destruct (Open ctx request (sy_src s)) as [r src'] eqn:Ho.
    assert (Hl : log_full src'); [|by destruct r]. change src' with (r, src').2. rewrite <- Ho. clear -Hf. unfold Open, add_session. by repeat case_match.
  - destruct (Next ctx prefer id (sy_src s)) as [r src'] eqn:Ho.
    assert (Hl : log_full src'); [|by destruct r]. change src' with (r, src').2. rewrite <- Ho. clear -Hf. unfold Next. by repeat case_match.
  - unfold Close. by destruct (so_closed _).
Qed.
Lemma steps_full ops : ∀ s, Forall (λ o, compacts o = false) ops → sys_ok s → log_full (sy_src s) → log_full (sy_src (steps s ops)).
Proof.
  induction ops as [|o ops IH]; intros s Hops H Hf; [done|]. apply Forall_cons in Hops as [Ho Hops]. apply IH; [done|by apply (steps_ok s [o])|by apply step_full].
Qed.

(** C6: whatever the owner commits and replaces, and however other sessions open, read, close and
    compaction runs meanwhile, the frames a session yields tell the owner's history: a snapshot is
    the complete table of one version, each delta leads to the next version, a resumed session
    starts at the version its cursor names, and a subscription is told of a gap exactly when a delta
    after its cursor is no longer in the log.  A session that has nothing to yield has told
    everything up to the present version (or its gap).  Cursors name versions uniquely, the queues of the
    sessions and the log stay within their budgets, and without compaction the log is as long as
    the retention allows. *)
Theorem owner_streams schema retention chunkBudget src ops : New schema retention chunkBudget = Ok src →
  let s := steps (start src) ops in
  NoDup (ve_cursor <$> sy_hist s) ∧ last (sy_hist s) = Some (current (sy_src s)) ∧
  zlen (so_log (sy_src s)) ≤ retention ∧
  (Forall (λ o, compacts o = false) ops → zlen (so_log (sy_src s)) = Z.min retention (so_offset (sy_src s))) ∧
  (∀ id se, so_sessions (sy_src s) !! id = Some se → zlen (se_live se) ≤ Z.min retention maxLiveQueueBudget) ∧
  (∀ ctx request a id src', sr_ForceSnapshot request = false → decodeCursor (sr_After request) = Ok a →
     Open ctx request (sy_src s) = (Ok id, src') → ∃ se, so_sessions src' !! id = Some se ∧ se_index se = 0%nat ∧ resumes (sy_src s) request a (se_initial se)) ∧
  ∀ id start frames, sy_seen s !! id = Some (start, frames) →
    ∃ p, tell_all schema chunkBudget (sy_hist s) start frames p ∧
      ∀ prefer, (Next (Context None) prefer id (sy_src s)).1 = Blocked →
        p = Gapped ∨ ∃ i, p = Following i ∧ sy_hist s !! i = Some (current (sy_src s)).
Proof.
  intros Hnew s. assert (H : sys_ok s) by (by eapply steps_ok, new_owner_ok).
  assert (Hcfg : config (sy_src s) = (schema, retention, chunkBudget, Z.min retention maxLiveQueueBudget)).
  { unfold s. rewrite steps_config. unfold New in Hnew. destruct (Schema_Validate schema); [done|]. destruct (_ || _); [done|].
    injection Hnew as <-. cbn. unfold config. cbn. f_equal. destruct (Z.ltb_spec maxLiveQueueBudget retention); lia. }
  injection Hcfg as Hschema Hret Hbudget Hqueue. split_and!.
  - by apply cursors_NoDup.
  - rewrite last_lookup, (ok_length _ H). apply H.
  - rewrite <- Hret. apply H.
  - intros Hops. rewrite <- Hret. apply steps_full; [done|by eapply new_owner_ok|]. unfold New in Hnew. destruct (Schema_Validate schema); [done|]. destruct (_ || _) eqn:Hb; [done|].
    injection Hnew as <-. unfold log_full. cbn. bool_hyps. unfold zlen. cbn. lia.
  - intros id se Hse. destruct (lookup_lt_is_Some_2 (sy_seen s) id) as [sn Hsn]; [rewrite (ok_seen _ H); by eapply lookup_lt_Some|].
    rewrite <- Hqueue. apply (ok_sessions _ H _ _ _ Hse Hsn).
  - intros ctx request a id src'. by apply open_resumes.
  - intros id st frames Hsn. rewrite <- Hschema, <- Hbudget. by apply (session_told _ _ _ H) in Hsn.
Qed.

(** ** Witnesses *)
Definition ex_source : Source := mkSource ex_schema 2 64 2 ∅ 0 0 [] ∅ false [].
Definition ex_ops : list op :=
  [OpSeed [Upsert "a" "1"] 5; OpOpen (Context None) (mkSubscribe ex_schema "" true); OpCommit [Upsert "b" "2"] 6;
   OpReplace [Upsert "b" "3"] 7; OpNext (Context None) false 0; OpNext (Context None) false 0; OpNext (Context None) false 0;
   OpNext (Context None) false 0; OpNext (Context None) false 0; OpCommit [Upsert "c" "4"] 8; OpNext (Context None) false 0;
   OpOpen (Context None) (mkSubscribe ex_schema (encodeCursor 1) false)].

Example ex_blocked : (Next (Context None) true 0 (sy_src (steps (start ex_source) ex_ops))).1 = Blocked ∧
  length (sy_hist (steps (start ex_source) ex_ops)) = 5%nat.
Proof. vm_compute. split; reflexivity. Qed.

Lemma owner_streams_witness : ∃ p frames,
  sy_seen (steps (start ex_source) ex_ops) !! 0%nat = Some (Fresh, frames) ∧ length frames = 6%nat ∧
  tell_all ex_schema 64 (sy_hist (steps (start ex_source) ex_ops)) Fresh frames p ∧ p ≠ Staging ∅.
Proof.
  destruct (sy_seen (steps (start ex_source) ex_ops) !! 0%nat) as [[p0 frames]|] eqn:Hs; [|vm_compute in Hs; discriminate].
  pose proof (owner_streams ex_schema 2 64 ex_source ex_ops eq_refl) as (_ & _ & _ & _ & _ & _ & H).
  destruct (H 0%nat p0 frames Hs) as (p & Ht & Hb).
  assert (p0 = Fresh) as -> by (vm_compute in Hs; congruence).
  exists p, frames. split; [reflexivity|]. split; [vm_compute in Hs; injection Hs as <-; reflexivity|]. split; [exact Ht|].
  destruct (Hb true (proj1 ex_blocked)) as [->|(i & -> & _)]; discriminate.
Defined.
