(* ===== verification/ProjBackoff.v ===== *)
(** * programmable/projection: reconnect delays

    Models [backoff.go]: the exponential schedule in [float64], the deterministic jitter (one step
    of a 64-bit mixer per attempt) and the seed (FNV-1a of a name).  Multiplications and additions
    are rounded one by one; the language would allow an implementation to fuse them.  The theorem:
    every delay of a configured backoff is a positive duration of at most its maximum. *)
From S2P Require Import Prelude GoText GoFloat.
Open Scope Z_scope.

Definition maximumBackoff : duration := hour.
Definition maximumBackoffAttempt : Z := 63.
Definition defaultReconnectDelay : duration := 100 * millisecond.

Record BackoffConfig := mkBackoffConfig {
  bc_Initial : duration; bc_Maximum : duration; bc_Multiplier : spec_float; bc_Jitter : spec_float; bc_Seed : Z
}.
Record Backoff := mkBackoff {
  bo_initial : duration; bo_maximum : duration; bo_multiplier : spec_float; bo_jitter : spec_float; bo_seed : Z; bo_configured : bool
}.
Definition unconfigured : Backoff := mkBackoff 0 0 (S754_zero false) (S754_zero false) 0 false.

Definition IsNaN (x : spec_float) : bool := match x with S754_nan => true | _ => false end.
Definition IsInf (x : spec_float) : bool := match x with S754_infinity _ => true | _ => false end.

Definition NewBackoff (config : BackoffConfig) : option Backoff :=
  if (bc_Initial config <=? 0) || (bc_Maximum config <? bc_Initial config) || (maximumBackoff <? bc_Maximum config) ||
     IsNaN (bc_Multiplier config) || IsInf (bc_Multiplier config) ||
     SFltb (bc_Multiplier config) (float64 1) || SFltb (float64 16) (bc_Multiplier config) ||
     IsNaN (bc_Jitter config) || IsInf (bc_Jitter config) ||
     SFltb (bc_Jitter config) (float64 0) || SFltb (float64 1) (bc_Jitter config)
  then None
  else Some (mkBackoff (bc_Initial config) (bc_Maximum config) (bc_Multiplier config) (bc_Jitter config) (bc_Seed config) true).

Definition u64_mul (x y : Z) : Z := (x * y) mod (max_u64 + 1).
Definition mix (value : Z) (shift factor : Z) : Z := u64_mul (Z.lxor value (Z.shiftr value shift)) factor.
Definition deterministicUnit (seed attempt : Z) : spec_float :=
  let value := u64_add seed (u64_mul 11400714819323198485 (u64_add attempt 1)) in
  let value := mix value 30 13787848793156543929 in
  let value := mix value 27 10723151780598845931 in
  let value := Z.lxor value (Z.shiftr value 31) in
  div64 (float64 (Z.shiftr value 11)) (float64 (2 ^ 53)).

Definition deterministicBackoffSeed (value : string) : Z :=
  fold_left (λ result b, u64_mul (Z.lxor result b) 1099511628211) (bytes_of value) 14695981039346656037.

(** The loop over the attempts. *)
Fixpoint grow (attempts : nat) (multiplier maximum base : spec_float) : spec_float :=
  match attempts with
  | O => base
  | S attempts =>
      if SFleb (div64 maximum multiplier) base then maximum else grow attempts multiplier maximum (mul64 base multiplier)
  end.

(** A conversion of a [float64] outside the integers would be implementation-defined; [Delay_bounds]
    shows that there is none. *)
Definition Delay (b : Backoff) (attempt : Z) : duration :=
  if negb (bo_configured b) then 0
  else
    let attempt := if maximumBackoffAttempt <? attempt then maximumBackoffAttempt else attempt in
    let maximum := float64 (bo_maximum b) in
    let base := grow (Z.to_nat attempt) (bo_multiplier b) maximum (float64 (bo_initial b)) in
    let base :=
      if negb (SFeqb (bo_jitter b) (float64 0)) then
        let unit := deterministicUnit (bo_seed b) attempt in
        let factor := add64 (sub64 (float64 1) (bo_jitter b)) (mul64 (mul64 (float64 2) (bo_jitter b)) unit) in
        mul64 base factor
      else base in
    let base := if SFltb maximum base then maximum else base in
    let base := if SFltb base (float64 1) then float64 1 else base in
    default 0 (trunc64 base).

Definition one_fifth : spec_float := div64 (float64 1) (float64 5).
Definition defaultBackoff (seed : Z) : Backoff :=
  default unconfigured (NewBackoff (mkBackoffConfig defaultReconnectDelay (30 * second) (float64 2) one_fifth seed)).

(** ** Bounds *)

(** A positive number with 53 digits. *)
Definition normal (lo hi : Z) (x : spec_float) : Prop :=
  match x with S754_finite false m e => 2 ^ 52 ≤ Zpos m < 2 ^ 53 ∧ lo ≤ e ≤ hi | _ => False end.
Lemma normal_tame lo hi x : normal lo hi x → tame hi x ∧ full x.
Proof. destruct x as [| | |[] m e]; cbn; try done. lia. Qed.
Lemma float64_normal z : 0 < z < 2 ^ 53 → normal (-52) 0 (float64 z).
Proof. intros Hz. destruct (float64_exact z Hz) as (m & k & -> & Hk & Hm & _). cbn. lia. Qed.

(** A multiplier between 1 and 16 has 53 digits. *)
Lemma multiplier_normal x : valid_binary 53 1024 x = true → IsNaN x = false → IsInf x = false →
  SFltb x (float64 1) = false → SFltb (float64 16) x = false → normal (-52) (-48) x.
Proof.
  intros Hv Hn Hi H1 H16. change (float64 1) with (S754_finite false 4503599627370496 (-52)) in H1.
  change (float64 16) with (S754_finite false 4503599627370496 (-48)) in H16.
  destruct x as [| | |[] m e]; try done. unfold SFltb in *. rewrite compare_pos in H1, H16. cbn in Hv. unfold bounded, canonical_mantissa in Hv.
  destruct (Z.ltb_spec e (-52)); [done|]. destruct (Z.ltb_spec (-48) e); [by destruct (Z.ltb_spec e (-48)); [lia|]|].
  assert (Hd : Zpos (digits2_pos m) = 53) by (bool_hyps; unfold fexp, emin in *; lia). pose proof (digits2_spec m). rewrite Hd in *. cbn. lia.
Qed.
(** A jitter between 0 and 1 is tame. *)
Lemma jitter_tame x : valid_binary 53 1024 x = true → IsNaN x = false → IsInf x = false →
  SFltb x (float64 0) = false → SFltb (float64 1) x = false → tame (-52) x.
Proof.
  intros Hv Hn Hi H0 H1. change (float64 1) with (S754_finite false 4503599627370496 (-52)) in H1.
  destruct x as [| | |[] m e]; try done. unfold SFltb in *. rewrite compare_pos in H1. cbn in Hv. unfold bounded, canonical_mantissa in Hv. bool_hyps.
  destruct (Z.ltb_spec (-52) e); [done|]. assert (Hd : Zpos (digits2_pos m) ≤ 53) by (unfold fexp, emin in *; lia).
  pose proof (digits2_spec m) as [_ Hu]. cbn. split; [|lia]. eapply Z.lt_le_trans; [exact Hu|]. apply Z.pow_le_mono_r; lia.
Qed.

(** The product of a number of full precision with a tame one keeps full precision. *)
Lemma mul_full lo hi E x y : normal lo hi x → tame E y → full (mul64 x y).
Proof.
  destruct x as [| | |[] m e]; try done. intros [Hm He]. destruct y as [s| | |s m' e']; try done. intros [Hm' He']. unfold mul64, SFmul.
  destruct (round64_cases (xorb false s) (Zpos (m * m')) (e + e') loc_Exact) as [(s' & -> & _)|[[-> _]|(m2 & e2 & -> & _ & _ & _ & _ & Hf)]]; [lia|done..|].
  cbn. apply Hf. pose proof (Zdigits2_lower (Zpos (m * m')) 52) as Hd. rewrite Pos2Z.inj_mul in *. unfold fexp. nia.
Qed.

Lemma mul_normal x y hi : normal (-52) hi x → normal (-52) (-48) y → hi ≤ 100 → normal (-52) (hi + 6) (mul64 x y).
Proof.
  destruct x as [| | |[] m e]; try done. intros [Hm He]. destruct y as [| | |[] m' e']; try done. intros [Hm' He'] Hhi.
  change (mul64 (S754_finite false m e) (S754_finite false m' e')) with (binary_round_aux 53 1024 false (Zpos (m * m')) (e + e') loc_Exact).
  assert (Hp : 2 ^ 104 ≤ Zpos (m * m') < 2 ^ 106).
  { rewrite Pos2Z.inj_mul. change (2 ^ 104) with (2 ^ 52 * 2 ^ 52). change (2 ^ 106) with (2 ^ 53 * 2 ^ 53). nia. }
  pose proof (Zdigits2_lower (Zpos (m * m')) 104 ltac:(lia) ltac:(lia)) as Hl. pose proof (Zdigits2_bound (Zpos (m * m')) 106 ltac:(lia) ltac:(lia)) as Hu.
  destruct (round64_cases false (Zpos (m * m')) (e + e') loc_Exact) as [(s' & _ & Hz)|[[_ Hinf]|(m2 & e2 & -> & Hm2 & He2 & _ & _ & Hf)]]; [lia|..].
  - unfold exponent_of, fexp in Hz. lia.
  - unfold exponent_of in Hinf. lia.
  - unfold exponent_of in *. cbn. destruct Hf as [Hf|Hf]; [unfold fexp; lia|lia|]. lia.
Qed.

(** The schedule before the jitter. *)
Lemma grow_normal n multiplier maximum base hi : normal (-52) (-48) multiplier → normal (-52) 0 maximum → normal (-52) hi base → hi ≤ 60 →
  normal (-52) 60 (grow n multiplier maximum base).
Proof.
  intros Hmul Hmax. revert base hi. induction n as [|n IH]; intros base hi Hbase Hhi; cbn [grow].
  { destruct base as [| | |[] m e]; try done. cbn in *. lia. }
  destruct (SFleb _ _) eqn:Hle; [destruct maximum as [| | |[] m e]; try done; cbn in *; lia|].
  apply (IH _ 60); [|lia]. replace 60 with (54 + 6) by lia. apply mul_normal; [|done|lia].
  (* the base is below maximum / multiplier, hence its exponent is bounded *)
  destruct multiplier as [| | |[] mm em]; try done. destruct Hmul as [Hmm Hem]. pose proof (normal_tame _ _ _ Hmax) as [Htm _].
  pose proof (tame_div 0 maximum false mm em Htm ltac:(lia)) as Hq. destruct base as [| | |[] m e]; try done. destruct Hbase as [Hm He].
  split; [done|]. split; [lia|]. destruct (div64 maximum (S754_finite false mm em)) as [sq| | |[] mq eq]; try done.
  unfold SFleb in Hle. rewrite compare_pos in Hle. cbn in Hq. destruct (Z.ltb_spec eq e); [done|]. lia.
Qed.

(** The jitter factor is tame. *)
Lemma unit_tame seed attempt : tame 2 (deterministicUnit seed attempt).
Proof.
  unfold deterministicUnit. set (v3 := Z.lxor _ _). assert (Hv : 0 ≤ v3 < 2 ^ 64).
  { subst v3. set (v := mix _ 27 _). assert (Hv : 0 ≤ v < 2 ^ 64) by (subst v; unfold mix, u64_mul, max_u64; apply Z.mod_pos_bound; lia).
    split; [apply Z.lxor_nonneg; rewrite Z.shiftr_nonneg; lia|].
    destruct (Z.eq_dec (Z.lxor v (Z.shiftr v 31)) 0) as [->|Hne]; [lia|]. apply Z.log2_lt_pow2; [pose proof (Z.lxor_nonneg v (Z.shiftr v 31)); rewrite Z.shiftr_nonneg in *; lia|].
    eapply Z.le_lt_trans; [apply Z.log2_lxor; [lia|apply Z.shiftr_nonneg; lia]|].
    assert (Hlog : ∀ x, 0 ≤ x < 2 ^ 64 → Z.log2 x < 64). { intros x Hx. destruct (decide (x = 0)) as [->|]; [done|]. apply Z.log2_lt_pow2; lia. }
    apply Z.max_lub_lt; apply Hlog; [done|]. rewrite Z.shiftr_div_pow2 by lia. split; [apply Z.div_pos; lia|]. apply Z.div_lt_upper_bound; lia. }
  assert (Hs : tame 0 (float64 (Z.shiftr v3 11))).
  { apply float64_tame. rewrite Z.shiftr_div_pow2 by lia. split; [apply Z.div_pos; lia|]. apply Z.div_lt_upper_bound; lia. }
  change (float64 (2 ^ 53)) with (S754_finite false 4503599627370496 1). eapply tame_weaken; [apply (tame_div 0); [done|lia]|lia].
Qed.
Lemma factor_tame seed attempt jitter : tame (-52) jitter →
  tame 200 (add64 (sub64 (float64 1) jitter) (mul64 (mul64 (float64 2) jitter) (deterministicUnit seed attempt))).
Proof.
  intros Hj. assert (H1 : tame 2 (sub64 (float64 1) jitter)).
  { apply (tame_sub 0); [by apply float64_tame|by eapply tame_weaken|lia]. }
  assert (H2 : tame 2 (mul64 (float64 2) jitter)) by (eapply tame_weaken; [apply (tame_mul 0 (-52)); [by apply float64_tame|done|lia]|lia]).
  assert (H3 : tame 58 (mul64 (mul64 (float64 2) jitter) (deterministicUnit seed attempt))).
  { eapply tame_weaken; [apply (tame_mul 2 2); [done|apply unit_tame|lia]|lia]. }
  eapply tame_weaken; [apply (tame_add 58); [by eapply tame_weaken|done|lia]|lia].
Qed.

(** reconnect delays are bounded.  For every accepted configuration, attempt and seed the
    delay is a positive duration of at most the configured maximum: the floating-point schedule
    with its jitter never overflows, never becomes NaN and is always convertible.  The default
    configuration is accepted. *)
Theorem delay_bounds config b attempt : valid_binary 53 1024 (bc_Multiplier config) = true → valid_binary 53 1024 (bc_Jitter config) = true →
  NewBackoff config = Some b → 0 ≤ attempt →
  1 ≤ Delay b attempt ≤ bo_maximum b ∧ (∀ seed, bo_configured (defaultBackoff seed) = true).
Proof.
  intros Hvm Hvj Hnew Hat. split; [|by intros]. unfold NewBackoff in Hnew. destruct (_ || _) eqn:Hg in Hnew; [done|]. injection Hnew as <-.
  bool_hyps. unfold Delay. cbn [bo_configured bo_maximum bo_initial bo_multiplier bo_jitter bo_seed negb].
  set (n := Z.to_nat _). assert (HM : 1 ≤ bc_Maximum config < 2 ^ 53) by (unfold maximumBackoff, hour in *; lia).
  assert (Hbase : normal (-52) 60 (grow n (bc_Multiplier config) (float64 (bc_Maximum config)) (float64 (bc_Initial config)))).
  { apply (grow_normal _ _ _ _ 0); [by apply multiplier_normal|apply float64_normal; lia|apply float64_normal; lia|lia]. }
  set (base := grow n _ _ _) in *. set (at_ := if _ <? attempt then _ else _).
  destruct (SFeqb (bc_Jitter config) (float64 0)); cbn [negb].
  - destruct (normal_tame _ _ _ Hbase) as [Ht Hf]. destruct (clamp_range (bc_Maximum config) base 60 HM Ht Hf) as (t & -> & Hr). done.
  - pose proof (factor_tame (bc_Seed config) at_ (bc_Jitter config) ltac:(by apply jitter_tame)) as Hfac.
    set (y := mul64 base _). assert (Ht : tame 320 y).
    { eapply tame_weaken; [apply (tame_mul 60 200); [by apply (normal_tame (-52) 60)|done|lia]|lia]. }
    destruct (clamp_range (bc_Maximum config) y 320 HM Ht (mul_full _ _ _ _ _ Hbase Hfac)) as (t & -> & Hr). done.
Qed.

Lemma delay_bounds_witness :
  (Delay (defaultBackoff 7) 0, Delay (defaultBackoff 7) 3, Delay (defaultBackoff 7) 40) = (95593189, 826537693, 30000000000) ∧
  1 ≤ Delay (defaultBackoff 7) 3 ≤ 30 * second.
Proof.
  split; [vm_compute; reflexivity|].
  exact (proj1 (delay_bounds (mkBackoffConfig defaultReconnectDelay (30 * second) (float64 2) one_fifth 7) (defaultBackoff 7) 3 eq_refl eq_refl eq_refl
    ltac:(discriminate))).
Defined.
