(* ===== verification/ProjRuntime.v ===== *)
(** * programmable/projection: the replica runtime

    Models [runtime.go] and the events of [observer.go]: the loop that opens a session at the
    replica's cursor (or asks for a snapshot), applies its frames to the store, and reconnects.
    The loop is generic in its world: the store, the source, the context, the clock, the observer
    and the notifier are the operations of a type class, so that the environment may act at each
    call.  The loop of [run] and the loop of [consume] inside it are one machine: [step] is one
    frame or one connection.  A panic of a collaborator is not modelled. *)
From S2P Require Import Prelude GoText Projection ProjBackoff.
Open Scope Z_scope.

Inductive EventKind := EventConnect | EventReconnect | EventSnapshot | EventDelta | EventGap | EventLag | EventError.
Inductive ErrorClass := ErrorNone | ErrorSource | ErrorStore | ErrorProtocol | ErrorContext.
Record Event := mkEvent {
  ev_Kind : EventKind; ev_Projection : string; ev_ErrorClass : ErrorClass; ev_Attempt : Z; ev_Delay : duration; ev_Lag : duration
}.

(** ** Errors *)

(** A [runtimeClassifiedError]. *)
Record classified := mkClassified { ce_class : ErrorClass; ce_err : perror }.
Definition context_error (err : perror) : bool := error_is err IsCanceled || error_is err IsDeadlineExceeded.
Definition classifiedError (class : ErrorClass) (err : perror) : classified :=
  mkClassified (if context_error err then ErrorContext else class) err.
Definition errorClassOf (err : classified) : ErrorClass := ce_class err.
Definition isFatalRuntimeError (err : perror) : bool :=
  error_is err IsInvalidFrame || error_is err IsInvalidSchema || error_is err IsSchemaMismatch ||
  error_is err IsInvalidMutation || error_is err IsInvalidDelta || error_is err IsReplayConflict.
Definition needs_snapshot (err : perror) : bool :=
  error_is err IsCursorMismatch || error_is err IsProjectionNotFound || error_is err IsSnapshotConflict.
Definition nextReconnectAttempt (attempt : Z) : Z := if maximumBackoffAttempt <=? attempt then maximumBackoffAttempt else attempt + 1.
Definition requireMatchingSchema (expected actual : Schema) : option perror := Accepts expected actual.

(** ** Construction *)
Record RuntimeConfig := mkRuntimeConfig {
  rc_Name : string;
  rc_Schema : Schema;
  rc_Store : bool;                      (* not nil *)
  rc_Source : bool;
  rc_Observer : bool;                   (* not a typed nil *)
  rc_Notifier : bool;
  rc_Backoff : Backoff
}.
Definition NewRuntime (config : RuntimeConfig) : result perror RuntimeConfig :=
  if (TrimSpace (rc_Name config) == "") || (rc_Name config != TrimSpace (rc_Name config)) ||
     negb (rc_Store config) || negb (rc_Source config) || negb (rc_Observer config)
  then Err ErrInvalidRuntime
  else match Schema_Validate (rc_Schema config) with
  | Some err => Err err
  | None =>
      Ok (mkRuntimeConfig (rc_Name config) (rc_Schema config) (rc_Store config) (rc_Source config) (rc_Observer config)
            (rc_Notifier config)
            (if bo_configured (rc_Backoff config) then rc_Backoff config
             else defaultBackoff (deterministicBackoffSeed (rc_Name config +:+ string_of_bytes [0] +:+ sc_ID (rc_Schema config)))))
  end.

(** ** The world of the loop *)
Class SyncWorld (W Txn Session : Type) := {
  sw_cause : W → option perror * W;                                   (* context.Cause of the run *)
  sw_stopRequested : W → bool * W;                                    (* as [setActive] finds it *)
  sw_Checkpoint : string → W → result perror (option Checkpoint) * W;
  sw_BeginSnapshot : Schema → W → result perror Txn * W;
  sw_Stage : Txn → Mutation → W → option perror * Txn * W;
  sw_Commit : Txn → string → time → W → option perror * Txn * W;
  sw_Abort : Txn → W → W;
  sw_ApplyDelta : DeltaBatch → W → option perror * W;
  sw_Open : SubscribeRequest → W → result perror (option Session) * W; (* [None]: a nil session *)
  sw_Next : Session → W → result perror (option Frame) * W;           (* [None]: a nil frame *)
  sw_Close : Session → W → W;
  sw_wait : duration → W → bool * W;                                  (* the timer ran out *)
  sw_now : W → time * W;
  sw_observe : Event → W → W;
  sw_notify : Checkpoint → W → W
}.

Record Runtime (Session : Type) := mkRuntime {
  rt_active : option Session;
  rt_activeToken : Z;
  rt_runErr : option perror;
  rt_ready : option (option perror);      (* what was sent to [ready], once *)
  rt_finished : bool
}.
Arguments mkRuntime {Session}.
Arguments rt_active {Session}.
Arguments rt_activeToken {Session}.
Arguments rt_runErr {Session}.
Arguments rt_ready {Session}.
Arguments rt_finished {Session}.

Definition idle {Session} : Runtime Session := mkRuntime None 0 None None false.
Definition signalReady {Session} (err : option perror) (r : Runtime Session) : Runtime Session :=
  match rt_ready r with
  | Some _ => r
  | None => mkRuntime (rt_active r) (rt_activeToken r) (rt_runErr r) (Some err) (rt_finished r)
  end.
Definition setRunError {Session} (err : perror) (r : Runtime Session) : Runtime Session :=
  match rt_runErr r with
  | Some _ => r
  | None => mkRuntime (rt_active r) (rt_activeToken r) (Some err) (rt_ready r) (rt_finished r)
  end.
Definition fail {Session} (err : perror) (r : Runtime Session) : Runtime Session := signalReady (Some err) (setRunError err r).
Definition waitError {Session} (r : Runtime Session) : option perror := rt_runErr r.
Definition finish {Session} (r : Runtime Session) : Runtime Session :=
  mkRuntime None (rt_activeToken r) (rt_runErr r) (rt_ready r) true.
Definition with_active {Session} (active : option Session) (token : Z) (r : Runtime Session) : Runtime Session :=
  mkRuntime active token (rt_runErr r) (rt_ready r) (rt_finished r).
Definition clearActive {Session} (token : Z) (r : Runtime Session) : Runtime Session :=
  if rt_activeToken r =? token then with_active None (rt_activeToken r) r else r.

(** ** Starting and stopping

    The control fields, which [Start], [Stop] and the loop share.  [Start] and [Stop] are split at
    their [select]: [ready] and [done] say what the loop has signalled, [cause] whether the
    caller's context has ended, and [prefer] which case is taken when both are there. *)
Record control := mkControl { ct_started : bool; ct_stopRequested : bool; ct_cancel : option perror }.

Definition validateRuntimeContext (ctx : context perror) : option perror :=
  match ctx with NilContext => Some ErrInvalidRuntime | Context cause => cause end.
Definition cancel (cause : perror) (ct : control) : control :=
  mkControl (ct_started ct) (ct_stopRequested ct) (match ct_cancel ct with Some c => Some c | None => Some cause end).

Definition Start_begin (ctx : context perror) (ct : control) : option perror * control :=
  match validateRuntimeContext ctx with
  | Some err => (Some err, ct)
  | None => if ct_started ct then (Some ErrInvalidRuntime, ct) else (None, mkControl true (ct_stopRequested ct) None)
  end.
(** The answer ([None] while it waits) and the session [closeActive] closes. *)
Definition Start_finish {Session} (prefer : bool) (r : Runtime Session) (cause : option perror) (ct : control) :
    option (option perror) * option Session * control :=
  match rt_ready r, cause with
  | Some err, None => (Some err, None, ct)
  | Some err, Some c => if prefer then (Some err, None, ct) else (Some (Some c), rt_active r, cancel c ct)
  | None, Some c => (Some (Some c), rt_active r, cancel c ct)
  | None, None => (None, None, ct)
  end.

(** [Some]: [Stop] has returned; otherwise it closes the session and waits for the loop. *)
Definition Stop_begin {Session} (ctx : context perror) (r : Runtime Session) (ct : control) :
    option (option perror) * option Session * control :=
  match validateRuntimeContext ctx with
  | Some err => (Some (Some err), None, ct)
  | None =>
      if negb (ct_started ct) then (Some None, None, ct)
      else (None, rt_active r, cancel ErrCanceled (mkControl (ct_started ct) true (ct_cancel ct)))
  end.
Definition Stop_finish {Session} (prefer : bool) (r : Runtime Session) (cause : option perror) : option (option perror) :=
  match rt_finished r, cause with
  | true, None => Some (waitError r)
  | true, Some c => Some (if prefer then waitError r else Some c)
  | false, Some c => Some (Some c)
  | false, None => None
  end.
Definition Wait {Session} (r : Runtime Session) (ct : control) : option (option perror) :=
  if negb (ct_started ct) then Some (Some ErrRuntimeNotStarted) else if rt_finished r then Some (waitError r) else None.

(** What one [consume] has so far, and what it returns. *)
Record consuming (Txn : Type) := mkConsuming { cs_snapshot : option Txn; cs_progressed : bool; cs_committed : bool }.
Arguments mkConsuming {Txn}.
Arguments cs_snapshot {Txn}.
Arguments cs_progressed {Txn}.
Arguments cs_committed {Txn}.
Record consumed := mkConsumed { cd_gap : bool; cd_progressed : bool; cd_err : option classified; cd_committed : bool }.

(** The loop variables of [run], and where the loops are. *)
Record vars := mkVars { va_force : bool; va_attempt : Z }.
Inductive place (Txn Session : Type) :=
| Connecting                                                  (* at the head of [run]'s loop *)
| Consuming (session : Session) (token : Z) (c : consuming Txn)  (* at the head of [consume]'s loop *)
| Finished.
Arguments Connecting {Txn Session}.
Arguments Consuming {Txn Session}.
Arguments Finished {Txn Session}.

Section runtime.
Context {W Txn Session : Type} `{SyncWorld W Txn Session} (config : RuntimeConfig).

Definition observe (event : Event) (w : W) : W :=
  sw_observe (mkEvent (ev_Kind event) (sc_ID (rc_Schema config)) (ev_ErrorClass event) (ev_Attempt event) (ev_Delay event)
    (ev_Lag event)) w.
Definition event (kind : EventKind) : Event := mkEvent kind "" ErrorNone 0 0 0.
Definition error_event (class : ErrorClass) (attempt : Z) : Event := mkEvent EventError "" class attempt 0 0.

Definition observeLag (sourceTime : time) (w : W) : W :=
  let '(now, w) := sw_now w in
  observe (mkEvent EventLag "" ErrorNone 0 0 (Z.max (now - sourceTime) 0)) w.

Definition notify (w : W) : W :=
  if negb (rc_Notifier config) then w
  else match sw_Checkpoint (sc_ID (rc_Schema config)) w with
  | (Err _, w) => observe (error_event ErrorStore 0) w
  | (Ok None, w) => w
  | (Ok (Some checkpoint), w) => sw_notify checkpoint w
  end.

Definition waitReconnect (attempt : Z) (w : W) : bool * W :=
  let delay := Delay (rc_Backoff config) attempt in
  let w := observe (mkEvent EventReconnect "" ErrorNone attempt delay 0) w in
  sw_wait delay w.

Definition setActive (session : Session) (r : Runtime Session) (w : W) : Z * Runtime Session * W :=
  let token := u64_add (rt_activeToken r) 1 in
  let r := with_active (Some session) token r in
  let '(stop, w) := sw_stopRequested w in
  let w := if stop then sw_Close session w else w in
  (token, r, w).

(** ** [consume] *)
Fixpoint stage_all (txn : Txn) (mutations : list Mutation) (w : W) : option perror * Txn * W :=
  match mutations with
  | [] => (None, txn, w)
  | m :: mutations =>
      match sw_Stage txn m w with
      | (Some err, txn, w) => (Some err, txn, w)
      | (None, txn, w) => stage_all txn mutations w
      end
  end.

(** The deferred [Abort], and the result. *)
Definition returns (c : consuming Txn) (err : option classified) (w : W) : consumed * W :=
  (mkConsumed false (cs_progressed c) err (cs_committed c), match cs_snapshot c with Some txn => sw_Abort txn w | None => w end).
Definition refuses (class : ErrorClass) (err : perror) (c : consuming Txn) (r : Runtime Session) (w : W) :
    (consuming Txn + consumed) * Runtime Session * W :=
  let '(result, w) := returns c (Some (classifiedError class err)) w in (inr result, r, w).

Definition consume_frame (frame : Frame) (c : consuming Txn) (r : Runtime Session) (w : W) :
    (consuming Txn + consumed) * Runtime Session * W :=
  match frame with
  | SnapshotBeginFrame schema =>
      match cs_snapshot c with
      | Some _ => refuses ErrorProtocol ErrInvalidFrame c r w
      | None =>
          match requireMatchingSchema (rc_Schema config) schema with
          | Some err => refuses ErrorProtocol err c r w
          | None =>
              match sw_BeginSnapshot schema w with
              | (Err err, w) => refuses ErrorStore err c r w
              | (Ok txn, w) => (inl (mkConsuming (Some txn) true (cs_committed c)), r, w)
              end
          end
      end
  | SnapshotChunkFrame mutations =>
      match cs_snapshot c, mutations with
      | None, _ | _, [] => refuses ErrorProtocol ErrInvalidFrame c r w
      | Some txn, _ =>
          match stage_all txn mutations w with
          | (Some err, txn, w) => refuses ErrorStore err (mkConsuming (Some txn) (cs_progressed c) (cs_committed c)) r w
          | (None, txn, w) => (inl (mkConsuming (Some txn) true (cs_committed c)), r, w)
          end
      end
  | SnapshotEndFrame cursor sourceTime =>
      match cs_snapshot c with
      | None => refuses ErrorProtocol ErrInvalidFrame c r w
      | Some txn =>
          match sw_Commit txn cursor sourceTime w with
          | (Some err, txn, w) => refuses ErrorStore err (mkConsuming (Some txn) (cs_progressed c) (cs_committed c)) r w
          | (None, _, w) =>
              let w := notify w in
              let w := observe (event EventSnapshot) w in
              let w := observeLag sourceTime w in
              (inl (mkConsuming None true true), signalReady None r, w)
          end
      end
  | DeltaFrame batch =>
      match cs_snapshot c with
      | Some _ => refuses ErrorProtocol ErrInvalidFrame c r w
      | None =>
          match sw_ApplyDelta batch w with
          | (Some err, w) => refuses ErrorStore err c r w
          | (None, w) =>
              let w := notify w in
              let w := observe (event EventDelta) w in
              let w := observeLag (db_SourceTime batch) w in
              (inl (mkConsuming (cs_snapshot c) true (cs_committed c)), r, w)
          end
      end
  | HeartbeatFrame cursor sourceTime =>
      if bool_decide (Cursor_Validate cursor ≠ None) || IsZero sourceTime then refuses ErrorProtocol ErrInvalidFrame c r w
      else (inl (mkConsuming (cs_snapshot c) true (cs_committed c)), r, observeLag sourceTime w)
  | GapFrame requested floor =>
      if bool_decide (Cursor_Validate requested ≠ None) || bool_decide (Cursor_Validate floor ≠ None)
      then refuses ErrorProtocol ErrInvalidFrame c r w
      else
        let w := observe (event EventGap) w in
        (inr (mkConsumed true true None (cs_committed c)), r, match cs_snapshot c with Some txn => sw_Abort txn w | None => w end)
  end.

(** One turn of [consume]'s loop. *)
Definition consume_turn (session : Session) (c : consuming Txn) (r : Runtime Session) (w : W) :
    (consuming Txn + consumed) * Runtime Session * W :=
  match sw_Next session w with
  | (Err err, w) => refuses ErrorSource err c r w
  | (Ok None, w) => refuses ErrorProtocol ErrInvalidFrame c r w
  | (Ok (Some frame), w) => consume_frame frame c r w
  end.

(** ** [run] *)

(** Up to the call of [consume]. *)
Definition connect (v : vars) (r : Runtime Session) (w : W) : place Txn Session * vars * Runtime Session * W :=
  let '(cause, w) := sw_cause w in
  match cause with
  | Some err => (Finished, v, finish (signalReady (Some err) r), w)
  | None =>
      match sw_Checkpoint (sc_ID (rc_Schema config)) w with
      | (Err err, w) =>
          let w := observe (error_event ErrorStore (va_attempt v)) w in
          (Finished, v, finish (fail err r), w)
      | (Ok checkpoint, w) =>
          let force := va_force v || bool_decide (checkpoint = None) in
          let v := mkVars force (va_attempt v) in
          let request := mkSubscribe (rc_Schema config)
            (match checkpoint with Some cp => if force then "" else cp_Cursor cp | None => "" end) force in
          match sw_Open request w with
          | (Err _, w) =>
              let '(cause, w) := sw_cause w in
              match cause with
              | Some err => (Finished, v, finish (signalReady (Some err) r), w)
              | None =>
                  let w := observe (error_event ErrorSource (va_attempt v)) w in
                  let '(expired, w) := waitReconnect (va_attempt v) w in
                  if expired then (Connecting, mkVars force (nextReconnectAttempt (va_attempt v)), r, w)
                  else
                    let '(cause, w) := sw_cause w in
                    (Finished, v, finish (signalReady cause r), w)
              end
          | (Ok None, w) => (Finished, v, finish (fail ErrInvalidRuntime r), w)
          | (Ok (Some session), w) =>
              let '(token, r, w) := setActive session r w in
              let w := observe (mkEvent EventConnect "" ErrorNone (va_attempt v) 0 0) w in
              let r := if force then r else signalReady None r in
              (Consuming session token (mkConsuming None false false), v, r, w)
          end
      end
  end.

(** After [consume] has returned. *)
Definition after_consume (session : Session) (token : Z) (result : consumed) (v : vars) (r : Runtime Session) (w : W) :
    place Txn Session * vars * Runtime Session * W :=
  let r := clearActive token r in
  let w := sw_Close session w in
  let '(cause, w) := sw_cause w in
  match cause with
  | Some err => (Finished, v, finish (signalReady (Some err) r), w)
  | None =>
      let force := if cd_committed result then false else va_force v in
      let attempt := if cd_progressed result then 0 else va_attempt v in
      if cd_gap result then (Connecting, mkVars true attempt, r, w)
      else
        let force := match cd_err result with Some e => force || needs_snapshot (ce_err e) | None => force end in
        match cd_err result with
        | Some e =>
            let w := observe (error_event (errorClassOf e) attempt) w in
            if isFatalRuntimeError (ce_err e) then (Finished, mkVars force attempt, finish (fail (ce_err e) r), w)
            else
              let '(expired, w) := waitReconnect attempt w in
              if expired then (Connecting, mkVars force (nextReconnectAttempt attempt), r, w)
              else
                let '(cause, w) := sw_cause w in
                (Finished, mkVars force attempt, finish (signalReady cause r), w)
        | None =>
            let '(expired, w) := waitReconnect attempt w in
            if expired then (Connecting, mkVars force (nextReconnectAttempt attempt), r, w)
            else
              let '(cause, w) := sw_cause w in
              (Finished, mkVars force attempt, finish (signalReady cause r), w)
        end
  end.

Definition step (p : place Txn Session) (v : vars) (r : Runtime Session) (w : W) : place Txn Session * vars * Runtime Session * W :=
  match p with
  | Connecting => connect v r w
  | Consuming session token c =>
      match consume_turn session c r w with
      | (inl c, r, w) => (Consuming session token c, v, r, w)
      | (inr result, r, w) => after_consume session token result v r w
      end
  | Finished => (Finished, v, r, w)
  end.

(** At most [n] turns of the two loops. *)
Fixpoint run (n : nat) (p : place Txn Session) (v : vars) (r : Runtime Session) (w : W) :
    place Txn Session * vars * Runtime Session * W :=
  match n with
  | O => (p, v, r, w)
  | S n => let '(p, v, r, w) := step p v r w in run n p v r w
  end.
End runtime.
