(* ===== verification/ProjRuntimeSpec.v ===== *)
(** * programmable/projection: a replica follows its owner

    The runtime of [ProjRuntime] composed with the memory store and the memory owner.  Before each
    call of the runtime the environment acts as a schedule says: it commits to the owner, opens,
    reads and closes other sessions, compacts, closes the runtime's own session, ends its context.
    The theorem: the replica always holds a version the owner really had, whenever the runtime
    waits for a frame it holds the owner's present table, and it never fails for a reason of the
    protocol. *)
From S2P Require Import Prelude GoText GoTime Projection ProjStore ProjStream ProjOwner ProjOwnerSpec ProjBackoff ProjRuntime.
Open Scope Z_scope.

(** ** The world *)
Inductive env := EnvOwner (o : op) | EnvCancel (cause : perror) | EnvStop | EnvTime (now : time).

(** What happens before one call, and which way its [select] goes. *)
Record tick := mkTick { tk_env : list env; tk_prefer : bool }.

Record world := mkWorld {
  ww_store : gmap string state;
  ww_owner : sys;
  ww_cause : option perror;
  ww_stop : bool;
  ww_now : time;
  ww_mine : gset nat;                       (* the sessions the runtime has opened *)
  ww_sched : list tick;
  ww_waits : list (rows * option rows);     (* owner's and replica's table, at each wait for a frame *)
  ww_events : list Event
}.

Definition set_owner (o : sys) (w : world) : world :=
  mkWorld (ww_store w) o (ww_cause w) (ww_stop w) (ww_now w) (ww_mine w) (ww_sched w) (ww_waits w) (ww_events w).
Definition set_store (st : gmap string state) (w : world) : world :=
  mkWorld st (ww_owner w) (ww_cause w) (ww_stop w) (ww_now w) (ww_mine w) (ww_sched w) (ww_waits w) (ww_events w).
Definition set_cause (c : perror) (w : world) : world :=
  mkWorld (ww_store w) (ww_owner w) (Some (default c (ww_cause w))) (ww_stop w) (ww_now w) (ww_mine w) (ww_sched w) (ww_waits w) (ww_events w).
Definition set_sched (l : list tick) (w : world) : world :=
  mkWorld (ww_store w) (ww_owner w) (ww_cause w) (ww_stop w) (ww_now w) (ww_mine w) l (ww_waits w) (ww_events w).

(** Others do not read the runtime's sessions. *)
Definition foreign (mine : gset nat) (o : op) : bool :=
  match o with OpNext _ _ id => negb (bool_decide (id ∈ mine)) | _ => true end.

Definition act (w : world) (e : env) : world :=
  match e with
  | EnvOwner o => if foreign (ww_mine w) o then set_owner (ProjOwnerSpec.step (ww_owner w) o) w else w
  | EnvCancel c => set_cause c w
  | EnvStop => mkWorld (ww_store w) (ww_owner w) (ww_cause w) true (ww_now w) (ww_mine w) (ww_sched w) (ww_waits w) (ww_events w)
  | EnvTime now => mkWorld (ww_store w) (ww_owner w) (ww_cause w) (ww_stop w) now (ww_mine w) (ww_sched w) (ww_waits w) (ww_events w)
  end.
Definition acts (w : world) (l : list env) : world := fold_left act l w.

(** The environment's turn before a call. *)
Definition turn (w : world) : bool * world :=
  match ww_sched w with
  | [] => (false, w)
  | t :: l => (tk_prefer t, acts (set_sched l w) (tk_env t))
  end.
Definition pass (w : world) : world := (turn w).2.

Definition table (w : world) (id : string) : option rows := ps_values <$> ww_store w !! id.
Definition ctx_of (w : world) : context perror := Context (ww_cause w).

(** A call of [Next]: it waits while it is blocked; when nothing happens any more, the context ends. *)
Fixpoint await (id : string) (session : nat) (prefer : bool) (sched : list tick) (w : world) : result perror (option Frame) * world :=
  let w' := set_owner (ProjOwnerSpec.step (ww_owner w) (OpNext (ctx_of w) prefer session)) w in
  match (Next (ctx_of w) prefer session (sy_src (ww_owner w))).1 with
  | Ready f => (Ok (Some f), set_sched sched w')
  | Failed e => (Err e, set_sched sched w')
  | Blocked =>
      let w := mkWorld (ww_store w) (ww_owner w) (ww_cause w) (ww_stop w) (ww_now w) (ww_mine w) (ww_sched w)
        (ww_waits w ++ [(so_rows (sy_src (ww_owner w)), table w id)]) (ww_events w) in
      match sched with
      | [] => (Err ErrCanceled, set_sched [] (set_cause ErrCanceled w))
      | t :: sched => await id session (tk_prefer t) sched (acts w (tk_env t))
      end
  end.

Definition open_session (request : SubscribeRequest) (w : world) : result perror (option nat) * world :=
  let o := ProjOwnerSpec.step (ww_owner w) (OpOpen (ctx_of w) request) in
  match (Open (ctx_of w) request (sy_src (ww_owner w))).1 with
  | Ok session => (Ok (Some session), mkWorld (ww_store w) o (ww_cause w) (ww_stop w) (ww_now w) ({[ session ]} ∪ ww_mine w) (ww_sched w) (ww_waits w) (ww_events w))
  | Err e => (Err e, set_owner o w)
  end.

(** [id] is the projection the runtime replicates. *)
Definition composed (id : string) : SyncWorld world snapshotTxn nat := {|
  sw_cause w := let w := pass w in (ww_cause w, w);
  sw_stopRequested w := let w := pass w in (ww_stop w, w);
  sw_Checkpoint i w := let w := pass w in (ProjStore.Checkpoint (ctx_of w) (ww_store w) i, w);
  sw_BeginSnapshot schema w := let w := pass w in (BeginSnapshot (ctx_of w) (ww_store w) schema, w);
  sw_Stage t m w := let w := pass w in (Stage t m, w);
  sw_Commit t cursor sourceTime w :=
    let w := pass w in
    let '(err, t, st) := ProjStore.Commit (ctx_of w) (ww_now w) (ww_store w) t cursor sourceTime in (err, t, set_store st w);
  sw_Abort t w := pass w;
  sw_ApplyDelta b w := let w := pass w in let '(err, st) := ApplyDelta (ctx_of w) (ww_now w) (ww_store w) b in (err, set_store st w);
  sw_Open request w := open_session request (pass w);
  sw_Next session w := let '(prefer, w) := turn w in await id session prefer (ww_sched w) w;
  sw_Close session w := let w := pass w in set_owner (ProjOwnerSpec.step (ww_owner w) (OpCloseSession session)) w;
  sw_wait d w := let w := pass w in (bool_decide (ww_cause w = None), w);
  sw_now w := let w := pass w in (ww_now w, w);
  sw_observe e w := let w := pass w in
    mkWorld (ww_store w) (ww_owner w) (ww_cause w) (ww_stop w) (ww_now w) (ww_mine w) (ww_sched w) (ww_waits w) (ww_events w ++ [e]);
  sw_notify c w := pass w
|}.

(** ** What the environment leaves alone *)

(** [w'] is a later world in which only the environment has acted. *)
Record later (w w' : world) : Prop := {
  la_ok : sys_ok (ww_owner w');
  la_hist : sy_hist (ww_owner w) `prefix_of` sy_hist (ww_owner w');
  la_config : config (sy_src (ww_owner w')) = config (sy_src (ww_owner w));
  la_seen : ∀ s, s ∈ ww_mine w → sy_seen (ww_owner w') !! s = sy_seen (ww_owner w) !! s;
  la_store : ww_store w' = ww_store w;
  la_mine : ww_mine w' = ww_mine w;
  la_cause : ∀ c, ww_cause w = Some c → ww_cause w' = Some c;
  la_waits : ww_waits w' = ww_waits w
}.

Lemma later_refl w : sys_ok (ww_owner w) → later w w.
Proof. by constructor. Qed.
Lemma later_trans w1 w2 w3 : later w1 w2 → later w2 w3 → later w1 w3.
Proof.
  intros [] []. constructor; eauto; [by etrans|congruence| |congruence..].
  intros s Hs. rewrite la_seen1 by congruence. auto.
Qed.

Lemma step_hist s o : sy_hist s `prefix_of` sy_hist (ProjOwnerSpec.step s o).
Proof.
  assert (Ha : ∀ src, sy_hist s `prefix_of` sy_hist (advance s src)).
  { intros src. unfold advance. cbn. destruct (_ =? _); [done|by apply prefix_app_r]. }
  destruct o; cbn [ProjOwnerSpec.step]; repeat case_match; first [apply Ha|reflexivity].
Qed.

Lemma step_seen s o i : (match o with OpNext _ _ id => id ≠ i | _ => True end) → (i < length (sy_seen s))%nat →
  sy_seen (ProjOwnerSpec.step s o) !! i = sy_seen s !! i.
Proof.
  intros Ho Hi. destruct o; cbn [ProjOwnerSpec.step]; try done; repeat case_match; cbn; try done.
  - by apply lookup_app_l.
  - by apply list_lookup_alter_ne.
Qed.

Definition mine_ok (w : world) : Prop := ∀ s, s ∈ ww_mine w → (s < length (sy_seen (ww_owner w)))%nat.

Lemma act_later w e : sys_ok (ww_owner w) → mine_ok w → later w (act w e).
Proof.
  intros H Hm. destruct e as [o|c| |now]; cbn [act].
  - destruct (foreign (ww_mine w) o) eqn:Hf; [|by apply later_refl]. constructor; cbn; try done.
    + by apply step_ok.
    + apply step_hist.
    + apply step_config.
    + intros s Hs. apply step_seen; [|by apply Hm]. destruct o; try done. cbn in Hf. intros ->. by rewrite bool_decide_true in Hf.
  - constructor; cbn; try done. by intros c' ->.
  - by constructor.
  - by constructor.
Qed.

Lemma later_mine w w' : later w w' → mine_ok w → mine_ok w'.
Proof.
  intros Hl Hm s Hs. rewrite (la_mine _ _ Hl) in Hs. destruct (lookup_lt_is_Some_2 _ _ (Hm s Hs)) as [x Hx].
  rewrite <- (la_seen _ _ Hl s Hs) in Hx. by eapply lookup_lt_Some.
Qed.

Lemma acts_later w l : sys_ok (ww_owner w) → mine_ok w → later w (acts w l).
Proof.
  intros H Hm. unfold acts. revert w H Hm. induction l as [|e l IH]; intros w H Hm; [by apply later_refl|].
  pose proof (act_later w e H Hm) as Hl. eapply later_trans; [done|]. apply IH; [apply Hl|by eapply later_mine].
Qed.

Lemma turn_later w : sys_ok (ww_owner w) → mine_ok w → later w (turn w).2.
Proof.
  intros H Hm. unfold turn. destruct (ww_sched w) as [|t l]; [by apply later_refl|]. cbn.
  destruct (acts_later (set_sched l w) (tk_env t) H Hm). by constructor.
Qed.
Lemma pass_later w : sys_ok (ww_owner w) → mine_ok w → later w (pass w).
Proof. apply turn_later. Qed.

Section replica.
Context (rc : RuntimeConfig).
Abbreviation id := (sc_ID (rc_Schema rc)).
#[local] Instance the_world : SyncWorld world snapshotTxn nat := composed id.

Definition schema_of (w : world) : Schema := so_schema (sy_src (ww_owner w)).
Definition budget_of (w : world) : Z := so_chunkBudget (sy_src (ww_owner w)).

(** The replica is version [i] of the owner. *)
Definition replica_at (w : world) (i : nat) : Prop :=
  ∃ s v, ww_store w !! id = Some s ∧ sy_hist (ww_owner w) !! i = Some v ∧ ps_schema s = schema_of w ∧
    ps_cursor s = ve_cursor v ∧ ps_values s = ve_rows v.
Definition replica_ok (w : world) : Prop := ww_store w !! id = None ∨ ∃ i, replica_at w i.

Definition told (w : world) (session : nat) (p : phase) : Prop :=
  ∃ p0 fs, sy_seen (ww_owner w) !! session = Some (p0, fs) ∧ tell_all (schema_of w) (budget_of w) (sy_hist (ww_owner w)) p0 fs p.

(** What [consume] has made of what it was told. *)
Definition keeps (w : world) (c : consuming snapshotTxn) (p : phase) : Prop :=
  match cs_snapshot c with
  | None => p = Fresh ∨ ∃ i, p = Following i ∧ replica_at w i
  | Some t => ∃ v, p = Staging v ∧ t = mkTxn (schema_of w) (tx_baseGeneration t) v false
  end.

Definition following (w : world) (session : nat) (c : consuming snapshotTxn) : Prop :=
  session ∈ ww_mine w ∧ Accepts (rc_Schema rc) (schema_of w) = None ∧ ∃ p, told w session p ∧ keeps w c p.

Record good (w : world) : Prop := {
  go_ok : sys_ok (ww_owner w);
  go_mine : mine_ok w;
  go_replica : replica_ok w;
  go_waits : Forall (λ x, x.2 = Some x.1) (ww_waits w)
}.

Lemma later_schema w w' : later w w' → schema_of w' = schema_of w.
Proof. intros [_ _ Hc]. unfold config in Hc. by injection Hc. Qed.
Lemma later_budget w w' : later w w' → budget_of w' = budget_of w.
Proof. intros [_ _ Hc]. unfold config in Hc. by injection Hc. Qed.

Lemma replica_at_later w w' i : later w w' → replica_at w i → replica_at w' i.
Proof.
  intros Hl (s & v & Hs & Hv & H). exists s, v. rewrite (la_store _ _ Hl), (later_schema _ _ Hl). split; [done|].
  split; [|done]. eapply prefix_lookup_Some; [done|apply Hl].
Qed.
Lemma told_later w w' session p : later w w' → session ∈ ww_mine w → told w session p → told w' session p.
Proof.
  intros Hl Hs (p0 & fs & Hseen & Ht). exists p0, fs. rewrite (la_seen _ _ Hl) by done. split; [done|].
  rewrite (later_schema _ _ Hl), (later_budget _ _ Hl). eapply tell_all_mono; [apply Hl|done].
Qed.
Lemma keeps_later w w' c p : later w w' → keeps w c p → keeps w' c p.
Proof.
  intros Hl. unfold keeps. destruct (cs_snapshot c); [by rewrite (later_schema _ _ Hl)|].
  intros [->|(i & -> & Hi)]; [by left|]. right. eauto using replica_at_later.
Qed.
Lemma good_later w w' : later w w' → good w → good w'.
Proof.
  intros Hl []. constructor; [apply Hl|by eapply later_mine| |by rewrite (la_waits _ _ Hl)].
  destruct go_replica0 as [Hn|[i Hi]]; [left; by rewrite (la_store _ _ Hl)|right; eauto using replica_at_later].
Qed.
Lemma following_later w w' session c : later w w' → following w session c → following w' session c.
Proof.
  intros Hl (Hs & Ha & p & Hp & Hk). split; [by rewrite (la_mine _ _ Hl)|]. rewrite (later_schema _ _ Hl). split; [done|].
  exists p. eauto using told_later, keeps_later.
Qed.

Lemma good_pass w : good w → later w (pass w).
Proof. intros []. by apply pass_later. Qed.

#[local] Arguments observe : simpl never.
#[local] Arguments observeLag : simpl never.
#[local] Arguments notify : simpl never.
#[local] Arguments waitReconnect : simpl never.
#[local] Arguments pass : simpl never.
#[local] Arguments refuses : simpl never.
#[local] Arguments ProjOwnerSpec.step : simpl never.

(** Observing, notifying and the clock are the environment's affair. *)
Lemma observe_later e w : good w → later w (observe rc e w).
Proof. intros H. unfold observe. cbn. destruct (good_pass w H). by constructor. Qed.
Lemma observeLag_later t w : good w → later w (observeLag rc t w).
Proof.
  intros H. unfold observeLag. cbn. pose proof (good_pass _ H) as Hl. eapply later_trans; [done|].
  apply observe_later. by eapply good_later.
Qed.
Lemma notify_later w : good w → later w (notify rc w).
Proof.
  intros H. unfold notify. destruct (rc_Notifier rc); [|by apply later_refl, H]. cbn.
  pose proof (good_pass _ H) as Hl. assert (good (pass w)) as Hg by (by eapply good_later).
  destruct (ProjStore.Checkpoint _ _ _) as [[cp|]|e]; [|done|].
  - eapply later_trans; [done|]. by apply good_pass.
  - eapply later_trans; [done|]. by apply observe_later.
Qed.
Lemma close_later session w : good w → later w (sw_Close session w).
Proof.
  intros H. cbn. pose proof (good_pass _ H) as Hl. eapply later_trans; [done|]. pose proof (good_later _ _ Hl H) as [].
  by apply (act_later _ (EnvOwner (OpCloseSession session))).
Qed.

(** ** Reading a frame *)
Lemma next_failed s cause prefer session e : sys_ok s → (Next (Context cause) prefer session (sy_src s)).1 = Failed e →
  ProjOwnerSpec.step s (OpNext (Context cause) prefer session) = s ∧ (session_error (Some e) ∨ cause = Some e).
Proof.
  intros H. unfold ProjOwnerSpec.step. unfold Next. destruct (so_sessions (sy_src s) !! session) as [se|] eqn:Hse.
  2: { intros [= <-]. rewrite advance_same. split; [done|]. left. by right; left. }
  destruct (lookup_lt_is_Some_2 (sy_seen s) session) as [sn Hsn]; [rewrite (ok_seen _ H); by eapply lookup_lt_Some|].
  destruct (ok_sessions _ H _ _ _ Hse Hsn) as ([_ He] & _). destruct (se_done se).
  { intros [= <-]. rewrite advance_same. split; [done|]. left. unfold terminalError, session_error in *. destruct (se_runErr se); naive_solver. }
  destruct (se_initial se !! se_index se); [done|].
  destruct (se_live se), cause as [c|]; try destruct prefer; try done; intros [= <-]; rewrite advance_same; auto.
Qed.

Lemma next_ready s ctx prefer session f p0 fs : sys_ok s → (Next ctx prefer session (sy_src s)).1 = Ready f →
  sy_seen s !! session = Some (p0, fs) →
  let s' := ProjOwnerSpec.step s (OpNext ctx prefer session) in
  sys_ok s' ∧ sy_hist s' = sy_hist s ∧ config (sy_src s') = config (sy_src s) ∧ sy_seen s' !! session = Some (p0, fs ++ [f]) ∧
  length (sy_seen s') = length (sy_seen s).
Proof.
  intros H Hr Hseen s'. unfold s'. split; [by apply step_ok|]. rewrite step_config. unfold ProjOwnerSpec.step.
  destruct (Next ctx prefer session (sy_src s)) as [r src'] eqn:Hn. cbn in Hr. subst r. cbn.
  split; [done|]. split; [done|]. rewrite length_alter, list_lookup_alter_eq, Hseen. done.
Qed.

Lemma told_det w session p q : sys_ok (ww_owner w) → told w session p → told w session q → p = q.
Proof.
  intros H (p0 & fs & Hs & Hp) (q0 & gs & Hs' & Hq). rewrite Hs in Hs'. injection Hs' as <- <-.
  eapply tell_all_det; [by apply cursors_NoDup|done..].
Qed.

(** While [Next] is blocked outside a snapshot the replica is up to date. *)
Lemma blocked_synced w session c prefer : good w → following w session c → ww_cause w = None →
  (Next (ctx_of w) prefer session (sy_src (ww_owner w))).1 = Blocked →
  table w id = Some (so_rows (sy_src (ww_owner w))).
Proof.
  intros [Hok _ _ _] (_ & _ & p & Hp & Hk) Hc Hb. unfold ctx_of in Hb. rewrite Hc in Hb.
  destruct Hp as (p0 & fs & Hs & Ht). destruct (session_told _ _ _ Hok Hs) as (q & Hq & Hblocked).
  assert (p = q) as <- by (eapply (told_det w session); [done|by exists p0, fs|by exists p0, fs]).
  destruct (Hblocked _ Hb) as [->|(i & -> & Hi)]; unfold keeps in Hk.
  - destruct (cs_snapshot c); naive_solver.
  - destruct (cs_snapshot c); [naive_solver|]. destruct Hk as [Hk|(j & [= <-] & s & v & Hst & Hv & _ & _ & Hval)]; [done|].
    unfold table. rewrite Hst. cbn. rewrite Hval. rewrite Hi in Hv. by injection Hv as <-.
Qed.

Lemma blocked_cause cause prefer session src : (Next (Context cause) prefer session src).1 = Blocked → cause = None.
Proof. unfold Next. repeat case_match; try done; by subst. Qed.

(** A failure that the runtime survives, or the end of its context. *)
Definition survives (w : world) (e : perror) : Prop := isFatalRuntimeError e = false ∨ ww_cause w ≠ None.

Lemma session_error_survives w e : session_error (Some e) → survives w e.
Proof. intros [H|[H|[H|H]]]; try done; injection H as ->; by left. Qed.

Definition next_spec (session : nat) (c : consuming snapshotTxn) (x : result perror (option Frame) * world) : Prop :=
  good x.2 ∧
  match x.1 with
  | Ok (Some f) => session ∈ ww_mine x.2 ∧ Accepts (rc_Schema rc) (schema_of x.2) = None ∧
      ∃ p q, keeps x.2 c p ∧ tells (schema_of x.2) (budget_of x.2) (sy_hist (ww_owner x.2)) p f q ∧ told x.2 session q
  | Ok None => False
  | Err e => survives x.2 e
  end.

Lemma ready_spec w session c prefer f sched : good w → following w session c →
  (Next (ctx_of w) prefer session (sy_src (ww_owner w))).1 = Ready f →
  next_spec session c (Ok (Some f), set_sched sched (set_owner (ProjOwnerSpec.step (ww_owner w) (OpNext (ctx_of w) prefer session)) w)).
Proof.
  intros [Hok Hm Hr Hw] (Hs & Ha & p & Hp & Hk) Hn. destruct Hp as (p0 & fs & Hseen & Ht).
  destruct (next_ready _ _ _ _ _ _ _ Hok Hn Hseen) as (Hok' & Hhist & Hcfg & Hseen' & Hlen).
  assert (Hsch : so_schema (sy_src (ProjOwnerSpec.step (ww_owner w) (OpNext (ctx_of w) prefer session))) = schema_of w) by (unfold config in Hcfg; by injection Hcfg).
  assert (Hrep : ∀ i, replica_at w i → replica_at (set_sched sched (set_owner (ProjOwnerSpec.step (ww_owner w) (OpNext (ctx_of w) prefer session)) w)) i).
  { intros i (s & v & ?). exists s, v. unfold schema_of. cbn. by rewrite Hhist, Hsch. }
  assert (Hbud : so_chunkBudget (sy_src (ProjOwnerSpec.step (ww_owner w) (OpNext (ctx_of w) prefer session))) = budget_of w) by (unfold config in Hcfg; by injection Hcfg).
  destruct (session_told _ _ _ Hok' Hseen') as (q & Hq & _). cbn [fst snd] in Hq. split.
  - constructor; cbn; [done| | |done].
    + intros i Hi. cbn in Hi |- *. rewrite Hlen. by apply Hm.
    + destruct Hr as [Hr|[i Hi]]; [by left|right; eauto].
  - cbn [fst snd]. split; [done|]. unfold schema_of at 1. cbn. rewrite Hsch. split; [done|]. exists p, q. split_and!.
    + unfold keeps in *. unfold schema_of at 1. cbn. rewrite Hsch. destruct (cs_snapshot c); [done|]. naive_solver.
    + unfold schema_of at 1, budget_of at 1. cbn. rewrite Hsch, Hbud, Hhist in *.
      eapply tell_all_last; [by apply cursors_NoDup|done..].
    + exists p0, (fs ++ [f]). unfold schema_of, budget_of. cbn. done.
Qed.

Lemma await_spec session c sched : ∀ prefer w, good w → following w session c → next_spec session c (await id session prefer sched w).
Proof.
  induction sched as [|t sched IH]; intros prefer w Hg Hf; cbn [await];
    (destruct (Next (ctx_of w) prefer session (sy_src (ww_owner w))).1 as [f|e|] eqn:Hn; [by apply ready_spec| |]).
  1, 3: destruct (next_failed _ _ _ _ _ (go_ok _ Hg) Hn) as [Hsame He]; unfold ctx_of; rewrite Hsame; split; [by destruct Hg|cbn; destruct He as [He|He];
    [by apply session_error_survives|right; cbn; by rewrite He]].
  - pose proof (blocked_cause _ _ _ _ Hn) as Hc. split; [|right; cbn; by rewrite Hc]. destruct Hg. constructor; try done. cbn.
    apply Forall_app. split; [done|]. apply Forall_singleton. by eapply blocked_synced.
  - pose proof (blocked_cause _ _ _ _ Hn) as Hc. pose proof (blocked_synced _ _ _ _ Hg Hf Hc Hn) as Hsync.
    match goal with |- context [acts ?x _] => set (w1 := x) end.
    assert (Hg1 : good w1).
    { destruct Hg. constructor; try done. cbn. apply Forall_app. split; [done|]. by apply Forall_singleton. }
    pose proof (acts_later w1 (tk_env t) (go_ok _ Hg1) (go_mine _ Hg1)) as Hl.
    apply IH; [by eapply good_later|]. by eapply following_later.
Qed.


(** ** Applying a frame *)
Lemma Accepts_id a b : Accepts a b = None → sc_ID a = sc_ID b.
Proof. unfold Accepts. destruct (decide (sc_ID a = sc_ID b)); [done|]. by rewrite bool_decide_false. Qed.

Lemma survives_later w w' e : later w w' → survives w e → survives w' e.
Proof.
  intros Hl [H|H]; [by left|right]. destruct (ww_cause w) as [c|] eqn:Hc; [|done]. by rewrite (la_cause _ _ Hl c Hc).
Qed.

Lemma cause_survives w e : ProjStore.validateContext (ctx_of w) = Some e → survives w e.
Proof. unfold ctx_of. cbn. intros He. right. by rewrite He. Qed.

Lemma context_open w : ProjStore.validateContext (ctx_of w) = None → ctx_of w = Context None.
Proof. unfold ctx_of. cbn. by intros ->. Qed.

(** The replica's schema is the owner's. *)
Lemma replica_compatible w : replica_ok w → Accepts (rc_Schema rc) (schema_of w) = None →
  (c ← ww_store w !! sc_ID (schema_of w); compatibleSchema (ps_schema c) (schema_of w)) = None.
Proof.
  intros Hr Ha. rewrite <- (Accepts_id _ _ Ha). destruct Hr as [->|(i & s & v & -> & _ & Hs & _)]; [done|].
  cbn. rewrite Hs. by apply compatibleSchema_refl.
Qed.

Definition turn_spec (session : nat) (r : Runtime nat) (x : (consuming snapshotTxn + consumed) * Runtime nat * world) : Prop :=
  good x.2 ∧ rt_runErr x.1.2 = rt_runErr r ∧
  match x.1.1 with
  | inl c => following x.2 session c
  | inr res => ∀ e, cd_err res = Some e → survives x.2 (ce_err e)
  end.

Lemma refuses_spec session class err c r w : good w → survives w err → turn_spec session r (refuses class err c r w).
Proof.
  intros Hg Hs. unfold refuses, returns. cbn. destruct (cs_snapshot c); (split; [|split; [done|]]); cbn; try done.
  - eapply good_later; [by apply good_pass|done].
  - intros e [= <-]. cbn. eapply survives_later; [by apply good_pass|done].
  - by intros e [= <-].
Qed.

Lemma signalReady_runErr (err : option perror) (r : Runtime nat) : rt_runErr (signalReady err r) = rt_runErr r.
Proof. unfold signalReady. by destruct (rt_ready r). Qed.

Lemma begin_spec session c r w schema p q : good w → session ∈ ww_mine w → Accepts (rc_Schema rc) (schema_of w) = None →
  keeps w c p → tells (schema_of w) (budget_of w) (sy_hist (ww_owner w)) p (SnapshotBeginFrame schema) q → told w session q →
  turn_spec session r (consume_frame rc (SnapshotBeginFrame schema) c r w).
Proof.
  intros Hg Hs Ha Hk Hf Ht. inversion Hf; subst. unfold keeps in Hk. cbn. destruct (cs_snapshot c); [naive_solver|].
  unfold requireMatchingSchema. rewrite Ha. pose proof (good_pass _ Hg) as Hl. pose proof (good_later _ _ Hl Hg) as Hg1.
  rewrite <- (later_schema _ _ Hl) in Ha |- *. pose proof (replica_compatible _ (go_replica _ Hg1) Ha) as Hc.
  destruct (BeginSnapshot _ _ _) as [t|err] eqn:Hb.
  - apply BeginSnapshot_Ok in Hb as [_ ->]. split; [done|]. split; [done|]. cbn. split; [by rewrite (la_mine _ _ Hl)|].
    split; [done|]. eexists. split; [by eapply told_later|]. by eexists.
  - apply refuses_spec; [done|]. unfold BeginSnapshot in Hb. destruct (ProjStore.validateContext (ctx_of (pass w))) as [e|] eqn:Hctx.
    { injection Hb as <-. by apply cause_survives. }
    unfold schema_of in Hb at 1. rewrite (ok_schema _ (go_ok _ Hg1)) in Hb.
    destruct (ww_store (pass w) !! sc_ID (schema_of (pass w))) as [cur|]; [|done]. cbn in Hc. by rewrite Hc in Hb.
Qed.

Lemma stage_all_spec ms : ∀ t w, good w → tx_closed t = false → Forall is_upsert ms →
  ∃ w', stage_all (H := the_world) t ms w =
    (None, mkTxn (tx_schema t) (tx_baseGeneration t) (apply_mutations (tx_values t) ms) false, w') ∧ later w w'.
Proof.
  induction ms as [|m ms IH]; intros t w Hg Hc Hms; cbn.
  - exists w. split; [by destruct t; cbn in *; subst|]. apply later_refl, Hg.
  - inversion_clear Hms as [|? ? [Hk Hv] Hms']. unfold Stage. rewrite Hv, Hc, Hk.
    pose proof (good_pass _ Hg) as Hl. destruct (IH (mkTxn (tx_schema t) (tx_baseGeneration t) (<[mu_key m := mu_value m]> (tx_values t)) false)
      (pass w) (good_later _ _ Hl Hg) eq_refl Hms') as (w' & -> & Hl'). exists w'. split; [|by eapply later_trans].
    cbn. unfold apply_mutation. by rewrite Hk.
Qed.

Lemma chunk_spec session c r w ms p q : good w → session ∈ ww_mine w → Accepts (rc_Schema rc) (schema_of w) = None →
  keeps w c p → tells (schema_of w) (budget_of w) (sy_hist (ww_owner w)) p (SnapshotChunkFrame ms) q → told w session q →
  turn_spec session r (consume_frame rc (SnapshotChunkFrame ms) c r w).
Proof.
  intros Hg Hs Ha Hk Hf Ht. inversion Hf as [|values ? Hne Hms _| | | |]; subst. unfold keeps in Hk. cbn.
  destruct (cs_snapshot c) as [t|]; [|naive_solver]. destruct Hk as (v & [= <-] & ->). destruct ms as [|m ms]; [done|].
  destruct (stage_all_spec (m :: ms) (mkTxn (schema_of w) (tx_baseGeneration t) values false) w Hg eq_refl Hms) as (w' & -> & Hl).
  split; [by eapply good_later|]. split; [done|]. cbn. split; [by rewrite (la_mine _ _ Hl)|]. rewrite (later_schema _ _ Hl).
  split; [done|]. eexists. split; [by eapply told_later|]. cbn. eexists. split; [done|]. by rewrite (later_schema _ _ Hl).
Qed.

(** After the store has been advanced to version [i]. *)
Lemma advanced_spec session c r w st i e t : good w → session ∈ ww_mine w → Accepts (rc_Schema rc) (schema_of w) = None →
  told w session (Following i) → replica_at (set_store st w) i → cs_snapshot c = None →
  let w1 := observe rc e (notify rc (set_store st w)) in
  turn_spec session r (inl c, r, observeLag rc t w1) ∧ turn_spec session r (inl c, signalReady None r, observeLag rc t w1).
Proof.
  intros Hg Hs Ha Ht Hr Hc w1. assert (Hg0 : good (set_store st w)).
  { destruct Hg. constructor; try done. right. eauto. }
  assert (Hl : later (set_store st w) (observeLag rc t w1)).
  { pose proof (notify_later _ Hg0) as H1. pose proof (good_later _ _ H1 Hg0) as Hg1.
    pose proof (observe_later e _ Hg1) as H2. pose proof (good_later _ _ H2 Hg1) as Hg2.
    eapply later_trans; [done|]. eapply later_trans; [done|]. by apply observeLag_later. }
  assert (Hf : following (observeLag rc t w1) session c).
  { eapply following_later; [done|]. split; [done|]. split; [done|]. exists (Following i). split; [done|]. unfold keeps. rewrite Hc.
    right. eauto. }
  split; (split; [by eapply good_later|split; [|done]]); [done|apply signalReady_runErr].
Qed.

Lemma end_spec session c r w cursor t p q : good w → session ∈ ww_mine w → Accepts (rc_Schema rc) (schema_of w) = None →
  keeps w c p → tells (schema_of w) (budget_of w) (sy_hist (ww_owner w)) p (SnapshotEndFrame cursor t) q → told w session q →
  turn_spec session r (consume_frame rc (SnapshotEndFrame cursor t) c r w).
Proof.
  intros Hg Hs Ha Hk Hf Ht. inversion Hf as [| |values i v Hv Hvals Htime Hcur| | |]; subst. unfold keeps in Hk. cbn.
  destruct (cs_snapshot c) as [txn|]; [|naive_solver]. destruct Hk as (v' & [= <-] & ->).
  pose proof (good_pass _ Hg) as Hl. pose proof (good_later _ _ Hl Hg) as Hg1. rewrite <- (later_schema _ _ Hl) in Ha |- *.
  pose proof (replica_compatible _ (go_replica _ Hg1) Ha) as Hc.
  match goal with |- context [ProjStore.Commit ?a ?b ?c ?d ?e ?f] => destruct (ProjStore.Commit a b c d e f) as [[err t'] st'] eqn:Hcommit end.
  destruct (Commit_cases _ _ _ _ _ _ _ _ _ Hcommit) as [[-> Herr]|(-> & _ & _ & _ & _ & _ & ->)].
  - destruct err as [err|]; [|done]. apply refuses_spec; [by destruct Hg1|]. change (survives (pass w) err).
    unfold ProjStore.Commit in Hcommit. destruct (ProjStore.validateContext (ctx_of (pass w))) as [e|] eqn:Hctx.
    { injection Hcommit as <- _. by apply cause_survives. }
    rewrite Hcur in Hcommit. unfold IsZero in Hcommit. destruct (Z.eqb_spec (ve_time v) 0); [done|]. cbn in Hcommit.
    cbn in Hc. rewrite Hc in Hcommit. destruct (negb _); [|done]. injection Hcommit as <- _. by left.
  - refine (proj2 (advanced_spec session (mkConsuming None true true) r (pass w) _ i _ _ _ _ _ _ _ _)); try done.
    + by rewrite (la_mine _ _ Hl).
    + by eapply told_later.
    + eexists _, v. cbn. rewrite (Accepts_id _ _ Ha), lookup_insert_eq. split; [done|].
      split; [by eapply prefix_lookup_Some; [|apply Hl]|]. done.
Qed.

Lemma ApplyDelta_next ctx now st b c : DeltaBatch_Validate b = None → st !! sc_ID (db_Schema b) = Some c →
  compatibleSchema (ps_schema c) (db_Schema b) = None → ps_cursor c = db_Previous b →
  ApplyDelta ctx now st b = match ProjStore.validateContext ctx with
    | Some e => (Some e, st)
    | None => (None, <[sc_ID (db_Schema b) := mkState (db_Schema b) (db_Cursor b) (u64_add (ps_generation c) 1) (db_SourceTime b) now
        (apply_mutations (ps_values c) (db_Mutations b)) (Some (deltaDigest b))]> st)
    end.
Proof.
  intros Hv Hc Hs Hp. destruct (DeltaBatch_Validate_spec _ Hv) as (_ & _ & _ & Hne & _ & Hms). unfold ApplyDelta.
  destruct (ProjStore.validateContext ctx); [done|]. rewrite Hv, Hc, Hs. rewrite bool_decide_false by congruence.
  rewrite bool_decide_true by done. cbn [negb]. by rewrite apply_batch_ok.
Qed.

Lemma delta_spec session c r w b p q : good w → session ∈ ww_mine w → Accepts (rc_Schema rc) (schema_of w) = None →
  keeps w c p → tells (schema_of w) (budget_of w) (sy_hist (ww_owner w)) p (DeltaFrame b) q → told w session q →
  turn_spec session r (consume_frame rc (DeltaFrame b) c r w).
Proof.
  intros Hg Hs Ha Hk Hf Ht. inversion Hf as [| | |i ? Hd| |]; subst. unfold keeps in Hk. cbn.
  destruct (cs_snapshot c) eqn:Hsn; [naive_solver|]. destruct Hk as [Hk|(j & [= <-] & Hat)]; [done|].
  pose proof (good_pass _ Hg) as Hl. pose proof (good_later _ _ Hl Hg) as Hg1.
  destruct (delta_at_mono _ _ _ _ _ (la_hist _ _ Hl) Hd) as (v & v' & Hv & Hv' & Hval & Hsch & Hprev & Hcur & Htime & Hrows).
  destruct (replica_at_later _ _ _ Hl Hat) as (s & v0 & Hst & Hv0 & Hss & Hsc & Hsv). rewrite Hv in Hv0. injection Hv0 as <-.
  rewrite (ApplyDelta_next _ _ _ _ s); [|done|by rewrite Hsch, <- (Accepts_id _ _ Ha)| |congruence].
  2: { rewrite Hss, Hsch, (later_schema _ _ Hl). by apply compatibleSchema_refl. }
  destruct (ProjStore.validateContext (ctx_of (pass w))) as [e|] eqn:Hctx.
  - apply refuses_spec; [by destruct Hg1|]. by apply cause_survives.
  - refine (proj1 (advanced_spec session (mkConsuming None true (cs_committed c)) r (pass w) _ (S i) _ _ _ _ _ _ _ _)); try done.
    + by rewrite (la_mine _ _ Hl).
    + by rewrite (later_schema _ _ Hl).
    + by eapply told_later.
    + eexists _, v'. cbn. rewrite Hsch, <- (Accepts_id _ _ Ha), lookup_insert_eq. split; [done|]. split; [done|].
      split; [by symmetry; apply (later_schema _ _ Hl)|]. split; [done|]. cbn. by rewrite Hrows, Hsv.
Qed.

Lemma frame_spec session c r w f p q : good w → session ∈ ww_mine w → Accepts (rc_Schema rc) (schema_of w) = None →
  keeps w c p → tells (schema_of w) (budget_of w) (sy_hist (ww_owner w)) p f q → told w session q →
  turn_spec session r (consume_frame rc f c r w).
Proof.
  intros Hg Hs Ha Hk Hf Ht. destruct f.
  - by eapply begin_spec.
  - by eapply chunk_spec.
  - by eapply end_spec.
  - by eapply delta_spec.
  - inversion Hf as [| | | |i v Hv Htime Hcur|]; subst. cbn. rewrite bool_decide_false by (rewrite Hcur; tauto).
    unfold IsZero. destruct (Z.eqb_spec (ve_time v) 0); [done|]. cbn [orb]. pose proof (observeLag_later (ve_time v) _ Hg) as Hl.
    split; [by eapply good_later|]. split; [done|]. cbn. eapply following_later; [done|]. split; [done|]. split; [done|]. by eexists.
  - inversion Hf as [| | | | |i j v v' _ _ _ Hcv Hcw]; subst. cbn. rewrite !bool_decide_false by (rewrite ?Hcv, ?Hcw; tauto). cbn [orb].
    pose proof (observe_later (event EventGap) _ Hg) as Hl. pose proof (good_later _ _ Hl Hg) as Hg1.
    destruct (cs_snapshot c); (split; [|done]); cbn; [|done]. eapply good_later; [by apply good_pass|done].
Qed.

Lemma consume_turn_spec session c r w : good w → following w session c → turn_spec session r (consume_turn rc session c r w).
Proof.
  intros Hg Hf. unfold consume_turn. cbn. pose proof (turn_later w (go_ok _ Hg) (go_mine _ Hg)) as Hl.
  destruct (turn w) as [prefer w1]. cbn in Hl.
  pose proof (await_spec session c (ww_sched w1) prefer w1 (good_later _ _ Hl Hg) (following_later _ _ _ _ Hl Hf)) as [Hg2 Hn].
  destruct (await _ _ _ _ _) as [[[f|]|e] w2]; cbn in Hg2, Hn.
  - destruct Hn as (Hs & Ha & p & q & Hk & Hf' & Ht). by eapply frame_spec.
  - done.
  - by apply refuses_spec.
Qed.

(** ** Connecting *)
Definition run_ok (r : Runtime nat) (w : world) : Prop := rt_runErr r = None ∨ ww_cause w ≠ None.
Definition place_ok (p : place snapshotTxn nat) (w : world) : Prop :=
  match p with Consuming session _ c => following w session c | _ => True end.
Definition error_ok (p : place snapshotTxn nat) (r : Runtime nat) (w : world) : Prop :=
  match p with Finished => run_ok r w | _ => rt_runErr r = None end.
Definition machine_ok (x : place snapshotTxn nat * vars * Runtime nat * world) : Prop :=
  good x.2 ∧ place_ok x.1.1.1 x.2 ∧ error_ok x.1.1.1 x.1.2 x.2.

Lemma ended_ok v r w err : good w → rt_runErr r = None → machine_ok (Finished, v, finish (signalReady err r), w).
Proof. intros Hg Hr. split; [done|]. split; [done|]. left. cbn. by rewrite signalReady_runErr. Qed.

Lemma wait_later attempt w : good w → later w (waitReconnect rc attempt w).2.
Proof.
  intros Hg. unfold waitReconnect. cbn. pose proof (observe_later (mkEvent EventReconnect "" ErrorNone attempt (Delay (rc_Backoff rc) attempt) 0) _ Hg) as Hl.
  eapply later_trans; [done|]. apply good_pass. by eapply good_later.
Qed.

(** The tail shared by the paths that reconnect. *)
Lemma reconnect_ok attempt v v' r w : good w → rt_runErr r = None →
  machine_ok (let '(expired, w) := waitReconnect rc attempt w in
    if expired then (Connecting, v, r, w) else let '(cause, w) := sw_cause w in (Finished, v', finish (signalReady cause r), w)).
Proof.
  intros Hg Hr. pose proof (wait_later attempt _ Hg) as Hl. destruct (waitReconnect rc attempt w) as [[] w1]; cbn in Hl.
  - split; [by eapply good_later|]. by split.
  - pose proof (good_later _ _ Hl Hg) as Hg1. apply ended_ok; [|done]. eapply good_later; [by apply good_pass|done].
Qed.

Lemma Open_Ok ctx request src session : (Open ctx request src).1 = Ok session →
  session = length (so_sessions src) ∧ Accepts (sr_Schema request) (so_schema src) = None ∧
  (sr_ForceSnapshot request = true ∨ sr_ForceSnapshot request = false ∧ ∃ after, decodeCursor (sr_After request) = Ok after).
Proof.
  unfold Open, add_session. destruct (validateContext _ _); [done|]. destruct (SubscribeRequest_Validate _); [done|].
  destruct (Accepts _ _); [done|]. destruct (so_closed src); [done|]. destruct (_ =? 0); [done|].
  destruct (sr_ForceSnapshot request); [intros [= <-]; auto|]. destruct (decodeCursor _) as [after|]; [|done].
  destruct (_ <? _); [done|]. destruct (_ <? _); intros [= <-]; eauto 6.
Qed.

(** Where a session opened at the replica's cursor starts is where the replica is. *)
Lemma start_keeps w request : good w →
  (sr_ForceSnapshot request = true ∨ sr_ForceSnapshot request = false ∧ ∃ after, decodeCursor (sr_After request) = Ok after) →
  (sr_ForceSnapshot request = true ∨ ∃ s, ww_store w !! id = Some s ∧ sr_After request = ps_cursor s) →
  keeps w (mkConsuming None false false) (start_phase request).
Proof.
  intros Hg Hf Hr. unfold keeps, start_phase. cbn. destruct (sr_ForceSnapshot request); [by left|].
  destruct Hf as [|(_ & after & Hd)]; [done|]. destruct Hr as [|(s & Hs & Hafter)]; [done|]. rewrite Hd. right. eexists. split; [done|].
  destruct (go_replica _ Hg) as [Hn|(i & Hat)]; [congruence|]. pose proof Hat as (s' & v & Hs' & Hv & _ & Hc & _).
  rewrite Hs in Hs'. injection Hs' as <-. apply decodeCursor_Ok in Hd as [Hd Hu].
  rewrite Hafter, Hc, (ok_cursors _ (go_ok _ Hg) _ _ Hv) in Hd. pose proof (ok_offset _ (go_ok _ Hg)). pose proof (ok_length _ (go_ok _ Hg)).
  apply lookup_lt_Some in Hv. apply encodeCursor_inj in Hd; [|unfold is_u64; lia|done]. by rewrite <- Hd, Nat2Z.id.
Qed.

Lemma open_spec request w session : good w → sr_Schema request = rc_Schema rc →
  (sr_ForceSnapshot request = true ∨ ∃ s, ww_store w !! id = Some s ∧ sr_After request = ps_cursor s) →
  (Open (ctx_of w) request (sy_src (ww_owner w))).1 = Ok session →
  good (open_session request w).2 ∧ following (open_session request w).2 session (mkConsuming None false false) ∧
  ww_cause (open_session request w).2 = ww_cause w.
Proof.
  intros Hg Hsch Hr Ho. pose proof (Open_Ok _ _ _ _ Ho) as (Hid & Ha & Hf). rewrite Hsch in Ha.
  pose proof (start_keeps w request Hg Hf Hr) as Hk. unfold open_session. rewrite Ho. cbn [snd].
  pose proof (step_ok (ww_owner w) (OpOpen (ctx_of w) request) (go_ok _ Hg)) as Hok.
  pose proof (step_config (ww_owner w) (OpOpen (ctx_of w) request)) as Hcfg.
  assert (Hhist : sy_hist (ProjOwnerSpec.step (ww_owner w) (OpOpen (ctx_of w) request)) = sy_hist (ww_owner w) ∧
    sy_seen (ProjOwnerSpec.step (ww_owner w) (OpOpen (ctx_of w) request)) = sy_seen (ww_owner w) ++ [(start_phase request, [])]).
  { unfold ProjOwnerSpec.step. by destruct (Open _ _ _) as [[] src']. }
  destruct Hhist as [Hhist Hseen]. remember (ProjOwnerSpec.step (ww_owner w) (OpOpen (ctx_of w) request)) as o eqn:Eo. clear Eo.
  unfold config in Hcfg. injection Hcfg as Hs1 _ Hb1 _. rewrite <- (ok_seen _ (go_ok _ Hg)) in Hid.
  match goal with |- good ?x ∧ _ => set (w1 := x) end.
  assert (Hrep : ∀ i, replica_at w i → replica_at w1 i).
  { intros i (s & v & ?). exists s, v. unfold schema_of. cbn. by rewrite Hhist, Hs1. }
  split; [|split; [|done]].
  - constructor; cbn; [done| | |apply Hg].
    + intros i. cbn. rewrite Hseen, length_app. cbn. rewrite elem_of_union, elem_of_singleton. intros [->|Hi]; [lia|].
      pose proof (go_mine _ Hg i Hi). lia.
    + destruct (go_replica _ Hg) as [Hn|[i Hi]]; [by left|right; eauto].
  - split; [cbn; set_solver|]. split; [unfold schema_of; cbn; by rewrite Hs1|]. exists (start_phase request). split.
    + exists (start_phase request), []. split; [cbn; by rewrite Hseen, Hid, lookup_app_r, Nat.sub_diag|constructor].
    + unfold keeps in *. cbn in *. naive_solver.
Qed.

Lemma open_failed request w e : good w → (Open (ctx_of w) request (sy_src (ww_owner w))).1 = Err e → later w (open_session request w).2.
Proof.
  intros Hg Ho. unfold open_session. rewrite Ho. cbn [snd].
  apply (act_later w (EnvOwner (OpOpen (ctx_of w) request))); apply Hg.
Qed.

Lemma connect_spec v r w : Schema_Validate (rc_Schema rc) = None → good w → rt_runErr r = None → machine_ok (connect rc v r w).
Proof.
  intros Hschema Hg Hr. unfold connect. cbn.
  pose proof (good_pass _ Hg) as Hl1. pose proof (good_later _ _ Hl1 Hg) as Hg1. set (w1 := pass w) in *.
  destruct (ww_cause w1) as [c|] eqn:Hcause.
  { by apply ended_ok. }
  pose proof (good_pass _ Hg1) as Hl2. pose proof (good_later _ _ Hl2 Hg1) as Hg2. set (w2 := pass w1) in *.
  assert (Hid : ProjectionID_Validate id = None).
  { unfold Schema_Validate in Hschema. by destruct (ProjectionID_Validate id). }
  unfold ProjStore.Checkpoint. destruct (ProjStore.validateContext (ctx_of w2)) as [e|] eqn:Hctx.
  { pose proof (observe_later (error_event ErrorStore (va_attempt v)) _ Hg2) as Hl. split; [by eapply good_later|]. split; [done|].
    right. cbn in Hctx. unfold ctx_of in Hctx. cbn in Hctx |- *. by rewrite (la_cause _ _ Hl _ Hctx). }
  rewrite Hid. set (force := va_force v || _). set (request := mkSubscribe _ _ _).
  pose proof (good_pass _ Hg2) as Hl3. pose proof (good_later _ _ Hl3 Hg2) as Hg3. set (w3 := pass w2) in *.
  assert (Hreq : sr_ForceSnapshot request = true ∨ ∃ s, ww_store w3 !! id = Some s ∧ sr_After request = ps_cursor s).
  { unfold request. cbn. rewrite (la_store _ _ Hl3). destruct force eqn:Hforce; [by left|right].
    destruct (ww_store w2 !! id) as [s|]; [by exists s|]. unfold force in Hforce. cbn in Hforce. by rewrite orb_true_r in Hforce. }
  destruct (Open (ctx_of w3) request (sy_src (ww_owner w3))).1 as [session|e] eqn:Ho.
  - pose proof (open_spec request w3 session Hg3 eq_refl Hreq Ho) as (Hg4 & Hf & Hc4). 
    assert (Hopen : open_session request w3 = (Ok (Some session), (open_session request w3).2)) by (unfold open_session; by rewrite Ho).
    rewrite Hopen. set (w4 := (open_session request w3).2) in *.
    pose proof (good_pass _ Hg4) as Hl5. pose proof (good_later _ _ Hl5 Hg4) as Hg5.
    set (w6 := if ww_stop (pass w4) then _ else _).
    assert (Hl6 : later w4 w6).
    { unfold w6. destruct (ww_stop _); [|done]. eapply later_trans; [done|]. by apply (close_later session). }
    pose proof (good_later _ _ Hl6 Hg4) as Hg6.
    pose proof (later_trans _ _ _ Hl6 (observe_later (mkEvent EventConnect "" ErrorNone (va_attempt v) 0 0) _ Hg6)) as Hl7.
    split; [by eapply good_later|]. split; [by eapply following_later|]. cbn. destruct force; [done|by rewrite signalReady_runErr].
  - pose proof (open_failed _ _ _ Hg3 Ho) as Hl4. pose proof (good_later _ _ Hl4 Hg3) as Hg4.
    assert (Hopen : open_session request w3 = (Err e, (open_session request w3).2)) by (unfold open_session; by rewrite Ho).
    rewrite Hopen. set (w4 := (open_session request w3).2) in *. pose proof (good_pass _ Hg4) as Hl5. pose proof (good_later _ _ Hl5 Hg4) as Hg5.
    destruct (ww_cause (pass w4)) as [c|].
    { by apply ended_ok. }
    pose proof (observe_later (error_event ErrorSource (va_attempt v)) _ Hg5) as Hl6.
    apply reconnect_ok; [by eapply good_later|done].
Qed.

Lemma after_spec session token res v r w : good w → rt_runErr r = None → (∀ e, cd_err res = Some e → survives w (ce_err e)) →
  machine_ok (after_consume rc session token res v r w).
Proof.
  intros Hg Hr He. unfold after_consume. set (r1 := clearActive token r).
  assert (Hr1 : rt_runErr r1 = None) by (unfold r1, clearActive; by destruct (_ =? _)).
  pose proof (close_later session _ Hg) as Hl1. pose proof (good_later _ _ Hl1 Hg) as Hg1. set (w1 := sw_Close session w) in *.
  pose proof (good_pass _ Hg1) as Hl2. pose proof (good_later _ _ Hl2 Hg1) as Hg2.
  change (sw_cause w1) with (ww_cause (pass w1), pass w1). cbv iota beta zeta. set (w2 := pass w1) in *.
  assert (Hl : later w w2) by (by eapply later_trans).
  destruct (ww_cause w2) as [c|] eqn:Hc.
  { by apply ended_ok. }
  destruct (cd_gap res); [by split|]. destruct (cd_err res) as [e|]; [|by apply reconnect_ok].
  match goal with |- context [error_event ?a ?b] => pose proof (observe_later (error_event a b) _ Hg2) as Hl3 end.
  destruct (survives_later _ _ _ Hl (He e eq_refl)) as [Hfatal|Hcause]; [rewrite Hfatal|congruence].
  apply reconnect_ok; [by eapply good_later|]. done.
Qed.

Lemma machine_step p v r w : Schema_Validate (rc_Schema rc) = None → machine_ok (p, v, r, w) → machine_ok (step rc p v r w).
Proof.
  intros Hs (Hg & Hp & Hr). cbn in Hg, Hp, Hr. destruct p as [|session token c|]; cbn [step]; [by apply connect_spec| |done].
  pose proof (consume_turn_spec session c r w Hg Hp) as (Hg1 & Er & Ho).
  destruct (consume_turn rc session c r w) as [[[c'|res] r'] w']; cbn in Hg1, Er, Ho.
  - split; [done|]. split; [done|]. cbn. congruence.
  - apply after_spec; [done|congruence|done].
Qed.

Lemma machine_run n : ∀ p v r w, Schema_Validate (rc_Schema rc) = None → machine_ok (p, v, r, w) → machine_ok (run rc n p v r w).
Proof.
  induction n as [|n IH]; intros p v r w Hs H; cbn [run]; [done|]. pose proof (machine_step p v r w Hs H) as Hm.
  destruct (step rc p v r w) as [[[p' v'] r'] w']. by apply IH.
Qed.
End replica.

Definition world_of (src : Source) (sched : list tick) : world := mkWorld ∅ (start src) None false 0 ∅ sched [] [].

(** C4: a replica follows its owner.  Let a runtime replicate a memory owner into an empty memory
    store, while the environment commits, replaces and compacts, opens, reads and closes other
    sessions, drops the runtime's session or ends its context, all in any order between the calls
    of the runtime.  After any number of turns the replica, if it exists, holds rows and cursor of
    one version of the owner; whenever the runtime had to wait for a frame, its replica was the
    owner's table of that moment; and the runtime has reported no error unless its own context
    ended. *)
Theorem replica_follows_owner schema retention chunkBudget src rc0 rc sched n :
  New schema retention chunkBudget = Ok src → NewRuntime rc0 = Ok rc →
  let id := sc_ID (rc_Schema rc) in
  let '(_, _, r, w) := run (H := composed id) rc n Connecting (mkVars false 0) idle (world_of src sched) in
  (∀ s, ww_store w !! id = Some s → ∃ i v, sy_hist (ww_owner w) !! i = Some v ∧ ps_cursor s = ve_cursor v ∧ ps_values s = ve_rows v) ∧
  (∀ owner replica, (owner, replica) ∈ ww_waits w → replica = Some owner) ∧
  (rt_runErr r = None ∨ ww_cause w ≠ None).
Proof.
  intros Hnew Hrc id. assert (Hs : Schema_Validate (rc_Schema rc) = None).
  { unfold NewRuntime in Hrc. destruct (_ || _); [done|]. destruct (Schema_Validate (rc_Schema rc0)) eqn:E; [done|]. by injection Hrc as <-. }
  assert (Hstart : machine_ok rc (Connecting, mkVars false 0, idle, world_of src sched)).
  { split; [|by split]. constructor; cbn; [by eapply new_owner_ok|by intros s|by left|constructor]. }
  pose proof (machine_run rc n _ _ _ _ Hs Hstart) as (Hg & _ & He). fold id. unfold the_world in *. fold id in Hg, He.
  destruct (run rc n Connecting _ idle (world_of src sched)) as [[[p v] r] w]. cbn in Hg, He. split; [|split].
  - intros s Hst. destruct (go_replica _ _ Hg) as [Hn|(i & s' & v' & Hs' & Hv & _ & Hc & Hvals)]; [unfold id in Hst; congruence|].
    unfold id in Hst. rewrite Hst in Hs'. injection Hs' as <-. eauto.
  - intros o rep Hin. by apply (proj1 (Forall_forall _ _) (go_waits _ _ Hg)) in Hin.
  - destruct p; try by left. done.
Qed.

(** ** Witnesses *)
Definition ex_config : RuntimeConfig := mkRuntimeConfig "replica" ex_schema true true true true (defaultBackoff 7).
Definition quiet : tick := mkTick [] false.
Definition ex_sched : list tick :=
  [mkTick [EnvOwner (OpSeed [Upsert "a" "1"] 5); EnvTime 9] false] ++ replicate 30 quiet ++
  [mkTick [EnvOwner (OpCommit [Upsert "b" "2"] 6)] false] ++ replicate 10 quiet ++
  [mkTick [EnvOwner (OpCloseSession 0)] true; mkTick [EnvOwner (OpReplace [Upsert "b" "3"] 7)] false] ++ replicate 40 quiet.
Definition ex_run : place snapshotTxn nat * vars * Runtime nat * world :=
  run (H := composed "orders") ex_config 12 Connecting (mkVars false 0) idle (world_of ex_source ex_sched).

Example ex_run_waits : remove_dups (fst <$> ww_waits ex_run.2) =
  [{["a" := "1"]}; {["a" := "1"; "b" := "2"]}; {["b" := "3"]}] ∧ rt_ready ex_run.1.2 = Some None.
Proof. vm_compute. split; reflexivity. Qed.

Lemma replica_follows_owner_witness :
  ww_waits ex_run.2 ≠ [] ∧ (∀ owner replica, (owner, replica) ∈ ww_waits ex_run.2 → replica = Some owner).
Proof.
  split; [intros E; pose proof (proj1 ex_run_waits) as H; rewrite E in H; discriminate H|].
  pose proof (replica_follows_owner ex_schema 2 64 ex_source ex_config ex_config ex_sched 12 eq_refl eq_refl) as H.
  cbv zeta in H. change (sc_ID (rc_Schema ex_config)) with "orders" in H.
  change (run ex_config 12 Connecting (mkVars false 0) idle (world_of ex_source ex_sched)) with ex_run in H.
  clear -H. destruct ex_run as [[[p v] r] w]. exact (proj1 (proj2 H)).
Defined.

(** A cancellation (such as that of [Stop]) that falls between the test of the context at the head
    of the loop and the store's own test is reported as a failure of the runtime. *)
Example cancel_reported_as_failure :
  rt_runErr (run (H := composed "orders") ex_config 1 Connecting (mkVars false 0) idle
    (world_of ex_source [quiet; mkTick [EnvCancel ErrCanceled] false])).1.2 = Some ErrCanceled ∧
  rt_runErr (run (H := composed "orders") ex_config 1 Connecting (mkVars false 0) idle
    (world_of ex_source [mkTick [EnvCancel ErrCanceled] false])).1.2 = None.
Proof. vm_compute. split; reflexivity. Qed.
