(* ===== verification/ProjShard.v ===== *)
(** * programmable/projection: shards and migrations

    Models [shard.go] (shard identities, rendezvous and range resolvers) and [migration.go] (the
    registry of upcasters).  Keys and values are type parameters, as in the source.  The theorems:
    a resolver answers with one of its shards whenever the key can be encoded, and adding a shard
    to a rendezvous resolver moves only the keys the new shard wins. *)
From S2P Require Import Prelude GoText Sha256 Projection ProjStore ProjOwner.
Open Scope Z_scope.

Definition maxShards : Z := 4096.

(** [sort.Slice] by [<] and the scan for invalid and repeated identities. *)
Fixpoint shards_ok (previous : option string) (shards : list string) : bool :=
  match shards with
  | [] => true
  | shard :: shards =>
      if negb (ShardID_Validate shard) || bool_decide (previous = Some shard) then false else shards_ok (Some shard) shards
  end.
Definition canonicalShards (values : list string) : option (list string) :=
  if (zlen values =? 0) || (maxShards <? zlen values) then None
  else
    let result := sort_strings values in
    if shards_ok None result then Some result else None.

(** The first eight bytes of the digest, big-endian. *)
Definition shardScore (key : list Z) (shard : string) : Z := be_value (take 8 (sha256_bytes (key ++ [0] ++ bytes_of shard))).

Inductive sherror := ErrInvalidShard | ErrEncodeKey (err : perror).

Section resolvers.
Context {K : Type}.

(** ** Rendezvous hashing *)
Record HashShardResolver := mkHash { hr_keyFingerprint : string; hr_encode : K → result perror (list Z); hr_shards : list string }.

(** [None] is a nil encoder. *)
Definition NewHashShardResolver (keyFingerprint : string) (encode : option (K → result perror (list Z))) (shards : list string) :
    result sherror HashShardResolver :=
  match encode with
  | None => Err ErrInvalidShard
  | Some encode =>
      if negb (validFingerprint keyFingerprint) then Err ErrInvalidShard
      else match canonicalShards shards with
      | None => Err ErrInvalidShard
      | Some canonical => Ok (mkHash keyFingerprint encode canonical)
      end
  end.

Fixpoint winner_from (key : list Z) (winner : string) (winnerScore : Z) (shards : list string) : string :=
  match shards with
  | [] => winner
  | shard :: shards =>
      let score := shardScore key shard in
      if winnerScore <? score then winner_from key shard score shards else winner_from key winner winnerScore shards
  end.
Definition winner (key : list Z) (shards : list string) : option string :=
  match shards with
  | [] => None
  | shard :: shards => Some (winner_from key shard (shardScore key shard) shards)
  end.

Definition hash_Resolve (resolver : HashShardResolver) (key : K) : result sherror string :=
  match hr_shards resolver with
  | [] => Err ErrInvalidShard
  | _ =>
      match hr_encode resolver key with
      | Err err => Err (ErrEncodeKey err)
      | Ok encoded =>
          if (zlen encoded =? 0) || (maxKeyBytes <? zlen encoded) then Err ErrInvalidShard
          else match winner encoded (hr_shards resolver) with Some shard => Ok shard | None => Err ErrInvalidShard end
      end
  end.

(** ** Ranges *)
Record RangeBoundary := mkBoundary { rb_Upper : K; rb_Shard : string }.
Record RangeShardResolver := mkRange {
  rr_keyFingerprint : string;
  rr_compare : K → K → Z;
  rr_boundaries : list RangeBoundary;
  rr_fallback : string;
  rr_shards : list string
}.

Fixpoint boundaries_ok (compare : K → K → Z) (previous : option K) (boundaries : list RangeBoundary) : bool :=
  match boundaries with
  | [] => true
  | b :: boundaries =>
      if negb (ShardID_Validate (rb_Shard b)) ||
         match previous with Some p => 0 <=? compare p (rb_Upper b) | None => false end
      then false
      else boundaries_ok compare (Some (rb_Upper b)) boundaries
  end.

Definition NewRangeShardResolver (keyFingerprint : string) (compare : option (K → K → Z)) (boundaries : list RangeBoundary)
    (fallback : string) : result sherror RangeShardResolver :=
  match compare with
  | None => Err ErrInvalidShard
  | Some compare =>
      if negb (validFingerprint keyFingerprint) || (zlen boundaries =? 0) || (maxShards <? zlen boundaries) ||
         negb (ShardID_Validate fallback)
      then Err ErrInvalidShard
      else if negb (boundaries_ok compare None boundaries) then Err ErrInvalidShard
      else match canonicalShards ((rb_Shard <$> boundaries) ++ [fallback]) with
      | None => Err ErrInvalidShard
      | Some canonical => Ok (mkRange keyFingerprint compare boundaries fallback canonical)
      end
  end.

Definition range_Resolve (resolver : RangeShardResolver) (key : K) : string :=
  match List.find (λ b, rr_compare resolver key (rb_Upper b) <? 0) (rr_boundaries resolver) with
  | Some b => rb_Shard b
  | None => rr_fallback resolver
  end.
End resolvers.
Arguments HashShardResolver : clear implicits.
Arguments RangeBoundary : clear implicits.
Arguments RangeShardResolver : clear implicits.

(** ** Migrations *)
Inductive migerror :=
| ErrInvalidMigration | ErrMigrationMajor | ErrMigrationMissing (expected actual : string) | ErrUpcast (err : perror).

Section migrations.
Context {V : Type}.
Record MigrationStep := mkStep {
  ms_PreviousFingerprint : string;
  ms_CurrentFingerprint : string;
  ms_PreviousMajor : Z;
  ms_CurrentMajor : Z;
  ms_Upcast : option (string → result perror V)
}.
Record MigrationRegistry := mkRegistry {
  mr_currentFingerprint : string;
  mr_currentMajor : Z;
  mr_upcasters : gmap string (string → result perror V)
}.

Fixpoint add_steps (current : string) (major : Z) (steps : list MigrationStep)
    (upcasters : gmap string (string → result perror V)) : result migerror (gmap string (string → result perror V)) :=
  match steps with
  | [] => Ok upcasters
  | step :: steps =>
      match ms_Upcast step with
      | None => Err ErrInvalidMigration
      | Some upcast =>
          if negb (validFingerprint (ms_PreviousFingerprint step)) || negb (validFingerprint (ms_CurrentFingerprint step)) ||
             (ms_PreviousFingerprint step == ms_CurrentFingerprint step) || (ms_CurrentFingerprint step != current) ||
             (ms_PreviousMajor step =? 0) || (ms_CurrentMajor step =? 0)
          then Err ErrInvalidMigration
          else if negb (ms_PreviousMajor step =? ms_CurrentMajor step) || negb (ms_CurrentMajor step =? major) then Err ErrMigrationMajor
          else match upcasters !! ms_PreviousFingerprint step with
          | Some _ => Err ErrInvalidMigration
          | None => add_steps current major steps (<[ms_PreviousFingerprint step := upcast]> upcasters)
          end
      end
  end.

Definition NewMigrationRegistry (currentFingerprint : string) (currentMajor : Z) (steps : list MigrationStep) :
    result migerror MigrationRegistry :=
  if negb (validFingerprint currentFingerprint) || (currentMajor =? 0) || (maxCompatibleSchemas <? zlen steps)
  then Err ErrInvalidMigration
  else
    upcasters ← add_steps currentFingerprint currentMajor steps ∅;
    Ok (mkRegistry currentFingerprint currentMajor upcasters).

Definition CompatibleFingerprints (registry : MigrationRegistry) : list string :=
  match NewFingerprintSet (elements (dom (mr_upcasters registry))) with Ok set => set | Err _ => [] end.
Definition Decoders (registry : MigrationRegistry) : gmap string (string → result perror V) := mr_upcasters registry.
Definition Upcast (registry : MigrationRegistry) (fingerprint payload : string) : result migerror V :=
  if negb (validFingerprint fingerprint) || (maxValueBytes <? slen payload) then Err ErrInvalidMigration
  else match mr_upcasters registry !! fingerprint with
  | None => Err (ErrMigrationMissing (mr_currentFingerprint registry) fingerprint)
  | Some upcast => match upcast payload with Ok value => Ok value | Err err => Err (ErrUpcast err) end
  end.
End migrations.
Arguments MigrationStep : clear implicits.
Arguments MigrationRegistry : clear implicits.

(** * Rendezvous *)

(** [a] is preferred to [b]: a higher score, and the smaller name among equal scores. *)
Definition beats (key : list Z) (a b : string) : Prop :=
  shardScore key b < shardScore key a ∨ shardScore key a = shardScore key b ∧ String.le a b.

Lemma beats_antisym key a b : beats key a b → beats key b a → a = b.
Proof. intros [H|[H Hl]] [H'|[H' Hl']]; try lia. by apply (anti_symm String.le). Qed.

Lemma winner_from_spec key l : ∀ w, StronglySorted String.le (w :: l) →
  winner_from key w (shardScore key w) l ∈ w :: l ∧ Forall (beats key (winner_from key w (shardScore key w) l)) (w :: l).
Proof.
  induction l as [|s l IH]; intros w Hs; cbn [winner_from].
  { split; [set_solver|]. apply Forall_singleton. by right. }
  apply StronglySorted_inv in Hs as [Hs Hw]. apply Forall_cons in Hw as [Hws Hw].
  destruct (Z.ltb_spec (shardScore key w) (shardScore key s)) as [Hlt|Hge].
  - destruct (IH s Hs) as [Hin Hb]. split; [set_solver|]. apply Forall_cons. split; [|done].
    apply Forall_cons in Hb as [[Hb|[Hb _]] _]; left; lia.
  - destruct (IH w) as [Hin Hb]; [constructor; [by apply StronglySorted_inv in Hs as [? _]|done]|].
    split; [set_solver|]. apply Forall_cons in Hb as [Hw' Hb]. constructor; [done|]. constructor; [|done].
    destruct Hw' as [Hw'|[Heq Hle]]; [left; lia|]. destruct (Z.eq_dec (shardScore key w) (shardScore key s)); [|left; lia].
    right. split; [lia|]. by etrans.
Qed.

Lemma winner_spec key l w : StronglySorted String.le l → winner key l = Some w → w ∈ l ∧ Forall (beats key w) l.
Proof. destruct l as [|s l]; [done|]. intros Hs [= <-]. by apply winner_from_spec. Qed.

Lemma winner_Some key l : l ≠ [] → is_Some (winner key l).
Proof. destruct l; [done|]. eexists. done. Qed.

Lemma canonicalShards_Some l c : canonicalShards l = Some c → c = sort_strings l ∧ l ≠ [].
Proof.
  unfold canonicalShards. destruct (_ || _) eqn:Hn; [done|]. destruct (shards_ok _ _); [|done]. intros [= <-]. split; [done|].
  intros ->. done.
Qed.

(** a rendezvous resolver is total over its shards (a key whose encoding is acceptable gets
    exactly one of them), does not depend on the order in which the shards are configured, and
    adding or removing one shard moves only the keys that this shard wins. *)
Theorem rendezvous_stable {K} fp (encode : K → result perror (list Z)) shards shards' extra r r' key :
  NewHashShardResolver fp (Some encode) shards = Ok r → NewHashShardResolver fp (Some encode) shards' = Ok r' →
  shards' ≡ₚ extra ++ shards → zlen extra ≤ 1 →
  (∀ bytes, encode key = Ok bytes → 0 < zlen bytes ≤ maxKeyBytes → ∃ shard, shard ∈ shards ∧ hash_Resolve r key = Ok shard) ∧
  (hash_Resolve r' key = hash_Resolve r key ∨ ∃ shard, extra = [shard] ∧ hash_Resolve r' key = Ok shard).
Proof.
  unfold NewHashShardResolver. destruct (validFingerprint fp); [|done]. cbn [negb].
  destruct (canonicalShards shards) as [c|] eqn:Hc; [|done]. destruct (canonicalShards shards') as [c'|] eqn:Hc'; [|done].
  intros [= <-] [= <-] Hperm Hextra. apply canonicalShards_Some in Hc as [-> Hne], Hc' as [-> Hne'].
  assert (Hsort : ∀ l, l ≠ [] → sort_strings l ≠ []).
  { intros l Hl E. apply (f_equal length) in E. rewrite length_sort_strings in E. by destruct l. }
  assert (Hres : ∀ l, l ≠ [] → hash_Resolve (mkHash fp encode (sort_strings l)) key =
    match encode key with
    | Err err => Err (ErrEncodeKey err)
    | Ok b => if (zlen b =? 0) || (maxKeyBytes <? zlen b) then Err ErrInvalidShard
              else match winner b (sort_strings l) with Some s => Ok s | None => Err ErrInvalidShard end
    end).
  { intros l Hl. unfold hash_Resolve. cbn. by destruct (sort_strings l) eqn:E; [apply Hsort in E|]. }
  rewrite !Hres by done. destruct (encode key) as [b|e]; [|by split; [|left]].
  destruct (winner_Some b (sort_strings shards) (Hsort _ Hne)) as [w Hw]. rewrite Hw.
  destruct (winner_Some b (sort_strings shards') (Hsort _ Hne')) as [w' Hw']. rewrite Hw'.
  apply winner_spec in Hw as [Hin Hb], Hw' as [Hin' Hb']; try apply sort_strings_sorted. rewrite elem_of_sort_strings in *.
  split.
  - intros b0 [= <-] Hlen. exists w. split; [done|]. destruct (Z.eqb_spec (zlen b) 0); [lia|].
    by destruct (Z.ltb_spec maxKeyBytes (zlen b)); [lia|].
  - destruct (_ || _); [by left|]. rewrite Forall_forall in Hb, Hb'.
    rewrite Hperm, elem_of_app in Hin'. destruct Hin' as [Hx|Hx].
    + right. exists w'. split; [|done]. destruct extra as [|x [|y l]]; [by apply not_elem_of_nil in Hx|by apply list_elem_of_singleton in Hx as ->|].
      rewrite !zlen_cons in Hextra. pose proof (zlen_nonneg l). lia.
    + left. f_equal. apply (beats_antisym b).
      * apply Hb'. rewrite elem_of_sort_strings, Hperm, elem_of_app. by right.
      * apply Hb. by rewrite elem_of_sort_strings.
Qed.

(** * Ranges *)

(** A range resolver answers with one of its shards, namely that of the first
    boundary above the key. *)
Lemma range_resolve_known {K} fp (compare : K → K → Z) bs fallback r key :
  NewRangeShardResolver fp (Some compare) bs fallback = Ok r → range_Resolve r key ∈ rr_shards r.
Proof.
  unfold NewRangeShardResolver. destruct (_ || _); [done|]. destruct (negb _); [done|].
  destruct (canonicalShards _) as [c|] eqn:Hc; [|done]. intros [= <-]. apply canonicalShards_Some in Hc as [-> _]. cbn.
  rewrite elem_of_sort_strings, elem_of_app. unfold range_Resolve. cbn. destruct (List.find _ bs) as [b|] eqn:Hf; [|right; set_solver].
  left. apply list_elem_of_fmap. exists b. split; [done|]. apply find_some in Hf as [Hf _]. by apply list_elem_of_In.
Qed.

(** ** Witness *)
Definition ex_encode (key : string) : result perror (list Z) := Ok (bytes_of key).
Definition ex_two : HashShardResolver string := mkHash ex_fingerprint ex_encode ["a"; "b"].
Definition ex_three : HashShardResolver string := mkHash ex_fingerprint ex_encode ["a"; "b"; "c"].
Definition ex_keys : list string := ["k1"; "k2"; "k3"; "k4"; "k5"].

Example ex_moves : (λ k, (hash_Resolve ex_two k, hash_Resolve ex_three k)) <$> ex_keys =
  [(Ok "a", Ok "c"); (Ok "a", Ok "a"); (Ok "a", Ok "c"); (Ok "a", Ok "a"); (Ok "b", Ok "b")].
Proof. vm_compute. reflexivity. Qed.

Lemma rendezvous_stable_witness :
  (∃ shard, shard ∈ ["b"; "a"] ∧ hash_Resolve ex_two "k2" = Ok shard) ∧
  (hash_Resolve ex_three "k2" = hash_Resolve ex_two "k2" ∨ ∃ shard, ["c"] = [shard] ∧ hash_Resolve ex_three "k2" = Ok shard).
Proof.
  pose proof (rendezvous_stable ex_fingerprint ex_encode ["b"; "a"] ["b"; "c"; "a"] ["c"] ex_two ex_three "k2") as H.
  destruct H as [H1 H2]; [vm_compute; reflexivity|vm_compute; reflexivity|exact (Permutation_swap _ _ _)|vm_compute; discriminate|].
  split; [apply (H1 (bytes_of "k2")); [reflexivity|split; [reflexivity|vm_compute; discriminate]]|exact H2].
Defined.
