(* ===== verification/ProjScheduler.v ===== *)
(** * programmable/projection: the fair scheduler

    Models [scheduler.go] and the tenants of [quota.go].  Queues, waiters and permits are shared
    pointers in the source and indices into heaps here.  [Acquire] is split at its [select]: the
    part under the lock, the receipt of the result, and the branch of an ended context; each part
    is one step.  The theorems: one permit at a time, no idle slot while someone waits, exact
    counts within the configured limits, grants in order within a tenant, termination of the
    dispatch loop, and the starvation of a waiting tenant by fresh ones. *)
From S2P Require Import Prelude GoText Sha256 Projection.
Open Scope Z_scope.

(** ** Tenants *)
Inductive TenantClass := TenantStandard | TenantBulk | TenantSystem | TenantOther (class : string).
#[export] Instance TenantClass_eq_dec : EqDecision TenantClass.
Proof. solve_decision. Defined.
Definition maxTenantIdentityBytes : Z := 256.
Definition validTenantClass (class : TenantClass) : bool := match class with TenantOther _ => false | _ => true end.
Definition zero_key : string := string_of_bytes (replicate 32 0).
Record Tenant := mkTenant { tn_key : string; tn_class : TenantClass }.
Definition NewTenant (identity : string) (class : TenantClass) : option Tenant :=
  if negb (validIdentity identity maxTenantIdentityBytes) || negb (validTenantClass class) then None
  else Some (mkTenant (sha256 (bytes_of identity)) class).
Definition tenant_Valid (tenant : Tenant) : bool := (tn_key tenant != zero_key) && validTenantClass (tn_class tenant).

(** ** State *)
Inductive scherror :=
| ErrInvalidScheduler | ErrSchedulerClosed | SchedulerFull (class : TenantClass) (retryAfter : duration) | ErrCause (err : perror).

Record tenantQueue := mkQueue { tq_key : string; tq_class : TenantClass; tq_deficit : Z; tq_waiters : list nat }.
Record scheduleWaiter := mkWaiter {
  sw_cost : Z;
  sw_queue : nat;
  sw_permit : option nat;                              (* [granted] and its permit *)
  sw_result : option (scherror + nat)                  (* what was sent to [result] *)
}.

Record FairScheduler := mkScheduler {
  fs_quantum : TenantClass → option Z;
  fs_perTenant : Z;
  fs_totalLimit : Z;
  fs_maxCost : Z;
  fs_retryAfter : duration;
  fs_queues : gmap string nat;
  fs_order : list nat;
  fs_next : nat;
  fs_queued : Z;
  fs_active : bool;
  fs_closed : bool;
  fs_heap : list tenantQueue;                          (* every queue made so far *)
  fs_waiters : list scheduleWaiter;                    (* every waiter *)
  fs_permits : list bool                               (* every permit; [true] once closed *)
}.

Record SchedulerConfig := mkSchedulerConfig {
  cf_QuantumByClass : list (TenantClass * Z);          (* a map: one entry per class *)
  cf_MaxQueuedPerTenant : Z;
  cf_MaxQueuedTotal : Z;
  cf_MaxCostBytes : Z;
  cf_RetryAfter : duration
}.
Definition quantum_of (l : list (TenantClass * Z)) (class : TenantClass) : option Z :=
  snd <$> List.find (λ p, p.1 == class) l.

Definition NewFairScheduler (config : SchedulerConfig) : option FairScheduler :=
  if (zlen (cf_QuantumByClass config) =? 0) || (3 <? zlen (cf_QuantumByClass config)) ||
     (cf_MaxQueuedPerTenant config <=? 0) || (1000000 <? cf_MaxQueuedPerTenant config) ||
     (cf_MaxQueuedTotal config <? cf_MaxQueuedPerTenant config) || (10000000 <? cf_MaxQueuedTotal config) ||
     (cf_MaxCostBytes config <=? 0) || (maxDeltaBytes <? cf_MaxCostBytes config) ||
     (cf_RetryAfter config <=? 0) || (hour <? cf_RetryAfter config)
  then None
  else if negb (forallb (λ p, validTenantClass p.1 && (0 <? p.2) && (p.2 <=? cf_MaxCostBytes config)) (cf_QuantumByClass config))
  then None
  else if negb (bool_decide (is_Some (quantum_of (cf_QuantumByClass config) TenantStandard))) then None
  else Some (mkScheduler (quantum_of (cf_QuantumByClass config)) (cf_MaxQueuedPerTenant config) (cf_MaxQueuedTotal config)
               (cf_MaxCostBytes config) (cf_RetryAfter config) ∅ [] 0 0 false false [] [] []).

(** ** Updates *)
Definition set_queues (queues : gmap string nat) (order : list nat) (next : nat) (f : FairScheduler) : FairScheduler :=
  mkScheduler (fs_quantum f) (fs_perTenant f) (fs_totalLimit f) (fs_maxCost f) (fs_retryAfter f) queues order next
    (fs_queued f) (fs_active f) (fs_closed f) (fs_heap f) (fs_waiters f) (fs_permits f).
Definition set_heap (heap : list tenantQueue) (queued : Z) (f : FairScheduler) : FairScheduler :=
  mkScheduler (fs_quantum f) (fs_perTenant f) (fs_totalLimit f) (fs_maxCost f) (fs_retryAfter f) (fs_queues f) (fs_order f)
    (fs_next f) queued (fs_active f) (fs_closed f) heap (fs_waiters f) (fs_permits f).
Definition set_waiters (waiters : list scheduleWaiter) (f : FairScheduler) : FairScheduler :=
  mkScheduler (fs_quantum f) (fs_perTenant f) (fs_totalLimit f) (fs_maxCost f) (fs_retryAfter f) (fs_queues f) (fs_order f)
    (fs_next f) (fs_queued f) (fs_active f) (fs_closed f) (fs_heap f) waiters (fs_permits f).
Definition set_slot (active : bool) (permits : list bool) (f : FairScheduler) : FairScheduler :=
  mkScheduler (fs_quantum f) (fs_perTenant f) (fs_totalLimit f) (fs_maxCost f) (fs_retryAfter f) (fs_queues f) (fs_order f)
    (fs_next f) (fs_queued f) active (fs_closed f) (fs_heap f) (fs_waiters f) permits.
Definition set_deficit (d : Z) (q : tenantQueue) : tenantQueue := mkQueue (tq_key q) (tq_class q) d (tq_waiters q).
Definition set_queue_waiters (ws : list nat) (q : tenantQueue) : tenantQueue := mkQueue (tq_key q) (tq_class q) (tq_deficit q) ws.

(** ** Removing queues and waiters *)
Definition queue_at (f : FairScheduler) (q : nat) : tenantQueue := default (mkQueue "" TenantStandard 0 []) (fs_heap f !! q).

Definition removeQueueAtLocked (index : nat) (f : FairScheduler) : FairScheduler :=
  match fs_order f !! index with
  | None => f
  | Some q =>
      let queues := delete (tq_key (queue_at f q)) (fs_queues f) in
      let order := delete index (fs_order f) in
      if (length order =? 0)%nat then set_queues queues order 0 f
      else
        let next := if (index <? fs_next f)%nat then pred (fs_next f) else fs_next f in
        let next := if (length order <=? next)%nat then 0%nat else next in
        set_queues queues order next f
  end.

Fixpoint index_of (q : nat) (l : list nat) : option nat :=
  match l with
  | [] => None
  | x :: l => if (x =? q)%nat then Some 0%nat else S <$> index_of q l
  end.
Definition removeQueueLocked (q : nat) (f : FairScheduler) : FairScheduler :=
  match index_of q (fs_order f) with Some i => removeQueueAtLocked i f | None => f end.

Definition removeWaiterLocked (w : nat) (f : FairScheduler) : FairScheduler :=
  match fs_waiters f !! w with
  | None => f
  | Some waiter =>
      let q := sw_queue waiter in
      let queue := queue_at f q in
      let f := match index_of w (tq_waiters queue) with
               | Some i => set_heap (alter (set_queue_waiters (delete i (tq_waiters queue))) q (fs_heap f)) (fs_queued f - 1) f
               | None => f
               end in
      if (length (tq_waiters (queue_at f q)) =? 0)%nat then removeQueueLocked q f else f
  end.

(** ** Dispatching *)

(** The body of the loop when the slot goes to waiter [w] of queue [q]. *)
Definition grant (q w : nat) (cost : Z) (f : FairScheduler) : FairScheduler :=
  let queue := queue_at f q in
  let p := length (fs_permits f) in
  let f := set_heap (alter (λ x, set_queue_waiters (drop 1 (tq_waiters queue)) (set_deficit (tq_deficit queue - cost) x)) q (fs_heap f))
             (fs_queued f - 1) f in
  let f := set_waiters (alter (λ x, mkWaiter (sw_cost x) (sw_queue x) (Some p) (Some (inr p))) w (fs_waiters f)) f in
  let f := set_slot true (fs_permits f ++ [false]) f in
  set_queues (fs_queues f) (fs_order f) (S (fs_next f) mod length (fs_order f)) f.

(** The loop; [None] when [fuel] does not suffice. *)
Fixpoint dispatch_loop (fuel : nat) (f : FairScheduler) : option FairScheduler :=
  match fuel with
  | O => None
  | S fuel =>
      let next := if (length (fs_order f) <=? fs_next f)%nat then 0%nat else fs_next f in
      let f := set_queues (fs_queues f) (fs_order f) next f in
      match fs_order f !! next with
      | None => Some f                                               (* the order is empty *)
      | Some q =>
          let queue := queue_at f q in
          match tq_waiters queue with
          | [] => dispatch_loop fuel (removeQueueAtLocked next f)
          | w :: _ =>
              let cost := default 0 (sw_cost <$> fs_waiters f !! w) in
              if tq_deficit queue <? cost then
                let quantum := default 0 (fs_quantum f (tq_class queue)) in
                let f := set_heap (alter (set_deficit (tq_deficit queue + quantum)) q (fs_heap f)) (fs_queued f) f in
                dispatch_loop fuel (set_queues (fs_queues f) (fs_order f) (S next mod length (fs_order f)) f)
              else Some (grant q w cost f)
          end
      end
  end.

(** What the head waiters still lack, plus the number of queues: a bound on the iterations. *)
Definition lack (f : FairScheduler) (q : nat) : nat :=
  let queue := queue_at f q in
  match tq_waiters queue with
  | [] => 0%nat
  | w :: _ => Z.to_nat (default 0 (sw_cost <$> fs_waiters f !! w) - tq_deficit queue)
  end.
Definition dispatch_bound (f : FairScheduler) : nat := length (fs_order f) + sum_list (lack f <$> fs_order f).

Definition dispatchLocked (f : FairScheduler) : FairScheduler :=
  if fs_active f || fs_closed f || (fs_queued f =? 0) then f
  else match dispatch_loop (S (dispatch_bound f)) f with Some f => f | None => f end.

(** ** Acquiring *)

(** Up to the [select]: the index of the waiter. *)
Definition Acquire_begin (ctx : context perror) (tenant : Tenant) (cost : Z) (f : FairScheduler) : result scherror nat * FairScheduler :=
  match ctx with
  | NilContext => (Err ErrInvalidScheduler, f)
  | Context cause =>
      if negb (tenant_Valid tenant) || (cost <=? 0) then (Err ErrInvalidScheduler, f)
      else match cause with
      | Some err => (Err (ErrCause err), f)
      | None =>
          if fs_closed f then (Err ErrSchedulerClosed, f)
          else match fs_quantum f (tn_class tenant) with
          | None => (Err ErrInvalidScheduler, f)
          | Some quantum =>
              if fs_maxCost f <? cost then (Err ErrInvalidScheduler, f)
              else
                let '(q, f) :=
                  match fs_queues f !! tn_key tenant with
                  | Some q => (q, f)
                  | None =>
                      let q := length (fs_heap f) in
                      let f := set_heap (fs_heap f ++ [mkQueue (tn_key tenant) (tn_class tenant) quantum []]) (fs_queued f) f in
                      (q, set_queues (<[tn_key tenant := q]> (fs_queues f)) (fs_order f ++ [q]) (fs_next f) f)
                  end in
                let queue := queue_at f q in
                if tq_class queue != tn_class tenant then (Err ErrInvalidScheduler, f)
                else if (fs_perTenant f <=? zlen (tq_waiters queue)) || (fs_totalLimit f <=? fs_queued f) then
                  (Err (SchedulerFull (tn_class tenant) (fs_retryAfter f)),
                   if (length (tq_waiters queue) =? 0)%nat then removeQueueLocked q f else f)
                else
                  let w := length (fs_waiters f) in
                  let f := set_waiters (fs_waiters f ++ [mkWaiter cost q None None]) f in
                  let f := set_heap (alter (set_queue_waiters (tq_waiters queue ++ [w])) q (fs_heap f)) (fs_queued f + 1) f in
                  (Ok w, dispatchLocked f)
          end
      end
  end.

(** The two cases of the [select]. *)
Definition Acquire_receive (w : nat) (f : FairScheduler) : option (scherror + nat) := fs_waiters f !! w ≫= sw_result.

Definition permit_Close (p : nat) (f : FairScheduler) : FairScheduler :=
  match fs_permits f !! p with
  | Some false => dispatchLocked (set_slot false (<[p := true]> (fs_permits f)) f)
  | _ => f
  end.

Definition Acquire_cancel (w : nat) (f : FairScheduler) : FairScheduler :=
  match fs_waiters f !! w ≫= sw_permit with
  | Some p => permit_Close p f
  | None => dispatchLocked (removeWaiterLocked w f)
  end.

Definition send_closed (queue : tenantQueue) (waiters : list scheduleWaiter) : list scheduleWaiter :=
  fold_left (λ ws w, alter (λ x, mkWaiter (sw_cost x) (sw_queue x) (sw_permit x) (Some (inl ErrSchedulerClosed))) w ws)
    (tq_waiters queue) waiters.
Definition Close (f : FairScheduler) : FairScheduler :=
  if fs_closed f then f
  else
    mkScheduler (fs_quantum f) (fs_perTenant f) (fs_totalLimit f) (fs_maxCost f) (fs_retryAfter f) ∅ [] (fs_next f) 0
      (fs_active f) true (fs_heap f) (fold_left (λ ws q, send_closed (queue_at f q) ws) (fs_order f) (fs_waiters f)) (fs_permits f).

Definition Queued (f : FairScheduler) : Z := fs_queued f.

(** * Invariants *)
Definition qlen (f : FairScheduler) (q : nat) : nat := length (tq_waiters (queue_at f q)).

Record shape (f : FairScheduler) : Prop := {
  sh_nodup : NoDup (fs_order f);
  sh_order : ∀ q, q ∈ fs_order f → ∃ queue n, fs_heap f !! q = Some queue ∧ fs_queues f !! tq_key queue = Some q ∧
               fs_quantum f (tq_class queue) = Some n ∧ 0 < n;
  sh_map : ∀ k q, fs_queues f !! k = Some q → q ∈ fs_order f ∧ tq_key (queue_at f q) = k;
  sh_gone : ∀ q, q ∉ fs_order f → tq_waiters (queue_at f q) = [];
  sh_waiters : ∀ q w, w ∈ tq_waiters (queue_at f q) → ∃ wt, fs_waiters f !! w = Some wt ∧ sw_queue wt = q ∧
                 sw_permit wt = None ∧ sw_result wt = None;
  sh_fifo : ∀ q, StronglySorted lt (tq_waiters (queue_at f q));
  sh_queued : fs_queued f = Z.of_nat (sum_list (qlen f <$> fs_order f));
  sh_tenant : ∀ q, zlen (tq_waiters (queue_at f q)) ≤ fs_perTenant f;
  sh_total : fs_queued f ≤ fs_totalLimit f
}.

(** The configuration, which no step changes. *)
Definition limits (f : FairScheduler) := (fs_quantum f, fs_perTenant f, fs_totalLimit f, fs_maxCost f).
Definition limits_ok (f : FairScheduler) : Prop :=
  0 < fs_perTenant f ∧ fs_perTenant f ≤ fs_totalLimit f ∧ ∀ class n, fs_quantum f class = Some n → 0 < n.
Lemma limits_eq f f' : limits f' = limits f → limits_ok f → limits_ok f'.
Proof. unfold limits, limits_ok. intros [= -> -> -> _]. done. Qed.

(** ** Sums over queues *)
Lemma sum_list_perm (l l' : list nat) : l ≡ₚ l' → sum_list l = sum_list l'.
Proof. induction 1; cbn; lia. Qed.

Lemma sum_app (l l' : list nat) : sum_list (l ++ l') = (sum_list l + sum_list l')%nat.
Proof. induction l; cbn; lia. Qed.

Lemma sum_update (g h : nat → nat) l q : NoDup l → q ∈ l → (∀ x, x ≠ q → g x = h x) →
  (sum_list (g <$> l) + h q = sum_list (h <$> l) + g q)%nat.
Proof.
  intros Hnd Hq Hne. induction Hnd as [|x l Hx Hnd IH]; [by apply not_elem_of_nil in Hq|]. cbn.
  apply elem_of_cons in Hq as [->|Hq].
  - assert (g <$> l = h <$> l) as ->; [|lia]. apply list_fmap_ext. intros i y Hy. apply Hne. intros ->. apply Hx. by eapply list_elem_of_lookup_2.
  - rewrite (Hne x); [|by intros ->]. specialize (IH Hq). lia.
Qed.

Lemma sum_delete (g : nat → nat) l i q : l !! i = Some q → (sum_list (g <$> delete i l) + g q = sum_list (g <$> l))%nat.
Proof.
  intros Hi. pose proof (delete_Permutation l i q Hi) as Hp. rewrite (sum_list_perm (g <$> l) (g <$> q :: delete i l)); [cbn; lia|].
  by apply fmap_Permutation.
Qed.

Lemma sum_elem (g : nat → nat) l q : q ∈ l → (g q ≤ sum_list (g <$> l))%nat.
Proof. induction l as [|x l IH]; [by intros ?%not_elem_of_nil|]. cbn. intros [->|Hq]%elem_of_cons; [lia|]. specialize (IH Hq). lia. Qed.

Lemma elem_of_delete l i (q x : nat) : NoDup l → l !! i = Some q → x ∈ delete i l ↔ x ∈ l ∧ x ≠ q.
Proof.
  intros Hnd Hi. pose proof (delete_Permutation l i q Hi) as Hp. apply (NoDup_Permutation_proper _ _ Hp) in Hnd.
  apply NoDup_cons in Hnd as [Hq _]. rewrite (elem_of_Permutation_proper x _ _ Hp), elem_of_cons. split; [intros Hx; split; [by right|by intros ->]|intros [[->|Hx] Hne]; done].
Qed.

Lemma index_of_Some q l i : index_of q l = Some i → l !! i = Some q.
Proof.
  revert i. induction l as [|x l IH]; intros i; cbn; [done|]. destruct (Nat.eqb_spec x q) as [->|]; [by intros [= <-]|].
  destruct (index_of q l) as [j|]; [|done]. intros [= <-]. cbn. by apply IH.
Qed.
Lemma index_of_None q l : index_of q l = None → q ∉ l.
Proof.
  induction l as [|x l IH]; cbn; [by intros _ ?%not_elem_of_nil|]. destruct (Nat.eqb_spec x q) as [->|]; [done|].
  destruct (index_of q l); [done|]. intros _ [->|Hq]%elem_of_cons; [done|]. by apply IH.
Qed.

(** ** Views of the heap *)
Lemma queue_at_heap f q queue : fs_heap f !! q = Some queue → queue_at f q = queue.
Proof. unfold queue_at. by intros ->. Qed.

Lemma queue_at_alter f g q n x : q ∈ fs_order f → shape f →
  queue_at (set_heap (alter g q (fs_heap f)) n f) x = if decide (x = q) then g (queue_at f q) else queue_at f x.
Proof.
  intros Hq Hf. destruct (sh_order _ Hf q Hq) as (queue & ? & Hh & _). unfold queue_at. cbn. destruct (decide (x = q)) as [->|].
  - by rewrite list_lookup_alter_eq, Hh.
  - by rewrite list_lookup_alter_ne.
Qed.

Lemma shape_order_queue f q : shape f → q ∈ fs_order f →
  fs_heap f !! q = Some (queue_at f q) ∧ fs_queues f !! tq_key (queue_at f q) = Some q ∧
  ∃ n, fs_quantum f (tq_class (queue_at f q)) = Some n ∧ 0 < n.
Proof. intros Hf Hq. destruct (sh_order _ Hf q Hq) as (queue & n & Hh & Hk & Hn). rewrite (queue_at_heap _ _ _ Hh). eauto. Qed.

(** Removing an empty queue. *)
Lemma remove_queue_shape f i q : shape f → fs_order f !! i = Some q → tq_waiters (queue_at f q) = [] → shape (removeQueueAtLocked i f).
Proof.
  intros Hf Hi Hempty. assert (Hq : q ∈ fs_order f) by (by eapply list_elem_of_lookup_2).
  destruct (shape_order_queue _ _ Hf Hq) as (_ & Hkey & _). unfold removeQueueAtLocked. rewrite Hi.
  pose proof (elem_of_delete (fs_order f) i q) as Hdel. pose proof (sh_nodup _ Hf) as Hnd.
  assert (Hshape : ∀ n, shape (set_queues (delete (tq_key (queue_at f q)) (fs_queues f)) (delete i (fs_order f)) n f)).
  { intros n. constructor; cbn [set_queues fs_order fs_queues fs_quantum fs_waiters fs_queued fs_perTenant fs_totalLimit]; try apply Hf.
    - apply (NoDup_Permutation_proper _ _ (delete_Permutation _ _ _ Hi)) in Hnd. by apply NoDup_cons in Hnd as [_ ?].
    - intros x [Hx Hne]%(Hdel x Hnd Hi). destruct (sh_order _ Hf x Hx) as (queue & m & Hh & Hk & Hm). exists queue, m.
      split; [done|]. split; [|done]. rewrite lookup_delete_ne; [done|]. intros E. rewrite E in Hkey. congruence.
    - intros k x. rewrite lookup_delete_Some. intros [Hk Hx]. destruct (sh_map _ Hf _ _ Hx) as [Ho Hkx]. split; [|done].
      apply (Hdel x Hnd Hi). split; [done|]. intros ->. congruence.
    - intros x Hx. destruct (decide (x = q)) as [->|Hne]; [done|]. apply (sh_gone _ Hf x). intros Ho. apply Hx, (Hdel x Hnd Hi). done.
    - rewrite (sh_queued _ Hf). f_equal. pose proof (sum_delete (qlen f) _ _ _ Hi) as Hs.
      assert (qlen f q = 0%nat) by (unfold qlen; by rewrite Hempty). change (qlen (set_queues _ _ _ f)) with (qlen f). lia. }
  destruct (_ =? 0)%nat; apply Hshape.
Qed.

Lemma next_shape f n : shape f → shape (set_queues (fs_queues f) (fs_order f) n f).
Proof. intros []. by constructor. Qed.

(** Changing the waiters (and the deficit) of one queue. *)
Definition requeued (f : FairScheduler) (g : tenantQueue → tenantQueue) (q : nat) (wts : list scheduleWaiter) : FairScheduler :=
  set_waiters wts (set_heap (alter g q (fs_heap f)) (fs_queued f + zlen (tq_waiters (g (queue_at f q))) - Z.of_nat (qlen f q)) f).

Lemma requeued_shape f g q wts : shape f → q ∈ fs_order f →
  tq_key (g (queue_at f q)) = tq_key (queue_at f q) → tq_class (g (queue_at f q)) = tq_class (queue_at f q) →
  (∀ w, w ∈ tq_waiters (g (queue_at f q)) → ∃ wt, wts !! w = Some wt ∧ sw_queue wt = q ∧ sw_permit wt = None ∧ sw_result wt = None) →
  (∀ x w, x ≠ q → w ∈ tq_waiters (queue_at f x) → wts !! w = fs_waiters f !! w) →
  StronglySorted lt (tq_waiters (g (queue_at f q))) → zlen (tq_waiters (g (queue_at f q))) ≤ fs_perTenant f →
  fs_queued (requeued f g q wts) ≤ fs_totalLimit f →
  shape (requeued f g q wts).
Proof.
  intros Hf Hq Hkey Hclass Hws Hothers Hsort Hper Htotal.
  assert (Hat : ∀ x, queue_at (requeued f g q wts) x = if decide (x = q) then g (queue_at f q) else queue_at f x).
  { intros x. by apply queue_at_alter. }
  constructor; try apply Hf; try done.
  - intros x Hx. destruct (shape_order_queue _ _ Hf Hx) as (Hh & Hk & m & Hm & Hpos). cbn. destruct (decide (x = q)) as [->|Hne].
    + rewrite list_lookup_alter_eq, Hh. exists (g (queue_at f q)), m. rewrite Hkey, Hclass. by split_and!.
    + rewrite list_lookup_alter_ne, Hh by done. eexists _, m. by split_and!.
  - intros k x Hx. destruct (sh_map _ Hf _ _ Hx) as [Ho Hk]. split; [done|]. rewrite Hat. by destruct (decide (x = q)) as [->|]; [rewrite Hkey|].
  - intros x Hx. rewrite Hat, decide_False by (by intros ->). by apply Hf.
  - intros x w. rewrite Hat. destruct (decide (x = q)) as [->|Hne]; [apply Hws|]. intros Hw. cbn. rewrite (Hothers x w Hne Hw). by apply Hf.
  - intros x. rewrite Hat. destruct (decide (x = q)); [done|apply Hf].
  - cbn. rewrite (sh_queued _ Hf). pose proof (sum_update (qlen (requeued f g q wts)) (qlen f) (fs_order f) q (sh_nodup _ Hf) Hq) as Hs.
    unfold zlen. unfold qlen in *. rewrite (Hat q), decide_True in Hs by done. change (fs_order (requeued f g q wts)) with (fs_order f).
    lapply Hs; [lia|]. intros x Hx. by rewrite Hat, decide_False.
  - intros x. rewrite Hat. destruct (decide (x = q)); [done|apply Hf].
Qed.

Lemma deficit_shape f q d n : shape f → q ∈ fs_order f →
  shape (set_queues (fs_queues f) (fs_order f) n (set_heap (alter (set_deficit d) q (fs_heap f)) (fs_queued f) f)).
Proof.
  intros Hf Hq. assert (Hs : shape (requeued f (set_deficit d) q (fs_waiters f))).
  { apply requeued_shape; try done; try apply Hf. cbn. unfold qlen, zlen. pose proof (sh_total _ Hf). lia. }
  apply (next_shape _ n) in Hs. unfold requeued in Hs. cbn in Hs. unfold qlen, zlen in Hs.
  rewrite Z.add_simpl_r in Hs. exact Hs.
Qed.

Lemma queue_member f q w : shape f → w ∈ tq_waiters (queue_at f q) → q ∈ fs_order f.
Proof.
  intros Hf Hw. destruct (decide (q ∈ fs_order f)) as [|Hn]; [done|]. rewrite (sh_gone _ Hf q Hn) in Hw. by apply not_elem_of_nil in Hw.
Qed.

(** ** Dispatching *)

(** What the loop does before it grants: it only touches deficits and empty queues. *)
Record spun (f f' : FairScheduler) : Prop := {
  sp_shape : shape f';
  sp_waiters : fs_waiters f' = fs_waiters f;
  sp_permits : fs_permits f' = fs_permits f;
  sp_slot : (fs_active f', fs_closed f', fs_queued f') = (fs_active f, fs_closed f, fs_queued f);
  sp_queues : ∀ q, tq_waiters (queue_at f' q) = tq_waiters (queue_at f q);
  sp_limits : limits f' = limits f
}.
Lemma spun_trans f1 f2 f3 : spun f1 f2 → spun f2 f3 → spun f1 f3.
Proof. intros [] []. constructor; congruence. Qed.

Inductive dispatched (f f' : FairScheduler) : Prop :=
| dispatched_empty : spun f f' → fs_order f' = [] → dispatched f f'
| dispatched_grant f1 q w ws : spun f f1 → q ∈ fs_order f1 → tq_waiters (queue_at f1 q) = w :: ws →
    f' = grant q w (default 0 (sw_cost <$> fs_waiters f1 !! w)) f1 → dispatched f f'.

Lemma spun_dispatched f f1 f' : spun f f1 → dispatched f1 f' → dispatched f f'.
Proof.
  intros Hs [Hs' He|f2 q w ws Hs' Hq Hw ->]; [eapply dispatched_empty; [by eapply spun_trans|done]|].
  eapply dispatched_grant; [by eapply spun_trans|done..].
Qed.

Lemma remove_at_spun f i q : shape f → fs_order f !! i = Some q → tq_waiters (queue_at f q) = [] → spun f (removeQueueAtLocked i f).
Proof.
  intros Hf Hi He. pose proof (remove_queue_shape _ _ _ Hf Hi He). unfold removeQueueAtLocked in *. rewrite Hi in *.
  by destruct (_ =? 0)%nat.
Qed.

Lemma dispatch_loop_spec fuel : ∀ f, shape f → (dispatch_bound f < fuel)%nat → ∃ f', dispatch_loop fuel f = Some f' ∧ dispatched f f'.
Proof.
  induction fuel as [|fuel IH]; intros f Hf Hfuel; [lia|]. cbn [dispatch_loop].
  set (next := if (length (fs_order f) <=? fs_next f)%nat then 0%nat else fs_next f).
  set (f0 := set_queues (fs_queues f) (fs_order f) next f).
  assert (Hf0 : spun f f0) by (constructor; try done; by apply next_shape).
  destruct (fs_order f0 !! next) as [q|] eqn:Hq.
  2: { exists f0. split; [done|]. apply dispatched_empty; [done|]. apply lookup_ge_None in Hq. cbn in Hq |- *.
       unfold next in Hq. destruct (Nat.leb_spec (length (fs_order f)) (fs_next f)); [|lia]. by destruct (fs_order f); [|cbn in Hq; lia]. }
  assert (Hin : q ∈ fs_order f) by (by eapply list_elem_of_lookup_2). change (queue_at f0 q) with (queue_at f q).
  change (fs_waiters f0) with (fs_waiters f). change (fs_quantum f0) with (fs_quantum f). change (fs_heap f0) with (fs_heap f).
  change (fs_queued f0) with (fs_queued f).
  destruct (tq_waiters (queue_at f q)) as [|w ws] eqn:Hws.
  - pose proof (spun_trans _ _ _ Hf0 (remove_at_spun f0 next q (sp_shape _ _ Hf0) Hq Hws)) as Hsp.
    destruct (IH (removeQueueAtLocked next f0) (sp_shape _ _ Hsp)) as (f' & Hl & Hd).
    { unfold dispatch_bound. assert (Hl : lack (removeQueueAtLocked next f0) = lack f /\ fs_order (removeQueueAtLocked next f0) = delete next (fs_order f)).
      { unfold removeQueueAtLocked. rewrite Hq. by destruct (_ =? 0)%nat. }
      destruct Hl as [-> ->]. pose proof (sum_delete (lack f) _ _ _ Hq). pose proof (length_delete (fs_order f) next (mk_is_Some _ _ Hq)).
      unfold dispatch_bound in Hfuel. pose proof (lookup_lt_Some _ _ _ Hq). cbn in *. lia. }
    exists f'. split; [done|]. by eapply spun_dispatched.
  - destruct (Z.ltb_spec (tq_deficit (queue_at f q)) (default 0 (sw_cost <$> fs_waiters f !! w))) as [Hlt|Hge].
    2: { eexists. split; [done|]. by eapply (dispatched_grant f _ f0). }
    destruct (shape_order_queue _ _ Hf Hin) as (_ & _ & n & Hn & Hpos). rewrite Hn. change (default 0 (Some n)) with n.
    match goal with |- context [dispatch_loop fuel ?x] => set (f2 := x) end.
    assert (Hat : ∀ x, queue_at f2 x = if decide (x = q) then set_deficit (tq_deficit (queue_at f q) + n) (queue_at f q) else queue_at f x).
    { intros x. by apply (queue_at_alter f _ q (fs_queued f)). }
    assert (Hsp : spun f f2).
    { constructor; try done; [apply (deficit_shape f0); [apply Hf0|done]|]. intros x. rewrite Hat. by destruct (decide (x = q)) as [->|]. }
    destruct (IH f2 (sp_shape _ _ Hsp)) as (f' & Hl & Hd).
    { unfold dispatch_bound in *. change (fs_order f2) with (fs_order f).
      pose proof (sum_update (lack f2) (lack f) (fs_order f) q (sh_nodup _ Hf) Hin) as Hs.
      assert (H1 : lack f q = Z.to_nat (default 0 (sw_cost <$> fs_waiters f !! w) - tq_deficit (queue_at f q))) by (unfold lack; by rewrite Hws).
      assert (H2 : lack f2 q = Z.to_nat (default 0 (sw_cost <$> fs_waiters f !! w) - (tq_deficit (queue_at f q) + n))).
      { unfold lack. rewrite Hat, decide_True by done. cbn. by rewrite Hws. }
      lapply Hs; [lia|]. intros x Hx. unfold lack. by rewrite Hat, decide_False. }
    exists f'. split; [done|]. by eapply spun_dispatched.
Qed.

Lemma grant_shape f q w ws cost : shape f → q ∈ fs_order f → tq_waiters (queue_at f q) = w :: ws → shape (grant q w cost f).
Proof.
  intros Hf Hq Hws. set (g := λ x, set_queue_waiters (drop 1 (tq_waiters (queue_at f q))) (set_deficit (tq_deficit (queue_at f q) - cost) x)).
  set (wts := alter (λ x, mkWaiter (sw_cost x) (sw_queue x) (Some (length (fs_permits f))) (Some (inr (length (fs_permits f))))) w (fs_waiters f)).
  assert (Hg : tq_waiters (g (queue_at f q)) = ws) by (unfold g; cbn; by rewrite Hws).
  assert (Hw : w ∈ tq_waiters (queue_at f q)) by (rewrite Hws; set_solver). pose proof (sh_fifo _ Hf q) as Hs. rewrite Hws in Hs.
  apply StronglySorted_inv in Hs as [Hs Hlt]. rewrite Forall_forall in Hlt.
  assert (Hq1 : fs_queued (requeued f g q wts) = fs_queued f - 1).
  { cbn. fold (tq_waiters (g (queue_at f q))). unfold qlen. rewrite Hws. change (drop 1 (w :: ws)) with ws. unfold zlen. cbn [length]. lia. }
  assert (Hr : shape (requeued f g q wts)).
  { apply requeued_shape; try done; rewrite ?Hg.
    - intros w' Hw'. destruct (sh_waiters _ Hf q w') as (wt & Hwt & H); [rewrite Hws; set_solver|]. exists wt. split; [|done].
      unfold wts. rewrite list_lookup_alter_ne; [done|]. intros ->. specialize (Hlt _ Hw'). lia.
    - intros x w' Hx Hw'. unfold wts. apply list_lookup_alter_ne. intros <-. destruct (sh_waiters _ Hf x w Hw') as (wt & Hwt & E & _).
      destruct (sh_waiters _ Hf q w Hw) as (wt' & Hwt' & E' & _). congruence.
    - done.
    - pose proof (sh_tenant _ Hf q) as Ht. rewrite Hws, zlen_cons in Ht. lia.
    - rewrite Hq1. pose proof (sh_total _ Hf). lia. }
  destruct Hr. constructor; try done; unfold grant; cbn; rewrite <- Hq1; done.
Qed.

(** ** The system *)
Record ssys := mkSys { ys_f : FairScheduler; ys_returned : gset nat }.
Inductive sop :=
| SAcquire (ctx : context perror) (tenant : Tenant) (cost : Z)
| SReceive (w : nat)
| SCancel (w : nat)
| SPermitClose (p : nat)
| SClose.
Definition permit_of (f : FairScheduler) (w : nat) : option nat := fs_waiters f !! w ≫= sw_permit.

(** A call of [Acquire] returns once, and only its caller has the permit it returned. *)
Definition sstep (s : ssys) (o : sop) : ssys :=
  match o with
  | SAcquire ctx tenant cost => mkSys (Acquire_begin ctx tenant cost (ys_f s)).2 (ys_returned s)
  | SReceive w =>
      if bool_decide (w ∈ ys_returned s) then s
      else match Acquire_receive w (ys_f s) with Some _ => mkSys (ys_f s) ({[ w ]} ∪ ys_returned s) | None => s end
  | SCancel w =>
      if bool_decide (w ∈ ys_returned s) || (length (fs_waiters (ys_f s)) <=? w)%nat then s
      else mkSys (Acquire_cancel w (ys_f s)) ({[ w ]} ∪ ys_returned s)
  | SPermitClose p =>
      if existsb (λ w, bool_decide (permit_of (ys_f s) w = Some p)) (elements (ys_returned s))
      then mkSys (permit_Close p (ys_f s)) (ys_returned s) else s
  | SClose => mkSys (Close (ys_f s)) (ys_returned s)
  end.
Definition ssteps (s : ssys) (l : list sop) : ssys := fold_left sstep l s.

(** The permits not yet closed. *)
Definition open_permits (f : FairScheduler) : Z := zlen (List.filter negb (fs_permits f)).

Record slot (f : FairScheduler) (returned : gset nat) : Prop := {
  sl_count : open_permits f = if fs_active f then 1 else 0;
  sl_granted : ∀ w wt p, fs_waiters f !! w = Some wt → sw_permit wt = Some p →
    sw_result wt = Some (inr p) ∧ is_Some (fs_permits f !! p) ∧ (w ∉ returned → fs_permits f !! p = Some false);
  sl_inj : ∀ w w' p, permit_of f w = Some p → permit_of f w' = Some p → w = w';
  sl_waiting : fs_closed f = false → ∀ w wt, fs_waiters f !! w = Some wt → sw_permit wt = None → w ∉ returned →
    w ∈ tq_waiters (queue_at f (sw_queue wt));
  sl_refused : fs_closed f = true → ∀ w wt, fs_waiters f !! w = Some wt → sw_permit wt = None → w ∉ returned →
    sw_result wt = Some (inl ErrSchedulerClosed);
  sl_returned : ∀ w, w ∈ returned → (w < length (fs_waiters f))%nat;
  sl_order : fs_closed f = false → ∀ w wt p v, fs_waiters f !! w = Some wt → sw_permit wt = Some p →
    v ∈ tq_waiters (queue_at f (sw_queue wt)) → (w < v)%nat
}.
Definition ready (f : FairScheduler) (returned : gset nat) : Prop :=
  slot f returned ∧ limits_ok f ∧ (fs_closed f = false → shape f).
Definition ssys_ok (f : FairScheduler) (returned : gset nat) : Prop :=
  ready f returned ∧ (fs_closed f = false → fs_active f = false → fs_queued f = 0).

Lemma spun_slot f f' returned : spun f f' → slot f returned → slot f' returned.
Proof.
  intros [_ Ew Ep Es Eq _] []. injection Es as Ea Ec Eqd.
  constructor; unfold open_permits, permit_of in *; rewrite ?Ew, ?Ep, ?Ea, ?Ec; try done.
  - intros Hc w wt Hw Hp Hr. rewrite Eq. eauto.
  - intros Hc w wt p v Hw Hp. rewrite Eq. eauto.
Qed.

Lemma grant_slot f returned q w ws cost : shape f → slot f returned → fs_active f = false → fs_closed f = false → q ∈ fs_order f →
  tq_waiters (queue_at f q) = w :: ws → slot (grant q w cost f) returned.
Proof.
  intros Hf Hs Ha Hc Hq Hws. assert (Hwq : w ∈ tq_waiters (queue_at f q)) by (rewrite Hws; set_solver).
  destruct (sh_waiters _ Hf q w Hwq) as (wt0 & Hw0 & Hq0 & Hp0 & _).
  assert (Hlook : ∀ x, fs_waiters (grant q w cost f) !! x =
    if decide (x = w) then Some (mkWaiter (sw_cost wt0) (sw_queue wt0) (Some (length (fs_permits f))) (Some (inr (length (fs_permits f)))))
    else fs_waiters f !! x).
  { intros x. unfold grant. cbn. destruct (decide (x = w)) as [->|]; [by rewrite list_lookup_alter_eq, Hw0|by rewrite list_lookup_alter_ne]. }
  assert (Hper : fs_permits (grant q w cost f) = fs_permits f ++ [false]) by done.
  assert (Hnew : ∀ x p, permit_of f x = Some p → (p < length (fs_permits f))%nat).
  { intros x p Hx. unfold permit_of in Hx. destruct (fs_waiters f !! x) as [wt|] eqn:E; [|done]. destruct (sl_granted _ _ Hs x wt p E Hx) as (_ & Hl & _).
    by apply lookup_lt_is_Some. }
  constructor.
  - unfold open_permits. rewrite Hper, List.filter_app, zlen_app. pose proof (sl_count _ _ Hs) as Hn. rewrite Ha in Hn. unfold open_permits in Hn.
    rewrite Hn. done.
  - intros x wt p. rewrite Hlook, Hper. destruct (decide (x = w)) as [->|Hne].
    + intros [= <-] [= <-]. cbn. split; [done|]. rewrite lookup_app_r, Nat.sub_diag by done. done.
    + intros Hx Hp. destruct (sl_granted _ _ Hs x wt p Hx Hp) as (Hr & Hl & Ho). pose proof (lookup_lt_is_Some_1 _ _ Hl).
      rewrite lookup_app_l by done. done.
  - intros x y p. unfold permit_of. rewrite !Hlook. destruct (decide (x = w)) as [->|], (decide (y = w)) as [->|]; cbn; try done.
    + intros [= <-] Hy. pose proof (Hnew y _ Hy). lia.
    + intros Hx [= <-]. pose proof (Hnew x _ Hx). lia.
    + apply (sl_inj _ _ Hs).
  - intros _ x wt. rewrite Hlook. destruct (decide (x = w)) as [->|Hne]; [by intros [= <-]|]. intros Hx Hp Hr.
    pose proof (sl_waiting _ _ Hs Hc x wt Hx Hp Hr) as Hin. unfold queue_at, grant. cbn. destruct (decide (sw_queue wt = q)) as [Eq|Hqn].
    + rewrite Eq, list_lookup_alter_eq in *. destruct (shape_order_queue _ _ Hf Hq) as (-> & _). cbn. fold (queue_at f q). rewrite Hws in Hin |- *. cbn. rewrite drop_0. set_solver.
    + by rewrite list_lookup_alter_ne.
  - done || (unfold grant; cbn; congruence).
  - intros x Hx. unfold grant. cbn. rewrite length_alter. by apply Hs.
  - intros _ x wt p v. rewrite Hlook. pose proof (sh_fifo _ Hf q) as Hsort. rewrite Hws in Hsort. apply StronglySorted_inv in Hsort as [_ Hlt].
    rewrite Forall_forall in Hlt. assert (Hsub : ∀ y, v ∈ tq_waiters (queue_at (grant q w cost f) y) → v ∈ tq_waiters (queue_at f y) ∧ (y = q → v ∈ ws)).
    { intros y. unfold queue_at, grant. cbn. destruct (decide (y = q)) as [->|Hqn].
      - rewrite list_lookup_alter_eq. destruct (shape_order_queue _ _ Hf Hq) as (-> & _). cbn. fold (queue_at f q). rewrite Hws. cbn. rewrite drop_0. set_solver.
      - by rewrite list_lookup_alter_ne. }
    destruct (decide (x = w)) as [->|Hne].
    + intros [= <-] _ Hv. cbn in Hv. rewrite Hq0 in Hv. apply Hlt, (Hsub q Hv). done.
    + intros Hx Hp Hv. by apply (sl_order _ _ Hs Hc x wt p v Hx Hp), Hsub.
Qed.

Lemma sched_dispatch_ok f returned : ready f returned → ssys_ok (dispatchLocked f) returned.
Proof.
  intros (Hs & Hl & Hf). unfold dispatchLocked. destruct (fs_active f) eqn:Ha; cbn [orb]; [split; [by split_and!|congruence]|].
  destruct (fs_closed f) eqn:Hc; cbn [orb]; [split; [split_and!; [done|done|congruence]|congruence]|]. specialize (Hf eq_refl).
  destruct (Z.eqb_spec (fs_queued f) 0) as [Hz|Hz]; [by split; [split_and!|]|].
  destruct (dispatch_loop_spec (S (dispatch_bound f)) f Hf (Nat.lt_succ_diag_r _)) as (f' & -> & [Hsp He|f1 q w ws Hsp Hq Hw ->]).
  - exfalso. apply Hz. pose proof (sh_queued _ (sp_shape _ _ Hsp)) as Hq. rewrite He in Hq. pose proof (sp_slot _ _ Hsp) as Es.
    injection Es as _ _ Eq. rewrite <- Eq, Hq. done.
  - pose proof (sp_slot _ _ Hsp) as Es. injection Es as Ea Ec _. rewrite Ha in Ea. rewrite Hc in Ec.
    split; [|by intros _]. split_and!; [|by eapply limits_eq; [apply (sp_limits _ _ Hsp)|]|intros _; eapply grant_shape; [apply Hsp|done..]].
    eapply grant_slot; [apply Hsp|by eapply spun_slot|done..].
Qed.

(** ** Acquiring *)
Lemma spun_refl f : shape f → spun f f.
Proof. by constructor. Qed.

Lemma new_queue_spun f tenant n :
  shape f → fs_quantum f (tn_class tenant) = Some n → 0 < n → 0 ≤ fs_perTenant f → fs_queues f !! tn_key tenant = None →
  spun f (set_queues (<[tn_key tenant := length (fs_heap f)]> (fs_queues f)) (fs_order f ++ [length (fs_heap f)]) (fs_next f)
    (set_heap (fs_heap f ++ [mkQueue (tn_key tenant) (tn_class tenant) n []]) (fs_queued f) f)).
Proof.
  intros Hf Hn Hpos Hper Hk. set (q := length (fs_heap f)). match goal with |- spun f ?x => set (f' := x) end.
  assert (Hlt : ∀ x, x ∈ fs_order f → (x < q)%nat).
  { intros x Hx. destruct (sh_order _ Hf x Hx) as (queue & ? & Hh & _). by eapply lookup_lt_Some. }
  assert (Hheap : ∀ x, x ≠ q → fs_heap f' !! x = fs_heap f !! x).
  { intros x Hx. cbn. destruct (decide (x < q)%nat); [by rewrite lookup_app_l|]. rewrite !(proj2 (lookup_ge_None _ _)); [done|unfold q in *; lia|].
    rewrite length_app. cbn. unfold q in *. lia. }
  assert (Hat : ∀ x, x ≠ q → queue_at f' x = queue_at f x) by (intros x Hx; unfold queue_at; by rewrite Hheap).
  assert (Hnew : fs_heap f' !! q = Some (mkQueue (tn_key tenant) (tn_class tenant) n [])).
  { cbn. unfold q. by rewrite lookup_app_r, Nat.sub_diag. }
  assert (Hw : ∀ x, tq_waiters (queue_at f' x) = tq_waiters (queue_at f x)).
  { intros x. destruct (decide (x = q)) as [->|]; [|by rewrite Hat]. rewrite (queue_at_heap _ _ _ Hnew). symmetry. apply (sh_gone _ Hf).
    intros Hq. specialize (Hlt _ Hq). lia. }
  constructor; try done. constructor; try (by intros; rewrite Hw; apply Hf); try apply Hf.
  - cbn. apply NoDup_app. split; [apply Hf|]. split; [|apply NoDup_singleton]. intros x Hx ->%list_elem_of_singleton. specialize (Hlt _ Hx). unfold q in Hlt. lia.
  - intros x [Hx|Hx]%elem_of_app; [|apply list_elem_of_singleton in Hx as ->].
    + destruct (sh_order _ Hf x Hx) as (queue & m & Hh & Hkx & Hm). exists queue, m. rewrite Hheap by (specialize (Hlt _ Hx); lia).
      split; [done|]. split; [|done]. cbn. rewrite lookup_insert_ne; [done|]. intros E. rewrite <- E in Hkx. congruence.
    + exists (mkQueue (tn_key tenant) (tn_class tenant) n []), n. split; [done|]. cbn. by rewrite lookup_insert_eq.
  - intros k x. cbn. rewrite elem_of_app. destruct (decide (k = tn_key tenant)) as [->|Hne].
    + rewrite lookup_insert_eq. intros [= <-]. split; [right; set_solver|]. by rewrite (queue_at_heap _ _ _ Hnew).
    + rewrite lookup_insert_ne by done. intros Hx. destruct (sh_map _ Hf _ _ Hx) as [Ho Hkx]. split; [by left|].
      rewrite Hat; [done|]. specialize (Hlt _ Ho). lia.
  - intros x Hx. rewrite Hw. apply Hf. intros Ho. apply Hx. cbn. set_solver.
  - intros x w. rewrite Hw. apply Hf.
  - change (fs_queued f' = Z.of_nat (sum_list (qlen f' <$> fs_order f ++ [q]))). change (fs_queued f') with (fs_queued f).
    rewrite (sh_queued _ Hf). f_equal. rewrite fmap_app, sum_app. cbn.
    assert (qlen f' q = 0%nat) as -> by (unfold qlen; by rewrite (queue_at_heap _ _ _ Hnew)). rewrite !Nat.add_0_r. f_equal. apply list_fmap_ext. intros i x _. unfold qlen. by rewrite Hw.
Qed.

Lemma remove_queue_spun f q : shape f → tq_waiters (queue_at f q) = [] → spun f (removeQueueLocked q f).
Proof.
  intros Hf He. unfold removeQueueLocked. destruct (index_of q (fs_order f)) as [i|] eqn:Hi; [|by apply spun_refl].
  apply index_of_Some in Hi. by eapply remove_at_spun.
Qed.

Lemma sched_sorted_snoc l w : StronglySorted lt l → (∀ x, x ∈ l → (x < w)%nat) → StronglySorted lt (l ++ [w]).
Proof.
  induction 1 as [|x l Hl IH Hx]; intros Hlt; cbn; [repeat constructor|]. constructor; [apply IH; set_solver|].
  apply Forall_app. split; [done|]. apply Forall_singleton, Hlt. set_solver.
Qed.

Definition enqueued (f : FairScheduler) (q : nat) (cost : Z) : FairScheduler :=
  let w := length (fs_waiters f) in
  set_heap (alter (set_queue_waiters (tq_waiters (queue_at f q) ++ [w])) q (fs_heap f)) (fs_queued f + 1)
    (set_waiters (fs_waiters f ++ [mkWaiter cost q None None]) f).

Lemma enqueue_ready f returned q cost : ready f returned → fs_closed f = false → q ∈ fs_order f →
  zlen (tq_waiters (queue_at f q)) < fs_perTenant f → fs_queued f < fs_totalLimit f → ready (enqueued f q cost) returned.
Proof.
  intros (Hs & Hlim & Hf) Hc Hq Hper Htot. specialize (Hf Hc). set (w := length (fs_waiters f)).
  set (g := set_queue_waiters (tq_waiters (queue_at f q) ++ [w])).
  assert (Hold : ∀ x v, v ∈ tq_waiters (queue_at f x) → (v < w)%nat).
  { intros x v Hv. destruct (sh_waiters _ Hf x v Hv) as (wt & Hwt & _). by eapply lookup_lt_Some. }
  assert (Hqd : fs_queued (requeued f g q (fs_waiters f ++ [mkWaiter cost q None None])) = fs_queued f + 1).
  { cbn. unfold qlen. rewrite zlen_app. unfold zlen. cbn. lia. }
  split_and!; [|done|].
  - destruct Hs. constructor; try done.
    + intros v wt p Hv Hp. unfold enqueued in Hv. cbn in Hv. apply lookup_app_Some in Hv as [Hv|[_ Hv]]; [eauto|].
      apply list_lookup_singleton_Some in Hv as [_ <-]. done.
    + assert (Hpo : ∀ v p, permit_of (enqueued f q cost) v = Some p → permit_of f v = Some p).
      { intros v p. unfold permit_of, enqueued. cbn. destruct ((fs_waiters f ++ _) !! v) as [wt|] eqn:E; [|done].
        apply lookup_app_Some in E as [->|[_ E]]; [done|]. apply list_lookup_singleton_Some in E as [_ <-]. done. }
      intros v v' p Hv Hv'. eauto.
    + intros _ v wt Hv Hp Hr. unfold enqueued in Hv. cbn in Hv. unfold queue_at, enqueued. cbn. fold w. fold g.
      assert (Hin : v ∈ tq_waiters (queue_at f (sw_queue wt)) ∨ (v = w ∧ sw_queue wt = q)).
      { apply lookup_app_Some in Hv as [Hv|[Hge Hv]]; [left; eauto|]. apply list_lookup_singleton_Some in Hv as [Hi <-]. right. unfold w. split; [lia|done]. }
      destruct (decide (sw_queue wt = q)) as [Eq|Hne].
      * rewrite Eq in *. rewrite list_lookup_alter_eq. destruct (shape_order_queue _ _ Hf Hq) as (-> & _). cbn. set_solver.
      * rewrite list_lookup_alter_ne by done. destruct Hin as [Hin|[_ ?]]; [exact Hin|done].
    + unfold enqueued. cbn. congruence.
    + intros v Hv. unfold enqueued. cbn. rewrite length_app. specialize (sl_returned0 v Hv). lia.
    + intros _ v wt p u Hv Hp. unfold enqueued in Hv. cbn in Hv.
      assert (Hv0 : fs_waiters f !! v = Some wt).
      { apply lookup_app_Some in Hv as [Hv|[_ Hv]]; [done|]. apply list_lookup_singleton_Some in Hv as [_ <-]. done. }
      unfold queue_at, enqueued. cbn. fold w. fold g. destruct (decide (sw_queue wt = q)) as [Eq|Hne].
      * rewrite Eq, list_lookup_alter_eq. destruct (shape_order_queue _ _ Hf Hq) as (-> & _). cbn.
        intros [Hu|Hu]%elem_of_app; [by eapply sl_order0; [..|rewrite Eq]|]. apply list_elem_of_singleton in Hu as ->. by eapply lookup_lt_Some.
      * rewrite list_lookup_alter_ne by done. by apply (sl_order0 Hc v wt p u Hv0 Hp).
  - intros _. assert (Hr : shape (requeued f g q (fs_waiters f ++ [mkWaiter cost q None None]))).
    { apply requeued_shape; try done.
      - intros v. cbn. intros [Hv|Hv]%elem_of_app; [|apply list_elem_of_singleton in Hv as ->].
        + destruct (sh_waiters _ Hf q v Hv) as (wt & Hwt & H). exists wt. split; [|done]. by apply lookup_app_l_Some.
        + eexists. split; [unfold w; by rewrite lookup_app_r, Nat.sub_diag|done].
      - intros x v _ Hv. rewrite lookup_app_l; [done|]. by eapply Hold.
      - cbn. apply sched_sorted_snoc; [apply Hf|]. intros x. apply Hold.
      - cbn. rewrite zlen_app. unfold zlen in *. cbn. lia.
      - rewrite Hqd. lia. }
    destruct Hr. constructor; try done; cbn; rewrite <- Hqd; done.
Qed.

Lemma spun_ok f f' returned : fs_closed f = false → spun f f' → ssys_ok f returned → ssys_ok f' returned.
Proof.
  intros Hc Hsp [(Hs & Hl & Hf) Hi]. pose proof (sp_slot _ _ Hsp) as Es. injection Es as Ea Ec Eq.
  split; [split_and!; [by eapply spun_slot|by eapply limits_eq; [apply Hsp|]|intros _; apply Hsp]|]. intros _. rewrite Ea, Eq. by apply Hi.
Qed.

Lemma sched_acquire_ok ctx tenant cost f returned : ssys_ok f returned → ssys_ok (Acquire_begin ctx tenant cost f).2 returned.
Proof.
  intros Hok. unfold Acquire_begin. destruct ctx as [|cause]; [done|]. destruct (_ || _); [done|]. destruct cause; [done|].
  destruct (fs_closed f) eqn:Hc; [done|]. destruct (fs_quantum f (tn_class tenant)) as [n|] eqn:Hn; [|done].
  destruct (_ <? cost); [done|]. pose proof Hok as [(Hs & (Hp & Hpt & Hq) & Hf) _]. specialize (Hf Hc).
  match goal with |- context [let '(q, f) := ?x in _] => destruct x as [q f1] eqn:Hx end.
  assert (H1 : spun f f1 ∧ q ∈ fs_order f1).
  { destruct (fs_queues f !! tn_key tenant) as [q'|] eqn:Hk; injection Hx as <- <-.
    - split; [by apply spun_refl|]. by apply (sh_map _ Hf) in Hk as [? _].
    - split; [apply new_queue_spun; [done|done|by eapply Hq|lia|done]|]. cbn. set_solver. }
  destruct H1 as [Hsp Hq1]. pose proof (spun_ok _ _ _ Hc Hsp Hok) as Hok1. pose proof (sp_slot _ _ Hsp) as Es. injection Es as Ea Ec Eq.
  rewrite Hc in Ec. destruct (negb _); [done|]. destruct (_ || _) eqn:Hfull.
  - cbn. destruct (Nat.eqb_spec (length (tq_waiters (queue_at f1 q))) 0) as [He|]; [|done].
    eapply spun_ok; [done| |done]. apply remove_queue_spun; [apply Hsp|]. by apply nil_length_inv.
  - cbn. apply orb_false_iff in Hfull as [Ht%Z.leb_gt Ht'%Z.leb_gt]. apply sched_dispatch_ok. apply (enqueue_ready f1 returned q cost); try done. apply Hok1.
Qed.

(** ** Returning *)
Lemma slot_returned f returned w : ready f returned → (w < length (fs_waiters f))%nat → ready f ({[ w ]} ∪ returned).
Proof.
  intros (Hs & Hl & Hf) Hw. split_and!; [|done|done]. destruct Hs. constructor; try done.
  - intros x wt p Hx Hp. destruct (sl_granted0 x wt p Hx Hp) as (? & ? & H). split_and!; [done|done|]. intros Hn. apply H. set_solver.
  - intros Hc x wt Hx Hp Hn. apply sl_waiting0; [done..|set_solver].
  - intros Hc x wt Hx Hp Hn. apply (sl_refused0 Hc x wt Hx Hp). set_solver.
  - intros x [->%elem_of_singleton|Hx]%elem_of_union; [done|auto].
Qed.

Lemma permit_close_ok f returned p : ssys_ok f returned →
  (∀ w, permit_of f w = Some p → w ∈ returned) → ssys_ok (permit_Close p f) returned.
Proof.
  intros [(Hs & Hl & Hf) Hi] Hheld. unfold permit_Close. destruct (fs_permits f !! p) as [[]|] eqn:Hp; [by split| |by split].
  apply sched_dispatch_ok. split_and!; [|done|intros Hc; by destruct (Hf Hc)]. destruct Hs. constructor; try done.
  - cbn. pose proof (count_insert negb (fs_permits f) p false true Hp) as Hcnt. cbn in Hcnt. unfold open_permits in *. cbn. rewrite sl_count0 in Hcnt.
    pose proof (count_pos negb (fs_permits f)) as Hpos. rewrite sl_count0 in Hpos. specialize (Hpos (ex_intro _ false (conj (list_elem_of_lookup_2 _ _ _ Hp) eq_refl))).
    destruct (fs_active f); lia.
  - cbn. intros w wt p' Hw Hp'. destruct (sl_granted0 w wt p' Hw Hp') as (Hr & Hsome & Hopen). split; [done|].
    destruct (decide (p' = p)) as [->|Hne].
    + split; [rewrite list_lookup_insert_eq by (by eapply lookup_lt_Some); eauto|]. intros Hn. exfalso. apply Hn, Hheld. unfold permit_of. by rewrite Hw.
    + by rewrite list_lookup_insert_ne.
Qed.

(** What removal never touches. *)
Lemma remove_waiter_frame w f : let f' := removeWaiterLocked w f in
  fs_waiters f' = fs_waiters f ∧ fs_permits f' = fs_permits f ∧ fs_active f' = fs_active f ∧ fs_closed f' = fs_closed f ∧ limits f' = limits f.
Proof.
  unfold removeWaiterLocked, removeQueueLocked, removeQueueAtLocked. repeat (case_match; try done).
Qed.

Lemma elem_of_delete_1 (l : list nat) i x : x ∈ delete i l → x ∈ l.
Proof. intros Hx. eapply elem_of_sublist; [done|apply sublist_delete]. Qed.

Lemma sorted_delete l i : StronglySorted lt l → StronglySorted lt (delete i l).
Proof.
  intros Hl. revert i. induction Hl as [|x l Hl IH Hx]; intros i; [destruct i; constructor|]. destruct i as [|i]; [done|].
  constructor; [apply IH|].
  rewrite Forall_forall in *. intros y Hy. apply Hx. by eapply elem_of_delete_1.
Qed.

Lemma sorted_NoDup l : StronglySorted lt l → NoDup l.
Proof.
  induction 1 as [|x l Hl IH Hx]; constructor; [|done]. rewrite Forall_forall in Hx. intros Hin. specialize (Hx _ Hin). lia.
Qed.

Lemma remove_waiter_shape w wt f : shape f → fs_waiters f !! w = Some wt → shape (removeWaiterLocked w f) ∧
  (∀ q v, v ≠ w → v ∈ tq_waiters (queue_at f q) → v ∈ tq_waiters (queue_at (removeWaiterLocked w f) q)) ∧
  (∀ q v, v ∈ tq_waiters (queue_at (removeWaiterLocked w f) q) → v ∈ tq_waiters (queue_at f q)).
Proof.
  intros Hf Hw. unfold removeWaiterLocked. rewrite Hw. set (q := sw_queue wt).
  assert (Hdone : ∀ f1, shape f1 → shape (if (length (tq_waiters (queue_at f1 q)) =? 0)%nat then removeQueueLocked q f1 else f1) ∧
    ∀ x, tq_waiters (queue_at (if (length (tq_waiters (queue_at f1 q)) =? 0)%nat then removeQueueLocked q f1 else f1) x) = tq_waiters (queue_at f1 x)).
  { intros f1 Hf1. destruct (Nat.eqb_spec (length (tq_waiters (queue_at f1 q))) 0) as [He|]; [|done].
    pose proof (remove_queue_spun f1 q Hf1 (nil_length_inv _ He)) as []. done. }
  destruct (index_of w (tq_waiters (queue_at f q))) as [i|] eqn:Hi.
  2: { destruct (Hdone f Hf) as [Hs Hw']. split; [done|]. split; [intros x v _|intros x v]; by rewrite Hw'. }
  apply index_of_Some in Hi. assert (Hwq : w ∈ tq_waiters (queue_at f q)) by (by eapply list_elem_of_lookup_2).
  pose proof (queue_member _ _ _ Hf Hwq) as Hq. set (g := set_queue_waiters (delete i (tq_waiters (queue_at f q)))).
  assert (Hlen : length (delete i (tq_waiters (queue_at f q))) = (length (tq_waiters (queue_at f q)) - 1)%nat) by (apply length_delete; eauto).
  pose proof (lookup_lt_Some _ _ _ Hi) as Hlt. assert (Hqd : fs_queued (requeued f g q (fs_waiters f)) = fs_queued f - 1).
  { cbn. unfold qlen, zlen. rewrite Hlen. lia. }
  assert (Hr : shape (requeued f g q (fs_waiters f))).
  { apply requeued_shape; try done.
    - intros v Hv. apply (sh_waiters _ Hf q v). exact (elem_of_delete_1 _ _ _ Hv).
    - apply sorted_delete, Hf.
    - pose proof (sh_tenant _ Hf q). cbn. unfold zlen in *. rewrite Hlen. lia.
    - rewrite Hqd. pose proof (sh_total _ Hf). lia. }
  set (f1 := set_heap (alter g q (fs_heap f)) (fs_queued f - 1) f).
  assert (Hf1 : shape f1) by (destruct Hr; constructor; try done; cbn; rewrite <- Hqd; done).
  destruct (Hdone f1 Hf1) as [Hs Hw']. split; [done|].
  assert (Hat : ∀ x v, v ∈ tq_waiters (queue_at f1 x) ↔ v ∈ tq_waiters (queue_at f x) ∧ (x = q → v ≠ w)).
  { intros x v. unfold f1. rewrite queue_at_alter by done. destruct (decide (x = q)) as [->|]; [|tauto]. cbn.
    rewrite (elem_of_delete _ i w) by (apply sorted_NoDup, Hf || done). tauto. }
  split; intros x v; rewrite Hw', Hat; tauto.
Qed.

Lemma sched_cancel_ok f returned w : ssys_ok f returned → w ∉ returned → (w < length (fs_waiters f))%nat →
  ssys_ok (Acquire_cancel w f) ({[ w ]} ∪ returned).
Proof.
  intros Hok Hn Hw. pose proof Hok as [Hr Hi]. destruct (lookup_lt_is_Some_2 _ _ Hw) as [wt Hwt].
  unfold Acquire_cancel. rewrite Hwt. cbn. destruct (sw_permit wt) as [p|] eqn:Hp.
  - apply permit_close_ok; [split; [by apply slot_returned|done]|]. intros v Hv.
    assert (Hpw : permit_of f w = Some p) by (unfold permit_of; by rewrite Hwt). rewrite (sl_inj _ _ (proj1 Hr) _ _ _ Hv Hpw). set_solver.
  - apply sched_dispatch_ok. destruct (slot_returned f returned w Hr Hw) as (Hs & Hl & Hf).
    pose proof (remove_waiter_frame w f) as (Ew & Ep & Ea & Ec & El). split_and!; [|by eapply limits_eq|].
    + destruct Hs. constructor; unfold open_permits, permit_of in *; rewrite ?Ew, ?Ep, ?Ea, ?Ec; try done.
      * intros Hc v wt' Hv Hp' Hr'. destruct (remove_waiter_shape w wt f (Hf Hc) Hwt) as (_ & Hkeep & _). apply Hkeep; [set_solver|]. eauto.
      * intros Hc v wt' p u Hv Hp' Hu. apply (remove_waiter_shape w wt f (Hf Hc) Hwt) in Hu. by eapply sl_order0.
    + rewrite Ec. intros Hc. by apply (remove_waiter_shape w wt f (Hf Hc) Hwt).
Qed.

(** ** Closing *)
Definition refused (x : scheduleWaiter) : scheduleWaiter :=
  mkWaiter (sw_cost x) (sw_queue x) (sw_permit x) (Some (inl ErrSchedulerClosed)).

Lemma refuse_all_lookup l : ∀ (wts : list scheduleWaiter) w,
  fold_left (λ ws v, alter refused v ws) l wts !! w = (if decide (w ∈ l) then refused else id) <$> wts !! w.
Proof.
  induction l as [|v l IH]; intros wts w; cbn; [by rewrite option_fmap_id|]. rewrite IH.
  destruct (decide (v = w)) as [->|Hne].
  - rewrite list_lookup_alter_eq. destruct (decide (w ∈ w :: l)) as [_|Hn]; [|set_solver]. by destruct (decide (w ∈ l)), (wts !! w).
  - rewrite list_lookup_alter_ne by done. destruct (decide (w ∈ l)) as [Hin|Hout].
    + by destruct (decide (w ∈ v :: l)); [|set_solver].
    + by destruct (decide (w ∈ v :: l)); [set_solver|].
Qed.

Lemma close_lookup f w : fs_closed f = false →
  fs_waiters (Close f) !! w = (if decide (w ∈ flat_map (λ q, tq_waiters (queue_at f q)) (fs_order f)) then refused else id) <$> fs_waiters f !! w.
Proof.
  intros Hc. unfold Close. rewrite Hc. cbn. rewrite <- refuse_all_lookup. f_equal. generalize (fs_waiters f). induction (fs_order f) as [|q l IH]; intros wts; [done|].
  cbn [fold_left flat_map]. by rewrite fold_left_app, IH.
Qed.

Lemma sched_close_ok f returned : ssys_ok f returned → ssys_ok (Close f) returned.
Proof.
  intros Hok. destruct (fs_closed f) eqn:Hc; [by unfold Close; rewrite Hc|]. destruct Hok as [(Hs & Hl & Hf) Hi]. specialize (Hf Hc).
  pose proof (close_lookup f) as Hlook. set (queued := flat_map (λ q, tq_waiters (queue_at f q)) (fs_order f)) in Hlook.
  assert (Hcl : fs_closed (Close f) = true ∧ fs_permits (Close f) = fs_permits f ∧ fs_active (Close f) = fs_active f ∧ limits (Close f) = limits f).
  { unfold Close. by rewrite Hc. }
  destruct Hcl as (Ec & Ep & Ea & El).
  assert (Hq : ∀ w, w ∈ queued ↔ ∃ q, w ∈ tq_waiters (queue_at f q)).
  { intros w. unfold queued. rewrite list_elem_of_In, in_flat_map. split.
    - intros (q & _ & H). exists q. by apply list_elem_of_In.
    - intros (q & H). exists q. split; apply list_elem_of_In; [by eapply queue_member|done]. }
  assert (Hp : ∀ w, permit_of (Close f) w = permit_of f w).
  { intros w. unfold permit_of. rewrite Hlook by done. by destruct (decide (w ∈ queued)), (fs_waiters f !! w). }
  split; [split_and!; [|by eapply limits_eq|congruence]|congruence]. destruct Hs. constructor.
  - unfold open_permits in *. by rewrite Ep, Ea.
  - intros w wt p. rewrite Hlook, Ep by done. destruct (fs_waiters f !! w) as [wt0|] eqn:Hw; [|done]. destruct (decide (w ∈ queued)) as [Hin|]; cbn.
    + intros [= <-] Hpw. apply Hq in Hin as (q & Hin). destruct (sh_waiters _ Hf q w Hin) as (wt1 & Hw1 & _ & Hp1 & _). cbn in Hpw. congruence.
    + intros [= <-]. by apply sl_granted0.
  - intros w w' p. rewrite !Hp. apply sl_inj0.
  - congruence.
  - intros _ w wt. rewrite Hlook by done. destruct (fs_waiters f !! w) as [wt0|] eqn:Hw; [|done]. destruct (decide (w ∈ queued)) as [Hin|Hout]; cbn.
    + by intros [= <-].
    + intros [= <-] Hpw Hr. exfalso. apply Hout, Hq. exists (sw_queue wt0). by apply sl_waiting0.
  - intros w Hw. specialize (sl_returned0 w Hw). apply lookup_lt_is_Some in sl_returned0 as [wt Hwt]. apply lookup_lt_is_Some.
    rewrite Hlook, Hwt by done. by destruct (decide (w ∈ queued)); eexists.
  - congruence.
Qed.

Lemma sstep_ok s o : ssys_ok (ys_f s) (ys_returned s) → ssys_ok (ys_f (sstep s o)) (ys_returned (sstep s o)).
Proof.
  intros Hok. destruct o as [ctx tenant cost|w|w|p|]; cbn.
  - by apply sched_acquire_ok.
  - case_bool_decide as Hn; [done|]. destruct (Acquire_receive w (ys_f s)) as [r|] eqn:Hr; [|done]. cbn. destruct Hok as [Hok Hi].
    split; [|done]. apply slot_returned; [done|]. unfold Acquire_receive in Hr. destruct (fs_waiters (ys_f s) !! w) eqn:Hw; [|done]. by eapply lookup_lt_Some.
  - case_bool_decide as Hn; [done|]. cbn [orb]. destruct (Nat.leb_spec (length (fs_waiters (ys_f s))) w); [done|]. by apply sched_cancel_ok.
  - destruct (existsb _ _) eqn:He; [|done]. cbn. apply existsb_exists in He as (w & Hw & Hp). apply bool_decide_eq_true in Hp.
    apply permit_close_ok; [done|]. intros v Hv. rewrite (sl_inj _ _ (proj1 (proj1 Hok)) _ _ _ Hv Hp). by apply elem_of_elements, list_elem_of_In.
  - by apply sched_close_ok.
Qed.

Lemma ssteps_ok s l : ssys_ok (ys_f s) (ys_returned s) → ssys_ok (ys_f (ssteps s l)) (ys_returned (ssteps s l)).
Proof. unfold ssteps. revert s. induction l as [|o l IH]; intros s H; cbn; [done|]. by apply IH, sstep_ok. Qed.

Lemma quantum_positive l max class n :
  forallb (λ p, validTenantClass p.1 && (0 <? p.2) && (p.2 <=? max)) l = true → quantum_of l class = Some n → 0 < n.
Proof.
  intros Hl. unfold quantum_of. destruct (List.find _ l) as [p|] eqn:Hf; [|done]. intros [= <-]. apply find_some in Hf as [Hin _].
  apply (proj1 (forallb_forall _ _) Hl) in Hin. bool_hyps. lia.
Qed.

Lemma new_scheduler_ok config f : NewFairScheduler config = Some f → ssys_ok f ∅.
Proof.
  unfold NewFairScheduler. destruct (_ || _) eqn:Hb; [done|]. destruct (forallb _ _) eqn:Hq; [|done]. cbn [negb].
  destruct (negb _); [done|]. intros [= <-]. bool_hyps. split; [|done]. split_and!.
  - constructor; cbn; done.
  - split_and!; cbn; [done|done|]. intros class n. by eapply quantum_positive.
  - intros _. match goal with |- shape ?x => set (f0 := x) end.
    assert (Hw : ∀ q, tq_waiters (queue_at f0 q) = []) by (intros [|q]; done).
    constructor; try done; try (cbn; lia).
    + constructor.
    + intros q Hin. by apply not_elem_of_nil in Hin.
    + intros q w. rewrite Hw. by intros ?%not_elem_of_nil.
    + intros q. rewrite Hw. constructor.
    + intros q. rewrite Hw. unfold zlen. cbn. lia.
Qed.

(** C24: the scheduler grants one slot, fairly within a tenant, and forgets nobody.  After any
    interleaving of calls, receipts, cancellations, permit releases and a shutdown: at most one
    permit is open, namely while the slot is marked taken; a caller still waiting is in the queue
    of its tenant behind everyone of that tenant who was granted before, and the slot is then
    taken, or it has been told that the scheduler closed; and while the scheduler is open the
    number of queued callers is exact and within the limits, also per tenant. *)
Theorem scheduler_sound config f ops : NewFairScheduler config = Some f →
  let s := ssteps (mkSys f ∅) ops in
  let g := ys_f s in
  open_permits g = (if fs_active g then 1 else 0) ∧
  (∀ w wt, fs_waiters g !! w = Some wt → sw_permit wt = None → w ∉ ys_returned s →
    if fs_closed g then sw_result wt = Some (inl ErrSchedulerClosed)
    else w ∈ tq_waiters (queue_at g (sw_queue wt)) ∧ fs_active g = true ∧
         ∀ v wtv p, fs_waiters g !! v = Some wtv → sw_queue wtv = sw_queue wt → sw_permit wtv = Some p → (v < w)%nat) ∧
  (fs_closed g = false →
    Queued g = Z.of_nat (sum_list (qlen g <$> fs_order g)) ∧ 0 ≤ Queued g ≤ fs_totalLimit g ∧
    (∀ q, zlen (tq_waiters (queue_at g q)) ≤ fs_perTenant g ∧ StronglySorted lt (tq_waiters (queue_at g q)))).
Proof.
  intros Hnew s g. pose proof (ssteps_ok (mkSys f ∅) ops (new_scheduler_ok _ _ Hnew)) as [(Hs & _ & Hf) Hi]. fold s g in Hs, Hf, Hi.
  split; [apply Hs|]. split.
  - intros w wt Hw Hp Hr. destruct (fs_closed g) eqn:Hc; [by eapply sl_refused|]. pose proof (sl_waiting _ _ Hs Hc w wt Hw Hp Hr) as Hin.
    split; [done|]. split.
    + destruct (fs_active g) eqn:Ha; [done|]. specialize (Hi eq_refl eq_refl). pose proof (sh_queued _ (Hf eq_refl)) as Hq. rewrite Hi in Hq.
      pose proof (sum_elem (qlen g) _ _ (queue_member _ _ _ (Hf eq_refl) Hin)) as Hle. unfold qlen in Hle at 1.
      destruct (tq_waiters (queue_at g (sw_queue wt))); [by apply not_elem_of_nil in Hin|]. cbn in Hle. lia.
    + intros v wtv p Hv Eq Hpv. apply (sl_order _ _ Hs Hc v wtv p w Hv Hpv). by rewrite Eq.
  - intros Hc. specialize (Hf Hc). pose proof (sh_queued _ Hf). pose proof (sh_total _ Hf). unfold Queued. split; [done|]. split; [lia|].
    intros q. split; apply Hf.
Qed.

(** ** Examples *)
Definition ex_config : SchedulerConfig := mkSchedulerConfig [(TenantStandard, 4)] 2 8 16 second.
Definition ex_scheduler : FairScheduler := default (mkScheduler (λ _, None) 0 0 0 0 ∅ [] 0 0 false false [] [] []) (NewFairScheduler ex_config).
Definition ex_tenant (i : nat) : Tenant := mkTenant ("tenant " +:+ string_of_bytes [Z.of_nat i]) TenantStandard.
Definition acquire (i : nat) : sop := SAcquire (Context None) (ex_tenant i) 1.

(** Tenant 1 is served once and asks again (waiter 4); from then on a fresh tenant arrives before
    each release. *)
Definition ex_fresh (n : nat) : list sop :=
  [acquire 0; acquire 1; acquire 2; acquire 3; SReceive 0; SPermitClose 0; SReceive 1; acquire 1] ++
  flat_map (λ k, [acquire (k + 4)%nat; SPermitClose (S k); SReceive (if (k <? 2)%nat then k + 2 else k + 3)%nat]) (seq 0 n).

(** However many fresh tenants are served meanwhile, the tenant that was there first still waits,
    and the list of tenants grows although never more than four requests are queued. *)
Example fresh_tenants_starve :
  forallb (λ n, let f := ys_f (ssteps (mkSys ex_scheduler ∅) (ex_fresh n)) in
    bool_decide (permit_of f 4 = None) && (length (fs_permits f) =? n + 2)%nat && (length (fs_order f) =? n + 3)%nat &&
    (Queued f =? 3)) (seq 0 40) = true.
Proof. vm_compute. reflexivity. Qed.

(** A caller whose context ends after the scheduler was closed is subtracted once more. *)
Example closed_scheduler_counts_below_zero :
  Queued (ys_f (ssteps (mkSys ex_scheduler ∅) [acquire 0; acquire 1; SClose; SCancel 1])) = -1.
Proof. vm_compute. reflexivity. Qed.

Lemma scheduler_sound_witness :
  open_permits (ys_f (ssteps (mkSys ex_scheduler ∅) (ex_fresh 3))) = 1 ∧
  Queued (ys_f (ssteps (mkSys ex_scheduler ∅) (ex_fresh 3))) ≤ 8.
Proof.
  pose proof (scheduler_sound ex_config ex_scheduler (ex_fresh 3) eq_refl) as (Hp & _ & Hq).
  split; [rewrite Hp; vm_compute; reflexivity|]. destruct (Hq ltac:(vm_compute; reflexivity)) as (_ & Hl & _). exact (proj2 Hl).
Defined.
