(* ===== verification/ProjQuota.v ===== *)
(** * programmable/projection: tenant quotas

    Models [quota.go] (the tenants are in [ProjScheduler]): the shared accounting of sessions and
    retained disk bytes, and the per-session limits of rows, frames, bytes and bandwidth (a token
    bucket in [float64]).  Leases are shared pointers in the source and indices into lists here.
    Each call is one step under the manager's mutex, except the closing of a session lease, which
    takes the lease's mutex and then the manager's and is two steps.  The theorem: the accounts
    are exactly the live leases, nothing is granted beyond a limit, and every open session stays
    within its limits. *)
From S2P Require Import Prelude GoText GoFloat Projection ProjScheduler.
Open Scope Z_scope.

Inductive QuotaDimension := QuotaSessions | QuotaRows | QuotaFrames | QuotaFrameBytes | QuotaBytes | QuotaBandwidth | QuotaDisk.
Inductive qerror := ErrInvalidQuota | QuotaExceeded (dimension : QuotaDimension) (class : TenantClass) (retryAfter : duration) | ErrQuotaLeaseClosed.
Definition quotaError (dimension : QuotaDimension) (class : TenantClass) (retryAfter : duration) : qerror :=
  QuotaExceeded dimension class retryAfter.

Record TenantLimits := mkLimits {
  tl_MaxSessions : Z;
  tl_MaxRowsPerSession : Z;
  tl_MaxFramesPerSession : Z;
  tl_MaxFrameBytes : Z;
  tl_MaxBytesPerSession : Z;
  tl_BandwidthBytesPerSec : Z;
  tl_BandwidthBurstBytes : Z;
  tl_MaxDiskBytes : Z;
  tl_RetryAfter : duration
}.
Definition validTenantLimits (l : TenantLimits) : bool :=
  (0 <? tl_MaxSessions l) && (tl_MaxSessions l <=? 1000000) &&
  (0 <? tl_MaxRowsPerSession l) && (tl_MaxRowsPerSession l <=? 1000000000) &&
  (0 <? tl_MaxFramesPerSession l) && (tl_MaxFramesPerSession l <=? 100000000) &&
  (256 <=? tl_MaxFrameBytes l) && (tl_MaxFrameBytes l <=? maxDeltaBytes) &&
  (tl_MaxFrameBytes l <=? tl_MaxBytesPerSession l) && (tl_MaxBytesPerSession l <=? 2 ^ 50) &&
  (0 <? tl_BandwidthBytesPerSec l) && (tl_BandwidthBytesPerSec l <=? 2 ^ 40) &&
  (tl_MaxFrameBytes l <=? tl_BandwidthBurstBytes l) && (tl_BandwidthBurstBytes l <=? 2 ^ 40) &&
  (0 <? tl_MaxDiskBytes l) && (tl_MaxDiskBytes l <=? 2 ^ 60) &&
  (0 <? tl_RetryAfter l) && (tl_RetryAfter l <=? hour).

(** ** State *)
Record tenantUsage := mkUsage { tu_class : TenantClass; tu_sessions : Z; tu_disk : Z }.
Record QuotaManager := mkManager { qm_limits : TenantClass → option TenantLimits; qm_usage : gmap string tenantUsage }.
Record SessionQuotaLease := mkSession {
  sl_tenant : Tenant;
  sl_limits : TenantLimits;
  sl_rows : Z;
  sl_frames : Z;
  sl_bytes : Z;
  sl_last : time;
  sl_tokens : spec_float;
  sl_released : bool
}.
Record DiskQuotaLease := mkDisk { dl_tenant : Tenant; dl_bytes : Z; dl_released : bool }.

(** The policy is a map: no class twice, in any order. *)
Definition limits_of (policy : list (TenantClass * TenantLimits)) (class : TenantClass) : option TenantLimits :=
  snd <$> List.find (λ p, p.1 == class) policy.
Definition NewQuotaManager (policy : list (TenantClass * TenantLimits)) : option QuotaManager :=
  if (zlen policy =? 0) || (3 <? zlen policy) then None
  else if negb (forallb (λ p, validTenantClass p.1 && validTenantLimits p.2) policy) then None
  else if negb (bool_decide (is_Some (limits_of policy TenantStandard))) then None
  else Some (mkManager (limits_of policy) ∅).

Definition set_usage (key : string) (u : tenantUsage) (qm : QuotaManager) : QuotaManager := mkManager (qm_limits qm) (<[key := u]> (qm_usage qm)).
(** The usage of the tenant, created when missing. *)
Definition usage_of (tenant : Tenant) (qm : QuotaManager) : tenantUsage := default (mkUsage (tn_class tenant) 0 0) (qm_usage qm !! tn_key tenant).

(** ** Sessions *)
Definition AcquireSession (tenant : Tenant) (now : time) (qm : QuotaManager) : result qerror SessionQuotaLease * QuotaManager :=
  if negb (tenant_Valid tenant) || IsZero now then (Err ErrInvalidQuota, qm)
  else match qm_limits qm (tn_class tenant) with
  | None => (Err ErrInvalidQuota, qm)
  | Some limits =>
      let usage := usage_of tenant qm in
      let qm := set_usage (tn_key tenant) usage qm in
      if tl_MaxSessions limits <=? tu_sessions usage then (Err (quotaError QuotaSessions (tn_class tenant) (tl_RetryAfter limits)), qm)
      else
        (Ok (mkSession tenant limits 0 0 0 now (float64 (tl_BandwidthBurstBytes limits)) false),
         set_usage (tn_key tenant) (mkUsage (tu_class usage) (tu_sessions usage + 1) (tu_disk usage)) qm)
  end.

(** [now.Sub(last)], which saturates. *)
Definition elapsed_since (now last : time) : duration := Z.max (- (max_i64 + 1)) (Z.min max_i64 (now - last)).

(** The refill of the bucket. *)
Definition refill (now : time) (l : SessionQuotaLease) : spec_float * time :=
  let elapsed := elapsed_since now (sl_last l) in
  if 0 <? elapsed then
    (min64 (float64 (tl_BandwidthBurstBytes (sl_limits l)))
       (add64 (sl_tokens l) (mul64 (duration_seconds elapsed) (float64 (tl_BandwidthBytesPerSec (sl_limits l))))), now)
  else (sl_tokens l, sl_last l).
(** How long the bucket needs for the missing bytes. *)
Definition retry_of (byteCount : Z) (tokens : spec_float) (limits : TenantLimits) : duration :=
  let missing := sub64 (float64 byteCount) tokens in
  let retry := default 0 (ceil64 (mul64 (div64 missing (float64 (tl_BandwidthBytesPerSec limits))) (float64 second))) in
  if retry <? tl_RetryAfter limits then tl_RetryAfter limits else retry.

Definition AllowFrame (rows bytes : Z) (now : time) (l : SessionQuotaLease) : option qerror * SessionQuotaLease :=
  if (rows <? 0) || (bytes <? 0) || IsZero now then (Some ErrInvalidQuota, l)
  else if sl_released l then (Some ErrQuotaLeaseClosed, l)
  else
    let limits := sl_limits l in
    let refuse dimension := Some (quotaError dimension (tn_class (sl_tenant l)) (tl_RetryAfter limits)) in
    if tl_MaxFrameBytes limits <? bytes then (refuse QuotaFrameBytes, l)
    else if tl_MaxRowsPerSession limits - rows <? sl_rows l then (refuse QuotaRows, l)
    else if tl_MaxFramesPerSession limits <=? sl_frames l then (refuse QuotaFrames, l)
    else if tl_MaxBytesPerSession limits - bytes <? sl_bytes l then (refuse QuotaBytes, l)
    else
      let '(tokens, last) := refill now l in
      let with_tokens rows frames bytes tokens := mkSession (sl_tenant l) limits rows frames bytes last tokens (sl_released l) in
      if SFltb tokens (float64 bytes) then
        (Some (quotaError QuotaBandwidth (tn_class (sl_tenant l)) (retry_of bytes tokens limits)),
         with_tokens (sl_rows l) (sl_frames l) (sl_bytes l) tokens)
      else
        (None, with_tokens (sl_rows l + rows) (sl_frames l + 1) (sl_bytes l + bytes) (sub64 tokens (float64 bytes))).

(** [Close] up to the release of the lease's mutex, and the rest of it. *)
Definition mark_released (l : SessionQuotaLease) : SessionQuotaLease :=
  mkSession (sl_tenant l) (sl_limits l) (sl_rows l) (sl_frames l) (sl_bytes l) (sl_last l) (sl_tokens l) true.
Definition prune_usage (key : string) (u : tenantUsage) (qm : QuotaManager) : QuotaManager :=
  if (tu_sessions u =? 0) && (tu_disk u =? 0) then mkManager (qm_limits qm) (delete key (qm_usage qm)) else set_usage key u qm.
Definition session_Close (tenant : Tenant) (qm : QuotaManager) : QuotaManager :=
  match qm_usage qm !! tn_key tenant with
  | None => qm
  | Some usage =>
      let sessions := if 0 <? tu_sessions usage then tu_sessions usage - 1 else tu_sessions usage in
      prune_usage (tn_key tenant) (mkUsage (tu_class usage) sessions (tu_disk usage)) qm
  end.

(** ** Disk *)
Definition ReserveDisk (tenant : Tenant) (bytes : Z) (qm : QuotaManager) : result qerror DiskQuotaLease * QuotaManager :=
  if negb (tenant_Valid tenant) || (bytes <=? 0) then (Err ErrInvalidQuota, qm)
  else match qm_limits qm (tn_class tenant) with
  | None => (Err ErrInvalidQuota, qm)
  | Some limits =>
      let usage := usage_of tenant qm in
      let qm := set_usage (tn_key tenant) usage qm in
      if tl_MaxDiskBytes limits - bytes <? tu_disk usage then (Err (quotaError QuotaDisk (tn_class tenant) (tl_RetryAfter limits)), qm)
      else
        (Ok (mkDisk tenant bytes false), set_usage (tn_key tenant) (mkUsage (tu_class usage) (tu_sessions usage) (tu_disk usage + bytes)) qm)
  end.
Definition disk_Close (l : DiskQuotaLease) (qm : QuotaManager) : QuotaManager :=
  match qm_usage qm !! tn_key (dl_tenant l) with
  | None => qm
  | Some usage => prune_usage (tn_key (dl_tenant l)) (mkUsage (tu_class usage) (tu_sessions usage) (tu_disk usage - dl_bytes l)) qm
  end.

(** ** Reports *)
Definition ActiveTenants (qm : QuotaManager) : Z := Z.of_nat (size (qm_usage qm)).
Record QuotaClassUsage := mkClassUsage { cu_Class : TenantClass; cu_ActiveTenants : Z; cu_ActiveSessions : Z; cu_DiskBytes : Z }.
Definition class_usage (qm : QuotaManager) (class : TenantClass) : option QuotaClassUsage :=
  let l := List.filter (λ u, tu_class u == class) (snd <$> map_to_list (qm_usage qm)) in
  match l with
  | [] => None
  | _ => Some (mkClassUsage class (zlen l) (list_sum_Z (tu_sessions <$> l)) (list_sum_Z (tu_disk <$> l)))
  end.
Definition SnapshotByClass (qm : QuotaManager) : list QuotaClassUsage := omap (class_usage qm) [TenantStandard; TenantBulk; TenantSystem].

(** ** A manager and its leases *)

(** [ql_settled]: the manager has taken the closing of the lease into account. *)
Record qsession := mkQSession { ql_lease : SessionQuotaLease; ql_settled : bool }.
Record qsys := mkQsys { qs_qm : QuotaManager; qs_sessions : list qsession; qs_disks : list DiskQuotaLease }.
Inductive qop :=
| QAcquire (tenant : Tenant) (now : time)
| QAllow (i : nat) (rows bytes : Z) (now : time)
| QCloseBegin (i : nat)                       (* the lease is marked released *)
| QCloseEnd (i : nat)                         (* the call that marked it reaches the manager *)
| QReserve (tenant : Tenant) (bytes : Z)
| QDiskClose (i : nat).

Definition qstep (s : qsys) (o : qop) : qsys :=
  match o with
  | QAcquire tenant now =>
      match AcquireSession tenant now (qs_qm s) with
      | (Ok lease, qm) => mkQsys qm (qs_sessions s ++ [mkQSession lease false]) (qs_disks s)
      | (Err _, qm) => mkQsys qm (qs_sessions s) (qs_disks s)
      end
  | QAllow i rows bytes now =>
      mkQsys (qs_qm s) (alter (λ x, mkQSession (AllowFrame rows bytes now (ql_lease x)).2 (ql_settled x)) i (qs_sessions s)) (qs_disks s)
  | QCloseBegin i => mkQsys (qs_qm s) (alter (λ x, mkQSession (mark_released (ql_lease x)) (ql_settled x)) i (qs_sessions s)) (qs_disks s)
  | QCloseEnd i =>
      match qs_sessions s !! i with
      | Some x =>
          if sl_released (ql_lease x) && negb (ql_settled x)
          then mkQsys (session_Close (sl_tenant (ql_lease x)) (qs_qm s)) (<[i := mkQSession (ql_lease x) true]> (qs_sessions s)) (qs_disks s)
          else s
      | None => s
      end
  | QReserve tenant bytes =>
      match ReserveDisk tenant bytes (qs_qm s) with
      | (Ok lease, qm) => mkQsys qm (qs_sessions s) (qs_disks s ++ [lease])
      | (Err _, qm) => mkQsys qm (qs_sessions s) (qs_disks s)
      end
  | QDiskClose i =>
      match qs_disks s !! i with
      | Some l =>
          if dl_released l then s
          else mkQsys (disk_Close l (qs_qm s)) (qs_sessions s) (<[i := mkDisk (dl_tenant l) (dl_bytes l) true]> (qs_disks s))
      | None => s
      end
  end.
Definition qsteps (s : qsys) (l : list qop) : qsys := fold_left qstep l s.

(** What the live leases of a tenant add up to. *)
Definition session_weight (key : string) (x : qsession) : Z :=
  if (tn_key (sl_tenant (ql_lease x)) == key) && negb (ql_settled x) then 1 else 0.
Definition disk_weight (key : string) (l : DiskQuotaLease) : Z := if (tn_key (dl_tenant l) == key) && negb (dl_released l) then dl_bytes l else 0.
Definition live_sessions (s : qsys) (key : string) : Z := list_sum_Z (session_weight key <$> qs_sessions s).
Definition live_disk (s : qsys) (key : string) : Z := list_sum_Z (disk_weight key <$> qs_disks s).

Definition within (l : SessionQuotaLease) : Prop :=
  0 ≤ sl_rows l ≤ tl_MaxRowsPerSession (sl_limits l) ∧ 0 ≤ sl_frames l ≤ tl_MaxFramesPerSession (sl_limits l) ∧
  0 ≤ sl_bytes l ≤ tl_MaxBytesPerSession (sl_limits l) ∧ sl_bytes l ≤ sl_frames l * tl_MaxFrameBytes (sl_limits l).

(** The account of a tenant; a missing one is empty. *)
Definition account (qm : QuotaManager) (key : string) : Z * Z :=
  match qm_usage qm !! key with Some u => (tu_sessions u, tu_disk u) | None => (0, 0) end.

Record quota_ok (s : qsys) : Prop := {
  qo_exact : ∀ key, account (qs_qm s) key = (live_sessions s key, live_disk s key);
  qo_within : Forall (λ x, within (ql_lease x)) (qs_sessions s);
  qo_bytes : Forall (λ l, 0 < dl_bytes l) (qs_disks s);
  qo_limits : ∀ class l, qm_limits (qs_qm s) class = Some l → validTenantLimits l = true
}.

Lemma list_sum_Z_app l1 l2 : list_sum_Z (l1 ++ l2) = list_sum_Z l1 + list_sum_Z l2.
Proof. unfold list_sum_Z. induction l1 as [|x l1 IH]; cbn; [lia|]. rewrite IH. lia. Qed.
Lemma list_sum_Z_insert {A} (f : A → Z) i x y l : l !! i = Some x → list_sum_Z (f <$> <[i := y]> l) = list_sum_Z (f <$> l) - f x + f y.
Proof.
  revert i. induction l as [|z l IH]; intros [|i] Hi; try done.
  - injection Hi as ->. unfold list_sum_Z. cbn. lia.
  - specialize (IH i Hi). change (<[S i := y]> (z :: l)) with (z :: <[i := y]> l). rewrite !fmap_cons. unfold list_sum_Z in *. cbn [fold_right]. lia.
Qed.
Lemma list_sum_Z_alter {A} (f : A → Z) g i l : (∀ x, l !! i = Some x → f (g x) = f x) → list_sum_Z (f <$> alter g i l) = list_sum_Z (f <$> l).
Proof.
  intros Hg. revert i Hg. induction l as [|z l IH]; intros [|i] Hg; try done.
  - unfold list_sum_Z. cbn. by rewrite (Hg z).
  - change (alter g (S i) (z :: l)) with (z :: alter g i l). rewrite !fmap_cons. specialize (IH i Hg). unfold list_sum_Z in *. cbn [fold_right]. lia.
Qed.
Lemma list_sum_Z_nonneg {A} (f : A → Z) l : Forall (λ x, 0 ≤ f x) l → 0 ≤ list_sum_Z (f <$> l).
Proof. induction 1; unfold list_sum_Z in *; cbn; lia. Qed.
Lemma list_sum_Z_member {A} (f : A → Z) x l : Forall (λ x, 0 ≤ f x) l → x ∈ l → f x ≤ list_sum_Z (f <$> l).
Proof.
  induction 1 as [|y l Hy Hl IH]; [by intros ?%not_elem_of_nil|]. pose proof (list_sum_Z_nonneg f l Hl). unfold list_sum_Z in *. cbn.
  intros [->|Hx]%elem_of_cons; [lia|]. specialize (IH Hx). lia.
Qed.

Lemma validTenantLimits_spec l : validTenantLimits l = true →
  0 < tl_MaxSessions l ∧ 0 < tl_MaxRowsPerSession l ∧ 0 < tl_MaxFramesPerSession l ∧ 0 < tl_MaxBytesPerSession l ∧ 0 ≤ tl_MaxFrameBytes l.
Proof. unfold validTenantLimits. intros H. bool_hyps. lia. Qed.

Lemma AllowFrame_within rows bytes now l : within l → within (AllowFrame rows bytes now l).2 ∧
  sl_tenant (AllowFrame rows bytes now l).2 = sl_tenant l ∧ sl_released (AllowFrame rows bytes now l).2 = sl_released l.
Proof.
  intros (Hr & Hf & Hb & Hfb). unfold AllowFrame.
  destruct ((rows <? 0) || _ || _) eqn:Hc; [done|]. bool_hyps. destruct (sl_released l) eqn:Hrel; [done|].
  destruct (Z.ltb_spec (tl_MaxFrameBytes (sl_limits l)) bytes); [done|]. destruct (Z.ltb_spec (tl_MaxRowsPerSession (sl_limits l) - rows) (sl_rows l)); [done|].
  destruct (Z.leb_spec (tl_MaxFramesPerSession (sl_limits l)) (sl_frames l)); [done|].
  destruct (Z.ltb_spec (tl_MaxBytesPerSession (sl_limits l) - bytes) (sl_bytes l)); [done|]. destruct (refill now l) as [tokens last].
  destruct (SFltb _ _); (split; [|done]); unfold within; cbn; [done|nia].
Qed.

Lemma account_set key u qm k : account (set_usage key u qm) k = if k == key then (tu_sessions u, tu_disk u) else account qm k.
Proof. unfold account. cbn. case_bool_decide as H; [subst; by rewrite lookup_insert_eq|by rewrite lookup_insert_ne]. Qed.
Lemma account_prune key u qm k : account (prune_usage key u qm) k = if k == key then (tu_sessions u, tu_disk u) else account qm k.
Proof.
  unfold prune_usage. destruct (Z.eqb_spec (tu_sessions u) 0) as [Es|]; [|apply account_set].
  destruct (Z.eqb_spec (tu_disk u) 0) as [Ed|]; [|apply account_set]. unfold account. cbn.
  case_bool_decide; [subst; by rewrite lookup_delete_eq, Es, Ed|by rewrite lookup_delete_ne].
Qed.
Lemma account_usage tenant qm : account qm (tn_key tenant) = (tu_sessions (usage_of tenant qm), tu_disk (usage_of tenant qm)).
Proof. unfold account, usage_of. by destruct (_ !! _). Qed.

Lemma session_weight_nonneg key l : Forall (λ x, 0 ≤ session_weight key x) l.
Proof. apply Forall_forall. intros x _. unfold session_weight. case_match; lia. Qed.
Lemma disk_weight_nonneg key l : Forall (λ x, 0 < dl_bytes x) l → Forall (λ x, 0 ≤ disk_weight key x) l.
Proof. intros Hl. eapply Forall_impl; [exact Hl|]. intros x Hx. unfold disk_weight. cbn in Hx. destruct (_ && _); [lia|done]. Qed.

(** The books after a step: the account of one tenant moved with the leases of that tenant. *)
Lemma keep_books s qm' sessions' disks' key ds dd : quota_ok s →
  qm_limits qm' = qm_limits (qs_qm s) → Forall (λ x, within (ql_lease x)) sessions' → Forall (λ l, 0 < dl_bytes l) disks' →
  (∀ k, account qm' k = if k == key then ((account (qs_qm s) k).1 + ds, (account (qs_qm s) k).2 + dd) else account (qs_qm s) k) →
  (∀ k, list_sum_Z (session_weight k <$> sessions') = live_sessions s k + if k == key then ds else 0) →
  (∀ k, list_sum_Z (disk_weight k <$> disks') = live_disk s k + if k == key then dd else 0) →
  quota_ok (mkQsys qm' sessions' disks').
Proof.
  intros [He Hw Hb Hl] Elim Hw' Hb' Hacc Hs Hd. constructor; cbn; [|done..|by rewrite Elim].
  intros k. change (account qm' k = (list_sum_Z (session_weight k <$> sessions'), list_sum_Z (disk_weight k <$> disks'))).  rewrite Hacc, Hs, Hd, He. cbn. case_bool_decide; f_equal; lia.
Qed.

Lemma acquire_books s tenant now : quota_ok s → quota_ok (qstep s (QAcquire tenant now)).
Proof.
  intros Hok. cbn. unfold AcquireSession. assert (Hid : quota_ok (mkQsys (qs_qm s) (qs_sessions s) (qs_disks s))) by (by destruct s).
  destruct (_ || _); [done|]. destruct (qm_limits (qs_qm s) (tn_class tenant)) as [limits|] eqn:Hl; [|done].
  destruct (_ <=? _).
  - apply (keep_books s _ _ _ (tn_key tenant) 0 0 Hok); [done|apply Hok|apply Hok| |intros k; unfold live_sessions; case_bool_decide; lia|intros k; unfold live_disk; case_bool_decide; lia].
    intros k. rewrite account_set. case_bool_decide; [subst|done]. rewrite account_usage. cbn. f_equal; lia.
  - apply (keep_books s _ _ _ (tn_key tenant) 1 0 Hok); [done| |apply Hok| | |intros k; unfold live_disk; case_bool_decide; lia].
    + apply Forall_app. split; [apply Hok|]. apply Forall_singleton. pose proof (validTenantLimits_spec _ (qo_limits _ Hok _ _ Hl)). unfold within. cbn. lia.
    + intros k. rewrite !account_set. case_bool_decide; [subst|done]. rewrite account_usage. cbn. f_equal; lia.
    + intros k. rewrite fmap_app, list_sum_Z_app. unfold live_sessions. f_equal. unfold list_sum_Z, session_weight. cbn.
      rewrite andb_true_r. repeat case_bool_decide; subst; done || congruence || lia.
Qed.
Lemma reserve_books s tenant bytes : quota_ok s → quota_ok (qstep s (QReserve tenant bytes)).
Proof.
  intros Hok. cbn. unfold ReserveDisk. assert (Hid : quota_ok (mkQsys (qs_qm s) (qs_sessions s) (qs_disks s))) by (by destruct s).
  destruct (_ || _) eqn:Hg; [done|]. bool_hyps. destruct (qm_limits (qs_qm s) (tn_class tenant)) as [limits|] eqn:Hl; [|done].
  destruct (_ <? _).
  - apply (keep_books s _ _ _ (tn_key tenant) 0 0 Hok); [done|apply Hok|apply Hok| |intros k; unfold live_sessions; case_bool_decide; lia|intros k; unfold live_disk; case_bool_decide; lia].
    intros k. rewrite account_set. case_bool_decide; [subst|done]. rewrite account_usage. cbn. f_equal; lia.
  - apply (keep_books s _ _ _ (tn_key tenant) 0 bytes Hok); [done|apply Hok| | |intros k; unfold live_sessions; case_bool_decide; lia|].
    + apply Forall_app. split; [apply Hok|]. by apply Forall_singleton.
    + intros k. rewrite !account_set. case_bool_decide; [subst|done]. rewrite account_usage. cbn. f_equal; lia.
    + intros k. rewrite fmap_app, list_sum_Z_app. unfold live_disk. f_equal. unfold list_sum_Z, disk_weight. cbn.
      rewrite andb_true_r. repeat case_bool_decide; subst; done || congruence || lia.
Qed.

Lemma close_books s i : quota_ok s → quota_ok (qstep s (QCloseEnd i)).
Proof.
  intros Hok. cbn. destruct (qs_sessions s !! i) as [x|] eqn:Hx; [|done]. destruct (_ && _) eqn:Hc; [|done]. bool_hyps.
  set (key := tn_key (sl_tenant (ql_lease x))).
  assert (Hlive : 1 ≤ live_sessions s key).
  { pose proof (list_sum_Z_member (session_weight key) x (qs_sessions s) (session_weight_nonneg _ _)) as Hm.
    unfold session_weight in Hm at 1. unfold key in Hm at 1. rewrite bool_decide_true, H0 in Hm by done. apply Hm. by eapply list_elem_of_lookup_2. }
  pose proof (qo_exact _ Hok key) as He. unfold account in He. unfold session_Close. fold key.
  destruct (qm_usage (qs_qm s) !! key) as [u|] eqn:Hu; [|injection He; lia]. injection He as Hs Hd.
  apply (keep_books s _ _ _ key (-1) 0 Hok); [by unfold prune_usage; case_match| |apply Hok| | |intros k; unfold live_disk; case_bool_decide; lia].
  - apply Forall_insert; [apply Hok|]. exact (Forall_lookup_1 _ _ _ _ (qo_within _ Hok) Hx).
  - intros k. rewrite account_prune. case_bool_decide; [subst k|done]. unfold account. rewrite Hu. cbn. destruct (Z.ltb_spec 0 (tu_sessions u)); f_equal; lia.
  - intros k. rewrite (list_sum_Z_insert _ _ x) by done. unfold live_sessions. unfold session_weight at 2 3. cbn. fold key. rewrite H0.
    case_bool_decide; cbn; case_bool_decide; subst; done || lia.
Qed.
Lemma disk_books s i : quota_ok s → quota_ok (qstep s (QDiskClose i)).
Proof.
  intros Hok. cbn. destruct (qs_disks s !! i) as [x|] eqn:Hx; [|done]. destruct (dl_released x) eqn:Hr; [done|].
  set (key := tn_key (dl_tenant x)). pose proof (qo_bytes _ Hok) as Hb. pose proof (Forall_lookup_1 _ _ _ _ Hb Hx) as Hbx. cbn in Hbx.
  assert (Hlive : dl_bytes x ≤ live_disk s key).
  { pose proof (list_sum_Z_member (disk_weight key) x (qs_disks s) (disk_weight_nonneg _ _ Hb)) as Hm.
    unfold disk_weight in Hm at 1. unfold key in Hm at 1. rewrite bool_decide_true, Hr in Hm by done. apply Hm. by eapply list_elem_of_lookup_2. }
  pose proof (qo_exact _ Hok key) as He. unfold account in He. unfold disk_Close. fold key.
  destruct (qm_usage (qs_qm s) !! key) as [u|] eqn:Hu; [|injection He; lia]. injection He as Hs Hd.
  apply (keep_books s _ _ _ key 0 (- dl_bytes x) Hok); [by unfold prune_usage; case_match|apply Hok| | |intros k; unfold live_sessions; case_bool_decide; lia|].
  - by apply Forall_insert.
  - intros k. rewrite account_prune. case_bool_decide; [subst k|done]. unfold account. rewrite Hu. cbn. f_equal; lia.
  - intros k. rewrite (list_sum_Z_insert _ _ x) by done. unfold live_disk. unfold disk_weight at 2 3. cbn. fold key. rewrite Hr.
    case_bool_decide; cbn; case_bool_decide; subst; done || lia.
Qed.

Lemma qstep_ok s o : quota_ok s → quota_ok (qstep s o).
Proof.
  intros Hok. destruct o as [tenant now|i rows bytes now|i|i|tenant bytes|i];
    [by apply acquire_books| | |by apply close_books|by apply reserve_books|by apply disk_books]; cbn.
  - apply (keep_books s _ _ _ "" 0 0 Hok); [done| |apply Hok|intros k; case_bool_decide; [destruct (account _ _); cbn; f_equal; lia|done]| |intros k; unfold live_disk; case_bool_decide; lia].
    + apply Forall_alter; [apply Hok|]. intros x Hx Hw. by apply AllowFrame_within.
    + intros k. rewrite list_sum_Z_alter; [unfold live_sessions; case_bool_decide; lia|]. intros x Hx. unfold session_weight. cbn.
      destruct (AllowFrame_within rows bytes now _ (Forall_lookup_1 _ _ _ _ (qo_within _ Hok) Hx)) as (_ & -> & _). done.
  - apply (keep_books s _ _ _ "" 0 0 Hok); [done| |apply Hok|intros k; case_bool_decide; [destruct (account _ _); cbn; f_equal; lia|done]| |intros k; unfold live_disk; case_bool_decide; lia].
    + apply Forall_alter; [apply Hok|]. intros x _ Hw. exact Hw.
    + intros k. rewrite list_sum_Z_alter; [unfold live_sessions; case_bool_decide; lia|]. done.
Qed.
Lemma qsteps_ok s l : quota_ok s → quota_ok (qsteps s l).
Proof. revert s. induction l as [|o l IH]; intros s Hok; [done|]. by apply IH, qstep_ok. Qed.

Lemma NewQuotaManager_ok policy qm : NewQuotaManager policy = Some qm → quota_ok (mkQsys qm [] []).
Proof.
  unfold NewQuotaManager. destruct (_ || _); [done|]. destruct (forallb _ policy) eqn:Hf; [|done]. cbn [negb]. destruct (negb _); [done|]. intros [= <-].
  constructor; cbn; [done|constructor|constructor|]. intros class l. unfold limits_of. destruct (List.find _ _) as [[c l']|] eqn:Hfind; [|done]. cbn. intros [= ->].
  apply find_some in Hfind as [Hin _]. rewrite forallb_forall in Hf. specialize (Hf _ Hin). by bool_hyps.
Qed.

(** the quota books are exact and the limits hold.  After any interleaving of calls over one
    manager, the account of every tenant is the number of its live sessions and the sum of its
    retained bytes, nothing more and nothing less; a session or a reservation is granted only if
    it fits the limit of the tenant's class together with everything the tenant holds, and refused
    for this reason only if it does not; and every session has used at most the rows, frames and
    bytes of its limits. *)
Theorem quota_exact policy qm ops : NewQuotaManager policy = Some qm →
  let s := qsteps (mkQsys qm [] []) ops in
  (∀ key, account (qs_qm s) key = (live_sessions s key, live_disk s key)) ∧
  (∀ tenant now limits, tenant_Valid tenant = true → now ≠ 0 → qm_limits (qs_qm s) (tn_class tenant) = Some limits →
    is_ok (AcquireSession tenant now (qs_qm s)).1 = true ↔ live_sessions s (tn_key tenant) + 1 ≤ tl_MaxSessions limits) ∧
  (∀ tenant bytes limits, tenant_Valid tenant = true → 0 < bytes → qm_limits (qs_qm s) (tn_class tenant) = Some limits →
    is_ok (ReserveDisk tenant bytes (qs_qm s)).1 = true ↔ live_disk s (tn_key tenant) + bytes ≤ tl_MaxDiskBytes limits) ∧
  Forall (λ x, within (ql_lease x)) (qs_sessions s).
Proof.
  intros Hnew s. pose proof (qsteps_ok _ ops (NewQuotaManager_ok _ _ Hnew)) as Hok. fold s in Hok.
  split; [apply Hok|]. split; [|split; [|apply Hok]].
  - intros tenant now limits Hv Hnow Hl. pose proof (qo_exact _ Hok (tn_key tenant)) as He. rewrite account_usage in He. injection He as <- _.
    unfold AcquireSession, IsZero. rewrite Hv, Hl. destruct (Z.eqb_spec now 0); [done|]. cbn [negb orb]. destruct (Z.leb_spec (tl_MaxSessions limits) (tu_sessions (usage_of tenant (qs_qm s)))); cbn; split; done || lia.
  - intros tenant bytes limits Hv Hb Hl. pose proof (qo_exact _ Hok (tn_key tenant)) as He. rewrite account_usage in He. injection He as _ <-.
    unfold ReserveDisk. rewrite Hv, Hl. destruct (Z.leb_spec bytes 0); [lia|]. cbn [negb orb].
    destruct (Z.ltb_spec (tl_MaxDiskBytes limits - bytes) (tu_disk (usage_of tenant (qs_qm s)))); cbn; split; done || lia.
Qed.

(** ** Examples *)
Definition ex_limits : TenantLimits := mkLimits 1 100 10 1024 4096 1000 1024 5000 second.
Definition ex_manager : QuotaManager := mkManager (limits_of [(TenantStandard, ex_limits)]) ∅.
Definition ex_standard (i : nat) : Tenant := ProjScheduler.ex_tenant i.

(** A frame that exceeds the bucket is told when the bucket will hold it; then it is allowed. *)
Example bandwidth_retry :
  let s := qsteps (mkQsys ex_manager [] []) [QAcquire (ex_standard 1) second; QAllow 0 1 1000 second] in
  (λ x, ((AllowFrame 1 524 (second + second) (ql_lease x)).1, (AllowFrame 1 1024 (second + 10) (ql_lease x)).1)) <$> qs_sessions s !! 0%nat =
  Some (None, Some (QuotaExceeded QuotaBandwidth TenantStandard second)).
Proof. vm_compute. reflexivity. Qed.

(** A refused reservation of a tenant that holds nothing leaves its empty account behind, and no
    later call removes it unless the tenant is granted something. *)
Example refused_reservation_leaks :
  let ops := flat_map (λ i, [QReserve (ex_standard i) 6000]) (seq 0 20) in
  let s := qsteps (mkQsys ex_manager [] []) ops in
  ActiveTenants (qs_qm s) = 20 ∧ qs_sessions s = [] ∧ qs_disks s = [] ∧
  SnapshotByClass (qs_qm s) = [mkClassUsage TenantStandard 20 0 0].
Proof. vm_compute. done. Qed.

Lemma quota_exact_witness :
  let s := qsteps (mkQsys ex_manager [] []) [QAcquire (ex_standard 1) second; QReserve (ex_standard 1) 3000; QCloseBegin 0] in
  account (qs_qm s) (tn_key (ex_standard 1)) = (1, 3000) ∧
  account (qs_qm s) (tn_key (ex_standard 1)) = (live_sessions s (tn_key (ex_standard 1)), live_disk s (tn_key (ex_standard 1))).
Proof.
  split; [vm_compute; reflexivity|].
  exact (proj1 (quota_exact [(TenantStandard, ex_limits)] ex_manager
    [QAcquire (ex_standard 1) second; QReserve (ex_standard 1) 3000; QCloseBegin 0] eq_refl) (tn_key (ex_standard 1))).
Defined.
