(* ===== verification/ProjReplica.v ===== *)
(** * programmable/projection: typed reads

    Models [replica.go] and [router.go]: construction, generation-consistent reads, waiting for a
    cursor, notification, sharded replicas and the router that swaps them.  The store, the context,
    the clock and the [select] of a waiter are operations of a type class over a world, so that
    writers may act between any two of them; [memory_world] is the instance over the memory store.
    The theorems: a read answers from one generation the store really had during the call and
    retries only when somebody wrote; a waiter is not left behind by a checkpoint it waits for; a
    sharded read is served by the shard of its key; routes are swapped at increasing revisions. *)
From S2P Require Import Prelude GoText Sha256 Projection ProjStore ProjOwner ProjRuntime ProjShard.
Open Scope Z_scope.

Definition defaultWaitPollInterval : duration := 100 * millisecond.

Inductive rerror :=
| ErrInvalidReplica
| ErrStale (projection cursor : string) (maximum age : duration)
| ErrReplicaEncode (err : perror)
| ErrReplicaDecode (err : perror)
| ErrInvalidShardRouter | ErrStaleShardRoute
| ErrShardUnavailable (shard : string) | ErrShardGeneration
| ErrResolve (err : sherror)
| RError (err : perror).                       (* an error of the schema, the store or the context *)

(** ** Options *)

(** A replacement of the clock says whether it is not nil; the clock is the world's. *)
Inductive ReplicaOption := WithReplicaClock (clock : bool) | WithWaitPollInterval (interval : duration) | NilReplicaOption.
Fixpoint applyReplica (options : list ReplicaOption) (poll : duration) : result rerror duration :=
  match options with
  | [] => Ok poll
  | NilReplicaOption :: _ => Err ErrInvalidReplica
  | WithReplicaClock clock :: options => if clock then applyReplica options poll else Err ErrInvalidReplica
  | WithWaitPollInterval interval :: options =>
      if interval <=? 0 then Err ErrInvalidReplica else applyReplica options interval
  end.

Inductive ReadOption := RequireFreshWithin (maximum : duration) | NilReadOption.
(** [Some] is the bound of [requireFresh]. *)
Fixpoint applyRead (options : list ReadOption) (fresh : option duration) : result rerror (option duration) :=
  match options with
  | [] => Ok fresh
  | NilReadOption :: _ => Err ErrInvalidReplica
  | RequireFreshWithin maximum :: options => if maximum <=? 0 then Err ErrInvalidReplica else applyRead options (Some maximum)
  end.

(** ** The world of a reader *)
Inductive selected := Notified | Ticked | Done (cause : perror).
#[export] Instance selected_eq_dec : EqDecision selected.
Proof. solve_decision. Defined.
Class ReadWorld (S W : Type) := {
  rw_cause : W → option perror * W;                                        (* context.Cause *)
  rw_Err : W → option perror * W;                                          (* ctx.Err *)
  rw_Checkpoint : S → string → W → result perror (option Projection.Checkpoint) * W;
  rw_Get : S → string → string → W → result perror (option string) * W;
  rw_now : W → time * W;
  rw_notification : nat → W → nat * W;                                     (* the present channel of a cell *)
  rw_select : nat → nat → W → option selected * W;                         (* [None]: it never returns *)
  rw_ReplayFloor : S → string → W → option (result perror (option string)) * W   (* [None]: not such a store *)
}.

(** A replica's [notify] field is a cell of the world; its channel is replaced when it is closed. *)
Record Replica (K V S : Type) := mkReplica {
  re_schema : Schema;
  re_store : S;
  re_encodeKey : K → result perror string;
  re_decoders : gmap string (string → result perror V);
  re_poll : duration;
  re_notify : nat
}.
Arguments mkReplica {K V S}.
Arguments re_schema {K V S}.
Arguments re_store {K V S}.
Arguments re_encodeKey {K V S}.
Arguments re_decoders {K V S}.
Arguments re_poll {K V S}.
Arguments re_notify {K V S}.

Section replica.
Context {K V S W : Type} `{ReadWorld S W}.

(** [None] is a nil store, encoder or decoder; [cell] is where the new replica keeps its channel.
    The entries of the map of decoders are visited in the order of its elements; the answer does
    not depend on it, because every failure is the same error. *)
Definition NewReplicaWithCompatibleDecoders (schema : Schema) (store : option S) (encodeKey : option (K → result perror string))
    (current : option (string → result perror V)) (compatible : gmap string (option (string → result perror V)))
    (options : list ReplicaOption) (cell : nat) : result rerror (Replica K V S) :=
  match Schema_Validate schema with
  | Some err => Err (RError err)
  | None =>
      match store, encodeKey, current with
      | Some store, Some encodeKey, Some current =>
          if negb (Z.of_nat (size compatible) =? zlen (sc_CompatibleFingerprints schema)) then Err ErrInvalidReplica
          else if negb (forallb (λ p, Contains (sc_CompatibleFingerprints schema) p.1 && bool_decide (is_Some p.2)) (map_to_list compatible))
          then Err ErrInvalidReplica
          else
            poll ← applyReplica options defaultWaitPollInterval;
            Ok (mkReplica schema store encodeKey (omap id compatible ∪ {[ sc_Fingerprint schema := current ]}) poll cell)
      | _, _, _ => Err ErrInvalidReplica
      end
  end.
Definition NewReplica (schema : Schema) (store : option S) (encodeKey : option (K → result perror string))
    (decode : option (string → result perror V)) (options : list ReplicaOption) (cell : nat) : result rerror (Replica K V S) :=
  NewReplicaWithCompatibleDecoders schema store encodeKey decode ∅ options cell.

(** ** Reading *)

(** The freshness check of a stable read. *)
Definition stale (r : Replica K V S) (fresh : option duration) (after : Projection.Checkpoint) (w : W) : option rerror * W :=
  match fresh with
  | None => (None, w)
  | Some maximum =>
      let '(now, w) := rw_now w in
      let age := Freshness after now in
      (if maximum <? age then Some (ErrStale (sc_ID (re_schema r)) (cp_Cursor after) maximum age) else None, w)
  end.

Definition decode_found (r : Replica K V S) (before : Projection.Checkpoint) (found : option string) : result rerror (option V) :=
  match found with
  | None => Ok None
  | Some payload =>
      match re_decoders r !! sc_Fingerprint (cp_Schema before) with
      | None => Err ErrInvalidReplica
      | Some decode => match decode payload with Err err => Err (ErrReplicaDecode err) | Ok value => Ok (Some value) end
      end
  end.

(** One turn of the loop; no answer is [continue].  [Ok None] is an absent projection or row. *)
Definition Get_turn (r : Replica K V S) (encoded : string) (fresh : option duration) (w : W) : option (result rerror (option V)) * W :=
  let '(cause, w) := rw_cause w in
  match cause with
  | Some err => (Some (Err (RError err)), w)
  | None =>
      match rw_Checkpoint (re_store r) (sc_ID (re_schema r)) w with
      | (Err err, w) => (Some (Err (RError err)), w)
      | (Ok None, w) => (Some (Ok None), w)
      | (Ok (Some before), w) =>
          match requireMatchingSchema (re_schema r) (cp_Schema before) with
          | Some err => (Some (Err (RError err)), w)
          | None =>
              match rw_Get (re_store r) (sc_ID (re_schema r)) encoded w with
              | (Err err, w) => (Some (Err (RError err)), w)
              | (Ok found, w) =>
                  match rw_Checkpoint (re_store r) (sc_ID (re_schema r)) w with
                  | (Err err, w) => (Some (Err (RError err)), w)
                  | (Ok None, w) => (None, w)
                  | (Ok (Some after), w) =>
                      if negb (cp_Generation before =? cp_Generation after) then (None, w)
                      else
                        let '(err, w) := stale r fresh after w in
                        match err with
                        | Some err => (Some (Err err), w)
                        | None => (Some (decode_found r before found), w)
                        end
                  end
              end
          end
      end
  end.

(** At most [n] turns; no answer: it is still trying. *)
Fixpoint Get_loop (n : nat) (r : Replica K V S) (encoded : string) (fresh : option duration) (w : W) :
    option (result rerror (option V)) * W :=
  match n with
  | O => (None, w)
  | Datatypes.S n =>
      match Get_turn r encoded fresh w with
      | (Some answer, w) => (Some answer, w)
      | (None, w) => Get_loop n r encoded fresh w
      end
  end.

(** [nil_ctx]: the context is nil. *)
Definition Get (n : nat) (r : Replica K V S) (nil_ctx : bool) (key : K) (options : list ReadOption) (w : W) :
    option (result rerror (option V)) * W :=
  if nil_ctx then (Some (Err ErrInvalidReplica), w)
  else
    let '(cause, w) := rw_cause w in
    match cause with
    | Some err => (Some (Err (RError err)), w)
    | None =>
        match applyRead options None with
        | Err err => (Some (Err err), w)
        | Ok fresh =>
            match re_encodeKey r key with
            | Err err => (Some (Err (ErrReplicaEncode err)), w)
            | Ok encoded => Get_loop n r encoded fresh w
            end
        end
    end.

(** ** Waiting *)

(** At most [n] turns. *)
Fixpoint wait_loop (n : nat) (r : Replica K V S) (target : string) (w : W) : option (result rerror Projection.Checkpoint) * W :=
  match n with
  | O => (None, w)
  | Datatypes.S n =>
      let '(notification, w) := rw_notification (re_notify r) w in
      match rw_Checkpoint (re_store r) (sc_ID (re_schema r)) w with
      | (Err err, w) => (Some (Err (RError err)), w)
      | (Ok checkpoint, w) =>
          let select :=
            match rw_select (re_notify r) notification w with
            | (Some (Done cause), w) => (Some (Err (RError cause)), w)
            | (Some _, w) => wait_loop n r target w
            | (None, w) => (None, w)
            end in
          match checkpoint with
          | None => select
          | Some cp =>
              match requireMatchingSchema (re_schema r) (cp_Schema cp) with
              | Some err => (Some (Err (RError err)), w)
              | None => if cp_Cursor cp == target then (Some (Ok cp), w) else select
              end
          end
      end
  end.

Definition WaitUntil (n : nat) (r : Replica K V S) (nil_ctx : bool) (target : string) (w : W) : option (result rerror Projection.Checkpoint) * W :=
  if nil_ctx then (Some (Err ErrInvalidReplica), w)
  else
    let '(cause, w) := rw_cause w in
    match cause with
    | Some err => (Some (Err (RError err)), w)
    | None =>
        match Cursor_Validate target with
        | Some err => (Some (Err (RError err)), w)
        | None => wait_loop n r target w
        end
    end.

(** The cells hold the number of the present channel of each replica; a smaller number is closed. *)
Definition NotifyCheckpoint (r : Replica K V S) (checkpoint : Projection.Checkpoint) (cells : gmap nat nat) : gmap nat nat :=
  if sc_ID (cp_Schema checkpoint) != sc_ID (re_schema r) then cells
  else <[re_notify r := Datatypes.S (default 0%nat (cells !! re_notify r))]> cells.
End replica.

(** ** Sharded replicas *)
Record ShardResolver (K : Type) := mkResolver {
  sv_Resolve : K → result sherror string;
  sv_Shards : list string;
  sv_KeyFingerprint : string
}.
Arguments mkResolver {K}.
Arguments sv_Resolve {K}.
Arguments sv_Shards {K}.
Arguments sv_KeyFingerprint {K}.
Definition hash_resolver {K} (r : HashShardResolver K) : ShardResolver K := mkResolver (hash_Resolve r) (hr_shards r) (hr_keyFingerprint r).
Definition range_resolver {K} (r : RangeShardResolver K) : ShardResolver K :=
  mkResolver (λ key, Ok (range_Resolve r key)) (rr_shards r) (rr_keyFingerprint r).

Record ShardCheckpoint := mkShardCheckpoint {
  sk_Shard : string; sk_Cursor : string; sk_Floor : string; sk_Generation : Z; sk_SourceTime : time; sk_AppliedAt : time
}.
Inductive ShardStatusCode := ShardStatusReady | ShardStatusEmpty | ShardStatusUnavailable.
Record ShardFreshness := mkShardFreshness { sf_Checkpoint : ShardCheckpoint; sf_Status : ShardStatusCode }.

Record ShardedReplica (K V S : Type) := mkSharded {
  sd_schema : Schema;
  sd_resolver : ShardResolver K;
  sd_stores : gmap string (option S);            (* [None]: a nil store *)
  sd_replicas : gmap string (Replica K V S)
}.
Arguments mkSharded {K V S}.
Arguments sd_schema {K V S}.
Arguments sd_resolver {K V S}.
Arguments sd_stores {K V S}.
Arguments sd_replicas {K V S}.

Section sharded.
Context {K V S W : Type} `{ReadWorld S W}.

(** The loop over the shards; the replicas take the cells from [cell] on. *)
Fixpoint add_shards (stores : gmap string (option S)) (make : S → nat → result rerror (Replica K V S)) (shards : list string)
    (cell : nat) (d : ShardedReplica K V S) : result rerror (ShardedReplica K V S) :=
  match shards with
  | [] => Ok d
  | shard :: shards =>
      match stores !! shard with
      | None => Err ErrInvalidShardRouter
      | Some store =>
          let d := mkSharded (sd_schema d) (sd_resolver d) (<[shard := store]> (sd_stores d)) (sd_replicas d) in
          match store with
          | None => add_shards stores make shards (Datatypes.S cell) d
          | Some store =>
              replica ← make store cell;
              add_shards stores make shards (Datatypes.S cell)
                (mkSharded (sd_schema d) (sd_resolver d) (sd_stores d) (<[shard := replica]> (sd_replicas d)))
          end
      end
  end.

Definition NewShardedReplicaWithCompatibleDecoders (schema : Schema) (stores : gmap string (option S)) (resolver : option (ShardResolver K))
    (encodeKey : option (K → result perror string)) (current : option (string → result perror V))
    (compatible : gmap string (option (string → result perror V))) (options : list ReplicaOption) (cell : nat) :
    result rerror (ShardedReplica K V S) :=
  match Schema_Validate schema with
  | Some err => Err (RError err)
  | None =>
      match resolver, encodeKey, current with
      | Some resolver, Some _, Some _ =>
          if sv_KeyFingerprint resolver != sc_KeyFingerprint schema then Err ErrInvalidShardRouter
          else match canonicalShards (sv_Shards resolver) with
          | None => Err ErrInvalidShardRouter
          | Some shards =>
              if negb (size stores =? length shards)%nat then Err ErrInvalidShardRouter
              else
                add_shards stores
                  (λ store cell, NewReplicaWithCompatibleDecoders schema (Some store) encodeKey current compatible options cell)
                  shards cell (mkSharded schema resolver ∅ ∅)
          end
      | _, _, _ => Err ErrInvalidShardRouter
      end
  end.

Definition Resolve (d : ShardedReplica K V S) (key : K) : result rerror string :=
  match sv_Resolve (sd_resolver d) key with
  | Err err => Err (ErrResolve err)
  | Ok shard => if bool_decide (is_Some (sd_stores d !! shard)) then Ok shard else Err ErrInvalidShardRouter
  end.

Definition sharded_Get (n : nat) (d : ShardedReplica K V S) (nil_ctx : bool) (key : K) (options : list ReadOption) (w : W) :
    option (result rerror (option V)) * W :=
  match Resolve d key with
  | Err err => (Some (Err err), w)
  | Ok shard =>
      match sd_replicas d !! shard with
      | None => (Some (Err (ErrShardUnavailable shard)), w)
      | Some reader => Get n reader nil_ctx key options w
      end
  end.

Definition shardCheckpoint (shard : string) (store : S) (cp : Projection.Checkpoint) (w : W) : ShardCheckpoint * W :=
  let '(answer, w) := rw_ReplayFloor store (sc_ID (cp_Schema cp)) w in
  let floor := match answer with Some (Ok (Some floor)) => floor | _ => "" end in
  (mkShardCheckpoint shard (cp_Cursor cp) floor (cp_Generation cp) (cp_SourceTime cp) (cp_AppliedAt cp), w).

(** The store of the reader is [stores[shard]]. *)
Definition sharded_WaitUntil (n : nat) (d : ShardedReplica K V S) (nil_ctx : bool) (key : K) (target : ShardCheckpoint) (w : W) :
    option (result rerror ShardCheckpoint) * W :=
  match Resolve d key with
  | Err err => (Some (Err err), w)
  | Ok shard =>
      if sk_Shard target != shard then (Some (Err ErrShardGeneration), w)
      else match sd_replicas d !! shard with
      | None => (Some (Err (ErrShardUnavailable shard)), w)
      | Some reader =>
          match WaitUntil n reader nil_ctx (sk_Cursor target) w with
          | (None, w) => (None, w)
          | (Some (Err err), w) => (Some (Err err), w)
          | (Some (Ok cp), w) =>
              if negb (sk_Generation target =? 0) && negb (sk_Generation target =? cp_Generation cp)
              then (Some (Err ErrShardGeneration), w)
              else let '(result, w) := shardCheckpoint shard (re_store reader) cp w in (Some (Ok result), w)
          end
      end
  end.

(** The status of one shard; the error is that of an ended context. *)
Definition shard_freshness (d : ShardedReplica K V S) (shard : string) (w : W) : result rerror ShardFreshness * W :=
  let unknown code := mkShardFreshness (mkShardCheckpoint shard "" "" 0 0 0) code in
  match mjoin (sd_stores d !! shard) with
  | None => (Ok (unknown ShardStatusUnavailable), w)
  | Some store =>
      match rw_Checkpoint store (sc_ID (sd_schema d)) w with
      | (Err _, w) =>
          let '(err, w) := rw_Err w in
          match err with
          | Some err => (Err (RError err), w)
          | None => (Ok (unknown ShardStatusUnavailable), w)
          end
      | (Ok None, w) => (Ok (unknown ShardStatusEmpty), w)
      | (Ok (Some cp), w) =>
          match requireMatchingSchema (sd_schema d) (cp_Schema cp) with
          | Some _ => (Ok (unknown ShardStatusUnavailable), w)
          | None => let '(cp, w) := shardCheckpoint shard store cp w in (Ok (mkShardFreshness cp ShardStatusReady), w)
          end
      end
  end.
Fixpoint fan_out (d : ShardedReplica K V S) (shards : list string) (w : W) : result rerror (list ShardFreshness) * W :=
  match shards with
  | [] => (Ok [], w)
  | shard :: shards =>
      match shard_freshness d shard w with
      | (Err err, w) => (Err err, w)
      | (Ok x, w) => match fan_out d shards w with (Err err, w) => (Err err, w) | (Ok l, w) => (Ok (x :: l), w) end
      end
  end.
Definition FanOutFreshness (d : ShardedReplica K V S) (nil_ctx : bool) (w : W) : result rerror (list ShardFreshness) * W :=
  if nil_ctx then (Err ErrInvalidReplica, w)
  else
    let '(cause, w) := rw_cause w in
    match cause with
    | Some err => (Err (RError err), w)
    | None => fan_out d (sv_Shards (sd_resolver d)) w
    end.

(** ** The router *)
Record Router := mkRouter { ro_revision : Z; ro_replica : ShardedReplica K V S }.

(** [None] is a nil replica. *)
Definition NewRouter (revision : Z) (replica : option (ShardedReplica K V S)) : result rerror Router :=
  match replica with
  | None => Err ErrInvalidShardRouter
  | Some replica => if revision =? 0 then Err ErrInvalidShardRouter else Ok (mkRouter revision replica)
  end.
Definition Update (revision : Z) (replica : option (ShardedReplica K V S)) (router : Router) : option rerror * Router :=
  match replica with
  | None => (Some ErrInvalidShardRouter, router)
  | Some replica =>
      if revision =? 0 then (Some ErrInvalidShardRouter, router)
      else if revision <=? ro_revision router then (Some ErrStaleShardRoute, router)
      else (None, mkRouter revision replica)
  end.
Definition Revision (router : Router) : Z := ro_revision router.
Definition current (router : Router) : ShardedReplica K V S := ro_replica router.
Definition router_Get (n : nat) (router : Router) (nil_ctx : bool) (key : K) (options : list ReadOption) (w : W) :
    option (result rerror (option V)) * W := sharded_Get n (current router) nil_ctx key options w.
Definition router_WaitUntil (n : nat) (router : Router) (nil_ctx : bool) (key : K) (target : ShardCheckpoint) (w : W) :
    option (result rerror ShardCheckpoint) * W := sharded_WaitUntil n (current router) nil_ctx key target w.
Definition router_FanOutFreshness (router : Router) (nil_ctx : bool) (w : W) : result rerror (list ShardFreshness) * W :=
  FanOutFreshness (current router) nil_ctx w.
End sharded.
Arguments Router : clear implicits.

(** ** The world over memory stores

    Stores are handles.  Before each access of the reader the environment acts as the next entry
    of a schedule says; the entry also says which ready case a [select] takes. *)
Section memory.
Context {K V : Type}.

Inductive renv :=
| WrStore (store : nat) (o : ProjStore.op)
| WrNotify (r : Replica K V nat) (checkpoint : Projection.Checkpoint)
| WrTick                                             (* the ticker fires; its channel holds one tick *)
| WrCancel (cause err : perror)
| WrTime (now : time).
Record rtick := mkRtick { rk_env : list renv; rk_pick : nat }.
Record rworld := mkRworld {
  rd_stores : gmap nat (gmap string state);
  rd_cells : gmap nat nat;
  rd_tick : bool;
  rd_cause : option (perror * perror);
  rd_now : time;
  rd_sched : list rtick;
  rd_seen : list (gmap nat (gmap string state))      (* the stores at each access so far *)
}.

Definition store_at (stores : gmap nat (gmap string state)) (s : nat) : gmap string state := default ∅ (stores !! s).
Definition cell_at (cells : gmap nat nat) (c : nat) : nat := default 0%nat (cells !! c).
Definition ract (w : rworld) (e : renv) : rworld :=
  match e with
  | WrStore s o => mkRworld (<[s := exec (store_at (rd_stores w) s) o]> (rd_stores w)) (rd_cells w) (rd_tick w) (rd_cause w) (rd_now w) (rd_sched w) (rd_seen w)
  | WrNotify r cp => mkRworld (rd_stores w) (NotifyCheckpoint r cp (rd_cells w)) (rd_tick w) (rd_cause w) (rd_now w) (rd_sched w) (rd_seen w)
  | WrTick => mkRworld (rd_stores w) (rd_cells w) true (rd_cause w) (rd_now w) (rd_sched w) (rd_seen w)
  | WrCancel cause err => mkRworld (rd_stores w) (rd_cells w) (rd_tick w) (Some (default (cause, err) (rd_cause w))) (rd_now w) (rd_sched w) (rd_seen w)
  | WrTime now => mkRworld (rd_stores w) (rd_cells w) (rd_tick w) (rd_cause w) now (rd_sched w) (rd_seen w)
  end.
Definition racts (w : rworld) (l : list renv) : rworld := fold_left ract l w.
Definition see (w : rworld) : rworld :=
  mkRworld (rd_stores w) (rd_cells w) (rd_tick w) (rd_cause w) (rd_now w) (rd_sched w) (rd_seen w ++ [rd_stores w]).
Definition resched (sched : list rtick) (w : rworld) : rworld :=
  mkRworld (rd_stores w) (rd_cells w) (rd_tick w) (rd_cause w) (rd_now w) sched (rd_seen w).

(** The environment's turn before an access. *)
Definition rturn (w : rworld) : nat * rworld :=
  match rd_sched w with
  | [] => (0%nat, see w)
  | t :: sched => (rk_pick t, see (racts (resched sched w) (rk_env t)))
  end.
Definition rpass (w : rworld) : rworld := (rturn w).2.
Definition rctx (w : rworld) : context perror := Context (fst <$> rd_cause w).

(** The ready cases of the [select]. *)
Definition ready_cases (cell token : nat) (w : rworld) : list selected :=
  (if (token <? cell_at (rd_cells w) cell)%nat then [Notified] else []) ++
  (if rd_tick w then [Ticked] else []) ++
  (match rd_cause w with Some (cause, _) => [Done cause] | None => [] end).
Definition take_case (c : selected) (w : rworld) : rworld :=
  match c with
  | Ticked => mkRworld (rd_stores w) (rd_cells w) false (rd_cause w) (rd_now w) (rd_sched w) (rd_seen w)
  | _ => w
  end.
(** It waits until a case is ready; [sched] is the schedule of [w]. *)
Fixpoint select_loop (cell token pick : nat) (sched : list rtick) (w : rworld) : option selected * rworld :=
  match ready_cases cell token w with
  | [] =>
      match sched with
      | [] => (None, w)
      | t :: sched => select_loop cell token (rk_pick t) sched (see (racts (resched sched w) (rk_env t)))
      end
  | c :: cases =>
      let chosen := nth (pick mod Datatypes.S (length cases)) (c :: cases) c in
      (Some chosen, take_case chosen w)
  end.

#[export] Instance memory_world : ReadWorld nat rworld := {|
  rw_cause w := let w := rpass w in (fst <$> rd_cause w, w);
  rw_Err w := let w := rpass w in (snd <$> rd_cause w, w);
  rw_Checkpoint s id w := let w := rpass w in (ProjStore.Checkpoint (rctx w) (store_at (rd_stores w) s) id, w);
  rw_Get s id key w := let w := rpass w in (ProjStore.Get (rctx w) (store_at (rd_stores w) s) id key, w);
  rw_now w := let w := rpass w in (rd_now w, w);
  rw_notification cell w := let w := rpass w in (cell_at (rd_cells w) cell, w);
  rw_select cell token w := let '(pick, w) := rturn w in select_loop cell token pick (rd_sched w) w;
  rw_ReplayFloor s id w := (None, w)                  (* the memory store has no such method *)
|}.

(** ** How stores evolve *)

(** A projection never disappears. *)
Lemma exec_present (st : gmap string state) o i : st !! i ≠ None → exec st o !! i ≠ None.
Proof.
  intros Hc He. destruct o as [ctx now b|ctx now t cursor at_]; cbn in He.
  - destruct (ApplyDelta ctx now st b) as [e st'] eqn:Hap.
    destruct (ApplyDelta_cases _ _ _ _ _ _ Hap) as [[-> _]|(? & _ & _ & _ & _ & _ & _ & _ & ->)]; [done|].
    cbn in He. by apply lookup_insert_None in He as [? _].
  - destruct (ProjStore.Commit ctx now st t cursor at_) as [[e t'] st'] eqn:Hco.
    destruct (Commit_cases _ _ _ _ _ _ _ _ _ Hco) as [[-> _]|(_ & _ & _ & _ & _ & _ & ->)]; [done|].
    cbn in He. by apply lookup_insert_None in He as [? _].
Qed.
Lemma execs_present (st : gmap string state) l i : st !! i ≠ None → execs st l !! i ≠ None.
Proof. revert st. induction l as [|o l IH]; intros st Hc; [done|]. apply IH, exec_present, Hc. Qed.

Definition writes_of (s : nat) (l : list renv) : list ProjStore.op :=
  omap (λ e, match e with WrStore s' o => if (s' =? s)%nat then Some o else None | _ => None end) l.
Definition pending (s : nat) (sched : list rtick) : list ProjStore.op := flat_map (λ t, writes_of s (rk_env t)) sched.

Lemma racts_store w l s : store_at (rd_stores (racts w l)) s = execs (store_at (rd_stores w) s) (writes_of s l).
Proof.
  revert w. induction l as [|e l IH]; intros w; [done|]. unfold racts in *. cbn [fold_left]. rewrite IH.
  destruct e as [s' o| | | |]; cbn; try done. destruct (Nat.eqb_spec s' s) as [->|Hne]; cbn; unfold store_at; cbn.
  - by rewrite lookup_insert_eq.
  - by rewrite lookup_insert_ne.
Qed.
Lemma racts_fields w l : rd_sched (racts w l) = rd_sched w ∧ rd_seen (racts w l) = rd_seen w.
Proof.
  revert w. induction l as [|e l IH]; intros w; [done|]. unfold racts in *. cbn [fold_left].
  destruct (IH (ract w e)) as [-> ->]. by destruct e.
Qed.

(** A later world: its stores result from writes the schedule had pending. *)
Definition rlater (w w' : rworld) : Prop :=
  (∃ seen, rd_seen w' = rd_seen w ++ seen) ∧
  ∀ s, ∃ l, pending s (rd_sched w) = l ++ pending s (rd_sched w') ∧
    store_at (rd_stores w') s = execs (store_at (rd_stores w) s) l.

#[export] Instance rlater_preorder : PreOrder rlater.
Proof.
  split.
  - intros w. split; [exists []; by rewrite app_nil_r|]. intros s. by exists [].
  - intros w1 w2 w3 [[a Ha] H1] [[b Hb] H2]. split; [exists (a ++ b); by rewrite Hb, Ha, app_assoc|].
    intros s. destruct (H1 s) as (l1 & P1 & E1), (H2 s) as (l2 & P2 & E2). exists (l1 ++ l2).
    rewrite P1, P2, app_assoc. split; [done|]. rewrite E2, E1. unfold execs. by rewrite fold_left_app.
Qed.

Lemma acted_later w t sched : rd_sched w = t :: sched → rlater w (see (racts (resched sched w) (rk_env t))).
Proof.
  intros Hs. destruct (racts_fields (resched sched w) (rk_env t)) as [Es El]. split; [cbn; rewrite El; eauto|].
  intros s. exists (writes_of s (rk_env t)). cbn. rewrite Hs, Es, racts_store. done.
Qed.
Lemma rpass_later w : rlater w (rpass w).
Proof.
  unfold rpass, rturn. destruct (rd_sched w) as [|t sched] eqn:Hs; [|by apply acted_later].
  split; [cbn; eauto|]. intros s. by exists [].
Qed.
Lemma rpass_seen w : rd_seen (rpass w) = rd_seen w ++ [rd_stores (rpass w)].
Proof.
  unfold rpass, rturn. destruct (rd_sched w) as [|t sched]; [done|]. cbn. by destruct (racts_fields (resched sched w) (rk_env t)) as [_ ->].
Qed.

(** Room for the generation numbers of everything still pending. *)
Definition room (w : rworld) (s : nat) (id : string) : Prop :=
  0 ≤ generation (store_at (rd_stores w) s) id ∧
  generation (store_at (rd_stores w) s) id + zlen (pending s (rd_sched w)) ≤ max_u64.

Lemma room_later w w' s id : rlater w w' → room w s id →
  room w' s id ∧ generation (store_at (rd_stores w) s) id ≤ generation (store_at (rd_stores w') s) id ∧
  (generation (store_at (rd_stores w') s) id = generation (store_at (rd_stores w) s) id →
   store_at (rd_stores w') s !! id = store_at (rd_stores w) s !! id).
Proof.
  intros [_ Hl] [H0 Hm]. destruct (Hl s) as (l & Hp & E). rewrite Hp, zlen_app in Hm. pose proof (zlen_nonneg (pending s (rd_sched w'))).
  destruct (execs_generation (store_at (rd_stores w) s) l id) as [[H1 H2] H3]; [lia..|]. rewrite E. unfold room. rewrite E.
  split; [lia|]. split; [lia|done].
Qed.

(** ** Reads *)
Section reads.
Variable r : Replica K V nat.
Let id := sc_ID (re_schema r).

(** What the table [st] holds for a key, and how old it may be. *)
Definition served (encoded : string) (fresh : option duration) (now : time) (st : gmap string state) (answer : result rerror (option V)) : Prop :=
  match st !! id with
  | None => answer = Ok None
  | Some c =>
      Accepts (re_schema r) (ps_schema c) = None ∧
      if match fresh with Some maximum => maximum <? Freshness (checkpoint_of c) now | None => false end
      then answer = Err (ErrStale id (ps_cursor c) (default 0 fresh) (Freshness (checkpoint_of c) now))
      else match ps_values c !! encoded with
      | None => answer = Ok None
      | Some payload =>
          match re_decoders r !! sc_Fingerprint (ps_schema c) with
          | None => answer = Err ErrInvalidReplica
          | Some decode => answer = match decode payload with Ok v => Ok (Some v) | Err err => Err (ErrReplicaDecode err) end
          end
      end
  end.

(** The reader was refused: by the context, the identifiers, or a schema it does not accept. *)
Definition refused_by (answer : result rerror (option V)) : Prop := ∃ err, answer = Err (RError err).

Definition turn_ok (encoded : string) (fresh : option duration) (w : rworld) (x : option (result rerror (option V)) * rworld) : Prop :=
  let '(answer, w') := x in
  rlater w w' ∧
  match answer with
  | None => generation (store_at (rd_stores w) (re_store r)) id < generation (store_at (rd_stores w') (re_store r)) id
  | Some answer =>
      refused_by answer ∨
      ∃ stores seen, rd_seen w' = rd_seen w ++ seen ∧ stores ∈ seen ∧
        served encoded fresh (rd_now w') (store_at stores (re_store r)) answer
  end.

Lemma seen_pass w : ∃ seen, rd_seen (rpass w) = rd_seen w ++ seen ∧ rd_stores (rpass w) ∈ seen.
Proof. exists [rd_stores (rpass w)]. split; [apply rpass_seen|]. by apply list_elem_of_singleton. Qed.
Lemma seen_later w w1 w2 seen stores : rlater w w1 → rd_seen w2 = rd_seen w1 ++ seen → stores ∈ seen →
  ∃ seen', rd_seen w2 = rd_seen w ++ seen' ∧ stores ∈ seen'.
Proof. intros [[a Ha] _] E Hin. exists (a ++ seen). rewrite E, Ha, app_assoc. split; [done|]. apply elem_of_app. by right. Qed.

Lemma Checkpoint_cases ctx (st : gmap string state) i cp : ProjStore.Checkpoint ctx st i = Ok cp → cp = checkpoint_of <$> st !! i.
Proof. unfold ProjStore.Checkpoint. destruct (ProjStore.validateContext ctx); [done|]. destruct (ProjectionID_Validate i); [done|]. by intros [= <-]. Qed.
Lemma Get_cases ctx (st : gmap string state) i key found : ProjStore.Get ctx st i key = Ok found → found = (c ← st !! i; ps_values c !! key).
Proof. unfold ProjStore.Get. repeat (case_match; [done|]). by intros [= <-]. Qed.

(** The last steps of a turn: the three accesses saw the same state [c]. *)
Lemma stable_turn encoded fresh w w1 w3 c : rlater w w1 → rlater w1 w3 →
  (∃ seen, rd_seen w1 = rd_seen w ++ seen ∧ rd_stores w1 ∈ seen) →
  store_at (rd_stores w1) (re_store r) !! id = Some c → Accepts (re_schema r) (ps_schema c) = None →
  turn_ok encoded fresh w
    (let '(err, w4) := stale r fresh (checkpoint_of c) w3 in
     match err with
     | Some err => (Some (Err err), w4)
     | None => (Some (decode_found r (checkpoint_of c) (ps_values c !! encoded)), w4)
     end).
Proof.
  intros H1 H3 (seen & Hs & Hin) Hc Hacc. unfold stale.
  destruct fresh as [maximum|].
  - cbn [rw_now memory_world]. pose proof (rpass_later w3) as H4.
    assert (Hseen : ∃ seen, rd_seen (rpass w3) = rd_seen w ++ seen ∧ rd_stores w1 ∈ seen).
    { destruct H3 as [[b Hb] _], H4 as [[d Hd] _]. exists (seen ++ b ++ d). rewrite Hd, Hb, Hs, <- !app_assoc. split; [done|].
      apply elem_of_app. by left. }
    assert (Hl : rlater w (rpass w3)) by (etrans; [exact H1|etrans; [exact H3|exact H4]]).
    unfold turn_ok, served. destruct (_ <? _) eqn:Ha; (split; [done|]); right; destruct Hseen as (seen' & Hs' & Hin');
      exists (rd_stores w1), seen'; rewrite Hc, Ha; (split; [done|]); (split; [done|]); (split; [done|]).
    + done.
    + unfold decode_found. cbn. destruct (ps_values c !! encoded); [|done]. destruct (re_decoders r !! _); [|done]. by case_match.
  - unfold turn_ok, served. split; [by etrans|]. right. destruct H3 as [[b Hb] _]. exists (rd_stores w1), (seen ++ b). rewrite Hc.
    split; [by rewrite Hb, Hs, app_assoc|]. split; [apply elem_of_app; by left|]. split; [done|].
    unfold decode_found. cbn. destruct (ps_values c !! encoded); [|done]. destruct (re_decoders r !! _); [|done]. by case_match.
Qed.

Lemma Get_turn_ok encoded fresh w : room w (re_store r) id → turn_ok encoded fresh w (Get_turn r encoded fresh w).
Proof.
  intros Hroom. unfold Get_turn. cbn [rw_cause memory_world]. set (w1 := rpass w).
  assert (H1 : rlater w w1) by apply rpass_later. destruct (room_later _ _ _ _ H1 Hroom) as (R1 & G1 & _).
  destruct (fst <$> rd_cause w1); [split; [done|]; left; by eexists|].
  cbn [rw_Checkpoint memory_world]. set (w2 := rpass w1). assert (H2 : rlater w1 w2) by apply rpass_later.
  destruct (room_later _ _ _ _ H2 R1) as (R2 & G2 & _).
  destruct (ProjStore.Checkpoint _ _ _) as [before|err] eqn:Hb; [|split; [by etrans|]; left; by eexists].
  apply Checkpoint_cases in Hb. fold id in Hb. destruct (seen_pass w1) as (s2 & Hs2 & Hin2). fold w2 in Hs2, Hin2.
  destruct (seen_later w w1 w2 s2 _ H1 Hs2 Hin2) as (s2' & Hs2' & Hin2').
  destruct (store_at (rd_stores w2) (re_store r) !! id) as [c|] eqn:Hc; cbn in Hb; subst before.
  2:{ split; [by etrans|]. right. exists (rd_stores w2), s2'. unfold served. rewrite Hc. done. }
  cbn [cp_Schema checkpoint_of]. unfold requireMatchingSchema. destruct (Accepts (re_schema r) (ps_schema c)) eqn:Hacc; [split; [by etrans|]; left; by eexists|].
  cbn [rw_Get memory_world]. set (w3 := rpass w2). assert (H3 : rlater w2 w3) by apply rpass_later.
  destruct (room_later _ _ _ _ H3 R2) as (R3 & G3 & E3). destruct (ProjStore.Get _ _ _ _) as [found|err] eqn:Hg.
  2:{ split; [etrans; [exact H1|by etrans]|]. left; by eexists. }
  apply Get_cases in Hg. fold id in Hg. set (w4 := rpass w3). assert (H4 : rlater w3 w4) by apply rpass_later.
  destruct (room_later _ _ _ _ H4 R3) as (R4 & G4 & E4).
  assert (H24 : rlater w2 w4) by (by etrans). assert (H04 : rlater w w4) by (etrans; [exact H1|by etrans]).
  assert (Hgen : generation (store_at (rd_stores w2) (re_store r)) id = ps_generation c) by (unfold generation; by rewrite Hc).
  destruct (ProjStore.Checkpoint _ (store_at (rd_stores w4) (re_store r)) _) as [after|err] eqn:Ha; [|split; [done|]; left; by eexists].
  apply Checkpoint_cases in Ha. fold id in Ha.
  destruct (store_at (rd_stores w4) (re_store r) !! id) as [c'|] eqn:Hc'; cbn in Ha; subst after.
  2:{ exfalso. destruct H24 as [_ Hl]. destruct (Hl (re_store r)) as (l & _ & El). rewrite El in Hc'.
      by destruct (execs_present (store_at (rd_stores w2) (re_store r)) l id); [rewrite Hc|]. }
  assert (Hgen' : generation (store_at (rd_stores w4) (re_store r)) id = ps_generation c') by (unfold generation; by rewrite Hc').
  cbn [cp_Generation checkpoint_of]. destruct (Z.eqb_spec (ps_generation c) (ps_generation c')) as [Heq|Hne]; cbn [negb].
  2:{ split; [done|]. lia. }
  assert (Hc3 : store_at (rd_stores w3) (re_store r) !! id = Some c) by (rewrite E3; [done|lia]).
  assert (c' = c) as ->.
  { assert (Some c' = Some c) as [= ->]; [|done]. rewrite <- Hc3. apply E4. lia. }
  rewrite Hc3 in Hg. cbn in Hg. subst found.
  apply (stable_turn encoded fresh w w2 w4 c); [exact (transitivity H1 H2)|done|eauto|by fold w2|done].
Qed.

(** The loop: it has answered after as many turns as there were writes to the store, and one. *)
Lemma Get_loop_ok encoded fresh n w : room w (re_store r) id →
  let '(answer, w') := Get_loop n r encoded fresh w in
  rlater w w' ∧
  match answer with
  | Some answer => refused_by answer ∨ ∃ stores seen, rd_seen w' = rd_seen w ++ seen ∧ stores ∈ seen ∧
      served encoded fresh (rd_now w') (store_at stores (re_store r)) answer
  | None => generation (store_at (rd_stores w) (re_store r)) id + Z.of_nat n ≤ generation (store_at (rd_stores w') (re_store r)) id
  end.
Proof.
  revert w. induction n as [|n IH]; intros w Hroom; cbn [Get_loop]; [split; [done|lia]|].
  pose proof (Get_turn_ok encoded fresh w Hroom) as Ht. destruct (Get_turn r encoded fresh w) as [[answer|] w1]; destruct Ht as [H1 Ht]; [done|].
  destruct (room_later _ _ _ _ H1 Hroom) as (R1 & _). specialize (IH w1 R1). destruct (Get_loop n r encoded fresh w1) as [[answer|] w2]; destruct IH as [H2 IH].
  - split; [by etrans|]. destruct IH as [IH|(stores & seen & Hs & Hin & Hok)]; [by left|]. right.
    destruct (seen_later _ _ _ _ _ H1 Hs Hin) as (seen' & Hs' & Hin'). eauto.
  - split; [by etrans|lia].
Qed.
End reads.

(** ** Waiters *)
Section waiters.
Variable r : Replica K V nat.
Variable target : string.
Let id := sc_ID (re_schema r).
Let s := re_store r.

Definition cancels (e : renv) : bool := match e with WrCancel _ _ => true | _ => false end.
(** The entry wakes the waiters of [r]: its ticker fires, or it is notified of its projection. *)
Definition wakes (t : rtick) : Prop :=
  WrTick ∈ rk_env t ∨ ∃ r' cp, WrNotify r' cp ∈ rk_env t ∧ re_notify r' = re_notify r ∧ sc_ID (cp_Schema cp) = sc_ID (re_schema r').

(** The projection after the next [k] entries of the schedule. *)
Definition row_after (k : nat) (w : rworld) : option state :=
  execs (store_at (rd_stores w) s) (pending s (take k (rd_sched w))) !! id.

(** Nobody cancels, and the replica accepts the schema of the projection throughout. *)
Definition calm (w : rworld) : Prop :=
  rd_cause w = None ∧ Forall (λ t, existsb cancels (rk_env t) = false) (rd_sched w) ∧
  ∀ k c, row_after k w = Some c → Accepts (re_schema r) (ps_schema c) = None.
(** The projection is at the target for good. *)
Definition settled (w : rworld) : Prop :=
  calm w ∧ pending s (rd_sched w) = [] ∧ ∃ c, row_after 0 w = Some c ∧ ps_cursor c = target.
(** After the entries [pre] and one more, which wakes the waiters, it will be. *)
Definition coming (pre : list rtick) (w : rworld) : Prop :=
  calm w ∧ ∃ t post, rd_sched w = pre ++ t :: post ∧ wakes t ∧ pending s post = [] ∧
    ∃ c, row_after (Datatypes.S (length pre)) w = Some c ∧ ps_cursor c = target.

Lemma racts_cause w l : existsb cancels l = false → rd_cause (racts w l) = rd_cause w.
Proof.
  revert w. induction l as [|e l IH]; intros w; [done|]. cbn. intros [He Hl]%orb_false_iff. unfold racts in *. rewrite IH by done. by destruct e.
Qed.
Lemma NotifyCheckpoint_cell (r' : Replica K V nat) cp cells c : (cell_at cells c ≤ cell_at (NotifyCheckpoint r' cp cells) c)%nat.
Proof.
  unfold NotifyCheckpoint. case_bool_decide; [|done]. cbn. unfold cell_at. destruct (decide (re_notify r' = c)) as [->|].
  - rewrite lookup_insert_eq. cbn. lia.
  - by rewrite lookup_insert_ne.
Qed.
Lemma racts_cells w l c : (cell_at (rd_cells w) c ≤ cell_at (rd_cells (racts w l)) c)%nat ∧ (rd_tick w = true → rd_tick (racts w l) = true).
Proof.
  revert w. induction l as [|e l IH]; intros w; [done|]. unfold racts in *. cbn [fold_left]. destruct (IH (ract w e)) as [H1 H2].
  destruct e as [|r' cp| | |]; cbn in *; try done; [|split; [done|auto]]. pose proof (NotifyCheckpoint_cell r' cp (rd_cells w) c). split; [lia|done].
Qed.
Lemma wakes_ready w t : wakes t →
  rd_tick (racts w (rk_env t)) = true ∨ (cell_at (rd_cells w) (re_notify r) < cell_at (rd_cells (racts w (rk_env t))) (re_notify r))%nat.
Proof.
  intros [Ht|(r' & cp & Hn & Hc & Hid)].
  - left. apply list_elem_of_split in Ht as (l1 & l2 & ->). unfold racts. rewrite fold_left_app. cbn. by apply racts_cells.
  - right. apply list_elem_of_split in Hn as (l1 & l2 & ->). unfold racts. rewrite fold_left_app. cbn [fold_left].
    destruct (racts_cells w l1 (re_notify r)) as [H1 _]. destruct (racts_cells (ract (racts w l1) (WrNotify r' cp)) l2 (re_notify r)) as [H2 _].
    unfold racts in *. assert (H3 : (cell_at (rd_cells (fold_left ract l1 w)) (re_notify r) < cell_at (rd_cells (ract (fold_left ract l1 w) (WrNotify r' cp))) (re_notify r))%nat); [|lia].
    cbn. unfold NotifyCheckpoint. rewrite bool_decide_true by done. cbn. rewrite Hc. unfold cell_at at 2. rewrite lookup_insert_eq. unfold cell_at. cbn. lia.
Qed.

Lemma rpass_cons w t sched : rd_sched w = t :: sched → rturn w = (rk_pick t, rpass w) ∧ rd_sched (rpass w) = sched ∧
  (∀ k, row_after k (rpass w) = row_after (Datatypes.S k) w) ∧
  rd_cells (rpass w) = rd_cells (racts (resched sched w) (rk_env t)) ∧ rd_tick (rpass w) = rd_tick (racts (resched sched w) (rk_env t)) ∧
  rd_cause (rpass w) = rd_cause (racts (resched sched w) (rk_env t)).
Proof.
  intros Hs. unfold rpass, rturn. rewrite Hs. cbn. destruct (racts_fields (resched sched w) (rk_env t)) as [E _]. split; [done|]. split; [done|].
  split; [|done]. intros k. unfold row_after. cbn. rewrite Hs, E, racts_store. cbn. unfold execs. by rewrite fold_left_app.
Qed.
Lemma rpass_nil w : rd_sched w = [] → rpass w = see w.
Proof. intros Hs. unfold rpass, rturn. by rewrite Hs. Qed.

Lemma calm_pass w : calm w → calm (rpass w).
Proof.
  intros (Hc & Hq & Ha). destruct (rd_sched w) as [|t sched] eqn:Hs.
  - rewrite rpass_nil by done. unfold calm. cbn. rewrite Hs. done.
  - destruct (rpass_cons w t sched Hs) as (_ & E & Er & _ & _ & Ec). inversion_clear Hq as [|? ? Ht Hq'].
    unfold calm. rewrite E, Ec, racts_cause by done. split; [done|]. split; [done|]. intros k c. rewrite Er. apply Ha.
Qed.
Lemma settled_pass w : settled w → settled (rpass w).
Proof.
  intros (Hcalm & Hp & Hc). split; [by apply calm_pass|]. destruct (rd_sched w) as [|t sched] eqn:Hs.
  - rewrite rpass_nil by done. cbn. rewrite Hs. done.
  - destruct (rpass_cons w t sched Hs) as (_ & E & Er & _). cbn in Hp. apply app_nil in Hp as [Ht Hp]. rewrite E. split; [done|].
    rewrite Er. unfold row_after. rewrite Hs. cbn. rewrite Ht. unfold row_after in Hc. cbn in *. rewrite Hs in Hc. done.
Qed.
Lemma coming_pass pre w : coming pre w → match pre with [] => settled (rpass w) | _ :: pre => coming pre (rpass w) end.
Proof.
  intros (Hcalm & t & post & Hs & Hw & Hp & c & Hc & Ht). destruct pre as [|t0 pre]; cbn in Hs; destruct (rpass_cons _ _ _ Hs) as (_ & E & Er & _).
  - split; [by apply calm_pass|]. rewrite E. split; [done|]. exists c. by rewrite Er.
  - split; [by apply calm_pass|]. exists t, post. split; [done|]. split; [done|]. split; [done|]. exists c. by rewrite Er.
Qed.

Lemma select_ready cell token pick sched w : rd_cause w = None → ready_cases cell token w ≠ [] →
  ∃ x, select_loop cell token pick sched w = (Some x, take_case x w) ∧ ∀ cause, x ≠ Done cause.
Proof.
  intros Hc Hr. destruct (ready_cases cell token w) as [|c cases] eqn:Hcs; [done|].
  exists (nth (pick mod Datatypes.S (length cases)) (c :: cases) c). split; [destruct sched; cbn [select_loop]; by rewrite Hcs|].
  intros cause Hx. assert (Hin : nth (pick mod Datatypes.S (length cases)) (c :: cases) c ∈ ready_cases cell token w).
  { rewrite Hcs. apply list_elem_of_In, nth_In. cbn [length]. apply Nat.mod_upper_bound. lia. }
  unfold ready_cases in Hin. rewrite Hc, Hx in Hin. destruct (_ <? _)%nat, (rd_tick w); set_solver.
Qed.
Lemma take_case_keeps x w : (∀ pre, coming pre w → coming pre (take_case x w)) ∧ (settled w → settled (take_case x w)) ∧
  rd_sched (take_case x w) = rd_sched w.
Proof. by destruct x. Qed.

(** A waiter whose channel is at least as old as the present one is woken, and not by its context. *)
Lemma select_wakes pre w token : coming pre w → (token ≤ cell_at (rd_cells w) (re_notify r))%nat →
  ∃ x w', rw_select (re_notify r) token w = (Some x, w') ∧ (∀ cause, x ≠ Done cause) ∧
    (settled w' ∨ ∃ pre', coming pre' w') ∧ (length (rd_sched w') < length (rd_sched w))%nat.
Proof.
  revert w. induction pre as [|t0 pre IH]; intros w Hcom Htok; pose proof (coming_pass _ _ Hcom) as Hnext;
    destruct Hcom as (Hcalm & t & post & Hs & Hw & _); cbn in Hs; destruct (rpass_cons _ _ _ Hs) as (Et & E & _ & Ecl & Eti & _);
    pose proof (calm_pass _ Hcalm) as (Hcause & _); cbn [rw_select memory_world]; rewrite Et.
  - destruct (select_ready (re_notify r) token (rk_pick t) (rd_sched (rpass w)) (rpass w) Hcause) as (x & Hsel & Hx).
    + unfold ready_cases. rewrite Ecl, Eti. destruct (wakes_ready (resched post w) t Hw) as [->|Hlt]; [by destruct (_ <? _)%nat|].
      cbn in Hlt. by destruct (Nat.ltb_spec token (cell_at (rd_cells (racts (resched post w) (rk_env t))) (re_notify r))); [|lia].
    + exists x, (take_case x (rpass w)). destruct (take_case_keeps x (rpass w)) as (_ & Hk & ->). split; [done|]. split; [done|].
      split; [left; by apply Hk|]. rewrite E, Hs. cbn. lia.
  - destruct (decide (ready_cases (re_notify r) token (rpass w) = [])) as [Hr|Hr].
    + assert (Htok' : (token ≤ cell_at (rd_cells (rpass w)) (re_notify r))%nat).
      { rewrite Ecl. destruct (racts_cells (resched (pre ++ t :: post) w) (rk_env t0) (re_notify r)) as [Hle _]. cbn in Hle. lia. }
      destruct (IH (rpass w) Hnext Htok') as (x & w' & Hsel & Hx & Hres & Hlen). exists x, w'. split; [|split; [done|split; [done|]]].
      * rewrite <- Hsel. cbn [rw_select memory_world]. destruct (pre ++ t :: post) as [|t1 rest] eqn:Hrest; [by destruct pre|].
        destruct (rpass_cons _ _ _ E) as (Et1 & E1 & _). rewrite Et1, E, E1. cbn [select_loop]. rewrite Hr. f_equal. unfold rturn in Et1. rewrite E in Et1. by injection Et1.
      * rewrite Hs. rewrite E in Hlen. cbn. lia.
    + destruct (select_ready (re_notify r) token (rk_pick t0) (rd_sched (rpass w)) (rpass w) Hcause Hr) as (x & Hsel & Hx).
      exists x, (take_case x (rpass w)). destruct (take_case_keeps x (rpass w)) as (Hk & _ & ->). split; [done|]. split; [done|].
      split; [right; exists pre; by apply Hk|]. rewrite E, Hs. cbn. lia.
Qed.

Lemma rpass_cells w c : (cell_at (rd_cells w) c ≤ cell_at (rd_cells (rpass w)) c)%nat ∧ (length (rd_sched (rpass w)) ≤ length (rd_sched w))%nat.
Proof.
  destruct (rd_sched w) as [|t sched] eqn:Hs; [rewrite rpass_nil by done; cbn; rewrite Hs; cbn; lia|].
  destruct (rpass_cons _ _ _ Hs) as (_ & E & _ & Ecl & _). rewrite E, Ecl. destruct (racts_cells (resched sched w) (rk_env t) c) as [Hle _]. cbn in *. lia.
Qed.

(** The checkpoint a waiter reads, when the context is alive. *)
Lemma checkpoint_read w : rd_cause w = None → ProjectionID_Validate id = None →
  ProjStore.Checkpoint (rctx w) (store_at (rd_stores w) s) id = Ok (checkpoint_of <$> row_after 0 w).
Proof. intros Hc Hv. unfold ProjStore.Checkpoint, rctx. rewrite Hc. cbn. by rewrite Hv. Qed.

Definition found_target (x : option (result rerror Projection.Checkpoint) * rworld) : Prop :=
  ∃ c w', x = (Some (Ok (checkpoint_of c)), w') ∧ row_after 0 w' = Some c ∧ ps_cursor c = target ∧ Accepts (re_schema r) (ps_schema c) = None.

Lemma wait_loop_finds n w : ProjectionID_Validate id = None → (settled w ∨ ∃ pre, coming pre w) → (length (rd_sched w) < n)%nat →
  found_target (wait_loop n r target w).
Proof.
  intros Hv. revert w. induction n as [|n IH]; intros w Hw Hn; [lia|]. cbn [wait_loop rw_notification rw_Checkpoint memory_world].
  set (w1 := rpass w). set (w2 := rpass w1). fold id s.
  assert (Hstep : ∀ v, (settled v ∨ ∃ pre, coming pre v) → (settled (rpass v) ∨ ∃ pre, coming pre (rpass v))).
  { intros v [Hv'|[pre Hp]]; [left; by apply settled_pass|]. apply coming_pass in Hp. destruct pre; eauto. }
  pose proof (Hstep _ (Hstep _ Hw)) as H2. fold w1 w2 in H2.
  assert (Hcalm : calm w2) by (by destruct H2 as [[? _]|[pre [? _]]]). destruct Hcalm as (Hcause & Hq & Hacc).
  assert (Hsel : ∀ pre, coming pre w2 → found_target
    match rw_select (re_notify r) (cell_at (rd_cells w1) (re_notify r)) w2 with
    | (Some (Done cause), w) => (Some (Err (RError cause)), w)
    | (Some _, w) => wait_loop n r target w
    | (None, w) => (None, w)
    end).
  { intros pre Hcom. destruct (select_wakes pre w2 (cell_at (rd_cells w1) (re_notify r)) Hcom (proj1 (rpass_cells w1 _))) as (x & w3 & -> & Hx & H3 & Hlen).
    assert (Hl : (length (rd_sched w3) < n)%nat). { destruct (rpass_cells w 0) as [_ ?], (rpass_cells w1 0) as [_ ?]. subst w1 w2. lia. }
    destruct x; [by apply IH..|by destruct (Hx cause)]. }
  rewrite checkpoint_read by done. destruct (row_after 0 w2) as [c|] eqn:Hrow; cbn [fmap option_fmap option_map].
  - unfold requireMatchingSchema. cbn [cp_Schema checkpoint_of]. rewrite (Hacc 0%nat c Hrow).
    destruct (decide (ps_cursor c = target)) as [Ht|Ht].
    + rewrite bool_decide_true by done. exists c, w2. split; [done|]. eauto.
    + rewrite bool_decide_false by done. destruct H2 as [(_ & _ & c' & Hc' & Ht')|[pre Hcom]]; [congruence|]. by eapply Hsel.
  - destruct H2 as [(_ & _ & c' & Hc' & Ht')|[pre Hcom]]; [congruence|]. by eapply Hsel.
Qed.
End waiters.
End memory.
Arguments rworld : clear implicits.
Arguments renv : clear implicits.
Arguments rtick : clear implicits.

(** C22: a read answers from one generation.  Whatever is written to the stores meanwhile, a [Get]
    that is not refused answers what one table, which the replica's store had at some instant of
    the call, holds for the key: the value decoded by the decoder of that table's own schema, or
    absence, or that this table is older than the bound; and the call has answered after at most
    one turn more than there are writes to its store. *)
Theorem replica_reads_one_generation {K V} (r : Replica K V nat) key options (w : rworld K V) fresh encoded n answer w' :
  room w (re_store r) (sc_ID (re_schema r)) →
  applyRead options None = Ok fresh → re_encodeKey r key = Ok encoded →
  (length (pending (re_store r) (rd_sched w)) < n)%nat →
  Get n r false key options w = (answer, w') →
  ∃ a, answer = Some a ∧
    (refused_by a ∨ ∃ stores seen, rd_seen w' = rd_seen w ++ seen ∧ stores ∈ seen ∧
      served r encoded fresh (rd_now w') (store_at stores (re_store r)) a).
Proof.
  intros Hroom Hopt Henc Hn. unfold Get. cbn [rw_cause memory_world]. pose proof (rpass_later w) as H1. set (w1 := rpass w) in *.
  destruct (fst <$> rd_cause w1); [intros [= <- <-]; eexists; split; [done|]; left; by eexists|].
  rewrite Hopt, Henc. intros Hg. destruct (room_later _ _ _ _ H1 Hroom) as (R1 & _).
  pose proof (Get_loop_ok r encoded fresh n w1 R1) as Hl. rewrite Hg in Hl. destruct Hl as [H2 Hl].
  destruct answer as [a|].
  - exists a. split; [done|]. destruct Hl as [Hl|(stores & seen & Hs & Hin & Hok)]; [by left|]. right.
    destruct (seen_later _ _ _ _ _ H1 Hs Hin) as (seen' & Hs' & Hin'). eauto.
  - exfalso. assert (H0 : rlater w w') by (by etrans). destruct H0 as [_ Hlat]. destruct (Hlat (re_store r)) as (l & Hp & El).
    destruct H1 as [_ Hlat1]. destruct (Hlat1 (re_store r)) as (l1 & Hp1 & El1). destruct H2 as [_ Hlat2]. destruct (Hlat2 (re_store r)) as (l2 & Hp2 & El2).
    destruct R1 as [R0 R1]. rewrite Hp2, zlen_app in R1. pose proof (zlen_nonneg (pending (re_store r) (rd_sched w'))).
    destruct (execs_generation (store_at (rd_stores w1) (re_store r)) l2 (sc_ID (re_schema r))) as [[_ Hle] _]; [lia..|].
    rewrite <- El2 in Hle. apply (f_equal length) in Hp1, Hp2. rewrite !length_app in Hp1, Hp2. unfold zlen in Hle. lia.
Qed.

(** C26: a waiter is not left behind.  If the projection reaches the target and stays there, and
    the replica is then notified or its ticker fires, a [WaitUntil] that nobody cancels returns
    the checkpoint at the target, wherever between its steps the commit and the notification
    fall: the channel is taken before the checkpoint is read, so a wake-up cannot be lost. *)
Theorem waiter_not_left_behind {K V} (r : Replica K V nat) target (w : rworld K V) pre :
  ProjectionID_Validate (sc_ID (re_schema r)) = None → Cursor_Validate target = None → coming r target pre w →
  ∀ n, (length (rd_sched w) < n)%nat → found_target r target (WaitUntil n r false target w).
Proof.
  intros Hid Hcur Hcom n Hn. unfold WaitUntil. cbn [rw_cause memory_world].
  assert (Hcalm : calm r (rpass w)) by (apply calm_pass, Hcom). destruct Hcalm as (-> & _). rewrite Hcur.
  apply wait_loop_finds; [done| |destruct (rpass_cells r w 0); lia].
  apply coming_pass in Hcom. destruct pre; [by left|right; by eexists].
Qed.

(** ** Routing *)

(** What the sharded replica relies on: a resolver answers with one of its shards. *)
Class ResolverLaw {K} (resolver : ShardResolver K) : Prop :=
  resolve_known : ∀ key shard, sv_Resolve resolver key = Ok shard → shard ∈ sv_Shards resolver.

#[export] Instance hash_law {K} (r : HashShardResolver K) : ResolverLaw (hash_resolver r).
Proof.
  intros key shard. cbn. unfold hash_Resolve. destruct (hr_shards r) as [|x l] eqn:Hs; [done|].
  destruct (hr_encode r key) as [b|]; [|done]. destruct (_ || _); [done|]. destruct (winner b (x :: l)) eqn:Hw; [|done]. intros [= <-].
  cbn in Hw. injection Hw as <-. clear. generalize (shardScore b x). revert x. induction l as [|y l IH]; intros x z; cbn [winner_from]; [set_solver|].
  case_match; [right; apply IH|]. pose proof (IH x z) as Hi. set_solver.
Qed.
Lemma range_law {K} fp (compare : K → K → Z) bs fallback r :
  NewRangeShardResolver fp (Some compare) bs fallback = Ok r → ResolverLaw (range_resolver r).
Proof. intros Hn key shard [= <-]. by eapply range_resolve_known. Qed.

Section routing.
Context {K V : Type}.

(** The reader of a store: made for the schema, over that store. *)
Definition reads_store (make : nat → nat → result rerror (Replica K V nat)) (store : option nat) (reader : option (Replica K V nat)) : Prop :=
  match store with
  | None => reader = None
  | Some s => ∃ rep cell, reader = Some rep ∧ make s cell = Ok rep
  end.

Lemma add_shards_ok stores make shards cell (d d' : ShardedReplica K V nat) : NoDup shards → (∀ x, x ∈ shards → sd_replicas d !! x = None) →
  add_shards stores make shards cell d = Ok d' →
  sd_schema d' = sd_schema d ∧ sd_resolver d' = sd_resolver d ∧
  (∀ x, x ∈ shards → ∃ store, stores !! x = Some store ∧ sd_stores d' !! x = Some store ∧ reads_store make store (sd_replicas d' !! x)) ∧
  (∀ x, x ∉ shards → sd_stores d' !! x = sd_stores d !! x ∧ sd_replicas d' !! x = sd_replicas d !! x).
Proof.
  revert cell d. induction shards as [|x shards IH]; intros cell d Hnd Hfree; cbn [add_shards]; [intros [= <-]; set_solver|].
  inversion_clear Hnd as [|? ? Hx Hnd']. destruct (stores !! x) as [[s|]|] eqn:Hs; [| |done].
  - destruct (make s cell) as [rep|] eqn:Hm; [|done]. cbn. intros Hadd. apply IH in Hadd as (E1 & E2 & Hin & Hout); [|done|].
    2:{ intros y Hy. cbn. rewrite lookup_insert_ne by set_solver. apply Hfree. set_solver. }
    cbn in *. split; [done|]. split; [done|]. split.
    + intros y [->|Hy]%elem_of_cons; [|by apply Hin]. destruct (Hout x Hx) as [-> ->]. rewrite !lookup_insert_eq. eexists. split; [done|]. split; [done|]. cbn. eauto.
    + intros y [Hne Hy]%not_elem_of_cons. destruct (Hout y Hy) as [-> ->]. by rewrite !lookup_insert_ne.
  - intros Hadd. apply IH in Hadd as (E1 & E2 & Hin & Hout); [|done|].
    2:{ intros y Hy. apply Hfree. set_solver. }
    cbn in *. split; [done|]. split; [done|]. split.
    + intros y [->|Hy]%elem_of_cons; [|by apply Hin]. destruct (Hout x Hx) as [-> ->]. rewrite lookup_insert_eq. eexists. split; [done|]. split; [done|]. cbn. apply Hfree. set_solver.
    + intros y [Hne Hy]%not_elem_of_cons. destruct (Hout y Hy) as [-> ->]. by rewrite lookup_insert_ne.
Qed.

Lemma shards_ok_nodup l : StronglySorted String.le l → ∀ p, shards_ok p l = true → NoDup l ∧ ∀ x, p = Some x → Forall (String.le x) l → x ∉ l.
Proof.
  induction 1 as [|s l Hs IH Hle]; intros p; cbn; [split; [constructor|set_solver]|].
  destruct (_ || _) eqn:Hc; [done|]. bool_hyps. intros Hok. destruct (IH _ Hok) as [Hnd Hn]. specialize (Hn s eq_refl Hle).
  split; [by constructor|]. intros x -> Hx Hin. apply Forall_cons in Hx as [Hxs _].
  assert (Hne : x ≠ s) by congruence. apply elem_of_cons in Hin as [->|Hin]; [done|]. rewrite Forall_forall in Hle. pose proof (Hle _ Hin).
  by apply Hne, (anti_symm String.le).
Qed.
Lemma canonicalShards_nodup l c : canonicalShards l = Some c → NoDup c.
Proof.
  intros Hc. pose proof Hc as [-> _]%canonicalShards_Some. unfold canonicalShards in Hc. destruct (_ || _); [done|].
  destruct (shards_ok None (sort_strings l)) eqn:Ho; [|done]. by destruct (shards_ok_nodup _ (sort_strings_sorted l) _ Ho).
Qed.

(** A router and the updates offered to it. *)
Definition offer (router : Router K V nat) (o : Z * option (ShardedReplica K V nat)) : Router K V nat := (Update o.1 o.2 router).2.
Definition offers (router : Router K V nat) (l : list (Z * option (ShardedReplica K V nat))) : Router K V nat := fold_left offer l router.

Lemma offers_newest router l : 0 < ro_revision router → Forall (λ o, 0 ≤ o.1) l →
  let router' := offers router l in
  ro_revision router ≤ ro_revision router' ∧
  (∀ o d, o ∈ l → o.2 = Some d → o.1 ≤ ro_revision router') ∧
  (router' = router ∨ (ro_revision router', Some (ro_replica router')) ∈ l).
Proof.
  intros Hr Hl. revert router Hr. induction Hl as [|[rev rep] l Ho _ IH]; intros router Hr; [split; [done|]; split; [set_solver|by left]|].
  unfold offers in *. cbn [fold_left]. cbn in Ho.
  assert (Hstep : ro_revision router ≤ ro_revision (offer router (rev, rep)) ∧ (∀ d, rep = Some d → rev ≤ ro_revision (offer router (rev, rep))) ∧
    (offer router (rev, rep) = router ∨ (ro_revision (offer router (rev, rep)), Some (ro_replica (offer router (rev, rep)))) = (rev, rep))).
  { unfold offer, Update. cbn. destruct rep as [d|]; [|split; [done|split; [done|by left]]].
    destruct (Z.eqb_spec rev 0); [cbn; split; [done|split; [intros; lia|by left]]|]. destruct (Z.leb_spec rev (ro_revision router)); cbn; split_and!; auto; lia. }
  destruct Hstep as (H1 & H2 & H3). destruct (IH (offer router (rev, rep))) as (I1 & I2 & I3); [lia|]. split; [lia|]. split.
  - intros o d [->|Hin]%elem_of_cons Hd; [specialize (H2 d Hd); cbn; lia|by eapply I2].
  - destruct I3 as [->|I3]; [|right; set_solver]. destruct H3 as [->|E]; [by left|right]. rewrite E. set_solver.
Qed.
End routing.

(** a routed read goes where the newest route says.  After any sequence of offered updates
    the router serves the accepted route with the greatest revision ever offered; a read through
    it, when that route was built over [stores] with a resolver that keeps its law, is exactly a
    read of the replica of the one store configured for the shard of the key, and is refused as
    unavailable if that store is nil: no other store is touched. *)
Theorem routed_read {K V} (router : Router K V nat) l schema (stores : gmap string (option nat)) resolver encodeKey decode compatible options cell :
  0 < ro_revision router → Forall (λ o, 0 ≤ o.1) l → ResolverLaw resolver →
  let router' := offers router l in
  NewShardedReplicaWithCompatibleDecoders schema stores (Some resolver) (Some encodeKey) (Some decode) compatible options cell = Ok (ro_replica router') →
  (∀ o d, o ∈ l → o.2 = Some d → o.1 ≤ Revision router') ∧ (router' = router ∨ (Revision router', Some (ro_replica router')) ∈ l) ∧
  ∀ n nil_ctx key read_options (w : rworld K V),
    match sv_Resolve resolver key with
    | Err err => router_Get n router' nil_ctx key read_options w = (Some (Err (ErrResolve err)), w)
    | Ok shard =>
        match stores !! shard with
        | None => False
        | Some None => router_Get n router' nil_ctx key read_options w = (Some (Err (ErrShardUnavailable shard)), w)
        | Some (Some s) => ∃ reader, re_store reader = s ∧ re_schema reader = schema ∧
            router_Get n router' nil_ctx key read_options w = Get n reader nil_ctx key read_options w
        end
    end.
Proof.
  intros Hrev Hl Hlaw router' Hnew. destruct (offers_newest router l Hrev Hl) as (_ & Hnewest & Hone). fold router' in Hnewest, Hone.
  split; [done|]. split; [done|]. intros n nil_ctx key read_options w. unfold NewShardedReplicaWithCompatibleDecoders in Hnew.
  destruct (Schema_Validate schema); [done|]. destruct (negb (bool_decide (sv_KeyFingerprint resolver = _))); [done|].
  destruct (canonicalShards (sv_Shards resolver)) as [shards|] eqn:Hc; [|done]. destruct (negb _); [done|].
  apply add_shards_ok in Hnew as (_ & Er & Hin & _); [|by eapply canonicalShards_nodup|by intros; apply lookup_empty]. cbn in Er.
  unfold router_Get, sharded_Get, Resolve, current. rewrite Er. destruct (sv_Resolve resolver key) as [shard|err] eqn:Hr; [|done].
  apply Hlaw in Hr. apply canonicalShards_Some in Hc as [-> _]. rewrite <- elem_of_sort_strings in Hr. destruct (Hin _ Hr) as (store & -> & -> & Hreads).
  rewrite bool_decide_true by eauto. destruct store as [s|]; cbn in Hreads; [|by rewrite Hreads].
  destruct Hreads as (rep & cell' & -> & Hmake). exists rep. unfold NewReplicaWithCompatibleDecoders in Hmake.
  destruct (Schema_Validate schema); [done|]. destruct (negb _); [done|]. destruct (negb _); [done|].
  destruct (applyReplica _ _); [|done]. cbn in Hmake. by injection Hmake as <-.
Qed.

(** ** Witnesses *)
Definition ex_schema : Schema := mkSchema "orders" ex_fingerprint ex_fingerprint [].
Definition ex_replica : Replica string string nat :=
  mkReplica ex_schema 0%nat (λ key, Ok key) {[ ex_fingerprint := (λ payload, Ok payload) ]} (100 * millisecond) 0.
Definition ex_table : gmap string state := {[ "orders" := mkState ex_schema "c1" 1 second second {[ "k" := "old" ]} None ]}.
Definition ex_delta : DeltaBatch := mkDeltaBatch ex_schema "c1" "c2" (2 * second) [Upsert "k" "new"].
Definition ex_checkpoint : Projection.Checkpoint := mkCheckpoint ex_schema "c2" 2 (2 * second) (2 * second).
Definition write : renv string string := WrStore 0 (OpApplyDelta (Context None) (2 * second) ex_delta).
(** The delta is applied between the reading of the checkpoint and of the row. *)
Definition ex_torn : rworld string string :=
  mkRworld {[ 0%nat := ex_table ]} ∅ false None (3 * second) [mkRtick [] 0; mkRtick [] 0; mkRtick [] 0; mkRtick [write] 0] [].

Definition ex_read := Get 2 ex_replica false "k" [RequireFreshWithin second] ex_torn.
Lemma replica_reads_one_generation_witness :
  ex_read.1 = Some (Ok (Some "new")) ∧ rd_now ex_read.2 = 3 * second ∧
  ∃ a, ex_read.1 = Some a ∧
    (refused_by a ∨ ∃ stores seen, rd_seen ex_read.2 = [] ++ seen ∧ stores ∈ seen ∧
      served ex_replica "k" (Some second) (rd_now ex_read.2) (store_at stores 0) a).
Proof.
  split; [vm_compute; reflexivity|]. split; [vm_compute; reflexivity|].
  apply (replica_reads_one_generation ex_replica "k" [RequireFreshWithin second] ex_torn (Some second) "k" 2 ex_read.1 ex_read.2);
    [split; vm_compute; discriminate|reflexivity|reflexivity|vm_compute; lia|apply surjective_pairing].
Defined.

(** The delta arrives after the waiter has looked, the notification later. *)
Definition ex_waiting : rworld string string :=
  mkRworld {[ 0%nat := ex_table ]} ∅ false None (3 * second)
    [mkRtick [] 0; mkRtick [] 0; mkRtick [] 0; mkRtick [write] 0; mkRtick [WrNotify ex_replica ex_checkpoint] 0; mkRtick [] 0] [].

Lemma waiter_not_left_behind_witness : found_target ex_replica "c2" (WaitUntil 7 ex_replica false "c2" ex_waiting).
Proof.
  apply (waiter_not_left_behind ex_replica "c2" ex_waiting [mkRtick [] 0; mkRtick [] 0; mkRtick [] 0; mkRtick [write] 0]);
    [reflexivity|reflexivity| |apply Nat.ltb_lt; reflexivity].
  split; [split; [reflexivity|]; split; [repeat constructor|]|].
  - intros k c Hc. assert (Hs : ps_schema c = ex_schema); [|rewrite Hs; vm_compute; reflexivity].
    do 6 (destruct k as [|k]; [vm_compute in Hc; injection Hc as <-; reflexivity|]).
    unfold row_after in Hc. rewrite take_ge in Hc by (cbn; lia). vm_compute in Hc. injection Hc as <-. reflexivity.
  - exists (mkRtick [WrNotify ex_replica ex_checkpoint] 0), [mkRtick [] 0]. split; [reflexivity|].
    split; [right; exists ex_replica, ex_checkpoint; split; [apply list_elem_of_here|split; reflexivity]|].
    split; [reflexivity|]. eexists. split; vm_compute; reflexivity.
Defined.

Definition ex_hash : HashShardResolver string := mkHash ex_fingerprint ex_encode ["a"; "b"].
Definition ex_stores : gmap string (option nat) := {[ "a" := Some 0%nat; "b" := None ]}.
Definition ex_sharded : ShardedReplica string string nat :=
  match NewShardedReplicaWithCompatibleDecoders ex_schema ex_stores (Some (hash_resolver ex_hash)) (Some (λ key, Ok key))
    (Some (λ payload, Ok payload)) ∅ [] 0 with Ok d => d | Err _ => mkSharded ex_schema (hash_resolver ex_hash) ∅ ∅ end.
Definition ex_router : Router string string nat := mkRouter 1 (mkSharded ex_schema (hash_resolver ex_hash) ∅ ∅).

Lemma ex_sharded_ok : NewShardedReplicaWithCompatibleDecoders ex_schema ex_stores (Some (hash_resolver ex_hash)) (Some (λ key, Ok key))
  (Some (λ payload, Ok payload)) ∅ [] 0 = Ok ex_sharded.
Proof.
  unfold ex_sharded.
  assert (Hok : is_ok (NewShardedReplicaWithCompatibleDecoders (V := string) ex_schema ex_stores (Some (hash_resolver ex_hash)) (Some (λ key, Ok key))
    (Some (λ payload, Ok payload)) ∅ [] 0) = true) by (vm_compute; reflexivity).
  by destruct (NewShardedReplicaWithCompatibleDecoders _ _ _ _ _ _ _ _).
Qed.
Lemma ex_route : hash_Resolve ex_hash "k2" = Ok "a".
Proof. vm_compute. reflexivity. Qed.

Lemma routed_read_witness :
  Revision (offers ex_router [(3, Some ex_sharded); (2, Some (ro_replica ex_router))]) = 3 ∧
  (router_Get 2 (offers ex_router [(3, Some ex_sharded); (2, Some (ro_replica ex_router))]) false "k5" [] ex_torn).1
    = Some (Err (ErrShardUnavailable "b")) ∧
  ∃ reader, re_store reader = 0%nat ∧ re_schema reader = ex_schema ∧
    router_Get 2 (offers ex_router [(3, Some ex_sharded); (2, Some (ro_replica ex_router))]) false "k2" [] ex_torn = Get 2 reader false "k2" [] ex_torn.
Proof.
  split; [reflexivity|]. split; [vm_compute; reflexivity|].
  pose proof (routed_read ex_router [(3, Some ex_sharded); (2, Some (ro_replica ex_router))] ex_schema ex_stores (hash_resolver ex_hash)
    (λ key, Ok key) (λ payload, Ok payload) ∅ [] 0 ltac:(reflexivity) ltac:(repeat constructor; discriminate) _ ex_sharded_ok) as (_ & _ & H).
  specialize (H 2%nat false "k2" [] ex_torn).
  change (sv_Resolve (hash_resolver ex_hash) "k2") with (hash_Resolve ex_hash "k2") in H. rewrite ex_route in H.
  change (ex_stores !! "a") with (Some (Some 0%nat)) in H. exact H.
Defined.
