(* ===== verification/Topology.v ===== *)
(** * programmable/topology: plans, bindings and traffic weights

    Models [model.go], [validate.go], [router.go], [bindings.go] and [traffic.go].  A plan is
    data; [Activate] checks it and freezes it into a snapshot with a canonical hash; a snapshot
    resolves declared dependencies to local or remote bindings; a traffic selector spreads new
    calls over epochs, by a counter or by weighted rendezvous hashing of a routing key.  Go maps
    are [gmap]s; [sort.Slice] by a key is a merge sort on that key (equal keys only occur in
    tables that are rejected). *)
From S2P Require Import Prelude GoText GoFloat GoJson Sha256.
Open Scope Z_scope.

Inductive terror :=
| ErrInvalidPlan | ErrInvalidPlanTraffic | ErrUnboundDependency | ErrInvalidTraffic
| ErrInvalidEpoch | ErrEpochNotFound | ErrInvalidEpochTransition | ErrSuccessorNotReady
| ErrNoReadyEpoch | ErrNoReadyEpochTraffic | ErrEpochHasTraffic | Ended.
#[export] Instance terror_eq_dec : EqDecision terror.
Proof. solve_decision. Defined.

Inductive BindingMode := BindingAuto | BindingLocal | BindingRemote | BindingOther (raw : string).
#[export] Instance BindingMode_eq_dec : EqDecision BindingMode.
Proof. solve_decision. Defined.

Definition BindingMode_string (m : BindingMode) : string :=
  match m with
  | BindingAuto => "AUTO" | BindingLocal => "LOCAL" | BindingRemote => "REMOTE" | BindingOther raw => raw
  end.

Record EpochWeight := mkWeight { ew_Epoch : Z; ew_BasisPoints : Z }.
#[export] Instance EpochWeight_eq_dec : EqDecision EpochWeight.
Proof. solve_decision. Defined.

(** [pl_Traffic] is [None] for a nil slice. *)
Record Plan := mkPlan {
  pl_Epoch : Z;
  pl_Placements : gset string;
  pl_Components : gmap string string;
  pl_Dependencies : gmap string (gmap string BindingMode);
  pl_Traffic : option (list EpochWeight)
}.

Record Snapshot := mkSnapshot {
  sn_epoch : Z;
  sn_hash : string;
  sn_placements : gset string;
  sn_components : gmap string string;
  sn_dependencies : gmap string (gmap string BindingMode);
  sn_traffic : option (list EpochWeight)
}.

Record Binding := mkBinding {
  bi_Source : string;
  bi_Target : string;
  bi_SourcePlacement : string;
  bi_TargetPlacement : string;
  bi_Mode : BindingMode;
  bi_Epoch : Z;
  bi_PlanHash : string
}.

(** ** Traffic tables *)
Definition TotalBasisPoints : Z := 10000.
Definition maximumTrafficEpochs : Z := 64.

Definition weight_le (a b : EpochWeight) : Prop := ew_Epoch a ≤ ew_Epoch b.
#[export] Instance weight_le_dec a b : Decision (weight_le a b).
Proof. unfold weight_le. apply _. Defined.
Definition sort_weights (weights : list EpochWeight) : list EpochWeight := merge_sort weight_le weights.

(** The rotation counter is an atomic [uint64]. *)
Record TrafficSelector := mkSelector { ts_weights : list EpochWeight; ts_rotation : Z }.

(** The loop over the sorted table: a zero or repeated epoch is refused; the result is the
    total and whether a weight is positive. *)
Fixpoint sum_weights (previous : option Z) (weights : list EpochWeight) (total : Z) (positive : bool) :
    option (Z * bool) :=
  match weights with
  | [] => Some (total, positive)
  | weight :: weights =>
      if (ew_Epoch weight =? 0) || bool_decide (previous = Some (ew_Epoch weight)) then None
      else sum_weights (Some (ew_Epoch weight)) weights (u64_add total (ew_BasisPoints weight))
             (positive || negb (ew_BasisPoints weight =? 0))
  end.

Definition NewTrafficSelector (weights : list EpochWeight) : result terror TrafficSelector :=
  if (zlen weights =? 0) || (maximumTrafficEpochs <? zlen weights) then Err ErrInvalidTraffic
  else
    let cloned := sort_weights weights in
    match sum_weights None cloned 0 false with
    | None => Err ErrInvalidTraffic
    | Some (total, positive) =>
        if negb positive || negb (total =? TotalBasisPoints) then Err ErrInvalidTraffic
        else Ok (mkSelector cloned 0)
    end.

(** [sort.Search]: the first index at which the monotone predicate holds. *)
Definition BasisPoints (epoch : Z) (ts : TrafficSelector) : Z :=
  match list_find (λ weight, epoch ≤ ew_Epoch weight) (ts_weights ts) with
  | Some (_, weight) => if negb (ew_Epoch weight =? epoch) then 0 else ew_BasisPoints weight
  | None => 0
  end.

Definition last_epoch (weights : list EpochWeight) : Z :=
  match last weights with Some weight => ew_Epoch weight | None => 0 end.

Fixpoint select_from (bucket cumulative : Z) (weights : list EpochWeight) : option Z :=
  match weights with
  | [] => None
  | weight :: weights =>
      let cumulative := u32_add cumulative (ew_BasisPoints weight) in
      if bucket <? cumulative then Some (ew_Epoch weight) else select_from bucket cumulative weights
  end.

Definition selectBucket (bucket : Z) (ts : TrafficSelector) : Z :=
  default (last_epoch (ts_weights ts)) (select_from bucket 0 (ts_weights ts)).

(** *** Rendezvous hashing *)
Definition u64_mul (x y : Z) : Z := (x * y) mod (max_u64 + 1).
Definition offset64 : Z := 14695981039346656037.
Definition prime64 : Z := 1099511628211.

Definition fnv1a (key : string) : Z :=
  fold_left (λ hash b, u64_mul (Z.lxor hash b) prime64) (bytes_of key) offset64.

Definition mix64 (hash : Z) : Z :=
  let hash := Z.lxor hash (Z.shiftr hash 30) in
  let hash := u64_mul hash 0xbf58476d1ce4e5b9 in
  let hash := Z.lxor hash (Z.shiftr hash 27) in
  let hash := u64_mul hash 0x94d049bb133111eb in
  Z.lxor hash (Z.shiftr hash 31).

(** The constant [float64(uint64(1)<<53) + 1] is rounded to [float64]. *)
Definition denominator : spec_float := add64 (float64 (2 ^ 53)) (float64 1).

Definition rendezvousUnit (key : string) (epoch : Z) : spec_float :=
  let hash := mix64 (Z.lxor (fnv1a key) (u64_mul epoch 0x9e3779b97f4a7c15)) in
  div64 (float64 (Z.shiftr hash 11 + 1)) denominator.

Section log.
  (** [math.Log]. *)
  Context (math_log : spec_float → spec_float).

Definition score (key : string) (weight : EpochWeight) : spec_float :=
  div64 (SFopp (math_log (rendezvousUnit key (ew_Epoch weight)))) (float64 (ew_BasisPoints weight)).

Definition better (key : string) (st : Z * spec_float) (weight : EpochWeight) : Z * spec_float :=
  let '(selected, best) := st in
  if ew_BasisPoints weight =? 0 then (selected, best)
  else
    let s := score key weight in
    if SFltb s best || (SFeqb s best && (ew_Epoch weight <? selected)) then (ew_Epoch weight, s)
    else (selected, best).

Definition selectRendezvous (key : string) (ts : TrafficSelector) : Z :=
  fst (fold_left (better key) (ts_weights ts) (0, S754_infinity false)).

Definition Select (routingKey : string) (ts : TrafficSelector) : result terror Z * TrafficSelector :=
  if zlen (ts_weights ts) =? 0 then (Err ErrInvalidTraffic, ts)
  else if routingKey == "" then
    let rotation := u64_add (ts_rotation ts) 1 in
    let bucket := u64_sub rotation 1 mod TotalBasisPoints in
    (Ok (selectBucket bucket ts), mkSelector (ts_weights ts) rotation)
  else (Ok (selectRendezvous routingKey ts), ts).
End log.

Definition Traffic (s : Snapshot) : list EpochWeight :=
  if sn_epoch s =? 0 then []
  else match sn_traffic s with
  | None => [mkWeight (sn_epoch s) TotalBasisPoints]
  | Some traffic => traffic
  end.

(** ** Activation *)
Definition maxIdentityBytes : Z := 512.
Definition validIdentity (value : string) : bool := valid_text maxIdentityBytes value.

Definition clonePlan (plan : Plan) : Snapshot :=
  mkSnapshot (pl_Epoch plan) "" (pl_Placements plan) (pl_Components plan) (pl_Dependencies plan)
    (sort_weights <$> pl_Traffic plan).

Definition valid_dependency (s : Snapshot) (sourcePlacement target : string) (mode : BindingMode) : bool :=
  match sn_components s !! target with
  | None => false
  | Some targetPlacement =>
      match mode with
      | BindingAuto | BindingRemote => true
      | BindingLocal => sourcePlacement == targetPlacement
      | BindingOther _ => false
      end
  end.

Definition valid_source (s : Snapshot) (source : string) (targets : gmap string BindingMode) : bool :=
  match sn_components s !! source with
  | None => false
  | Some sourcePlacement => map_forallb (valid_dependency s sourcePlacement) targets
  end.

(** The weight of [epoch] in the order of the loop: the last entry wins. *)
Definition current_weight (epoch : Z) (traffic : list EpochWeight) : Z :=
  fold_left (λ current weight, if ew_Epoch weight =? epoch then ew_BasisPoints weight else current) traffic 0.

Definition validateTraffic (s : Snapshot) : option terror :=
  match sn_traffic s with
  | None => None
  | Some traffic =>
      match NewTrafficSelector traffic with
      | Err _ => Some ErrInvalidPlanTraffic
      | Ok _ =>
          if existsb (λ weight, sn_epoch s <? ew_Epoch weight) traffic then Some ErrInvalidPlan
          else if current_weight (sn_epoch s) traffic =? 0 then Some ErrInvalidPlan
          else None
      end
  end.

Definition validateSnapshot (s : Snapshot) : option terror :=
  if (sn_epoch s =? 0) || bool_decide (sn_placements s = ∅) || bool_decide (sn_components s = ∅) ||
     negb (forallb validIdentity (elements (sn_placements s))) ||
     negb (map_forallb (λ component placement,
             validIdentity component && bool_decide (placement ∈ sn_placements s)) (sn_components s)) ||
     negb (map_forallb (valid_source s) (sn_dependencies s))
  then Some ErrInvalidPlan
  else validateTraffic s.

(** The edges in source and target order. *)
Definition edges (dependencies : gmap string (gmap string BindingMode)) : list (string * string * BindingMode) :=
  source ← sort_strings (elements (dom dependencies));
  match dependencies !! source with
  | None => []
  | Some targets =>
      target ← sort_strings (elements (dom targets));
      match targets !! target with Some mode => [(source, target, mode)] | None => [] end
  end.

Definition json_dependency (e : string * string * BindingMode) : list Z :=
  let '(source, target, mode) := e in
  json_object [json_field "source" (json_string source); json_field "target" (json_string target);
    json_field "mode" (json_string (BindingMode_string mode))].

Definition json_component (c : string * string) : list Z :=
  json_object [json_field "id" (json_string c.1); json_field "placement" (json_string c.2)].

Definition json_traffic (w : EpochWeight) : list Z :=
  json_object [json_field "epoch" (json_int (ew_Epoch w)); json_field "basisPoints" (json_int (ew_BasisPoints w))].

(** A slice that nothing was appended to is nil and prints as [null]. *)
Definition json_slice (items : list (list Z)) : list Z :=
  match items with [] => bytes_of "null" | _ => json_array items end.

Definition components_in_order (components : gmap string string) : list (string * string) :=
  id ← sort_strings (elements (dom components));
  match components !! id with Some placement => [(id, placement)] | None => [] end.

Definition canonical_document (s : Snapshot) : list Z :=
  json_object (
    [json_field "epoch" (json_int (sn_epoch s));
     json_field "placements" (json_slice (json_string <$> sort_strings (elements (sn_placements s))));
     json_field "components" (json_slice (json_component <$> components_in_order (sn_components s)));
     json_field "dependencies" (json_slice (json_dependency <$> edges (sn_dependencies s)))] ++
    match sn_traffic s with
    | Some (w :: ws) => [json_field "traffic" (json_array (json_traffic <$> sort_weights (w :: ws)))]
    | _ => []
    end).

Definition canonicalHash (s : Snapshot) : string := "sha256:" +:+ hex_encode (sha256 (canonical_document s)).

Definition with_hash (hash : string) (s : Snapshot) : Snapshot :=
  mkSnapshot (sn_epoch s) hash (sn_placements s) (sn_components s) (sn_dependencies s) (sn_traffic s).

Definition Activate (plan : Plan) : result terror Snapshot :=
  let s := clonePlan plan in
  match validateSnapshot s with
  | Some err => Err err
  | None => Ok (with_hash (canonicalHash s) s)
  end.

(** ** Bindings *)
Definition activated (s : Snapshot) : bool := negb (sn_epoch s =? 0) && (sn_hash s != "").

Definition resolved_mode (constraint : BindingMode) (sourcePlacement targetPlacement : string) : BindingMode :=
  match constraint with
  | BindingAuto => if sourcePlacement == targetPlacement then BindingLocal else BindingRemote
  | mode => mode
  end.

Definition Resolve (source target : string) (s : Snapshot) : result terror Binding :=
  if negb (activated s) then Err ErrInvalidPlan
  else match sn_components s !! source, sn_components s !! target, sn_dependencies s !! source with
  | Some sourcePlacement, Some targetPlacement, Some targets =>
      match targets !! target with
      | Some constraint =>
          Ok (mkBinding source target sourcePlacement targetPlacement
                (resolved_mode constraint sourcePlacement targetPlacement) (sn_epoch s) (sn_hash s))
      | None => Err ErrUnboundDependency
      end
  | _, _, _ => Err ErrUnboundDependency
  end.

Fixpoint resolve_all (l : list (string * string * BindingMode)) (s : Snapshot) : result terror (list Binding) :=
  match l with
  | [] => Ok []
  | (source, target, _) :: l =>
      binding ← Resolve source target s;
      rest ← resolve_all l s;
      Ok (binding :: rest)
  end.

(** Resolving in map order and sorting by source and target is resolving in sorted order. *)
Definition Bindings (s : Snapshot) : result terror (list Binding) :=
  if negb (activated s) then Err ErrInvalidPlan else resolve_all (edges (sn_dependencies s)) s.

(** * Traffic tables *)

(** Go's types: [uint64] epochs, [uint16] weights. *)
Definition weights_typed (weights : list EpochWeight) : Prop :=
  ∀ w, w ∈ weights → is_u64 (ew_Epoch w) ∧ 0 ≤ ew_BasisPoints w ≤ 65535.

Definition total_weight (weights : list EpochWeight) : Z :=
  foldr (λ w total, ew_BasisPoints w + total) 0 weights.

(** What [NewTrafficSelector] establishes. *)
Record table_ok (weights : list EpochWeight) : Prop := mk_table_ok {
  tb_typed : weights_typed weights;
  tb_sorted : StronglySorted Z.lt (ew_Epoch <$> weights);
  tb_epochs : ∀ w, w ∈ weights → ew_Epoch w ≠ 0;
  tb_total : total_weight weights = TotalBasisPoints
}.

Lemma total_weight_bounds weights :
  weights_typed weights → 0 ≤ total_weight weights ≤ 65535 * zlen weights.
Proof.
  induction weights as [|w ws IH]; intros Ht; cbn [total_weight foldr]; [unfold zlen; cbn; lia|].
  rewrite zlen_cons. destruct (Ht w ltac:(set_solver)) as [_ ?].
  fold (total_weight ws). destruct IH; [|lia]. intros x Hx. apply Ht. set_solver.
Qed.

Lemma weights_typed_perm ws ws' : ws ≡ₚ ws' → weights_typed ws → weights_typed ws'.
Proof. intros Hp Ht w Hw. apply Ht. by rewrite Hp. Qed.

Lemma sum_weights_spec weights previous total positive t p :
  weights_typed weights → StronglySorted weight_le weights →
  (∀ e w, previous = Some e → w ∈ weights → e ≤ ew_Epoch w) →
  0 ≤ total → total + 65535 * zlen weights ≤ max_u64 →
  sum_weights previous weights total positive = Some (t, p) →
  t = total + total_weight weights ∧ StronglySorted Z.lt (ew_Epoch <$> weights) ∧
  (∀ e w, previous = Some e → w ∈ weights → e < ew_Epoch w) ∧ (∀ w, w ∈ weights → ew_Epoch w ≠ 0).
Proof.
  induction weights as [|w ws IH] in previous, total, positive |- *; intros Ht Hs Hprev H0 Hmax; cbn [sum_weights].
  { intros [= <- <-]. cbn. split_and!; [lia|constructor|set_solver..]. }
  destruct (_ || _) eqn:E; [done|]. bool_hyps. intros Hsum. rewrite zlen_cons in Hmax.
  pose proof (zlen_nonneg ws). destruct (Ht w ltac:(set_solver)) as [_ Hbp].
  apply StronglySorted_inv in Hs as [Hs Hall]. rewrite u64_add_small in Hsum by lia.
  apply IH in Hsum as (-> & Hlt & Hup & Hne); [|intros x Hx; apply Ht; set_solver|done| |lia|lia].
  2:{ intros e x [= <-] Hx. rewrite Forall_forall in Hall. by apply Hall. }
  split_and!.
  - cbn [total_weight foldr]. fold (total_weight ws). lia.
  - rewrite fmap_cons. constructor; [done|]. apply Forall_fmap, Forall_forall. intros x Hx. by apply (Hup _ x).
  - intros e x -> [->|Hx]%elem_of_cons.
    + specialize (Hprev e w eq_refl ltac:(set_solver)). assert (e ≠ ew_Epoch w) by congruence. lia.
    + pose proof (Hprev e w eq_refl ltac:(set_solver)). pose proof (Hup _ x eq_refl Hx). lia.
  - intros x [->|Hx]%elem_of_cons; [done|by apply Hne].
Qed.

#[export] Instance weight_le_total : Total weight_le.
Proof. intros a b. unfold weight_le. lia. Qed.
#[export] Instance weight_le_trans : Transitive weight_le.
Proof. intros a b c. unfold weight_le. lia. Qed.

Lemma sort_weights_perm ws : sort_weights ws ≡ₚ ws.
Proof. apply merge_sort_Permutation. Qed.

Lemma NewTrafficSelector_ok ws ts :
  weights_typed ws → NewTrafficSelector ws = Ok ts →
  ts = mkSelector (sort_weights ws) 0 ∧ table_ok (sort_weights ws).
Proof.
  intros Ht. unfold NewTrafficSelector. cbv zeta. destruct ((zlen ws =? 0) || _) eqn:E; [done|].
  destruct (sum_weights None (sort_weights ws) 0 false) as [[total positive]|] eqn:Hs; [|done].
  destruct (negb positive || _) eqn:E2; [done|]. intros [= <-]. split; [done|]. bool_hyps.
  assert (Hlen : zlen (sort_weights ws) = zlen ws) by (unfold zlen; by rewrite sort_weights_perm).
  assert (Ht' : weights_typed (sort_weights ws)) by (by eapply weights_typed_perm; [symmetry; apply sort_weights_perm|]).
  apply sum_weights_spec in Hs as (-> & Hlt & _ & Hne); [by constructor|done| |done|lia|].
  - apply StronglySorted_merge_sort; apply _.
  - rewrite Hlen. unfold maximumTrafficEpochs, max_u64 in *. lia.
Qed.

(** ** The cycle of 10,000 slots *)
Definition slots (weights : list EpochWeight) : list Z :=
  weights ≫= λ w, replicate (Z.to_nat (ew_BasisPoints w)) (ew_Epoch w).

Lemma slots_length weights : weights_typed weights → zlen (slots weights) = total_weight weights.
Proof.
  induction weights as [|w ws IH]; intros Ht; [done|]. unfold slots. rewrite bind_cons. fold (slots ws).
  rewrite zlen_app, IH by (intros x Hx; apply Ht; set_solver). unfold zlen at 1. rewrite length_replicate.
  cbn. fold (total_weight ws). destruct (Ht w ltac:(set_solver)). lia.
Qed.

Lemma select_from_slots weights bucket cumulative :
  weights_typed weights → 0 ≤ cumulative ≤ bucket → cumulative + total_weight weights ≤ max_u32 →
  select_from bucket cumulative weights = slots weights !! Z.to_nat (bucket - cumulative).
Proof.
  induction weights as [|w ws IH] in cumulative |- *; intros Ht Hc Hmax; [done|].
  cbn [select_from]. unfold slots. rewrite bind_cons. fold (slots ws). cbn in Hmax. fold (total_weight ws) in Hmax.
  destruct (Ht w ltac:(set_solver)) as [_ Hbp].
  assert (Ht' : weights_typed ws) by (intros x Hx; apply Ht; set_solver).
  pose proof (total_weight_bounds ws Ht') as [? _].
  rewrite u32_add_small by lia. destruct (Z.ltb_spec bucket (cumulative + ew_BasisPoints w)).
  - rewrite lookup_app_l by (rewrite length_replicate; lia). symmetry. apply lookup_replicate. split; [done|lia].
  - rewrite lookup_app_r by (rewrite length_replicate; lia). rewrite length_replicate, IH by (done || lia).
    f_equal. lia.
Qed.

Lemma selectBucket_slots ts bucket :
  table_ok (ts_weights ts) → 0 ≤ bucket < TotalBasisPoints →
  slots (ts_weights ts) !! Z.to_nat bucket = Some (selectBucket bucket ts).
Proof.
  intros [Ht _ _ Htot] Hb. unfold selectBucket.
  rewrite (select_from_slots (ts_weights ts)); [|done|lia|rewrite Htot; unfold TotalBasisPoints, max_u32; lia].
  rewrite Z.sub_0_r. destruct (slots (ts_weights ts) !! Z.to_nat bucket) eqn:E; [done|].
  apply lookup_ge_None in E. pose proof (slots_length _ Ht) as Hl. unfold zlen in Hl. lia.
Qed.

Definition occurrences (e : Z) (l : list Z) : Z := zlen (filter (e =.) l).

Lemma occurrences_app e l k : occurrences e (l ++ k) = occurrences e l + occurrences e k.
Proof. unfold occurrences. by rewrite filter_app, zlen_app. Qed.

Lemma occurrences_replicate e n x : occurrences e (replicate n x) = if decide (e = x) then Z.of_nat n else 0.
Proof.
  unfold occurrences. induction n as [|n IH]; cbn [replicate]; [by case_decide|].
  rewrite filter_cons. destruct (decide (e = x)); [|done]. rewrite zlen_cons, IH. lia.
Qed.

Lemma occurrences_absent e weights :
  (∀ w, w ∈ weights → ew_Epoch w ≠ e) → occurrences e (slots weights) = 0.
Proof.
  induction weights as [|w ws IH]; intros H; [done|]. unfold slots. rewrite bind_cons. fold (slots ws).
  rewrite occurrences_app, occurrences_replicate, IH by set_solver.
  rewrite decide_False; [done|]. intros ->. by apply (H w ltac:(set_solver)).
Qed.

(** The binary search finds the weight of an epoch, and that is its share of the cycle. *)
Lemma BasisPoints_slots weights rotation e :
  weights_typed weights → StronglySorted Z.lt (ew_Epoch <$> weights) →
  BasisPoints e (mkSelector weights rotation) = occurrences e (slots weights).
Proof.
  unfold BasisPoints. cbn [ts_weights]. induction weights as [|w ws IH]; intros Ht Hs; [done|].
  unfold slots. rewrite bind_cons. fold (slots ws). rewrite occurrences_app, occurrences_replicate.
  rewrite fmap_cons in Hs. apply StronglySorted_inv in Hs as [Hs Hall].
  destruct (Ht w ltac:(set_solver)) as [_ Hbp]. rewrite Forall_fmap, Forall_forall in Hall. cbn [list_find].
  destruct (decide (e ≤ ew_Epoch w)) as [He|He].
  - rewrite occurrences_absent.
    2:{ intros x Hx. specialize (Hall x Hx). cbn in Hall. lia. }
    destruct (Z.eqb_spec (ew_Epoch w) e) as [->|Hne]; cbn [negb].
    + rewrite decide_True by done. lia.
    + rewrite decide_False; lia.
  - rewrite decide_False by lia. rewrite <- IH; [|intros x Hx; apply Ht; set_solver|done].
    destruct (list_find _ ws) as [[i x]|]; done.
Qed.

Section rotation.
  Context (math_log : spec_float → spec_float).

(** The epochs of [n] consecutive calls without a routing key. *)
Fixpoint rotate (n : nat) (ts : TrafficSelector) : list Z :=
  match n with
  | O => []
  | S n => match Select math_log "" ts with
           | (Ok epoch, ts) => epoch :: rotate n ts
           | (Err _, _) => []
           end
  end.

Lemma Select_empty ts :
  table_ok (ts_weights ts) → 0 ≤ ts_rotation ts < max_u64 →
  Select math_log "" ts =
  (Ok (selectBucket (ts_rotation ts mod TotalBasisPoints) ts),
   mkSelector (ts_weights ts) (ts_rotation ts + 1)).
Proof.
  intros Hok Hr. unfold Select. destruct (Z.eqb_spec (zlen (ts_weights ts)) 0) as [E|_].
  { destruct (ts_weights ts) eqn:Hw; [|unfold zlen in E; cbn in E; lia].
    pose proof (tb_total _ Hok) as Ht. done. }
  rewrite bool_decide_true by done. rewrite u64_add_small by lia. rewrite u64_sub_small by lia.
  by rewrite Z.add_simpl_r.
Qed.

Lemma rotate_slots n ts :
  table_ok (ts_weights ts) → 0 ≤ ts_rotation ts → ts_rotation ts + Z.of_nat n ≤ max_u64 →
  Some <$> rotate n ts =
  (λ i, slots (ts_weights ts) !! Z.to_nat ((ts_rotation ts + Z.of_nat i) mod TotalBasisPoints)) <$> seq 0 n.
Proof.
  induction n as [|n IH] in ts |- *; intros Hok H0 Hmax; [done|]. cbn [rotate].
  rewrite Select_empty by (done || lia). rewrite fmap_cons, IH; cbn [ts_weights ts_rotation]; [|done|lia..].
  cbn [seq]. rewrite fmap_cons, Z.add_0_r. f_equal.
  - symmetry. apply selectBucket_slots; [done|]. apply Z.mod_pos_bound. done.
  - rewrite <- fmap_S_seq, <- list_fmap_compose. apply list_fmap_ext. intros i x _. cbn. do 3 f_equal. lia.
Qed.

Lemma cycle_permutation r N :
  0 ≤ r → (0 < N)%nat →
  (λ i, Z.to_nat ((r + Z.of_nat i) mod Z.of_nat N)) <$> seq 0 N ≡ₚ seq 0 N.
Proof.
  intros Hr HN. apply submseteq_length_Permutation; [|by rewrite length_fmap].
  apply NoDup_submseteq.
  - apply NoDup_fmap_2_strong; [|apply NoDup_seq]. intros i j Hi%elem_of_seq Hj%elem_of_seq Heq.
    apply Z2Nat.inj in Heq; [|by apply Z.mod_pos_bound; lia..].
    assert (Hd : (r + Z.of_nat i - (r + Z.of_nat j)) mod Z.of_nat N = 0).
    { rewrite Zminus_mod, Heq, Z.sub_diag. by apply Z.mod_0_l; lia. }
    apply Z.mod_divide in Hd as [q Hq]; [|lia]. assert (q = 0) by nia. lia.
  - intros x (i & -> & _)%list_elem_of_fmap. apply elem_of_seq.
    pose proof (Z.mod_pos_bound (r + Z.of_nat i) (Z.of_nat N)). lia.
Qed.

Lemma lookup_seq_self {A} (l : list A) : (λ i, l !! i) <$> seq 0 (length l) = Some <$> l.
Proof.
  induction l as [|a l IH]; [done|]. cbn [length seq]. rewrite !fmap_cons. f_equal.
  rewrite <- IH, <- fmap_S_seq, <- list_fmap_compose. done.
Qed.

(** The epochs of a full cycle are the slots, in some order. *)
Lemma cycle_slots ts :
  table_ok (ts_weights ts) → 0 ≤ ts_rotation ts → ts_rotation ts + TotalBasisPoints ≤ max_u64 →
  rotate (Z.to_nat TotalBasisPoints) ts ≡ₚ slots (ts_weights ts).
Proof.
  intros Hok H0 Hmax. set (N := Z.to_nat TotalBasisPoints).
  assert (HN : Z.of_nat N = TotalBasisPoints) by done.
  assert (Hlen : length (slots (ts_weights ts)) = N).
  { pose proof (slots_length _ (tb_typed _ Hok)) as Hl. rewrite (tb_total _ Hok) in Hl. unfold zlen in Hl. lia. }
  assert (Hsome : Some <$> rotate N ts ≡ₚ Some <$> slots (ts_weights ts)).
  { rewrite rotate_slots by (done || lia). rewrite <- lookup_seq_self, Hlen.
    etrans; [|apply fmap_Permutation, (cycle_permutation (ts_rotation ts) N H0); unfold TotalBasisPoints in HN; lia].
    rewrite <- list_fmap_compose. apply reflexive_eq, list_fmap_ext. intros i x _. cbn. by rewrite HN. }
  assert (Hback : ∀ l : list Z, (λ o, default 0 o) <$> (Some <$> l) = l).
  { intros l. rewrite <- list_fmap_compose. induction l as [|x l IH]; [done|]. cbn. by rewrite IH. }
  rewrite <- (Hback (rotate N ts)), <- (Hback (slots _)). by rewrite Hsome.
Qed.

Lemma BasisPoints_cycle ts e :
  table_ok (ts_weights ts) → 0 ≤ ts_rotation ts → ts_rotation ts + TotalBasisPoints ≤ max_u64 →
  occurrences e (rotate (Z.to_nat TotalBasisPoints) ts) = BasisPoints e ts.
Proof.
  intros Hok H0 Hmax. destruct ts as [ws r]. rewrite BasisPoints_slots by apply Hok.
  unfold occurrences, zlen. by rewrite (cycle_slots _ Hok H0 Hmax).
Qed.

(** A call without a routing key goes to an epoch with a positive weight. *)
Lemma Select_positive ts :
  table_ok (ts_weights ts) →
  ∃ e rotation, Select math_log "" ts = (Ok e, mkSelector (ts_weights ts) rotation) ∧
    ∃ w, w ∈ ts_weights ts ∧ ew_Epoch w = e ∧ 0 < ew_BasisPoints w.
Proof.
  intros Hok. unfold Select. destruct (Z.eqb_spec (zlen (ts_weights ts)) 0) as [E|_].
  { destruct (ts_weights ts) eqn:Hw; [|unfold zlen in E; cbn in E; lia].
    pose proof (tb_total _ Hok) as Ht. done. }
  rewrite bool_decide_true by done. do 2 eexists. split; [done|].
  set (bucket := _ mod TotalBasisPoints).
  pose proof (selectBucket_slots ts bucket Hok ltac:(by apply Z.mod_pos_bound)) as Hs.
  apply list_elem_of_lookup_2 in Hs.
  unfold slots in Hs. apply list_elem_of_bind in Hs as (w & Hw & Hin). exists w. split; [done|].
  apply elem_of_replicate in Hw as [He Hn]. split; [done|]. lia.
Qed.

(** What the code relies on of [math.Log]: of a positive number of binary64 it is a number of moderate size
    (between -746 and 710), not an infinity and not NaN. *)
Definition natural_log : Prop := ∀ m e, Zpos m < 2 ^ 53 → -1074 ≤ e ≤ 971 → tame 0 (math_log (S754_finite false m e)).
Lemma lxor_u64 x y : 0 ≤ x < 2 ^ 64 → 0 ≤ y < 2 ^ 64 → 0 ≤ Z.lxor x y < 2 ^ 64.
Proof.
  intros Hx Hy. assert (H0 : 0 ≤ Z.lxor x y) by (apply Z.lxor_nonneg; lia). split; [done|]. destruct (decide (Z.lxor x y = 0)) as [->|]; [lia|].
  apply Z.log2_lt_pow2; [lia|]. eapply Z.le_lt_trans; [apply Z.log2_lxor; lia|]. assert (∀ z, 0 ≤ z < 2 ^ 64 → Z.log2 z < 64) as Hl; [|pose proof (Hl x Hx); pose proof (Hl y Hy); lia].
  intros z Hz. destruct (decide (z = 0)) as [->|]; [done|]. apply Z.log2_lt_pow2; lia.
Qed.
Lemma u64_mul_range x y : 0 ≤ u64_mul x y < 2 ^ 64.
Proof. unfold u64_mul. apply Z.mod_pos_bound. done. Qed.
Lemma shiftr_range x k : 0 ≤ k → 0 ≤ x < 2 ^ 64 → 0 ≤ Z.shiftr x k < 2 ^ 64.
Proof. intros Hk Hx. rewrite Z.shiftr_div_pow2 by done. pose proof (Z.pow_pos_nonneg 2 k ltac:(lia) Hk). split; [apply Z.div_pos; lia|]. apply Z.div_lt_upper_bound; nia. Qed.
Lemma mix64_range hash : 0 ≤ hash < 2 ^ 64 → 0 ≤ mix64 hash < 2 ^ 64.
Proof. intros Hh. unfold mix64. repeat first [apply lxor_u64 | apply u64_mul_range | apply shiftr_range | done]. Qed.
Lemma fnv1a_range key : 0 ≤ fnv1a key < 2 ^ 64.
Proof.
  unfold fnv1a. assert (Hg : ∀ l h, 0 ≤ h < 2 ^ 64 → 0 ≤ fold_left (λ hash b, u64_mul (Z.lxor hash b) prime64) l h < 2 ^ 64); [|by apply Hg].
  induction l as [|b l IH]; intros h Hh; [done|]. apply IH, u64_mul_range.
Qed.
Lemma rendezvousUnit_positive key epoch : ∃ m e, rendezvousUnit key epoch = S754_finite false m e ∧ Zpos m < 2 ^ 53 ∧ -1074 ≤ e ≤ 971.
Proof.
  unfold rendezvousUnit. set (hash := mix64 _). assert (Hh : 0 ≤ hash < 2 ^ 64) by (apply mix64_range, lxor_u64; [apply fnv1a_range|apply u64_mul_range]).
  replace denominator with (float64 (2 ^ 53)) by (vm_compute; reflexivity). apply div64_unit. rewrite Z.shiftr_div_pow2 by lia.
  assert (0 ≤ hash / 2 ^ 11 < 2 ^ 53) by (split; [apply Z.div_pos; lia|apply Z.div_lt_upper_bound; lia]). lia.
Qed.
Lemma score_finite key w : natural_log → 0 < ew_BasisPoints w < 2 ^ 53 → SFltb (score math_log key w) (S754_infinity false) = true.
Proof.
  intros Hlog Hw. unfold score. destruct (rendezvousUnit_positive key (ew_Epoch w)) as (m & e & -> & Hm & He). specialize (Hlog m e Hm He).
  destruct (float64_exact (ew_BasisPoints w)) as (m' & k & -> & Hk & _ & _); [lia|].
  assert (Ht : tame 0 (SFopp (math_log (S754_finite false m e)))) by (by destruct (math_log _)).
  pose proof (tame_div 0 _ false m' (- k) Ht ltac:(lia)) as Hs. by destruct (div64 _ _) as [|[]| |].
Qed.
Lemma better_epoch key l : ∀ st, fst (fold_left (better math_log key) l st) = fst st ∨
  ∃ w, w ∈ l ∧ ew_Epoch w = fst (fold_left (better math_log key) l st) ∧ ew_BasisPoints w ≠ 0.
Proof.
  induction l as [|w l IH]; intros st; cbn [fold_left]; [by left|].
  destruct (IH (better math_log key st w)) as [->|(x & Hx & Hex & Hbx)]; [|right; exists x; set_solver].
  destruct st as [selected best]. unfold better. destruct (Z.eqb_spec (ew_BasisPoints w) 0); [by left|].
  destruct (_ || _); [|by left]. right. exists w. set_solver.
Qed.
(** A routing key goes to an epoch with a positive weight. *)
Lemma selectRendezvous_found key l : natural_log → (∀ w, w ∈ l → 0 ≤ ew_BasisPoints w < 2 ^ 53) → (∃ w, w ∈ l ∧ 0 < ew_BasisPoints w) →
  ∀ s, ∃ w, w ∈ l ∧ ew_Epoch w = fst (fold_left (better math_log key) l (s, S754_infinity false)) ∧ 0 < ew_BasisPoints w.
Proof.
  intros Hlog. induction l as [|w l IH]; intros Hb (x & Hx & Hpos) s; [by apply elem_of_nil in Hx|]. cbn [fold_left].
  assert (Hw : 0 ≤ ew_BasisPoints w < 2 ^ 53) by (apply Hb; set_solver). assert (Hl : ∀ y, y ∈ l → 0 ≤ ew_BasisPoints y < 2 ^ 53) by set_solver. unfold better at 2.
  destruct (Z.eqb_spec (ew_BasisPoints w) 0) as [Hz|Hnz].
  - destruct (IH Hl) with (s := s) as (y & Hy & He & Hp); [|exists y; set_solver]. exists x. split; [|done]. apply elem_of_cons in Hx as [->|]; [lia|done].
  - rewrite score_finite by (done || lia). cbn [orb]. destruct (better_epoch key l (ew_Epoch w, score math_log key w)) as [->|(y & Hy & He & Hp)].
    + exists w. cbn. set_solver by lia.
    + exists y. specialize (Hl y Hy). split; [set_solver|]. split; [done|lia].
Qed.
Lemma total_positive weights : 0 < total_weight weights → ∃ w, w ∈ weights ∧ 0 < ew_BasisPoints w.
Proof.
  induction weights as [|w l IH]; cbn [total_weight foldr]; [lia|]. fold (total_weight l). intros Ht.
  destruct (decide (0 < ew_BasisPoints w)); [exists w; set_solver|]. destruct IH as (x & Hx & Hp); [lia|]. exists x. set_solver.
Qed.
(** Every call, with a routing key or without, goes to an epoch with a positive weight. *)
Lemma Select_routes key ts : table_ok (ts_weights ts) → (key ≠ "" → natural_log) →
  ∃ e rotation, Select math_log key ts = (Ok e, mkSelector (ts_weights ts) rotation) ∧
    ∃ w, w ∈ ts_weights ts ∧ ew_Epoch w = e ∧ 0 < ew_BasisPoints w.
Proof.
  intros Hok Hlog. destruct (decide (key = "")) as [->|Hk]; [by apply Select_positive|]. specialize (Hlog Hk). unfold Select.
  destruct (total_positive (ts_weights ts)) as (x & Hx & Hp); [by rewrite (tb_total _ Hok)|].
  destruct (Z.eqb_spec (zlen (ts_weights ts)) 0) as [E|_]; [destruct (ts_weights ts); [by apply elem_of_nil in Hx|unfold zlen in E; cbn in E; lia]|].
  rewrite bool_decide_eq_false_2 by done. exists (selectRendezvous math_log key ts), (ts_rotation ts). split; [by destruct ts|]. unfold selectRendezvous.
  destruct (selectRendezvous_found key (ts_weights ts) Hlog) with (s := 0) as (w & Hw & He & Hpos); [|by exists x|by exists w].
  intros w Hw. destruct (tb_typed _ Hok w Hw) as [_ ?]. lia.
Qed.

(** A routing key goes to an epoch with a positive weight, or (when no score compares) nowhere. *)
Lemma selectRendezvous_positive key ts :
  selectRendezvous math_log key ts = 0 ∨
  ∃ w, w ∈ ts_weights ts ∧ ew_Epoch w = selectRendezvous math_log key ts ∧ ew_BasisPoints w ≠ 0.
Proof.
  apply (better_epoch key (ts_weights ts) (0, S754_infinity false)).
Qed.
End rotation.

Lemma total_weight_perm ws ws' : ws ≡ₚ ws' → total_weight ws = total_weight ws'.
Proof. unfold total_weight. induction 1; cbn; lia. Qed.

Lemma StronglySorted_NoDup (l : list Z) : StronglySorted Z.lt l → NoDup l.
Proof.
  induction 1 as [|x l _ IH Hx]; constructor; [|done]. intros Hin.
  rewrite Forall_forall in Hx. specialize (Hx x Hin). lia.
Qed.

(** The search finds every weight of the table. *)
Lemma BasisPoints_weight weights rotation w :
  table_ok weights → w ∈ weights → BasisPoints (ew_Epoch w) (mkSelector weights rotation) = ew_BasisPoints w.
Proof.
  intros [Ht Hs _ _] Hin. rewrite BasisPoints_slots by done. revert Ht Hs Hin.
  induction weights as [|x l IH]; intros Ht Hs Hin; [set_solver|].
  rewrite fmap_cons in Hs. apply StronglySorted_inv in Hs as [Hs Hall]. rewrite Forall_fmap, Forall_forall in Hall.
  unfold slots. rewrite bind_cons. fold (slots l). rewrite occurrences_app, occurrences_replicate.
  destruct (Ht x ltac:(set_solver)) as [_ ?]. apply elem_of_cons in Hin as [->|Hin].
  - rewrite decide_True by done. rewrite occurrences_absent; [lia|].
    intros y Hy. specialize (Hall y Hy). cbn in Hall. lia.
  - specialize (Hall w Hin). cbn in Hall. rewrite decide_False by lia.
    rewrite IH; [done| |done|done]. intros y Hy. apply Ht. set_solver.
Qed.

(** traffic weights are honoured exactly.  A table is accepted only when its epochs are distinct
    and nonzero and its weights add up to 10,000; and among any 10,000 consecutive calls without
    a routing key, wherever the rotation stands, every epoch is selected exactly as often as its
    weight says. *)
Theorem traffic_exact math_log weights ts rotation e :
  weights_typed weights → NewTrafficSelector weights = Ok ts →
  0 ≤ rotation → rotation + TotalBasisPoints ≤ max_u64 →
  occurrences e (rotate math_log (Z.to_nat TotalBasisPoints) (mkSelector (ts_weights ts) rotation)) =
    BasisPoints e ts ∧
  (∀ w, w ∈ weights → BasisPoints (ew_Epoch w) ts = ew_BasisPoints w) ∧
  NoDup (ew_Epoch <$> weights) ∧ (∀ w, w ∈ weights → ew_Epoch w ≠ 0) ∧ total_weight weights = TotalBasisPoints.
Proof.
  intros Ht Hnew H0 Hmax. destruct (NewTrafficSelector_ok _ _ Ht Hnew) as [-> Hok].
  pose proof (sort_weights_perm weights) as Hperm. split_and!.
  - rewrite BasisPoints_cycle by done. done.
  - intros w Hw. apply BasisPoints_weight; [done|]. by rewrite Hperm.
  - rewrite <- Hperm. apply StronglySorted_NoDup, Hok.
  - intros w Hw. apply (tb_epochs _ Hok). by rewrite Hperm.
  - rewrite <- (total_weight_perm _ _ Hperm). apply Hok.
Qed.

(** The constant [denominator] is 2^53, not 2^53 + 1, which no [float64] represents; so the unit of
    a key whose hash has its high 53 bits set is exactly 1. *)
Theorem rendezvous_unit_reaches_one :
  denominator = float64 (2 ^ 53) ∧ SFeqb (rendezvousUnit "tenant-a" 7660291643508831759) (float64 1) = true.
Proof. split; vm_compute; reflexivity. Qed.

(** * Bindings of an activated plan *)
Definition declared (deps : gmap string (gmap string BindingMode)) (source target : string) (mode : BindingMode) : Prop :=
  ∃ targets, deps !! source = Some targets ∧ targets !! target = Some mode.

Lemma elem_of_edges deps source target mode :
  (source, target, mode) ∈ edges deps ↔ declared deps source target mode.
Proof.
  unfold edges, declared. rewrite list_elem_of_bind. split.
  - intros (s & Hin & Hs). destruct (deps !! s) as [targets|] eqn:Hd; [|set_solver].
    apply list_elem_of_bind in Hin as (t & Hin & _). destruct (targets !! t) as [m|] eqn:Ht; [|set_solver].
    apply list_elem_of_singleton in Hin. simplify_eq. eauto.
  - intros (targets & Hd & Ht). exists source. rewrite Hd, elem_of_sort_strings, elem_of_elements.
    split; [|by apply elem_of_dom_2 in Hd]. apply list_elem_of_bind. exists target.
    rewrite Ht, elem_of_sort_strings, elem_of_elements. split; [set_solver|by apply elem_of_dom_2 in Ht].
Qed.

Lemma NoDup_bind_key {A B K} (key : B → K) (f : A → list B) (g : A → K → Prop) (l : list A) :
  NoDup l → (∀ a, a ∈ l → NoDup (key <$> f a)) → (∀ a k, k ∈ key <$> f a → g a k) →
  (∀ a a' k, g a k → g a' k → a = a') → NoDup (key <$> (l ≫= f)).
Proof.
  intros Hnd Hf Hg Hinj. induction Hnd as [|a l Ha Hl IH]; [constructor|].
  rewrite bind_cons, fmap_app. apply NoDup_app. split_and!.
  - apply Hf. set_solver.
  - intros k Hk (b & -> & Hb)%list_elem_of_fmap. apply list_elem_of_bind in Hb as (a' & Hb & Ha').
    apply Ha. rewrite (Hinj a a' (key b)); [done|by apply Hg|]. by apply Hg, list_elem_of_fmap_2.
  - apply IH. intros a' Ha'. apply Hf. set_solver.
Qed.

Lemma NoDup_edges deps : NoDup (fst <$> edges deps).
Proof.
  unfold edges. apply (NoDup_bind_key fst _ (λ s (k : string * string), k.1 = s)).
  - apply NoDup_sort_strings, NoDup_elements.
  - intros s _. destruct (deps !! s) as [targets|]; [|constructor].
    apply (NoDup_bind_key fst _ (λ t (k : string * string), k.2 = t)).
    + apply NoDup_sort_strings, NoDup_elements.
    + intros t _. destruct (targets !! t); [apply NoDup_singleton|constructor].
    + intros t k (e & -> & He)%list_elem_of_fmap. destruct (targets !! t); set_solver.
    + congruence.
  - intros s k (e & -> & He)%list_elem_of_fmap. destruct (deps !! s) as [targets|]; [|set_solver].
    apply list_elem_of_bind in He as (t & He & _). destruct (targets !! t); set_solver.
  - congruence.
Qed.

Lemma canonicalHash_nonempty s : canonicalHash s ≠ "".
Proof. done. Qed.

Lemma Activate_ok plan s :
  Activate plan = Ok s →
  s = with_hash (canonicalHash (clonePlan plan)) (clonePlan plan) ∧ activated s = true ∧
  (∀ source target mode, declared (pl_Dependencies plan) source target mode →
     ∃ sp tp, pl_Components plan !! source = Some sp ∧ pl_Components plan !! target = Some tp ∧
       match mode with BindingLocal => sp = tp | BindingOther _ => False | _ => True end).
Proof.
  unfold Activate. destruct (validateSnapshot (clonePlan plan)) eqn:Hv; [done|]. intros [= <-]. split; [done|].
  revert Hv. unfold validateSnapshot. destruct (_ || _) eqn:E; [done|]. intros _. bool_hyps.
  split.
  { unfold activated, with_hash, clonePlan in *. cbn in *. by rewrite (proj2 (Z.eqb_neq _ _)) by done. }
  intros source target mode (targets & Hd & Ht).
  match goal with H : map_forallb (valid_source _) _ = true |- _ => rename H into Hdeps end.
  rewrite map_forallb_spec in Hdeps. specialize (Hdeps _ _ Hd). unfold valid_source in Hdeps. cbn in Hdeps.
  destruct (pl_Components plan !! source) as [sp|]; [|done].
  rewrite map_forallb_spec in Hdeps. specialize (Hdeps _ _ Ht). unfold valid_dependency in Hdeps. cbn in Hdeps.
  destruct (pl_Components plan !! target) as [tp|]; [|done]. exists sp, tp.
  destruct mode; bool_hyps; done.
Qed.

(** What a binding must say about one declared edge. *)
Record binding_ok (plan : Plan) (s : Snapshot) (b : Binding) (mode : BindingMode) : Prop := mk_binding_ok {
  bo_source : pl_Components plan !! bi_Source b = Some (bi_SourcePlacement b);
  bo_target : pl_Components plan !! bi_Target b = Some (bi_TargetPlacement b);
  bo_epoch : bi_Epoch b = pl_Epoch plan;
  bo_hash : bi_PlanHash b = sn_hash s;
  bo_mode :
    match mode with
    | BindingAuto => bi_Mode b = if decide (bi_SourcePlacement b = bi_TargetPlacement b)
                                 then BindingLocal else BindingRemote
    | BindingLocal => bi_Mode b = BindingLocal ∧ bi_SourcePlacement b = bi_TargetPlacement b
    | BindingRemote => bi_Mode b = BindingRemote
    | BindingOther _ => False
    end
}.

Lemma Resolve_declared plan s source target mode :
  Activate plan = Ok s → declared (pl_Dependencies plan) source target mode →
  ∃ b, Resolve source target s = Ok b ∧ bi_Source b = source ∧ bi_Target b = target ∧ binding_ok plan s b mode.
Proof.
  intros Hact Hdecl. destruct (Activate_ok _ _ Hact) as (Hs & Ha & Hedge).
  destruct (Hedge _ _ _ Hdecl) as (sp & tp & Hsp & Htp & Hmode). destruct Hdecl as (targets & Hd & Ht).
  unfold Resolve. rewrite Ha. rewrite Hs. cbn. rewrite Hsp, Htp, Hd, Ht. eexists. split; [done|].
  split_and!; [done..|]. constructor; cbn; try done. destruct mode; cbn; try done.
  by case_bool_decide; case_decide.
Qed.

Lemma resolve_all_ok plan s l :
  Activate plan = Ok s →
  (∀ source target mode, (source, target, mode) ∈ l → declared (pl_Dependencies plan) source target mode) →
  ∃ bs, resolve_all l s = Ok bs ∧
    Forall2 (λ e b, e.1 = (bi_Source b, bi_Target b) ∧ binding_ok plan s b e.2) l bs.
Proof.
  intros Hact. induction l as [|[[source target] mode] l IH]; intros Hl; [by exists []|].
  destruct (Resolve_declared plan s source target mode Hact) as (b & Hb & Hbs & Hbt & Hok);
    [apply Hl; set_solver|].
  destruct IH as (bs & Hbs' & Hall); [intros; apply Hl; set_solver|].
  exists (b :: bs). cbn [resolve_all]. rewrite Hb. cbn. rewrite Hbs'. split; [done|].
  constructor; [|done]. cbn. split; [congruence|done].
Qed.

(** C38: an activated plan resolves completely and consistently.  Every declared dependency resolves
    (to the placements, epoch and hash of the plan), a LOCAL binding never crosses placements,
    AUTO is local exactly within one placement; [Bindings] lists every declared edge exactly
    once and agrees with [Resolve]; and a pair that is not declared is refused. *)
Theorem bindings_complete plan s :
  Activate plan = Ok s →
  (∃ bs, Bindings s = Ok bs ∧
    NoDup ((λ b, (bi_Source b, bi_Target b)) <$> bs) ∧
    (∀ source target, (source, target) ∈ (λ b, (bi_Source b, bi_Target b)) <$> bs ↔
       ∃ mode, declared (pl_Dependencies plan) source target mode) ∧
    (∀ b, b ∈ bs → Resolve (bi_Source b) (bi_Target b) s = Ok b ∧
       ∃ mode, declared (pl_Dependencies plan) (bi_Source b) (bi_Target b) mode ∧ binding_ok plan s b mode)) ∧
  (∀ source target, (∀ mode, ¬ declared (pl_Dependencies plan) source target mode) →
     Resolve source target s = Err ErrUnboundDependency).
Proof.
  intros Hact. destruct (Activate_ok _ _ Hact) as (Hs & Ha & _).
  assert (Hdeps : sn_dependencies s = pl_Dependencies plan) by (by rewrite Hs). split.
  - destruct (resolve_all_ok plan s (edges (sn_dependencies s)) Hact) as (bs & Hbs & Hall).
    { intros source target mode. by rewrite elem_of_edges, Hdeps. }
    assert (Hkeys : (λ b, (bi_Source b, bi_Target b)) <$> bs = fst <$> edges (sn_dependencies s)).
    { clear -Hall. induction Hall as [|e b l bs [He _] _ IH]; [done|]. by rewrite !fmap_cons, IH, <- He. }
    exists bs. split_and!.
    + unfold Bindings. by rewrite Ha.
    + rewrite Hkeys. apply NoDup_edges.
    + intros source target. rewrite Hkeys, Hdeps, list_elem_of_fmap. split.
      * intros ([[x y] mode] & [= -> ->] & Hin%elem_of_edges). by exists mode.
      * intros [mode Hm%elem_of_edges]. by exists (source, target, mode).
    + intros b [i Hb]%list_elem_of_lookup. destruct (Forall2_lookup_r _ _ _ _ _ Hall Hb) as ([[x y] mode] & He & Hxy & Hok).
      cbn in Hxy, Hok. simplify_eq. apply list_elem_of_lookup_2, elem_of_edges in He. rewrite Hdeps in He.
      destruct (Resolve_declared _ _ _ _ _ Hact He) as (b' & Hb' & Hbs' & Hbt' & Hok').
      split; [|by exists mode]. rewrite Hb'. f_equal.
      destruct b as [bs1 bt1 bsp1 btp1 bm1 be1 bh1], b' as [bs2 bt2 bsp2 btp2 bm2 be2 bh2].
      destruct Hok, Hok'. cbn in *. subst. simplify_eq. f_equal.
      destruct mode; destruct_and?; congruence || done.
  - intros source target Hno. unfold Resolve. rewrite Ha, Hdeps. cbn.
    destruct (sn_components s !! source), (sn_components s !! target); try done.
    destruct (pl_Dependencies plan !! source) as [targets|] eqn:Hd; [|done].
    destruct (targets !! target) as [mode|] eqn:Ht; [|done]. exfalso. by apply (Hno mode); exists targets.
Qed.

(** * Witnesses *)
Definition ex_weights : list EpochWeight := [mkWeight 2 7500; mkWeight 1 2500].

Lemma traffic_exact_witness :
  NewTrafficSelector ex_weights = Ok (mkSelector [mkWeight 1 2500; mkWeight 2 7500] 0) ∧
  occurrences 2 (rotate id (Z.to_nat TotalBasisPoints) (mkSelector [mkWeight 1 2500; mkWeight 2 7500] 123)) = 7500.
Proof.
  split; [vm_compute; reflexivity|].
  assert (Hn : NewTrafficSelector ex_weights = Ok (mkSelector [mkWeight 1 2500; mkWeight 2 7500] 0))
    by (vm_compute; reflexivity).
  refine (eq_trans (proj1 (traffic_exact id ex_weights _ 123 2 _ Hn _ _)) _).
  - intros w Hw. unfold ex_weights in Hw. apply elem_of_cons in Hw as [->|Hw]; [split; split; vm_compute; discriminate|].
    apply list_elem_of_singleton in Hw as ->. split; split; vm_compute; discriminate.
  - lia.
  - vm_compute. discriminate.
  - vm_compute. reflexivity.
Defined.

(** Two components in one placement and one elsewhere. *)
Definition ex_plan : Plan :=
  mkPlan 2 {["front"; "back"]} (<["api" := "front"]> (<["auth" := "front"]> {["db" := "back"]}))
    {["api" := <["auth" := BindingLocal]> {["db" := BindingAuto]}]} (Some ex_weights).

Lemma bindings_complete_witness : ∃ s,
  Activate ex_plan = Ok s ∧ (∃ bs, Bindings s = Ok bs ∧ NoDup ((λ b, (bi_Source b, bi_Target b)) <$> bs)).
Proof.
  destruct (Activate ex_plan) as [s|] eqn:Ha; [|vm_compute in Ha; discriminate].
  exists s. split; [reflexivity|]. destruct (bindings_complete ex_plan s Ha) as [(bs & Hb & Hn & _) _].
  exists bs. split; [exact Hb|exact Hn].
Defined.
