(* ===== verification/TopologyManager.v ===== *)
(** * programmable/topology: the epoch manager

    Models [manager.go] and [manager_control.go]: epochs are staged, become ready, drain and
    stop; calls lease the epoch the traffic table selects.  Every method holds the manager's
    mutex, so it is one step; [Stop] waits between two critical sections and is two steps.
    Idle channels are identified by numbers; closing one twice panics in Go, so [release]
    returns [None] in that case.  Leases are objects with a [sync.Once]. *)
From S2P Require Import Prelude GoText GoFloat Topology.
Open Scope Z_scope.

Inductive EpochState := EpochStaging | EpochReady | EpochDraining | EpochStopped.
#[export] Instance EpochState_eq_dec : EqDecision EpochState.
Proof. solve_decision. Defined.

Record managedEpoch := mkManaged {
  me_snapshot : Snapshot;
  me_state : EpochState;
  me_leases : Z;
  me_idle : nat
}.

(** [m_chans]: the channels made so far; [true] is closed. *)
Record Manager := mkManager {
  m_epochs : gmap Z managedEpoch;
  m_active : Z;
  m_maximum : Z;
  m_traffic : option TrafficSelector;
  m_chans : list bool
}.

Definition NewManager : Manager := mkManager ∅ 0 0 None [].

Definition with_state (state : EpochState) (e : managedEpoch) : managedEpoch :=
  mkManaged (me_snapshot e) state (me_leases e) (me_idle e).
Definition put_epoch (epoch : Z) (entry : managedEpoch) (m : Manager) : Manager :=
  mkManager (<[epoch := entry]> (m_epochs m)) (m_active m) (m_maximum m) (m_traffic m) (m_chans m).
Definition set_routing (active : Z) (traffic : option TrafficSelector) (m : Manager) : Manager :=
  mkManager (m_epochs m) active (m_maximum m) traffic (m_chans m).

(** [None] is a nil error. *)
Definition Stage (snapshot : Snapshot) (m : Manager) : option terror * Manager :=
  let epoch := sn_epoch snapshot in
  if (epoch =? 0) || (sn_hash snapshot == "") then (Some ErrInvalidEpoch, m)
  else if epoch <=? m_maximum m then (Some ErrInvalidEpoch, m)
  else
    (None, mkManager (<[epoch := mkManaged snapshot EpochStaging 0 (length (m_chans m))]> (m_epochs m))
             (m_active m) epoch (m_traffic m) (m_chans m ++ [true])).

(** A weight that routes to another epoch needs that epoch to be ready. *)
Definition traffic_ready (epoch : Z) (m : Manager) (weight : EpochWeight) : bool :=
  (ew_BasisPoints weight =? 0) || (ew_Epoch weight =? epoch) ||
  match m_epochs m !! ew_Epoch weight with
  | Some referenced => me_state referenced == EpochReady
  | None => false
  end.

Definition Ready (epoch : Z) (m : Manager) : option terror * Manager :=
  match m_epochs m !! epoch with
  | None => (Some ErrEpochNotFound, m)
  | Some entry =>
      if (me_state entry != EpochStaging) || (epoch <=? m_active m) then (Some ErrInvalidEpochTransition, m)
      else match NewTrafficSelector (Traffic (me_snapshot entry)) with
      | Err err => (Some err, m)
      | Ok selector =>
          if negb (forallb (traffic_ready epoch m) (ts_weights selector))
          then (Some ErrInvalidEpochTransition, m)
          else (None, set_routing epoch (Some selector) (put_epoch epoch (with_state EpochReady entry) m))
      end
  end.

Definition routed (epoch : Z) (m : Manager) : bool :=
  match m_traffic m with Some traffic => negb (BasisPoints epoch traffic =? 0) | None => false end.

Definition Drain (epoch : Z) (m : Manager) : option terror * Manager :=
  match m_epochs m !! epoch with
  | None => (Some ErrEpochNotFound, m)
  | Some entry =>
      if me_state entry != EpochReady then (Some ErrInvalidEpochTransition, m)
      else if match m_epochs m !! m_active m with
              | None => true
              | Some successor => (m_active m <=? epoch) || (me_state successor != EpochReady)
              end then (Some ErrSuccessorNotReady, m)
      else if routed epoch m then (Some ErrEpochHasTraffic, m)
      else (None, put_epoch epoch (with_state EpochDraining entry) m)
  end.

(** A lease object: the epoch, its snapshot, and whether the [sync.Once] has fired. *)
Record Lease := mkLease { le_epoch : Z; le_snapshot : Snapshot; le_released : bool }.

Section log.
  Context (math_log : spec_float → spec_float).

Definition acquire (routingKey : string) (m : Manager) : result terror Lease * Manager :=
  match m_traffic m with
  | None => (Err ErrNoReadyEpoch, m)
  | Some traffic =>
      let '(selected, traffic) := Select math_log routingKey traffic in
      let m := set_routing (m_active m) (Some traffic) m in
      match selected with
      | Err _ => (Err ErrNoReadyEpochTraffic, m)
      | Ok epoch =>
          match m_epochs m !! epoch with
          | None => (Err ErrNoReadyEpoch, m)
          | Some entry =>
              if me_state entry != EpochReady then (Err ErrNoReadyEpoch, m)
              else
                let fresh := me_leases entry =? 0 in
                let idle := if fresh then length (m_chans m) else me_idle entry in
                let chans := if fresh then m_chans m ++ [false] else m_chans m in
                let entry := mkManaged (me_snapshot entry) (me_state entry) (u64_add (me_leases entry) 1) idle in
                (Ok (mkLease epoch (me_snapshot entry) false),
                 mkManager (<[epoch := entry]> (m_epochs m)) (m_active m) (m_maximum m) (m_traffic m) chans)
          end
      end
  end.

Definition Acquire : Manager → result terror Lease * Manager := acquire "".
Definition AcquireKey (routingKey : string) : Manager → result terror Lease * Manager := acquire routingKey.
End log.

Definition Drainable (m : Manager) : list Z :=
  merge_sort Z.le (fst <$> filter (λ p : Z * managedEpoch,
    negb ((p.1 =? m_active m) || (me_state p.2 != EpochReady) || routed p.1 m) = true) (map_to_list (m_epochs m))).

Definition DrainForShutdown (epoch : Z) (m : Manager) : option terror * Manager :=
  match m_epochs m !! epoch with
  | None => (Some ErrEpochNotFound, m)
  | Some entry =>
      if me_state entry != EpochReady then (Some ErrInvalidEpochTransition, m)
      else
        let m := put_epoch epoch (with_state EpochDraining entry) m in
        (None, if m_active m =? epoch then set_routing 0 None m else m)
  end.

(** [Stop] up to the wait: [Ok None] is a nil error at once, [Ok (Some idle)] the channel the
    caller waits for. *)
Definition Stop_begin (epoch : Z) (m : Manager) : result terror (option nat) :=
  match m_epochs m !! epoch with
  | None => Err ErrEpochNotFound
  | Some entry =>
      match me_state entry with
      | EpochStopped => Ok None
      | EpochDraining => Ok (Some (me_idle entry))
      | _ => Err ErrInvalidEpochTransition
      end
  end.

(** The wait ends when the channel is closed. *)
Definition closed (c : nat) (m : Manager) : bool := default false (m_chans m !! c).

(** [Stop] after the wait.  A missing entry would be a nil dereference. *)
Definition Stop_finish (epoch : Z) (m : Manager) : option (option terror * Manager) :=
  match m_epochs m !! epoch with
  | None => None
  | Some entry =>
      Some (if me_state entry == EpochStopped then (None, m)
            else if (me_state entry != EpochDraining) || negb (me_leases entry =? 0)
            then (Some ErrInvalidEpochTransition, m)
            else (None, put_epoch epoch (with_state EpochStopped entry) m))
  end.

Definition State (epoch : Z) (m : Manager) : option EpochState := me_state <$> m_epochs m !! epoch.

Definition Active (m : Manager) : option Snapshot :=
  match m_epochs m !! m_active m with
  | Some entry => if me_state entry != EpochReady then None else Some (me_snapshot entry)
  | None => None
  end.

Definition DrainActive (epoch : Z) (m : Manager) : option terror * Manager :=
  match m_epochs m !! epoch with
  | None => (Some ErrEpochNotFound, m)
  | Some entry =>
      if (me_state entry != EpochReady) || negb (m_active m =? epoch) then (Some ErrInvalidEpochTransition, m)
      else (None, set_routing 0 None (put_epoch epoch (with_state EpochDraining entry) m))
  end.

Definition Discard (epoch : Z) (m : Manager) : option terror * Manager :=
  match m_epochs m !! epoch with
  | None => (Some ErrEpochNotFound, m)
  | Some entry =>
      if me_state entry == EpochStopped then (None, m)
      else if (me_state entry != EpochStaging) || negb (me_leases entry =? 0)
      then (Some ErrInvalidEpochTransition, m)
      else (None, put_epoch epoch (with_state EpochStopped entry) m)
  end.

(** [None]: a channel is closed twice. *)
Definition release (epoch : Z) (m : Manager) : option Manager :=
  match m_epochs m !! epoch with
  | None => Some m
  | Some entry =>
      if me_leases entry =? 0 then Some m
      else
        let leases := u64_sub (me_leases entry) 1 in
        let m := put_epoch epoch (mkManaged (me_snapshot entry) (me_state entry) leases (me_idle entry)) m in
        if leases =? 0 then
          if closed (me_idle entry) m then None
          else Some (mkManager (m_epochs m) (m_active m) (m_maximum m) (m_traffic m)
                       (<[me_idle entry := true]> (m_chans m)))
        else Some m
  end.

(** * Runs *)
Record sys := mkSys { sy_manager : Manager; sy_leases : list Lease; sy_stops : list (Z * nat) }.

Inductive action :=
| DoStage (plan : Plan)
| DoReady (epoch : Z)
| DoDrain (epoch : Z)
| DoAcquire (routingKey : string)
| DoRelease (i : nat)
| DoDrainForShutdown (epoch : Z)
| DoDrainActive (epoch : Z)
| DoDiscard (epoch : Z)
| DoStop (epoch : Z)
| DoStopped (i : nat).

Definition mark_released (l : Lease) : Lease := mkLease (le_epoch l) (le_snapshot l) true.

Section runs.
  Context (math_log : spec_float → spec_float).

(** One step; a snapshot is staged as [Activate] made it, [DoStopped i] is the [i]-th waiting
    [Stop] passing its channel.  [None] is a panic. *)
Definition act (a : action) (s : sys) : option sys :=
  let m := sy_manager s in
  let manage x := Some (mkSys x (sy_leases s) (sy_stops s)) in
  match a with
  | DoStage plan =>
      match Activate plan with Ok snapshot => manage (snd (Stage snapshot m)) | Err _ => Some s end
  | DoReady epoch => manage (snd (Ready epoch m))
  | DoDrain epoch => manage (snd (Drain epoch m))
  | DoAcquire key =>
      match acquire math_log key m with
      | (Ok lease, m) => Some (mkSys m (sy_leases s ++ [lease]) (sy_stops s))
      | (Err _, m) => manage m
      end
  | DoRelease i =>
      match sy_leases s !! i with
      | Some lease =>
          if le_released lease then Some s
          else match release (le_epoch lease) m with
          | Some m => Some (mkSys m (<[i := mark_released lease]> (sy_leases s)) (sy_stops s))
          | None => None
          end
      | None => Some s
      end
  | DoDrainForShutdown epoch => manage (snd (DrainForShutdown epoch m))
  | DoDrainActive epoch => manage (snd (DrainActive epoch m))
  | DoDiscard epoch => manage (snd (Discard epoch m))
  | DoStop epoch =>
      match Stop_begin epoch m with
      | Ok (Some idle) => Some (mkSys m (sy_leases s) (sy_stops s ++ [(epoch, idle)]))
      | _ => Some s
      end
  | DoStopped i =>
      match sy_stops s !! i with
      | Some (epoch, idle) =>
          if closed idle m then
            match Stop_finish epoch m with Some (_, m) => manage m | None => None end
          else Some s
      | None => Some s
      end
  end.

Fixpoint acts (l : list action) (s : sys) : option sys :=
  match l with
  | [] => Some s
  | a :: l => act a s ≫= acts l
  end.

Definition start : sys := mkSys NewManager [] [].

(** Unreleased leases of an epoch. *)
Definition lives (epoch : Z) (l : Lease) : bool := (le_epoch l =? epoch) && negb (le_released l).
Definition live_leases (epoch : Z) (leases : list Lease) : Z := zlen (List.filter (lives epoch) leases).

Record entry_ok (maximum : Z) (chans : list bool) (leases : list Lease) (epoch : Z) (e : managedEpoch) : Prop :=
mk_entry_ok {
  eo_range : 1 ≤ epoch ≤ maximum;
  eo_epoch : sn_epoch (me_snapshot e) = epoch;
  eo_traffic : weights_typed (Traffic (me_snapshot e));
  eo_count : me_leases e = live_leases epoch leases;
  eo_idle : chans !! me_idle e = Some (me_leases e =? 0);
  eo_quiet : me_state e = EpochStaging ∨ me_state e = EpochStopped → me_leases e = 0
}.

(** Entries, channels and leases agree. *)
Record core_ok (epochs : gmap Z managedEpoch) (maximum : Z) (chans : list bool) (leases : list Lease)
    (stops : list (Z * nat)) : Prop := mk_core_ok {
  co_entries : ∀ epoch e, epochs !! epoch = Some e → entry_ok maximum chans leases epoch e;
  co_distinct : ∀ epoch e epoch' e', epochs !! epoch = Some e → epochs !! epoch' = Some e' →
    me_idle e = me_idle e' → epoch = epoch';
  co_maximum : 0 ≤ maximum;
  co_leases : ∀ l, l ∈ leases → ∃ e, epochs !! le_epoch l = Some e ∧ le_snapshot l = me_snapshot e;
  co_stops : ∀ epoch c, (epoch, c) ∈ stops → is_Some (epochs !! epoch)
}.

(** The active epoch is ready and has a table. *)
Definition route_ok (epochs : gmap Z managedEpoch) (active : Z) (traffic : option TrafficSelector) : Prop :=
  active = 0 ∧ traffic = None ∨
  ∃ e ts, epochs !! active = Some e ∧ me_state e = EpochReady ∧ traffic = Some ts ∧ table_ok (ts_weights ts).

Definition manager_ok (s : sys) : Prop :=
  let m := sy_manager s in
  core_ok (m_epochs m) (m_maximum m) (m_chans m) (sy_leases s) (sy_stops s) ∧
  route_ok (m_epochs m) (m_active m) (m_traffic m).

Lemma manager_start_ok : manager_ok start.
Proof. split; [constructor; cbn; set_solver|by left]. Qed.

Lemma live_leases_nonneg epoch leases : 0 ≤ live_leases epoch leases.
Proof. apply zlen_nonneg. Qed.

Lemma live_leases_app epoch leases l :
  live_leases epoch (leases ++ [l]) = live_leases epoch leases + (if lives epoch l then 1 else 0).
Proof.
  unfold live_leases. rewrite List.filter_app, zlen_app. cbn [List.filter]. by case_match.
Qed.

(** ** A change of one entry

    The entry keeps its snapshot; the channels and lease counts of the others are untouched. *)
Lemma core_replace epochs maximum chans leases stops epoch e e' chans' leases' :
  core_ok epochs maximum chans leases stops → epochs !! epoch = Some e → me_snapshot e' = me_snapshot e →
  entry_ok maximum chans' leases' epoch e' →
  (∀ p y, p ≠ epoch → epochs !! p = Some y → chans' !! me_idle y = chans !! me_idle y ∧
     live_leases p leases' = live_leases p leases ∧ me_idle e' ≠ me_idle y) →
  (∀ l, l ∈ leases' → (∃ l0, l0 ∈ leases ∧ le_epoch l0 = le_epoch l ∧ le_snapshot l0 = le_snapshot l) ∨
     le_epoch l = epoch ∧ le_snapshot l = me_snapshot e) →
  core_ok (<[epoch := e']> epochs) maximum chans' leases' stops.
Proof.
  intros [C1 C2 C3 C4 C5] He Hsnap Hok Hothers Hleases.
  constructor; [| |done| |].
  - intros p x. destruct (decide (p = epoch)) as [->|Hp].
    + rewrite lookup_insert_eq. by intros [= <-].
    + rewrite lookup_insert_ne by done. intros Hx. destruct (C1 p x Hx) as [E1 E2 E3 E4 E5 E6].
      destruct (Hothers p x Hp Hx) as (Hch & Hlive & _). constructor; congruence || done.
  - intros p x q y. destruct (decide (p = epoch)) as [->|Hp], (decide (q = epoch)) as [->|Hq];
      rewrite ?lookup_insert_eq, ?lookup_insert_ne by done; intros Hx Hy Hi; simplify_eq; try done.
    + by destruct (Hothers q y Hq Hy) as (_ & _ & ?).
    + by destruct (Hothers p x Hp Hx) as (_ & _ & ?).
    + by eapply C2.
  - intros l Hin.
    assert (Hl : ∃ y, epochs !! le_epoch l = Some y ∧ le_snapshot l = me_snapshot y).
    { destruct (Hleases l Hin) as [(l0 & Hl0 & <- & <-)|[-> ->]]; [by apply C4|eauto]. }
    destruct Hl as (y & Hy & Hs). destruct (decide (le_epoch l = epoch)) as [E|E].
    + exists e'. rewrite E, lookup_insert_eq. split; [done|]. rewrite E, He in Hy. simplify_eq. congruence.
    + exists y. by rewrite lookup_insert_ne.
  - intros p c Hin. destruct (C5 p c Hin) as [y Hy]. destruct (decide (p = epoch)) as [->|E].
    + rewrite lookup_insert_eq. eauto.
    + rewrite lookup_insert_ne by done. eauto.
Qed.

Lemma core_with_state epochs maximum chans leases stops epoch e st :
  core_ok epochs maximum chans leases stops → epochs !! epoch = Some e →
  (st = EpochStaging ∨ st = EpochStopped → me_leases e = 0) →
  core_ok (<[epoch := with_state st e]> epochs) maximum chans leases stops.
Proof.
  intros Hc He Hq. pose proof (co_entries _ _ _ _ _ Hc _ _ He) as [E1 E2 E3 E4 E5 _].
  apply (core_replace _ _ chans leases _ _ e); try done.
  - intros p y Hp Hy. split_and!; [done..|]. intros Hi. apply Hp. by eapply co_distinct.
  - intros l Hl. left. by exists l.
Qed.

(** The route survives a state change of an epoch other than the active one. *)
Lemma route_with_state epochs active traffic epoch e st :
  route_ok epochs active traffic → epochs !! epoch = Some e → st = EpochReady ∨ epoch ≠ active →
  route_ok (<[epoch := with_state st e]> epochs) active traffic.
Proof.
  intros [[-> ->]|(x & ts & Hx & Hr & -> & Ht)] He Hst; [by left|]. right.
  destruct (decide (active = epoch)) as [->|Hne].
  - exists (with_state st e), ts. rewrite lookup_insert_eq. destruct Hst as [->|]; [|done]. done.
  - exists x, ts. by rewrite lookup_insert_ne.
Qed.

Definition plan_typed (plan : Plan) : Prop :=
  is_u64 (pl_Epoch plan) ∧ ∀ ws, pl_Traffic plan = Some ws → weights_typed ws.
Definition action_typed (a : action) : Prop :=
  match a with DoStage plan => plan_typed plan | _ => True end.

Lemma activated_traffic plan s : plan_typed plan → Activate plan = Ok s →
  sn_epoch s = pl_Epoch plan ∧ weights_typed (Traffic s).
Proof.
  intros [He Hw] Hact. destruct (Activate_ok _ _ Hact) as (-> & _ & _). split; [done|].
  unfold Traffic. cbn. destruct (pl_Epoch plan =? 0); [intros w Hin; set_solver|].
  destruct (pl_Traffic plan) as [ws|] eqn:Ht; cbn.
  - eapply weights_typed_perm; [symmetry; apply sort_weights_perm|]. by apply Hw.
  - intros w ->%list_elem_of_singleton. cbn. split; [done|unfold TotalBasisPoints; lia].
Qed.

Lemma fresh_epoch epochs maximum chans leases stops epoch :
  core_ok epochs maximum chans leases stops → maximum < epoch → live_leases epoch leases = 0.
Proof.
  intros [C1 _ _ C4 _] Hm. apply count_none.
  intros l Hin. unfold lives. destruct (C4 l Hin) as (e & He & _).
  destruct (eo_range _ _ _ _ _ (C1 _ _ He)). apply andb_false_iff. left. apply Z.eqb_neq. lia.
Qed.

Lemma stage_ok s snapshot :
  manager_ok s → is_u64 (sn_epoch snapshot) → weights_typed (Traffic snapshot) →
  manager_ok (mkSys (snd (Stage snapshot (sy_manager s))) (sy_leases s) (sy_stops s)).
Proof.
  intros [Hc Hr] Hu Ht. unfold Stage. destruct (_ || _) eqn:E; [done|].
  destruct (Z.leb_spec (sn_epoch snapshot) (m_maximum (sy_manager s))) as [|Hgt]; [done|]. bool_hyps.
  unfold is_u64 in Hu. pose proof (fresh_epoch _ _ _ _ _ _ Hc Hgt) as Hfresh.
  set (m := sy_manager s) in *. set (epoch := sn_epoch snapshot) in *.
  assert (Hnew : m_epochs m !! epoch = None).
  { destruct (m_epochs m !! epoch) as [x|] eqn:Hx; [|done].
    destruct (eo_range _ _ _ _ _ (co_entries _ _ _ _ _ Hc _ _ Hx)). lia. }
  assert (Hidle : ∀ p x, m_epochs m !! p = Some x → (me_idle x < length (m_chans m))%nat).
  { intros p x Hx. eapply lookup_lt_Some, (eo_idle _ _ _ _ _ (co_entries _ _ _ _ _ Hc _ _ Hx)). }
  split; cbn.
  - destruct Hc as [C1 C2 C3 C4 C5]. constructor.
    + intros p x. destruct (decide (p = epoch)) as [->|Hp].
      * rewrite lookup_insert_eq. intros [= <-]. constructor; cbn; try done; [lia|].
        by rewrite lookup_app_r, Nat.sub_diag.
      * rewrite lookup_insert_ne by done. intros Hx. destruct (C1 p x Hx) as [E1 E2 E3 E4 E5 E6].
        constructor; try done; [lia|]. rewrite lookup_app_l; [done|by eapply Hidle].
    + intros p x q y. destruct (decide (p = epoch)) as [->|Hp], (decide (q = epoch)) as [->|Hq];
        rewrite ?lookup_insert_eq, ?lookup_insert_ne by done; intros Hx Hy Hi; simplify_eq/=; try done.
      * apply Hidle in Hy. lia.
      * apply Hidle in Hx. lia.
      * by eapply C2.
    + lia.
    + intros l Hin. destruct (C4 l Hin) as (y & Hy & Hs). exists y. rewrite lookup_insert_ne; [done|]. congruence.
    + intros p c Hin. destruct (C5 p c Hin) as [y Hy]. exists y. rewrite lookup_insert_ne; [done|]. congruence.
  - destruct Hr as [Hnone|(x & ts & Hx & Hst & Hts & Hok)]; [by left|]. right. exists x, ts.
    rewrite lookup_insert_ne; [done|]. intros E. congruence.
Qed.

Lemma ready_ok s epoch :
  manager_ok s → manager_ok (mkSys (snd (Ready epoch (sy_manager s))) (sy_leases s) (sy_stops s)).
Proof.
  intros [Hc Hr]. unfold Ready. destruct (m_epochs (sy_manager s) !! epoch) as [e|] eqn:He; [|done].
  destruct (_ || _) eqn:E; [done|]. destruct (NewTrafficSelector _) as [ts|] eqn:Hts; [|done].
  destruct (forallb (traffic_ready epoch (sy_manager s)) (ts_weights ts)); cbn [negb]; [|done]. bool_hyps.
  pose proof (co_entries _ _ _ _ _ Hc _ _ He) as Hentry. split; cbn.
  - apply core_with_state; [done..|]. by intros [|].
  - right. exists (with_state EpochReady e), ts. rewrite lookup_insert_eq. split_and!; try done.
    by destruct (NewTrafficSelector_ok _ _ (eo_traffic _ _ _ _ _ Hentry) Hts) as [-> Hok].
Qed.

(** Leaving the ready state is fine for an epoch that is not active, or when routing is reset. *)
Lemma drain_ok s epoch :
  manager_ok s → manager_ok (mkSys (snd (Drain epoch (sy_manager s))) (sy_leases s) (sy_stops s)).
Proof.
  intros [Hc Hr]. unfold Drain. destruct (m_epochs (sy_manager s) !! epoch) as [e|] eqn:He; [|done].
  destruct (me_state e != EpochReady); [done|].
  destruct (m_epochs (sy_manager s) !! m_active (sy_manager s)) as [x|]; [|done].
  destruct (_ || _) eqn:E; [done|]. destruct (routed epoch _); [done|]. bool_hyps. split; cbn.
  - apply core_with_state; [done..|]. by intros [|].
  - apply route_with_state; [done..|]. right. lia.
Qed.

Lemma shutdown_ok s epoch :
  manager_ok s → manager_ok (mkSys (snd (DrainForShutdown epoch (sy_manager s))) (sy_leases s) (sy_stops s)).
Proof.
  intros [Hc Hr]. unfold DrainForShutdown. destruct (m_epochs (sy_manager s) !! epoch) as [e|] eqn:He; [|done].
  destruct (me_state e != EpochReady); [done|]. cbn.
  assert (Hcore : core_ok (<[epoch := with_state EpochDraining e]> (m_epochs (sy_manager s))) (m_maximum (sy_manager s))
    (m_chans (sy_manager s)) (sy_leases s) (sy_stops s)) by (apply core_with_state; [done..|]; by intros [|]).
  destruct (Z.eqb_spec (m_active (sy_manager s)) epoch); split; cbn; try done; [by left|].
  apply route_with_state; [done..|]. right. congruence.
Qed.

Lemma drain_active_ok s epoch :
  manager_ok s → manager_ok (mkSys (snd (DrainActive epoch (sy_manager s))) (sy_leases s) (sy_stops s)).
Proof.
  intros [Hc Hr]. unfold DrainActive. destruct (m_epochs (sy_manager s) !! epoch) as [e|] eqn:He; [|done].
  destruct (_ || _); [done|]. split; cbn; [|by left]. apply core_with_state; [done..|]. by intros [|].
Qed.

Lemma discard_ok s epoch :
  manager_ok s → manager_ok (mkSys (snd (Discard epoch (sy_manager s))) (sy_leases s) (sy_stops s)).
Proof.
  intros [Hc Hr]. unfold Discard. destruct (m_epochs (sy_manager s) !! epoch) as [e|] eqn:He; [|done].
  destruct (me_state e == EpochStopped); [done|]. destruct (_ || _) eqn:E; [done|]. bool_hyps. split; cbn.
  - by apply core_with_state.
  - apply route_with_state; [done..|]. right. intros Ea.
    destruct Hr as [[E0 _]|(x & ts & Hx & Hst & _)]; [|congruence].
    destruct (eo_range _ _ _ _ _ (co_entries _ _ _ _ _ Hc _ _ He)). lia.
Qed.

Lemma stop_finish_ok s epoch answer m :
  manager_ok s → Stop_finish epoch (sy_manager s) = Some (answer, m) →
  manager_ok (mkSys m (sy_leases s) (sy_stops s)).
Proof.
  intros [Hc Hr]. unfold Stop_finish. destruct (m_epochs (sy_manager s) !! epoch) as [e|] eqn:He; [|done].
  destruct (me_state e == EpochStopped); [intros [= <- <-]; done|]. destruct (_ || _) eqn:E; intros [= <- <-]; [done|].
  bool_hyps. split; cbn.
  - by apply core_with_state.
  - apply route_with_state; [done..|]. right. intros Ea.
    destruct Hr as [[E0 _]|(x & ts & Hx & Hst & _)]; [|congruence].
    destruct (eo_range _ _ _ _ _ (co_entries _ _ _ _ _ Hc _ _ He)). lia.
Qed.

Lemma Select_weights key ts : ts_weights (snd (Select math_log key ts)) = ts_weights ts.
Proof. unfold Select. by repeat case_match. Qed.

(** The route survives a change of an entry that keeps the state. *)
Lemma route_replace epochs active traffic epoch e e' :
  route_ok epochs active traffic → epochs !! epoch = Some e → me_state e' = me_state e →
  route_ok (<[epoch := e']> epochs) active traffic.
Proof.
  intros [Hn|(x & ts & Hx & Hr & -> & Ht)] He Hst; [by left|]. right. destruct (decide (active = epoch)) as [->|Hne].
  - exists e', ts. rewrite lookup_insert_eq. split_and!; try done. congruence.
  - exists x, ts. by rewrite lookup_insert_ne.
Qed.

Lemma manager_acquire_ok s key :
  manager_ok s → zlen (sy_leases s) < max_u64 →
  match acquire math_log key (sy_manager s) with
  | (Ok lease, m) => manager_ok (mkSys m (sy_leases s ++ [lease]) (sy_stops s)) ∧
      (∃ e, m_epochs (sy_manager s) !! le_epoch lease = Some e ∧ me_state e = EpochReady ∧
         le_snapshot lease = me_snapshot e) ∧ le_released lease = false
  | (Err _, m) => manager_ok (mkSys m (sy_leases s) (sy_stops s))
  end.
Proof.
  intros [Hc Hr] Hroom. unfold acquire. destruct (m_traffic (sy_manager s)) as [ts|] eqn:Hts.
  2:{ split; cbn; [done|by rewrite Hts]. }
  pose proof (Select_weights key ts) as Hw. destruct (Select math_log key ts) as [selected ts']. cbn in Hw.
  assert (Hr' : route_ok (m_epochs (sy_manager s)) (m_active (sy_manager s)) (Some ts')).
  { destruct Hr as [[_ ?]|(x & ts0 & Hx & Hst & [= <-] & Htab)]; [done|]. right. exists x, ts'. by rewrite Hw. }
  destruct selected as [epoch|]; [|done]. cbn [set_routing m_epochs m_chans m_active m_maximum m_traffic].
  destruct (m_epochs (sy_manager s) !! epoch) as [e|] eqn:He; [|done].
  destruct (me_state e == EpochReady) eqn:Hst; cbn [negb]; [|done]. bool_hyps.
  pose proof (co_entries _ _ _ _ _ Hc _ _ He) as [E1 E2 E3 E4 E5 E6].
  assert (Hcount : 0 ≤ me_leases e < max_u64).
  { rewrite E4. unfold live_leases, zlen. pose proof (List.filter_length_le (lives epoch) (sy_leases s)).
    unfold zlen in Hroom. lia. }
  rewrite u64_add_small by lia. split; [|by split; [exists e|]]. split; cbn.
  2:{ by eapply route_replace. }
  apply (core_replace _ _ (m_chans (sy_manager s)) (sy_leases s) _ _ e); try done.
  - constructor; cbn; try done.
    + rewrite live_leases_app, <- E4. unfold lives. cbn. by rewrite Z.eqb_refl.
    + rewrite (proj2 (Z.eqb_neq (me_leases e + 1) 0)) by lia.
      destruct (Z.eqb_spec (me_leases e) 0) as [E|E].
      * by rewrite lookup_app_r, Nat.sub_diag.
      * by rewrite E5.
    + rewrite Hst. by intros [|].
  - intros p y Hp Hy. pose proof (eo_idle _ _ _ _ _ (co_entries _ _ _ _ _ Hc _ _ Hy)) as Hidle.
    pose proof (lookup_lt_Some _ _ _ Hidle). split_and!.
    + destruct (me_leases e =? 0); [|done]. by rewrite lookup_app_l.
    + rewrite live_leases_app. unfold lives. cbn. rewrite (proj2 (Z.eqb_neq epoch p)) by done. cbn. lia.
    + cbn. destruct (me_leases e =? 0); [lia|]. intros Hi. apply Hp. by eapply co_distinct.
  - intros l [Hl| ->%list_elem_of_singleton]%elem_of_app; [left; by exists l|right; done].
Qed.

Lemma live_leases_release epoch leases i l :
  leases !! i = Some l → le_released l = false →
  live_leases epoch (<[i := mark_released l]> leases) =
  live_leases epoch leases - (if le_epoch l =? epoch then 1 else 0).
Proof.
  intros Hi Hr. unfold live_leases. pose proof (count_insert (lives epoch) leases i l (mark_released l) Hi) as Hn.
  unfold lives at 2 4 in Hn. cbn in Hn. rewrite Hr, andb_false_r, andb_true_r in Hn.
  destruct (le_epoch l =? epoch); cbn in Hn; lia.
Qed.

Lemma manager_release_ok s i l :
  manager_ok s → zlen (sy_leases s) ≤ max_u64 → sy_leases s !! i = Some l → le_released l = false →
  ∃ m, release (le_epoch l) (sy_manager s) = Some m ∧
    manager_ok (mkSys m (<[i := mark_released l]> (sy_leases s)) (sy_stops s)).
Proof.
  intros [Hc Hr] Hroom Hi Hlive. destruct (co_leases _ _ _ _ _ Hc l) as (e & He & Hsnap);
    [by eapply list_elem_of_lookup_2|].
  pose proof (co_entries _ _ _ _ _ Hc _ _ He) as [E1 E2 E3 E4 E5 E6].
  set (epoch := le_epoch l) in *.
  assert (Hpos : 0 < me_leases e ≤ max_u64).
  { rewrite E4. pose proof (List.filter_length_le (lives epoch) (sy_leases s)) as Hle. split.
    - apply count_pos. exists l. split; [by eapply list_elem_of_lookup_2|]. unfold lives. by rewrite Z.eqb_refl, Hlive.
    - unfold live_leases, zlen in *. lia. }
  unfold release. rewrite He, (proj2 (Z.eqb_neq (me_leases e) 0)) by lia. rewrite u64_sub_small by lia.
  set (e' := mkManaged (me_snapshot e) (me_state e) (me_leases e - 1) (me_idle e)).
  set (leases' := <[i := mark_released l]> (sy_leases s)).
  assert (Hcore : ∀ chans', (∀ p y, p ≠ epoch → m_epochs (sy_manager s) !! p = Some y →
      chans' !! me_idle y = m_chans (sy_manager s) !! me_idle y) →
    chans' !! me_idle e = Some (me_leases e - 1 =? 0) →
    core_ok (<[epoch := e']> (m_epochs (sy_manager s))) (m_maximum (sy_manager s)) chans' leases' (sy_stops s)).
  { intros chans' Hch Hidle. apply (core_replace _ _ (m_chans (sy_manager s)) (sy_leases s) _ _ e); try done.
    - constructor; cbn; try done.
      + unfold leases'. rewrite live_leases_release by done. fold epoch. rewrite Z.eqb_refl. lia.
      + intros Hq. specialize (E6 Hq). lia.
    - intros p y Hp Hy. split_and!; [by eapply Hch| |].
      + unfold leases'. rewrite live_leases_release by done. fold epoch.
        rewrite (proj2 (Z.eqb_neq epoch p)) by done. lia.
      + cbn. intros Hi'. apply Hp. by eapply co_distinct.
    - intros x Hx. left. apply list_elem_of_lookup in Hx as [j Hj].
      apply list_lookup_insert_Some in Hj as [(-> & <- & _)|[_ Hj]].
      + exists l. split_and!; [by eapply list_elem_of_lookup_2|done..].
      + exists x. split; [by eapply list_elem_of_lookup_2|done]. }
  assert (Hroute : route_ok (<[epoch := e']> (m_epochs (sy_manager s))) (m_active (sy_manager s)) (m_traffic (sy_manager s)))
    by (by eapply route_replace).
  rewrite (proj2 (Z.eqb_neq (me_leases e) 0)) in E5 by lia.
  destruct (Z.eqb_spec (me_leases e - 1) 0) as [Hz|Hz].
  - unfold closed. cbn [put_epoch m_chans]. rewrite E5. cbn. eexists. split; [done|]. split; cbn; [|done].
    apply Hcore.
    + intros p y Hp Hy. apply list_lookup_insert_ne. intros Hi'. apply Hp. by eapply co_distinct.
    + apply list_lookup_insert_eq. by eapply lookup_lt_Some.
  - eexists. split; [done|]. split; cbn; [|done]. apply Hcore; [done|done].
Qed.

Lemma act_ok a s :
  manager_ok s → action_typed a → zlen (sy_leases s) < max_u64 → ∃ s', act a s = Some s' ∧ manager_ok s' ∧
    zlen (sy_leases s) ≤ zlen (sy_leases s') ≤ zlen (sy_leases s) + 1.
Proof.
  intros Hok Ht Hroom.
  assert (Hm : ∀ m, manager_ok (mkSys m (sy_leases s) (sy_stops s)) → ∃ s',
    Some (mkSys m (sy_leases s) (sy_stops s)) = Some s' ∧ manager_ok s' ∧
    zlen (sy_leases s) ≤ zlen (sy_leases s') ≤ zlen (sy_leases s) + 1).
  { intros m H. eexists. split_and!; [done|done|cbn; lia..]. }
  assert (Hs : ∃ s', Some s = Some s' ∧ manager_ok s' ∧
    zlen (sy_leases s) ≤ zlen (sy_leases s') ≤ zlen (sy_leases s) + 1) by (eexists; split_and!; done || lia).
  destruct a as [plan|e|e|key|i|e|e|e|e|i]; cbn [act].
  - destruct (Activate plan) as [snapshot|] eqn:Ha; [|done].
    destruct (activated_traffic _ _ Ht Ha) as [He Hw]. apply Hm, stage_ok; [done| |done]. rewrite He. apply Ht.
  - apply Hm. by apply ready_ok.
  - apply Hm. by apply drain_ok.
  - pose proof (manager_acquire_ok s key Hok Hroom) as Hacq. destruct (acquire math_log key (sy_manager s)) as [[lease|] m].
    + destruct Hacq as [Hacq _]. eexists. split_and!; [done|done|..]; cbn; rewrite zlen_app; change (zlen [_]) with 1; lia.
    + by apply Hm.
  - destruct (sy_leases s !! i) as [l|] eqn:Hi; [|done]. destruct (le_released l) eqn:Hr; [done|].
    destruct (manager_release_ok s i l Hok ltac:(lia) Hi Hr) as (m & -> & Hok'). eexists.
    split_and!; [done|done|..]; cbn; unfold zlen; rewrite length_insert; lia.
  - apply Hm. by apply shutdown_ok.
  - apply Hm. by apply drain_active_ok.
  - apply Hm. by apply discard_ok.
  - destruct (Stop_begin e (sy_manager s)) as [[c|]|] eqn:Hst; [|done..]. eexists. split_and!; [done| |cbn; lia..].
    destruct Hok as [[C1 C2 C3 C4 C5] Hr]. split; [|done]. constructor; cbn; try done.
    intros p x [Hin|[= -> ->]%list_elem_of_singleton]%elem_of_app; [by eapply C5|].
    revert Hst. unfold Stop_begin. by destruct (m_epochs (sy_manager s) !! e).
  - destruct (sy_stops s !! i) as [[e c]|] eqn:Hi; [|done]. destruct (closed c (sy_manager s)); [|done].
    destruct (co_stops _ _ _ _ _ (proj1 Hok) e c) as [x Hx]; [by eapply list_elem_of_lookup_2|].
    destruct (Stop_finish e (sy_manager s)) as [[answer m]|] eqn:Hf.
    + apply Hm. by eapply stop_finish_ok.
    + revert Hf. unfold Stop_finish. by rewrite Hx.
Qed.

Lemma acts_manager_ok l s :
  manager_ok s → Forall action_typed l → zlen (sy_leases s) + zlen l ≤ max_u64 →
  ∃ s', acts l s = Some s' ∧ manager_ok s' ∧ zlen (sy_leases s') ≤ zlen (sy_leases s) + zlen l.
Proof.
  induction l as [|a l IH] in s |- *; intros Hok Ht Hroom; [exists s; split_and!; [done..|unfold zlen; cbn; lia]|].
  rewrite zlen_cons in *.
  pose proof (zlen_nonneg l). apply Forall_cons in Ht as [Ha Ht].
  destruct (act_ok a s Hok Ha ltac:(lia)) as (s1 & Hs1 & Hok1 & Hlen). cbn [acts]. rewrite Hs1. cbn.
  destruct (IH s1 Hok1 Ht ltac:(lia)) as (s2 & Hs2 & Hok2 & Hsize). exists s2. split_and!; [done..|lia].
Qed.

Lemma acts_app l k s : acts (l ++ k) s = acts l s ≫= acts k.
Proof. induction l as [|a l IH] in s |- *; cbn; [done|]. destruct (act a s); cbn; [apply IH|done]. Qed.

(** ** Draining *)
Definition retiring (e : managedEpoch) : Prop := me_state e = EpochDraining ∨ me_state e = EpochStopped.
(** The leases ever issued for an epoch. *)
Definition issued (epoch : Z) (leases : list Lease) : Z := zlen (List.filter (λ l, le_epoch l =? epoch) leases).

(** What no operation changes of an epoch that is retiring. *)
Definition retires (e e' : managedEpoch) : Prop :=
  retiring e' ∧ me_snapshot e' = me_snapshot e ∧ me_idle e' = me_idle e ∧
  (me_state e = EpochStopped → me_state e' = EpochStopped).

Definition still_retiring (epoch : Z) (e : managedEpoch) (m : Manager) : Prop :=
  ∃ e', m_epochs m !! epoch = Some e' ∧ retires e e'.

Lemma retires_refl e : retiring e → retires e e.
Proof. by intros H; split_and!. Qed.

Lemma retires_trans e e' e'' : retires e e' → retires e' e'' → retires e e''.
Proof. intros (_ & ? & ? & H) (? & ? & ? & H'). split_and!; try congruence || done. auto. Qed.

(** Every operation replaces the entry of one epoch, which is not retiring or stays so. *)
Lemma put_retiring epochs epoch e p x x' :
  epochs !! epoch = Some e → retiring e → epochs !! p = Some x → (retiring x → retires x x') →
  ∃ e', (<[p := x']> epochs : gmap Z managedEpoch) !! epoch = Some e' ∧ retires e e'.
Proof.
  intros He Hr Hx Hx'. destruct (decide (p = epoch)) as [->|Hp].
  - exists x'. rewrite lookup_insert_eq. simplify_eq. auto.
  - exists e. rewrite lookup_insert_ne by done. split; [done|by apply retires_refl].
Qed.

Ltac keep_retiring := first
  [ by eexists; split; [eassumption|apply retires_refl; assumption]
  | eapply put_retiring; [eassumption..|]; intros [|]; congruence || by split_and!; auto ].

Lemma act_retiring a s s' epoch e :
  manager_ok s → m_epochs (sy_manager s) !! epoch = Some e → retiring e → act a s = Some s' →
  still_retiring epoch e (sy_manager s') ∧ issued epoch (sy_leases s') = issued epoch (sy_leases s).
Proof.
  intros [Hc _] He Hr. unfold still_retiring.
  assert (Hsame : ∃ e', m_epochs (sy_manager s) !! epoch = Some e' ∧ retires e e') by keep_retiring.
  destruct a as [plan|p|p|key|i|p|p|p|p|i]; cbn [act].
  - destruct (Activate plan) as [snap|]; intros [= <-]; [|done]. split; [|done]. cbn. unfold Stage.
    destruct (_ || _); [done|]. destruct (Z.leb_spec (sn_epoch snap) (m_maximum (sy_manager s))); [done|]. cbn.
    rewrite lookup_insert_ne; [done|]. intros <-.
    destruct (eo_range _ _ _ _ _ (co_entries _ _ _ _ _ Hc _ _ He)). lia.
  - intros [= <-]. split; [|done]. cbn. unfold Ready. destruct (m_epochs (sy_manager s) !! p) as [x|] eqn:Hx; [|done].
    destruct (_ || _) eqn:E; [done|]. destruct (NewTrafficSelector _); [|done].
    destruct (forallb _ _); cbn [negb]; [|done]. bool_hyps. cbn. keep_retiring.
  - intros [= <-]. split; [|done]. cbn. unfold Drain. destruct (m_epochs (sy_manager s) !! p) as [x|] eqn:Hx; [|done].
    destruct (me_state x != EpochReady) eqn:E; [done|]. bool_hyps.
    destruct (if m_epochs (sy_manager s) !! m_active (sy_manager s) is Some _ then _ else _); [done|].
    destruct (routed p _); [done|]. cbn. keep_retiring.
  - unfold acquire. destruct (m_traffic (sy_manager s)) as [ts|]; [|by intros [= <-]].
    destruct (Select math_log key ts) as [[p|] ts']; [|by intros [= <-]]. cbn [set_routing m_epochs m_chans].
    destruct (m_epochs (sy_manager s) !! p) as [x|] eqn:Hx; [|by intros [= <-]].
    destruct (me_state x == EpochReady) eqn:E; cbn [negb]; intros [= <-]; [|done]. bool_hyps. split; cbn; [keep_retiring|].
    unfold issued. rewrite List.filter_app, zlen_app. cbn [List.filter le_epoch].
    destruct (Z.eqb_spec p epoch) as [->|]; [|unfold zlen; cbn; lia]. destruct Hr; congruence.
  - destruct (sy_leases s !! i) as [l|] eqn:Hi; [|by intros [= <-]]. destruct (le_released l); [by intros [= <-]|].
    destruct (release (le_epoch l) (sy_manager s)) as [m|] eqn:Hrel; intros [= <-]. split; cbn.
    + revert Hrel. unfold release. destruct (m_epochs (sy_manager s) !! le_epoch l) as [x|] eqn:Hx; [|by intros [= <-]].
      destruct (me_leases x =? 0); [by intros [= <-]|]. destruct (_ =? 0); [destruct (closed _ _); [done|]|]; intros [= <-];
        cbn; (eapply put_retiring; [done..|]); intros; by split_and!.
    + unfold issued. pose proof (count_insert (λ l, le_epoch l =? epoch) _ _ _ (mark_released l) Hi) as Hn.
      cbn in Hn. lia.
  - intros [= <-]. split; [|done]. cbn. unfold DrainForShutdown.
    destruct (m_epochs (sy_manager s) !! p) as [x|] eqn:Hx; [|done].
    destruct (me_state x != EpochReady) eqn:E; [done|]. bool_hyps. cbn. case_match; cbn; keep_retiring.
  - intros [= <-]. split; [|done]. cbn. unfold DrainActive.
    destruct (m_epochs (sy_manager s) !! p) as [x|] eqn:Hx; [|done].
    destruct (_ || _) eqn:E; [done|]. bool_hyps. cbn. keep_retiring.
  - intros [= <-]. split; [|done]. cbn. unfold Discard.
    destruct (m_epochs (sy_manager s) !! p) as [x|] eqn:Hx; [|done].
    destruct (me_state x == EpochStopped); [done|]. destruct (_ || _) eqn:E; [done|]. bool_hyps. cbn. keep_retiring.
  - destruct (Stop_begin p (sy_manager s)) as [[c|]|]; intros [= <-]; done.
  - destruct (sy_stops s !! i) as [[p c]|]; [|by intros [= <-]]. destruct (closed c (sy_manager s)); [|by intros [= <-]].
    unfold Stop_finish. destruct (m_epochs (sy_manager s) !! p) as [x|] eqn:Hx; [|done].
    destruct (me_state x == EpochStopped) eqn:E1; [by intros [= <-]|].
    destruct (_ || _) eqn:E; intros [= <-]; [done|]. bool_hyps. split; [|done]. cbn.
    eapply put_retiring; [done..|]. intros _. split_and!; try done. by right.
Qed.

Lemma acts_retiring l s s' epoch e :
  manager_ok s → Forall action_typed l → zlen (sy_leases s) + zlen l ≤ max_u64 →
  m_epochs (sy_manager s) !! epoch = Some e → retiring e → acts l s = Some s' →
  still_retiring epoch e (sy_manager s') ∧ issued epoch (sy_leases s') = issued epoch (sy_leases s).
Proof.
  induction l as [|a l IH] in s, e |- *; intros Hok Ht Hroom He Hr Hacts.
  - injection Hacts as <-. split; [|done]. exists e. split; [done|by apply retires_refl].
  - rewrite zlen_cons in Hroom. pose proof (zlen_nonneg l). apply Forall_cons in Ht as [Ha Ht].
    destruct (act_ok a s Hok Ha ltac:(lia)) as (s1 & Hs1 & Hok1 & Hlen). cbn [acts] in Hacts. rewrite Hs1 in Hacts.
    destruct (act_retiring _ _ _ _ _ Hok He Hr Hs1) as [(e1 & He1 & Hret) Hiss].
    destruct (IH s1 e1 Hok1 Ht ltac:(lia) He1 (proj1 Hret) Hacts) as [(e2 & He2 & Hret') Hiss'].
    split; [|congruence]. exists e2. split; [done|by eapply retires_trans].
Qed.

(** ** Routing *)
Definition routes_ready (epochs : gmap Z managedEpoch) (traffic : option TrafficSelector) : Prop :=
  ∀ ts w, traffic = Some ts → w ∈ ts_weights ts → 0 < ew_BasisPoints w →
  ∃ e, epochs !! ew_Epoch w = Some e ∧ me_state e = EpochReady.

(** Replacing an entry keeps the routes when it stays ready or no route leads to it. *)
Lemma routes_put epochs traffic p x x' :
  routes_ready epochs traffic → epochs !! p = Some x →
  (me_state x = EpochReady → me_state x' = EpochReady ∨
     ∀ ts w, traffic = Some ts → w ∈ ts_weights ts → 0 < ew_BasisPoints w → ew_Epoch w ≠ p) →
  routes_ready (<[p := x']> epochs) traffic.
Proof.
  intros Hr Hx Hst ts w Hts Hw Hpos. destruct (Hr ts w Hts Hw Hpos) as (e & He & Hready).
  destruct (decide (p = ew_Epoch w)) as [->|Hp]; [|exists e; by rewrite lookup_insert_ne].
  simplify_eq. destruct (Hst Hready) as [Hx'|Hno]; [|by destruct (Hno ts w)].
  exists x'. by rewrite lookup_insert_eq.
Qed.

(** [Ready] checks that the table leads to ready epochs only. *)
Lemma ready_routes m epoch entry ts :
  m_epochs m !! epoch = Some entry → forallb (traffic_ready epoch m) (ts_weights ts) = true →
  routes_ready (<[epoch := with_state EpochReady entry]> (m_epochs m)) (Some ts).
Proof.
  intros He Hall ts' w [= <-] Hw Hpos. rewrite forallb_forall in Hall.
  specialize (Hall w (proj1 (list_elem_of_In _ _) Hw)). unfold traffic_ready in Hall.
  destruct (decide (epoch = ew_Epoch w)) as [->|Hne].
  - eexists. by rewrite lookup_insert_eq.
  - rewrite lookup_insert_ne by done. apply orb_true_iff in Hall as [Hall|Hall]; [bool_hyps; lia|].
    destruct (m_epochs m !! ew_Epoch w) as [x|]; [|done]. bool_hyps. by exists x.
Qed.

(** [Drain] refuses an epoch that the table leads to. *)
Lemma not_routed m epoch :
  (∀ ts, m_traffic m = Some ts → table_ok (ts_weights ts)) → routed epoch m = false →
  ∀ ts w, m_traffic m = Some ts → w ∈ ts_weights ts → 0 < ew_BasisPoints w → ew_Epoch w ≠ epoch.
Proof.
  intros Htab Hno ts w Hts Hw Hpos <-. unfold routed in Hno. rewrite Hts in Hno. destruct ts as [ws r].
  rewrite (BasisPoints_weight _ _ _ (Htab _ Hts) Hw) in Hno. bool_hyps. lia.
Qed.

Definition no_shutdown (a : action) : Prop := match a with DoDrainForShutdown _ => False | _ => True end.

Lemma act_routes a s s' :
  manager_ok s → no_shutdown a → routes_ready (m_epochs (sy_manager s)) (m_traffic (sy_manager s)) →
  act a s = Some s' → routes_ready (m_epochs (sy_manager s')) (m_traffic (sy_manager s')).
Proof.
  intros [Hc Hroute] Hno Hr. set (m := sy_manager s) in *.
  assert (Htab : ∀ ts, m_traffic m = Some ts → table_ok (ts_weights ts)).
  { intros ts Hts. destruct Hroute as [[_ Hn]|(x & ts0 & _ & _ & Hts0 & Hok)]; congruence. }
  destruct a as [plan|p|p|key|i|p|p|p|p|i]; cbn [act]; fold m; try done.
  - destruct (Activate plan) as [snap|]; intros [= <-]; [|done]. cbn. unfold Stage.
    destruct (_ || _); [done|]. destruct (Z.leb_spec (sn_epoch snap) (m_maximum m)); [done|]. cbn.
    intros ts w Hts Hw Hpos. destruct (Hr ts w Hts Hw Hpos) as (e & He & Hst). exists e.
    rewrite lookup_insert_ne; [done|]. intros E. rewrite <- E in He.
    destruct (eo_range _ _ _ _ _ (co_entries _ _ _ _ _ Hc _ _ He)). lia.
  - intros [= <-]. cbn. unfold Ready. destruct (m_epochs m !! p) as [x|] eqn:Hx; [|done].
    destruct (_ || _); [done|]. destruct (NewTrafficSelector _) as [ts|]; [|done].
    destruct (forallb _ _) eqn:Hall; cbn [negb]; [|done]. by apply ready_routes.
  - intros [= <-]. cbn. unfold Drain. destruct (m_epochs m !! p) as [x|] eqn:Hx; [|done].
    destruct (me_state x != EpochReady) eqn:E; [done|].
    destruct (if m_epochs m !! m_active m is Some _ then _ else _); [done|].
    destruct (routed p m) eqn:Hrt; [done|]. cbn. eapply routes_put; [done..|]. intros _. right.
    by apply not_routed.
  - unfold acquire. destruct (m_traffic m) as [ts|] eqn:Hts; [|intros [= <-]; cbn; by rewrite Hts].
    pose proof (Select_weights key ts) as Hw. destruct (Select math_log key ts) as [sel ts']. cbn in Hw.
    assert (Hr' : routes_ready (m_epochs m) (Some ts')).
    { intros ts0 w [= <-] Hin. rewrite Hw in Hin. by apply (Hr ts w). }
    destruct sel as [p|]; [|by intros [= <-]]. cbn [set_routing m_epochs m_chans].
    destruct (m_epochs m !! p) as [x|] eqn:Hx; [|by intros [= <-]].
    destruct (me_state x == EpochReady) eqn:E; cbn [negb]; intros [= <-]; [|done]. cbn.
    eapply routes_put; [done..|]. by left.
  - destruct (sy_leases s !! i) as [l|]; [|by intros [= <-]]. destruct (le_released l); [by intros [= <-]|].
    destruct (release (le_epoch l) m) as [m'|] eqn:Hrel; intros [= <-]. cbn. revert Hrel. unfold release.
    destruct (m_epochs m !! le_epoch l) as [x|] eqn:Hx; [|by intros [= <-]].
    destruct (me_leases x =? 0); [by intros [= <-]|]. destruct (_ =? 0); [destruct (closed _ _); [done|]|]; intros [= <-];
      cbn; (eapply routes_put; [done..|]); by left.
  - intros [= <-]. cbn. unfold DrainActive. destruct (m_epochs m !! p); [|done]. by destruct (_ || _).
  - intros [= <-]. cbn. unfold Discard. destruct (m_epochs m !! p) as [x|] eqn:Hx; [|done].
    destruct (me_state x == EpochStopped); [done|]. destruct (_ || _) eqn:E; [done|]. bool_hyps. cbn.
    eapply routes_put; [done..|]. congruence.
  - destruct (Stop_begin p m) as [[c|]|]; by intros [= <-].
  - destruct (sy_stops s !! i) as [[p c]|]; [|by intros [= <-]]. destruct (closed c m); [|by intros [= <-]].
    unfold Stop_finish. destruct (m_epochs m !! p) as [x|] eqn:Hx; [|done].
    destruct (me_state x == EpochStopped) eqn:E1; [by intros [= <-]|].
    destruct (_ || _) eqn:E; intros [= <-]; [done|]. bool_hyps. cbn. eapply routes_put; [done..|]. congruence.
Qed.

Lemma acts_routes l s s' :
  manager_ok s → Forall action_typed l → Forall no_shutdown l → zlen (sy_leases s) + zlen l ≤ max_u64 →
  routes_ready (m_epochs (sy_manager s)) (m_traffic (sy_manager s)) → acts l s = Some s' →
  routes_ready (m_epochs (sy_manager s')) (m_traffic (sy_manager s')).
Proof.
  induction l as [|a l IH] in s |- *; intros Hok Ht Hno Hroom Hr Hacts; [by injection Hacts as <-|].
  rewrite zlen_cons in Hroom. pose proof (zlen_nonneg l).
  apply Forall_cons in Ht as [Ha Ht]. apply Forall_cons in Hno as [Hna Hno].
  destruct (act_ok a s Hok Ha ltac:(lia)) as (s1 & Hs1 & Hok1 & Hlen). cbn [acts] in Hacts. rewrite Hs1 in Hacts.
  apply (IH s1); try done; [lia|]. by apply (act_routes a s).
Qed.
End runs.

(** C12: the epoch manager's books balance.  However staging, promotion, draining, stopping,
    discarding, leasing and releasing interleave (up to 2^64 - 1 steps), nothing panics: in
    particular no idle channel is closed twice.  The lease count of every epoch is the number of
    its leases not yet released, its idle channel is closed exactly when that is 0, staged and
    stopped epochs have none, and each lease pins the very snapshot that was staged under its
    epoch. *)
Theorem manager_accounting math_log l :
  Forall action_typed l → zlen l ≤ max_u64 →
  ∃ s, acts math_log l start = Some s ∧
    (∀ epoch e, m_epochs (sy_manager s) !! epoch = Some e →
       sn_epoch (me_snapshot e) = epoch ∧
       me_leases e = live_leases epoch (sy_leases s) ∧
       closed (me_idle e) (sy_manager s) = (live_leases epoch (sy_leases s) =? 0) ∧
       (me_state e = EpochStaging ∨ me_state e = EpochStopped → live_leases epoch (sy_leases s) = 0)) ∧
    (∀ lease, lease ∈ sy_leases s →
       ∃ e, m_epochs (sy_manager s) !! le_epoch lease = Some e ∧ le_snapshot lease = me_snapshot e).
Proof.
  intros Ht Hlen. destruct (acts_manager_ok math_log l start manager_start_ok Ht) as (s & Hs & [Hc _] & _); [done|].
  exists s. split_and!; [done| |apply Hc]. intros epoch e He.
  destruct (co_entries _ _ _ _ _ Hc _ _ He) as [_ E2 _ E4 E5 E6]. rewrite <- E4. split_and!; try done.
  unfold closed. by rewrite E5.
Qed.

(** retiring an epoch is final and completes.  Once an epoch drains or has stopped, whatever
    happens next it never serves again and no further lease is issued for it; a stopped epoch
    stays stopped with no live lease; and a caller of [Stop] who got the idle channel of the
    draining epoch finds that channel closed as soon as the leases still out have been released,
    and then stops the epoch without an error. *)
Theorem retiring_is_final math_log l k s s' epoch e :
  Forall action_typed (l ++ k) → zlen (l ++ k) ≤ max_u64 →
  acts math_log l start = Some s → m_epochs (sy_manager s) !! epoch = Some e →
  me_state e = EpochDraining ∨ me_state e = EpochStopped →
  acts math_log k s = Some s' →
  (State epoch (sy_manager s') = Some EpochDraining ∧ me_state e = EpochDraining ∨
   State epoch (sy_manager s') = Some EpochStopped ∧ live_leases epoch (sy_leases s') = 0) ∧
  issued epoch (sy_leases s') = issued epoch (sy_leases s) ∧
  (live_leases epoch (sy_leases s') = 0 →
     closed (me_idle e) (sy_manager s') = true ∧
     ∃ m, Stop_finish epoch (sy_manager s') = Some (None, m) ∧ State epoch m = Some EpochStopped).
Proof.
  intros Ht Hlen Hl He Hst Hk. rewrite zlen_app in Hlen. pose proof (zlen_nonneg k).
  apply Forall_app in Ht as [Htl Htk].
  destruct (acts_manager_ok math_log l start manager_start_ok Htl) as (s0 & Hs0 & Hok & Hsize);
    [change (zlen (sy_leases start)) with 0; lia|]. simplify_eq.
  assert (Hroom : zlen (sy_leases s) + zlen k ≤ max_u64) by (change (zlen (sy_leases start)) with 0 in Hsize; lia).
  destruct (acts_manager_ok math_log k s Hok Htk Hroom) as (s1 & Hs1 & [Hc _] & _). simplify_eq.
  destruct (acts_retiring math_log k s s' epoch e Hok Htk Hroom He Hst Hk) as [(e' & He' & Hr & _ & Hidle & Hstop) Hiss].
  destruct (co_entries _ _ _ _ _ Hc _ _ He') as [_ _ _ E4 E5 E6]. unfold State. rewrite He'. cbn. split_and!; [|done|].
  - destruct Hr as [Hr|Hr]; rewrite Hr; [left|right; rewrite <- E4; auto].
    destruct Hst as [|Hst]; [done|]. specialize (Hstop Hst). congruence.
  - intros Hz. rewrite E4, Hz in E5. split; [unfold closed; by rewrite <- Hidle, E5|].
    unfold Stop_finish. rewrite He'. destruct (me_state e' == EpochStopped) eqn:E; bool_hyps.
    + eexists. split; [done|]. rewrite He'. cbn. by rewrite E.
    + destruct Hr as [Hr|Hr]; [|done]. rewrite E4, Hz, Hr. eexists. split; [done|]. cbn. by rewrite lookup_insert_eq.
Qed.

(** C25: rollouts never leave calls without an epoch.  As long as nobody uses the shutdown drain,
    whenever an epoch is being routed to at all, every call, with a routing key or without, is given
    a lease on an epoch that is ready and has a positive weight in the current table.  With a key
    this relies on [math.Log] being a number, of moderate size, for positive arguments. *)
Theorem rollout_available math_log l s ts routingKey :
  Forall action_typed l → Forall no_shutdown l → zlen l < max_u64 → (routingKey ≠ "" → natural_log math_log) →
  acts math_log l start = Some s → m_traffic (sy_manager s) = Some ts →
  ∃ lease m e w, AcquireKey math_log routingKey (sy_manager s) = (Ok lease, m) ∧
    m_epochs (sy_manager s) !! le_epoch lease = Some e ∧ me_state e = EpochReady ∧
    le_snapshot lease = me_snapshot e ∧
    w ∈ ts_weights ts ∧ ew_Epoch w = le_epoch lease ∧ 0 < ew_BasisPoints w.
Proof.
  intros Ht Hno Hlen Hlog Hl Hts.
  destruct (acts_manager_ok math_log l start manager_start_ok Ht) as (s0 & Hs0 & Hok & Hsize);
    [change (zlen (sy_leases start)) with 0; lia|]. simplify_eq.
  assert (Hr : routes_ready (m_epochs (sy_manager s)) (m_traffic (sy_manager s))).
  { apply (acts_routes math_log l start); try done; [apply manager_start_ok|change (zlen (sy_leases start)) with 0; lia]. }
  destruct (proj2 Hok) as [[_ Hn]|(x & ts0 & _ & _ & Hts0 & Htab)]; [congruence|]. assert (ts0 = ts) as -> by congruence.
  destruct (Select_routes math_log routingKey ts Htab Hlog) as (p & r & Hsel & w & Hw & <- & Hpos).
  destruct (Hr ts w Hts Hw Hpos) as (e & He & Hst).
  unfold AcquireKey, acquire. rewrite Hts, Hsel. cbn [set_routing m_epochs]. rewrite He, Hst.
  do 2 eexists. exists e, w. by split_and!.
Qed.

(** * Witnesses *)

(** A rollout: epoch 1 serves, epoch 2 takes over, epoch 1 drains with one lease still out. *)
Definition ex_epoch (epoch : Z) : Plan :=
  mkPlan epoch {["front"]} {["api" := "front"]} ∅ None.
Definition ex_rollout : list action :=
  [DoStage (ex_epoch 1); DoReady 1; DoAcquire ""; DoStage (ex_epoch 2); DoReady 2; DoDrain 1; DoStop 1].
Definition ex_finish : list action := [DoAcquire ""; DoRelease 0; DoRelease 0; DoStopped 0].

Lemma ex_plan_typed epoch : is_u64 epoch → plan_typed (ex_epoch epoch).
Proof. by intros H; split. Qed.

Lemma ex_rollout_typed : Forall action_typed (ex_rollout ++ ex_finish).
Proof. repeat constructor; cbn; done. Qed.

Lemma manager_accounting_witness : ∃ s,
  acts id (ex_rollout ++ ex_finish) start = Some s ∧
  (∀ lease, lease ∈ sy_leases s →
     ∃ e, m_epochs (sy_manager s) !! le_epoch lease = Some e ∧ le_snapshot lease = me_snapshot e).
Proof.
  destruct (manager_accounting id (ex_rollout ++ ex_finish) ex_rollout_typed) as (s & Hs & _ & Hl);
    [vm_compute; discriminate|]. exists s. split; [exact Hs|exact Hl].
Defined.

(** The whole part of the binary logarithm, as a stand-in for [math.Log]. *)
Definition ex_log (x : spec_float) : spec_float :=
  match x with
  | S754_finite false m e => let l := Zpos (digits2_pos m) + e - 1 in if 0 <=? l then float64 l else SFopp (float64 (- l))
  | _ => x
  end.
Lemma ex_log_natural : natural_log ex_log.
Proof.
  intros m e Hm He. unfold ex_log. pose proof (Zdigits2_bound (Zpos m) 53 ltac:(lia) ltac:(lia)) as Hd. cbn [Zdigits2] in Hd.
  destruct (Z.leb_spec 0 (Zpos (digits2_pos m) + e - 1)); [apply float64_tame; lia|].
  pose proof (float64_tame (- (Zpos (digits2_pos m) + e - 1)) ltac:(lia)) as Ht. by destruct (float64 _).
Qed.

Lemma rollout_available_witness : ∃ s lease m lease' m',
  acts ex_log ex_rollout start = Some s ∧ AcquireKey ex_log "tenant-a" (sy_manager s) = (Ok lease, m) ∧
  AcquireKey ex_log "" (sy_manager s) = (Ok lease', m').
Proof.
  destruct (acts ex_log ex_rollout start) as [s|] eqn:Hs; [|vm_compute in Hs; discriminate].
  destruct (m_traffic (sy_manager s)) as [ts|] eqn:Ht.
  - pose proof (λ key, rollout_available ex_log ex_rollout s ts key
      (proj1 (proj1 (Forall_app _ _ _) ex_rollout_typed)) ltac:(repeat constructor) eq_refl (λ _, ex_log_natural) Hs Ht) as H.
    destruct (H "tenant-a") as (lease & m & _ & _ & Ha & _), (H "") as (lease' & m' & _ & _ & Ha' & _).
    exists s, lease, m, lease', m'. split; [reflexivity|]. split; [exact Ha|exact Ha'].
  - exfalso. apply (f_equal (fmap (λ s, m_traffic (sy_manager s)))) in Hs. cbn [fmap option_fmap option_map] in Hs.
    rewrite Ht in Hs. vm_compute in Hs. discriminate Hs.
Defined.

Lemma retiring_is_final_witness : ∃ s s',
  acts id ex_rollout start = Some s ∧ acts id ex_finish s = Some s' ∧
  issued 1 (sy_leases s') = issued 1 (sy_leases s) ∧ issued 1 (sy_leases s) = 1.
Proof.
  destruct (acts id ex_rollout start) as [s|] eqn:Hs; [|vm_compute in Hs; discriminate].
  destruct (acts id ex_finish s) as [s'|] eqn:Hs'.
  - assert (H1 : fmap (λ s, (me_state <$> m_epochs (sy_manager s) !! 1, issued 1 (sy_leases s)))
      (acts id ex_rollout start) = Some (Some EpochDraining, 1)) by (vm_compute; reflexivity).
    rewrite Hs in H1. cbn [fmap option_fmap option_map] in H1.
    destruct (m_epochs (sy_manager s) !! 1) as [e|] eqn:He; [|discriminate H1].
    injection H1 as He1 Hi.
    exists s, s'. split; [reflexivity|]. split; [exact Hs'|]. split; [|exact Hi].
    refine (proj1 (proj2 (retiring_is_final id ex_rollout ex_finish s s' 1 e ex_rollout_typed _ Hs He (or_introl He1) Hs'))).
    vm_compute. discriminate.
  - exfalso. assert (Hn : acts id (ex_rollout ++ ex_finish) start = None) by (rewrite acts_app, Hs; exact Hs').
    vm_compute in Hn. discriminate Hn.
Defined.
