(* ===== verification/Coordination.v ===== *)
(** * coordination and coordination/memory: process-local leases

    Models [coordination/memory/memory.go] ([TryAcquire], [Release], [Description], the lease
    accessors) and the fence context of [coordination.go].  Leases are heap objects: the owner
    map stores pointers, and [Release] compares pointers, so the model keeps a heap of leases
    with their [sync.Once] state.  A lease's [err] field is never assigned, so [Err] is nil on
    every lease of this implementation. *)
From S2P Require Import Prelude GoText.
Open Scope Z_scope.

Inductive coerror := ErrInvalidOption | ErrLeaseLost | ErrCause (name : string).

#[export] Instance coerror_eq_dec : EqDecision coerror.
Proof. solve_decision. Defined.

(** A context value chain, as far as the fence key is concerned. *)
Definition WithFence (ctx : option (option Z)) (fence : Z) : option (option Z) :=
  match ctx with
  | None => None
  | Some v => if fence =? 0 then Some v else Some (Some fence)
  end.
Definition FenceFromContext (ctx : option (option Z)) : Z * bool :=
  match ctx with
  | Some (Some fence) => (fence, 0 <? fence)
  | _ => (0, false)
  end.

Definition validKey (value : string) : bool := valid_text 512 value.

(** [released] is the state of the lease's [sync.Once], which also closes [done]. *)
Record lease := mkLease { ls_key : string; ls_fence : Z; ls_released : bool }.

Record Coordinator := mkCoordinator {
  co_heap : gmap nat lease;
  co_next : nat;
  co_leases : gmap string nat;
  co_fences : gmap string Z;
  co_acquired : Z;
  co_rejected : Z;
  co_released : Z
}.

Definition New : Coordinator := mkCoordinator ∅ 0 ∅ ∅ 0 0 0.

(** [Ok None] is the answer [(nil, false, nil)] of contention. *)
Definition TryAcquire (ctx : context coerror) (key : string) (ttl : duration) (c : Coordinator) :
    result coerror (option nat) * Coordinator :=
  match ctx with
  | NilContext => (Err ErrInvalidOption, c)
  | Context cause =>
      if (ttl <=? 0) || negb (validKey key) then (Err ErrInvalidOption, c)
      else match cause with
      | Some cause => (Err cause, c)
      | None =>
          match co_leases c !! key with
          | Some _ =>
              (Ok None, mkCoordinator (co_heap c) (co_next c) (co_leases c) (co_fences c)
                          (co_acquired c) (u64_add (co_rejected c) 1) (co_released c))
          | None =>
              let fence := u64_add (default 0 (co_fences c !! key)) 1 in
              let acquired := co_next c in
              (Ok (Some acquired),
               mkCoordinator (<[acquired := mkLease key fence false]> (co_heap c)) (S acquired)
                 (<[key := acquired]> (co_leases c)) (<[key := fence]> (co_fences c))
                 (u64_add (co_acquired c) 1) (co_rejected c) (co_released c))
          end
      end
  end.

(** [None] is a nil error. *)
Definition Release (ctx : context coerror) (l : nat) (c : Coordinator) : option coerror * Coordinator :=
  match ctx with
  | NilContext => (Some ErrInvalidOption, c)
  | Context (Some cause) => (Some cause, c)
  | Context None =>
      match co_heap c !! l with
      | None => (None, c)
      | Some ls =>
          if ls_released ls then (None, c)
          else
            let owner := bool_decide (co_leases c !! ls_key ls = Some l) in
            (None, mkCoordinator (<[l := mkLease (ls_key ls) (ls_fence ls) true]> (co_heap c))
                     (co_next c)
                     (if owner then delete (ls_key ls) (co_leases c) else co_leases c)
                     (co_fences c) (co_acquired c) (co_rejected c)
                     (if owner then u64_add (co_released c) 1 else co_released c))
      end
  end.

Record Description := mkDescription { Active : Z; Acquired : Z; Rejected : Z; Released : Z }.
Definition Describe (c : Coordinator) : Description :=
  mkDescription (Z.of_nat (size (co_leases c))) (co_acquired c) (co_rejected c) (co_released c).

(** ** Runs *)
Inductive co_step (c : Coordinator) : Coordinator → Prop :=
| step_acquire ctx key ttl : co_step c (snd (TryAcquire ctx key ttl c))
| step_release ctx l : co_step c (snd (Release ctx l c)).

Record co_ok (c : Coordinator) : Prop := mk_co_ok {
  co_bound : ∀ l ls, co_heap c !! l = Some ls → (l < co_next c)%nat;
  co_owner : ∀ key l, co_leases c !! key = Some l ↔
    ∃ fence, co_heap c !! l = Some (mkLease key fence false);
  co_fence_range : ∀ l ls, co_heap c !! l = Some ls →
    1 ≤ ls_fence ls ≤ default 0 (co_fences c !! ls_key ls);
  co_fence_count : ∀ key, 0 ≤ default 0 (co_fences c !! key) ≤ Z.of_nat (co_next c);
  co_fence_order : ∀ l l' ls ls', co_heap c !! l = Some ls → co_heap c !! l' = Some ls' →
    ls_key ls = ls_key ls' → (l < l')%nat → ls_fence ls < ls_fence ls';
  co_older_released : ∀ l l' ls ls', co_heap c !! l = Some ls → co_heap c !! l' = Some ls' →
    ls_key ls = ls_key ls' → (l < l')%nat → ls_released ls = true;
  co_counts : Z.of_nat (size (co_leases c)) = co_acquired c - co_released c ∧
    0 ≤ co_released c ≤ co_acquired c ∧ co_acquired c ≤ Z.of_nat (co_next c)
}.

Lemma co_step_next c c' : co_step c c' → (co_next c ≤ co_next c')%nat.
Proof.
  intros [ctx key ttl|ctx l]; [unfold TryAcquire|unfold Release];
    repeat (case_match; cbn [snd co_next]; try lia).
Qed.

Lemma acquire_ok c ctx key ttl :
  co_ok c → Z.of_nat (co_next c) < max_u64 → co_ok (snd (TryAcquire ctx key ttl c)).
Proof.
  intros Hok Hmax. unfold TryAcquire. destruct ctx as [|cause]; [done|]. case_match; [done|].
  destruct cause; [done|]. destruct (co_leases c !! key) eqn:Hk; cbn [snd].
  { destruct Hok. by constructor. }
  pose proof (co_fence_count _ Hok key) as Hfc. rewrite (u64_add_small (default 0 _)) by lia.
  pose proof (co_counts _ Hok) as (Hsz & Hrel & Hacq). rewrite u64_add_small by lia.
  assert (Hfresh : co_heap c !! co_next c = None).
  { destruct (co_heap c !! co_next c) eqn:He; [|done]. apply (co_bound _ Hok) in He. lia. }
  constructor; cbn.
  - intros l ls [[<- _]|[_ Hl]]%lookup_insert_Some; [lia|]. apply (co_bound _ Hok) in Hl. lia.
  - intros k l. rewrite lookup_insert_Some. setoid_rewrite lookup_insert_Some. split.
    + intros [[<- <-]|[Hne Hl]]; [eauto|]. apply (co_owner _ Hok) in Hl as [f Hl]. exists f.
      right. split; [|done]. apply (co_bound _ Hok) in Hl. lia.
    + intros [f [[<- [= -> _]]|[Hne Hl]]]; [by left|]. right.
      assert (Hkl : co_leases c !! k = Some l) by (apply (co_owner _ Hok); eauto).
      split; [|done]. intros <-. congruence.
  - intros l ls [[<- <-]|[_ Hl]]%lookup_insert_Some; cbn.
    + rewrite lookup_insert_eq. cbn in *. lia.
    + pose proof (co_fence_range _ Hok _ _ Hl). destruct (decide (ls_key ls = key)) as [Hkey|].
      * rewrite Hkey in *. rewrite lookup_insert_eq. cbn in *. lia.
      * by rewrite lookup_insert_ne.
  - intros k. pose proof (co_fence_count _ Hok k). destruct (decide (k = key)) as [->|].
    + rewrite lookup_insert_eq. cbn in *. lia.
    + rewrite lookup_insert_ne by done. lia.
  - intros l l' ls ls' [[<- <-]|[_ Hl]]%lookup_insert_Some [[<- <-]|[_ Hl']]%lookup_insert_Some Hkey Hlt;
      cbn in *.
    + lia.
    + apply (co_bound _ Hok) in Hl'. lia.
    + pose proof (co_fence_range _ Hok _ _ Hl) as Hr. rewrite Hkey in Hr. lia.
    + by eapply (co_fence_order _ Hok l l').
  - intros l l' ls ls' [[<- <-]|[_ Hl]]%lookup_insert_Some [[<- <-]|[_ Hl']]%lookup_insert_Some Hkey Hlt;
      cbn in *.
    + lia.
    + apply (co_bound _ Hok) in Hl'. lia.
    + destruct (ls_released ls) eqn:Hr; [done|]. exfalso.
      assert (co_leases c !! key = Some l) as Ho; [|congruence].
      apply (co_owner _ Hok). exists (ls_fence ls). rewrite Hl. by destruct ls; cbn in *; subst.
    + by eapply (co_older_released _ Hok l l').
  - rewrite map_size_insert_None by done. lia.
Qed.

Lemma release_ok c ctx l :
  co_ok c → Z.of_nat (co_next c) ≤ max_u64 → co_ok (snd (Release ctx l c)).
Proof.
  intros Hok Hmax. unfold Release. destruct ctx as [|[?|]]; try done.
  destruct (co_heap c !! l) as [ls|] eqn:Hl; [|done]. destruct (ls_released ls) eqn:Hr; [done|].
  assert (Hown : co_leases c !! ls_key ls = Some l).
  { apply (co_owner _ Hok). exists (ls_fence ls). rewrite Hl. by destruct ls; cbn in *; subst. }
  rewrite bool_decide_true by done. cbn [snd].
  pose proof (co_counts _ Hok) as (Hsz & Hrel & Hacq).
  assert (Hpos : (0 < size (co_leases c))%nat).
  { destruct (size (co_leases c)) eqn:E; [|lia]. apply map_size_empty_inv in E. rewrite E, lookup_empty in Hown. done. }
  constructor; cbn.
  - intros l' ls' [[<- _]|[_ Hl']]%lookup_insert_Some; eauto using co_bound.
  - intros k l'. rewrite lookup_delete_Some. setoid_rewrite lookup_insert_Some.
    rewrite (co_owner _ Hok). split.
    + intros [Hne [f Hf]]. exists f. right. split; [|done]. intros <-. rewrite Hl in Hf. simplify_eq/=.
    + intros [f [[_ ?]|[Hne Hf]]]; [done|]. split; [|eauto]. intros <-. apply Hne.
      assert (co_leases c !! ls_key ls = Some l') by (apply (co_owner _ Hok); eauto). congruence.
  - intros l' ls' [[<- <-]|[_ Hl']]%lookup_insert_Some; cbn; eapply (co_fence_range _ Hok); eauto.
  - apply (co_fence_count _ Hok).
  - intros l1 l2 ls1 ls2 [[<- <-]|[_ H1]]%lookup_insert_Some [[<- <-]|[_ H2]]%lookup_insert_Some; cbn;
      intros; try lia; eapply (co_fence_order _ Hok); eauto.
  - intros l1 l2 ls1 ls2 [[<- <-]|[_ H1]]%lookup_insert_Some [[<- <-]|[_ H2]]%lookup_insert_Some; cbn;
      intros Hk Hlt; try done.
    + by eapply (co_older_released _ Hok l1 l ls1 ls).
    + by eapply (co_older_released _ Hok l1 l2).
  - rewrite u64_add_small by lia. rewrite map_size_delete_Some by eauto. lia.
Qed.

Lemma New_ok : co_ok New.
Proof.
  constructor; cbn; try (intros; by rewrite ?lookup_empty in *).
  intros key l. rewrite lookup_empty. split; [done|]. intros [f Hf]. by rewrite lookup_empty in Hf.
Qed.

Lemma co_run_ok c : rtc co_step New c → Z.of_nat (co_next c) ≤ max_u64 → co_ok c.
Proof.
  intros H. refine (rtc_ind_r (λ c, Z.of_nat (co_next c) ≤ max_u64 → co_ok c) New _ _ c H).
  { intros _. apply New_ok. }
  intros c1 c2 _ Hs IH Hmax. pose proof (co_step_next _ _ Hs) as Hle.
  assert (Hok : co_ok c1) by (apply IH; lia).
  destruct (decide (Z.of_nat (co_next c1) = max_u64)) as [Heq|Hne].
  - destruct Hs as [ctx key ttl|ctx l]; [|apply release_ok; [done|lia]].
    unfold TryAcquire in *. repeat case_match; try done; cbn [snd co_next] in *; [|lia].
    destruct Hok. by constructor.
  - destruct Hs as [ctx key ttl|ctx l]; [apply acquire_ok; [done|lia]|apply release_ok; [done|lia]].
Qed.

(** ownership generations.  In every run of at most 2^64-1 acquisitions, of any two leases
    issued for the same key the older one was released before the newer one was issued, and
    the newer one carries the strictly greater fence; so at most one lease per key is
    unreleased, and the owner table holds exactly the unreleased leases. *)
Theorem lease_generations c l l' ls ls' :
  rtc co_step New c → Z.of_nat (co_next c) ≤ max_u64 →
  co_heap c !! l = Some ls → co_heap c !! l' = Some ls' → ls_key ls = ls_key ls' →
  ((l < l')%nat → ls_released ls = true ∧ ls_fence ls < ls_fence ls') ∧
  (ls_released ls = false → co_leases c !! ls_key ls = Some l) ∧
  (ls_released ls = false → ls_released ls' = false → l = l').
Proof.
  intros Hrun Hmax Hl Hl' Hkey. pose proof (co_run_ok c Hrun Hmax) as Hok.
  assert (Hown : ∀ x xs, co_heap c !! x = Some xs → ls_released xs = false →
    co_leases c !! ls_key xs = Some x).
  { intros x xs Hx Hr. apply (co_owner _ Hok). exists (ls_fence xs). rewrite Hx.
    by destruct xs; cbn in *; subst. }
  split_and!.
  - intros Hlt. split; [by eapply (co_older_released _ Hok l l')|by eapply (co_fence_order _ Hok l l')].
  - intros Hr. by apply Hown.
  - intros Hr Hr'. pose proof (Hown _ _ Hl Hr). pose proof (Hown _ _ Hl' Hr'). congruence.
Qed.

(** released keys can be owned again.  After releasing the current lease of a key, an
    acquisition of that key succeeds with a greater fence than every earlier lease of the key,
    releasing the old lease a second time changes nothing, and the aggregate counters keep
    saying active = acquired - released. *)
Theorem release_then_acquire c l ls ttl :
  rtc co_step New c → Z.of_nat (co_next c) < max_u64 →
  co_heap c !! l = Some ls → ls_released ls = false → 0 < ttl → validKey (ls_key ls) = true →
  let c1 := snd (Release (Context None) l c) in
  ∃ l' c2 ls', TryAcquire (Context None) (ls_key ls) ttl c1 = (Ok (Some l'), c2) ∧
    co_heap c2 !! l' = Some ls' ∧ ls_fence ls < ls_fence ls' ∧
    Release (Context None) l c2 = (None, c2) ∧
    Active (Describe c2) = Acquired (Describe c2) - Released (Describe c2).
Proof.
  intros Hrun Hmax Hl Hr Httl Hkey. cbv zeta. pose proof (co_run_ok c Hrun ltac:(lia)) as Hok.
  pose proof (release_ok c (Context None) l Hok ltac:(lia)) as Hok1.
  assert (Hown : co_leases c !! ls_key ls = Some l).
  { apply (co_owner _ Hok). exists (ls_fence ls). rewrite Hl. by destruct ls; cbn in *; subst. }
  assert (Hc1 : snd (Release (Context None) l c) =
    mkCoordinator (<[l := mkLease (ls_key ls) (ls_fence ls) true]> (co_heap c)) (co_next c)
      (delete (ls_key ls) (co_leases c)) (co_fences c) (co_acquired c) (co_rejected c)
      (u64_add (co_released c) 1)).
  { unfold Release. rewrite Hl, Hr, bool_decide_true by done. done. }
  pose proof (acquire_ok _ (Context None) (ls_key ls) ttl Hok1) as Hok2.
  rewrite Hc1 in *. clear Hc1. cbn [co_next] in Hok2. specialize (Hok2 Hmax).
  unfold TryAcquire in *. cbn [co_leases co_heap co_next co_fences co_acquired co_rejected co_released] in *.
  rewrite (proj2 (Z.leb_gt _ _)), Hkey in * by lia. cbn [negb orb] in *. rewrite lookup_delete_eq in *.
  cbn [snd] in Hok2. eexists _, _, _. split; [done|]. cbn [co_heap]. rewrite lookup_insert_eq.
  assert (Hlt : (l < co_next c)%nat) by (by eapply (co_bound _ Hok)).
  assert (Hl2 : ∀ x, (<[co_next c := x]> (<[l := mkLease (ls_key ls) (ls_fence ls) true]> (co_heap c)))
    !! l = Some (mkLease (ls_key ls) (ls_fence ls) true)).
  { intros x. rewrite lookup_insert_ne by lia. apply lookup_insert_eq. }
  split; [done|]. split_and!.
  - refine (co_fence_order _ Hok2 l (co_next c) (mkLease (ls_key ls) (ls_fence ls) true) _ _ _ _ _); cbn; try done.
    apply lookup_insert_eq.
  - unfold Release. cbn [co_heap]. by rewrite Hl2.
  - unfold Describe; cbn. pose proof (co_counts _ Hok2) as [Hc _]. cbn in Hc. done.
Qed.

(** * Concrete run *)
Definition ex_co1 : Coordinator := snd (TryAcquire (Context None) "saga/a/1" second New).
Definition ex_co2 : Coordinator := snd (Release (Context None) 0%nat ex_co1).
Definition ex_co3 : Coordinator := snd (TryAcquire (Context None) "saga/a/1" second ex_co2).

Lemma ex_co1_run : rtc co_step New ex_co1.
Proof. apply rtc_once, step_acquire. Qed.
Lemma ex_co3_run : rtc co_step New ex_co3.
Proof.
  eapply rtc_l; [apply step_acquire|]. eapply rtc_l; [apply step_release|]. apply rtc_once, step_acquire.
Qed.

Lemma lease_generations_witness :
  let ls := mkLease "saga/a/1" 1 true in
  let ls' := mkLease "saga/a/1" 2 false in
  ((0 < 1)%nat → ls_released ls = true ∧ ls_fence ls < ls_fence ls') ∧
  (ls_released ls = false → co_leases ex_co3 !! ls_key ls = Some 0%nat) ∧
  (ls_released ls = false → ls_released ls' = false → 0%nat = 1%nat).
Proof.
  apply (lease_generations ex_co3 0%nat 1%nat).
  - apply ex_co3_run.
  - vm_compute. discriminate.
  - vm_compute. reflexivity.
  - vm_compute. reflexivity.
  - reflexivity.
Defined.

Lemma release_then_acquire_witness :
  let c1 := snd (Release (Context None) 0%nat ex_co1) in
  ∃ l' c2 ls', TryAcquire (Context None) "saga/a/1" second c1 = (Ok (Some l'), c2) ∧
    co_heap c2 !! l' = Some ls' ∧ 1 < ls_fence ls' ∧
    Release (Context None) 0%nat c2 = (None, c2) ∧
    Active (Describe c2) = Acquired (Describe c2) - Released (Describe c2).
Proof.
  apply (release_then_acquire ex_co1 0%nat (mkLease "saga/a/1" 1 false) second).
  - apply ex_co1_run.
  - vm_compute. reflexivity.
  - vm_compute. reflexivity.
  - reflexivity.
  - vm_compute. reflexivity.
  - vm_compute. reflexivity.
Defined.
