(* ===== verification/Saga.v ===== *)
(** * saga: durable orchestration and compensation

    Models [saga.go], [engine.go] and [memory/repository.go].  The engine is generic in a
    world [W] that holds everything outside it: the repository, the coordinator, the clock,
    the context and the business handlers.  Their interfaces are the type classes [World],
    [Repository] and [Coord]; every call threads the world, so the interleaving of handler
    effects, saves and cancellations is explicit.  The goroutine that cancels the run context
    when the lease is lost is part of the world: any reading of [context.Cause] may find it. *)
From S2P Require Import Prelude GoText Sha256.
Open Scope Z_scope.

Definition maxIdentityBytes : Z := 256.
Definition maxSteps : Z := 128.

(** Sentinels of the package, [coordination.ErrLeaseLost], foreign errors, [%w] wrapping of a
    callee's error and [errors.Join].  Where the code wraps one of its own sentinels with a
    message ([fmt.Errorf(...ErrInvalidOption...)]), the model keeps the sentinel. *)
Inductive serror :=
| ErrInvalidOption | ErrNotFound | ErrAlreadyExists | ErrConflict | ErrStaleFence
| ErrContended | ErrDefinitionMismatch | ErrCompensated | ErrFailed | errHandlerPanic
| ErrLeaseLost
| ErrForeign (name : string)
| Wrapped (text : string) (cause : serror)
| Joined (first second : serror)
| JoinedOne (err : serror).

#[export] Instance serror_eq_dec : EqDecision serror.
Proof. solve_decision. Defined.

(** [errors.Is] *)
Fixpoint error_is (err target : serror) : bool :=
  (err == target) ||
  match err with
  | Wrapped _ cause => error_is cause target
  | Joined first second => error_is first target || error_is second target
  | JoinedOne err => error_is err target
  | _ => false
  end.

(** [errors.Join] of two possibly nil errors; one error is still wrapped. *)
Definition join (first second : option serror) : option serror :=
  match first, second with
  | Some first, Some second => Some (Joined first second)
  | Some err, None | None, Some err => Some (JoinedOne err)
  | None, None => None
  end.

Inductive Status :=
| StatusRunning | StatusCompensating | StatusCompleted | StatusCompensated | StatusFailed
| StatusOther (raw : string).
Inductive Phase := PhaseAction | PhaseCompensation.

#[export] Instance Status_eq_dec : EqDecision Status.
Proof. solve_decision. Defined.
#[export] Instance Phase_eq_dec : EqDecision Phase.
Proof. solve_decision. Defined.

Definition Phase_string (p : Phase) : string :=
  match p with PhaseAction => "action" | PhaseCompensation => "compensation" end.

Record Invocation := mkInvocation {
  i_SagaID : string;
  i_Definition : string;
  i_Version : string;
  i_Step : string;
  i_StepIndex : Z;
  i_Phase : Phase;
  i_Attempt : Z;
  i_Fence : Z;
  i_IdempotencyKey : string
}.

Record Record := mkRecord {
  r_ID : string;
  r_Definition : string;
  r_Version : string;
  r_Status : Status;
  r_NextStep : Z;
  r_CompensationIndex : Z;
  r_Attempt : Z;
  r_CauseReason : string;
  r_FailureReason : string;
  r_Revision : Z;
  r_UpdatedAt : time
}.

Definition zero_record : Record := mkRecord "" "" "" (StatusOther "") 0 0 0 "" "" 0 0.

Definition validIdentity (value : string) (maximum : Z) : bool := valid_text maximum value.

Definition Record_Terminal (record : Record) : bool :=
  (r_Status record == StatusCompleted) || (r_Status record == StatusCompensated) ||
  (r_Status record == StatusFailed).

Definition Record_Validate (record : Record) : option serror :=
  if negb (validIdentity (r_ID record) maxIdentityBytes) ||
     negb (validIdentity (r_Definition record) maxIdentityBytes) ||
     negb (validIdentity (r_Version record) maxIdentityBytes) ||
     (r_Revision record =? 0) || (r_NextStep record <? 0) || (r_CompensationIndex record <? -1) ||
     (r_Attempt record <? 0) ||
     ((r_CauseReason record != "") && negb (validIdentity (r_CauseReason record) maxIdentityBytes)) ||
     ((r_FailureReason record != "") && negb (validIdentity (r_FailureReason record) maxIdentityBytes)) ||
     IsZero (r_UpdatedAt record)
  then Some ErrInvalidOption
  else match r_Status record with
  | StatusOther _ => Some ErrInvalidOption
  | _ => None
  end.

Definition idempotencyKey (id definition version step : string) (phase : Phase) : string :=
  "saga:v1:" +:+ hex_encode (sha256
    (bytes_of id ++ 0 :: bytes_of definition ++ 0 :: bytes_of version ++ 0 :: bytes_of step ++
     0 :: bytes_of (Phase_string phase))).

(** ** Definitions *)

(** A handler returns an error or nil, or panics. *)
Inductive handler_outcome := Returned (err : option serror) | Panicked.
Definition Handler (W : Type) : Type := Invocation → W → handler_outcome * W.

(** [None] is a nil handler. *)
Record Step (W : Type) := mkStep {
  p_Name : string;
  p_Action : option (Handler W);
  p_Compensate : option (Handler W)
}.
Arguments mkStep {W}. Arguments p_Name {W}. Arguments p_Action {W}. Arguments p_Compensate {W}.

Record Definition_ (W : Type) := mkDefinition {
  d_Name : string;
  d_Version : string;
  d_Steps : list (Step W)
}.
Arguments mkDefinition {W}. Arguments d_Name {W}. Arguments d_Version {W}. Arguments d_Steps {W}.

Fixpoint steps_ok {W} (seen : gset string) (steps : list (Step W)) : bool :=
  match steps with
  | [] => true
  | step :: steps =>
      validIdentity (p_Name step) maxIdentityBytes && bool_decide (is_Some (p_Action step)) &&
      bool_decide (p_Name step ∉ seen) && steps_ok ({[p_Name step]} ∪ seen) steps
  end.

Definition Definition_Validate {W} (definition : Definition_ W) : option serror :=
  if negb (validIdentity (d_Name definition) maxIdentityBytes) ||
     negb (validIdentity (d_Version definition) maxIdentityBytes) ||
     (zlen (d_Steps definition) =? 0) || (maxSteps <? zlen (d_Steps definition))
  then Some ErrInvalidOption
  else if negb (steps_ok ∅ (d_Steps definition)) then Some ErrInvalidOption else None.

(** ** What the engine calls *)
Class World (W : Type) := {
  w_cause : W → option serror * W;       (* context.Cause(runContext), now *)
  w_step_cause : W → option serror * W;  (* context.Cause(stepContext), now *)
  w_clock : W → time * W
}.

Class Repository (W : Type) := {
  repo_Load : string → W → result serror Record * W;
  repo_Create : Record → Z → W → result serror Record * W;
  repo_Save : Record → Z → Z → W → result serror Record * W
}.

(** [Ok None] is contention; a lease is named by a handle. *)
Class Coord (W : Type) := {
  co_TryAcquire : string → duration → W → result serror (option nat) * W;
  co_Fence : nat → W → Z;
  co_Release : nat → W → option serror * W
}.

(** ** The engine *)
Record Counters := mkCounters {
  k_active : Z; k_started : Z; k_completed : Z; k_compensated : Z; k_terminalFailures : Z;
  k_contended : Z; k_actionFailures : Z; k_compensationFailures : Z; k_leaseLosses : Z;
  k_repositoryFailures : Z
}.
Definition zero_counters : Counters := mkCounters 0 0 0 0 0 0 0 0 0 0.

Inductive metric :=
| active (delta : Z) | started | completed | compensated | terminalFailures | contended
| actionFailures | compensationFailures | leaseLosses | repositoryFailures.

(** [counter.Add]; the unsigned ones wrap. *)
Definition add (m : metric) (k : Counters) : Counters :=
  let up b x := if b : bool then u64_add x 1 else x in
  mkCounters (match m with active d => k_active k + d | _ => k_active k end)
    (up (match m with started => true | _ => false end) (k_started k))
    (up (match m with completed => true | _ => false end) (k_completed k))
    (up (match m with compensated => true | _ => false end) (k_compensated k))
    (up (match m with terminalFailures => true | _ => false end) (k_terminalFailures k))
    (up (match m with contended => true | _ => false end) (k_contended k))
    (up (match m with actionFailures => true | _ => false end) (k_actionFailures k))
    (up (match m with compensationFailures => true | _ => false end) (k_compensationFailures k))
    (up (match m with leaseLosses => true | _ => false end) (k_leaseLosses k))
    (up (match m with repositoryFailures => true | _ => false end) (k_repositoryFailures k)).

Record Engine (W : Type) := mkEngine {
  e_definition : Definition_ W;
  e_leaseTTL : duration;
  e_stepTimeout : duration;
  e_maxCompensationAttempts : Z;
  e_classify : serror → string
}.
Arguments mkEngine {W}. Arguments e_definition {W}. Arguments e_leaseTTL {W}.
Arguments e_stepTimeout {W}. Arguments e_maxCompensationAttempts {W}. Arguments e_classify {W}.

(** [New] with both dependencies present; zero budgets take the defaults, a nil classifier the
    package default [classify] (the failure package's classification). *)
Definition New {W} (definition : Definition_ W) (leaseTTL stepTimeout : duration)
    (maxCompensationAttempts : Z) (classify : serror → string) : result serror (Engine W) :=
  match Definition_Validate definition with
  | Some err => Err err
  | None =>
      let leaseTTL := if leaseTTL =? 0 then 30 * second else leaseTTL in
      let stepTimeout := if stepTimeout =? 0 then 30 * second else stepTimeout in
      let attempts := if maxCompensationAttempts =? 0 then 20 else maxCompensationAttempts in
      if (leaseTTL <? 100 * millisecond) || (10 * minute <? leaseTTL) ||
         (stepTimeout <? 10 * millisecond) || (10 * minute <? stepTimeout) ||
         (attempts <? 1) || (1000 <? attempts)
      then Err ErrInvalidOption
      else Ok (mkEngine definition leaseTTL stepTimeout attempts classify)
  end.

Record Result := mkResult { x_Record : Record; x_Actions : Z; x_Compensated : Z }.
Definition set_record (r : Record) (x : Result) : Result := mkResult r (x_Actions x) (x_Compensated x).

(** Field updates of the record, as the engine performs them. *)
Definition with_status (st : Status) (r : Record) : Record :=
  mkRecord (r_ID r) (r_Definition r) (r_Version r) st (r_NextStep r) (r_CompensationIndex r)
    (r_Attempt r) (r_CauseReason r) (r_FailureReason r) (r_Revision r) (r_UpdatedAt r).
Definition with_next (i : Z) (r : Record) : Record :=
  mkRecord (r_ID r) (r_Definition r) (r_Version r) (r_Status r) i (r_CompensationIndex r)
    (r_Attempt r) (r_CauseReason r) (r_FailureReason r) (r_Revision r) (r_UpdatedAt r).
Definition with_compensation (i : Z) (r : Record) : Record :=
  mkRecord (r_ID r) (r_Definition r) (r_Version r) (r_Status r) (r_NextStep r) i
    (r_Attempt r) (r_CauseReason r) (r_FailureReason r) (r_Revision r) (r_UpdatedAt r).
Definition with_attempt (a : Z) (r : Record) : Record :=
  mkRecord (r_ID r) (r_Definition r) (r_Version r) (r_Status r) (r_NextStep r)
    (r_CompensationIndex r) a (r_CauseReason r) (r_FailureReason r) (r_Revision r) (r_UpdatedAt r).
Definition with_reasons (cause failure : string) (r : Record) : Record :=
  mkRecord (r_ID r) (r_Definition r) (r_Version r) (r_Status r) (r_NextStep r)
    (r_CompensationIndex r) (r_Attempt r) cause failure (r_Revision r) (r_UpdatedAt r).
Definition with_updated (t : time) (r : Record) : Record :=
  mkRecord (r_ID r) (r_Definition r) (r_Version r) (r_Status r) (r_NextStep r)
    (r_CompensationIndex r) (r_Attempt r) (r_CauseReason r) (r_FailureReason r) (r_Revision r) t.
Definition with_revision (v : Z) (r : Record) : Record :=
  mkRecord (r_ID r) (r_Definition r) (r_Version r) (r_Status r) (r_NextStep r)
    (r_CompensationIndex r) (r_Attempt r) (r_CauseReason r) (r_FailureReason r) v (r_UpdatedAt r).

Definition failureReason {W} (e : Engine W) (err : serror) : string :=
  let reason := e_classify e err in
  if validIdentity reason maxIdentityBytes then reason else "internal".

Definition invocation (record : Record) (step : string) (index : Z) (phase : Phase) (fence : Z) :
    Invocation :=
  mkInvocation (r_ID record) (r_Definition record) (r_Version record) step index phase
    (r_Attempt record) fence
    (idempotencyKey (r_ID record) (r_Definition record) (r_Version record) step phase).

Section engine.
  Context {W : Type} `{World W, Repository W, Coord W}.
  Context (e : Engine W).

(** The engine's counters and the world. *)
Definition state : Type := Counters * W.
Definition count (m : metric) (st : state) : state := (add m (fst st), snd st).

Definition cause (st : state) : option serror * state :=
  let '(c, w) := w_cause (snd st) in (c, (fst st, w)).

Definition save (record : Record) (fence : Z) (st : state) : result serror Record * state :=
  let expected := r_Revision record in
  let '(now, w) := w_clock (snd st) in
  match repo_Save (with_updated now record) expected fence w with
  | (Err err, w) => (Err (Wrapped "saga: save" err), count repositoryFailures (fst st, w))
  | (Ok saved, w) => (Ok saved, (fst st, w))
  end.

(** [invoke]: a nil handler call panics and is recovered like any other panic. *)
Definition invoke (handler : option (Handler W)) (inv : Invocation) (st : state) :
    option serror * state :=
  match handler with
  | None => (Some errHandlerPanic, st)
  | Some handler =>
      match handler inv (snd st) with
      | (Panicked, w) => (Some errHandlerPanic, (fst st, w))
      | (Returned (Some err), w) => (Some err, (fst st, w))
      | (Returned None, w) => let '(c, w) := w_step_cause w in (c, (fst st, w))
      end
  end.

Definition loadOrCreate (id : string) (fence : Z) (st : state) : result serror Record * state :=
  let '(loaded, w) := repo_Load id (snd st) in
  let '(loaded, w) :=
    match loaded with
    | Ok record => (Ok record, w)
    | Err err =>
        if error_is err ErrNotFound then
          let '(now, w) := w_clock w in
          repo_Create (mkRecord id (d_Name (e_definition e)) (d_Version (e_definition e))
                         StatusRunning 0 (-1) 0 "" "" 0 now) fence w
        else (Err err, w)
    end in
  match loaded with
  | Err err => (Err (Wrapped "saga: load or create" err), count repositoryFailures (fst st, w))
  | Ok record =>
      let st := (fst st, w) in
      if (r_Definition record != d_Name (e_definition e)) ||
         (r_Version record != d_Version (e_definition e))
      then (Err ErrDefinitionMismatch, st)
      else match Record_Validate record with
      | Some err => (Err err, st)
      | None =>
          if (zlen (d_Steps (e_definition e)) <? r_NextStep record) ||
             (zlen (d_Steps (e_definition e)) <=? r_CompensationIndex record)
          then (Err ErrInvalidOption, st)
          else (Ok record, st)
      end
  end.

(** One iteration of the loop continues with the next result and record, or returns; an index
    out of range panics. *)
Inductive turn :=
| Continue (result : Result) (record : Record)
| Return (result : Result) (err : option serror)
| Panic.

Definition nth_step (i : Z) : option (Step W) :=
  if i <? 0 then None else d_Steps (e_definition e) !! Z.to_nat i.

Definition run_forward (fence : Z) (result : Result) (record : Record) (st : state) : turn * state :=
  if zlen (d_Steps (e_definition e)) <=? r_NextStep record then
    match save (with_attempt 0 (with_status StatusCompleted record)) fence st with
    | (Err err, st) => (Return result (Some err), st)
    | (Ok record, st) => (Continue result record, count completed st)
    end
  else match nth_step (r_NextStep record) with
  | None => (Panic, st)
  | Some step =>
      match save (with_attempt (r_Attempt record + 1) record) fence st with
      | (Err err, st) => (Return result (Some err), st)
      | (Ok record, st) =>
          match invoke (p_Action step)
                  (invocation record (p_Name step) (r_NextStep record) PhaseAction fence) st with
          | (Some err, st) =>
              match cause st with
              | (Some cause, st) => (Return result (Some cause), st)
              | (None, st) =>
                  let st := count actionFailures st in
                  let reason := failureReason e err in
                  match save (with_reasons reason reason (with_attempt 0
                                (with_compensation (r_NextStep record - 1)
                                  (with_status StatusCompensating record)))) fence st with
                  | (Err err, st) => (Return result (Some err), st)
                  | (Ok record, st) => (Continue result record, count compensated st)
                  end
              end
          | (None, st) =>
              let result := mkResult (x_Record result) (x_Actions result + 1) (x_Compensated result) in
              match save (with_reasons (r_CauseReason record) "" (with_attempt 0
                            (with_next (r_NextStep record + 1) record))) fence st with
              | (Err err, st) => (Return result (Some err), st)
              | (Ok record, st) => (Continue (set_record record result) record, st)
              end
          end
      end
  end.

Definition run_backward (fence : Z) (result : Result) (record : Record) (st : state) : turn * state :=
  if r_CompensationIndex record <? 0 then
    match save (with_attempt 0 (with_status StatusCompensated record)) fence st with
    | (Err err, st) => (Return result (Some err), st)
    | (Ok record, st) => (Continue result record, st)
    end
  else match nth_step (r_CompensationIndex record) with
  | None => (Panic, st)
  | Some step =>
      match p_Compensate step with
      | None =>
          match save (with_attempt 0
                        (with_compensation (r_CompensationIndex record - 1) record)) fence st with
          | (Err err, st) => (Return result (Some err), st)
          | (Ok record, st) => (Continue result record, st)
          end
      | Some compensate =>
          match save (with_attempt (r_Attempt record + 1) record) fence st with
          | (Err err, st) => (Return result (Some err), st)
          | (Ok record, st) =>
              match invoke (Some compensate)
                      (invocation record (p_Name step) (r_CompensationIndex record)
                         PhaseCompensation fence) st with
              | (Some err, st) =>
                  match cause st with
                  | (Some cause, st) => (Return result (Some cause), st)
                  | (None, st) =>
                      let st := count compensationFailures st in
                      let record := with_reasons (r_CauseReason record) (failureReason e err) record in
                      let record :=
                        if e_maxCompensationAttempts e <=? r_Attempt record
                        then with_status StatusFailed record else record in
                      match save record fence st with
                      | (Err saveErr, st) => (Return (set_record zero_record result) (Some saveErr), st)
                      | (Ok record, st) =>
                          let result := set_record record result in
                          if r_Status record == StatusFailed
                          then (Return result (Some (Joined ErrFailed err)), count terminalFailures st)
                          else (Return result (Some (Wrapped "saga: compensate step" err)), st)
                      end
                  end
              | (None, st) =>
                  let result := mkResult (x_Record result) (x_Actions result) (x_Compensated result + 1) in
                  match save (with_reasons (r_CauseReason record) (r_CauseReason record) (with_attempt 0
                                (with_compensation (r_CompensationIndex record - 1) record))) fence st with
                  | (Err err, st) => (Return result (Some err), st)
                  | (Ok record, st) => (Continue (set_record record result) record, st)
                  end
              end
          end
      end
  end.

(** The body of the loop of [Run]. *)
Definition iterate (fence : Z) (result : Result) (record : Record) (st : state) : turn * state :=
  match cause st with
  | (Some cause, st) =>
      (Return result (Some cause), if error_is cause ErrLeaseLost then count leaseLosses st else st)
  | (None, st) =>
      match r_Status record with
      | StatusCompleted => (Return (set_record record result) None, st)
      | StatusCompensated => (Return (set_record record result) (Some ErrCompensated), st)
      | StatusFailed => (Return (set_record record result) (Some ErrFailed), st)
      | StatusRunning => run_forward fence result record st
      | StatusCompensating => run_backward fence result record st
      | StatusOther _ => (Return result (Some ErrInvalidOption), st)
      end
  end.

(** [None] when the fuel runs out; the outer option of the answer is a panic. *)
Fixpoint loop (fuel : nat) (fence : Z) (result : Result) (record : Record) (st : state) :
    option (option (Result * option serror) * state) :=
  match fuel with
  | O => None
  | S fuel =>
      match iterate fence result record st with
      | (Continue result record, st) => loop fuel fence result record st
      | (Return result err, st) => Some (Some (result, err), st)
      | (Panic, st) => Some (None, st)
      end
  end.

Definition zero_result : Result := mkResult zero_record 0 0.

(** [Run] on a non-nil context whose cause at entry is [entry_cause].  The deferred release
    runs on every return, and on a panic, whose error it cannot change. *)
Definition Run (fuel : nat) (entry_cause : option serror) (id : string) (st : state) :
    option (option (Result * option serror) * state) :=
  if negb (validIdentity id maxIdentityBytes)
  then Some (Some (zero_result, Some ErrInvalidOption), st)
  else match entry_cause with
  | Some cause => Some (Some (zero_result, Some cause), st)
  | None =>
      match co_TryAcquire ("saga/" +:+ d_Name (e_definition e) +:+ "/" +:+ id) (e_leaseTTL e) (snd st) with
      | (Err err, w) => Some (Some (zero_result, Some (Wrapped "saga: acquire lease" err)), (fst st, w))
      | (Ok None, w) => Some (Some (zero_result, Some ErrContended), count contended (fst st, w))
      | (Ok (Some lease), w) =>
          let st := count started (count (active 1) (fst st, w)) in
          let finish (answer : option (Result * option serror)) (st : state) :=
            let '(released, w) := co_Release lease (snd st) in
            let st := count (active (-1)) (fst st, w) in
            (match answer with
             | Some (result, err) => Some (result, join err released)
             | None => None
             end, st) in
          let fence := co_Fence lease w in
          match loadOrCreate id fence st with
          | (Err err, st) => Some (finish (Some (zero_result, Some err)) st)
          | (Ok record, st) =>
              match loop fuel fence (mkResult record 0 0) record st with
              | None => None
              | Some (answer, st) => Some (finish answer st)
              end
          end
      end
  end.
End engine.

(** ** saga/memory: the in-memory repository *)
Module Memory.

Record RepoState := mkRepo { rp_records : gmap string Record; rp_fences : gmap string Z }.
Definition New : RepoState := mkRepo ∅ ∅.

(** The context of a call: nil, or its cause. *)
Definition Load (ctx : context serror) (id : string) (r : RepoState) : result serror Record * RepoState :=
  match ctx with
  | NilContext => (Err ErrInvalidOption, r)
  | Context (Some cause) => (Err cause, r)
  | Context None =>
      match rp_records r !! id with
      | None => (Err ErrNotFound, r)
      | Some record => (Ok record, r)
      end
  end.

Definition Create (ctx : context serror) (record : Record) (fence : Z) (r : RepoState) :
    result serror Record * RepoState :=
  match ctx with
  | NilContext => (Err ErrInvalidOption, r)
  | Context cause =>
      if fence =? 0 then (Err ErrInvalidOption, r)
      else match cause with
      | Some cause => (Err cause, r)
      | None =>
          let record := with_revision 1 record in
          match Record_Validate record with
          | Some err => (Err err, r)
          | None =>
              match rp_records r !! r_ID record with
              | Some _ => (Err ErrAlreadyExists, r)
              | None => (Ok record, mkRepo (<[r_ID record := record]> (rp_records r))
                                      (<[r_ID record := fence]> (rp_fences r)))
              end
          end
      end
  end.

Definition Save (ctx : context serror) (record : Record) (expectedRevision fence : Z) (r : RepoState) :
    result serror Record * RepoState :=
  match ctx with
  | NilContext => (Err ErrInvalidOption, r)
  | Context cause =>
      if (expectedRevision =? 0) || (fence =? 0) then (Err ErrInvalidOption, r)
      else match cause with
      | Some cause => (Err cause, r)
      | None =>
          match rp_records r !! r_ID record with
          | None => (Err ErrNotFound, r)
          | Some current =>
              if fence <? default 0 (rp_fences r !! r_ID record) then (Err ErrStaleFence, r)
              else if negb (r_Revision current =? expectedRevision) then (Err ErrConflict, r)
              else if (r_Definition current != r_Definition record) ||
                      (r_Version current != r_Version record)
              then (Err ErrDefinitionMismatch, r)
              else
                let record := with_revision (u64_add expectedRevision 1) record in
                match Record_Validate record with
                | Some err => (Err err, r)
                | None => (Ok record, mkRepo (<[r_ID record := record]> (rp_records r))
                                        (<[r_ID record := fence]> (rp_fences r)))
                end
          end
      end
  end.
End Memory.
