(* ===== verification/SagaSpec.v ===== *)
(** * saga: the protocol the engine implements

    An abstract saga is a position in a list of steps, moved by handler events.  The engine's
    loop, run by any number of owners one after the other over a repository that keeps what
    it acknowledges, refines it: whatever the handlers, the clock, the context and the failing
    saves do, the durable record and the log of handler calls stay in step with the protocol.
    The memory repository and coordinator discharge the interface laws. *)
From S2P Require Import Prelude GoText Sha256 Saga.
From S2P Require Coordination.
Open Scope Z_scope.

(** ** The abstract protocol *)
Record event := mkEvent { ev_index : Z; ev_phase : Phase; ev_ok : bool }.

Inductive astate :=
| Forward (k : Z)        (* steps below k are done, k is next *)
| Backward (k c : Z)     (* step k failed; c is compensated next *)
| Done
| Undone (k : Z)
| Broken (k c : Z).

Section protocol.
  Context (n : Z) (comp : Z → bool).

Inductive protocol_step : astate → list event → astate → Prop :=
| p_action_ok k : 0 ≤ k < n → protocol_step (Forward k) [mkEvent k PhaseAction true] (Forward (k + 1))
| p_action_repeat k ok : 0 ≤ k < n → protocol_step (Forward k) [mkEvent k PhaseAction ok] (Forward k)
| p_action_abort k ok :
    0 ≤ k < n → protocol_step (Forward k) [mkEvent k PhaseAction ok] (Backward k (k - 1))
| p_finish k : n ≤ k → protocol_step (Forward k) [] Done
| p_skip k c : 0 ≤ c → comp c = false → protocol_step (Backward k c) [] (Backward k (c - 1))
| p_undo k c :
    0 ≤ c → comp c = true →
    protocol_step (Backward k c) [mkEvent c PhaseCompensation true] (Backward k (c - 1))
| p_undo_repeat k c ok :
    0 ≤ c → comp c = true → protocol_step (Backward k c) [mkEvent c PhaseCompensation ok] (Backward k c)
| p_undo_break k c ok :
    0 ≤ c → comp c = true → protocol_step (Backward k c) [mkEvent c PhaseCompensation ok] (Broken k c)
| p_undone k c : c < 0 → protocol_step (Backward k c) [] (Undone k).

Inductive reach : astate → list event → Prop :=
| reach_start : reach (Forward 0) []
| reach_more a l evs a' : reach a l → protocol_step a evs a' → reach a' (l ++ evs).

Definition is_action (ev : event) : Prop := ev_phase ev = PhaseAction.
Definition is_undo (ev : event) : Prop := ev_phase ev = PhaseCompensation.
Definition earlier (a b : event) : Prop := ev_index a ≤ ev_index b.
Definition later (a b : event) : Prop := ev_index b ≤ ev_index a.

(** Actions 0..k-1 succeeded; the actions ran in step order, none beyond step k. *)
Record actions_done (k : Z) (A : list event) : Prop := mk_actions_done {
  ad_actions : Forall is_action A;
  ad_order : StronglySorted earlier A;
  ad_bound : ∀ ev, ev ∈ A → 0 ≤ ev_index ev ≤ k;
  ad_ok : ∀ i, 0 ≤ i < k → mkEvent i PhaseAction true ∈ A
}.

(** The compensations of steps c+1..k-1 that have one succeeded; they ran in reverse step
    order, and none outside c..k-1 ran. *)
Record undos_done (k c : Z) (C : list event) : Prop := mk_undos_done {
  ud_undos : Forall is_undo C;
  ud_order : StronglySorted later C;
  ud_bound : ∀ ev, ev ∈ C → Z.max 0 c ≤ ev_index ev < k ∧ comp (ev_index ev) = true;
  ud_ok : ∀ i, c < i < k → comp i = true → mkEvent i PhaseCompensation true ∈ C
}.

(** What a state of the protocol says about the events so far: all actions come before all
    compensations. *)
Definition explains (a : astate) (l : list event) : Prop :=
  ∃ A C, l = A ++ C ∧
  match a with
  | Forward k => C = [] ∧ 0 ≤ k ≤ n ∧ actions_done k A
  | Backward k c | Broken k c => 0 ≤ k < n ∧ -1 ≤ c < k ∧ actions_done k A ∧ undos_done k c C
  | Done => C = [] ∧ actions_done n A
  | Undone k => 0 ≤ k < n ∧ actions_done k A ∧ undos_done k (-1) C
  end.

Lemma sorted_snoc (R : event → event → Prop) (l : list event) ev :
  StronglySorted R l → (∀ x, x ∈ l → R x ev) → StronglySorted R (l ++ [ev]).
Proof.
  intros Hs Hx. apply StronglySorted_app. split_and!; [|done|repeat constructor].
  intros x y Hxl Hy. apply list_elem_of_singleton in Hy as ->. auto.
Qed.

Lemma actions_done_snoc k k' A ev :
  actions_done k A → is_action ev → ev_index ev = k → k ≤ k' ≤ k + 1 → 0 ≤ k →
  (k' = k + 1 → ev = mkEvent k PhaseAction true) → actions_done k' (A ++ [ev]).
Proof.
  intros [H1 H2 H3 H4] Hact Hidx Hk H0 Hok. constructor.
  - apply Forall_app. auto.
  - apply sorted_snoc; [done|]. intros x Hx%H3. unfold earlier. lia.
  - intros x [Hx|Hx%list_elem_of_singleton]%elem_of_app; [apply H3 in Hx; lia|subst x; lia].
  - intros i Hi. apply elem_of_app. destruct (decide (i < k)) as [|]; [left; apply H4; lia|].
    right. rewrite Hok by lia. replace i with k by lia. set_solver.
Qed.

Lemma undos_done_snoc k c c' C ev :
  undos_done k c C → is_undo ev → ev_index ev = c → 0 ≤ c < k → comp c = true → c - 1 ≤ c' ≤ c →
  (c' = c - 1 → ev = mkEvent c PhaseCompensation true) → undos_done k c' (C ++ [ev]).
Proof.
  intros [H1 H2 H3 H4] Hact Hidx Hc Hcomp Hc' Hok. constructor.
  - apply Forall_app. auto.
  - apply sorted_snoc; [done|]. intros x Hx%H3. unfold later. lia.
  - intros x [Hx|Hx%list_elem_of_singleton]%elem_of_app; [|subst x].
    + apply H3 in Hx as [? ?]. split; [lia|done].
    + rewrite Hidx. split; [lia|done].
  - intros i Hi Hci. apply elem_of_app. destruct (decide (c < i)) as [|]; [left; apply H4; [lia|done]|].
    right. rewrite Hok by lia. replace i with c by lia. set_solver.
Qed.

Lemma undos_done_skip k c C :
  undos_done k c C → comp c = false → undos_done k (c - 1) C.
Proof.
  intros [H1 H2 H3 H4] Hc. constructor; [done..| |].
  - intros ev Hev. apply H3 in Hev as [? ?]. split; [lia|done].
  - intros i Hi Hci. apply H4; [|done]. destruct (decide (i = c)) as [->|]; [congruence|lia].
Qed.

Lemma undos_done_start k : undos_done k (k - 1) [].
Proof. constructor; [constructor|constructor|set_solver|lia]. Qed.

Lemma reach_explains a l : 0 ≤ n → reach a l → explains a l.
Proof.
  intros Hn. induction 1 as [|a l evs a' _ IH Hs].
  { exists [], []. split_and!; try done. constructor; [constructor|constructor|set_solver|lia]. }
  destruct IH as (A & C & -> & Ha). destruct Hs; cbn in Ha.
  - destruct Ha as (-> & Hk & HA). exists (A ++ [mkEvent k PhaseAction true]), [].
    rewrite !app_nil_r. split; [done|]. split; [done|]. split; [lia|].
    eapply actions_done_snoc; eauto; done || lia.
  - destruct Ha as (-> & Hk & HA). exists (A ++ [mkEvent k PhaseAction ok]), [].
    rewrite !app_nil_r. split; [done|]. split; [done|]. split; [lia|].
    eapply actions_done_snoc; eauto; done || lia.
  - destruct Ha as (-> & Hk & HA). exists (A ++ [mkEvent k PhaseAction ok]), [].
    rewrite !app_nil_r. split; [done|]. split; [lia|]. split; [lia|]. split; [|apply undos_done_start].
    eapply actions_done_snoc; eauto; done || lia.
  - destruct Ha as (-> & Hk & HA). exists A, []. rewrite !app_nil_r. split_and!; try done.
    by replace n with k by lia.
  - destruct Ha as (Hk & Hc & HA & HC). exists A, C. rewrite app_nil_r.
    split_and!; try done; try lia. by apply undos_done_skip.
  - destruct Ha as (Hk & Hc & HA & HC). exists A, (C ++ [mkEvent c PhaseCompensation true]).
    rewrite app_assoc. split_and!; try done; try lia. eapply undos_done_snoc; eauto; done || lia.
  - destruct Ha as (Hk & Hc & HA & HC). exists A, (C ++ [mkEvent c PhaseCompensation ok]).
    rewrite app_assoc. split_and!; try done; try lia. eapply undos_done_snoc; eauto; done || lia.
  - destruct Ha as (Hk & Hc & HA & HC). exists A, (C ++ [mkEvent c PhaseCompensation ok]).
    rewrite app_assoc. split_and!; try done; try lia. eapply undos_done_snoc; eauto; done || lia.
  - destruct Ha as (Hk & Hc & HA & HC). exists A, C. rewrite app_nil_r.
    split_and!; try done; try lia. by replace (-1) with c by lia.
Qed.
End protocol.

(** ** Observing handler calls

    The same engine over a world that also records every handler call. *)
Section logged.
  Context {W : Type}.
Definition logged : Type := W * list event.

Definition lift {A} (f : W → A * W) (w : logged) : A * logged :=
  let '(a, w') := f (fst w) in (a, (w', snd w)).

#[export] Instance logged_world `{World W} : World logged :=
  { w_cause := lift w_cause; w_step_cause := lift w_step_cause; w_clock := lift w_clock }.
#[export] Instance logged_repository `{Repository W} : Repository logged :=
  { repo_Load id := lift (repo_Load id); repo_Create r f := lift (repo_Create r f);
    repo_Save r v f := lift (repo_Save r v f) }.
#[export] Instance logged_coord `{Coord W} : Coord logged :=
  { co_TryAcquire k t := lift (co_TryAcquire k t); co_Fence l w := co_Fence l (fst w);
    co_Release l := lift (co_Release l) }.

Definition returned_nil (o : handler_outcome) : bool :=
  match o with Returned None => true | _ => false end.

Definition log_handler (h : Handler W) : Handler logged :=
  λ inv w, let '(o, w') := h inv (fst w) in
    (o, (w', snd w ++ [mkEvent (i_StepIndex inv) (i_Phase inv) (returned_nil o)])).

Definition log_step (s : Step W) : Step logged :=
  mkStep (p_Name s) (log_handler <$> p_Action s) (log_handler <$> p_Compensate s).
Definition log_definition (d : Definition_ W) : Definition_ logged :=
  mkDefinition (d_Name d) (d_Version d) (log_step <$> d_Steps d).
Definition log_engine (e : Engine W) : Engine logged :=
  mkEngine (log_definition (e_definition e)) (e_leaseTTL e) (e_stepTimeout e)
    (e_maxCompensationAttempts e) (e_classify e).
End logged.
Arguments logged : clear implicits.

(** ** What the engine relies on

    [view w id] is the durable record of [id]; the laws say that a repository keeps what it
    acknowledges, changes nothing when it fails, and that nobody else writes the record while
    the owner runs (the lease and the fence are there for that). *)
Class SoleOwner (W : Type) `{World W, Repository W, Coord W} (d : Definition_ W)
    (view : W → string → option Record) : Prop := {
  so_load id w r w' : repo_Load id w = (r, w') → (∀ i, view w' i = view w i) ∧
    match r with
    | Ok record => view w id = Some record
    | Err err => error_is err ErrNotFound = true → view w id = None
    end;
  so_create record fence w r w' : repo_Create record fence w = (r, w') →
    match r with
    | Ok record' => record' = with_revision 1 record ∧ view w (r_ID record) = None ∧
        ∀ i, view w' i = if decide (i = r_ID record) then Some record' else view w i
    | Err _ => ∀ i, view w' i = view w i
    end;
  so_save record expected fence w r w' : repo_Save record expected fence w = (r, w') →
    match r with
    | Ok record' => record' = with_revision (u64_add expected 1) record ∧
        ∀ i, view w' i = if decide (i = r_ID record) then Some record' else view w i
    | Err _ => ∀ i, view w' i = view w i
    end;
  so_cause w i : view (snd (w_cause w)) i = view w i;
  so_step_cause w i : view (snd (w_step_cause w)) i = view w i;
  so_clock w i : view (snd (w_clock w)) i = view w i;
  so_acquire key ttl w i : view (snd (co_TryAcquire key ttl w)) i = view w i;
  so_release l w i : view (snd (co_Release l w)) i = view w i;
  so_handler s h inv w i : s ∈ d_Steps d → p_Action s = Some h ∨ p_Compensate s = Some h →
    view (snd (h inv w)) i = view w i
}.

(** The protocol state of a durable record. *)
Definition abstract (r : Record) : option astate :=
  match r_Status r with
  | StatusRunning => Some (Forward (r_NextStep r))
  | StatusCompensating => Some (Backward (r_NextStep r) (r_CompensationIndex r))
  | StatusCompleted => Some Done
  | StatusCompensated => Some (Undone (r_NextStep r))
  | StatusFailed => Some (Broken (r_NextStep r) (r_CompensationIndex r))
  | StatusOther _ => None
  end.

Lemma steps_ok_action {W} seen (l : list (Step W)) s :
  steps_ok seen l = true → s ∈ l → is_Some (p_Action s).
Proof.
  revert seen. induction l as [|s' l IH]; intros seen; cbn; [set_solver|].
  intros Hok. bool_hyps. intros [->|Hin]%elem_of_cons; [done|eauto].
Qed.

Section refinement.
  Context {W : Type} `{HW : World W, HR : Repository W, HC : Coord W}.
  Context (e : Engine W) (view : W → string → option Record).
  Context {Hso : SoleOwner W (e_definition e) view}.
  Context (Hdef : Definition_Validate (e_definition e) = None).

Definition steps : Z := zlen (d_Steps (e_definition e)).
Definition compensable (i : Z) : bool :=
  match nth_step e i with
  | Some s => bool_decide (is_Some (p_Compensate s))
  | None => false
  end.

(** The durable state of [id] and the log are a state of the protocol. *)
Definition at_record (id : string) (w : logged W) (record : Record) (a : astate) : Prop :=
  view (fst w) id = Some record ∧ r_ID record = id ∧ abstract record = Some a ∧
  reach steps compensable a (snd w).

Lemma logged_step i :
  nth_step (log_engine e) i = log_step <$> nth_step e i.
Proof.
  unfold nth_step. cbn. case_match; [done|]. apply list_lookup_fmap.
Qed.

Lemma action_present s : s ∈ d_Steps (e_definition e) → is_Some (p_Action s).
Proof using Hdef.
  unfold Definition_Validate in Hdef. case_match; [done|]. case_match; [done|]. bool_hyps.
  by eapply steps_ok_action.
Qed.

Lemma nth_step_elem i s : nth_step e i = Some s → s ∈ d_Steps (e_definition e) ∧ 0 ≤ i < steps.
Proof.
  unfold nth_step, steps, zlen. destruct (Z.ltb_spec i 0); [done|]. intros Hl.
  split; [by eapply list_elem_of_lookup_2|]. apply lookup_lt_Some in Hl. lia.
Qed.

Lemma nth_step_some i : 0 ≤ i < steps → ∃ s, nth_step e i = Some s.
Proof.
  intros Hi. unfold nth_step, steps, zlen in *. destruct (Z.ltb_spec i 0); [lia|].
  destruct (lookup_lt_is_Some_2 (d_Steps (e_definition e)) (Z.to_nat i)) as [s Hs]; [lia|eauto].
Qed.

(** *** The engine's calls on the logged world *)
Lemma cause_view (st : Counters * logged W) c st' :
  cause st = (c, st') →
  fst st' = fst st ∧ (∀ i, view (fst (snd st')) i = view (fst (snd st)) i) ∧ snd (snd st') = snd (snd st).
Proof using Hso.
  unfold cause. cbn. unfold lift. destruct (w_cause (fst (snd st))) as [x w] eqn:Hx. intros [= <- <-]. cbn.
  split_and!; try done. intros i. rewrite <- (so_cause (fst (snd st)) i). by rewrite Hx.
Qed.

Lemma save_view record fence (st : Counters * logged W) r st' :
  save record fence st = (r, st') →
  snd (snd st') = snd (snd st) ∧
  match r with
  | Ok saved => fst st' = fst st ∧ ∃ now,
      saved = with_revision (u64_add (r_Revision record) 1) (with_updated now record) ∧
      ∀ i, view (fst (snd st')) i =
        if decide (i = r_ID record) then Some saved else view (fst (snd st)) i
  | Err _ => ∀ i, view (fst (snd st')) i = view (fst (snd st)) i
  end.
Proof using Hso.
  unfold save. cbn. unfold lift. destruct (w_clock (fst (snd st))) as [now w] eqn:Hc. cbn.
  destruct (repo_Save _ _ _ w) as [[saved|err] w'] eqn:Hs; cbn; intros [= <- <-]; cbn; (split; [done|]);
    apply so_save in Hs; pose proof (so_clock (fst (snd st))) as Hcv; rewrite Hc in Hcv; cbn in Hcv.
  - destruct Hs as [-> Hv]. split; [done|]. exists now. split; [done|].
    intros i. rewrite Hv. cbn. by rewrite Hcv.
  - intros i. by rewrite Hs, Hcv.
Qed.

Lemma invoke_view s h inv (st : Counters * logged W) r st' :
  s ∈ d_Steps (e_definition e) → p_Action s = Some h ∨ p_Compensate s = Some h →
  invoke (Some (log_handler h)) inv st = (r, st') →
  fst st' = fst st ∧ (∀ i, view (fst (snd st')) i = view (fst (snd st)) i) ∧
  ∃ ok, snd (snd st') = snd (snd st) ++ [mkEvent (i_StepIndex inv) (i_Phase inv) ok] ∧
    (r = None → ok = true).
Proof using Hso.
  intros Hs Hh. unfold invoke, log_handler. pose proof (so_handler s h inv (fst (snd st))) as Hv.
  destruct (h inv (fst (snd st))) as [o w] eqn:Ho. cbn in Hv.
  destruct o as [[err|]|]; cbn.
  - intros [= <- <-]. cbn. split_and!; [done|by auto|]. eexists. split; done.
  - unfold lift. cbn. destruct (w_step_cause w) as [c w'] eqn:Hc. intros [= <- <-]. cbn.
    split_and!; [done| |eexists; split; [done|done]].
    intros i. rewrite <- Hv by auto. rewrite <- (so_step_cause w i). by rewrite Hc.
  - intros [= <- <-]. cbn. split_and!; [done|by auto|]. eexists. split; done.
Qed.

(** *** One iteration *)
Lemma at_keep id (w w' : logged W) record a :
  at_record id w record a → (∀ i, view (fst w') i = view (fst w) i) →
  reach steps compensable a (snd w') → at_record id w' record a.
Proof. intros (Hv & Hid & Ha & _) Hw Hr. split_and!; [by rewrite Hw|done..]. Qed.

Lemma save_at id record a next a' fence (st : Counters * logged W) r st' :
  at_record id (snd st) record a → r_ID next = id → abstract next = Some a' →
  reach steps compensable a' (snd (snd st)) → save next fence st = (r, st') →
  match r with
  | Ok saved => at_record id (snd st') saved a' ∧
      ∃ now, saved = with_revision (u64_add (r_Revision next) 1) (with_updated now next)
  | Err _ => at_record id (snd st') record a
  end.
Proof using Hso.
  intros Hat Hid Ha Hr [Hlog Hs]%save_view. destruct r as [saved|err].
  - destruct Hs as (_ & now & -> & Hv). split; [|eauto]. split_and!.
    + rewrite Hv. cbn. by rewrite decide_True.
    + done.
    + done.
    + by rewrite Hlog.
  - eapply at_keep; [done..|]. rewrite Hlog. apply Hat.
Qed.

Definition measure (r : Record) : nat :=
  match r_Status r with
  | StatusRunning => Z.to_nat (2 * steps + 2 - r_NextStep r)
  | StatusCompensating => Z.to_nat (r_CompensationIndex r + 3)
  | _ => 1
  end.

(** What one iteration leaves behind. *)
Definition turned (id : string) (before : Record) (t : turn) (st' : Counters * logged W) : Prop :=
  ∃ record a, at_record id (snd st') record a ∧
  match t with
  | Continue _ next => next = record ∧ (measure next < measure before)%nat
  | Return x err => err = None → r_Status record = StatusCompleted ∧ x_Record x = record
  | Panic => False
  end.

Lemma turned_return id before x err st' record a :
  at_record id (snd st') record a → turned id before (Return x (Some err)) st'.
Proof. intros Hat. exists record, a. done. Qed.

Lemma steps_nonneg : 0 ≤ steps.
Proof. apply zlen_nonneg. Qed.

Lemma forward_turned id fence x record (st : Counters * logged W) t st' :
  at_record id (snd st) record (Forward (r_NextStep record)) → r_Status record = StatusRunning →
  run_forward (log_engine e) fence x record st = (t, st') → turned id record t st'.
Proof using Hso Hdef.
  intros Hat Hst. pose proof Hat as (Hview & Hid & _ & Hreach). pose proof steps_nonneg as Hn.
  pose proof (reach_explains _ _ _ _ Hn Hreach) as (_ & _ & _ & _ & Hk & _). fold steps in Hk.
  unfold run_forward. change (zlen (d_Steps (e_definition (log_engine e)))) with (zlen (log_step <$> d_Steps (e_definition e))).
  replace (zlen (log_step <$> d_Steps (e_definition e))) with steps by (unfold steps, zlen; by rewrite length_fmap).
  destruct (Z.leb_spec steps (r_NextStep record)) as [Hge|Hlt].
  { destruct (save _ fence st) as [r st1] eqn:Hs.
    eapply (save_at id record _ _ Done) in Hs; [|done..|].
    2:{ rewrite <- (app_nil_r (snd (snd st))). eapply reach_more; [done|]. by apply p_finish. }
    destruct r as [saved|err]; intros [= <- <-]; [|by eapply turned_return].
    destruct Hs as [Hat1 [now Heq]]. exists saved, Done. split; [done|]. split; [done|].
    rewrite Heq. unfold measure. cbn. rewrite Hst. lia. }
  destruct (nth_step_some (r_NextStep record) ltac:(lia)) as [s Hs]. rewrite logged_step, Hs. cbn [fmap option_fmap option_map].
  destruct (nth_step_elem _ _ Hs) as [Hin _]. destruct (action_present s Hin) as [h Hh].
  destruct (save _ fence st) as [r st1] eqn:Hsave.
  eapply (save_at id record _ _ (Forward (r_NextStep record))) in Hsave; [|done|done| |done].
  2:{ unfold abstract. cbn. by rewrite Hst. }
  destruct r as [rec1|err]; [|intros [= <- <-]; by eapply turned_return].
  destruct Hsave as [Hat1 [now Heq1]].
  assert (Hf1 : r_NextStep rec1 = r_NextStep record ∧ r_Status rec1 = StatusRunning ∧ r_ID rec1 = id) by (by rewrite Heq1).
  destruct Hf1 as (Hnext & Hst1 & Hid1). rewrite <- Hnext in *. clear Heq1.
  cbn [p_Action log_step]. rewrite Hh. cbn [fmap option_fmap option_map].
  destruct (invoke _ _ st1) as [o st2] eqn:Hinv.
  eapply (invoke_view s h) in Hinv as (Hk2 & Hv2 & ok & Hlog2 & Hok); [|done|by left].
  cbn [i_StepIndex i_Phase invocation] in Hlog2. pose proof Hat1 as (_ & _ & _ & Hr1).
  assert (Hrep : reach steps compensable (Forward (r_NextStep rec1)) (snd (snd st2))).
  { rewrite Hlog2. eapply reach_more; [done|]. apply p_action_repeat. lia. }
  pose proof (at_keep _ _ _ _ _ Hat1 Hv2 Hrep) as Hat2.
  destruct o as [err|].
  - destruct (cause st2) as [c st3] eqn:Hcause. apply cause_view in Hcause as (_ & Hv3 & Hl3).
    assert (Hat3 : at_record id (snd st3) rec1 (Forward (r_NextStep rec1))).
    { eapply at_keep; [done..|]. by rewrite Hl3. }
    destruct c as [c|]; [intros [= <- <-]; by eapply turned_return|].
    destruct (save _ fence (count actionFailures st3)) as [r st4] eqn:Hs4.
    eapply (save_at id rec1 _ _ (Backward (r_NextStep rec1) (r_NextStep rec1 - 1))) in Hs4; [|done..|].
    2:{ cbn. rewrite Hl3, Hlog2. eapply reach_more; [done|]. apply p_action_abort. lia. }
    destruct r as [rec2|err2]; intros [= <- <-]; [|by eapply turned_return].
    destruct Hs4 as [Hat4 [now2 Heq2]]. eexists rec2, _. split; [exact Hat4|]. split; [done|].
    rewrite Heq2. unfold measure. cbn. rewrite Hst. lia.
  - destruct (save _ fence st2) as [r st3] eqn:Hs3.
    eapply (save_at id rec1 _ _ (Forward (r_NextStep rec1 + 1))) in Hs3; [|done..| |].
    2:{ unfold abstract. cbn. by rewrite Hst1. }
    2:{ rewrite Hlog2, (Hok eq_refl). eapply reach_more; [done|]. apply p_action_ok. lia. }
    destruct r as [rec2|err2]; intros [= <- <-]; [|by eapply turned_return].
    destruct Hs3 as [Hat3 [now2 Heq2]]. eexists rec2, _. split; [exact Hat3|]. split; [done|].
    rewrite Heq2. unfold measure. cbn. rewrite Hst, Hst1. lia.
Qed.

(** The branch of [run_backward] after a failed compensation. *)
Lemma compensation_failed_turned id fence x before rec1 err (st2 : Counters * logged W) t st' :
  at_record id (snd st2) rec1 (Backward (r_NextStep rec1) (r_CompensationIndex rec1)) →
  r_Status rec1 = StatusCompensating →
  reach steps compensable (Broken (r_NextStep rec1) (r_CompensationIndex rec1)) (snd (snd st2)) →
  match cause st2 with
  | (Some cause, st) => (Return x (Some cause), st)
  | (None, st) =>
      let st := count compensationFailures st in
      let record := with_reasons (r_CauseReason rec1) (failureReason (log_engine e) err) rec1 in
      let record :=
        if e_maxCompensationAttempts (log_engine e) <=? r_Attempt record
        then with_status StatusFailed record else record in
      match save record fence st with
      | (Err saveErr, st) => (Return (set_record zero_record x) (Some saveErr), st)
      | (Ok record, st) =>
          let result := set_record record x in
          if r_Status record == StatusFailed
          then (Return result (Some (Joined ErrFailed err)), count terminalFailures st)
          else (Return result (Some (Wrapped "saga: compensate step" err)), st)
      end
  end = (t, st') → turned id before t st'.
Proof using Hso.
  intros Hat Hst Hbreak. destruct (cause st2) as [c st3] eqn:Hcause.
  apply cause_view in Hcause as (_ & Hv3 & Hl3). pose proof Hat as (_ & Hid & _ & Hreach).
  assert (Hat3 : at_record id (snd st3) rec1 (Backward (r_NextStep rec1) (r_CompensationIndex rec1))).
  { eapply at_keep; [done..|]. by rewrite Hl3. }
  destruct c as [c|]; [intros [= <- <-]; by eapply turned_return|]. cbv zeta.
  match goal with |- context [save ?r fence ?s] => set (next := r); destruct (save next fence s) as [r' st4] eqn:Hs4 end.
  assert (Hnext : ∃ a', r_ID next = id ∧ abstract next = Some a' ∧ reach steps compensable a' (snd (snd st3))).
  { subst next. rewrite Hl3. case_match; eexists; (split; [done|]); unfold abstract; cbn; rewrite ?Hst; done. }
  destruct Hnext as (a' & Hid' & Ha' & Hr'). eapply (save_at id rec1 _ next a') in Hs4; [|done..].
  destruct r' as [rec2|err2]; [|intros [= <- <-]; by eapply turned_return].
  destruct Hs4 as [Hat4 _]. case_match; intros [= <- <-]; by eapply turned_return.
Qed.

Lemma backward_turned id fence x record (st : Counters * logged W) t st' :
  at_record id (snd st) record (Backward (r_NextStep record) (r_CompensationIndex record)) →
  r_Status record = StatusCompensating →
  run_backward (log_engine e) fence x record st = (t, st') → turned id record t st'.
Proof using Hso.
  intros Hat Hst. pose proof Hat as (Hview & Hid & _ & Hreach). pose proof steps_nonneg as Hn.
  pose proof (reach_explains _ _ _ _ Hn Hreach) as (_ & _ & _ & Hk & Hc & _).
  unfold run_backward. destruct (Z.ltb_spec (r_CompensationIndex record) 0) as [Hneg|Hpos].
  { destruct (save _ fence st) as [r st1] eqn:Hs.
    eapply (save_at id record _ _ (Undone (r_NextStep record))) in Hs; [|done..|].
    2:{ rewrite <- (app_nil_r (snd (snd st))). eapply reach_more; [done|]. by apply p_undone. }
    destruct r as [saved|err]; intros [= <- <-]; [|by eapply turned_return].
    destruct Hs as [Hat1 [now Heq]]. eexists saved, _. split; [done|]. split; [done|].
    rewrite Heq. unfold measure. cbn. rewrite Hst. lia. }
  destruct (nth_step_some (r_CompensationIndex record) ltac:(lia)) as [s Hs].
  rewrite logged_step, Hs. cbn [fmap option_fmap option_map p_Compensate log_step p_Name].
  destruct (nth_step_elem _ _ Hs) as [Hin _].
  assert (Hcomp : compensable (r_CompensationIndex record) = bool_decide (is_Some (p_Compensate s)))
    by (unfold compensable; by rewrite Hs).
  destruct (p_Compensate s) as [h|] eqn:Hh; cbn [fmap option_fmap option_map].
  2:{ destruct (save _ fence st) as [r st1] eqn:Hsave.
      eapply (save_at id record _ _ (Backward (r_NextStep record) (r_CompensationIndex record - 1))) in Hsave; [|done..| |].
      2:{ unfold abstract. cbn. by rewrite Hst. }
      2:{ rewrite <- (app_nil_r (snd (snd st))). eapply reach_more; [done|]. by apply p_skip. }
      destruct r as [saved|err]; intros [= <- <-]; [|by eapply turned_return].
      destruct Hsave as [Hat1 [now Heq]]. eexists saved, _. split; [done|]. split; [done|].
      rewrite Heq. unfold measure. cbn. rewrite Hst. lia. }
  rewrite bool_decide_true in Hcomp by eauto.
  destruct (save _ fence st) as [r st1] eqn:Hsave.
  eapply (save_at id record _ _ (Backward (r_NextStep record) (r_CompensationIndex record))) in Hsave; [|done|done| |done].
  2:{ unfold abstract. cbn. by rewrite Hst. }
  destruct r as [rec1|err]; [|intros [= <- <-]; by eapply turned_return].
  destruct Hsave as [Hat1 [now Heq1]].
  assert (Hf1 : r_NextStep rec1 = r_NextStep record ∧ r_CompensationIndex rec1 = r_CompensationIndex record ∧
    r_Status rec1 = StatusCompensating ∧ r_ID rec1 = id) by (by rewrite Heq1).
  destruct Hf1 as (Hnext & Hci & Hst1 & Hid1). rewrite <- Hnext, <- Hci in *. clear Heq1.
  destruct (invoke _ _ st1) as [o st2] eqn:Hinv.
  eapply (invoke_view s h) in Hinv as (Hk2 & Hv2 & ok & Hlog2 & Hok); [|done|by right].
  cbn [i_StepIndex i_Phase invocation] in Hlog2. pose proof Hat1 as (_ & _ & _ & Hr1).
  assert (Hrep : reach steps compensable (Backward (r_NextStep rec1) (r_CompensationIndex rec1)) (snd (snd st2))).
  { rewrite Hlog2. eapply reach_more; [done|]. by apply p_undo_repeat. }
  pose proof (at_keep _ _ _ _ _ Hat1 Hv2 Hrep) as Hat2. destruct o as [err|].
  - eapply compensation_failed_turned; [done..|].
    rewrite Hlog2. eapply reach_more; [done|]. by apply p_undo_break.
  - destruct (save _ fence st2) as [r st3] eqn:Hs3.
    eapply (save_at id rec1 _ _ (Backward (r_NextStep rec1) (r_CompensationIndex rec1 - 1))) in Hs3; [|done..| |].
    2:{ unfold abstract. cbn. by rewrite Hst1. }
    2:{ rewrite Hlog2, (Hok eq_refl). eapply reach_more; [done|]. by apply p_undo. }
    destruct r as [rec2|err2]; intros [= <- <-]; [|by eapply turned_return].
    destruct Hs3 as [Hat3 [now2 Heq2]]. eexists rec2, _. split; [exact Hat3|]. split; [done|].
    rewrite Heq2. unfold measure. cbn. rewrite Hst, Hst1. lia.
Qed.

Lemma iterate_turned id fence x record a (st : Counters * logged W) t st' :
  at_record id (snd st) record a → iterate (log_engine e) fence x record st = (t, st') →
  turned id record t st'.
Proof using Hso Hdef.
  intros Hat. unfold iterate. destruct (cause st) as [c st1] eqn:Hcause.
  apply cause_view in Hcause as (_ & Hv & Hl).
  assert (Hat1 : at_record id (snd st1) record a).
  { eapply at_keep; [done..|]. rewrite Hl. apply Hat. }
  destruct c as [c|].
  { intros [= <- <-]. case_match; by eapply turned_return. }
  pose proof Hat1 as (_ & _ & Ha & _). unfold abstract in Ha.
  destruct (r_Status record) eqn:Hst; simplify_eq.
  - by apply forward_turned.
  - by apply backward_turned.
  - intros [= <- <-]. eexists _, _. split; [done|]. done.
  - intros [= <- <-]. by eapply turned_return.
  - intros [= <- <-]. by eapply turned_return.
Qed.

(** *** The loop *)
Lemma loop_runs id fence fuel : ∀ x record a (st : Counters * logged W),
  at_record id (snd st) record a → (measure record ≤ fuel)%nat →
  ∃ x' err st' record' a', loop (log_engine e) fuel fence x record st = Some (Some (x', err), st') ∧
    at_record id (snd st') record' a' ∧
    (err = None → r_Status record' = StatusCompleted ∧ x_Record x' = record').
Proof using Hso Hdef.
  induction fuel as [|fuel IH]; intros x record a st Hat Hm.
  { exfalso. pose proof Hat as (_ & _ & Ha & Hr). pose proof steps_nonneg.
    pose proof (reach_explains _ _ _ _ ltac:(done) Hr) as (A & C & _ & Hex).
    unfold measure, abstract in *. destruct (r_Status record); simplify_eq; try lia; cbn in Hex; lia. }
  cbn [loop]. destruct (iterate _ fence x record st) as [t st1] eqn:Hit.
  apply (iterate_turned id _ _ _ a) in Hit as (rec1 & a1 & Hat1 & Ht); [|done].
  destruct t as [x1 next|x1 err|]; [|by eauto 10|done].
  destruct Ht as [-> Hlt]. apply (IH x1 rec1 a1 st1 Hat1). lia.
Qed.

(** *** Whole runs *)
Definition durable (id : string) (w : logged W) : Prop :=
  match view (fst w) id with
  | None => snd w = []
  | Some record => ∃ a, at_record id w record a
  end.

Lemma durable_keep id (w w' : logged W) :
  durable id w → (∀ i, view (fst w') i = view (fst w) i) → snd w' = snd w → durable id w'.
Proof.
  unfold durable. intros Hd Hv Hl. rewrite Hv. case_match; [|by rewrite Hl].
  destruct Hd as [a Ha]. exists a. eapply at_keep; [done..|]. rewrite Hl. apply Ha.
Qed.

Lemma loadOrCreate_durable id fence (st : Counters * logged W) r st' :
  durable id (snd st) → loadOrCreate (log_engine e) id fence st = (r, st') →
  match r with
  | Ok record => ∃ a, at_record id (snd st') record a
  | Err _ => durable id (snd st')
  end.
Proof using Hso.
  intros Hd. unfold loadOrCreate. cbn. unfold lift.
  destruct (repo_Load id (fst (snd st))) as [res w] eqn:Hload.
  apply so_load in Hload as [Hv Hres].
  assert (Hd1 : durable id (w, snd (snd st))) by (by eapply durable_keep).
  set (after := match res with Ok record => _ | Err err => _ end).
  destruct after as [res2 w2] eqn:Hafter.
  assert (H2 : match res2 with
               | Ok record => ∃ a, at_record id w2 record a
               | Err _ => durable id w2
               end).
  { subst after. destruct res as [record|err]; simplify_eq.
    - unfold durable in Hd1. cbn in Hd1. rewrite Hv, Hres in Hd1. exact Hd1.
    - destruct (error_is err ErrNotFound) eqn:Hnf; [|by simplify_eq].
      revert Hafter. cbn. destruct (w_clock w) as [now w3] eqn:Hclock. cbn.
      match goal with |- context [repo_Create ?r ?f ?v] =>
        destruct (repo_Create r f v) as [res3 w4] eqn:Hcreate end. intros [= <- <-].
      apply so_create in Hcreate. pose proof (so_clock w) as Hcv. rewrite Hclock in Hcv. cbn in Hcv.
      destruct res3 as [record|err3].
      + destruct Hcreate as (-> & Hnone & Hv4). exists (Forward 0). split_and!; try done.
        * cbn. rewrite Hv4. cbn. by rewrite decide_True.
        * cbn. unfold durable in Hd1. cbn in Hd1. rewrite Hv, (Hres eq_refl) in Hd1. rewrite Hd1. constructor.
      + eapply durable_keep; [exact Hd1| |done]. intros i. cbn. by rewrite Hcreate, Hcv. }
  clearbody after. subst after. destruct res2 as [record|err2]; [|by intros; simplify_eq/=].
  destruct H2 as [a Ha].
  assert (Hdr : durable id w2). { unfold durable. rewrite (proj1 Ha). eauto. }
  destruct (_ || (r_Version record != _)); [by intros; simplify_eq/=|].
  destruct (Record_Validate record); [by intros; simplify_eq/=|].
  destruct (_ || (_ <=? r_CompensationIndex record)); intros; simplify_eq/=; [done|eauto].
Qed.

Lemma at_record_measure id w record a :
  at_record id w record a → (measure record ≤ Z.to_nat (2 * steps + 2))%nat.
Proof.
  intros (_ & _ & Ha & Hr). pose proof steps_nonneg as Hn.
  pose proof (reach_explains _ _ _ _ Hn Hr) as (A & C & _ & Hex).
  unfold measure, abstract in *. destruct (r_Status record); simplify_eq; cbn in Hex; lia.
Qed.

(** A return before anything was written. *)
Ltac early := by (eexists _, _, _; split; [done|]; split; done).

Lemma Run_durable fuel entry_cause id (st : Counters * logged W) :
  durable id (snd st) → (Z.to_nat (2 * steps + 2) ≤ fuel)%nat →
  ∃ x err st', Run (log_engine e) fuel entry_cause id st = Some (Some (x, err), st') ∧
    durable id (snd st') ∧
    (err = None → view (fst (snd st')) id = Some (x_Record x) ∧ r_Status (x_Record x) = StatusCompleted).
Proof using Hso Hdef.
  intros Hd Hfuel. unfold Run. case_match; [early|]. destruct entry_cause as [c|]; [early|].
  cbn [co_TryAcquire logged_coord]. unfold lift.
  destruct (co_TryAcquire _ _ (fst (snd st))) as [res w] eqn:Hacq.
  assert (Hd1 : durable id (w, snd (snd st))).
  { eapply durable_keep; [done| |done]. intros i. cbn.
    match type of Hacq with co_TryAcquire ?k ?t ?v = _ =>
      rewrite <- (so_acquire (SoleOwner := Hso) k t v i) end. by rewrite Hacq. }
  destruct res as [[lease|]|err]; [|early..]. cbv zeta.
  destruct (loadOrCreate _ id _ _) as [r st1] eqn:Hload. apply loadOrCreate_durable in Hload; [|done].
  destruct r as [record|err].
  - destruct Hload as [a Ha]. pose proof (at_record_measure _ _ _ _ Ha) as Hm.
    match goal with |- context [loop _ fuel ?f ?x0 record st1] =>
      destruct (loop_runs id f fuel x0 record a st1 Ha ltac:(lia))
        as (x & err & st2 & rec2 & a2 & -> & Hat & Herr) end.
    cbn [co_Release logged_coord]. unfold lift. destruct (co_Release lease (fst (snd st2))) as [rel w3] eqn:Hrel.
    assert (Hv3 : ∀ i, view w3 i = view (fst (snd st2)) i).
    { intros i. rewrite <- (so_release (SoleOwner := Hso) lease (fst (snd st2)) i). by rewrite Hrel. }
    eexists x, _, _. split; [done|]. cbn. split.
    + eapply durable_keep; [|exact Hv3|done]. unfold durable. rewrite (proj1 Hat). eauto.
    + destruct err as [err|], rel as [rel|]; try done. intros _. destruct (Herr eq_refl) as [Hst ->].
      split; [|done]. rewrite Hv3. apply Hat.
  - cbn [co_Release logged_coord]. unfold lift. destruct (co_Release lease (fst (snd st1))) as [rel w3] eqn:Hrel.
    eexists _, _, _. split; [done|]. cbn. split.
    + eapply durable_keep; [done| |done]. intros i. cbn.
      rewrite <- (so_release (SoleOwner := Hso) lease (fst (snd st1)) i). by rewrite Hrel.
    + by destruct rel.
Qed.

(** One owner after the other runs the instance; every call may end in any way. *)
Definition run_again (id : string) (st st' : Counters * logged W) : Prop :=
  ∃ fuel entry_cause answer, (Z.to_nat (2 * steps + 2) ≤ fuel)%nat ∧
    Run (log_engine e) fuel entry_cause id st = Some (answer, st').

Lemma run_again_durable id st st' : durable id (snd st) → rtc (run_again id) st st' → durable id (snd st').
Proof using Hso Hdef.
  intros Hd H. induction H as [|st st1 st2 (fuel & c & ans & Hfuel & Hrun) _ IH]; [done|].
  apply IH. destruct (Run_durable fuel c id st Hd Hfuel) as (x & err & st' & Hrun' & Hd' & _).
  rewrite Hrun in Hrun'. by simplify_eq.
Qed.
End refinement.

(** C2: the saga guarantee.  Start an instance that does not exist and run it any number of
    times, by any owners, with handlers that fail or panic, contexts that end, saves that
    fail and leases that are lost.  Then the durable record and the log of handler calls
    always agree with the protocol: actions ran in step order, each step below the record's
    position succeeded, no action ran after the first compensation, compensations ran in
    reverse order, a completed record means every action succeeded and nothing was
    compensated, and a compensated record means every step below the record's position that has a
    compensation was compensated successfully.  An action that returned nil only after its step
    context had ended is taken for a failure and lies outside these steps
    ([late_action_not_compensated]). *)
Theorem saga_guarantee (W : Type) `{World W, Repository W, Coord W} (e : Engine W)
    (view : W → string → option Record) id w k st' :
  SoleOwner W (e_definition e) view → Definition_Validate (e_definition e) = None →
  view w id = None → rtc (run_again e id) (k, (w, [])) st' →
  match view (fst (snd st')) id with
  | None => snd (snd st') = []
  | Some record => ∃ a, abstract record = Some a ∧
      explains (steps e) (compensable e) a (snd (snd st'))
  end.
Proof.
  intros Hso Hdef Hnone Hrun.
  assert (Hd : durable e view id (w, [])) by (unfold durable; cbn; by rewrite Hnone).
  apply (run_again_durable e view Hdef id (k, (w, []))) in Hrun; [|done].
  unfold durable in Hrun. case_match; [|done]. destruct Hrun as (a & _ & _ & Ha & Hr).
  exists a. split; [done|]. apply reach_explains; [apply steps_nonneg|done].
Qed.

(** C36: every run ends.  Whatever the handlers, saves, clock, context and coordinator do, a
    run of an instance whose durable state follows the protocol returns (it neither loops for
    ever nor indexes out of the step list) within 2n+2 iterations for n steps, leaves a
    durable state that follows the protocol, and a nil error means the durable record is
    Completed and is the one returned. *)
Theorem saga_run_returns (W : Type) `{World W, Repository W, Coord W} (e : Engine W)
    (view : W → string → option Record) id (st : Counters * logged W) entry_cause :
  SoleOwner W (e_definition e) view → Definition_Validate (e_definition e) = None →
  durable e view id (snd st) →
  ∃ x err st', Run (log_engine e) (Z.to_nat (2 * steps e + 2)) entry_cause id st = Some (Some (x, err), st') ∧
    durable e view id (snd st') ∧
    (err = None → view (fst (snd st')) id = Some (x_Record x) ∧ r_Status (x_Record x) = StatusCompleted).
Proof. intros Hso Hdef Hd. by apply Run_durable. Qed.

(** ** The memory repository and coordinator implement the interfaces *)
Section memory.
  Context {E : Type} (env_cause env_step_cause : E → option serror * E) (env_clock : E → time * E).

(** [E] is the rest of the world: context, clock and business state. *)
Record memory_world := mkWorld {
  m_repo : Memory.RepoState;
  m_co : Coordination.Coordinator;
  m_env : E
}.

Definition on_env {A} (f : E → A * E) (w : memory_world) : A * memory_world :=
  let '(a, env) := f (m_env w) in (a, mkWorld (m_repo w) (m_co w) env).

(** A repository call sees the cause of its context. *)
Definition on_repo {A} (f : context serror → Memory.RepoState → A * Memory.RepoState)
    (w : memory_world) : A * memory_world :=
  let '(c, env) := env_cause (m_env w) in
  let '(a, repo) := f (Context c) (m_repo w) in (a, mkWorld repo (m_co w) env).

Definition from_coordination (c : option serror) (err : Coordination.coerror) : serror :=
  match err with
  | Coordination.ErrInvalidOption => ErrInvalidOption
  | Coordination.ErrLeaseLost => ErrLeaseLost
  | Coordination.ErrCause name => default (ErrForeign name) c
  end.

#[local] Instance memory_World : World memory_world :=
  { w_cause := on_env env_cause; w_step_cause := on_env env_step_cause; w_clock := on_env env_clock }.
#[local] Instance memory_Repository : Repository memory_world :=
  { repo_Load id := on_repo (λ ctx, Memory.Load ctx id);
    repo_Create r f := on_repo (λ ctx, Memory.Create ctx r f);
    repo_Save r v f := on_repo (λ ctx, Memory.Save ctx r v f) }.
#[local] Instance memory_Coord : Coord memory_world :=
  { co_TryAcquire key ttl w :=
      let '(c, env) := env_cause (m_env w) in
      let '(res, co) := Coordination.TryAcquire
        (Context ((λ _, Coordination.ErrCause "") <$> c)) key ttl (m_co w) in
      (match res with Ok l => Ok l | Err err => Err (from_coordination c err) end,
       mkWorld (m_repo w) co env);
    co_Fence l w := from_option Coordination.ls_fence 0 (Coordination.co_heap (m_co w) !! l);
    co_Release l w :=
      let '(err, co) := Coordination.Release (Context None) l (m_co w) in
      (from_coordination None <$> err, mkWorld (m_repo w) co (m_env w)) }.

(** Handlers that touch only the business state. *)
Definition env_handler (h : Invocation → E → handler_outcome * E) : Handler memory_world :=
  λ inv, on_env (h inv).
Definition env_step (name : string) (action : Invocation → E → handler_outcome * E)
    (compensate : option (Invocation → E → handler_outcome * E)) : Step memory_world :=
  mkStep name (Some (env_handler action)) (env_handler <$> compensate).

Definition memory_view (w : memory_world) (id : string) : option Record :=
  Memory.rp_records (m_repo w) !! id.

Lemma on_env_view {A} (f : E → A * E) w i : memory_view (snd (on_env f w)) i = memory_view w i.
Proof. unfold on_env. by destruct (f (m_env w)). Qed.

Lemma Load_view ctx id r res r' :
  Memory.Load ctx id r = (res, r') → (∀ c, ctx = Context (Some c) → error_is c ErrNotFound = false) →
  r' = r ∧ match res with
           | Ok record => Memory.rp_records r !! id = Some record
           | Err err => error_is err ErrNotFound = true → Memory.rp_records r !! id = None
           end.
Proof.
  unfold Memory.Load. intros Hl Hc. destruct ctx as [|[c|]]; [by simplify_eq| |].
  - simplify_eq. split; [done|]. by rewrite (Hc _ eq_refl).
  - case_match; by simplify_eq.
Qed.

Lemma Create_view ctx record fence r res r' :
  Memory.Create ctx record fence r = (res, r') →
  match res with
  | Ok record' => record' = with_revision 1 record ∧ Memory.rp_records r !! r_ID record = None ∧
      ∀ i, Memory.rp_records r' !! i =
        if decide (i = r_ID record) then Some record' else Memory.rp_records r !! i
  | Err _ => r' = r
  end.
Proof.
  unfold Memory.Create. destruct ctx as [|c]; [by intros; simplify_eq|].
  case_match; [by intros; simplify_eq|]. destruct c; [by intros; simplify_eq|].
  destruct (Record_Validate _); [by intros; simplify_eq|].
  destruct (Memory.rp_records r !! _) eqn:Hr; intros; simplify_eq; [done|]. split_and!; [done..|].
  intros i. cbn. case_decide; [subst; by rewrite lookup_insert_eq|by rewrite lookup_insert_ne].
Qed.

Lemma Save_view ctx record expected fence r res r' :
  Memory.Save ctx record expected fence r = (res, r') →
  match res with
  | Ok record' => record' = with_revision (u64_add expected 1) record ∧
      ∀ i, Memory.rp_records r' !! i =
        if decide (i = r_ID record) then Some record' else Memory.rp_records r !! i
  | Err _ => r' = r
  end.
Proof.
  unfold Memory.Save. destruct ctx as [|c]; [by intros; simplify_eq|].
  destruct (_ || (fence =? 0)); [by intros; simplify_eq|]. destruct c; [by intros; simplify_eq|].
  destruct (Memory.rp_records r !! _) as [cur|]; [|by intros; simplify_eq].
  destruct (fence <? _); [by intros; simplify_eq|]. destruct (negb (_ =? _)); [by intros; simplify_eq|].
  destruct (_ || (r_Version cur != _)); [by intros; simplify_eq|].
  destruct (Record_Validate _); intros; simplify_eq; [done|]. split; [done|].
  intros i. cbn. case_decide; [subst; by rewrite lookup_insert_eq|by rewrite lookup_insert_ne].
Qed.

(** The laws hold for a definition made of such handlers, when a context is never cancelled
    with the repository's own not-found error. *)
Lemma memory_sole_owner d :
  (∀ env c env', env_cause env = (Some c, env') → error_is c ErrNotFound = false) →
  (∀ s, s ∈ d_Steps d → ∃ name action comp, s = env_step name action comp) →
  SoleOwner memory_world d memory_view.
Proof.
  intros Hnf Hsteps. constructor.
  - intros id w r w'. cbn. unfold on_repo. destruct (env_cause (m_env w)) as [c env] eqn:Hc.
    destruct (Memory.Load _ id (m_repo w)) as [res repo] eqn:Hl. intros [= <- <-].
    apply Load_view in Hl as [-> Hres]; [done|]. intros c0 [= ->]. by eapply Hnf.
  - intros record fence w r w'. cbn. unfold on_repo. destruct (env_cause (m_env w)) as [c env].
    destruct (Memory.Create _ record fence (m_repo w)) as [res repo] eqn:Hl. intros [= <- <-].
    apply Create_view in Hl. destruct res; [done|]. by rewrite Hl.
  - intros record v fence w r w'. cbn. unfold on_repo. destruct (env_cause (m_env w)) as [c env].
    destruct (Memory.Save _ record v fence (m_repo w)) as [res repo] eqn:Hl. intros [= <- <-].
    apply Save_view in Hl. destruct res; [done|]. by rewrite Hl.
  - intros w i. apply on_env_view.
  - intros w i. apply on_env_view.
  - intros w i. apply on_env_view.
  - intros key ttl w i. cbn [co_TryAcquire memory_Coord]. destruct (env_cause (m_env w)) as [c env].
    by destruct (Coordination.TryAcquire _ key ttl (m_co w)).
  - intros l w i. cbn [co_Release memory_Coord]. by destruct (Coordination.Release _ l (m_co w)).
  - intros s h inv w i Hs Hh. apply Hsteps in Hs as (name & action & comp & ->). cbn in Hh.
    destruct Hh as [[= <-]|Hh]; [apply on_env_view|]. destruct comp; [|done].
    injection Hh as <-. apply on_env_view.
Qed.
End memory.

(** ** Fencing in the memory repository *)
Inductive repo_step (r : Memory.RepoState) : Memory.RepoState → Prop :=
| rs_load ctx id : repo_step r (snd (Memory.Load ctx id r))
| rs_create ctx record fence : repo_step r (snd (Memory.Create ctx record fence r))
| rs_save ctx record v fence : repo_step r (snd (Memory.Save ctx record v fence r)).

Definition fence_of (r : Memory.RepoState) (id : string) : Z := default 0 (Memory.rp_fences r !! id).

Lemma fence_of_insert records r id fence i :
  fence_of (Memory.mkRepo records (<[id := fence]> (Memory.rp_fences r))) i =
  if decide (i = id) then fence else fence_of r i.
Proof.
  unfold fence_of. cbn. case_decide; [subst; by rewrite lookup_insert_eq|by rewrite lookup_insert_ne].
Qed.

(** Every record has a fence entry: a key without a record has none. *)
Definition repo_ok (r : Memory.RepoState) : Prop :=
  ∀ id, Memory.rp_records r !! id = None → fence_of r id = 0.

Lemma repo_step_ok r r' :
  repo_ok r → repo_step r r' →
  repo_ok r' ∧ ∀ id record, Memory.rp_records r !! id = Some record →
    fence_of r id ≤ fence_of r' id ∧ ∃ record', Memory.rp_records r' !! id = Some record' ∧
      (record' = record ∨ r_Revision record' = u64_add (r_Revision record) 1).
Proof.
  intros Hok Hs.
  assert (Hsame : repo_ok r ∧ ∀ id record, Memory.rp_records r !! id = Some record →
    fence_of r id ≤ fence_of r id ∧ ∃ record', Memory.rp_records r !! id = Some record' ∧
      (record' = record ∨ r_Revision record' = u64_add (r_Revision record) 1)).
  { split; [done|]. intros id record Hr. split; [lia|]. eauto. }
  destruct Hs as [ctx id|ctx record fence|ctx record v fence].
  - unfold Memory.Load. destruct ctx as [|[c|]]; try done. by destruct (Memory.rp_records r !! id).
  - unfold Memory.Create. destruct ctx as [|c]; [done|]. destruct (fence =? 0); [done|].
    destruct c; [done|]. destruct (Record_Validate _); [done|].
    destruct (Memory.rp_records r !! _) eqn:Hr; [done|]. cbn [snd]. split.
    + intros id. cbn. rewrite lookup_insert_None. intros [Hid Hne]. rewrite fence_of_insert, decide_False by done.
      by apply Hok.
    + intros id rec Hrec. rewrite fence_of_insert. cbn. assert (id ≠ r_ID record) by (intros ->; cbn in Hr; congruence).
      rewrite decide_False by done. split; [lia|]. rewrite lookup_insert_ne by done. eauto.
  - unfold Memory.Save. destruct ctx as [|c]; [done|]. destruct (_ || (fence =? 0)); [done|]. destruct c; [done|].
    destruct (Memory.rp_records r !! _) as [cur|] eqn:Hr; [|done].
    destruct (Z.ltb_spec fence (default 0 (Memory.rp_fences r !! r_ID record))) as [|Hf]; [done|].
    destruct (Z.eqb_spec (r_Revision cur) v) as [Hv|]; [|done]. cbn [negb].
    destruct (_ || _); [done|]. destruct (Record_Validate _); [done|]. cbn [snd]. split.
    + intros id. cbn. rewrite lookup_insert_None. intros [Hid Hne]. rewrite fence_of_insert, decide_False by done.
      by apply Hok.
    + intros id rec Hrec. rewrite fence_of_insert. cbn. case_decide as Hid.
      * subst id. split; [done|]. rewrite lookup_insert_eq. eexists. split; [done|]. right. cbn. congruence.
      * split; [lia|]. rewrite lookup_insert_ne by done. eauto.
Qed.

(** a superseded owner cannot write.  Once a record was created or saved under a fence, a
    Save under a smaller fence fails and changes nothing, at every later point of every
    sequence of repository calls. *)
Theorem repository_fencing r ctx record v fence saved r1 r2 ctx' record' v' fence' :
  repo_ok r → Memory.Save ctx record v fence r = (Ok saved, r1) → rtc repo_step r1 r2 →
  r_ID record' = r_ID record → fence' < fence →
  snd (Memory.Save ctx' record' v' fence' r2) = r2 ∧
  ∃ err, fst (Memory.Save ctx' record' v' fence' r2) = Err err.
Proof.
  intros Hok Hsave Hrun Hid Hlt.
  assert (H1 : repo_ok r1 ∧ fence ≤ fence_of r1 (r_ID record) ∧ is_Some (Memory.rp_records r1 !! r_ID record)).
  { assert (Hst : repo_step r r1) by (replace r1 with (snd (Memory.Save ctx record v fence r)); [constructor|by rewrite Hsave]).
    split; [by eapply repo_step_ok|]. revert Hsave. unfold Memory.Save.
    destruct ctx as [|c]; [done|]. destruct (_ || (fence =? 0)); [done|]. destruct c; [done|].
    destruct (Memory.rp_records r !! _); [|done]. destruct (fence <? _); [done|].
    destruct (negb (_ =? _)); [done|]. destruct (_ || _); [done|]. destruct (Record_Validate _); [done|].
    intros [= <- <-]. rewrite fence_of_insert. cbn. rewrite decide_True, lookup_insert_eq by done. split; [lia|eauto]. }
  assert (H2 : repo_ok r2 ∧ fence ≤ fence_of r2 (r_ID record) ∧ is_Some (Memory.rp_records r2 !! r_ID record)).
  { clear Hsave. induction Hrun as [|ra rb rc Hs _ IH]; [done|]. apply IH. destruct H1 as (Ha & Hf & [x Hx]).
    destruct (repo_step_ok _ _ Ha Hs) as [Hb Hmon]. destruct (Hmon _ _ Hx) as [Hle (x' & Hx' & _)].
    split; [done|]. split; [lia|eauto]. }
  destruct H2 as (_ & Hf & [x Hx]). unfold Memory.Save. destruct ctx' as [|c]; [eauto|].
  destruct (_ || (fence' =? 0)); [eauto|]. destruct c; [eauto|]. rewrite Hid, Hx.
  rewrite (proj2 (Z.ltb_lt fence' _)); [eauto|]. unfold fence_of in Hf. lia.
Qed.

(** * Concrete sagas

    A scripted business world: every handler call consumes one entry, the outcome of the
    handler and the cause its step context has afterwards. *)
Definition script : Type := list (handler_outcome * option serror) * option serror.
Definition script_cause (s : script) : option serror * script := (None, s).
Definition script_step_cause (s : script) : option serror * script := (snd s, s).
Definition script_clock (s : script) : time * script := (second, s).
Definition script_handler (_ : Invocation) (s : script) : handler_outcome * script :=
  match fst s with
  | [] => (Returned None, s)
  | (o, c) :: rest => (o, (rest, c))
  end.

#[export] Instance ex_World : World (@memory_world script) :=
  memory_World script_cause script_step_cause script_clock.
#[export] Instance ex_Repository : Repository (@memory_world script) := memory_Repository script_cause.
#[export] Instance ex_Coord : Coord (@memory_world script) := memory_Coord script_cause.

Definition ex_definition : Definition_ (@memory_world script) :=
  mkDefinition "order" "v1"
    [env_step "reserve" script_handler (Some script_handler);
     env_step "charge" script_handler None;
     env_step "ship" script_handler (Some script_handler)].
Definition ex_engine : Engine (@memory_world script) :=
  ok_or (New ex_definition 0 0 1 (λ _, "internal"))
        (mkEngine ex_definition 0 0 1 (λ _, "internal")).
Definition ex_world (outcomes : list (handler_outcome * option serror)) : @memory_world script :=
  mkWorld Memory.New Coordination.New (outcomes, None).
Definition ex_start (outcomes : list (handler_outcome * option serror)) :
    Counters * logged (@memory_world script) := (zero_counters, (ex_world outcomes, [])).
Definition ok_outcome : handler_outcome * option serror := (Returned None, None).
Definition failed_outcome : handler_outcome * option serror := (Returned (Some (ErrForeign "boom")), None).
Definition late_outcome : handler_outcome * option serror := (Returned None, Some (ErrForeign "deadline")).

Definition ex_run (outcomes : list (handler_outcome * option serror)) :=
  Run (log_engine ex_engine) 8 None "o-1" (ex_start outcomes).

Lemma ex_sole_owner : SoleOwner (@memory_world script) (e_definition ex_engine) memory_view.
Proof.
  apply memory_sole_owner; [done|]. intros s Hs. cbn in Hs.
  repeat (apply elem_of_cons in Hs as [->|Hs]; [by eauto|]). by apply elem_of_nil in Hs.
Qed.

Definition run_state {A} (r : option (A * (Counters * logged (@memory_world script)))) :
    Counters * logged (@memory_world script) :=
  match r with Some (_, st) => st | None => ex_start [] end.

(** Ship fails: reserve is compensated, charge has no compensation. *)
Definition ex_compensated := ex_run [ok_outcome; ok_outcome; failed_outcome; ok_outcome].

Example ex_compensated_log :
  snd (snd (run_state ex_compensated)) =
    [mkEvent 0 PhaseAction true; mkEvent 1 PhaseAction true; mkEvent 2 PhaseAction false;
     mkEvent 0 PhaseCompensation true] ∧
  r_Status <$> memory_view (fst (snd (run_state ex_compensated))) "o-1" = Some StatusCompensated.
Proof. vm_compute. split; reflexivity. Qed.

Lemma saga_guarantee_witness :
  match memory_view (fst (snd (run_state ex_compensated))) "o-1" with
  | None => snd (snd (run_state ex_compensated)) = []
  | Some record => ∃ a, abstract record = Some a ∧
      explains (steps ex_engine) (compensable ex_engine) a (snd (snd (run_state ex_compensated)))
  end.
Proof.
  apply (saga_guarantee (@memory_world script) ex_engine memory_view "o-1"
    (ex_world [ok_outcome; ok_outcome; failed_outcome; ok_outcome]) zero_counters).
  - apply ex_sole_owner.
  - vm_compute. reflexivity.
  - reflexivity.
  - apply rtc_once. eexists 8%nat, None, _. split; [vm_compute; lia|]. vm_compute. reflexivity.
Defined.

Lemma saga_run_returns_witness :
  ∃ x err st', Run (log_engine ex_engine) (Z.to_nat (2 * steps ex_engine + 2)) None "o-1"
      (ex_start [ok_outcome]) = Some (Some (x, err), st') ∧
    durable ex_engine memory_view "o-1" (snd st') ∧
    (err = None → memory_view (fst (snd st')) "o-1" = Some (x_Record x) ∧
       r_Status (x_Record x) = StatusCompleted).
Proof.
  apply (saga_run_returns (@memory_world script) ex_engine memory_view "o-1" (ex_start [ok_outcome]) None).
  - apply ex_sole_owner.
  - vm_compute. reflexivity.
  - unfold durable. reflexivity.
Defined.

Definition ex_record : Record :=
  mkRecord "o-1" "order" "v1" StatusRunning 0 (-1) 0 "" "" 1 second.
Definition ex_repo : Memory.RepoState := snd (Memory.Create (Context None) ex_record 1 Memory.New).

Lemma repository_fencing_witness :
  let r1 := snd (Memory.Save (Context None) ex_record 1 5 ex_repo) in
  snd (Memory.Save (Context None) ex_record 2 4 r1) = r1 ∧
  ∃ err, fst (Memory.Save (Context None) ex_record 2 4 r1) = Err err.
Proof.
  eapply (repository_fencing ex_repo (Context None) ex_record 1 5).
  - assert (Hn : repo_ok Memory.New) by done.
    apply (repo_step_ok Memory.New ex_repo Hn). apply rs_create.
  - vm_compute. reflexivity.
  - apply rtc_refl.
  - reflexivity.
  - reflexivity.
Defined.

(** an action that succeeded late is not compensated.  If a step's handler returns nil but
    its step context has ended, the engine treats the step as failed and compensates only the
    steps before it: in this run the action of step 0 returned nil, the saga ends as
    Compensated, and the compensation of step 0 was never called. *)
Theorem late_action_not_compensated :
  let st := run_state (ex_run [late_outcome]) in
  snd (snd st) = [mkEvent 0 PhaseAction true] ∧ compensable ex_engine 0 = true ∧
  r_Status <$> memory_view (fst (snd st)) "o-1" = Some StatusCompensated.
Proof. vm_compute. split_and!; reflexivity. Qed.

(** the compensated counter counts started compensations.  In this run the only
    compensation fails terminally, the record ends as Failed and no step was compensated, yet
    both the compensated and the terminal-failure counters are 1. *)
Theorem compensated_counter_counts_starts :
  let st := run_state (ex_run [ok_outcome; failed_outcome; failed_outcome]) in
  r_Status <$> memory_view (fst (snd st)) "o-1" = Some StatusFailed ∧
  k_compensated (fst st) = 1 ∧ k_terminalFailures (fst st) = 1 ∧
  Forall (λ ev, ev_phase ev = PhaseCompensation → ev_ok ev = false) (snd (snd st)).
Proof. vm_compute. split_and!; try reflexivity. repeat constructor; done. Qed.
