(* ===== verification/Breaker.v ===== *)
(** * governance/failure and governance/breaker: the circuit breaker

    Models [failure.Classify]/[MarkTransport] on error trees and the breaker state machine of
    [breaker.go]: [Allow], [Permit.Done], [complete] and the window, open and close
    transitions.  Permits are objects with a [sync.Once], so the system state is a breaker
    with the permits it issued.  The failure ratio is compared in IEEE double precision, with
    the Standard Library's binary floating-point specification. *)
From S2P Require Import Prelude GoFloat.
Open Scope Z_scope.

(** ** Failure classes *)
Module Failure.

(** What [errors.Is] and [errors.As] can find at one node of an error tree. *)
Inductive tag :=
| TagCanceled | TagDeadlineExceeded | TagMarked
| TagApplication (code : Z) (reason : string)
| TagNetwork (timeout : bool)
| TagOther (text : string).

(** An error and the errors it unwraps to. *)
Inductive goerror := Node (t : tag) (causes : list goerror).

#[export] Instance tag_eq_dec : EqDecision tag.
Proof. solve_decision. Defined.

(** Pre-order traversal, the order [errors.Is]/[errors.As] visit. *)
Fixpoint chain (err : goerror) : list tag :=
  match err with Node t causes => t :: flat_map chain causes end.

Inductive Kind := None_ | Transport | Timeout | Business | Canceled | Unknown.

#[export] Instance Kind_eq_dec : EqDecision Kind.
Proof. solve_decision. Defined.

Definition is_application (t : tag) : bool := match t with TagApplication _ _ => true | _ => false end.

(** [errors.As(err, &network)]: the first network error decides. *)
Fixpoint first_network (l : list tag) : option bool :=
  match l with
  | [] => None
  | TagNetwork timeout :: _ => Some timeout
  | _ :: l => first_network l
  end.

Definition marked (err : goerror) : bool := existsb (λ t, t == TagMarked) (chain err).

Definition MarkTransport (err : option goerror) : option goerror :=
  match err with
  | None => None
  | Some err => Some (if marked err then err else Node TagMarked [err])
  end.

Definition Classify (err : option goerror) : Kind :=
  match err with
  | None => None_
  | Some err =>
      if marked err then Transport
      else if existsb (λ t, t == TagCanceled) (chain err) then Canceled
      else if existsb (λ t, t == TagDeadlineExceeded) (chain err) then Timeout
      else if existsb is_application (chain err) then Business
      else match first_network (chain err) with
      | Some true => Timeout
      | Some false => Transport
      | None => Unknown
      end
  end.

Definition Retryable (err : option goerror) : bool :=
  match Classify err with Transport | Timeout => true | _ => false end.
End Failure.
Import Failure.

(** ** Policy *)
Record BreakerPolicy := mkPolicy {
  p_Enabled : bool;
  p_FailureRatio : spec_float;
  p_Window : duration;
  p_MinRequests : Z;
  p_OpenTimeout : duration;
  p_HalfOpenProbes : Z
}.


Inductive berror := ErrOpen | ErrInvalidPolicy.

Definition validate (config : BreakerPolicy) : option berror :=
  if SFleb (p_FailureRatio config) (float64 0) || SFltb (float64 1) (p_FailureRatio config) ||
     (p_Window config <=? 0) || (p_MinRequests config <=? 0) || (p_OpenTimeout config <=? 0) ||
     (p_HalfOpenProbes config <=? 0)
  then Some ErrInvalidPolicy else None.

(** ** The state machine *)
Inductive State := StateClosed | StateOpen | StateHalfOpen | StateOther (raw : string).

#[export] Instance State_eq_dec : EqDecision State.
Proof. solve_decision. Defined.

Record Breaker := mkBreaker {
  b_state : State;
  b_windowStart : time;
  b_requests : Z;
  b_failures : Z;
  b_openUntil : time;
  b_probesInFlight : Z;
  b_probeSuccesses : Z;
  b_generation : Z
}.

Definition NewBreaker : Breaker := mkBreaker StateClosed 0 0 0 0 0 0 0.

(** [pm_config] is [None] for the empty permit of a disabled policy. *)
Record Permit := mkPermit {
  pm_config : option BreakerPolicy;
  pm_state : State;
  pm_generation : Z;
  pm_done : bool
}.

Definition rollWindow (now : time) (window : duration) (b : Breaker) : Breaker :=
  if IsZero (b_windowStart b) || (window <=? now - b_windowStart b) || Before now (b_windowStart b)
  then mkBreaker (b_state b) now 0 0 (b_openUntil b) (b_probesInFlight b) (b_probeSuccesses b)
         (b_generation b)
  else b.

Definition open (now : time) (timeout : duration) (b : Breaker) : Breaker :=
  mkBreaker StateOpen (b_windowStart b) (b_requests b) (b_failures b) (now + timeout) 0 0
    (u64_add (b_generation b) 1).

Definition close (now : time) (b : Breaker) : Breaker :=
  mkBreaker StateClosed now 0 0 0 0 0 (u64_add (b_generation b) 1).

Definition with_state (st : State) (b : Breaker) : Breaker :=
  mkBreaker st (b_windowStart b) (b_requests b) (b_failures b) (b_openUntil b)
    (b_probesInFlight b) (b_probeSuccesses b) (b_generation b).
Definition with_probes (inflight successes : Z) (b : Breaker) : Breaker :=
  mkBreaker (b_state b) (b_windowStart b) (b_requests b) (b_failures b) (b_openUntil b)
    inflight successes (b_generation b).
Definition with_counts (requests failures : Z) (b : Breaker) : Breaker :=
  mkBreaker (b_state b) (b_windowStart b) requests failures (b_openUntil b)
    (b_probesInFlight b) (b_probeSuccesses b) (b_generation b).

(** The switch of [Allow]: timed transitions, or a rejection. *)
Definition advance (config : BreakerPolicy) (now : time) (b : Breaker) : option Breaker :=
  match b_state b with
  | StateClosed => Some (rollWindow now (p_Window config) b)
  | StateOpen =>
      if Before now (b_openUntil b) then None
      else Some (with_probes 0 0 (with_state StateHalfOpen b))
  | StateHalfOpen => Some b
  | StateOther _ => Some (rollWindow now (p_Window config) (with_state StateClosed b))
  end.

Definition Allow (config : BreakerPolicy) (now : time) (b : Breaker) : result berror Permit * Breaker :=
  if negb (p_Enabled config) then (Ok (mkPermit None (StateOther "") 0 false), b)
  else match validate config with
  | Some err => (Err err, b)
  | None =>
      match advance config now b with
      | None => (Err ErrOpen, b)
      | Some b =>
          let permit b := mkPermit (Some config) (b_state b) (b_generation b) false in
          if b_state b == StateHalfOpen then
            if p_HalfOpenProbes config <=? b_probesInFlight b then (Err ErrOpen, b)
            else
              let b := with_probes (b_probesInFlight b + 1) (b_probeSuccesses b) b in
              (Ok (permit b), b)
          else (Ok (permit b), b)
      end
  end.

Definition instanceFailure (err : option goerror) : bool :=
  match Classify err with Transport | Timeout => true | _ => false end.

Definition ratio_reached (failures requests : Z) (ratio : spec_float) : bool :=
  SFleb ratio (div64 (float64 failures) (float64 requests)).

Definition complete (config : BreakerPolicy) (permittedState : State) (generation : Z)
    (err : option goerror) (now : time) (b : Breaker) : Breaker :=
  if negb (generation =? b_generation b) || (permittedState != b_state b) then b
  else
    let failed := instanceFailure err in
    match b_state b with
    | StateClosed =>
        let b := rollWindow now (p_Window config) b in
        let b := with_counts (u64_add (b_requests b) 1)
                   (if failed then u64_add (b_failures b) 1 else b_failures b) b in
        if (p_MinRequests config <=? b_requests b) &&
           ratio_reached (b_failures b) (b_requests b) (p_FailureRatio config)
        then open now (p_OpenTimeout config) b else b
    | StateHalfOpen =>
        let b := with_probes (if 0 <? b_probesInFlight b then b_probesInFlight b - 1
                              else b_probesInFlight b) (b_probeSuccesses b) b in
        if failed then open now (p_OpenTimeout config) b
        else
          let b := with_probes (b_probesInFlight b) (b_probeSuccesses b + 1) b in
          if p_HalfOpenProbes config <=? b_probeSuccesses b then close now b else b
    | _ => b
    end.

(** [Permit.Done], with the permit's [sync.Once]. *)
Definition Done (err : option goerror) (now : time) (p : Permit) (b : Breaker) : Permit * Breaker :=
  match pm_config p with
  | None => (p, b)
  | Some config =>
      if pm_done p then (p, b)
      else (mkPermit (pm_config p) (pm_state p) (pm_generation p) true,
            complete config (pm_state p) (pm_generation p) err now b)
  end.

Definition Probe (p : Permit) : bool :=
  bool_decide (is_Some (pm_config p)) && (pm_state p == StateHalfOpen).

(** ** The breaker with the permits it issued *)
Record system := mkSystem { sy_breaker : Breaker; sy_permits : list Permit }.

Inductive action := DoAllow (config : BreakerPolicy) (now : time) | DoDone (permit : nat) (err : option goerror) (now : time).
Definition action_time (a : action) : time := match a with DoAllow _ now | DoDone _ _ now => now end.

Definition act (a : action) (s : system) : system :=
  match a with
  | DoAllow config now =>
      match Allow config now (sy_breaker s) with
      | (Ok p, b) => mkSystem b (sy_permits s ++ [p])
      | (Err _, b) => mkSystem b (sy_permits s)
      end
  | DoDone i err now =>
      match sy_permits s !! i with
      | None => s
      | Some p => let '(p, b) := Done err now p (sy_breaker s) in mkSystem b (<[i := p]> (sy_permits s))
      end
  end.
Definition acts (l : list action) (s : system) : system := fold_left (λ s a, act a s) l s.
Definition start : system := mkSystem NewBreaker [].

(** ** Probe accounting *)
Definition live_probe (g : Z) (p : Permit) : bool :=
  bool_decide (is_Some (pm_config p)) && negb (pm_done p) && (pm_state p == StateHalfOpen) &&
  (pm_generation p =? g).
Definition probes (s : system) : Z :=
  zlen (List.filter (live_probe (b_generation (sy_breaker s))) (sy_permits s)).

Record sys_ok (n : Z) (s : system) : Prop := mk_sys_ok {
  sk_state : b_state (sy_breaker s) ∈ [StateClosed; StateOpen; StateHalfOpen];
  sk_generation : 0 ≤ b_generation (sy_breaker s) ≤ n;
  sk_permits : ∀ p, p ∈ sy_permits s → is_Some (pm_config p) →
    pm_generation p ≤ b_generation (sy_breaker s) ∧ pm_state p ≠ StateOpen ∧
    (pm_generation p = b_generation (sy_breaker s) → pm_state p = b_state (sy_breaker s));
  sk_inflight : b_probesInFlight (sy_breaker s) =
    if b_state (sy_breaker s) == StateHalfOpen then probes s else 0;
  sk_successes : 0 ≤ b_probeSuccesses (sy_breaker s)
}.

Lemma rollWindow_fields now window b :
  b_state (rollWindow now window b) = b_state b ∧ b_generation (rollWindow now window b) = b_generation b ∧
  b_probesInFlight (rollWindow now window b) = b_probesInFlight b ∧
  b_probeSuccesses (rollWindow now window b) = b_probeSuccesses b.
Proof. unfold rollWindow. by case_match. Qed.

(** A breaker update that keeps state and generation and changes no probe count. *)
Lemma sys_ok_same n n' s b :
  sys_ok n s → n ≤ n' → b_state b = b_state (sy_breaker s) →
  b_generation b = b_generation (sy_breaker s) →
  b_probesInFlight b = b_probesInFlight (sy_breaker s) → 0 ≤ b_probeSuccesses b →
  sys_ok n' (mkSystem b (sy_permits s)).
Proof.
  intros [H1 H2 H3 H4 H5] Hn E1 E2 E3 E4. constructor; cbn; rewrite ?E1, ?E2, ?E3; try done.
  - lia.
  - rewrite H4. unfold probes. cbn. by rewrite E2.
Qed.

(** Moving to a new generation retires every permit. *)
Lemma sys_ok_next n s b :
  sys_ok n s → n < max_u64 → b_state b ∈ [StateClosed; StateOpen] →
  b_generation b = u64_add (b_generation (sy_breaker s)) 1 → b_probesInFlight b = 0 →
  b_probeSuccesses b = 0 → sys_ok (n + 1) (mkSystem b (sy_permits s)).
Proof.
  intros [H1 H2 H3 H4 H5] Hn E1 E2 E3 E4. rewrite u64_add_small in E2 by lia.
  constructor; cbn; rewrite ?E2, ?E3, ?E4; try lia.
  - set_solver.
  - intros p Hp Hc. destruct (H3 p Hp Hc) as (Hle & Hne & _). split_and!; [lia|done|lia].
  - rewrite bool_decide_false; [done|]. intros Hs. rewrite Hs in E1. set_solver.
Qed.

(** A new permit for the current state and generation. *)
Lemma sys_ok_issue n s config :
  sys_ok n s → b_state (sy_breaker s) ≠ StateOpen → b_state (sy_breaker s) ≠ StateHalfOpen →
  sys_ok n (mkSystem (sy_breaker s) (sy_permits s ++
    [mkPermit (Some config) (b_state (sy_breaker s)) (b_generation (sy_breaker s)) false])).
Proof.
  intros [H1 H2 H3 H4 H5] Hno Hnh. constructor; cbn; try done.
  - intros p [Hp|Hp%list_elem_of_singleton]%elem_of_app Hc; [by apply H3|]. subst p. cbn. split_and!; [lia|done..].
  - rewrite H4. by rewrite bool_decide_false.
Qed.

Lemma sys_ok_probe n s config :
  sys_ok n s → b_state (sy_breaker s) = StateHalfOpen →
  let b := with_probes (b_probesInFlight (sy_breaker s) + 1) (b_probeSuccesses (sy_breaker s)) (sy_breaker s) in
  sys_ok n (mkSystem b (sy_permits s ++ [mkPermit (Some config) (b_state b) (b_generation b) false])).
Proof.
  intros [H1 H2 H3 H4 H5] Hh. constructor; cbn; try done.
  - intros p [Hp|Hp%list_elem_of_singleton]%elem_of_app Hc; [by apply H3|]. subst p. cbn. rewrite Hh.
    split_and!; [lia|done..].
  - rewrite H4, Hh. rewrite bool_decide_true by done. unfold probes. cbn [sy_permits sy_breaker].
    rewrite List.filter_app, zlen_app. f_equal. cbn [List.filter with_probes b_generation].
    assert (live_probe (b_generation (sy_breaker s))
      (mkPermit (Some config) StateHalfOpen (b_generation (sy_breaker s)) false) = true) as ->; [|done].
    unfold live_probe. cbn [pm_config pm_done pm_state pm_generation]. rewrite Z.eqb_refl. by rewrite bool_decide_true by eauto.
Qed.

Lemma sys_ok_half_open n s :
  sys_ok n s → b_state (sy_breaker s) = StateOpen →
  sys_ok n (mkSystem (with_probes 0 0 (with_state StateHalfOpen (sy_breaker s))) (sy_permits s)).
Proof.
  intros [H1 H2 H3 H4 H5] Ho.
  assert (Hno : ∀ p, p ∈ sy_permits s → is_Some (pm_config p) → pm_generation p < b_generation (sy_breaker s)).
  { intros p Hp Hc. destruct (H3 p Hp Hc) as (Hle & Hne & Heq).
    destruct (decide (pm_generation p = b_generation (sy_breaker s))) as [E|]; [|lia].
    apply Heq in E. congruence. }
  constructor; cbn; try done.
  - set_solver.
  - intros p Hp Hc. destruct (H3 p Hp Hc) as (Hle & Hne & _). specialize (Hno p Hp Hc). split_and!; [lia|done|lia].
  - rewrite bool_decide_true by done. symmetry. apply count_none. intros p Hp. unfold live_probe. cbn.
    destruct (decide (is_Some (pm_config p))) as [Hc|Hc].
    + specialize (Hno p Hp Hc). rewrite (proj2 (Z.eqb_neq _ _)) by lia. by rewrite andb_false_r.
    + by rewrite bool_decide_false.
Qed.

Lemma allow_ok n s config now : sys_ok n s → sys_ok n (act (DoAllow config now) s).
Proof.
  intros Hok. cbn [act]. unfold Allow. destruct (p_Enabled config); cbn [negb].
  2:{ destruct Hok as [H1 H2 H3 H4 H5]. constructor; cbn; try done.
      - intros p [Hp|Hp%list_elem_of_singleton]%elem_of_app; [by apply H3|]. subst p. by intros [? ?].
      - rewrite H4. unfold probes. cbn. rewrite List.filter_app. cbn. by rewrite app_nil_r. }
  destruct (validate config); [by destruct s|]. unfold advance.
  destruct (rollWindow_fields now (p_Window config) (sy_breaker s)) as (E1 & E2 & E3 & E4).
  pose proof (sk_state _ _ Hok) as Hst. pose proof (sk_successes _ _ Hok) as Hsu.
  destruct (b_state (sy_breaker s)) eqn:Hs; [| | |exfalso; set_solver].
  - rewrite (bool_decide_false (b_state (rollWindow _ _ _) = StateHalfOpen)) by congruence.
    pose proof (sys_ok_same n n s (rollWindow now (p_Window config) (sy_breaker s)) Hok ltac:(lia)) as Hroll.
    apply (sys_ok_issue n (mkSystem (rollWindow now (p_Window config) (sy_breaker s)) (sy_permits s)));
      cbn [sy_breaker]; [apply Hroll; try congruence; by rewrite E4|congruence..].
  - destruct (Before now _); [by destruct s|]. cbn [with_probes with_state b_state].
    rewrite bool_decide_true by done.
    pose proof (sys_ok_half_open n s Hok Hs) as Hh. destruct (p_HalfOpenProbes config <=? _); [done|].
    by apply (sys_ok_probe n (mkSystem (with_probes 0 0 (with_state StateHalfOpen (sy_breaker s))) (sy_permits s))).
  - rewrite (bool_decide_true _ Hs). destruct (p_HalfOpenProbes config <=? _); [by destruct s|].
    by apply sys_ok_probe.
Qed.

(** Marking a permit done, outside its probe period. *)
Lemma sys_ok_retire n s i p :
  sys_ok n s → sy_permits s !! i = Some p → is_Some (pm_config p) →
  let p' := mkPermit (pm_config p) (pm_state p) (pm_generation p) true in
  b_state (sy_breaker s) ≠ StateHalfOpen ∨ live_probe (b_generation (sy_breaker s)) p = false →
  sys_ok n (mkSystem (sy_breaker s) (<[i := p']> (sy_permits s))).
Proof.
  intros [H1 H2 H3 H4 H5] Hi Hc p' Hor. constructor; cbn; try done.
  - intros q [j Hj]%list_elem_of_lookup. apply list_lookup_insert_Some in Hj as [(-> & Hq & _)|[_ Hj]]; [subst q|].
    + intros _. apply (H3 p); [by eapply list_elem_of_lookup_2|done].
    + by apply H3, (list_elem_of_lookup_2 _ j).
  - rewrite H4. destruct (b_state (sy_breaker s) == StateHalfOpen) eqn:Hh; [|done]. bool_hyps.
    destruct Hor as [|Hl]; [done|]. unfold probes. cbn.
    pose proof (count_insert (live_probe (b_generation (sy_breaker s))) _ i p p' Hi) as Hcnt.
    rewrite Hl in Hcnt. assert (live_probe (b_generation (sy_breaker s)) p' = false) as E.
    { unfold live_probe. cbn. by rewrite andb_false_r. }
    rewrite E in Hcnt. cbn in Hcnt. lia.
Qed.

(** Marking a live probe done and taking it off the in-flight count. *)
Lemma sys_ok_finish n s i p :
  sys_ok n s → sy_permits s !! i = Some p → b_state (sy_breaker s) = StateHalfOpen →
  live_probe (b_generation (sy_breaker s)) p = true →
  0 < b_probesInFlight (sy_breaker s) ∧ ∀ successes, 0 ≤ successes →
  sys_ok n (mkSystem (with_probes (b_probesInFlight (sy_breaker s) - 1) successes (sy_breaker s))
    (<[i := mkPermit (pm_config p) (pm_state p) (pm_generation p) true]> (sy_permits s))).
Proof.
  intros [H1 H2 H3 H4 H5] Hi Hh Hl. set (p' := mkPermit (pm_config p) (pm_state p) (pm_generation p) true).
  pose proof (count_insert (live_probe (b_generation (sy_breaker s))) _ i p p' Hi) as Hcnt.
  assert (live_probe (b_generation (sy_breaker s)) p' = false) as E.
  { unfold live_probe. cbn. by rewrite andb_false_r. }
  rewrite Hl, E in Hcnt. cbn [Z.b2z] in Hcnt. rewrite bool_decide_true in H4 by done. unfold probes in H4.
  pose proof (zlen_nonneg (List.filter (live_probe (b_generation (sy_breaker s))) (<[i:=p']> (sy_permits s)))).
  split; [lia|]. intros successes Hsu. constructor; cbn; try done.
  - intros q [j Hj]%list_elem_of_lookup. apply list_lookup_insert_Some in Hj as [(-> & Hq & _)|[_ Hj]]; [subst q|].
    + intros Hc. apply (H3 p); [by eapply list_elem_of_lookup_2|done].
    + by apply H3, (list_elem_of_lookup_2 _ j).
  - rewrite bool_decide_true by done. unfold probes. cbn. lia.
Qed.

Lemma done_ok n s i err now :
  sys_ok n s → n < max_u64 → sys_ok (n + 1) (act (DoDone i err now) s).
Proof.
  intros Hok Hn.
  assert (Hweak : ∀ s', sys_ok n s' → sys_ok (n + 1) s').
  { intros s' [H1 H2 H3 H4 H5]. constructor; try done. lia. }
  cbn [act]. destruct (sy_permits s !! i) as [p|] eqn:Hi; [|by apply Hweak]. unfold Done.
  destruct (pm_config p) as [config|] eqn:Hc.
  2:{ rewrite list_insert_id by done. apply Hweak. by destruct s. }
  destruct (pm_done p) eqn:Hd.
  { rewrite list_insert_id by done. apply Hweak. by destruct s. }
  rewrite <- Hc. set (p' := mkPermit (pm_config p) (pm_state p) (pm_generation p) true).
  assert (Hp : p ∈ sy_permits s) by (by eapply list_elem_of_lookup_2).
  destruct (sk_permits _ _ Hok p Hp ltac:(by rewrite Hc)) as (Hle & Hno & Heq). unfold complete.
  destruct (Z.eqb_spec (pm_generation p) (b_generation (sy_breaker s))) as [Hg|Hg]; cbn [negb orb].
  2:{ apply Hweak, sys_ok_retire; [done..|by rewrite Hc|]. right. unfold live_probe.
      rewrite (proj2 (Z.eqb_neq _ _)) by done. by rewrite andb_false_r. }
  specialize (Heq Hg). rewrite bool_decide_true by done. cbn [negb].
  destruct (b_state (sy_breaker s)) eqn:Hs; [| | |].
  - pose proof (sys_ok_retire n s i p Hok Hi ltac:(by rewrite Hc) ltac:(left; congruence)) as Hret.
    set (s' := mkSystem (sy_breaker s) (<[i:=p']> (sy_permits s))) in Hret.
    destruct (rollWindow_fields now (p_Window config) (sy_breaker s)) as (E1 & E2 & E3 & E4).
    pose proof (sk_successes _ _ Hok). case_match.
    + apply (sys_ok_next n s'); cbn; try done; [set_solver|by rewrite E2].
    + apply (sys_ok_same n (n + 1) s'); cbn; rewrite ?E1, ?E2, ?E3, ?E4; try done. lia.
  - done.
  - assert (Hlive : live_probe (b_generation (sy_breaker s)) p = true).
    { unfold live_probe. rewrite Hd, Heq, Hg, Z.eqb_refl. rewrite bool_decide_true by (rewrite Hc; eauto).
      by rewrite bool_decide_true. }
    destruct (sys_ok_finish n s i p Hok Hi Hs Hlive) as [Hpos Hfin]. fold p' in Hfin.
    pose proof (sk_successes _ _ Hok) as Hsu. rewrite (proj2 (Z.ltb_lt _ _) Hpos).
    case_match; [|case_match].
    + apply (sys_ok_next n _ _ (Hfin 0 ltac:(done))); cbn; try done. set_solver.
    + apply (sys_ok_next n _ _ (Hfin 0 ltac:(done))); cbn; try done. set_solver.
    + apply Hweak. apply (Hfin (b_probeSuccesses (sy_breaker s) + 1)). lia.
  - apply Hweak, sys_ok_retire; [done..|by rewrite Hc|]. left. congruence.
Qed.

Lemma start_sys_ok : sys_ok 0 start.
Proof. constructor; cbn; try done; set_solver. Qed.

Lemma acts_sys_ok l n s : sys_ok n s → n + zlen l ≤ max_u64 → sys_ok (n + zlen l) (acts l s).
Proof.
  revert n s. induction l as [|a l IH]; intros n s Hok Hn.
  { unfold zlen in *. cbn in *. by rewrite Z.add_0_r. }
  rewrite zlen_cons in *. pose proof (zlen_nonneg l). replace (n + (1 + zlen l)) with (n + 1 + zlen l) by lia.
  apply IH; [|lia]. destruct a; [|apply done_ok; [done|lia]].
  apply (allow_ok n s config now) in Hok as [H1 H2 H3 H4 H5]. constructor; try done. lia.
Qed.

(** C39: probe accounting.  In every history of fewer than 2^64 calls, whatever the policies,
    times and results, the in-flight probe count of a half-open breaker is exactly the number
    of probe permits of the current generation that are not done yet, it is zero in the other
    states, and only the three named states occur; so a completed, repeated or outdated
    permit can never free a probe slot it does not hold. *)
Theorem breaker_probe_accounting l :
  zlen l ≤ max_u64 → let s := acts l start in
  b_state (sy_breaker s) ∈ [StateClosed; StateOpen; StateHalfOpen] ∧
  b_probesInFlight (sy_breaker s) = (if b_state (sy_breaker s) == StateHalfOpen then probes s else 0).
Proof.
  intros Hl s. destruct (acts_sys_ok l 0 start start_sys_ok ltac:(lia)) as [H1 _ _ H4 _]. done.
Qed.

(** ** Open means rejecting *)
Lemma open_act a s n :
  sys_ok n s → b_state (sy_breaker s) = StateOpen → action_time a < b_openUntil (sy_breaker s) →
  sy_breaker (act a s) = sy_breaker s ∧
  ∀ p, p ∈ sy_permits (act a s) → is_Some (pm_config p) →
    ∃ q, q ∈ sy_permits s ∧ pm_config q = pm_config p ∧ pm_generation q = pm_generation p ∧ pm_state q = pm_state p.
Proof.
  intros Hok Ho Ht. destruct a as [config now|i err now]; cbn [act action_time] in *.
  - unfold Allow. destruct (p_Enabled config); cbn.
    + destruct (validate config); cbn; [by eauto 10|]. unfold advance. rewrite Ho. unfold Before.
      rewrite (proj2 (Z.ltb_lt _ _)) by done. cbn. by eauto 10.
    + split; [done|]. intros p [Hp|Hp%list_elem_of_singleton]%elem_of_app Hc; [by eauto 10|].
      subst p. by destruct Hc.
  - destruct (sy_permits s !! i) as [p|] eqn:Hi; [|by eauto 10].
    assert (Hp : p ∈ sy_permits s) by (by eapply list_elem_of_lookup_2).
    unfold Done. destruct (pm_config p) as [config|] eqn:Hc.
    2:{ rewrite list_insert_id by done. by eauto 10. }
    destruct (pm_done p); [rewrite list_insert_id by done; by eauto 10|]. cbn [sy_breaker sy_permits].
    destruct (sk_permits _ _ Hok p Hp ltac:(by rewrite Hc)) as (_ & Hno & _).
    split.
    + unfold complete. rewrite Ho, (bool_decide_false (pm_state p = StateOpen)) by done.
      by rewrite orb_true_r.
    + intros q [j Hj]%list_elem_of_lookup Hq.
      apply list_lookup_insert_Some in Hj as [(-> & Hpq & _)|[_ Hj]]; [subst q; eauto 10|].
      apply list_elem_of_lookup_2 in Hj. eauto 10.
Qed.

(** an open breaker stays open and admits nobody until its deadline.  From any reachable
    open state, any calls at times before the deadline (new invocations and results of earlier
    ones, in any order) leave the breaker exactly as it is, and the only new permits are the
    empty ones of a disabled policy. *)
Theorem open_until_deadline l l2 :
  let s := acts l start in
  zlen l + zlen l2 ≤ max_u64 → b_state (sy_breaker s) = StateOpen →
  (∀ a, a ∈ l2 → action_time a < b_openUntil (sy_breaker s)) →
  sy_breaker (acts l2 s) = sy_breaker s ∧
  ∀ p, p ∈ sy_permits (acts l2 s) → is_Some (pm_config p) →
    ∃ q, q ∈ sy_permits s ∧ pm_config q = pm_config p ∧ pm_generation q = pm_generation p ∧ pm_state q = pm_state p.
Proof.
  intros s Hlen. pose proof (zlen_nonneg l2). pose proof (zlen_nonneg l).
  assert (Hok : sys_ok (zlen l) s) by (apply (acts_sys_ok l 0 start start_sys_ok); lia).
  clearbody s. revert s Hok. generalize dependent (zlen l). induction l2 as [|a l2 IH]; intros n Hlen Hn s Hok Ho Ht.
  { cbn. split; [done|]. by eauto 10. }
  rewrite zlen_cons in *. pose proof (zlen_nonneg l2).
  destruct (open_act a s n Hok Ho ltac:(apply Ht; set_solver)) as [Hb Hp].
  pose proof (acts_sys_ok [a] n s Hok) as Hok1. change (zlen [a]) with 1 in Hok1. cbn [acts fold_left] in *.
  specialize (Hok1 ltac:(lia)). rewrite <- Hb in Ht, Ho.
  destruct (IH ltac:(lia) (n + 1) ltac:(lia) ltac:(lia) (act a s) Hok1 Ho) as [Hb2 Hp2].
  { intros a' Ha'. apply Ht. set_solver. }
  unfold acts in *. rewrite Hb2, Hb. split; [done|]. intros p Hin Hc.
  destruct (Hp2 p Hin Hc) as (q & Hq & Eq1 & Eq2 & Eq3).
  destruct (Hp q Hq ltac:(by rewrite Eq1)) as (q' & Hq' & ? & ? & ?). exists q'. split_and!; [done|congruence..].
Qed.

(** ** Recovery *)
Definition probe_round (config : BreakerPolicy) (now : time) (b : Breaker) : option Breaker :=
  match Allow config now b with
  | (Ok p, b) => Some (snd (Done None now p b))
  | (Err _, _) => None
  end.

Fixpoint probe_rounds (config : BreakerPolicy) (times : list time) (b : Breaker) : option Breaker :=
  match times with
  | [] => Some b
  | now :: times => b' ← probe_round config now b; probe_rounds config times b'
  end.

Lemma probe_round_half config now b :
  p_Enabled config = true → validate config = None → b_state b = StateHalfOpen →
  b_probesInFlight b = 0 →
  probe_round config now b = Some
    (if p_HalfOpenProbes config <=? b_probeSuccesses b + 1 then close now b
     else with_probes 0 (b_probeSuccesses b + 1) b).
Proof.
  intros He Hv Hs Hp. unfold probe_round, Allow. rewrite He, Hv. cbn [negb]. unfold advance. rewrite Hs.
  rewrite (bool_decide_true _ Hs), Hp.
  assert (Hpos : 0 < p_HalfOpenProbes config) by (unfold validate in Hv; case_match; [done|]; bool_hyps; lia).
  rewrite (proj2 (Z.leb_gt _ _)) by lia. unfold Done. cbn [pm_config pm_done pm_state pm_generation snd].
  unfold complete. cbn [with_probes b_state b_generation]. rewrite Z.eqb_refl, bool_decide_true by done.
  rewrite Hs. cbn. by destruct (p_HalfOpenProbes config <=? b_probeSuccesses b + 1).
Qed.

Lemma probe_rounds_half config times b :
  p_Enabled config = true → validate config = None → b_state b = StateHalfOpen →
  b_probesInFlight b = 0 → times ≠ [] →
  b_probeSuccesses b + zlen times = p_HalfOpenProbes config →
  ∃ b', probe_rounds config times b = Some b' ∧ b_state b' = StateClosed ∧ b_requests b' = 0 ∧ b_failures b' = 0.
Proof.
  intros He Hv. revert b. induction times as [|now times IH]; intros b Hs Hp Hne Hlen; [done|].
  rewrite zlen_cons in Hlen. cbn [probe_rounds]. rewrite probe_round_half by done.
  destruct times as [|now' times].
  - unfold zlen in Hlen. cbn in Hlen. rewrite (proj2 (Z.leb_le _ _)) by lia. cbn. by eauto.
  - rewrite zlen_cons in Hlen. pose proof (zlen_nonneg times). rewrite (proj2 (Z.leb_gt _ _)) by lia.
    cbn [mbind option_bind]. apply IH; [done..|]. cbn [with_probes b_probeSuccesses]. rewrite zlen_cons. lia.
Qed.

(** a breaker recovers.  Once the open deadline has passed, [HalfOpenProbes] consecutive
    successful invocations under one valid policy are all admitted and close the breaker with
    an empty window. *)
Theorem breaker_recovers config now times b :
  p_Enabled config = true → validate config = None → b_state b = StateOpen →
  b_openUntil b ≤ now → zlen (now :: times) = p_HalfOpenProbes config →
  ∃ b', probe_rounds config (now :: times) b = Some b' ∧
    b_state b' = StateClosed ∧ b_requests b' = 0 ∧ b_failures b' = 0.
Proof.
  intros He Hv Hs Hnow Hlen.
  assert (Heq : probe_round config now b = probe_round config now (with_probes 0 0 (with_state StateHalfOpen b))).
  { unfold probe_round, Allow. rewrite He, Hv. cbn [negb]. unfold advance. rewrite Hs. unfold Before.
    rewrite (proj2 (Z.ltb_ge _ _)) by done. done. }
  pose proof (probe_rounds_half config (now :: times) (with_probes 0 0 (with_state StateHalfOpen b)) He Hv
    eq_refl eq_refl ltac:(done) Hlen) as H.
  cbn [probe_rounds] in *. by rewrite Heq.
Qed.

(** 0/n is the zero float or not a number, below every ratio the policy check lets through. *)
Lemma ratio_zero config requests :
  validate config = None → ratio_reached 0 requests (p_FailureRatio config) = false.
Proof.
  unfold validate. case_match eqn:Hc; [done|]. intros _. bool_hyps. unfold ratio_reached, div64.
  change (float64 0) with (S754_zero false) in *.
  destruct (p_FailureRatio config) as [[]|[]| |[] m ex], (float64 requests); done.
Qed.

(** a breaker that sees no failure never trips.  In the closed state, a completion that
    reports neither a transport failure nor a timeout while the window holds no failure leaves
    the breaker closed, whatever the thresholds (the ratio 0/n is below every valid ratio). *)
Theorem no_failure_no_trip config b err now :
  validate config = None → b_state b = StateClosed → b_failures b = 0 → instanceFailure err = false →
  b_state (complete config StateClosed (b_generation b) err now b) = StateClosed.
Proof.
  intros Hv Hs Hf Herr. unfold complete. rewrite Z.eqb_refl, Hs, bool_decide_true by done. cbn [negb orb].
  rewrite Herr.
  assert (Hroll : b_failures (rollWindow now (p_Window config) b) = 0).
  { unfold rollWindow. by case_match. }
  destruct (rollWindow_fields now (p_Window config) b) as (E1 & _).
  cbn [with_counts b_requests b_failures]. rewrite Hroll, ratio_zero by done.
  rewrite andb_false_r. cbn. congruence.
Qed.

(** ** Marked failures *)
Lemma MarkTransport_classified err : Classify (Some err) ≠ None_ ∧ Classify (MarkTransport (Some err)) = Transport.
Proof.
  split.
  - cbn. repeat (case_match; try done).
  - cbn [MarkTransport Classify]. destruct (marked err) eqn:Hm; [by rewrite Hm|]. done.
Qed.

(** * Concrete runs *)
Definition ex_policy : BreakerPolicy :=
  mkPolicy true (div64 (float64 1) (float64 2)) (10 * second) 2 (5 * second) 2.
Definition ex_timeout : option goerror := Some (Node (TagOther "dial") [Node (TagNetwork true) []]).
Definition ex_trip : list action :=
  [DoAllow ex_policy 1; DoDone 0 ex_timeout 2; DoAllow ex_policy 3; DoAllow ex_policy 4; DoDone 1 None 5].

Example ex_trip_opens :
  b_state (sy_breaker (acts ex_trip start)) = StateOpen ∧
  b_openUntil (sy_breaker (acts ex_trip start)) = 5 + 5 * second.
Proof. vm_compute. split; reflexivity. Qed.

Example ex_policy_valid : validate ex_policy = None.
Proof. vm_compute. reflexivity. Qed.

Lemma breaker_probe_accounting_witness :
  let s := acts ex_trip start in
  b_state (sy_breaker s) ∈ [StateClosed; StateOpen; StateHalfOpen] ∧
  b_probesInFlight (sy_breaker s) = (if b_state (sy_breaker s) == StateHalfOpen then probes s else 0).
Proof. apply (breaker_probe_accounting ex_trip). vm_compute. discriminate. Defined.

Lemma open_until_deadline_witness :
  let s := acts ex_trip start in
  let l2 := [DoDone 2 ex_timeout 6; DoAllow ex_policy 7] in
  sy_breaker (acts l2 s) = sy_breaker s ∧
  ∀ p, p ∈ sy_permits (acts l2 s) → is_Some (pm_config p) →
    ∃ q, q ∈ sy_permits s ∧ pm_config q = pm_config p ∧ pm_generation q = pm_generation p ∧ pm_state q = pm_state p.
Proof.
  apply (open_until_deadline ex_trip [DoDone 2 ex_timeout 6; DoAllow ex_policy 7]).
  - vm_compute. discriminate.
  - vm_compute. reflexivity.
  - intros a [->|[->|Ha%elem_of_nil]%elem_of_cons]%elem_of_cons; [vm_compute; reflexivity..|done].
Defined.

Lemma breaker_recovers_witness :
  let b := sy_breaker (acts ex_trip start) in
  ∃ b', probe_rounds ex_policy [6 * second; 7 * second] b = Some b' ∧
    b_state b' = StateClosed ∧ b_requests b' = 0 ∧ b_failures b' = 0.
Proof.
  apply (breaker_recovers ex_policy (6 * second) [7 * second] (sy_breaker (acts ex_trip start))).
  - reflexivity.
  - vm_compute. reflexivity.
  - vm_compute. reflexivity.
  - vm_compute. discriminate.
  - vm_compute. reflexivity.
Defined.

Lemma no_failure_no_trip_witness :
  b_state (complete ex_policy StateClosed 0 None 5 NewBreaker) = StateClosed.
Proof.
  apply (no_failure_no_trip ex_policy NewBreaker None 5).
  - vm_compute. reflexivity.
  - reflexivity.
  - reflexivity.
  - reflexivity.
Defined.
