(* ===== verification/Bulkhead.v ===== *)
(** * governance/bulkhead: dependency-scoped concurrency isolation

    Models [bulkhead.go]: [Acquire] with its bounded FIFO queue, [Release], cancellation and
    timeout of queued and already granted waiters.  Waiters are heap objects shared between
    the queue and the goroutine that waits, so the model has a heap of waiter states and the
    queue holds pointers, numbered in the order of allocation.  Each critical section of the
    mutex is one atomic step; the [select] of a waiting goroutine is a later step of its own
    that may go any of its ways. *)
From S2P Require Import Prelude.
Open Scope Z_scope.

Record BulkheadPolicy := mkPolicy {
  p_Enabled : bool;
  p_MaxConcurrency : Z;
  p_MaxQueue : Z;
  p_QueueTimeout : duration
}.

Inductive berror := ErrFull | ErrQueueTimeout | ErrInvalidPolicy | ErrCause.

Definition validate (config : BulkheadPolicy) : option berror :=
  if (p_MaxConcurrency config <=? 0) || (p_MaxQueue config <? 0) || (p_QueueTimeout config <? 0) ||
     ((0 <? p_MaxQueue config) && (p_QueueTimeout config <=? 0)) ||
     ((p_MaxQueue config =? 0) && (0 <? p_QueueTimeout config))
  then Some ErrInvalidPolicy else None.

Inductive waiterState := waiterQueued | waiterGranted | waiterCanceled.

#[export] Instance waiterState_eq_dec : EqDecision waiterState.
Proof. solve_decision. Defined.

Record Bulkhead := mkBulkhead {
  b_heap : list waiterState;
  b_maxConcurrency : Z;
  b_maxQueue : Z;
  b_inflight : Z;
  b_waiters : list nat;
  b_queueHighWater : Z;
  b_accepted : Z;
  b_rejected : Z;
  b_queueTimeouts : Z;
  b_queueCancellations : Z
}.

Definition NewBulkhead : Bulkhead := mkBulkhead [] 0 0 0 [] 0 0 0 0 0.

Definition with_limits (maxConcurrency maxQueue : Z) (b : Bulkhead) : Bulkhead :=
  mkBulkhead (b_heap b) maxConcurrency maxQueue (b_inflight b) (b_waiters b) (b_queueHighWater b)
    (b_accepted b) (b_rejected b) (b_queueTimeouts b) (b_queueCancellations b).
Definition with_queue (heap : list waiterState) (waiters : list nat) (b : Bulkhead) : Bulkhead :=
  mkBulkhead heap (b_maxConcurrency b) (b_maxQueue b) (b_inflight b) waiters (b_queueHighWater b)
    (b_accepted b) (b_rejected b) (b_queueTimeouts b) (b_queueCancellations b).
Definition with_inflight (inflight : Z) (b : Bulkhead) : Bulkhead :=
  mkBulkhead (b_heap b) (b_maxConcurrency b) (b_maxQueue b) inflight (b_waiters b) (b_queueHighWater b)
    (b_accepted b) (b_rejected b) (b_queueTimeouts b) (b_queueCancellations b).
(** One more running call: [inflight++; accepted++]. *)
Definition take_slot (b : Bulkhead) : Bulkhead :=
  mkBulkhead (b_heap b) (b_maxConcurrency b) (b_maxQueue b) (b_inflight b + 1) (b_waiters b)
    (b_queueHighWater b) (u64_add (b_accepted b) 1) (b_rejected b) (b_queueTimeouts b)
    (b_queueCancellations b).
Definition reject (b : Bulkhead) : Bulkhead :=
  mkBulkhead (b_heap b) (b_maxConcurrency b) (b_maxQueue b) (b_inflight b) (b_waiters b)
    (b_queueHighWater b) (b_accepted b) (u64_add (b_rejected b) 1) (b_queueTimeouts b)
    (b_queueCancellations b).
Definition count_cancel (timedOut : bool) (b : Bulkhead) : Bulkhead :=
  mkBulkhead (b_heap b) (b_maxConcurrency b) (b_maxQueue b) (b_inflight b) (b_waiters b)
    (b_queueHighWater b) (b_accepted b) (b_rejected b)
    (if timedOut then u64_add (b_queueTimeouts b) 1 else b_queueTimeouts b)
    (if timedOut then b_queueCancellations b else u64_add (b_queueCancellations b) 1).
Definition enqueue (b : Bulkhead) : Bulkhead :=
  let waiters := b_waiters b ++ [length (b_heap b)] in
  mkBulkhead (b_heap b ++ [waiterQueued]) (b_maxConcurrency b) (b_maxQueue b) (b_inflight b) waiters
    (if b_queueHighWater b <? zlen waiters then zlen waiters else b_queueHighWater b)
    (b_accepted b) (b_rejected b) (b_queueTimeouts b) (b_queueCancellations b).

(** The loop of [grantNextLocked]. *)
Fixpoint grant_loop (waiters : list nat) (b : Bulkhead) : Bulkhead :=
  match waiters with
  | [] => with_queue (b_heap b) [] b
  | candidate :: waiters =>
      if b_heap b !! candidate == Some waiterQueued
      then take_slot (with_queue (<[candidate := waiterGranted]> (b_heap b)) waiters b)
      else grant_loop waiters b
  end.

Definition grantNextLocked (b : Bulkhead) : Bulkhead :=
  if (b_maxConcurrency b <=? 0) || (b_maxConcurrency b <=? b_inflight b) then b
  else grant_loop (b_waiters b) b.

(** [for b.inflight < b.maxConcurrency && len(b.waiters) > 0]: every round takes at least one
    waiter off the queue, so its length bounds the rounds. *)
Fixpoint grant_all (rounds : nat) (b : Bulkhead) : Bulkhead :=
  match rounds with
  | O => b
  | S rounds =>
      if (b_inflight b <? b_maxConcurrency b) && (0 <? zlen (b_waiters b))
      then grant_all rounds (grantNextLocked b) else b
  end.

Fixpoint remove (candidate : nat) (waiters : list nat) : list nat :=
  match waiters with
  | [] => []
  | w :: waiters => if Nat.eqb w candidate then waiters else w :: remove candidate waiters
  end.
Definition removeWaiterLocked (candidate : nat) (b : Bulkhead) : Bulkhead :=
  with_queue (b_heap b) (remove candidate (b_waiters b)) b.

Definition less_one (b : Bulkhead) : Bulkhead :=
  if 0 <? b_inflight b then with_inflight (b_inflight b - 1) b else b.

(** [cancelGranted]: true when the waiter was still queued. *)
Definition cancelGranted (candidate : nat) (timedOut : bool) (b : Bulkhead) : bool * Bulkhead :=
  let canceled := with_queue (<[candidate := waiterCanceled]> (b_heap b)) (b_waiters b) b in
  match b_heap b !! candidate with
  | Some waiterQueued =>
      (true, grantNextLocked (count_cancel timedOut (removeWaiterLocked candidate canceled)))
  | Some waiterGranted => (false, grantNextLocked (count_cancel timedOut (less_one canceled)))
  | _ => (true, b)
  end.

Definition release (b : Bulkhead) : Bulkhead := grantNextLocked (less_one b).

(** The critical section of [Acquire]: a permit, a place in the queue, or a rejection. *)
Inductive entered := Acquired | Waiting (candidate : nat) | Rejected (err : berror).

Definition Acquire (cause : bool) (config : BulkheadPolicy) (b : Bulkhead) : entered * Bulkhead :=
  if cause then (Rejected ErrCause, b)
  else match validate config with
  | Some err => (Rejected err, b)
  | None =>
      let b := with_limits (p_MaxConcurrency config) (p_MaxQueue config) b in
      let b := grant_all (length (b_waiters b)) b in
      if (b_inflight b <? p_MaxConcurrency config) && (zlen (b_waiters b) =? 0)
      then (Acquired, take_slot b)
      else if (p_MaxQueue config =? 0) || (p_MaxQueue config <=? zlen (b_waiters b))
      then (Rejected ErrFull, reject b)
      else (Waiting (length (b_heap b)), enqueue b)
  end.

(** ** Callers

    A caller holds a permit (by number, with its [sync.Once]) or waits on a candidate. *)
Record system := mkSystem {
  sy_b : Bulkhead;
  sy_permits : list bool;      (* released? *)
  sy_waiting : list nat        (* candidates whose Acquire has not returned *)
}.
Definition start : system := mkSystem NewBulkhead [] [].

Inductive action :=
| DoAcquire (cause : bool) (config : BulkheadPolicy)
| DoReady (candidate : nat) (cause : bool)       (* case <-candidate.ready *)
| DoCancel (candidate : nat) (timedOut : bool)   (* case <-ctx.Done(), <-clock.After *)
| DoRelease (permit : nat).

(** Disabled policies never touch the bulkhead; the steps of a waiting call require that it
    waits, and [ready] is closed exactly when the waiter was granted. *)
Definition act (a : action) (s : system) : system :=
  match a with
  | DoAcquire cause config =>
      if negb (p_Enabled config) then s
      else match Acquire cause config (sy_b s) with
      | (Acquired, b) => mkSystem b (sy_permits s ++ [false]) (sy_waiting s)
      | (Waiting c, b) => mkSystem b (sy_permits s) (sy_waiting s ++ [c])
      | (Rejected _, b) => mkSystem b (sy_permits s) (sy_waiting s)
      end
  | DoReady c cause =>
      if bool_decide (c ∈ sy_waiting s) && (b_heap (sy_b s) !! c == Some waiterGranted) then
        if cause then mkSystem (snd (cancelGranted c false (sy_b s))) (sy_permits s) (remove c (sy_waiting s))
        else mkSystem (sy_b s) (sy_permits s ++ [false]) (remove c (sy_waiting s))
      else s
  | DoCancel c timedOut =>
      if bool_decide (c ∈ sy_waiting s)
      then mkSystem (snd (cancelGranted c timedOut (sy_b s))) (sy_permits s) (remove c (sy_waiting s))
      else s
  | DoRelease i =>
      match sy_permits s !! i with
      | Some false => mkSystem (release (sy_b s)) (<[i := true]> (sy_permits s)) (sy_waiting s)
      | _ => s
      end
  end.
Definition acts (l : list action) (s : system) : system := fold_left (λ s a, act a s) l s.

(** ** Invariants *)
Definition granted (heap : list waiterState) (w : nat) : bool := heap !! w == Some waiterGranted.
Definition unreleased (permits : list bool) : Z := zlen (List.filter negb permits).

(** Queue, heap and waiting callers agree, and every slot in use belongs to someone. *)
Record base (b : Bulkhead) (permits waiting_granted : Z) (waiting : list nat) : Prop := mk_base {
  ba_sorted : StronglySorted lt (b_waiters b);
  ba_queue : ∀ w, w ∈ b_waiters b ↔ b_heap b !! w = Some waiterQueued;
  ba_waiting : ∀ w, w ∈ b_waiters b → w ∈ waiting;
  ba_nodup : NoDup waiting;
  ba_live : ∀ w, w ∈ waiting → b_heap b !! w = Some waiterQueued ∨ b_heap b !! w = Some waiterGranted;
  ba_count : waiting_granted = zlen (List.filter (granted (b_heap b)) waiting);
  ba_slots : b_inflight b = permits + waiting_granted;
  ba_limit : 0 ≤ b_maxConcurrency b;
  ba_permits : 0 ≤ permits
}.

Definition owned (b : Bulkhead) (permits : Z) (waiting : list nat) : Prop :=
  base b permits (zlen (List.filter (granted (b_heap b)) waiting)) waiting.

Definition busy (b : Bulkhead) : Prop := b_waiters b ≠ [] → b_maxConcurrency b ≤ b_inflight b.

Lemma count_granted_insert heap w st (waiting : list nat) :
  NoDup waiting → (w < length heap)%nat →
  zlen (List.filter (granted (<[w := st]> heap)) waiting) +
    (if bool_decide (w ∈ waiting) && granted heap w then 1 else 0) =
  zlen (List.filter (granted heap) waiting) +
    (if bool_decide (w ∈ waiting) && (st == waiterGranted) then 1 else 0).
Proof.
  intros Hnd Hlt. induction waiting as [|x waiting IH]; [done|].
  apply NoDup_cons in Hnd as [Hx Hnd]. specialize (IH Hnd). cbn [List.filter].
  destruct (decide (x = w)) as [->|Hne].
  - rewrite (bool_decide_false (w ∈ waiting)) in IH by done. cbn [andb] in IH.
    rewrite (bool_decide_true (w ∈ w :: waiting)) by set_solver. cbn [andb].
    assert (granted (<[w := st]> heap) w = (st == waiterGranted)) as ->.
    { unfold granted. rewrite list_lookup_insert_eq by done. by destruct st. }
    destruct (granted heap w), (st == waiterGranted); rewrite ?zlen_cons; lia.
  - assert (granted (<[w := st]> heap) x = granted heap x) as ->.
    { unfold granted. by rewrite list_lookup_insert_ne by done. }
    assert (bool_decide (w ∈ x :: waiting) = bool_decide (w ∈ waiting)) as ->.
    { apply bool_decide_ext. set_solver. }
    destruct (granted heap x); rewrite ?zlen_cons; lia.
Qed.

(** Granting the oldest waiter. *)
Lemma grant_head b permits waiting w ws :
  owned b permits waiting → b_waiters b = w :: ws →
  owned (take_slot (with_queue (<[w := waiterGranted]> (b_heap b)) ws b)) permits waiting ∧
  b_heap b !! w = Some waiterQueued ∧
  (∀ w', (w' < w)%nat → (<[w := waiterGranted]> (b_heap b)) !! w' ≠ Some waiterQueued).
Proof.
  intros [H1 H2 H3 H4 H5 _ H7 H8 H9] Hw. rewrite Hw in *.
  assert (Hq : b_heap b !! w = Some waiterQueued) by (apply H2; set_solver).
  assert (Hlt : (w < length (b_heap b))%nat) by (by eapply lookup_lt_Some).
  apply StronglySorted_cons in H1 as [Hmin Hs]. rewrite Forall_forall in Hmin. split_and!; [|done|].
  - constructor; cbn; try done.
    + intros x. destruct (decide (x = w)) as [->|Hne].
      * rewrite list_lookup_insert_eq by done. split; [|done]. intros Hx%Hmin. lia.
      * rewrite list_lookup_insert_ne by done. rewrite <- H2. set_solver.
    + set_solver.
    + intros x Hx. destruct (decide (x = w)) as [->|Hne].
      * right. by rewrite list_lookup_insert_eq.
      * rewrite list_lookup_insert_ne by done. auto.
    + pose proof (count_granted_insert (b_heap b) w waiterGranted waiting H4 Hlt) as Hc.
      rewrite bool_decide_true in Hc by set_solver. cbn [andb] in Hc.
      assert (granted (b_heap b) w = false) as E by (unfold granted; rewrite Hq; done).
      rewrite E, (bool_decide_true (waiterGranted = waiterGranted)) in Hc by done. lia.
  - intros w' Hw'. rewrite list_lookup_insert_ne by lia. intros Hx%H2.
    apply elem_of_cons in Hx as [->|Hx]; [lia|]. apply Hmin in Hx. lia.
Qed.

(** What one call of [grantNextLocked] does. *)
Lemma grantNext_cases b permits waiting :
  owned b permits waiting →
  (grantNextLocked b = b ∧ (b_waiters b = [] ∨ b_maxConcurrency b ≤ b_inflight b)) ∨
  (b_inflight b < b_maxConcurrency b ∧ ∃ w ws, b_waiters b = w :: ws ∧
     grantNextLocked b = take_slot (with_queue (<[w := waiterGranted]> (b_heap b)) ws b)).
Proof.
  intros Hb. pose proof (ba_limit _ _ _ _ Hb). pose proof (ba_permits _ _ _ _ Hb). pose proof (ba_slots _ _ _ _ Hb).
  pose proof (zlen_nonneg (List.filter (granted (b_heap b)) waiting)).
  unfold grantNextLocked. destruct (Z.leb_spec (b_maxConcurrency b) 0); [left; split; [done|lia]|].
  destruct (Z.leb_spec (b_maxConcurrency b) (b_inflight b)); [left; cbn; split; [done|lia]|]. cbn [orb].
  destruct (b_waiters b) as [|w ws] eqn:Hw.
  - left. split; [|by left]. cbn. unfold with_queue. rewrite <- Hw. by destruct b.
  - right. split; [done|]. exists w, ws. split; [done|]. cbn [grant_loop].
    rewrite bool_decide_true; [done|]. apply (ba_queue _ _ _ _ Hb). rewrite Hw. set_solver.
Qed.

(** Newly granted waiters have no older waiter still queued. *)
Definition fifo (b b' : Bulkhead) : Prop :=
  (∀ w, b_heap b' !! w = Some waiterGranted → b_heap b !! w ≠ Some waiterGranted →
     ∀ w', (w' < w)%nat → b_heap b' !! w' ≠ Some waiterQueued) ∧
  (∀ w, b_heap b' !! w = Some waiterQueued → (w < length (b_heap b))%nat → b_heap b !! w = Some waiterQueued).

Lemma fifo_refl b b' : b_heap b' = b_heap b → fifo b b'.
Proof. intros E. split; rewrite E; [|done]. intros w H1 H2. done. Qed.

Lemma fifo_trans b1 b2 b3 :
  length (b_heap b1) = length (b_heap b2) →
  fifo b1 b2 → fifo b2 b3 → fifo b1 b3.
Proof.
  intros Hlen [F1 Q1] [F2 Q2]. split.
  - intros w H3 H1 w' Hw' Hq. destruct (decide (b_heap b2 !! w = Some waiterGranted)) as [Hg|Hg].
    + assert (Hlt : (w' < length (b_heap b2))%nat).
      { apply lookup_lt_Some in Hg. lia. }
      apply (F1 w Hg H1 w' Hw'). by apply Q2.
    + by apply (F2 w H3 Hg w').
  - intros w Hq Hlt. apply Q1; [|done]. apply Q2; [done|]. lia.
Qed.

(** One grant: ownership, order and limits. *)
Lemma grantNext_owned b permits waiting :
  owned b permits waiting →
  let b' := grantNextLocked b in
  owned b' permits waiting ∧ fifo b b' ∧ length (b_heap b') = length (b_heap b) ∧
  b_maxConcurrency b' = b_maxConcurrency b ∧ b_maxQueue b' = b_maxQueue b ∧
  (b_inflight b ≤ b_maxConcurrency b → b_inflight b' ≤ b_maxConcurrency b) ∧
  (length (b_waiters b') ≤ length (b_waiters b))%nat ∧
  ((b_waiters b ≠ [] → b_maxConcurrency b ≤ b_inflight b + 1) → busy b') ∧
  (b_inflight b < b_maxConcurrency b → b_waiters b ≠ [] →
     (length (b_waiters b') < length (b_waiters b))%nat).
Proof.
  intros Hb. cbv zeta. destruct (grantNext_cases b permits waiting Hb) as [[E Hfull]|(Hlt & w & ws & Hw & E)].
  - rewrite E. split_and!; try done; try (by apply fifo_refl).
    + intros Hd Hne. destruct Hfull; [done|lia].
    + intros. destruct Hfull; [done|lia].
  - rewrite E. destruct (grant_head b permits waiting w ws Hb Hw) as (Ho & Hq & Hold).
    cbn [b_heap b_waiters b_inflight b_maxConcurrency b_maxQueue take_slot with_queue].
    rewrite Hw. split_and!; try done; try (cbn; lia).
    + split; cbn.
      * intros x Hx Hnx. destruct (decide (x = w)) as [->|Hne]; [done|].
        rewrite list_lookup_insert_ne in Hx by done. done.
      * intros x Hx _. destruct (decide (x = w)) as [->|Hne]; [done|].
        by rewrite list_lookup_insert_ne in Hx.
    + apply length_insert.
    + intros Hd _. cbn. specialize (Hd ltac:(done)). lia.
Qed.

(** The granting loop of [Acquire]. *)
Lemma grant_all_owned rounds b permits waiting :
  owned b permits waiting → (length (b_waiters b) ≤ rounds)%nat →
  let b' := grant_all rounds b in
  owned b' permits waiting ∧ fifo b b' ∧ length (b_heap b') = length (b_heap b) ∧
  b_maxConcurrency b' = b_maxConcurrency b ∧ b_maxQueue b' = b_maxQueue b ∧
  (b_inflight b ≤ b_maxConcurrency b → b_inflight b' ≤ b_maxConcurrency b) ∧
  (length (b_waiters b') ≤ length (b_waiters b))%nat ∧ busy b'.
Proof.
  revert b. induction rounds as [|rounds IH]; intros b Hb Hlen; cbv zeta; cbn [grant_all].
  { split_and!; try done; try (by apply fifo_refl). intros Hne. destruct (b_waiters b); [done|cbn in Hlen; lia]. }
  destruct (Z.ltb_spec (b_inflight b) (b_maxConcurrency b)) as [Hlt|Hge]; cbn [andb].
  2:{ split_and!; try done; try (by apply fifo_refl). by intros ?. }
  destruct (Z.ltb_spec 0 (zlen (b_waiters b))) as [Hpos|Hzero].
  2:{ split_and!; try done; try (by apply fifo_refl). intros Hne. unfold zlen in Hzero. destruct (b_waiters b); [done|cbn in Hzero; lia]. }
  assert (Hne : b_waiters b ≠ []) by (intros E; rewrite E in Hpos; unfold zlen in Hpos; cbn in Hpos; lia).
  destruct (grantNext_owned b permits waiting Hb) as (Ho & Hf & Hl & Hm & Hq & Hbound & Hle & _ & Hdec).
  specialize (Hdec Hlt Hne).
  destruct (IH (grantNextLocked b) Ho ltac:(lia)) as (Ho' & Hf' & Hl' & Hm' & Hq' & Hbound' & Hle' & Hbusy).
  split_and!; try done.
  - eapply fifo_trans; [|done..]. congruence.
  - congruence.
  - congruence.
  - congruence.
  - rewrite Hm in Hbound'. auto.
  - lia.
Qed.

(** *** Removing a waiter *)
Lemma elem_of_remove c l x : NoDup l → x ∈ remove c l ↔ x ∈ l ∧ x ≠ c.
Proof.
  induction l as [|y l IH]; intros Hnd; cbn; [set_solver|]. apply NoDup_cons in Hnd as [Hy Hnd].
  destruct (Nat.eqb_spec y c) as [->|Hne].
  - split; [|set_solver]. intros Hx. split; [set_solver|]. by intros ->.
  - rewrite !elem_of_cons, IH by done. naive_solver.
Qed.

Lemma remove_sublist c l : remove c l `sublist_of` l.
Proof.
  induction l as [|y l IH]; cbn; [done|]. destruct (Nat.eqb y c); [by apply sublist_cons|by constructor].
Qed.

Lemma remove_count (f : nat → bool) c l :
  NoDup l → c ∈ l →
  zlen (List.filter f (remove c l)) + Z.b2z (f c) = zlen (List.filter f l).
Proof.
  induction l as [|y l IH]; intros Hnd Hc; [set_solver|]. apply NoDup_cons in Hnd as [Hy Hnd]. cbn [remove].
  destruct (Nat.eqb_spec y c) as [->|Hne]; cbn [List.filter].
  - destruct (f c); rewrite ?zlen_cons; cbn [Z.b2z]; lia.
  - specialize (IH Hnd ltac:(set_solver)). destruct (f y); rewrite ?zlen_cons; lia.
Qed.

Lemma filter_ext_in {A} (f g : A → bool) (l : list A) :
  (∀ x, x ∈ l → f x = g x) → List.filter f l = List.filter g l.
Proof.
  induction l as [|x l IH]; intros H; cbn; [done|]. rewrite (H x) by set_solver.
  rewrite IH by set_solver. done.
Qed.

Lemma sorted_remove c (l : list nat) : StronglySorted lt l → StronglySorted lt (remove c l).
Proof.
  induction 1 as [|x l Hs IH Hx]; cbn; [constructor|]. destruct (Nat.eqb x c); [done|].
  constructor; [done|]. rewrite Forall_forall in *. intros y Hy.
  apply Hx. eapply elem_of_submseteq; [done|]. apply sublist_submseteq, remove_sublist.
Qed.

(** Marking a waiter of [waiting] as canceled and dropping it everywhere. *)
Lemma cancel_owned b permits waiting c st :
  owned b permits waiting → c ∈ waiting → b_heap b !! c = Some st →
  let b' := with_queue (<[c := waiterCanceled]> (b_heap b)) (remove c (b_waiters b)) b in
  owned (with_inflight (b_inflight b - (if st == waiterGranted then 1 else 0)) b') permits (remove c waiting) ∧
  fifo b b'.
Proof.
  intros [H1 H2 H3 H4 H5 _ H7 H8 H9] Hc Hst. cbv zeta.
  assert (Hlt : (c < length (b_heap b))%nat) by (by eapply lookup_lt_Some).
  assert (Hndw : NoDup (b_waiters b)).
  { clear -H1. induction H1 as [|x l Hs IH Hx]; constructor; [|done]. rewrite Forall_forall in Hx.
    intros Hin%Hx. lia. }
  split.
  - constructor; cbn [b_heap b_waiters b_inflight b_maxConcurrency with_queue with_inflight]; try done.
    + by apply sorted_remove.
    + intros x. rewrite elem_of_remove by done. rewrite H2. destruct (decide (x = c)) as [->|Hne].
      * rewrite list_lookup_insert_eq by done. split; [naive_solver|done].
      * rewrite list_lookup_insert_ne by done. naive_solver.
    + intros x. rewrite !elem_of_remove by done. naive_solver.
    + apply (sublist_NoDup _ waiting); [done|apply remove_sublist].
    + intros x. rewrite elem_of_remove by done. intros [Hx Hne]. rewrite list_lookup_insert_ne by done. auto.
    + pose proof (remove_count (granted (b_heap b)) c waiting H4 Hc) as Hr.
      rewrite (filter_ext_in (granted (<[c := waiterCanceled]> (b_heap b))) (granted (b_heap b))).
      2:{ intros x. rewrite elem_of_remove by done. intros [_ Hne]. unfold granted. by rewrite list_lookup_insert_ne. }
      assert (Hg : granted (b_heap b) c = (st == waiterGranted)) by (unfold granted; rewrite Hst; by destruct st).
      rewrite Hg in Hr. rewrite H7. destruct (st == waiterGranted); cbn [Z.b2z] in Hr; lia.
  - split; cbn.
    + intros x Hx Hnx. destruct (decide (x = c)) as [->|Hne].
      * by rewrite list_lookup_insert_eq in Hx.
      * by rewrite list_lookup_insert_ne in Hx.
    + intros x Hx _. destruct (decide (x = c)) as [->|Hne].
      * by rewrite list_lookup_insert_eq in Hx.
      * by rewrite list_lookup_insert_ne in Hx.
Qed.

Lemma remove_absent c l : c ∉ l → remove c l = l.
Proof.
  induction l as [|y l IH]; intros Hc; cbn; [done|]. destruct (Nat.eqb_spec y c); [set_solver|].
  f_equal. apply IH. set_solver.
Qed.

Lemma owned_inflight b permits waiting :
  owned b permits waiting → 0 ≤ b_inflight b ∧
  (∀ c, c ∈ waiting → b_heap b !! c = Some waiterGranted → 0 < b_inflight b).
Proof.
  intros Hb. pose proof (ba_slots _ _ _ _ Hb) as Hs. pose proof (ba_permits _ _ _ _ Hb).
  pose proof (zlen_nonneg (List.filter (granted (b_heap b)) waiting)). split; [lia|].
  intros c Hc Hg. pose proof (remove_count (granted (b_heap b)) c waiting (ba_nodup _ _ _ _ Hb) Hc) as Hr.
  unfold granted at 2 in Hr. rewrite Hg, bool_decide_true in Hr by done. cbn in Hr.
  pose proof (zlen_nonneg (List.filter (granted (b_heap b)) (remove c waiting))). lia.
Qed.

(** Counters do not matter to ownership. *)
Lemma owned_counts b b' permits waiting :
  owned b permits waiting → b_heap b' = b_heap b → b_waiters b' = b_waiters b →
  b_inflight b' = b_inflight b → b_maxConcurrency b' = b_maxConcurrency b → owned b' permits waiting.
Proof.
  intros [H1 H2 H3 H4 H5 _ H7 H8 H9] E1 E2 E3 E4.
  constructor; rewrite ?E1, ?E2, ?E3, ?E4; try done.
Qed.

(** *** Steps *)
Definition sys_ok (s : system) : Prop :=
  owned (sy_b s) (unreleased (sy_permits s)) (sy_waiting s) ∧ busy (sy_b s).

(** The effects of a step that clients observe. *)
Record good_step (s s' : system) : Prop := mk_good_step {
  gs_ok : sys_ok s';
  gs_fifo : fifo (sy_b s) (sy_b s')
}.

Lemma good_refl s : sys_ok s → good_step s s.
Proof. intros Hs. split; [done|by apply fifo_refl]. Qed.

Lemma fifo_same_right b1 b2 b3 : fifo b1 b2 → b_heap b3 = b_heap b2 → fifo b1 b3.
Proof. intros H E. unfold fifo in *. by rewrite E. Qed.

Lemma cancelGranted_good s c timedOut :
  sys_ok s → c ∈ sy_waiting s →
  good_step s (mkSystem (snd (cancelGranted c timedOut (sy_b s))) (sy_permits s) (remove c (sy_waiting s))) ∧
  b_maxConcurrency (snd (cancelGranted c timedOut (sy_b s))) = b_maxConcurrency (sy_b s) ∧
  (b_inflight (sy_b s) ≤ b_maxConcurrency (sy_b s) →
   b_inflight (snd (cancelGranted c timedOut (sy_b s))) ≤ b_maxConcurrency (sy_b s)) ∧
  (length (b_waiters (snd (cancelGranted c timedOut (sy_b s)))) ≤ length (b_waiters (sy_b s)))%nat.
Proof.
  intros [Ho Hb] Hc. set (b := sy_b s) in *.
  assert (Hst : ∃ st, b_heap b !! c = Some st ∧ (st = waiterQueued ∨ st = waiterGranted)).
  { destruct (ba_live _ _ _ _ Ho c Hc); eauto. }
  destruct Hst as (st & Hst & Hor).
  destruct (cancel_owned b _ _ c st Ho Hc Hst) as [Hown Hfifo].
  set (b1 := with_inflight (b_inflight b - (if st == waiterGranted then 1 else 0))
               (with_queue (<[c := waiterCanceled]> (b_heap b)) (remove c (b_waiters b)) b)) in Hown.
  assert (Hsnd : snd (cancelGranted c timedOut b) = grantNextLocked (count_cancel timedOut b1)).
  { unfold cancelGranted, b1. rewrite Hst. destruct Hor as [-> | ->]; cbn [snd].
    - unfold removeWaiterLocked, with_queue, with_inflight. cbn. by rewrite Z.sub_0_r.
    - unfold less_one. cbn [b_inflight with_queue].
      rewrite (proj2 (Z.ltb_lt _ _)) by (by eapply (owned_inflight b); eauto).
      rewrite remove_absent; [done|]. rewrite (ba_queue _ _ _ _ Ho), Hst. done. }
  rewrite Hsnd. assert (Ho1 : owned (count_cancel timedOut b1) (unreleased (sy_permits s)) (remove c (sy_waiting s)))
    by (by eapply owned_counts).
  destruct (grantNext_owned _ _ _ Ho1) as (Ho2 & Hf2 & Hl2 & Hm2 & Hq2 & Hbound & Hle & Hbusy & _).
  assert (Hlen : (length (b_waiters b1) ≤ length (b_waiters b))%nat) by (apply sublist_length, remove_sublist).
  split_and!.
  - split; [split; [done|]|].
    + apply Hbusy. unfold b1; cbn. intros Hne.
      assert (b_waiters b ≠ []) as Hne' by (intros E; apply Hne; by rewrite E).
      specialize (Hb Hne'). destruct (st == waiterGranted); lia.
    + cbn. eapply fifo_trans; [|exact (fifo_same_right _ _ (count_cancel timedOut b1) Hfifo eq_refl)|done].
      cbn. by rewrite length_insert.
  - done.
  - intros Hi. apply Hbound. unfold b1; cbn. destruct (st == waiterGranted); lia.
  - etrans; [exact Hle|exact Hlen].
Qed.

Lemma release_good s i :
  sys_ok s → sy_permits s !! i = Some false →
  good_step s (mkSystem (release (sy_b s)) (<[i := true]> (sy_permits s)) (sy_waiting s)) ∧
  b_maxConcurrency (release (sy_b s)) = b_maxConcurrency (sy_b s) ∧
  (b_inflight (sy_b s) ≤ b_maxConcurrency (sy_b s) →
   b_inflight (release (sy_b s)) ≤ b_maxConcurrency (sy_b s)) ∧
  (length (b_waiters (release (sy_b s))) ≤ length (b_waiters (sy_b s)))%nat.
Proof.
  intros [Ho Hb] Hi. set (b := sy_b s) in *.
  assert (Hun : unreleased (<[i := true]> (sy_permits s)) = unreleased (sy_permits s) - 1 ∧ 0 < unreleased (sy_permits s)).
  { unfold unreleased. pose proof (count_insert negb (sy_permits s) i false true Hi) as Hcnt. cbn [negb Z.b2z] in Hcnt.
    pose proof (zlen_nonneg (List.filter negb (<[i := true]> (sy_permits s)))). lia. }
  destruct Hun as [Hun Hpos]. pose proof (ba_slots _ _ _ _ Ho) as Hs.
  pose proof (zlen_nonneg (List.filter (granted (b_heap b)) (sy_waiting s))).
  assert (Hless : less_one b = with_inflight (b_inflight b - 1) b).
  { unfold less_one. by rewrite (proj2 (Z.ltb_lt _ _)) by lia. }
  assert (Ho1 : owned (less_one b) (unreleased (<[i := true]> (sy_permits s))) (sy_waiting s)).
  { rewrite Hless. destruct Ho as [H1 H2 H3 H4 H5 _ H7 H8 H9]. constructor; cbn; try done; lia. }
  unfold release. destruct (grantNext_owned _ _ _ Ho1) as (Ho2 & Hf2 & Hl2 & Hm2 & Hq2 & Hbound & Hle & Hbusy & _).
  rewrite Hless in *. split_and!; try done.
  - split; [split; [done|]|].
    + apply Hbusy. cbn. intros Hne%Hb. lia.
    + done.
  - intros Hle'. apply Hbound. cbn. lia.
Qed.

Lemma enqueue_good b permits waiting :
  owned b permits waiting → b_maxConcurrency b ≤ b_inflight b →
  owned (enqueue b) permits (waiting ++ [length (b_heap b)]) ∧ fifo b (enqueue b).
Proof.
  intros [H1 H2 H3 H4 H5 _ H7 H8 H9] Hfull. set (n := length (b_heap b)).
  assert (Hold : ∀ w st, b_heap b !! w = Some st → (w < n)%nat) by (intros w st Hw; by eapply lookup_lt_Some).
  assert (Happ : ∀ w, (w < n)%nat → (b_heap b ++ [waiterQueued]) !! w = b_heap b !! w)
    by (intros w Hw; by rewrite lookup_app_l).
  assert (Hnew : (b_heap b ++ [waiterQueued]) !! n = Some waiterQueued) by apply list_lookup_middle, eq_refl.
  assert (Hnw : ∀ w, w ∈ waiting → (w < n)%nat) by (intros w [Hw|Hw]%H5; eauto).
  split.
  - constructor; cbn [b_heap b_waiters b_inflight b_maxConcurrency enqueue]; fold n; try done.
    + apply StronglySorted_app. split_and!; [|done|repeat constructor].
      intros x y Hx%H2%Hold Hy. apply list_elem_of_singleton in Hy as ->. done.
    + intros w. rewrite elem_of_app, list_elem_of_singleton, H2. split.
      * intros [Hw| ->]; [|done]. rewrite Happ; [done|]. by eapply Hold.
      * intros Hw. destruct (decide (w = n)) as [->|Hne]; [by right|]. left. rewrite <- Happ; [done|].
        apply lookup_lt_Some in Hw. rewrite length_app in Hw. cbn in Hw. fold n in Hw. lia.
    + intros w. rewrite !elem_of_app. intros [Hw|Hw]; [left; auto|by right].
    + apply NoDup_app. split_and!; [done| |apply NoDup_singleton].
      intros w Hw%Hnw Hn. apply list_elem_of_singleton in Hn. lia.
    + intros w. rewrite elem_of_app, list_elem_of_singleton. intros [Hw| ->]; [|by left].
      rewrite Happ by auto. auto.
    + assert (Hgn : granted (b_heap b ++ [waiterQueued]) n = false) by (unfold granted; by rewrite Hnew).
      rewrite List.filter_app, zlen_app. cbn [List.filter]. rewrite Hgn. change (zlen []) with 0.
      rewrite (filter_ext_in (granted (b_heap b ++ [waiterQueued])) (granted (b_heap b))); [lia|].
      intros w Hw%Hnw. unfold granted. by rewrite Happ.
  - split; cbn; fold n.
    + intros w Hw Hnot. destruct (decide (w = n)) as [->|Hne]; [by rewrite Hnew in Hw|].
      rewrite Happ in Hw; [done|]. apply lookup_lt_Some in Hw. rewrite length_app in Hw. cbn in Hw. fold n in Hw. lia.
    + intros w Hw Hlt. by rewrite Happ in Hw.
Qed.

(** What a step keeps of the limits of one policy. *)
Definition within (config : BulkheadPolicy) (b : Bulkhead) : Prop :=
  b_inflight b ≤ p_MaxConcurrency config ∧ zlen (b_waiters b) ≤ p_MaxQueue config ∧
  (b_maxConcurrency b = p_MaxConcurrency config ∨ (b_inflight b = 0 ∧ b_waiters b = [])).

Lemma acquire_good s cause config :
  sys_ok s → p_Enabled config = true →
  good_step s (act (DoAcquire cause config) s) ∧
  (within config (sy_b s) → within config (sy_b (act (DoAcquire cause config) s))).
Proof.
  intros [Ho Hb] He. cbn [act]. rewrite He. cbn [negb]. unfold Acquire.
  assert (Hsame : good_step s (mkSystem (sy_b s) (sy_permits s) (sy_waiting s)))
    by (destruct s; by apply good_refl).
  destruct cause; [done|]. destruct (validate config) eqn:Hv; [done|]. clear Hsame.
  assert (Hmax : 0 < p_MaxConcurrency config ∧ 0 ≤ p_MaxQueue config)
    by (unfold validate in Hv; case_match; [done|]; bool_hyps; lia).
  set (b0 := with_limits (p_MaxConcurrency config) (p_MaxQueue config) (sy_b s)).
  assert (Ho0 : owned b0 (unreleased (sy_permits s)) (sy_waiting s)).
  { destruct Ho as [H1 H2 H3 H4 H5 _ H7 H8 H9]. constructor; cbn; try done. lia. }
  destruct (grant_all_owned (length (b_waiters b0)) b0 _ _ Ho0 ltac:(lia))
    as (Ho1 & Hf1 & Hl1 & Hm1 & _ & Hbd & Hle & Hbusy).
  set (b1 := grant_all (length (b_waiters b0)) b0) in *. cbn [b_maxConcurrency with_limits b0] in Hm1.
  assert (Hf0 : fifo (sy_b s) b1) by (unfold fifo in *; done).
  assert (Hw1 : within config (sy_b s) → b_inflight b1 ≤ p_MaxConcurrency config ∧ zlen (b_waiters b1) ≤ p_MaxQueue config).
  { intros (Hi & Hq & _). split; [by apply Hbd|].
    change (b_waiters b0) with (b_waiters (sy_b s)) in Hle. unfold zlen in *. lia. }
  destruct ((b_inflight b1 <? _) && _) eqn:Hadm; bool_hyps.
  - assert (Hnil : b_waiters b1 = []) by (apply nil_length_inv; unfold zlen in *; lia).
    split; [split; [split|]|]; cbn [sy_b sy_permits sy_waiting].
    + assert (Hun : unreleased (sy_permits s ++ [false]) = unreleased (sy_permits s) + 1)
        by (unfold unreleased; by rewrite List.filter_app, zlen_app).
      rewrite Hun. destruct Ho1 as [H1 H2 H3 H4 H5 _ H7 H8 H9].
      constructor; cbn [take_slot b_heap b_waiters b_inflight b_maxConcurrency]; try done; lia.
    + intros Hne. by destruct (Hne Hnil).
    + by eapply fifo_same_right.
    + intros Hw. destruct (Hw1 Hw). split_and!; cbn [take_slot reject b_inflight b_waiters b_maxConcurrency]; [lia|done|by left].
  - destruct ((p_MaxQueue config =? 0) || _) eqn:Hrej.
    + split; [split; [split|]|]; cbn [sy_b sy_permits sy_waiting].
      * by eapply owned_counts.
      * done.
      * by eapply fifo_same_right.
      * intros Hw. destruct (Hw1 Hw). split_and!; cbn [take_slot reject b_inflight b_waiters b_maxConcurrency]; [lia|done|by left].
    + bool_hyps. assert (Hfull : b_maxConcurrency b1 ≤ b_inflight b1).
      { apply andb_false_iff in Hadm as [Hadm|Hadm]; bool_hyps; [lia|]. apply Hbusy.
        intros E. rewrite E in Hadm. unfold zlen in Hadm. cbn in Hadm. lia. }
      destruct (enqueue_good b1 _ _ Ho1 Hfull) as [Ho2 Hf2].
      split; [split; [split|]|]; cbn [sy_b sy_permits sy_waiting].
      * done.
      * intros _. done.
      * eapply fifo_trans; [|done|done]. by rewrite Hl1.
      * intros Hw. destruct (Hw1 Hw). split_and!; cbn [b_inflight b_waiters enqueue]; [lia| |by left].
        rewrite zlen_app. change (zlen [length (b_heap b1)]) with 1. lia.
Qed.

Lemma act_good a s : sys_ok s → good_step s (act a s).
Proof.
  intros Hs. destruct a as [cause config|c cause|c timedOut|i]; cbn [act].
  - destruct (p_Enabled config) eqn:He; [|by apply good_refl].
    pose proof (acquire_good s cause config Hs He) as [H _]. cbn [act] in H. by rewrite He in H.
  - destruct (_ && _) eqn:Hg; [|by apply good_refl]. bool_hyps.
    destruct cause; [by apply cancelGranted_good|]. destruct Hs as [Ho Hb].
    destruct Ho as [H1 H2 H3 H4 H5 _ H7 H8 H9]. split; [|by apply fifo_refl]. split; [|done].
    assert (Hun : unreleased (sy_permits s ++ [false]) = unreleased (sy_permits s) + 1)
      by (unfold unreleased; by rewrite List.filter_app, zlen_app).
    pose proof (remove_count (granted (b_heap (sy_b s))) c (sy_waiting s) H4 ltac:(done)) as Hr.
    assert (Hgr : granted (b_heap (sy_b s)) c = true) by (unfold granted; by rewrite bool_decide_true).
    rewrite Hgr in Hr. cbn [Z.b2z] in Hr. cbn [sy_b sy_permits sy_waiting]. rewrite Hun.
    constructor; cbn [sy_b sy_waiting]; try done; try lia.
    + intros w Hw. apply elem_of_remove; [done|]. split; [auto|]. intros ->. apply H2 in Hw. congruence.
    + apply (sublist_NoDup _ (sy_waiting s)); [done|apply remove_sublist].
    + intros w [Hw _]%elem_of_remove; [auto|done].
  - case_bool_decide; [|by apply good_refl]. by apply cancelGranted_good.
  - destruct (sy_permits s !! i) as [[]|] eqn:Hi; try (by apply good_refl). by apply release_good.
Qed.

Lemma start_ok : sys_ok start.
Proof.
  split; [|done]. constructor; cbn; try done; try set_solver.
  - constructor.
  - constructor.
Qed.

Lemma acts_ok l s : sys_ok s → sys_ok (acts l s).
Proof.
  revert s. induction l as [|a l IH]; intros s Hs; [done|]. cbn. apply IH. by apply act_good.
Qed.

(** no slot is lost or handed out twice.  After any interleaving of calls, grants,
    cancellations, timeouts and releases, under any sequence of policies, the in-flight count
    is exactly the number of unreleased permits plus the granted waiters that have not
    returned yet, the queue holds exactly the queued waiters in arrival order, and nobody
    waits while a slot is free. *)
Theorem bulkhead_accounting l :
  let s := acts l start in
  b_inflight (sy_b s) = unreleased (sy_permits s) +
    zlen (List.filter (granted (b_heap (sy_b s))) (sy_waiting s)) ∧
  StronglySorted lt (b_waiters (sy_b s)) ∧
  (∀ w, w ∈ b_waiters (sy_b s) ↔ b_heap (sy_b s) !! w = Some waiterQueued) ∧
  (b_waiters (sy_b s) ≠ [] → b_maxConcurrency (sy_b s) ≤ b_inflight (sy_b s)).
Proof.
  intros s. destruct (acts_ok l start start_ok) as [Ho Hb]. fold s in Ho, Hb. split_and!; [apply Ho..|done].
Qed.

(** waiting is first come, first served.  Whenever a step grants a queued waiter, no
    waiter that arrived earlier is still queued afterwards; and no step puts a waiter back
    into the queue. *)
Theorem bulkhead_fifo l a :
  let s := acts l start in
  (∀ w, b_heap (sy_b (act a s)) !! w = Some waiterGranted → b_heap (sy_b s) !! w ≠ Some waiterGranted →
     ∀ w', (w' < w)%nat → b_heap (sy_b (act a s)) !! w' ≠ Some waiterQueued) ∧
  (∀ w, b_heap (sy_b (act a s)) !! w = Some waiterQueued → (w < length (b_heap (sy_b s)))%nat →
     b_heap (sy_b s) !! w = Some waiterQueued).
Proof. intros s. apply (act_good a s). by apply acts_ok, start_ok. Qed.

(** ** Limits *)
Definition uses (config : BulkheadPolicy) (a : action) : Prop :=
  match a with DoAcquire _ config' => config' = config | _ => True end.

Lemma within_step config a s :
  sys_ok s → uses config a → p_Enabled config = true →
  within config (sy_b s) → within config (sy_b (act a s)).
Proof.
  intros Hs Hu He Hw.
  assert (Hkeep : ∀ b', b_maxConcurrency b' = b_maxConcurrency (sy_b s) →
    (b_inflight (sy_b s) ≤ b_maxConcurrency (sy_b s) → b_inflight b' ≤ b_maxConcurrency (sy_b s)) →
    (length (b_waiters b') ≤ length (b_waiters (sy_b s)))%nat →
    0 < b_inflight (sy_b s) ∨ b_waiters (sy_b s) ≠ [] → within config b').
  { intros b' Hm Hi Hq Hne. destruct Hw as (W1 & W2 & [W3|[W3 W4]]); [|destruct Hne; [lia|done]].
    split_and!; [rewrite W3 in Hi; auto|unfold zlen in *; lia|left; congruence]. }
  destruct a as [cause config'|c cause|c timedOut|i]; cbn in Hu; subst.
  - by apply acquire_good.
  - cbn [act]. destruct (_ && _) eqn:Hg; [|done]. bool_hyps. destruct cause; [|done]. cbn [sy_b].
    destruct (cancelGranted_good s c false Hs) as (_ & Hm & Hi & Hq); [done|]. apply Hkeep; try done.
    left. eapply (owned_inflight (sy_b s)); [apply Hs|done|done].
  - cbn [act]. case_bool_decide as Hc; [|done]. cbn [sy_b].
    destruct (cancelGranted_good s c timedOut Hs Hc) as (_ & Hm & Hi & Hq). apply Hkeep; try done.
    destruct Hs as [Ho _]. destruct (ba_live _ _ _ _ Ho c Hc) as [Hx|Hx].
    + right. apply (ba_queue _ _ _ _ Ho) in Hx. intros E. rewrite E in Hx. set_solver.
    + left. by eapply (owned_inflight (sy_b s)).
  - cbn [act]. destruct (sy_permits s !! i) as [[]|] eqn:Hi; try done. cbn [sy_b].
    destruct (release_good s i Hs Hi) as (_ & Hm & Hif & Hq). apply Hkeep; try done. left.
    destruct Hs as [Ho _]. pose proof (ba_slots _ _ _ _ Ho) as Hsl.
    pose proof (zlen_nonneg (List.filter (granted (b_heap (sy_b s))) (sy_waiting s))).
    pose proof (count_insert negb (sy_permits s) i false true Hi) as Hcnt. cbn [negb Z.b2z] in Hcnt.
    pose proof (zlen_nonneg (List.filter negb (<[i := true]> (sy_permits s)))). unfold unreleased in Hsl. lia.
Qed.

(** the limits hold.  When every call uses one enabled policy, no interleaving runs more
    than MaxConcurrency calls at once or queues more than MaxQueue. *)
Theorem bulkhead_limits config l :
  p_Enabled config = true → 0 ≤ p_MaxConcurrency config → 0 ≤ p_MaxQueue config →
  (∀ a, a ∈ l → uses config a) →
  let s := acts l start in
  unreleased (sy_permits s) ≤ p_MaxConcurrency config ∧
  b_inflight (sy_b s) ≤ p_MaxConcurrency config ∧ zlen (b_waiters (sy_b s)) ≤ p_MaxQueue config.
Proof.
  intros He Hm Hq Hu s.
  assert (Hgen : ∀ l' s', sys_ok s' → within config (sy_b s') → (∀ a, a ∈ l' → uses config a) →
    within config (sy_b (acts l' s')) ∧ sys_ok (acts l' s')).
  { induction l' as [|a l' IH]; intros s' Hs' Hw' Hu'; [done|]. cbn. apply IH.
    - by apply act_good.
    - apply within_step; [done| |done|done]. apply Hu'. set_solver.
    - intros a' Ha'. apply Hu'. set_solver. }
  destruct (Hgen l start start_ok) as [(W1 & W2 & _) [Ho _]]; [|done|].
  { unfold within. cbn. split_and!; [lia|unfold zlen; cbn; lia|by right]. }
  fold s in W1, W2, Ho. pose proof (ba_slots _ _ _ _ Ho) as Hsl.
  pose proof (zlen_nonneg (List.filter (granted (b_heap (sy_b s))) (sy_waiting s))). lia.
Qed.

(** * Concrete run *)
Definition ex_policy : BulkheadPolicy := mkPolicy true 1 1 second.
Definition ex_actions : list action :=
  [DoAcquire false ex_policy; DoAcquire false ex_policy; DoAcquire false ex_policy; DoRelease 0;
   DoReady 0 false].

Example ex_queue :
  let b := sy_b (acts ex_actions start) in
  b_inflight b = 1 ∧ b_rejected b = 1 ∧ b_waiters b = [] ∧ b_accepted b = 2.
Proof. vm_compute. split_and!; reflexivity. Qed.

Lemma bulkhead_limits_witness :
  let s := acts ex_actions start in
  unreleased (sy_permits s) ≤ 1 ∧ b_inflight (sy_b s) ≤ 1 ∧ zlen (b_waiters (sy_b s)) ≤ 1.
Proof.
  apply (bulkhead_limits ex_policy ex_actions).
  - reflexivity.
  - vm_compute. discriminate.
  - vm_compute. discriminate.
  - intros a Ha. unfold ex_actions in Ha. rewrite !elem_of_cons, elem_of_nil in Ha.
    destruct Ha as [->|[->|[->|[->|[->|[]]]]]]; done.
Defined.
