(* ===== verification/Pools.v ===== *)
(** * Keyed pools of the governance packages

    Models the pools of [breaker.go] and [bulkhead.go]: one gate per trimmed key, created at its
    first use.  The two packages repeat the same code, so the lemmas are about one keyed map. *)
From S2P Require Import Prelude GoText GoFloat Breaker Bulkhead.
Open Scope Z_scope.

(** ** One map of gates *)
Section keyed.
Context {K G : Type} `{Countable K}.
(** [Get]: the gate under a key, which now exists. *)
Definition keyed_Get (fresh : G) (key : K) (m : gmap K G) : G * gmap K G :=
  match m !! key with Some g => (g, m) | None => (fresh, <[key := fresh]> m) end.
(** A step of the gate that [Get] returned. *)
Definition keyed_act {A} (fresh : G) (f : G → A * G) (key : K) (m : gmap K G) : A * gmap K G :=
  let '(g, m) := keyed_Get fresh key m in let '(a, g) := f g in (a, <[key := g]> m).
(** The state a key has; a gate nobody used is fresh. *)
Definition gate (fresh : G) (m : gmap K G) (key : K) : G := default fresh (m !! key).
(** Callers of one key share one gate, and callers of another key do not see it. *)
Lemma keyed_act_isolated {A} fresh (f : G → A * G) key key' m :
  (keyed_act fresh f key m).1 = (f (gate fresh m key)).1 ∧ gate fresh (keyed_act fresh f key m).2 key' = if decide (key' = key) then (f (gate fresh m key)).2 else gate fresh m key'.
Proof.
  unfold keyed_act, keyed_Get, gate. destruct (m !! key) as [g|] eqn:Hk; cbn; [destruct (f g) as [a g']|destruct (f fresh) as [a g']]; cbn; (split; [done|]);
    (destruct (decide (key' = key)) as [->|Hne]; [by rewrite lookup_insert_eq|by rewrite !lookup_insert_ne]).
Qed.
(** Over any sequence of steps on any keys, the gate of a key is that of its own steps, run alone. *)
Lemma keyed_run {A} fresh (l : list (K * (G → A * G))) key m :
  gate fresh (fold_left (λ m x, (keyed_act fresh x.2 x.1 m).2) l m) key = fold_left (λ g x, (x.2 g).2) (List.filter (λ x, bool_decide (x.1 = key)) l) (gate fresh m key).
Proof.
  revert m. induction l as [|[k f] l IH]; intros m; [done|]. cbn [fold_left List.filter fst snd]. rewrite IH. destruct (keyed_act_isolated fresh f k key m) as [_ ->].
  destruct (decide (key = k)) as [->|Hne]; [by rewrite bool_decide_eq_true_2|]. by rewrite bool_decide_eq_false_2 by congruence.
Qed.
End keyed.

(** ** Breakers, by scope and key *)
Module breakers.
Import Breaker.
Definition Scope := string.
Definition ScopeService : Scope := "service".
Definition ScopeInstance : Scope := "instance".
(** The clock is read by the operations of a breaker, which take its readings as arguments. *)
Record Pool := mkPool { bp_breakers : gmap (Scope * string) Breaker }.
Definition NewPool : Pool := mkPool ∅.
(** The pointer is the identity; the breaker it names stays in the pool. *)
Definition Get (scope : Scope) (key : string) (p : Pool) : (Scope * string) * Pool :=
  let identity := (scope, TrimSpace key) in (identity, mkPool (keyed_Get NewBreaker identity (bp_breakers p)).2).
Record Description := mkDescription { de_Scope : Scope; de_Key : string; de_State : State; de_Requests : Z; de_Failures : Z; de_OpenUntil : time; de_ProbesInFlight : Z; de_ProbeSuccesses : Z }.
Definition describe (identity : Scope * string) (b : Breaker) : Description :=
  mkDescription identity.1 identity.2 (b_state b) (b_requests b) (b_failures b) (b_openUntil b) (b_probesInFlight b) (b_probeSuccesses b).
Definition description_le (x y : Description) : Prop :=
  if decide (de_Scope x = de_Scope y) then String.le (de_Key x) (de_Key y) else String.le (de_Scope x) (de_Scope y).
#[export] Instance description_le_dec x y : Decision (description_le x y).
Proof. unfold description_le. destruct (decide (de_Scope x = de_Scope y)); apply _. Defined.
Definition Describe (p : Pool) : list Description := merge_sort description_le ((λ x, describe x.1 x.2) <$> map_to_list (bp_breakers p)).
End breakers.

(** ** Bulkheads, by key *)
Module bulkheads.
Import Bulkhead.
Record Pool := mkPool { kp_bulkheads : gmap string Bulkhead }.
Definition NewPool : Pool := mkPool ∅.
Definition Get (key : string) (p : Pool) : string * Pool := (TrimSpace key, mkPool (keyed_Get NewBulkhead (TrimSpace key) (kp_bulkheads p)).2).
Record Description := mkDescription {
  de_Key : string; de_MaxConcurrency : Z; de_MaxQueue : Z; de_Inflight : Z; de_Queued : Z; de_QueueHighWater : Z; de_Accepted : Z; de_Rejected : Z;
  de_QueueTimeouts : Z; de_QueueCancellations : Z
}.
Definition describe (key : string) (b : Bulkhead) : Description :=
  mkDescription key (b_maxConcurrency b) (b_maxQueue b) (b_inflight b) (zlen (b_waiters b)) (b_queueHighWater b) (b_accepted b) (b_rejected b)
    (b_queueTimeouts b) (b_queueCancellations b).
Definition Describe (p : Pool) : list Description :=
  (λ key, describe key (gate NewBulkhead (kp_bulkheads p) key)) <$> sort_strings (map_to_list (kp_bulkheads p)).*1.
End bulkheads.

(** ** What a pool promises *)

(** A caller resolves a breaker of the pool and makes one call on it. *)
Definition use_breaker (x : (breakers.Scope * string) * (Breaker.Breaker → unit * Breaker.Breaker)) (p : breakers.Pool) : breakers.Pool :=
  let '(identity, p) := breakers.Get x.1.1 x.1.2 p in
  breakers.mkPool (alter (λ b, (x.2 b).2) identity (breakers.bp_breakers p)).
Lemma use_breaker_keyed x p :
  breakers.bp_breakers (use_breaker x p) = (keyed_act Breaker.NewBreaker x.2 (x.1.1, TrimSpace x.1.2) (breakers.bp_breakers p)).2.
Proof.
  destruct x as [[scope key] f]. unfold use_breaker, breakers.Get, keyed_act. cbn [fst snd]. generalize (scope, TrimSpace key) as identity. intros identity.
  unfold keyed_Get. cbn [breakers.bp_breakers]. destruct (breakers.bp_breakers p !! identity) as [b|] eqn:Hk; cbn [fst snd];
    [destruct (f b) as [u b'] eqn:Hf|destruct (f Breaker.NewBreaker) as [u b'] eqn:Hf]; cbn [fst snd]; apply map_eq; intros k; (destruct (decide (k = identity)) as [->|Hne];
      [by rewrite lookup_alter_eq, !lookup_insert_eq, ?Hk; cbn [fmap option_fmap option_map]; rewrite Hf|by rewrite lookup_alter_ne, !lookup_insert_ne]).
Qed.
(** Any interleaving of calls on the breakers of a pool is, for each scope and trimmed key, that breaker's own
    history: what is proved of one breaker holds of every breaker of the pool. *)
Theorem breakers_independent l identity :
  gate Breaker.NewBreaker (breakers.bp_breakers (fold_left (λ p x, use_breaker x p) l breakers.NewPool)) identity =
  fold_left (λ b x, (x.2 b).2) (List.filter (λ x, bool_decide ((x.1.1, TrimSpace x.1.2) = identity)) l) Breaker.NewBreaker.
Proof.
  assert (∀ p, breakers.bp_breakers (fold_left (λ p x, use_breaker x p) l p) =
    fold_left (λ m x, (keyed_act Breaker.NewBreaker x.2 x.1 m).2) ((λ x, ((x.1.1, TrimSpace x.1.2), x.2)) <$> l) (breakers.bp_breakers p)) as Hfold.
  { induction l as [|x l IH]; intros p; [done|]. cbn [fold_left fmap list_fmap fst snd]. by rewrite IH, use_breaker_keyed. }
  rewrite Hfold, keyed_run. unfold gate at 1. cbn [breakers.bp_breakers breakers.NewPool]. rewrite lookup_empty. cbn [default]. generalize Breaker.NewBreaker as b.
  clear Hfold. induction l as [|x l IH]; intros b; [done|]. cbn [fold_left fmap list_fmap List.filter fst snd].
  destruct (bool_decide _); cbn [fold_left fst snd]; apply IH.
Qed.
