(* ===== verification/Cache.v ===== *)
(** * cache and cache/memory: the read-through cache

    Models [cache.go], [policy.go], [options.go] and [memory/memory.go].  Replicas ([Cache] values)
    share a backend.  A call is a thread that is split wherever it touches what others share: the
    generation of a stripe, the stripe locks, the flight group, the backend, the loader.  The
    backend and the flight group ([golang.org/x/sync/singleflight]) are type classes with the
    laws the cache relies on; a backend may drop entries at any time and may report an error
    after it did its work.  The log has one event per step and only serves the statements; the
    stripe locks of a call are given back together with its last access. *)
From S2P Require Import Prelude GoText GoFloat.
From Stdlib Require Import Ascii.
Open Scope Z_scope.

Inductive cerror :=
| ErrMiss | ErrNotFound | ErrCorrupt | ErrInvalidOption | ErrVersioningUnsupported | ErrStaleWrite | ErrVersionRequired
| EOther (text : string) | EWrap (what : string) (cause : cerror) | EJoin (first second : cerror).
#[export] Instance cerror_eq_dec : EqDecision cerror.
Proof. solve_decision. Defined.
(** [errors.Is]. *)
Fixpoint is_error (target err : cerror) : bool :=
  (err == target) ||
  match err with
  | EWrap _ cause => is_error target cause
  | EJoin first second => is_error target first || is_error target second
  | _ => false
  end.

Inductive InvalidationState := InvalidationApplied | InvalidationCurrent | InvalidationStale | InvalidationOther (raw : Z).

(** ** Policy and options *)
Record Policy := mkPolicy {
  po_TTL : duration;
  po_NegativeTTL : duration;
  po_JitterRatio : spec_float;
  po_FailOpen : bool;
  po_IsNegative : option (cerror → bool);       (* [None]: nil *)
  po_NegativeError : option cerror
}.
Definition zero64 : spec_float := float64 0.
Definition one64 : spec_float := float64 1.
Definition DefaultPolicy : Policy :=
  mkPolicy (5 * minute) (30 * second) (div64 one64 (float64 10)) true (Some (is_error ErrNotFound)) (Some ErrNotFound).
Definition validatePolicy (policy : Policy) : bool :=
  negb (po_TTL policy <=? 0) && negb (po_NegativeTTL policy <? 0) &&
  negb (SFltb (po_JitterRatio policy) zero64 || SFleb one64 (po_JitterRatio policy)) &&
  negb ((0 <? po_NegativeTTL policy) && (bool_decide (po_IsNegative policy = None) || bool_decide (po_NegativeError policy = None))).
Definition maxCacheKeyBytes : Z := 1024.
Definition validateKey (key : string) : bool := valid_text maxCacheKeyBytes key.

(** [WithRandom] (nil or not) and [WithVersioning]; [None] is a nil option. *)
Inductive Option_ := WithRandom (is_nil : bool) | WithVersioning.
Fixpoint apply_options (options : list (option Option_)) (versioning : bool) : result cerror bool :=
  match options with
  | [] => Ok versioning
  | None :: _ | Some (WithRandom true) :: _ => Err ErrInvalidOption
  | Some (WithRandom false) :: options => apply_options options versioning
  | Some WithVersioning :: options => apply_options options true
  end.
(** Whether the cache is versioned; [versioned] says whether the backend is a [VersionedBackend]. *)
Definition New (backend codec loader versioned : bool) (policy : Policy) (options : list (option Option_)) : result cerror bool :=
  if negb backend || negb codec || negb loader then Err ErrInvalidOption
  else if negb (validatePolicy policy) then Err ErrInvalidOption
  else
    versioning ← apply_options options false;
    if versioning && negb versioned then Err ErrVersioningUnsupported else Ok versioning.

(** ** Stripes and lifetimes *)
Definition mutationStripes : Z := 256.
Definition fnv1a (hash : Z) (b : Z) : Z := (Z.lxor hash b * 16777619) mod (max_u32 + 1).
Definition mutationStripeIndex (key : string) : Z := fold_left fnv1a (bytes_of key) 2166136261 mod mutationStripes.
(** The stripes [lockStripes] locks, in order. *)
Definition stripes_of (keys : list string) : list Z := merge_sort Z.le (elements (list_to_set (mutationStripeIndex <$> keys) : gset Z)).

(** A [float64] that fits no [int64] is converted to [unspecified]. *)
Definition nines : spec_float := div64 (float64 999999999999) (float64 1000000000000).
Definition jitter (policy : Policy) (random : spec_float) (unspecified : Z) (ttl : duration) : duration :=
  if SFeqb (po_JitterRatio policy) zero64 then ttl
  else
    let ratio := if SFltb random zero64 then zero64 else random in
    let ratio := if SFleb one64 ratio then nines else ratio in
    i64 (ttl - default unspecified (trunc64 (mul64 (mul64 (float64 ttl) (po_JitterRatio policy)) ratio))).

(** ** Backends *)
Section laws.
Context {B : Type} (entries : B → gmap string string) (version : B → string → Z).
(** Nothing was written; entries may have been dropped. *)
Definition kept (b b' : B) : Prop := entries b' ⊆ entries b ∧ ∀ k, version b' k = version b k.
Definition wrote (k v : string) (b b' : B) : Prop := entries b' ⊆ <[k := v]> (entries b) ∧ ∀ k, version b' k = version b k.
(** The watermark of [k] rose to [v] and its entry is gone. *)
Definition applied (k : string) (v : Z) (b b' : B) : Prop :=
  version b k < v ∧ version b' k = v ∧ (∀ k', k' ≠ k → version b' k' = version b k') ∧ entries b' ⊆ delete k (entries b).
End laws.

(** [VersionedBackend]; a [Backend] is one whose other methods fail.  The first arguments are the
    cause of the context and the time. *)
Class VersionedBackend (B : Type) := {
  bk_Get : option cerror → time → string → B → result cerror string * B;
  bk_Set : option cerror → time → string → string → duration → B → option cerror * B;
  bk_Delete : option cerror → time → list string → B → result cerror Z * B;
  bk_CurrentVersion : option cerror → time → string → B → result cerror Z * B;
  bk_SetIfVersion : option cerror → time → string → string → duration → Z → B → result cerror bool * B;
  bk_ApplyInvalidation : option cerror → time → string → Z → B → result cerror InvalidationState * B;
  bk_entries : B → gmap string string;
  bk_version : B → string → Z;
  get_law : ∀ c now k b, match bk_Get c now k b with
    | (Ok p, b') => bk_entries b !! k = Some p ∧ kept bk_entries bk_version b b'
    | (Err _, b') => kept bk_entries bk_version b b'
    end;
  set_law : ∀ c now k v ttl b, match bk_Set c now k v ttl b with
    | (None, b') => wrote bk_entries bk_version k v b b'
    | (Some _, b') => kept bk_entries bk_version b b' ∨ wrote bk_entries bk_version k v b b'
    end;
  delete_law : ∀ c now ks b, match bk_Delete c now ks b with
    | (Ok _, b') => kept bk_entries bk_version b b' ∧ ∀ k, k ∈ ks → bk_entries b' !! k = None
    | (Err _, b') => kept bk_entries bk_version b b'
    end;
  current_law : ∀ c now k b, match bk_CurrentVersion c now k b with
    | (Ok v, b') => v = bk_version b k ∧ kept bk_entries bk_version b b'
    | (Err _, b') => kept bk_entries bk_version b b'
    end;
  set_if_law : ∀ c now k v ttl expected b, match bk_SetIfVersion c now k v ttl expected b with
    | (Ok true, b') => bk_version b k = expected ∧ wrote bk_entries bk_version k v b b'
    | (Ok false, b') => kept bk_entries bk_version b b'
    | (Err _, b') => kept bk_entries bk_version b b' ∨ bk_version b k = expected ∧ wrote bk_entries bk_version k v b b'
    end;
  apply_law : ∀ c now k v b, match bk_ApplyInvalidation c now k v b with
    | (Ok InvalidationApplied, b') => applied bk_entries bk_version k v b b'
    | (Ok InvalidationCurrent, b') => v = bk_version b k ∧ kept bk_entries bk_version b b'
    | (Ok InvalidationStale, b') => v < bk_version b k ∧ kept bk_entries bk_version b b'
    | (_, b') => kept bk_entries bk_version b b' ∨ applied bk_entries bk_version k v b b'
    end
}.

(** ** The memory backend *)
Module memory.
Record entry := mkEntry { en_value : string; en_expiresAt : time }.
Record Store := mkStore { ms_entries : gmap string entry; ms_versions : gmap string Z }.
Definition NewWithClock : Store := mkStore ∅ ∅.
Definition version_of (s : Store) (key : string) : Z := default 0 (ms_versions s !! key).

Definition Get (cause : option cerror) (now : time) (key : string) (s : Store) : result cerror string * Store :=
  match cause with
  | Some err => (Err err, s)
  | None =>
      match ms_entries s !! key with
      | None => (Err ErrMiss, s)
      | Some e =>
          if negb (IsZero (en_expiresAt e)) && negb (Before now (en_expiresAt e)) then (Err ErrMiss, mkStore (delete key (ms_entries s)) (ms_versions s))
          else (Ok (en_value e), s)
      end
  end.
Definition expiry (now : time) (ttl : duration) : time := if 0 <? ttl then now + ttl else 0.
Definition Set_ (cause : option cerror) (now : time) (key value : string) (ttl : duration) (s : Store) : option cerror * Store :=
  match cause with
  | Some err => (Some err, s)
  | None => (None, mkStore (<[key := mkEntry value (expiry now ttl)]> (ms_entries s)) (ms_versions s))
  end.
Definition delete_one (acc : Z * gmap string entry) (key : string) : Z * gmap string entry :=
  let '(deleted, m) := acc in if bool_decide (is_Some (m !! key)) then (deleted + 1, delete key m) else (deleted, m).
Definition Delete (cause : option cerror) (now : time) (keys : list string) (s : Store) : result cerror Z * Store :=
  match cause with
  | Some err => (Err err, s)
  | None => let '(deleted, m) := fold_left delete_one keys (0, ms_entries s) in (Ok deleted, mkStore m (ms_versions s))
  end.
Definition CurrentVersion (cause : option cerror) (now : time) (key : string) (s : Store) : result cerror Z * Store :=
  match cause with Some err => (Err err, s) | None => (Ok (version_of s key), s) end.
Definition SetIfVersion (cause : option cerror) (now : time) (key value : string) (ttl : duration) (expected : Z) (s : Store) : result cerror bool * Store :=
  match cause with
  | Some err => (Err err, s)
  | None =>
      if negb (version_of s key =? expected) then (Ok false, s)
      else (Ok true, mkStore (<[key := mkEntry value (expiry now ttl)]> (ms_entries s)) (ms_versions s))
  end.
Definition ApplyInvalidation (cause : option cerror) (now : time) (key : string) (version : Z) (s : Store) : result cerror InvalidationState * Store :=
  match cause with
  | Some err => (Err err, s)
  | None =>
      if version =? 0 then (Err ErrInvalidOption, s)
      else if version_of s key <? version then (Ok InvalidationApplied, mkStore (delete key (ms_entries s)) (<[key := version]> (ms_versions s)))
      else if version =? version_of s key then (Ok InvalidationCurrent, s)
      else (Ok InvalidationStale, s)
  end.
End memory.

(** *** The memory backend is a versioned backend *)
Section memory_laws.
Import memory.
Implicit Types s : Store.
Definition mem_entries s : gmap string string := en_value <$> ms_entries s.
Lemma mem_kept_refl s : kept mem_entries version_of s s.
Proof. done. Qed.
Lemma mem_kept s m : m ⊆ ms_entries s → kept mem_entries version_of s (mkStore m (ms_versions s)).
Proof. intros Hm. split; [|done]. by apply map_fmap_mono. Qed.
Lemma mem_wrote s k v now ttl : wrote mem_entries version_of k v s (mkStore (<[k := mkEntry v (expiry now ttl)]> (ms_entries s)) (ms_versions s)).
Proof. split; [|done]. unfold mem_entries. cbn. by rewrite fmap_insert. Qed.
Lemma delete_all_spec keys n m : let m' := (fold_left delete_one keys (n, m)).2 in m' ⊆ m ∧ ∀ k, k ∈ keys → m' !! k = None.
Proof.
  revert n m. induction keys as [|key keys IH]; intros n m; cbn; [split; [done|]; by intros k ?%not_elem_of_nil|].
  assert (Hone : ∃ n' m', delete_one (n, m) key = (n', m') ∧ m' ⊆ m ∧ m' !! key = None).
  { unfold delete_one. case_bool_decide as Hk; eexists _, _; (split; [done|]).
    - split; [apply delete_subseteq|apply lookup_delete_eq].
    - split; [done|]. by apply eq_None_not_Some. }
  cbn in Hone. destruct Hone as (n' & m' & -> & Hm & Hk). destruct (IH n' m') as [Hsub Hdel]. split; [by transitivity m'|].
  intros k [->|Hin]%elem_of_cons; [|by apply Hdel]. apply eq_None_not_Some. intros [x Hx]. eapply lookup_weaken in Hx; [|exact Hsub]. congruence.
Qed.
End memory_laws.
#[export] Instance memory_backend : VersionedBackend memory.Store.
Proof.
  refine {|
    bk_Get := memory.Get; bk_Set := memory.Set_; bk_Delete := memory.Delete; bk_CurrentVersion := memory.CurrentVersion;
    bk_SetIfVersion := memory.SetIfVersion; bk_ApplyInvalidation := memory.ApplyInvalidation; bk_entries := mem_entries; bk_version := memory.version_of
  |}.
  - intros c now k s. unfold memory.Get. destruct c; [done|]. destruct (memory.ms_entries s !! k) as [e|] eqn:He; [|done].
    destruct (_ && _); [apply mem_kept, delete_subseteq|]. split; [|done]. unfold mem_entries. by rewrite lookup_fmap, He.
  - intros c now k v ttl s. unfold memory.Set_. destruct c; [by left|]. apply mem_wrote.
  - intros c now ks s. unfold memory.Delete. destruct c; [done|]. destruct (delete_all_spec ks 0 (memory.ms_entries s)) as [Hsub Hdel].
    destruct (fold_left _ _ _) as [n m]. split; [by apply mem_kept|]. intros k Hk. unfold mem_entries. cbn. by rewrite lookup_fmap, Hdel.
  - intros c now k s. unfold memory.CurrentVersion. by destruct c.
  - intros c now k v ttl expected s. unfold memory.SetIfVersion. destruct c; [by left|]. destruct (Z.eqb_spec (memory.version_of s k) expected); cbn; [|done].
    split; [done|apply mem_wrote].
  - intros c now k v s. unfold memory.ApplyInvalidation. destruct c; [by left|]. destruct (v =? 0); [by left|]. destruct (Z.ltb_spec (memory.version_of s k) v) as [Hlt|Hge].
    + split; [done|]. split; [unfold memory.version_of; cbn; by rewrite lookup_insert_eq|]. split.
      * intros k' Hne. unfold memory.version_of. cbn. by rewrite lookup_insert_ne.
      * unfold mem_entries. cbn. by rewrite fmap_delete.
    + destruct (Z.eqb_spec v (memory.version_of s k)); [done|]. split; [lia|done].
Defined.

(** ** The flight group *)

(** [sf_DoChan key f] joins the flight it returns, or makes [f] the flight of [key]; [sf_Done] is
    the end of a flight's function. *)
Class Singleflight (G : Type) := {
  sf_new : G;
  sf_DoChan : string → nat → G → option nat * G;
  sf_Forget : string → G → G;
  sf_Done : string → nat → G → G;
  sf_current : G → gmap string nat;
  sf_new_law : sf_current sf_new = ∅;
  sf_DoChan_law : ∀ k f g, match sf_DoChan k f g with
    | (Some f', g') => sf_current g !! k = Some f' ∧ sf_current g' = sf_current g
    | (None, g') => sf_current g' = <[k := f]> (sf_current g)
    end;
  sf_Forget_law : ∀ k g, sf_current (sf_Forget k g) = delete k (sf_current g);
  sf_Done_law : ∀ k f g, sf_current (sf_Done k f g) ⊆ sf_current g
}.
#[export] Instance gmap_flights : Singleflight (gmap string nat).
Proof.
  refine {|
    sf_new := ∅;
    sf_DoChan k f g := match g !! k with Some f' => (Some f', g) | None => (None, <[k := f]> g) end;
    sf_Forget := delete;
    sf_Done k f g := if bool_decide (g !! k = Some f) then delete k g else g;
    sf_current g := g
  |}; try done.
  - intros k f g. by destruct (g !! k) eqn:E.
  - intros k f g. case_bool_decide; [apply delete_subseteq|done].
Defined.

(** ** The cache *)
Section cache.
Context {T B G : Type} `{VersionedBackend B} `{Singleflight G}.

Record Codec := mkCodec { cd_Encode : T → result cerror string; cd_Decode : string → result cerror T; cd_zero : T }.
Record Config := mkConfig { cf_versioned : bool; cf_codec : Codec; cf_policy : Policy }.
Context (cfg : Config).
Definition FailOpen : bool := po_FailOpen (cf_policy cfg).

Record Description := mkDescription {
  de_StaleWritesSuppressed : Z; de_Invalidations : Z; de_ObservedInvalidations : Z; de_VersionedInvalidations : Z;
  de_CurrentInvalidations : Z; de_StaleInvalidations : Z; de_VersionFailures : Z
}.
(** One [Cache]: stripe generations and locks (with the thread that holds them), flights, counters. *)
Record replica := mkReplica { rp_generations : gmap Z Z; rp_locks : gmap Z nat; rp_group : G; rp_counters : Description }.

(** [read]: [Ok None] is a miss; an entry answers with a value or the negative error. *)
Definition envelopeValue : ascii := "001"%char.
Definition envelopeNegative : ascii := "002"%char.
Definition decode_envelope (payload : string) : result cerror (result cerror T) :=
  match payload with
  | EmptyString => Err ErrCorrupt
  | String tag content =>
      if bool_decide (tag = envelopeNegative) then
        Ok match po_NegativeError (cf_policy cfg) with Some err => Err err | None => Ok (cd_zero (cf_codec cfg)) end
      else if bool_decide (tag = envelopeValue) then
        match cd_Decode (cf_codec cfg) content with
        | Err err => Err (EWrap "decode" (EJoin ErrCorrupt err))
        | Ok value => Ok (Ok value)
        end
      else Err ErrCorrupt
  end.
Definition read (cause : option cerror) (now : time) (key : string) (b : B) : result cerror (option (string * result cerror T)) * B :=
  let '(answer, b) := bk_Get cause now key b in
  match answer with
  | Err err => (if is_error ErrMiss err then Ok None else Err err, b)
  | Ok payload => (match decode_envelope payload with Ok found => Ok (Some (payload, found)) | Err err => Err err end, b)
  end.

(** ** Threads *)

(** Where an answer came from: the caller's own read, the read of the flight, or the loader, which
    was called at a step. *)
Inductive source := FromEntry (payload : string) | FromFlightEntry (payload : string) | FromLoad (called : nat).
(** A flight: since when it exists; when it read the generation, and which; when it read the
    watermark of its key, and which; when it called the loader. *)
Record flight := mkFlight {
  fl_key : string; fl_begin : nat; fl_tick : nat; fl_generation : Z; fl_seen : nat; fl_version : option Z; fl_called : nat
}.
Inductive thread :=
| GetRead (key : string) (begin : nat)
| GetJoin (key : string) (begin : nat)
| GetWait (key : string) (begin : nat) (f : nat)
| GetDone (key : string) (begin : nat) (answer : result cerror T) (src : option source)
| FlGeneration (key : string) (begin : nat)
| FlRead (fl : flight)
| FlVersion (fl : flight)
| FlLoad (fl : flight)
| FlLoading (fl : flight)
| FlLock (fl : flight) (loaded : result cerror T)
| FlWrite (fl : flight) (loaded : result cerror T)
| FlReturn (key : string) (begin : nat) (answer : result cerror T) (src : option source)
| FlDone (key : string) (begin : nat) (answer : result cerror T) (src : option source)
| SetLock (key : string) (value : T)
| SetBump (key : string) (value : T)
| SetForget (key : string) (value : T) (tick : nat)
| SetStore (key : string) (value : T) (tick : nat)
| SetWrite (key : string) (envelope : string) (ttl : duration) (tick : nat) (seen : nat) (version : Z)
| SetDone (answer : option cerror)
| InvLock (observe : bool) (keys : list string) (begin : nat) (todo : list Z)
| InvBump (observe : bool) (keys : list string) (begin : nat) (todo : list Z)
| InvForget (observe : bool) (keys : list string) (begin : nat) (todo : list string)
| InvDelete (keys : list string) (begin : nat)
| InvDone (answer : result cerror Z)
| IvApply (key : string) (version : Z)
| IvLock (key : string) (state : InvalidationState) (tick : nat)
| IvBump (key : string) (state : InvalidationState) (tick : nat)
| IvForget (key : string) (state : InvalidationState) (tick : nat)
| IvDone (answer : result cerror InvalidationState).

(** Written payloads: when the writer read its generation, called its loader and saw its watermark. *)
Record origin := mkOrigin { or_key : string; or_payload : string; or_tick : nat; or_called : nat; or_version : option Z }.
Inductive event :=
| EvNone
| EvBump (r : nat) (stripe : Z)
| EvApplied (key : string) (version : Z)                              (* a watermark rose *)
| EvWrite (o : origin)                                                (* a write was tried *)
| EvSettled (r : nat) (keys : list string) (since : nat) (deleted : bool).  (* an invalidation returned *)

(** What the surroundings decide during a step. *)
Record env := mkEnv { ev_cause : option cerror; ev_load : result cerror T; ev_random : spec_float; ev_conversion : Z }.

Record sys := mkSys { sy_backend : B; sy_now : time; sy_replicas : list replica; sy_threads : list (nat * thread); sy_log : list event }.

(** ** Parts of the operations *)
Definition generation_of (rp : replica) (stripe : Z) : Z := default 0 (rp_generations rp !! stripe).
Definition bump (stripe : Z) (rp : replica) : replica :=
  mkReplica (<[stripe := u64_add (generation_of rp stripe) 1]> (rp_generations rp)) (rp_locks rp) (rp_group rp) (rp_counters rp).
Definition lock (stripe : Z) (i : nat) (rp : replica) : replica := mkReplica (rp_generations rp) (<[stripe := i]> (rp_locks rp)) (rp_group rp) (rp_counters rp).
Definition unlock (stripes : list Z) (rp : replica) : replica :=
  mkReplica (rp_generations rp) (fold_left (λ m s, delete s m) stripes (rp_locks rp)) (rp_group rp) (rp_counters rp).
Definition with_group (f : G → G) (rp : replica) : replica := mkReplica (rp_generations rp) (rp_locks rp) (f (rp_group rp)) (rp_counters rp).
Definition count (f : Description → Description) (rp : replica) : replica := mkReplica (rp_generations rp) (rp_locks rp) (rp_group rp) (f (rp_counters rp)).
Definition add_stale_write (d : Description) : Description :=
  let '(mkDescription a b c x y z f) := d in mkDescription (u64_add a 1) b c x y z f.
Definition add_invalidations (n : Z) (d : Description) : Description :=
  let '(mkDescription a b c x y z f) := d in mkDescription a (u64_add b n) c x y z f.
Definition add_observed (n : Z) (d : Description) : Description :=
  let '(mkDescription a b c x y z f) := d in mkDescription a b (u64_add c n) x y z f.
Definition add_version_failure (d : Description) : Description :=
  let '(mkDescription a b c x y z f) := d in mkDescription a b c x y z (u64_add f 1).
Definition add_state (state : InvalidationState) (d : Description) : Description :=
  let '(mkDescription a b c x y z f) := d in
  match state with
  | InvalidationApplied => mkDescription a b c (u64_add x 1) y z f
  | InvalidationCurrent => mkDescription a b c x (u64_add y 1) z f
  | InvalidationStale => mkDescription a b c x y (u64_add z 1) f
  | InvalidationOther _ => mkDescription a b c x y z (u64_add f 1)
  end.

Definition ttl_of (e : env) (ttl : duration) : duration := jitter (cf_policy cfg) (ev_random e) (ev_conversion e) ttl.
Definition is_negative (err : cerror) : bool :=
  match po_IsNegative (cf_policy cfg) with Some f => f err && (0 <? po_NegativeTTL (cf_policy cfg)) | None => false end.
(** The envelope a flight writes for what its loader answered. *)
Definition envelope_of (loaded : result cerror T) : result cerror string :=
  match loaded with
  | Err _ => Ok (String envelopeNegative "")
  | Ok value => match cd_Encode (cf_codec cfg) value with Ok payload => Ok (String envelopeValue payload) | Err err => Err (EWrap "cache: encode" err) end
  end.
(** What the flight returns when its write answered [writeErr]. *)
Definition flight_answer (loaded : result cerror T) (writeErr : option cerror) : result cerror T :=
  match writeErr with
  | Some writeErr => if FailOpen then loaded else match loaded with Err loadErr => Err (EJoin loadErr writeErr) | Ok _ => Err writeErr end
  | None => loaded
  end.

(** What a step does: backend, replica, the thread's next phase, a thread it starts, its event. *)
Definition outcome : Type := B * replica * thread * option thread * event.
Definition quietly (b : B) (rp : replica) (t : thread) : option outcome := Some (b, rp, t, None, EvNone).
(** The function of the flight returns; the group hears of it in a later step. *)
Definition finish_flight (fl : flight) (answer : result cerror T) (src : option source) (ev : event) (b : B) (rp : replica) : option outcome :=
  Some (b, rp, FlReturn (fl_key fl) (fl_begin fl) answer src, None, ev).
Definition free (stripe : Z) (rp : replica) : bool := bool_decide (rp_locks rp !! stripe = None).

(** *** [Get] and its flight *)
Definition get_step (i : nat) (tick : nat) (now : time) (threads : list (nat * thread)) (e : env) (b : B) (rp : replica) (t : thread) : option outcome :=
  match t with
  | GetRead key begin =>
      let '(answer, b) := read (ev_cause e) now key b in
      match answer with
      | Ok (Some (payload, found)) => quietly b rp (GetDone key begin found (Some (FromEntry payload)))
      | Ok None => quietly b rp (GetJoin key begin)
      | Err err => if FailOpen then quietly b rp (GetJoin key begin) else quietly b rp (GetDone key begin (Err err) None)
      end
  | GetJoin key begin =>
      let f := length threads in
      let '(joined, group) := sf_DoChan key f (rp_group rp) in
      let rp := with_group (λ _, group) rp in
      match joined with
      | Some f => quietly b rp (GetWait key begin f)
      | None => Some (b, rp, GetWait key begin f, Some (FlGeneration key tick), EvNone)
      end
  | GetWait key begin f =>
      match ev_cause e with
      | Some err => quietly b rp (GetDone key begin (Err err) None)
      | None =>
          match threads !! f with
          | Some (_, FlDone _ _ answer src) => quietly b rp (GetDone key begin answer src)
          | _ => None
          end
      end
  | _ => None
  end.
(** [storeIfCurrent], [storeNegativeIfCurrent] and [storeEnvelopeIfVersion]. *)
Definition store_step (i : nat) (now : time) (e : env) (b : B) (rp : replica) (t : thread) : option outcome :=
  match t with
  | FlLock fl loaded =>
      let stripe := mutationStripeIndex (fl_key fl) in
      if free stripe rp then
        if negb (generation_of rp stripe =? fl_generation fl) then
          finish_flight fl (flight_answer loaded None) (Some (FromLoad (fl_called fl))) EvNone b (count add_stale_write rp)
        else quietly b (lock stripe i rp) (FlWrite fl loaded)
      else None
  | FlWrite fl loaded =>
      let rp := unlock [mutationStripeIndex (fl_key fl)] rp in
      let done writeErr ev b rp := finish_flight fl (flight_answer loaded writeErr) (Some (FromLoad (fl_called fl))) ev b rp in
      match envelope_of loaded with
      | Err err => done (Some err) EvNone b rp
      | Ok envelope =>
          let ttl := ttl_of e (match loaded with Ok _ => po_TTL (cf_policy cfg) | Err _ => po_NegativeTTL (cf_policy cfg) end) in
          let ev := EvWrite (mkOrigin (fl_key fl) envelope (fl_tick fl) (fl_called fl) (fl_version fl)) in
          if negb (cf_versioned cfg) then
            let '(err, b) := bk_Set (ev_cause e) now (fl_key fl) envelope ttl b in done err ev b rp
          else match fl_version fl with
          | None => done None EvNone b rp
          | Some version =>
              let '(answer, b) := bk_SetIfVersion (ev_cause e) now (fl_key fl) envelope ttl version b in
              match answer with
              | Err err => done (Some err) ev b rp
              | Ok true => done None ev b rp
              | Ok false => done None EvNone b (count add_stale_write rp)
              end
          end
      end
  | _ => None
  end.
Definition flight_step (i : nat) (r : nat) (tick : nat) (now : time) (e : env) (b : B) (rp : replica) (t : thread) : option outcome :=
  match t with
  | FlGeneration key begin =>
      quietly b rp (FlRead (mkFlight key begin tick (generation_of rp (mutationStripeIndex key)) tick None tick))
  | FlRead fl =>
      let '(answer, b) := read (ev_cause e) now (fl_key fl) b in
      let next := if cf_versioned cfg then FlVersion fl else FlLoad fl in
      match answer with
      | Ok (Some (payload, found)) => finish_flight fl found (Some (FromFlightEntry payload)) EvNone b rp
      | Ok None => quietly b rp next
      | Err err => if FailOpen then quietly b rp next else finish_flight fl (Err err) None EvNone b rp
      end
  | FlVersion fl =>
      let '(answer, b) := bk_CurrentVersion (ev_cause e) now (fl_key fl) b in
      match answer with
      | Ok version => quietly b rp (FlLoad (mkFlight (fl_key fl) (fl_begin fl) (fl_tick fl) (fl_generation fl) tick (Some version) tick))
      | Err err =>
          let rp := count add_version_failure rp in
          if FailOpen then quietly b rp (FlLoad fl) else finish_flight fl (Err (EWrap "cache: current version" err)) None EvNone b rp
      end
  | FlLoad fl => quietly b rp (FlLoading (mkFlight (fl_key fl) (fl_begin fl) (fl_tick fl) (fl_generation fl) (fl_seen fl) (fl_version fl) tick))
  | FlLoading fl =>
      match ev_load e with
      | Err err => if is_negative err then quietly b rp (FlLock fl (Err err)) else finish_flight fl (Err err) (Some (FromLoad (fl_called fl))) EvNone b rp
      | Ok value => quietly b rp (FlLock fl (Ok value))
      end
  | FlLock _ _ | FlWrite _ _ => store_step i now e b rp t
  | FlReturn key begin answer src => quietly b (with_group (sf_Done key i) rp) (FlDone key begin answer src)
  | _ => None
  end.

(** *** [Set] *)

(** [store]. *)
Definition set_store_step (tick : nat) (now : time) (e : env) (b : B) (rp : replica) (t : thread) : option outcome :=
  match t with
  | SetStore key value started =>
      let unlocked := unlock [mutationStripeIndex key] in
      match cd_Encode (cf_codec cfg) value with
      | Err err => quietly b (unlocked rp) (SetDone (Some (EWrap "cache: encode" err)))
      | Ok payload =>
          let envelope := String envelopeValue payload in
          let ttl := ttl_of e (po_TTL (cf_policy cfg)) in
          if negb (cf_versioned cfg) then
            let '(err, b) := bk_Set (ev_cause e) now key envelope ttl b in
            Some (b, unlocked rp, SetDone (EWrap "cache: set" <$> err), None, EvWrite (mkOrigin key envelope (S started) (S started) None))
          else
            let '(answer, b) := bk_CurrentVersion (ev_cause e) now key b in
            match answer with
            | Err err => quietly b (unlocked (count add_version_failure rp)) (SetDone (Some (EWrap "cache: current version" err)))
            | Ok version => quietly b rp (SetWrite key envelope ttl started tick version)
            end
      end
  | SetWrite key envelope ttl started seen version =>
      let rp := unlock [mutationStripeIndex key] rp in
      let '(answer, b) := bk_SetIfVersion (ev_cause e) now key envelope ttl version b in
      let ev := EvWrite (mkOrigin key envelope (S started) seen (Some version)) in
      match answer with
      | Err err => Some (b, rp, SetDone (Some (EWrap "cache: set" err)), None, ev)
      | Ok true => Some (b, rp, SetDone None, None, ev)
      | Ok false => quietly b (count add_stale_write rp) (SetDone (Some ErrStaleWrite))
      end
  | _ => None
  end.
Definition set_step (i : nat) (r : nat) (tick : nat) (now : time) (e : env) (b : B) (rp : replica) (t : thread) : option outcome :=
  match t with
  | SetLock key value =>
      let stripe := mutationStripeIndex key in
      if free stripe rp then quietly b (lock stripe i rp) (SetBump key value) else None
  | SetBump key value =>
      let stripe := mutationStripeIndex key in
      Some (b, bump stripe rp, SetForget key value tick, None, EvBump r stripe)
  | SetForget key value tick => quietly b (with_group (sf_Forget key) rp) (SetStore key value tick)
  | SetStore _ _ _ | SetWrite _ _ _ _ _ _ => set_store_step tick now e b rp t
  | _ => None
  end.

(** *** [Invalidate] and [ObserveInvalidation] *)
Definition invalidate_step (i : nat) (r : nat) (tick : nat) (now : time) (e : env) (b : B) (rp : replica) (t : thread) : option outcome :=
  match t with
  | InvLock observe keys begin [] => quietly b rp (InvBump observe keys begin (stripes_of keys))
  | InvLock observe keys begin (stripe :: todo) =>
      if free stripe rp then quietly b (lock stripe i rp) (InvLock observe keys begin todo) else None
  | InvBump observe keys begin [] => quietly b rp (InvForget observe keys begin keys)
  | InvBump observe keys begin (stripe :: todo) => Some (b, bump stripe rp, InvBump observe keys begin todo, None, EvBump r stripe)
  | InvForget observe keys begin (key :: todo) => quietly b (with_group (sf_Forget key) rp) (InvForget observe keys begin todo)
  | InvForget false keys begin [] => quietly b rp (InvDelete keys begin)
  | InvForget true keys begin [] =>
      Some (b, unlock (stripes_of keys) (count (add_observed (zlen keys)) rp), InvDone (Ok 0), None, EvSettled r keys begin false)
  | InvDelete keys begin =>
      let rp := unlock (stripes_of keys) (count (add_invalidations (zlen keys)) rp) in
      let '(answer, b) := bk_Delete (ev_cause e) now keys b in
      Some (b, rp, InvDone answer, None, if is_ok answer then EvSettled r keys begin true else EvNone)
  | _ => None
  end.

(** *** [InvalidateVersion] *)
Definition version_step (i : nat) (r : nat) (tick : nat) (now : time) (e : env) (b : B) (rp : replica) (t : thread) : option outcome :=
  match t with
  | IvApply key version =>
      let '(answer, b') := bk_ApplyInvalidation (ev_cause e) now key version b in
      let ev := if bk_version b' key =? bk_version b key then EvNone else EvApplied key version in
      match answer with
      | Err err => Some (b', count add_version_failure rp, IvDone (Err err), None, ev)
      | Ok state =>
          let rp := count (add_state state) rp in
          match state with
          | InvalidationApplied | InvalidationCurrent => Some (b', rp, IvLock key state tick, None, ev)
          | InvalidationStale => Some (b', rp, IvDone (Ok state), None, ev)
          | InvalidationOther _ => Some (b', rp, IvDone (Err ErrInvalidOption), None, ev)
          end
      end
  | IvLock key state tick =>
      let stripe := mutationStripeIndex key in
      if free stripe rp then quietly b (lock stripe i rp) (IvBump key state tick) else None
  | IvBump key state tick =>
      let stripe := mutationStripeIndex key in
      Some (b, bump stripe rp, IvForget key state tick, None, EvBump r stripe)
  | IvForget key state tick =>
      Some (b, unlock [mutationStripeIndex key] (with_group (sf_Forget key) rp), IvDone (Ok state), None, EvSettled r [key] tick false)
  | _ => None
  end.

(** ** The system *)
Definition thread_step (i r tick : nat) (now : time) (threads : list (nat * thread)) (e : env) (b : B) (rp : replica) (t : thread) : option outcome :=
  match t with
  | GetRead _ _ | GetJoin _ _ | GetWait _ _ _ => get_step i tick now threads e b rp t
  | FlGeneration _ _ | FlRead _ | FlVersion _ | FlLoad _ | FlLoading _ | FlLock _ _ | FlWrite _ _ | FlReturn _ _ _ _ => flight_step i r tick now e b rp t
  | SetLock _ _ | SetBump _ _ | SetForget _ _ _ | SetStore _ _ _ | SetWrite _ _ _ _ _ _ => set_step i r tick now e b rp t
  | InvLock _ _ _ _ | InvBump _ _ _ _ | InvForget _ _ _ _ | InvDelete _ _ => invalidate_step i r tick now e b rp t
  | IvApply _ _ | IvLock _ _ _ | IvBump _ _ _ | IvForget _ _ _ => version_step i r tick now e b rp t
  | GetDone _ _ _ _ | FlDone _ _ _ _ | SetDone _ | InvDone _ | IvDone _ => None
  end.

(** Calls; each checks its arguments first. *)
Inductive call :=
| Get (nil_ctx : bool) (key : string)
| Set_ (nil_ctx : bool) (key : string) (value : T)
| Invalidate (nil_ctx : bool) (keys : list string)
| ObserveInvalidation (keys : list string)
| InvalidateVersion (nil_ctx : bool) (key : string) (version : Z).
Definition begin_call (tick : nat) (c : call) : thread :=
  match c with
  | Get nil_ctx key => if nil_ctx || negb (validateKey key) then GetDone key tick (Err ErrInvalidOption) None else GetRead key tick
  | Set_ nil_ctx key value => if nil_ctx || negb (validateKey key) then SetDone (Some ErrInvalidOption) else SetLock key value
  | Invalidate nil_ctx keys =>
      if nil_ctx || bool_decide (keys = []) then InvDone (Err ErrInvalidOption)
      else if cf_versioned cfg then InvDone (Err ErrVersionRequired)
      else if negb (forallb validateKey keys) then InvDone (Err ErrInvalidOption)
      else InvLock false keys tick (stripes_of keys)
  | ObserveInvalidation keys =>
      if bool_decide (keys = []) || negb (forallb validateKey keys) then InvDone (Err ErrInvalidOption)
      else InvLock true keys tick (stripes_of keys)
  | InvalidateVersion nil_ctx key version =>
      if nil_ctx || negb (validateKey key) || (version =? 0) then IvDone (Err ErrInvalidOption)
      else if negb (cf_versioned cfg) then IvDone (Err ErrVersioningUnsupported)
      else IvApply key version
  end.

Inductive op := OpCall (r : nat) (c : call) | OpStep (i : nat) (e : env) | OpTime (now : time).
Definition cstep (s : sys) (o : op) : sys :=
  let tick := length (sy_log s) in
  match o with
  | OpCall r c => mkSys (sy_backend s) (sy_now s) (sy_replicas s) (sy_threads s ++ [(r, begin_call tick c)]) (sy_log s ++ [EvNone])
  | OpTime now => mkSys (sy_backend s) now (sy_replicas s) (sy_threads s) (sy_log s ++ [EvNone])
  | OpStep i e =>
      match sy_threads s !! i with
      | None => s
      | Some (r, t) =>
          match sy_replicas s !! r with
          | None => s
          | Some rp =>
              match thread_step i r tick (sy_now s) (sy_threads s) e (sy_backend s) rp t with
              | None => s
              | Some (b, rp, t, spawned, ev) =>
                  mkSys b (sy_now s) (<[r := rp]> (sy_replicas s))
                    (<[i := (r, t)]> (sy_threads s) ++ match spawned with Some f => [(r, f)] | None => [] end)
                    (sy_log s ++ [ev])
              end
          end
      end
  end.
Definition csteps (s : sys) (l : list op) : sys := fold_left cstep l s.
End cache.
