(* ===== verification/CacheSpec.v ===== *)
(** * cache: what a read may see after an invalidation

    The replicas of [Cache] with their threads in any interleaving, over any backend and flight
    group that keep their laws.  The invariant [cache_ok] ties every entry of the backend to the
    step at which its writer read its generation, saw the watermark of its key and called its
    loader.  Two theorems follow, one for a cache without versions, one for any number of versioned
    replicas; a concrete run shows where the first one ends. *)
From S2P Require Import Prelude GoText GoFloat Cache.
Open Scope Z_scope.

Section spec.
Context {T B G : Type} `{VersionedBackend B} `{Singleflight G} (cfg : Config (T:=T)).
Abbreviation sys := (sys (T:=T) (B:=B) (G:=G)).
Abbreviation thread := (thread (T:=T)).
Abbreviation replica := (replica (G:=G)).
Implicit Types (s : sys) (t : thread) (rp : replica) (log : list event) (b : B) (k : string).

(** ** Reading the log *)
Definition is_bump (r : nat) (st : Z) (ev : event) : bool := match ev with EvBump r' st' => (r' =? r)%nat && (st' =? st) | _ => false end.
Definition bumps (r : nat) (st : Z) log : nat := length (List.filter (is_bump r st) log).
(** No generation of the stripe, and no watermark of the key, changed at a step from [n] on. *)
Definition no_bump (r : nat) (st : Z) (n : nat) log : Prop := ∀ j, log !! j = Some (EvBump r st) → (j < n)%nat.
Definition watermark_kept k (n : nat) (w : Z) log : Prop := ∀ j v, log !! j = Some (EvApplied k v) → (n ≤ j)%nat → w < v.
Definition bumped_since (r : nat) (st : Z) (n : nat) log : Prop := ∃ j, (n ≤ j)%nat ∧ log !! j = Some (EvBump r st).

(** The payload of an entry of [k] was written by somebody who started after every invalidation
    that returned, or rose the watermark, before step [n]. *)
Definition origin_ok (n : nat) k (payload : string) log : Prop := ∃ o,
  EvWrite o ∈ log ∧ or_key o = k ∧ or_payload o = payload ∧ (or_tick o ≤ or_called o)%nat ∧
  (cf_versioned cfg = false → ∀ e keys since, (e < n)%nat → log !! e = Some (EvSettled 0 keys since true) → k ∈ keys → (since < or_tick o)%nat) ∧
  (cf_versioned cfg = true → ∀ j v, (j < n)%nat → log !! j = Some (EvApplied k v) → (j < or_called o)%nat).
(** Everything the replica settled before step [n] for [k] is older than step [m]. *)
Definition settled_before (r : nat) k (n m : nat) log : Prop :=
  ∀ e keys since d, (e < n)%nat → log !! e = Some (EvSettled r keys since d) → k ∈ keys → (since < m)%nat.

(** ** The invariant *)
Definition flight_of t : option (string * nat) :=
  match t with
  | FlGeneration k begin | FlReturn k begin _ _ | FlDone k begin _ _ => Some (k, begin)
  | FlRead fl | FlVersion fl | FlLoad fl | FlLoading fl | FlLock fl _ | FlWrite fl _ => Some (fl_key fl, fl_begin fl)
  | _ => None
  end.
Definition locks_of s (r : nat) : gmap Z nat := default ∅ (rp_locks <$> sy_replicas s !! r).
Definition flights_of s (r : nat) : gmap string nat := default ∅ ((λ rp, sf_current (rp_group rp)) <$> sy_replicas s !! r).
Definition begun s (r : nat) k (f : nat) (begin : nat) : Prop := ∃ t, sy_threads s !! f = Some (r, t) ∧ flight_of t = Some (k, begin).

Definition flight_ok s (r : nat) (fl : flight) : Prop :=
  (fl_begin fl ≤ fl_tick fl ≤ fl_called fl)%nat ∧ (fl_tick fl ≤ fl_seen fl ≤ fl_called fl)%nat ∧ (fl_called fl ≤ length (sy_log s))%nat ∧
  fl_generation fl = Z.of_nat (bumps r (mutationStripeIndex (fl_key fl)) (take (fl_tick fl) (sy_log s))) mod (max_u64 + 1) ∧
  (∀ w, fl_version fl = Some w → w ≤ bk_version (sy_backend s) (fl_key fl) ∧ watermark_kept (fl_key fl) (fl_seen fl) w (sy_log s)).
Definition holds s (r i : nat) (stripes : list Z) : Prop := ∀ st, st ∈ stripes → locks_of s r !! st = Some i.
(** Flights of these keys that can still be joined began after step [n]. *)
Definition forgotten s (r : nat) (keys : list string) (n : nat) : Prop :=
  ∀ k f, k ∈ keys → flights_of s r !! k = Some f → ∃ begin, begun s r k f begin ∧ (n < begin)%nat.
Definition source_ok s (k : string) (begin : nat) (src : option source) : Prop :=
  match src with
  | Some (FromLoad called) => (begin ≤ called)%nat
  | Some (FromFlightEntry payload) => cf_versioned cfg = true → origin_ok begin k payload (sy_log s)
  | Some (FromEntry _) => False
  | None => True
  end.
(** The answer of a [Get] that began at [begin]. *)
Definition answer_ok s (r : nat) (k : string) (begin : nat) (src : option source) : Prop :=
  match src with
  | Some (FromEntry payload) => origin_ok begin k payload (sy_log s)
  | Some (FromLoad called) => settled_before r k begin called (sy_log s)
  | Some (FromFlightEntry payload) => cf_versioned cfg = true → ∃ m, (m ≤ length (sy_log s))%nat ∧ settled_before r k begin m (sy_log s) ∧ origin_ok m k payload (sy_log s)
  | None => True
  end.
Definition thread_ok s (i r : nat) t : Prop :=
  let log := sy_log s in
  match t with
  | GetRead k begin | GetJoin k begin => (begin < length log)%nat
  | GetWait k begin f => (begin < length log)%nat ∧ ∃ m, begun s r k f m ∧ settled_before r k begin m log
  | GetDone k begin _ src => (begin < length log)%nat ∧ answer_ok s r k begin src
  | FlGeneration k begin => (begin < length log)%nat
  | FlRead fl | FlVersion fl => flight_ok s r fl
  | FlLoad fl | FlLoading fl | FlLock fl _ => flight_ok s r fl
  | FlWrite fl _ => flight_ok s r fl ∧ holds s r i [mutationStripeIndex (fl_key fl)] ∧ no_bump r (mutationStripeIndex (fl_key fl)) (fl_tick fl) log
  | FlReturn k begin _ src | FlDone k begin _ src => (begin < length log)%nat ∧ source_ok s k begin src
  | SetLock _ _ | SetDone _ | InvDone _ | IvApply _ _ | IvDone _ => True
  | SetBump k _ => holds s r i [mutationStripeIndex k]
  | SetForget k _ tick | SetStore k _ tick =>
      holds s r i [mutationStripeIndex k] ∧ (tick < length log)%nat ∧ no_bump r (mutationStripeIndex k) (S tick) log
  | SetWrite k _ _ tick seen w =>
      holds s r i [mutationStripeIndex k] ∧ (tick < seen < length log)%nat ∧ no_bump r (mutationStripeIndex k) (S tick) log ∧
      w ≤ bk_version (sy_backend s) k ∧ watermark_kept k seen w log
  | InvLock _ keys begin todo => (begin < length log)%nat ∧ ∃ done, stripes_of keys = done ++ todo ∧ holds s r i done
  | InvBump _ keys begin todo =>
      (begin < length log)%nat ∧ holds s r i (stripes_of keys) ∧ ∃ done, stripes_of keys = done ++ todo ∧ ∀ st, st ∈ done → bumped_since r st begin log
  | InvForget _ keys begin todo =>
      (begin < length log)%nat ∧ holds s r i (stripes_of keys) ∧ (∀ st, st ∈ stripes_of keys → bumped_since r st begin log) ∧
      ∃ done, keys = done ++ todo ∧ forgotten s r done begin
  | InvDelete keys begin =>
      (begin < length log)%nat ∧ holds s r i (stripes_of keys) ∧ (∀ st, st ∈ stripes_of keys → bumped_since r st begin log) ∧ forgotten s r keys begin
  | IvLock _ _ tick => (tick < length log)%nat
  | IvBump k _ tick | IvForget k _ tick => (tick < length log)%nat ∧ holds s r i [mutationStripeIndex k]
  end.

Record cache_ok s : Prop := {
  ck_generations : ∀ r rp st, sy_replicas s !! r = Some rp → generation_of rp st = Z.of_nat (bumps r st (sy_log s)) mod (max_u64 + 1);
  ck_entries : ∀ k payload, bk_entries (sy_backend s) !! k = Some payload → origin_ok (length (sy_log s)) k payload (sy_log s);
  ck_watermarks : ∀ j k v, sy_log s !! j = Some (EvApplied k v) → v ≤ bk_version (sy_backend s) k;
  ck_settled : ∀ e r keys since d, sy_log s !! e = Some (EvSettled r keys since d) →
    (since ≤ e)%nat ∧ (d = true → ∀ k, k ∈ keys → bumped_since r (mutationStripeIndex k) since (sy_log s));
  ck_flights : ∀ r k f, flights_of s r !! k = Some f → ∃ begin, begun s r k f begin ∧ settled_before r k (length (sy_log s)) begin (sy_log s);
  ck_threads : ∀ i r t, sy_threads s !! i = Some (r, t) → thread_ok s i r t;
  ck_replicas : cf_versioned cfg = false → (length (sy_replicas s) ≤ 1)%nat
}.

(** ** Growing the log *)
Lemma lookup_old log ev n e x : (n ≤ length log)%nat → (e < n)%nat → (log ++ [ev]) !! e = Some x → log !! e = Some x.
Proof. intros Hn He Hx. by rewrite lookup_app_l in Hx by lia. Qed.
Lemma lookup_snoc log ev e x : (log ++ [ev]) !! e = Some x → log !! e = Some x ∨ e = length log ∧ ev = x.
Proof.
  intros Hx. apply lookup_app_Some in Hx as [Hx|[Hle Hx]]; [by left|right]. apply list_lookup_singleton_Some in Hx as [He ->]. split; [lia|done].
Qed.
Lemma lookup_grow log ev e x : log !! e = Some x → (log ++ [ev]) !! e = Some x.
Proof. apply lookup_app_l_Some. Qed.
Lemma settled_before_grow r k n m log ev : (n ≤ length log)%nat → settled_before r k n m log → settled_before r k n m (log ++ [ev]).
Proof. intros Hn Hs e keys since d He Hx. eapply Hs; [exact He|]. by eapply lookup_old. Qed.
Lemma origin_ok_grow n k p log ev : (n ≤ length log)%nat → origin_ok n k p log → origin_ok n k p (log ++ [ev]).
Proof.
  intros Hn (o & Hw & Hk & Hp & Ht & Hs & Ha). exists o. split; [apply elem_of_app; by left|]. do 3 (split; [done|]). split.
  - intros Hv e keys since He Hx. eapply (Hs Hv e); [done|]. by eapply lookup_old.
  - intros Hv j v Hj Hx. eapply (Ha Hv j); [done|]. by eapply lookup_old.
Qed.
Lemma origin_ok_le n m k p log : (m ≤ n)%nat → origin_ok n k p log → origin_ok m k p log.
Proof.
  intros Hle (o & Hw & Hk & Hp & Ht & Hs & Ha). exists o. do 4 (split; [done|]). split; intros Hv; intros; [eapply (Hs Hv); [|done..]|eapply (Ha Hv); [|done]]; lia.
Qed.
(** Events that leave the entry of [k] as fresh as it was. *)
Definition harmless k (ev : event) : Prop :=
  match ev with EvSettled 0 keys _ true => k ∉ keys | EvApplied k' _ => k' ≠ k | _ => True end.
Lemma origin_ok_harmless k p log ev : harmless k ev → origin_ok (length log) k p log → origin_ok (length (log ++ [ev])) k p (log ++ [ev]).
Proof.
  intros Hh Ho. apply (origin_ok_grow _ _ _ _ ev) in Ho; [|done]. destruct Ho as (o & Hw & Hk & Hp & Ht & Hs & Ha). exists o. do 4 (split; [done|]). split.
  - intros Hv e keys since He Hx Hin. destruct (lookup_snoc _ _ _ _ Hx) as [Hx'|[-> ->]]; [|by destruct Hh].
    eapply (Hs Hv e); [by eapply lookup_lt_Some|done..].
  - intros Hv j v Hj Hx. destruct (lookup_snoc _ _ _ _ Hx) as [Hx'|[-> ->]]; [|by destruct Hh]. eapply (Ha Hv j); [by eapply lookup_lt_Some|done].
Qed.
Lemma bumps_app r st log l : bumps r st (log ++ l) = (bumps r st log + bumps r st l)%nat.
Proof. unfold bumps. by rewrite List.filter_app, length_app. Qed.
Lemma bumps_none r st l : bumps r st l = 0%nat → ∀ j, l !! j ≠ Some (EvBump r st).
Proof.
  intros Hb j Hj. apply list_elem_of_lookup_2, list_elem_of_In in Hj. unfold bumps in Hb. apply nil_length_inv in Hb.
  assert (Hin : List.In (EvBump r st) (List.filter (is_bump r st) l)) by (apply filter_In; split; [done|]; cbn; by rewrite Nat.eqb_refl, Z.eqb_refl).
  by rewrite Hb in Hin.
Qed.
(** Equal generations: nobody bumped in between. *)
Lemma same_generation r st n log : (length log ≤ Z.to_nat max_u64)%nat →
  Z.of_nat (bumps r st log) mod (max_u64 + 1) = Z.of_nat (bumps r st (take n log)) mod (max_u64 + 1) → no_bump r st n log.
Proof.
  intros Hlen Heq j Hj. destruct (decide (j < n)%nat) as [|Hge]; [done|exfalso].
  assert (Hle : ∀ l, (bumps r st l ≤ length l)%nat) by (intros l; apply List.filter_length_le).
  pose proof (Hle log). pose proof (Hle (take n log)) as Ht. rewrite length_take in Ht. assert (Hm : max_u64 = 18446744073709551615) by done.
  rewrite !Z.mod_small in Heq by lia. apply Nat2Z.inj in Heq. rewrite <- (take_drop n log), bumps_app in Heq at 1.
  apply (bumps_none r st (drop n log) ltac:(lia) (j - n)). rewrite lookup_drop. by replace (n + (j - n))%nat with j by lia.
Qed.

(** ** Steps *)

(** A step of thread [i] of replica [r], seen from the outside. *)
Record step_of (i r : nat) s s' (ev : event) : Prop := {
  st_log : sy_log s' = sy_log s ++ [ev];
  st_bump : ∀ r' st, ev = EvBump r' st → r' = r ∧ locks_of s r !! st = Some i;
  st_locks : ∀ r' i' st, i' ≠ i → locks_of s r' !! st = Some i' → locks_of s' r' !! st = Some i';
  st_versions : ∀ k, bk_version (sy_backend s) k ≤ bk_version (sy_backend s') k;
  st_applied : ∀ k v, ev = EvApplied k v → bk_version (sy_backend s) k < v ≤ bk_version (sy_backend s') k;
  st_begun : ∀ r' k f begin, begun s r' k f begin → begun s' r' k f begin;
  st_flights : ∀ r' k f, flights_of s' r' !! k = Some f → flights_of s r' !! k = Some f ∨ begun s' r' k f (length (sy_log s))
}.
Section step.
Context (i r : nat) s s' (ev : event) (Hstep : step_of i r s s' ev).
Lemma len_step : length (sy_log s') = S (length (sy_log s)).
Proof. rewrite (st_log _ _ _ _ _ Hstep), length_app. cbn. lia. Qed.
Lemma flight_ok_step r' fl : flight_ok s r' fl → flight_ok s' r' fl.
Proof.
  intros (Hb & Hs & Hl & Hg & Hv). unfold flight_ok. rewrite len_step. do 2 (split; [done|]). split; [lia|]. rewrite (st_log _ _ _ _ _ Hstep). split.
  { rewrite take_app_le by lia. done. }
  intros w Hw. destruct (Hv w Hw) as [Hle Hk]. pose proof (st_versions _ _ _ _ _ Hstep (fl_key fl)). split; [lia|].
  intros j v Hj Hn. destruct (lookup_snoc _ _ _ _ Hj) as [Hj'|[-> Hev]]; [by eapply Hk|]. pose proof (st_applied _ _ _ _ _ Hstep _ _ Hev). lia.
Qed.
Lemma watermark_step k n w : w ≤ bk_version (sy_backend s) k → watermark_kept k n w (sy_log s) →
  w ≤ bk_version (sy_backend s') k ∧ watermark_kept k n w (sy_log s').
Proof.
  intros Hle Hk. pose proof (st_versions _ _ _ _ _ Hstep k). split; [lia|]. rewrite (st_log _ _ _ _ _ Hstep).
  intros j v Hj Hn. destruct (lookup_snoc _ _ _ _ Hj) as [Hj'|[-> Hev]]; [by eapply Hk|]. pose proof (st_applied _ _ _ _ _ Hstep _ _ Hev). lia.
Qed.
Lemma bumped_since_step r' st n : bumped_since r' st n (sy_log s) → bumped_since r' st n (sy_log s').
Proof. intros (j & Hn & Hj). exists j. rewrite (st_log _ _ _ _ _ Hstep). split; [done|by apply lookup_grow]. Qed.
Lemma source_ok_step k begin src : (begin < length (sy_log s))%nat → source_ok s k begin src → source_ok s' k begin src.
Proof.
  intros Hb. destruct src as [[]|]; cbn; try done. intros Ho Hv. rewrite (st_log _ _ _ _ _ Hstep). apply origin_ok_grow; [lia|auto].
Qed.
Lemma answer_ok_step r' k begin src : (begin < length (sy_log s))%nat → answer_ok s r' k begin src → answer_ok s' r' k begin src.
Proof.
  intros Hb. unfold answer_ok. rewrite (st_log _ _ _ _ _ Hstep). destruct src as [[]|]; try done.
  - apply origin_ok_grow. lia.
  - intros Ho Hv. destruct (Ho Hv) as (m & Hm & Hs & Hx). exists m. rewrite length_app. split; [lia|].
    split; [apply settled_before_grow; [lia|done]|by apply origin_ok_grow].
  - apply settled_before_grow. lia.
Qed.
Lemma no_bump_step i' r' st n : i' ≠ i → locks_of s r' !! st = Some i' → no_bump r' st n (sy_log s) → no_bump r' st n (sy_log s').
Proof.
  intros Hne Hl Hb j. rewrite (st_log _ _ _ _ _ Hstep). intros [Hj|[-> Hev]]%lookup_snoc; [by apply Hb|].
  destruct (st_bump _ _ _ _ _ Hstep _ _ Hev) as [-> Hi]. congruence.
Qed.
Lemma holds_step i' r' stripes : i' ≠ i → holds s r' i' stripes → holds s' r' i' stripes.
Proof. intros Hne Hh st Hin. eapply (st_locks _ _ _ _ _ Hstep); eauto. Qed.
Lemma forgotten_step r' keys n : (n < length (sy_log s))%nat → forgotten s r' keys n → forgotten s' r' keys n.
Proof.
  intros Hn Hf k f Hk Hc. destruct (st_flights _ _ _ _ _ Hstep _ _ _ Hc) as [Hold|Hnew]; [|by exists (length (sy_log s))].
  destruct (Hf k f Hk Hold) as (begin & Hb & Hlt). exists begin. split; [by eapply (st_begun _ _ _ _ _ Hstep)|done].
Qed.
(** The other threads. *)
Lemma thread_ok_step i' r' t : i' ≠ i → thread_ok s i' r' t → thread_ok s' i' r' t.
Proof.
  intros Hne. destruct t; unfold thread_ok; rewrite ?len_step; try (intros Hlt; lia); try done; try apply flight_ok_step.
  - intros [Hlt (m & Hb & Hs)]. split; [lia|]. exists m. split; [by eapply (st_begun _ _ _ _ _ Hstep)|].
    rewrite (st_log _ _ _ _ _ Hstep). apply settled_before_grow; [lia|done].
  - intros [Hlt Ha]. split; [lia|by apply answer_ok_step].
  - intros (Hf & Hh & Hb). split; [by apply flight_ok_step|]. split; [by apply holds_step|]. eapply no_bump_step; [done|by apply Hh; left|done].
  - intros [Hlt Ha]. split; [lia|by apply source_ok_step].
  - intros [Hlt Ha]. split; [lia|by apply source_ok_step].
  - by apply holds_step.
  - intros (Hh & Hlt & Hb). split; [by apply holds_step|]. split; [lia|]. eapply no_bump_step; [done|by apply Hh; left|done].
  - intros (Hh & Hlt & Hb). split; [by apply holds_step|]. split; [lia|]. eapply no_bump_step; [done|by apply Hh; left|done].
  - intros (Hh & Hlt & Hb & Hw & Hk). split; [by apply holds_step|]. split; [lia|]. split; [eapply no_bump_step; [done|by apply Hh; left|done]|]. by apply watermark_step.
  - intros (Hlt & done & Hd & Hh). split; [lia|]. exists done. split; [done|by apply holds_step].
  - intros (Hlt & Hh & done & Hd & Hb). split; [lia|]. split; [by apply holds_step|]. exists done. split; [done|]. intros st Hin. by apply bumped_since_step, Hb.
  - intros (Hlt & Hh & Hb & done & Hd & Hf). split; [lia|]. split; [by apply holds_step|]. split; [intros st Hin; by apply bumped_since_step, Hb|].
    exists done. split; [done|by apply forgotten_step].
  - intros (Hlt & Hh & Hb & Hf). split; [lia|]. split; [by apply holds_step|]. split; [intros st Hin; by apply bumped_since_step, Hb|by apply forgotten_step].
  - intros [Hlt Hh]. split; [lia|by apply holds_step].
  - intros [Hlt Hh]. split; [lia|by apply holds_step].
Qed.
End step.

(** What the step of a thread does to its replica and to the backend. *)
Record local_step (i r : nat) s rp rp' b' t t' (spawned : option thread) (ev : event) : Prop := {
  lo_generations : ∀ st, generation_of rp' st = if is_bump r st ev then u64_add (generation_of rp st) 1 else generation_of rp st;
  lo_bump : ∀ r' st, ev = EvBump r' st → r' = r ∧ rp_locks rp !! st = Some i;
  lo_locks : ∀ i' st, i' ≠ i → rp_locks rp !! st = Some i' → rp_locks rp' !! st = Some i';
  lo_versions : ∀ k, bk_version (sy_backend s) k ≤ bk_version b' k;
  lo_applied : ∀ k v, ev = EvApplied k v → bk_version (sy_backend s) k < v ≤ bk_version b' k;
  lo_begun : ∀ kb, flight_of t = Some kb → flight_of t' = Some kb;
  lo_flights : ∀ k f, sf_current (rp_group rp') !! k = Some f → sf_current (rp_group rp) !! k = Some f ∨
    f = length (sy_threads s) ∧ ∃ t'', spawned = Some t'' ∧ flight_of t'' = Some (k, length (sy_log s))
}.
Definition stepped (i r : nat) s rp' b' t' (spawned : option thread) (ev : event) : sys :=
  mkSys b' (sy_now s) (<[r := rp']> (sy_replicas s)) (<[i := (r, t')]> (sy_threads s) ++ match spawned with Some f => [(r, f)] | None => [] end) (sy_log s ++ [ev]).

Section local.
Context (i r : nat) s rp rp' b' t t' (spawned : option thread) (ev : event).
Context (Ht : sy_threads s !! i = Some (r, t)) (Hr : sy_replicas s !! r = Some rp).
Abbreviation s' := (stepped i r s rp' b' t' spawned ev).
Lemma locks_of_stepped r' : locks_of s' r' = if decide (r' = r) then rp_locks rp' else locks_of s r'.
Proof.
  unfold locks_of, stepped. cbn [sy_replicas]. destruct (decide (r' = r)) as [->|Hne]; [|by rewrite list_lookup_insert_ne].
  rewrite list_lookup_insert_eq; [done|by eapply lookup_lt_Some].
Qed.
Lemma flights_of_stepped r' : flights_of s' r' = if decide (r' = r) then sf_current (rp_group rp') else flights_of s r'.
Proof.
  unfold flights_of, stepped. cbn [sy_replicas]. destruct (decide (r' = r)) as [->|Hne]; [|by rewrite list_lookup_insert_ne].
  rewrite list_lookup_insert_eq; [done|by eapply lookup_lt_Some].
Qed.
Lemma locks_of_here : locks_of s r = rp_locks rp.
Proof. unfold locks_of. by rewrite Hr. Qed.
Lemma flights_of_here : flights_of s r = sf_current (rp_group rp).
Proof. unfold flights_of. by rewrite Hr. Qed.
Lemma threads_stepped i' : (i' < length (sy_threads s))%nat → sy_threads s' !! i' = if decide (i' = i) then Some (r, t') else sy_threads s !! i'.
Proof.
  intros Hlt. cbn. rewrite lookup_app_l by by rewrite length_insert. destruct (decide (i' = i)) as [->|Hne]; [by apply list_lookup_insert_eq|by apply list_lookup_insert_ne].
Qed.
Lemma thread_new : sy_threads s' !! i = Some (r, t').
Proof. rewrite threads_stepped by by eapply lookup_lt_Some. by rewrite decide_True. Qed.
Lemma thread_spawned t'' : spawned = Some t'' → sy_threads s' !! length (sy_threads s) = Some (r, t'').
Proof. intros Hsp. cbn. rewrite Hsp. rewrite lookup_app_r by by rewrite length_insert. by rewrite length_insert, Nat.sub_diag. Qed.
Lemma local_is_step : local_step i r s rp rp' b' t t' spawned ev → step_of i r s s' ev.
Proof.
  intros Hl. constructor; cbn [sy_log sy_backend stepped]; try apply Hl; try done.
  - intros r' st Hev. rewrite locks_of_here. by apply (lo_bump _ _ _ _ _ _ _ _ _ _ Hl).
  - intros r' i' st Hne. rewrite locks_of_stepped. destruct (decide (r' = r)) as [->|]; [|done]. rewrite locks_of_here. by apply (lo_locks _ _ _ _ _ _ _ _ _ _ Hl).
  - intros r' k f begin (t0 & Hf & Hb). destruct (decide (f = i)) as [->|Hne].
    + rewrite Ht in Hf. injection Hf as <- <-. exists t'. split; [apply thread_new|by apply (lo_begun _ _ _ _ _ _ _ _ _ _ Hl)].
    + exists t0. split; [|done]. rewrite threads_stepped by by eapply lookup_lt_Some. by rewrite decide_False.
  - intros r' k f. rewrite flights_of_stepped. destruct (decide (r' = r)) as [->|]; [|by left]. rewrite flights_of_here.
    intros [Hold|(-> & t'' & Hsp & Hb)]%(lo_flights _ _ _ _ _ _ _ _ _ _ Hl); [by left|right]. exists t''. split; [by apply thread_spawned|done].
Qed.

(** The invariant after a step, from what concerns the step alone. *)
Lemma stepped_ok : cache_ok s → local_step i r s rp rp' b' t t' spawned ev →
  (∀ k payload, bk_entries b' !! k = Some payload → origin_ok (length (sy_log s ++ [ev])) k payload (sy_log s ++ [ev])) →
  (∀ r' keys since d, ev = EvSettled r' keys since d → (since ≤ length (sy_log s))%nat ∧
     (d = true → ∀ k, k ∈ keys → bumped_since r' (mutationStripeIndex k) since (sy_log s)) ∧ forgotten s' r' keys since) →
  thread_ok s' i r t' → (∀ t'', spawned = Some t'' → thread_ok s' (length (sy_threads s)) r t'') →
  cache_ok s'.
Proof.
  intros Hok Hl Hent Hset Hth Hsp. pose proof (local_is_step Hl) as Hstep. constructor.
  - intros r' rp0 st Hr0. cbn [sy_log sy_replicas stepped] in Hr0 |- *. rewrite bumps_app. unfold bumps at 2. cbn [List.filter]. destruct (decide (r' = r)) as [->|Hne].
    + rewrite list_lookup_insert_eq in Hr0 by by eapply lookup_lt_Some. injection Hr0 as <-. rewrite (lo_generations _ _ _ _ _ _ _ _ _ _ Hl).
      rewrite (ck_generations _ Hok r rp st Hr). destruct (is_bump r st ev); cbn [length]; [|by rewrite Nat.add_0_r].
      unfold u64_add. rewrite Z.add_mod_idemp_l by done. f_equal. lia.
    + rewrite list_lookup_insert_ne in Hr0 by done. assert (Hnb : is_bump r' st ev = false).
      { destruct ev; try done. cbn. destruct (lo_bump _ _ _ _ _ _ _ _ _ _ Hl _ _ eq_refl) as [-> _]. apply andb_false_iff. left. apply Nat.eqb_neq. congruence. }
      rewrite Hnb. cbn [length]. rewrite Nat.add_0_r. by apply (ck_generations _ Hok).
  - exact Hent.
  - intros j k v. cbn. intros [Hj|[-> Hev]]%lookup_snoc; [|by apply (lo_applied _ _ _ _ _ _ _ _ _ _ Hl)].
    pose proof (ck_watermarks _ Hok _ _ _ Hj). pose proof (lo_versions _ _ _ _ _ _ _ _ _ _ Hl k). lia.
  - intros e r' keys since d. cbn. intros [He|[-> Hev]]%lookup_snoc.
    + destruct (ck_settled _ Hok _ _ _ _ _ He) as [Hle Hb]. split; [done|]. intros Hd k Hk. by apply (bumped_since_step _ _ _ _ _ Hstep), Hb.
    + destruct (Hset _ _ _ _ Hev) as (Hle & Hb & _). split; [done|]. intros Hd k Hk. by apply (bumped_since_step _ _ _ _ _ Hstep), Hb.
  - intros r' k f Hf. assert (Hbg : ∃ begin, begun s' r' k f begin ∧ settled_before r' k (length (sy_log s)) begin (sy_log s)).
    { destruct (st_flights _ _ _ _ _ Hstep _ _ _ Hf) as [Hold|Hnew].
      - destruct (ck_flights _ Hok _ _ _ Hold) as (begin & Hb & Hs). exists begin. split; [by eapply (st_begun _ _ _ _ _ Hstep)|done].
      - exists (length (sy_log s)). split; [done|]. intros e keys since d He Hx _. destruct (ck_settled _ Hok _ _ _ _ _ Hx). lia. }
    destruct Hbg as (begin & Hb & Hs). exists begin. split; [done|]. intros e keys since d _ Hx Hk. cbn in Hx. apply lookup_snoc in Hx as [Hx|[-> Hev]].
    + eapply Hs; [by eapply lookup_lt_Some|done..].
    + destruct (Hset _ _ _ _ Hev) as (_ & _ & Hfg). destruct (Hfg k f Hk Hf) as (begin' & (t1 & Ht1 & Hb1) & Hlt). destruct Hb as (t2 & Ht2 & Hb2). congruence.
  - intros i' r' t0 Hi'. destruct (decide (i' = i)) as [->|Hne].
    + rewrite thread_new in Hi'. by injection Hi' as <- <-.
    + destruct (decide (i' < length (sy_threads s))%nat) as [Hlt|Hge].
      * rewrite threads_stepped, decide_False in Hi' by done. apply (thread_ok_step _ _ _ _ _ Hstep); [done|by apply (ck_threads _ Hok)].
      * cbn in Hi'. rewrite lookup_app_r in Hi' by (rewrite length_insert; lia). rewrite length_insert in Hi'. destruct spawned as [t''|]; [|done].
        apply list_lookup_singleton_Some in Hi' as [He [= <- <-]]. replace i' with (length (sy_threads s)) by lia. by apply Hsp.
  - intros Hv. cbn. rewrite length_insert. by apply (ck_replicas _ Hok).
Qed.
End local.

(** ** Each step *)
Definition is_plain (ev : event) : Prop := match ev with EvBump _ _ | EvApplied _ _ => False | _ => True end.
(** A step that changes no generation and no watermark and starts no flight. *)
Lemma plain_local i r s rp rp' b' t t' ev : is_plain ev → rp_generations rp' = rp_generations rp →
  (∀ i' st, i' ≠ i → rp_locks rp !! st = Some i' → rp_locks rp' !! st = Some i') → (∀ k, bk_version b' k = bk_version (sy_backend s) k) →
  (∀ kb, flight_of t = Some kb → flight_of t' = Some kb) → sf_current (rp_group rp') ⊆ sf_current (rp_group rp) →
  local_step i r s rp rp' b' t t' None ev.
Proof.
  intros Hp Hg Hl Hv Hf Hc. constructor; try done.
  - intros st. unfold generation_of. rewrite Hg. by destruct ev.
  - by intros r' st ->.
  - intros k. by rewrite Hv.
  - by intros k v ->.
  - intros k f Hk. left. by eapply lookup_weaken.
Qed.
Lemma bump_local i r s rp st t t' : rp_locks rp !! st = Some i → (∀ kb, flight_of t = Some kb → flight_of t' = Some kb) →
  local_step i r s rp (bump st rp) (sy_backend s) t t' None (EvBump r st).
Proof.
  intros Hl Hf. constructor; try done.
  - intros st'. unfold generation_of, bump. cbn. rewrite Nat.eqb_refl. cbn. destruct (Z.eqb_spec st st') as [->|Hne]; [by rewrite lookup_insert_eq|by rewrite lookup_insert_ne].
  - intros r' st' [= <- <-]. done.
  - intros k f Hk. by left.
Qed.
Lemma lock_others i st rp i' st' : free st rp = true → rp_locks rp !! st' = Some i' → rp_locks (lock st i rp) !! st' = Some i'.
Proof. unfold free. intros Hf%bool_decide_eq_true_1 Hl. cbn. rewrite lookup_insert_ne; [done|congruence]. Qed.
Lemma fold_delete_other (l : list Z) (m : gmap Z nat) st : st ∉ l → fold_left (λ m x, delete x m) l m !! st = m !! st.
Proof.
  revert m. induction l as [|x l IH]; intros m Hst; [done|]. apply not_elem_of_cons in Hst as [Hne Hin]. cbn. rewrite IH by done. by rewrite lookup_delete_ne.
Qed.
Lemma unlock_others i stripes rp i' st : (∀ st, st ∈ stripes → rp_locks rp !! st = Some i) → i' ≠ i → rp_locks rp !! st = Some i' →
  rp_locks (unlock stripes rp) !! st = Some i'.
Proof.
  intros Hh Hne Hl. unfold unlock. cbn. rewrite fold_delete_other; [done|]. intros Hin. specialize (Hh _ Hin). congruence.
Qed.
Lemma entries_kept s b' ev : cache_ok s → bk_entries b' ⊆ bk_entries (sy_backend s) → (∀ k payload, bk_entries b' !! k = Some payload → harmless k ev) →
  ∀ k payload, bk_entries b' !! k = Some payload → origin_ok (length (sy_log s ++ [ev])) k payload (sy_log s ++ [ev]).
Proof.
  intros Hok Hsub Hh k payload Hk. apply origin_ok_harmless; [by eapply Hh|]. apply (ck_entries _ Hok). by eapply lookup_weaken.
Qed.
Lemma entries_wrote s b' o : cache_ok s → wrote bk_entries bk_version (or_key o) (or_payload o) (sy_backend s) b' → (or_tick o ≤ or_called o)%nat →
  (cf_versioned cfg = false → ∀ e keys since, sy_log s !! e = Some (EvSettled 0 keys since true) → or_key o ∈ keys → (since < or_tick o)%nat) →
  (cf_versioned cfg = true → ∀ j v, sy_log s !! j = Some (EvApplied (or_key o) v) → (j < or_called o)%nat) →
  ∀ k payload, bk_entries b' !! k = Some payload → origin_ok (length (sy_log s ++ [EvWrite o])) k payload (sy_log s ++ [EvWrite o]).
Proof.
  intros Hok [Hsub _] Hle Hs Ha k payload Hk. eapply lookup_weaken in Hk; [|exact Hsub]. destruct (decide (k = or_key o)) as [->|Hne].
  - rewrite lookup_insert_eq in Hk. injection Hk as <-. exists o. split; [apply elem_of_app; right; by left|]. do 3 (split; [done|]). split.
    + intros Hv e keys since _ [Hx|[_ ?]]%lookup_snoc; [|done]. by eapply Hs.
    + intros Hv j v _ [Hx|[_ ?]]%lookup_snoc; [|done]. by eapply Ha.
  - rewrite lookup_insert_ne in Hk by done. apply origin_ok_harmless; [done|]. by apply (ck_entries _ Hok).
Qed.
(** A write that may or may not have happened. *)
Lemma entries_maybe s b' o : cache_ok s →
  kept bk_entries bk_version (sy_backend s) b' ∨ wrote bk_entries bk_version (or_key o) (or_payload o) (sy_backend s) b' → (or_tick o ≤ or_called o)%nat →
  (cf_versioned cfg = false → ∀ e keys since, sy_log s !! e = Some (EvSettled 0 keys since true) → or_key o ∈ keys → (since < or_tick o)%nat) →
  (cf_versioned cfg = true → ∀ j v, sy_log s !! j = Some (EvApplied (or_key o) v) → (j < or_called o)%nat) →
  ∀ k payload, bk_entries b' !! k = Some payload → origin_ok (length (sy_log s ++ [EvWrite o])) k payload (sy_log s ++ [EvWrite o]).
Proof. intros Hok [[Hk _]|Hw] Hle Hs Ha; [by apply entries_kept|by apply entries_wrote; auto]. Qed.
Lemma read_kept cause now k b answer b' : read cfg cause now k b = (answer, b') → kept bk_entries bk_version b b' ∧
  (∀ payload found, answer = Ok (Some (payload, found)) → bk_entries b !! k = Some payload).
Proof.
  unfold read. pose proof (get_law cause now k b) as Hlaw. destruct (bk_Get cause now k b) as [[p|err] b1].
  - destruct Hlaw as [He Hk]. intros [= <- <-]. split; [done|]. intros payload found. by destruct (decode_envelope cfg p); intros [= <- <-].
  - intros [= <- <-]. split; [done|]. intros payload found. by destruct (is_error ErrMiss err).
Qed.

Lemma quiet_ok i r s rp rp' b' t t' : cache_ok s → sy_threads s !! i = Some (r, t) → sy_replicas s !! r = Some rp →
  rp_generations rp' = rp_generations rp → (∀ i' st, i' ≠ i → rp_locks rp !! st = Some i' → rp_locks rp' !! st = Some i') →
  kept bk_entries bk_version (sy_backend s) b' → (∀ kb, flight_of t = Some kb → flight_of t' = Some kb) →
  sf_current (rp_group rp') ⊆ sf_current (rp_group rp) →
  (step_of i r s (stepped i r s rp' b' t' None EvNone) EvNone → thread_ok (stepped i r s rp' b' t' None EvNone) i r t') →
  cache_ok (stepped i r s rp' b' t' None EvNone).
Proof.
  intros Hok Ht Hr Hg Hl [Hsub Hv] Hf Hc Hth. assert (Hloc : local_step i r s rp rp' b' t t' None EvNone) by by apply plain_local.
  eapply stepped_ok; try done.
  - by apply entries_kept.
  - apply Hth. by eapply local_is_step.
Qed.

Lemma get_ok i r s rp e b' rp' t t' sp ev : cache_ok s → sy_threads s !! i = Some (r, t) → sy_replicas s !! r = Some rp →
  get_step cfg i (length (sy_log s)) (sy_now s) (sy_threads s) e (sy_backend s) rp t = Some (b', rp', t', sp, ev) →
  cache_ok (stepped i r s rp' b' t' sp ev).
Proof.
  intros Hok Ht Hr. pose proof (ck_threads _ Hok _ _ _ Ht) as Hth. destruct t as [k begin|k begin|k begin f| | | | | | | | | | | | | | | | | | | | | | | | | | ]; try done; cbn [get_step].
  - destruct (read cfg (ev_cause e) (sy_now s) k (sy_backend s)) as [answer b1] eqn:Hrd. apply read_kept in Hrd as [Hk Hp]. cbn in Hth.
    assert (Hquiet : ∀ t', flight_of t' = None → (step_of i r s (stepped i r s rp b1 t' None EvNone) EvNone → thread_ok (stepped i r s rp b1 t' None EvNone) i r t') →
      cache_ok (stepped i r s rp b1 t' None EvNone)) by (intros; by eapply quiet_ok).
    assert (Hlen : (begin < length (sy_log s ++ [EvNone]))%nat) by (rewrite length_app; lia).
    destruct answer as [[[payload found]|]|err]; unfold quietly; [| |destruct (FailOpen cfg)]; intros [= <- <- <- <- <-]; apply Hquiet; try done.
    intros _. split; [done|]. cbn. apply origin_ok_grow; [lia|]. eapply origin_ok_le; [|by apply (ck_entries _ Hok), (Hp payload found)]. lia.
  - pose proof (sf_DoChan_law k (length (sy_threads s)) (rp_group rp)) as Hlaw. destruct (sf_DoChan k (length (sy_threads s)) (rp_group rp)) as [[f|] g]; cbn in Hth.
    + destruct Hlaw as [Hcur Hg]. intros [= <- <- <- <- <-]. eapply quiet_ok; try done; [cbn; by rewrite Hg|]. intros Hstep. cbn. rewrite length_app. split; [lia|].
      destruct (ck_flights _ Hok r k f) as (m & Hb & Hs); [by rewrite (flights_of_here _ _ _ Hr)|]. exists m. split; [by eapply (st_begun _ _ _ _ _ Hstep)|].
      apply settled_before_grow; [lia|]. intros e' keys since d He. apply Hs. lia.
    + intros [= <- <- <- <- <-].
      assert (Hloc : local_step i r s rp (with_group (λ _, g) rp) (sy_backend s) (GetJoin k begin) (GetWait k begin (length (sy_threads s))) (Some (FlGeneration k (length (sy_log s)))) EvNone).
      { constructor; try done. intros k' f'. cbn. rewrite Hlaw. destruct (decide (k' = k)) as [->|Hne]; [rewrite lookup_insert_eq|rewrite lookup_insert_ne by done; by left].
        intros [= <-]. right. split; [done|]. eexists. by split. }
      eapply stepped_ok; try done.
      * by apply entries_kept.
      * cbn. rewrite length_app. split; [lia|]. exists (length (sy_log s)). split; [eexists; split; [by apply thread_spawned|done]|].
        apply settled_before_grow; [lia|]. intros e' keys since d He Hx _. destruct (ck_settled _ Hok _ _ _ _ _ Hx). lia.
      * intros t'' [= <-]. cbn. rewrite length_app. cbn. lia.
  - destruct Hth as [Hlt (m & (tf & Htf & Hbf) & Hs)]. cbn in Hlt, Hs.
    assert (Hquiet : ∀ ans src, (step_of i r s (stepped i r s rp (sy_backend s) (GetDone k begin ans src) None EvNone) EvNone → answer_ok (stepped i r s rp (sy_backend s) (GetDone k begin ans src) None EvNone) r k begin src) →
      cache_ok (stepped i r s rp (sy_backend s) (GetDone k begin ans src) None EvNone)).
    { intros ans src Ha. eapply quiet_ok; try done. intros Hstep. split; [cbn; rewrite length_app; lia|auto]. }
    destruct (ev_cause e); [intros [= <- <- <- <- <-]; by apply Hquiet|]. rewrite Htf. destruct tf as [ | | | | | | | | | | | |k' begin' ans src| | | | | | | | | | | | | | | | ]; try done.
    injection Hbf as -> ->. intros [= <- <- <- <- <-]. apply Hquiet. intros _. pose proof (ck_threads _ Hok _ _ _ Htf) as [Hlt' Hsrc].
    unfold answer_ok. cbn [sy_log stepped]. destruct src as [[p|p|called]|]; cbn in Hsrc; try done.
    + intros Hv. exists m. cbn in Hlt'. rewrite length_app. split; [lia|]. split; [apply settled_before_grow; [lia|done]|]. apply origin_ok_grow; [lia|auto].
    + apply settled_before_grow; [lia|]. intros e' keys since d He Hx Hk. specialize (Hs e' keys since d He Hx Hk). lia.
Qed.

(** A flight whose write went through saw the last watermark. *)
Lemma flight_watermark s r fl w : cache_ok s → flight_ok s r fl → fl_version fl = Some w → bk_version (sy_backend s) (fl_key fl) = w →
  ∀ j v, sy_log s !! j = Some (EvApplied (fl_key fl) v) → (j < fl_called fl)%nat.
Proof.
  intros Hok (_ & Hs & _ & _ & Hv) Hw Heq j v Hj. destruct (Hv w Hw) as [_ Hk]. pose proof (ck_watermarks _ Hok _ _ _ Hj).
  destruct (decide (fl_seen fl ≤ j)%nat) as [Hge|]; [|lia]. specialize (Hk j v Hj Hge). lia.
Qed.
Lemma settled_before_tick s k n : cache_ok s → no_bump 0 (mutationStripeIndex k) n (sy_log s) →
  ∀ e keys since, sy_log s !! e = Some (EvSettled 0 keys since true) → k ∈ keys → (since < n)%nat.
Proof.
  intros Hok Hnb e keys since He Hk. destruct (ck_settled _ Hok _ _ _ _ _ He) as [_ Hb]. destruct (Hb eq_refl k Hk) as (j & Hj & Hx). specialize (Hnb j Hx). lia.
Qed.
Lemma replica_zero s r rp : cache_ok s → sy_replicas s !! r = Some rp → cf_versioned cfg = false → r = 0%nat.
Proof. intros Hok Hr Hv. apply lookup_lt_Some in Hr. pose proof (ck_replicas _ Hok Hv). lia. Qed.

(** The last step of a flight that holds its stripe. *)
Lemma write_ok i r s rp rp' b' fl loaded ans ev : cache_ok s → sy_threads s !! i = Some (r, FlWrite fl loaded) → sy_replicas s !! r = Some rp →
  rp_generations rp' = rp_generations rp → rp_locks rp' = rp_locks (unlock [mutationStripeIndex (fl_key fl)] rp) → rp_group rp' = rp_group rp →
  (∀ k, bk_version b' k = bk_version (sy_backend s) k) →
  (ev = EvNone ∧ kept bk_entries bk_version (sy_backend s) b' ∨
   ∃ payload, let o := mkOrigin (fl_key fl) payload (fl_tick fl) (fl_called fl) (fl_version fl) in ev = EvWrite o ∧
     (kept bk_entries bk_version (sy_backend s) b' ∨ wrote bk_entries bk_version (fl_key fl) payload (sy_backend s) b') ∧
     (kept bk_entries bk_version (sy_backend s) b' ∨ cf_versioned cfg = false ∨ fl_version fl = Some (bk_version (sy_backend s) (fl_key fl)))) →
  cache_ok (stepped i r s rp' b' (FlReturn (fl_key fl) (fl_begin fl) ans (Some (FromLoad (fl_called fl)))) None ev).
Proof.
  intros Hok Ht Hr Hg Hl Hc Hv Hev. pose proof (ck_threads _ Hok _ _ _ Ht) as (Hfl & Hh & Hnb). pose proof Hfl as (Hb & Hs & Hlen & _).
  assert (Hloc : local_step i r s rp rp' b' (FlWrite fl loaded) (FlReturn (fl_key fl) (fl_begin fl) ans (Some (FromLoad (fl_called fl)))) None ev).
  { apply plain_local; try done; [by destruct Hev as [[-> _]|(payload & -> & _)]| |by rewrite Hc].
    intros i' st Hne Hi. rewrite Hl. eapply unlock_others; [|done..]. intros st' Hin. rewrite <- (locks_of_here _ _ _ Hr). by apply Hh. }
  eapply stepped_ok; try done.
  - destruct Hev as [[-> Hk]|(payload & -> & Hw & Hx)]; [apply entries_kept; [done|apply Hk|done]|].
    destruct Hx as [Hk|Hx]; [apply entries_kept; [done|apply Hk|done]|]. apply entries_maybe; cbn [or_key or_payload or_tick or_called]; try done; [lia| |].
    + intros Hu. rewrite (replica_zero _ _ _ Hok Hr Hu) in Hnb. by apply settled_before_tick.
    + intros Hvs. destruct Hx as [Hx|Hx]; [congruence|]. by eapply flight_watermark.
  - by destruct Hev as [[-> _]|(payload & -> & _)].
  - cbn. rewrite length_app. cbn. split; [lia|]. lia.
Qed.

Lemma flight_steps_ok i r s rp e b' rp' t t' sp ev : cache_ok s → sy_threads s !! i = Some (r, t) → sy_replicas s !! r = Some rp →
  (length (sy_log s) ≤ Z.to_nat max_u64)%nat →
  flight_step cfg i r (length (sy_log s)) (sy_now s) e (sy_backend s) rp t = Some (b', rp', t', sp, ev) →
  cache_ok (stepped i r s rp' b' t' sp ev).
Proof.
  intros Hok Ht Hr Hmax. pose proof (ck_threads _ Hok _ _ _ Ht) as Hth.
  destruct t as [ | | | |k begin|fl|fl|fl|fl|fl loaded|fl loaded|k begin ans src| | | | | | | | | | | | | | | | | ]; try done; cbn [flight_step store_step].
  - intros [= <- <- <- <- <-]. eapply quiet_ok; try done. intros _. cbn in Hth. unfold thread_ok, flight_ok. cbn. rewrite length_app, take_app_length. split; [lia|]. split; [lia|].
    split; [lia|]. split; [|done]. by apply (ck_generations _ Hok).
  - destruct (read cfg (ev_cause e) (sy_now s) (fl_key fl) (sy_backend s)) as [answer b1] eqn:Hrd. apply read_kept in Hrd as [Hk Hp].
    assert (Hnext : cache_ok (stepped i r s rp b1 (if cf_versioned cfg then FlVersion fl else FlLoad fl) None EvNone)).
    { eapply quiet_ok; try done; [by destruct (cf_versioned cfg)|]. intros Hstep. apply (flight_ok_step _ _ _ _ _ Hstep) in Hth. by destruct (cf_versioned cfg). }
    assert (Hfin : ∀ ans src, source_ok (stepped i r s rp b1 (FlReturn (fl_key fl) (fl_begin fl) ans src) None EvNone) (fl_key fl) (fl_begin fl) src →
      cache_ok (stepped i r s rp b1 (FlReturn (fl_key fl) (fl_begin fl) ans src) None EvNone)).
    { intros ans src Hsrc. eapply quiet_ok; try done. intros _. split; [|done]. cbn. rewrite length_app. destruct Hth as (Hb & _ & Hl & _). cbn. lia. }
    destruct answer as [[[payload found]|]|err]; [| |destruct (FailOpen cfg)]; intros [= <- <- <- <- <-]; try done; apply Hfin; [|done].
    cbn. intros Hv. destruct Hth as (Hb & _ & Hl & _). apply origin_ok_grow; [lia|]. eapply origin_ok_le; [|by apply (ck_entries _ Hok), (Hp payload found)]. lia.
  - pose proof (current_law (ev_cause e) (sy_now s) (fl_key fl) (sy_backend s)) as Hlaw.
    destruct (bk_CurrentVersion (ev_cause e) (sy_now s) (fl_key fl) (sy_backend s)) as [[w|err] b1].
    + destruct Hlaw as [-> Hk]. intros [= <- <- <- <- <-]. eapply quiet_ok; try done. intros Hstep. destruct Hth as (Hb & Hs & Hl & Hg & Hv). unfold thread_ok, flight_ok. cbn.
      rewrite length_app. split; [lia|]. split; [lia|]. split; [lia|]. split; [by rewrite take_app_le by lia|]. intros w [= <-]. destruct Hk as [_ Hvs]. rewrite Hvs. split; [done|].
      intros j v [Hj|[_ ?]]%lookup_snoc Hge; [|done]. apply lookup_lt_Some in Hj. lia.
    + destruct (FailOpen cfg); intros [= <- <- <- <- <-]; (eapply quiet_ok; [try done..|]); intros Hstep; [by apply (flight_ok_step _ _ _ _ _ Hstep)|].
      cbn. rewrite length_app. destruct Hth as (Hb & _ & Hl & _). cbn. split; [lia|done].
  - intros [= <- <- <- <- <-]. eapply quiet_ok; try done. intros Hstep. apply (flight_ok_step _ _ _ _ _ Hstep) in Hth as Hth'. destruct Hth as (Hb & Hs & Hl & _).
    destruct Hth' as (_ & _ & _ & Hg & Hv). unfold thread_ok, flight_ok. cbn [fl_begin fl_tick fl_called fl_seen fl_generation fl_version fl_key]. rewrite (len_step _ _ _ _ _ Hstep).
    split; [lia|]. split; [lia|]. split; [lia|]. by split.
  - assert (Hlock : ∀ loaded, cache_ok (stepped i r s rp (sy_backend s) (FlLock fl loaded) None EvNone)).
    { intros loaded. eapply quiet_ok; try done. intros Hstep. by apply (flight_ok_step _ _ _ _ _ Hstep). }
    destruct (ev_load e) as [value|err]; [|destruct (is_negative cfg err)]; intros [= <- <- <- <- <-]; try done. eapply quiet_ok; try done. intros _.
    cbn. rewrite length_app. destruct Hth as (Hb & _ & Hl & _). cbn. split; lia.
  - destruct (free (mutationStripeIndex (fl_key fl)) rp) eqn:Hfree; [|done]. destruct (Z.eqb_spec (generation_of rp (mutationStripeIndex (fl_key fl))) (fl_generation fl)) as [Hgen|]; cbn [negb].
    + intros [= <- <- <- <- <-]. eapply quiet_ok; try done; [intros i' st _; by apply lock_others|]. intros Hstep. split; [by apply (flight_ok_step _ _ _ _ _ Hstep)|]. split.
      * intros st ->%list_elem_of_singleton. rewrite (locks_of_stepped _ _ _ _ _ _ _ _ _ Hr), decide_True by done. cbn. by rewrite lookup_insert_eq.
      * cbn [sy_log stepped]. assert (Hnb : no_bump r (mutationStripeIndex (fl_key fl)) (fl_tick fl) (sy_log s)).
        { apply same_generation; [done|]. rewrite <- (ck_generations _ Hok _ _ _ Hr), Hgen. apply Hth. }
        intros j [Hj|[_ ?]]%lookup_snoc; [by apply Hnb|done].
    + intros [= <- <- <- <- <-]. eapply quiet_ok; try done. intros _. cbn. rewrite length_app. destruct Hth as (Hb & _ & Hl & _). cbn. split; lia.
  - assert (Hnone : ∀ ans rp', rp_generations rp' = rp_generations rp → rp_locks rp' = rp_locks (unlock [mutationStripeIndex (fl_key fl)] rp) → rp_group rp' = rp_group rp →
      ∀ b1, kept bk_entries bk_version (sy_backend s) b1 → cache_ok (stepped i r s rp' b1 (FlReturn (fl_key fl) (fl_begin fl) ans (Some (FromLoad (fl_called fl)))) None EvNone)).
    { intros ans rp1 Hg Hl Hc b1 Hk. eapply write_ok; try done; [apply Hk|by left]. }
    destruct (envelope_of cfg loaded) as [payload|err]; [|intros [= <- <- <- <- <-]; by apply Hnone]. destruct (cf_versioned cfg) eqn:Hv; cbn [negb].
    + destruct (fl_version fl) as [w|] eqn:Hw; [|intros [= <- <- <- <- <-]; by apply Hnone].
      match goal with |- context [bk_SetIfVersion ?c ?n ?k ?p ?ttl ?w ?b] => pose proof (set_if_law c n k p ttl w b) as Hlaw; destruct (bk_SetIfVersion c n k p ttl w b) as [[[]|err] b1] end.
      * destruct Hlaw as [Hbw Hwr]. intros [= <- <- <- <- <-]. eapply write_ok; try done; [apply Hwr|]. right. exists payload. split; [by rewrite Hw|]. split; [by right|]. right. right. by rewrite Hbw.
      * intros [= <- <- <- <- <-]. by apply Hnone.
      * intros [= <- <- <- <- <-]. eapply write_ok; try done; [by destruct Hlaw as [Hx|[_ Hx]]; apply Hx|]. right. exists payload. split; [by rewrite Hw|].
        destruct Hlaw as [Hk|[Hbw Hwr]]; [split; by left|]. split; [by right|]. right. right. by rewrite Hbw.
    + match goal with |- context [bk_Set ?c ?n ?k ?p ?ttl ?b] => pose proof (set_law c n k p ttl b) as Hlaw; destruct (bk_Set c n k p ttl b) as [err b1] end.
      assert (Hw : kept bk_entries bk_version (sy_backend s) b1 ∨ wrote bk_entries bk_version (fl_key fl) payload (sy_backend s) b1) by (destruct err; [done|by right]).
      intros [= <- <- <- <- <-]. eapply write_ok; try done; [by destruct Hw as [Hx|Hx]; apply Hx|]. right. exists payload. split; [done|]. split; [done|]. right. by left.
  - intros [= <- <- <- <- <-]. eapply quiet_ok; try done; [apply sf_Done_law|]. intros Hstep. destruct Hth as [Hlt Hsrc]. split; [rewrite (len_step _ _ _ _ _ Hstep); cbn in Hlt; lia|].
    by apply (source_ok_step _ _ _ _ _ Hstep).
Qed.

Lemma holds_here s r rp i stripes : sy_replicas s !! r = Some rp → holds s r i stripes → ∀ st, st ∈ stripes → rp_locks rp !! st = Some i.
Proof. intros Hr Hh st Hin. rewrite <- (locks_of_here _ _ _ Hr). by apply Hh. Qed.
Lemma holds_stepped i r s rp rp' b' t' sp ev stripes : sy_replicas s !! r = Some rp → (∀ st, st ∈ stripes → rp_locks rp' !! st = Some i) →
  holds (stepped i r s rp' b' t' sp ev) r i stripes.
Proof. intros Hr Hh st Hin. rewrite (locks_of_stepped _ _ _ _ _ _ _ _ _ Hr), decide_True by done. by apply Hh. Qed.
Lemma no_bump_quiet r st n log ev : ev ≠ EvBump r st → no_bump r st n log → no_bump r st n (log ++ [ev]).
Proof. intros Hev Hb j [Hj|[_ ?]]%lookup_snoc; [by apply Hb|done]. Qed.
Lemma no_bump_own r st log : no_bump r st (S (length log)) (log ++ [EvBump r st]).
Proof. intros j [Hj|[-> _]]%lookup_snoc; [apply lookup_lt_Some in Hj|]; lia. Qed.
(** A generation is raised by the holder of its stripe. *)
Lemma bump_ok i r s rp st t t' : cache_ok s → sy_threads s !! i = Some (r, t) → sy_replicas s !! r = Some rp → rp_locks rp !! st = Some i →
  (∀ kb, flight_of t = Some kb → flight_of t' = Some kb) →
  (step_of i r s (stepped i r s (bump st rp) (sy_backend s) t' None (EvBump r st)) (EvBump r st) →
   thread_ok (stepped i r s (bump st rp) (sy_backend s) t' None (EvBump r st)) i r t') →
  cache_ok (stepped i r s (bump st rp) (sy_backend s) t' None (EvBump r st)).
Proof.
  intros Hok Ht Hr Hl Hf Hth. assert (Hloc : local_step i r s rp (bump st rp) (sy_backend s) t t' None (EvBump r st)) by by apply bump_local.
  eapply stepped_ok; try done; [by apply entries_kept|]. apply Hth. by eapply local_is_step.
Qed.

Lemma set_ok i r s rp e b' rp' t t' sp ev : cache_ok s → sy_threads s !! i = Some (r, t) → sy_replicas s !! r = Some rp →
  set_step cfg i r (length (sy_log s)) (sy_now s) e (sy_backend s) rp t = Some (b', rp', t', sp, ev) →
  cache_ok (stepped i r s rp' b' t' sp ev).
Proof.
  intros Hok Ht Hr. pose proof (ck_threads _ Hok _ _ _ Ht) as Hth.
  destruct t as [ | | | | | | | | | | | | |k value|k value|k value tick|k value tick|k envelope ttl tick seen w| | | | | | | | | | | ]; try done; cbn [set_step set_store_step].
  - destruct (free (mutationStripeIndex k) rp) eqn:Hfree; [|done]. intros [= <- <- <- <- <-]. eapply quiet_ok; try done; [intros i' st _; by apply lock_others|]. intros _.
    eapply holds_stepped; [done|]. intros st ->%list_elem_of_singleton. cbn. by rewrite lookup_insert_eq.
  - cbn in Hth. pose proof (holds_here _ _ _ _ _ Hr Hth) as Hh. intros [= <- <- <- <- <-]. eapply bump_ok; try done; [apply Hh; by left|]. intros Hstep.
    split; [by eapply holds_stepped|]. rewrite (len_step _ _ _ _ _ Hstep). split; [lia|]. apply no_bump_own.
  - destruct Hth as (Hh0 & Hlt & Hb). pose proof (holds_here _ _ _ _ _ Hr Hh0) as Hh. intros [= <- <- <- <- <-]. eapply quiet_ok; try done; [cbn; rewrite sf_Forget_law; apply delete_subseteq|]. intros Hstep.
    split; [by eapply holds_stepped|]. rewrite (len_step _ _ _ _ _ Hstep). split; [cbn in Hlt; lia|]. by apply no_bump_quiet.
  - destruct Hth as (Hh0 & Hlt & Hb). pose proof (holds_here _ _ _ _ _ Hr Hh0) as Hh. cbn in Hlt, Hb.
    assert (Hfin : ∀ b1 f ans, kept bk_entries bk_version (sy_backend s) b1 → cache_ok (stepped i r s (unlock [mutationStripeIndex k] (count f rp)) b1 (SetDone ans) None EvNone)).
    { intros b1 f ans Hk. eapply quiet_ok; try done. intros i' st. by apply (unlock_others i _ (count f rp)). }
    destruct (cd_Encode (cf_codec cfg) value) as [payload|err]; [|intros [= <- <- <- <- <-]; eapply quiet_ok; try done; intros i' st; by apply unlock_others].
    destruct (cf_versioned cfg) eqn:Hv; cbn [negb].
    + match goal with |- context [bk_CurrentVersion ?c ?n ?k ?b] => pose proof (current_law c n k b) as Hlaw; destruct (bk_CurrentVersion c n k b) as [[w|err] b1] end.
      * destruct Hlaw as [-> Hk]. intros [= <- <- <- <- <-]. eapply quiet_ok; try done. intros Hstep. split; [by eapply holds_stepped|]. rewrite (len_step _ _ _ _ _ Hstep). split; [lia|].
        cbn [sy_log sy_backend stepped]. split; [by apply no_bump_quiet|]. destruct Hk as [_ Hvs]. rewrite Hvs. split; [done|].
        intros j v [Hj|[_ ?]]%lookup_snoc Hge; [|done]. apply lookup_lt_Some in Hj. lia.
      * intros [= <- <- <- <- <-]. by apply Hfin.
    + match goal with |- context [bk_Set ?c ?n ?k ?p ?ttl ?b] => pose proof (set_law c n k p ttl b) as Hlaw; destruct (bk_Set c n k p ttl b) as [err b1] end.
      assert (Hw : kept bk_entries bk_version (sy_backend s) b1 ∨ wrote bk_entries bk_version k (String envelopeValue payload) (sy_backend s) b1) by (destruct err; [done|by right]).
      intros [= <- <- <- <- <-]. eapply stepped_ok; try done.
      * apply plain_local; try done; [|by destruct Hw as [Hx|Hx]; apply Hx]. intros i' st. by apply unlock_others.
      * apply entries_maybe; cbn [or_key or_payload or_tick or_called]; try done; [|congruence]. intros _. rewrite (replica_zero _ _ _ Hok Hr Hv) in Hb. by apply settled_before_tick.
  - destruct Hth as (Hh0 & Hlt & Hb & Hw & Hk). pose proof (holds_here _ _ _ _ _ Hr Hh0) as Hh. cbn in Hlt, Hb, Hw, Hk.
    match goal with |- context [bk_SetIfVersion ?c ?n ?k ?p ?ttl ?w ?b] => pose proof (set_if_law c n k p ttl w b) as Hlaw; destruct (bk_SetIfVersion c n k p ttl w b) as [answer b1] end.
    set (o := mkOrigin k envelope (S tick) seen (Some w)).
    assert (Hdone : ∀ ans, kept bk_entries bk_version (sy_backend s) b1 ∨ bk_version (sy_backend s) k = w ∧ wrote bk_entries bk_version k envelope (sy_backend s) b1 →
      cache_ok (stepped i r s (unlock [mutationStripeIndex k] rp) b1 (SetDone ans) None (EvWrite o))).
    { intros ans Hx. eapply stepped_ok; try done.
      - apply plain_local; try done; [|by destruct Hx as [Hx|[_ Hx]]; apply Hx]. intros i' st. by apply unlock_others.
      - destruct Hx as [Hx|[Heq Hx]]; [apply entries_kept; [done|apply Hx|done]|]. apply entries_wrote; cbn [or_key or_payload or_tick or_called o]; try done; [lia| |].
        + intros Hv. rewrite (replica_zero _ _ _ Hok Hr Hv) in Hb. by apply settled_before_tick.
        + intros _ j v Hj. pose proof (ck_watermarks _ Hok _ _ _ Hj). destruct (decide (seen ≤ j)%nat) as [Hge|]; [|lia]. specialize (Hk j v Hj Hge). lia. }
    destruct answer as [[]|err]; intros [= <- <- <- <- <-]; [apply Hdone; by right| |by apply Hdone].
    eapply quiet_ok; try done. intros i' st. by apply (unlock_others i _ (count add_stale_write rp)).
Qed.

Lemma elem_of_stripes k keys : k ∈ keys → mutationStripeIndex k ∈ stripes_of keys.
Proof. intros Hk. unfold stripes_of. rewrite merge_sort_Permutation, elem_of_elements, elem_of_list_to_set. by apply list_elem_of_fmap_2. Qed.
Lemma bumped_own r st n log : (n ≤ length log)%nat → bumped_since r st n (log ++ [EvBump r st]).
Proof. intros Hn. exists (length log). split; [done|]. by rewrite lookup_app_r, Nat.sub_diag by lia. Qed.
Lemma forgotten_forget i r s rp b' t' ev keys k n g : sy_replicas s !! r = Some rp → step_of i r s (stepped i r s g b' t' None ev) ev →
  (n < length (sy_log s))%nat → sf_current (rp_group g) = delete k (sf_current (rp_group rp)) → forgotten s r keys n →
  forgotten (stepped i r s g b' t' None ev) r (keys ++ [k]) n.
Proof.
  intros Hr Hstep Hn Hg Hf k' f [Hin|Hin]%elem_of_app Hc; [by apply (forgotten_step _ _ _ _ _ Hstep r keys n Hn Hf)|].
  apply list_elem_of_singleton in Hin as ->. rewrite (flights_of_stepped _ _ _ _ _ _ _ _ _ Hr), decide_True, Hg, lookup_delete_eq in Hc by done. done.
Qed.

Lemma invalidate_ok i r s rp e b' rp' t t' sp ev : cache_ok s → sy_threads s !! i = Some (r, t) → sy_replicas s !! r = Some rp →
  invalidate_step i r (length (sy_log s)) (sy_now s) e (sy_backend s) rp t = Some (b', rp', t', sp, ev) →
  cache_ok (stepped i r s rp' b' t' sp ev).
Proof.
  intros Hok Ht Hr. pose proof (ck_threads _ Hok _ _ _ Ht) as Hth.
  destruct t as [ | | | | | | | | | | | | | | | | | | |observe keys begin todo|observe keys begin todo|observe keys begin todo|keys begin| | | | | | ]; try done.
  - destruct Hth as (Hlt & done & Hd & Hh). cbn in Hlt. pose proof (holds_here _ _ _ _ _ Hr Hh) as Hh'. destruct todo as [|st todo]; cbn [invalidate_step].
    + rewrite app_nil_r in Hd. subst done. intros [= <- <- <- <- <-]. eapply quiet_ok; try done. intros Hstep. split; [rewrite (len_step _ _ _ _ _ Hstep); lia|].
      split; [by eapply holds_stepped|]. exists []. split; [done|]. by intros st ?%not_elem_of_nil.
    + destruct (free st rp) eqn:Hfree; [|done]. intros [= <- <- <- <- <-]. eapply quiet_ok; try done; [intros i' st' _; by apply lock_others|]. intros Hstep.
      split; [rewrite (len_step _ _ _ _ _ Hstep); lia|]. exists (done ++ [st]). split; [by rewrite <- app_assoc|]. eapply holds_stepped; [done|].
      intros st' [Hin|Hin]%elem_of_app; [apply lock_others; [done|by apply Hh']|]. apply list_elem_of_singleton in Hin as ->. cbn. by rewrite lookup_insert_eq.
  - destruct Hth as (Hlt & Hh & done & Hd & Hb). cbn in Hlt, Hb. pose proof (holds_here _ _ _ _ _ Hr Hh) as Hh'. destruct todo as [|st todo]; cbn [invalidate_step].
    + rewrite app_nil_r in Hd. subst done. intros [= <- <- <- <- <-]. eapply quiet_ok; try done. intros Hstep. split; [rewrite (len_step _ _ _ _ _ Hstep); lia|].
      split; [by eapply holds_stepped|]. split; [intros st Hin; by apply (bumped_since_step _ _ _ _ _ Hstep), Hb|]. exists []. split; [done|]. by intros k f ?%not_elem_of_nil.
    + intros [= <- <- <- <- <-]. eapply bump_ok; try done; [apply Hh'; rewrite Hd; apply elem_of_app; right; by left|]. intros Hstep.
      split; [rewrite (len_step _ _ _ _ _ Hstep); lia|]. split; [by eapply holds_stepped|]. exists (done ++ [st]). split; [by rewrite <- app_assoc|].
      intros st' [Hin|Hin]%elem_of_app; [by apply (bumped_since_step _ _ _ _ _ Hstep), Hb|]. apply list_elem_of_singleton in Hin as ->. apply bumped_own. lia.
  - destruct Hth as (Hlt & Hh & Hb & done & Hd & Hf). cbn in Hlt, Hb. pose proof (holds_here _ _ _ _ _ Hr Hh) as Hh'. destruct todo as [|k todo]; cbn [invalidate_step].
    + rewrite app_nil_r in Hd. subst done. destruct observe; intros [= <- <- <- <- <-].
      * assert (Hloc : local_step i r s rp (unlock (stripes_of keys) (count (add_observed (zlen keys)) rp)) (sy_backend s) (InvForget true keys begin []) (InvDone (Ok 0)) None (EvSettled r keys begin false)).
        { apply plain_local; try done. intros i' st. by apply (unlock_others i _ (count (add_observed (zlen keys)) rp)). }
        pose proof (local_is_step _ _ _ _ _ _ _ _ _ _ Ht Hr Hloc) as Hstep. eapply stepped_ok; try done.
        -- apply entries_kept; try done. intros k payload _. cbn. by destruct r.
        -- intros r' keys' since d [= <- <- <- <-]. split; [lia|]. split; [done|]. apply (forgotten_step _ _ _ _ _ Hstep); [lia|done].
      * eapply quiet_ok; try done. intros Hstep. split; [rewrite (len_step _ _ _ _ _ Hstep); lia|]. split; [by eapply holds_stepped|].
        split; [intros st Hin; by apply (bumped_since_step _ _ _ _ _ Hstep), Hb|]. apply (forgotten_step _ _ _ _ _ Hstep); [lia|done].
    + intros Heq. assert (Hx : (sy_backend s, with_group (sf_Forget k) rp, InvForget observe keys begin todo, None, EvNone) = (b', rp', t', sp, ev)) by (destruct observe; by injection Heq as <- <- <- <- <-).
      injection Hx as <- <- <- <- <-. assert (Hcur : sf_current (rp_group (with_group (sf_Forget k) rp)) = delete k (sf_current (rp_group rp))) by apply sf_Forget_law.
      eapply quiet_ok; try done; [rewrite Hcur; apply delete_subseteq|]. intros Hstep.
      split; [rewrite (len_step _ _ _ _ _ Hstep); lia|]. split; [by eapply holds_stepped|]. split; [intros st Hin; by apply (bumped_since_step _ _ _ _ _ Hstep), Hb|].
      exists (done ++ [k]). split; [by rewrite <- app_assoc|]. by eapply forgotten_forget.
  - destruct Hth as (Hlt & Hh & Hb & Hf). cbn in Hlt, Hb. pose proof (holds_here _ _ _ _ _ Hr Hh) as Hh'. cbn [invalidate_step].
    match goal with |- context [bk_Delete ?c ?n ?k ?b] => pose proof (delete_law c n k b) as Hlaw; destruct (bk_Delete c n k b) as [[n0|err] b1] end; intros [= <- <- <- <- <-].
    + destruct Hlaw as [Hk Hdel]. cbn [is_ok].
      assert (Hloc : local_step i r s rp (unlock (stripes_of keys) (count (add_invalidations (zlen keys)) rp)) b1 (InvDelete keys begin) (InvDone (Ok n0)) None (EvSettled r keys begin true)).
      { apply plain_local; try done; [|apply Hk]. intros i' st. by apply (unlock_others i _ (count (add_invalidations (zlen keys)) rp)). }
      pose proof (local_is_step _ _ _ _ _ _ _ _ _ _ Ht Hr Hloc) as Hstep. eapply stepped_ok; try done.
      * apply entries_kept; [done|apply Hk|]. intros k payload Hin. cbn. destruct r; [|done]. intros Hkk. rewrite (Hdel k Hkk) in Hin. done.
      * intros r' keys' since d [= <- <- <- <-]. split; [lia|]. split; [intros _ k Hk'; by apply Hb, elem_of_stripes|]. apply (forgotten_step _ _ _ _ _ Hstep); [lia|done].
    + cbn [is_ok]. eapply quiet_ok; try done. intros i' st. by apply (unlock_others i _ (count (add_invalidations (zlen keys)) rp)).
Qed.

Lemma version_ok i r s rp e b' rp' t t' sp ev : cache_ok s → sy_threads s !! i = Some (r, t) → sy_replicas s !! r = Some rp →
  version_step i r (length (sy_log s)) (sy_now s) e (sy_backend s) rp t = Some (b', rp', t', sp, ev) →
  cache_ok (stepped i r s rp' b' t' sp ev).
Proof.
  intros Hok Ht Hr. pose proof (ck_threads _ Hok _ _ _ Ht) as Hth.
  destruct t as [ | | | | | | | | | | | | | | | | | | | | | | | |k v|k state tick|k state tick|k state tick| ]; try done; cbn [version_step].
  - pose proof (apply_law (ev_cause e) (sy_now s) k v (sy_backend s)) as Hlaw. destruct (bk_ApplyInvalidation (ev_cause e) (sy_now s) k v (sy_backend s)) as [answer b1].
    assert (Hx : kept bk_entries bk_version (sy_backend s) b1 ∨ applied bk_entries bk_version k v (sy_backend s) b1).
    { destruct answer as [[]|]; try done; try (by right); left; apply Hlaw. } clear Hlaw.
    set (ev0 := if bk_version b1 k =? bk_version (sy_backend s) k then EvNone else EvApplied k v).
    assert (Hgo : ∀ f t1, (t1 = IvLock k InvalidationApplied (length (sy_log s)) ∨ t1 = IvLock k InvalidationCurrent (length (sy_log s)) ∨ ∃ a, t1 = IvDone a) →
      cache_ok (stepped i r s (count f rp) b1 t1 None ev0)).
    { intros f t1 Ht1. assert (Hth1 : ∀ ev1, thread_ok (stepped i r s (count f rp) b1 t1 None ev1) i r t1).
      { intros ev1. destruct Ht1 as [->|[->|[a ->]]]; cbn; rewrite ?length_app; cbn; lia || done. }
      assert (Hfl : ∀ kb, flight_of (IvApply k v) = Some kb → flight_of t1 = Some kb) by done. destruct Hx as [Hk|(Hlt & Hnew & Hoth & Hent)].
      - unfold ev0. rewrite (proj2 Hk), Z.eqb_refl. by eapply quiet_ok.
      - assert (Hev : ev0 = EvApplied k v) by (unfold ev0; rewrite Hnew; destruct (Z.eqb_spec v (bk_version (sy_backend s) k)); [lia|done]). rewrite Hev.
        eapply stepped_ok; try done; [|apply entries_kept; try done].
        + constructor; try done.
          * intros k'. destruct (decide (k' = k)) as [->|Hne]; [lia|by rewrite Hoth].
          * intros k' v' [= <- <-]. lia.
          * intros k' f' Hf'. by left.
        + transitivity (delete k (bk_entries (sy_backend s))); [done|apply delete_subseteq].
        + intros k' payload Hin <-. eapply lookup_weaken in Hin; [|exact Hent]. by rewrite lookup_delete_eq in Hin. }
    destruct answer as [[]|err]; intros [= <- <- <- <- <-]; apply Hgo; eauto.
  - cbn in Hth. destruct (free (mutationStripeIndex k) rp) eqn:Hfree; [|done]. intros [= <- <- <- <- <-]. eapply quiet_ok; try done; [intros i' st _; by apply lock_others|]. intros Hstep.
    split; [rewrite (len_step _ _ _ _ _ Hstep); lia|]. eapply holds_stepped; [done|]. intros st ->%list_elem_of_singleton. cbn. by rewrite lookup_insert_eq.
  - destruct Hth as (Hlt & Hh). cbn in Hlt. pose proof (holds_here _ _ _ _ _ Hr Hh) as Hh'. intros [= <- <- <- <- <-]. eapply bump_ok; try done; [apply Hh'; by left|]. intros Hstep.
    split; [rewrite (len_step _ _ _ _ _ Hstep); lia|by eapply holds_stepped].
  - destruct Hth as (Hlt & Hh). cbn in Hlt. pose proof (holds_here _ _ _ _ _ Hr Hh) as Hh'. intros [= <- <- <- <- <-].
    assert (Hcur : sf_current (rp_group (unlock [mutationStripeIndex k] (with_group (sf_Forget k) rp))) = delete k (sf_current (rp_group rp))) by apply sf_Forget_law.
    assert (Hloc : local_step i r s rp (unlock [mutationStripeIndex k] (with_group (sf_Forget k) rp)) (sy_backend s) (IvForget k state tick) (IvDone (Ok state)) None (EvSettled r [k] tick false)).
    { apply plain_local; try done; [|rewrite Hcur; apply delete_subseteq]. intros i' st. by apply (unlock_others i _ (with_group (sf_Forget k) rp)). }
    pose proof (local_is_step _ _ _ _ _ _ _ _ _ _ Ht Hr Hloc) as Hstep. eapply stepped_ok; try done.
    + apply entries_kept; try done. intros k' payload _. cbn. by destruct r.
    + intros r' keys' since d [= <- <- <- <-]. split; [lia|]. split; [done|]. change [k] with ([] ++ [k]). eapply forgotten_forget; try done. by intros k' f ?%not_elem_of_nil.
Qed.

(** A call begins, or time passes. *)
Lemma idle_ok s now extra : cache_ok s → let s' := mkSys (sy_backend s) now (sy_replicas s) (sy_threads s ++ extra) (sy_log s ++ [EvNone]) in
  (∀ i r t, extra !! i = Some (r, t) → thread_ok s' (length (sy_threads s) + i) r t) → cache_ok s'.
Proof.
  intros Hok s' Hex.
  assert (Hstep : ∀ i r, step_of i r s s' EvNone).
  { intros i r. constructor; try done.
    - intros r' k f begin (t & Ht & Hb). exists t. split; [by apply lookup_app_l_Some|done].
    - intros r' k f Hf. by left. }
  constructor.
  - intros r rp st Hr. cbn [sy_log s']. rewrite bumps_app. unfold bumps at 2. cbn. rewrite Nat.add_0_r. by apply (ck_generations _ Hok).
  - apply entries_kept; done.
  - intros j k v [Hj|[_ ?]]%lookup_snoc; [|done]. by eapply (ck_watermarks _ Hok).
  - intros e r keys since d [He|[_ ?]]%lookup_snoc; [|done]. destruct (ck_settled _ Hok _ _ _ _ _ He) as [Hle Hb]. split; [done|].
    intros Hd k Hk. by apply (bumped_since_step _ _ _ _ _ (Hstep 0%nat 0%nat)), Hb.
  - intros r k f Hf. destruct (ck_flights _ Hok r k f Hf) as (begin & Hb & Hs). exists begin. split; [by eapply (st_begun _ _ _ _ _ (Hstep 0%nat 0%nat))|].
    intros e keys since d _ [He|[_ ?]]%lookup_snoc; [|done]. eapply Hs; [by eapply lookup_lt_Some|done].
  - intros i r t [Ht|[Hge Ht]]%lookup_app_Some; [apply (thread_ok_step _ _ _ _ _ (Hstep (S i) 0%nat)); [lia|by apply (ck_threads _ Hok)]|].
    replace i with (length (sy_threads s) + (i - length (sy_threads s)))%nat by lia. by apply Hex.
  - apply (ck_replicas _ Hok).
Qed.
Lemma begin_call_ok s i j r c : length (sy_log s) = S i → thread_ok s j r (begin_call cfg i c).
Proof.
  intros Hlen. destruct c; cbn; repeat case_match; cbn; rewrite ?Hlen; try done; try lia; try (split; [lia|done]); (split; [lia|]); exists []; (split; [done|]);
    by intros st ?%not_elem_of_nil.
Qed.
Lemma cstep_ok s o : cache_ok s → (length (sy_log s) ≤ Z.to_nat max_u64)%nat → cache_ok (cstep cfg s o).
Proof.
  intros Hok Hmax. destruct o as [r c|i e|now]; cbn [cstep].
  - apply (idle_ok s (sy_now s) _ Hok). intros i r' t Hi. apply list_lookup_singleton_Some in Hi as [-> [= <- <-]].
    apply begin_call_ok. cbn. rewrite length_app. cbn. lia.
  - destruct (sy_threads s !! i) as [[r t]|] eqn:Ht; [|done]. destruct (sy_replicas s !! r) as [rp|] eqn:Hr; [|done].
    destruct (thread_step cfg i r (length (sy_log s)) (sy_now s) (sy_threads s) e (sy_backend s) rp t) as [[[[[b' rp'] t'] sp] ev]|] eqn:Hst; [|done].
    change (cache_ok (stepped i r s rp' b' t' sp ev)).
    destruct t; cbn [thread_step] in Hst; try done; first [by eapply get_ok|by eapply flight_steps_ok|by eapply set_ok|by eapply invalidate_ok|by eapply version_ok].
  - pose proof (idle_ok s now [] Hok) as Hid. cbn in Hid. rewrite app_nil_r in Hid. apply Hid. by intros i r t Hi.
Qed.
Lemma cstep_log s o : (length (sy_log (cstep cfg s o)) ≤ S (length (sy_log s)))%nat.
Proof.
  destruct o as [r c|i e|now]; cbn; rewrite ?length_app; cbn; [lia| |lia]. repeat case_match; cbn; rewrite ?length_app; cbn; lia.
Qed.
Lemma csteps_ok s ops : cache_ok s → (length (sy_log s) + length ops ≤ S (Z.to_nat max_u64))%nat → cache_ok (csteps cfg s ops).
Proof.
  revert s. induction ops as [|o ops IH]; intros s Hok Hlen; [done|]. cbn in Hlen. cbn. apply IH; [apply cstep_ok; [done|lia]|]. pose proof (cstep_log s o). lia.
Qed.
(** Nothing has happened, no flight is under way and the backend holds nothing. *)
Definition fresh s : Prop :=
  sy_log s = [] ∧ sy_threads s = [] ∧ bk_entries (sy_backend s) = ∅ ∧
  ∀ r rp, sy_replicas s !! r = Some rp → rp_generations rp = ∅ ∧ sf_current (rp_group rp) = ∅.
Lemma fresh_cache_ok s : fresh s → (cf_versioned cfg = false → (length (sy_replicas s) ≤ 1)%nat) → cache_ok s.
Proof.
  intros (Hl & Ht & He & Hr) Hone. constructor; try done; rewrite ?Hl, ?Ht, ?He.
  - intros r rp st Hrp. unfold generation_of. by rewrite (proj1 (Hr _ _ Hrp)).
  - intros k payload Hk. by rewrite lookup_empty in Hk.
  - by intros j k v Hj.
  - by intros e r keys since d Hx.
  - intros r k f Hf. unfold flights_of in Hf. destruct (sy_replicas s !! r) as [rp|] eqn:Hrp; cbn in Hf; [|by rewrite lookup_empty in Hf].
    rewrite (proj2 (Hr _ _ Hrp)) in Hf. by rewrite lookup_empty in Hf.
  - by intros i r t Hi.
Qed.
End spec.

(** * The theorems *)
Section theorems.
Context {T B G : Type} `{VersionedBackend B} `{Singleflight G}.

(** C20: A cache without versions: in every interleaving of reads, flights, writes and invalidations
    of one replica, from an empty backend, every entry was written by a loader, or a [Set], that
    started after each [Invalidate] of its key that has returned had begun: no load that was under
    way when the key was invalidated is stored later.  A [Get] that begins after such an
    [Invalidate] returned is answered, by its own read or by a loader, with data of this kind.  (An answer
    taken from the second read of a joined flight is excepted, see [stale_join].) *)
Theorem invalidated_loads_are_dropped (cfg : Config (T:=T)) (s : sys (T:=T) (B:=B) (G:=G)) ops (s' := csteps cfg s ops) :
  cf_versioned cfg = false → fresh s → (length (sy_replicas s) ≤ 1)%nat → zlen ops ≤ max_u64 →
  (∀ k payload, bk_entries (sy_backend s') !! k = Some payload → ∃ o, EvWrite o ∈ sy_log s' ∧ or_key o = k ∧ or_payload o = payload ∧
     ∀ e keys since, sy_log s' !! e = Some (EvSettled 0 keys since true) → k ∈ keys → (since < or_tick o ≤ or_called o)%nat) ∧
  (∀ i k begin answer src e keys since, sy_threads s' !! i = Some (0%nat, GetDone k begin answer (Some src)) →
     sy_log s' !! e = Some (EvSettled 0 keys since true) → k ∈ keys → (e < begin)%nat →
     match src with
     | FromEntry payload => ∃ o, EvWrite o ∈ sy_log s' ∧ or_key o = k ∧ or_payload o = payload ∧ (since < or_tick o ≤ or_called o)%nat
     | FromLoad called => (since < called)%nat
     | FromFlightEntry _ => True
     end).
Proof.
  intros Hv Hf Hone Hlen. assert (Hok : cache_ok cfg s').
  { apply csteps_ok; [by apply fresh_cache_ok|]. destruct Hf as [-> _]. unfold zlen in Hlen. cbn [length]. lia. }
  split.
  - intros k payload Hk. destruct (ck_entries _ _ Hok k payload Hk) as (o & Hw & Hk' & Hp & Hle & Hs & _). exists o. do 3 (split; [done|]).
    intros e keys since He Hin. split; [|done]. eapply (Hs Hv e); [by eapply lookup_lt_Some|done..].
  - intros i k begin answer src e keys since Hi He Hk Hlt. destruct (ck_threads _ _ Hok _ _ _ Hi) as [_ Ha]. destruct src as [payload|payload|called]; cbn in Ha; [|done|by eapply Ha].
    destruct Ha as (o & Hw & Hk' & Hp & Hle & Hs & _). exists o. do 3 (split; [done|]). split; [|done]. by eapply (Hs Hv e).
Qed.

(** C17: Versioned caches: any number of replicas share a backend, which may drop entries and may fail
    after it did its work.  Every entry of a key was written by a loader that was called, or a [Set]
    that saw the watermark, after the last rise of the key's watermark.  A [Get] that hits reads
    such an entry; a [Get] of a replica that begins after [InvalidateVersion] returned on the same
    replica is answered with data loaded after the watermark was applied, also by a flight it joined;
    for a flight it joins, an invalidation that only another replica has run does not count. *)
Theorem watermarks_respected (cfg : Config (T:=T)) (s : sys (T:=T) (B:=B) (G:=G)) ops (s' := csteps cfg s ops) :
  cf_versioned cfg = true → fresh s → zlen ops ≤ max_u64 →
  (∀ k payload, bk_entries (sy_backend s') !! k = Some payload → ∃ o, EvWrite o ∈ sy_log s' ∧ or_key o = k ∧ or_payload o = payload ∧
     ∀ j v, sy_log s' !! j = Some (EvApplied k v) → (j < or_called o)%nat) ∧
  (∀ i r k begin answer src, sy_threads s' !! i = Some (r, GetDone k begin answer (Some src)) →
     match src with
     | FromEntry payload => ∃ o, EvWrite o ∈ sy_log s' ∧ or_key o = k ∧ or_payload o = payload ∧
         ∀ j v, sy_log s' !! j = Some (EvApplied k v) → (j < begin)%nat → (j < or_called o)%nat
     | FromFlightEntry payload => ∃ o, EvWrite o ∈ sy_log s' ∧ or_key o = k ∧ or_payload o = payload ∧
         ∀ e keys since d, sy_log s' !! e = Some (EvSettled r keys since d) → k ∈ keys → (e < begin)%nat →
         ∀ j v, sy_log s' !! j = Some (EvApplied k v) → (j ≤ since)%nat → (j < or_called o)%nat
     | FromLoad called =>
         ∀ e keys since d, sy_log s' !! e = Some (EvSettled r keys since d) → k ∈ keys → (e < begin)%nat → (since < called)%nat
     end).
Proof.
  intros Hv Hf Hlen. assert (Hok : cache_ok cfg s').
  { apply csteps_ok; [apply fresh_cache_ok; [done|congruence]|]. destruct Hf as [-> _]. unfold zlen in Hlen. cbn [length]. lia. }
  split.
  - intros k payload Hk. destruct (ck_entries _ _ Hok k payload Hk) as (o & Hw & Hk' & Hp & _ & _ & Ha). exists o. do 3 (split; [done|]).
    intros j v Hj. eapply (Ha Hv j); [by eapply lookup_lt_Some|done].
  - intros i r k begin answer src Hi. destruct (ck_threads _ _ Hok _ _ _ Hi) as [_ Hans]. destruct src as [payload|payload|called]; cbn in Hans.
    + destruct Hans as (o & Hw & Hk' & Hp & _ & _ & Ha). exists o. do 3 (split; [done|]). intros j v Hj Hlt. by eapply (Ha Hv j).
    + destruct (Hans Hv) as (m & _ & Hs & o & Hw & Hk' & Hp & _ & _ & Ha). exists o. do 3 (split; [done|]). intros e keys since d He Hk Hlt j v Hj Hle.
      specialize (Hs e keys since d Hlt He Hk). eapply (Ha Hv j); [lia|done].
    + intros e keys since d He Hk Hlt. by eapply Hans.
Qed.
End theorems.

(** ** Concrete runs *)
Definition w_codec : Codec := mkCodec Ok Ok "".
Definition w_cfg (versioned : bool) : Config := mkConfig versioned w_codec DefaultPolicy.
Definition w_zero : Description := mkDescription 0 0 0 0 0 0 0.
Definition w_start (n : nat) : sys (T:=string) (B:=memory.Store) (G:=gmap string nat) :=
  mkSys memory.NewWithClock 1 (replicate n (mkReplica ∅ ∅ ∅ w_zero)) [] [].
Definition w_env (load : string) : env := mkEnv None (Ok load) zero64 0.
Definition w_run (i n : nat) (load : string) : list op := replicate n (OpStep i (w_env load)).
Lemma w_fresh n : fresh (w_start n).
Proof.
  split; [done|]. split; [done|]. split; [done|]. intros r rp Hr. cbn in Hr. apply lookup_replicate in Hr as [-> _]. done.
Qed.

(** A flight is loading when its key is invalidated: its value is answered, and dropped. *)
Definition w_dropped : list op :=
  [OpCall 0 (Get false "k")] ++ w_run 0 2 "" ++ w_run 1 3 "" ++ [OpCall 0 (Invalidate false ["k"])] ++ w_run 2 7 "" ++ w_run 1 3 "old" ++ w_run 0 1 "" ++
  [OpCall 0 (Get false "k")] ++ w_run 3 2 "" ++ w_run 4 8 "new" ++ w_run 3 1 "".
Lemma invalidated_loads_are_dropped_witness :
  let s' := csteps (w_cfg false) (w_start 1) w_dropped in
  sy_threads s' !! 0%nat = Some (0%nat, GetDone "k" 0 (Ok "old") (Some (FromLoad 5))) ∧
  sy_threads s' !! 3%nat = Some (0%nat, GetDone "k" 18 (Ok "new") (Some (FromLoad 23))) ∧
  bk_entries (sy_backend s') !! "k" = Some (String envelopeValue "new") ∧
  ∃ o, EvWrite o ∈ sy_log s' ∧ or_payload o = String envelopeValue "new" ∧ (6 < or_tick o)%nat.
Proof.
  split; [vm_compute; reflexivity|]. split; [vm_compute; reflexivity|]. split; [vm_compute; reflexivity|].
  destruct (invalidated_loads_are_dropped (w_cfg false) (w_start 1) w_dropped) as [Hent _]; [done|apply w_fresh|cbn; lia|vm_compute; discriminate|].
  destruct (Hent "k" (String envelopeValue "new") ltac:(vm_compute; reflexivity)) as (o & Hw & _ & Hp & Hs). exists o. split; [done|]. split; [done|].
  apply (Hs 13%nat ["k"] 6%nat); [vm_compute; reflexivity|by left].
Defined.

(** Two replicas: the first one is loading when the second one applies a newer watermark; the load of
    the first is not stored, and the next read of the first sees the new value. *)
Definition w_versioned : list op :=
  [OpCall 0 (Get false "k")] ++ w_run 0 2 "" ++ w_run 1 4 "" ++ [OpCall 1 (InvalidateVersion false "k" 7)] ++ w_run 2 4 "" ++ w_run 1 4 "old" ++ w_run 0 1 "" ++
  [OpCall 1 (Get false "k")] ++ w_run 3 2 "" ++ w_run 4 9 "new" ++ w_run 3 1 "" ++ [OpCall 0 (Get false "k")] ++ w_run 5 1 "".
Lemma watermarks_respected_witness :
  let s' := csteps (w_cfg true) (w_start 2) w_versioned in
  sy_threads s' !! 0%nat = Some (0%nat, GetDone "k" 0 (Ok "old") (Some (FromLoad 6))) ∧
  sy_threads s' !! 5%nat = Some (0%nat, GetDone "k" 29 (Ok "new") (Some (FromEntry (String envelopeValue "new")))) ∧
  memory.version_of (sy_backend s') "k" = 7 ∧
  ∃ o, EvWrite o ∈ sy_log s' ∧ or_payload o = String envelopeValue "new" ∧ (8 < or_called o)%nat.
Proof.
  split; [vm_compute; reflexivity|]. split; [vm_compute; reflexivity|]. split; [vm_compute; reflexivity|].
  destruct (watermarks_respected (w_cfg true) (w_start 2) w_versioned) as [_ Hget]; [done|apply w_fresh|vm_compute; discriminate|].
  destruct (Hget 5%nat 0%nat "k" 29%nat (Ok "new") (FromEntry (String envelopeValue "new")) ltac:(vm_compute; reflexivity)) as (o & Hw & _ & Hp & Hs).
  exists o. split; [done|]. split; [done|]. apply (Hs 8%nat 7); [vm_compute; reflexivity|lia].
Defined.

Definition w_stale : list op :=
  [OpCall 0 (Get false "k"); OpCall 0 (Get false "k")] ++ w_run 1 1 "" ++ w_run 0 2 "" ++ w_run 2 8 "old" ++ w_run 0 1 "" ++
  [OpCall 0 (Invalidate false ["k"])] ++ w_run 3 6 "" ++ w_run 1 1 "" ++ w_run 4 2 "" ++ w_run 3 1 "" ++
  [OpCall 0 (Get false "k")] ++ w_run 5 2 "" ++ w_run 4 1 "" ++ w_run 5 1 "".
(** Where the guarantee ends: [Invalidate] forgets the flights of its keys before it deletes the
    entries, so a flight that begins in between is not forgotten and may read the old entry.  A
    [Get] that begins after [Invalidate] has returned can join that flight while it returns, and is
    answered with the value that was invalidated. *)
Theorem stale_join : let s' := csteps (w_cfg false) (w_start 1) w_stale in
  sy_log s' !! 23%nat = Some (EvSettled 0 ["k"] 13 true) ∧
  sy_threads s' !! 5%nat = Some (0%nat, GetDone "k" 24 (Ok "old") (Some (FromFlightEntry (String envelopeValue "old")))) ∧
  bk_entries (sy_backend s') !! "k" = None.
Proof. vm_compute. done. Qed.

(** A policy without negative caching needs no negative error, but an entry that another cache stored
    as absent is still read, and answered as the zero value without an error. *)
Lemma negative_entry_read_as_zero {T} (codec : Codec (T:=T)) (policy := mkPolicy minute 0 zero64 false None None) :
  validatePolicy policy = true ∧
  decode_envelope (mkConfig false codec policy) (String envelopeNegative "") = Ok (Ok (cd_zero codec)).
Proof. done. Qed.
(** A jitter ratio that is not a number passes the check of the ratio; the lifetime is then whatever
    the conversion of NaN to an integer yields. *)
Lemma nan_ratio_accepted n (policy := mkPolicy minute 0 S754_nan false None None) :
  validatePolicy policy = true ∧ jitter policy zero64 n minute = i64 (minute - n).
Proof. done. Qed.
