(* ===== verification/CacheLocks.v ===== *)
(** * cache: the stripe locks

    Calls of one replica lock stripes; [Invalidate] and [ObserveInvalidation] lock several, in
    ascending order.  Whoever holds a stripe is at a place of its call where it does, so that
    stripes are always given back, and among the holders one can go on. *)
From S2P Require Import Prelude GoText GoFloat Cache.
Open Scope Z_scope.

Section locks.
Context {T B G : Type} `{VersionedBackend B} `{Singleflight G} (cfg : Config (T:=T)).
Implicit Types (s : sys (T:=T) (B:=B) (G:=G)) (t : thread (T:=T)) (rp : replica (G:=G)).

(** The stripes a thread holds. *)
Definition held t : list Z :=
  match t with
  | FlWrite fl _ => [mutationStripeIndex (fl_key fl)]
  | SetBump k _ | SetForget k _ _ | SetStore k _ _ | SetWrite k _ _ _ _ _ | IvBump k _ _ | IvForget k _ _ => [mutationStripeIndex k]
  | InvLock _ keys _ todo => take (length (stripes_of keys) - length todo) (stripes_of keys)
  | InvBump _ keys _ _ | InvForget _ keys _ _ | InvDelete keys _ => stripes_of keys
  | _ => []
  end.
(** The rest of the stripes an invalidation locks is a rest. *)
Definition todo_ok t : Prop :=
  match t with
  | InvLock _ keys _ todo => ∃ done, stripes_of keys = done ++ todo
  | InvForget _ _ _ _ | InvBump _ _ _ _ | InvDelete _ _ => True
  | _ => True
  end.
Record locks_ok s : Prop := {
  lk_held : ∀ r rp st i, sy_replicas s !! r = Some rp → rp_locks rp !! st = Some i → ∃ t, sy_threads s !! i = Some (r, t) ∧ st ∈ held t;
  lk_todo : ∀ i r t, sy_threads s !! i = Some (r, t) → todo_ok t
}.

(** ** What a step does to the locks *)
Definition locks_step (i : nat) rp rp' t t' : Prop :=
  todo_ok t → (∀ st, rp_locks rp !! st = Some i → st ∈ held t) →
  todo_ok t' ∧ ∀ st j, rp_locks rp' !! st = Some j → if decide (j = i) then st ∈ held t' else rp_locks rp !! st = Some j.
Lemma locks_same i rp rp' t t' : rp_locks rp' = rp_locks rp → (todo_ok t → todo_ok t') → held t ⊆ held t' → locks_step i rp rp' t t'.
Proof.
  intros Hl Ht Hh Htodo Hown. split; [auto|]. intros st j. rewrite Hl. intros Hj. destruct (decide (j = i)) as [->|]; [|done]. by apply Hh, Hown.
Qed.
Lemma locks_more i rp rp' st t t' : rp_locks rp' = <[st := i]> (rp_locks rp) → (todo_ok t → todo_ok t') → (todo_ok t → held t ++ [st] ⊆ held t') → locks_step i rp rp' t t'.
Proof.
  intros Hl Ht Hh Htodo Hown. split; [auto|]. intros st' j. rewrite Hl. destruct (decide (st' = st)) as [->|Hne].
  - rewrite lookup_insert_eq. intros [= <-]. rewrite decide_True by done. apply (Hh Htodo), elem_of_app. right. by left.
  - rewrite lookup_insert_ne by done. intros Hj. destruct (decide (j = i)) as [->|]; [|done]. apply (Hh Htodo), elem_of_app. left. by apply Hown.
Qed.
Lemma fold_delete_Some (l : list Z) (m : gmap Z nat) st j : fold_left (λ m x, delete x m) l m !! st = Some j → m !! st = Some j ∧ st ∉ l.
Proof.
  revert m. induction l as [|x l IH]; intros m Hj; [split; [done|apply not_elem_of_nil]|]. destruct (IH _ Hj) as [Hm Hin]. apply lookup_delete_Some in Hm as [Hne Hm].
  split; [done|]. apply not_elem_of_cons. by split.
Qed.
Lemma locks_freed i rp rp' t t' stripes : rp_locks rp' = rp_locks (unlock stripes rp) → todo_ok t' → held t ⊆ stripes → locks_step i rp rp' t t'.
Proof.
  intros Hl Ht Hh _ Hown. split; [done|]. intros st j. rewrite Hl. unfold unlock. cbn. intros [Hj Hin]%fold_delete_Some. destruct (decide (j = i)) as [->|]; [|done].
  destruct Hin. by apply Hh, Hown.
Qed.
Lemma take_more {A} (l d : list A) x r : l = d ++ x :: r → take (length l - length r) l = d ++ [x].
Proof. intros ->. rewrite length_app. cbn. replace (length d + S (length r) - length r)%nat with (length (d ++ [x])) by (rewrite length_app; cbn; lia). replace (d ++ x :: r) with ((d ++ [x]) ++ r) by by rewrite <- app_assoc. apply take_app_length. Qed.
Lemma take_rest {A} (l d r : list A) : l = d ++ r → take (length l - length r) l = d.
Proof. intros ->. rewrite length_app. replace (length d + length r - length r)%nat with (length d) by lia. apply take_app_length. Qed.

Lemma get_locks i tick now threads e b rp t b' rp' t' sp ev : get_step cfg i tick now threads e b rp t = Some (b', rp', t', sp, ev) →
  locks_step i rp rp' t t' ∧ ∀ t'', sp = Some t'' → todo_ok t''.
Proof.
  destruct t; try done; cbn; repeat case_match; unfold quietly; intros [= <- <- <- <- <-]; (split; [by apply locks_same|by intros t'' [= <-]]).
Qed.
Lemma flight_locks i r tick now e b rp t b' rp' t' sp ev : flight_step cfg i r tick now e b rp t = Some (b', rp', t', sp, ev) →
  locks_step i rp rp' t t' ∧ sp = None.
Proof.
  destruct t as [ | | | | | | | | |fl loaded|fl loaded| | | | | | | | | | | | | | | | | | ]; try done; cbn [flight_step store_step]; unfold finish_flight, quietly.
  - intros [= <- <- <- <- <-]. split; [by apply locks_same|done].
  - repeat case_match; intros [= <- <- <- <- <-]; (split; [by apply locks_same|done]).
  - repeat case_match; intros [= <- <- <- <- <-]; (split; [by apply locks_same|done]).
  - intros [= <- <- <- <- <-]. split; [by apply locks_same|done].
  - repeat case_match; intros [= <- <- <- <- <-]; (split; [by apply locks_same|done]).
  - repeat case_match; try done; intros [= <- <- <- <- <-]; (split; [|done]); [by apply locks_same|by eapply locks_more].
  - repeat case_match; intros [= <- <- <- <- <-]; (split; [|done]); by apply (locks_freed _ _ _ _ _ [mutationStripeIndex (fl_key fl)]).
  - intros [= <- <- <- <- <-]. split; [by apply locks_same|done].
Qed.
Lemma set_locks i r tick now e b rp t b' rp' t' sp ev : set_step cfg i r tick now e b rp t = Some (b', rp', t', sp, ev) →
  locks_step i rp rp' t t' ∧ sp = None.
Proof.
  destruct t; try done; cbn [set_step set_store_step]; unfold quietly; repeat case_match; try done; intros [= <- <- <- <- <-]; (split; [|done]);
    first [by apply locks_same|by eapply locks_more|by apply (locks_freed _ _ _ _ _ [mutationStripeIndex key])].
Qed.
Lemma invalidate_locks i r tick now e b rp t b' rp' t' sp ev : invalidate_step i r tick now e b rp t = Some (b', rp', t', sp, ev) →
  locks_step i rp rp' t t' ∧ sp = None.
Proof.
  destruct t as [ | | | | | | | | | | | | | | | | | | |observe keys begin [|st todo]|observe keys begin [|st todo]|[] keys begin [|k todo]|keys begin| | | | | | ]; try done; cbn [invalidate_step]; unfold quietly.
  - intros [= <- <- <- <- <-]. split; [|done]. apply locks_same; [done..|]. cbn. rewrite Nat.sub_0_r, take_ge by done. done.
  - destruct (free st rp) eqn:Hfree; [|done]. intros [= <- <- <- <- <-]. split; [|done]. eapply locks_more; [done| |].
    + intros [d Hd]. exists (d ++ [st]). by rewrite <- app_assoc.
    + intros [d Hd]. cbn [held]. rewrite (take_more _ d st todo Hd). by rewrite (take_rest _ d (st :: todo) Hd).
  - intros [= <- <- <- <- <-]. split; [by apply locks_same|done].
  - intros [= <- <- <- <- <-]. split; [by apply locks_same|done].
  - intros [= <- <- <- <- <-]. split; [by apply (locks_freed _ _ _ _ _ (stripes_of keys))|done].
  - intros [= <- <- <- <- <-]. split; [by apply locks_same|done].
  - intros [= <- <- <- <- <-]. split; [by apply locks_same|done].
  - intros [= <- <- <- <- <-]. split; [by apply locks_same|done].
  - case_match. intros [= <- <- <- <- <-]. split; [by apply (locks_freed _ _ _ _ _ (stripes_of keys))|done].
Qed.
Lemma version_locks i r tick now e b rp t b' rp' t' sp ev : version_step i r tick now e b rp t = Some (b', rp', t', sp, ev) →
  locks_step i rp rp' t t' ∧ sp = None.
Proof.
  destruct t; try done; cbn [version_step]; unfold quietly; repeat case_match; try done; intros [= <- <- <- <- <-]; (split; [|done]);
    first [by apply locks_same|by eapply locks_more|by apply (locks_freed _ _ _ _ _ [mutationStripeIndex key])].
Qed.
Lemma thread_locks i r tick now threads e b rp t b' rp' t' sp ev : thread_step cfg i r tick now threads e b rp t = Some (b', rp', t', sp, ev) →
  locks_step i rp rp' t t' ∧ ∀ t'', sp = Some t'' → todo_ok t''.
Proof.
  intros Hst. assert (Hnone : locks_step i rp rp' t t' ∧ sp = None → locks_step i rp rp' t t' ∧ ∀ t'', sp = Some t'' → todo_ok t'') by (intros [? ->]; by split).
  destruct t; cbn [thread_step] in Hst; try done;
    first [by eapply get_locks|apply Hnone; by eapply flight_locks|apply Hnone; by eapply set_locks|apply Hnone; by eapply invalidate_locks|apply Hnone; by eapply version_locks].
Qed.

(** ** The invariant *)
Lemma begin_todo tick c : todo_ok (begin_call cfg tick c).
Proof. destruct c; cbn; repeat case_match; try done; by exists []. Qed.
Lemma cstep_locks s o : locks_ok s → locks_ok (cstep cfg s o).
Proof.
  intros Hok. destruct o as [r c|i e|now]; cbn [cstep]; [| |by destruct Hok].
  - constructor; cbn.
    + intros r' rp st i Hr Hl. destruct (lk_held _ Hok _ _ _ _ Hr Hl) as (t & Ht & Hst). exists t. split; [by apply lookup_app_l_Some|done].
    + intros i r' t [Ht|[_ Ht]]%lookup_app_Some; [by eapply (lk_todo _ Hok)|]. apply list_lookup_singleton_Some in Ht as [_ [= <- <-]]. apply begin_todo.
  - destruct (sy_threads s !! i) as [[r t]|] eqn:Ht; [|done]. destruct (sy_replicas s !! r) as [rp|] eqn:Hr; [|done].
    destruct (thread_step _ _ _ _ _ _ _ _ _ _) as [[[[[b' rp'] t'] sp] ev]|] eqn:Hst; [|done]. apply thread_locks in Hst as [Hls Hsp].
    assert (Hown : ∀ st, rp_locks rp !! st = Some i → st ∈ held t).
    { intros st Hl. destruct (lk_held _ Hok _ _ _ _ Hr Hl) as (t0 & Ht0 & Hin). rewrite Ht in Ht0. by injection Ht0 as <-. }
    destruct (Hls (lk_todo _ Hok _ _ _ Ht) Hown) as [Htodo Hnew].
    assert (Hlook : ∀ j x, sy_threads s !! j = Some x → j ≠ i → (<[i := (r, t')]> (sy_threads s) ++ match sp with Some f => [(r, f)] | None => [] end) !! j = Some x).
    { intros j x Hj Hne. apply lookup_app_l_Some. by rewrite list_lookup_insert_ne. }
    assert (Hi : (<[i := (r, t')]> (sy_threads s) ++ match sp with Some f => [(r, f)] | None => [] end) !! i = Some (r, t')).
    { apply lookup_app_l_Some, list_lookup_insert_eq. by eapply lookup_lt_Some. }
    constructor; cbn [sy_replicas sy_threads].
    + intros r' rp0 st j Hr0 Hl. destruct (decide (r' = r)) as [->|Hne].
      * rewrite list_lookup_insert_eq in Hr0 by by eapply lookup_lt_Some. injection Hr0 as <-. specialize (Hnew st j Hl). destruct (decide (j = i)) as [->|Hj]; [by exists t'|].
        destruct (lk_held _ Hok _ _ _ _ Hr Hnew) as (t0 & Ht0 & Hin). exists t0. split; [by apply Hlook|done].
      * rewrite list_lookup_insert_ne in Hr0 by done. destruct (lk_held _ Hok _ _ _ _ Hr0 Hl) as (t0 & Ht0 & Hin). exists t0. split; [|done]. apply Hlook; [done|].
        intros ->. rewrite Ht in Ht0. by injection Ht0 as -> _.
    + intros j r' t0 [Hj|[_ Hj]]%lookup_app_Some.
      * destruct (decide (j = i)) as [->|Hne]; [|rewrite list_lookup_insert_ne in Hj by done; by eapply (lk_todo _ Hok)].
        rewrite list_lookup_insert_eq in Hj by by eapply lookup_lt_Some. by injection Hj as <- <-.
      * destruct sp as [f|]; [|done]. apply list_lookup_singleton_Some in Hj as [_ [= <- <-]]. by apply Hsp.
Qed.
Lemma csteps_locks s ops : locks_ok s → locks_ok (csteps cfg s ops).
Proof. revert s. induction ops as [|o ops IH]; intros s Hok; [done|]. by apply IH, cstep_locks. Qed.

(** ** Progress *)
Lemma stripes_ascend keys done st todo x : stripes_of keys = done ++ st :: todo → x ∈ done → x < st < mutationStripes.
Proof.
  intros Heq Hx. assert (Hss : StronglySorted Z.le (stripes_of keys)) by (apply Sorted_StronglySorted; [typeclasses eauto|]; apply Sorted_merge_sort; typeclasses eauto).
  assert (Hnd : NoDup (stripes_of keys)) by (unfold stripes_of; rewrite merge_sort_Permutation; apply NoDup_elements).
  assert (Hst : st ∈ stripes_of keys) by (rewrite Heq; apply elem_of_app; right; by left). split.
  - assert (Hne : x ≠ st). { intros ->. rewrite Heq in Hnd. apply NoDup_app in Hnd as (_ & Hd & _). by destruct (Hd st Hx); left. }
    rewrite Heq in Hss. clear -Hss Hx Hne. induction done as [|y d IH]; [by apply not_elem_of_nil in Hx|]. cbn in Hss. inv Hss as [|? ? Hss' Hall].
    apply elem_of_cons in Hx as [->|Hx]; [|by apply IH]. assert (y ≤ st) by (apply (proj1 (Forall_forall _ _) Hall), elem_of_app; right; by left). lia.
  - unfold stripes_of in Hst. rewrite merge_sort_Permutation, elem_of_elements, elem_of_list_to_set in Hst. apply list_elem_of_fmap_1 in Hst as (k & -> & _).
    unfold mutationStripeIndex. apply Z.mod_pos_bound. done.
Qed.
(** Threads that can go on, whatever the surroundings do. *)
Definition can_step s (i r : nat) rp t : Prop :=
  ∀ e, is_Some (thread_step cfg i r (length (sy_log s)) (sy_now s) (sy_threads s) e (sy_backend s) rp t).
(** The stripe a holder waits for. *)
Definition waits t : option Z := match t with InvLock _ _ _ (st :: _) => Some st | _ => None end.
Lemma holder_steps s i r rp t : held t ≠ [] → (∀ st, waits t = Some st → free st rp = true) → can_step s i r rp t.
Proof.
  intros Hh Hw e. destruct t as [ | | | | | | | | | | | | | | | | | | |observe keys begin [|st todo]|observe keys begin [|st todo]|[] keys begin [|k todo]|keys begin| | | | | | ]; try done; cbn; unfold quietly, finish_flight; repeat case_match; try done.
  by rewrite (Hw _ eq_refl) in *.
Qed.
Lemma waits_above t x st : todo_ok t → x ∈ held t → waits t = Some st → x < st < mutationStripes.
Proof.
  destruct t as [ | | | | | | | | | | | | | | | | | | |observe keys begin [|st0 todo]| | | | | | | | | ]; try done. intros [d Hd] Hx [= <-]. cbn [held] in Hx. rewrite (take_rest _ d _ Hd) in Hx. by eapply stripes_ascend.
Qed.
Lemma some_holder_steps s r rp n : locks_ok s → sy_replicas s !! r = Some rp → ∀ st i, mutationStripes - st ≤ Z.of_nat n → rp_locks rp !! st = Some i →
  ∃ j t, sy_threads s !! j = Some (r, t) ∧ held t ≠ [] ∧ can_step s j r rp t.
Proof.
  intros Hok Hr. induction n as [|n IH]; intros st i Hn Hl; destruct (lk_held _ Hok _ _ _ _ Hr Hl) as (t & Ht & Hin);
    (assert (Hne : held t ≠ []) by (intros Hx; rewrite Hx in Hin; by apply not_elem_of_nil in Hin)).
  - exists i, t. split; [done|]. split; [done|]. apply holder_steps; [done|]. intros st' Hw. pose proof (waits_above _ _ _ (lk_todo _ Hok _ _ _ Ht) Hin Hw). lia.
  - destruct (waits t) as [st'|] eqn:Hw; [|exists i, t; split; [done|]; split; [done|]; apply holder_steps; [done|]; congruence].
    destruct (rp_locks rp !! st') as [i'|] eqn:Hl'.
    + apply (IH st' i'); [|done]. pose proof (waits_above _ _ _ (lk_todo _ Hok _ _ _ Ht) Hin Hw). lia.
    + exists i, t. split; [done|]. split; [done|]. apply holder_steps; [done|]. intros x Hx. assert (x = st') as -> by congruence. unfold free. by apply bool_decide_eq_true_2.
Qed.
(** Nobody has called yet and no stripe is locked. *)
Definition unlocked s : Prop := sy_threads s = [] ∧ ∀ r rp, sy_replicas s !! r = Some rp → rp_locks rp = ∅.
Lemma unlocked_ok s : unlocked s → locks_ok s.
Proof.
  intros [Ht Hr]. constructor; [|rewrite Ht; by intros i r t Hi]. intros r rp st i Hrp Hl. by rewrite (Hr _ _ Hrp), lookup_empty in Hl.
Qed.
End locks.

(** C27: The stripe locks never deadlock: in every state reached by any interleaving, whenever a
    stripe of a replica is locked, some thread that holds a stripe of this replica can take its
    next step, whatever the context, the loader and the random source answer.  [Invalidate] locks
    its stripes in ascending order, so a chain of waiting holders ends. *)
Theorem stripe_locks_progress {T B G} `{VersionedBackend B} `{Singleflight G} (cfg : Config (T:=T)) (s : sys (T:=T) (B:=B) (G:=G)) ops
    (s' := csteps cfg s ops) r rp st i :
  unlocked s → sy_replicas s' !! r = Some rp → rp_locks rp !! st = Some i →
  ∃ j t, sy_threads s' !! j = Some (r, t) ∧ held t ≠ [] ∧ can_step cfg s' j r rp t.
Proof.
  intros Hu Hr Hl. apply (some_holder_steps cfg s' r rp (Z.to_nat (mutationStripes - st)) (csteps_locks _ _ _ (unlocked_ok _ Hu)) Hr st i); [lia|done].
Qed.

(** Two invalidations of two keys in opposite order: the second waits for the first. *)
Definition w_lock_cfg : Config := mkConfig false (mkCodec Ok Ok "") DefaultPolicy.
Definition w_lock_start : sys (T:=string) (B:=memory.Store) (G:=gmap string nat) :=
  mkSys memory.NewWithClock 1 [mkReplica ∅ ∅ ∅ (mkDescription 0 0 0 0 0 0 0)] [] [].
Definition w_lock_ops : list (op (T:=string)) :=
  [OpCall 0 (Invalidate false ["a"; "b"]); OpCall 0 (Invalidate false ["b"; "a"]); OpStep 0 (mkEnv None (Ok "") zero64 0); OpStep 1 (mkEnv None (Ok "") zero64 0)].
Lemma stripe_locks_progress_witness :
  let s' := csteps w_lock_cfg w_lock_start w_lock_ops in
  ∃ rp, sy_replicas s' !! 0%nat = Some rp ∧ rp_locks rp !! mutationStripeIndex "b" = None ∧ rp_locks rp !! mutationStripeIndex "a" = Some 0%nat ∧
  ∃ j t, sy_threads s' !! j = Some (0%nat, t) ∧ held t ≠ [] ∧ can_step w_lock_cfg s' j 0 rp t.
Proof.
  eexists. split; [vm_compute; reflexivity|]. split; [vm_compute; reflexivity|]. split; [vm_compute; reflexivity|].
  eapply (stripe_locks_progress w_lock_cfg w_lock_start w_lock_ops 0%nat _ (mutationStripeIndex "a") 0%nat); [|vm_compute; reflexivity..].
  split; [done|]. intros [|r] rp Hr; [by injection Hr as <-|done].
Defined.
