(* ===== verification/Retry.v ===== *)
(** * governance/retry: budgeted retries

    Models [budget.go] and [middleware.go].  The surroundings of one invocation (its context, the
    handler, the random source, the timer, and the budget it shares with the others) are a type
    class.  Theorems: the delays, the protocol of one invocation, and the bound on the calls
    that retries add. *)
From S2P Require Import Prelude GoText GoFloat Access Idempotency Breaker.
Import Breaker.Failure.
Open Scope Z_scope.

Record RetryPolicy := mkRetryPolicy {
  rt_Enabled : bool; rt_Idempotent : bool; rt_MaxAttempts : Z; rt_BackoffMin : duration; rt_BackoffMax : duration; rt_BudgetRatio : spec_float
}.

(** ** The budget *)
Record budgetBucket := mkBucket { bu_primary : Z; bu_retries : Z; bu_rejected : Z }.
Record Budget := mkBudget { bg_burst : Z; bg_buckets : gmap string budgetBucket }.
Definition NewBudget (burst : Z) : Budget := mkBudget burst ∅.
Definition bucket_of (b : Budget) (key : string) : budgetBucket := default (mkBucket 0 0 0) (bg_buckets b !! key).
Definition set_bucket (key : string) (bucket : budgetBucket) (b : Budget) : Budget := mkBudget (bg_burst b) (<[key := bucket]> (bg_buckets b)).
Definition begin_ (key : string) (b : Budget) : Budget :=
  let bucket := bucket_of b key in set_bucket key (mkBucket (u64_add (bu_primary bucket) 1) (bu_retries bucket) (bu_rejected bucket)) b.
(** [uint64(math.Floor(x))] of a number that is not negative; out of range, [unspecified]. *)
Definition floor_u64 (unspecified : Z) (x : spec_float) : Z :=
  match trunc64 x with Some z => if (0 <=? z) && (z <=? max_u64) then z else unspecified | None => unspecified end.
Definition positive64 (x : spec_float) : bool := match x with S754_finite false _ _ => true | _ => false end.
Definition take_ (unspecified : Z) (key : string) (ratio : spec_float) (b : Budget) : bool * Budget :=
  if negb (positive64 ratio) then (false, b)
  else
    let bucket := bucket_of b key in
    let allowed := u64_add (bg_burst b) (floor_u64 unspecified (mul64 (float64 (bu_primary bucket)) ratio)) in
    if allowed <=? bu_retries bucket then
      (false, set_bucket key (mkBucket (bu_primary bucket) (bu_retries bucket) (u64_add (bu_rejected bucket) 1)) b)
    else (true, set_bucket key (mkBucket (bu_primary bucket) (u64_add (bu_retries bucket) 1) (bu_rejected bucket)) b).
Record BudgetDescription := mkBudgetDescription { bd_Operation : string; bd_Primary : Z; bd_Retries : Z; bd_RejectedRetries : Z }.
Definition Describe (b : Budget) : list BudgetDescription :=
  (λ key, let bucket := bucket_of b key in mkBudgetDescription key (bu_primary bucket) (bu_retries bucket) (bu_rejected bucket)) <$>
    sort_strings (map_to_list (bg_buckets b)).*1.

(** ** Delays *)
Fixpoint limit_loop (n : nat) (limit maximum : duration) : duration :=
  match n with
  | O => limit
  | S n => if maximum / 2 <=? limit then maximum else limit_loop n (i64 (limit * 2)) maximum
  end.
(** The largest delay before attempt [nextAttempt]. *)
Definition jitter_limit (policy : RetryPolicy) (nextAttempt : Z) : duration :=
  let limit := limit_loop (Z.to_nat (nextAttempt - 2)) (rt_BackoffMin policy) (rt_BackoffMax policy) in
  if rt_BackoffMax policy <? limit then rt_BackoffMax policy else limit.

(** ** The middleware *)
Inductive reterror := ErrInvalidOption | ErrMissingOperation | ErrInvalidPolicy | EHandler (err : goerror) | ECause (cause : goerror).
Definition validate (policy : RetryPolicy) : bool :=
  negb ((rt_MaxAttempts policy <? 2) || (rt_BackoffMin policy <=? 0) || (rt_BackoffMax policy <? rt_BackoffMin policy) ||
        SFleb (rt_BudgetRatio policy) (float64 0) || SFltb (float64 1) (rt_BudgetRatio policy)).
Definition isStreaming (kind : operation.Kind) : bool :=
  match kind with operation.KindClientStream | operation.KindServerStream | operation.KindBidiStream => true | _ => false end.

(** One invocation's surroundings.  [rw_wait] is the select: a cause, or the timer fired. *)
Class RetryWorld (Resp W : Type) := {
  rw_cause : W → option goerror * W;
  rw_next : Z → W → (option Resp * option goerror) * W;
  rw_budget : W → Budget;
  rw_set_budget : Budget → W → W;
  rw_random : Z → W → Z * W;
  rw_wait : duration → W → option goerror * W;
  rw_unspecified : Z
}.
Section middleware.
Context {Resp W : Type} `{RetryWorld Resp W}.
Definition answer : Type := option Resp * option reterror.

(** [fullJitter]. *)
Definition fullJitter (policy : RetryPolicy) (nextAttempt : Z) (w : W) : duration * W :=
  rw_random (u64_add (jitter_limit policy nextAttempt) 1) w.

(** What an invocation did, in order. *)
Inductive revent := RvCall (number : Z) (err : option goerror) | RvTake (granted : bool) | RvWait (delay : duration).

Fixpoint attempts (more : nat) (number : Z) (policy : RetryPolicy) (key : string) (lastErr : option reterror) (w : W) : answer * W * list revent :=
  match more with
  | O => ((None, lastErr), w, [])
  | S more =>
      match rw_cause w with
      | (Some cause, w) => ((None, Some (ECause cause)), w, [])
      | (None, w) =>
          let '((response, err), w) := rw_next number w in
          let call := RvCall number err in
          match err with
          | None => ((response, None), w, [call])
          | Some e =>
              if negb (Retryable err) || (number =? rt_MaxAttempts policy) then ((response, Some (EHandler e)), w, [call])
              else match rw_cause w with
              | (Some cause, w) => ((None, Some (ECause cause)), w, [call])
              | (None, w) =>
                  let '(granted, budget) := take_ rw_unspecified key (rt_BudgetRatio policy) (rw_budget w) in
                  let w := rw_set_budget budget w in
                  if negb granted then ((response, Some (EHandler e)), w, [call; RvTake false])
                  else
                    let '(delay, w) := fullJitter policy (number + 1) w in
                    match rw_wait delay w with
                    | (Some cause, w) => ((None, Some (ECause cause)), w, [call; RvTake true; RvWait delay])
                    | (None, w) =>
                        let '(a, w, tr) := attempts more (number + 1) policy key (Some (EHandler e)) w in
                        (a, w, call :: RvTake true :: RvWait delay :: tr)
                    end
              end
          end
      end
  end.
(** One call of the handler without retries. *)
Definition once (w : W) : answer * W * list revent :=
  let '((response, err), w) := rw_next 1 w in ((response, EHandler <$> err), w, [RvCall 1 err]).
(** [nil_ctx], [target] and [probe] describe the context. *)
Definition invoke (nil_ctx : bool) (target : option operation.Operation) (probe : bool) (policy : RetryPolicy) (w : W) : answer * W * list revent :=
  if nil_ctx then ((None, Some ErrInvalidOption), w, [])
  else match target with
  | None => ((None, Some ErrMissingOperation), w, [])
  | Some target =>
      if isStreaming (operation.o_kind target) then once w
      else if probe then once w
      else if negb (rt_Enabled policy) || negb (rt_Idempotent policy) || (rt_MaxAttempts policy <? 2) then once w
      else if negb (validate policy) then ((None, Some ErrInvalidPolicy), w, [])
      else
        let key := PolicyKey target in
        let w := rw_set_budget (begin_ key (rw_budget w)) w in
        attempts (Z.to_nat (rt_MaxAttempts policy)) 1 policy key None w
  end.
End middleware.

(** * Delays *)
Lemma limit_loop_spec n l maximum : 0 < l ≤ maximum → maximum ≤ max_i64 →
  Z.min maximum (l * 2 ^ Z.of_nat n) ≤ limit_loop n l maximum ≤ maximum ∧ (limit_loop n l maximum < maximum → limit_loop n l maximum = l * 2 ^ Z.of_nat n).
Proof.
  revert l. induction n as [|n IH]; intros l Hl Hm; [cbn; lia|]. cbn [limit_loop]. rewrite Nat2Z.inj_succ, Z.pow_succ_r by lia.
  destruct (Z.leb_spec (maximum / 2) l) as [Hge|Hlt]; [split; [lia|lia]|].
  assert (Hd : l * 2 ≤ maximum) by (pose proof (Z.mul_div_le maximum 2); lia). rewrite i64_small by (unfold max_i64 in *; lia).
  rewrite (Z.mul_assoc l 2). apply IH; lia.
Qed.
(** The window of a delay doubles with each attempt up to the maximum; the doubling never overflows. *)
Lemma jitter_limit_spec policy n : validate policy = true → rt_BackoffMax policy ≤ max_i64 → 2 ≤ n →
  Z.min (rt_BackoffMax policy) (rt_BackoffMin policy * 2 ^ (n - 2)) ≤ jitter_limit policy n ≤ rt_BackoffMax policy ∧
  (jitter_limit policy n < rt_BackoffMax policy → jitter_limit policy n = rt_BackoffMin policy * 2 ^ (n - 2)) ∧ 0 < jitter_limit policy n.
Proof.
  unfold validate. intros Hv Hm Hn. apply negb_true_iff in Hv. repeat (apply orb_false_iff in Hv as [Hv ?]). bool_hyps.
  destruct (limit_loop_spec (Z.to_nat (n - 2)) (rt_BackoffMin policy) (rt_BackoffMax policy)) as [[Hlo Hhi] Heq]; [lia|done|]. rewrite Z2Nat.id in * by lia.
  pose proof (Z.pow_pos_nonneg 2 (n - 2) ltac:(lia) ltac:(lia)).
  unfold jitter_limit. destruct (Z.ltb_spec (rt_BackoffMax policy) (limit_loop (Z.to_nat (n - 2)) (rt_BackoffMin policy) (rt_BackoffMax policy))); [lia|]. split; [done|]. split; [done|]. nia.
Qed.

(** * The budget *)
Inductive bop := OpBegin (key : string) | OpTake (key : string) (ratio : spec_float).
(** Any interleaving of the budget's calls, with their answers. *)
Definition bstep (u : Z) (b : Budget) (o : bop) : Budget * option bool :=
  match o with
  | OpBegin key => (begin_ key b, None)
  | OpTake key ratio => let '(granted, b) := take_ u key ratio b in (b, Some granted)
  end.
Fixpoint bsteps (u : Z) (b : Budget) (ops : list bop) : Budget * list (bop * option bool) :=
  match ops with
  | [] => (b, [])
  | o :: ops => let '(b, a) := bstep u b o in let '(b, l) := bsteps u b ops in (b, (o, a) :: l)
  end.
Definition is_begin (key : string) (x : bop * option bool) : bool := match x.1 with OpBegin k => k == key | _ => false end.
Definition is_grant (key : string) (x : bop * option bool) : bool := match x with (OpTake k _, Some true) => k == key | _ => false end.
Definition is_refusal (key : string) (x : bop * option bool) : bool :=
  match x with (OpTake k ratio, Some false) => (k == key) && positive64 ratio | _ => false end.
Definition counted (f : bop * option bool → bool) (l : list (bop * option bool)) : Z := zlen (List.filter f l).
Lemma counted_app f l l' : counted f (l ++ l') = counted f l + counted f l'.
Proof. unfold counted. by rewrite List.filter_app, zlen_app. Qed.
Lemma counted_one f x : counted f [x] = if f x then 1 else 0.
Proof. unfold counted. cbn. by destruct (f x). Qed.
Lemma counted_nonneg f l : 0 ≤ counted f l.
Proof. apply zlen_nonneg. Qed.

(** [V] bounds the ratios used for each key, in units of the smallest number. *)
Record budget_ok (V : string → Z) (burst : Z) (l : list (bop * option bool)) (b : Budget) : Prop := {
  bo_burst : bg_burst b = burst;
  bo_counts : ∀ key, let c := bucket_of b key in
    bu_primary c = counted (is_begin key) l ∧ bu_retries c = counted (is_grant key) l ∧ bu_rejected c = counted (is_refusal key) l;
  bo_bound : ∀ key, (bu_retries (bucket_of b key) - burst) * 2 ^ 1074 ≤ bu_primary (bucket_of b key) * V key + 2 ^ 1073
}.
(** In integers, a half does not count. *)
Lemma scaled_le z p v : 0 ≤ z → 0 ≤ p → v ≤ 2 ^ 1074 → z * 2 ^ 1074 ≤ p * v + 2 ^ 1073 → 0 ≤ z ≤ p.
Proof.
  intros Hz Hp Hv Hle. split; [done|]. assert (Hd : 2 ^ 1074 = 2 * 2 ^ 1073) by (rewrite <- Z.pow_succ_r by lia; f_equal; lia). pose proof (Z.pow_pos_nonneg 2 1073 ltac:(lia) ltac:(lia)).
  rewrite Hd in *. generalize dependent (2 ^ 1073). intros. nia.
Qed.
Lemma bucket_of_set key key' c b : bucket_of (set_bucket key c b) key' = if decide (key' = key) then c else bucket_of b key'.
Proof. unfold bucket_of, set_bucket. cbn. destruct (decide (key' = key)) as [->|]; [by rewrite lookup_insert_eq|by rewrite lookup_insert_ne]. Qed.
(** Ratios the middleware lets through. *)
Definition ratio_ok (V : string → Z) (o : bop) : Prop :=
  match o with OpTake key ratio => positive64 ratio = true → unit_ratio ratio ∧ scaled ratio ≤ V key | _ => True end.
Lemma counted_eq (f : string → bop * option bool → bool) key key' x : (∀ k, f k x = true → k = key) → key' ≠ key → f key' x = false.
Proof. intros Hf Hne. destruct (f key' x) eqn:E; [by destruct Hne; apply Hf|done]. Qed.

Lemma bstep_ok V u burst l b o : (∀ key, 0 ≤ V key) → 0 ≤ burst → burst + 2 ^ 52 ≤ max_u64 → zlen l < 2 ^ 52 → ratio_ok V o → budget_ok V burst l b →
  budget_ok V burst (l ++ [(o, (bstep u b o).2)]) (bstep u b o).1.
Proof.
  intros HV Hb0 Hb Hl Hr [Hburst Hc Hbd].
  assert (Hsmall : ∀ f, 0 ≤ counted f l ≤ zlen l). { intros f. split; [apply counted_nonneg|]. unfold counted, zlen. pose proof (List.filter_length_le f l). lia. }
  assert (Hkeep : ∀ key c x, (∀ f, f = is_begin ∨ f = is_grant ∨ f = is_refusal → ∀ key', key' ≠ key → f key' x = false) →
    (bu_primary c = counted (is_begin key) (l ++ [x]) ∧ bu_retries c = counted (is_grant key) (l ++ [x]) ∧ bu_rejected c = counted (is_refusal key) (l ++ [x])) →
    (bu_retries c - burst) * 2 ^ 1074 ≤ bu_primary c * V key + 2 ^ 1073 → budget_ok V burst (l ++ [x]) (set_bucket key c b)).
  { intros key c x Hx Hcc Hbc. constructor; [done| |]; intros key'; rewrite bucket_of_set; destruct (decide (key' = key)) as [->|Hne]; try done.
    destruct (Hc key') as (H1 & H2 & H3). cbn zeta. rewrite !counted_app, !counted_one. rewrite (Hx is_begin), (Hx is_grant), (Hx is_refusal) by auto. lia. }
  destruct o as [key|key ratio]; cbn [bstep].
  - destruct (Hc key) as (H1 & H2 & H3). specialize (Hbd key). pose proof (Hsmall (is_begin key)). cbn [fst snd]. apply Hkeep; cbn [bu_primary bu_retries bu_rejected].
    + intros f [->|[->| ->]] key' Hne; cbn; try done. by apply bool_decide_eq_false_2.
    + rewrite !counted_app, !counted_one. cbn. rewrite bool_decide_eq_true_2 by done. rewrite u64_add_small by (unfold max_u64 in *; lia). lia.
    + rewrite u64_add_small by (unfold max_u64 in *; lia). specialize (HV key). rewrite Z.mul_add_distr_r. generalize dependent (2 ^ 1074). generalize (2 ^ 1073). intros. lia.
  - unfold take_. destruct (positive64 ratio) eqn:Hpos; cbn [negb].
    + destruct (Hc key) as (H1 & H2 & H3). specialize (Hbd key). pose proof (Hsmall (is_begin key)). pose proof (Hsmall (is_refusal key)). pose proof (Hsmall (is_grant key)).
      destruct (Hr Hpos) as [Hu HVr]. destruct (trunc_mul_scaled (bu_primary (bucket_of b key)) ratio) as (z & Hz & Hz0 & Hzs); [lia|done|].
      assert (Hzr : 0 ≤ z ≤ bu_primary (bucket_of b key)) by (apply (scaled_le z _ (scaled ratio)); [done|lia|by apply unit_ratio_scaled|done]).
      assert (HzV : z * 2 ^ 1074 ≤ bu_primary (bucket_of b key) * V key + 2 ^ 1073).
      { etransitivity; [exact Hzs|]. apply Z.add_le_mono_r, Z.mul_le_mono_nonneg_l; lia. }
      assert (Hfl : floor_u64 u (mul64 (float64 (bu_primary (bucket_of b key))) ratio) = z).
      { unfold floor_u64. rewrite Hz. destruct (Z.leb_spec 0 z), (Z.leb_spec z max_u64); cbn; try done; unfold max_u64 in *; lia. }
      rewrite Hfl, Hburst, u64_add_small by (unfold max_u64 in *; lia). destruct (Z.leb_spec (burst + z) (bu_retries (bucket_of b key))) as [Hge|Hlt]; cbn [fst snd];
        (apply Hkeep; cbn [bu_primary bu_retries bu_rejected];
        [intros f [->|[->| ->]] key' Hne; cbn; try done; rewrite bool_decide_eq_false_2 by done; done
        |rewrite !counted_app, !counted_one; cbn; rewrite ?bool_decide_eq_true_2 by done; rewrite ?Hpos; cbn; rewrite u64_add_small by (unfold max_u64 in *; lia); lia
        |rewrite ?u64_add_small by (unfold max_u64 in *; lia); first [exact Hbd|etransitivity; [|exact HzV]; apply Z.mul_le_mono_nonneg_r; [apply Z.pow_nonneg; lia|lia]]]).
    + constructor; cbn [fst snd]; try done. intros key'. destruct (Hc key') as (H1 & H2 & H3). rewrite !counted_app, !counted_one. cbn. rewrite Hpos, andb_false_r. lia.
Qed.
Lemma bsteps_ok V u burst l b ops : (∀ key, 0 ≤ V key) → 0 ≤ burst → burst + 2 ^ 52 ≤ max_u64 → zlen l + zlen ops < 2 ^ 52 → Forall (ratio_ok V) ops → budget_ok V burst l b →
  budget_ok V burst (l ++ (bsteps u b ops).2) (bsteps u b ops).1.
Proof.
  intros HV Hb0 Hb. revert l b. induction ops as [|o ops IH]; intros l b Hl Hr Hok; cbn; [by rewrite app_nil_r|]. inv Hr. rewrite zlen_cons in Hl. pose proof (zlen_nonneg ops).
  pose proof (bstep_ok V u burst l b o HV Hb0 Hb ltac:(lia) ltac:(done) Hok) as Hone. destruct (bstep u b o) as [b1 a]. cbn [fst snd] in Hone.
  specialize (IH (l ++ [(o, a)]) b1). destruct (bsteps u b1 ops) as [b2 l2]. cbn [fst snd] in *. rewrite cons_middle, app_assoc. apply IH; [unfold zlen in *; rewrite length_app; cbn [length]; lia|done|done].
Qed.

(** C35: The budget bounds what retries add: after any interleaving of the calls of any number of
    invocations (fewer than 2^52), with ratios of at most one, the retries granted for an operation
    exceed the burst by at most a half more than the exact product of its primary calls and the
    greatest ratio that was used ([V], a ratio in units of 2^-1074), although the code computes the
    product in binary64; they are at most the burst plus the primary calls; and the three counters of
    the operation are exactly the primary calls, the grants and the refusals. *)
Theorem retry_budget_bound V u burst ops key (r := bsteps u (NewBudget burst) ops) :
  (∀ k, 0 ≤ V k ≤ 2 ^ 1074) → 0 ≤ burst → burst + 2 ^ 52 ≤ max_u64 → zlen ops < 2 ^ 52 → Forall (ratio_ok V) ops →
  (counted (is_grant key) r.2 - burst) * 2 ^ 1074 ≤ counted (is_begin key) r.2 * V key + 2 ^ 1073 ∧
  counted (is_grant key) r.2 ≤ burst + counted (is_begin key) r.2 ∧
  bucket_of r.1 key = mkBucket (counted (is_begin key) r.2) (counted (is_grant key) r.2) (counted (is_refusal key) r.2).
Proof.
  intros HV Hb0 Hb Hl Hr. assert (Hok : budget_ok V burst ([] ++ r.2) r.1).
  { apply bsteps_ok; [intros k; apply HV|done..|]. constructor; [done| |]; intros k; unfold bucket_of, NewBudget; cbn [bg_buckets]; rewrite lookup_empty; cbn [default bu_primary bu_retries bu_rejected]; [done|].
    pose proof (Z.pow_nonneg 2 1073 ltac:(lia)). pose proof (Z.pow_nonneg 2 1074 ltac:(lia)). generalize dependent (2 ^ 1074). generalize dependent (2 ^ 1073). intros. nia. }
  cbn [app] in Hok. destruct (bo_counts _ _ _ _ Hok key) as (H1 & H2 & H3). pose proof (bo_bound _ _ _ _ Hok key) as Hbd. rewrite H1, H2 in Hbd.
  pose proof (counted_nonneg (is_begin key) r.2) as Hn.
  split; [done|]. split; [|destruct (bucket_of r.1 key); cbn in *; congruence].
  destruct (decide (counted (is_grant key) r.2 ≤ burst)) as [|Hgt]; [lia|]. pose proof (scaled_le (counted (is_grant key) r.2 - burst) (counted (is_begin key) r.2) (V key) ltac:(lia) Hn ltac:(apply HV) Hbd). lia.
Qed.
Lemma unit_half : unit_ratio (div64 (float64 1) (float64 2)).
Proof. eexists _, _. split; [vm_compute; reflexivity|]. by vm_compute. Qed.
(** Half a retry per call and one to start with: the second retry of the first call is refused. *)
Definition w_ops : list bop :=
  let half := div64 (float64 1) (float64 2) in [OpBegin "k"; OpTake "k" half; OpTake "k" half; OpBegin "k"; OpTake "k" half].
Lemma w_ops_ok : Forall (ratio_ok (λ _, 2 ^ 1073)) w_ops.
Proof.
  assert (Ht : ratio_ok (λ _, 2 ^ 1073) (OpTake "k" (div64 (float64 1) (float64 2)))) by (intros _; split; [apply unit_half|vm_compute; discriminate]).
  assert (Hb : ratio_ok (λ _, 2 ^ 1073) (OpBegin "k")) by exact I.
  exact (Forall_cons_2 _ _ _ Hb (Forall_cons_2 _ _ _ Ht (Forall_cons_2 _ _ _ Ht (Forall_cons_2 _ _ _ Hb (Forall_cons_2 _ _ _ Ht (Forall_nil_2 _)))))).
Qed.
Lemma retry_budget_bound_witness :
  bucket_of (bsteps 0 (NewBudget 1) w_ops).1 "k" = mkBucket 2 2 1 ∧ counted (is_grant "k") (bsteps 0 (NewBudget 1) w_ops).2 ≤ 1 + counted (is_begin "k") (bsteps 0 (NewBudget 1) w_ops).2.
Proof.
  split; [vm_compute; reflexivity|].
  destruct (retry_budget_bound (λ _, 2 ^ 1073) 0 1 w_ops "k" ltac:(intros; split; vm_compute; discriminate) ltac:(lia) ltac:(vm_compute; discriminate) ltac:(by vm_compute) w_ops_ok) as (_ & Hx & _). exact Hx.
Defined.

(** * One invocation *)
Section protocol.
Context {Resp W : Type} `{RetryWorld Resp W}.
(** The window of every delay asked for. *)
Definition wait_ok (policy : RetryPolicy) (number : Z) (d : duration) : Prop := ∃ w, d = (fullJitter policy (number + 1) w).1.
(** A failed attempt that may be repeated. *)
Definition repeatable (policy : RetryPolicy) (number : Z) (err : option goerror) : Prop := Retryable err = true ∧ number < rt_MaxAttempts policy.
(** What may happen from attempt [number] on, with the answer it leads to. *)
Inductive protocol (policy : RetryPolicy) : Z → list revent → option reterror → Prop :=
| PCut number cause : protocol policy number [] (Some (ECause cause))
| PDone number : protocol policy number [RvCall number None] None
| PFailed number e : ¬ repeatable policy number (Some e) → protocol policy number [RvCall number (Some e)] (Some (EHandler e))
| PCutAfter number e cause : repeatable policy number (Some e) → protocol policy number [RvCall number (Some e)] (Some (ECause cause))
| PRefused number e : repeatable policy number (Some e) → protocol policy number [RvCall number (Some e); RvTake false] (Some (EHandler e))
| PCutWaiting number e d cause : repeatable policy number (Some e) → wait_ok policy number d →
    protocol policy number [RvCall number (Some e); RvTake true; RvWait d] (Some (ECause cause))
| PRetry number e d tr a : repeatable policy number (Some e) → wait_ok policy number d → protocol policy (number + 1) tr a →
    protocol policy number (RvCall number (Some e) :: RvTake true :: RvWait d :: tr) a.

Lemma attempts_protocol policy key more number lastErr w : (0 < more)%nat → number + Z.of_nat more = rt_MaxAttempts policy + 1 →
  let '(a, _, tr) := attempts more number policy key lastErr w in protocol policy number tr a.2.
Proof.
  revert number lastErr w. induction more as [|more IH]; intros number lastErr w Hpos Hn; [lia|]. cbn [attempts].
  destruct (rw_cause w) as [[cause|] w1]; [constructor|]. destruct (rw_next number w1) as [[response [e|]] w2]; [|constructor].
  destruct (Retryable (Some e)) eqn:Hre; cbn [negb orb]; [|constructor; intros [? _]; congruence].
  destruct (Z.eqb_spec number (rt_MaxAttempts policy)) as [Hmax|Hne]; [constructor; intros [_ ?]; lia|].
  assert (Hrep : repeatable policy number (Some e)) by (split; [done|lia]).
  destruct (rw_cause w2) as [[cause|] w3]; [by constructor|]. destruct (take_ rw_unspecified key (rt_BudgetRatio policy) (rw_budget w3)) as [[] b]; cbn [negb]; [|by constructor].
  destruct (fullJitter policy (number + 1) (rw_set_budget b w3)) as [d w4] eqn:Hj. assert (Hw : wait_ok policy number d) by (exists (rw_set_budget b w3); by rewrite Hj).
  destruct (rw_wait d w4) as [[cause|] w5]; [by constructor|]. specialize (IH (number + 1) (Some (EHandler e)) w5 ltac:(lia) ltac:(lia)).
  destruct (attempts more (number + 1) policy key (Some (EHandler e)) w5) as [[a w6] tr]. by constructor.
Qed.
Definition calls (tr : list revent) : Z := zlen (List.filter (λ e, match e with RvCall _ _ => true | _ => false end) tr).
Definition grants (tr : list revent) : Z := zlen (List.filter (λ e, match e with RvTake true => true | _ => false end) tr).
Lemma protocol_counts policy number tr a : protocol policy number tr a → number ≤ rt_MaxAttempts policy →
  calls tr ≤ 1 + grants tr ∧ calls tr ≤ rt_MaxAttempts policy - number + 1.
Proof.
  unfold calls, grants. induction 1 as [| | | | | |number e d tr a Hr Hw Hp IH]; intros Hn; cbn; rewrite ?zlen_cons; unfold zlen; cbn; try lia.
  destruct Hr as [_ Hlt]. specialize (IH ltac:(lia)). unfold zlen in IH. lia.
Qed.

(** One invocation under an enabled, idempotent, valid policy, whatever its context, handler,
    budget, random source and timer do: it follows the protocol (attempts are numbered from one;
    only a retryable failure below the maximum is repeated, after a granted token and a delay drawn for
    the next attempt; a success, a final failure, a refused token and an ended context each end it with
    the answer of that attempt or the cause); it makes at most [MaxAttempts] calls, and at most one
    more than the tokens it was granted.  Under any other policy, for probes and for streams, it makes
    exactly one call or none. *)
Theorem retry_protocol target probe policy w :
  let '(a, _, tr) := invoke false (Some target) probe policy w in
  if isStreaming (operation.o_kind target) || probe || negb (rt_Enabled policy) || negb (rt_Idempotent policy) || (rt_MaxAttempts policy <? 2)
  then ∃ err, tr = [RvCall 1 err] ∧ a.2 = EHandler <$> err
  else if validate policy
  then protocol policy 1 tr a.2 ∧ calls tr ≤ rt_MaxAttempts policy ∧ calls tr ≤ 1 + grants tr
  else tr = [] ∧ a = (None, Some ErrInvalidPolicy).
Proof.
  unfold invoke. assert (Honce : let '(a, _, tr) := once w in ∃ err, tr = [RvCall 1 err] ∧ a.2 = EHandler <$> err).
  { unfold once. destruct (rw_next 1 w) as [[response err] w1]. by exists err. }
  destruct (isStreaming (operation.o_kind target)); [done|]. destruct probe; [done|]. destruct (rt_Enabled policy); [|done]. destruct (rt_Idempotent policy); [|done].
  cbn [negb orb]. destruct (Z.ltb_spec (rt_MaxAttempts policy) 2) as [|Hge]; [done|]. destruct (validate policy) eqn:Hv; cbn [negb]; [|done].
  pose proof (attempts_protocol policy (PolicyKey target) (Z.to_nat (rt_MaxAttempts policy)) 1 None
    (rw_set_budget (begin_ (PolicyKey target) (rw_budget w)) w) ltac:(lia) ltac:(lia)) as Hp.
  destruct (attempts _ _ _ _ _ _) as [[a w1] tr]. split; [done|]. destruct (protocol_counts _ _ _ _ Hp ltac:(lia)). lia.
Qed.
End protocol.
