(* ===== verification/Hedging.v ===== *)
(** * governance/hedging: parallel attempts

    Models [middleware.go].  The loop of [invoke] is a step machine: what its select receives is an
    event, the attempts whose goroutines have not reported are kept with their numbers.  The theorem
    says which answers the loop gives, that it starts no more attempts than allowed and that it
    never waits for nobody. *)
From S2P Require Import Prelude Access Breaker Retry.
Import Breaker.Failure.
Open Scope Z_scope.

Record HedgingPolicy := mkHedgingPolicy { hg_Enabled : bool; hg_Idempotent : bool; hg_MaxAttempts : Z; hg_Delay : duration }.
Inductive hedgerror := HErrInvalidOption | HErrMissingOperation | HErrInvalidPolicy | HHandler (err : goerror) | HJoined (failures : list goerror) | HCause (cause : goerror).

(** What the middleware does before it hedges: one call, an error, or hedged calls. *)
Inductive decision := DOnce | DError (err : hedgerror) | DHedge.
Definition decide_hedging (nil_ctx : bool) (target : option operation.Operation) (probe : bool) (policy : HedgingPolicy) : decision :=
  if nil_ctx then DError HErrInvalidOption
  else match target with
  | None => DError HErrMissingOperation
  | Some target =>
      if isStreaming (operation.o_kind target) then DOnce
      else if probe then DOnce
      else if negb (hg_Enabled policy) || negb (hg_Idempotent policy) || (hg_MaxAttempts policy <? 2) then DOnce
      else if (hg_Delay policy <=? 0) || (5 <? hg_MaxAttempts policy) then DError HErrInvalidPolicy
      else DHedge
  end.

Section hedging.
Context {Resp : Type} (policy : HedgingPolicy).

(** [running]: the attempts whose results have not been received; [armed]: the timer is not nil. *)
Record hedge := mkHedge { he_launched : Z; he_active : Z; he_running : list Z; he_failures : list goerror; he_armed : bool }.
Definition launch (h : hedge) : hedge :=
  mkHedge (he_launched h + 1) (he_active h + 1) (he_running h ++ [he_launched h + 1]) (he_failures h) (he_armed h).
Definition start : hedge :=
  let h := launch (mkHedge 0 0 [] [] false) in mkHedge (he_launched h) (he_active h) (he_running h) (he_failures h) true.

Inductive hevent :=
| HDone (cause : goerror)                                                     (* <-ctx.Done() *)
| HResult (number : Z) (response : option Resp) (err : option goerror)        (* <-results *)
| HTimer.                                                                     (* <-timer *)
Definition hanswer : Type := option Resp * option hedgerror.
(** One turn of the loop; an event that cannot happen leaves it as it is. *)
Definition turn (h : hedge) (e : hevent) : hedge + hanswer :=
  match e with
  | HDone cause => inr (None, Some (HCause cause))
  | HResult number response err =>
      if negb (bool_decide (number ∈ he_running h)) then inl h
      else
        let h := mkHedge (he_launched h) (he_active h - 1) (list_difference (he_running h) [number]) (he_failures h) (he_armed h) in
        match err with
        | None => inr (response, None)
        | Some cause =>
            if negb (Retryable err) then inr (response, Some (HHandler cause))
            else
              let h := mkHedge (he_launched h) (he_active h) (he_running h) (he_failures h ++ [cause]) (he_armed h) in
              let h := if (he_active h =? 0) && (he_launched h <? hg_MaxAttempts policy) then launch h else h in
              if (he_active h =? 0) && (he_launched h =? hg_MaxAttempts policy) then inr (None, Some (HJoined (he_failures h))) else inl h
        end
  | HTimer =>
      if negb (he_armed h) then inl h
      else
        let h := if he_launched h <? hg_MaxAttempts policy then launch h else h in
        inl (mkHedge (he_launched h) (he_active h) (he_running h) (he_failures h) (he_launched h <? hg_MaxAttempts policy))
  end.
(** [for active > 0]. *)
Fixpoint loop (h : hedge) (events : list hevent) : hedge + hanswer :=
  if negb (0 <? he_active h) then inr (None, Some (HJoined (he_failures h)))
  else match events with
  | [] => inl h
  | e :: events => match turn h e with inl h => loop h events | inr a => inr a end
  end.

(** ** Correctness *)

Record hedge_ok (h : hedge) : Prop := {
  ho_active : he_active h = zlen (he_running h);
  ho_running : 0 < he_active h;
  ho_numbers : NoDup (he_running h) ∧ Forall (λ n, 1 ≤ n ≤ he_launched h) (he_running h);
  ho_launched : 1 ≤ he_launched h ≤ hg_MaxAttempts policy;
  ho_count : he_launched h = he_active h + zlen (he_failures h);
  ho_failures : Forall (λ c, Retryable (Some c) = true) (he_failures h)
}.
Lemma launch_numbers h : NoDup (he_running h) ∧ Forall (λ n, 1 ≤ n ≤ he_launched h) (he_running h) → 0 ≤ he_launched h →
  NoDup (he_running (launch h)) ∧ Forall (λ n, 1 ≤ n ≤ he_launched (launch h)) (he_running (launch h)).
Proof.
  intros [Hnd Hall] Hl. cbn. split.
  - apply NoDup_app. split; [done|]. split; [|by apply NoDup_singleton]. intros x Hx Hs%list_elem_of_singleton. rewrite Forall_forall in Hall. specialize (Hall x Hx). lia.
  - apply Forall_app. split; [eapply Forall_impl; [exact Hall|]; cbn; lia|]. repeat constructor; lia.
Qed.
Lemma hedge_start_ok : 2 ≤ hg_MaxAttempts policy → hedge_ok start.
Proof.
  intros Hm. constructor; cbn; try done; try lia. split; [apply NoDup_singleton|]. repeat constructor; lia.
Qed.
Lemma difference_one (l : list Z) n : NoDup l → n ∈ l → zlen (list_difference l [n]) = zlen l - 1.
Proof.
  intros Hnd Hin. assert (Hp : l ≡ₚ n :: list_difference l [n]).
  { apply NoDup_Permutation; [done|constructor; [|by apply NoDup_list_difference]|].
    - rewrite list_elem_of_difference. intros [_ Hx]. destruct Hx. by left.
    - intros x. rewrite elem_of_cons, list_elem_of_difference, list_elem_of_singleton. destruct (decide (x = n)) as [->|]; naive_solver. }
  apply Permutation_length in Hp. unfold zlen. rewrite Hp. cbn. lia.
Qed.
(** What a turn returns, and what it keeps. *)
Lemma turn_ok h e : hedge_ok h →
  match turn h e with
  | inl h' => hedge_ok h' ∧ he_launched h ≤ he_launched h' ≤ he_launched h + 1
  | inr a => (∃ cause, e = HDone cause ∧ a = (None, Some (HCause cause))) ∨
      (∃ n response, e = HResult n response None ∧ n ∈ he_running h ∧ a = (response, None)) ∨
      (∃ n response cause, e = HResult n response (Some cause) ∧ n ∈ he_running h ∧ Retryable (Some cause) = false ∧ a = (response, Some (HHandler cause))) ∨
      (∃ n response cause, e = HResult n response (Some cause) ∧ n ∈ he_running h ∧ a = (None, Some (HJoined (he_failures h ++ [cause]))) ∧
         zlen (he_failures h ++ [cause]) = hg_MaxAttempts policy ∧ Forall (λ c, Retryable (Some c) = true) (he_failures h ++ [cause]))
  end.
Proof.
  intros Hok. pose proof Hok as [Ha Hr [Hnd Hall] Hl Hc Hf]. destruct e as [cause|n response err|]; cbn [turn].
  - left. eauto.
  - case_bool_decide as Hin; cbn [negb]; [|split; [done|lia]]. destruct err as [cause|]; [|right; left; eauto].
    destruct (Retryable (Some cause)) eqn:Hre; cbn [negb]; [|right; right; left; naive_solver].
    cbn [he_active he_launched he_running he_failures he_armed].
    assert (Hlen : zlen (list_difference (he_running h) [n]) = he_active h - 1) by (rewrite difference_one by done; lia).
    assert (Hfs : Forall (λ c, Retryable (Some c) = true) (he_failures h ++ [cause])) by (apply Forall_app; split; [done|by repeat constructor]).
    assert (Hnums : NoDup (list_difference (he_running h) [n]) ∧ Forall (λ m, 1 ≤ m ≤ he_launched h) (list_difference (he_running h) [n])).
    { split; [by apply NoDup_list_difference|]. apply Forall_forall. intros x [Hx _]%list_elem_of_difference. by apply (proj1 (Forall_forall _ _) Hall). }
    assert (Hzf : zlen (he_failures h ++ [cause]) = zlen (he_failures h) + 1) by (unfold zlen; rewrite length_app; cbn; lia).
    destruct (Z.eqb_spec (he_active h - 1) 0) as [H0|H0]; cbn [andb].
    + destruct (Z.ltb_spec (he_launched h) (hg_MaxAttempts policy)) as [Hlt|Hge].
      * set (g := launch _). assert (Hg : hedge_ok g).
        { constructor; cbn; try done; try lia; [unfold zlen; rewrite length_app; cbn; unfold zlen in Hlen; lia|].
          apply (launch_numbers (mkHedge (he_launched h) (he_active h - 1) (list_difference (he_running h) [n]) (he_failures h ++ [cause]) (he_armed h))); [done|cbn; lia]. }
        destruct (Z.eqb_spec (he_active g) 0) as [Hg0|]; [pose proof (ho_running _ Hg); lia|]. cbn [andb]. split; [done|]. cbn. lia.
      * cbn [he_active he_launched he_failures]. rewrite (proj2 (Z.eqb_eq _ _) H0). cbn [andb]. destruct (Z.eqb_spec (he_launched h) (hg_MaxAttempts policy)); [|lia].
        right. right. right. exists n, response, cause. split; [done|]. split; [done|]. split; [done|]. split; [lia|done].
    + cbn [he_active he_launched he_failures]. destruct (Z.eqb_spec (he_active h - 1) 0); [lia|]. cbn [andb]. split; [|cbn; lia]. constructor; cbn; try done; lia.
  - destruct (he_armed h) eqn:Harm; cbn [negb]; [|split; [done|lia]]. destruct (Z.ltb_spec (he_launched h) (hg_MaxAttempts policy)) as [Hlt|Hge].
    + split; [|cbn; lia]. constructor; cbn; try done; try lia; [unfold zlen in *; rewrite length_app; cbn; lia|]. by apply launch_numbers; [|lia].
    + split; [|cbn; lia]. by constructor.
Qed.
(** Why the loop returned [a] at event [e], in state [h]. *)
Definition returned (h : hedge) (e : hevent) (a : hanswer) : Prop :=
  match e with
  | HDone cause => a = (None, Some (HCause cause))
  | HTimer => False
  | HResult n response None => n ∈ he_running h ∧ a = (response, None)
  | HResult n response (Some cause) => n ∈ he_running h ∧
      if Retryable (Some cause)
      then a = (None, Some (HJoined (he_failures h ++ [cause]))) ∧ zlen (he_failures h ++ [cause]) = hg_MaxAttempts policy ∧
           he_launched h = hg_MaxAttempts policy ∧ Forall (λ c, Retryable (Some c) = true) (he_failures h ++ [cause])
      else a = (response, Some (HHandler cause))
  end.
Lemma loop_ok h events : hedge_ok h →
  match loop h events with
  | inl h' => hedge_ok h'
  | inr a => ∃ before e after h', events = before ++ e :: after ∧ loop h before = inl h' ∧ hedge_ok h' ∧ returned h' e a
  end.
Proof.
  revert h. induction events as [|e events IH]; intros h Hok; pose proof (ho_running _ Hok) as Hr; cbn [loop]; (destruct (Z.ltb_spec 0 (he_active h)) as [_|]; [|lia]); cbn [negb]; [done|].
  pose proof (turn_ok h e Hok) as Ht. destruct (turn h e) as [h1|a] eqn:Hturn.
  - destruct Ht as [Hok1 _]. specialize (IH h1 Hok1). destruct (loop h1 events) as [h2|a]; [done|].
    destruct IH as (before & e' & after & h' & -> & Hl & Hok' & Hret). exists (e :: before), e', after, h'. split; [done|]. split; [|done].
    cbn [loop]. destruct (Z.ltb_spec 0 (he_active h)) as [_|]; [|lia]. cbn [negb]. by rewrite Hturn.
  - exists [], e, events, h. split; [done|]. split; [cbn [loop]; destruct (Z.ltb_spec 0 (he_active h)) as [_|]; [done|lia]|]. split; [done|].
    pose proof (ho_count _ Hok). pose proof (ho_launched _ Hok).
    destruct Ht as [(cause & -> & ->)|[(n & response & -> & Hn & ->)|[(n & response & cause & -> & Hn & Hre & ->)|(n & response & cause & -> & Hn & -> & Hz & Hf)]]]; cbn; try done.
    + split; [done|]. by rewrite Hre.
    + split; [done|]. assert (Hre : Retryable (Some cause) = true). { apply Forall_app in Hf as [_ Hf]. by inv Hf. }
      rewrite Hre. split; [done|]. split; [done|]. split; [|done]. unfold zlen in *. rewrite length_app in Hz. cbn in Hz. lia.
Qed.
End hedging.
Arguments hevent : clear implicits.
Arguments hanswer : clear implicits.

(** A hedged invocation, for every order in which results, the timer and the end of the context
    arrive: while it waits, at least one attempt is running, it has launched at most [MaxAttempts]
    (each with its own number) and has received fewer failures than that, so it never waits for
    nobody and returns at the latest with the result of the last attempt.  It returns at the first
    success with its response, at the first failure that is not retryable with that failure, when
    the context ends with its cause, and otherwise only when all [MaxAttempts] attempts failed, with
    all their failures in the order in which they arrived. *)
Theorem hedging_protocol {Resp} (policy : HedgingPolicy) (events : list (hevent Resp)) :
  2 ≤ hg_MaxAttempts policy →
  match loop policy start events with
  | inl h => he_running h ≠ [] ∧ he_launched h ≤ hg_MaxAttempts policy ∧ NoDup (he_running h) ∧
      zlen (he_failures h) + zlen (he_running h) = he_launched h ∧ zlen (he_failures h) < hg_MaxAttempts policy
  | inr a => ∃ before e after h, events = before ++ e :: after ∧ loop policy start before = inl h ∧ returned policy h e a
  end.
Proof.
  intros Hm. pose proof (loop_ok policy start events (hedge_start_ok policy Hm)) as Hl. destruct (loop policy start events) as [h|a].
  - pose proof Hl as [Ha Hr [Hnd _] Hla Hc _]. split; [|split; [lia|split; [done|lia]]]. intros Hx. rewrite Hx in Ha. change (zlen ([] : list Z)) with 0 in Ha. lia.
  - destruct Hl as (before & e & after & h & Hev & Hl & _ & Hret). by exists before, e, after, h.
Qed.
(** The first attempt is slow: the hedge answers, and is returned. *)
Definition w_policy : HedgingPolicy := mkHedgingPolicy true true 3 millisecond.
Definition w_transport : goerror := Node TagMarked [].
Lemma hedging_protocol_witness :
  loop w_policy start [HTimer; HResult 1 None (Some w_transport); HResult 2 (Some "second") None] = inr (Some "second", None) ∧
  ∃ before e after h, [HTimer; HResult 1 None (Some w_transport); HResult 2 (Some "second") None] = before ++ e :: after ∧
    loop w_policy start before = inl h ∧ returned w_policy h e (Some "second", None).
Proof.
  split; [vm_compute; reflexivity|]. pose proof (hedging_protocol w_policy [HTimer; HResult 1 None (Some w_transport); HResult 2 (Some "second") None] ltac:(done)) as Hx.
  assert (Hl : loop w_policy start [HTimer; HResult 1 None (Some w_transport); HResult 2 (Some "second") None] = inr (Some "second", None)) by (vm_compute; reflexivity).
  rewrite Hl in Hx. exact Hx.
Defined.
