(* ===== verification/RateLimit.v ===== *)
(** * governance/ratelimit: token buckets with a concurrency gate

    Models [limiter.go] and [distributed.go].  Limiters
    live in a pool and permits point to theirs, so both are kept by name; a permit without
    limiter is the empty [Permit] of a disabled policy.  [Acquire] reads the clock before it locks the
    limiter, so the time of a step may lie before that of an earlier one. *)
From S2P Require Import Prelude GoText GoFloat GoDecode Access Idempotency ProjQuota.
Open Scope Z_scope.

Record RateLimitPolicy := mkRatePolicy { rl_Enabled : bool; rl_RequestsPerSecond : spec_float; rl_Burst : Z; rl_MaxConcurrency : Z }.
Inductive rlerror :=
| ErrLimited (retryMilliseconds : option Z) | ErrInvalidOption | ErrInvalidPolicy | ErrUnavailable (cause : rlerror) | ErrInvalidSubject
| ErrInvalidDecision | ECause (text : string) | EBackend (text : string).
Definition f0 : spec_float := float64 0.
Definition f1 : spec_float := float64 1.
Definition finite64 (x : spec_float) : bool := match x with S754_nan | S754_infinity _ => false | _ => true end.

(** ** The limiter *)
Record Limiter := mkLimiter {
  li_initialized : bool; li_rate : spec_float; li_burst : Z; li_last : time; li_tokens : spec_float; li_inflight : Z; li_accepted : Z; li_rejected : Z
}.
Definition NewLimiter : Limiter := mkLimiter false f0 0 0 f0 0 0 0.
Definition validate (config : RateLimitPolicy) : bool :=
  let hasRate := SFltb f0 (rl_RequestsPerSecond config) || (0 <? rl_Burst config) in
  negb (SFltb (rl_RequestsPerSecond config) f0 || negb (finite64 (rl_RequestsPerSecond config)) || (rl_Burst config <? 0) || (rl_MaxConcurrency config <? 0) ||
        hasRate && (SFleb (rl_RequestsPerSecond config) f0 || (rl_Burst config <=? 0)) ||
        negb hasRate && (rl_MaxConcurrency config <=? 0)).
Definition configure (now : time) (config : RateLimitPolicy) (l : Limiter) : Limiter :=
  if li_initialized l && SFeqb (li_rate l) (rl_RequestsPerSecond config) && (li_burst l =? rl_Burst config) then l
  else mkLimiter true (rl_RequestsPerSecond config) (rl_Burst config) now (float64 (rl_Burst config)) (li_inflight l) (li_accepted l) (li_rejected l).
Definition refill (now : time) (l : Limiter) : Limiter :=
  let with_tokens tokens := mkLimiter (li_initialized l) (li_rate l) (li_burst l) now tokens (li_inflight l) (li_accepted l) (li_rejected l) in
  if SFleb (li_rate l) f0 || Before now (li_last l) then with_tokens (li_tokens l)
  else with_tokens (min64 (float64 (li_burst l)) (add64 (li_tokens l) (mul64 (duration_seconds (elapsed_since now (li_last l))) (li_rate l)))).
Definition reject (l : Limiter) : Limiter :=
  mkLimiter (li_initialized l) (li_rate l) (li_burst l) (li_last l) (li_tokens l) (li_inflight l) (li_accepted l) (u64_add (li_rejected l) 1).
(** A policy that is enabled and valid: whether a token and a slot were taken. *)
Definition take_slot (now : time) (config : RateLimitPolicy) (l : Limiter) : bool * Limiter :=
  let l := refill now (configure now config l) in
  let rated := SFltb f0 (rl_RequestsPerSecond config) in
  if (0 <? rl_MaxConcurrency config) && (rl_MaxConcurrency config <=? li_inflight l) then (false, reject l)
  else if rated && SFltb (li_tokens l) f1 then (false, reject l)
  else
    (true, mkLimiter (li_initialized l) (li_rate l) (li_burst l) (li_last l) (if rated then sub64 (li_tokens l) f1 else li_tokens l)
       (li_inflight l + 1) (u64_add (li_accepted l) 1) (li_rejected l)).
Definition release_slot (l : Limiter) : Limiter :=
  mkLimiter (li_initialized l) (li_rate l) (li_burst l) (li_last l) (li_tokens l)
    (if 0 <? li_inflight l then li_inflight l - 1 else li_inflight l) (li_accepted l) (li_rejected l).
Record Description := mkDescription { de_Key : string; de_Tokens : spec_float; de_Inflight : Z; de_Accepted : Z; de_Rejected : Z }.

(** ** The pool and its permits *)
Record Permit := mkPermit { pe_limiter : option string; pe_released : bool }.
Record Pool := mkPool { po_limiters : gmap string Limiter; po_permits : list Permit }.
Definition NewPool : Pool := mkPool ∅ [].
(** [Get]: the key of the limiter, which now exists. *)
Definition Get (key : string) (p : Pool) : string * Pool :=
  let normalized := TrimSpace key in
  match po_limiters p !! normalized with
  | Some _ => (normalized, p)
  | None => (normalized, mkPool (<[normalized := NewLimiter]> (po_limiters p)) (po_permits p))
  end.
Definition limiter_of (p : Pool) (key : string) : Limiter := default NewLimiter (po_limiters p !! key).
(** [Limiter.Acquire]; the permit is the index of a new one. *)
Definition Acquire (now : time) (key : string) (config : RateLimitPolicy) (p : Pool) : result rlerror nat * Pool :=
  let fresh permit limiters := (Ok (length (po_permits p)), mkPool limiters (po_permits p ++ [permit])) in
  if negb (rl_Enabled config) then fresh (mkPermit None false) (po_limiters p)
  else if negb (validate config) then (Err ErrInvalidPolicy, p)
  else
    let '(granted, l) := take_slot now config (limiter_of p key) in
    let limiters := <[key := l]> (po_limiters p) in
    if granted then fresh (mkPermit (Some key) false) limiters else (Err (ErrLimited None), mkPool limiters (po_permits p)).
Definition Release (i : nat) (p : Pool) : Pool :=
  match po_permits p !! i with
  | Some (mkPermit (Some key) false) =>
      mkPool (<[key := release_slot (limiter_of p key)]> (po_limiters p)) (<[i := mkPermit (Some key) true]> (po_permits p))
  | _ => p
  end.
Definition Describe (p : Pool) : list Description :=
  (λ key, let l := limiter_of p key in mkDescription key (li_tokens l) (li_inflight l) (li_accepted l) (li_rejected l)) <$> sort_strings (map_to_list (po_limiters p)).*1.

(** ** Shared quotas *)
Inductive FailureMode := FailClosed | FailOpen | LocalFallback | FailureOther (raw : Z).
Inductive Degradation := DegradationNone | DegradationFailOpen | DegradationLocalFallback.
Record Subject := mkSubject { su_Key : string; su_Cost : Z }.
Record Quota := mkQuota { qo_Key : string; qo_Rate : spec_float; qo_Burst : Z; qo_Cost : Z }.
Record Decision := mkDecision { dc_Allowed : bool; dc_Remaining : spec_float; dc_RetryAfter : duration }.
Record DistributedConfig := mkDistConfig { dg_Mode : FailureMode; dg_BackendTimeout : duration }.
Definition defaultBackendTimeout : duration := 50 * millisecond.
Definition maxSubjectBytes : Z := 256.
Definition NewDistributedLimiter (nil_backend : bool) (config : DistributedConfig) : option DistributedConfig :=
  if nil_backend then None
  else match dg_Mode config with
  | FailureOther _ => None
  | mode =>
      let backendTimeout := or_default (dg_BackendTimeout config) defaultBackendTimeout in
      if backendTimeout <=? 0 then None else Some (mkDistConfig mode backendTimeout)
  end.
Record Counters := mkCounters { ct_accepted : Z; ct_rejected : Z; ct_backendErrors : Z; ct_failOpen : Z; ct_localFallback : Z; ct_lastError : string }.
Definition recordAccepted (c : Counters) : Counters := mkCounters (u64_add (ct_accepted c) 1) (ct_rejected c) (ct_backendErrors c) (ct_failOpen c) (ct_localFallback c) (ct_lastError c).
Definition recordRejected (c : Counters) : Counters := mkCounters (ct_accepted c) (u64_add (ct_rejected c) 1) (ct_backendErrors c) (ct_failOpen c) (ct_localFallback c) (ct_lastError c).
Definition recordBackendError (text : string) (c : Counters) : Counters := mkCounters (ct_accepted c) (ct_rejected c) (u64_add (ct_backendErrors c) 1) (ct_failOpen c) (ct_localFallback c) text.
Definition recordFailOpen (c : Counters) : Counters := mkCounters (ct_accepted c) (ct_rejected c) (ct_backendErrors c) (u64_add (ct_failOpen c) 1) (ct_localFallback c) (ct_lastError c).
Definition recordLocalFallback (c : Counters) : Counters := mkCounters (ct_accepted c) (ct_rejected c) (ct_backendErrors c) (ct_failOpen c) (u64_add (ct_localFallback c) 1) (ct_lastError c).
Definition clearLastError (c : Counters) : Counters := mkCounters (ct_accepted c) (ct_rejected c) (ct_backendErrors c) (ct_failOpen c) (ct_localFallback c) "".

Definition concurrencyPolicy (config : RateLimitPolicy) : RateLimitPolicy :=
  if rl_MaxConcurrency config <=? 0 then mkRatePolicy false f0 0 0 else mkRatePolicy true f0 0 (rl_MaxConcurrency config).
Definition validateSubject (s : Subject) : bool := valid_text maxSubjectBytes (su_Key s) && (0 <? su_Cost s).
Definition validateDecision (d : Decision) : bool :=
  negb (SFltb (dc_Remaining d) f0 || negb (finite64 (dc_Remaining d)) || (dc_RetryAfter d <? 0)).
Definition limitedError (d : Decision) : rlerror :=
  if dc_RetryAfter d <=? 0 then ErrLimited None else ErrLimited (Some (Z.max 1 (dc_RetryAfter d / millisecond))).

Record DistributedLimiter := mkDist { di_config : DistributedConfig; di_local : Pool; di_counters : Counters }.
Record DistributedPermit := mkDistPermit { dp_local : option nat; dp_decision : Decision; dp_degradation : Degradation }.
Definition allowed : Decision := mkDecision true f0 0.
Definition count (f : Counters → Counters) (l : DistributedLimiter) : DistributedLimiter := mkDist (di_config l) (di_local l) (f (di_counters l)).
Definition acquireLocal (now : time) (key : string) (config : RateLimitPolicy) (decision : Decision) (degradation : Degradation) (l : DistributedLimiter) :
    result rlerror DistributedPermit * DistributedLimiter :=
  if negb (rl_Enabled config) then (Ok (mkDistPermit None decision degradation), count recordAccepted l)
  else
    let '(key, pool) := Get key (di_local l) in
    let '(answer, pool) := Acquire now key config pool in
    let l := mkDist (di_config l) pool (di_counters l) in
    match answer with
    | Err err => (Err err, count recordRejected l)
    | Ok permit => (Ok (mkDistPermit (Some permit) decision degradation), count recordAccepted l)
    end.
(** [boundedError] of the text of an error. *)
Definition boundedError (text : string) (limit : Z) : string :=
  let value := flat_map (λ r, encode_rune (if IsControl r then 32 else r)) (range_runes (String.length text) (bytes_of text)) in
  string_of_bytes (take (Z.to_nat limit) value).
(** [DistributedLimiter.Acquire]: the causes of the context before and after the call of the backend,
    the subject the request has, what the backend answers (an error with its text). *)
Definition DistAcquire (now : time) (cause : option rlerror) (target : operation.Operation) (config : RateLimitPolicy) (subject : result rlerror Subject)
    (backend : Quota → result string Decision) (cause' : option rlerror) (l : DistributedLimiter) : result rlerror DistributedPermit * DistributedLimiter :=
  match cause with
  | Some err => (Err err, l)
  | None =>
      if (operation.o_transport target == "") || (operation.o_service target == "") || (operation.o_method target == "") then (Err ErrInvalidSubject, l)
      else if negb (rl_Enabled config) then (Ok (mkDistPermit None (mkDecision false f0 0) DegradationNone), l)
      else if negb (validate config) then (Err ErrInvalidPolicy, l)
      else if negb (SFltb f0 (rl_RequestsPerSecond config)) then acquireLocal now (PolicyKey target) (concurrencyPolicy config) allowed DegradationNone l
      else match subject with
      | Err _ => (Err ErrInvalidSubject, l)
      | Ok subject =>
          if negb (validateSubject subject) then (Err ErrInvalidSubject, l)
          else if rl_Burst config <? su_Cost subject then (Err (ErrLimited None), count recordRejected l)
          else
            let answer := backend (mkQuota (su_Key subject) (rl_RequestsPerSecond config) (rl_Burst config) (su_Cost subject)) in
            match cause' with
            | Some err => (Err err, l)
            | None =>
                let failed text err :=
                  let l := count (recordBackendError (boundedError text 512)) l in
                  match dg_Mode (di_config l) with
                  | FailClosed => (Err (ErrUnavailable err), count recordRejected l)
                  | FailOpen => acquireLocal now (PolicyKey target) (concurrencyPolicy config) allowed DegradationFailOpen (count recordFailOpen l)
                  | LocalFallback => acquireLocal now (PolicyKey target) config allowed DegradationLocalFallback (count recordLocalFallback l)
                  | FailureOther _ => (Err ErrInvalidOption, l)
                  end in
                match answer with
                | Err text => failed text (EBackend text)
                | Ok decision =>
                    if negb (validateDecision decision) then failed "ratelimit: invalid distributed decision: negative or non-finite value" ErrInvalidDecision
                    else
                      let l := count clearLastError l in
                      if negb (dc_Allowed decision) then (Err (limitedError decision), count recordRejected l)
                      else acquireLocal now (PolicyKey target) (concurrencyPolicy config) decision DegradationNone l
                end
            end
      end
  end.
(** [DistributedPermit.Release]. *)
Definition DistRelease (permit : DistributedPermit) (l : DistributedLimiter) : DistributedLimiter :=
  match dp_local permit with Some i => mkDist (di_config l) (Release i (di_local l)) (di_counters l) | None => l end.

(** * Accounting *)
Definition of_limiter (key : string) (x : Permit) : bool := pe_limiter x == Some key.
Definition live_of (key : string) (x : Permit) : bool := (pe_limiter x == Some key) && negb (pe_released x).
Definition issued (p : Pool) (key : string) : Z := zlen (List.filter (of_limiter key) (po_permits p)).
Definition live (p : Pool) (key : string) : Z := zlen (List.filter (live_of key) (po_permits p)).
Record pool_ok (p : Pool) : Prop := {
  pk_inflight : ∀ key, li_inflight (limiter_of p key) = live p key;
  pk_accepted : ∀ key, li_accepted (limiter_of p key) = issued p key mod (max_u64 + 1)
}.
Lemma limiter_of_insert key key' l p permits : limiter_of (mkPool (<[key := l]> (po_limiters p)) permits) key' = if decide (key' = key) then l else limiter_of p key'.
Proof. unfold limiter_of. cbn. destruct (decide (key' = key)) as [->|]; [by rewrite lookup_insert_eq|by rewrite lookup_insert_ne]. Qed.
Lemma pool_get_ok key p : pool_ok p → pool_ok (Get key p).2 ∧ (∀ k, limiter_of (Get key p).2 k = limiter_of p k) ∧ po_permits (Get key p).2 = po_permits p.
Proof.
  intros Hok. unfold Get. destruct (po_limiters p !! TrimSpace key) as [l|] eqn:Hl; [done|]. cbn.
  assert (Heq : ∀ k, limiter_of (mkPool (<[TrimSpace key := NewLimiter]> (po_limiters p)) (po_permits p)) k = limiter_of p k).
  { intros k. rewrite limiter_of_insert. destruct (decide (k = TrimSpace key)) as [->|]; [|done]. unfold limiter_of. by rewrite Hl. }
  split; [|done]. constructor; intros k; rewrite Heq; apply Hok.
Qed.
Lemma count_snoc {A} (f : A → bool) l x : zlen (List.filter f (l ++ [x])) = zlen (List.filter f l) + (if f x then 1 else 0).
Proof. rewrite List.filter_app, zlen_app. cbn. by destruct (f x). Qed.
(** What [take_slot] does to the counts. *)
Lemma take_slot_counts now config l : let '(granted, l') := take_slot now config l in
  (granted = true → li_inflight l' = li_inflight l + 1 ∧ li_accepted l' = u64_add (li_accepted l) 1 ∧
     (0 < rl_MaxConcurrency config → li_inflight l < rl_MaxConcurrency config) ∧
     (SFltb f0 (rl_RequestsPerSecond config) = true → SFltb (li_tokens (refill now (configure now config l))) f1 = false)) ∧
  (granted = false → li_inflight l' = li_inflight l ∧ li_accepted l' = li_accepted l).
Proof.
  unfold take_slot. set (l1 := refill now (configure now config l)).
  assert (Hc : li_inflight l1 = li_inflight l ∧ li_accepted l1 = li_accepted l) by (subst l1; unfold refill, configure; repeat case_match; done).
  destruct Hc as [Hi Ha]. destruct ((0 <? rl_MaxConcurrency config) && (rl_MaxConcurrency config <=? li_inflight l1)) eqn:Hm; [split; [done|intros _; cbn; by rewrite Hi, Ha]|].
  assert (Hmax : 0 < rl_MaxConcurrency config → li_inflight l < rl_MaxConcurrency config).
  { intros Hpos. rewrite (proj2 (Z.ltb_lt _ _) Hpos) in Hm. cbn in Hm. apply Z.leb_gt in Hm. lia. }
  destruct (SFltb f0 (rl_RequestsPerSecond config) && SFltb (li_tokens l1) f1) eqn:Ht; [split; [done|intros _; cbn; by rewrite Hi, Ha]|].
  split; [|done]. intros _. cbn [li_inflight li_accepted]. rewrite Hi, Ha. do 3 (split; [done|]). intros Hr. by rewrite Hr in Ht.
Qed.
Lemma limiter_acquire_ok now key config p : pool_ok p → pool_ok (Acquire now key config p).2.
Proof.
  intros Hok. unfold Acquire. destruct (rl_Enabled config) eqn:He; cbn [negb].
  - destruct (validate config); cbn [negb]; [|done]. pose proof (take_slot_counts now config (limiter_of p key)) as Hc. destruct (take_slot now config (limiter_of p key)) as [granted l].
    destruct Hc as [Hg Hr]. destruct granted; cbn.
    + destruct (Hg eq_refl) as (Hi & Ha & _). constructor; intros k; rewrite limiter_of_insert; unfold live, issued; cbn; rewrite count_snoc; unfold live_of, of_limiter; cbn;
        (destruct (decide (k = key)) as [->|Hne]; [rewrite bool_decide_eq_true_2 by done|rewrite bool_decide_eq_false_2 by congruence]); cbn.
      * rewrite Hi, (pk_inflight _ Hok). done.
      * rewrite (pk_inflight _ Hok). by rewrite Z.add_0_r.
      * rewrite Ha, (pk_accepted _ Hok). unfold u64_add. by rewrite Z.add_mod_idemp_l.
      * rewrite (pk_accepted _ Hok). by rewrite Z.add_0_r.
    + destruct (Hr eq_refl) as [Hi Ha]. constructor; intros k; rewrite limiter_of_insert; (destruct (decide (k = key)) as [->|]; [rewrite ?Hi, ?Ha|]); apply Hok.
  - cbn. constructor; intros k; unfold live, issued; cbn; rewrite count_snoc; cbn; rewrite Z.add_0_r; apply Hok.
Qed.
Lemma limiter_release_ok i p : pool_ok p → pool_ok (Release i p).
Proof.
  intros Hok. unfold Release. destruct (po_permits p !! i) as [[[key|] []]|] eqn:Hi; try done.
  constructor; intros k; rewrite limiter_of_insert; unfold live, issued; cbn.
  - pose proof (count_insert (live_of k) _ _ _ (mkPermit (Some key) true) Hi) as Hc. unfold live_of in Hc at 2 4. cbn in Hc. rewrite andb_false_r in Hc. cbn in Hc.
    destruct (decide (k = key)) as [->|Hne].
    + rewrite bool_decide_eq_true_2 in Hc by done. cbn in Hc. cbn. rewrite (pk_inflight _ Hok). unfold live in *.
      pose proof (zlen_nonneg (List.filter (live_of key) (<[i:=mkPermit (Some key) true]> (po_permits p)))). destruct (Z.ltb_spec 0 (zlen (List.filter (live_of key) (po_permits p)))); lia.
    + rewrite bool_decide_eq_false_2 in Hc by congruence. cbn in Hc. rewrite (pk_inflight _ Hok). unfold live. lia.
  - pose proof (count_insert (of_limiter k) _ _ _ (mkPermit (Some key) true) Hi) as Hc. unfold of_limiter in Hc at 2 4. cbn in Hc.
    assert (Heq : zlen (List.filter (of_limiter k) (<[i:=mkPermit (Some key) true]> (po_permits p))) = issued p k) by (unfold issued; lia). rewrite Heq.
    destruct (decide (k = key)) as [->|]; cbn; apply Hok.
Qed.
(** Calls of any number of clients, in any order and with any clock readings. *)
Inductive rop := RAcquire (now : time) (key : string) (config : RateLimitPolicy) | RRelease (i : nat).
Definition rstep (p : Pool) (o : rop) : Pool :=
  match o with
  | RAcquire now key config => let '(key, p) := Get key p in (Acquire now key config p).2
  | RRelease i => Release i p
  end.
Definition rsteps (p : Pool) (l : list rop) : Pool := fold_left rstep l p.
Lemma rsteps_ok p l : pool_ok p → pool_ok (rsteps p l).
Proof.
  revert p. induction l as [|o l IH]; intros p Hok; [done|]. apply IH. destruct o as [now key config|i]; [|by apply limiter_release_ok]. cbn.
  destruct (pool_get_ok key p Hok) as [Hg _]. destruct (Get key p) as [k p']. by apply limiter_acquire_ok.
Qed.
Lemma new_pool_ok : pool_ok NewPool.
Proof. constructor; intros key; unfold limiter_of, NewPool; cbn [po_limiters]; rewrite lookup_empty; done. Qed.

(** Limiters over all interleavings of acquisitions and releases: the slots in use are exactly
    the permits that were issued and not released, however often [Release] is called; the accepted
    count is the number of permits issued; and an acquisition is granted only while fewer permits
    than [MaxConcurrency] are live, and only with a token when the policy has a rate. *)
Theorem limiter_accounting ops (p := rsteps NewPool ops) key now config :
  li_inflight (limiter_of p key) = live p key ∧ li_accepted (limiter_of p key) = issued p key mod (max_u64 + 1) ∧
  let '(answer, p') := Acquire now key config p in
  match answer with
  | Ok i => i = length (po_permits p) ∧ (rl_Enabled config = true →
      live p' key = live p key + 1 ∧ (0 < rl_MaxConcurrency config → live p' key ≤ rl_MaxConcurrency config) ∧
      (SFltb f0 (rl_RequestsPerSecond config) = true → SFltb (li_tokens (refill now (configure now config (limiter_of p key)))) f1 = false))
  | Err _ => po_permits p' = po_permits p
  end.
Proof.
  assert (Hok : pool_ok p) by (apply rsteps_ok, new_pool_ok). split; [apply Hok|]. split; [apply Hok|]. unfold Acquire.
  destruct (rl_Enabled config); cbn [negb]; [|done]. destruct (validate config); cbn [negb]; [|done]. pose proof (take_slot_counts now config (limiter_of p key)) as Hc.
  destruct (take_slot now config (limiter_of p key)) as [[] l]; [|done]. destruct Hc as [Hg _]. destruct (Hg eq_refl) as (_ & _ & Hm & Ht). split; [done|]. intros _.
  assert (Hl : live (mkPool (<[key:=l]> (po_limiters p)) (po_permits p ++ [mkPermit (Some key) false])) key = live p key + 1).
  { unfold live. cbn. rewrite count_snoc. unfold live_of at 2. cbn. by rewrite bool_decide_eq_true_2. }
  rewrite Hl. split; [done|]. split; [|done]. intros Hpos. specialize (Hm Hpos). rewrite (pk_inflight _ Hok) in Hm. lia.
Qed.

(** ** Where the limits end *)
Definition per_second : RateLimitPolicy := mkRatePolicy true f1 1 0.
(** A goroutine that read the clock early locks the limiter late: [refill] moves [last] back and the same
    interval is credited again.  With one request per second and a burst of one, three requests
    pass within one and a half seconds. *)
Theorem interval_credited_twice :
  let p0 := NewPool in
  let '(a1, p1) := Acquire second "k" per_second p0 in
  let '(a2, p2) := Acquire (2 * second) "k" per_second p1 in
  let '(a3, p3) := Acquire (second + 500 * millisecond) "k" per_second p2 in
  let '(a4, p4) := Acquire (2 * second + 500 * millisecond) "k" per_second p3 in
  a1 = Ok 0%nat ∧ a2 = Ok 1%nat ∧ a3 = Err (ErrLimited None) ∧ a4 = Ok 2%nat ∧ issued p4 "k" = 3.
Proof. vm_compute. done. Qed.
(** In the mode [LocalFallback] the limiter of an operation is configured in turns with the whole
    policy and, whenever the backend answers, with its concurrency part only; each change fills
    the bucket.  When the backend fails every other time, every request passes. *)
Definition fallback_policy : RateLimitPolicy := mkRatePolicy true f1 1 100.
Definition w_target : operation.Operation := operation.mkOperation "http" "orders" "Create" operation.KindUnary.
Definition w_call (backend : result string Decision) (l : DistributedLimiter) : result rlerror DistributedPermit * DistributedLimiter :=
  DistAcquire second None w_target fallback_policy (Ok (mkSubject "tenant" 1)) (λ _, backend) None l.
Definition w_limiter : DistributedLimiter := mkDist (mkDistConfig LocalFallback defaultBackendTimeout) NewPool (mkCounters 0 0 0 0 0 "").
Theorem fallback_bucket_refilled :
  let fails : result string Decision := Err "down" in let answers : result string Decision := Ok allowed in
  let l := w_limiter in
  let '(a1, l) := w_call fails l in let '(a2, l) := w_call answers l in
  let '(a3, l) := w_call fails l in let '(a4, l) := w_call answers l in
  let '(a5, l) := w_call fails l in
  is_ok a1 && is_ok a3 && is_ok a5 = true ∧ ct_localFallback (di_counters l) = 3 ∧
  (let '(b1, l) := w_call fails w_limiter in let '(b2, l) := w_call fails l in is_ok b1 = true ∧ b2 = Err (ErrLimited None)).
Proof. vm_compute. done. Qed.
