(* ===== verification/Inbox.v ===== *)
(** * inbox: transactional consumers, and the dispositions of a worker

    Models [inbox/inbox.go] and, from [worker/consumer.go], messages, dispositions and their
    normalization.  An [Executor] is a database the package only calls: a type class splits
    [Execute] where it calls the callback, so that any number of deliveries to any number of
    processors interleave, and its laws say what the interface documents (the key is recorded
    with the effects or not at all, and at most one callback of a key runs at a time).  Theorem:
    whatever handlers, failures and redeliveries do, the effects of a key are committed at most once. *)
From S2P Require Import Prelude GoText.
Open Scope Z_scope.

(** ** Dispositions *)
Module worker.
Inductive Action := ActionAck | ActionNack | ActionRetry | ActionDeadLetter | ActionOther (raw : string).
#[export] Instance Action_eq_dec : EqDecision Action.
Proof. solve_decision. Defined.
Inductive cause :=
| ErrNacked | ErrRetryRequested | ErrDeadLettered | ErrInvalidResult
| ErrInvalidOption | ErrInvalidDecision | ErrHandlerPanic | EResolve (err : cause) | EExecute (err : cause) | EOther (text : string).
Record Result := mkResult { r_action : Action; r_cause : option cause; r_retryAfter : duration }.
Definition Ack : Result := mkResult ActionAck None 0.
Definition Nack (err : option cause) : Result := mkResult ActionNack (Some (default ErrNacked err)) 0.
Definition Retry (err : option cause) (after : duration) : Result := mkResult ActionRetry (Some (default ErrRetryRequested err)) (if after <? 0 then 0 else after).
Definition DeadLetter (err : option cause) : Result := mkResult ActionDeadLetter (Some (default ErrDeadLettered err)) 0.
Definition valid (r : Result) : bool :=
  match r_action r, r_cause r with
  | ActionAck, None => r_retryAfter r =? 0
  | (ActionNack | ActionDeadLetter), Some _ => r_retryAfter r =? 0
  | ActionRetry, Some _ => 0 <=? r_retryAfter r
  | _, _ => false
  end.
(** [response] is [None] when the middleware answered something that is not a [Result]. *)
Definition normalizeResult (response : option Result) (err : option cause) : Result :=
  match response with
  | Some r =>
      if negb (valid r) then Nack (Some (default ErrInvalidResult err))
      else match err with
      | None => r
      | Some e => match r_action r with ActionNack | ActionRetry | ActionDeadLetter => mkResult (r_action r) (Some e) (r_retryAfter r) | _ => Nack (Some e) end
      end
  | None => Nack (Some (default ErrInvalidResult err))
  end.
Record Message := mkMessage { ms_id : string; ms_payload : string; ms_metadata : gmap string (list string) }.
Definition NewMessage (id payload : string) (inbound : gmap string (list string)) : Message := mkMessage (TrimSpace id) payload inbound.
End worker.
Import worker.

(** ** Keys *)
Definition OutboxIDHeader : string := "keelith-outbox-id".
Definition defaultRetryAfter : duration := second.
Definition maxKeyBytes : Z := 512.
Definition validIdentity (value : string) (maxBytes : Z) : bool := valid_text maxBytes value.
Record Key := mkKey { k_Consumer : string; k_Message : string }.
#[export] Instance Key_eq_dec : EqDecision Key.
Proof. solve_decision. Defined.
Definition Key_Validate (k : Key) : bool := validIdentity (k_Consumer k) 256 && validIdentity (k_Message k) maxKeyBytes.
Definition DefaultKey (m : Message) : result cause string :=
  match default [] (ms_metadata m !! OutboxIDHeader) with
  | [] => if validIdentity (ms_id m) (maxKeyBytes - slen "delivery/") then Ok ("delivery/" +:+ ms_id m) else Err ErrInvalidOption
  | [value] => if validIdentity value (maxKeyBytes - slen "outbox/") then Ok ("outbox/" +:+ value) else Err ErrInvalidOption
  | _ => Err ErrInvalidOption
  end.

(** ** The processor *)
Inductive Decision := DecisionCommit | DecisionRollback.
#[export] Instance Decision_eq_dec : EqDecision Decision.
Proof. solve_decision. Defined.
Inductive Outcome := OutcomeApplied | OutcomeDuplicate | OutcomeRolledBack | OutcomeOther (raw : Z).
Record Config := mkConfig { ic_Consumer : string; ic_ResolveKey : option (Message → result cause string); ic_RetryAfter : duration }.
Record Description := mkDescription { d_Applied : Z; d_Duplicates : Z; d_RolledBack : Z; d_Failures : Z; d_Panics : Z }.
Record Processor := mkProcessor {
  pr_consumer : string; pr_resolveKey : Message → result cause string; pr_retryAfter : duration; pr_counters : Description
}.
(** [incomplete]: the executor or the handler is nil. *)
Definition New (incomplete : bool) (config : Config) : option Processor :=
  if negb (validIdentity (ic_Consumer config) 256) || incomplete then None
  else
    let retryAfter := or_default (ic_RetryAfter config) defaultRetryAfter in
    if retryAfter <? 0 then None
    else Some (mkProcessor (ic_Consumer config) (default DefaultKey (ic_ResolveKey config)) retryAfter (mkDescription 0 0 0 0 0)).
Inductive counter := CApplied | CDuplicates | CRolledBack | CFailures | CPanics.
Definition bump (c : counter) (p : Processor) : Processor :=
  let '(mkDescription a d r f n) := pr_counters p in
  mkProcessor (pr_consumer p) (pr_resolveKey p) (pr_retryAfter p)
    match c with
    | CApplied => mkDescription (u64_add a 1) d r f n
    | CDuplicates => mkDescription a (u64_add d 1) r f n
    | CRolledBack => mkDescription a d (u64_add r 1) f n
    | CFailures => mkDescription a d r (u64_add f 1) n
    | CPanics => mkDescription a d r f (u64_add n 1)
    end.

(** [Handle] up to the call of [Execute]: the key, or the answer. *)
Definition prepare (p : Processor) (m : Message) : (Key + Result) * Processor :=
  match pr_resolveKey p m with
  | Err err => (inr (DeadLetter (Some (EResolve err))), bump CFailures p)
  | Ok text =>
      let key := mkKey (pr_consumer p) text in
      if negb (Key_Validate key) then (inr (DeadLetter (Some (EResolve ErrInvalidOption))), bump CFailures p) else (inl key, p)
  end.
(** What the business handler did: its answer, or a panic. *)
Definition handled : Type := option Result.
Definition invoke (h : handled) (p : Processor) : Result * Processor :=
  match h with Some r => (r, p) | None => (Nack (Some ErrHandlerPanic), bump CPanics p) end.
(** The callback that [Handle] gives to [Execute]: the business result it leaves, and the decision. *)
Definition callback (h : handled) (p : Processor) : Result * Decision * Processor :=
  let '(r, p) := invoke h p in
  match r_action r with
  | ActionAck => (r, DecisionCommit, p)
  | ActionNack | ActionRetry | ActionDeadLetter => (r, DecisionRollback, p)
  | ActionOther _ => (Nack (Some ErrInvalidDecision), DecisionRollback, p)
  end.
(** [Handle] after [Execute]. *)
Definition settle (business : Result) (answer : result cause Outcome) (p : Processor) : Result * Processor :=
  match answer with
  | Err err => (Retry (Some (EExecute err)) (pr_retryAfter p), bump CFailures p)
  | Ok OutcomeApplied => if r_action business != ActionAck then (Nack (Some ErrInvalidDecision), bump CFailures p) else (business, bump CApplied p)
  | Ok OutcomeDuplicate => (Ack, bump CDuplicates p)
  | Ok OutcomeRolledBack => if r_action business == ActionAck then (Nack (Some ErrInvalidDecision), bump CFailures p) else (business, bump CRolledBack p)
  | Ok (OutcomeOther _) => (Nack (Some ErrInvalidDecision), bump CFailures p)
  end.
(** The business result before the callback runs. *)
Definition unset : Result := Nack (Some ErrInvalidDecision).

(** ** The executor

    [E] is what a handler does in its transaction.  [ex_begin] is [Execute] up to its callback, or to
    its return when it does not call it; [ex_finish] is the rest.  Failures are answers of the world. *)
Class Executor (E W : Type) := {
  ex_begin : Key → W → option (result cause Outcome) * W;
  ex_finish : Key → Decision → E → W → result cause Outcome * W
}.
Section handle.
Context {E W : Type} `{Executor E W}.
(** [Handle], alone: the handler answers [h] and does [e]. *)
Definition Handle (nil_ctx : bool) (m : Message) (h : handled) (e : E) (p : Processor) (w : W) : Result * Processor * W :=
  if nil_ctx then (Nack (Some ErrInvalidOption), p, w)
  else match prepare p m with
  | (inr answer, p) => (answer, p, w)
  | (inl key, p) =>
      match ex_begin key w with
      | (Some answer, w) => let '(r, p) := settle unset answer p in (r, p, w)
      | (None, w) =>
          let '(business, decision, p) := callback h p in
          let '(answer, w) := ex_finish key decision e w in
          let '(r, p) := settle business answer p in (r, p, w)
      end
  end.

(** ** Deliveries that interleave *)
Inductive task :=
| TExecute (p : nat) (key : Key) (m : Message)                        (* about to call Execute *)
| TRun (p : nat) (key : Key) (m : Message)                            (* the callback was called *)
| TDecided (p : nat) (key : Key) (business : Result) (d : Decision) (e : E)
| TDone (p : nat) (key : option Key) (answer : Result).
Record insys := mkInsys { in_processors : list Processor; in_world : W; in_tasks : list task; in_log : list (Key * Message * handled * E) }.
Inductive inop :=
| IHandle (p : nat) (m : Message)                 (* a delivery to a processor *)
| IBegin (i : nat)                                (* Execute up to the callback *)
| ICallback (i : nat) (h : handled) (e : E)       (* the handler *)
| IFinish (i : nat).                              (* the end of the transaction, and of Handle *)
Definition instep (s : insys) (o : inop) : insys :=
  match o with
  | IHandle n m =>
      match in_processors s !! n with
      | None => s
      | Some p =>
          let '(answer, p) := prepare p m in
          let t := match answer with inl key => TExecute n key m | inr r => TDone n None r end in
          mkInsys (<[n := p]> (in_processors s)) (in_world s) (in_tasks s ++ [t]) (in_log s)
      end
  | IBegin i =>
      match in_tasks s !! i with
      | Some (TExecute n key m) =>
          match in_processors s !! n with
          | None => s
          | Some p =>
              match ex_begin key (in_world s) with
              | (None, w) => mkInsys (in_processors s) w (<[i := TRun n key m]> (in_tasks s)) (in_log s)
              | (Some answer, w) =>
                  let '(r, p) := settle unset answer p in
                  mkInsys (<[n := p]> (in_processors s)) w (<[i := TDone n (Some key) r]> (in_tasks s)) (in_log s)
              end
          end
      | _ => s
      end
  | ICallback i h e =>
      match in_tasks s !! i with
      | Some (TRun n key m) =>
          match in_processors s !! n with
          | None => s
          | Some p =>
              let '(business, d, p) := callback h p in
              mkInsys (<[n := p]> (in_processors s)) (in_world s) (<[i := TDecided n key business d e]> (in_tasks s)) (in_log s ++ [(key, m, h, e)])
          end
      | _ => s
      end
  | IFinish i =>
      match in_tasks s !! i with
      | Some (TDecided n key business d e) =>
          match in_processors s !! n with
          | None => s
          | Some p =>
              let '(answer, w) := ex_finish key d e (in_world s) in
              let '(r, p) := settle business answer p in
              mkInsys (<[n := p]> (in_processors s)) w (<[i := TDone n (Some key) r]> (in_tasks s)) (in_log s)
          end
      | _ => s
      end
  end.
Definition insteps (s : insys) (l : list inop) : insys := fold_left instep l s.
End handle.
Arguments task : clear implicits.
Arguments insys : clear implicits.
Arguments inop : clear implicits.

(** * Once

    What the interface documents: a key is committed with its effects, in one piece; a
    callback runs only for a key that is not committed and that no other callback runs for; an error
    of a commit leaves open whether it took place. *)
Class ExecutorLaws (E W : Type) `{Executor E W} := {
  ex_committed : W → list (Key * E);
  ex_running : W → list Key;
  ex_begin_law key w : let '(answer, w') := ex_begin key w in
    ex_committed w' = ex_committed w ∧
    match answer with
    | None => (key ∉ (ex_committed w).*1) ∧ (key ∉ ex_running w) ∧ ex_running w' ≡ₚ (key :: ex_running w)
    | Some (Ok OutcomeDuplicate) => key ∈ (ex_committed w).*1 ∧ ex_running w' ≡ₚ ex_running w
    | Some (Err _) => ex_running w' ≡ₚ ex_running w
    | Some _ => False
    end;
  ex_finish_law key d e w : key ∈ ex_running w → let '(answer, w') := ex_finish key d e w in
    ex_running w ≡ₚ (key :: ex_running w') ∧
    match d, answer with
    | DecisionCommit, Ok OutcomeApplied => ex_committed w' = ex_committed w ++ [(key, e)]
    | DecisionCommit, Err _ => ex_committed w' = ex_committed w ∨ ex_committed w' = ex_committed w ++ [(key, e)]
    | DecisionRollback, (Ok OutcomeRolledBack | Err _) => ex_committed w' = ex_committed w
    | _, _ => False
    end
}.

Section once.
Context {E W : Type} `{ExecutorLaws E W}.
Implicit Types (s : insys E W) (t : task E).
Definition owned t : list Key := match t with TRun _ key _ | TDecided _ key _ _ _ => [key] | _ => [] end.
Definition done_by (n : nat) t : bool := match t with TDone n' _ _ => bool_decide (n' = n) | _ => false end.
Definition settled (p : Processor) : Z :=
  let '(mkDescription a d r f _) := pr_counters p in a + d + r + f.
(** The key a processor gives to a message. *)
Definition keyed (ps : list Processor) (key : Key) (m : Message) : Prop :=
  ∃ p, p ∈ ps ∧ k_Consumer key = pr_consumer p ∧ pr_resolveKey p m = Ok (k_Message key).
Definition task_ok s t : Prop :=
  match t with
  | TExecute _ key m | TRun _ key m => keyed (in_processors s) key m
  | TDecided _ key business d e => (d = DecisionCommit ↔ r_action business = ActionAck) ∧
      (d = DecisionCommit → ∃ m r, (key, m, Some r, e) ∈ in_log s ∧ r_action r = ActionAck)
  | TDone _ (Some key) r => r_action r = ActionAck → key ∈ (ex_committed (in_world s)).*1
  | TDone _ None r => r_action r ≠ ActionAck
  end.
Definition acknowledged (log : list (Key * Message * handled * E)) (x : Key * E) : Prop := ∃ m r, (x.1, m, Some r, x.2) ∈ log ∧ r_action r = ActionAck.
Record insys_ok (base : list (Key * E)) s : Prop := {
  io_once : NoDup (ex_committed (in_world s)).*1;
  io_new : ∃ new, ex_committed (in_world s) = base ++ new ∧ Forall (acknowledged (in_log s)) new;
  io_running : ex_running (in_world s) ≡ₚ flat_map owned (in_tasks s);
  io_exclusive : NoDup (flat_map owned (in_tasks s));
  io_uncommitted : ∀ key, key ∈ flat_map owned (in_tasks s) → key ∉ (ex_committed (in_world s)).*1;
  io_log : Forall (λ x, keyed (in_processors s) x.1.1.1 x.1.1.2) (in_log s);
  io_tasks : Forall (task_ok s) (in_tasks s);
  io_counters : ∀ n p, in_processors s !! n = Some p → settled p mod (max_u64 + 1) = zlen (List.filter (done_by n) (in_tasks s)) mod (max_u64 + 1)
}.

(** What the parts of [Handle] do to a processor: its identity stays, and exactly one outcome is counted. *)
Definition same_identity (p p' : Processor) : Prop := pr_consumer p' = pr_consumer p ∧ pr_resolveKey p' = pr_resolveKey p.
Definition counts (z : Z) (p p' : Processor) : Prop := same_identity p p' ∧ settled p' mod (max_u64 + 1) = (settled p + z) mod (max_u64 + 1).
Lemma wrap_eq x : ∃ q, u64_add x 1 = x + 1 + q * (max_u64 + 1).
Proof. exists (- ((x + 1) / (max_u64 + 1))). unfold u64_add. rewrite Z.mod_eq by done. ring. Qed.
Lemma bump_counts c p : counts (match c with CPanics => 0 | _ => 1 end) p (bump c p).
Proof.
  destruct p as [con res ra [a d r f n]]; destruct c; (split; [done|]); cbn; [destruct (wrap_eq a) as [q ->]|destruct (wrap_eq d) as [q ->]|destruct (wrap_eq r) as [q ->]|destruct (wrap_eq f) as [q ->]|by rewrite Z.add_0_r].
  all: rewrite <- (Z_mod_plus_full (a + d + r + f + 1) q (max_u64 + 1)); f_equal; ring.
Qed.
Lemma prepare_spec p m : let '(answer, p') := prepare p m in
  match answer with
  | inl key => p' = p ∧ k_Consumer key = pr_consumer p ∧ pr_resolveKey p m = Ok (k_Message key)
  | inr r => counts 1 p p' ∧ r_action r ≠ ActionAck
  end.
Proof.
  unfold prepare. destruct (pr_resolveKey p m) as [text|err] eqn:Hr; [|split; [apply (bump_counts CFailures)|done]].
  destruct (Key_Validate _); cbn [negb]; [done|split; [apply (bump_counts CFailures)|done]].
Qed.
Lemma callback_spec h p : let '(business, d, p') := callback h p in
  counts 0 p p' ∧ (d = DecisionCommit ↔ r_action business = ActionAck) ∧ (d = DecisionCommit → h = Some business).
Proof.
  assert (Hs : counts 0 p p) by (split; [done|by rewrite Z.add_0_r]).
  unfold callback, invoke. destruct h as [r|].
  - destruct (r_action r) eqn:Ha; (split; [done|]); (split; [|done]); rewrite ?Ha; done.
  - split; [apply (bump_counts CPanics)|]. done.
Qed.
Lemma settle_spec business answer p : let '(r, p') := settle business answer p in
  counts 1 p p' ∧ (r_action r = ActionAck → answer = Ok OutcomeDuplicate ∨ answer = Ok OutcomeApplied ∧ r_action business = ActionAck).
Proof.
  unfold settle. destruct answer as [[| | |raw]|err]; try (split; [apply (bump_counts CFailures)|done]).
  - destruct (decide (r_action business = ActionAck)) as [Ha|Ha]; [rewrite bool_decide_eq_true_2 by done|rewrite bool_decide_eq_false_2 by done]; cbn [negb];
      (split; [first [apply (bump_counts CApplied)|apply (bump_counts CFailures)]|]); [by right|done].
  - split; [apply (bump_counts CDuplicates)|]. by left.
  - destruct (decide (r_action business = ActionAck)) as [Ha|Ha]; [rewrite bool_decide_eq_true_2 by done|rewrite bool_decide_eq_false_2 by done];
      (split; [first [apply (bump_counts CRolledBack)|apply (bump_counts CFailures)]|done]).
Qed.

(** Replacing one task. *)
Lemma owned_insert (l : list (task E)) i t t' : l !! i = Some t →
  ∃ rest, flat_map owned l ≡ₚ owned t ++ rest ∧ flat_map owned (<[i := t']> l) ≡ₚ owned t' ++ rest.
Proof.
  intros Hi. exists (flat_map owned (take i l) ++ flat_map owned (drop (S i) l)).
  rewrite insert_take_drop by (by eapply lookup_lt_Some). rewrite <- (take_drop_middle l i t Hi) at 1.
  rewrite !flat_map_app. cbn [flat_map]. split; solve_Permutation.
Qed.
Lemma keyed_insert ps n p p' key m : ps !! n = Some p → same_identity p p' → keyed ps key m → keyed (<[n := p']> ps) key m.
Proof.
  intros Hn [Hc Hr] (q & Hq & Hk). apply list_elem_of_lookup_1 in Hq as [j Hj]. destruct (decide (j = n)) as [->|Hne].
  - simplify_eq. exists p'. split; [eapply list_elem_of_lookup_2, list_lookup_insert_eq, lookup_lt_Some; done|]. by rewrite Hc, Hr.
  - exists q. split; [|done]. apply (list_elem_of_lookup_2 _ j). by rewrite list_lookup_insert_ne.
Qed.
Lemma task_ok_mono s s' t : (∀ key m, keyed (in_processors s) key m → keyed (in_processors s') key m) → in_log s ⊆ in_log s' →
  (ex_committed (in_world s)).*1 ⊆ (ex_committed (in_world s')).*1 → task_ok s t → task_ok s' t.
Proof. intros Hk Hl Hc. destruct t as [| |? ? ? ? ?|? [|] ?]; cbn; naive_solver. Qed.
Definition counted_as (n : nat) (t : task E) (z : Z) : Prop := z = (if done_by n t then 1 else 0) ∧ ∀ n', n' ≠ n → done_by n' t = false.
Lemma replace_task_ok base s i t t' n p p' w l z : insys_ok base s → in_tasks s !! i = Some t → in_processors s !! n = Some p → counts z p p' →
  (∀ n', done_by n' t = false) → counted_as n t' z → Forall (λ x, keyed (in_processors s) x.1.1.1 x.1.1.2) l →
  let s' := mkInsys (<[n := p']> (in_processors s)) w (<[i := t']> (in_tasks s)) (in_log s ++ l) in
  (∃ new, ex_committed w = ex_committed (in_world s) ++ new ∧ Forall (acknowledged (in_log s)) new) → NoDup (ex_committed w).*1 →
  ex_running w ≡ₚ flat_map owned (in_tasks s') → NoDup (flat_map owned (in_tasks s')) →
  (∀ key, key ∈ flat_map owned (in_tasks s') → key ∉ (ex_committed w).*1) → task_ok s' t' → insys_ok base s'.
Proof.
  intros Hok Hi Hn [Hid Hz] Ht [Hz' Hother] Hl s' (new & Hnew & Hack) Hnd Hrun Hex Hun Hto.
  destruct (io_new _ _ Hok) as (new0 & Hb & Hf0).
  assert (Hsub : (ex_committed (in_world s)).*1 ⊆ (ex_committed w).*1) by (rewrite Hnew, fmap_app; set_solver).
  assert (Hlog : ∀ x, acknowledged (in_log s) x → acknowledged (in_log s ++ l) x) by (intros x (m & r & ? & ?); exists m, r; split; [set_solver|done]).
  constructor; try done.
  - exists (new0 ++ new). subst s'. cbn. rewrite Hnew, Hb, app_assoc. split; [done|]. apply Forall_app; split; eapply Forall_impl; eauto.
  - subst s'. cbn. apply Forall_app. split; [apply (Forall_impl _ _ _ (io_log _ _ Hok))|apply (Forall_impl _ _ _ Hl)]; intros x; by eapply keyed_insert.
  - subst s'. cbn. apply Forall_insert; [|done]. apply (Forall_impl _ _ _ (io_tasks _ _ Hok)). intros x. apply task_ok_mono; cbn; [intros; by eapply keyed_insert|set_solver|done].
  - intros n' q. subst s'. cbn. pose proof (count_insert (done_by n') (in_tasks s) i t t' Hi) as Hc. destruct (decide (n' = n)) as [->|Hne].
    + rewrite list_lookup_insert_eq by (by eapply lookup_lt_Some). intros [= <-]. rewrite Hz. pose proof (io_counters _ _ Hok n p Hn) as Hp.
      rewrite (Ht n) in Hc. rewrite <- Zplus_mod_idemp_l, Hp, Zplus_mod_idemp_l. f_equal. subst z. destruct (done_by n t'); cbn [Z.b2z] in Hc; lia.
    + rewrite list_lookup_insert_ne by done. intros Hq. rewrite (io_counters _ _ Hok n' q Hq). rewrite (Ht n'), (Hother n') in Hc by done. f_equal. cbn [Z.b2z] in Hc. lia.
Qed.

Lemma io_begin base s i : insys_ok base s → insys_ok base (instep s (IBegin i)).
Proof.
  intros Hok. cbn [instep]. destruct (in_tasks s !! i) as [[n key m| | |]|] eqn:Hi; try done. destruct (in_processors s !! n) as [p|] eqn:Hn; [|done].
  pose proof (ex_begin_law key (in_world s)) as Hlaw. destruct (ex_begin key (in_world s)) as [[answer|] w]; destruct Hlaw as [Hcom Hlaw].
  - pose proof (settle_spec unset answer p) as Hs. destruct (settle unset answer p) as [r p']. destruct Hs as [Hcnt Hack].
    destruct (owned_insert (in_tasks s) i _ (TDone n (Some key) r) Hi) as (rest & Hold & Hnew). cbn [owned app] in Hold, Hnew.
    assert (Hrun : ex_running w ≡ₚ ex_running (in_world s)) by (destruct answer as [[| | |]|]; try done; by destruct Hlaw).
    rewrite <- (app_nil_r (in_log s)). eapply replace_task_ok; try done; cbn [in_tasks]; rewrite ?Hcom.
    + split; [cbn; by rewrite bool_decide_eq_true_2|]. intros n' Hne. cbn. by rewrite bool_decide_eq_false_2.
    + exists []. by rewrite app_nil_r.
    + apply (io_once _ _ Hok).
    + rewrite Hrun, (io_running _ _ Hok), Hold. by rewrite Hnew.
    + rewrite Hnew, <- Hold. apply (io_exclusive _ _ Hok).
    + intros k. rewrite Hnew, <- Hold. apply (io_uncommitted _ _ Hok).
    + cbn. rewrite Hcom. intros [->|[-> ?]]%Hack; [by destruct Hlaw|done].
  - destruct (owned_insert (in_tasks s) i _ (TRun n key m) Hi) as (rest & Hold & Hnew). cbn [owned app] in Hold, Hnew. destruct Hlaw as (Hun & Hidle & Hrun).
    rewrite <- (list_insert_id _ _ _ Hn) at 1. rewrite <- (app_nil_r (in_log s)).
    assert (Hrest : rest ≡ₚ ex_running (in_world s)) by (by rewrite (io_running _ _ Hok), Hold).
    eapply (replace_task_ok base s i _ _ n p p w [] 0); try done; cbn [in_tasks]; rewrite ?Hcom.
    + split; [done|by rewrite Z.add_0_r].
    + exists []. by rewrite app_nil_r.
    + apply (io_once _ _ Hok).
    + by rewrite Hrun, Hnew, Hrest.
    + rewrite Hnew. constructor; [by rewrite Hrest|]. rewrite Hrest, (io_running _ _ Hok). apply (io_exclusive _ _ Hok).
    + intros k. rewrite Hnew, elem_of_cons. intros [->|Hk]; [done|]. apply (io_uncommitted _ _ Hok). by rewrite Hold.
    + cbn. eapply keyed_insert; [done|done|]. apply (Forall_lookup_1 _ _ _ _ (io_tasks _ _ Hok) Hi).
Qed.
Lemma io_callback base s i h e : insys_ok base s → insys_ok base (instep s (ICallback i h e)).
Proof.
  intros Hok. cbn [instep]. destruct (in_tasks s !! i) as [[|n key m| |]|] eqn:Hi; try done. destruct (in_processors s !! n) as [p|] eqn:Hn; [|done].
  pose proof (callback_spec h p) as Hc. destruct (callback h p) as [[business d] p']. destruct Hc as (Hcnt & Hiff & Hh).
  destruct (owned_insert (in_tasks s) i _ (TDecided n key business d e) Hi) as (rest & Hold & Hnew). cbn [owned app] in Hold, Hnew.
  eapply replace_task_ok; try done; cbn [in_tasks].
  - constructor; [|done]. cbn. apply (Forall_lookup_1 _ _ _ _ (io_tasks _ _ Hok) Hi).
  - exists []. by rewrite app_nil_r.
  - apply (io_once _ _ Hok).
  - by rewrite Hnew, <- Hold, (io_running _ _ Hok).
  - rewrite Hnew, <- Hold. apply (io_exclusive _ _ Hok).
  - intros k. rewrite Hnew, <- Hold. apply (io_uncommitted _ _ Hok).
  - cbn. split; [done|]. intros Hd. exists m, business. rewrite <- (Hh Hd). split; [set_solver|by apply Hiff].
Qed.
Lemma io_finish base s i : insys_ok base s → insys_ok base (instep s (IFinish i)).
Proof.
  intros Hok. cbn [instep]. destruct (in_tasks s !! i) as [[| |n key business d e|]|] eqn:Hi; try done. destruct (in_processors s !! n) as [p|] eqn:Hn; [|done].
  pose proof (Forall_lookup_1 _ _ _ _ (io_tasks _ _ Hok) Hi) as [Hiff Hlog].
  pose proof (ex_finish_law key d e (in_world s)) as Hlaw. destruct (ex_finish key d e (in_world s)) as [answer w].
  pose proof (settle_spec business answer p) as Hs. destruct (settle business answer p) as [r p']. destruct Hs as [Hcnt Hack].
  destruct (owned_insert (in_tasks s) i _ (TDone n (Some key) r) Hi) as (rest & Hold & Hnew). cbn [owned app] in Hold, Hnew.
  assert (Hmine : key ∈ flat_map owned (in_tasks s)) by (rewrite Hold; set_solver).
  pose proof (io_exclusive _ _ Hok) as Hex. rewrite Hold in Hex. apply NoDup_cons in Hex as [Hfree Hex].
  destruct Hlaw as [Hrun Hlaw]; [by rewrite (io_running _ _ Hok)|]. pose proof (io_uncommitted _ _ Hok _ Hmine) as Hun.
  assert (Hcom : ex_committed w = ex_committed (in_world s) ∨ d = DecisionCommit ∧ ex_committed w = ex_committed (in_world s) ++ [(key, e)]).
  { destruct d, answer as [[| | |]|]; try done; try (by left); try (by right). destruct Hlaw; [by left|by right]. }
  assert (Hkeys : (ex_committed w).*1 = (ex_committed (in_world s)).*1 ∨ (ex_committed w).*1 = (ex_committed (in_world s)).*1 ++ [key]).
  { destruct Hcom as [->|[_ ->]]; [by left|right; by rewrite fmap_app]. }
  rewrite <- (app_nil_r (in_log s)). eapply replace_task_ok; try done; cbn [in_tasks].
  - split; [cbn; by rewrite bool_decide_eq_true_2|]. intros n' Hne. cbn. by rewrite bool_decide_eq_false_2.
  - destruct Hcom as [->|[Hd ->]]; [exists []; by rewrite app_nil_r|]. exists [(key, e)]. split; [done|]. constructor; [by apply Hlog|done].
  - destruct Hkeys as [-> | ->]; [apply (io_once _ _ Hok)|]. apply NoDup_app. split; [apply (io_once _ _ Hok)|]. split; [set_solver|apply NoDup_singleton].
  - rewrite Hnew. apply (Permutation_cons_inv (a := key)). by rewrite <- Hrun, <- Hold, (io_running _ _ Hok).
  - by rewrite Hnew.
  - intros k. rewrite Hnew. intros Hk. assert (Hold' : k ∉ (ex_committed (in_world s)).*1) by (apply (io_uncommitted _ _ Hok); rewrite Hold; set_solver).
    destruct Hkeys as [-> | ->]; [done|]. set_solver.
  - cbn. intros [->|[-> Hb]]%Hack; [by destruct d|]. apply Hiff in Hb as ->. rewrite Hlaw, fmap_app. set_solver.
Qed.
Lemma io_handle base s n m : insys_ok base s → insys_ok base (instep s (IHandle n m)).
Proof.
  intros Hok. cbn [instep]. destruct (in_processors s !! n) as [p|] eqn:Hn; [|done]. pose proof (prepare_spec p m) as Hp. destruct (prepare p m) as [answer p'].
  set (t := match answer with inl key => TExecute n key m | inr r => TDone n None r end).
  assert (Hid : same_identity p p') by (destruct answer; [by destruct Hp as [-> _]|by destruct Hp as [[? _] _]]).
  assert (Hown : owned t = []) by (by destruct answer).
  assert (Hflat : flat_map owned (in_tasks s ++ [t]) = flat_map owned (in_tasks s)) by (rewrite flat_map_app; cbn [flat_map]; by rewrite Hown, !app_nil_r).
  constructor; cbn [in_world in_tasks in_log in_processors]; rewrite ?Hflat; try apply Hok.
  - apply (Forall_impl _ _ _ (io_log _ _ Hok)). intros x. by eapply keyed_insert.
  - apply Forall_app. split; [apply (Forall_impl _ _ _ (io_tasks _ _ Hok)); intros x; apply task_ok_mono; cbn; [intros; by eapply keyed_insert|done|done]|].
    constructor; [|done]. subst t. destruct answer as [key|r]; cbn; [|by destruct Hp]. destruct Hp as (-> & ? & ?). eapply keyed_insert; [done|done|].
    exists p. split; [by eapply list_elem_of_lookup_2|done].
  - intros n' q Hq. rewrite List.filter_app, zlen_app. cbn [List.filter]. destruct (decide (n' = n)) as [->|Hne].
    + rewrite list_lookup_insert_eq in Hq by (by eapply lookup_lt_Some). injection Hq as <-. pose proof (io_counters _ _ Hok n p Hn) as Hc. subst t.
      destruct answer; cbn [done_by]; [destruct Hp as (-> & _); rewrite Hc; by rewrite Z.add_0_r|]. rewrite bool_decide_eq_true_2 by done. destruct Hp as [[_ ->] _].
      by rewrite <- Zplus_mod_idemp_l, Hc, Zplus_mod_idemp_l.
    + rewrite list_lookup_insert_ne in Hq by done. rewrite (io_counters _ _ Hok n' q Hq). f_equal. assert (done_by n' t = false) as ->; [|by rewrite Z.add_0_r].
      subst t. destruct answer; cbn; [done|]. by rewrite bool_decide_eq_false_2.
Qed.
Lemma insteps_ok base s ops : insys_ok base s → insys_ok base (insteps s ops).
Proof.
  revert s. induction ops as [|o ops IH]; intros s Hok; [done|]. apply IH. destruct o; [by apply io_handle|by apply io_begin|by apply io_callback|by apply io_finish].
Qed.
End once.

(** A processor alone runs its parts in this order. *)
Lemma handle_steps {E W} `{Executor E W} s n p m h e : in_processors s !! n = Some p →
  let '(r, p', w') := Handle false m h e p (in_world s) in
  let i := length (in_tasks s) in
  let s' := insteps s [IHandle n m; IBegin i; ICallback i h e; IFinish i] in
  in_world s' = w' ∧ in_processors s' = <[n := p']> (in_processors s) ∧ ∃ key, in_tasks s' = in_tasks s ++ [TDone n key r].
Proof.
  intros Hn. unfold Handle, insteps. cbn [fold_left]. assert (Hlt := lookup_lt_Some _ _ _ Hn).
  assert (Hat : ∀ t, (in_tasks s ++ [t]) !! length (in_tasks s) = Some t) by (intros t; by apply list_lookup_middle).
  assert (Hput : ∀ t t', <[length (in_tasks s) := t']> (in_tasks s ++ [t]) = in_tasks s ++ [t']) by (intros t t'; rewrite insert_app_r_alt, Nat.sub_diag by lia; done).
  assert (Hp : ∀ q, <[n := q]> (in_processors s) !! n = Some q) by (intros; by rewrite list_lookup_insert_eq).
  cbn [instep]. rewrite Hn. destruct (prepare p m) as [[key|r] p1]; cbn [in_tasks in_world in_processors in_log instep]; rewrite Hat; [|repeat (cbn [instep in_tasks]; rewrite Hat); eauto].
  rewrite Hp. destruct (ex_begin key (in_world s)) as [[answer|] w1].
  - destruct (settle unset answer p1) as [r p2]. rewrite Hput. repeat (cbn [instep in_tasks]; rewrite Hat). cbn. rewrite list_insert_insert_eq. eauto.
  - cbn [instep in_tasks]. rewrite Hput, Hat. cbn [in_processors]. rewrite Hp. destruct (callback h p1) as [[business d] p2]. cbn [in_world in_tasks in_processors in_log]. rewrite Hput. cbn [instep in_tasks]. rewrite Hat. cbn [in_processors in_world].
    rewrite list_insert_insert_eq, Hp. destruct (ex_finish key d e w1) as [answer w2]. destruct (settle business answer p2) as [r p3]. cbn. rewrite Hput, list_insert_insert_eq. eauto.
Qed.

(** C16: The inbox, for every executor that keeps its contract and every interleaving of deliveries,
    redeliveries, handlers (which may fail, ask for anything or panic) and failed transactions, on
    any number of processors: the effects of a key are committed at most once; whatever was
    committed is what a handler did for a message with this key when it acknowledged it; a delivery is
    acknowledged only when the effects of its key are committed; at most one handler runs for a key at a
    time and none once the key is committed; and every finished delivery is counted under one outcome. *)
Theorem inbox_once {E W} `{ExecutorLaws E W} (s : insys E W) ops (s' := insteps s ops) :
  in_tasks s = [] → in_log s = [] → ex_running (in_world s) = [] → NoDup (ex_committed (in_world s)).*1 → Forall (λ p, settled p = 0) (in_processors s) →
  NoDup (ex_committed (in_world s')).*1 ∧
  (∃ new, ex_committed (in_world s') = ex_committed (in_world s) ++ new ∧
     ∀ key e, (key, e) ∈ new → ∃ m r, (key, m, Some r, e) ∈ in_log s' ∧ r_action r = ActionAck ∧ keyed (in_processors s') key m) ∧
  (∀ n key r, TDone n key r ∈ in_tasks s' → r_action r = ActionAck → ∃ k, key = Some k ∧ k ∈ (ex_committed (in_world s')).*1) ∧
  NoDup (flat_map owned (in_tasks s')) ∧ (∀ key, key ∈ flat_map owned (in_tasks s') → key ∉ (ex_committed (in_world s')).*1) ∧
  (∀ n p, in_processors s' !! n = Some p → settled p mod (max_u64 + 1) = zlen (List.filter (done_by n) (in_tasks s')) mod (max_u64 + 1)).
Proof.
  intros Ht Hl Hr Hnd Hc. assert (Hok : insys_ok (ex_committed (in_world s)) s').
  { apply insteps_ok. constructor; rewrite ?Ht, ?Hl, ?Hr; cbn; try done; [exists []; by rewrite app_nil_r|constructor|set_solver|].
    intros n p Hn. by rewrite (Forall_lookup_1 _ _ _ _ Hc Hn). }
  destruct Hok as [H1 (new & Hnew & Hack) H3 H4 H5 H6 H7 H8]. split; [done|]. split; [|split; [|done]].
  - exists new. split; [done|]. intros key e Hin. rewrite Forall_forall in Hack. rewrite Forall_forall in H6. destruct (Hack _ Hin) as (m & r & Hm & Ha). exists m, r. split; [done|]. split; [done|]. apply (H6 _ Hm).
  - intros n [key|] r Hin Ha; rewrite Forall_forall in H7; specialize (H7 _ Hin); cbn in H7; [eauto|done].
Qed.

(** Identities of messages: the one of the outbox if there is one, else the one of the delivery. *)
Definition identity (m : Message) : string + string := match default [] (ms_metadata m !! OutboxIDHeader) with [value] => inl value | _ => inr (ms_id m) end.
(** [DefaultKey] separates identities: redeliveries share their key, two identities never do. *)
Theorem default_key_faithful m m' t t' : DefaultKey m = Ok t → DefaultKey m' = Ok t' → t = t' ↔ identity m = identity m'.
Proof.
  unfold DefaultKey, identity. intros Hm Hm'.
  assert (Hx : ∀ v v', "delivery/" +:+ v ≠ "outbox/" +:+ v') by done.
  destruct (default [] (ms_metadata m !! OutboxIDHeader)) as [|v [|]], (default [] (ms_metadata m' !! OutboxIDHeader)) as [|v' [|]];
    repeat (case_match; simplify_eq); split; intros Heq; simplify_eq; try done; try (by apply Hx in Heq); try (by symmetry in Heq; apply Hx in Heq); by f_equal.
Qed.

(** * An executor in memory, whose transactions fail as a script says *)
Record memory (E : Type) := mkMemory { me_committed : list (Key * E); me_running : list Key; me_script : list bool }.
Arguments mkMemory {E}.
Arguments me_committed {E}.
Arguments me_running {E}.
Arguments me_script {E}.
Fixpoint unlock (key : Key) (l : list Key) : list Key := match l with [] => [] | k :: l => if bool_decide (k = key) then l else k :: unlock key l end.
Lemma unlock_perm key l : key ∈ l → l ≡ₚ (key :: unlock key l).
Proof.
  induction l as [|k l IH]; intros Hk; [by apply elem_of_nil in Hk|]. cbn. destruct (decide (k = key)) as [->|Hne]; [by rewrite bool_decide_eq_true_2|].
  rewrite bool_decide_eq_false_2 by done. rewrite IH at 1 by set_solver. apply Permutation_swap.
Qed.
#[export] Instance memory_executor {E} : Executor E (memory E) := {
  ex_begin key w :=
    if bool_decide (key ∈ (me_committed w).*1) then (Some (Ok OutcomeDuplicate), w)
    else if bool_decide (key ∈ me_running w) then (Some (Err (EOther "locked")), w)
    else (None, mkMemory (me_committed w) (key :: me_running w) (me_script w));
  ex_finish key d e w :=
    let fails := default false (head (me_script w)) in
    let close committed := mkMemory committed (unlock key (me_running w)) (tail (me_script w)) in
    match d with
    | DecisionCommit => (if fails then Err (EOther "connection lost") else Ok OutcomeApplied, close (me_committed w ++ [(key, e)]))
    | DecisionRollback => (Ok OutcomeRolledBack, close (me_committed w))
    end
}.
#[export] Instance memory_laws {E} : ExecutorLaws E (memory E).
Proof.
  refine {| ex_committed := me_committed; ex_running := me_running |}.
  - intros key w. cbn. destruct (decide (key ∈ (me_committed w).*1)); [by rewrite bool_decide_eq_true_2|]. rewrite bool_decide_eq_false_2 by done.
    destruct (decide (key ∈ me_running w)); [by rewrite bool_decide_eq_true_2|by rewrite bool_decide_eq_false_2].
  - intros key [] e w Hin; cbn; [destruct (default false (head (me_script w)))|]; (split; [by apply unlock_perm|]); [by right|done|done].
Defined.

(** The first transaction commits and loses its answer; the message is delivered again, once while
    the first delivery still runs and once after it: it is acknowledged, and was applied once. *)
Definition w_processor : Processor := default (mkProcessor "" DefaultKey 0 (mkDescription 0 0 0 0 0)) (New false (mkConfig "billing" None 0)).
Definition w_message (delivery : string) : Message := NewMessage delivery "" {[OutboxIDHeader := ["evt-1"]]}.
Definition w_start : insys string (memory string) := mkInsys [w_processor] (mkMemory [] [] [true]) [] [].
Definition w_deliveries : list (inop string) :=
  [IHandle 0 (w_message "a"); IHandle 0 (w_message "b"); IBegin 0; IBegin 1; ICallback 0 (Some Ack) "charge"; IFinish 0;
   IHandle 0 (w_message "c"); IBegin 2].
Lemma inbox_once_witness :
  in_tasks (insteps w_start w_deliveries) =
    [TDone 0 (Some (mkKey "billing" "outbox/evt-1")) (Retry (Some (EExecute (EOther "connection lost"))) second);
     TDone 0 (Some (mkKey "billing" "outbox/evt-1")) (Retry (Some (EExecute (EOther "locked"))) second);
     TDone 0 (Some (mkKey "billing" "outbox/evt-1")) Ack] ∧
  me_committed (in_world (insteps w_start w_deliveries)) = [(mkKey "billing" "outbox/evt-1", "charge")] ∧
  NoDup (ex_committed (in_world (insteps w_start w_deliveries))).*1.
Proof.
  split; [vm_compute; reflexivity|]. split; [vm_compute; reflexivity|].
  assert (Hc : Forall (λ p, settled p = 0) (in_processors w_start)) by (constructor; [vm_compute; reflexivity|constructor]).
  destruct (inbox_once w_start w_deliveries ltac:(reflexivity) ltac:(reflexivity) ltac:(reflexivity) ltac:(constructor) Hc) as [Hx _]. exact Hx.
Defined.
