(* ===== verification/Discovery.v ===== *)
(** * registry, registry/memory: service instances and their discovery

    Models [registry/registry.go] (instances and snapshots) and [registry/memory/memory.go] (the
    registry in memory with its watchers).  Watchers are pointers, kept in a heap; their channel
    of capacity one is an option.  The [select] of [Next] is a choice among the cases that are
    ready.  Parsing and printing of URLs ([net/url]) and [strings.ToLower] are parameters. *)
From S2P Require Import Prelude GoText GoJson GoDecode Access.
From stdpp Require Import pretty.
Open Scope Z_scope.

(** ** Endpoints and instances *)
Class UrlLib := {
  URL : Type;
  url_Parse : string → option URL;
  url_String : URL → string;
  url_Scheme : URL → string;
  url_with_Scheme : string → URL → URL;
  url_has_User : URL → bool;
  url_RawQuery : URL → string;
  url_Fragment : URL → string;
  url_Host : URL → string;
  url_Path : URL → string;
  ToLower : string → string
}.
Inductive rgerror :=
| ErrInvalidInstance | ErrInvalidSnapshot (cause : option rgerror) | ErrDuplicateEndpoint | ErrDuplicateInstance | ErrWatcherClosed | RCause (text : string).
Definition validName (name : string) : bool :=
  (TrimSpace name == name) && (name != "") && forallb (λ r, negb (IsControl r)) (range_runes (String.length name) (bytes_of name)).
Record Instance_ := mkInstance { i_id : string; i_service : string; i_endpoints : list string; i_metadata : gmap string string }.
#[export] Instance Instance_eq_dec : EqDecision Instance_.
Proof. solve_decision. Defined.
Record Snapshot := mkSnapshot { sn_service : string; sn_revision : string; sn_instances : list Instance_ }.
#[export] Instance Snapshot_eq_dec : EqDecision Snapshot.
Proof. solve_decision. Defined.
Definition zero_Snapshot : Snapshot := mkSnapshot "" "" [].

Section registry.
Context `{UrlLib}.
Definition normalizeEndpoint (endpoint : string) : result rgerror string :=
  match url_Parse endpoint with
  | None => Err ErrInvalidInstance
  | Some parsed =>
      if (url_Scheme parsed == "") || url_has_User parsed || (url_RawQuery parsed != "") || (url_Fragment parsed != "") ||
         (url_Host parsed == "") && (url_Path parsed == "") then Err ErrInvalidInstance
      else Ok (url_String (url_with_Scheme (ToLower (url_Scheme parsed)) parsed))
  end.
Fixpoint normalize_all (endpoints normalized : list string) : result rgerror (list string) :=
  match endpoints with
  | [] => Ok normalized
  | endpoint :: endpoints =>
      match normalizeEndpoint endpoint with
      | Err err => Err err
      | Ok e => if bool_decide (e ∈ normalized) then Err ErrDuplicateEndpoint else normalize_all endpoints (normalized ++ [e])
      end
  end.
Definition NewInstance (id service : string) (endpoints : list string) (metadata : gmap string string) : result rgerror Instance_ :=
  if negb (validName id) then Err ErrInvalidInstance
  else if negb (validName service) then Err ErrInvalidInstance
  else if bool_decide (endpoints = []) then Err ErrInvalidInstance
  else match normalize_all endpoints [] with
  | Err err => Err err
  | Ok normalized =>
      if negb (map_forallb (λ key _, TrimSpace key != "") metadata) then Err ErrInvalidInstance
      else Ok (mkInstance id service normalized metadata)
  end.
Definition Instance_Validate (i : Instance_) : option rgerror :=
  match NewInstance (i_id i) (i_service i) (i_endpoints i) (i_metadata i) with Ok _ => None | Err err => Some err end.
(** [Equal]: same fields; a metadata key that is absent reads as the empty string. *)
Definition Instance_Equal (i other : Instance_) : bool :=
  (i_id i == i_id other) && (i_service i == i_service other) && (i_endpoints i == i_endpoints other) &&
  (size (i_metadata i) == size (i_metadata other)) &&
  map_forallb (λ key value, default "" (i_metadata other !! key) == value) (i_metadata i).
(** [Instance.Endpoint]: the first endpoint of a scheme. *)
Definition has_scheme (scheme endpoint : string) : bool :=
  match url_Parse endpoint with Some parsed => url_Scheme parsed == scheme | None => false end.
Definition Instance_Endpoint (i : Instance_) (scheme : string) : option string := List.find (has_scheme (ToLower scheme)) (i_endpoints i).

(** ** Snapshots *)
Definition id_le (i j : Instance_) : Prop := String.le (i_id i) (i_id j).
#[export] Instance id_le_dec i j : Decision (id_le i j).
Proof. unfold id_le. apply _. Defined.
Fixpoint add_endpoints (endpoints seen : list string) : option (list string) :=
  match endpoints with
  | [] => Some seen
  | e :: endpoints => if bool_decide (e ∈ seen) then None else add_endpoints endpoints (seen ++ [e])
  end.
Fixpoint check_instances (service : string) (instances : list Instance_) (ids endpoints : list string) : option rgerror :=
  match instances with
  | [] => None
  | i :: instances =>
      match Instance_Validate i with
      | Some err => Some (ErrInvalidSnapshot (Some err))
      | None =>
          if i_service i != service then Some (ErrInvalidSnapshot None)
          else if bool_decide (i_id i ∈ ids) then Some ErrDuplicateInstance
          else match add_endpoints (i_endpoints i) endpoints with
          | None => Some ErrDuplicateEndpoint
          | Some endpoints => check_instances service instances (ids ++ [i_id i]) endpoints
          end
      end
  end.
Definition NewSnapshot (service revision : string) (instances : list Instance_) : result rgerror Snapshot :=
  if negb (validName service) then Err (ErrInvalidSnapshot None)
  else if TrimSpace revision == "" then Err (ErrInvalidSnapshot None)
  else match check_instances service instances [] [] with
  | Some err => Err err
  | None => Ok (mkSnapshot service revision (merge_sort id_le instances))
  end.
Definition Snapshot_Validate (s : Snapshot) : option rgerror :=
  match NewSnapshot (sn_service s) (sn_revision s) (sn_instances s) with Ok _ => None | Err err => Some err end.

(** ** The registry in memory *)
Record serviceState := mkService { ss_revision : Z; ss_instances : gmap string Instance_ }.
Record watcher := mkWatcher { wa_service : string; wa_updates : option Snapshot; wa_done : bool }.
Record Registry := mkRegistry { rg_services : gmap string serviceState; rg_watchers : gmap string (list nat); rg_heap : list watcher }.
Definition New : Registry := mkRegistry ∅ ∅ [].
Definition service (name : string) (r : Registry) : serviceState * Registry :=
  match rg_services r !! name with
  | Some state => (state, r)
  | None => let state := mkService 0 ∅ in (state, mkRegistry (<[name := state]> (rg_services r)) (rg_watchers r) (rg_heap r))
  end.
(** [snapshot]: an error of [NewSnapshot] is dropped with its zero snapshot. *)
Definition snapshot (name : string) (state : serviceState) : Snapshot :=
  ok_or (NewSnapshot name (pretty (ss_revision state)) (map_to_list (ss_instances state)).*2) zero_Snapshot.
(** Drain the channel, then fill it; the registry's mutex is held, so no one else fills it. *)
Definition notify (name : string) (s : Snapshot) (r : Registry) : Registry :=
  mkRegistry (rg_services r) (rg_watchers r)
    (fold_left (λ heap i, match heap !! i with Some w => <[i := mkWatcher (wa_service w) (Some s) (wa_done w)]> heap | None => heap end)
       (default [] (rg_watchers r !! name)) (rg_heap r)).
Definition set_state (name : string) (state : serviceState) (r : Registry) : Registry :=
  mkRegistry (<[name := state]> (rg_services r)) (rg_watchers r) (rg_heap r).
(** Another instance of the service has one of the endpoints. *)
Definition taken (i : Instance_) (state : serviceState) : bool :=
  negb (map_forallb (λ id existing, (id == i_id i) || negb (existsb (λ e, bool_decide (e ∈ i_endpoints i)) (i_endpoints existing))) (ss_instances state)).
Definition Register (cause : option rgerror) (i : Instance_) (r : Registry) : option rgerror * Registry :=
  match cause with
  | Some err => (Some err, r)
  | None =>
      match Instance_Validate i with
      | Some err => (Some err, r)
      | None =>
          let '(state, r) := service (i_service i) r in
          if taken i state then (Some ErrDuplicateEndpoint, r)
          else if match ss_instances state !! i_id i with Some existing => Instance_Equal existing i | None => false end then (None, r)
          else
            let state := mkService (u64_add (ss_revision state) 1) (<[i_id i := i]> (ss_instances state)) in
            (None, notify (i_service i) (snapshot (i_service i) state) (set_state (i_service i) state r))
      end
  end.
Definition Deregister (cause : option rgerror) (i : Instance_) (r : Registry) : option rgerror * Registry :=
  match cause with
  | Some err => (Some err, r)
  | None =>
      match Instance_Validate i with
      | Some err => (Some err, r)
      | None =>
          let '(state, r) := service (i_service i) r in
          match ss_instances state !! i_id i with
          | None => (None, r)
          | Some _ =>
              let state := mkService (u64_add (ss_revision state) 1) (delete (i_id i) (ss_instances state)) in
              (None, notify (i_service i) (snapshot (i_service i) state) (set_state (i_service i) state r))
          end
      end
  end.
(** [Watch]: the watcher is its place in the heap. *)
Definition Watch (cause : option rgerror) (name : string) (r : Registry) : result rgerror nat * Registry :=
  match cause with
  | Some err => (Err err, r)
  | None =>
      if name == "" then (Err (ErrInvalidSnapshot None), r)
      else
        let '(state, r) := service name r in
        let i := length (rg_heap r) in
        (Ok i, mkRegistry (rg_services r) (<[name := default [] (rg_watchers r !! name) ++ [i]]> (rg_watchers r))
                 (rg_heap r ++ [mkWatcher name (Some (snapshot name state)) false]))
  end.
Definition WatcherCount (name : string) (r : Registry) : Z := zlen (default [] (rg_watchers r !! name)).
(** The cases of the select in [Next]; a case that is not ready is not taken ([None]). *)
Inductive next_case := NUpdate | NDone | NContext (cause : rgerror).
Definition Next (c : next_case) (i : nat) (r : Registry) : option (result rgerror Snapshot) * Registry :=
  match rg_heap r !! i with
  | None => (None, r)
  | Some w =>
      match c with
      | NUpdate =>
          match wa_updates w with
          | Some s => (Some (Ok s), mkRegistry (rg_services r) (rg_watchers r) (<[i := mkWatcher (wa_service w) None (wa_done w)]> (rg_heap r)))
          | None => (None, r)
          end
      | NDone => if wa_done w then (Some (Err ErrWatcherClosed), r) else (None, r)
      | NContext cause => (Some (Err cause), r)
      end
  end.
Definition Close (i : nat) (r : Registry) : Registry :=
  match rg_heap r !! i with
  | Some w =>
      if wa_done w then r
      else mkRegistry (rg_services r) (<[wa_service w := List.filter (λ j, negb (j =? i)%nat) (default [] (rg_watchers r !! wa_service w))]> (rg_watchers r))
             (<[i := mkWatcher (wa_service w) (wa_updates w) true]> (rg_heap r))
  | None => r
  end.
End registry.

(** * Snapshots *)
Section snapshots.
Context `{UrlLib}.
Lemma normalize_all_spec es acc r : normalize_all es acc = Ok r → NoDup acc → NoDup r ∧ ∃ l, r = acc ++ l ∧ Forall2 (λ e n, normalizeEndpoint e = Ok n) es l.
Proof.
  revert acc. induction es as [|e es IH]; intros acc; cbn [normalize_all]; [intros [= <-] Ha; split; [done|]; exists []; by rewrite app_nil_r|].
  destruct (normalizeEndpoint e) as [n|] eqn:He; [|done]. destruct (decide (n ∈ acc)); [by rewrite bool_decide_eq_true_2|]. rewrite bool_decide_eq_false_2 by done.
  intros Hr Ha. destruct (IH _ Hr) as (Hnd & l & -> & Hl); [apply NoDup_app; split; [done|split; [set_solver|apply NoDup_singleton]]|].
  split; [done|]. exists (n :: l). rewrite <- app_assoc. split; [done|]. by constructor.
Qed.
Lemma valid_endpoints i : Instance_Validate i = None → NoDup (i_endpoints i).
Proof.
  unfold Instance_Validate, NewInstance. repeat case_match; try done. intros _. destruct (normalize_all_spec _ _ _ ltac:(eassumption) NoDup_nil_2) as (Hnd & l & Hl & Hf). cbn in Hl. subst.
  clear -Hnd Hf. induction Hf as [|e n es l Hn Hf IH]; [constructor|]. apply NoDup_cons in Hnd as [Hnot Hnd]. constructor; [|by apply IH].
  intros [j Hj]%list_elem_of_lookup_1. destruct (Forall2_lookup_l _ _ _ _ _ Hf Hj) as (n' & Hn' & Heq). rewrite Hn in Heq. injection Heq as <-. apply Hnot. by eapply list_elem_of_lookup_2.
Qed.
Lemma valid_names i : Instance_Validate i = None → validName (i_service i) = true ∧ validName (i_id i) = true.
Proof. unfold Instance_Validate, NewInstance. by destruct (validName (i_id i)), (validName (i_service i)). Qed.
Lemma add_endpoints_spec es seen r : add_endpoints es seen = Some r ↔ r = seen ++ es ∧ NoDup es ∧ (∀ e, e ∈ es → e ∉ seen).
Proof.
  revert seen. induction es as [|e es IH]; intros seen; cbn [add_endpoints].
  - rewrite app_nil_r. split; [intros [= <-]; split; [done|split; [constructor|set_solver]]|by intros (-> & _)].
  - destruct (decide (e ∈ seen)) as [He|He]; [rewrite bool_decide_eq_true_2 by done|rewrite bool_decide_eq_false_2 by done].
    + split; [done|]. intros (_ & _ & Hx). exfalso. apply (Hx e); [set_solver|done].
    + rewrite IH, <- app_assoc, NoDup_cons. cbn [app]. set_solver.
Qed.
(** What [NewSnapshot] accepts does not depend on the order of the instances. *)
Definition consistent (service : string) (l : list Instance_) : Prop :=
  Forall (λ i, Instance_Validate i = None ∧ i_service i = service) l ∧ NoDup (i_id <$> l) ∧ NoDup (flat_map i_endpoints l).
Lemma check_instances_spec service l ids seen : check_instances service l ids seen = None ↔
  consistent service l ∧ (∀ i, i ∈ l → i_id i ∉ ids) ∧ (∀ e, e ∈ flat_map i_endpoints l → e ∉ seen).
Proof.
  revert ids seen. induction l as [|i l IH]; intros ids seen; cbn [check_instances].
  - split; [|done]. intros _. split; [split; [constructor|split; constructor]|set_solver].
  - unfold consistent in *. rewrite Forall_cons, fmap_cons, NoDup_cons. cbn [flat_map]. rewrite NoDup_app.
    destruct (Instance_Validate i) eqn:Hv; [split; [done|]; intros (((Hn & _) & _) & _); by destruct Hn|].
    destruct (decide (i_service i = service)) as [Hs|Hs]; [rewrite bool_decide_eq_true_2 by done|rewrite bool_decide_eq_false_2 by done]; cbn [negb]; [|split; [done|]; naive_solver].
    destruct (decide (i_id i ∈ ids)) as [Hi|Hi]; [rewrite bool_decide_eq_true_2 by done|rewrite bool_decide_eq_false_2 by done];
      [split; [done|]; intros (_ & Hx & _); exfalso; apply (Hx i); [set_solver|done]|].
    destruct (add_endpoints (i_endpoints i) seen) as [r|] eqn:Ha.
    + apply add_endpoints_spec in Ha as (-> & Hnd & Hdis). rewrite IH. split.
      * intros ((H1 & H2 & H3) & Hids & Hseen). split; [|split; set_solver]. split; [done|]. split; [split; [|done]|].
        -- intros (j & Hj & Hjl)%list_elem_of_fmap_1. apply (Hids j); [done|]. rewrite <- Hj. set_solver.
        -- split; [done|]. split; [set_solver|done].
      * intros (((_ & H1) & (Hni & H2) & (_ & Hcross & H3)) & Hids & Hseen). split; [done|]. split; [|set_solver].
        intros j Hj. rewrite not_elem_of_app, list_elem_of_singleton. split; [apply Hids; set_solver|]. intros Heq. apply Hni. rewrite <- Heq. by apply list_elem_of_fmap_2.
    + split; [done|]. intros ((_ & _ & (Hnd & _)) & _ & Hseen). exfalso. assert (Hsome : add_endpoints (i_endpoints i) seen = Some (seen ++ i_endpoints i)) by (apply add_endpoints_spec; set_solver). congruence.
Qed.
#[export] Instance consistent_perm service : Proper ((≡ₚ) ==> iff) (consistent service).
Proof. intros l l' Hl. unfold consistent. by rewrite Hl. Qed.
Lemma pretty_nonempty n : 0 ≤ n → TrimSpace (pretty n) ≠ "".
Proof.
  intros Hn. destruct (json_int_numeral n Hn) as [(d & ds & Hl & Hd & _) _]. unfold json_int in Hl, Hd.
  assert (Hv : valid_text (slen (pretty n)) (pretty n) = true).
  { apply valid_text_graphic; [intros Heq; by rewrite Heq in Hl|lia|]. apply (Forall_impl _ _ _ Hd). intros b. unfold is_digit, graphic, in_range. intros Hb. bool_hyps.
    apply andb_true_iff. split; apply Z.leb_le; lia. }
  pose proof (valid_text_nonempty _ _ Hv) as Hne. unfold valid_text in Hv. bool_hyps. congruence.
Qed.
End snapshots.

(** * Convergence of watchers *)
Lemma NoDup_flat_map {A B} (f : A → list B) (l : list A) : NoDup l → (∀ x, x ∈ l → NoDup (f x)) →
  (∀ x y b, x ∈ l → y ∈ l → x ≠ y → b ∈ f x → b ∉ f y) → NoDup (flat_map f l).
Proof.
  induction 1 as [|x l Hx Hnd IH]; intros Hone Hdis; cbn; [constructor|]. apply NoDup_app. split; [apply Hone; set_solver|]. split; [|apply IH; set_solver].
  intros b Hb (y & Hy & Hby)%list_elem_of_In%in_flat_map. apply (Hdis x y b); [set_solver|apply elem_of_cons; right; by apply list_elem_of_In|intros ->; by apply Hx, list_elem_of_In|done|by apply list_elem_of_In].
Qed.
Section converge.
Context `{UrlLib}.
Record state_ok (n : Z) (name : string) (st : serviceState) : Prop := {
  so_revision : 0 ≤ ss_revision st ≤ n;
  so_instances : ∀ id i, ss_instances st !! id = Some i → i_id i = id ∧ i_service i = name ∧ Instance_Validate i = None;
  so_endpoints : ∀ id id' i i' e, ss_instances st !! id = Some i → ss_instances st !! id' = Some i' → id ≠ id' → e ∈ i_endpoints i → e ∉ i_endpoints i'
}.
Lemma state_consistent n name st : state_ok n name st → consistent name (map_to_list (ss_instances st)).*2.
Proof.
  intros [_ Hi He]. assert (Hin : ∀ i, i ∈ (map_to_list (ss_instances st)).*2 → ss_instances st !! i_id i = Some i ∧ i_service i = name ∧ Instance_Validate i = None).
  { intros i ([id j] & -> & Hj%elem_of_map_to_list)%list_elem_of_fmap_1. cbn. destruct (Hi id j Hj) as (-> & ? & ?). done. }
  assert (Hids : i_id <$> (map_to_list (ss_instances st)).*2 = (map_to_list (ss_instances st)).*1).
  { rewrite <- list_fmap_compose. apply list_fmap_ext. intros k [id j] Hk. cbn. apply list_elem_of_lookup_2, elem_of_map_to_list in Hk. by apply (Hi id j). }
  assert (Hnd : NoDup (i_id <$> (map_to_list (ss_instances st)).*2)) by (rewrite Hids; apply NoDup_fst_map_to_list).
  split; [apply Forall_forall; intros i Hx; by destruct (Hin i Hx) as (_ & ? & ?)|]. split; [done|].
  apply NoDup_flat_map; [by apply NoDup_fmap_1 in Hnd|intros i Hx; by apply valid_endpoints, (Hin i Hx)|].
  intros i j e Hx Hy Hne Hex. destruct (Hin i Hx) as [Li _], (Hin j Hy) as [Lj _]. apply (He (i_id i) (i_id j) i j e Li Lj); [congruence|done].
Qed.
(** The snapshot of a consistent state never fails: it is valid and lists exactly the registered instances. *)
Lemma snapshot_spec n name st (cur := snapshot name st) : state_ok n name st → validName name = true →
  sn_service cur = name ∧ sn_revision cur = pretty (ss_revision st) ∧ sn_instances cur ≡ₚ (map_to_list (ss_instances st)).*2 ∧
  StronglySorted id_le (sn_instances cur) ∧ Snapshot_Validate cur = None.
Proof.
  intros Hst Hname. pose proof (state_consistent _ _ _ Hst) as Hc. set (l := (map_to_list (ss_instances st)).*2) in *.
  assert (Hrev : bool_decide (TrimSpace (pretty (ss_revision st)) = "") = false) by (apply bool_decide_eq_false, pretty_nonempty, Hst).
  assert (Hnew : ∀ l', l' ≡ₚ l → NewSnapshot name (pretty (ss_revision st)) l' = Ok (mkSnapshot name (pretty (ss_revision st)) (merge_sort id_le l'))).
  { intros l' Hl'. unfold NewSnapshot. rewrite Hname, Hrev. cbn [negb]. replace (check_instances name l' [] []) with (@None rgerror); [done|]. symmetry. apply check_instances_spec.
    split; [by rewrite Hl'|]. split; set_solver. }
  assert (Hcur : cur = mkSnapshot name (pretty (ss_revision st)) (merge_sort id_le l)) by (subst cur; unfold snapshot; fold l; by rewrite (Hnew l)).
  rewrite Hcur. cbn [sn_service sn_revision sn_instances]. split; [done|]. split; [done|]. split; [apply merge_sort_Permutation|]. split.
  - apply StronglySorted_merge_sort; [intros a b c; unfold id_le; apply (transitivity (R := String.le))|intros a b; apply (total String.le)].
  - unfold Snapshot_Validate. cbn. rewrite Hnew; [done|apply merge_sort_Permutation].
Qed.

(** Every interleaving of registrations, watches, reads and closes; the log has what watchers received. *)
Record dsys := mkDsys { ds_registry : Registry; ds_log : list (nat * Snapshot) }.
Inductive dop :=
| DRegister (cause : option rgerror) (i : Instance_) | DDeregister (cause : option rgerror) (i : Instance_)
| DWatch (cause : option rgerror) (name : string) | DNext (c : next_case) (i : nat) | DClose (i : nat).
Definition dstep (s : dsys) (o : dop) : dsys :=
  let r := ds_registry s in
  match o with
  | DRegister cause i => mkDsys (Register cause i r).2 (ds_log s)
  | DDeregister cause i => mkDsys (Deregister cause i r).2 (ds_log s)
  | DWatch cause name => mkDsys (Watch cause name r).2 (ds_log s)
  | DNext c i => let '(answer, r) := Next c i r in mkDsys r (ds_log s ++ match answer with Some (Ok snap) => [(i, snap)] | _ => [] end)
  | DClose i => mkDsys (Close i r) (ds_log s)
  end.
Definition dsteps (s : dsys) (l : list dop) : dsys := fold_left dstep l s.
Definition received (s : dsys) (i : nat) : list Snapshot := (List.filter (λ x, (x.1 =? i)%nat) (ds_log s)).*2.

(** A snapshot of a consistent state of the service at a revision. *)
Definition snapshot_at (name : string) (snap : Snapshot) (z : Z) : Prop := ∃ n st, state_ok n name st ∧ ss_revision st = z ∧ snap = snapshot name st.
Record watcher_ok (r : Registry) (log : list Snapshot) (w : watcher) (st : serviceState) (revs : list Z) : Prop := {
  wo_received : Forall2 (snapshot_at (wa_service w)) log revs;
  wo_sorted : StronglySorted Z.lt revs;
  wo_bound : Forall (λ z, z ≤ ss_revision st) revs;
  wo_pending : ∀ snap, wa_updates w = Some snap → ∃ z, snapshot_at (wa_service w) snap z ∧ Forall (λ z', z' < z) revs ∧ z ≤ ss_revision st;
  wo_current : wa_done w = false → match wa_updates w with Some snap => snap = snapshot (wa_service w) st | None => last log = Some (snapshot (wa_service w) st) end
}.
Record dsys_ok (n : Z) (s : dsys) (r := ds_registry s) : Prop := {
  do_states : ∀ name st, rg_services r !! name = Some st → state_ok n name st;
  do_watchers : ∀ name i, i ∈ default [] (rg_watchers r !! name) ↔ ∃ w, rg_heap r !! i = Some w ∧ wa_service w = name ∧ wa_done w = false;
  do_heap : ∀ i w, rg_heap r !! i = Some w → ∃ st revs, rg_services r !! wa_service w = Some st ∧ watcher_ok r (received s i) w st revs;
  do_log : ∀ i snap, (i, snap) ∈ ds_log s → (i < length (rg_heap r))%nat
}.

Lemma state_ok_mono n n' name st : state_ok n name st → n ≤ n' → state_ok n' name st.
Proof. intros [Hr ? ?] Hle. constructor; [lia|done|done]. Qed.
Lemma dsys_ok_mono n n' s : dsys_ok n s → n ≤ n' → dsys_ok n' s.
Proof. intros [H1 ? ? ?] Hle. constructor; [|done..]. intros name st Hst. eapply state_ok_mono; [by apply H1|done]. Qed.
Lemma notify_heap name snap r i : rg_heap (notify name snap r) !! i =
  if bool_decide (i ∈ default [] (rg_watchers r !! name)) then (λ w, mkWatcher (wa_service w) (Some snap) (wa_done w)) <$> rg_heap r !! i else rg_heap r !! i.
Proof.
  unfold notify. cbn [rg_heap]. generalize (default [] (rg_watchers r !! name)) as l. intros l. generalize (rg_heap r) as heap. induction l as [|j l IH]; intros heap; [done|].
  cbn [fold_left]. rewrite IH. destruct (heap !! j) as [w|] eqn:Hj.
  - destruct (decide (i = j)) as [->|Hne].
    + rewrite list_lookup_insert_eq by (by eapply lookup_lt_Some). rewrite (bool_decide_eq_true_2 (j ∈ j :: l)) by set_solver. rewrite Hj. by case_bool_decide.
    + rewrite list_lookup_insert_ne by done. destruct (decide (i ∈ l)); [rewrite !bool_decide_eq_true_2 by set_solver; done|rewrite !bool_decide_eq_false_2 by set_solver; done].
  - destruct (decide (i = j)) as [->|Hne]; [rewrite Hj; by repeat case_bool_decide|].
    destruct (decide (i ∈ l)); [rewrite !bool_decide_eq_true_2 by set_solver; done|rewrite !bool_decide_eq_false_2 by set_solver; done].
Qed.
Lemma notify_length name snap r : length (rg_heap (notify name snap r)) = length (rg_heap r).
Proof.
  unfold notify. cbn [rg_heap]. generalize (rg_heap r) as heap. induction (default [] (rg_watchers r !! name)) as [|j l IH]; intros heap; [done|]. cbn [fold_left]. rewrite IH.
  destruct (heap !! j); [apply length_insert|done].
Qed.
Lemma service_ok n s name : 0 ≤ n → dsys_ok n s → let '(st, r) := service name (ds_registry s) in
  dsys_ok n (mkDsys r (ds_log s)) ∧ rg_services r !! name = Some st ∧ rg_heap r = rg_heap (ds_registry s).
Proof.
  intros Hn Hok. unfold service. destruct (rg_services (ds_registry s) !! name) as [st|] eqn:Hs; [by destruct s|].
  split; [|split; [cbn; by rewrite lookup_insert_eq|done]]. destruct Hok as [H1 H2 H3 H4]. constructor; cbn; [|done| |done].
  - intros name' st. destruct (decide (name' = name)) as [->|Hne]; [|rewrite lookup_insert_ne by done; apply H1]. rewrite lookup_insert_eq. intros [= <-].
    constructor; cbn; [lia|intros id i; by rewrite lookup_empty|intros id id' i i' e; by rewrite lookup_empty].
  - intros i w Hw. destruct (H3 i w Hw) as (st & revs & Hst & Hwo). exists st, revs. split; [|by destruct Hwo]. rewrite lookup_insert_ne; [done|]. intros Heq. rewrite <- Heq in Hst. congruence.
Qed.
(** A change of a service reaches all its watchers. *)
Lemma publish_ok n s name st st' : dsys_ok n s → rg_services (ds_registry s) !! name = Some st → ss_revision st' = ss_revision st + 1 → state_ok n name st' →
  dsys_ok n (mkDsys (notify name (snapshot name st') (set_state name st' (ds_registry s))) (ds_log s)).
Proof.
  intros [H1 H2 H3 H4] Hs Hrev Hst'. set (r := ds_registry s) in *. assert (Hat : snapshot_at name (snapshot name st') (ss_revision st')) by (by exists n, st').
  assert (Hheap : ∀ i w, rg_heap (notify name (snapshot name st') (set_state name st' r)) !! i = Some w → ∃ w0, rg_heap r !! i = Some w0 ∧ wa_service w = wa_service w0 ∧ wa_done w = wa_done w0 ∧
    (wa_service w0 = name → wa_done w0 = false → wa_updates w = Some (snapshot name st')) ∧ (wa_service w0 ≠ name ∨ wa_done w0 = true → w = w0)).
  { intros i w. rewrite notify_heap. cbn [rg_heap rg_watchers set_state]. pose proof (H2 name i) as Hm. fold r in Hm. case_bool_decide as Hi.
    - intros (w0 & Hw0 & ->)%fmap_Some. apply Hm in Hi as (w1 & Hw1 & ? & ?). assert (w1 = w0) as -> by congruence. exists w0. cbn. split; [done|]. split; [done|]. split; [done|]. split; [done|]. intros [?|?]; congruence.
    - intros Hw. exists w. split; [done|]. split; [done|]. split; [done|]. split; [|done]. intros ? ?. destruct Hi. apply Hm. eauto. }
  constructor; cbn [ds_registry ds_log].
  - intros name' st0. cbn. destruct (decide (name' = name)) as [->|Hne]; [rewrite lookup_insert_eq; by intros [= <-]|rewrite lookup_insert_ne by done; apply H1].
  - intros name' i. change (rg_watchers (notify name (snapshot name st') (set_state name st' r))) with (rg_watchers r). rewrite (H2 name' i). fold r. split.
    + intros (w & Hw & ? & ?). rewrite notify_heap. cbn [rg_heap rg_watchers set_state]. rewrite Hw. case_bool_decide; [eexists; split; [done|]; done|eauto].
    + intros (w & Hw & ? & ?). apply Hheap in Hw as (w0 & Hw0 & ? & ? & _). exists w0. split; [done|]. split; congruence.
  - intros i w Hw. apply Hheap in Hw as (w0 & Hw0 & Hsv & Hdn & Hnew & Hsame). destruct (H3 i w0 Hw0) as (st0 & revs & Hst0 & Hwo). fold r in Hst0.
    destruct (decide (wa_service w0 = name)) as [Hn|Hn].
    + rewrite Hn, Hs in Hst0. injection Hst0 as <-. exists st', revs. rewrite Hsv, Hn. cbn. rewrite lookup_insert_eq. split; [done|]. destruct Hwo as [W1 W2 W3 W4 W5].
      assert (Hb : Forall (λ z, z < ss_revision st') revs) by (apply (Forall_impl _ _ _ W3); intros; lia).
      destruct (wa_done w0) eqn:Hd.
      * assert (w = w0) as -> by (apply Hsame; auto). constructor; try done; [apply (Forall_impl _ _ _ Hb); intros; lia| |by rewrite Hd].
        intros snap Hp. destruct (W4 snap Hp) as (z & ? & ? & ?). exists z. split; [done|]. split; [done|lia].
      * specialize (Hnew Hn eq_refl). constructor; rewrite ?Hsv, ?Hn, ?Hnew in *; try done; [apply (Forall_impl _ _ _ Hb); intros; lia|]. intros snap [= <-]. exists (ss_revision st'). split; [done|]. split; [done|lia].
    + assert (w = w0) as -> by (apply Hsame; auto). exists st0, revs. cbn. rewrite lookup_insert_ne by done. split; [done|]. by destruct Hwo.
  - intros i snap Hi. rewrite notify_length. by apply (H4 i snap).
Qed.

Lemma do_register n s cause i : 0 ≤ n < max_u64 → dsys_ok n s → dsys_ok (n + 1) (dstep s (DRegister cause i)).
Proof.
  intros Hn Hok. cbn [dstep]. assert (Hkeep : dsys_ok (n + 1) s) by (eapply dsys_ok_mono; [done|lia]). unfold Register. destruct cause; [by destruct s|]. destruct (Instance_Validate i) eqn:Hv; [by destruct s|].
  pose proof (service_ok (n + 1) s (i_service i) ltac:(lia) Hkeep) as Hs. pose proof (service_ok n s (i_service i) ltac:(lia) Hok) as Hs0.
  destruct (service (i_service i) (ds_registry s)) as [st r]. destruct Hs as (Hok1 & Hst & _). destruct Hs0 as (Hok0 & _). destruct (taken i st) eqn:Ht; [done|].
  case_match; [done|]. cbn [snd]. destruct (do_states _ _ Hok0 _ _ Hst) as [Hrev Hin Hep]. cbn [ds_registry] in *.
  assert (Hadd : u64_add (ss_revision st) 1 = ss_revision st + 1) by (apply u64_add_small; lia).
  eapply (publish_ok (n + 1) (mkDsys r (ds_log s))); [done|done|cbn; by rewrite Hadd|]. apply negb_false_iff in Ht. rewrite map_forallb_spec in Ht.
  assert (Hfree : ∀ id j e, ss_instances st !! id = Some j → id ≠ i_id i → e ∈ i_endpoints j → e ∉ i_endpoints i).
  { intros id j e Hj Hne Hej Hei. specialize (Ht id j Hj). rewrite bool_decide_eq_false_2 in Ht by done. apply negb_true_iff in Ht.
    assert (existsb (λ e, bool_decide (e ∈ i_endpoints i)) (i_endpoints j) = true); [|congruence]. apply existsb_exists. exists e. split; [by apply list_elem_of_In|by apply bool_decide_eq_true]. }
  constructor; cbn; [rewrite Hadd; lia| |].
  - intros id j. destruct (decide (id = i_id i)) as [->|Hne]; [rewrite lookup_insert_eq; by intros [= <-]|rewrite lookup_insert_ne by done; apply Hin].
  - intros id id' j j' e. destruct (decide (id = i_id i)) as [->|Hne], (decide (id' = i_id i)) as [->|Hne']; rewrite ?lookup_insert_eq, ?lookup_insert_ne by done; try done.
    + intros [= <-] Hj' Hd Hej Hej'. by apply (Hfree id' j' e Hj' Hne' Hej').
    + intros Hj [= <-] Hd Hej. by apply (Hfree id j e Hj Hne Hej).
    + apply Hep.
Qed.
Lemma do_deregister n s cause i : 0 ≤ n < max_u64 → dsys_ok n s → dsys_ok (n + 1) (dstep s (DDeregister cause i)).
Proof.
  intros Hn Hok. cbn [dstep]. assert (Hkeep : dsys_ok (n + 1) s) by (eapply dsys_ok_mono; [done|lia]). unfold Deregister. destruct cause; [by destruct s|]. destruct (Instance_Validate i) eqn:Hv; [by destruct s|].
  pose proof (service_ok (n + 1) s (i_service i) ltac:(lia) Hkeep) as Hs. pose proof (service_ok n s (i_service i) ltac:(lia) Hok) as Hs0.
  destruct (service (i_service i) (ds_registry s)) as [st r]. destruct Hs as (Hok1 & Hst & _). destruct Hs0 as (Hok0 & _). destruct (ss_instances st !! i_id i) eqn:Hi; [|done]. cbn [snd].
  destruct (do_states _ _ Hok0 _ _ Hst) as [Hrev Hin Hep]. cbn [ds_registry] in *. assert (Hadd : u64_add (ss_revision st) 1 = ss_revision st + 1) by (apply u64_add_small; lia).
  eapply (publish_ok (n + 1) (mkDsys r (ds_log s))); [done|done|cbn; by rewrite Hadd|].
  constructor; cbn; [rewrite Hadd; lia| |].
  - intros id j [_ Hj]%lookup_delete_Some. by apply Hin.
  - intros id id' j j' e [_ Hj]%lookup_delete_Some [_ Hj']%lookup_delete_Some. by apply Hep.
Qed.
Lemma do_watch n s cause name : 0 ≤ n → dsys_ok n s → dsys_ok n (dstep s (DWatch cause name)).
Proof.
  intros Hn Hok. cbn [dstep]. unfold Watch. destruct cause; [by destruct s|]. destruct (decide (name = "")); [rewrite bool_decide_eq_true_2 by done; by destruct s|]. rewrite bool_decide_eq_false_2 by done.
  pose proof (service_ok n s name Hn Hok) as Hs. destruct (service name (ds_registry s)) as [st r]. destruct Hs as (Hok1 & Hst & _). cbn [snd]. destruct Hok1 as [H1 H2 H3 H4]. cbn [ds_registry ds_log] in *.
  assert (Hnone : received (mkDsys r (ds_log s)) (length (rg_heap r)) = []).
  { unfold received. cbn. destruct (List.filter _ _) as [|[j snap] l] eqn:Hf; [done|]. assert (Hin : In (j, snap) (List.filter (λ x, (x.1 =? length (rg_heap r))%nat) (ds_log s))) by (rewrite Hf; by left).
    apply filter_In in Hin as [Hin Hj]. cbn in Hj. apply Nat.eqb_eq in Hj. apply list_elem_of_In, H4 in Hin. lia. }
  constructor; cbn [ds_registry ds_log rg_services rg_watchers rg_heap]; [done| | |].
  - intros name' i. destruct (decide (name' = name)) as [->|Hne].
    + rewrite lookup_insert_eq. cbn. rewrite elem_of_app, list_elem_of_singleton, H2. split.
      * intros [(w & Hw & ? & ?)| ->]; [exists w; rewrite lookup_app_l by (by eapply lookup_lt_Some); done|]. exists (mkWatcher name (Some (snapshot name st)) false). rewrite list_lookup_middle; done.
      * intros (w & [Hw|[Hge Hw]]%lookup_app_Some & ? & ?); [eauto|]. right. apply list_lookup_singleton_Some in Hw as [? _]. lia.
    + rewrite lookup_insert_ne by done. rewrite H2. split; [intros (w & Hw & ? & ?); exists w; rewrite lookup_app_l by (by eapply lookup_lt_Some); done|].
      intros (w & [Hw|[Hge Hw]]%lookup_app_Some & ? & ?); [eauto|]. apply list_lookup_singleton_Some in Hw as [_ <-]. by destruct Hne.
  - intros i w [Hw|[Hge Hw]]%lookup_app_Some; [destruct (H3 i w Hw) as (st0 & revs & ? & []); by exists st0, revs|].
    apply list_lookup_singleton_Some in Hw as [Hi <-]. assert (i = length (rg_heap r)) as -> by lia. exists st, []. split; [done|].
    change (received _ (length (rg_heap r))) with (received (mkDsys r (ds_log s)) (length (rg_heap r))). rewrite Hnone.
    constructor; cbn; [apply Forall2_nil_2|apply SSorted_nil|apply Forall_nil_2| |done]. intros snap [= <-]. exists (ss_revision st). split; [exists n, st; split; [by apply H1|done]|]. split; [constructor|lia].
  - intros i snap Hi%H4. rewrite length_app. lia.
Qed.

Lemma received_snoc r log i j snap : received (mkDsys r (log ++ [(j, snap)])) i = received (mkDsys r log) i ++ (if (j =? i)%nat then [snap] else []).
Proof. unfold received. cbn [ds_log]. rewrite List.filter_app, fmap_app. cbn. by destruct (j =? i)%nat. Qed.
Lemma do_next n s c i : dsys_ok n s → dsys_ok n (dstep s (DNext c i)).
Proof.
  intros Hok. assert (Hsame : ∀ r, r = ds_registry s → dsys_ok n (mkDsys r (ds_log s ++ []))) by (intros r ->; rewrite app_nil_r; by destruct s).
  cbn [dstep]. unfold Next. destruct (rg_heap (ds_registry s) !! i) as [w|] eqn:Hw; [|by apply Hsame]. destruct c as [| |cause]; [|destruct (wa_done w); by apply Hsame|by apply Hsame].
  destruct (wa_updates w) as [snap|] eqn:Hu; [|by apply Hsame]. destruct Hok as [H1 H2 H3 H4]. assert (Hlt := lookup_lt_Some _ _ _ Hw).
  constructor; cbn [ds_registry ds_log rg_services rg_watchers rg_heap]; [done| | |].
  - intros name j. rewrite H2. destruct (decide (j = i)) as [->|Hne].
    + rewrite list_lookup_insert_eq by done. split; [intros (w0 & Hw0 & ? & ?); eexists; split; [done|]; by simplify_eq|]. intros (w0 & [= <-] & ? & ?). by exists w.
    + by rewrite list_lookup_insert_ne.
  - intros j w'. destruct (decide (j = i)) as [->|Hne].
    + rewrite list_lookup_insert_eq by done. intros [= <-]. destruct (H3 i w Hw) as (st & revs & Hst & [W1 W2 W3 W4 W5]). destruct (W4 snap Hu) as (z & Hz & Hlast & Hle).
      exists st, (revs ++ [z]). cbn [wa_service wa_updates wa_done]. split; [done|]. rewrite received_snoc, Nat.eqb_refl. change (received (mkDsys _ (ds_log s)) i) with (received s i). constructor; cbn [wa_service wa_updates wa_done].
      * apply Forall2_app; [done|]. by constructor.
      * clear -W2 Hlast. induction revs as [|a revs IH]; [repeat constructor|]. cbn. apply StronglySorted_inv in W2 as [W2 Wa]. inv Hlast. constructor; [by apply IH|]. apply Forall_app. split; [done|by constructor].
      * apply Forall_app. split; [done|by constructor].
      * done.
      * intros Hd. rewrite last_snoc. specialize (W5 Hd). rewrite Hu in W5. by rewrite W5.
    + rewrite list_lookup_insert_ne by done. intros Hw'. destruct (H3 j w' Hw') as (st & revs & Hst & Hwo). exists st, revs. split; [done|]. rewrite received_snoc.
      rewrite (proj2 (Nat.eqb_neq i j)) by done. rewrite app_nil_r. change (received (mkDsys _ (ds_log s)) j) with (received s j). by destruct Hwo.
  - intros j snap'. rewrite length_insert, elem_of_app, list_elem_of_singleton. intros [Hin|[= -> _]]; [by eapply H4|done].
Qed.
Lemma do_close n s i : dsys_ok n s → dsys_ok n (dstep s (DClose i)).
Proof.
  intros Hok. cbn [dstep]. unfold Close. destruct (rg_heap (ds_registry s) !! i) as [w|] eqn:Hw; [|by destruct s]. destruct (wa_done w) eqn:Hd; [by destruct s|].
  destruct Hok as [H1 H2 H3 H4]. assert (Hlt := lookup_lt_Some _ _ _ Hw). constructor; cbn [ds_registry ds_log rg_services rg_watchers rg_heap]; [done| | |].
  - intros name j. assert (Hj : (∃ w', <[i := mkWatcher (wa_service w) (wa_updates w) true]> (rg_heap (ds_registry s)) !! j = Some w' ∧ wa_service w' = name ∧ wa_done w' = false) ↔
      j ≠ i ∧ j ∈ default [] (rg_watchers (ds_registry s) !! name)).
    { rewrite H2. destruct (decide (j = i)) as [->|Hne]; [rewrite list_lookup_insert_eq by done|rewrite list_lookup_insert_ne by done; naive_solver].
      split; [intros (w' & [= <-] & _ & Hx); done|by intros []]. }
    rewrite Hj. destruct (decide (name = wa_service w)) as [->|Hne].
    + rewrite lookup_insert_eq. cbn. rewrite list_elem_of_In, filter_In, <- list_elem_of_In, negb_true_iff, Nat.eqb_neq. naive_solver.
    + rewrite lookup_insert_ne by done. split; [|naive_solver]. intros Hin. split; [|done]. intros ->. apply H2 in Hin as (w' & Hw' & Hs & _). congruence.
  - intros j w'. destruct (decide (j = i)) as [->|Hne]; [|rewrite list_lookup_insert_ne by done; intros Hw'; destruct (H3 j w' Hw') as (st & revs & ? & []); by exists st, revs].
    rewrite list_lookup_insert_eq by done. intros [= <-]. destruct (H3 i w Hw) as (st & revs & Hst & []). exists st, revs. split; [done|]. by constructor.
  - intros j snap. rewrite length_insert. apply H4.
Qed.
Lemma dsteps_ok n s ops : 0 ≤ n → n + zlen ops ≤ max_u64 → dsys_ok n s → dsys_ok (n + zlen ops) (dsteps s ops).
Proof.
  revert n s. induction ops as [|o ops IH]; intros n s Hn Hlen Hok; [by rewrite Z.add_0_r|]. rewrite zlen_cons in *. pose proof (zlen_nonneg ops). rewrite Z.add_assoc. apply IH; [lia|lia|].
  destruct o; [by apply do_register; [lia|]|by apply do_deregister; [lia|]|..]; (eapply dsys_ok_mono; [|by apply Z.le_succ_diag_r]); [by apply do_watch|by apply do_next|by apply do_close].
Qed.
(** The reference: the instances of a service from the calls alone.  A valid instance is registered unless
    another one of the service has one of its endpoints or [Equal] takes it for the one already there; a
    valid instance that is deregistered is gone. *)
Definition conflict (i : Instance_) (m : gmap string Instance_) : bool :=
  existsb (λ x, (x.1 != i_id i) && existsb (λ e, bool_decide (e ∈ i_endpoints x.2)) (i_endpoints i)) (map_to_list m).
Definition registered_step (name : string) (m : gmap string Instance_) (o : dop) : gmap string Instance_ :=
  match o with
  | DRegister None i =>
      if bool_decide (Instance_Validate i = None) && (i_service i == name) && negb (conflict i m) && negb (from_option (λ j, Instance_Equal j i) false (m !! i_id i))
      then <[i_id i := i]> m else m
  | DDeregister None i => if bool_decide (Instance_Validate i = None) && (i_service i == name) then delete (i_id i) m else m
  | _ => m
  end.
Definition registered (name : string) (ops : list dop) : gmap string Instance_ := fold_left (registered_step name) ops ∅.
Definition instances_of (r : Registry) (name : string) : gmap string Instance_ := from_option ss_instances ∅ (rg_services r !! name).
Lemma service_instances name r : let '(st, r') := service name r in
  rg_services r' !! name = Some st ∧ ss_instances st = instances_of r name ∧ ∀ name', instances_of r' name' = instances_of r name'.
Proof.
  unfold service, instances_of. destruct (rg_services r !! name) as [st|] eqn:Hs; [done|]. cbn. split; [by rewrite lookup_insert_eq|]. split; [done|]. intros name'.
  destruct (decide (name' = name)) as [->|Hne]; [by rewrite lookup_insert_eq, Hs|by rewrite lookup_insert_ne].
Qed.
Lemma taken_conflict i st : taken i st = conflict i (ss_instances st).
Proof.
  unfold taken. destruct (conflict i (ss_instances st)) eqn:Hc; unfold conflict in Hc; [apply negb_true_iff; apply existsb_exists in Hc; revert Hc|apply negb_false_iff].
  - intros ([id j] & Hj%list_elem_of_In%elem_of_map_to_list & Hx). cbn in Hx. apply not_true_iff_false. rewrite map_forallb_spec. intros Hall. specialize (Hall id j Hj).
    apply andb_true_iff in Hx as [Hid Hx]. apply negb_true_iff in Hid. rewrite Hid in Hall. cbn in Hall. apply negb_true_iff, not_true_iff_false in Hall. apply Hall.
    apply existsb_exists in Hx as (e & He & Hin). bool_hyps. apply existsb_exists. exists e. split; [by apply list_elem_of_In|]. apply bool_decide_eq_true. by apply list_elem_of_In.
  - rewrite map_forallb_spec. intros id j Hj. destruct (id == i_id i) eqn:Hid; [done|]. cbn. apply negb_true_iff, not_true_iff_false. intros (e & He & Hin)%existsb_exists. bool_hyps.
    apply not_true_iff_false in Hc. apply Hc, existsb_exists. exists (id, j). split; [by apply list_elem_of_In, elem_of_map_to_list|]. cbn. rewrite bool_decide_eq_false_2 by done. cbn.
    apply existsb_exists. exists e. split; [by apply list_elem_of_In|]. apply bool_decide_eq_true. by apply list_elem_of_In.
Qed.
Lemma set_instances name st snap r name' : instances_of (notify name snap (set_state name st r)) name' = if bool_decide (name = name') then ss_instances st else instances_of r name'.
Proof.
  unfold instances_of. cbn. case_bool_decide as Hn; [subst; by rewrite lookup_insert_eq|by rewrite lookup_insert_ne].
Qed.
Lemma dstep_registered s o name : instances_of (ds_registry (dstep s o)) name = registered_step name (instances_of (ds_registry s) name) o.
Proof.
  destruct o as [[]  i|[] i|cause name'|c i|i]; cbn [dstep registered_step ds_registry]; try done.
  - unfold Register. destruct (Instance_Validate i); [done|]. cbn [andb]. rewrite bool_decide_eq_true_2 by done. cbn [andb].
    pose proof (service_instances (i_service i) (ds_registry s)) as Hs. destruct (service (i_service i) (ds_registry s)) as [st r]. destruct Hs as (_ & Hst & Hsame).
    rewrite taken_conflict, Hst. destruct (decide (i_service i = name)) as [<-|Hne]; [rewrite bool_decide_eq_true_2 by done|rewrite bool_decide_eq_false_2 by done]; cbn [andb].
    + destruct (conflict i (instances_of (ds_registry s) (i_service i))); [by rewrite <- Hsame|]. cbn [negb andb].
      destruct (instances_of (ds_registry s) (i_service i) !! i_id i) as [j|] eqn:Hj; cbn [from_option]; [destruct (Instance_Equal j i); [by rewrite <- Hsame|]|];
        cbn [snd negb]; rewrite set_instances, bool_decide_eq_true_2 by done; cbn; by rewrite ?Hst.
    + destruct (conflict _ _); [apply Hsame|]. destruct (match _ with Some _ => _ | None => _ end); [apply Hsame|]. cbn [snd]. by rewrite set_instances, bool_decide_eq_false_2.
  - unfold Deregister. destruct (Instance_Validate i); [done|]. rewrite bool_decide_eq_true_2 by done. cbn [andb].
    pose proof (service_instances (i_service i) (ds_registry s)) as Hs. destruct (service (i_service i) (ds_registry s)) as [st r]. destruct Hs as (_ & Hst & Hsame). rewrite Hst.
    destruct (decide (i_service i = name)) as [<-|Hne]; [rewrite bool_decide_eq_true_2 by done|rewrite bool_decide_eq_false_2 by done].
    + destruct (instances_of (ds_registry s) (i_service i) !! i_id i) eqn:Hj; cbn [snd]; [rewrite set_instances, bool_decide_eq_true_2 by done; cbn; by rewrite ?Hst|].
      rewrite Hsame. by rewrite delete_id.
    + destruct (_ !! i_id i); cbn [snd]; [by rewrite set_instances, bool_decide_eq_false_2|apply Hsame].
  - unfold Watch. destruct cause; [done|]. destruct (name' == ""); [done|]. pose proof (service_instances name' (ds_registry s)) as Hs. destruct (service name' (ds_registry s)) as [st r]. apply Hs.
  - unfold Next. destruct (rg_heap (ds_registry s) !! i) as [w|]; [|done]. destruct c; [destruct (wa_updates w)|destruct (wa_done w)|]; done.
  - unfold Close. destruct (rg_heap (ds_registry s) !! i) as [w|]; [|done]. by destruct (wa_done w).
Qed.
Lemma dsteps_registered ops name : ∀ s, instances_of (ds_registry (dsteps s ops)) name = fold_left (registered_step name) ops (instances_of (ds_registry s) name).
Proof. induction ops as [|o ops IH]; intros s; [done|]. unfold dsteps in *. cbn [fold_left]. by rewrite IH, dstep_registered. Qed.
Lemma dsys_ok_new : dsys_ok 0 (mkDsys New []).
Proof. constructor; cbn; [intros name st; by rewrite lookup_empty|intros name i; rewrite lookup_empty; cbn; set_solver|intros i w; by rewrite lookup_nil|set_solver]. Qed.
End converge.

(** C21: Discovery converges, for every interleaving of registrations, removals, watches, reads and
    closes: an open watcher either has the current snapshot of its service in its channel, or that
    snapshot is the last one it received, so a reader that keeps reading ends with the current one
    however many changes it missed; what it receives is never older than what it had (the revisions
    strictly increase); and the current snapshot is valid and lists exactly the instances that the calls so
    far leave registered, in the order of their identities.  A registration that [Equal] takes for the
    one in place does not replace it. *)
Theorem discovery_converges `{UrlLib} ops i w (s := dsteps (mkDsys New []) ops) :
  zlen ops ≤ max_u64 → rg_heap (ds_registry s) !! i = Some w → wa_done w = false →
  ∃ st revs, let cur := snapshot (wa_service w) st in
    rg_services (ds_registry s) !! wa_service w = Some st ∧
    (wa_updates w = Some cur ∨ wa_updates w = None ∧ last (received s i) = Some cur) ∧
    Forall2 (snapshot_at (wa_service w)) (received s i) revs ∧ StronglySorted Z.lt revs ∧
    (validName (wa_service w) = true → sn_service cur = wa_service w ∧ sn_revision cur = pretty (ss_revision st) ∧
       sn_instances cur ≡ₚ (map_to_list (registered (wa_service w) ops)).*2 ∧ StronglySorted id_le (sn_instances cur) ∧ Snapshot_Validate cur = None).
Proof.
  intros Hlen Hw Hd. pose proof (dsteps_ok 0 (mkDsys New []) ops ltac:(lia) ltac:(lia) dsys_ok_new) as Hok. fold s in Hok.
  destruct (do_heap _ _ Hok i w Hw) as (st & revs & Hst & Hwo). exists st, revs. split; [done|]. pose proof (wo_current _ _ _ _ _ Hwo Hd) as Hc.
  split; [destruct (wa_updates w); [left; congruence|by right]|]. split; [apply Hwo|]. split; [apply Hwo|]. intros Hv.
  assert (Hr : registered (wa_service w) ops = ss_instances st).
  { pose proof (dsteps_registered ops (wa_service w) (mkDsys New [])) as Hr. fold s in Hr. unfold registered. etransitivity; [symmetry; exact Hr|]. unfold instances_of. by rewrite Hst. }
  rewrite Hr. by apply (snapshot_spec (0 + zlen ops)); [apply Hok|].
Qed.

(** ** Where the contract ends, and witnesses *)

(** [Equal] reads an absent metadata key as an empty value: two instances with different keys are equal,
    so a registration that renames such a key is taken for a repetition and is not published. *)
Theorem equal_ignores_empty_keys `{UrlLib} id name endpoints key key' : key ≠ key' →
  let i := mkInstance id name endpoints {[key := ""]} in let j := mkInstance id name endpoints {[key' := ""]} in
  i ≠ j ∧ Instance_Equal i j = true.
Proof.
  intros Hne i j. split; [intros Heq; apply (f_equal (λ x, i_metadata x !! key)) in Heq; cbn [i i_metadata j] in Heq; by rewrite lookup_singleton_eq, lookup_singleton_ne in Heq|].
  unfold Instance_Equal. cbn. rewrite !bool_decide_eq_true_2 by (done || by rewrite !map_size_singleton). cbn. apply map_forallb_spec. intros k v [<- <-]%lookup_singleton_Some.
  rewrite lookup_singleton_ne by done. by apply bool_decide_eq_true.
Qed.

(** A parser for URLs of the form [scheme://host]. *)
Fixpoint cut_scheme (l : list Z) : option (list Z * list Z) :=
  match l with
  | 58 :: 47 :: 47 :: host => Some ([], host)
  | b :: l => '(s, host) ← cut_scheme l; Some (b :: s, host)
  | [] => None
  end.
#[export] Instance simple_urls : UrlLib := {
  URL := string * string;
  url_Parse s := '(scheme, host) ← cut_scheme (bytes_of s); Some (string_of_bytes scheme, string_of_bytes host);
  url_String u := u.1 +:+ "://" +:+ u.2;
  url_Scheme := fst; url_with_Scheme scheme u := (scheme, u.2); url_has_User _ := false; url_RawQuery _ := ""; url_Fragment _ := "";
  url_Host := snd; url_Path _ := ""; ToLower s := s
}.
(** A watcher that reads late skips a revision and ends with the current instances. *)
Definition w_instance (id host : string) : Instance_ := mkInstance id "orders" ["grpc://" +:+ host] ∅.
Definition w_history : list dop :=
  [DRegister None (w_instance "b" "10.0.0.2"); DWatch None "orders"; DNext NUpdate 0; DRegister None (w_instance "a" "10.0.0.1");
   DRegister None (w_instance "c" "10.0.0.2"); DDeregister None (w_instance "b" "10.0.0.2"); DNext NUpdate 0; DNext NUpdate 0].
Lemma discovery_converges_witness :
  let s := dsteps (mkDsys New []) w_history in
  received s 0 = [mkSnapshot "orders" "1" [w_instance "b" "10.0.0.2"]; mkSnapshot "orders" "3" [w_instance "a" "10.0.0.1"]] ∧
  ∃ w st, rg_heap (ds_registry s) !! 0%nat = Some w ∧ rg_services (ds_registry s) !! "orders" = Some st ∧ wa_updates w = None ∧ last (received s 0) = Some (snapshot "orders" st) ∧
    sn_instances (snapshot "orders" st) ≡ₚ (map_to_list (registered "orders" w_history)).*2 ∧ registered "orders" w_history = {["a" := w_instance "a" "10.0.0.1"]}.
Proof.
  split; [vm_compute; reflexivity|].
  destruct (rg_heap (ds_registry (dsteps (mkDsys New []) w_history)) !! 0%nat) as [w|] eqn:Hw; [|by vm_compute in Hw].
  assert (Hf : wa_done w = false ∧ wa_service w = "orders" ∧ wa_updates w = None) by (by vm_compute in Hw; injection Hw as <-). destruct Hf as (Hd & Hs & Hu).
  destruct (discovery_converges w_history 0 w ltac:(by vm_compute) Hw Hd) as (st & revs & Hst & Hor & _ & _ & Hl). rewrite Hs in *. exists w, st. split; [done|]. split; [done|]. split; [done|].
  destruct Hor as [Hx|[_ Hx]]; [congruence|]. split; [done|]. split; [apply Hl; vm_compute; reflexivity|vm_compute; reflexivity].
Defined.
(** A name that no snapshot can have is watched without an error, and the watcher gets the zero snapshot. *)
Theorem invalid_name_watched : validName " orders" = false ∧
  let '(answer, r) := Watch None " orders" New in
  answer = Ok 0%nat ∧ (Next NUpdate 0 r).1 = Some (Ok zero_Snapshot) ∧ Snapshot_Validate zero_Snapshot ≠ None.
Proof. by vm_compute. Qed.
