(* ===== verification/Selector.v ===== *)
(** * selector: choosing a node

    Models [selector/] ([selector.go], [node.go], [roundrobin.go], [weighted.go], [p2c.go],
    [rendezvous.go], [routing_hint.go]).  Observers are a type class, of which the outlier detector is an
    instance (file [Outlier]).  A [Select] reads the nodes under the lock, asks filters and observers without it and chooses
    under the lock again; the two critical sections are separate steps, and updates and other
    selections may come between them.  The states of [P2C] are pointers that a [Done] keeps, and are
    in a heap.  The order in which Go ranges over a map is an argument. *)
From S2P Require Import Prelude GoText GoFloat GoJson GoDecode Sha256 Access Breaker Discovery.
Open Scope Z_scope.

(** ** Nodes *)
Definition NUL : string := string_of_bytes [0].
Record Node := mkNode { n_id : string; n_service : string; n_endpoint : string; n_metadata : gmap string string }.
#[export] Instance Node_eq_dec : EqDecision Node.
Proof. solve_decision. Defined.
Definition node_key (n : Node) : string := n_id n +:+ NUL +:+ n_endpoint n.
Definition newNode (i : Instance_) (endpoint : string) : Node := mkNode (i_id i) (i_service i) endpoint (i_metadata i).
Inductive serror :=
| SErrInvalidOption | SErrInvalidWeight | SErrHashKey (cause : option serror) | SErrNoNodes | SErrServiceMismatch | SErrSnapshot (cause : rgerror) | SErrRoutingHint | SCause (text : string).
Record Result := mkResult { rs_Latency : duration; rs_Error : option Failure.goerror; rs_Canceled : bool; rs_Retried : bool }.

(** ** Settings *)
Definition maximumPreferenceTiers : Z := 8.
Definition maximumPreferencesInTier : Z := 8.
Definition IsSpace (r : Z) : bool :=
  in_range 9 13 r || (r =? 32) || (r =? 133) || (r =? 160) || (r =? 5760) || in_range 8192 8202 r || in_range 8232 8233 r || (r =? 8239) || (r =? 8287) || (r =? 12288).
Definition runes_of (value : string) : list Z := range_runes (String.length value) (bytes_of value).
Definition validPreferenceValue (value : string) : bool :=
  negb ((value == "") || (TrimSpace value != value)) && forallb (λ r, negb (IsControl r)) (runes_of value).
Definition validPreferenceKey (value : string) : bool := validPreferenceValue value && forallb (λ r, negb (IsSpace r)) (runes_of value).
Definition tiers : Type := list (gmap string string).
Fixpoint add_matchers (tier : list (string * string)) (matches : gmap string string) : option (gmap string string) :=
  match tier with
  | [] => Some matches
  | (key, value) :: tier =>
      if negb (validPreferenceKey key) || negb (validPreferenceValue value) then None
      else match matches !! key with Some _ => None | None => add_matchers tier (<[key := value]> matches) end
  end.
Fixpoint add_tiers (l : list (list (string * string))) (acc : tiers) : option tiers :=
  match l with
  | [] => Some acc
  | tier :: l =>
      if (zlen tier =? 0) || (maximumPreferencesInTier <? zlen tier) then None
      else matches ← add_matchers tier ∅; add_tiers l (acc ++ [matches])
  end.
Definition WithPreferenceTiers (l : list (list (string * string))) (acc : tiers) : option tiers :=
  if (zlen l =? 0) || (maximumPreferenceTiers <? zlen acc + zlen l) then None else add_tiers l acc.
Definition MetadataRegion : string := "cloud.region".
Definition MetadataZone : string := "cloud.availability_zone".
Definition WithLocality (region zone : string) : tiers → option tiers :=
  WithPreferenceTiers ((if zone != "" then [[(MetadataZone, zone)]] else []) ++ (if region != "" then [[(MetadataRegion, region)]] else [])).
Definition defaultSeed : Z := 11400714819323198485. (* 0x9e3779b97f4a7c15 *)
Definition seed_of (seed : Z) : Z := or_default seed defaultSeed.

(** ** Eligibility *)
Definition matches_tier (tier : gmap string string) (n : Node) : bool := map_forallb (λ key value, default "" (n_metadata n !! key) == value) tier.
Fixpoint preferredNodes (nodes : list Node) (l : tiers) : list Node :=
  match l with
  | [] => nodes
  | tier :: l => match List.filter (matches_tier tier) nodes with [] => preferredNodes nodes l | preferred => preferred end
  end.
(** [MatchMetadata] *)
Definition MatchMetadata (key value : string) (n : Node) : bool := default "" (n_metadata n !! key) == value.
(** An observer: whether a node is allowed at a time (and whether the context has ended by then), and results. *)
Class Observer (O : Type) := {
  ob_Allow : time → bool → Node → O → bool * O;
  ob_Done : time → Node → Result → O → O
}.
Section eligible.
Context {O : Type} `{Observer O}.
Fixpoint allow_all (now : time) (ended : bool) (n : Node) (obs : list O) : bool * list O :=
  match obs with
  | [] => (true, [])
  | o :: obs => let '(ok, o) := ob_Allow now ended n o in if ok then let '(rest, obs) := allow_all now ended n obs in (rest, o :: obs) else (false, o :: obs)
  end.
Fixpoint filtered (now : time) (ended : bool) (filters : list (Node → bool)) (nodes : list Node) (obs : list O) : list Node * list O :=
  match nodes with
  | [] => ([], obs)
  | n :: nodes =>
      let '(ok, obs) := if forallb (λ f, f n) filters then allow_all now ended n obs else (false, obs) in
      let '(l, obs) := filtered now ended filters nodes obs in
      (if ok then n :: l else l, obs)
  end.
(** [cause]: the context ended before; [ended]: it ends while the nodes are looked at. *)
Definition eligibleNodes (cause : option serror) (now : time) (ended : bool) (filters : list (Node → bool)) (prefs : tiers) (nodes : list Node) (obs : list O) :
    result serror (list Node) * list O :=
  match cause with
  | Some err => (Err err, obs)
  | None =>
      let '(l, obs) := filtered now ended filters nodes obs in
      match l with [] => (Err SErrNoNodes, obs) | _ => (Ok (preferredNodes l prefs), obs) end
  end.
Definition observeResult (now : time) (n : Node) (r : Result) (obs : list O) : list O := ob_Done now n r <$> obs.
End eligible.

(** ** Nodes of a snapshot *)
Definition key_le (a b : Node) : Prop := String.le (node_key a) (node_key b).
#[export] Instance key_le_dec a b : Decision (key_le a b).
Proof. unfold key_le. apply _. Defined.
Definition sort_nodes (l : list Node) : list Node := merge_sort key_le l.
Section snapshots.
Context `{UrlLib}.
Definition validateScheme (scheme : string) : result serror string :=
  let normalized := ToLower scheme in
  match url_Parse (normalized +:+ "://endpoint") with
  | Some parsed => if (url_Scheme parsed != normalized) || (normalized == "") then Err SErrInvalidOption else Ok normalized
  | None => Err SErrInvalidOption
  end.
Definition nodesFromSnapshot (s : Snapshot) (scheme : string) : result serror (list Node) :=
  match Snapshot_Validate s with
  | Some err => Err (SErrSnapshot err)
  | None => Ok (sort_nodes (flat_map (λ i, newNode i <$> List.filter (has_scheme scheme) (i_endpoints i)) (sn_instances s)))
  end.
End snapshots.

(** ** Round robin *)
(** The first critical section of every [Select]: the nodes, unless the operation targets another service. *)
Definition read_nodes (service target : string) (nodes : list Node) : result serror (list Node) :=
  if (service != "") && (target != service) then Err SErrServiceMismatch else Ok nodes.
(** A revision that is known already changes nothing. *)
Definition known (service revision : string) (s : Snapshot) : bool := (service == sn_service s) && (revision == sn_revision s).
Module roundrobin.
Record RoundRobin := mkRoundRobin { rr_service : string; rr_revision : string; rr_nodes : list Node; rr_next : Z }.
Section roundrobin.
Context `{UrlLib}.
Definition Update (scheme : string) (s : Snapshot) (rr : RoundRobin) : option serror * RoundRobin :=
  match nodesFromSnapshot s scheme with
  | Err err => (Some err, rr)
  | Ok nodes => if known (rr_service rr) (rr_revision rr) s then (None, rr) else (None, mkRoundRobin (sn_service s) (sn_revision s) nodes (rr_next rr))
  end.
End roundrobin.
Definition Select_read (target : string) (rr : RoundRobin) : result serror (list Node) := read_nodes (rr_service rr) target (rr_nodes rr).
(** [rr.next.Add(1) - 1] *)
Definition Select_pick (eligible : list Node) (rr : RoundRobin) : option Node * RoundRobin :=
  let next := u64_add (rr_next rr) 1 in
  (eligible !! Z.to_nat (u64_sub next 1 mod zlen eligible), mkRoundRobin (rr_service rr) (rr_revision rr) (rr_nodes rr) next).
End roundrobin.

(** ** Smooth weighted round robin *)
Module weighted.
Definition maximumNodeWeight : Z := 1000000.
Record weightedState := mkWeighted { ws_node : Node; ws_weight : Z; ws_current : Z }.
Record WeightedRoundRobin := mkWRR { wr_service : string; wr_revision : string; wr_nodes : gmap string weightedState }.
(** [strconv.ParseInt(text, 10, 64)] *)
Definition ParseInt10 (text : list Z) : option Z :=
  let digits l := match l with [] => None | _ => if forallb is_digit l then Some (digits_value l) else None end in
  match text with
  | 45 :: l => n ← digits l; if n <=? max_i64 + 1 then Some (- n) else None
  | 43 :: l => n ← digits l; if n <=? max_i64 then Some n else None
  | l => n ← digits l; if n <=? max_i64 then Some n else None
  end.
Definition nodeWeight (n : Node) (key : string) : result serror Z :=
  match n_metadata n !! key with
  | None => Ok 1
  | Some raw =>
      match ParseInt10 (bytes_of (TrimSpace raw)) with
      | Some value => if (value <=? 0) || (maximumNodeWeight <? value) then Err SErrInvalidWeight else Ok value
      | None => Err SErrInvalidWeight
      end
  end.
Fixpoint weights_of (key : string) (nodes : list Node) : result serror (list (Node * Z)) :=
  match nodes with
  | [] => Ok []
  | n :: nodes => match nodeWeight n key with Err err => Err err | Ok w => match weights_of key nodes with Err err => Err err | Ok l => Ok ((n, w) :: l) end end
  end.
Section weighted.
Context `{UrlLib}.
(** Nodes that stay keep their scheduling state. *)
Definition Update (scheme weightKey : string) (s : Snapshot) (w : WeightedRoundRobin) : option serror * WeightedRoundRobin :=
  match nodesFromSnapshot s scheme with
  | Err err => (Some err, w)
  | Ok nodes =>
      match weights_of weightKey nodes with
      | Err err => (Some err, w)
      | Ok weights =>
          if known (wr_service w) (wr_revision w) s then (None, w)
          else
            let next := fold_left (λ next '(n, weight),
              <[node_key n := mkWeighted n weight (default 0 (ws_current <$> wr_nodes w !! node_key n))]> next) weights ∅ in
            (None, mkWRR (sn_service s) (sn_revision s) next)
      end
  end.
End weighted.
Definition Select_read (target : string) (w : WeightedRoundRobin) : result serror (list Node) :=
  read_nodes (wr_service w) target (sort_nodes (ws_node <$> (map_to_list (wr_nodes w)).*2)).
(** The loop: every eligible node gains its weight; the greatest, the first of them by key, is chosen. *)
Definition better (st chosen : weightedState) : bool :=
  (ws_current chosen <? ws_current st) || (ws_current st =? ws_current chosen) && string_lt (node_key (ws_node st)) (node_key (ws_node chosen)).
Fixpoint weigh (eligible : list Node) (nodes : gmap string weightedState) (chosen : option (string * weightedState)) (total : Z) :
    gmap string weightedState * option (string * weightedState) * Z :=
  match eligible with
  | [] => (nodes, chosen, total)
  | n :: eligible =>
      match nodes !! node_key n with
      | None => weigh eligible nodes chosen total
      | Some st =>
          let st := mkWeighted (ws_node st) (ws_weight st) (i64 (ws_current st + ws_weight st)) in
          let chosen := match chosen with
                        | None => Some (node_key n, st)
                        | Some (key, c) => if better st c then Some (node_key n, st) else Some (key, c)
                        end in
          weigh eligible (<[node_key n := st]> nodes) chosen (i64 (total + ws_weight st))
      end
  end.
Definition Select_pick (eligible : list Node) (w : WeightedRoundRobin) : result serror Node * WeightedRoundRobin :=
  let '(nodes, chosen, total) := weigh eligible (wr_nodes w) None 0 in
  match chosen with
  | None => (Err SErrNoNodes, mkWRR (wr_service w) (wr_revision w) nodes)
  | Some (key, c) =>
      (Ok (ws_node c), mkWRR (wr_service w) (wr_revision w) (<[key := mkWeighted (ws_node c) (ws_weight c) (i64 (ws_current c - total))]> nodes))
  end.
End weighted.

(** ** Rendezvous *)
Module rendezvous.
Record Rendezvous := mkRendezvous { rv_service : string; rv_revision : string; rv_nodes : list Node }.
Section rendezvous.
Context `{UrlLib}.
Definition Update (scheme : string) (s : Snapshot) (r : Rendezvous) : option serror * Rendezvous :=
  match nodesFromSnapshot s scheme with
  | Err err => (Some err, r)
  | Ok nodes => if known (rv_service r) (rv_revision r) s then (None, r) else (None, mkRendezvous (sn_service s) (sn_revision s) nodes)
  end.
End rendezvous.
Definition Select_read (target : string) (r : Rendezvous) : result serror (list Node) := read_nodes (rv_service r) target (rv_nodes r).
Definition rendezvousScore (key : string) (n : Node) : list Z := sha256_bytes (bytes_of key ++ 0 :: bytes_of (node_key n)).
(** [bytes.Compare(a, b) > 0] *)
Fixpoint greater (a b : list Z) : bool :=
  match a, b with
  | [], _ => false
  | _ :: _, [] => true
  | x :: a, y :: b => if x =? y then greater a b else y <? x
  end.
Fixpoint best_from (key : string) (chosen : Node) (best : list Z) (nodes : list Node) : Node :=
  match nodes with
  | [] => chosen
  | n :: nodes => let score := rendezvousScore key n in if greater score best then best_from key n score nodes else best_from key chosen best nodes
  end.
Definition Select_pick (hash_key : result serror string) (eligible : list Node) : result serror Node :=
  match hash_key with
  | Err err => Err (SErrHashKey (Some err))
  | Ok key =>
      if TrimSpace key == "" then Err (SErrHashKey None)
      else match eligible with [] => Err SErrNoNodes | n :: nodes => Ok (best_from key n (rendezvousScore key n) nodes) end
  end.
(** Routing hints *)
Definition maxRoutingHintBytes : Z := 1024.
Definition NewRoutingHint (key : string) : option string := if valid_text maxRoutingHintBytes key then Some key else None.
Definition RoutingHintHashKey (hint : option string) : result serror string :=
  match hint with Some key => if key != "" then Ok key else Err SErrRoutingHint | None => Err SErrRoutingHint end.
End rendezvous.

(** ** Power of two choices *)
Module p2c.
Record nodeState := mkState { ps_node : Node; ps_ewma : duration; ps_inflight : Z; ps_penalty : spec_float }.
Record P2C := mkP2C { pc_service : string; pc_revision : string; pc_nodes : gmap string nat; pc_heap : list nodeState; pc_random : Z }.
Definition NewP2C (seed : Z) : P2C := mkP2C "" "" ∅ [] (seed_of seed).
Section update.
Context `{UrlLib}.
Fixpoint normalize_schemes (schemes result : list string) : option (list string) :=
  match schemes with
  | [] => Some result
  | scheme :: schemes =>
      match validateScheme scheme with
      | Err _ => None
      | Ok normalized => if bool_decide (normalized ∈ result) then None else normalize_schemes schemes (result ++ [normalized])
      end
  end.
Definition normalizeP2CSchemes (schemes : list string) : option (list string) :=
  if (zlen schemes =? 0) || (8 <? zlen schemes) then None else normalize_schemes schemes [].
Fixpoint nodes_of_schemes (s : Snapshot) (schemes : list string) : result serror (list Node) :=
  match schemes with
  | [] => Ok []
  | scheme :: schemes =>
      match nodesFromSnapshot s scheme with
      | Err err => Err err
      | Ok selected => match nodes_of_schemes s schemes with Err err => Err err | Ok nodes => Ok (selected ++ nodes) end
      end
  end.
Definition p2cNodesFromSnapshot (s : Snapshot) (schemes : list string) : result serror (list Node) :=
  match nodes_of_schemes s schemes with Err err => Err err | Ok nodes => Ok (sort_nodes nodes) end.
(** A node that stays keeps its pointer and its feedback; a new one gets a fresh state. *)
Definition keep_node (old : gmap string nat) (x : gmap string nat * list nodeState) (n : Node) : gmap string nat * list nodeState :=
  let '(next, heap) := x in
  match old !! node_key n with
  | Some p => (<[node_key n := p]> next, match heap !! p with Some st => <[p := mkState n (ps_ewma st) (ps_inflight st) (ps_penalty st)]> heap | None => heap end)
  | None => (<[node_key n := length heap]> next, heap ++ [mkState n 0 0 (float64 0)])
  end.
(** The nodes of an accepted snapshot. *)
Definition accept (nodes : list Node) (service revision : string) (p : P2C) : P2C :=
  let '(next, heap) := fold_left (keep_node (pc_nodes p)) nodes (∅, pc_heap p) in mkP2C service revision next heap (pc_random p).
Definition Update (schemes : list string) (s : Snapshot) (p : P2C) : option serror * P2C :=
  match p2cNodesFromSnapshot s schemes with
  | Err err => (Some err, p)
  | Ok nodes =>
      if known (pc_service p) (pc_revision p) s then (None, p) else (None, accept nodes (sn_service s) (sn_revision s) p)
  end.
End update.

Definition u64_shl (x n : Z) : Z := Z.shiftl x n mod (max_u64 + 1).
Definition nextRandom (random : Z) : Z :=
  let value := Z.lxor random (u64_shl random 13) in
  let value := Z.lxor value (Z.shiftr value 7) in
  Z.lxor value (u64_shl value 17).
Definition score (st : nodeState) : spec_float :=
  let latency := if ps_ewma st <=? 0 then millisecond else ps_ewma st in
  mul64 (mul64 (float64 latency) (float64 (ps_inflight st + 1))) (add64 (float64 1) (ps_penalty st)).
(** Candidates are pointers with their states. *)
Definition sample (random : Z) (candidates : list (nat * nodeState)) : option (nat * nodeState) := candidates !! Z.to_nat (random mod zlen candidates).
Definition choose (candidates : list (nat * nodeState)) (random : Z) : option (nat * nodeState) * Z :=
  match candidates with
  | [c] => (Some c, random)
  | _ =>
      let r1 := nextRandom random in
      let r2 := nextRandom r1 in
      match sample r1 candidates, sample r2 candidates with
      | Some first, Some second =>
          let second := if (first.1 =? second.1)%nat then default second (List.find (λ c, negb (c.1 =? first.1)%nat) candidates) else second in
          (Some (if SFltb (score second.2) (score first.2) then second else first), r2)
      | _, _ => (None, r2)
      end
  end.
(** [nodes] lists the states in the order Go ranges over the map. *)
Definition Select_read (target : string) (nodes : list Node) (p : P2C) : result serror (list Node) := read_nodes (pc_service p) target nodes.
Definition current_nodes (p : P2C) : list Node := omap (λ x, ps_node <$> pc_heap p !! x.2) (map_to_list (pc_nodes p)).
Definition candidates_of (p : P2C) (eligible : list Node) : list (nat * nodeState) :=
  omap (λ n, ptr ← pc_nodes p !! node_key n; st ← pc_heap p !! ptr; Some (ptr, st)) eligible.
Definition with_inflight (z : Z) (st : nodeState) : nodeState := mkState (ps_node st) (ps_ewma st) z (ps_penalty st).
Definition Select_pick (eligible : list Node) (p : P2C) : result serror (nat * Node) * P2C :=
  match candidates_of p eligible with
  | [] => (Err SErrNoNodes, p)
  | candidates =>
      match choose candidates (pc_random p) with
      | (Some (ptr, st), random) =>
          (Ok (ptr, ps_node st), mkP2C (pc_service p) (pc_revision p) (pc_nodes p) (<[ptr := with_inflight (ps_inflight st + 1) st]> (pc_heap p)) random)
      | (None, random) => (Err SErrNoNodes, mkP2C (pc_service p) (pc_revision p) (pc_nodes p) (pc_heap p) random)
      end
  end.
(** [record]; [latency] is that of the result or, if it is not positive, the time since the start. *)
Definition ewma (old latency : duration) (unspecified : Z) : duration :=
  match trunc64 (add64 (mul64 (div64 (float64 4) (float64 5)) (float64 old)) (mul64 (div64 (float64 1) (float64 5)) (float64 latency))) with
  | Some z => if (- (max_i64 + 1) <=? z) && (z <=? max_i64) then z else unspecified
  | None => unspecified
  end.
Definition record_state (r : Result) (elapsed : duration) (unspecified : Z) (st : nodeState) : nodeState :=
  let latency := if rs_Latency r <=? 0 then elapsed else rs_Latency r in
  mkState (ps_node st)
    (if ps_ewma st <=? 0 then latency else ewma (ps_ewma st) latency unspecified)
    (if 0 <? ps_inflight st then ps_inflight st - 1 else ps_inflight st)
    (if bool_decide (is_Some (rs_Error r)) && negb (rs_Canceled r) then add64 (ps_penalty st) (float64 1) else mul64 (ps_penalty st) (div64 (float64 1) (float64 2))).
Definition record (ptr : nat) (r : Result) (elapsed : duration) (unspecified : Z) (p : P2C) : P2C :=
  match pc_heap p !! ptr with
  | Some st => mkP2C (pc_service p) (pc_revision p) (pc_nodes p) (<[ptr := record_state r elapsed unspecified st]> (pc_heap p)) (pc_random p)
  | None => p
  end.
(** [Select], when nothing comes between its parts. *)
Definition Select {O} `{Observer O} (target : string) (cause : option serror) (now : time) (ended : bool) (filters : list (Node → bool)) (prefs : tiers)
    (nodes : list Node) (p : P2C) (obs : list O) : result serror (nat * Node) * P2C * list O :=
  match Select_read target nodes p with
  | Err err => (Err err, p, obs)
  | Ok nodes =>
      match eligibleNodes cause now ended filters prefs nodes obs with
      | (Err err, obs) => (Err err, p, obs)
      | (Ok eligible, obs) => let '(answer, p) := Select_pick eligible p in (answer, p, obs)
      end
  end.

(** *** Every interleaving: a selection and its [Done], which works once *)
Record selection := mkSelection { se_ptr : nat; se_node : Node; se_done : bool }.
Record psys := mkPsys { py_p2c : P2C; py_selections : list selection }.
Inductive pop :=
| PUpdate (nodes : list Node) (service revision : string)   (* the nodes of an accepted snapshot *)
| PPick (eligible : list Node)
| PDone (i : nat) (r : Result) (elapsed : duration) (unspecified : Z).
Definition pstep (s : psys) (o : pop) : psys :=
  match o with
  | PUpdate nodes service revision => mkPsys (accept nodes service revision (py_p2c s)) (py_selections s)
  | PPick eligible =>
      match Select_pick eligible (py_p2c s) with
      | (Ok (ptr, n), p) => mkPsys p (py_selections s ++ [mkSelection ptr n false])
      | (Err _, p) => mkPsys p (py_selections s)
      end
  | PDone i r elapsed u =>
      match py_selections s !! i with
      | Some (mkSelection ptr n false) => mkPsys (record ptr r elapsed u (py_p2c s)) (<[i := mkSelection ptr n true]> (py_selections s))
      | _ => s
      end
  end.
Definition psteps (s : psys) (l : list pop) : psys := fold_left pstep l s.
End p2c.
