(* ===== verification/SelectorSpec.v ===== *)
(** * Properties of the selectors

    Smooth weighted round robin gives every node exactly its share; the inflight counts of [P2C]
    are exact over all interleavings; rendezvous hashing keeps a key on its node; eligibility. *)
From S2P Require Import Prelude GoText GoFloat GoJson GoDecode Sha256 Access Breaker Discovery Selector.
Open Scope Z_scope.

(** ** Sums over a list *)
Fixpoint total_of {A} (f : A → Z) (l : list A) : Z := match l with [] => 0 | x :: l => f x + total_of f l end.
Section sums.
Context {A : Type}.
Implicit Types (f g : A → Z) (l : list A).
Lemma total_linear f g a b l : total_of (λ x, a * f x - b * g x) l = a * total_of f l - b * total_of g l.
Proof. induction l as [|x l IH]; cbn; [lia|]. rewrite IH. lia. Qed.
Lemma total_ext f g l : (∀ x, x ∈ l → f x = g x) → total_of f l = total_of g l.
Proof. induction l as [|x l IH]; intros H; cbn; [done|]. rewrite H, IH; set_solver. Qed.
Lemma total_le f g l : (∀ x, x ∈ l → f x ≤ g x) → total_of f l ≤ total_of g l.
Proof. induction l as [|x l IH]; intros H; cbn; [lia|]. assert (f x ≤ g x) by (apply H; set_solver). assert (total_of f l ≤ total_of g l) by (apply IH; set_solver). lia. Qed.
Lemma total_const c l : total_of (λ _, c) l = c * zlen l.
Proof. induction l as [|x l IH]; cbn [total_of]; [symmetry; apply Z.mul_0_r|]. rewrite IH, zlen_cons. lia. Qed.
(** If no term exceeds its bound and the sums agree, every term is its bound. *)
Lemma total_tight f g l : (∀ x, x ∈ l → f x ≤ g x) → total_of f l = total_of g l → ∀ x, x ∈ l → f x = g x.
Proof.
  induction l as [|y l IH]; intros Hle Heq x Hx; [by apply elem_of_nil in Hx|]. cbn in Heq.
  assert (Hy : f y ≤ g y) by (apply Hle; set_solver). assert (Hl : total_of f l ≤ total_of g l) by (apply total_le; set_solver).
  apply elem_of_cons in Hx as [->|Hx]; [lia|]. apply IH; [set_solver|lia|done].
Qed.
(** A term exceeds the bound of all the others only by their sum. *)
Lemma total_member f l x b : (∀ y, y ∈ l → b ≤ f y) → b ≤ 0 → x ∈ l → f x ≤ total_of f l - b * zlen l.
Proof.
  induction l as [|y l IH]; intros Hb Hb0 Hx; [by apply elem_of_nil in Hx|]. rewrite zlen_cons. cbn. pose proof (zlen_nonneg l).
  assert (Hl : b * zlen l ≤ total_of f l) by (rewrite <- total_const; apply total_le; set_solver). assert (Hy : b ≤ f y) by (apply Hb; set_solver).
  apply elem_of_cons in Hx as [->|Hx]; [lia|]. specialize (IH ltac:(set_solver) Hb0 Hx). lia.
Qed.
End sums.

(** ** Smooth weighted round robin *)
Section weighted.
Import weighted.
Variables (l : list Node) (wt : Node → Z).
Abbreviation W := (total_of wt l).
Hypothesis l_nonempty : l ≠ [].
Hypothesis l_keys : NoDup (node_key <$> l).
Hypothesis l_size : zlen l ≤ 1000000.
Hypothesis l_weights : ∀ n, n ∈ l → 1 ≤ wt n ≤ maximumNodeWeight.

Definition gain (st : weightedState) : weightedState := mkWeighted (ws_node st) (ws_weight st) (ws_current st + ws_weight st).
Definition fits (z : Z) : Prop := - (max_i64 + 1) ≤ z ≤ max_i64.
Lemma weigh_spec l' (S : Node → weightedState) nodes chosen total : NoDup (node_key <$> l') →
  (∀ n, n ∈ l' → nodes !! node_key n = Some (S n) ∧ fits (ws_current (S n) + ws_weight (S n)) ∧ 0 ≤ ws_weight (S n)) →
  0 ≤ total → total + total_of (λ n, ws_weight (S n)) l' ≤ max_i64 →
  let '(nodes', chosen', total') := weigh l' nodes chosen total in
  (∀ n, n ∈ l' → nodes' !! node_key n = Some (gain (S n))) ∧ (∀ k, k ∉ node_key <$> l' → nodes' !! k = nodes !! k) ∧
  total' = total + total_of (λ n, ws_weight (S n)) l' ∧
  match chosen' with
  | None => chosen = None ∧ l' = []
  | Some (k, c) => (chosen = Some (k, c) ∨ ∃ n, n ∈ l' ∧ k = node_key n ∧ c = gain (S n)) ∧
      (∀ n, n ∈ l' → ws_current (gain (S n)) ≤ ws_current c) ∧ (∀ k0 c0, chosen = Some (k0, c0) → ws_current c0 ≤ ws_current c)
  end.
Proof.
  revert nodes chosen total. induction l' as [|n l' IH]; intros nodes chosen total Hnd Hst Ht Hmax; cbn [weigh].
  { split; [set_solver|]. split; [done|]. split; [cbn; lia|]. destruct chosen as [[k c]|]; [|done]. split; [by left|]. split; [set_solver|]. intros k0 c0 [= <- <-]. lia. }
  destruct (Hst n ltac:(set_solver)) as (Hn & Hfit & Hpos). rewrite Hn. rewrite fmap_cons, NoDup_cons in Hnd. destruct Hnd as [Hnot Hnd]. cbn [total_of] in Hmax.
  assert (Hrest : 0 ≤ total_of (λ n, ws_weight (S n)) l') by (rewrite <- (Z.mul_0_l (zlen l')), <- total_const; apply total_le; intros x Hx; apply Hst; set_solver).
  cbn [ws_weight ws_current ws_node]. rewrite (i64_small (ws_current (S n) + ws_weight (S n))) by (unfold fits in Hfit; lia). rewrite (i64_small (total + ws_weight (S n))) by (unfold max_i64 in *; lia).
  change (mkWeighted (ws_node (S n)) (ws_weight (S n)) (ws_current (S n) + ws_weight (S n))) with (gain (S n)).
  set (chosen1 := match chosen with Some (k, c) => if better (gain (S n)) c then Some (node_key n, gain (S n)) else Some (k, c) | None => Some (node_key n, gain (S n)) end).
  specialize (IH (<[node_key n := gain (S n)]> nodes) chosen1 (total + ws_weight (S n)) Hnd).
  destruct (weigh l' (<[node_key n := gain (S n)]> nodes) chosen1 (total + ws_weight (S n))) as [[nodes' chosen'] total']. destruct IH as (H1 & H2 & H3 & H4); [|lia|lia|].
  { intros m Hm. rewrite lookup_insert_ne; [apply Hst; set_solver|]. intros Heq. apply Hnot. rewrite Heq. by apply list_elem_of_fmap_2. }
  split; [|split; [|split]].
  - intros m [->|Hm]%elem_of_cons; [rewrite H2 by done; by rewrite lookup_insert_eq|by apply H1].
  - intros k Hk. rewrite H2 by set_solver. rewrite lookup_insert_ne; [done|]. set_solver.
  - rewrite H3. cbn [total_of]. lia.
  - assert (Hc1 : ∃ k1 c1, chosen1 = Some (k1, c1) ∧ (chosen = Some (k1, c1) ∨ k1 = node_key n ∧ c1 = gain (S n)) ∧
      ws_current (gain (S n)) ≤ ws_current c1 ∧ (∀ k0 c0, chosen = Some (k0, c0) → ws_current c0 ≤ ws_current c1)).
    { subst chosen1. destruct chosen as [[k c]|]; [|exists (node_key n), (gain (S n)); split; [done|]; split; [by right|]; split; [lia|done]].
      unfold better. destruct (Z.ltb_spec (ws_current c) (ws_current (gain (S n)))) as [Hlt|Hge]; cbn [orb].
      - exists (node_key n), (gain (S n)). split; [done|]. split; [by right|]. split; [lia|]. intros k0 c0 [= <- <-]. lia.
      - destruct (Z.eqb_spec (ws_current (gain (S n))) (ws_current c)) as [He|He]; cbn [andb].
        + destruct (string_lt _ _); [exists (node_key n), (gain (S n)); split; [done|]; split; [by right|]; split; [lia|]; intros k0 c0 [= <- <-]; lia|].
          exists k, c. split; [done|]. split; [by left|]. split; [lia|]. intros k0 c0 [= <- <-]. lia.
        + exists k, c. split; [done|]. split; [by left|]. split; [lia|]. intros k0 c0 [= <- <-]. lia. }
    destruct Hc1 as (k1 & c1 & Hc1 & Hfrom & Hge1 & Hold). destruct chosen' as [[k c]|]; [|by destruct H4 as [Hx _]; rewrite Hc1 in Hx].
    destruct H4 as (Hin & Hall & Hprev). specialize (Hprev _ _ Hc1). split; [|split].
    + destruct Hin as [Hx|(m & Hm & -> & ->)]; [|right; exists m; set_solver]. rewrite Hc1 in Hx. injection Hx as <- <-. destruct Hfrom as [?|[-> ->]]; [by left|right; exists n; set_solver].
    + intros m [->|Hm]%elem_of_cons; [lia|by apply Hall].
    + intros k0 c0 Hk0. specialize (Hold k0 c0 Hk0). lia.
Qed.

Definition count_of (n : Node) (chosen : list Node) : Z := zlen (List.filter (λ m, bool_decide (m = n)) chosen).
Lemma count_snoc_node n chosen m : count_of n (chosen ++ [m]) = count_of n chosen + (if bool_decide (m = n) then 1 else 0).
Proof. unfold count_of. rewrite List.filter_app, zlen_app. cbn. by destruct (bool_decide (m = n)). Qed.
Lemma l_nodup : NoDup l.
Proof using l_keys. by apply NoDup_fmap_1 in l_keys. Qed.
Lemma total_one (l' : list Node) c (f : Node → Z) : NoDup l' → c ∈ l' → total_of (λ n, f n + (if bool_decide (c = n) then 1 else 0)) l' = total_of f l' + 1.
Proof.
  induction 1 as [|n l' Hn Hnd IH]; intros Hc; [by apply elem_of_nil in Hc|]. cbn [total_of]. apply elem_of_cons in Hc as [->|Hc].
  - rewrite bool_decide_eq_true_2 by done. rewrite (total_ext _ f); [lia|]. intros m Hm. rewrite bool_decide_eq_false_2 by (intros ->; done). lia.
  - rewrite IH by done. rewrite bool_decide_eq_false_2 by (intros ->; done). lia.
Qed.
Lemma total_counts chosen : Forall (λ n, n ∈ l) chosen → total_of (λ n, count_of n chosen) l = zlen chosen.
Proof using l_keys.
  induction chosen as [|c chosen IH] using rev_ind; intros Hf; [by rewrite (total_ext _ (λ _, 0)), total_const|]. apply Forall_app in Hf as [Hf Hc]. inv Hc.
  rewrite (total_ext _ (λ n, count_of n chosen + (if bool_decide (c = n) then 1 else 0))) by (intros; apply count_snoc_node).
  rewrite total_one by (done || apply l_nodup). rewrite IH, zlen_app by done. done.
Qed.
(** What a node is owed: its share of the selections so far, less the selections it got. *)
Definition owed (chosen : list Node) (n : Node) : Z := zlen chosen * wt n - W * count_of n chosen.
Record sched (chosen : list Node) (w : WeightedRoundRobin) : Prop := {
  sd_members : Forall (λ n, n ∈ l) chosen;
  sd_states : ∀ n, n ∈ l → wr_nodes w !! node_key n = Some (mkWeighted n (wt n) (owed chosen n));
  sd_ahead : ∀ n, n ∈ l → - W < owed chosen n
}.
Lemma weight_bounds : 1 ≤ W ≤ 1000000 * zlen l ∧ 1 ≤ zlen l.
Proof using l_keys l_nonempty l_size l_weights.
  assert (1 ≤ zlen l) by (destruct l; [done|]; rewrite zlen_cons; pose proof (zlen_nonneg l0); lia). split; [|done]. split.
  - transitivity (1 * zlen l); [lia|]. rewrite <- total_const. apply total_le. intros; by apply l_weights.
  - rewrite <- total_const. apply total_le. intros n Hn. apply l_weights in Hn as [_ Hx]. exact Hx.
Qed.
Lemma owed_total chosen : Forall (λ n, n ∈ l) chosen → total_of (owed chosen) l = 0.
Proof using l_keys. intros Hf. unfold owed. rewrite total_linear, total_counts by done. lia. Qed.
Lemma owed_fits chosen n : Forall (λ n, n ∈ l) chosen → (∀ n, n ∈ l → - W < owed chosen n) → n ∈ l → - W < owed chosen n ≤ 1000000000000000000.
Proof using l_keys l_nonempty l_size l_weights.
  intros Hf Ha Hn. destruct weight_bounds as [HW Hl]. pose proof (total_member (owed chosen) l n (- W)) as Hm. rewrite owed_total in Hm by done.
  specialize (Hm ltac:(intros y Hy; specialize (Ha y Hy); lia) ltac:(lia) Hn). split; [by apply Ha|].
  assert (W * zlen l ≤ 1000000000000 * 1000000) by (apply Z.mul_le_mono_nonneg; nia). lia.
Qed.
Lemma pick_step chosen w : sched chosen w → ∃ n w', Select_pick l w = (Ok n, w') ∧ n ∈ l ∧ sched (chosen ++ [n]) w'.
Proof using l_keys l_nonempty l_size l_weights.
  intros [Hmem Hst Ha]. destruct weight_bounds as [HW Hl]. set (S := λ n, mkWeighted n (wt n) (owed chosen n)).
  pose proof (λ n, owed_fits chosen n Hmem Ha) as Hfit. pose proof l_nodup as Hnd.
  pose proof (weigh_spec l S (wr_nodes w) None 0 l_keys) as Hw. unfold Select_pick. destruct (weigh l (wr_nodes w) None 0) as [[nodes chosen'] total]. destruct Hw as (H1 & H2 & H3 & H4).
  { intros n Hn. pose proof (l_weights n Hn) as Hwt. specialize (Hfit n Hn). unfold maximumNodeWeight in Hwt. split; [by apply Hst|]. unfold fits, max_i64. cbn. lia. }
  { lia. }
  { change (λ n, ws_weight (S n)) with wt. unfold max_i64. lia. }
  change (λ n, ws_weight (S n)) with wt in H3. cbn in H3.
  destruct chosen' as [[key c]|]; [|by destruct H4]. destruct H4 as ([?|(n & Hn & -> & ->)] & Hmax & _); [done|].
  eexists n, _. split; [done|]. split; [done|].
  assert (Howed : ∀ m, owed (chosen ++ [n]) m = owed chosen m + wt m - (if bool_decide (n = m) then W else 0)).
  { intros m. unfold owed. rewrite zlen_app, count_snoc_node. change (zlen [n]) with 1. destruct (bool_decide (n = m)); lia. }
  assert (Hpos : 1 ≤ owed chosen n + wt n).
  { destruct (Z.le_gt_cases 1 (owed chosen n + wt n)) as [|Hle]; [done|]. exfalso.
    assert (Hsum : total_of (λ m, 1 * owed chosen m - (-1) * wt m) l ≤ total_of (λ _, 0) l). { apply total_le. intros m Hm. specialize (Hmax m Hm). cbn in Hmax. lia. }
    rewrite total_linear, owed_total, total_const in Hsum by done. lia. }
  constructor; cbn [wr_nodes].
  - apply Forall_app. split; [done|by constructor].
  - intros m Hm. destruct (decide (n = m)) as [<-|Hne].
    + rewrite lookup_insert_eq, Howed, bool_decide_eq_true_2 by done. cbn. do 2 f_equal. specialize (Hfit n Hn). pose proof (l_weights n Hn). unfold maximumNodeWeight in *. rewrite H3. apply i64_small. unfold max_i64. lia.
    + rewrite lookup_insert_ne. 2:{ intros Heq. apply Hne. apply (list_elem_of_lookup_1) in Hn as [i Hi]. apply list_elem_of_lookup_1 in Hm as [j Hj].
        assert (Hij : i = j). { eapply (NoDup_lookup _ _ _ (node_key n) l_keys); rewrite list_lookup_fmap; [by rewrite Hi|rewrite Hj, Heq; done]. } subst. congruence. }
      rewrite (H1 m Hm), Howed, bool_decide_eq_false_2 by done. unfold gain. cbn. do 2 f_equal. lia.
  - intros m Hm. rewrite Howed. specialize (Ha m Hm). pose proof (l_weights m Hm). destruct (bool_decide (n = m)) eqn:E; [apply bool_decide_eq_true in E as <-; lia|lia].
Qed.
Fixpoint picks (k : nat) (w : WeightedRoundRobin) : list (result serror Node) * WeightedRoundRobin :=
  match k with
  | O => ([], w)
  | Datatypes.S k => let '(answer, w) := Select_pick l w in let '(rest, w) := picks k w in (answer :: rest, w)
  end.
Lemma picks_sched k chosen w : sched chosen w → ∃ new w', picks k w = (Ok <$> new, w') ∧ length new = k ∧ sched (chosen ++ new) w'.
Proof using l_keys l_nonempty l_size l_weights.
  revert chosen w. induction k as [|k IH]; intros chosen w Hs; [exists [], w; by rewrite app_nil_r|]. cbn [picks].
  destruct (pick_step chosen w Hs) as (n & w1 & -> & Hn & Hs1). destruct (IH _ _ Hs1) as (new & w2 & -> & Hlen & Hs2). exists (n :: new), w2.
  split; [done|]. split; [cbn; by rewrite Hlen|]. by rewrite <- app_assoc in Hs2.
Qed.
End weighted.

(** C33: Smooth weighted round robin gives every node its share: among nodes that stay eligible, with any
    weights the code accepts, starting afresh, every selection succeeds; at no time is a node ahead of
    its exact share by a whole selection; and after every round of as many selections as the
    weights add up to, each node was chosen exactly as often as its weight says.  The [int64] sums
    never overflow. *)
Theorem weighted_shares (l : list Node) (wt : Node → Z) (w : weighted.WeightedRoundRobin) (k : nat) (W := total_of wt l) :
  l ≠ [] → NoDup (node_key <$> l) → zlen l ≤ 1000000 → (∀ n, n ∈ l → 1 ≤ wt n ≤ weighted.maximumNodeWeight) →
  (∀ n, n ∈ l → weighted.wr_nodes w !! node_key n = Some (weighted.mkWeighted n (wt n) 0)) →
  ∃ chosen w', picks l k w = (Ok <$> chosen, w') ∧ length chosen = k ∧
    ∀ n, n ∈ l → W * count_of n chosen < Z.of_nat k * wt n + W ∧ ∀ m, Z.of_nat k = m * W → count_of n chosen = m * wt n.
Proof.
  intros Hne Hk Hsize Hw Hfresh. destruct (picks_sched l wt Hne Hk Hsize Hw k [] w) as (chosen & w' & Hp & Hlen & [Hmem Hst Ha]).
  { constructor; [constructor| |]; intros n Hn; (assert (E : owed l wt [] n = 0) by (unfold owed, count_of; cbn; change (zlen ([] : list Node)) with 0; lia)); rewrite E; [by apply Hfresh|].
    destruct (weight_bounds l wt Hne Hk Hsize Hw). lia. }
  rewrite app_nil_l in *. exists chosen, w'. split; [done|]. split; [done|]. destruct (weight_bounds l wt Hne Hk Hsize Hw) as [HW _]. fold W in HW.
  assert (Hz : zlen chosen = Z.of_nat k) by (unfold zlen; by rewrite Hlen).
  intros n Hn. split; [specialize (Ha n Hn); unfold owed in Ha; rewrite Hz in Ha; fold W in Ha; lia|]. intros m Hm.
  apply (total_tight (λ n, count_of n chosen) (λ n, m * wt n) l); [|rewrite (total_counts l Hk chosen Hmem), Hz, Hm|done].
  - intros x Hx. specialize (Ha x Hx). unfold owed in Ha. rewrite Hz, Hm in Ha. fold W in Ha. nia.
  - rewrite (total_ext _ (λ x, m * wt x - 0 * wt x)) by (intros; lia). rewrite total_linear. fold W. lia.
Qed.
(** Weights 5, 1, 1: in seven selections the heavy node is chosen five times, and never more than twice in a row. *)
Definition w_node (id : string) : Node := mkNode id "orders" ("grpc://" +:+ id) ∅.
Definition w_weight (n : Node) : Z := if bool_decide (n_id n = "a") then 5 else 1.
Definition w_weighted : weighted.WeightedRoundRobin :=
  weighted.mkWRR "orders" "1" (list_to_map ((λ n, (node_key n, weighted.mkWeighted n (w_weight n) 0)) <$> [w_node "a"; w_node "b"; w_node "c"])).
Lemma weighted_shares_witness :
  (picks [w_node "a"; w_node "b"; w_node "c"] 7 w_weighted).1 = Ok <$> (w_node <$> ["a"; "a"; "b"; "a"; "c"; "a"; "a"]) ∧
  ∃ chosen w', picks [w_node "a"; w_node "b"; w_node "c"] 7 w_weighted = (Ok <$> chosen, w') ∧ count_of (w_node "a") chosen = 5.
Proof.
  split; [vm_compute; reflexivity|].
  destruct (weighted_shares [w_node "a"; w_node "b"; w_node "c"] w_weight w_weighted 7) as (chosen & w' & Hp & _ & Hn); [done|by apply (bool_decide_unpack _); vm_compute|done| | |].
  - intros n Hn. unfold w_weight, weighted.maximumNodeWeight. case_bool_decide; lia.
  - intros n Hn. apply elem_of_cons in Hn as [->|Hn]; [by vm_compute|]. apply elem_of_cons in Hn as [->|Hn]; [by vm_compute|]. apply list_elem_of_singleton in Hn as ->. by vm_compute.
  - exists chosen, w'. split; [done|]. destruct (Hn (w_node "a")) as [_ Hx]; [apply elem_of_cons; by left|]. exact (Hx 1 eq_refl).
Defined.

(** ** Power of two choices *)
Section p2c.
Import p2c.
Definition live_at (ptr : nat) (x : selection) : bool := (se_ptr x =? ptr)%nat && negb (se_done x).
Record psys_ok (s : psys) : Prop := {
  po_inflight : ∀ ptr st, pc_heap (py_p2c s) !! ptr = Some st → ps_inflight st = zlen (List.filter (live_at ptr) (py_selections s));
  po_nodes : ∀ key ptr, pc_nodes (py_p2c s) !! key = Some ptr → (ptr < length (pc_heap (py_p2c s)))%nat;
  po_selections : ∀ x, x ∈ py_selections s → (se_ptr x < length (pc_heap (py_p2c s)))%nat
}.
Lemma choose_member candidates random c random' : choose candidates random = (Some c, random') → c ∈ candidates.
Proof.
  unfold choose, sample. destruct candidates as [|a [|b l]]; [done|intros [= <- _]; set_solver|]. set (cs := a :: b :: l) in *.
  destruct (cs !! _) as [first|] eqn:E1; [|done]. destruct (cs !! Z.to_nat (nextRandom (nextRandom random) mod zlen cs)) as [second|] eqn:E2; [|done].
  apply list_elem_of_lookup_2 in E1, E2.
  set (second' := if (first.1 =? second.1)%nat then default second (List.find (λ c, negb (c.1 =? first.1)%nat) cs) else second). assert (Hs : second' ∈ cs).
  { subst second'. destruct (first.1 =? second.1)%nat; [|done]. destruct (List.find (λ c, negb (c.1 =? first.1)%nat) cs) as [x|] eqn:Ef; [|done].
    apply find_some in Ef as [Ef _]. by apply list_elem_of_In. }
  intros [= <- _]. by destruct (SFltb (score second'.2) (score first.2)).
Qed.
Lemma SFltb_asym x y : SFltb x y = true → SFltb y x = false.
Proof.
  unfold SFltb. assert (Hopp : SFcompare y x = CompOpp <$> SFcompare x y).
  { destruct x as [[]|[]| |[] m e], y as [[]|[]| |[] m' e']; cbn; try done; rewrite (Z.compare_antisym e e'); destruct (e ?= e')%Z; cbn; try done;
      rewrite ?(Pos.compare_cont_antisym); cbn; rewrite ?CompOpp_involutive; done. }
  rewrite Hopp. by destruct (SFcompare x y) as [[]|].
Qed.
(** Of two different candidates, the chosen one is not the worse. *)
Lemma choose_better candidates random c random' : choose candidates random = (Some c, random') → NoDup candidates.*1 → (2 ≤ length candidates)%nat →
  ∃ c', c' ∈ candidates ∧ c'.1 ≠ c.1 ∧ SFltb (score c'.2) (score c.2) = false.
Proof.
  unfold choose, sample. destruct candidates as [|a [|b l]]; [cbn; lia|cbn; lia|]. set (cs := a :: b :: l) in *. intros Hc Hnd _.
  destruct (cs !! _) as [first|] eqn:E1; [|done]. destruct (cs !! Z.to_nat (nextRandom (nextRandom random) mod zlen cs)) as [second|] eqn:E2; [|done].
  apply list_elem_of_lookup_2 in E1, E2.
  set (second' := if (first.1 =? second.1)%nat then default second (List.find (λ c, negb (c.1 =? first.1)%nat) cs) else second) in Hc.
  assert (Hs : second' ∈ cs ∧ second'.1 ≠ first.1).
  { subst second'. destruct (Nat.eqb_spec first.1 second.1) as [Heq|Hne]; [|auto]. destruct (List.find (λ c, negb (c.1 =? first.1)%nat) cs) as [x|] eqn:Ef; cbn [default].
    - apply find_some in Ef as [Hin Hx]. apply negb_true_iff, Nat.eqb_neq in Hx. split; [by apply list_elem_of_In|done].
    - exfalso. pose proof (find_none _ _ Ef) as Hnone. assert (Ha := Hnone a ltac:(by left)). assert (Hb := Hnone b ltac:(right; by left)). cbn in Ha, Hb. apply negb_false_iff, Nat.eqb_eq in Ha, Hb.
      subst cs. rewrite !fmap_cons, !NoDup_cons in Hnd. destruct Hnd as [Hnot _]. apply Hnot. rewrite Ha, <- Hb. set_solver. }
  destruct Hs as [Hin Hne]. injection Hc as <- _. destruct (SFltb (score second'.2) (score first.2)) eqn:Hlt.
  - exists first. split; [done|]. split; [done|]. by apply SFltb_asym.
  - exists second'. done.
Qed.
Lemma candidates_spec p eligible c : c ∈ candidates_of p eligible → ∃ n, n ∈ eligible ∧ pc_nodes p !! node_key n = Some c.1 ∧ pc_heap p !! c.1 = Some c.2.
Proof.
  unfold candidates_of. intros (n & Hn & Hc)%list_elem_of_omap. exists n. split; [done|]. destruct (pc_nodes p !! node_key n) as [ptr|] eqn:Hp; [|done]. cbn in Hc.
  destruct (pc_heap p !! ptr) as [st|] eqn:Hh; [|done]. cbn in Hc. by injection Hc as <-.
Qed.
(** Updates keep the counts: states that stay keep theirs, new ones start with none. *)
Lemma keep_nodes_ok (old : gmap string nat) nodes next heap (f : nat → Z) : (∀ key ptr, old !! key = Some ptr → (ptr < length heap)%nat) → (∀ key ptr, next !! key = Some ptr → (ptr < length heap)%nat) →
  (∀ ptr st, heap !! ptr = Some st → ps_inflight st = f ptr) → (∀ ptr, (length heap ≤ ptr)%nat → f ptr = 0) →
  let '(next', heap') := fold_left (keep_node old) nodes (next, heap) in
  (length heap ≤ length heap')%nat ∧ (∀ key ptr, next' !! key = Some ptr → (ptr < length heap')%nat) ∧ (∀ ptr st, heap' !! ptr = Some st → ps_inflight st = f ptr).
Proof.
  revert next heap. induction nodes as [|n nodes IH]; intros next heap Hold Hnext Hf Hz; [done|]. cbn [fold_left]. unfold keep_node at 2. destruct (old !! node_key n) as [p|] eqn:Hp.
  - set (heap1 := match heap !! p with Some st => <[p := mkState n (ps_ewma st) (ps_inflight st) (ps_penalty st)]> heap | None => heap end).
    assert (Hlen : length heap1 = length heap) by (subst heap1; destruct (heap !! p); [apply length_insert|done]).
    specialize (IH (<[node_key n := p]> next) heap1). destruct (fold_left (keep_node old) nodes (<[node_key n := p]> next, heap1)) as [next' heap']. rewrite <- Hlen. apply IH; rewrite ?Hlen; try done.
    + intros key ptr. destruct (decide (key = node_key n)) as [->|Hne]; [rewrite lookup_insert_eq; intros [= <-]; exact (Hold _ _ Hp)|rewrite lookup_insert_ne by done; apply Hnext].
    + intros ptr st. subst heap1. destruct (heap !! p) as [st0|] eqn:Hst0; [|apply Hf]. destruct (decide (ptr = p)) as [->|Hne]; [|rewrite list_lookup_insert_ne by done; apply Hf].
      rewrite list_lookup_insert_eq by (by eapply lookup_lt_Some). intros [= <-]. exact (Hf p st0 Hst0).
  - specialize (IH (<[node_key n := length heap]> next) (heap ++ [mkState n 0 0 (float64 0)])). destruct (fold_left (keep_node old) nodes _) as [next' heap'].
    assert (Hl : length (heap ++ [mkState n 0 0 (float64 0)]) = S (length heap)) by (rewrite length_app, Nat.add_comm; done). rewrite Hl in IH.
    destruct IH as (? & ? & ?); [|..|split; [lia|done]].
    + intros key ptr Hk%Hold. lia.
    + intros key ptr. destruct (decide (key = node_key n)) as [->|Hne]; [rewrite lookup_insert_eq; intros [= <-]; lia|rewrite lookup_insert_ne by done; intros Hk%Hnext; lia].
    + intros ptr st [Hs|[Hge Hs]]%lookup_app_Some; [by apply Hf|]. apply list_lookup_singleton_Some in Hs as [Hi <-]. cbn [ps_inflight]. symmetry. by apply Hz.
    + intros ptr Hge. apply Hz. lia.
Qed.
Lemma live_beyond s ptr : psys_ok s → (length (pc_heap (py_p2c s)) ≤ ptr)%nat → zlen (List.filter (live_at ptr) (py_selections s)) = 0.
Proof.
  intros Hok Hge. apply count_none. intros x Hx. pose proof (po_selections _ Hok x Hx). unfold live_at. rewrite (proj2 (Nat.eqb_neq (se_ptr x) ptr)) by lia. done.
Qed.
Lemma pstep_ok s o : psys_ok s → psys_ok (pstep s o).
Proof.
  intros Hok. destruct Hok as [H1 H2 H3] eqn:Heq. clear Heq. destruct o as [nodes service revision|eligible|i r elapsed u]; cbn [pstep].
  - pose proof (keep_nodes_ok (pc_nodes (py_p2c s)) nodes ∅ (pc_heap (py_p2c s)) (λ ptr, zlen (List.filter (live_at ptr) (py_selections s))) H2) as Hk. unfold accept.
    destruct (fold_left _ nodes (∅, pc_heap (py_p2c s))) as [next heap]. destruct Hk as (Hlen & Hn & Hf); [intros key ptr; by rewrite lookup_empty|done|intros; by apply live_beyond|].
    constructor; cbn; [done|done|]. intros x Hx%H3. lia.
  - unfold Select_pick. destruct (candidates_of (py_p2c s) eligible) as [|c0 cs] eqn:Hcs; [by destruct s|].
    destruct (choose (c0 :: cs) (pc_random (py_p2c s))) as [[[ptr st]|] random] eqn:Hch; [|by constructor].
    apply choose_member in Hch. rewrite <- Hcs in Hch. apply candidates_spec in Hch as (n & _ & Hp & Hh). cbn in Hp, Hh. assert (Hlt := lookup_lt_Some _ _ _ Hh).
    constructor; cbn [py_p2c py_selections pc_heap pc_nodes].
    + intros q st'. rewrite List.filter_app, zlen_app. cbn [List.filter]. unfold live_at at 2. cbn [se_ptr se_done]. destruct (decide (q = ptr)) as [->|Hne].
      * rewrite list_lookup_insert_eq by done. intros [= <-]. rewrite Nat.eqb_refl. cbn. by rewrite (H1 _ _ Hh).
      * rewrite list_lookup_insert_ne by done. intros Hq. rewrite (proj2 (Nat.eqb_neq ptr q)) by done. cbn. rewrite Z.add_0_r. by apply H1.
    + intros key q. rewrite length_insert. apply H2.
    + intros x. rewrite length_insert, elem_of_app, list_elem_of_singleton. intros [?| ->]; [by apply H3|done].
  - destruct (py_selections s !! i) as [[ptr n []]|] eqn:Hi; [done| |done]. assert (Hsel := list_elem_of_lookup_2 _ _ _ Hi). pose proof (H3 _ Hsel) as Hlt. cbn in Hlt.
    destruct (lookup_lt_is_Some_2 _ _ Hlt) as [st Hst]. unfold record. rewrite Hst.
    assert (Hcount : ∀ q, zlen (List.filter (live_at q) (<[i := mkSelection ptr n true]> (py_selections s))) = zlen (List.filter (live_at q) (py_selections s)) - (if (ptr =? q)%nat then 1 else 0)).
    { intros q. pose proof (count_insert (live_at q) (py_selections s) i _ (mkSelection ptr n true) Hi) as Hc. unfold live_at in Hc at 2 4. cbn [se_ptr se_done negb] in Hc.
      rewrite andb_false_r, andb_true_r in Hc. destruct (ptr =? q)%nat; cbn [Z.b2z] in Hc; lia. }
    assert (Hpos : 0 < ps_inflight st). { rewrite (H1 _ _ Hst). apply count_pos. exists (mkSelection ptr n false). split; [done|]. unfold live_at. cbn. by rewrite Nat.eqb_refl. }
    constructor; cbn [py_p2c py_selections pc_heap pc_nodes].
    + intros q st'. rewrite Hcount. destruct (decide (q = ptr)) as [->|Hne].
      * rewrite list_lookup_insert_eq by done. intros [= <-]. rewrite Nat.eqb_refl. cbn. rewrite (proj2 (Z.ltb_lt 0 (ps_inflight st))) by done. by rewrite (H1 _ _ Hst).
      * rewrite list_lookup_insert_ne by done. intros Hq. rewrite (proj2 (Nat.eqb_neq ptr q)) by done. rewrite Z.sub_0_r. by apply H1.
    + intros key q. rewrite length_insert. apply H2.
    + intros x. rewrite length_insert. intros Hx. apply list_elem_of_lookup_1 in Hx as [j Hj]. destruct (decide (j = i)) as [->|Hne].
      * rewrite list_lookup_insert_eq in Hj by (by eapply lookup_lt_Some). by injection Hj as <-.
      * rewrite list_lookup_insert_ne in Hj by done. apply H3. by eapply list_elem_of_lookup_2.
Qed.
Lemma psteps_ok s ops : psys_ok s → psys_ok (psteps s ops).
Proof. revert s. induction ops as [|o ops IH]; intros s Hok; [done|]. by apply IH, pstep_ok. Qed.
End p2c.

(** Power of two choices over every interleaving of updates, selections and completions: the inflight
    count of every node state, also of nodes that were removed while calls run, is exactly the
    number of its selections that are not done, however often [Done] is called; a selection is of a
    current node with the key of an eligible one; and with at least two candidates there is another
    one whose score is not lower. *)
Theorem p2c_accounting seed ops eligible (s := p2c.psteps (p2c.mkPsys (p2c.NewP2C seed) []) ops) :
  (∀ ptr st, p2c.pc_heap (p2c.py_p2c s) !! ptr = Some st → p2c.ps_inflight st = zlen (List.filter (live_at ptr) (p2c.py_selections s))) ∧
  match p2c.Select_pick eligible (p2c.py_p2c s) with
  | (Ok (ptr, n), _) => ∃ st, p2c.pc_heap (p2c.py_p2c s) !! ptr = Some st ∧ p2c.ps_node st = n ∧
      (∃ e, e ∈ eligible ∧ p2c.pc_nodes (p2c.py_p2c s) !! node_key e = Some ptr) ∧
      let candidates := p2c.candidates_of (p2c.py_p2c s) eligible in
      (NoDup candidates.*1 → (2 ≤ length candidates)%nat → ∃ c', c' ∈ candidates ∧ c'.1 ≠ ptr ∧ SFltb (p2c.score c'.2) (p2c.score st) = false)
  | (Err _, _) => True
  end.
Proof.
  assert (Hok : psys_ok s). { apply psteps_ok. constructor; cbn; [intros ptr st; by rewrite lookup_nil|intros key ptr; by rewrite lookup_empty|set_solver]. }
  split; [apply Hok|]. unfold p2c.Select_pick. destruct (p2c.candidates_of (p2c.py_p2c s) eligible) as [|c0 cs] eqn:Hcs; [done|].
  destruct (p2c.choose (c0 :: cs) (p2c.pc_random (p2c.py_p2c s))) as [[[ptr st]|] random] eqn:Hch; [|done]. exists st.
  pose proof (choose_member _ _ _ _ Hch) as Hin. rewrite <- Hcs in Hin. apply candidates_spec in Hin as (e & He & Hp & Hh). cbn in Hp, Hh. split; [done|]. split; [done|]. split; [by exists e|].
  cbn zeta. intros Hnd Hlen. by apply (choose_better _ _ (ptr, st) random Hch).
Qed.

(** ** Rendezvous hashing *)
Section rendezvous.
Import rendezvous.
Fixpoint number (l : list Z) : Z := match l with [] => 0 | b :: l => b * 256 ^ zlen l + number l end.
Lemma number_range l : Forall (λ b, 0 ≤ b < 256) l → 0 ≤ number l < 256 ^ zlen l.
Proof.
  induction 1 as [|b l Hb Hl IH]; [done|]. rewrite zlen_cons, Z.pow_add_r by (pose proof (zlen_nonneg l); lia). cbn [number]. change (256 ^ 1) with 256.
  pose proof (Z.pow_pos_nonneg 256 (zlen l) ltac:(lia) (zlen_nonneg l)). nia.
Qed.
(** Comparing digests is comparing the numbers they spell. *)
Lemma greater_number a b : length a = length b → Forall (λ b, 0 ≤ b < 256) a → Forall (λ b, 0 ≤ b < 256) b → greater a b = (number b <? number a).
Proof.
  revert b. induction a as [|x a IH]; intros [|y b] Hlen Ha Hb; try done. apply Forall_cons in Ha as [Hx Ha]. apply Forall_cons in Hb as [Hy Hb]. assert (Hlen' : length a = length b) by (cbn in Hlen; lia). cbn [greater number].
  assert (Hz : zlen a = zlen b) by (unfold zlen; lia). rewrite Hz. pose proof (number_range a Ha) as Ra. pose proof (number_range b Hb) as Rb. rewrite Hz in Ra.
  destruct (Z.eqb_spec x y) as [->|Hne]; [rewrite IH by done; destruct (Z.ltb_spec (number b) (number a)), (Z.ltb_spec (y * 256 ^ zlen b + number b) (y * 256 ^ zlen b + number a)); lia || done|].
  generalize dependent (256 ^ zlen b). intros P Ra Rb. destruct (Z.ltb_spec y x), (Z.ltb_spec (y * P + number b) (x * P + number a)); try done; nia.
Qed.
Definition rank (key : string) (n : Node) : Z := number (rendezvousScore key n).
Lemma greater_rank key n m : greater (rendezvousScore key n) (rendezvousScore key m) = (rank key m <? rank key n).
Proof. apply greater_number; [unfold rendezvousScore; by rewrite !sha256_bytes_length|apply sha256_bytes_range..]. Qed.
(** The winner: it beats what comes before it, and nothing after it beats it. *)
Lemma best_from_spec key c l : let r := best_from key c (rendezvousScore key c) l in
  ∃ l1 l2, c :: l = l1 ++ r :: l2 ∧ Forall (λ m, rank key m < rank key r) l1 ∧ Forall (λ m, rank key m ≤ rank key r) l2.
Proof.
  revert c. induction l as [|n l IH]; intros c; cbn [best_from]; [by exists [], []|]. rewrite greater_rank. destruct (Z.ltb_spec (rank key c) (rank key n)) as [Hlt|Hge].
  - destruct (IH n) as (l1 & l2 & Heq & H1 & H2). revert Heq H1 H2. generalize (best_from key n (rendezvousScore key n) l). intros r Heq H1 H2. exists (c :: l1), l2. rewrite Heq. split; [done|]. split; [|done]. constructor; [|done].
    destruct l1 as [|x l1]; [injection Heq as Hx _; by rewrite <- Hx|]. injection Heq as Hx _. inv H1. lia.
  - destruct (IH c) as (l1 & l2 & Heq & H1 & H2). revert Heq H1 H2. generalize (best_from key c (rendezvousScore key c) l). intros r Heq H1 H2. destruct l1 as [|x l1].
    + injection Heq as Hr ->. rewrite <- Hr in *. exists [], (n :: l2). split; [done|]. split; [done|]. constructor; [lia|done].
    + injection Heq as -> ->. exists (x :: n :: l1), l2. split; [done|]. inv H1. split; [|done]. constructor; [done|]. constructor; [lia|done].
Qed.
Lemma best_from_wins key c l l1 r l2 : c :: l = l1 ++ r :: l2 → Forall (λ m, rank key m < rank key r) l1 → Forall (λ m, rank key m ≤ rank key r) l2 →
  best_from key c (rendezvousScore key c) l = r.
Proof.
  revert c l1 l2. induction l as [|n l IH]; intros c l1 l2 Heq H1 H2; cbn [best_from].
  - destruct l1 as [|x [|y l1]]; [by injection Heq as ->|done..].
  - rewrite greater_rank. destruct l1 as [|x l1].
    + injection Heq as <- <-. apply Forall_cons in H2 as [Hn H2]. destruct (Z.ltb_spec (rank key c) (rank key n)); [lia|]. by apply (IH c [] l).
    + injection Heq as <- Heq. apply Forall_cons in H1 as [Hc H1]. destruct l1 as [|y l1].
      * injection Heq as -> ->. destruct (Z.ltb_spec (rank key c) (rank key r)); [|lia]. by apply (IH r [] l2).
      * injection Heq as <- ->. apply Forall_cons in H1 as [Hn H1].
        destruct (rank key c <? rank key n); [apply (IH n (n :: l1) l2); [done|by constructor|done]|apply (IH c (c :: l1) l2); [done|by constructor|done]].
Qed.
End rendezvous.

(** A node that wins a key keeps it: whatever nodes come or go, or become ineligible, as long as the winner
    among all of them stays eligible, it is chosen. *)
Theorem rendezvous_affinity key nodes nodes' r : NoDup nodes → nodes' `sublist_of` nodes → TrimSpace key ≠ "" →
  rendezvous.Select_pick (Ok key) nodes = Ok r → r ∈ nodes' → rendezvous.Select_pick (Ok key) nodes' = Ok r.
Proof.
  intros Hnd Hsub Hkey. unfold rendezvous.Select_pick. rewrite bool_decide_eq_false_2 by done. destruct nodes as [|n nodes]; [done|]. intros [= Hr] Hin.
  destruct (best_from_spec key n nodes) as (l1 & l2 & Heq & H1 & H2). rewrite Hr in *. rewrite Heq in Hnd, Hsub.
  apply sublist_app_r in Hsub as (k1 & k2 & -> & Hk1 & Hk2). apply sublist_cons_r in Hk2.
  assert (Hdis : (r ∉ l1) ∧ (r ∉ l2)). { apply NoDup_app in Hnd as (_ & Hx & Hy). apply NoDup_cons in Hy as [Hy _]. split; [intros Hz; apply (Hx r Hz); set_solver|done]. }
  destruct Hk2 as [Hk2|(k2' & -> & Hk2)].
  - exfalso. apply elem_of_app in Hin as [Hin|Hin]; [apply (proj1 Hdis); by eapply elem_of_sublist|apply (proj2 Hdis); by eapply elem_of_sublist].
  - assert (F1 : Forall (λ m, rank key m < rank key r) k1) by (rewrite Forall_forall in *; intros m Hm; apply H1; by eapply elem_of_sublist). assert (F2 : Forall (λ m, rank key m ≤ rank key r) k2') by (rewrite Forall_forall in *; intros m Hm; apply H2; by eapply elem_of_sublist).
    destruct k1 as [|c k1]; cbn [app]; f_equal; [by apply (best_from_wins key r k2' [] r k2')|by apply (best_from_wins key c (k1 ++ r :: k2') (c :: k1) r k2')].
Qed.

(** ** Eligibility *)
(** An observer whose verdicts do not depend on who asked before. *)
Class LawfulObserver (O : Type) `{Observer O} := {
  ob_stable now ended n now' ended' m o : (ob_Allow now ended n (ob_Allow now' ended' m o).2).1 = (ob_Allow now ended n o).1
}.
Section eligible.
Context {O : Type} `{LawfulObserver O}.
Definition allowed (now : time) (ended : bool) (obs : list O) (n : Node) : bool := forallb (λ o, (ob_Allow now ended n o).1) obs.
Lemma allow_all_spec now ended n obs : let '(ok, obs') := allow_all now ended n obs in ok = allowed now ended obs n ∧ ∀ m, allowed now ended obs' m = allowed now ended obs m.
Proof.
  unfold allowed. induction obs as [|o obs IH]; [done|]. cbn [allow_all forallb]. pose proof (λ m, ob_stable now ended m now ended n o) as Hst.
  destruct (ob_Allow now ended n o) as [[] o'] eqn:Ho; cbn [snd] in Hst; cbn [fst andb].
  - destruct (allow_all now ended n obs) as [ok obs']. destruct IH as [-> IH]. split; [done|]. intros m. cbn [forallb]. by rewrite Hst, IH.
  - split; [done|]. intros m. cbn [forallb]. by rewrite Hst.
Qed.
Lemma filtered_spec now ended filters nodes obs : (filtered now ended filters nodes obs).1 = List.filter (λ n, forallb (λ f, f n) filters && allowed now ended obs n) nodes.
Proof.
  revert obs. induction nodes as [|n nodes IH]; intros obs; [done|]. cbn [filtered List.filter]. destruct (forallb (λ f, f n) filters); cbn [andb].
  - pose proof (allow_all_spec now ended n obs) as Ha. destruct (allow_all now ended n obs) as [ok obs']. destruct Ha as [-> Ha]. specialize (IH obs').
    destruct (filtered now ended filters nodes obs') as [l obs'']. cbn [fst] in *. rewrite IH. rewrite (filter_ext (λ m, forallb (λ f, f m) filters && allowed now ended obs' m) (λ m, forallb (λ f, f m) filters && allowed now ended obs m)); [done|]. intros m. by rewrite Ha.
  - specialize (IH obs). by destruct (filtered now ended filters nodes obs) as [l obs'].
Qed.
End eligible.

(** The nodes a selector may choose from are exactly those that pass every filter and that every observer
    allows, reduced to the first preference tier that any of them matches; if there are none, it fails. *)
Theorem eligible_exact {O} `{LawfulObserver O} now ended filters prefs nodes (obs : list O) :
  (eligibleNodes None now ended filters prefs nodes obs).1 =
    match List.filter (λ n, forallb (λ f, f n) filters && allowed now ended obs n) nodes with
    | [] => Err SErrNoNodes
    | l => Ok (preferredNodes l prefs)
    end.
Proof. unfold eligibleNodes. pose proof (filtered_spec now ended filters nodes obs) as Hf. destruct (filtered now ended filters nodes obs) as [l obs']. cbn [fst] in Hf. subst l. by destruct (List.filter _ nodes). Qed.
Lemma preferred_subset nodes prefs n : n ∈ preferredNodes nodes prefs → n ∈ nodes.
Proof.
  induction prefs as [|tier prefs IH]; cbn [preferredNodes]; [done|]. destruct (List.filter (matches_tier tier) nodes) as [|x l] eqn:Hf; [done|]. rewrite <- Hf. intros Hn.
  apply list_elem_of_In, filter_In in Hn as [Hn _]. by apply list_elem_of_In.
Qed.

(** An update between the two critical sections of [Select] replaces the metadata of a node that was found
    eligible: the node that is returned does not pass the mandatory filter of the call. *)
Definition w_old : Node := mkNode "a" "orders" "grpc://a" {["version" := "1"]}.
Definition w_new : Node := mkNode "a" "orders" "grpc://a" {["version" := "2"]}.
Theorem filter_bypassed :
  let filter := MatchMetadata "version" "1" in
  let p := p2c.accept [w_old] "orders" "1" (p2c.NewP2C 0) in
  p2c.current_nodes p = [w_old] ∧ filter w_old = true ∧ filter w_new = false ∧
  (p2c.Select_pick [w_old] (p2c.accept [w_new] "orders" "2" p)).1 = Ok (0%nat, w_new).
Proof. by vm_compute. Qed.
