(* ===== verification/Outlier.v ===== *)
(** * governance/outlier: passive ejection of nodes

    Models [detector.go], which is an observer of the selectors.  Theorem: whether a node is
    allowed is exactly determined by the results of its calls. *)
From S2P Require Import Prelude GoText GoFloat Access Idempotency Breaker Discovery Selector SelectorSpec.
Open Scope Z_scope.

Record Config := mkConfig { oc_ConsecutiveFailures : Z; oc_EjectionTime : duration }.
Record nodeState := mkState { os_service : string; os_nodeID : string; os_endpoint : string; os_consecutive : Z; os_ejectedUntil : time }.
Record Detector := mkDetector { dt_threshold : Z; dt_ejectionTime : duration; dt_classify : Result → bool; dt_nodes : gmap string nodeState }.
Definition defaultClassifier (r : Result) : bool := match Failure.Classify (rs_Error r) with Failure.Transport | Failure.Timeout => true | _ => false end.
Definition New (config : Config) (classifier : option (Result → bool)) : option Detector :=
  if oc_ConsecutiveFailures config <=? 0 then None
  else if oc_EjectionTime config <=? 0 then None
  else Some (mkDetector (oc_ConsecutiveFailures config) (oc_EjectionTime config) (default defaultClassifier classifier) ∅).
Definition state_key (n : Node) : string := n_service n +:+ NUL +:+ n_id n +:+ NUL +:+ n_endpoint n.
Definition set_state (key : string) (st : nodeState) (d : Detector) : Detector := mkDetector (dt_threshold d) (dt_ejectionTime d) (dt_classify d) (<[key := st]> (dt_nodes d)).
(** [state]: the node's state, which now exists. *)
Definition state (n : Node) (d : Detector) : nodeState * Detector :=
  match dt_nodes d !! state_key n with
  | Some st => (st, d)
  | None => let st := mkState (n_service n) (n_id n) (n_endpoint n) 0 0 in (st, set_state (state_key n) st d)
  end.
Definition Allow (now : time) (ended : bool) (n : Node) (d : Detector) : bool * Detector :=
  if ended then (false, d)
  else let '(st, d) := state n d in (IsZero (os_ejectedUntil st) || negb (Before now (os_ejectedUntil st)), d).
Definition with_health (consecutive : Z) (until : time) (st : nodeState) : nodeState := mkState (os_service st) (os_nodeID st) (os_endpoint st) consecutive until.
Definition Done (now : time) (n : Node) (r : Result) (d : Detector) : Detector :=
  let '(st, d) := state n d in
  if rs_Canceled r then d
  else if negb (dt_classify d r) then set_state (state_key n) (with_health 0 0 st) d
  else if negb (IsZero (os_ejectedUntil st)) && negb (Before now (os_ejectedUntil st)) then
    set_state (state_key n) (with_health (dt_threshold d) (now + dt_ejectionTime d) st) d
  else
    let consecutive := os_consecutive st + 1 in
    set_state (state_key n) (with_health consecutive (if dt_threshold d <=? consecutive then now + dt_ejectionTime d else os_ejectedUntil st) st) d.
Record Status := mkStatus { sx_Service : string; sx_NodeID : string; sx_Endpoint : string; sx_ConsecutiveFailures : Z; sx_EjectedUntil : time; sx_Ejected : bool }.
Definition status_of (now : time) (st : nodeState) : Status :=
  mkStatus (os_service st) (os_nodeID st) (os_endpoint st) (os_consecutive st) (os_ejectedUntil st)
    (negb (IsZero (os_ejectedUntil st)) && Before now (os_ejectedUntil st)).
(** [Status] before its result is sorted. *)
Definition Status_ (now : time) (d : Detector) : list Status := status_of now <$> (map_to_list (dt_nodes d)).*2.
Definition Reset (d : Detector) : Detector := mkDetector (dt_threshold d) (dt_ejectionTime d) (dt_classify d) ∅.
#[export] Instance detector_observer : Observer Detector := { ob_Allow := Allow; ob_Done := Done }.

(** ** Every interleaving *)
Inductive oop := OAllow (now : time) (ended : bool) (n : Node) | ODone (now : time) (n : Node) (r : Result) | OReset.
Definition ostep (d : Detector) (o : oop) : Detector :=
  match o with OAllow now ended n => (Allow now ended n d).2 | ODone now n r => Done now n r d | OReset => Reset d end.
Definition osteps (d : Detector) (l : list oop) : Detector := fold_left ostep l d.
(** The failures recorded under a key since the last success, or since the last reset. *)
Definition run_step (classify : Result → bool) (key : string) (run : list time) (o : oop) : list time :=
  match o with
  | ODone now n r => if (state_key n == key) && negb (rs_Canceled r) then (if classify r then run ++ [now] else []) else run
  | OReset => []
  | OAllow _ _ _ => run
  end.
Definition key_run (classify : Result → bool) (key : string) (l : list oop) : list time := fold_left (run_step classify key) l [].
(** The failures of a node, which is its service, its identity and its endpoint, since its last success or
    the last reset: when they were. *)
Definition same_node (n n' : Node) : bool := (n_service n == n_service n') && (n_id n == n_id n') && (n_endpoint n == n_endpoint n').
Definition node_step (classify : Result → bool) (n : Node) (run : list time) (o : oop) : list time :=
  match o with
  | ODone now n' r => if same_node n' n && negb (rs_Canceled r) then (if classify r then run ++ [now] else []) else run
  | OReset => []
  | OAllow _ _ _ => run
  end.
Definition run_of (classify : Result → bool) (n : Node) (l : list oop) : list time := fold_left (node_step classify n) l [].
(** The reference: a node is out for the ejection time after its last failure, if there were enough in a row. *)
Definition available (threshold : Z) (ejectionTime : duration) (run : list time) (now : time) : bool :=
  (zlen run <? threshold) || match last run with Some t => t + ejectionTime <=? now | None => true end.

Section exact.
Variables (threshold : Z) (ejectionTime : duration) (classify : Result → bool).
Hypothesis threshold_positive : 0 < threshold.
Hypothesis ejection_positive : 0 < ejectionTime.
Definition health_ok (run : list time) (st : option nodeState) : Prop :=
  Forall (λ t, 0 < t) run ∧
  match st with
  | None => run = []
  | Some st => if zlen run <? threshold then os_consecutive st = zlen run ∧ os_ejectedUntil st = 0
               else threshold ≤ os_consecutive st ∧ ∃ t, last run = Some t ∧ os_ejectedUntil st = t + ejectionTime
  end.
Definition detector_ok (runs : string → list time) (d : Detector) : Prop :=
  dt_threshold d = threshold ∧ dt_ejectionTime d = ejectionTime ∧ dt_classify d = classify ∧ ∀ key, health_ok (runs key) (dt_nodes d !! key).
Lemma state_spec runs n d : detector_ok runs d → let '(st, d') := state n d in detector_ok runs d' ∧ dt_nodes d' !! state_key n = Some st ∧ health_ok (runs (state_key n)) (Some st).
Proof using threshold_positive.
  intros (H1 & H2 & H3 & H4). unfold state. pose proof (H4 (state_key n)) as Hk. destruct (dt_nodes d !! state_key n) as [st|] eqn:Hst; [done|].
  assert (Hnew : health_ok (runs (state_key n)) (Some (mkState (n_service n) (n_id n) (n_endpoint n) 0 0))).
  { destruct Hk as [Hp ->]. split; [done|]. change (zlen ([] : list time)) with 0. destruct (Z.ltb_spec 0 threshold); [done|lia]. }
  split; [|split; [cbn; by rewrite lookup_insert_eq|done]]. split; [done|]. split; [done|]. split; [done|]. intros key. cbn.
  destruct (decide (key = state_key n)) as [->|Hne]; [by rewrite lookup_insert_eq|by rewrite lookup_insert_ne].
Qed.
Lemma allow_spec runs now n d : detector_ok runs d → (Allow now false n d).1 = available threshold ejectionTime (runs (state_key n)) now.
Proof using threshold_positive ejection_positive.
  intros Hok. unfold Allow. pose proof (state_spec runs n d Hok) as Hs. destruct (state n d) as [st d']. destruct Hs as (_ & _ & Hp & Hh). cbn [fst]. unfold available.
  destruct (zlen (runs (state_key n)) <? threshold) eqn:Hl; [destruct Hh as [_ ->]; done|]. destruct Hh as (_ & t & Hlast & ->). rewrite Hlast. cbn [orb].
  assert (0 < t) by (apply last_Some in Hlast as [l' Hl']; rewrite Hl', Forall_app in Hp; destruct Hp as [_ Hp]; by inv Hp).
  unfold IsZero, Before. destruct (Z.ltb_spec now (t + ejectionTime)), (Z.leb_spec (t + ejectionTime) now); cbn [negb]; lia.
Qed.
Definition timely (o : oop) : Prop := match o with ODone now _ _ => 0 < now | _ => True end.
Lemma set_health_ok runs n d st run : detector_ok runs d → health_ok run (Some st) → detector_ok (λ key, if bool_decide (key = state_key n) then run else runs key) (set_state (state_key n) st d).
Proof.
  intros (H1 & H2 & H3 & H4) Hh. split; [done|]. split; [done|]. split; [done|]. intros key. cbn. destruct (decide (key = state_key n)) as [->|Hne].
  - by rewrite lookup_insert_eq, bool_decide_eq_true_2.
  - rewrite lookup_insert_ne, bool_decide_eq_false_2 by done. apply H4.
Qed.
Lemma detector_ext runs runs' d : (∀ key, runs' key = runs key) → detector_ok runs d → detector_ok runs' d.
Proof. intros He (H1 & H2 & H3 & H4). split; [done|]. split; [done|]. split; [done|]. intros key. rewrite He. apply H4. Qed.
Lemma ostep_ok runs d o : detector_ok runs d → timely o → detector_ok (λ key, run_step classify key (runs key) o) (ostep d o).
Proof using threshold_positive ejection_positive.
  intros Hok Ht. destruct o as [now ended n|now n r|]; cbn [ostep run_step].
  - unfold Allow. destruct ended; [by apply (detector_ext runs)|]. pose proof (state_spec runs n d Hok) as Hs. destruct (state n d) as [st d']. by destruct Hs as [? _].
  - unfold Done. pose proof (state_spec runs n d Hok) as Hs. destruct (state n d) as [st d']. destruct Hs as (Hok' & Hst & Hp & Hh). set (key := state_key n) in *.
    pose proof Hok' as (H1 & H2 & H3 & H4).
    destruct (rs_Canceled r) eqn:Hc; [eapply detector_ext; [|exact Hok']; intros k; by rewrite andb_false_r|]. cbn [negb].
    assert (Hgoal : ∀ run st', health_ok run (Some st') → run = (if classify r then runs key ++ [now] else []) →
      detector_ok (λ k, if bool_decide (state_key n = k) && true then (if classify r then runs k ++ [now] else []) else runs k) (set_state key st' d')).
    { intros run st' Hr ->. eapply detector_ext; [|apply (set_health_ok runs n d' st' _ Hok' Hr)]. intros k. cbn. destruct (decide (k = state_key n)) as [->|Hne]; [by rewrite !bool_decide_eq_true_2|].
      by rewrite (bool_decide_eq_false_2 (state_key n = k)), (bool_decide_eq_false_2 (k = state_key n)) by done. }
    rewrite H3. destruct (classify r) eqn:Hf; cbn [negb]; [|eapply Hgoal; [|done]; split; [constructor|]; change (zlen ([] : list time)) with 0; destruct (Z.ltb_spec 0 threshold); [done|lia]].
    assert (Hp' : Forall (λ t, 0 < t) (runs key ++ [now])) by (apply Forall_app; split; [done|by constructor]).
    assert (Hlen : zlen (runs key ++ [now]) = zlen (runs key) + 1) by (rewrite zlen_app; done). rewrite H1, H2.
    destruct (negb (IsZero (os_ejectedUntil st)) && negb (Before now (os_ejectedUntil st))) eqn:Hprob.
    + eapply Hgoal; [|done]. split; [done|]. destruct (Z.ltb_spec (zlen (runs key)) threshold) as [Hlt|Hge]; [destruct Hh as [_ Hu]; by rewrite Hu in Hprob|].
      rewrite Hlen. destruct (Z.ltb_spec (zlen (runs key) + 1) threshold); [lia|]. cbn. split; [lia|]. exists now. by rewrite last_snoc.
    + eapply Hgoal; [|done]. split; [done|]. rewrite Hlen. cbn [os_consecutive os_ejectedUntil with_health]. destruct (Z.ltb_spec (zlen (runs key)) threshold) as [Hlt|Hge].
      * destruct Hh as [-> ->]. destruct (Z.ltb_spec (zlen (runs key) + 1) threshold), (Z.leb_spec threshold (zlen (runs key) + 1)); try lia. split; [lia|]. exists now. by rewrite last_snoc.
      * destruct Hh as [Hc' _]. destruct (Z.ltb_spec (zlen (runs key) + 1) threshold); [lia|]. destruct (Z.leb_spec threshold (os_consecutive st + 1)); [|lia]. split; [lia|]. exists now. by rewrite last_snoc.
  - destruct Hok as (H1 & H2 & H3 & _). split; [done|]. split; [done|]. split; [done|]. intros key. cbn. rewrite lookup_empty. split; [constructor|done].
Qed.
Lemma osteps_ok runs d ops : detector_ok runs d → Forall timely ops → detector_ok (λ key, fold_left (run_step classify key) ops (runs key)) (osteps d ops).
Proof using threshold_positive ejection_positive.
  revert runs d. induction ops as [|o ops IH]; intros runs d Hok Ht; [done|]. apply Forall_cons in Ht as [Ho Ht]. cbn. apply (IH (λ key, run_step classify key (runs key) o)); [by apply ostep_ok|done].
Qed.
End exact.

(** ** Keys name nodes

    The registry accepts no control characters in names, so the zero bytes of a key separate its parts. *)
Definition named (n : Node) : Prop := validName (n_service n) = true ∧ validName (n_id n) = true.
Definition named_op (o : oop) : Prop := match o with ODone _ n _ => named n | _ => True end.
Lemma decode_rune_zero l r rest : decode_rune l = Some (r, rest) → ∃ pre, l = pre ++ rest ∧ pre ≠ [] ∧ (0 ∈ pre → r = 0).
Proof.
  unfold decode_rune. destruct l as [|b0 l1]; [done|]. destruct (Z.ltb_spec b0 128) as [Hlt|Hge]; [intros [= <- <-]; exists [b0]; split_and!; [done..|]; by intros ->%list_elem_of_singleton|].
  unfold cont, in_range.
  repeat case_match; intros [= <- <-]; bool_hyps.
  all: match goal with |- ∃ pre, ?b0 :: ?b1 :: ?b2 :: ?b3 :: ?l = pre ++ ?l ∧ _ => exists [b0; b1; b2; b3] | |- ∃ pre, ?b0 :: ?b1 :: ?b2 :: ?l = pre ++ ?l ∧ _ => exists [b0; b1; b2] | |- ∃ pre, ?b0 :: ?b1 :: ?l = pre ++ ?l ∧ _ => exists [b0; b1] end.
  all: split_and!; [done..|]; rewrite ?elem_of_cons, elem_of_nil; intros Hin; exfalso; repeat match goal with H : (_ <=? _) = true |- _ => apply Z.leb_le in H end; intuition lia.
Qed.
Lemma range_runes_zero fuel l : (length l ≤ fuel)%nat → 0 ∈ l → 0 ∈ range_runes fuel l.
Proof.
  revert l. induction fuel as [|fuel IH]; intros l Hl Hin; [destruct l; [by apply elem_of_nil in Hin|cbn in Hl; lia]|].
  destruct l as [|b l]; [by apply elem_of_nil in Hin|]. cbn [range_runes]. destruct (decode_rune (b :: l)) as [[r rest]|] eqn:Hd.
  - apply decode_rune_zero in Hd as (pre & Hpre & Hne & Hz). rewrite Hpre in Hin. apply elem_of_app in Hin as [Hin|Hin]; [rewrite (Hz Hin); by left|].
    right. apply IH; [|done]. apply (f_equal length) in Hpre. rewrite length_app in Hpre. cbn in Hpre, Hl. destruct pre; [done|]. cbn in Hpre. lia.
  - right. apply IH; [cbn in Hl; lia|]. apply elem_of_cons in Hin as [<-|]; [done|done].
Qed.
Lemma valid_name_zero name : validName name = true → 0 ∉ bytes_of name.
Proof.
  unfold validName. intros Hv Hin. bool_hyps. match goal with H : forallb _ _ = true |- _ => rewrite forallb_forall in H; specialize (H 0) end.
  assert (Hr : 0 ∈ range_runes (String.length name) (bytes_of name)).
  { apply range_runes_zero; [|done]. unfold bytes_of. rewrite length_fmap. clear. induction name; cbn; lia. }
  apply list_elem_of_In in Hr. naive_solver.
Qed.
Lemma bytes_of_inj s t : bytes_of s = bytes_of t → s = t.
Proof. intros He. by rewrite <- (string_of_bytes_of s), He, string_of_bytes_of. Qed.
Lemma state_key_inj n n' : named n → named n' → bool_decide (state_key n' = state_key n) = same_node n' n.
Proof.
  intros [Hs%valid_name_zero Hi%valid_name_zero] [Hs'%valid_name_zero Hi'%valid_name_zero]. unfold same_node. destruct (bool_decide (state_key n' = state_key n)) eqn:Hk; bool_hyps.
  - apply (f_equal bytes_of) in Hk. unfold state_key in Hk. rewrite !bytes_of_app in Hk. change (bytes_of NUL) with [0] in Hk. cbn [app] in Hk.
    apply separated_inj in Hk as [H1%bytes_of_inj Hk]; [|done..]. apply separated_inj in Hk as [H2%bytes_of_inj H3%bytes_of_inj]; [|done..].
    by rewrite !bool_decide_eq_true_2.
  - destruct (n_service n' == n_service n) eqn:H1, (n_id n' == n_id n) eqn:H2, (n_endpoint n' == n_endpoint n) eqn:H3; try done. bool_hyps. exfalso. apply Hk. unfold state_key. congruence.
Qed.
Lemma key_run_node classify n ops : named n → Forall named_op ops → key_run classify (state_key n) ops = run_of classify n ops.
Proof.
  intros Hn. unfold key_run, run_of. generalize ([] : list time). induction ops as [|o ops IH]; intros run Hops; [done|]. apply Forall_cons in Hops as [Ho Hops]. cbn [fold_left].
  rewrite IH by done. f_equal. destruct o as [| |]; try done. cbn [run_step node_step]. by rewrite state_key_inj.
Qed.

(** C29: Ejection is exact.  After any interleaving of selections, results and resets over any nodes with valid names, a
    node (a service, an identity and an endpoint) is allowed at a time if and only if fewer than the
    threshold of its calls failed in a row since its last success, or the ejection time has passed since the last
    of them: a node that fails its probation is out again at once, one that succeeds is fully restored,
    and cancelled calls and the results of every other node, of the same service too, do not count. *)
Theorem ejection_exact config classifier d ops now n : New config classifier = Some d → Forall timely ops → Forall named_op ops → named n →
  let classify := default defaultClassifier classifier in
  (Allow now false n (osteps d ops)).1 = available (oc_ConsecutiveFailures config) (oc_EjectionTime config) (run_of classify n ops) now.
Proof.
  unfold New. destruct (Z.leb_spec (oc_ConsecutiveFailures config) 0) as [|Ht]; [done|]. destruct (Z.leb_spec (oc_EjectionTime config) 0) as [|He]; [done|]. cbn zeta. set (classify := default defaultClassifier classifier). intros [= <-] Hops Hnamed Hn. rewrite <- key_run_node by done.
  assert (Hok : detector_ok (oc_ConsecutiveFailures config) (oc_EjectionTime config) classify (λ _, []) (mkDetector (oc_ConsecutiveFailures config) (oc_EjectionTime config) classify ∅)).
  { split; [done|]. split; [done|]. split; [done|]. intros key. cbn. rewrite lookup_empty. split; [constructor|done]. }
  by apply (allow_spec _ _ classify Ht He _ now n _ (osteps_ok _ _ classify Ht He _ _ ops Hok Hops)).
Qed.
(** Two failures eject for a minute; probation fails and ejects again; a success restores. *)
Definition w_node : Node := mkNode "a" "orders" "grpc://a" ∅.
Definition w_failed : Result := mkResult 0 (Some (Failure.Node Failure.TagMarked [])) false false.
Definition w_succeeded : Result := mkResult 0 None false false.
Definition w_other : Node := mkNode "b" "orders" "grpc://b" ∅.
Definition w_history : list oop := [ODone 10 w_node w_failed; ODone 15 w_other w_failed; ODone 20 w_node w_failed; ODone (20 + minute) w_node w_failed].
Definition w_detector : Detector := mkDetector 2 minute defaultClassifier ∅.
Lemma ejection_exact_witness :
  New (mkConfig 2 minute) None = Some w_detector ∧ (Allow (30 + minute) false w_node (osteps w_detector w_history)).1 = false ∧
  (Allow (30 + minute) false w_node (osteps w_detector (w_history ++ [ODone (25 + minute) w_node w_succeeded]))).1 = true ∧
  available 2 minute (run_of defaultClassifier w_node w_history) (30 + minute) = false ∧ (Allow (30 + minute) false w_other (osteps w_detector w_history)).1 = true.
Proof.
  split; [reflexivity|]. split; [vm_compute; reflexivity|]. split; [vm_compute; reflexivity|].
  assert (Ht : Forall timely w_history) by (unfold w_history; repeat constructor).
  assert (Hn : Forall named_op w_history) by (unfold w_history; repeat constructor).
  pose proof (λ n, ejection_exact (mkConfig 2 minute) None w_detector w_history (30 + minute) n eq_refl Ht Hn) as Hx.
  split; [etransitivity; [symmetry; apply (Hx w_node); by split|vm_compute; reflexivity]|].
  etransitivity; [apply (Hx w_other); by split|vm_compute; reflexivity].
Defined.

(** Asking about a node changes no verdict, so the selectors may ask in any order. *)
Lemma detector_stable now ended n now' ended' m (d : Detector) : (Allow now ended n (Allow now' ended' m d).2).1 = (Allow now ended n d).1.
Proof.
  unfold Allow at 1 3. destruct ended; [done|]. unfold Allow. destruct ended'; [done|]. unfold state at 2. destruct (dt_nodes d !! state_key m) as [st|] eqn:Hm; [done|]. cbn [snd]. unfold state. cbn [set_state dt_nodes].
  destruct (decide (state_key n = state_key m)) as [He|Hne]; [rewrite He, lookup_insert_eq, Hm; done|]. rewrite lookup_insert_ne by done. by destruct (dt_nodes d !! state_key n).
Qed.
#[export] Instance detector_lawful : LawfulObserver Detector := {| ob_stable := detector_stable |}.
