(* ===== verification/LoadShed.v ===== *)
(** * governance/loadshed: shedding by concurrency and CPU usage

    Models [shedder.go] (shedders by key, with permits that point to theirs) and [cpu.go] (the sampler
    of the runtime's CPU metrics with its goroutine).  [Acquire] and [Release] read the clock before
    they lock the shedder, so the time of a step may lie before that of an earlier one.  Latencies and
    throughput are computed in binary64; what a conversion of a number outside [int] gives is left to
    the implementation by the language and is an argument. *)
From S2P Require Import Prelude GoText GoFloat ProjQuota Pools.
Open Scope Z_scope.

Record LoadSheddingPolicy := mkShedPolicy { lp_Enabled : bool; lp_MaxConcurrency : Z; lp_CPUThreshold : spec_float }.
Inductive lserror := ErrOverloaded | ErrInvalidOption | ErrInvalidPolicy.
Definition sampleWindow : duration := second.
Definition bbrGain : spec_float := float64 2.
(** [math.Max] *)
Definition max64 (x y : spec_float) : spec_float :=
  match x, y with
  | S754_infinity false, _ | _, S754_infinity false => S754_infinity false
  | S754_nan, _ | _, S754_nan => S754_nan
  | S754_zero sx, S754_zero sy => if sx then y else x
  | _, _ => if SFltb y x then x else y
  end.
Definition not_finite (x : spec_float) : bool := match x with S754_nan | S754_infinity _ => true | _ => false end.
(** [math.Max(0, math.Min(1, x))] *)
Definition unit_clamp (x : spec_float) : spec_float := max64 (float64 0) (min64 (float64 1) x).

(** ** The shedder *)
Record Shedder := mkShedder {
  sh_initialized : bool; sh_windowStart : time; sh_completed : Z; sh_minLatency : duration; sh_adaptiveLimit : Z; sh_inflight : Z; sh_accepted : Z; sh_rejected : Z
}.
Definition NewShedder : Shedder := mkShedder false 0 0 0 0 0 0 0.
Definition validate (config : LoadSheddingPolicy) : bool :=
  negb ((lp_MaxConcurrency config <? 0) || SFltb (lp_CPUThreshold config) (float64 0) || SFltb (float64 1) (lp_CPUThreshold config) ||
        not_finite (lp_CPUThreshold config) || (lp_MaxConcurrency config <=? 0) && SFleb (lp_CPUThreshold config) (float64 0)).
(** [int(math.Ceil(x))]; [unspecified] is what a number outside [int] becomes. *)
Definition int_ceil (unspecified : Z) (x : spec_float) : Z :=
  match ceil64 x with
  | Some z => if (- (max_i64 + 1) <=? z) && (z <=? max_i64) then z else unspecified
  | None => unspecified
  end.
(** The limit from the throughput of a window and its least latency. *)
Definition estimate (unspecified : Z) (config : LoadSheddingPolicy) (elapsed : duration) (completed : Z) (minLatency : duration) : Z :=
  let throughput := div64 (float64 completed) (duration_seconds elapsed) in
  let estimate := int_ceil unspecified (mul64 (mul64 throughput (duration_seconds minLatency)) bbrGain) in
  let estimate := if estimate <? 1 then 1 else estimate in
  if (0 <? lp_MaxConcurrency config) && (lp_MaxConcurrency config <? estimate) then lp_MaxConcurrency config else estimate.
Definition rollWindow (unspecified : Z) (now : time) (config : LoadSheddingPolicy) (s : Shedder) : Shedder :=
  if negb (sh_initialized s) then
    mkShedder true now (sh_completed s) (sh_minLatency s) (if lp_MaxConcurrency config <=? 0 then 1 else lp_MaxConcurrency config)
      (sh_inflight s) (sh_accepted s) (sh_rejected s)
  else
    let elapsed := elapsed_since now (sh_windowStart s) in
    if (elapsed <? sampleWindow) && (0 <=? elapsed) then s
    else
      let limit :=
        if (0 <? sh_completed s) && (0 <? sh_minLatency s) && (0 <? elapsed) then estimate unspecified config elapsed (sh_completed s) (sh_minLatency s)
        else sh_adaptiveLimit s in
      mkShedder true now 0 0 limit (sh_inflight s) (sh_accepted s) (sh_rejected s).
(** What the CPU reports, in [0, 1]. *)
Definition normalized (usage : spec_float) : spec_float := unit_clamp (if not_finite usage then float64 1 else usage).
Definition limited (config : LoadSheddingPolicy) (usage : spec_float) (s : Shedder) : bool :=
  let hardLimited := (0 <? lp_MaxConcurrency config) && (lp_MaxConcurrency config <=? sh_inflight s) in
  let adaptiveLimited := SFltb (float64 0) (lp_CPUThreshold config) && SFleb (lp_CPUThreshold config) usage && (sh_adaptiveLimit s <=? sh_inflight s) in
  hardLimited || adaptiveLimited.
(** An enabled and valid policy, under the lock: whether a slot was taken. *)
Definition take_slot (unspecified : Z) (now : time) (usage : spec_float) (config : LoadSheddingPolicy) (s : Shedder) : bool * Shedder :=
  let s := rollWindow unspecified now config s in
  let with_counts inflight accepted rejected := mkShedder (sh_initialized s) (sh_windowStart s) (sh_completed s) (sh_minLatency s) (sh_adaptiveLimit s) inflight accepted rejected in
  if limited config (normalized usage) s then (false, with_counts (sh_inflight s) (sh_accepted s) (u64_add (sh_rejected s) 1))
  else (true, with_counts (sh_inflight s + 1) (u64_add (sh_accepted s) 1) (sh_rejected s)).
(** [Release] under the lock. *)
Definition release_slot (now start : time) (s : Shedder) : Shedder :=
  let latency := elapsed_since now start in
  let latency := if latency <=? 0 then 1 else latency in
  mkShedder (sh_initialized s) (sh_windowStart s) (u64_add (sh_completed s) 1)
    (if (sh_minLatency s =? 0) || (latency <? sh_minLatency s) then latency else sh_minLatency s)
    (sh_adaptiveLimit s) (if 0 <? sh_inflight s then sh_inflight s - 1 else sh_inflight s) (sh_accepted s) (sh_rejected s).

(** ** The pool and its permits *)
Record Permit := mkPermit { pe_shedder : option string; pe_start : time; pe_released : bool }.
Record Pool := mkPool { po_shedders : gmap string Shedder; po_permits : list Permit }.
Definition NewPool : Pool := mkPool ∅ [].
Definition Get (key : string) (p : Pool) : string * Pool := (TrimSpace key, mkPool (keyed_Get NewShedder (TrimSpace key) (po_shedders p)).2 (po_permits p)).
(** [Shedder.Acquire]; the permit is the index of a new one. *)
Definition Acquire (unspecified : Z) (now : time) (usage : spec_float) (key : string) (config : LoadSheddingPolicy) (p : Pool) : result lserror nat * Pool :=
  let fresh permit shedders := (Ok (length (po_permits p)), mkPool shedders (po_permits p ++ [permit])) in
  if negb (lp_Enabled config) then fresh (mkPermit None 0 false) (po_shedders p)
  else if negb (validate config) then (Err ErrInvalidPolicy, p)
  else
    let '(granted, s) := take_slot unspecified now usage config (gate NewShedder (po_shedders p) key) in
    let shedders := <[key := s]> (po_shedders p) in
    if granted then fresh (mkPermit (Some key) now false) shedders else (Err ErrOverloaded, mkPool shedders (po_permits p)).
Definition Release (now : time) (i : nat) (p : Pool) : Pool :=
  match po_permits p !! i with
  | Some (mkPermit (Some key) start false) =>
      mkPool (<[key := release_slot now start (gate NewShedder (po_shedders p) key)]> (po_shedders p)) (<[i := mkPermit (Some key) start true]> (po_permits p))
  | _ => p
  end.
Record Description := mkDescription { de_Key : string; de_Inflight : Z; de_AdaptiveLimit : Z; de_CPUUsage : spec_float; de_Accepted : Z; de_Rejected : Z; de_MinLatency : duration }.
Definition describe (key : string) (usage : spec_float) (s : Shedder) : Description :=
  mkDescription key (sh_inflight s) (sh_adaptiveLimit s) usage (sh_accepted s) (sh_rejected s) (sh_minLatency s).
(** [usage] is the reading of the CPU at each shedder. *)
Definition Describe (usage : string → spec_float) (p : Pool) : list Description :=
  (λ key, describe key (usage key) (gate NewShedder (po_shedders p) key)) <$> sort_strings (map_to_list (po_shedders p)).*1.

(** ** The CPU sampler

    The goroutine of [run] is alive from a successful [Start] until it sees its context cancelled, when
    it closes [done].  Only it samples, so [sample] is one step of it. *)
Module cpu.
Inductive CPUState := CPUStateNew | CPUStateRunning | CPUStateStopping | CPUStateStopped.
#[export] Instance CPUState_eq_dec : EqDecision CPUState.
Proof. solve_decision. Defined.
Inductive cerror := ErrInvalid | ErrCPUAlreadyStarted | ErrCPUUnsupported | ECause (text : string).
Definition defaultCPUComponentName : string := "keelith.governance.runtime-cpu".
Definition defaultCPUSampleInterval : duration := 250 * millisecond.
Definition minCPUSampleInterval : duration := 50 * millisecond.
Definition maxCPUSampleInterval : duration := 10 * second.
Definition validCPUName (value : string) : bool := valid_text 256 value.
Record RuntimeCPU := mkCPU {
  rc_name : string; rc_interval : duration; rc_usage : spec_float; rc_samples : Z; rc_failures : Z; rc_failed : bool;
  rc_state : CPUState; rc_cancelled : bool; rc_done : bool; rc_initialized : bool; rc_total : spec_float; rc_idle : spec_float
}.
Definition NewRuntimeCPU (rawName : string) (interval : duration) : result cerror RuntimeCPU :=
  let name := TrimSpace rawName in
  let name := if name == "" then defaultCPUComponentName else name in
  if (rawName != "") && (rawName != name) || negb (validCPUName name) then Err ErrInvalid
  else
    let interval := or_default interval defaultCPUSampleInterval in
    if (interval <? minCPUSampleInterval) || (maxCPUSampleInterval <? interval) then Err ErrInvalid
    else Ok (mkCPU name interval (float64 0) 0 0 false CPUStateNew false false false (float64 0) (float64 0)).
(** [readRuntimeCPU], from the two values of the metrics; a metric of another kind has no number. *)
Definition readRuntimeCPU (metrics : option spec_float * option spec_float) : result cerror (spec_float * spec_float) :=
  match metrics with
  | (Some total, Some idle) =>
      if SFltb total (float64 0) || SFltb idle (float64 0) || not_finite total || not_finite idle then Err ErrCPUUnsupported else Ok (total, idle)
  | _ => Err ErrCPUUnsupported
  end.
Definition with_health (usage : spec_float) (samples failures : Z) (failed : bool) (r : RuntimeCPU) : RuntimeCPU :=
  mkCPU (rc_name r) (rc_interval r) usage samples failures failed (rc_state r) (rc_cancelled r) (rc_done r) (rc_initialized r) (rc_total r) (rc_idle r).
Definition fail (r : RuntimeCPU) : RuntimeCPU := with_health (rc_usage r) (rc_samples r) (u64_add (rc_failures r) 1) true r.
Definition with_baseline (total idle : spec_float) (r : RuntimeCPU) : RuntimeCPU :=
  mkCPU (rc_name r) (rc_interval r) (rc_usage r) (rc_samples r) (rc_failures r) (rc_failed r) (rc_state r) (rc_cancelled r) (rc_done r) true total idle.
Definition with_life (state : CPUState) (cancelled done : bool) (r : RuntimeCPU) : RuntimeCPU :=
  mkCPU (rc_name r) (rc_interval r) (rc_usage r) (rc_samples r) (rc_failures r) (rc_failed r) state cancelled done (rc_initialized r) (rc_total r) (rc_idle r).
Definition Start (ctx : context cerror) (read : result cerror (spec_float * spec_float)) (r : RuntimeCPU) : option cerror * RuntimeCPU :=
  match ctx with
  | NilContext => (Some ErrInvalid, r)
  | Context (Some err) => (Some err, r)
  | Context None =>
      if rc_state r != CPUStateNew then (Some ErrCPUAlreadyStarted, r)
      else match read with
      | Err err => (Some err, fail r)
      | Ok (total, idle) =>
          let r := with_health (rc_usage r) (rc_samples r) (rc_failures r) false r in
          (None, with_life CPUStateRunning false (rc_done r) (with_baseline total idle r))
      end
  end.
(** [Stop] before its wait: an answer, or that it waits. *)
Definition Stop_begin (nil_context : bool) (r : RuntimeCPU) : option (option cerror) * RuntimeCPU :=
  if nil_context then (Some (Some ErrInvalid), r)
  else match rc_state r with
  | CPUStateNew | CPUStateStopped => (Some None, r)
  | CPUStateRunning => (None, with_life CPUStateStopping true (rc_done r) r)
  | CPUStateStopping => (None, r)
  end.
(** [waitCPU]: the cases of its [select]; [None] when the chosen case is not ready. *)
Inductive wait_case := WDone | WContext (cause : cerror).
Definition waitCPU (c : wait_case) (r : RuntimeCPU) : option (option cerror) :=
  match c with WDone => if rc_done r then Some None else None | WContext cause => Some (Some cause) end.
Definition sample (read : result cerror (spec_float * spec_float)) (r : RuntimeCPU) : RuntimeCPU :=
  match read with
  | Err _ => fail r
  | Ok (total, idle) =>
      if negb (rc_initialized r) then with_baseline total idle r
      else
        let totalDelta := sub64 total (rc_total r) in
        let idleDelta := sub64 idle (rc_idle r) in
        let r := with_baseline total idle r in
        if SFleb totalDelta (float64 0) || not_finite totalDelta then fail r
        else
          let busyDelta := sub64 totalDelta idleDelta in
          let usage := div64 busyDelta totalDelta in
          if not_finite usage then fail r
          else with_health (unit_clamp usage) (u64_add (rc_samples r) 1) (rc_failures r) false r
  end.
(** One turn of [run] *)
Definition cancelled_turn (r : RuntimeCPU) : RuntimeCPU := with_life CPUStateStopped (rc_cancelled r) true r.
Definition alive (r : RuntimeCPU) : bool := match rc_state r with CPUStateRunning | CPUStateStopping => negb (rc_done r) | _ => false end.
Inductive cop := CStart (ctx : context cerror) (metrics : option spec_float * option spec_float) | CStop (nil_context : bool) | CTick (metrics : option spec_float * option spec_float) | CExit.
Definition cstep (r : RuntimeCPU) (o : cop) : RuntimeCPU :=
  match o with
  | CStart ctx metrics => (Start ctx (readRuntimeCPU metrics) r).2
  | CStop nil_context => (Stop_begin nil_context r).2
  | CTick metrics => if alive r then sample (readRuntimeCPU metrics) r else r
  | CExit => if alive r && rc_cancelled r then cancelled_turn r else r
  end.
Definition csteps (r : RuntimeCPU) (l : list cop) : RuntimeCPU := fold_left cstep l r.
Record CPUDescription := mkCPUDescription { cd_State : CPUState; cd_Running : bool; cd_Usage : spec_float; cd_Samples : Z; cd_Failures : Z; cd_Failed : bool }.
(** [Describe], when no sample comes between its loads. *)
Definition Describe (r : RuntimeCPU) : CPUDescription :=
  mkCPUDescription (rc_state r) (rc_state r == CPUStateRunning) (rc_usage r) (rc_samples r) (rc_failures r) (rc_failed r).
End cpu.

(** ** Numbers between zero and one *)
Definition in_unit (x : spec_float) : bool := SFleb (float64 0) x && SFleb x (float64 1).
Lemma unit_clamp_in_unit x : not_finite x = false → in_unit (unit_clamp x) = true.
Proof.
  assert (E1 : float64 1 = S754_finite false 4503599627370496 (-52)) by (by vm_compute). assert (E0 : float64 0 = S754_zero false) by (by vm_compute).
  unfold in_unit, unit_clamp. rewrite E1, E0. destruct x as [s| | |[] m e]; try done. intros _. unfold min64, SFltb. rewrite compare_pos.
  set (c := if -52 <? e then Lt else if e <? -52 then Gt else 4503599627370496 ?= Zpos m). destruct c eqn:Hc; [..|]; cbn [max64 SFltb SFcompare]; try done;
    unfold SFleb; rewrite compare_pos; cbn [SFcompare andb]; subst c; destruct (Z.ltb_spec (-52) e), (Z.ltb_spec e (-52)); try lia; try done;
    destruct (Z.compare_spec 4503599627370496 (Zpos m)), (Z.compare_spec (Zpos m) 4503599627370496); try done; lia.
Qed.
Lemma normalized_in_unit usage : in_unit (normalized usage) = true.
Proof. unfold normalized. destruct (not_finite usage) eqn:Hf; [by vm_compute|by apply unit_clamp_in_unit]. Qed.

(** ** Accounting of the shedder *)
Definition of_shedder (key : string) (permit : Permit) : bool := bool_decide (pe_shedder permit = Some key).
Definition live_of (key : string) (permit : Permit) : bool := of_shedder key permit && negb (pe_released permit).
Definition live (p : Pool) (key : string) : Z := zlen (List.filter (live_of key) (po_permits p)).
Definition issued (p : Pool) (key : string) : Z := zlen (List.filter (of_shedder key) (po_permits p)).
Definition shedder_of (p : Pool) (key : string) : Shedder := gate NewShedder (po_shedders p) key.
Record shedder_ok (inflight accepted : Z) (s : Shedder) : Prop := {
  so_inflight : sh_inflight s = inflight; so_accepted : sh_accepted s = accepted mod (max_u64 + 1);
  so_limit : sh_initialized s = true → 1 ≤ sh_adaptiveLimit s; so_latency : 0 ≤ sh_minLatency s; so_completed : is_u64 (sh_completed s)
}.
Definition pool_ok (p : Pool) : Prop := ∀ key, shedder_ok (live p key) (issued p key) (shedder_of p key).

Lemma estimate_range u config elapsed completed minLatency (z := estimate u config elapsed completed minLatency) :
  1 ≤ z ∧ (0 < lp_MaxConcurrency config → z ≤ lp_MaxConcurrency config).
Proof. subst z. unfold estimate. generalize (int_ceil u (mul64 (mul64 (div64 (float64 completed) (duration_seconds elapsed)) (duration_seconds minLatency)) bbrGain)). intros z. guards; lia. Qed.
Lemma rollWindow_ok u now config s inflight accepted (s' := rollWindow u now config s) : shedder_ok inflight accepted s →
  shedder_ok inflight accepted s' ∧ sh_initialized s' = true ∧ 1 ≤ sh_adaptiveLimit s'.
Proof.
  intros [Hi Ha Hl Hm Hc]. assert (Hok : shedder_ok inflight accepted s' ∧ sh_initialized s' = true).
  { subst s'. unfold rollWindow. destruct (sh_initialized s) eqn:Hinit; cbn [negb]; [|split; [|done]; constructor; cbn; [done..|intros _; guards; lia|done|done]].
    destruct ((_ <? _) && _); [split; [by constructor; rewrite ?Hinit|done]|]. split; [|done]. constructor; cbn; [done|done| |lia|unfold is_u64, max_u64; lia]. intros _. destruct (_ && _); [apply estimate_range|by apply Hl]. }
  destruct Hok as [Hok Hinit]. split; [done|]. split; [done|]. by apply (so_limit _ _ _ Hok).
Qed.
Lemma take_slot_ok u now usage config s inflight accepted : shedder_ok inflight accepted s →
  let '(granted, s') := take_slot u now usage config s in
  let n := Z.b2z granted in shedder_ok (inflight + n) (accepted + n) s' ∧ 1 ≤ sh_adaptiveLimit s' ∧
  granted = negb (limited config (normalized usage) (rollWindow u now config s)) ∧ sh_adaptiveLimit s' = sh_adaptiveLimit (rollWindow u now config s).
Proof.
  intros (Hok & Hinit & Hl)%(rollWindow_ok u now config). unfold take_slot. destruct Hok as [Hi Ha _ Hm Hc].
  destruct (limited _ _ _); cbn [Z.b2z negb]; rewrite ?Z.add_0_r; (split; [constructor; cbn; try done|done]).
  - lia.
  - unfold u64_add. by rewrite Ha, Z.add_mod_idemp_l.
Qed.
Lemma release_slot_ok now start s inflight accepted : shedder_ok inflight accepted s → 0 < inflight → shedder_ok (inflight - 1) accepted (release_slot now start s).
Proof.
  intros [Hi Ha Hl Hm Hc] Hpos. unfold release_slot. constructor; cbn; [|done|done| |apply u64_add_range].
  - rewrite Hi. destruct (Z.ltb_spec 0 inflight); lia.
  - guards; lia.
Qed.
Lemma filter_snoc {A} (f : A → bool) l x : zlen (List.filter f (l ++ [x])) = zlen (List.filter f l) + Z.b2z (f x).
Proof. rewrite List.filter_app, zlen_app. cbn. by destruct (f x). Qed.
Lemma shedder_of_insert p key s permits k : shedder_of (mkPool (<[key := s]> (po_shedders p)) permits) k = if decide (k = key) then s else shedder_of p k.
Proof. unfold shedder_of, gate. cbn. destruct (decide (k = key)) as [->|Hne]; [by rewrite lookup_insert_eq|by rewrite lookup_insert_ne]. Qed.
Lemma of_shedder_key k key start released : of_shedder k (mkPermit (Some key) start released) = bool_decide (k = key).
Proof. unfold of_shedder. cbn. destruct (decide (k = key)) as [->|]; [by rewrite !bool_decide_eq_true_2|by rewrite !bool_decide_eq_false_2 by congruence]. Qed.
Lemma live_of_key k key start released : live_of k (mkPermit (Some key) start released) = bool_decide (k = key) && negb released.
Proof. unfold live_of. by rewrite of_shedder_key. Qed.
Lemma shed_get_ok key p : pool_ok p → pool_ok (Get key p).2.
Proof.
  intros Hok k. specialize (Hok k). unfold Get, keyed_Get, shedder_of, gate, live, issued in *. cbn [snd po_shedders po_permits]. destruct (po_shedders p !! TrimSpace key) eqn:Hk; [done|].
  cbn [snd]. destruct (decide (k = TrimSpace key)) as [->|Hne]; [rewrite lookup_insert_eq; by rewrite Hk in Hok|by rewrite lookup_insert_ne].
Qed.
Lemma shed_acquire_ok u now usage key config p : pool_ok p → pool_ok (Acquire u now usage key config p).2.
Proof.
  intros Hok. unfold Acquire. destruct (lp_Enabled config); cbn [negb].
  - destruct (validate config); cbn [negb]; [|done]. fold (shedder_of p key). pose proof (take_slot_ok u now usage config _ _ _ (Hok key)) as Ht.
    destruct (take_slot u now usage config (shedder_of p key)) as [granted s]. destruct Ht as (Hs & _). destruct granted; cbn [snd Z.b2z] in *; intros k; rewrite shedder_of_insert.
    + unfold live, issued in *. cbn [po_permits]. rewrite !filter_snoc, live_of_key, of_shedder_key, andb_true_r.
      destruct (decide (k = key)) as [->|Hne]; [by rewrite bool_decide_eq_true_2|]. rewrite bool_decide_eq_false_2 by congruence. cbn [Z.b2z]. rewrite !Z.add_0_r. apply Hok.
    + rewrite !Z.add_0_r in Hs. destruct (decide (k = key)) as [->|Hne]; [done|apply Hok].
  - intros k. unfold live, issued. cbn [snd po_permits]. rewrite !filter_snoc. cbn. rewrite !Z.add_0_r. apply Hok.
Qed.
Lemma shed_release_ok now i p : pool_ok p → pool_ok (Release now i p).
Proof.
  intros Hok. unfold Release. destruct (po_permits p !! i) as [[[key|] start []]|] eqn:Hi; try done. intros k. rewrite shedder_of_insert. unfold live, issued. cbn [po_permits].
  pose proof (count_insert (live_of k) _ _ _ (mkPermit (Some key) start true) Hi) as Hl. pose proof (count_insert (of_shedder k) _ _ _ (mkPermit (Some key) start true) Hi) as Hs.
  rewrite !live_of_key, andb_false_r in Hl. rewrite !of_shedder_key in Hs. cbn [negb] in Hl. rewrite andb_true_r in Hl.
  assert (Hn : zlen (List.filter (of_shedder k) (<[i:=mkPermit (Some key) start true]> (po_permits p))) = issued p k) by (unfold issued; lia). rewrite Hn.
  destruct (decide (k = key)) as [->|Hne].
  - rewrite bool_decide_eq_true_2 in Hl by done. cbn [Z.b2z] in Hl. pose proof (zlen_nonneg (List.filter (live_of key) (<[i:=mkPermit (Some key) start true]> (po_permits p)))).
    replace (zlen (List.filter (live_of key) (<[i:=mkPermit (Some key) start true]> (po_permits p)))) with (live p key - 1) by (unfold live; lia). apply release_slot_ok; [apply Hok|unfold live; lia].
  - rewrite bool_decide_eq_false_2 in Hl by congruence. cbn [Z.b2z] in Hl. replace (zlen (List.filter (live_of k) (<[i:=mkPermit (Some key) start true]> (po_permits p)))) with (live p k) by (unfold live; lia). apply Hok.
Qed.
(** Calls of any number of clients, in any order, with any clock readings and CPU usage. *)
Inductive shop := ShAcquire (unspecified : Z) (now : time) (usage : spec_float) (key : string) (config : LoadSheddingPolicy) | ShRelease (now : time) (i : nat).
Definition shstep (p : Pool) (o : shop) : Pool :=
  match o with
  | ShAcquire u now usage key config => let '(key, p) := Get key p in (Acquire u now usage key config p).2
  | ShRelease now i => Release now i p
  end.
Definition shsteps (p : Pool) (l : list shop) : Pool := fold_left shstep l p.
Lemma shsteps_ok p l : pool_ok p → pool_ok (shsteps p l).
Proof.
  revert p. induction l as [|o l IH]; intros p Hok; [done|]. apply IH. destruct o as [u now usage key config|now i]; [|by apply shed_release_ok].
  pose proof (shed_get_ok key p Hok) as Hg. cbn [shstep]. destruct (Get key p) as [k p']. by apply shed_acquire_ok.
Qed.
Lemma new_shed_pool_ok : pool_ok NewPool.
Proof. intros key. unfold shedder_of, gate, NewPool, live, issued. cbn [po_shedders po_permits List.filter]. rewrite lookup_empty. constructor; cbn; try done; lia. Qed.

(** Load shedding over all interleavings of calls on any keys, with any clock readings, CPU usage and
    changes of policy: the slots in use are exactly the permits that were not released; a valid
    policy admits a call exactly when fewer permits than [MaxConcurrency] are live and either the
    usage, which is always taken between 0 and 1, is below the threshold or fewer permits than the
    adaptive limit are live; that limit is at least one, whatever the binary64 estimate is, so that
    an idle instance never sheds; and a rejection changes no permit. *)
Theorem shedding_exact ops (p := shsteps NewPool ops) key unspecified now usage config :
  lp_Enabled config = true → validate config = true →
  let '(answer, p') := Acquire unspecified now usage key config p in
  let limit := sh_adaptiveLimit (shedder_of p' key) in let u := normalized usage in
  sh_inflight (shedder_of p key) = live p key ∧ sh_accepted (shedder_of p key) = issued p key mod (max_u64 + 1) ∧
  1 ≤ limit ∧ in_unit u = true ∧
  (is_ok answer = true ↔ (0 < lp_MaxConcurrency config → live p key < lp_MaxConcurrency config) ∧
     (SFltb (float64 0) (lp_CPUThreshold config) = true → SFleb (lp_CPUThreshold config) u = true → live p key < limit)) ∧
  (live p key = 0 → is_ok answer = true) ∧
  (answer = Err ErrOverloaded ∧ po_permits p' = po_permits p ∨ answer = Ok (length (po_permits p)) ∧ live p' key = live p key + 1).
Proof.
  intros He Hv. assert (Hok : pool_ok p) by (apply shsteps_ok, new_shed_pool_ok). unfold Acquire. rewrite He, Hv. cbn [negb]. fold (shedder_of p key).
  pose proof (take_slot_ok unspecified now usage config _ _ _ (Hok key)) as Ht. pose proof (rollWindow_ok unspecified now config _ _ _ (Hok key)) as [[Hi _ _ _ _] _].
  destruct (take_slot unspecified now usage config (shedder_of p key)) as [granted s]. destruct Ht as (Hs & Hl & Hg & Hlim).
  assert (Hiff : granted = true ↔ (0 < lp_MaxConcurrency config → live p key < lp_MaxConcurrency config) ∧
     (SFltb (float64 0) (lp_CPUThreshold config) = true → SFleb (lp_CPUThreshold config) (normalized usage) = true → live p key < sh_adaptiveLimit s)).
  { rewrite Hg, Hlim. unfold limited. rewrite Hi. generalize (SFltb (float64 0) (lp_CPUThreshold config)) (SFleb (lp_CPUThreshold config) (normalized usage)). intros b c.
    destruct b, c, (Z.ltb_spec 0 (lp_MaxConcurrency config)), (Z.leb_spec (lp_MaxConcurrency config) (live p key)), (Z.leb_spec (sh_adaptiveLimit (rollWindow unspecified now config (shedder_of p key))) (live p key));
      cbn; split; intros; try done; try (split; intros; done || lia); exfalso; intuition lia. }
  assert (Hidle : live p key = 0 → granted = true) by (intros H0; apply Hiff; lia).
  destruct granted; rewrite shedder_of_insert, decide_True by done; (split; [apply Hok|]); (split; [apply Hok|]); (split; [done|]); (split; [apply normalized_in_unit|]); (split; [done|]); (split; [done|]).
  - right. split; [done|]. unfold live. cbn [po_permits]. by rewrite filter_snoc, live_of_key, bool_decide_eq_true_2.
  - by left.
Qed.
(** A window of one second with four calls of half a second each: four at a time with the gain of two, and a
    fifth is shed when the CPU is busy. *)
Definition w_policy : LoadSheddingPolicy := mkShedPolicy true 10 (div64 (float64 4) (float64 5)).
Definition w_calls : list shop :=
  [ShAcquire 0 second (float64 0) "k" w_policy; ShAcquire 0 second (float64 0) "k" w_policy; ShRelease (second + 500 * millisecond) 0; ShRelease (second + 500 * millisecond) 1;
   ShAcquire 0 (2 * second) (float64 0) "k" w_policy; ShAcquire 0 (2 * second) (float64 0) "k" w_policy].
Lemma shedding_exact_witness : let p := shsteps NewPool w_calls in
  validate w_policy = true ∧ live p "k" = 2 ∧ sh_adaptiveLimit (shedder_of p "k") = 2 ∧
  is_ok (Acquire 0 (2 * second) (float64 1) "k" w_policy p).1 = false ∧ is_ok (Acquire 0 (2 * second) (float64 0) "k" w_policy p).1 = true.
Proof.
  split; [vm_compute; reflexivity|]. split; [vm_compute; reflexivity|]. split; [vm_compute; reflexivity|].
  pose proof (shedding_exact w_calls "k" 0 (2 * second) (float64 1) w_policy ltac:(vm_compute; reflexivity) ltac:(vm_compute; reflexivity)) as H.
  split; [vm_compute; reflexivity|vm_compute; reflexivity].
Defined.

(** ** The life of the sampler *)
Section sampler.
Import cpu.
Record cpu_ok (r : RuntimeCPU) : Prop := {
  co_usage : in_unit (rc_usage r) = true; co_done : rc_done r = bool_decide (rc_state r = CPUStateStopped);
  co_cancelled : rc_cancelled r = bool_decide (rc_state r = CPUStateStopping) || bool_decide (rc_state r = CPUStateStopped);
  co_initialized : rc_initialized r = negb (bool_decide (rc_state r = CPUStateNew))
}.
Lemma sample_ok read r : cpu_ok r → rc_initialized r = true → cpu_ok (sample read r) ∧ rc_state (sample read r) = rc_state r.
Proof.
  intros [Hu Hd Hc Hi] Hinit. unfold sample. destruct read as [[total idle]|err]; [|by split; [constructor|]]. rewrite Hinit. cbn [negb].
  assert (Hn : true = negb (bool_decide (rc_state r = CPUStateNew))) by congruence.
  destruct (SFleb _ _ || _); [split; [constructor; cbn [rc_usage rc_done rc_state rc_cancelled rc_initialized fail with_health with_baseline]; done|done]|]. destruct (not_finite (div64 _ _)) eqn:Hf; [split; [constructor; cbn [rc_usage rc_done rc_state rc_cancelled rc_initialized fail with_health with_baseline]; done|done]|].
  split; [|done]. constructor; cbn [rc_usage rc_done rc_state rc_cancelled rc_initialized fail with_health with_baseline]; [by apply unit_clamp_in_unit|done..].
Qed.
(** The order of the states. *)
Definition phase (r : RuntimeCPU) : nat := match rc_state r with CPUStateNew => 0 | CPUStateRunning => 1 | CPUStateStopping => 2 | CPUStateStopped => 3 end.
Lemma sampler_step_ok r o : cpu_ok r → cpu_ok (cstep r o) ∧ (phase r ≤ phase (cstep r o))%nat ∧ (rc_state r = CPUStateStopped → cstep r o = r).
Proof.
  intros Hok. pose proof Hok as [Hu Hd Hc Hi]. destruct o as [ctx metrics|nil_context|metrics|]; cbn [cstep].
  - unfold Start, phase. destruct ctx as [|[err|]]; [split; [done|]; split; [cbn; lia|done]..|]. destruct (decide (rc_state r = CPUStateNew)) as [Hs|Hs].
    + rewrite bool_decide_eq_true_2 by done. cbn [negb]. destruct (readRuntimeCPU metrics) as [[total idle]|err]; cbn; rewrite !Hs; (split; [|split; [cbn; lia|done]]); constructor; cbn; try done; by rewrite Hd, Hs.
    + rewrite bool_decide_eq_false_2 by done. cbn. split; [done|]. split; [cbn; lia|done].
  - unfold Stop_begin, phase. destruct nil_context; [split; [done|]; split; [cbn; lia|done]|]. destruct (rc_state r) eqn:Hs; cbn; rewrite ?Hs; try (split; [done|]; split; [cbn; lia|done]).
  - unfold alive. destruct (rc_state r) eqn:Hs; try (split; [done|]; split; [cbn; lia|done]); (destruct (negb (rc_done r)); [|split; [done|]; split; [cbn; lia|done]]);
      destruct (sample_ok (readRuntimeCPU metrics) r Hok) as [Hx Hy]; try (rewrite Hi; done); (split; [done|]); (split; [unfold phase; rewrite Hy; lia|done]).
  - unfold alive. rewrite Hd, Hc. destruct (rc_state r) eqn:Hs; try (split; [done|]; split; [cbn; lia|done]).
    + change (cpu_ok r ∧ (phase r ≤ phase r)%nat ∧ (CPUStateRunning = CPUStateStopped → r = r)). split; [done|]. split; [lia|done].
    + change (cpu_ok (cancelled_turn r) ∧ (phase r ≤ phase (cancelled_turn r))%nat ∧ (CPUStateStopping = CPUStateStopped → cancelled_turn r = r)).
      split; [constructor; cbn; rewrite ?Hc, ?Hi; done|]. split; [unfold phase; cbn; rewrite Hs; lia|done].
Qed.
End sampler.

(** The CPU sampler, for every interleaving of starts, stops, ticks and exits and every value of the
    metrics: its usage is a number between 0 and 1; its state only moves forward; a failed start leaves
    it new and can be repeated; once [Stop] has begun, one more turn of the goroutine lets every wait
    return, and from then on nothing changes. *)
Theorem sampler_sound name interval r ops more (s := cpu.csteps r ops) : cpu.NewRuntimeCPU name interval = Ok r →
  in_unit (cpu.rc_usage s) = true ∧ (phase s ≤ phase (cpu.csteps s more))%nat ∧
  (cpu.rc_state s = cpu.CPUStateNew → ∀ metrics, let '(err, s') := cpu.Start (Context None) (cpu.readRuntimeCPU metrics) s in
     cpu.rc_state s' = if is_ok (cpu.readRuntimeCPU metrics) then cpu.CPUStateRunning else cpu.CPUStateNew) ∧
  (cpu.rc_state s = cpu.CPUStateStopping → cpu.waitCPU cpu.WDone (cpu.cstep s cpu.CExit) = Some None) ∧
  (cpu.waitCPU cpu.WDone s = Some None → cpu.csteps s more = s).
Proof.
  intros Hnew.
  assert (Hsteps : ∀ l r, cpu_ok r → cpu_ok (cpu.csteps r l) ∧ (phase r ≤ phase (cpu.csteps r l))%nat ∧ (cpu.rc_state r = cpu.CPUStateStopped → cpu.csteps r l = r)).
  { intros l. induction l as [|o l IH]; intros t Ht; [done|]. destruct (sampler_step_ok t o Ht) as (H1 & H2 & H3). destruct (IH _ H1) as (H4 & H5 & H6).
    split; [done|]. split; [etrans; done|]. intros Hs. specialize (H3 Hs). change (cpu.csteps (cpu.cstep t o) l = t). rewrite H3 in *. by apply H6. }
  assert (Hr : cpu_ok r). { unfold cpu.NewRuntimeCPU in Hnew. repeat case_match; simplify_eq; by constructor. }
  destruct (Hsteps ops r Hr) as (Hok & _ & _). fold s in Hok. destruct (Hsteps more s Hok) as (_ & Hp & Hstop). destruct Hok as [Hu Hd Hc Hi]. split; [done|]. split; [done|]. split; [|split].
  - intros Hs metrics. unfold cpu.Start. rewrite bool_decide_eq_true_2 by done. cbn [negb]. by destruct (cpu.readRuntimeCPU metrics) as [[]|].
  - intros Hs. unfold cpu.cstep, cpu.alive. rewrite Hs, Hd, Hc, Hs. done.
  - unfold cpu.waitCPU. destruct (cpu.rc_done s) eqn:Hdone; [|done]. intros _. apply Hstop. symmetry in Hd. by apply bool_decide_eq_true in Hd.
Qed.
