(* ===== verification/Admission.v ===== *)
(** * governance/admission: dynamic drop policies

    Models [admission.go]: policies of ordered categories, the store that publishes them by service
    and revision, and the controller that samples them.  The random source is an interface; its
    answers to the calls of one decision are an argument, and the theorem counts all of them. *)
From S2P Require Import Prelude GoText.
Open Scope Z_scope.

Definition maximumCategories : Z := 16.
Definition maximumIdentityLen : Z := 1024.
Definition maximumDenominator : Z := 1000000.
Inductive aderror := ErrDropped | ErrInvalidPolicy | ErrInvalidUpdate | ErrInvalidOption | ErrMissingOperation.
(** The numbers are [uint32]. *)
Record Category := mkCategory { ca_Name : string; ca_Numerator : Z; ca_Denominator : Z }.
Definition Policy := list Category.
Definition validIdentity (value : string) : bool := valid_text maximumIdentityLen value.
Fixpoint check_categories (categories : list Category) (seen : gset string) : bool :=
  match categories with
  | [] => true
  | c :: rest =>
      validIdentity (ca_Name c) &&
      negb ((ca_Denominator c =? 0) || (maximumDenominator <? ca_Denominator c) || (ca_Denominator c <? ca_Numerator c)) &&
      negb (bool_decide (ca_Name c ∈ seen)) && check_categories rest ({[ca_Name c]} ∪ seen)
  end.
Definition Validate (policy : Policy) : option aderror :=
  if maximumCategories <? zlen policy then Some ErrInvalidPolicy else if check_categories policy ∅ then None else Some ErrInvalidPolicy.

(** ** The store *)
Record storeEntry := mkEntry { se_revision : string; se_policy : Policy }.
Record Store := mkStore { st_services : gmap string storeEntry; st_updates : Z }.
Definition NewStore : Store := mkStore ∅ 0.
Definition Update (service revision : string) (policy : Policy) (s : Store) : result aderror bool * Store :=
  if negb (validIdentity service) || negb (validIdentity revision) then (Err ErrInvalidUpdate, s)
  else match Validate policy with
  | Some err => (Err err, s)
  | None =>
      let publish := (Ok true, mkStore (<[service := mkEntry revision policy]> (st_services s)) (u64_add (st_updates s) 1)) in
      match st_services s !! service with
      | Some current => if se_revision current == revision then (Ok false, s) else publish
      | None => publish
      end
  end.
Definition Resolve (s : Store) (service : string) : Policy := match st_services s !! service with Some entry => se_policy entry | None => [] end.
Record StoreDescription := mkStoreDescription { sd_Services : Z; sd_Categories : Z; sd_Updates : Z }.
Definition Describe (s : Store) : StoreDescription :=
  mkStoreDescription (Z.of_nat (size (st_services s))) (map_fold (λ _ entry n, n + zlen (se_policy entry)) 0 (st_services s)) (st_updates s).

(** ** The controller *)
Record Controller := mkController { cn_accepted : Z; cn_dropped : Z }.
(** The loop over the categories; [draws] are the answers of [Uint64N], one for each category it reaches. *)
Fixpoint sample (categories : list Category) (draws : list Z) : bool :=
  match categories with
  | [] => false
  | c :: rest =>
      let dropAll := ca_Numerator c =? ca_Denominator c in
      let sampled := default 0 (head draws) <? ca_Numerator c in
      if dropAll || sampled then true else sample rest (tail draws)
  end.
(** One invocation: the service of its operation, what the resolver answers, the draws, and what the handler
    answers if it is called. *)
Definition invoke {A} (nil_context : bool) (service : option string) (resolve : string → Policy) (draws : list Z) (next : result aderror A) (c : Controller) : result aderror A * Controller :=
  if nil_context then (Err ErrInvalidOption, c)
  else match service with
  | None => (Err ErrMissingOperation, c)
  | Some service =>
      let policy := resolve service in
      match Validate policy with
      | Some err => (Err err, c)
      | None =>
          if sample policy draws then (Err ErrDropped, mkController (cn_accepted c) (u64_add (cn_dropped c) 1))
          else (next, mkController (u64_add (cn_accepted c) 1) (cn_dropped c))
      end
  end.

(** ** What a policy drops

    All answers of an unbiased source to the calls of one decision, and the category that drops. *)
Definition range (n : Z) : list Z := seqZ 0 n.
Fixpoint all_draws (categories : list Category) : list (list Z) :=
  match categories with
  | [] => [[]]
  | c :: rest => flat_map (λ d, cons d <$> all_draws rest) (range (ca_Denominator c))
  end.
Fixpoint dropped_by (categories : list Category) (draws : list Z) : option nat :=
  match categories with
  | [] => None
  | c :: rest =>
      if (ca_Numerator c =? ca_Denominator c) || (default 0 (head draws) <? ca_Numerator c) then Some 0%nat
      else S <$> dropped_by rest (tail draws)
  end.
Lemma sample_dropped categories draws : sample categories draws = bool_decide (is_Some (dropped_by categories draws)).
Proof.
  revert draws. induction categories as [|c rest IH]; intros draws; cbn [sample dropped_by]; [by rewrite bool_decide_eq_false_2 by (intros [? ?]; done)|].
  destruct (_ || _); [done|]. rewrite IH. destruct (dropped_by rest (tail draws)); done.
Qed.
Definition remaining (categories : list Category) : Z := fold_right (λ c n, (ca_Denominator c - ca_Numerator c) * n) 1 categories.
Definition whole (categories : list Category) : Z := fold_right (λ c n, ca_Denominator c * n) 1 categories.
Definition fractions (categories : list Category) : Prop := Forall (λ c, 0 ≤ ca_Numerator c ≤ ca_Denominator c ∧ 0 < ca_Denominator c) categories.
Definition count (f : list Z → bool) (l : list (list Z)) : Z := zlen (List.filter f l).
Lemma count_flat_map (f : list Z → bool) (g : Z → list (list Z)) l : count f (flat_map g l) = fold_right (λ d n, count f (g d) + n) 0 l.
Proof. induction l as [|d l IH]; [done|]. cbn. unfold count in *. by rewrite List.filter_app, zlen_app, IH. Qed.
Lemma count_cons (f : list Z → bool) d l : count f (cons d <$> l) = count (λ x, f (d :: x)) l.
Proof. unfold count. induction l as [|x l IH]; [done|]. rewrite fmap_cons. cbn [List.filter]. destruct (f (d :: x)); rewrite ?zlen_cons; lia. Qed.
Lemma count_ext (f g : list Z → bool) l : (∀ x, f x = g x) → count f l = count g l.
Proof. intros H. unfold count. by rewrite (List.filter_ext f g). Qed.
(** A sum over the draws of one category that depends only on whether it drops. *)
Lemma sum_range (f : Z → Z) n m a b : 0 ≤ m ≤ n → (∀ d, 0 ≤ d < m → f d = a) → (∀ d, m ≤ d < n → f d = b) →
  fold_right (λ d s, f d + s) 0 (range n) = m * a + (n - m) * b.
Proof.
  intros Hm Ha Hb. unfold range.
  assert (Hconst : ∀ (k : nat) i c, (∀ d, i ≤ d < i + Z.of_nat k → f d = c) → fold_right (λ d s, f d + s) 0 (seqZ i (Z.of_nat k)) = Z.of_nat k * c).
  { intros k. induction k as [|k IH]; intros i c Hc; [done|]. rewrite seqZ_cons by lia. cbn [fold_right]. rewrite Hc by lia.
    replace (Z.pred (Z.of_nat (S k))) with (Z.of_nat k) by lia. rewrite (IH (Z.succ i) c); [lia|]. intros d Hd. apply Hc. lia. }
  replace n with (m + (n - m)) at 1 by lia. rewrite seqZ_app by lia. rewrite fold_right_app.
  assert (Hsum : ∀ l s, fold_right (λ d s, f d + s) s l = fold_right (λ d s, f d + s) 0 l + s) by (intros l; induction l as [|x l IH]; intros s; cbn; [lia|rewrite IH; lia]).
  rewrite Hsum. rewrite <- (Z2Nat.id m) at 1 by lia. rewrite (Hconst (Z.to_nat m) 0 a); [|intros d Hd; apply Ha; lia].
  pose proof (Hconst (Z.to_nat (n - m)) (0 + m) b) as Hr. rewrite !Z2Nat.id in * by lia. rewrite Hr; [done|]. intros d Hd. apply Hb. lia.
Qed.

(** The draws of a valid policy that satisfy a predicate, by the draw of its first category. *)
Lemma count_first (f : list Z → bool) c rest m a b : 0 ≤ m ≤ ca_Denominator c →
  (∀ d, 0 ≤ d < m → count (λ x, f (d :: x)) (all_draws rest) = a) → (∀ d, m ≤ d < ca_Denominator c → count (λ x, f (d :: x)) (all_draws rest) = b) →
  count f (all_draws (c :: rest)) = m * a + (ca_Denominator c - m) * b.
Proof.
  intros Hm Ha Hb. cbn [all_draws]. rewrite count_flat_map. rewrite <- (sum_range (λ d, count (λ x, f (d :: x)) (all_draws rest)) (ca_Denominator c) m a b) by done.
  induction (range (ca_Denominator c)) as [|d l IH]; [done|]. cbn [fold_right]. by rewrite IH, count_cons.
Qed.
Lemma count_all categories : fractions categories → count (λ _, true) (all_draws categories) = whole categories.
Proof.
  induction 1 as [|c rest [Hc Hpos] Hrest IH]; [done|]. rewrite (count_first _ c rest 0 0 (whole rest)); [cbn [whole fold_right]; fold (whole rest); lia|lia|lia|done].
Qed.
Lemma count_no_draws categories : count (λ _, false) (all_draws categories) = 0.
Proof. unfold count. by induction (all_draws categories). Qed.
Lemma dropped_first c rest d x : 0 ≤ ca_Numerator c ≤ ca_Denominator c → d < ca_Denominator c →
  dropped_by (c :: rest) (d :: x) = if d <? ca_Numerator c then Some 0%nat else S <$> dropped_by rest x.
Proof. intros Hc Hd. cbn [dropped_by tail]. change (default 0 (head (d :: x))) with d. destruct (Z.eqb_spec (ca_Numerator c) (ca_Denominator c)), (Z.ltb_spec d (ca_Numerator c)); cbn [orb]; try done; lia. Qed.

(** Exact shares: of all answers of an unbiased source, the accepted ones are the product of what each
    category leaves, and a category drops its own fraction of what the earlier ones left. *)
Lemma accepted_exact categories : fractions categories → count (λ x, negb (sample categories x)) (all_draws categories) = remaining categories.
Proof.
  induction 1 as [|c rest [Hc Hpos] Hrest IH]; [done|].
  rewrite (count_first _ c rest (ca_Numerator c) 0 (remaining rest)); [cbn [remaining fold_right]; fold (remaining rest); lia|done|..].
  - intros d Hd. rewrite <- (count_no_draws rest). apply count_ext. intros x. rewrite sample_dropped, dropped_first by lia. destruct (Z.ltb_spec d (ca_Numerator c)); [done|lia].
  - intros d Hd. rewrite <- IH. apply count_ext. intros x. rewrite !sample_dropped, dropped_first by lia. destruct (Z.ltb_spec d (ca_Numerator c)); [lia|].
    by destruct (dropped_by rest x).
Qed.
Lemma category_exact categories i c : fractions categories → categories !! i = Some c →
  count (λ x, bool_decide (dropped_by categories x = Some i)) (all_draws categories) = remaining (take i categories) * ca_Numerator c * whole (drop (S i) categories).
Proof.
  intros Hf. revert i. induction Hf as [|c' rest [Hc Hpos] Hrest IH]; intros [|i] Hi; [done..|injection Hi as ->|].
  - rewrite (count_first _ c rest (ca_Numerator c) (whole rest) 0); [change (remaining (take 0 (c :: rest))) with 1; change (drop 1 (c :: rest)) with rest; lia|done|..].
    + intros d Hd. rewrite <- count_all by done. apply count_ext. intros x. rewrite dropped_first by lia. destruct (Z.ltb_spec d (ca_Numerator c)); [done|lia].
    + intros d Hd. rewrite <- (count_no_draws rest). apply count_ext. intros x. rewrite dropped_first by lia. destruct (Z.ltb_spec d (ca_Numerator c)); [lia|]. by destruct (dropped_by rest x).
  - cbn [lookup list_lookup] in Hi. rewrite (count_first _ c' rest (ca_Numerator c') 0 (remaining (take i rest) * ca_Numerator c * whole (drop (S i) rest))).
    + change (remaining (take (S i) (c' :: rest))) with ((ca_Denominator c' - ca_Numerator c') * remaining (take i rest)). change (drop (S (S i)) (c' :: rest)) with (drop (S i) rest). lia.
    + done.
    + intros d Hd. rewrite <- (count_no_draws rest). apply count_ext. intros x. rewrite dropped_first by lia. destruct (Z.ltb_spec d (ca_Numerator c')); [done|lia].
    + intros d Hd. rewrite <- (IH i) by done. apply count_ext. intros x. rewrite dropped_first by lia. destruct (Z.ltb_spec d (ca_Numerator c')); [lia|].
      apply bool_decide_ext. destruct (dropped_by rest x); cbn; split; intros; simplify_eq; done.
Qed.

(** ** Store and controller together *)
Inductive adop := AUpdate (service revision : string) (policy : Policy) | ACall (service : option string) (draws : list Z).
Record adsys := mkAdsys { ad_store : Store; ad_controller : Controller; ad_answers : list (result aderror unit) }.
Definition adstep (s : adsys) (o : adop) : adsys :=
  match o with
  | AUpdate service revision policy => mkAdsys (Update service revision policy (ad_store s)).2 (ad_controller s) (ad_answers s)
  | ACall service draws =>
      let '(answer, c) := invoke false service (Resolve (ad_store s)) draws (Ok ()) (ad_controller s) in mkAdsys (ad_store s) c (ad_answers s ++ [answer])
  end.
Definition adsteps (s : adsys) (l : list adop) : adsys := fold_left adstep l s.
Definition adsys0 : adsys := mkAdsys NewStore (mkController 0 0) [].
(** The numbers of a policy are [uint32], and so not negative. *)
Definition unsigned (policy : Policy) : Prop := Forall (λ c, 0 ≤ ca_Numerator c ∧ 0 ≤ ca_Denominator c) policy.
Definition unsigned_op (o : adop) : Prop := match o with AUpdate _ _ policy => unsigned policy | _ => True end.
Definition good_policy (policy : Policy) : Prop := Validate policy = None ∧ unsigned policy.
(** The entry of a service after some operations, without the store: a valid update replaces it unless
    it repeats the revision. *)
Definition entry_after (service : string) (entry : option (string * Policy)) (o : adop) : option (string * Policy) :=
  match o with
  | AUpdate service' revision policy =>
      if (service' == service) && validIdentity service' && validIdentity revision && bool_decide (Validate policy = None) && negb (bool_decide (fst <$> entry = Some revision))
      then Some (revision, policy) else entry
  | ACall _ _ => entry
  end.
#[export] Instance aderror_eq_dec : EqDecision aderror.
Proof. solve_decision. Defined.
Definition outcome_is (e : result aderror unit) (answer : result aderror unit) : bool :=
  match e, answer with Ok _, Ok _ => true | Err x, Err y => bool_decide (x = y) | _, _ => false end.
Definition answered (e : result aderror unit) (s : adsys) : Z := zlen (List.filter (outcome_is e) (ad_answers s)).
Definition as_pair (e : storeEntry) : string * Policy := (se_revision e, se_policy e).
Record adsys_ok (entries : string → option (string * Policy)) (s : adsys) : Prop := {
  ao_entries : ∀ service, as_pair <$> st_services (ad_store s) !! service = entries service;
  ao_good : ∀ service, good_policy (Resolve (ad_store s) service);
  ao_accepted : cn_accepted (ad_controller s) = answered (Ok ()) s mod (max_u64 + 1);
  ao_dropped : cn_dropped (ad_controller s) = answered (Err ErrDropped) s mod (max_u64 + 1);
  ao_answers : Forall (λ a, a = Ok () ∨ a = Err ErrDropped ∨ a = Err ErrMissingOperation) (ad_answers s)
}.
(** What an update does to the entries. *)
Lemma Update_entry service revision policy s service' :
  as_pair <$> st_services (Update service revision policy s).2 !! service' = entry_after service' (as_pair <$> st_services s !! service') (AUpdate service revision policy).
Proof.
  unfold Update, entry_after. destruct (validIdentity service), (validIdentity revision); cbn [negb orb]; rewrite ?andb_false_r; try done.
  destruct (Validate policy) as [err|] eqn:Hv; [rewrite (bool_decide_eq_false_2 (Some err = None)) by done; by rewrite !andb_false_r|]. rewrite (bool_decide_eq_true_2 (None = None)) by done. rewrite !andb_true_r.
  destruct (decide (service = service')) as [<-|Hne].
  - rewrite bool_decide_eq_true_2 by done. cbn [andb]. destruct (st_services s !! service) as [e|] eqn:He; cbn [fmap option_fmap option_map].
    + destruct (decide (se_revision e = revision)) as [Hr|Hr].
      * rewrite !bool_decide_eq_true_2 by (cbn; congruence). cbn [snd negb]. by rewrite He.
      * rewrite !bool_decide_eq_false_2 by (cbn; congruence). cbn [snd st_services negb]. by rewrite lookup_insert_eq.
    + rewrite bool_decide_eq_false_2 by done. cbn [snd st_services negb]. by rewrite lookup_insert_eq.
  - rewrite bool_decide_eq_false_2 by done. cbn [andb]. destruct (st_services s !! service) as [e|]; [destruct (bool_decide _); [done|]|]; cbn [snd st_services]; by rewrite lookup_insert_ne.
Qed.
Lemma Resolve_entry s service : Resolve s service = from_option snd [] (as_pair <$> st_services s !! service).
Proof. unfold Resolve. by destruct (st_services s !! service). Qed.
Lemma answered_snoc e store c answers a : answered e (mkAdsys store c (answers ++ [a])) = zlen (List.filter (outcome_is e) answers) + Z.b2z (outcome_is e a).
Proof. unfold answered. cbn. rewrite List.filter_app, zlen_app. cbn. by destruct (outcome_is e a). Qed.
Lemma adstep_ok entries s o : unsigned_op o → adsys_ok entries s → adsys_ok (λ service, entry_after service (entries service) o) (adstep s o).
Proof.
  intros Ho [He Hg Ha Hd Hl]. destruct o as [service revision policy|service draws]; cbn [adstep].
  - assert (Hents : ∀ k, as_pair <$> st_services (Update service revision policy (ad_store s)).2 !! k = entry_after k (entries k) (AUpdate service revision policy)) by (intros k; by rewrite Update_entry, He).
    constructor; cbn [ad_store ad_controller]; try done. intros k. rewrite Resolve_entry, Hents. unfold entry_after. rewrite <- He. specialize (Hg k). rewrite Resolve_entry in Hg.
    destruct (_ && _) eqn:Hb; [|done]. bool_hyps. by split.
  - unfold invoke. cbn [entry_after]. destruct service as [service|].
    + destruct (Hg service) as [Hv _]. rewrite Hv. destruct (sample _ draws); constructor; cbn [ad_store ad_controller cn_accepted cn_dropped]; try done; rewrite ?answered_snoc; cbn [outcome_is Z.b2z];
        try (rewrite bool_decide_eq_true_2 by done; cbn [Z.b2z]); rewrite ?Z.add_0_r; try done; try (unfold u64_add; rewrite ?Ha, ?Hd; by rewrite Z.add_mod_idemp_l); apply Forall_app; (split; [done|]); apply Forall_singleton; auto.
    + constructor; cbn [ad_store ad_controller]; try done; rewrite ?answered_snoc; cbn [outcome_is Z.b2z]; rewrite ?Z.add_0_r; try done. apply Forall_app. split; [done|]. apply Forall_singleton. auto.
Qed.
Lemma good_fractions policy : good_policy policy → fractions policy.
Proof.
  unfold good_policy, Validate. intros [Hv Hu]. destruct (_ <? _); [done|]. destruct (check_categories policy ∅) eqn:Hc; [|done]. clear Hv. revert Hc. generalize (∅ : gset string).
  induction Hu as [|c rest [Hn Hd] Hrest IH]; intros seen Hc; [constructor|]. cbn [check_categories] in Hc. bool_hyps. constructor; [|by eapply IH].
  lia.
Qed.

(** The reference: what each call is answered, from the history of updates alone. *)
Definition decide_call (entries : string → option (string * Policy)) (service : option string) (draws : list Z) : result aderror unit :=
  match service with
  | None => Err ErrMissingOperation
  | Some service => match dropped_by (from_option snd [] (entries service)) draws with Some _ => Err ErrDropped | None => Ok () end
  end.
Fixpoint expected (entries : string → option (string * Policy)) (ops : list adop) : list (result aderror unit) :=
  match ops with
  | [] => []
  | ACall service draws :: ops => decide_call entries service draws :: expected entries ops
  | o :: ops => expected (λ service, entry_after service (entries service) o) ops
  end.
Lemma adstep_answers entries s o : adsys_ok entries s →
  ad_answers (adstep s o) = ad_answers s ++ match o with ACall service draws => [decide_call entries service draws] | _ => [] end.
Proof.
  intros [He Hg _ _ _]. destruct o as [service revision policy|[service|] draws]; cbn [adstep]; [by rewrite app_nil_r| |done].
  unfold invoke. destruct (Hg service) as [Hv _]. rewrite Hv, sample_dropped. cbn [decide_call]. rewrite <- He, <- Resolve_entry. by destruct (dropped_by _ draws).
Qed.
Lemma adsteps_spec ops : ∀ entries s, Forall unsigned_op ops → adsys_ok entries s →
  adsys_ok (λ k, fold_left (entry_after k) ops (entries k)) (adsteps s ops) ∧ ad_answers (adsteps s ops) = ad_answers s ++ expected entries ops.
Proof.
  induction ops as [|o ops IH]; intros entries s Hops Hok; [by rewrite app_nil_r|]. apply Forall_cons in Hops as [Ho Hops].
  destruct (IH _ _ Hops (adstep_ok _ _ _ Ho Hok)) as [Hend Hans]. split; [done|]. unfold adsteps in *. cbn [fold_left]. rewrite Hans, (adstep_answers _ _ _ Hok), <- app_assoc. by destruct o.
Qed.

(** C31: Admission, for every interleaving of policy updates and calls: the policy of a service is that of its
    last valid update that changed the revision; each call with an operation is dropped exactly when a
    category of the policy then in force drops it, and otherwise passed on, a call without one is refused, no
    call fails because of a policy, and the counters are the numbers of calls dropped and passed on; and with an
    unbiased random source the shares are exact: of all the answers it may give for the policy of a
    service, those that no category drops are the product of what each category leaves, and each category
    drops its own fraction of what the categories before it left. *)
Theorem admission_exact ops (s := adsteps adsys0 ops) service (policy := Resolve (ad_store s) service) : Forall unsigned_op ops →
  policy = from_option snd [] (fold_left (entry_after service) ops None) ∧
  ad_answers s = expected (λ _, None) ops ∧
  cn_accepted (ad_controller s) = answered (Ok ()) s mod (max_u64 + 1) ∧ cn_dropped (ad_controller s) = answered (Err ErrDropped) s mod (max_u64 + 1) ∧
  zlen (all_draws policy) = whole policy ∧ count (λ draws, bool_decide (dropped_by policy draws = None)) (all_draws policy) = remaining policy ∧
  ∀ i c, policy !! i = Some c →
    count (λ draws, bool_decide (dropped_by policy draws = Some i)) (all_draws policy) = remaining (take i policy) * ca_Numerator c * whole (drop (S i) policy).
Proof.
  intros Hops. destruct (adsteps_spec ops (λ _, None) adsys0 Hops) as [[He Hg Ha Hd _] Hans].
  { constructor; cbn; try done. intros k. unfold Resolve. cbn. split; [done|constructor]. }
  fold s in He, Hg, Ha, Hd, Hans. pose proof (good_fractions _ (Hg service)) as Hf. split; [subst policy; by rewrite Resolve_entry, He|]. do 3 (split; [done|]).
  split; [rewrite <- count_all by done; clear; unfold count; induction (all_draws policy) as [|x l IH]; [done|]; cbn [List.filter]; by rewrite !zlen_cons, IH|].
  split; [|intros i c Hi; by apply category_exact]. rewrite <- accepted_exact by done. apply count_ext. intros x. rewrite sample_dropped. by destruct (dropped_by policy x).
Qed.
(** One tenth, then a half of the rest. *)
Definition w_policy : Policy := [mkCategory "low" 1 10; mkCategory "batch" 1 2].
Definition w_ops : list adop := [AUpdate "orders" "1" w_policy; ACall (Some "orders") [0; 1]; ACall (Some "orders") [5; 1]; ACall None []].
Lemma admission_exact_witness : let p := Resolve (ad_store (adsteps adsys0 w_ops)) "orders" in
  p = w_policy ∧ ad_answers (adsteps adsys0 w_ops) = [Err ErrDropped; Ok (); Err ErrMissingOperation] ∧
  zlen (all_draws p) = 20 ∧ count (λ draws, bool_decide (dropped_by p draws = None)) (all_draws p) = 9 ∧
  count (λ draws, bool_decide (dropped_by p draws = Some 1%nat)) (all_draws p) = 9.
Proof.
  assert (Hp : Resolve (ad_store (adsteps adsys0 w_ops)) "orders" = w_policy) by (vm_compute; reflexivity).
  assert (Ho : Forall unsigned_op w_ops) by (repeat constructor; cbn; lia).
  destruct (admission_exact w_ops "orders" Ho) as (_ & H0 & _ & _ & H1 & H2 & H3). cbv zeta. rewrite Hp in *.
  split; [reflexivity|]. split; [etransitivity; [exact H0|vm_compute; reflexivity]|]. split; [exact H1|]. split; [exact H2|]. exact (H3 1%nat (mkCategory "batch" 1 2) eq_refl).
Defined.
