(* ===== verification/Config.v ===== *)
(** * config: layered snapshots, their manager and typed components

    Models [snapshot.go], [merge.go], the manager of [config.go] (loading, watching, publishing,
    subscribers, known fields) and the typed [Component] of [typed.go].  Values are a tree; a value of an
    unsupported Go type is one constructor.  What reflection does (decoding a subtree into a struct,
    comparing two structs) is a parameter of the component.  [publish] holds a mutex from its first
    access to its last and is one step; subscribers that come or go during a publication are not modelled. *)
From S2P Require Import Prelude GoText GoJson GoDecode Access Idempotency.
From stdpp Require Import pretty.
Open Scope Z_scope.

(** ** Values and snapshots *)
Inductive scalar := SBool (b : bool) | SNumber (text : string) | SText (s : string).
Inductive value := VNull | VScalar (s : scalar) | VDelete | VList (l : list value) | VMap (m : gmap string value) | VUnsupported.
Abbreviation tree := (gmap string value).
Record Snapshot := mkSnapshot { sn_revision : string; sn_values : tree }.
(** Whether [cloneValue] succeeds; the copy is the value. *)
Fixpoint cloneable (allowDelete : bool) (v : value) : bool :=
  match v with
  | VDelete => allowDelete
  | VNull | VScalar _ => true
  | VList l => forallb (cloneable allowDelete) l
  | VMap m => map_fold (λ key v ok, ok && (key != "") && cloneable allowDelete v) true m
  | VUnsupported => false
  end.
Definition cloneMap (allowDelete : bool) (m : tree) : bool := cloneable allowDelete (VMap m).
Definition NewSnapshot (revision : string) (values : tree) : option Snapshot :=
  if TrimSpace revision == "" then None else if cloneMap true values then Some (mkSnapshot revision values) else None.
Definition validate (s : Snapshot) : bool := negb (TrimSpace (sn_revision s) == "") && cloneMap true (sn_values s).
Definition as_map (v : option value) : tree := match v with Some (VMap m) => m | _ => ∅ end.
(** [Lookup] below a value. *)
Fixpoint lookup_from (v : value) (path : list string) : option value :=
  match path with
  | [] => Some v
  | segment :: path => match v with VMap m => match m !! segment with Some next => lookup_from next path | None => None end | _ => None end
  end.
Definition Lookup (s : Snapshot) (path : list string) : option value := lookup_from (VMap (sn_values s)) path.

(** ** Merging

    What the loop of [mergeMap] puts under a key, from the overlay's value and the current one. *)
Fixpoint merge_value (overlay : value) (current : option value) : option value :=
  match overlay with
  | VDelete => None
  | VMap m =>
      Some (VMap (map_fold (λ key overlayValue target,
        match merge_value overlayValue (target !! key) with Some v => <[key := v]> target | None => delete key target end) (as_map current) m))
  | v => Some v
  end.
Definition mergeMap (target overlay : tree) : tree :=
  map_fold (λ key overlayValue target, match merge_value overlayValue (target !! key) with Some v => <[key := v]> target | None => delete key target end) target overlay.
(** One revision with its length. *)
Definition framed (revision : string) : string := pretty (slen revision) +:+ ":" +:+ revision.
Fixpoint join_framed (revisions : list string) : string :=
  match revisions with [] => "" | [r] => framed r | r :: rest => framed r +:+ "|" +:+ join_framed rest end.
Definition combineRevisions (revisions : list string) : string := match revisions with [r] => r | _ => join_framed revisions end.
Definition Merge (snapshots : list Snapshot) : option Snapshot :=
  match snapshots with
  | [] => None
  | _ =>
      if negb (forallb validate snapshots) then None
      else
        let merged := fold_left (λ target s, mergeMap target (sn_values s)) snapshots ∅ in
        if cloneMap false merged then Some (mkSnapshot (combineRevisions (sn_revision <$> snapshots)) merged) else None
  end.

(** ** Known fields *)
Inductive schemaNode := mkNode (children : gmap string schemaNode) (terminal : bool).
Definition sc_children (n : schemaNode) : gmap string schemaNode := let 'mkNode c _ := n in c.
Definition sc_terminal (n : schemaNode) : bool := let 'mkNode _ t := n in t.
Fixpoint add_path (segments : list string) (n : schemaNode) : option schemaNode :=
  match segments with
  | [] => Some (mkNode (sc_children n) true)
  | segment :: rest =>
      if (segment == "") || (segment == "*") && negb (bool_decide (rest = [])) then None
      else child ← add_path rest (default (mkNode ∅ false) (sc_children n !! segment)); Some (mkNode (<[segment := child]> (sc_children n)) (sc_terminal n))
  end.
(** The paths are split at their dots. *)
Definition buildSchema (paths : list (list string)) : option schemaNode := fold_left (λ n path, n ≫= add_path path) paths (Some (mkNode ∅ false)).
Definition child_of (n : schemaNode) (key : string) : option schemaNode := match sc_children n !! key with Some c => Some c | None => sc_children n !! "*" end.
Fixpoint validateAt (n : schemaNode) (v : value) : bool :=
  match v with
  | VMap m => map_fold (λ key v ok, ok && match child_of n key with None => false | Some child => if sc_terminal child then true else validateAt child v end) true m
  | _ => true
  end.

(** ** Typed components *)
Inductive cerror := ErrInvalidOption | ErrTypedDecode | ErrValidation | ErrRestartRequired (fields : list string) | EApply (err : cerror) | ECause (text : string).
(** [errors.Is(err, ErrRestartRequired)] *)
Fixpoint is_restart (err : cerror) : bool := match err with ErrRestartRequired _ => true | EApply err => is_restart err | _ => false end.
(** The configuration of a component: where it reads, what reflection does, its validators. *)
Record Spec (T : Type) := mkSpec {
  cs_segments : list string; cs_default : option T; cs_decode : value → option T; cs_validators : list (T → bool); cs_changes : T → T → list string
}.
Arguments mkSpec {T}.
Arguments cs_segments {T}.
Arguments cs_default {T}.
Arguments cs_decode {T}.
Arguments cs_validators {T}.
Arguments cs_changes {T}.
Record Component (T : Type) := mkComponent {
  cp_current : option (string * T); cp_validated : option (string * T); cp_pendingRevision : string; cp_restartFields : list string; cp_failed : bool
}.
Arguments mkComponent {T}.
Arguments cp_current {T}.
Arguments cp_validated {T}.
Arguments cp_pendingRevision {T}.
Arguments cp_restartFields {T}.
Arguments cp_failed {T}.
Definition NewComponent {T} : Component T := mkComponent None None "" [] false.
Section component.
Context {T : Type} (spec : Spec T).
Definition validated (v : T) : result cerror T := if forallb (λ f, f v) (cs_validators spec) then Ok v else Err ErrValidation.
Definition decode (s : Snapshot) : result cerror T :=
  match Lookup s (cs_segments spec) with
  | None => match cs_default spec with None => Err ErrTypedDecode | Some v => validated v end
  | Some source => match cs_decode spec source with None => Err ErrTypedDecode | Some v => validated v end
  end.
Definition component_Validate (s : Snapshot) (c : Component T) : option cerror * Component T :=
  match decode s with
  | Err err => (Some err, mkComponent (cp_current c) None (cp_pendingRevision c) (cp_restartFields c) true)
  | Ok v => (None, mkComponent (cp_current c) (Some (sn_revision s, v)) (cp_pendingRevision c) (cp_restartFields c) false)
  end.
(** The value to install: the validated one if it is for this revision. *)
Definition next_value (s : Snapshot) (c : Component T) : result cerror T :=
  match cp_validated c with
  | Some (revision, v) => if revision == sn_revision s then Ok v else decode s
  | None => decode s
  end.
Definition with_failed (c : Component T) : Component T := mkComponent (cp_current c) (cp_validated c) (cp_pendingRevision c) (cp_restartFields c) true.
(** [Apply]; [apply] is what the callback answers, if there is one. *)
Definition component_Apply (ctx : context cerror) (s : Snapshot) (apply : option (T → option cerror)) (c : Component T) : option cerror * Component T :=
  match ctx with
  | NilContext => (Some ErrInvalidOption, c)
  | Context (Some cause) => (Some cause, c)
  | Context None =>
      match next_value s c with
      | Err err => (Some err, with_failed c)
      | Ok next =>
          let changed := match cp_current c with Some (_, current) => merge_sort String.le (cs_changes spec current next) | None => [] end in
          match changed with
          | _ :: _ => (Some (ErrRestartRequired changed), mkComponent (cp_current c) (cp_validated c) (sn_revision s) changed true)
          | [] =>
              match apply ≫= (λ f, f next) with
              | Some err => (Some (EApply err), with_failed c)
              | None => (None, mkComponent (Some (sn_revision s, next)) (cp_validated c) "" [] false)
              end
          end
      end
  end.
Definition Current (c : Component T) : option T := snd <$> cp_current c.
Record ComponentDescription := mkComponentDescription { cd_Loaded : bool; cd_Revision : string; cd_PendingRevision : string; cd_RestartRequired : bool; cd_RestartFields : list string; cd_Failed : bool }.
Definition Description (c : Component T) : ComponentDescription :=
  mkComponentDescription (bool_decide (is_Some (cp_current c))) (from_option fst "" (cp_current c)) (cp_pendingRevision c) (negb (bool_decide (cp_restartFields c = []))) (cp_restartFields c) (cp_failed c).
End component.

(** ** The manager

    Bindings are typed components, kept by name; other validators are predicates, other subscribers
    callbacks whose answers are an argument. *)
Inductive subscriber := SBinding | SCallback.
Record SubscriberStatus := mkStatus { ss_Revision : string; ss_RestartRequired : bool; ss_Failed : bool }.
Inductive UnknownFieldPolicy := UnknownAllow | UnknownReject.
Record Manager (T : Type) := mkManager {
  mg_validators : list (Snapshot → bool); mg_bindings : list string; mg_specs : gmap string (Spec T); mg_unknown : UnknownFieldPolicy; mg_schema : schemaNode;
  mg_current : option Snapshot; mg_components : gmap string (Component T); mg_subscribers : gmap string subscriber; mg_statuses : gmap string SubscriberStatus; mg_rejected : bool; mg_watching : bool
}.
Arguments mkManager {T}.
Arguments mg_validators {T}.
Arguments mg_bindings {T}.
Arguments mg_specs {T}.
Arguments mg_unknown {T}.
Arguments mg_schema {T}.
Arguments mg_current {T}.
Arguments mg_components {T}.
Arguments mg_subscribers {T}.
Arguments mg_statuses {T}.
Arguments mg_rejected {T}.
Arguments mg_watching {T}.
Section manager.
Context {T : Type}.
Implicit Types (m : Manager T).
Definition set_components m components := mkManager (mg_validators m) (mg_bindings m) (mg_specs m) (mg_unknown m) (mg_schema m) (mg_current m) components (mg_subscribers m) (mg_statuses m) (mg_rejected m) (mg_watching m).
Definition set_current m current := mkManager (mg_validators m) (mg_bindings m) (mg_specs m) (mg_unknown m) (mg_schema m) current (mg_components m) (mg_subscribers m) (mg_statuses m) (mg_rejected m) (mg_watching m).
Definition set_statuses m statuses := mkManager (mg_validators m) (mg_bindings m) (mg_specs m) (mg_unknown m) (mg_schema m) (mg_current m) (mg_components m) (mg_subscribers m) statuses (mg_rejected m) (mg_watching m).
Definition set_subscribers m subscribers := mkManager (mg_validators m) (mg_bindings m) (mg_specs m) (mg_unknown m) (mg_schema m) (mg_current m) (mg_components m) subscribers (mg_statuses m) (mg_rejected m) (mg_watching m).
Definition recordRejected m := mkManager (mg_validators m) (mg_bindings m) (mg_specs m) (mg_unknown m) (mg_schema m) (mg_current m) (mg_components m) (mg_subscribers m) (mg_statuses m) true (mg_watching m).
Definition set_watching m watching := mkManager (mg_validators m) (mg_bindings m) (mg_specs m) (mg_unknown m) (mg_schema m) (mg_current m) (mg_components m) (mg_subscribers m) (mg_statuses m) (mg_rejected m) watching.
Definition component_of m (name : string) : Component T := default NewComponent (mg_components m !! name).
(** [New]: the number of sources, the validators, the bindings with their specifications, the known fields. *)
Definition New (sources : Z) (validators : list (Snapshot → bool)) (bindings : list (string * Spec T)) (unknown : UnknownFieldPolicy) (known : list (list string)) : option (Manager T) :=
  if sources =? 0 then None
  else if match unknown with UnknownReject => bool_decide (known = []) | UnknownAllow => false end then None
  else
    schema ← buildSchema known;
    let names := (λ b, TrimSpace b.1) <$> bindings in
    if existsb (λ name, name == "") names || negb (bool_decide (NoDup names)) then None
    else
      Some (mkManager validators names (list_to_map (zip names bindings.*2)) unknown schema None (list_to_map ((λ name, (name, NewComponent)) <$> names)) (list_to_map ((λ name, (name, SBinding)) <$> names)) ∅ false false).
(** The bindings validate in their order; each remembers the candidate. *)
Fixpoint validate_bindings (names : list string) (s : Snapshot) m : bool * Manager T :=
  match names with
  | [] => (true, m)
  | name :: names =>
      match mg_specs m !! name with
      | None => validate_bindings names s m
      | Some spec =>
          let '(err, c) := component_Validate spec s (component_of m name) in
          let m := set_components m (<[name := c]> (mg_components m)) in
          match err with Some _ => (false, m) | None => validate_bindings names s m end
      end
  end.
(** What an outside callback, or the callback of a component, answers. *)
Record Answers := mkAnswers { an_callback : string → option cerror; an_apply : string → option (T → option cerror) }.
Definition status_of (s : Snapshot) (err : option cerror) : SubscriberStatus :=
  mkStatus (sn_revision s) (from_option is_restart false err) (bool_decide (is_Some err)).
Definition notify_one (ctx : context cerror) (answers : Answers) (s : Snapshot) (name : string) m : Manager T :=
  match mg_subscribers m !! name, mg_specs m !! name with
  | Some SBinding, Some spec =>
      let '(err, c) := component_Apply spec ctx s (an_apply answers name) (component_of m name) in
      let m := set_components m (<[name := c]> (mg_components m)) in set_statuses m (<[name := status_of s err]> (mg_statuses m))
  | _, _ => set_statuses m (<[name := status_of s (an_callback answers name)]> (mg_statuses m))
  end.
Definition notifySubscribers (ctx : context cerror) (answers : Answers) (s : Snapshot) m : Manager T := fold_left (λ m name, notify_one ctx answers s name m) (sort_strings (map_to_list (mg_subscribers m)).*1) m.
Inductive published := PUnchanged | PPublished | PRejected.
Definition publish (ctx : context cerror) (answers : Answers) (candidate : Snapshot) m : published * Manager T :=
  let go :=
    if match mg_unknown m with UnknownReject => negb (validateAt (mg_schema m) (VMap (sn_values candidate))) | UnknownAllow => false end then (PRejected, recordRejected m)
    else if negb (forallb (λ f, f candidate) (mg_validators m)) then (PRejected, recordRejected m)
    else
      let '(ok, m) := validate_bindings (mg_bindings m) candidate m in
      if negb ok then (PRejected, recordRejected m) else (PPublished, notifySubscribers ctx answers candidate (set_current m (Some candidate))) in
  match mg_current m with
  | Some current => if sn_revision current == sn_revision candidate then (PUnchanged, m) else go
  | None => go
  end.
(** [loadSources] and [Load]: what each source answers. *)
Definition loadSources (ctx : context cerror) (loads : list (option Snapshot)) : option (list Snapshot) :=
  match ctx with
  | Context None => snapshots ← mapM id loads; if forallb validate snapshots then Some snapshots else None
  | _ => None
  end.
Definition Load (ctx : context cerror) (answers : Answers) (loads : list (option Snapshot)) m : published * Manager T :=
  match loadSources ctx loads with
  | None => (PRejected, m)
  | Some snapshots => match Merge snapshots with None => (PRejected, recordRejected m) | Some merged => publish ctx answers merged m end
  end.
(** One event of [watch], and the sources it keeps. *)
Definition watch_event (ctx : context cerror) (answers : Answers) (index : nat) (s : Snapshot) (sources : list Snapshot) m : list Snapshot * Manager T :=
  let candidateSources := <[index := s]> sources in
  match Merge candidateSources with
  | None => (sources, recordRejected m)
  | Some candidate => let '(p, m) := publish ctx answers candidate m in (match p with PPublished => candidateSources | _ => sources end, m)
  end.
Definition beginWatch m : bool * Manager T := if mg_watching m then (false, m) else (true, set_watching m true).
Definition endWatch m : Manager T := set_watching m false.
(** [watch] up to its loop: the sources it starts with. *)
Definition watch_start (ctx : context cerror) (answers : Answers) (loads : list (option Snapshot)) m : option (list Snapshot) * Manager T :=
  match loadSources ctx loads with
  | None => (None, m)
  | Some snapshots =>
      match Merge snapshots with
      | None => (None, recordRejected m)
      | Some merged => let '(p, m) := publish ctx answers merged m in (match p with PRejected => None | _ => Some snapshots end, m)
      end
  end.
Definition Subscribe (name : string) m : option cerror * Manager T :=
  let name := TrimSpace name in
  if name == "" then (Some ErrInvalidOption, m)
  else if bool_decide (is_Some (mg_subscribers m !! name)) then (Some ErrInvalidOption, m) else (None, set_subscribers m (<[name := SCallback]> (mg_subscribers m))).
Definition Unsubscribe (name : string) m : Manager T :=
  let name := TrimSpace name in set_statuses (set_subscribers m (delete name (mg_subscribers m))) (delete name (mg_statuses m)).
End manager.

(** ** What a merge means *)

(** What one source says about a path: nothing, that there is no value, or the value. *)
Fixpoint verdict (v : value) (path : list string) : option (option value) :=
  match path with
  | [] => match v with VDelete | VMap _ => Some None | v => Some (Some v) end
  | segment :: path =>
      match v with
      | VMap m => match m !! segment with None => None | Some next => verdict next path end
      | _ => Some None
      end
  end.
(** The value at a path of a tree, when it is not a map. *)
Definition leaf (v : option value) (path : list string) : option value :=
  match v ≫= (λ v, lookup_from v path) with Some (VMap _) | None => None | Some v => Some v end.
Lemma mergeMap_lookup target overlay key :
  mergeMap target overlay !! key = match overlay !! key with None => target !! key | Some v => merge_value v (target !! key) end.
Proof.
  unfold mergeMap. revert key. apply (map_fold_weak_ind (λ acc (m : tree), ∀ key, acc !! key = match m !! key with None => target !! key | Some v => merge_value v (target !! key) end)).
  - intros key. by rewrite lookup_empty.
  - intros k v m acc Hk IH key. destruct (decide (key = k)) as [->|Hne].
    + rewrite lookup_insert_eq, IH, Hk. destruct (merge_value v (target !! k)); [by rewrite lookup_insert_eq|by rewrite lookup_delete_eq].
    + rewrite lookup_insert_ne by done. rewrite <- IH. destruct (merge_value v (acc !! k)); [by rewrite lookup_insert_ne|by rewrite lookup_delete_ne].
Qed.
Lemma merge_value_map m current : merge_value (VMap m) current = Some (VMap (mergeMap (as_map current) m)).
Proof. done. Qed.
Lemma merge_leaf path : ∀ v current, leaf (merge_value v current) path = default (leaf current path) (verdict v path).
Proof.
  induction path as [|segment path IH]; intros v current.
  - destruct v; done.
  - destruct v as [| | | |m|]; try done. rewrite merge_value_map. unfold leaf at 1. cbn [mbind option_bind lookup_from verdict]. rewrite mergeMap_lookup.
    assert (Hc : leaf current (segment :: path) = leaf (as_map current !! segment) path).
    { destruct current as [c|]; [|done]. unfold leaf. cbn [mbind option_bind lookup_from]. destruct c as [| | | |m'|]; cbn [as_map]; rewrite ?lookup_empty; done. }
    destruct (m !! segment) as [next|] eqn:Hn.
    + rewrite Hc, <- IH. unfold leaf. destruct (merge_value next (as_map current !! segment)); done.
    + rewrite Hc. unfold leaf. by destruct (as_map current !! segment).
Qed.

(** ** Revisions of merged snapshots *)
Lemma framed_inj r r' (l l' : list Z) : bytes_of (framed r) ++ l = bytes_of (framed r') ++ l' → r = r' ∧ l = l'.
Proof.
  unfold framed. rewrite !bytes_of_app. change (bytes_of ":") with [58]. rewrite <- !app_assoc. cbn [app].
  assert (Hpos : ∀ x, 0 ≤ slen x) by (intros x; unfold slen; lia). destruct (json_int_numeral _ (Hpos r)) as [(d & ds & Hl & Hf & _) Hv]. destruct (json_int_numeral _ (Hpos r')) as [(d' & ds' & Hl' & Hf' & _) Hv'].
  unfold json_int in *. intros Heq. assert (Hsep : ∀ x, Forall (λ b, is_digit b = true) x → 58 ∉ x) by (intros x Hx Hin; rewrite Forall_forall in Hx; by apply Hx in Hin).
  apply separated_inj in Heq as [Hn Heq]; [|by apply Hsep..]. assert (Hlen : slen r = slen r') by congruence.
  apply app_inj_1 in Heq as [Hb ->]; [|rewrite !length_bytes_of; unfold slen in Hlen; lia]. split; [|done]. by rewrite <- (string_of_bytes_of r), Hb, string_of_bytes_of.
Qed.
Lemma combine_inj l l' : length l = length l' → combineRevisions l = combineRevisions l' → l = l'.
Proof.
  assert (Hjoin : ∀ l l', length l = length l' → join_framed l = join_framed l' → l = l').
  { clear l l'. intros l. induction l as [|r l IH]; intros [|r' l'] Hlen Heq; try done. destruct l as [|r2 l], l' as [|r2' l']; try done.
    - cbn [join_framed] in Heq. apply (f_equal bytes_of) in Heq. rewrite <- (app_nil_r (bytes_of (framed r))), <- (app_nil_r (bytes_of (framed r'))) in Heq. by apply framed_inj in Heq as [-> _].
    - change (framed r +:+ "|" +:+ join_framed (r2 :: l) = framed r' +:+ "|" +:+ join_framed (r2' :: l')) in Heq. apply (f_equal bytes_of) in Heq. rewrite !bytes_of_app in Heq. apply framed_inj in Heq as [-> Heq].
      change (bytes_of "|") with [124] in Heq. cbn [app] in Heq. injection Heq as Heq. f_equal. apply IH; [cbn in *; lia|]. apply (f_equal string_of_bytes) in Heq. rewrite !string_of_bytes_of in Heq. done. }
  intros Hlen Heq. destruct l as [|r [|r2 l]], l' as [|r' [|r2' l']]; try done; [by cbn in Heq; rewrite Heq|]. by apply Hjoin.
Qed.

(** C30: Merging keeps the priorities of the sources: at every path, the value of the merged tree is what the last
    source decides that says anything about the path, where a source decides by a value there, by a
    deletion, or by a value above it; no deletion marker is left; and the revision of the merged
    snapshot determines those of its sources. *)
Theorem merge_priority snapshots merged path : Merge snapshots = Some merged →
  leaf (Some (VMap (sn_values merged))) path =
    from_option id None (fold_left (λ decided s, match verdict (VMap (sn_values s)) path with Some d => Some d | None => decided end) snapshots None) ∧
  cloneMap false (sn_values merged) = true ∧
  ∀ snapshots' merged', Merge snapshots' = Some merged' → length snapshots = length snapshots' → sn_revision merged = sn_revision merged' →
    sn_revision <$> snapshots = sn_revision <$> snapshots'.
Proof.
  assert (Hinv : ∀ l x, Merge l = Some x → sn_values x = fold_left (λ target s, mergeMap target (sn_values s)) l ∅ ∧ sn_revision x = combineRevisions (sn_revision <$> l) ∧ cloneMap false (sn_values x) = true ∧ l ≠ []).
  { intros l x. unfold Merge. destruct l as [|s l]; [done|]. destruct (forallb validate _); [|done]. cbn [negb]. destruct (cloneMap false _) eqn:Hc; [|done]. by intros [= <-]. }
  intros (Hv & Hr & Hc & Hne)%Hinv. split; [|split; [done|]].
  - rewrite Hv. clear. assert (Hgen : ∀ (target : tree) decided, leaf (Some (VMap target)) path = from_option id None decided →
      leaf (Some (VMap (fold_left (λ target s, mergeMap target (sn_values s)) snapshots target))) path =
      from_option id None (fold_left (λ decided s, match verdict (VMap (sn_values s)) path with Some d => Some d | None => decided end) snapshots decided)).
    { induction snapshots as [|s l IH]; intros target decided Hd; [done|]. cbn [fold_left]. apply IH. pose proof (merge_leaf path (VMap (sn_values s)) (Some (VMap target))) as Hm. rewrite merge_value_map in Hm.
      cbn [as_map] in Hm. rewrite Hm. by destruct (verdict (VMap (sn_values s)) path). }
    apply Hgen. destruct path; [done|]. unfold leaf. cbn [mbind option_bind lookup_from]. by rewrite lookup_empty.
  - intros snapshots' merged' (_ & Hr' & _ & _)%Hinv Hlen Heq. apply combine_inj; [by rewrite !length_fmap|congruence].
Qed.

(** ** What the manager promises *)
Section promise.
Context {T : Type}.
Implicit Types (m : Manager T).
Definition acceptable m (s : Snapshot) : Prop :=
  (mg_unknown m = UnknownReject → validateAt (mg_schema m) (VMap (sn_values s)) = true) ∧ forallb (λ f, f s) (mg_validators m) = true ∧
  ∀ name spec, name ∈ mg_bindings m → mg_specs m !! name = Some spec → is_ok (decode spec s) = true.
(** What never changes. *)
Definition same_options m m' : Prop :=
  mg_validators m' = mg_validators m ∧ mg_bindings m' = mg_bindings m ∧ mg_specs m' = mg_specs m ∧ mg_unknown m' = mg_unknown m ∧ mg_schema m' = mg_schema m.
Definition serves m (s : Snapshot) (name : string) (spec : Spec T) : Prop := ∃ v, cp_current (component_of m name) = Some (sn_revision s, v) ∧ decode spec s = Ok v.
Record manager_ok m : Prop := {
  mo_acceptable : ∀ s, mg_current m = Some s → acceptable m s;
  mo_bound : ∀ name, mg_subscribers m !! name = Some SBinding → name ∈ mg_bindings m ∧ is_Some (mg_specs m !! name);
  mo_told : ∀ name spec s, mg_subscribers m !! name = Some SBinding → mg_specs m !! name = Some spec → mg_current m = Some s →
    ∃ st, mg_statuses m !! name = Some st ∧ ss_Revision st = sn_revision s ∧ (ss_Failed st = false → serves m s name spec);
  mo_values : ∀ name spec r v, mg_specs m !! name = Some spec → cp_current (component_of m name) = Some (r, v) ∨ cp_validated (component_of m name) = Some (r, v) →
    ∃ s, sn_revision s = r ∧ decode spec s = Ok v
}.
Lemma component_insert m name c k : component_of (set_components m (<[name := c]> (mg_components m))) k = if decide (k = name) then c else component_of m k.
Proof. unfold component_of. cbn. destruct (decide (k = name)) as [->|Hne]; [by rewrite lookup_insert_eq|by rewrite lookup_insert_ne]. Qed.
Lemma same_options_refl m : same_options m m.
Proof. done. Qed.
Lemma same_options_trans m m' m'' : same_options m m' → same_options m' m'' → same_options m m''.
Proof. unfold same_options. intuition congruence. Qed.
Lemma validate_bindings_spec s names : ∀ m, let '(ok, m') := validate_bindings names s m in
  same_options m m' ∧ mg_current m' = mg_current m ∧ mg_subscribers m' = mg_subscribers m ∧ mg_statuses m' = mg_statuses m ∧
  (∀ name, cp_current (component_of m' name) = cp_current (component_of m name)) ∧ (∀ name, name ∉ names → component_of m' name = component_of m name) ∧
  (∀ name spec r v, mg_specs m !! name = Some spec → cp_validated (component_of m' name) = Some (r, v) → cp_validated (component_of m name) = Some (r, v) ∨ r = sn_revision s ∧ decode spec s = Ok v) ∧
  (ok = true → ∀ name spec, name ∈ names → mg_specs m !! name = Some spec → ∃ v, decode spec s = Ok v ∧ cp_validated (component_of m' name) = Some (sn_revision s, v)).
Proof.
  induction names as [|name names IH]; intros m; cbn [validate_bindings]; [split_and!; try done; [by left|intros _ k sp Hk; by apply elem_of_nil in Hk]|].
  destruct (mg_specs m !! name) as [spec|] eqn:Hspec.
  - unfold component_Validate. destruct (decode spec s) as [v|err] eqn:Hd.
    + set (m1 := set_components m _). specialize (IH m1). destruct (validate_bindings names s m1) as [ok m']. destruct IH as (H1 & H2 & H3 & H4 & H5 & H6 & H7 & H8). split_and!; try done.
      * intros k. rewrite H5. unfold m1. rewrite component_insert. by destruct (decide (k = name)) as [->|].
      * intros k [Hk Hk']%not_elem_of_cons. rewrite H6 by done. unfold m1. rewrite component_insert. by rewrite decide_False.
      * intros k sp r w Hsp Hv. destruct (H7 k sp r w Hsp Hv) as [Hx|Hx]; [|by right]. unfold m1 in Hx. rewrite component_insert in Hx. destruct (decide (k = name)) as [->|]; [|by left]. cbn in Hx. right. split; congruence.
      * intros Hok k sp Hk Hsp. destruct (decide (k ∈ names)) as [Hin|Hin]; [by apply H8|]. apply elem_of_cons in Hk as [->|Hk]; [|done]. replace sp with spec in * by congruence. exists v. split; [done|].
        rewrite H6 by done. unfold m1. by rewrite component_insert, decide_True.
    + split_and!; try done.
      * intros k. rewrite component_insert. by destruct (decide (k = name)) as [->|].
      * intros k [Hk Hk']%not_elem_of_cons. by rewrite component_insert, decide_False.
      * intros k sp r w Hsp. rewrite component_insert. destruct (decide (k = name)) as [->|]; [done|by left].
  - specialize (IH m). destruct (validate_bindings names s m) as [ok m']. destruct IH as (H1 & H2 & H3 & H4 & H5 & H6 & H7 & H8). split_and!; try done.
    + intros k [Hk Hk']%not_elem_of_cons. by apply H6.
    + intros Hok k sp [->|Hk]%elem_of_cons Hsp; [congruence|by apply H8].
Qed.
(** One call of [Apply] with the value that was validated for this revision. *)
Lemma apply_validated spec ctx s apply (c : Component T) v : cp_validated c = Some (sn_revision s, v) →
  let '(err, c') := component_Apply spec ctx s apply c in cp_validated c' = cp_validated c ∧
  (cp_current c' = Some (sn_revision s, v) ∨ cp_current c' = cp_current c) ∧ (err = None → cp_current c' = Some (sn_revision s, v)).
Proof.
  intros Hv. unfold component_Apply, next_value. rewrite Hv, bool_decide_eq_true_2 by done. destruct ctx as [|[cause|]]; [by split_and!; auto..|].
  destruct (match cp_current c with Some (_, current) => merge_sort String.le (cs_changes spec current v) | None => [] end); [|by split_and!; auto]. destruct (apply ≫= _); by split_and!; auto.
Qed.
(** What a notification of some subscribers leaves behind. *)
Definition notified (s : Snapshot) (names : list string) m m' : Prop :=
  same_options m m' ∧ mg_current m' = mg_current m ∧ mg_subscribers m' = mg_subscribers m ∧
  (∀ name, name ∉ names → component_of m' name = component_of m name ∧ mg_statuses m' !! name = mg_statuses m !! name) ∧
  (∀ name, cp_validated (component_of m' name) = cp_validated (component_of m name)) ∧
  (∀ name, cp_current (component_of m' name) = cp_current (component_of m name) ∨ ∃ v, cp_current (component_of m' name) = Some (sn_revision s, v) ∧ cp_validated (component_of m name) = Some (sn_revision s, v)) ∧
  (∀ name spec, name ∈ names → mg_subscribers m !! name = Some SBinding → mg_specs m !! name = Some spec →
     ∃ st, mg_statuses m' !! name = Some st ∧ ss_Revision st = sn_revision s ∧ (ss_Failed st = false → serves m' s name spec)).
Definition ready (s : Snapshot) (names : list string) m : Prop :=
  ∀ name spec, name ∈ names → mg_subscribers m !! name = Some SBinding → mg_specs m !! name = Some spec → ∃ v, decode spec s = Ok v ∧ cp_validated (component_of m name) = Some (sn_revision s, v).
Lemma notify_one_spec ctx answers s name m : ready s [name] m → notified s [name] m (notify_one ctx answers s name m).
Proof.
  intros Hval. unfold notify_one.
  assert (Hcall : ∀ st, (mg_subscribers m !! name = Some SBinding → mg_specs m !! name = None) → notified s [name] m (set_statuses m (<[name := st]> (mg_statuses m)))).
  { intros st Hno. split_and!; try done; [intros k Hk; rewrite list_elem_of_singleton in Hk; split; [done|]; cbn; by rewrite lookup_insert_ne|by left|]. intros k spec ->%list_elem_of_singleton Hk Hs. rewrite (Hno Hk) in Hs. done. }
  destruct (mg_subscribers m !! name) as [[]|] eqn:Hsub; [|by apply Hcall..]. destruct (mg_specs m !! name) as [spec|] eqn:Hspec; [|by apply Hcall].
  destruct (Hval name spec) as (v & Hd & Hv); [by left|done|done|]. pose proof (apply_validated spec ctx s (an_apply answers name) _ _ Hv) as Ha. destruct (component_Apply spec ctx s _ _) as [err c]. destruct Ha as (Ha1 & Ha2 & Ha3).
  assert (Hcomp : ∀ st k, component_of (set_statuses (set_components m (<[name:=c]> (mg_components m))) st) k = if decide (k = name) then c else component_of m k) by (intros st k; exact (component_insert m name c k)).
  split_and!; try done.
  - intros k Hk. rewrite list_elem_of_singleton in Hk. rewrite Hcomp, decide_False by done. split; [done|]. cbn. by rewrite lookup_insert_ne.
  - intros k. rewrite Hcomp. by destruct (decide (k = name)) as [->|].
  - intros k. rewrite Hcomp. destruct (decide (k = name)) as [->|]; [|by left]. destruct Ha2 as [Ha2|Ha2]; [right; exists v; done|by left].
  - intros k spec' ->%list_elem_of_singleton _ Hs. replace spec' with spec by congruence. exists (status_of s err). split; [cbn; by rewrite lookup_insert_eq|]. split; [done|]. intros Hf.
    exists v. split; [|done]. rewrite Hcomp, decide_True by done. apply Ha3. cbn in Hf. apply bool_decide_eq_false in Hf. destruct err; [|done]. by destruct Hf.
Qed.
Lemma notify_spec ctx answers s names : NoDup names → ∀ m, ready s names m → notified s names m (fold_left (λ m name, notify_one ctx answers s name m) names m).
Proof.
  induction 1 as [|name names Hnin Hnd IH]; intros m Hval; [split_and!; try done; [by left|intros k sp Hk; by apply elem_of_nil in Hk]|].
  cbn [fold_left]. destruct (notify_one_spec ctx answers s name m) as ((O1 & O2 & O3 & O4 & O5) & C1 & S1 & U1 & V1 & W1 & X1); [intros k sp ->%list_elem_of_singleton; apply Hval; by left|].
  set (m1 := notify_one ctx answers s name m) in *. specialize (IH m1). assert (Hready : ready s names m1). { intros k sp Hk Hs Hp. rewrite V1. apply Hval; [by right|congruence|congruence]. }
  specialize (IH Hready). set (m' := fold_left _ names m1) in *. destruct IH as (O' & C2 & S2 & U2 & V2 & W2 & X2). split_and!.
  - by apply (same_options_trans m m1).
  - congruence.
  - congruence.
  - intros k [Hk Hk']%not_elem_of_cons. destruct (U2 k Hk') as [-> ->]. apply U1. by rewrite list_elem_of_singleton.
  - intros k. by rewrite V2, V1.
  - intros k. destruct (W2 k) as [Hw|(v & Hw & Hv)]; [rewrite Hw; apply W1|right; exists v; split; [done|]; by rewrite <- V1].
  - intros k sp [->|Hk]%elem_of_cons Hs Hp; [|apply X2; congruence]. destruct (U2 name Hnin) as [Hc Hst]. destruct (X1 name sp) as (st & H1 & H2 & H3); [by left|done|done|]. exists st. rewrite Hst. split; [done|]. split; [done|].
    intros Hf. destruct (H3 Hf) as (v & Hv1 & Hv2). exists v. by rewrite Hc.
Qed.
(** A manager whose caches may have changed, and nothing else. *)
Lemma manager_ok_caches m m' s : manager_ok m → same_options m m' → mg_current m' = mg_current m → mg_subscribers m' = mg_subscribers m → mg_statuses m' = mg_statuses m →
  (∀ name, cp_current (component_of m' name) = cp_current (component_of m name)) →
  (∀ name spec r v, mg_specs m !! name = Some spec → cp_validated (component_of m' name) = Some (r, v) → cp_validated (component_of m name) = Some (r, v) ∨ r = sn_revision s ∧ decode spec s = Ok v) → manager_ok m'.
Proof.
  intros [Ha Hb Ht Hv] (O1 & O2 & O3 & O4 & O5) Hc Hs Hst Hcur Hval. constructor.
  - intros t Hcu. rewrite Hc in Hcu. destruct (Ha t Hcu) as (A1 & A2 & A3). unfold acceptable. by rewrite O1, O2, O3, O4, O5.
  - intros name Hn. rewrite Hs in Hn. rewrite O2, O3. by apply Hb.
  - intros name spec t Hn Hsp Hcu. rewrite Hs in Hn. rewrite O3 in Hsp. rewrite Hc in Hcu. rewrite Hst. destruct (Ht name spec t Hn Hsp Hcu) as (st & H1 & H2 & H3). exists st. split; [done|]. split; [done|].
    intros (v & Hx & Hd)%H3. exists v. by rewrite Hcur.
  - intros name spec r v Hsp. rewrite O3 in Hsp. rewrite Hcur. intros [Hx|Hx]; [by apply (Hv name spec); [|left]|]. destruct (Hval name spec r v Hsp Hx) as [Hy|[-> Hd]]; [by apply (Hv name spec); [|right]|by exists s].
Qed.
Lemma sorted_names_nodup (A : gmap string subscriber) : NoDup (sort_strings (map_to_list A).*1).
Proof. unfold sort_strings. rewrite (merge_sort_Permutation String.le). apply NoDup_fst_map_to_list. Qed.
(** What a publication leaves behind. *)
Definition after_publish m (candidate : Snapshot) (p : published) m' : Prop :=
  same_options m m' ∧ manager_ok m' ∧ (p = PPublished → mg_current m' = Some candidate) ∧
  (p ≠ PPublished → mg_current m' = mg_current m ∧ mg_statuses m' = mg_statuses m ∧ ∀ name, cp_current (component_of m' name) = cp_current (component_of m name)).
(** The subscribers are told of a candidate that every binding has validated. *)
Lemma notified_ok m m' candidate names : manager_ok m → acceptable m candidate → (∀ name, is_Some (mg_subscribers m !! name) → name ∈ names) →
  notified candidate names (set_current m (Some candidate)) m' → manager_ok m' ∧ mg_current m' = Some candidate.
Proof.
  intros Hok Hacc Hall ((O1 & O2 & O3 & O4 & O5) & C & S & U & V & W & X). split; [|done]. change (component_of (set_current m (Some candidate))) with (component_of m) in *. cbn in O1, O2, O3, O4, O5, C, S. constructor.
  - intros t Hc. rewrite C in Hc. injection Hc as <-. unfold acceptable. rewrite O1, O2, O3, O4, O5. done.
  - intros name. rewrite S, O2, O3. apply Hok.
  - intros name spec t. rewrite S, O3, C. intros Hn Hsp [= <-]. apply X; [apply Hall; by rewrite Hn|done|done].
  - intros name spec r v. rewrite O3. intros Hsp [Hx|Hx].
    + destruct (W name) as [Hw|(w & Hw & Hv)]; [rewrite Hw in Hx; by apply (mo_values _ Hok name spec); [|left]|]. rewrite Hw in Hx. injection Hx as <- <-. by apply (mo_values _ Hok name spec); [|right].
    + rewrite V in Hx. by apply (mo_values _ Hok name spec); [|right].
Qed.
Lemma publication_ok ctx answers candidate m : manager_ok m → let '(p, m') := publish ctx answers candidate m in after_publish m candidate p m'.
Proof.
  intros Hok. unfold publish.
  assert (Hstay : ∀ p m', m' = m ∨ m' = recordRejected m → p ≠ PPublished → after_publish m candidate p m').
  { intros p m' [->| ->] Hp; (split; [done|]); (split; [|done]); [done|]. by apply (manager_ok_caches m _ candidate); [..|left]. }
  set (go := if match mg_unknown m with UnknownReject => _ | UnknownAllow => false end then _ else _).
  assert (Hgo : let '(p, m') := go in after_publish m candidate p m').
  { subst go. destruct (match mg_unknown m with UnknownReject => _ | UnknownAllow => false end) eqn:Hu; [apply Hstay; [by right|done]|]. destruct (forallb _ (mg_validators m)) eqn:Hf; cbn [negb]; [|apply Hstay; [by right|done]].
    pose proof (validate_bindings_spec candidate (mg_bindings m) m) as Hvb. destruct (validate_bindings (mg_bindings m) candidate m) as [ok m1]. destruct Hvb as (O1 & C1 & S1 & T1 & W1 & _ & V1 & X1).
    assert (Hok1 : manager_ok m1) by (by apply (manager_ok_caches m _ candidate)). destruct ok; cbn [negb]; [|split; [done|]; split; [by apply (manager_ok_caches m1 _ candidate); [..|left]|done]].
    specialize (X1 eq_refl). pose proof O1 as (P1 & P2 & P3 & P4 & P5).
    assert (Hacc : acceptable m1 candidate).
    { unfold acceptable. rewrite P1, P2, P3, P4, P5. split; [intros Hr; rewrite Hr in Hu; by apply negb_false_iff in Hu|]. split; [done|]. intros name spec Hn Hsp. destruct (X1 name spec Hn Hsp) as (v & -> & _). done. }
    unfold notifySubscribers. set (names := sort_strings _). set (m' := fold_left _ names _).
    destruct (notified_ok m1 m' candidate names Hok1 Hacc) as [Hok' Hc'].
    - intros name [x Hx]. subst names. unfold sort_strings. rewrite (merge_sort_Permutation String.le). apply list_elem_of_fmap. exists (name, x). split; [done|]. by apply elem_of_map_to_list.
    - apply notify_spec; [apply sorted_names_nodup|]. intros name spec _ Hs Hsp. cbn in Hs, Hsp. destruct (mo_bound _ Hok1 name Hs) as [Hb _]. rewrite P2 in Hb. rewrite P3 in Hsp. by apply X1.
    - assert (Hsame : same_options (set_current m1 (Some candidate)) m').
      { apply (notify_spec ctx answers candidate names); [apply sorted_names_nodup|]. intros name spec _ Hs Hsp. cbn in Hs, Hsp. destruct (mo_bound _ Hok1 name Hs) as [Hb _]. rewrite P2 in Hb. rewrite P3 in Hsp. by apply X1. }
      split; [by apply (same_options_trans m m1)|]. done. }
  destruct (mg_current m) as [current|]; [|done]. destruct (_ == _); [apply Hstay; [by left|done]|done].
Qed.
(** Any sequence of calls; the watching goroutine keeps the snapshots of its sources. *)
Inductive mop :=
| MLoad (ctx : context cerror) (answers : Answers (T := T)) (loads : list (option Snapshot))
| MWatch (ctx : context cerror) (answers : Answers (T := T)) (loads : list (option Snapshot))
| MEvent (ctx : context cerror) (answers : Answers (T := T)) (index : nat) (s : Snapshot)
| MSubscribe (name : string) | MUnsubscribe (name : string) | MEnd.
Definition mstep (w : Manager T * list Snapshot) (o : mop) : Manager T * list Snapshot :=
  let '(m, sources) := w in
  match o with
  | MLoad ctx answers loads => ((Load ctx answers loads m).2, sources)
  | MWatch ctx answers loads =>
      let '(first, m) := beginWatch m in
      if first then match watch_start ctx answers loads m with (Some sources, m) => (m, sources) | (None, m) => (endWatch m, []) end else (m, sources)
  | MEvent ctx answers index s => let '(sources, m) := watch_event ctx answers index s sources m in (m, sources)
  | MSubscribe name => ((Subscribe name m).2, sources)
  | MUnsubscribe name => (Unsubscribe name m, sources)
  | MEnd => (endWatch m, [])
  end.
Definition msteps (w : Manager T * list Snapshot) (l : list mop) : Manager T * list Snapshot := fold_left mstep l w.
Lemma new_manager_ok n validators bindings unknown known m : New n validators bindings unknown known = Some m → manager_ok m.
Proof.
  unfold New. destruct (_ =? _); [done|]. destruct (match unknown with UnknownReject => _ | UnknownAllow => false end); [done|]. destruct (buildSchema known) as [schema|]; [|done]. cbn [mbind option_bind].
  set (names := (λ b, TrimSpace b.1) <$> bindings). destruct (_ || _); [done|]. intros [= <-].
  assert (Hnew : ∀ m : Manager T, mg_components m = list_to_map ((λ name, (name, NewComponent)) <$> names) → ∀ k, component_of m k = NewComponent).
  { intros m Hm k. unfold component_of. rewrite Hm. destruct (list_to_map _ !! k) as [c|] eqn:Hk; [|done]. apply elem_of_list_to_map_2, list_elem_of_fmap in Hk as (x & [= -> ->] & _). done. }
  constructor; [done| |done|].
  - intros name Hn. cbn [mg_subscribers] in Hn. apply elem_of_list_to_map_2, list_elem_of_fmap in Hn as (x & [= <- ] & Hx). split; [done|]. cbn [mg_specs mg_bindings]. apply list_elem_of_lookup in Hx as [i Hi].
    destruct (list_to_map (zip names bindings.*2) !! name) eqn:Hz; [done|]. exfalso. apply not_elem_of_list_to_map_2 in Hz. apply Hz. rewrite fst_zip by (subst names; rewrite !length_fmap; lia). by apply list_elem_of_lookup_2 in Hi.
  - intros name spec r v _. rewrite Hnew by done. by intros [|].
Qed.
Lemma load_ok ctx answers loads m : manager_ok m → manager_ok (Load ctx answers loads m).2.
Proof.
  intros Hok. unfold Load. destruct (loadSources ctx loads) as [l|]; [|done]. destruct (Merge l) as [c|]; [|by apply (manager_ok_caches m _ (mkSnapshot "" ∅)); [..|left]].
  pose proof (publication_ok ctx answers c m Hok) as Hp. destruct (publish ctx answers c m) as [p m']. apply Hp.
Qed.
Lemma mstep_ok w o : manager_ok w.1 → manager_ok (mstep w o).1.
Proof.
  destruct w as [m sources]. intros Hok. cbn in Hok.
  assert (Hset : ∀ m1 m2 : Manager T, manager_ok m1 → same_options m1 m2 → mg_current m2 = mg_current m1 → mg_subscribers m2 = mg_subscribers m1 → mg_statuses m2 = mg_statuses m1 → mg_components m2 = mg_components m1 → manager_ok m2).
  { intros m1 m2 H1 H2 H3 H4 H5 H6. apply (manager_ok_caches m1 _ (mkSnapshot "" ∅)); try done; unfold component_of; rewrite H6; [done|by left]. }
  destruct o as [ctx answers loads|ctx answers loads|ctx answers index s|name|name|]; cbn [mstep].
  - by apply load_ok.
  - unfold beginWatch. destruct (mg_watching m); [done|]. assert (Hw : manager_ok (set_watching m true)) by (by apply (Hset m)). unfold watch_start. destruct (loadSources ctx loads) as [l|]; [|by apply (Hset (set_watching m true))].
    destruct (Merge l) as [c|]; [|by apply (Hset (set_watching m true))]. pose proof (publication_ok ctx answers c _ Hw) as Hp. destruct (publish ctx answers c _) as [p m']. destruct Hp as (_ & Hp & _). destruct p; [done|done|by apply (Hset m')].
  - unfold watch_event. destruct (Merge _) as [c|]; [|by apply (Hset m)]. pose proof (publication_ok ctx answers c m Hok) as Hp. destruct (publish ctx answers c m) as [p m']. apply Hp.
  - unfold Subscribe. destruct (_ == _); [done|]. destruct (mg_subscribers m !! TrimSpace name) eqn:Hn; [by rewrite bool_decide_eq_true_2 by eauto|]. rewrite bool_decide_eq_false_2 by (intros [? ?]; congruence). cbn [fst snd]. destruct Hok as [Ha Hb Ht Hv]. constructor; [done|..|done].
    + intros k Hk. cbn [set_subscribers mg_subscribers] in Hk. apply lookup_insert_Some in Hk as [[_ ?]|[_ Hk]]; [done|]. by apply Hb.
    + intros k spec t Hk. cbn [set_subscribers mg_subscribers] in Hk. apply lookup_insert_Some in Hk as [[_ ?]|[_ Hk]]; [done|]. by apply Ht.
  - destruct Hok as [Ha Hb Ht Hv]. constructor; [done|..|done].
    + intros k Hk. cbn [fst Unsubscribe set_statuses set_subscribers mg_subscribers] in Hk. apply lookup_delete_Some in Hk as [_ Hk]. by apply Hb.
    + intros k spec t Hk. cbn [fst Unsubscribe set_statuses set_subscribers mg_subscribers mg_statuses] in Hk |- *. apply lookup_delete_Some in Hk as [Hne Hk]. rewrite lookup_delete_ne by done. by apply Ht.
  - by apply (Hset m).
Qed.
End promise.

(** C19: The manager, for every sequence of loads, watch events of any source, subscriptions and failing
    callbacks: the published snapshot satisfies the known fields, every validator and every typed
    binding; each binding that is subscribed has a status for exactly this snapshot, and when it reports no
    failure the component serves what this snapshot decodes to, under its revision; every value
    a component serves was decoded and validated; and a candidate that is refused leaves the published
    snapshot, the statuses and all served values as they were. *)
Theorem published_configuration {T} n validators bindings unknown known (m0 : Manager T) ops (m := (msteps (m0, []) ops).1) : New n validators bindings unknown known = Some m0 →
  (∀ s, mg_current m = Some s → acceptable m s) ∧
  (∀ name spec s, mg_subscribers m !! name = Some SBinding → mg_specs m !! name = Some spec → mg_current m = Some s →
     ∃ st, mg_statuses m !! name = Some st ∧ ss_Revision st = sn_revision s ∧ (ss_Failed st = false → serves m s name spec)) ∧
  (∀ name spec v, mg_specs m !! name = Some spec → Current (component_of m name) = Some v → forallb (λ f, f v) (cs_validators spec) = true) ∧
  ∀ ctx answers candidate, let '(p, m') := publish ctx answers candidate m in
    match p with PPublished => mg_current m' = Some candidate | _ => mg_current m' = mg_current m ∧ mg_statuses m' = mg_statuses m ∧ ∀ name, Current (component_of m' name) = Current (component_of m name) end.
Proof.
  intros Hnew%new_manager_ok. assert (Hok : manager_ok m). { subst m. change m0 with (m0, [] : list Snapshot).1 in Hnew. revert Hnew. generalize (m0, [] : list Snapshot). induction ops as [|o ops IH]; intros w Hw; [done|]. by apply IH, mstep_ok. }
  split; [apply Hok|]. split; [apply Hok|]. split.
  - intros name spec v Hsp Hc. unfold Current in Hc. destruct (cp_current (component_of m name)) as [[r w]|] eqn:Hcur; [|done]. injection Hc as <-.
    destruct (mo_values _ Hok name spec r w Hsp (or_introl Hcur)) as (s & _ & Hd). assert (Hv : ∀ x, validated spec x = Ok w → forallb (λ f, f w) (cs_validators spec) = true) by (intros x; unfold validated; destruct (forallb _ _) eqn:Hf; [by intros [= <-]|done]).
    unfold decode in Hd. destruct (Lookup s (cs_segments spec)) as [source|]; [destruct (cs_decode spec source)|destruct (cs_default spec)]; try done; by apply Hv in Hd.
  - intros ctx answers candidate. pose proof (publication_ok ctx answers candidate m Hok) as Hp. destruct (publish ctx answers candidate m) as [p m']. destruct Hp as (_ & _ & H1 & H2).
    destruct p; [|by apply H1|]; (destruct H2 as (H3 & H4 & H5); [done|]; split; [done|]; split; [done|]; intros name; unfold Current; by rewrite H5).
Qed.

(** Two sources and one binding with the path [policy]; a later candidate that the binding refuses changes nothing. *)
Definition w_spec : Spec string := mkSpec ["policy"; "mode"] (Some "default") (λ v, match v with VScalar (SText s) => Some s | _ => None end) [λ s, s != "bad"] (λ _ _, []).
Definition w_source (revision mode : string) : Snapshot := mkSnapshot revision {["policy" := VMap {["mode" := VScalar (SText mode)]}]}.
Definition w_answers : Answers := mkAnswers (λ _, None) (λ _, None) (T := string).
Definition w_ops : list (mop (T := string)) :=
  [MWatch (Context None) w_answers [Some (w_source "a1" "slow"); Some (mkSnapshot "b1" ∅)]; MEvent (Context None) w_answers 1 (w_source "b2" "fast"); MEvent (Context None) w_answers 0 (w_source "a2" "bad");
   MEvent (Context None) w_answers 1 (w_source "b3" "bad")].
Definition w_manager : option (Manager string) := New 2 [] [("policy", w_spec)] UnknownAllow [].
Lemma published_configuration_witness : ∃ m0, w_manager = Some m0 ∧ let m := (msteps (m0, []) w_ops).1 in
  ∃ s st, mg_current m = Some s ∧ sn_revision s = "2:a2|2:b2" ∧ Current (component_of m "policy") = Some "fast" ∧ mg_statuses m !! "policy" = Some st ∧ ss_Revision st = sn_revision s.
Proof.
  destruct w_manager as [m0|] eqn:Hm; [|by vm_compute in Hm]. exists m0. split; [done|]. pose proof (published_configuration 2 [] [("policy", w_spec)] UnknownAllow [] m0 w_ops Hm) as (_ & H2 & _).
  assert (Hm0 : m0 = from_option id m0 w_manager) by (rewrite Hm; reflexivity). rewrite Hm0 in *. clear Hm0.
  set (m := (msteps (default m0 w_manager, []) w_ops).1) in *. assert (Hrev : sn_revision <$> mg_current m = Some "2:a2|2:b2") by (vm_compute; reflexivity).
  destruct (mg_current m) as [s|] eqn:Hs; [|discriminate Hrev]. injection Hrev as Hrev. destruct (H2 "policy" w_spec s) as (st & Hst & Hr & _); [vm_compute; reflexivity|vm_compute; reflexivity|reflexivity|].
  exists s, st. split; [exact Hs|]. split; [exact Hrev|]. split; [vm_compute; reflexivity|]. split; [exact Hst|exact Hr].
Defined.
Lemma merge_priority_witness : ∃ merged, Merge [w_source "a" "slow"; w_source "b" "fast"] = Some merged ∧ leaf (Some (VMap (sn_values merged))) ["policy"; "mode"] = Some (VScalar (SText "fast")).
Proof.
  destruct (Merge [w_source "a" "slow"; w_source "b" "fast"]) as [merged|] eqn:Hm; [|by vm_compute in Hm]. exists merged. split; [done|].
  destruct (merge_priority _ merged ["policy"; "mode"] Hm) as [-> _]. vm_compute. reflexivity.
Defined.

(** Two sources that have to change together: each new snapshot alone is refused and forgotten, and the pair is
    never published although it is acceptable. *)
Definition w_pair : Snapshot → bool := λ s, match Lookup s ["a"], Lookup s ["b"] with Some (VScalar (SText x)), Some (VScalar (SText y)) => x == y | _, _ => false end.
Definition w_one (revision name mode : string) : Snapshot := mkSnapshot revision {[name := VScalar (SText mode)]}.
Theorem joint_update_forgotten : let events := [MWatch (Context None) w_answers [Some (w_one "a1" "a" "x"); Some (w_one "b1" "b" "x")]; MEvent (Context None) w_answers 0 (w_one "a2" "a" "y"); MEvent (Context None) w_answers 1 (w_one "b2" "b" "y")] in
  match New 2 [w_pair] [] UnknownAllow [] with
  | None => False
  | Some m0 => sn_revision <$> mg_current (msteps (m0, []) events).1 = Some "2:a1|2:b1" ∧ w_pair <$> Merge [w_one "a2" "a" "y"; w_one "b2" "b" "y"] = Some true
  end.
Proof. vm_compute. split; reflexivity. Qed.
