(* ===== verification/Policy.v ===== *)
(** * governance/policy, operation: method policies and their publication

    Models [governance/policy/policy.go], [store.go], [context.go], [config.go] and
    [operation/matcher.go]: policies, patches, definitions and their compilation, the store, the
    policy recorded in a context, definitions made from typed configuration, and matchers.  A matcher is
    a function that may panic ([None]); [regexp.Compile] is a parameter.  Every error of compilation
    is [ErrInvalidDefinition], so a failure is [None].  The configuration binding is over the typed
    component of file [Config]. *)
From S2P Require Import Prelude GoText GoFloat Access Idempotency Breaker Bulkhead Retry Hedging RateLimit Pools LoadShed Config.
Open Scope Z_scope.

(** ** Policies *)
Record StreamPolicy := mkStreamPolicy {
  sp_Enabled : bool; sp_MaxSendMessages : Z; sp_MaxReceiveMessages : Z; sp_MessagesPerSecond : spec_float; sp_Burst : Z; sp_MaxConcurrency : Z
}.
Record Policy := mkPolicy {
  po_Timeout : duration; po_Retry : Retry.RetryPolicy; po_Hedging : Hedging.HedgingPolicy; po_Breaker : Breaker.BreakerPolicy; po_Bulkhead : Bulkhead.BulkheadPolicy;
  po_RateLimit : RateLimit.RateLimitPolicy; po_LoadShedding : LoadShed.LoadSheddingPolicy; po_Stream : StreamPolicy
}.
Definition minRetryAttempts : Z := 2.
Definition maxRetryAttempts : Z := 10.
Definition minHedgeAttempts : Z := 2.
Definition maxHedgeAttempts : Z := 5.
Definition f0 : spec_float := float64 0.
Definition f1 : spec_float := float64 1.
Definition Default : Policy :=
  mkPolicy (3 * second) (Retry.mkRetryPolicy false false 3 (10 * millisecond) second (div64 (float64 1) (float64 10))) (Hedging.mkHedgingPolicy false false 2 (50 * millisecond))
    (Breaker.mkPolicy false (div64 (float64 1) (float64 2)) (30 * second) 20 (10 * second) 2) (Bulkhead.mkPolicy false 100 0 0)
    (RateLimit.mkRatePolicy false f0 0 0) (LoadShed.mkShedPolicy false 0 f0) (mkStreamPolicy false 0 0 f0 0 0).
Definition invalidRatio (value : spec_float) : bool := not_finite value || SFltb value f0.
Definition validateRetry (v : Retry.RetryPolicy) : bool :=
  negb ((Retry.rt_MaxAttempts v <? 0) || (Retry.rt_BackoffMin v <? 0) || (Retry.rt_BackoffMax v <? 0) || invalidRatio (Retry.rt_BudgetRatio v)) &&
  (negb (Retry.rt_Enabled v) ||
   Retry.rt_Idempotent v &&
   negb ((Retry.rt_MaxAttempts v <? minRetryAttempts) || (maxRetryAttempts <? Retry.rt_MaxAttempts v)) &&
   negb ((Retry.rt_BackoffMin v <=? 0) || (Retry.rt_BackoffMax v <? Retry.rt_BackoffMin v)) &&
   negb (SFleb (Retry.rt_BudgetRatio v) f0 || SFltb f1 (Retry.rt_BudgetRatio v))).
Definition validateHedging (v : Hedging.HedgingPolicy) : bool :=
  negb ((Hedging.hg_MaxAttempts v <? 0) || (Hedging.hg_Delay v <? 0)) &&
  (negb (Hedging.hg_Enabled v) ||
   Hedging.hg_Idempotent v && negb ((Hedging.hg_MaxAttempts v <? minHedgeAttempts) || (maxHedgeAttempts <? Hedging.hg_MaxAttempts v)) &&
   negb (Hedging.hg_Delay v <=? 0)).
Definition validateBreaker (v : Breaker.BreakerPolicy) : bool :=
  negb (invalidRatio (Breaker.p_FailureRatio v) || (Breaker.p_Window v <? 0) || (Breaker.p_MinRequests v <? 0) || (Breaker.p_OpenTimeout v <? 0) || (Breaker.p_HalfOpenProbes v <? 0)) &&
  (negb (Breaker.p_Enabled v) ||
   negb (SFleb (Breaker.p_FailureRatio v) f0 || SFltb f1 (Breaker.p_FailureRatio v)) &&
   negb ((Breaker.p_Window v <=? 0) || (Breaker.p_MinRequests v <=? 0) || (Breaker.p_OpenTimeout v <=? 0) || (Breaker.p_HalfOpenProbes v <=? 0))).
Definition validateBulkhead (v : Bulkhead.BulkheadPolicy) : bool :=
  negb ((Bulkhead.p_MaxConcurrency v <? 0) || (Bulkhead.p_MaxQueue v <? 0) || (Bulkhead.p_QueueTimeout v <? 0)) &&
  (negb (Bulkhead.p_Enabled v) ||
   negb (Bulkhead.p_MaxConcurrency v <=? 0) && negb ((0 <? Bulkhead.p_MaxQueue v) && (Bulkhead.p_QueueTimeout v <=? 0)) &&
   negb ((Bulkhead.p_MaxQueue v =? 0) && (0 <? Bulkhead.p_QueueTimeout v))).
Definition validateRateLimit (v : RateLimit.RateLimitPolicy) : bool :=
  negb (not_finite (RateLimit.rl_RequestsPerSecond v) || SFltb (RateLimit.rl_RequestsPerSecond v) f0 || (RateLimit.rl_Burst v <? 0) || (RateLimit.rl_MaxConcurrency v <? 0)) &&
  (negb (RateLimit.rl_Enabled v) ||
   let hasRate := SFltb f0 (RateLimit.rl_RequestsPerSecond v) || (0 <? RateLimit.rl_Burst v) in
   negb (hasRate && (SFleb (RateLimit.rl_RequestsPerSecond v) f0 || (RateLimit.rl_Burst v <=? 0))) && negb (negb hasRate && (RateLimit.rl_MaxConcurrency v <=? 0))).
Definition validateLoadShedding (v : LoadShed.LoadSheddingPolicy) : bool :=
  negb ((LoadShed.lp_MaxConcurrency v <? 0) || not_finite (LoadShed.lp_CPUThreshold v) || SFltb (LoadShed.lp_CPUThreshold v) f0 || SFltb f1 (LoadShed.lp_CPUThreshold v)) &&
  negb (LoadShed.lp_Enabled v && (LoadShed.lp_MaxConcurrency v <=? 0) && SFleb (LoadShed.lp_CPUThreshold v) f0).
Definition ValidateStream (v : StreamPolicy) : bool :=
  negb ((sp_MaxSendMessages v <? 0) || (sp_MaxReceiveMessages v <? 0) || not_finite (sp_MessagesPerSecond v) || SFltb (sp_MessagesPerSecond v) f0 || (sp_Burst v <? 0) ||
        (sp_MaxConcurrency v <? 0)) &&
  (negb (sp_Enabled v) ||
   let hasRate := SFltb f0 (sp_MessagesPerSecond v) || (0 <? sp_Burst v) in
   negb (hasRate && (SFleb (sp_MessagesPerSecond v) f0 || (sp_Burst v <=? 0))) &&
   negb ((sp_MaxSendMessages v <=? 0) && (sp_MaxReceiveMessages v <=? 0) && negb hasRate && (sp_MaxConcurrency v <=? 0))).
Definition Validate (v : Policy) : bool :=
  negb (po_Timeout v <=? 0) && validateRetry (po_Retry v) && validateHedging (po_Hedging v) && negb (Retry.rt_Enabled (po_Retry v) && Hedging.hg_Enabled (po_Hedging v)) &&
  validateBreaker (po_Breaker v) && validateBulkhead (po_Bulkhead v) && validateRateLimit (po_RateLimit v) && validateLoadShedding (po_LoadShedding v) && ValidateStream (po_Stream v).

(** ** Patches *)
Record Patch := mkPatch {
  pt_Timeout : option duration; pt_Retry : option Retry.RetryPolicy; pt_Hedging : option Hedging.HedgingPolicy; pt_Breaker : option Breaker.BreakerPolicy;
  pt_Bulkhead : option Bulkhead.BulkheadPolicy; pt_RateLimit : option RateLimit.RateLimitPolicy; pt_LoadShedding : option LoadShed.LoadSheddingPolicy; pt_Stream : option StreamPolicy
}.
Definition apply (p : Patch) (base : Policy) : Policy :=
  mkPolicy (default (po_Timeout base) (pt_Timeout p)) (default (po_Retry base) (pt_Retry p)) (default (po_Hedging base) (pt_Hedging p)) (default (po_Breaker base) (pt_Breaker p))
    (default (po_Bulkhead base) (pt_Bulkhead p)) (default (po_RateLimit base) (pt_RateLimit p)) (default (po_LoadShedding base) (pt_LoadShedding p)) (default (po_Stream base) (pt_Stream p)).

(** ** Definitions and snapshots *)
Definition Matcher := operation.Operation → option bool.
Definition safeMatch (m : Matcher) (target : operation.Operation) : bool := default false (m target).
Record ServiceRule := mkServiceRule { sr_Service : string; sr_Patch : Patch }.
Record MethodRule := mkMethodRule { mr_Operation : operation.Operation; mr_Patch : Patch }.
(** A nil matcher is [None]. *)
Record MatchRule := mkMatchRule { ma_Name : string; ma_Matcher : option Matcher; ma_Patch : Patch; ma_servicePatches : gmap string Patch }.
Record Definition_ := mkDefinition { df_Revision : string; df_Global : Policy; df_Services : list ServiceRule; df_Matchers : list MatchRule; df_Methods : list MethodRule }.
Record compiledMatchRule := mkCompiled { cm_name : string; cm_matcher : Matcher; cm_patch : Patch; cm_services : gmap string Patch }.
Record Snapshot := mkSnapshot { sn_revision : string; sn_global : Policy; sn_services : gmap string Policy; sn_matchers : list compiledMatchRule; sn_methods : gmap string Policy }.
Definition base_of (global : Policy) (services : gmap string Policy) (service : string) : Policy := default global (services !! service).
(** [Snapshot.Resolve]: method, else the first matcher, else service, else global. *)
Definition Resolve (s : Snapshot) (target : operation.Operation) : Policy :=
  match sn_methods s !! PolicyKey target with
  | Some value => value
  | None =>
      let service := operation.o_service target in
      let base := base_of (sn_global s) (sn_services s) service in
      match List.find (λ rule, safeMatch (cm_matcher rule) target) (sn_matchers s) with
      | Some rule => apply (default (cm_patch rule) (cm_services rule !! service)) base
      | None => base
      end
  end.
Definition validIdentity (value : string) : bool := (value != "") && (TrimSpace value == value) && negb (has_control value).
Definition validOperation (o : operation.Operation) : bool :=
  (operation.o_transport o != "") && validIdentity (operation.o_service o) && validIdentity (operation.o_method o) && (Kind_string (operation.o_kind o) != "").
Fixpoint compile_services (global : Policy) (rules : list ServiceRule) (services : gmap string Policy) : option (gmap string Policy) :=
  match rules with
  | [] => Some services
  | rule :: rules =>
      if negb (validIdentity (sr_Service rule)) then None
      else if bool_decide (is_Some (services !! sr_Service rule)) then None
      else
        let resolved := apply (sr_Patch rule) global in
        if negb (Validate resolved) then None else compile_services global rules (<[sr_Service rule := resolved]> services)
  end.
Definition validateMatchPatch (patch : Patch) (servicePatches : gmap string Patch) (global : Policy) (services : gmap string Policy) : bool :=
  Validate (apply patch global) && map_forallb (λ service base, Validate (apply (default patch (servicePatches !! service)) base)) services.
Fixpoint compile_matchers (global : Policy) (services : gmap string Policy) (rules : list MatchRule) (names : gset string) : option (list compiledMatchRule) :=
  match rules with
  | [] => Some []
  | rule :: rules =>
      if negb (validIdentity (ma_Name rule)) then None
      else if bool_decide (ma_Name rule ∈ names) then None
      else match ma_Matcher rule with
      | None => None
      | Some matcher =>
          if negb (validateMatchPatch (ma_Patch rule) (ma_servicePatches rule) global services) then None
          else
            compiled ← compile_matchers global services rules ({[ma_Name rule]} ∪ names);
            Some (mkCompiled (ma_Name rule) matcher (ma_Patch rule) (ma_servicePatches rule) :: compiled)
      end
  end.
Fixpoint compile_methods (global : Policy) (services : gmap string Policy) (rules : list MethodRule) (methods : gmap string Policy) : option (gmap string Policy) :=
  match rules with
  | [] => Some methods
  | rule :: rules =>
      if negb (validOperation (mr_Operation rule)) then None
      else
        let key := PolicyKey (mr_Operation rule) in
        if bool_decide (is_Some (methods !! key)) then None
        else
          let resolved := apply (mr_Patch rule) (base_of global services (operation.o_service (mr_Operation rule))) in
          if negb (Validate resolved) then None else compile_methods global services rules (<[key := resolved]> methods)
  end.
Definition compile (d : Definition_) : option Snapshot :=
  if negb (validIdentity (df_Revision d)) then None
  else if negb (Validate (df_Global d)) then None
  else
    services ← compile_services (df_Global d) (df_Services d) ∅;
    matchers ← compile_matchers (df_Global d) services (df_Matchers d) ∅;
    methods ← compile_methods (df_Global d) services (df_Methods d) ∅;
    Some (mkSnapshot (df_Revision d) (df_Global d) services matchers methods).

(** ** The store *)
Record Store := mkStore { st_current : Snapshot }.
Definition NewStore (d : Definition_) : option Store := snapshot ← compile d; Some (mkStore snapshot).
(** [Update]: whether the definition was published, or [None] for an error. *)
Definition Update (d : Definition_) (s : Store) : option bool * Store :=
  if sn_revision (st_current s) == df_Revision d then (Some false, s)
  else match compile d with None => (None, s) | Some next => (Some true, mkStore next) end.
Definition store_Resolve (s : Store) (target : operation.Operation) : Policy := Resolve (st_current s) target.
Record Description := mkDescription { ds_Revision : string; ds_ServiceRules : Z; ds_MatcherRules : Z; ds_MethodRules : Z }.
Definition Describe (s : Store) : Description :=
  mkDescription (sn_revision (st_current s)) (Z.of_nat (size (sn_services (st_current s)))) (zlen (sn_matchers (st_current s))) (Z.of_nat (size (sn_methods (st_current s)))).
(** ** The policy of an invocation *)
Definition resolvedContext := option (string * Policy).
Definition WithResolved (target : operation.Operation) (value : Policy) : resolvedContext := Some (PolicyKey target, value).
Definition FromContext (ctx : resolvedContext) (target : operation.Operation) : option Policy :=
  match ctx with Some (key, value) => if key == PolicyKey target then Some value else None | None => None end.
Definition Resolve_in (ctx : resolvedContext) (resolver : operation.Operation → Policy) (target : operation.Operation) : Policy := default (resolver target) (FromContext ctx target).

(** ** Matchers of operations *)
Class RegexpLib := { regexp_Compile : string → option (string → bool) }.
Inductive MatchMode := MatchExact | MatchPrefix | MatchRegexp | MatchOther (raw : string).
Record MatchPattern := mkPattern { mp_Mode : MatchMode; mp_Transport : string; mp_Service : string; mp_Method : string; mp_Kind : operation.Kind }.
Definition maxMatcherExpressionBytes : Z := 512.
Definition validateMatcherExpression (value : string) : bool :=
  (value == "") || negb ((maxMatcherExpressionBytes <? slen value) || negb (TrimSpace value == value) || negb (operation.validComponent value)).
Definition no_kind (k : operation.Kind) : bool := Kind_string k == "".
Definition matchExact (expression value : string) : bool := (expression == "") || (expression == value).
Definition matchPrefix (expression value : string) : bool := (expression == "") || String.prefix expression value.
Definition matchRegexp (expression : option (string → bool)) (value : string) : bool := match expression with None => true | Some re => re value end.
Section matchers.
Context `{RegexpLib}.
(** The regular expression of a field, nil when the field is empty; [None] is an error of [regexp.Compile]. *)
Definition field_regexp (expression : string) : option (option (string → bool)) := if expression == "" then Some None else Some <$> regexp_Compile expression.
Definition CompileMatcher (p : MatchPattern) : option Matcher :=
  let mode := match mp_Mode p with MatchOther raw => if raw == "" then Some MatchExact else None | mode => Some mode end in
  mode ← mode;
  let lowered := operation.lower <$> range_runes (String.length (mp_Transport p)) (bytes_of (mp_Transport p)) in
  if (mp_Transport p != "") && (negb (bytes_of (mp_Transport p) == lowered) || negb (operation.validTransport lowered)) then None
  else if negb (no_kind (mp_Kind p)) && negb (operation.validKind (mp_Kind p)) then None
  else if (mp_Service p == "") && (mp_Method p == "") && (mp_Transport p == "") && no_kind (mp_Kind p) then None
  else if negb (validateMatcherExpression (mp_Service p)) then None
  else if negb (validateMatcherExpression (mp_Method p)) then None
  else
    let filters target (fields : bool) : option bool :=
      Some (((mp_Transport p == "") || (operation.o_transport target == mp_Transport p)) &&
            (no_kind (mp_Kind p) || (Kind_string (operation.o_kind target) == Kind_string (mp_Kind p))) && fields) in
    match mode with
    | MatchRegexp =>
        serviceRE ← field_regexp (mp_Service p); methodRE ← field_regexp (mp_Method p);
        Some (λ target, filters target (matchRegexp serviceRE (operation.o_service target) && matchRegexp methodRE (operation.o_method target)))
    | MatchPrefix => Some (λ target, filters target (matchPrefix (mp_Service p) (operation.o_service target) && matchPrefix (mp_Method p) (operation.o_method target)))
    | _ => Some (λ target, filters target (matchExact (mp_Service p) (operation.o_service target) && matchExact (mp_Method p) (operation.o_method target)))
    end.
End matchers.

(** ** Typed configuration

    A pointer field that is nil is [None]. *)
Record RetryConfig := mkRetryConfig { rg_Enabled : option bool; rg_Idempotent : option bool; rg_MaxAttempts : option Z; rg_BackoffMin : option duration; rg_BackoffMax : option duration; rg_BudgetRatio : option spec_float }.
Record HedgingConfig := mkHedgingConfig { hc_Enabled : option bool; hc_Idempotent : option bool; hc_MaxAttempts : option Z; hc_Delay : option duration }.
Record BreakerConfig := mkBreakerConfig { bc_Enabled : option bool; bc_FailureRatio : option spec_float; bc_Window : option duration; bc_MinRequests : option Z; bc_OpenTimeout : option duration; bc_HalfOpenProbes : option Z }.
Record BulkheadConfig := mkBulkheadConfig { kc_Enabled : option bool; kc_MaxConcurrency : option Z; kc_MaxQueue : option Z; kc_QueueTimeout : option duration }.
Record RateLimitConfig := mkRateConfig { rc_Enabled : option bool; rc_RequestsPerSecond : option spec_float; rc_Burst : option Z; rc_MaxConcurrency : option Z }.
Record LoadSheddingConfig := mkShedConfig { lc_Enabled : option bool; lc_MaxConcurrency : option Z; lc_CPUThreshold : option spec_float }.
Record StreamConfig := mkStreamConfig { sc_Enabled : option bool; sc_MaxSendMessages : option Z; sc_MaxReceiveMessages : option Z; sc_MessagesPerSecond : option spec_float; sc_Burst : option Z; sc_MaxConcurrency : option Z }.
Record Overrides := mkOverrides {
  ov_Timeout : option duration; ov_Retry : option RetryConfig; ov_Hedging : option HedgingConfig; ov_Breaker : option BreakerConfig; ov_Bulkhead : option BulkheadConfig;
  ov_RateLimit : option RateLimitConfig; ov_LoadShedding : option LoadSheddingConfig; ov_Stream : option StreamConfig
}.
Record ServiceConfig := mkServiceConfig { vc_Service : string; vc_Policy : Overrides }.
Record MethodConfig := mkMethodConfig { tc_Transport : string; tc_Service : string; tc_Method : string; tc_Kind : operation.Kind; tc_Policy : Overrides }.
Record MatcherConfig := mkMatcherConfig { gc_Name : string; gc_Pattern : MatchPattern; gc_Policy : Overrides }.
Record Config := mkConfig { cf_Global : Overrides; cf_Services : list ServiceConfig; cf_Matchers : list MatcherConfig; cf_Methods : list MethodConfig }.
Definition assign {A} (source : option A) (target : A) : A := default target source.
Definition applyRetryConfig (t : Retry.RetryPolicy) (v : RetryConfig) : Retry.RetryPolicy :=
  Retry.mkRetryPolicy (assign (rg_Enabled v) (Retry.rt_Enabled t)) (assign (rg_Idempotent v) (Retry.rt_Idempotent t)) (assign (rg_MaxAttempts v) (Retry.rt_MaxAttempts t))
    (assign (rg_BackoffMin v) (Retry.rt_BackoffMin t)) (assign (rg_BackoffMax v) (Retry.rt_BackoffMax t)) (assign (rg_BudgetRatio v) (Retry.rt_BudgetRatio t)).
Definition applyHedgingConfig (t : Hedging.HedgingPolicy) (v : HedgingConfig) : Hedging.HedgingPolicy :=
  Hedging.mkHedgingPolicy (assign (hc_Enabled v) (Hedging.hg_Enabled t)) (assign (hc_Idempotent v) (Hedging.hg_Idempotent t)) (assign (hc_MaxAttempts v) (Hedging.hg_MaxAttempts t)) (assign (hc_Delay v) (Hedging.hg_Delay t)).
Definition applyBreakerConfig (t : Breaker.BreakerPolicy) (v : BreakerConfig) : Breaker.BreakerPolicy :=
  Breaker.mkPolicy (assign (bc_Enabled v) (Breaker.p_Enabled t)) (assign (bc_FailureRatio v) (Breaker.p_FailureRatio t)) (assign (bc_Window v) (Breaker.p_Window t))
    (assign (bc_MinRequests v) (Breaker.p_MinRequests t)) (assign (bc_OpenTimeout v) (Breaker.p_OpenTimeout t)) (assign (bc_HalfOpenProbes v) (Breaker.p_HalfOpenProbes t)).
Definition applyBulkheadConfig (t : Bulkhead.BulkheadPolicy) (v : BulkheadConfig) : Bulkhead.BulkheadPolicy :=
  Bulkhead.mkPolicy (assign (kc_Enabled v) (Bulkhead.p_Enabled t)) (assign (kc_MaxConcurrency v) (Bulkhead.p_MaxConcurrency t)) (assign (kc_MaxQueue v) (Bulkhead.p_MaxQueue t)) (assign (kc_QueueTimeout v) (Bulkhead.p_QueueTimeout t)).
Definition applyRateLimitConfig (t : RateLimit.RateLimitPolicy) (v : RateLimitConfig) : RateLimit.RateLimitPolicy :=
  RateLimit.mkRatePolicy (assign (rc_Enabled v) (RateLimit.rl_Enabled t)) (assign (rc_RequestsPerSecond v) (RateLimit.rl_RequestsPerSecond t)) (assign (rc_Burst v) (RateLimit.rl_Burst t)) (assign (rc_MaxConcurrency v) (RateLimit.rl_MaxConcurrency t)).
Definition applyLoadSheddingConfig (t : LoadShed.LoadSheddingPolicy) (v : LoadSheddingConfig) : LoadShed.LoadSheddingPolicy :=
  LoadShed.mkShedPolicy (assign (lc_Enabled v) (LoadShed.lp_Enabled t)) (assign (lc_MaxConcurrency v) (LoadShed.lp_MaxConcurrency t)) (assign (lc_CPUThreshold v) (LoadShed.lp_CPUThreshold t)).
Definition applyStreamConfig (t : StreamPolicy) (v : StreamConfig) : StreamPolicy :=
  mkStreamPolicy (assign (sc_Enabled v) (sp_Enabled t)) (assign (sc_MaxSendMessages v) (sp_MaxSendMessages t)) (assign (sc_MaxReceiveMessages v) (sp_MaxReceiveMessages t))
    (assign (sc_MessagesPerSecond v) (sp_MessagesPerSecond t)) (assign (sc_Burst v) (sp_Burst t)) (assign (sc_MaxConcurrency v) (sp_MaxConcurrency t)).
Definition patch (v : Overrides) (base : Policy) : Patch :=
  mkPatch (ov_Timeout v) (applyRetryConfig (po_Retry base) <$> ov_Retry v) (applyHedgingConfig (po_Hedging base) <$> ov_Hedging v) (applyBreakerConfig (po_Breaker base) <$> ov_Breaker v)
    (applyBulkheadConfig (po_Bulkhead base) <$> ov_Bulkhead v) (applyRateLimitConfig (po_RateLimit base) <$> ov_RateLimit v)
    (applyLoadSheddingConfig (po_LoadShedding base) <$> ov_LoadShedding v) (applyStreamConfig (po_Stream base) <$> ov_Stream v).
Definition maxConfigServiceRules : Z := 1024.
Definition maxConfigMatcherRules : Z := 256.
Definition maxConfigMethodRules : Z := 16 * 1024.
Section definitions.
Context `{RegexpLib}.
Fixpoint config_matchers (global : Policy) (services : gmap string Policy) (rules : list MatcherConfig) : option (list MatchRule) :=
  match rules with
  | [] => Some []
  | rule :: rules =>
      matcher ← CompileMatcher (gc_Pattern rule);
      rest ← config_matchers global services rules;
      Some (mkMatchRule (gc_Name rule) (Some matcher) (patch (gc_Policy rule) global) (patch (gc_Policy rule) <$> services) :: rest)
  end.
Fixpoint config_methods (global : Policy) (services : gmap string Policy) (rules : list MethodConfig) : option (list MethodRule) :=
  match rules with
  | [] => Some []
  | rule :: rules =>
      target ← operation.New (tc_Transport rule) (tc_Service rule) (tc_Method rule) (tc_Kind rule);
      rest ← config_methods global services rules;
      Some (mkMethodRule target (patch (tc_Policy rule) (base_of global services (operation.o_service target))) :: rest)
  end.
Definition service_rules (global : Policy) (rules : list ServiceConfig) : list ServiceRule := (λ rule, mkServiceRule (vc_Service rule) (patch (vc_Policy rule) global)) <$> rules.
(** The map the loop over the services builds; a later rule of a service replaces an earlier one. *)
Definition service_policies (global : Policy) (rules : list ServiceRule) : gmap string Policy := fold_left (λ m rule, <[sr_Service rule := apply (sr_Patch rule) global]> m) rules ∅.
Definition definitionFromConfig (revision : string) (value : Config) : option Definition_ :=
  if (maxConfigServiceRules <? zlen (cf_Services value)) || (maxConfigMatcherRules <? zlen (cf_Matchers value)) || (maxConfigMethodRules <? zlen (cf_Methods value)) then None
  else
    let global := apply (patch (cf_Global value) Default) Default in
    let services := service_rules global (cf_Services value) in
    let servicePolicies := service_policies global services in
    matchers ← config_matchers global servicePolicies (cf_Matchers value);
    methods ← config_methods global servicePolicies (cf_Methods value);
    let definition := mkDefinition revision global services matchers methods in
    _ ← compile definition;
    Some definition.
End definitions.

(** ** Every policy that is resolved is valid *)

(** The service patches of a matcher are for services that have a rule.  Definitions written by callers have
    none, and [definitionFromConfig] makes one for each service. *)
Definition well_scoped (d : Definition_) : Prop :=
  Forall (λ r, ∀ service, is_Some (ma_servicePatches r !! service) → service ∈ sr_Service <$> df_Services d) (df_Matchers d).
Record snapshot_valid (s : Snapshot) : Prop := {
  sv_global : Validate (sn_global s) = true;
  sv_services : ∀ service base, sn_services s !! service = Some base → Validate base = true;
  sv_methods : ∀ key value, sn_methods s !! key = Some value → Validate value = true;
  sv_matchers : Forall (λ r, Validate (apply (cm_patch r) (sn_global s)) = true ∧
    (∀ service base, sn_services s !! service = Some base → Validate (apply (default (cm_patch r) (cm_services r !! service)) base) = true) ∧
    ∀ service, is_Some (cm_services r !! service) → is_Some (sn_services s !! service)) (sn_matchers s)
}.
Lemma compile_services_spec global rules services services' : compile_services global rules services = Some services' →
  (∀ service base, services !! service = Some base → Validate base = true) →
  (∀ service base, services' !! service = Some base → Validate base = true) ∧
  (∀ service, is_Some (services' !! service) ↔ is_Some (services !! service) ∨ service ∈ sr_Service <$> rules).
Proof.
  revert services. induction rules as [|rule rules IH]; intros services; cbn [compile_services]; [intros [= ->] Hv; split; [done|]; intros service; cbn; set_solver|].
  destruct (validIdentity _); [|done]. destruct (bool_decide _); [done|]. destruct (Validate (apply (sr_Patch rule) global)) eqn:Hr; [|done]. cbn [negb]. intros Hc Hv.
  destruct (IH _ Hc) as [H1 H2]; [intros service base [[_ <-]|[_ Hb]]%lookup_insert_Some; [done|by eapply Hv]|]. split; [done|]. intros service. rewrite H2, fmap_cons, elem_of_cons, lookup_insert_is_Some'. naive_solver.
Qed.
Lemma compile_matchers_spec global services rules names compiled : compile_matchers global services rules names = Some compiled →
  Forall2 (λ rule c, ma_Matcher rule = Some (cm_matcher c) ∧ cm_patch c = ma_Patch rule ∧ cm_services c = ma_servicePatches rule ∧
    validateMatchPatch (cm_patch c) (cm_services c) global services = true) rules compiled.
Proof.
  revert names compiled. induction rules as [|rule rules IH]; intros names compiled; cbn [compile_matchers]; [intros [= <-]; constructor|].
  destruct (validIdentity _); [|done]. destruct (bool_decide _); [done|]. destruct (ma_Matcher rule) as [matcher|] eqn:Hm; [|done].
  destruct (validateMatchPatch _ _ _ _) eqn:Hv; [|done]. cbn [negb]. destruct (compile_matchers _ _ rules _) as [rest|] eqn:Hr; [|done]. intros [= <-]. constructor; [done|by eapply IH].
Qed.
Lemma compile_methods_spec global services rules methods methods' : compile_methods global services rules methods = Some methods' →
  (∀ key value, methods !! key = Some value → Validate value = true) → ∀ key value, methods' !! key = Some value → Validate value = true.
Proof.
  revert methods. induction rules as [|rule rules IH]; intros methods; cbn [compile_methods]; [by intros [= ->]|].
  destruct (validOperation _); [|done]. destruct (bool_decide _); [done|]. destruct (Validate (apply (mr_Patch rule) _)) eqn:Hr; [|done]. cbn [negb]. intros Hc Hv.
  apply (IH _ Hc). intros key value [[_ <-]|[_ Hb]]%lookup_insert_Some; [done|by eapply Hv].
Qed.
Lemma compile_parts d s : compile d = Some s → ∃ services matchers methods, Validate (df_Global d) = true ∧
  compile_services (df_Global d) (df_Services d) ∅ = Some services ∧ compile_matchers (df_Global d) services (df_Matchers d) ∅ = Some matchers ∧
  compile_methods (df_Global d) services (df_Methods d) ∅ = Some methods ∧ s = mkSnapshot (df_Revision d) (df_Global d) services matchers methods.
Proof.
  unfold compile. destruct (validIdentity _); [|done]. destruct (Validate (df_Global d)) eqn:Hg; [|done]. cbn [negb]. destruct (compile_services _ _ _) as [services|]; [|done]. cbn [mbind option_bind].
  destruct (compile_matchers _ _ _ _) as [matchers|] eqn:Hm; [|done]. cbn [mbind option_bind]. destruct (compile_methods _ _ _ _) as [methods|] eqn:Hs; [|done]. intros [= <-]. by exists services, matchers, methods.
Qed.
Lemma compile_valid d s : compile d = Some s → well_scoped d → snapshot_valid s.
Proof.
  intros (services & matchers & methods & Hg & Hs & Hm & Ht & ->)%compile_parts Hw. destruct (compile_services_spec _ _ _ _ Hs) as [Hsv Hsd]; [intros k b Hb; by rewrite lookup_empty in Hb|].
  constructor; cbn [sn_global sn_services sn_methods sn_matchers]; [done|done|apply (compile_methods_spec _ _ _ _ _ Ht); intros k b Hb; by rewrite lookup_empty in Hb|].
  apply compile_matchers_spec in Hm. unfold well_scoped in Hw. clear Ht. induction Hm as [|rule c rules compiled (_ & Hp & Hx & Hv) Hm IH]; constructor.
  - apply Forall_cons in Hw as [Hw _]. unfold validateMatchPatch in Hv. apply andb_true_iff in Hv as [Hv1 Hv2]. split; [done|]. split; [intros service base Hb; exact (proj1 (map_forallb_spec _ _) Hv2 service base Hb)|].
    intros service Hi. apply Hsd. right. apply Hw. by rewrite <- Hx.
  - apply Forall_cons in Hw as [_ Hw]. by apply IH.
Qed.
Lemma resolve_valid s target : snapshot_valid s → Validate (Resolve s target) = true.
Proof.
  intros [Hg Hs Ht Hm]. unfold Resolve. destruct (sn_methods s !! PolicyKey target) as [value|] eqn:Hk; [by eapply Ht|]. set (service := operation.o_service target).
  assert (Hb : Validate (base_of (sn_global s) (sn_services s) service) = true) by (unfold base_of; destruct (sn_services s !! service) eqn:He; [by eapply Hs|done]).
  destruct (List.find _ (sn_matchers s)) as [rule|] eqn:Hf; [|done]. apply List.find_some in Hf as [Hin _]. apply list_elem_of_In in Hin. rewrite Forall_forall in Hm. destruct (Hm _ Hin) as (Hx & Hy & Hz).
  unfold base_of. destruct (sn_services s !! service) as [base|] eqn:He; cbn [default from_option id]; [by apply (Hy service base)|].
  destruct (cm_services rule !! service) eqn:Hc; [|done]. destruct (Hz service) as [b Hbb]; [by rewrite Hc|]. congruence.
Qed.

(** A valid policy is accepted by every component that it enables. *)
Definition accepted (v : Policy) : Prop :=
  (Retry.rt_Enabled (po_Retry v) = true → Retry.rt_Idempotent (po_Retry v) = true ∧ Retry.validate (po_Retry v) = true) ∧
  (Hedging.hg_Enabled (po_Hedging v) = true → Hedging.hg_Idempotent (po_Hedging v) = true ∧ Retry.rt_Enabled (po_Retry v) = false) ∧
  (Breaker.p_Enabled (po_Breaker v) = true → Breaker.validate (po_Breaker v) = None) ∧
  (Bulkhead.p_Enabled (po_Bulkhead v) = true → Bulkhead.validate (po_Bulkhead v) = None) ∧
  (RateLimit.rl_Enabled (po_RateLimit v) = true → RateLimit.validate (po_RateLimit v) = true) ∧
  (LoadShed.lp_Enabled (po_LoadShedding v) = true → LoadShed.validate (po_LoadShedding v) = true) ∧ ValidateStream (po_Stream v) = true ∧ 0 < po_Timeout v.
(** Cases on every comparison of the goal and the hypotheses. *)
Ltac comparisons :=
  repeat match goal with
  | |- context [?a <? ?b] => destruct (a <? b)
  | |- context [?a <=? ?b] => destruct (a <=? b)
  | |- context [?a =? ?b] => destruct (a =? b)
  | |- context [SFltb ?a ?b] => destruct (SFltb a b)
  | |- context [SFleb ?a ?b] => destruct (SFleb a b)
  | |- context [not_finite ?a] => destruct (not_finite a)
  end; cbn; try done.
Lemma retry_accepted v : validateRetry v = true → Retry.rt_Enabled v = true → Retry.rt_Idempotent v = true ∧ Retry.validate v = true.
Proof. intros Hv He. revert Hv. unfold validateRetry, Retry.validate, invalidRatio, minRetryAttempts, f0, f1. rewrite He. destruct (Retry.rt_Idempotent v); comparisons. Qed.
Lemma breaker_accepted v : validateBreaker v = true → Breaker.p_Enabled v = true → Breaker.validate v = None.
Proof. intros Hv He. revert Hv. unfold validateBreaker, Breaker.validate, invalidRatio, f0, f1. rewrite He. comparisons. Qed.
Lemma bulkhead_accepted v : validateBulkhead v = true → Bulkhead.p_Enabled v = true → Bulkhead.validate v = None.
Proof. intros Hv He. revert Hv. unfold validateBulkhead, Bulkhead.validate. rewrite He. comparisons. Qed.
Lemma rate_accepted v : validateRateLimit v = true → RateLimit.rl_Enabled v = true → RateLimit.validate v = true.
Proof.
  intros Hv He. revert Hv. unfold validateRateLimit, RateLimit.validate, f0, RateLimit.f0. rewrite He.
  assert (Hf : ∀ x, RateLimit.finite64 x = negb (not_finite x)) by (by intros []). rewrite Hf. comparisons.
Qed.
Lemma shedding_accepted v : validateLoadShedding v = true → LoadShed.lp_Enabled v = true → LoadShed.validate v = true.
Proof. intros Hv He. revert Hv. unfold validateLoadShedding, LoadShed.validate, f0, f1. rewrite He. comparisons. Qed.
Lemma valid_accepted v : Validate v = true → accepted v.
Proof.
  unfold Validate, accepted. intros Hv. repeat (apply andb_true_iff in Hv as [Hv ?]).
  split; [by apply retry_accepted|]. split; [|split; [by apply breaker_accepted|split; [by apply bulkhead_accepted|split; [by apply rate_accepted|split; [by apply shedding_accepted|]]]]].
  - intros He. rewrite He in *. split; [|by destruct (Retry.rt_Enabled (po_Retry v))]. match goal with H : validateHedging _ = true |- _ => revert H end. unfold validateHedging. rewrite He.
    destruct (Hedging.hg_Idempotent (po_Hedging v)); comparisons.
  - split; [done|]. apply negb_true_iff, Z.leb_gt in Hv. done.
Qed.

(** A store from its creation through any updates, failing ones included. *)
Definition updates (s : Store) (l : list Definition_) : Store := fold_left (λ s d, (Update d s).2) l s.
Lemma update_valid d s : well_scoped d → snapshot_valid (st_current s) → snapshot_valid (st_current (Update d s).2).
Proof. intros Hw Hs. unfold Update. destruct (_ == _); [done|]. destruct (compile d) eqn:Hc; [|done]. by apply (compile_valid d). Qed.

(** The definition in force: the last one that compiles and whose revision is new. *)
Definition in_force (d : Definition_) (l : list Definition_) : Definition_ :=
  fold_left (λ current d, if (df_Revision current == df_Revision d) || bool_decide (compile d = None) then current else d) l d.
Lemma updates_in_force l : ∀ d s, compile d = Some (st_current s) → compile (in_force d l) = Some (st_current (updates s l)).
Proof.
  induction l as [|x l IH]; intros d s Hc; [done|]. apply IH. unfold Update. pose proof Hc as (services & matchers & methods & _ & _ & _ & _ & Hs)%compile_parts.
  assert (Hrev : sn_revision (st_current s) = df_Revision d) by (by rewrite Hs). rewrite Hrev. destruct (df_Revision d == df_Revision x); [done|]. cbn [orb].
  destruct (compile x) as [next|] eqn:Hx; [by rewrite bool_decide_eq_false_2|by rewrite bool_decide_eq_true_2].
Qed.
Lemma updates_valid l : ∀ s, Forall well_scoped l → snapshot_valid (st_current s) → snapshot_valid (st_current (updates s l)).
Proof. induction l as [|x l IH]; intros s Hl Hs; [done|]. apply Forall_cons in Hl as [Hx Hl]. apply IH; [done|]. by apply update_valid. Qed.

(** C13: Policies are always valid, and one definition at a time: over any sequence of definitions, good and
    bad, and for every operation, known or not, the policy that the store resolves passes validation, so
    that every component it enables accepts it; the store serves the last definition that compiled
    with a new revision; and the policy recorded in a context is used for its own operation only. *)
Theorem resolved_policies_valid d s l target (s' := updates s l) : NewStore d = Some s → Forall well_scoped (d :: l) →
  Validate (store_Resolve s' target) = true ∧ accepted (store_Resolve s' target) ∧ compile (in_force d l) = Some (st_current s') ∧
  ∀ other value, Resolve_in (WithResolved other value) (store_Resolve s') target = if PolicyKey other == PolicyKey target then value else store_Resolve s' target.
Proof.
  intros Hnew Hw. apply Forall_cons in Hw as [Hd Hl]. unfold NewStore in Hnew. destruct (compile d) as [snapshot|] eqn:Hc; [|done]. injection Hnew as <-.
  assert (Hv : snapshot_valid (st_current s')) by (apply updates_valid; [done|by apply (compile_valid d)]). pose proof (resolve_valid _ target Hv) as Hr.
  split; [done|]. split; [by apply valid_accepted|]. split; [by apply updates_in_force|].
  intros other value. unfold Resolve_in, WithResolved, FromContext. by destruct (_ == _).
Qed.

(** ** Configuration is layered field by field *)

(** The reference: each field of a policy is that of the overrides if it is set there. *)
Definition field {A B C} (f : B → A) (g : C → option A) (base : B) (o : option C) : A := default (f base) (o ≫= g).
Definition over (o : Overrides) (b : Policy) : Policy :=
  mkPolicy (default (po_Timeout b) (ov_Timeout o))
    (let r {A} (f : _ → A) g := field f g (po_Retry b) (ov_Retry o) in
     Retry.mkRetryPolicy (r Retry.rt_Enabled rg_Enabled) (r Retry.rt_Idempotent rg_Idempotent) (r Retry.rt_MaxAttempts rg_MaxAttempts) (r Retry.rt_BackoffMin rg_BackoffMin)
       (r Retry.rt_BackoffMax rg_BackoffMax) (r Retry.rt_BudgetRatio rg_BudgetRatio))
    (let h {A} (f : _ → A) g := field f g (po_Hedging b) (ov_Hedging o) in
     Hedging.mkHedgingPolicy (h Hedging.hg_Enabled hc_Enabled) (h Hedging.hg_Idempotent hc_Idempotent) (h Hedging.hg_MaxAttempts hc_MaxAttempts) (h Hedging.hg_Delay hc_Delay))
    (let k {A} (f : _ → A) g := field f g (po_Breaker b) (ov_Breaker o) in
     Breaker.mkPolicy (k Breaker.p_Enabled bc_Enabled) (k Breaker.p_FailureRatio bc_FailureRatio) (k Breaker.p_Window bc_Window) (k Breaker.p_MinRequests bc_MinRequests)
       (k Breaker.p_OpenTimeout bc_OpenTimeout) (k Breaker.p_HalfOpenProbes bc_HalfOpenProbes))
    (let k {A} (f : _ → A) g := field f g (po_Bulkhead b) (ov_Bulkhead o) in
     Bulkhead.mkPolicy (k Bulkhead.p_Enabled kc_Enabled) (k Bulkhead.p_MaxConcurrency kc_MaxConcurrency) (k Bulkhead.p_MaxQueue kc_MaxQueue) (k Bulkhead.p_QueueTimeout kc_QueueTimeout))
    (let k {A} (f : _ → A) g := field f g (po_RateLimit b) (ov_RateLimit o) in
     RateLimit.mkRatePolicy (k RateLimit.rl_Enabled rc_Enabled) (k RateLimit.rl_RequestsPerSecond rc_RequestsPerSecond) (k RateLimit.rl_Burst rc_Burst) (k RateLimit.rl_MaxConcurrency rc_MaxConcurrency))
    (let k {A} (f : _ → A) g := field f g (po_LoadShedding b) (ov_LoadShedding o) in
     LoadShed.mkShedPolicy (k LoadShed.lp_Enabled lc_Enabled) (k LoadShed.lp_MaxConcurrency lc_MaxConcurrency) (k LoadShed.lp_CPUThreshold lc_CPUThreshold))
    (let k {A} (f : _ → A) g := field f g (po_Stream b) (ov_Stream o) in
     mkStreamPolicy (k sp_Enabled sc_Enabled) (k sp_MaxSendMessages sc_MaxSendMessages) (k sp_MaxReceiveMessages sc_MaxReceiveMessages) (k sp_MessagesPerSecond sc_MessagesPerSecond)
       (k sp_Burst sc_Burst) (k sp_MaxConcurrency sc_MaxConcurrency)).
Lemma apply_patch o b : apply (patch o b) b = over o b.
Proof. destruct o as [timeout [] [] [] [] [] [] []], b as [? [] [] [] [] [] [] []]; reflexivity. Qed.
Section layers.
Context `{RegexpLib}.
Definition method_key (m : MethodConfig) : option string := PolicyKey <$> operation.New (tc_Transport m) (tc_Service m) (tc_Method m) (tc_Kind m).
Definition matches (m : MatcherConfig) (target : operation.Operation) : bool := match CompileMatcher (gc_Pattern m) with Some matcher => safeMatch matcher target | None => false end.
(** The exact method, else the first matcher, over the service, over the global overrides, over the defaults. *)
Definition layered_service (c : Config) (service : string) : Policy :=
  let global := over (cf_Global c) Default in
  match List.find (λ r, vc_Service r == service) (cf_Services c) with Some r => over (vc_Policy r) global | None => global end.
Definition layered (c : Config) (target : operation.Operation) : Policy :=
  let base := layered_service c (operation.o_service target) in
  match List.find (λ m, bool_decide (method_key m = Some (PolicyKey target))) (cf_Methods c) with
  | Some m => over (tc_Policy m) base
  | None => match List.find (λ m, matches m target) (cf_Matchers c) with Some m => over (gc_Policy m) base | None => base end
  end.

Lemma compile_services_find global rules services services' : compile_services global rules services = Some services' →
  services' = fold_left (λ m rule, <[sr_Service rule := apply (sr_Patch rule) global]> m) rules services ∧
  ∀ k, services' !! k = match services !! k with Some v => Some v | None => (λ r, apply (sr_Patch r) global) <$> List.find (λ r, sr_Service r == k) rules end.
Proof.
  revert services. induction rules as [|rule rules IH]; intros services; cbn [compile_services fold_left List.find]; [intros [= <-]; split; [done|]; intros k; by destruct (services !! k)|].
  destruct (validIdentity _); [|done]. destruct (services !! sr_Service rule) eqn:Hk; [rewrite bool_decide_eq_true_2 by eauto; done|]. rewrite bool_decide_eq_false_2 by (intros [? ?]; congruence).
  destruct (Validate _); [|done]. cbn [negb]. intros [H1 H2]%IH. split; [done|]. intros k. rewrite H2. destruct (decide (sr_Service rule = k)) as [<-|Hne].
  - rewrite lookup_insert_eq, Hk, bool_decide_eq_true_2 by done. done.
  - rewrite lookup_insert_ne by done. by rewrite bool_decide_eq_false_2.
Qed.
Lemma compile_methods_find global services rules methods methods' : compile_methods global services rules methods = Some methods' →
  ∀ k, methods' !! k = match methods !! k with Some v => Some v | None =>
    (λ r, apply (mr_Patch r) (base_of global services (operation.o_service (mr_Operation r)))) <$> List.find (λ r, PolicyKey (mr_Operation r) == k) rules end.
Proof.
  revert methods. induction rules as [|rule rules IH]; intros methods; cbn [compile_methods List.find]; [intros [= <-] k; by destruct (methods !! k)|].
  destruct (validOperation _); [|done]. destruct (methods !! PolicyKey (mr_Operation rule)) eqn:Hk; [rewrite bool_decide_eq_true_2 by eauto; done|]. rewrite bool_decide_eq_false_2 by (intros [? ?]; congruence).
  destruct (Validate _); [|done]. cbn [negb]. intros H2 k. rewrite (IH _ H2 k). destruct (decide (PolicyKey (mr_Operation rule) = k)) as [<-|Hne].
  - rewrite lookup_insert_eq, Hk, bool_decide_eq_true_2 by done. done.
  - rewrite lookup_insert_ne by done. by rewrite bool_decide_eq_false_2.
Qed.
(** The first compiled matcher that matches, applied to the base of the service. *)
Lemma matchers_find global services target configs : ∀ rules compiled names base, config_matchers global services configs = Some rules → compile_matchers global services rules names = Some compiled →
  base = base_of global services (operation.o_service target) →
  match List.find (λ rule, safeMatch (cm_matcher rule) target) compiled with
  | Some rule => apply (default (cm_patch rule) (cm_services rule !! operation.o_service target)) base | None => base end =
  match List.find (λ m, matches m target) configs with Some m => over (gc_Policy m) base | None => base end.
Proof.
  induction configs as [|m configs IH]; intros rules compiled names base; cbn [config_matchers]; [intros [= <-] [= <-]; done|].
  destruct (CompileMatcher (gc_Pattern m)) as [matcher|] eqn:Hm; [|done]. cbn [mbind option_bind]. destruct (config_matchers global services configs) as [rest|] eqn:Hr; [|done]. intros [= <-]. cbn [compile_matchers ma_Name ma_Matcher ma_Patch ma_servicePatches].
  destruct (validIdentity _); [|done]. destruct (bool_decide _); [done|]. destruct (validateMatchPatch _ _ _ _); [|done]. cbn [negb]. destruct (compile_matchers _ _ rest _) as [compiled'|] eqn:Hc; [|done].
  intros [= <-] Hb. cbn [List.find cm_matcher cm_patch cm_services]. unfold matches at 1. rewrite Hm. destruct (safeMatch matcher target); [|by eapply IH].
  cbn [cm_services cm_patch]. rewrite lookup_fmap, <- apply_patch, Hb. unfold base_of. by destruct (services !! operation.o_service target).
Qed.
Lemma methods_find global services target configs : ∀ rules, config_methods global services configs = Some rules →
  (λ r, apply (mr_Patch r) (base_of global services (operation.o_service (mr_Operation r)))) <$> List.find (λ r, PolicyKey (mr_Operation r) == PolicyKey target) rules =
  (λ m, over (tc_Policy m) (base_of global services (operation.o_service target))) <$> List.find (λ m, bool_decide (method_key m = Some (PolicyKey target))) configs.
Proof.
  induction configs as [|m configs IH]; intros rules; cbn [config_methods]; [by intros [= <-]|]. unfold method_key at 1. cbn [List.find]. unfold method_key at 1.
  destruct (operation.New _ _ _ _) as [o|] eqn:Ho; [|done]. cbn [mbind option_bind fmap option_fmap option_map]. destruct (config_methods global services configs) as [rest|] eqn:Hr; [|done]. intros [= <-]. cbn [List.find mr_Operation].
  destruct (decide (PolicyKey o = PolicyKey target)) as [Hk|Hk].
  - rewrite !bool_decide_eq_true_2 by congruence. cbn [fmap option_fmap option_map mr_Operation mr_Patch]. destruct (operation_keys_collision_free o target) as [[Hx _] _]. destruct (Hx Hk) as (_ & Hs & _). by rewrite Hs, apply_patch.
  - rewrite !bool_decide_eq_false_2 by congruence. by apply IH.
Qed.
Lemma config_matchers_scoped global services configs rules : config_matchers global services configs = Some rules →
  Forall (λ r, ∀ k, is_Some (ma_servicePatches r !! k) → is_Some (services !! k)) rules.
Proof.
  revert rules. induction configs as [|m configs IH]; intros rules; cbn [config_matchers]; [intros [= <-]; constructor|]. destruct (CompileMatcher _); [|done]. cbn [mbind option_bind].
  destruct (config_matchers global services configs) as [rest|]; [|done]. intros [= <-]. constructor; [|by apply IH]. intros k. cbn [ma_servicePatches]. by rewrite lookup_fmap, fmap_is_Some.
Qed.
Lemma definition_parts revision c d : definitionFromConfig revision c = Some d → ∃ s matchers methods,
  let global := over (cf_Global c) Default in let rules := service_rules global (cf_Services c) in let services := service_policies global rules in
  config_matchers global services (cf_Matchers c) = Some matchers ∧ config_methods global services (cf_Methods c) = Some methods ∧
  d = mkDefinition revision global rules matchers methods ∧ compile d = Some s.
Proof.
  unfold definitionFromConfig. destruct (_ || _); [done|]. rewrite apply_patch. cbn zeta. destruct (config_matchers _ _ _) as [matchers|] eqn:Hm; [|done]. cbn [mbind option_bind].
  destruct (config_methods _ _ _) as [methods|] eqn:Ht; [|done]. cbn [mbind option_bind]. destruct (compile _) as [s|] eqn:Hc; [|done]. intros [= <-]. by exists s, matchers, methods.
Qed.
End layers.

Lemma resolve_layered `{RegexpLib} revision c d target : definitionFromConfig revision c = Some d →
  ∃ s, compile d = Some s ∧ sn_revision s = revision ∧ Resolve s target = layered c target ∧ well_scoped d.
Proof.
  intros (s & matchers & methods & Hm & Ht & -> & Hc)%definition_parts. exists s. split; [done|].
  pose proof Hc as (services & compiled & resolved & _ & Hs & Hcm & Hct & ->)%compile_parts. cbn [df_Global df_Services df_Matchers df_Methods df_Revision] in *. split; [done|].
  set (global := over (cf_Global c) Default) in *. destruct (compile_services_find _ _ _ _ Hs) as [Heq Hfind]. fold (service_policies global (service_rules global (cf_Services c))) in Heq. rewrite <- Heq in Hm, Ht.
  assert (Hbase : base_of global services (operation.o_service target) = layered_service c (operation.o_service target)).
  { unfold base_of, layered_service. fold global. rewrite Hfind, lookup_empty. unfold service_rules. clear. induction (cf_Services c) as [|r l IH]; [done|]. rewrite fmap_cons. cbn [List.find sr_Service].
    destruct (_ == _); [cbn; by rewrite apply_patch|apply IH]. }
  split.
  - unfold Resolve, layered. cbn [sn_methods sn_global sn_services sn_matchers]. rewrite (compile_methods_find _ _ _ _ _ Hct), lookup_empty, (methods_find _ _ _ _ _ Ht).
    destruct (List.find _ (cf_Methods c)) as [m|]; cbn [fmap option_fmap option_map]; [by rewrite Hbase|]. rewrite <- Hbase. by apply (matchers_find global services target (cf_Matchers c) matchers compiled ∅).
  - unfold well_scoped. cbn [df_Matchers df_Services]. apply config_matchers_scoped in Hm. eapply Forall_impl; [exact Hm|]. intros r Hr k Hk%Hr.
    destruct (compile_services_spec _ _ _ _ Hs) as [_ Hd]; [intros ? ? Hx; by rewrite lookup_empty in Hx|]. apply Hd in Hk as [Hk|Hk]; [|done]. rewrite lookup_empty in Hk. by destruct Hk.
Qed.


(** C7: Configuration is layered field by field.  Every configuration that is accepted compiles, and for every
    operation the policy in force has, in each single field, the value of the most specific layer
    that sets it: the rule for exactly this operation, or else the first matcher that matches
    it; then the rule of its service; then the global overrides; then the defaults.  Its matchers are
    well scoped, so that such policies are always valid. *)
Theorem config_layers `{RegexpLib} revision c d target : definitionFromConfig revision c = Some d →
  ∃ s, compile d = Some s ∧ sn_revision s = revision ∧ Resolve s target = layered c target ∧ well_scoped d.
Proof. apply resolve_layered. Qed.

(** ** The configuration binding *)
Section binding.
Context `{RegexpLib}.
Record ConfigBinding := mkBinding { cb_component : Config.Component Config; cb_store : Store }.
Definition no_overrides : Overrides := mkOverrides None None None None None None None None.
Definition empty_config : Config := mkConfig no_overrides [] [] [].
(** All four fields are reloadable, so no change needs a restart.  Decoding a subtree is a parameter. *)
Definition binding_spec (segments : list string) (decode : Config.value → option Config) : Config.Spec Config :=
  Config.mkSpec segments (Some empty_config) decode [λ v, bool_decide (is_Some (definitionFromConfig "candidate" v))] (λ _ _, []).
Definition bootstrap : Definition_ := mkDefinition "bootstrap" Default [] [] [].
Definition NewConfigBinding : option ConfigBinding := store ← NewStore bootstrap; Some (mkBinding Config.NewComponent store).
Definition binding_Validate (spec : Config.Spec Config) (s : Config.Snapshot) (b : ConfigBinding) : bool * ConfigBinding :=
  if negb (validIdentity (Config.sn_revision s)) then (false, b)
  else let '(err, c) := Config.component_Validate spec s (cb_component b) in (bool_decide (err = None), mkBinding c (cb_store b)).
Definition binding_Apply (spec : Config.Spec Config) (ctx : context Config.cerror) (s : Config.Snapshot) (b : ConfigBinding) : bool * ConfigBinding :=
  let '(err, c) := Config.component_Apply spec ctx s None (cb_component b) in
  let b := mkBinding c (cb_store b) in
  match err with
  | Some _ => (false, b)
  | None =>
      match Config.Current c with
      | None => (false, b)
      | Some current =>
          match definitionFromConfig (Config.sn_revision s) current with
          | None => (false, b)
          | Some definition => let '(answer, store) := Update definition (cb_store b) in (bool_decide (is_Some answer), mkBinding c store)
          end
      end
  end.
Inductive bop := BValidate (s : Config.Snapshot) | BApply (ctx : context Config.cerror) (s : Config.Snapshot).
Definition snapshot_in (o : bop) : Config.Snapshot := match o with BValidate s => s | BApply _ s => s end.
Definition bstep (spec : Config.Spec Config) (b : ConfigBinding) (o : bop) : ConfigBinding :=
  match o with BValidate s => (binding_Validate spec s b).2 | BApply ctx s => (binding_Apply spec ctx s b).2 end.
Definition bsteps (spec : Config.Spec Config) (b : ConfigBinding) (l : list bop) : ConfigBinding := fold_left (bstep spec) l b.
(** The revision only names a definition. *)
Lemma definition_revision r v d : validIdentity r = true → definitionFromConfig "candidate" v = Some d → ∃ d', definitionFromConfig r v = Some d'.
Proof.
  intros Hr. unfold definitionFromConfig. destruct (_ || _); [done|]. cbn zeta. destruct (config_matchers _ _ _) as [matchers|]; [|done]. cbn [mbind option_bind]. destruct (config_methods _ _ _) as [methods|]; [|done]. cbn [mbind option_bind].
  unfold compile. cbn [df_Revision df_Global df_Services df_Matchers df_Methods]. rewrite Hr. assert (Hc : validIdentity "candidate" = true) by (vm_compute; reflexivity). rewrite Hc. cbn [negb].
  destruct (Validate _); [|done]. cbn [negb]. destruct (compile_services _ _ _) as [services|]; [|done]. cbn [mbind option_bind]. destruct (compile_matchers _ _ _ _); [|done]. cbn [mbind option_bind]. destruct (compile_methods _ _ _ _); [|done]. cbn [mbind option_bind]. eauto.
Qed.
Lemma definition_compiles r v d : definitionFromConfig r v = Some d → df_Revision d = r ∧ is_Some (compile d).
Proof. intros (s & matchers & methods & _ & _ & -> & Hc)%definition_parts. split; [done|]. by exists s. Qed.
Section follows.
Context (segments : list string) (decode : Config.value → option Config) (content : string → Config.tree).
Let spec := binding_spec segments decode.
(** A revision names its content, and no revision is the one of the initial store. *)
Definition proper (o : bop) : Prop := let s := snapshot_in o in validIdentity (Config.sn_revision s) = true ∧ Config.sn_revision s ≠ "bootstrap" ∧ Config.sn_values s = content (Config.sn_revision s).
Definition decoded (r : string) (v : Config) : Prop := Config.decode spec (Config.mkSnapshot r (content r)) = Ok v ∧ validIdentity r = true ∧ r ≠ "bootstrap".
Record binding_ok (b : ConfigBinding) : Prop := {
  bo_validated : ∀ r v, Config.cp_validated (cb_component b) = Some (r, v) → decoded r v;
  bo_current : match Config.cp_current (cb_component b) with
    | None => compile bootstrap = Some (st_current (cb_store b))
    | Some (r, v) => decoded r v ∧ ∃ d, definitionFromConfig r v = Some d ∧ compile d = Some (st_current (cb_store b)) end
}.
Lemma decoded_definition r v : decoded r v → ∃ d, definitionFromConfig r v = Some d.
Proof.
  intros (Hd & Hr & _). assert (Hv : bool_decide (is_Some (definitionFromConfig "candidate" v)) = true).
  { unfold Config.decode, Config.validated, spec, binding_spec in Hd. cbn [Config.cs_segments Config.cs_default Config.cs_decode Config.cs_validators forallb] in Hd.
    destruct (Config.Lookup _ _) as [x|]; [destruct (decode x); [|done]|]; (destruct (bool_decide _) eqn:Hb; [|done]); cbn [andb] in Hd; by injection Hd as <-. }
  apply bool_decide_eq_true in Hv as [d Hv]. by apply (definition_revision r v d).
Qed.
Lemma binding_step_ok b o : proper o → binding_ok b → binding_ok (bstep spec b o).
Proof.
  intros (Hr & Hn & Hc) [Hval Hcur]. assert (Hsnap : ∀ s, Config.sn_values s = content (Config.sn_revision s) → s = Config.mkSnapshot (Config.sn_revision s) (content (Config.sn_revision s))) by (intros [r vs]; cbn; congruence).
  destruct o as [s|ctx s]; cbn [bstep snapshot_in] in *.
  - unfold binding_Validate. rewrite Hr. cbn [negb]. unfold Config.component_Validate. destruct (Config.decode spec s) as [v|err] eqn:Hd; constructor; cbn [snd cb_component cb_store Config.cp_validated Config.cp_current]; try done.
    intros r w [= <- <-]. split; [|done]. by rewrite <- Hsnap.
  - assert (Hnext : ∀ v, Config.next_value spec s (cb_component b) = Ok v → decoded (Config.sn_revision s) v).
    { intros v. unfold Config.next_value. destruct (Config.cp_validated (cb_component b)) as [[r w]|] eqn:Hx; [destruct (decide (r = Config.sn_revision s)) as [->|]|].
      - rewrite bool_decide_eq_true_2 by done. intros [= <-]. by apply Hval.
      - rewrite bool_decide_eq_false_2 by done. rewrite (Hsnap s Hc) at 1. done.
      - rewrite (Hsnap s Hc) at 1. done. }
    unfold binding_Apply, Config.component_Apply. destruct ctx as [|[cause|]]; [done|done|]. destruct (Config.next_value spec s (cb_component b)) as [v|err] eqn:Hv; [|done].
    assert (Hch : match Config.cp_current (cb_component b) with Some (_, current) => merge_sort String.le (Config.cs_changes spec current v) | None => [] end = []) by (by destruct (Config.cp_current (cb_component b)) as [[]|]).
    rewrite Hch. cbn [mbind option_bind Config.Current Config.cp_current fmap option_fmap option_map snd]. specialize (Hnext v eq_refl). destruct (decoded_definition _ _ Hnext) as [d Hd]. rewrite Hd. destruct (definition_compiles _ _ _ Hd) as [Hrev [snapshot Hcomp]].
    unfold Update. rewrite Hrev. destruct (decide (sn_revision (st_current (cb_store b)) = Config.sn_revision s)) as [Heq|Hne].
    + rewrite bool_decide_eq_true_2 by done. constructor; [done|]. cbn [snd cb_component cb_store Config.cp_current]. split; [done|]. exists d. split; [done|].
      destruct (Config.cp_current (cb_component b)) as [[r w]|].
      * destruct Hcur as (Hw & d' & Hd' & Hc'). pose proof Hc' as (services & ms & mt & _ & _ & _ & _ & Hst)%compile_parts. destruct (definition_compiles _ _ _ Hd') as [Hrev' _].
        assert (r = Config.sn_revision s) as -> by (rewrite <- Heq, Hst; cbn; congruence). destruct Hw as [Hw _], Hnext as [Hnx _]. rewrite Hw in Hnx. injection Hnx as ->. rewrite Hd in Hd'. by injection Hd' as ->.
      * pose proof Hcur as (services & ms & mt & _ & _ & _ & _ & Hst)%compile_parts. rewrite Hst in Heq. cbn in Heq. congruence.
    + rewrite bool_decide_eq_false_2 by done. rewrite Hcomp. constructor; [done|]. cbn [snd cb_component cb_store Config.cp_current st_current]. split; [done|]. by exists d.
Qed.
End follows.
End binding.

(** C23: The binding keeps the store in step with its component: over any validations and applications, failing ones
    included, of snapshots whose revision names their content, is a valid identity and is not the word
    bootstrap ([bootstrap_revision_ignored]), the policies in force are exactly
    those of the configuration that the component serves, layer by layer, for every operation; before
    the first application they are the defaults. *)
Theorem binding_follows `{RegexpLib} segments decode content b0 ops (b := bsteps (binding_spec segments decode) b0 ops) target : NewConfigBinding = Some b0 → Forall (proper content) ops →
  store_Resolve (cb_store b) target = match Config.Current (cb_component b) with Some v => layered v target | None => Default end ∧ Validate (store_Resolve (cb_store b) target) = true.
Proof.
  intros Hnew Hops. unfold NewConfigBinding, NewStore in Hnew. destruct (compile bootstrap) as [s0|] eqn:H0; [|done]. cbn [mbind option_bind] in Hnew. injection Hnew as <-.
  assert (Hok : binding_ok segments decode content b).
  { assert (Hgen : ∀ l c, Forall (proper content) l → binding_ok segments decode content c → binding_ok segments decode content (bsteps (binding_spec segments decode) c l)).
    { intros l. induction l as [|o l IH]; intros c Hl Hc; [done|]. apply Forall_cons in Hl as [Ho Hl]. apply IH; [done|]. by apply binding_step_ok. }
    apply Hgen; [done|]. constructor; [done|]. done. }
  destruct Hok as [_ Hcur]. unfold Config.Current. destruct (Config.cp_current (cb_component b)) as [[r v]|]; cbn [fmap option_fmap option_map snd].
  - destruct Hcur as (_ & d & Hd & Hc). destruct (resolve_layered r v d target Hd) as (s & Hs & _ & Hr & Hw). rewrite Hc in Hs. injection Hs as Hs. unfold store_Resolve. rewrite Hs. split; [done|].
    apply resolve_valid. apply (compile_valid d); [by rewrite Hc, Hs|done].
  - pose proof Hcur as (services & ms & mt & Hg & H1 & H2 & H3 & Hst)%compile_parts. cbn in H1, H2, H3. injection H1 as <-. injection H2 as <-. injection H3 as <-.
    assert (Hr : store_Resolve (cb_store b) target = Default). { unfold store_Resolve, Resolve. rewrite Hst. cbn [sn_methods sn_services sn_matchers List.find]. rewrite lookup_empty. unfold base_of. by rewrite lookup_empty. }
    rewrite Hr. split; [done|exact Hg].
Qed.

(** ** A configuration, and where the binding fails *)

(** Regular expressions that are plain text: the text occurs in the value. *)
#[export] Instance literal_regexps : RegexpLib := { regexp_Compile := λ expression, Some (λ value, bool_decide (is_Some (String.index 0 expression value))) }.
Definition only_timeout (t : duration) : Overrides := mkOverrides (Some t) None None None None None None None.
Definition w_breaking : Overrides := mkOverrides None None None (Some (mkBreakerConfig (Some true) None None (Some 5) None None)) None None None None.
Definition w_config : Config :=
  mkConfig (only_timeout (5 * second)) [mkServiceConfig "orders" w_breaking]
    [mkMatcherConfig "reads" (mkPattern MatchPrefix "" "" "Get" (operation.KindOther "")) (only_timeout second)]
    [mkMethodConfig "grpc" "orders" "Create" operation.KindUnary (only_timeout (2 * second))].
Definition w_operation (method : string) : operation.Operation := operation.mkOperation "grpc" "orders" method operation.KindUnary.
Definition w_policy (t : duration) : Policy := over (only_timeout t) (over w_breaking Default).
Lemma config_layers_witness : ∃ d s, definitionFromConfig "1" w_config = Some d ∧ compile d = Some s ∧
  Resolve s (w_operation "Create") = w_policy (2 * second) ∧ Resolve s (w_operation "GetOrder") = w_policy second ∧ Resolve s (w_operation "List") = w_policy (5 * second).
Proof.
  destruct (definitionFromConfig "1" w_config) as [d|] eqn:Hd; [|by vm_compute in Hd].
  destruct (config_layers "1" w_config d (w_operation "Create") Hd) as (s & Hs & _ & H1 & _). destruct (config_layers "1" w_config d (w_operation "GetOrder") Hd) as (s2 & Hs2 & _ & H2 & _). destruct (config_layers "1" w_config d (w_operation "List") Hd) as (s3 & Hs3 & _ & H3 & _).
  rewrite Hs in Hs2, Hs3. injection Hs2 as <-. injection Hs3 as <-. exists d, s. split; [reflexivity|]. split; [exact Hs|]. rewrite H1, H2, H3. split; [vm_compute; reflexivity|]. split; vm_compute; reflexivity.
Defined.
Definition w_definition (revision : string) (t : duration) : Definition_ := mkDefinition revision Default [] [mkMatchRule "all" (Some (λ _, Some true)) (patch (only_timeout t) Default) ∅] [].
Lemma resolved_policies_valid_witness : ∃ s, NewStore (w_definition "1" second) = Some s ∧
  let s' := updates s [w_definition "2" 0; w_definition "3" (2 * second)] in Validate (store_Resolve s' (w_operation "Create")) = true ∧ po_Timeout (store_Resolve s' (w_operation "Create")) = 2 * second.
Proof.
  destruct (NewStore (w_definition "1" second)) as [s|] eqn:Hs; [|by vm_compute in Hs]. exists s. split; [reflexivity|].
  assert (Hw : Forall well_scoped [w_definition "1" second; w_definition "2" 0; w_definition "3" (2 * second)]).
  { assert (Hone : ∀ r t, well_scoped (w_definition r t)) by (intros r t; constructor; [intros service Hx; cbn in Hx; rewrite lookup_empty in Hx; destruct Hx as [? Hx]; discriminate Hx|constructor]).
    constructor; [apply Hone|]. constructor; [apply Hone|]. constructor; [apply Hone|]. constructor. }
  destruct (resolved_policies_valid (w_definition "1" second) s [w_definition "2" 0; w_definition "3" (2 * second)] (w_operation "Create") Hs Hw) as (H1 & _). split; [exact H1|].
  assert (Hf : s = from_option id s (NewStore (w_definition "1" second))) by (rewrite Hs; reflexivity). rewrite Hf. vm_compute. reflexivity.
Defined.
Definition w_decode (v : Config.value) : option Config := match v with Config.VNull => Some w_config | _ => None end.
Definition w_content (revision : string) : Config.tree := {["policy" := Config.VNull]}.
Definition w_snapshot (revision : string) : Config.Snapshot := Config.mkSnapshot revision (w_content revision).
Definition w_apply (revision : string) : list bop := [BValidate (w_snapshot revision); BApply (Context None) (w_snapshot revision)].
Lemma binding_follows_witness : ∃ b0, NewConfigBinding = Some b0 ∧
  store_Resolve (cb_store (bsteps (binding_spec ["policy"] w_decode) b0 (w_apply "7"))) (w_operation "Create") = w_policy (2 * second).
Proof.
  destruct NewConfigBinding as [b0|] eqn:Hb; [|by vm_compute in Hb]. exists b0. split; [reflexivity|].
  assert (Hp : Forall (proper w_content) (w_apply "7")) by (repeat constructor; vm_compute; congruence).
  destruct (binding_follows ["policy"] w_decode w_content b0 (w_apply "7") (w_operation "Create") Hb Hp) as [-> _].
  assert (Hf : b0 = from_option id b0 NewConfigBinding) by (rewrite Hb; reflexivity). rewrite Hf. vm_compute. reflexivity.
Defined.
(** A configuration whose revision is the word [bootstrap] is accepted and served by the component, and never
    reaches the store, which takes it for the initial definition. *)
Theorem bootstrap_revision_ignored : match NewConfigBinding with
  | None => False
  | Some b0 =>
      let '(valid, b) := binding_Validate (binding_spec ["policy"] w_decode) (w_snapshot "bootstrap") b0 in
      let '(applied, b) := binding_Apply (binding_spec ["policy"] w_decode) (Context None) (w_snapshot "bootstrap") b in
      valid = true ∧ applied = true ∧ Config.Current (cb_component b) = Some w_config ∧ store_Resolve (cb_store b) (w_operation "Create") = Default ∧ po_Timeout (layered w_config (w_operation "Create")) = 2 * second
  end.
Proof. vm_compute. repeat split. Qed.
