(* ===== verification/StreamLimit.v ===== *)
(** * governance/streamlimit: quotas of one stream and limits shared by streams

    Models [streamlimit.go].  The middleware of a stream is a closure over its own state; its calls
    run in any number of goroutines, and a call is split wherever it releases the mutex of the stream, calls the
    limiters or calls [next].  The aggregate counters, which only [Describe] reads, are added to
    in the part that precedes them.  [sent] and [received] are Go integers without wrap-around: with a quota
    they stay below it. *)
From S2P Require Import Prelude GoText GoFloat Access Idempotency RateLimit Policy.
Open Scope Z_scope.

Inductive StreamPhase := StreamPhaseCreate | StreamPhaseSend | StreamPhaseReceive | StreamPhaseFinish | StreamPhaseOther (raw : string).
Inductive slerror := ErrLimited (cause : option RateLimit.rlerror) (phase : StreamPhase) | ErrInvalidOption | ErrInvalidPolicy | ENext (text : string).
Definition limitError (cause : option RateLimit.rlerror) (phase : StreamPhase) : slerror := ErrLimited cause phase.

(** ** State *)
Record Limiter := mkLimiter {
  sl_activeStreams : Z; sl_startedStreams : Z; sl_finishedStreams : Z; sl_sentMessages : Z; sl_receivedMessages : Z; sl_rejectedMessages : Z
}.
Definition Describe (l : option Limiter) : Limiter := default (mkLimiter 0 0 0 0 0 0) l.
Definition New (nil_resolver nil_pool : bool) : option Limiter := if nil_resolver || nil_pool then None else Some (mkLimiter 0 0 0 0 0 0).
Definition stream_started (l : Limiter) : Limiter :=
  mkLimiter (sl_activeStreams l + 1) (u64_add (sl_startedStreams l) 1) (sl_finishedStreams l) (sl_sentMessages l) (sl_receivedMessages l) (sl_rejectedMessages l).
Definition stream_finished (l : Limiter) : Limiter :=
  mkLimiter (sl_activeStreams l - 1) (sl_startedStreams l) (u64_add (sl_finishedStreams l) 1) (sl_sentMessages l) (sl_receivedMessages l) (sl_rejectedMessages l).
Definition message_sent (l : Limiter) : Limiter :=
  mkLimiter (sl_activeStreams l) (sl_startedStreams l) (sl_finishedStreams l) (u64_add (sl_sentMessages l) 1) (sl_receivedMessages l) (sl_rejectedMessages l).
Definition message_received (l : Limiter) : Limiter :=
  mkLimiter (sl_activeStreams l) (sl_startedStreams l) (sl_finishedStreams l) (sl_sentMessages l) (u64_add (sl_receivedMessages l) 1) (sl_rejectedMessages l).
Definition message_rejected (l : Limiter) : Limiter :=
  mkLimiter (sl_activeStreams l) (sl_startedStreams l) (sl_finishedStreams l) (sl_sentMessages l) (sl_receivedMessages l) (u64_add (sl_rejectedMessages l) 1).
(** The variables of the closure. *)
Record Stream := mkStream { st_created : bool; st_finished : bool; st_config : StreamPolicy; st_sharedKey : string; st_sent : Z; st_received : Z }.
Definition no_policy : StreamPolicy := mkStreamPolicy false 0 0 Policy.f0 0 0.
Definition new_stream : Stream := mkStream false false no_policy "" 0 0.
Definition add_sent (n : Z) (s : Stream) : Stream := mkStream (st_created s) (st_finished s) (st_config s) (st_sharedKey s) (st_sent s + n) (st_received s).
Definition add_received (n : Z) (s : Stream) : Stream := mkStream (st_created s) (st_finished s) (st_config s) (st_sharedKey s) (st_sent s) (st_received s + n).

(** ** The shared limits; the empty permit is [None] *)
Definition acquireConcurrency (now : time) (key : string) (maximum : Z) (p : Pool) : result RateLimit.rlerror (option nat) * Pool :=
  if maximum <=? 0 then (Ok None, p)
  else
    let '(key, p) := Get (key +:+ "/concurrency") p in
    let '(answer, p) := Acquire now key (mkRatePolicy true Policy.f0 0 maximum) p in
    (match answer with Ok permit => Ok (Some permit) | Err err => Err err end, p).
Definition acquireRate (now : time) (key : string) (config : StreamPolicy) (p : Pool) : result RateLimit.rlerror (option nat) * Pool :=
  if SFleb (sp_MessagesPerSecond config) Policy.f0 then (Ok None, p)
  else
    let '(key, p) := Get (key +:+ "/rate") p in
    let '(answer, p) := Acquire now key (mkRatePolicy true (sp_MessagesPerSecond config) (sp_Burst config) 0) p in
    (match answer with Ok permit => Ok (Some permit) | Err err => Err err end, p).
Definition release (permit : option nat) (p : Pool) : Pool := match permit with Some i => Release i p | None => p end.

(** ** Calls *)
(** What a call returns, with the message it has delivered under a quota. *)
Inductive outcome := OSent | OReceived | OPassed (answer : option slerror) | OFailed (err : slerror).
Definition result_of (o : outcome) : option slerror :=
  match o with OSent | OReceived => None | OPassed answer => answer | OFailed err => Some err end.
Inductive call :=
| CCreate (resolved : StreamPolicy) (key : string)
| CCreateNext
| CMessage (phase : StreamPhase)
| CPlain
| CSend (config : StreamPolicy) (key : string)
| CSendConcurrency (config : StreamPolicy) (key : string)
| CSendRate (config : StreamPolicy) (key : string) (concurrency : option nat)
| CSendBack (config : StreamPolicy) (concurrency : option nat) (err : RateLimit.rlerror)
| CSendUndo (config : StreamPolicy) (err : RateLimit.rlerror)
| CSendNext (config : StreamPolicy) (concurrency rate : option nat)
| CReceiveConcurrency (config : StreamPolicy) (key : string)
| CReceiveNext (config : StreamPolicy) (key : string) (concurrency : option nat)
| CReceiveRelease (config : StreamPolicy) (key : string) (concurrency : option nat)
| CReceive (config : StreamPolicy) (key : string)
| CReceiveRate (config : StreamPolicy) (key : string)
| CReceiveUndo (config : StreamPolicy) (err : RateLimit.rlerror)
| CReceiveLast (config : StreamPolicy) (rate : option nat)
| CFinish
| CFinishNext (enabled : bool)
| CRelease (permits : list (option nat)) (o : outcome)
| CDone (o : outcome).
(** Up to the first access to the state: the context ([None] is nil) with its operation and resolved policy. *)
Definition enter (resolver : operation.Operation → Policy.Policy) (ctx : option (option operation.Operation * resolvedContext)) (phase : StreamPhase) : call :=
  match ctx with
  | None => CDone (OFailed ErrInvalidOption)
  | Some (target, ctx) =>
      match phase with
      | StreamPhaseCreate =>
          match target with
          | None => CDone (OFailed ErrInvalidOption)
          | Some target =>
              let resolved := po_Stream (Resolve_in ctx resolver target) in
              if ValidateStream resolved then CCreate resolved (PolicyKey target +:+ "/stream-messages") else CDone (OFailed ErrInvalidPolicy)
          end
      | StreamPhaseSend | StreamPhaseReceive => CMessage phase
      | StreamPhaseFinish => CFinish
      | StreamPhaseOther _ => CDone (OFailed ErrInvalidOption)
      end
  end.
(** What is left of [Send] once [next] was called or a limit failed: the deferred releases, in reverse order. *)
Definition releasePermits (permits : list (option nat)) (o : outcome) : call := CRelease (rev permits) o.
(** The next part of a call; [answer] is what [next] returns where it is called. *)
Definition advance (now : time) (answer : option string) (c : call) (s : Stream) (l : Limiter) (p : Pool) : call * Stream * Limiter * Pool :=
  match c with
  | CCreate resolved key =>
      if st_created s then (CDone (OFailed ErrInvalidOption), s, l, p)
      else (CCreateNext, mkStream (st_created s) (st_finished s) resolved key (st_sent s) (st_received s), l, p)
  | CCreateNext =>
      match answer with
      | Some text => (CDone (OFailed (ENext text)), s, l, p)
      | None => (CDone (OPassed None), mkStream true (st_finished s) (st_config s) (st_sharedKey s) (st_sent s) (st_received s),
                 if sp_Enabled (st_config s) then stream_started l else l, p)
      end
  | CMessage phase =>
      if negb (st_created s) || st_finished s then (CDone (OFailed ErrInvalidOption), s, l, p)
      else if negb (sp_Enabled (st_config s)) then (CPlain, s, l, p)
      else match phase with
      | StreamPhaseSend => (CSend (st_config s) (st_sharedKey s), s, l, p)
      | _ => (CReceiveConcurrency (st_config s) (st_sharedKey s), s, l, p)
      end
  | CPlain => (CDone (OPassed (ENext <$> answer)), s, l, p)
  | CSend config key =>
      if (0 <? sp_MaxSendMessages config) && (sp_MaxSendMessages config <=? st_sent s) then (CDone (OFailed (limitError None StreamPhaseSend)), s, message_rejected l, p)
      else (CSendConcurrency config key, add_sent 1 s, l, p)
  | CSendConcurrency config key =>
      match acquireConcurrency now key (sp_MaxConcurrency config) p with
      | (Ok permit, p) => (CSendRate config key permit, s, l, p)
      | (Err err, p) => (CSendUndo config err, s, l, p)
      end
  | CSendRate config key concurrency =>
      match acquireRate now key config p with
      | (Ok rate, p) => (CSendNext config concurrency rate, s, l, p)
      | (Err err, p) => (CSendBack config concurrency err, s, l, p)
      end
  | CSendBack config concurrency err => (CSendUndo config err, s, l, release concurrency p)
  | CSendUndo _ err => (CDone (OFailed (limitError (Some err) StreamPhaseSend)), add_sent (-1) s, message_rejected l, p)
  | CSendNext _ concurrency rate =>
      match answer with
      | Some text => (releasePermits [concurrency; rate] (OFailed (ENext text)), add_sent (-1) s, l, p)
      | None => (releasePermits [concurrency; rate] OSent, s, message_sent l, p)
      end
  | CReceiveConcurrency config key =>
      match acquireConcurrency now key (sp_MaxConcurrency config) p with
      | (Ok permit, p) => (CReceiveNext config key permit, s, l, p)
      | (Err err, p) => (CDone (OFailed (limitError (Some err) StreamPhaseReceive)), s, message_rejected l, p)
      end
  | CReceiveNext config key concurrency =>
      match answer with
      | Some text => (CRelease [concurrency] (OFailed (ENext text)), s, l, p)
      | None => (CReceiveRelease config key concurrency, s, l, p)
      end
  | CReceiveRelease config key concurrency => (CReceive config key, s, l, release concurrency p)
  | CReceive config key =>
      if (0 <? sp_MaxReceiveMessages config) && (sp_MaxReceiveMessages config <=? st_received s) then
        (CDone (OFailed (limitError None StreamPhaseReceive)), s, message_rejected l, p)
      else (CReceiveRate config key, add_received 1 s, l, p)
  | CReceiveRate config key =>
      match acquireRate now key config p with
      | (Ok rate, p) => (CReceiveLast config rate, s, l, p)
      | (Err err, p) => (CReceiveUndo config err, s, l, p)
      end
  | CReceiveUndo _ err => (CDone (OFailed (limitError (Some err) StreamPhaseReceive)), add_received (-1) s, message_rejected l, p)
  | CReceiveLast _ rate => (CDone OReceived, s, message_received l, release rate p)
  | CFinish =>
      if negb (st_created s) || st_finished s then (CPlain, s, l, p)
      else (CFinishNext (sp_Enabled (st_config s)), mkStream (st_created s) true (st_config s) (st_sharedKey s) (st_sent s) (st_received s), l, p)
  | CFinishNext enabled => (CDone (OPassed (ENext <$> answer)), s, if enabled then stream_finished l else l, p)
  | CRelease (permit :: rest) o => (CRelease rest o, s, l, release permit p)
  | CRelease [] o => (CDone o, s, l, p)
  | CDone o => (CDone o, s, l, p)
  end.

(** ** Streams and their calls together *)
Record System := mkSystem { sy_limiter : Limiter; sy_pool : Pool; sy_streams : list Stream; sy_calls : list (nat * call) }.
Inductive sop :=
| SOpen
| SEnter (stream : nat) (ctx : option (option operation.Operation * resolvedContext)) (phase : StreamPhase)
| SRun (i : nat) (now : time) (answer : option string).
Definition sstep (resolver : operation.Operation → Policy.Policy) (sys : System) (o : sop) : System :=
  match o with
  | SOpen => mkSystem (sy_limiter sys) (sy_pool sys) (sy_streams sys ++ [new_stream]) (sy_calls sys)
  | SEnter k ctx phase =>
      match sy_streams sys !! k with
      | Some _ => mkSystem (sy_limiter sys) (sy_pool sys) (sy_streams sys) (sy_calls sys ++ [(k, enter resolver ctx phase)])
      | None => sys
      end
  | SRun i now answer =>
      match sy_calls sys !! i with
      | None => sys
      | Some (k, c) =>
          match sy_streams sys !! k with
          | None => sys
          | Some s =>
              let '(c, s, l, p) := advance now answer c s (sy_limiter sys) (sy_pool sys) in
              mkSystem l p (<[k := s]> (sy_streams sys)) (<[i := (k, c)]> (sy_calls sys))
          end
      end
  end.
Definition new_system (l : Limiter) : System := mkSystem l NewPool [] [].
Definition ssteps (resolver : operation.Operation → Policy.Policy) (sys : System) (ops : list sop) : System := fold_left (sstep resolver) ops sys.

(** * Accounting *)
(** The calls that count against a quota: those under way after their reservation, and those that delivered. *)
Definition counts_sent (c : call) : bool :=
  match c with
  | CSendConcurrency _ _ | CSendRate _ _ _ | CSendBack _ _ _ | CSendUndo _ _ | CSendNext _ _ _ | CRelease _ OSent | CDone OSent => true
  | _ => false
  end.
Definition counts_received (c : call) : bool :=
  match c with CReceiveRate _ _ | CReceiveUndo _ _ | CReceiveLast _ _ | CRelease _ OReceived | CDone OReceived => true | _ => false end.
Definition config_of (c : call) : option StreamPolicy :=
  match c with
  | CSend config _ | CSendConcurrency config _ | CSendRate config _ _ | CSendBack config _ _ | CSendUndo config _ | CSendNext config _ _
  | CReceiveConcurrency config _ | CReceiveNext config _ _ | CReceiveRelease config _ _ | CReceive config _ | CReceiveRate config _ | CReceiveUndo config _
  | CReceiveLast config _ => Some config
  | _ => None
  end.
(** The permits a call has yet to release. *)
Definition held (c : call) : list nat :=
  omap id match c with
  | CSendRate _ _ permit | CSendBack _ permit _ | CReceiveNext _ _ permit | CReceiveRelease _ _ permit | CReceiveLast _ permit => [permit]
  | CSendNext _ concurrency rate => [concurrency; rate]
  | CRelease permits _ => permits
  | _ => []
  end.
Definition within (s : Stream) : Prop :=
  (0 < sp_MaxSendMessages (st_config s) → st_sent s ≤ sp_MaxSendMessages (st_config s)) ∧
  (0 < sp_MaxReceiveMessages (st_config s) → st_received s ≤ sp_MaxReceiveMessages (st_config s)).
Record stream_ok (s : Stream) : Prop := {
  so_fresh : st_created s = false → st_sent s = 0 ∧ st_received s = 0;
  so_within : within s
}.
(** A message runs under the policy of its stream, which is fixed since the stream was created. *)
Definition call_ok (s : Stream) (c : call) : Prop := ∀ config, config_of c = Some config → st_created s = true ∧ st_config s = config.
Definition is_live (p : Pool) (j : nat) : Prop := ∃ key, po_permits p !! j = Some (mkPermit (Some key) false).

Lemma acquire_live now key config p j : is_live (Acquire now key config p).2 j → is_live p j ∨ (Acquire now key config p).1 = Ok j.
Proof.
  unfold Acquire. destruct (rl_Enabled config); cbn [negb]; [destruct (validate config); cbn [negb]; [|by left]; destruct (take_slot _ _ _) as [[] l]; [|by left]|];
    cbn; intros [k Hk]; cbn in Hk; (apply lookup_app_Some in Hk as [Hk|[Hge Hk]]; [left; by exists k|]);
    apply list_lookup_singleton_Some in Hk as [Hz Hk]; right; f_equal; lia.
Qed.
Lemma release_live permit p j : is_live (release permit p) j → is_live p j ∧ Some j ≠ permit.
Proof.
  destruct permit as [i|]; [|done]. intros [k Hk]. unfold release, Release in Hk. destruct (po_permits p !! i) as [[[key|] []]|] eqn:Hi;
    try (split; [by exists k|]; intros [= ->]; rewrite Hi in Hk; done). cbn in Hk.
  destruct (decide (j = i)) as [->|Hne]; [rewrite list_lookup_insert_eq in Hk by (by eapply lookup_lt_Some); done|].
  rewrite list_lookup_insert_ne in Hk by done. split; [by exists k|congruence].
Qed.
(** What the two acquisitions do to the pool. *)
Definition acquired (p : Pool) (x : result RateLimit.rlerror (option nat) * Pool) : Prop :=
  (pool_ok p → pool_ok x.2) ∧ ∀ j, is_live x.2 j → is_live p j ∨ x.1 = Ok (Some j).
Lemma acquired_get now key config p :
  acquired p (let '(key, p) := Get key p in let '(answer, p) := Acquire now key config p in (match answer with Ok permit => Ok (Some permit) | Err err => Err err end, p)).
Proof.
  destruct (Get key p) as [k p1] eqn:Hg. destruct (Acquire now k config p1) as [answer p2] eqn:Ha. split; cbn.
  - intros Hok. pose proof (limiter_acquire_ok now k config p1) as H. rewrite Ha in H. apply H. pose proof (pool_get_ok key p Hok) as [H1 _]. by rewrite Hg in H1.
  - intros j Hj. pose proof (acquire_live now k config p1 j) as H. rewrite Ha in H. destruct (H Hj) as [[x Hx]|Hx]; [left|right; cbn in Hx; by subst answer].
    exists x. assert (Hp : p1 = (Get key p).2) by (by rewrite Hg). subst p1. unfold Get in Hx. by destruct (po_limiters p !! TrimSpace key).
Qed.
Lemma acquire_concurrency_ok now key maximum p : acquired p (acquireConcurrency now key maximum p).
Proof. unfold acquireConcurrency. destruct (maximum <=? 0); [split; [done|by left]|apply acquired_get]. Qed.
Lemma acquire_rate_ok now key config p : acquired p (acquireRate now key config p).
Proof. unfold acquireRate. destruct (SFleb _ _); [split; [done|by left]|apply acquired_get]. Qed.
Lemma permit_release_ok permit p : pool_ok p → pool_ok (release permit p).
Proof. destruct permit; [apply limiter_release_ok|done]. Qed.

(** One part of a call: what it does to its stream, and to the permits. *)
Definition state_ok (c : call) (s : Stream) (x : call * Stream * Limiter * Pool) : Prop :=
  let '(c', s', l', p') := x in
  st_sent s' + Z.b2z (counts_sent c) = st_sent s + Z.b2z (counts_sent c') ∧
  st_received s' + Z.b2z (counts_received c) = st_received s + Z.b2z (counts_received c') ∧
  call_ok s' c' ∧ (st_created s = true → st_created s' = true ∧ st_config s' = st_config s) ∧ stream_ok s'.
Definition permits_ok (c : call) (p : Pool) (x : call * Stream * Limiter * Pool) : Prop :=
  let '(c', s', l', p') := x in
  (pool_ok p → pool_ok p') ∧ ∀ j, is_live p' j → j ∈ held c' ∨ is_live p j ∧ j ∉ held c.
Lemma permits_same c c' s l p : (∀ j, j ∈ held c → j ∈ held c') → permits_ok c p (c', s, l, p).
Proof. intros H. split; [done|]. intros j Hj. destruct (decide (j ∈ held c)) as [Hin|]; [left; by apply H|by right]. Qed.
Lemma permits_released permit c c' s l p : (∀ j, j ∈ held c → j ∈ held c' ∨ Some j = permit) → permits_ok c p (c', s, l, release permit p).
Proof.
  intros H. split; [apply permit_release_ok|]. intros j Hj. apply release_live in Hj as [Hj Hne].
  destruct (decide (j ∈ held c)) as [Hin|]; [|by right]. destruct (H j Hin); [by left|done].
Qed.
Lemma permits_acquired x c c' s l p : acquired p x → (∀ j, j ∈ held c ∨ x.1 = Ok (Some j) → j ∈ held c') → permits_ok c p (c', s, l, x.2).
Proof.
  intros [Hok Hl] H. split; [done|]. intros j Hj. destruct (decide (j ∈ held c)) as [Hin|]; [left; apply H; by left|].
  destruct (Hl j Hj); [by right|left; apply H; by right].
Qed.
Lemma advance_permits now answer c s l p : permits_ok c p (advance now answer c s l p).
Proof.
  assert (Hone : ∀ j (a : option nat), j ∈ omap id [a] ↔ a = Some j) by (intros j [a|]; cbn; set_solver).
  assert (Htwo : ∀ j (a b : option nat), j ∈ omap id [a; b] ↔ a = Some j ∨ b = Some j) by (intros j [a|] [b|]; cbn; set_solver).
  pose proof (λ key maximum, acquire_concurrency_ok now key maximum p) as Hc. pose proof (λ key config, acquire_rate_ok now key config p) as Hr.
  destruct c as [r key| |phase| |config key|config key|config key a|config a err|config err|config a b|config key|config key a|config key a|config key|config key|config err|config a| |en|[|a rest] o|o];
    unfold advance.
  all: try (by repeat case_match; apply permits_same; intros j Hj; first [exact Hj|by apply elem_of_nil in Hj]).
  - destruct (acquireConcurrency _ _ _ _) as [[a|e] p'] eqn:Ha; specialize (Hc key (sp_MaxConcurrency config)); rewrite Ha in Hc; apply (permits_acquired _ _ _ _ _ _ Hc); unfold held; intros j [Hj|[=]]; [set_solver|apply Hone; congruence|set_solver].
  - destruct (acquireRate _ _ _ _) as [[b|e] p'] eqn:Ha; specialize (Hr key config); rewrite Ha in Hr; apply (permits_acquired _ _ _ _ _ _ Hr); unfold held; intros j;
      [rewrite Hone, Htwo; intros [->|[= ->]]; auto|intros [Hj|[=]]; done].
  - apply permits_released. unfold held. intros j. rewrite Hone. by right.
  - destruct answer; apply permits_same; unfold releasePermits, held; cbn [rev app]; intros j; rewrite !Htwo; tauto.
  - destruct (acquireConcurrency _ _ _ _) as [[a|e] p'] eqn:Ha; specialize (Hc key (sp_MaxConcurrency config)); rewrite Ha in Hc; apply (permits_acquired _ _ _ _ _ _ Hc); unfold held; intros j [Hj|[=]]; [set_solver|apply Hone; congruence|set_solver].
  - apply permits_released. unfold held. intros j. rewrite Hone. by right.
  - destruct (acquireRate _ _ _ _) as [[b|e] p'] eqn:Ha; specialize (Hr key config); rewrite Ha in Hr; apply (permits_acquired _ _ _ _ _ _ Hr); unfold held; intros j [Hj|[=]]; [set_solver|apply Hone; congruence|set_solver].
  - apply permits_released. unfold held. intros j. rewrite Hone. by right.
  - apply permits_released. unfold held. intros j. destruct a as [a|]; cbn; [rewrite elem_of_cons; intros [->|]; auto|auto].
Qed.
Lemma advance_state now answer c s l p : call_ok s c → stream_ok s → state_ok c s (advance now answer c s l p).
Proof.
  intros Hc [Hf Hw]. unfold within in Hw. unfold call_ok in Hc.
  destruct c as [r key| |phase| |config key|config key|config key a|config a err|config err|config a b|config key|config key a|config key a|config key|config key|config err|config a| |en|[|a rest] o|o];
    unfold advance; try (destruct (Hc _ eq_refl) as [Hcr Hcfg]; subst config); repeat case_match; unfold state_ok;
    repeat match goal with H : _ || _ = false |- _ => apply orb_false_iff in H as [?%negb_false_iff ?] | H : _ && _ = false |- _ => apply andb_false_iff in H end.
  all: split_and!; [cbn; lia|cbn; lia|intros cfg'; cbn; intros [=]; subst; auto|cbn; intros; split; congruence|].
  all: split; [cbn; first [done|congruence|intros Hn; destruct (Hf Hn); lia]|].
  all: unfold within in *; cbn; first [done|lia|destruct (Hf ltac:(done)); lia].
Qed.

(** ** All interleavings *)
Definition of_stream (k : nat) (f : call → bool) (x : nat * call) : bool := (x.1 =? k)%nat && f x.2.
Definition total (f : call → bool) (k : nat) (calls : list (nat * call)) : Z := zlen (List.filter (of_stream k f) calls).
Record system_ok (sys : System) : Prop := {
  ok_streams k s : sy_streams sys !! k = Some s → stream_ok s ∧ st_sent s = total counts_sent k (sy_calls sys) ∧ st_received s = total counts_received k (sy_calls sys);
  ok_calls i k c : sy_calls sys !! i = Some (k, c) → ∃ s, sy_streams sys !! k = Some s ∧ call_ok s c;
  ok_pool : pool_ok (sy_pool sys);
  ok_live j : is_live (sy_pool sys) j → ∃ i x, sy_calls sys !! i = Some x ∧ j ∈ held x.2
}.
Lemma total_snoc f k calls x : total f k (calls ++ [x]) = total f k calls + Z.b2z (of_stream k f x).
Proof. unfold total. rewrite count_snoc. by destruct (of_stream k f x). Qed.
Lemma total_insert f k calls i k' c c' : calls !! i = Some (k', c) →
  total f k (<[i := (k', c')]> calls) = total f k calls + (if decide (k = k') then Z.b2z (f c') - Z.b2z (f c) else 0).
Proof.
  intros Hi. unfold total. pose proof (count_insert (of_stream k f) _ _ _ (k', c') Hi) as H. unfold of_stream in H at 2 4. cbn in H.
  destruct (decide (k = k')) as [->|Hne]; [rewrite Nat.eqb_refl in H|rewrite (proj2 (Nat.eqb_neq _ _)) in H by done]; cbn in H; lia.
Qed.
Lemma total_none f k calls : (∀ i x, calls !! i = Some x → x.1 ≠ k) → total f k calls = 0.
Proof.
  induction calls as [|x calls IH]; intros H; [done|]. unfold total. cbn. unfold of_stream at 1. rewrite (proj2 (Nat.eqb_neq _ _)) by (by apply (H 0%nat)).
  apply IH. intros i. apply (H (S i)).
Qed.
Lemma enter_idle resolver ctx phase (c := enter resolver ctx phase) : counts_sent c = false ∧ counts_received c = false ∧ config_of c = None ∧ held c = [].
Proof. subst c. unfold enter. by repeat case_match. Qed.
Lemma stream_open_ok resolver sys : system_ok sys → system_ok (sstep resolver sys SOpen).
Proof.
  intros H. split; cbn; [| |apply H|apply H].
  - intros k s [Hk|[Hge Hk]]%lookup_app_Some; [by apply (ok_streams _ H)|]. apply list_lookup_singleton_Some in Hk as [Hk <-].
    rewrite !total_none; [by repeat split| |]; (intros i [k' c] Hi; cbn; destruct (ok_calls _ H _ _ _ Hi) as (s & Hs%lookup_lt_Some & _); lia).
  - intros i k c Hi. destruct (ok_calls _ H _ _ _ Hi) as (s & Hs & Hc). exists s. split; [by apply lookup_app_l_Some|done].
Qed.
Lemma stream_enter_ok resolver sys k ctx phase : system_ok sys → system_ok (sstep resolver sys (SEnter k ctx phase)).
Proof.
  intros H. cbn. destruct (sy_streams sys !! k) as [s|] eqn:Hk; [|done]. destruct (enter_idle resolver ctx phase) as (Hs & Hr & Hc & Hh). split; cbn; [| |apply H|].
  - intros k' s' Hk'. rewrite !total_snoc. unfold of_stream. cbn. rewrite Hs, Hr, !andb_false_r, !Z.add_0_r. by apply (ok_streams _ H).
  - intros i k' c [Hi|[_ Hi]]%lookup_app_Some; [by apply (ok_calls _ H i)|]. apply list_lookup_singleton_Some in Hi as [_ [= <- <-]].
    exists s. split; [done|]. intros cfg. by rewrite Hc.
  - intros j Hj. destruct (ok_live _ H j Hj) as (i & x & Hi & Hx). exists i, x. split; [by apply lookup_app_l_Some|done].
Qed.
Lemma stream_run_ok resolver sys i now answer : system_ok sys → system_ok (sstep resolver sys (SRun i now answer)).
Proof.
  intros H. cbn. destruct (sy_calls sys !! i) as [[k c]|] eqn:Hi; [|done]. destruct (ok_calls _ H _ _ _ Hi) as (s & Hk & Hc). rewrite Hk.
  destruct (ok_streams _ H _ _ Hk) as (Hs & Hsent & Hrec). pose proof (advance_state now answer c s (sy_limiter sys) (sy_pool sys) Hc Hs) as Hst.
  pose proof (advance_permits now answer c s (sy_limiter sys) (sy_pool sys)) as Hp. destruct (advance _ _ _ _ _ _) as [[[c' s'] l'] p'].
  destruct Hst as (Hsent' & Hrec' & Hc' & Hkeep & Hs'), Hp as [Hpool Hlive]. split; cbn.
  - intros k' x Hx. rewrite !(total_insert _ _ _ _ _ _ _ Hi). apply list_lookup_insert_Some in Hx as [(<- & <- & _)|[Hne Hx]].
    + rewrite !decide_True by done. split; [done|]. split; lia.
    + rewrite !decide_False by done. rewrite !Z.add_0_r. by apply (ok_streams _ H).
  - intros i' k' x [(<- & [= <- <-] & _)|[Hne Hx]]%list_lookup_insert_Some; [exists s'; split; [by rewrite list_lookup_insert_eq by (by eapply lookup_lt_Some)|done]|].
    destruct (ok_calls _ H _ _ _ Hx) as (y & Hy & Hcy). destruct (decide (k = k')) as [<-|Hk'].
    + exists s'. split; [by rewrite list_lookup_insert_eq by (by eapply lookup_lt_Some)|]. intros cfg Hcfg. assert (y = s) as -> by congruence.
      destruct (Hcy cfg Hcfg) as [Hcr <-]. by destruct (Hkeep Hcr) as [? ->].
    + exists y. by rewrite list_lookup_insert_ne.
  - apply Hpool, H.
  - intros j [Hj|[Hj Hnot]]%Hlive; [exists i, (k, c'); split; [by rewrite list_lookup_insert_eq by (by eapply lookup_lt_Some)|done]|].
    destruct (ok_live _ H j Hj) as (i' & x & Hx & Hin). exists i', x. split; [|done]. rewrite list_lookup_insert_ne; [done|]. intros <-. rewrite Hi in Hx. injection Hx as <-. done.
Qed.
Lemma stream_steps_ok resolver ops : ∀ sys, system_ok sys → system_ok (ssteps resolver sys ops).
Proof. induction ops as [|o ops IH]; intros sys H; [done|]. apply IH. destruct o; [by apply stream_open_ok|by apply stream_enter_ok|by apply stream_run_ok]. Qed.
Lemma new_system_ok l : system_ok (new_system l).
Proof. split; first [apply new_pool_ok|done|by intros j [k Hk]]. Qed.

(** The calls of a stream that delivered a message under its quota, and those that returned. *)
Definition delivered_sent (c : call) : bool := match c with CDone OSent => true | _ => false end.
Definition delivered_received (c : call) : bool := match c with CDone OReceived => true | _ => false end.
Definition returned (c : call) : bool := match c with CDone _ => true | _ => false end.
Lemma total_cons f k x calls : total f k (x :: calls) = Z.b2z (of_stream k f x) + total f k calls.
Proof. unfold total. cbn. destruct (of_stream k f x); cbn; rewrite ?zlen_cons; lia. Qed.
Lemma calls_total_le f g k calls : (∀ c, f c = true → g c = true) → total f k calls ≤ total g k calls.
Proof.
  intros H. induction calls as [|[k' c] calls IH]; [done|]. rewrite !total_cons. unfold of_stream. cbn. specialize (H c).
  destruct (k' =? k)%nat, (f c), (g c); cbn; lia.
Qed.
Lemma calls_total_ext f g k calls : (∀ i c, calls !! i = Some (k, c) → f c = g c) → total f k calls = total g k calls.
Proof.
  induction calls as [|[k' c] calls IH]; intros H; [done|]. rewrite !total_cons. f_equal; [|apply IH; intros i; apply (H (S i))].
  unfold of_stream. cbn. destruct (Nat.eqb_spec k' k) as [->|]; [|done]. by rewrite (H 0%nat c eq_refl).
Qed.

(** C28: Quotas of streams over all interleavings of their calls, whatever [next] answers and the clock
    reads: a stream never delivers more messages than the quota of the policy it was created with, in
    either direction; when its calls have returned, the quota used is exactly the number of messages delivered,
    so rejected and failed messages gave theirs back; and when all calls have returned, every slot of
    the shared limiters is free again. *)
Theorem stream_quotas resolver l ops (sys := ssteps resolver (new_system l) ops) :
  (∀ k s, sy_streams sys !! k = Some s →
     (0 < sp_MaxSendMessages (st_config s) → total delivered_sent k (sy_calls sys) ≤ sp_MaxSendMessages (st_config s)) ∧
     (0 < sp_MaxReceiveMessages (st_config s) → total delivered_received k (sy_calls sys) ≤ sp_MaxReceiveMessages (st_config s)) ∧
     ((∀ i c, sy_calls sys !! i = Some (k, c) → returned c = true) →
        st_sent s = total delivered_sent k (sy_calls sys) ∧ st_received s = total delivered_received k (sy_calls sys))) ∧
  ((∀ i x, sy_calls sys !! i = Some x → returned x.2 = true) → ∀ key, li_inflight (limiter_of (sy_pool sys) key) = 0).
Proof.
  assert (H : system_ok sys) by (apply stream_steps_ok, new_system_ok). split.
  - intros k s Hk. destruct (ok_streams _ H _ _ Hk) as ([_ [Hs Hr]] & Hsent & Hrec).
    pose proof (calls_total_le delivered_sent counts_sent k (sy_calls sys) ltac:(by intros []; cbn; repeat case_match)).
    pose proof (calls_total_le delivered_received counts_received k (sy_calls sys) ltac:(by intros []; cbn; repeat case_match)).
    split; [lia|]. split; [lia|]. intros Hdone. rewrite Hsent, Hrec. split; apply calls_total_ext; intros i c Hi; specialize (Hdone i c Hi); by destruct c.
  - intros Hdone key. rewrite (pk_inflight _ (ok_pool _ H)). unfold live.
    destruct (List.filter (live_of key) (po_permits (sy_pool sys))) as [|x rest] eqn:Hf; [done|exfalso].
    assert (Hx : In x (List.filter (live_of key) (po_permits (sy_pool sys)))) by (rewrite Hf; by left).
    apply filter_In in Hx as [Hx Hl]. apply list_elem_of_In, list_elem_of_lookup in Hx as [j Hj]. destruct x as [lim rel]. unfold live_of in Hl. cbn in Hl.
    apply andb_true_iff in Hl as [Hlim%bool_decide_eq_true Hrel]. destruct rel; [done|]. subst lim.
    destruct (ok_live _ H j (ex_intro _ key Hj)) as (i & y & Hi & Hin). specialize (Hdone i y Hi). destruct y as [k c]. cbn in *. destruct c; cbn in *; try done. by apply elem_of_nil in Hin.
Qed.

(** Two create events at once both pass the check for duplicates and are both counted, while the
    one finish that is accepted is subtracted once: the stream stays active for ever. *)
Definition w_stream_policy : StreamPolicy := mkStreamPolicy true 2 2 Policy.f0 0 1.
Definition w_stream_resolver (target : operation.Operation) : Policy.Policy :=
  let d := Policy.Default in mkPolicy (po_Timeout d) (po_Retry d) (po_Hedging d) (po_Breaker d) (po_Bulkhead d) (po_RateLimit d) (po_LoadShedding d) w_stream_policy.
Definition w_stream_context : option (option operation.Operation * resolvedContext) := Some (Some w_target, None).
Definition w_run (i : nat) (parts : nat) : list sop := repeat (SRun i second None) parts.
Theorem duplicate_create_counted :
  let ops := [SOpen; SEnter 0 w_stream_context StreamPhaseCreate; SEnter 0 w_stream_context StreamPhaseCreate; SRun 0 second None; SRun 1 second None;
              SRun 0 second None; SRun 1 second None; SEnter 0 w_stream_context StreamPhaseFinish] ++ w_run 2 2 in
  let sys := ssteps w_stream_resolver (new_system (mkLimiter 0 0 0 0 0 0)) ops in
  sy_calls sys = [(0%nat, CDone (OPassed None)); (0%nat, CDone (OPassed None)); (0%nat, CDone (OPassed None))] ∧
  (st_finished <$> sy_streams sys !! 0%nat) = Some true ∧ sl_activeStreams (sy_limiter sys) = 1.
Proof. vm_compute. done. Qed.
(** A stream with room for two messages and one at a time: the second of two sends at once is
    refused by the shared limit and gives its place back. *)
Definition w_ops : list sop :=
  [SOpen; SEnter 0 w_stream_context StreamPhaseCreate; SRun 0 second None; SRun 0 second None;
   SEnter 0 w_stream_context StreamPhaseSend; SEnter 0 w_stream_context StreamPhaseSend] ++ w_run 1 4 ++ w_run 2 4 ++ w_run 1 5.
Definition w_system : System := ssteps w_stream_resolver (new_system (mkLimiter 0 0 0 0 0 0)) w_ops.
Example concurrent_send_refused :
  (λ x, match x.2 with CDone o => Some (result_of o) | _ => None end) <$> sy_calls w_system =
    [Some None; Some None; Some (Some (ErrLimited (Some (RateLimit.ErrLimited None)) StreamPhaseSend))] ∧
  (st_sent <$> sy_streams w_system !! 0%nat) = Some 1 ∧ sl_sentMessages (sy_limiter w_system) = 1 ∧ sl_rejectedMessages (sy_limiter w_system) = 1.
Proof. vm_compute. done. Qed.
Lemma stream_quotas_witness : ∃ s, sy_streams w_system !! 0%nat = Some s ∧ sp_MaxSendMessages (st_config s) = 2 ∧
  total delivered_sent 0 (sy_calls w_system) ≤ 2 ∧ st_sent s = total delivered_sent 0 (sy_calls w_system) ∧ total delivered_sent 0 (sy_calls w_system) = 1 ∧
  li_inflight (limiter_of (sy_pool w_system) "http/orders/Create/unary/stream-messages/concurrency") = 0.
Proof.
  unfold w_system. pose proof (stream_quotas w_stream_resolver (mkLimiter 0 0 0 0 0 0) w_ops) as H. cbv zeta in H. set (sys := ssteps _ _ w_ops) in *.
  assert (Hall : forallb (λ x, returned x.2) (sy_calls sys) = true) by (vm_compute; reflexivity).
  assert (Hmax : (λ s, sp_MaxSendMessages (st_config s)) <$> sy_streams sys !! 0%nat = Some 2) by (vm_compute; reflexivity).
  assert (Hone : total delivered_sent 0 (sy_calls sys) = 1) by (vm_compute; reflexivity).
  clearbody sys. destruct H as [Hq Hp]. destruct (sy_streams sys !! 0%nat) as [s|] eqn:Hs; [|discriminate Hmax]. injection Hmax as Hm.
  assert (Hdone : ∀ i x, sy_calls sys !! i = Some x → returned x.2 = true).
  { intros i x Hi%list_elem_of_lookup_2%list_elem_of_In. rewrite forallb_forall in Hall. by apply Hall. }
  destruct (Hq _ _ Hs) as (H1 & _ & H3). destruct (H3 (λ i c, Hdone i (0%nat, c))) as [Hsent _].
  exists s. split_and!; [done|done|lia|done|done|]. by apply Hp.
Defined.
